(* ===== verification/_CoqProject ===== *)
-Q . S2P
Prelude.v
PmtilesFormat.v
PmtilesReader.v
StdModel.v
Types.v
Hrw.v
Config.v
Dispatcher.v
RenderCache.v
WorkerPool.v
TilesetSources.v
ChunkStore.v
HttpMessage.v
FetchCoordinator.v
SingleFlight.v
Text.v
Floats.v
Json.v
DeliveryAuth.v
AuthRegistry.v
Wire.v
Node.v
Worker.v
Renderer.v
ActorThreads.v
PeerRouting.v
PeerBackend.v
TileArchives.v
Resolver.v
InternalHttp.v
CacheControl.v
ProviderPolicy.v
ProviderFetch.v
ProviderCache.v
ResourceTemplates.v
ProviderHandlers.v
Overlays.v
AddLayers.v
PublicRequests.v
Admission.v
PublicIngress.v
ResourcePolicy.v
FileSource.v
FileSourceTasks.v
FloatMath.v
Topology.v
ShadeArcs.v
ShadeRings.v
Shades.v
Dem.v
Contours.v
ContourLines.v
ContourSimplify.v
ContourTiles.v
MltTiles.v
CpuWork.v
PublicTiles.v
