(* ===== verification/Prelude.v ===== *)
(** * Verification of the Biei / Ishikari map platform

    The repository holds two map servers and the libraries they share. Biei
    ([crates/biei-core], [servers/biei]) renders static maps: nodes form a
    cluster, gossip the state of their workers, route each render task to a node
    that is warm for its style, and cache the images. Ishikari
    ([crates/ishikari-core], [servers/ishikari]) serves PMTiles archives from
    object stores through chunk caches and peers. [crates/mmpf-pmtiles] decodes
    the archive format, [crates/mmpf-common] and the other [mmpf-*] crates hold
    what both services use.

    This development models the parts that carry the core logic, in the order in
    which data flows through them, and proves them correct.

    ** Files

    - Prelude (this file): results that may panic ([Res]), state-passing
      computations ([SM]), machine integers, [slice::binary_search_by], tactics
      and the hint database [platform].
    - PmtilesFormat: [mmpf-pmtiles/src/format.rs]. Tile ids, header, varints,
      directories and the directory search.
    - PmtilesReader: [mmpf-pmtiles/src/reader.rs]. The bounded directory walk over
      the interface [ArchiveBackend], and the raw-range backend that implements it.
    - StdModel: what the sources use of Rust's ordered maps, stable sorting and
      string methods.
    - Types: [biei-core/src/types.rs]. Tasks, outcomes, authorization namespace
      sets, the gossiped node state and its key-value encoding.
    - Hrw: [biei-core/src/hrw.rs] and the mixers of [mmpf-common/src/rng.rs].
    - Config: [biei-core/src/config.rs]. Queue limits and permits of a node.
    - Dispatcher: [biei-core/src/dispatcher.rs]. The four routing tiers; it reads
      the node states of Types, the weights of Hrw and the limits of Config.
    - RenderCache: [biei-core/src/render_cache.rs]. Cache keys, authorized hits,
      render flights as a transition system.
    - WorkerPool: [biei-core/src/worker_pool.rs]. The pool state, the pick of a
      worker, and the reservations of concurrent threads; its snapshots are the
      node states the dispatcher of another node decodes.
    - TilesetSources: [ishikari-core/src/interned.rs], the entry selection of
      [mmpf-common/src/resource_templates.rs] and the object paths of
      [ishikari-core/src/storage/chunked_store/fetcher.rs].
    - ChunkStore: [ishikari-core/src/storage/chunked_store/store.rs], the ranged
      fetches of [fetcher.rs], [ishikari-core/src/storage/tuning.rs]. Reads are
      proved against the class [ChunkCoordinator] with its laws.
    - HttpMessage: requests and responses of the [http] crate as the handlers use
      them: header lists, status codes, extensions.
    - FetchCoordinator: [ishikari-core/src/storage/chunked_store/coordinator.rs].
      Fetch states, schedulers, group tasks, waiters and permits as interleaved
      steps; it implements the class and discharges its laws.
    - SingleFlight: [mmpf-common/src/singleflight.rs]. One leader per key, its
      followers and what they are told.
    - Text, Floats, Json: what the sources use of Rust's text splitting and number
      parsing, of binary64 ([str::parse::<f64>] with the correct rounding of
      [SpecFloat]) and of [serde_json] values; JSON text is the class [JsonText]
      with its laws and an instance that satisfies them.
    - DeliveryAuth: the credential side of [mmpf-auth/src/lib.rs] (registry
      catalog, tokens, registry documents, the decision) and its use in
      [servers/biei/src/http/ingress.rs]; libraries behind the class
      [AuthExternals].
    - AuthRegistry: the registry cache of [mmpf-auth/src/lib.rs] as interleaved
      steps of requests over SingleFlight; the documents are those of DeliveryAuth.
    - Wire: [biei-core/src/wire.rs] and both ends of a forwarded request in
      [servers/biei/src/http/internal.rs].
    - Node: [biei-core/src/node.rs] (an incoming and a forwarded request over the
      class [NodeWorld]) and [biei-core/src/style_catalog.rs].
    - Worker: [biei-core/src/worker.rs]. The loop and the stages of a worker over
      the class [WorkerWorld] (the renderer trait, clock and semaphores); its
      outcomes are what Node expects of the pool.
    - Renderer: [servers/biei/src/renderer/maplibre.rs] with [actor/protocol.rs],
      [actor/backend.rs] and [actor/supervisor.rs], over the class [Native]; it
      implements [WorkerWorld].
    - ActorThreads: the threads of abandoned actors and the slots of all
      renderers, as interleaved steps over the supervisor of Renderer.
    - PeerRouting: [ishikari-core/src/storage/routing.rs] and
      [cluster_metadata.rs]. Rendezvous placement of tile groups on peers.
    - PeerBackend: [ishikari-core/src/storage/peer.rs]. Routed requests with backoff,
      paths and limits of the internal protocol, the bootstrap wire format; over the
      class [PeerWorld], with what peers promise as the class [PeerLaws].
    - TileArchives: [ishikari-core/src/pmtiles/cache.rs], [pmtiles/reader.rs],
      [storage/pmtiles.rs] and [cache.rs]. The state of a tile node, its caches and
      flights, and the archive backend that PmtilesReader walks, over the class
      [TileWorld] (peers, chunk store, other tasks, evictions) with its laws
      [TileLaws]; a node is [coherent] when its caches agree with the archives.
    - Resolver: [ishikari-core/src/storage/resolver.rs]. Tile requests, tileset
      information, and the protocol by which a node serves its peers.
    - InternalHttp: both HTTP ends of that protocol, the handlers of
      [servers/ishikari/src/server] and [servers/ishikari/src/internal_transport.rs].
    - CacheControl: [mmpf-http/src/cache_control.rs] and [content_type.rs].
    - ProviderPolicy, ProviderFetch, ProviderCache:
      [servers/ishikari/src/server/upstream.rs] and [upstream/]. The cache policy of
      a provider answer, one exchange with an origin, and the cache with its single
      flight, admission and revalidation as interleaved steps.
    - ResourceTemplates: [mmpf-common/src/resource_templates.rs] and
      [servers/ishikari/src/provider.rs]. URL templates of the providers.
    - ProviderHandlers: [servers/ishikari/src/server/glyph.rs], [sprite.rs] and
      [style.rs]. Provider endpoints, public and internal, over ProviderCache and
      the peers of PeerBackend.
    - Overlays, AddLayers, PublicRequests: [servers/biei/src/http]: [overlay/],
      [addlayer.rs], and [path.rs], [query.rs], [tile.rs], [static_image.rs]. The URL
      language of tiles and static images and the validation a peer applies to what
      another node forwards.
    - Admission: [servers/biei/src/drain.rs] and the admission of
      [http/adapter.rs], as interleaved atomic steps.
    - PublicIngress: [servers/biei/src/http]: the public route with its layers and
      the forward route, over PublicRequests, DeliveryAuth, Node and Wire.
    - ResourcePolicy: [mmpf-mln-filesource/src/policy.rs] and its address checks.
      Which URLs a renderer may fetch, over the class [UrlLib].
    - FileSource, FileSourceTasks: [mmpf-mln-filesource/src]: [source.rs], [source/]
      and [http.rs]. The file source of the renderer: exchanges, cache and retries as
      functions, then its requests, network tasks and flights as interleaved steps.
    - FloatMath: the binary32 and binary64 operations of the terrain sources, over
      [SpecFloat].
    - Topology, ShadeArcs, ShadeRings, Shades: [mmpf-terrain/src/topology.rs]. Shade
      bands of a grid of levels: the edges and the arcs between junctions, the rings
      assembled from them, and the bands with their shared arcs.
    - Dem, Contours, ContourLines, ContourSimplify, ContourTiles:
      [mmpf-terrain/src/dem.rs] and [contours.rs]. Decoding of elevation tiles,
      marching squares over a tile, the assembly of segments into lines, their
      simplification, and the contours of a tile and of its neighbour.
    - MltTiles: [servers/ishikari/src/server/tileset/mlt.rs]. The tile format a
      request asks for, narrowed columns and transcoding, over the classes [MltCore]
      and [LayerBuilder].
    - CpuWork: [servers/ishikari/src/server/cpu_work.rs]. Admission of CPU-heavy work
      as interleaved atomic steps.
    - PublicTiles: [servers/ishikari/src/server/tileset/tile.rs] and [mapterhorn.rs].
      The public tile endpoint and composite tilesets, over Resolver, MltTiles and the
      gate of CpuWork; what waits is the class [AppWorld] with its laws [AppLaws].

    ** What the theorems show

    - Archive format (C4): the directory search finds exactly the owner of a tile id.
      Lemmas add that directories survive encoding and parsing, that the varint
      reader accepts exactly the encodings of 64-bit values, that every parsed
      directory is well formed, the header layout, and that tile ids identify tiles.
    - Archive reader (C10, C11): over any bytes the reader ends with a value or an
      error, walks at most the configured depth and returns only ranges that lie in
      their section; the directory store never changes a result.
    - Tile serving (C5, C7, C14, C18, C24): a node that is coherent answers tile
      requests and questions about a tileset with what the archive holds, whether
      from caches, peers or the store, and stays coherent; over any network its
      peers take only such answers from it, which is the promise each node's own
      theorem assumes of the others; the candidates of a request are the rendezvous
      order without the peers that back off; bootstrap transfers round-trip, except
      for the case noted there; the public endpoint answers each request with the
      tile of the archive that serves it, as stored or transcoded. Lemmas add that
      narrowing loses no value and that admitted work is bounded.
    - Providers (C3, C17, C20, C27, C31): answers are bytes the origin
      delivered for that key, used within the policy it declared (whose text is a
      normal form); every fetch ends in a complete and validated body or an error;
      what a node learns from a peer is what the owner fetched; the load on origins
      is bounded and every request can be answered; identifiers cannot change the
      origin or the shape of a provider URL.
    - Public render requests (C1, C8, C9, C13, C25, C29): the guards of the public
      and the forward route, the drain protocol in every interleaving, tile URLs,
      encoded polylines, and which accepted requests every peer accepts too.
    - Render requests (C16): every request is answered for its task, follows the
      dispatcher's decision, and starts nothing after its work was taken.
    - Routing (C19): every decision is allowed by its tier.
    - Image cache (C21, C22): no follower is stranded, hits are authorized.
    - Worker pool (lemmas): counters are exact under every operation, the pick is
      optimal, and the queue depth holds in every interleaving.
    - Workers and renderers (C6, C26, C28, C30): every command is answered once and
      in time; renders happen only on a renderer set up for their profile and
      credential; which document an actor draws with (and that it is selected by the
      revision alone); abandoned threads are bounded and the budget never leaks.
    - Tile storage (C33, C34): every waiter can be answered, and the whole path from
      reader to object store is exact; a lemma bounds the load.
    - Delivery authorization (C35 to C38): the decision on a credential is what
      the registry document says, the ingress attaches what was granted, registry
      loads keep their state well formed, and no registry goes back to an older
      revision.
    - Forwarding (C39): a forwarded task keeps its content and its deadline; lemmas
      add that a response gives back the outcome it was made from.
    - File source (C2, C12, C23, C40): a renderer's requests reach only the hosts the
      policy permits, redirects included; in every interleaving an answer is what
      the origin delivered for that resource and credential, every request can be
      answered, and sharing an exchange does not change a request's answer.
    - Terrain (C15, C32): the rings of a shade band enclose exactly the cells of the
      band, with neighbours sharing their arcs; the contours of a tile cross exactly
      the cells the marching squares say, and meet at tile seams.

    ** Conventions and bounds

    Integers are [Z] with the checks, saturation or wrap-around of the source
    written out; [usize] has 64 bits and unchecked arithmetic wraps, as in release
    builds. A panic is the outcome [Panic], so panic freedom is a theorem. Futures
    are sequenced computations, or steps of a transition system where tasks
    interleave; instants and durations are integers. Floating-point settings use
    the binary64 operations of [SpecFloat], and numbers of a URL are parsed with
    them; other floats are bit patterns. The fuel
    of the directory walk is the configured depth plus one, which the walk never
    exhausts (C10); the loops over flights take a number of rounds that exceeds the
    flights a request joins, and is then never exhausted (C5); decimal printing has the twenty digits of a
    64-bit value; the varint printer has ten bytes; a ring walk takes at most as many
    steps as there are arcs, and the loop of the contour simplification at most four
    per vertex. Coordinates of terrain grids lie far from the ends of [i32].
    Readings of the system clock are inputs. Atomics and mutexes of the drain
    protocol are sequentially consistent. Third-party code (stream decoders, Hilbert curve,
    random generator, hashers, object store, path encoding, JSON, URL and SHA-256
    libraries) is a parameter with its documented behaviour as a hypothesis.

    ** Not modelled

    Command lines, signal handling, listeners, native rendering and transports are
    input and output around this logic. Metrics and logs are left out. The parsing
    of tileset source specifications, Ishikari's TileJSON and style endpoints and
    cached peer snapshot, Biei's cached cluster view and profile preparation, the
    tones and polygons of hillshades with the terrain endpoints, the cluster crate,
    and the simulators are not modelled: drawing is done by native code, the
    endpoints are glue over the parts above, and the simulators test them. *)

From stdpp Require Export base option list gmap strings sorting.
From Stdlib Require Export ZArith Lia.
#[export] Set Default Goal Selector "!".

(** Machine integers are integers [Z] in range. *)
#[global] Open Scope Z_scope.

Declare Scope platform_scope.
Delimit Scope platform_scope with platform.

(** ** Fallible computations

    A Rust function that returns [Result<A, E>] and that may also panic
    (out-of-range slice, [expect], exhausted buffer) is a value of [Res E A]. *)
Inductive Res (E A : Type) : Type :=
  | Ok (a : A)
  | Err (e : E)
  | Panic.
Arguments Ok {E A} a.
Arguments Err {E A} e.
Arguments Panic {E A}.

#[export] Instance Res_ret {E} : MRet (Res E) := fun A a => Ok a.
#[export] Instance Res_bind {E} : MBind (Res E) := fun A B f r =>
  match r with Ok a => f a | Err e => Err e | Panic => Panic end.
#[export] Instance Res_fmap {E} : FMap (Res E) := fun A B f r =>
  match r with Ok a => Ok (f a) | Err e => Err e | Panic => Panic end.

Lemma bind_Ok {E A B} (r : Res E A) (f : A -> Res E B) b : r ≫= f = Ok b -> exists a, r = Ok a /\ f a = Ok b.
Proof. destruct r; cbn; naive_solver. Qed.

(** [Option::or]. *)
Definition or_else {A} (a b : option A) : option A := match a with Some _ => a | None => b end.

(** [Option::ok_or] and [Context::context]. *)
Definition ok_or {E A} (e : E) (o : option A) : Res E A :=
  match o with Some a => Ok a | None => Err e end.

(** [Result::map_err]. *)
Definition map_err {E F A} (f : E -> F) (r : Res E A) : Res F A :=
  match r with Ok a => Ok a | Err e => Err (f e) | Panic => Panic end.

(** [bail!] under a condition. *)
Definition ensure {E} (b : bool) (e : E) : Res E unit :=
  if b then Ok tt else Err e.

Definition is_ok {E A} (r : Res E A) : bool :=
  match r with Ok _ => true | _ => false end.

(** A fallible computation that also updates a state (interior mutability
    behind [&self], I/O): the state survives an error. *)
Definition SM (S E A : Type) : Type := S -> Res E A * S.
#[export] Instance SM_ret {S E} : MRet (SM S E) := fun A a s => (Ok a, s).
#[export] Instance SM_bind {S E} : MBind (SM S E) := fun A B f c s =>
  match c s with
  | (Ok a, s) => f a s
  | (Err e, s) => (Err e, s)
  | (Panic, s) => (Panic, s)
  end.
(** A stateless fallible step. *)
Definition lift {S E A} (r : Res E A) : SM S E A := fun s => (r, s).
(** A state update that cannot fail. *)
Definition modify {S E} (f : S -> S) : SM S E unit := fun s => (Ok tt, f s).

(** ** Machine integers *)

Definition u8_max : Z := 2 ^ 8 - 1.
Definition u16_max : Z := 2 ^ 16 - 1.
Definition u32_max : Z := 2 ^ 32 - 1.
Definition u64_max : Z := 2 ^ 64 - 1.
(** [usize] on the 64-bit targets the servers are built for. *)
Definition usize_max : Z := u64_max.

Definition is_u (max z : Z) : Prop := 0 <= z <= max.
Abbreviation is_u8 := (is_u u8_max).
Abbreviation is_u32 := (is_u u32_max).
Abbreviation is_u64 := (is_u u64_max).
Abbreviation is_usize := (is_u usize_max).

(** [u64::checked_add], [u64::checked_mul], [u64::checked_shl]. *)
Definition checked_add (a b : Z) : option Z :=
  if a + b <=? u64_max then Some (a + b) else None.
Definition checked_mul (a b : Z) : option Z :=
  if a * b <=? u64_max then Some (a * b) else None.
Definition wrap64 (z : Z) : Z := z mod 2 ^ 64.
Definition wrapping_add (a b : Z) : Z := wrap64 (a + b).
Definition wrapping_sub (a b : Z) : Z := wrap64 (a - b).
Definition wrapping_mul (a b : Z) : Z := wrap64 (a * b).
(** [1_u64.checked_shl(n)]: [None] when the shift is at least the width. *)
Definition checked_shl (a n : Z) : option Z :=
  if n <? 64 then Some (wrap64 (Z.shiftl a n)) else None.
Definition saturating_sub (a b : Z) : Z := Z.max 0 (a - b).
Definition saturating_add (a b : Z) : Z := Z.min u64_max (a + b).

(** [u32::try_from] of a non-negative value. *)
Definition u32_try_from (z : Z) : option Z :=
  if z <=? u32_max then Some z else None.
(** [usize::try_from(u64)] on a 64-bit target. *)
Definition usize_try_from (z : Z) : option Z :=
  if z <=? usize_max then Some z else None.

(** ** Tactics *)

(** Decode a comparison or a connective on booleans into propositions. *)
Ltac bool_props :=
  repeat match goal with
  | H : (_ && _)%bool = true |- _ => apply andb_prop in H; destruct H
  | H : (_ || _)%bool = false |- _ => apply orb_false_elim in H; destruct H
  | H : negb _ = true |- _ => apply negb_true_iff in H
  | H : negb _ = false |- _ => apply negb_false_iff in H
  | H : (_ <=? _) = true |- _ => apply Z.leb_le in H
  | H : (_ <=? _) = false |- _ => apply Z.leb_gt in H
  | H : (_ <? _) = true |- _ => apply Z.ltb_lt in H
  | H : (_ <? _) = false |- _ => apply Z.ltb_ge in H
  | H : (_ =? _) = true |- _ => apply Z.eqb_eq in H
  | H : (_ =? _) = false |- _ => apply Z.eqb_neq in H
  end.

(** Invert a chain of binds, naming the intermediate values [a], [a0], ... and
    their equations [E], [E0], ... *)
Ltac res_case H r :=
  lazymatch type of r with
  | Res _ _ =>
      let E := fresh "E" in let a := fresh "a" in
      lazymatch r with
      | ok_or _ ?o => destruct o as [a|] eqn:E
      | map_err _ ?r' => destruct r' as [a|?|] eqn:E
      | ensure ?b _ => destruct b eqn:E
      | _ => destruct r as [a|?|] eqn:E
      end;
      cbn [ok_or map_err ensure] in H; unfold mbind, Res_bind in H; cbn beta iota in H
  end.
Ltac res_step :=
  match goal with
  | H : Ok _ = Ok _ |- _ => injection H as H; subst
  | H : Err _ = Err _ |- _ => injection H as H; subst
  | H : Ok _ = Err _ |- _ => discriminate H
  | H : Err _ = Ok _ |- _ => discriminate H
  | H : Panic = _ |- _ => discriminate H
  | H : _ = Panic |- _ => discriminate H
  | H : mbind _ ?r = _ |- _ => res_case H r
  | H : match ?r with _ => _ end = _ |- _ => res_case H r
  | H : ok_or _ ?o = _ |- _ =>
      let E := fresh "E" in let a := fresh "a" in
      destruct o as [a|] eqn:E; cbn [ok_or] in H
  | H : map_err _ ?r = _ |- _ =>
      let E := fresh "E" in let a := fresh "a" in
      destruct r as [a|?|] eqn:E; cbn [map_err] in H
  | H : ensure ?b _ = _ |- _ =>
      let E := fresh "E" in destruct b eqn:E; cbn [ensure] in H
  end.
Ltac res_inv := repeat res_step.

(** Run the binds whose first computation is already a value. *)
Ltac res_simpl := cbn [mbind Res_bind ok_or map_err ensure].

(** ** Generic lemmas *)

Lemma ok_or_Ok {E A} (e : E) (o : option A) a : ok_or e o = Ok a <-> o = Some a.
Proof. destruct o; simpl; split; congruence. Qed.

Lemma Res_bind_Ok {E A B} (r : Res E A) (f : A -> Res E B) b :
  (r ≫= f) = Ok b <-> exists a, r = Ok a /\ f a = Ok b.
Proof.
  destruct r; simpl; split; intros H; try discriminate; eauto.
  - by destruct H as (? & [= <-] & ?).
  - by destruct H as (? & ? & ?).
  - by destruct H as (? & ? & ?).
Qed.

Lemma Res_bind_no_panic {E A B} (r : Res E A) (f : A -> Res E B) :
  r <> Panic -> (forall a, r = Ok a -> f a <> Panic) -> (r ≫= f) <> Panic.
Proof. destruct r; simpl; intros H1 H2; try congruence. by apply H2. Qed.

(** A traversal succeeds when every step does. *)
Lemma mapM_Ok {E A B} (f : A -> Res E B) l k :
  mapM f l = Ok k <-> Forall2 (fun x y => f x = Ok y) l k.
Proof.
  split.
  - revert k. induction l as [|x l IH]; intros k; cbn.
    + intros [= <-]. constructor.
    + intros (y & Hy & (ys & Hys & [= <-])%Res_bind_Ok)%Res_bind_Ok. constructor; auto.
  - induction 1 as [|x y l k Hxy _ IH]; cbn; [done|]. rewrite Hxy. cbn. by rewrite IH.
Qed.

Lemma ok_or_no_panic {E A} (e : E) (o : option A) : ok_or e o <> Panic.
Proof. by destruct o. Qed.

Lemma ensure_no_panic {E} b (e : E) : ensure b e <> Panic.
Proof. by destruct b. Qed.

Lemma map_err_no_panic {E F A} (f : E -> F) (r : Res E A) : r <> Panic -> map_err f r <> Panic.
Proof. by destruct r. Qed.

(** Replacing one element changes a count by its own contribution. *)
Lemma filter_count_insert {A} (f : A -> bool) l i x y :
  l !! i = Some x ->
  Z.of_nat (length (List.filter f (<[i := y]> l))) =
  Z.of_nat (length (List.filter f l)) - Z.b2z (f x) + Z.b2z (f y).
Proof.
  revert i. induction l as [|z l IH]; intros [|i] Hi; try done.
  - injection Hi as ->. change (<[0%nat := y]> (x :: l)) with (y :: l). cbn [List.filter].
    destruct (f x), (f y); cbn [length Z.b2z]; lia.
  - change (<[S i := y]> (z :: l)) with (z :: <[i := y]> l). specialize (IH i Hi).
    cbn [List.filter]. destruct (f z); cbn [length]; lia.
Qed.

Lemma filter_count_snoc {A} (f : A -> bool) l x :
  Z.of_nat (length (List.filter f (l ++ [x]))) = Z.of_nat (length (List.filter f l)) + Z.b2z (f x).
Proof. rewrite List.filter_app, length_app. cbn [List.filter]. destruct (f x); cbn [length Z.b2z]; lia. Qed.

(** How many elements satisfy [f]. *)
Definition count {A} (f : A -> bool) (l : list A) : Z := Z.of_nat (length (List.filter f l)).
Lemma count_insert {A} (f : A -> bool) l i x y :
  l !! i = Some x -> count f (<[i := y]> l) = count f l - Z.b2z (f x) + Z.b2z (f y).
Proof. apply filter_count_insert. Qed.
Lemma count_snoc {A} (f : A -> bool) l x : count f (l ++ [x]) = count f l + Z.b2z (f x).
Proof. apply filter_count_snoc. Qed.
Lemma count_pos {A} (f : A -> bool) l : 0 <= count f l.
Proof. unfold count. lia. Qed.
Lemma count_exists {A} (f : A -> bool) (l : list A) : 0 < count f l -> exists i x, l !! i = Some x /\ f x = true.
Proof.
  unfold count. intros Hf. destruct (List.filter f l) as [|x l'] eqn:E; [cbn in Hf; lia|].
  assert (Hin : In x (List.filter f l)) by (rewrite E; by left). apply filter_In in Hin as [Hin Hx].
  apply list_elem_of_In, list_elem_of_lookup in Hin as [i Hi]. eauto.
Qed.
Lemma count_ge {A} (f : A -> bool) l i x : l !! i = Some x -> f x = true -> 1 <= count f l.
Proof.
  intros Hi Hf. pose proof (count_insert f l i x x Hi). revert Hi.
  assert (Hg : forall l i, l !! i = Some x -> 1 <= count f l); [|by apply Hg].
  clear -Hf. induction l as [|y l IH]; intros [|i] Hi; try done.
  - injection Hi as ->. unfold count. cbn [List.filter]. rewrite Hf. cbn [length]. lia.
  - specialize (IH i Hi). unfold count in *. cbn [List.filter]. destruct (f y); cbn [length]; lia.
Qed.
Lemma count_le_length {A} (f : A -> bool) l : count f l <= Z.of_nat (length l).
Proof.
  unfold count. induction l as [|x l IH]; [done|]. cbn [List.filter]. destruct (f x); cbn [length]; lia.
Qed.
Lemma count_zero {A} (f : A -> bool) l : count f l = 0 <-> Forall (fun x => f x = false) l.
Proof.
  unfold count. induction l as [|x l IH]; [done|]. cbn [List.filter]. rewrite Forall_cons.
  destruct (f x) eqn:Hx; cbn [length]; [|rewrite <- IH; lia]. split; [lia|by intros [? _]].
Qed.

(** Every state reached by a computation satisfies [I], if the start does. *)
Definition sm_preserves {S E A} (I : S -> Prop) (c : SM S E A) : Prop :=
  forall s, I s -> I (c s).2.

Lemma sm_preserves_bind {S E A B} (I : S -> Prop) (c : SM S E A) (f : A -> SM S E B) :
  sm_preserves I c -> (forall a, sm_preserves I (f a)) -> sm_preserves I (c ≫= f).
Proof.
  intros Hc Hf s Hs. specialize (Hc s Hs).
  unfold mbind, SM_bind. destruct (c s) as [[a|e|] s']; simpl in *; auto. by apply Hf.
Qed.

Lemma sm_preserves_lift {S E A} (I : S -> Prop) (r : Res E A) : sm_preserves I (@lift S E A r).
Proof. by intros s Hs. Qed.

Lemma sm_preserves_ret {S E A} (I : S -> Prop) (a : A) : sm_preserves I (mret a : SM S E A).
Proof. by intros s Hs. Qed.

(** The computation returns a value or an error from every state. *)
Definition sm_total {S E A} (c : SM S E A) : Prop := forall s, (c s).1 <> Panic.

Lemma sm_total_bind_post {S E A B} (Q : A -> Prop) (c : SM S E A) (f : A -> SM S E B) :
  sm_total c -> (forall s a, (c s).1 = Ok a -> Q a) -> (forall a, Q a -> sm_total (f a)) ->
  sm_total (c ≫= f).
Proof.
  intros Hc HQ Hf s. specialize (Hc s). specialize (HQ s). unfold mbind, SM_bind.
  destruct (c s) as [[a|e|] s'] eqn:E'; simpl in *; [by eapply Hf, HQ|done|done].
Qed.

Lemma sm_total_bind {S E A B} (c : SM S E A) (f : A -> SM S E B) :
  sm_total c -> (forall a, sm_total (f a)) -> sm_total (c ≫= f).
Proof. intros Hc Hf. by apply (sm_total_bind_post (fun _ => True)). Qed.

Lemma sm_total_lift {S E A} (r : Res E A) : r <> Panic -> sm_total (@lift S E A r).
Proof. by intros H s. Qed.

Lemma sm_total_ret {S E A} (a : A) : sm_total (mret a : SM S E A).
Proof. by intros s. Qed.

(** Inversion of a successful bind. *)
Lemma SM_bind_Ok {S E A B} (c : SM S E A) (f : A -> SM S E B) s b s' :
  (c ≫= f) s = (Ok b, s') <-> exists a s1, c s = (Ok a, s1) /\ f a s1 = (Ok b, s').
Proof.
  unfold mbind, SM_bind. destruct (c s) as [[a|e|] s1]; split.
  all: try (intros H; eauto; fail); try (intros H; simplify_eq; fail).
  all: by intros (? & ? & ? & ?); simplify_eq.
Qed.

(** A postcondition of a computation, for its values and for its errors; it also
    says that the computation does not panic. *)
Definition sm_post {S E A} (P : S -> Prop) (c : SM S E A) (Q : A -> S -> Prop) (X : E -> S -> Prop) : Prop :=
  forall s, P s -> match c s with (Ok a, s') => Q a s' | (Err e, s') => X e s' | (Panic, _) => False end.

Lemma sm_post_bind {S E A B} P Q R X (c : SM S E A) (f : A -> SM S E B) :
  sm_post P c Q X -> (forall a, sm_post (Q a) (f a) R X) -> sm_post P (c ≫= f) R X.
Proof.
  intros Hc Hf s Hs. specialize (Hc s Hs). unfold mbind, SM_bind.
  destruct (c s) as [[a|e|] s']; [by apply Hf|done..].
Qed.

Lemma sm_post_ret {S E A} (P : S -> Prop) (a : A) (Q : A -> S -> Prop) (X : E -> S -> Prop) :
  (forall s, P s -> Q a s) -> sm_post P (mret a) Q X.
Proof. intros H s Hs. by apply H. Qed.

Lemma sm_post_lift {S E A} (P : S -> Prop) (r : Res E A) (Q : A -> S -> Prop) (X : E -> S -> Prop) :
  r <> Panic -> (forall a s, r = Ok a -> P s -> Q a s) -> (forall e s, r = Err e -> P s -> X e s) ->
  sm_post P (lift r) Q X.
Proof. intros Hp HQ HX s Hs. unfold lift. destruct r; [by apply HQ|by apply HX|done]. Qed.

Lemma sm_post_conseq {S E A} (P P' : S -> Prop) (c : SM S E A) Q Q' X X' :
  sm_post P c Q X -> (forall s, P' s -> P s) -> (forall a s, Q a s -> Q' a s) ->
  (forall e s, X e s -> X' e s) -> sm_post P' c Q' X'.
Proof.
  intros Hc HP HQ HX s Hs. specialize (Hc s (HP s Hs)). destruct (c s) as [[a|e|] s']; auto.
Qed.

(** A call whose error is handled by the caller. *)
Definition sm_attempt {S E F A} (c : SM S E A) : SM S F (E + A) := fun s =>
  match c s with
  | (Ok a, s) => (Ok (inr a), s)
  | (Err e, s) => (Ok (inl e), s)
  | (Panic, s) => (Panic, s)
  end.

Lemma sm_post_attempt {S E F A} P (c : SM S E A) Q X (Y : F -> S -> Prop) :
  sm_post P c Q X ->
  sm_post P (sm_attempt c) (fun r s => match r with inr a => Q a s | inl e => X e s end) Y.
Proof. intros Hc s Hs. specialize (Hc s Hs). unfold sm_attempt. destruct (c s) as [[a|e|] s']; done. Qed.

(** A reading of the state, and an update of it. *)
Definition sm_gets {S E A} (f : S -> A) : SM S E A := fun s => (Ok (f s), s).

Lemma checked_add_Some a b c :
  checked_add a b = Some c <-> c = a + b /\ a + b <= u64_max.
Proof.
  unfold checked_add. destruct (Z.leb_spec (a + b) u64_max); split.
  all: intros; simplify_eq; intuition (subst; (congruence || lia)).
Qed.

Lemma checked_add_None a b : checked_add a b = None <-> u64_max < a + b.
Proof.
  unfold checked_add. destruct (Z.leb_spec (a + b) u64_max); split; intros; (done || lia).
Qed.

Lemma checked_mul_Some a b c :
  checked_mul a b = Some c <-> c = a * b /\ a * b <= u64_max.
Proof.
  unfold checked_mul. destruct (Z.leb_spec (a * b) u64_max); split.
  all: intros; simplify_eq; intuition (subst; (congruence || lia)).
Qed.

Lemma u32_try_from_Some a b : u32_try_from a = Some b <-> b = a /\ a <= u32_max.
Proof.
  unfold u32_try_from. destruct (Z.leb_spec a u32_max); split.
  all: intros; simplify_eq; intuition (subst; (congruence || lia)).
Qed.

Lemma usize_try_from_Some a b : usize_try_from a = Some b <-> b = a /\ a <= usize_max.
Proof.
  unfold usize_try_from. destruct (Z.leb_spec a usize_max); split.
  all: intros; simplify_eq; intuition (subst; (congruence || lia)).
Qed.

Lemma wrap64_range z : is_u64 (wrap64 z).
Proof.
  unfold is_u, wrap64, u64_max.
  pose proof (Z.mod_pos_bound z (2 ^ 64)). lia.
Qed.

Lemma wrap64_small z : is_u64 z -> wrap64 z = z.
Proof. unfold is_u, wrap64, u64_max. intros. apply Z.mod_small. lia. Qed.

Lemma wrapping_sub_small a b : is_u64 (a - b) -> wrapping_sub a b = a - b.
Proof. apply wrap64_small. Qed.

Lemma wrapping_add_small a b : is_u64 (a + b) -> wrapping_add a b = a + b.
Proof. apply wrap64_small. Qed.

Create HintDb platform discriminated.
Create Rewrite HintDb platform.
#[export] Hint Resolve wrap64_range sm_preserves_bind sm_preserves_lift sm_preserves_ret sm_total_ret : platform.
#[export] Hint Rewrite @ok_or_Ok checked_add_Some checked_mul_Some u32_try_from_Some
  usize_try_from_Some : platform.

(** ** [slice::binary_search_by]

    The standard library's algorithm: the window [base, base + size) is halved
    until one element is left, then that element decides. *)
Inductive Search : Type :=
  | Found (i : nat)
  | Insert (i : nat).

Section BinarySearch.
Context {A : Type} (f : A -> comparison).

Fixpoint bs_loop (fuel size base : nat) (l : list A) : nat :=
  match fuel with
  | O => base
  | S fuel =>
      if (size <=? 1)%nat then base
      else
        let half := (size / 2)%nat in
        let mid := (base + half)%nat in
        let base' := match l !! mid with
                     | Some x => match f x with Gt => base | _ => mid end
                     | None => base
                     end in
        bs_loop fuel (size - half)%nat base' l
  end.

Definition binary_search_by (l : list A) : Search :=
  match length l with
  | O => Insert 0
  | size =>
      let base := bs_loop size size 0 l in
      match f <$> l !! base with
      | Some Eq => Found base
      | Some Lt => Insert (base + 1)
      | _ => Insert base
      end
  end.

(** The comparator sees the slice as [Lt ... Lt Eq ... Eq Gt ... Gt]. *)
Definition partitioned (l : list A) : Prop :=
  forall i j x y, (i <= j)%nat -> l !! i = Some x -> l !! j = Some y ->
    (f x = Gt -> f y = Gt) /\ (f y = Lt -> f x = Lt).

Definition bs_inv (l : list A) (base size : nat) : Prop :=
  (1 <= size)%nat /\ (base + size <= length l)%nat /\
  (base = 0%nat \/ exists x, l !! base = Some x /\ f x <> Gt) /\
  (forall j x, (base + size <= j)%nat -> l !! j = Some x -> f x = Gt).

Lemma bs_loop_inv l fuel size base :
  partitioned l -> bs_inv l base size -> (size <= S fuel)%nat ->
  bs_inv l (bs_loop fuel size base l) 1.
Proof.
  intros Hp. revert size base; induction fuel as [|fuel IH];
    intros size base (Hs & Hlen & Hb & Hgt) Hf; cbn [bs_loop].
  - replace size with 1%nat in * by lia. done.
  - destruct (Nat.leb_spec size 1) as [Hle|Hle].
    + replace size with 1%nat in * by lia. done.
    + set (half := (size / 2)%nat).
      assert (1 <= half /\ half < size /\ half + half <= size)%nat as (Hh1 & Hh2 & Hh3).
      { subst half. pose proof (Nat.div_mod_eq size 2). pose proof (Nat.mod_upper_bound size 2). lia. }
      destruct (lookup_lt_is_Some_2 l (base + half)) as [x Hx]; [lia|].
      rewrite Hx. apply IH; [|lia].
      destruct (f x) eqn:Hfx; repeat split; try lia.
      all: try (right; exists x; split; [done|congruence]).
      all: try (intros j y Hj Hy; apply (Hgt j y); [lia|done]).
      * done.
      * intros j y Hj Hy.
        apply (Hp (base + half)%nat j x y); [lia|done..].
Qed.

Lemma binary_search_by_Found l i :
  binary_search_by l = Found i -> exists x, l !! i = Some x /\ f x = Eq.
Proof.
  unfold binary_search_by. destruct (length l) as [|n]; [done|].
  destruct (l !! bs_loop (S n) (S n) 0 l) as [x|] eqn:Hx; simpl; [|done].
  destruct (f x) eqn:Hf; intros [= <-]. eauto.
Qed.

Lemma binary_search_by_Insert l i :
  partitioned l -> binary_search_by l = Insert i ->
  (i <= length l)%nat /\
  (forall j x, (j < i)%nat -> l !! j = Some x -> f x = Lt) /\
  (forall j x, (i <= j)%nat -> l !! j = Some x -> f x = Gt).
Proof.
  intros Hp. unfold binary_search_by.
  destruct (length l) as [|n] eqn:Hl.
  { intros [= <-]. apply nil_length_inv in Hl as ->. split; [done|].
    split; intros j x ? Hx; by rewrite lookup_nil in Hx. }
  destruct (bs_loop_inv l (S n) (S n) 0 Hp) as (_ & Hlen & Hb & Hgt);
    [|lia|].
  { split; [lia|]. split; [lia|]. split; [by left|].
    intros j x Hj Hx. apply lookup_lt_Some in Hx. lia. }
  set (b := bs_loop (S n) (S n) 0 l) in *.
  destruct (lookup_lt_is_Some_2 l b) as [x Hx]; [lia|].
  rewrite Hx; simpl. destruct (f x) eqn:Hfx; intros [= <-].
  - split; [lia|]. split.
    + intros j y Hj Hy. apply (Hp j b y x); [lia|done..].
    + intros j y Hj Hy. apply (Hgt j y); [lia|done].
  - destruct Hb as [Hb|(x' & Hx' & Hne)]; [|congruence].
    rewrite Hb in *. split; [lia|]. split; [lia|].
    intros j y Hj Hy. apply (Hp 0%nat j x y); [lia|done..].
Qed.
End BinarySearch.

(** Panic-freedom of a chain of binds, from hypotheses on its parts. *)
Ltac no_panic :=
  repeat first
    [ progress intros
    | match goal with |- mbind _ _ <> Panic => apply Res_bind_no_panic end
    | apply ok_or_no_panic
    | apply map_err_no_panic
    | apply ensure_no_panic
    | match goal with H : forall _, _ |- _ => apply H end
    | solve [auto with platform]
    | case_match
    | done ].
