(* ===== verification/PmtilesFormat.v ===== *)
(** * PMTiles v3 format layer (crates/mmpf-pmtiles/src/format.rs)

    Tile coordinates and Hilbert tile ids, the fixed 127-byte archive header,
    the base-128 varint, the column-wise directory block with its optional
    internal compression, and the directory search.  Bytes are [list Z] with
    every element in [0, 255]; machine integers are [Z]; a panic of the byte
    reader is the [Panic] outcome of [Res].  The Hilbert curve ([xy2h], crate
    fast_hilbert), the stream decoders (flate2, brotli, zstd) and the
    allocator are parameters. *)

From S2P Require Import Prelude.
From Stdlib Require Import SpecFloat.

Local Open Scope string_scope.
Local Open Scope list_scope.
Local Open Scope Z_scope.

(** ** Constants *)

Definition MAX_ZOOM : Z := 31.
Definition MAX_TILE_ID : Z := 6148914691236517204.
Definition MAX_DECOMPRESSED_BYTES : Z := 64 * 1024 * 1024.
Definition HEADER_SIZE : nat := 127.
Definition PMTILES_VERSION : Z := 3.
Definition MLT_CONTENT_TYPE : string := "application/vnd.maplibre-tile".

(** Sections of an archive, as named in the error messages. *)
Inductive Section_ := RootDirectory | MetadataSection | LeafDirectorySection | TileDataSection.

(** One constructor per [bail!] / [context] of the module. *)
Inductive FormatError :=
  | InvalidZoomLevel
  | InvalidTileCoordinate (z x y : Z)
  | InvalidTileIdValue (value : Z)
  | InvalidCompression (value : Z)
  | InvalidTileType (value : Z)
  | HeaderTruncated (len : nat)
  | InvalidMagic
  | UnsupportedVersion (version : Z)
  | SectionRangeOverflow (section : Section_)
  | VarintEof
  | VarintExceedsU64
  | VarintNotUsize
  | VarintNotU32
  | EntryCountOverflow
  | EntryCountTooLarge (n_entries : Z) (remaining : nat)
  | CannotAllocateEntries
  | TileIdOverflow
  | InvalidDirectoryEntry
  | DirectoryOffsetOverflow
  | PayloadExceedsLimit (max_bytes : Z)
  | DecompressionLimitOverflow
  | DecompressionIo
  | UnsupportedCompression
  (* reader.rs *)
  | ZeroDepthLimit
  | DepthExceeded (max_depth : Z)
  | EntryRangeOverflow (section : Section_)
  | EntryOutsideSection (section : Section_) (relative_offset relative_end section_length : Z)
  | AbsoluteOffsetOverflow (section : Section_)
  | RangeTooLong (length max_range_bytes : Z)
  | RangeOverflow (offset length : Z)
  | BootstrapTruncated
  | RootOffsetNotUsize
  | RootLengthNotUsize
  | InvalidRootRange
  | RootOutsideBootstrap
  | MetadataLengthNotUsize
  | MetadataJson
  | ReadTooLong (length max_range_bytes : Z)
  | ShortReadError (offset length got : Z).

(** ** Tile coordinates and tile ids *)

Record TileCoord := { tc_z : Z; tc_x : Z; tc_y : Z }.

Definition TileCoord_new (z x y : Z) : Res FormatError TileCoord :=
  extent ← ok_or InvalidZoomLevel (checked_shl 1 z);
  if (z >? MAX_ZOOM) || (x >=? extent) || (y >=? extent)
  then Err (InvalidTileCoordinate z x y)
  else Ok {| tc_z := z; tc_x := x; tc_y := y |}.

(** [TileId] is a newtype of [u64]. *)
Definition TileId_new (value : Z) : Res FormatError Z :=
  if value >? MAX_TILE_ID then Err (InvalidTileIdValue value) else Ok value.

(** Number of Hilbert-addressed tiles before a zoom level. *)
Definition pyramid_size_before_zoom (z : Z) : Z :=
  match checked_shl 1 (z * 2) with
  | Some count => (count - 1) / 3
  | None => u64_max / 3
  end.

Section TileIdOfCoord.
(** [fast_hilbert::xy2h]. *)
Context (xy2h : Z -> Z -> Z -> Z).

Definition TileId_from (coord : TileCoord) : Z :=
  if tc_z coord =? 0 then 0
  else
    let base := pyramid_size_before_zoom (tc_z coord) in
    wrapping_add base (xy2h (tc_x coord) (tc_y coord) (tc_z coord)).
End TileIdOfCoord.

(** ** Compression and tile type *)

Inductive Compression := CompUnknown | CompNone | CompGzip | CompBrotli | CompZstd.

#[export] Instance Compression_eq_dec : EqDecision Compression.
Proof. solve_decision. Defined.

Definition content_encoding (c : Compression) : option string :=
  match c with
  | CompGzip => Some "gzip"
  | CompBrotli => Some "br"
  | CompZstd => Some "zstd"
  | CompUnknown | CompNone => None
  end.

Definition Compression_try_from (value : Z) : Res FormatError Compression :=
  if value =? 0 then Ok CompUnknown
  else if value =? 1 then Ok CompNone
  else if value =? 2 then Ok CompGzip
  else if value =? 3 then Ok CompBrotli
  else if value =? 4 then Ok CompZstd
  else Err (InvalidCompression value).

Inductive TileType := TtUnknown | TtMvt | TtPng | TtJpeg | TtWebp | TtAvif | TtMlt.

#[export] Instance TileType_eq_dec : EqDecision TileType.
Proof. solve_decision. Defined.

Definition content_type (t : TileType) : string :=
  match t with
  | TtMvt => "application/vnd.mapbox-vector-tile"
  | TtPng => "image/png"
  | TtJpeg => "image/jpeg"
  | TtWebp => "image/webp"
  | TtAvif => "image/avif"
  | TtMlt => MLT_CONTENT_TYPE
  | TtUnknown => "application/octet-stream"
  end.

Definition tilejson_format (t : TileType) : option string :=
  match t with
  | TtMvt | TtMlt => Some "pbf"
  | TtPng => Some "png"
  | TtJpeg => Some "jpg"
  | TtWebp => Some "webp"
  | TtAvif => Some "avif"
  | TtUnknown => None
  end.

Definition tilejson_encoding (t : TileType) : option string :=
  match t with
  | TtMvt => Some "mvt"
  | TtMlt => Some "mlt"
  | TtUnknown | TtPng | TtJpeg | TtWebp | TtAvif => None
  end.

Definition TileType_try_from (value : Z) : Res FormatError TileType :=
  if value =? 0 then Ok TtUnknown
  else if value =? 1 then Ok TtMvt
  else if value =? 2 then Ok TtPng
  else if value =? 3 then Ok TtJpeg
  else if value =? 4 then Ok TtWebp
  else if value =? 5 then Ok TtAvif
  else if value =? 6 then Ok TtMlt
  else Err (InvalidTileType value).

(** ** Byte readers ([bytes::Buf]): they panic on an exhausted buffer *)

Fixpoint le_decode (bs : list Z) : Z :=
  match bs with
  | [] => 0
  | b :: bs => b + 256 * le_decode bs
  end.

Definition split_to {E} (n : nat) (bs : list Z) : Res E (list Z * list Z) :=
  if (n <=? length bs)%nat then Ok (take n bs, drop n bs) else Panic.

Definition get_u8 {E} (bs : list Z) : Res E (Z * list Z) :=
  match bs with b :: bs => Ok (b, bs) | [] => Panic end.

Definition get_u64_le {E} (bs : list Z) : Res E (Z * list Z) :=
  '(part, bs) ← split_to 8 bs; Ok (le_decode part, bs).

(** Two's complement reading of an unsigned 32-bit value. *)
Definition i32_of_u32 (u : Z) : Z := if u <? 2 ^ 31 then u else u - 2 ^ 32.

Definition get_i32_le {E} (bs : list Z) : Res E (Z * list Z) :=
  '(part, bs) ← split_to 4 bs; Ok (i32_of_u32 (le_decode part), bs).

(** IEEE 754 binary64. *)
Abbreviation f64 := spec_float.
Definition f64_of_Z (n : Z) : f64 := binary_normalize 53 1024 n 0 false.
Definition f64_div (a b : f64) : f64 := SFdiv 53 1024 a b.

Definition e7_degrees (n : Z) : f64 := f64_div (f64_of_Z n) (f64_of_Z 10000000).

Definition read_coordinate_part {E} (bs : list Z) : Res E (f64 * list Z) :=
  '(n, bs) ← get_i32_le bs; Ok (e7_degrees n, bs).

(** ** Header *)

Record Header := {
  version : Z;
  root_offset : Z; root_length : Z;
  metadata_offset : Z; metadata_length : Z;
  leaf_offset : Z; leaf_length : Z;
  data_offset : Z; data_length : Z;
  n_addressed_tiles : Z; n_tile_entries : Z; n_tile_contents : Z;
  clustered : bool;
  internal_compression : Compression;
  tile_compression : Compression;
  tile_type : TileType;
  min_zoom : Z; max_zoom : Z;
  min_longitude : f64; min_latitude : f64; max_longitude : f64; max_latitude : f64;
  center_zoom : Z;
  center_longitude : f64; center_latitude : f64;
}.

(** The ASCII bytes of "PMTiles". *)
Definition MAGIC : list Z := [80; 77; 84; 105; 108; 101; 115].

(** The [for (name, offset, length) in [...]] range check. *)
Fixpoint check_sections (sections : list (Section_ * Z * Z)) : Res FormatError unit :=
  match sections with
  | [] => Ok tt
  | (name, offset, length) :: rest =>
      _ ← ok_or (SectionRangeOverflow name) (checked_add offset length);
      check_sections rest
  end.

Definition Header_sections (h : Header) : list (Section_ * Z * Z) :=
  [ (RootDirectory, root_offset h, root_length h);
    (MetadataSection, metadata_offset h, metadata_length h);
    (LeafDirectorySection, leaf_offset h, leaf_length h);
    (TileDataSection, data_offset h, data_length h) ].

Definition Header_parse (bytes : list Z) : Res FormatError Header :=
  if (length bytes <? HEADER_SIZE)%nat then Err (HeaderTruncated (length bytes)) else
  '(magic, bytes) ← split_to 7 bytes;
  if negb (bool_decide (magic = MAGIC)) then Err InvalidMagic else
  '(version, bytes) ← get_u8 bytes;
  if negb (version =? PMTILES_VERSION) then Err (UnsupportedVersion version) else
  '(root_offset, bytes) ← get_u64_le bytes;
  '(root_length, bytes) ← get_u64_le bytes;
  '(metadata_offset, bytes) ← get_u64_le bytes;
  '(metadata_length, bytes) ← get_u64_le bytes;
  '(leaf_offset, bytes) ← get_u64_le bytes;
  '(leaf_length, bytes) ← get_u64_le bytes;
  '(data_offset, bytes) ← get_u64_le bytes;
  '(data_length, bytes) ← get_u64_le bytes;
  '(n_addressed_tiles, bytes) ← get_u64_le bytes;
  '(n_tile_entries, bytes) ← get_u64_le bytes;
  '(n_tile_contents, bytes) ← get_u64_le bytes;
  '(clustered, bytes) ← get_u8 bytes;
  '(b, bytes) ← get_u8 bytes;
  internal_compression ← Compression_try_from b;
  '(b, bytes) ← get_u8 bytes;
  tile_compression ← Compression_try_from b;
  '(b, bytes) ← get_u8 bytes;
  tile_type ← TileType_try_from b;
  '(min_zoom, bytes) ← get_u8 bytes;
  '(max_zoom, bytes) ← get_u8 bytes;
  '(min_longitude, bytes) ← read_coordinate_part bytes;
  '(min_latitude, bytes) ← read_coordinate_part bytes;
  '(max_longitude, bytes) ← read_coordinate_part bytes;
  '(max_latitude, bytes) ← read_coordinate_part bytes;
  '(center_zoom, bytes) ← get_u8 bytes;
  '(center_longitude, bytes) ← read_coordinate_part bytes;
  '(center_latitude, bytes) ← read_coordinate_part bytes;
  _ ← check_sections
        [ (RootDirectory, root_offset, root_length);
          (MetadataSection, metadata_offset, metadata_length);
          (LeafDirectorySection, leaf_offset, leaf_length);
          (TileDataSection, data_offset, data_length) ];
  Ok {| version := version;
        root_offset := root_offset; root_length := root_length;
        metadata_offset := metadata_offset; metadata_length := metadata_length;
        leaf_offset := leaf_offset; leaf_length := leaf_length;
        data_offset := data_offset; data_length := data_length;
        n_addressed_tiles := n_addressed_tiles; n_tile_entries := n_tile_entries;
        n_tile_contents := n_tile_contents;
        clustered := negb (clustered =? 0);
        internal_compression := internal_compression;
        tile_compression := tile_compression;
        tile_type := tile_type;
        min_zoom := min_zoom; max_zoom := max_zoom;
        min_longitude := min_longitude; min_latitude := min_latitude;
        max_longitude := max_longitude; max_latitude := max_latitude;
        center_zoom := center_zoom;
        center_longitude := center_longitude; center_latitude := center_latitude |}.

(** ** Varints *)

(** The loop of [read_u64_varint]; every iteration consumes one byte. *)
Fixpoint read_u64_varint_from (shift value : Z) (buf : list Z)
    : Res FormatError (Z * list Z) :=
  match buf with
  | [] => Err VarintEof
  | byte :: buf =>
      let payload := Z.land byte 0x7f in
      if (shift =? 63) && (payload >? 1) then Err VarintExceedsU64
      else
        let value := Z.lor value (wrap64 (Z.shiftl payload shift)) in
        if Z.land byte 0x80 =? 0 then Ok (value, buf)
        else
          let shift := shift + 7 in
          if shift >=? 64 then Err VarintExceedsU64
          else read_u64_varint_from shift value buf
  end.

Definition read_u64_varint (buf : list Z) : Res FormatError (Z * list Z) :=
  read_u64_varint_from 0 0 buf.

(** ** Decompression *)

(** What a stream decoder yields: the bytes it produces, in order, and whether
    it then ends cleanly or reports an I/O error. *)
Record Stream := { stream_bytes : list Z; stream_clean : bool }.

(** The constructors of the third-party decoders over an input slice; only the
    zstd constructor is fallible. *)
Record Decoders := {
  gz_decoder : list Z -> Stream;
  brotli_decoder : list Z -> Stream;
  zstd_decoder : list Z -> option Stream;
}.

(** [reader.take(read_limit).read_to_end(..)]: reading stops at the limit, so an
    error behind it is not observed. *)
Definition take_read_to_end (s : Stream) (read_limit : Z) : Res FormatError (list Z) :=
  let n := Z.to_nat read_limit in
  if (n <=? length (stream_bytes s))%nat then Ok (take n (stream_bytes s))
  else if stream_clean s then Ok (stream_bytes s)
  else Err DecompressionIo.

Definition read_decompressed_limited (reader : Stream) (max_bytes : Z)
    : Res FormatError (list Z) :=
  read_limit ← ok_or DecompressionLimitOverflow (checked_add max_bytes 1);
  decompressed ← take_read_to_end reader read_limit;
  if Z.of_nat (length decompressed) >? max_bytes
  then Err (PayloadExceedsLimit max_bytes)
  else Ok decompressed.

Definition decompress_bytes_with_limit (dec : Decoders) (compression : Compression)
    (bytes : list Z) (max_bytes : Z) : Res FormatError (list Z) :=
  match compression with
  | CompNone =>
      if Z.of_nat (length bytes) >? max_bytes
      then Err (PayloadExceedsLimit max_bytes) else Ok bytes
  | CompGzip => read_decompressed_limited (gz_decoder dec bytes) max_bytes
  | CompBrotli => read_decompressed_limited (brotli_decoder dec bytes) max_bytes
  | CompZstd =>
      stream ← ok_or DecompressionIo (zstd_decoder dec bytes);
      read_decompressed_limited stream max_bytes
  | CompUnknown => Err UnsupportedCompression
  end.

(** ** Directories *)

Record DirectoryEntry := { tile_id : Z; offset : Z; length_ : Z; run_length : Z }.

Definition DirectoryEntry_default : DirectoryEntry :=
  {| tile_id := 0; offset := 0; length_ := 0; run_length := 0 |}.

Definition is_leaf (e : DirectoryEntry) : bool := run_length e =? 0.

Record Directory := { entries : list DirectoryEntry }.

(** The four passes [for entry in &mut entries]. *)
Fixpoint fill_tile_ids (next_tile_id : Z) (es : list DirectoryEntry) (buf : list Z)
    : Res FormatError (list DirectoryEntry * list Z) :=
  match es with
  | [] => Ok ([], buf)
  | e :: es =>
      '(delta, buf) ← read_u64_varint buf;
      next_tile_id ← ok_or TileIdOverflow (checked_add next_tile_id delta);
      '(es, buf) ← fill_tile_ids next_tile_id es buf;
      Ok ({| tile_id := next_tile_id; offset := offset e; length_ := length_ e;
             run_length := run_length e |} :: es, buf)
  end.

Fixpoint fill_run_lengths (es : list DirectoryEntry) (buf : list Z)
    : Res FormatError (list DirectoryEntry * list Z) :=
  match es with
  | [] => Ok ([], buf)
  | e :: es =>
      '(v, buf) ← read_u64_varint buf;
      run_length ← ok_or VarintNotU32 (u32_try_from v);
      '(es, buf) ← fill_run_lengths es buf;
      Ok ({| tile_id := tile_id e; offset := offset e; length_ := length_ e;
             run_length := run_length |} :: es, buf)
  end.

Fixpoint fill_lengths (es : list DirectoryEntry) (buf : list Z)
    : Res FormatError (list DirectoryEntry * list Z) :=
  match es with
  | [] => Ok ([], buf)
  | e :: es =>
      '(v, buf) ← read_u64_varint buf;
      length ← ok_or VarintNotU32 (u32_try_from v);
      '(es, buf) ← fill_lengths es buf;
      Ok ({| tile_id := tile_id e; offset := offset e; length_ := length;
             run_length := run_length e |} :: es, buf)
  end.

(** [entry.offset = if offset == 0 { ... } else { offset - 1 }]. *)
Definition entry_offset (previous_entry : option DirectoryEntry) (v : Z)
    : Res FormatError Z :=
  if v =? 0 then
    previous ← ok_or InvalidDirectoryEntry previous_entry;
    ok_or DirectoryOffsetOverflow (checked_add (offset previous) (length_ previous))
  else Ok (v - 1).

Fixpoint fill_offsets (previous_entry : option DirectoryEntry)
    (es : list DirectoryEntry) (buf : list Z)
    : Res FormatError (list DirectoryEntry * list Z) :=
  match es with
  | [] => Ok ([], buf)
  | e :: es =>
      '(v, buf) ← read_u64_varint buf;
      offset ← entry_offset previous_entry v;
      let e := {| tile_id := tile_id e; offset := offset; length_ := length_ e;
                  run_length := run_length e |} in
      '(es, buf) ← fill_offsets (Some e) es buf;
      Ok (e :: es, buf)
  end.

(** The passes in their order. *)
Definition fill_columns (es : list DirectoryEntry) (buffer : list Z)
    : Res FormatError (list DirectoryEntry) :=
  '(es, buffer) ← fill_tile_ids 0 es buffer;
  '(es, buffer) ← fill_run_lengths es buffer;
  '(es, buffer) ← fill_lengths es buffer;
  '(es, buffer) ← fill_offsets None es buffer;
  Ok es.

Section DirectoryParse.
Context (dec : Decoders).
(** The allocator's answer to [Vec::try_reserve_exact]. *)
Context (try_reserve_exact : Z -> bool).

Definition Directory_parse_with_limit (compression : Compression) (bytes : list Z)
    (max_decompressed_bytes : Z) : Res FormatError Directory :=
  buffer ← decompress_bytes_with_limit dec compression bytes max_decompressed_bytes;
  '(v, buffer) ← read_u64_varint buffer;
  n_entries ← ok_or VarintNotUsize (usize_try_from v);
  minimum_encoded_len ← ok_or EntryCountOverflow (checked_mul n_entries 4);
  if minimum_encoded_len >? Z.of_nat (length buffer)
  then Err (EntryCountTooLarge n_entries (length buffer)) else
  if negb (try_reserve_exact n_entries) then Err CannotAllocateEntries else
  let es := replicate (Z.to_nat n_entries) DirectoryEntry_default in
  es ← fill_columns es buffer;
  Ok {| entries := es |}.

Definition Directory_parse (compression : Compression) (bytes : list Z)
    : Res FormatError Directory :=
  Directory_parse_with_limit compression bytes MAX_DECOMPRESSED_BYTES.
End DirectoryParse.

(** [tile_id.value() - previous.tile_id] is a wrapping [u64] subtraction in
    release builds. *)
Definition find_tile_id (d : Directory) (id : Z) : option (nat * DirectoryEntry) :=
  match binary_search_by (fun e => Z.compare (tile_id e) id) (entries d) with
  | Found index => (fun e => (index, e)) <$> entries d !! index
  | Insert next_id =>
      if (0 <? next_id)%nat then
        previous ← entries d !! (next_id - 1)%nat;
        if is_leaf previous ||
           (wrapping_sub id (tile_id previous) <? run_length previous)
        then Some ((next_id - 1)%nat, previous)
        else None
      else None
  end.

(** ** Byte-level facts *)

Definition is_bytes (bs : list Z) : Prop := Forall is_u8 bs.

Lemma byte_forall (P : Z -> bool) :
  forallb P (seqZ 0 256) = true -> forall b, is_u8 b -> P b = true.
Proof.
  intros H b Hb. rewrite forallb_forall in H. apply H.
  apply list_elem_of_In, elem_of_seqZ. unfold is_u, u8_max in Hb. lia.
Qed.

Lemma byte_payload b : is_u8 b -> Z.land b 0x7f = b mod 128.
Proof. intros _. change 0x7f with (Z.ones 7). by rewrite Z.land_ones. Qed.

Lemma byte_continues b : is_u8 b -> (Z.land b 0x80 =? 0) = (b <? 128).
Proof.
  intros Hb. apply eqb_prop.
  exact (byte_forall (fun b => eqb (Z.land b 0x80 =? 0) (b <? 128)) eq_refl b Hb).
Qed.

(** Or-ing a value into the bits above it is an addition. *)
Lemma lor_shiftl_add a b n :
  0 <= n -> 0 <= a < 2 ^ n -> 0 <= b -> Z.lor a (Z.shiftl b n) = a + b * 2 ^ n.
Proof.
  intros Hn Ha Hb.
  assert (Z.land a (Z.shiftl b n) = 0) as Hz.
  { apply Z.bits_inj'. intros i Hi. rewrite Z.land_spec, Z.bits_0.
    destruct (Z.lt_ge_cases i n) as [Hlt|Hge].
    - by rewrite Z.shiftl_spec_low, andb_false_r.
    - rewrite <- (Z.mod_small a (2 ^ n)), Z.mod_pow2_bits_high; [done|lia|lia]. }
  rewrite <- Z.lxor_lor, <- Z.add_nocarry_lxor by done.
  by rewrite Z.shiftl_mul_pow2.
Qed.

(** ** Varints: the reference encoding *)

(** The value denoted by a sequence of base-128 digits, low digit first. *)
Fixpoint leb128_value (bs : list Z) : Z :=
  match bs with
  | [] => 0
  | b :: bs => b mod 128 + 128 * leb128_value bs
  end.

(** One complete varint: only the last byte has its high bit clear. *)
Fixpoint leb128_shape (bs : list Z) : Prop :=
  match bs with
  | [] => False
  | [b] => b < 128
  | b :: bs => 128 <= b /\ leb128_shape bs
  end.

Lemma leb128_shape_cons b bs :
  leb128_shape (b :: bs) <-> (bs = [] /\ b < 128) \/ (128 <= b /\ leb128_shape bs).
Proof.
  destruct bs as [|b' bs]; simpl; [intuition discriminate|].
  split; [auto|]. by intros [[? ?]|?].
Qed.

Lemma leb128_value_nonneg bs : 0 <= leb128_value bs.
Proof.
  induction bs as [|b bs IH]; simpl; [lia|].
  pose proof (Z.mod_pos_bound b 128). lia.
Qed.

(** A decomposition of a non-empty buffer into one varint and a rest starts with
    its first byte. *)
Lemma leb128_decompose b buf rest (P : list Z -> Prop) :
  (exists c, b :: buf = c ++ rest /\ leb128_shape c /\ P c) <->
  (P [b] /\ b < 128 /\ buf = rest) \/
  (128 <= b /\ exists c, buf = c ++ rest /\ leb128_shape c /\ P (b :: c)).
Proof.
  split.
  - intros ([|b' c] & Heq & Hs & HP); [destruct Hs|].
    simplify_eq/=. apply leb128_shape_cons in Hs as [[-> ?]|[? ?]]; [by left|].
    right; eauto.
  - intros [(HP & Hlt & ->)|(Hge & c & -> & Hs & HP)].
    + exists [b]. rewrite leb128_shape_cons; auto.
    + exists (b :: c). rewrite leb128_shape_cons; auto.
Qed.

(** The guard of the tenth digit is exactly "the digit fits in 64 bits". *)
Lemma varint_digit_fits k value p :
  0 <= k <= 9 -> 0 <= value < 2 ^ (7 * k) -> 0 <= p < 128 ->
  (7 * k =? 63) && (p >? 1) = false <-> value + 2 ^ (7 * k) * p <= u64_max.
Proof.
  intros Hk Hv Hp. rewrite Z.gtb_ltb. unfold u64_max.
  assert (Hpow : 0 < 2 ^ (7 * k)) by (apply Z.pow_pos_nonneg; lia).
  destruct (Z.eq_dec k 9) as [->|Hne].
  - change (2 ^ (7 * 9)) with (2 ^ 63) in *. simpl. rewrite Z.ltb_ge. lia.
  - assert (2 ^ (7 * k) <= 2 ^ 56) by (apply Z.pow_le_mono_r; lia).
    replace (7 * k =? 63) with false by (symmetry; apply Z.eqb_neq; lia).
    split; [nia|done].
Qed.

Lemma varint_next_pow k : 0 <= k -> 2 ^ (7 * (k + 1)) = 128 * 2 ^ (7 * k).
Proof.
  intros. replace (7 * (k + 1)) with (7 + 7 * k) by lia. by rewrite Z.pow_add_r by lia.
Qed.

(** The loop at digit [k] reads the remaining digits of one varint. *)
Lemma read_u64_varint_from_spec buf : forall k value v rest,
  is_bytes buf -> 0 <= k <= 9 -> 0 <= value < 2 ^ (7 * k) ->
  read_u64_varint_from (7 * k) value buf = Ok (v, rest) <->
  exists c, buf = c ++ rest /\ leb128_shape c /\ (Z.of_nat (length c) <= 10 - k /\
    v = value + 2 ^ (7 * k) * leb128_value c /\ v <= u64_max).
Proof.
  induction buf as [|b buf IH]; intros k value v rest Hbs Hk Hv.
  { simpl. split; [done|]. intros (c & Hc & Hs & _).
    symmetry in Hc. apply app_nil in Hc as [-> ->]. destruct Hs. }
  apply Forall_cons in Hbs as [Hb Hbs].
  assert (Hpow : 0 < 2 ^ (7 * k)) by (apply Z.pow_pos_nonneg; lia).
  pose proof (Z.mod_pos_bound b 128 ltac:(lia)) as Hp.
  pose proof (varint_digit_fits k value (b mod 128) Hk Hv Hp) as Hfits.
  rewrite leb128_decompose. cbn [read_u64_varint_from leb128_value length].
  rewrite (byte_payload b Hb), (byte_continues b Hb).
  destruct ((7 * k =? 63) && (b mod 128 >? 1)).
  { split; [done|].
    assert (u64_max < value + 2 ^ (7 * k) * (b mod 128)) by (destruct Hfits; lia).
    intros [(Hc & _)|(_ & c & _ & _ & Hc)]; [lia|].
    pose proof (leb128_value_nonneg c). nia. }
  destruct Hfits as [Hfits _]. specialize (Hfits eq_refl).
  rewrite (wrap64_small (Z.shiftl _ _)), lor_shiftl_add by
    (lia || (rewrite Z.shiftl_mul_pow2 by lia; unfold is_u; nia)).
  destruct (Z.ltb_spec b 128) as [Hlt|Hge].
  { split.
    - intros [= <- <-]. left. repeat split; lia.
    - intros [((_ & Hval & _) & _ & <-)|(? & _)]; [|lia].
      subst v. do 2 f_equal. lia. }
  rewrite Z.geb_leb. destruct (Z.leb_spec 64 (7 * k + 7)) as [Hend|Hend].
  { split; [done|]. intros [(_ & ? & _)|(_ & c & _ & Hs & Hlen & _)]; [lia|].
    destruct c; [destruct Hs|]. simpl in Hlen. lia. }
  replace (7 * k + 7) with (7 * (k + 1)) by lia.
  rewrite IH, varint_next_pow by (rewrite ?varint_next_pow; (done || nia)).
  split.
  - intros (c & -> & Hs & Hlen & Hval & Hmax). right. split; [done|].
    exists c. repeat split; [done|lia|nia|done].
  - intros [(_ & ? & _)|(_ & c & -> & Hs & Hlen & Hval & Hmax)]; [lia|].
    exists c. repeat split; [done|lia|nia|done].
Qed.

(** The canonical encoder of the format (LEB128, at most ten bytes). *)
Fixpoint write_varint_fuel (fuel : nat) (n : Z) : list Z :=
  match fuel with
  | O => []
  | S fuel =>
      if n <? 128 then [n] else (n mod 128 + 128) :: write_varint_fuel fuel (n / 128)
  end.
Definition write_u64_varint (n : Z) : list Z := write_varint_fuel 10 n.

Lemma write_varint_fuel_spec fuel : forall n,
  0 <= n < 2 ^ (7 * Z.of_nat fuel) -> fuel <> O ->
  let c := write_varint_fuel fuel n in
  is_bytes c /\ leb128_shape c /\ leb128_value c = n /\ (length c <= fuel)%nat.
Proof.
  induction fuel as [|fuel IH]; [done|]; intros n Hn _. cbn [write_varint_fuel].
  destruct (Z.ltb_spec n 128) as [Hlt|Hge].
  { simpl. rewrite Z.mod_small by lia. repeat split; try lia.
    apply Forall_singleton. unfold is_u, u8_max. lia. }
  destruct fuel as [|fuel'].
  { change (2 ^ (7 * Z.of_nat 1)) with 128 in Hn. lia. }
  assert (0 <= n / 128 < 2 ^ (7 * Z.of_nat (S fuel'))) as Hn'.
  { split; [apply Z.div_pos; lia|]. apply Z.div_lt_upper_bound; [lia|].
    rewrite <- varint_next_pow by lia.
    replace (Z.of_nat (S fuel') + 1) with (Z.of_nat (S (S fuel'))) by lia. apply Hn. }
  destruct (IH _ Hn' ltac:(done)) as (Hb & Hs & Hv & Hl). cbv zeta.
  set (c := write_varint_fuel (S fuel') (n / 128)) in *.
  pose proof (Z.mod_pos_bound n 128 ltac:(lia)).
  split_and!.
  - constructor; [unfold is_u, u8_max; lia|done].
  - apply leb128_shape_cons. right. split; [lia|done].
  - cbn [leb128_value]. rewrite Hv.
    replace (n mod 128 + 128) with (n mod 128 + 1 * 128) by lia.
    rewrite Z.mod_add, Z.mod_mod by lia. pose proof (Z.div_mod n 128). lia.
  - simpl. lia.
Qed.

Lemma write_u64_varint_spec n :
  is_u64 n ->
  let c := write_u64_varint n in
  is_bytes c /\ leb128_shape c /\ leb128_value c = n /\ (length c <= 10)%nat.
Proof.
  unfold is_u, u64_max. intros. apply write_varint_fuel_spec; [|done].
  change (7 * Z.of_nat 10) with 70. lia.
Qed.

Lemma read_u64_varint_spec buf v rest :
  is_bytes buf ->
  read_u64_varint buf = Ok (v, rest) <->
  exists c, buf = c ++ rest /\ leb128_shape c /\
    ((length c <= 10)%nat /\ v = leb128_value c /\ v <= u64_max).
Proof.
  intros Hb. unfold read_u64_varint. change 0 with (7 * 0) at 1.
  rewrite read_u64_varint_from_spec by (done || lia).
  split; intros (c & -> & Hs & Hl & Hv & Hm); exists c; repeat split; (done || lia).
Qed.

Lemma read_write_u64_varint n rest :
  is_u64 n -> is_bytes rest -> read_u64_varint (write_u64_varint n ++ rest) = Ok (n, rest).
Proof.
  intros Hn Hr. destruct (write_u64_varint_spec n Hn) as (Hb & Hs & Hv & Hl).
  apply read_u64_varint_spec; [by apply Forall_app|].
  exists (write_u64_varint n). split_and!; try done. unfold is_u in Hn. lia.
Qed.

Lemma read_u64_varint_Ok buf v rest :
  is_bytes buf -> read_u64_varint buf = Ok (v, rest) ->
  is_u64 v /\ is_bytes rest /\ (length rest < length buf)%nat.
Proof.
  intros Hb H. apply read_u64_varint_spec in H as (c & -> & Hs & _ & -> & Hm); [|done].
  apply Forall_app in Hb as [_ Hb]. split_and!; [|done|].
  - split; [apply leb128_value_nonneg|done].
  - rewrite length_app. destruct c; [destruct Hs|]. simpl. lia.
Qed.

Lemma read_u64_varint_no_panic buf : read_u64_varint buf <> Panic.
Proof.
  cut (forall shift value, read_u64_varint_from shift value buf <> Panic); [intros H; apply H|].
  induction buf as [|b buf IH]; intros shift value; simpl; [done|].
  repeat case_match; (done || apply IH).
Qed.
#[export] Hint Resolve read_u64_varint_no_panic : platform.

Lemma write_u64_varint_bytes n : is_u64 n -> is_bytes (write_u64_varint n).
Proof. intros Hn. apply (write_u64_varint_spec n Hn). Qed.

Lemma write_u64_varint_nonempty n : is_u64 n -> (1 <= length (write_u64_varint n))%nat.
Proof.
  intros Hn. destruct (write_u64_varint_spec n Hn) as (_ & Hs & _).
  destruct (write_u64_varint n); [destruct Hs|simpl; lia].
Qed.

(** ** Directories: the reference encoder *)

(** A directory entry as the format can store it. *)
Definition entry_ok (e : DirectoryEntry) : Prop :=
  is_u64 (tile_id e) /\ (0 <= offset e < u64_max) /\ is_u32 (length_ e) /\
  is_u32 (run_length e).

(** Tile ids never decrease. *)
Definition sorted_ids (es : list DirectoryEntry) : Prop :=
  forall i j x y, (i <= j)%nat -> es !! i = Some x -> es !! j = Some y ->
    tile_id x <= tile_id y.

Fixpoint encode_tile_ids (previous : Z) (es : list DirectoryEntry) : list Z :=
  match es with
  | [] => []
  | e :: es => write_u64_varint (tile_id e - previous) ++ encode_tile_ids (tile_id e) es
  end.

Definition encode_column (f : DirectoryEntry -> Z) (es : list DirectoryEntry) : list Z :=
  es ≫= fun e => write_u64_varint (f e).

(** A contiguous entry stores 0, any other stores its offset plus one. *)
Definition encoded_offset (previous : option DirectoryEntry) (e : DirectoryEntry) : Z :=
  match previous with
  | Some p => if offset p + length_ p =? offset e then 0 else offset e + 1
  | None => offset e + 1
  end.

Fixpoint encode_offsets (previous : option DirectoryEntry) (es : list DirectoryEntry)
    : list Z :=
  match es with
  | [] => []
  | e :: es => write_u64_varint (encoded_offset previous e) ++ encode_offsets (Some e) es
  end.

Definition encode_directory (es : list DirectoryEntry) : list Z :=
  write_u64_varint (Z.of_nat (length es)) ++ encode_tile_ids 0 es ++
  encode_column run_length es ++ encode_column length_ es ++ encode_offsets None es.

(** The partially filled entries between the passes. *)
Definition with_tile_id (e : DirectoryEntry) : DirectoryEntry :=
  {| tile_id := tile_id e; offset := 0; length_ := 0; run_length := 0 |}.
Definition with_run_length (e : DirectoryEntry) : DirectoryEntry :=
  {| tile_id := tile_id e; offset := 0; length_ := 0; run_length := run_length e |}.
Definition with_length (e : DirectoryEntry) : DirectoryEntry :=
  {| tile_id := tile_id e; offset := 0; length_ := length_ e; run_length := run_length e |}.

Lemma encode_column_bytes f es :
  Forall (fun e => is_u64 (f e)) es -> is_bytes (encode_column f es).
Proof.
  intros H. induction H as [|e es He _ IH]; [constructor|].
  apply Forall_app. split; [by apply write_u64_varint_bytes|done].
Qed.

Lemma encode_column_length f es :
  Forall (fun e => is_u64 (f e)) es -> (length es <= length (encode_column f es))%nat.
Proof.
  intros H. induction H as [|e es He _ IH]; [simpl; lia|].
  unfold encode_column in *. cbn [mbind list_bind].
  rewrite length_app. pose proof (write_u64_varint_nonempty _ He). simpl. lia.
Qed.

Lemma sorted_ids_cons e es :
  sorted_ids (e :: es) <-> Forall (fun x => tile_id e <= tile_id x) es /\ sorted_ids es.
Proof.
  split.
  - intros H. split.
    + apply Forall_lookup. intros i x Hi. by apply (H 0%nat (S i) e x); [lia| |].
    + intros i j x y Hij Hx Hy. by apply (H (S i) (S j) x y); [lia| |].
  - intros [Hf Hs] [|i] [|j] x y Hij Hx Hy; simplify_eq/=; try lia.
    + by eapply Forall_lookup_1 in Hy; [|done].
    + by apply (Hs i j); [lia| |].
Qed.

Lemma entry_ok_u64 e :
  entry_ok e -> is_u64 (tile_id e) /\ is_u64 (length_ e) /\ is_u64 (run_length e) /\
                is_u64 (offset e + 1).
Proof. unfold entry_ok, is_u, u64_max, u32_max. lia. Qed.

Lemma encoded_offset_u64 previous e : entry_ok e -> is_u64 (encoded_offset previous e).
Proof.
  intros H. apply entry_ok_u64 in H. unfold encoded_offset.
  repeat case_match; try apply H. unfold is_u, u64_max. lia.
Qed.

Lemma encode_offsets_bytes previous es :
  Forall entry_ok es ->
  is_bytes (encode_offsets previous es) /\
  (length es <= length (encode_offsets previous es))%nat.
Proof.
  intros H. revert previous.
  induction H as [|e es He _ IH]; intros previous; simpl; [split; [constructor|lia]|].
  pose proof (encoded_offset_u64 previous e He) as Hu.
  destruct (IH (Some e)). rewrite length_app.
  pose proof (write_u64_varint_nonempty _ Hu).
  split; [apply Forall_app; split; [by apply write_u64_varint_bytes|done]|lia].
Qed.

Lemma encode_tile_ids_bytes previous es :
  0 <= previous -> Forall (fun x => previous <= tile_id x) es -> sorted_ids es ->
  Forall entry_ok es ->
  is_bytes (encode_tile_ids previous es) /\
  (length es <= length (encode_tile_ids previous es))%nat.
Proof.
  revert previous. induction es as [|e es IH]; intros previous Hp Hle Hs Hok; simpl.
  { split; [constructor|lia]. }
  apply Forall_cons in Hle as [Hle _]. apply Forall_cons in Hok as [He Hok].
  apply sorted_ids_cons in Hs as [Hle' Hs]. apply entry_ok_u64 in He as (Hu & _).
  assert (is_u64 (tile_id e - previous)) as Hd by (unfold is_u in *; lia).
  destruct (IH (tile_id e)) as [Hb Hl]; [unfold is_u in Hu; lia|done..|].
  rewrite length_app. pose proof (write_u64_varint_nonempty _ Hd).
  split; [apply Forall_app; split; [by apply write_u64_varint_bytes|done]|lia].
Qed.

(** Each pass reads back the column the encoder wrote. *)
Lemma fill_tile_ids_encoded previous es buf :
  0 <= previous -> Forall (fun x => previous <= tile_id x) es -> sorted_ids es ->
  Forall entry_ok es -> is_bytes buf ->
  fill_tile_ids previous ((fun _ => DirectoryEntry_default) <$> es)
    (encode_tile_ids previous es ++ buf) = Ok (with_tile_id <$> es, buf).
Proof.
  revert previous. induction es as [|e es IH]; intros previous Hp Hle Hs Hok Hb; [done|].
  apply Forall_cons in Hle as [Hle _]. apply Forall_cons in Hok as [He Hok].
  apply sorted_ids_cons in Hs as [Hle' Hs]. pose proof (entry_ok_u64 e He) as (Hu & _).
  unfold is_u in Hu. rewrite !fmap_cons; cbn [fill_tile_ids encode_tile_ids].
  destruct (encode_tile_ids_bytes (tile_id e) es) as [Hb' _]; [lia|done..|].
  rewrite <- app_assoc, read_write_u64_varint;
    [|unfold is_u; lia|by apply Forall_app].
  res_simpl. unfold checked_add.
  replace (previous + (tile_id e - previous)) with (tile_id e) by lia.
  rewrite (proj2 (Z.leb_le _ _)) by lia. res_simpl.
  rewrite IH by (done || lia). done.
Qed.

Lemma fill_run_lengths_encoded es buf :
  Forall entry_ok es -> is_bytes buf ->
  fill_run_lengths (with_tile_id <$> es) (encode_column run_length es ++ buf)
  = Ok (with_run_length <$> es, buf).
Proof.
  intros Hok Hb. induction Hok as [|e es He Hok IH]; [done|].
  pose proof (entry_ok_u64 e He) as (_ & _ & Hu & _).
  rewrite !fmap_cons; cbn [fill_run_lengths]. unfold encode_column in *. cbn [mbind list_bind].
  rewrite <- app_assoc, read_write_u64_varint; [|done|apply Forall_app; split; [|done]].
  2: { apply encode_column_bytes. eapply Forall_impl; [done|]. intros ? ?. by apply entry_ok_u64. }
  res_simpl. unfold u32_try_from.
  rewrite (proj2 (Z.leb_le _ _)) by apply He. res_simpl. by rewrite IH.
Qed.

Lemma fill_lengths_encoded es buf :
  Forall entry_ok es -> is_bytes buf ->
  fill_lengths (with_run_length <$> es) (encode_column length_ es ++ buf)
  = Ok (with_length <$> es, buf).
Proof.
  intros Hok Hb. induction Hok as [|e es He Hok IH]; [done|].
  pose proof (entry_ok_u64 e He) as (_ & Hu & _ & _).
  rewrite !fmap_cons; cbn [fill_lengths]. unfold encode_column in *. cbn [mbind list_bind].
  rewrite <- app_assoc, read_write_u64_varint; [|done|apply Forall_app; split; [|done]].
  2: { apply encode_column_bytes. eapply Forall_impl; [done|]. intros ? ?. by apply entry_ok_u64. }
  res_simpl. unfold u32_try_from.
  rewrite (proj2 (Z.leb_le _ _)) by apply He. res_simpl. by rewrite IH.
Qed.

Lemma entry_offset_encoded previous e :
  entry_ok e -> entry_offset previous (encoded_offset previous e) = Ok (offset e).
Proof.
  intros (_ & Ho & _). unfold entry_offset, encoded_offset. destruct previous as [p|].
  - destruct (Z.eqb_spec (offset p + length_ p) (offset e)) as [Heq|Hne]; simpl.
    + apply ok_or_Ok, checked_add_Some. lia.
    + rewrite (proj2 (Z.eqb_neq _ _)) by lia. f_equal. lia.
  - rewrite (proj2 (Z.eqb_neq _ _)) by lia. f_equal. lia.
Qed.

Lemma entry_offset_Ok previous v o :
  is_u64 v -> (forall p, previous = Some p -> 0 <= offset p /\ 0 <= length_ p) ->
  entry_offset previous v = Ok o -> is_u64 o.
Proof.
  unfold entry_offset. intros Hv Hp. destruct (Z.eqb_spec v 0) as [->|]; intros H.
  - destruct previous as [p|]; [|done].
    apply ok_or_Ok, checked_add_Some in H. destruct (Hp p eq_refl). unfold is_u. lia.
  - injection H as <-. unfold is_u in *. lia.
Qed.

Lemma fill_offsets_encoded previous es buf :
  Forall entry_ok es -> is_bytes buf ->
  fill_offsets previous (with_length <$> es) (encode_offsets previous es ++ buf)
  = Ok (es, buf).
Proof.
  intros Hok Hb. revert previous.
  induction Hok as [|e es He Hok IH]; intros previous; [done|].
  rewrite !fmap_cons; cbn [fill_offsets encode_offsets].
  destruct (encode_offsets_bytes (Some e) es Hok) as [Hb' _].
  rewrite <- app_assoc, read_write_u64_varint;
    [|by apply encoded_offset_u64|by apply Forall_app].
  res_simpl.
  rewrite entry_offset_encoded by done. res_simpl. cbn [with_length tile_id length_ run_length].
  destruct e; simpl in *. by rewrite IH.
Qed.

(** ** Directories: what a successful parse returns *)

Definition directory_wf (d : Directory) : Prop :=
  sorted_ids (entries d) /\
  Forall (fun e => is_u64 (tile_id e) /\ is_u64 (offset e) /\ is_u32 (length_ e) /\
                   is_u32 (run_length e)) (entries d).

Lemma fill_tile_ids_Ok next es buf es' buf' :
  0 <= next -> is_bytes buf -> fill_tile_ids next es buf = Ok (es', buf') ->
  length es' = length es /\ is_bytes buf' /\ (length es + length buf' <= length buf)%nat /\
  Forall (fun e => next <= tile_id e <= u64_max) es' /\ sorted_ids es'.
Proof.
  revert next buf es' buf'.
  induction es as [|e es IH]; intros next buf es' buf' Hn Hb H; simpl in H.
  { res_inv. by split_and!. }
  res_inv; try done. destruct a as [delta buf1]. res_inv; try done.
  destruct a0 as [es1 buf2]. res_inv.
  apply read_u64_varint_Ok in E as (Hd & Hb1 & Hl1); [|done].
  apply checked_add_Some in E0 as [-> Hmax]. unfold is_u in Hd.
  apply IH in E1 as (Hlen & Hb2 & Hl2 & Hf & Hs); [|lia|done].
  split_and!; [simpl; congruence|done|simpl; lia| |].
  - constructor; [simpl; lia|]. eapply Forall_impl; [done|]. simpl. lia.
  - apply sorted_ids_cons. split; [|done]. eapply Forall_impl; [done|]. simpl. lia.
Qed.

(** The later passes keep the tile ids and fill one field each. *)
Definition same_ids (es es' : list DirectoryEntry) : Prop :=
  tile_id <$> es' = tile_id <$> es.

Lemma fill_run_lengths_Ok es buf es' buf' :
  is_bytes buf -> fill_run_lengths es buf = Ok (es', buf') ->
  same_ids es es' /\ is_bytes buf' /\ (length es + length buf' <= length buf)%nat /\
  Forall (fun e => is_u32 (run_length e)) es'.
Proof.
  revert buf es' buf'. induction es as [|e es IH]; intros buf es' buf' Hb H; simpl in H.
  { res_inv. by split_and!. }
  res_inv; try done. destruct a as [v buf1]. res_inv; try done.
  destruct a0 as [es1 buf2]. res_inv.
  apply read_u64_varint_Ok in E as (Hd & Hb1 & Hl1); [|done].
  apply u32_try_from_Some in E0 as [-> Hmax].
  apply IH in E1 as (Hids & Hb2 & Hl2 & Hf); [|done].
  split_and!; [by unfold same_ids in *; simpl; f_equal|done|simpl; lia|].
  constructor; [|done]. unfold is_u in *. simpl. lia.
Qed.

Lemma fill_lengths_Ok es buf es' buf' :
  is_bytes buf -> fill_lengths es buf = Ok (es', buf') ->
  same_ids es es' /\ is_bytes buf' /\ (length es + length buf' <= length buf)%nat /\
  run_length <$> es' = run_length <$> es /\ Forall (fun e => is_u32 (length_ e)) es'.
Proof.
  revert buf es' buf'. induction es as [|e es IH]; intros buf es' buf' Hb H; simpl in H.
  { res_inv. by split_and!. }
  res_inv; try done. destruct a as [v buf1]. res_inv; try done.
  destruct a0 as [es1 buf2]. res_inv.
  apply read_u64_varint_Ok in E as (Hd & Hb1 & Hl1); [|done].
  apply u32_try_from_Some in E0 as [-> Hmax].
  apply IH in E1 as (Hids & Hb2 & Hl2 & Hr & Hf); [|done].
  split_and!; [by unfold same_ids in *; simpl; f_equal|done|simpl; lia|by simpl; f_equal|].
  constructor; [|done]. unfold is_u in *. simpl. lia.
Qed.

Lemma fill_offsets_Ok previous es buf es' buf' :
  is_bytes buf -> (forall p, previous = Some p -> 0 <= offset p /\ 0 <= length_ p) ->
  Forall (fun e => is_u32 (length_ e)) es ->
  fill_offsets previous es buf = Ok (es', buf') ->
  same_ids es es' /\ (length es + length buf' <= length buf)%nat /\
  run_length <$> es' = run_length <$> es /\ length_ <$> es' = length_ <$> es /\
  Forall (fun e => is_u64 (offset e)) es'.
Proof.
  revert previous buf es' buf'.
  induction es as [|e es IH]; intros previous buf es' buf' Hb Hp Hlen H; simpl in H.
  { res_inv. by split_and!. }
  apply Forall_cons in Hlen as [He Hlen].
  res_inv; try done. destruct a as [v buf1]. res_inv; try done.
  destruct a0 as [es1 buf2]. res_inv.
  apply read_u64_varint_Ok in E as (Hd & Hb1 & Hl1); [|done].
  apply entry_offset_Ok in E0 as Ho; [|done..].
  apply IH in E1 as (Hids & Hl2 & Hr & Hln & Hf); [|done| |done].
  2: { intros p [= <-]. simpl. unfold is_u in *. lia. }
  unfold same_ids in *.
  split_and!; [by simpl; f_equal|simpl; lia|by simpl; f_equal|by simpl; f_equal|by constructor].
Qed.

(** ** Decompression is bounded *)

(** The decoders produce bytes. *)
Definition decoders_ok (dec : Decoders) : Prop :=
  forall bs, is_bytes bs ->
    is_bytes (stream_bytes (gz_decoder dec bs)) /\
    is_bytes (stream_bytes (brotli_decoder dec bs)) /\
    (forall s, zstd_decoder dec bs = Some s -> is_bytes (stream_bytes s)).

Lemma read_decompressed_limited_Ok s max_bytes out :
  read_decompressed_limited s max_bytes = Ok out ->
  out = stream_bytes s /\ stream_clean s = true /\ Z.of_nat (length out) <= max_bytes.
Proof.
  unfold read_decompressed_limited. intros H. res_inv; try done.
  apply checked_add_Some in E as [-> Hmax].
  rewrite Z.gtb_ltb in H. destruct (Z.ltb_spec max_bytes (Z.of_nat (length a0))); [done|].
  injection H as ->. unfold take_read_to_end in E0.
  destruct (Nat.leb_spec (Z.to_nat (max_bytes + 1)) (length (stream_bytes s))) as [Hle|Hlt].
  - injection E0 as <-. rewrite length_take in *. lia.
  - destruct (stream_clean s); simplify_eq. split_and!; done.
Qed.

Lemma decompress_bytes_with_limit_Ok dec c bytes max_bytes out :
  decompress_bytes_with_limit dec c bytes max_bytes = Ok out ->
  Z.of_nat (length out) <= max_bytes.
Proof.
  destruct c; simpl; intros H; res_inv; try done.
  - rewrite Z.gtb_ltb in H.
    destruct (Z.ltb_spec max_bytes (Z.of_nat (length bytes))); simplify_eq. lia.
  - by apply read_decompressed_limited_Ok in H as (_ & _ & ?).
  - by apply read_decompressed_limited_Ok in H as (_ & _ & ?).
  - by apply read_decompressed_limited_Ok in H as (_ & _ & ?).
Qed.

Lemma decompress_bytes_with_limit_bytes dec c bytes max_bytes out :
  decoders_ok dec -> is_bytes bytes ->
  decompress_bytes_with_limit dec c bytes max_bytes = Ok out -> is_bytes out.
Proof.
  intros Hdec Hb. destruct (Hdec bytes Hb) as (Hgz & Hbr & Hzs).
  destruct c; simpl; intros H; res_inv; try done.
  - by case_match; simplify_eq.
  - by apply read_decompressed_limited_Ok in H as (-> & _).
  - by apply read_decompressed_limited_Ok in H as (-> & _).
  - apply read_decompressed_limited_Ok in H as (-> & _). by apply Hzs.
Qed.

(** ** Directory parsing *)

Lemma fill_columns_Ok es buffer es' :
  is_bytes buffer -> fill_columns es buffer = Ok es' ->
  directory_wf {| entries := es' |} /\ length es' = length es.
Proof.
  intros Hb H. unfold fill_columns in H.
  res_inv; try done. destruct a as [es1 b1]. res_inv; try done. destruct a as [es2 b2].
  res_inv; try done. destruct a as [es3 b3]. res_inv; try done. destruct a as [es4 b4].
  res_inv.
  apply fill_tile_ids_Ok in E as (Hn & Hb1 & _ & Hf1 & Hs1); [|lia|done].
  apply fill_run_lengths_Ok in E0 as (Hi2 & Hb2 & _ & Hf2); [|done].
  apply fill_lengths_Ok in E1 as (Hi3 & Hb3 & _ & Hr3 & Hf3); [|done].
  apply fill_offsets_Ok in E2 as (Hi4 & _ & Hr4 & Hl4 & Hf4); [|done..].
  unfold same_ids in *. rewrite Hi3, Hi2 in Hi4. rewrite Hr3 in Hr4.
  assert (Hid : forall i e, es' !! i = Some e ->
    exists e1 e2 e3, es1 !! i = Some e1 /\ es2 !! i = Some e2 /\ es3 !! i = Some e3 /\
      tile_id e1 = tile_id e /\ run_length e2 = run_length e /\ length_ e3 = length_ e).
  { intros i e He.
    apply (f_equal (.!! i)) in Hi4, Hr4, Hl4. rewrite !list_lookup_fmap, He in *.
    destruct (es1 !! i), (es2 !! i), (es3 !! i); simplify_eq/=. eauto 10. }
  split; [split; simpl|].
  - intros i j x y Hij Hx Hy.
    apply Hid in Hx as (x1 & ? & ? & Hx & _ & _ & <- & _).
    apply Hid in Hy as (y1 & ? & ? & Hy & _ & _ & <- & _). by apply (Hs1 i j).
  - apply Forall_lookup. intros i e He.
    pose proof (Forall_lookup_1 _ _ _ _ Hf4 He) as Ho.
    apply Hid in He as (e1 & e2 & e3 & H1 & H2 & H3 & <- & <- & <-).
    pose proof (Forall_lookup_1 _ _ _ _ Hf1 H1). pose proof (Forall_lookup_1 _ _ _ _ Hf2 H2).
    pose proof (Forall_lookup_1 _ _ _ _ Hf3 H3). split_and!; try done; unfold is_u; lia.
  - rewrite <- Hn, <- (length_fmap tile_id es'), Hi4. apply length_fmap.
Qed.

Lemma fill_columns_encoded es :
  sorted_ids es -> Forall entry_ok es ->
  fill_columns ((fun _ => DirectoryEntry_default) <$> es)
    (encode_tile_ids 0 es ++ encode_column run_length es ++ encode_column length_ es ++
     encode_offsets None es) = Ok es.
Proof.
  intros Hs Hok. unfold fill_columns.
  destruct (encode_offsets_bytes None es Hok) as [Ho _].
  assert (is_bytes (encode_column run_length es) /\ is_bytes (encode_column length_ es)) as [Hr Hl].
  { split; apply encode_column_bytes; (eapply Forall_impl; [done|]); intros ? ?;
      by apply entry_ok_u64. }
  rewrite fill_tile_ids_encoded; [|lia| |done..|by repeat (apply Forall_app; split)].
  2: { eapply Forall_impl; [done|]. intros e He. apply He. }
  res_simpl. rewrite fill_run_lengths_encoded by (done || by apply Forall_app).
  res_simpl. rewrite fill_lengths_encoded by done. res_simpl.
  rewrite <- (app_nil_r (encode_offsets None es)), fill_offsets_encoded by (done || constructor). done.
Qed.

Section DirectoryParseFacts.
Context (dec : Decoders) (try_reserve_exact : Z -> bool).

Lemma Directory_parse_wf c bytes limit d
    (Hdec : decoders_ok dec) (Hbytes : is_bytes bytes)
    (Hparse : Directory_parse_with_limit dec try_reserve_exact c bytes limit = Ok d) :
  directory_wf d /\ 4 * Z.of_nat (length (entries d)) < limit.
Proof.
  unfold Directory_parse_with_limit in Hparse.
  res_inv; try done. destruct a0 as [v buf0]. res_inv; try done.
  pose proof (decompress_bytes_with_limit_Ok _ _ _ _ _ E) as Hlim.
  apply decompress_bytes_with_limit_bytes in E as Hba; [|done..].
  apply read_u64_varint_Ok in E0 as (Hv & Hb0 & Hl0); [|done].
  apply usize_try_from_Some in E1 as [-> _]. apply checked_mul_Some in E2 as [-> _].
  rewrite Z.gtb_ltb in Hparse.
  destruct (Z.ltb_spec (Z.of_nat (length buf0)) (v * 4)); [done|].
  destruct (try_reserve_exact v); simpl in Hparse; [|done].
  res_inv; try done. apply fill_columns_Ok in E0 as [Hwf Hlen]; [|done].
  rewrite length_replicate in Hlen. split; [done|]. unfold is_u in Hv. simpl. lia.
Qed.

Lemma fill_columns_no_panic es buffer : fill_columns es buffer <> Panic.
Proof.
  unfold fill_columns.
  assert (H1 : forall es next buf, fill_tile_ids next es buf <> Panic).
  { clear. induction es as [|e es IH]; intros; simpl; no_panic. }
  assert (H2 : forall es buf, fill_run_lengths es buf <> Panic).
  { clear. induction es as [|e es IH]; intros; simpl; no_panic. }
  assert (H3 : forall es buf, fill_lengths es buf <> Panic).
  { clear. induction es as [|e es IH]; intros; simpl; no_panic. }
  assert (H4 : forall es prev buf, fill_offsets prev es buf <> Panic).
  { clear. induction es as [|e es IH]; intros; simpl; unfold entry_offset; no_panic. }
  no_panic.
Qed.

Lemma decompress_no_panic c bytes limit :
  decompress_bytes_with_limit dec c bytes limit <> Panic.
Proof.
  assert (H : forall s, read_decompressed_limited s limit <> Panic).
  { intros s. unfold read_decompressed_limited, take_read_to_end. no_panic. }
  destruct c; simpl; no_panic.
Qed.

Lemma Directory_parse_no_panic c bytes limit :
  Directory_parse_with_limit dec try_reserve_exact c bytes limit <> Panic.
Proof.
  unfold Directory_parse_with_limit.
  pose proof decompress_no_panic. pose proof fill_columns_no_panic. no_panic.
Qed.

(** Whatever bytes a peer or object store returns, a directory that
    parses has its tile ids in ascending order and every field in its machine
    range, and the declared entry count is bounded by the decompression limit
    (four encoded bytes per entry) before anything is allocated. *)
Theorem Directory_parse_sound c bytes limit d
    (Hdec : decoders_ok dec) (Hbytes : is_bytes bytes)
    (Hparse : Directory_parse_with_limit dec try_reserve_exact c bytes limit = Ok d) :
  directory_wf d /\ 4 * Z.of_nat (length (entries d)) < limit.
Proof. exact (Directory_parse_wf c bytes limit d Hdec Hbytes Hparse). Qed.

(** Round trip: parsing the canonical encoding of a directory gives back
    its entries, contiguous offsets (stored as 0) included. *)
Theorem Directory_parse_encode es limit
    (Hsorted : sorted_ids es) (Hok : Forall entry_ok es)
    (Hlimit : Z.of_nat (length (encode_directory es)) <= limit)
    (Hn : 4 * Z.of_nat (length es) <= u64_max)
    (Halloc : try_reserve_exact (Z.of_nat (length es)) = true) :
  Directory_parse_with_limit dec try_reserve_exact CompNone (encode_directory es) limit
  = Ok {| entries := es |}.
Proof.
  unfold Directory_parse_with_limit. cbn [decompress_bytes_with_limit].
  rewrite Z.gtb_ltb, (proj2 (Z.ltb_ge _ _)) by done. res_simpl.
  destruct (encode_tile_ids_bytes 0 es) as [Hb1 Hl1]; [lia| |done..|].
  { eapply Forall_impl; [done|]. intros e He. apply He. }
  destruct (encode_offsets_bytes None es Hok) as [Hb4 Hl4].
  assert (forall f, (forall e, entry_ok e -> is_u64 (f e)) ->
            is_bytes (encode_column f es) /\ (length es <= length (encode_column f es))%nat)
    as Hcol.
  { intros f Hf. split; [apply encode_column_bytes|apply encode_column_length].
    all: eapply Forall_impl; [done|]; apply Hf. }
  destruct (Hcol run_length) as [Hb2 Hl2]; [by intros e He; apply entry_ok_u64|].
  destruct (Hcol length_) as [Hb3 Hl3]; [by intros e He; apply entry_ok_u64|].
  unfold encode_directory. rewrite read_write_u64_varint;
    [|unfold is_u; lia|by repeat (apply Forall_app; split)].
  res_simpl. unfold usize_try_from. rewrite (proj2 (Z.leb_le _ _)) by (unfold usize_max; lia).
  res_simpl. unfold checked_mul. rewrite (proj2 (Z.leb_le _ _)) by lia. res_simpl.
  rewrite Z.gtb_ltb, (proj2 (Z.ltb_ge _ _)) by (rewrite !length_app; lia).
  rewrite Halloc, Nat2Z.id. simpl negb. cbv iota.
  replace (replicate _ _) with ((fun _ => DirectoryEntry_default) <$> es)
    by (by apply const_fmap).
  by rewrite fill_columns_encoded.
Qed.
End DirectoryParseFacts.

(** ** Directory search *)

(** The entry responsible for a tile id: the last one that starts at or before it. *)
Definition owner (es : list DirectoryEntry) (id : Z) (i : nat) (e : DirectoryEntry) : Prop :=
  es !! i = Some e /\ tile_id e <= id /\
  forall j x, (i < j)%nat -> es !! j = Some x -> id < tile_id x.

(** It answers for the id when it points to a leaf or its run reaches the id. *)
Definition answers (e : DirectoryEntry) (id : Z) : Prop :=
  is_leaf e = true \/ id < tile_id e + run_length e.

Definition strictly_sorted_ids (es : list DirectoryEntry) : Prop :=
  forall i j x y, (i < j)%nat -> es !! i = Some x -> es !! j = Some y ->
    tile_id x < tile_id y.

Lemma sorted_ids_partitioned es id :
  sorted_ids es -> partitioned (fun e => Z.compare (tile_id e) id) es.
Proof.
  intros Hs i j x y Hij Hx Hy. specialize (Hs i j x y Hij Hx Hy).

  split; [rewrite !Z.compare_gt_iff|rewrite !Z.compare_lt_iff]; lia.
Qed.

(** The answer on any directory that parses: a resident entry at or before the
    id which is an exact hit, a leaf, or a run that reaches the id. *)
Lemma find_tile_id_Some d id i e :
  directory_wf d -> is_u64 id -> find_tile_id d id = Some (i, e) ->
  entries d !! i = Some e /\ tile_id e <= id /\ (tile_id e = id \/ answers e id).
Proof.
  intros [Hs Hok] Hid. unfold find_tile_id.
  destruct (binary_search_by _ _) as [k|k] eqn:Hbs.
  - destruct (entries d !! k) as [x|] eqn:Hx; simpl; [|done]. intros [= -> ->].
    apply binary_search_by_Found in Hbs as (y & Hy & Hc). rewrite Hx in Hy.
    simplify_eq. apply Z.compare_eq in Hc. split_and!; [done|lia|by left].
  - apply binary_search_by_Insert in Hbs as (_ & Hlt & _);
      [|by apply sorted_ids_partitioned].
    destruct (Nat.ltb_spec 0 k); [|done].
    destruct (entries d !! (k - 1)%nat) as [x|] eqn:Hx; simpl; [|done].
    pose proof (Hlt (k - 1)%nat x ltac:(lia) Hx) as Hc. rewrite Z.compare_lt_iff in Hc.
    pose proof (Forall_lookup_1 _ _ _ _ Hok Hx) as (Hx1 & _).
    rewrite wrapping_sub_small by (unfold is_u in *; lia).
    destruct (_ || _) eqn:Ha; [|done]. intros [= <- <-].
    split_and!; [done|lia|right]. apply orb_true_iff in Ha as [?|Ha]; [by left|].
    right. apply Z.ltb_lt in Ha. lia.
Qed.

Lemma find_tile_id_owner d id :
  directory_wf d -> strictly_sorted_ids (entries d) -> is_u64 id ->
  match find_tile_id d id with
  | Some (i, e) => owner (entries d) id i e
  | None => forall i e, owner (entries d) id i e -> ~ answers e id
  end.
Proof.
  intros [Hs Hok] Hstrict Hid. unfold find_tile_id.
  destruct (binary_search_by _ _) as [k|k] eqn:Hbs.
  - apply binary_search_by_Found in Hbs as (x & Hx & Hc). rewrite Hx. simpl.
    apply Z.compare_eq in Hc. split_and!; [done|lia|].
    intros j y Hj Hy. pose proof (Hstrict k j x y Hj Hx Hy). lia.
  - apply binary_search_by_Insert in Hbs as (Hk & Hlt & Hgt);
      [|by apply sorted_ids_partitioned].
    setoid_rewrite Z.compare_lt_iff in Hlt. setoid_rewrite Z.compare_gt_iff in Hgt.
    destruct (Nat.ltb_spec 0 k) as [Hpos|Hz].
    + destruct (lookup_lt_is_Some_2 (entries d) (k - 1)%nat) as [x Hx]; [lia|].
      rewrite Hx. simpl.
      assert (owner (entries d) id (k - 1) x) as Hown.
      { pose proof (Hlt (k - 1)%nat x ltac:(lia) Hx).
        split_and!; [done|lia|]. intros j y Hj Hy. apply (Hgt j y); [lia|done]. }
      pose proof (Forall_lookup_1 _ _ _ _ Hok Hx) as (Hx1 & _).
      rewrite wrapping_sub_small
        by (destruct Hown as (_ & ? & _); unfold is_u in *; lia).
      destruct (_ || _) eqn:Ha; [done|]. intros i e (Hi & Hle & Hmax).
      destruct Hown as (_ & Hxle & Hxmax).
      assert (i = (k - 1)%nat) as ->.
      { destruct (Nat.lt_trichotomy i (k - 1)) as [Hc|[Hc|Hc]]; [|done|].
        - pose proof (Hmax _ _ Hc Hx). lia.
        - pose proof (Hxmax _ _ Hc Hi). lia. }
      simplify_eq. apply orb_false_elim in Ha as [Hl Ha]. apply Z.ltb_ge in Ha.
      intros [Hc|Hc]; [congruence|lia].
    + intros i e (Hi & Hle & _). pose proof (Hgt i e ltac:(lia) Hi). lia.
Qed.

(** [C4] On a directory with strictly ascending ids the binary search returns
    exactly the entry responsible for the id, and nothing when that entry is a
    run that ends before it: the optimised search is the reference search. *)
Theorem find_tile_id_correct d id i e
    (Hwf : directory_wf d) (Hstrict : strictly_sorted_ids (entries d)) (Hid : is_u64 id) :
  find_tile_id d id = Some (i, e) <-> owner (entries d) id i e /\ answers e id.
Proof.
  pose proof (find_tile_id_owner d id Hwf Hstrict Hid) as Hown. split.
  - intros H. rewrite H in Hown. split; [done|].
    pose proof H as Hsome. apply find_tile_id_Some in Hsome as (Hi & _ & [Heq|Ha]); [|done..].
    destruct Hwf as [_ Hok]. pose proof (Forall_lookup_1 _ _ _ _ Hok Hi) as (_ & _ & _ & Hr).
    unfold answers, is_leaf. destruct (Z.eqb_spec (run_length e) 0); [by left|right].
    unfold is_u in Hr. lia.
  - intros [(Hi & Hle & Hmax) Ha].
    destruct (find_tile_id d id) as [[k x]|].
    + destruct Hown as (Hx & Hxle & Hxmax).
      assert (i = k) as ->; [|by simplify_eq].
      destruct (Nat.lt_trichotomy i k) as [Hc|[Hc|Hc]]; [|done|].
      * pose proof (Hmax _ _ Hc Hx). lia.
      * pose proof (Hxmax _ _ Hc Hi). lia.
    + destruct (Hown i e); by repeat split.
Qed.

(** ** Header layout *)

Definition u8_at (n : nat) (bs : list Z) : Z := nth n bs 0.
Definition u64_at (n : nat) (bs : list Z) : Z := le_decode (take 8 (drop n bs)).
Definition i32_at (n : nat) (bs : list Z) : Z := i32_of_u32 (le_decode (take 4 (drop n bs))).

(** The header as the format's table of fixed offsets describes it. *)
Definition header_at (bs : list Z) (ic tc : Compression) (tt : TileType) : Header :=
  {| version := u8_at 7 bs;
     root_offset := u64_at 8 bs; root_length := u64_at 16 bs;
     metadata_offset := u64_at 24 bs; metadata_length := u64_at 32 bs;
     leaf_offset := u64_at 40 bs; leaf_length := u64_at 48 bs;
     data_offset := u64_at 56 bs; data_length := u64_at 64 bs;
     n_addressed_tiles := u64_at 72 bs; n_tile_entries := u64_at 80 bs;
     n_tile_contents := u64_at 88 bs;
     clustered := negb (u8_at 96 bs =? 0);
     internal_compression := ic; tile_compression := tc; tile_type := tt;
     min_zoom := u8_at 100 bs; max_zoom := u8_at 101 bs;
     min_longitude := e7_degrees (i32_at 102 bs);
     min_latitude := e7_degrees (i32_at 106 bs);
     max_longitude := e7_degrees (i32_at 110 bs);
     max_latitude := e7_degrees (i32_at 114 bs);
     center_zoom := u8_at 118 bs;
     center_longitude := e7_degrees (i32_at 119 bs);
     center_latitude := e7_degrees (i32_at 123 bs) |}.

Definition sections_fit (h : Header) : Prop :=
  Forall (fun '(_, off, len) => off + len <= u64_max) (Header_sections h).

Lemma get_u8_at {E} n bs :
  (n < length bs)%nat -> @get_u8 E (drop n bs) = Ok (u8_at n bs, drop (S n) bs).
Proof.
  intros Hn. destruct (lookup_lt_is_Some_2 bs n Hn) as [b Hb].
  rewrite (drop_S _ _ _ Hb). simpl. unfold u8_at.
  by rewrite (nth_lookup_Some _ _ _ _ Hb).
Qed.

Lemma split_to_at {E} k n bs :
  (n + k <= length bs)%nat ->
  @split_to E k (drop n bs) = Ok (take k (drop n bs), drop (n + k) bs).
Proof.
  intros Hn. unfold split_to. rewrite length_drop, (proj2 (Nat.leb_le _ _)) by lia.
  by rewrite drop_drop.
Qed.

Lemma get_u64_le_at {E} n bs :
  (n + 8 <= length bs)%nat -> @get_u64_le E (drop n bs) = Ok (u64_at n bs, drop (n + 8) bs).
Proof. intros Hn. unfold get_u64_le. by rewrite split_to_at. Qed.

Lemma read_coordinate_part_at {E} n bs :
  (n + 4 <= length bs)%nat ->
  @read_coordinate_part E (drop n bs) = Ok (e7_degrees (i32_at n bs), drop (n + 4) bs).
Proof. intros Hn. unfold read_coordinate_part, get_i32_le. by rewrite split_to_at. Qed.

Lemma check_sections_spec l :
  check_sections l = Ok tt \/ exists s, check_sections l = Err (SectionRangeOverflow s).
Proof. induction l as [|[[s o] n] l IH]; simpl; [by left|]. destruct (checked_add o n); eauto. Qed.

Lemma check_sections_Ok l :
  check_sections l = Ok tt <-> Forall (fun '(_, off, len) => off + len <= u64_max) l.
Proof.
  induction l as [|[[s o] n] l IH]; simpl; [by split|].
  rewrite Forall_cons, <- IH. unfold checked_add.
  destruct (Z.leb_spec (o + n) u64_max); simpl; intuition (done || lia).
Qed.

(** One step of reading a header field at a known offset. *)
Ltac read_field :=
  first [ rewrite get_u64_le_at by lia | rewrite get_u8_at by lia
        | rewrite read_coordinate_part_at by lia ];
  res_simpl; cbn [Nat.add].

(** The parser as a function of the fixed offsets. *)
Lemma Header_parse_at bs :
  (HEADER_SIZE <= length bs)%nat ->
  Header_parse bs =
    (if negb (bool_decide (take 7 bs = MAGIC)) then Err InvalidMagic else
     if negb (u8_at 7 bs =? PMTILES_VERSION) then Err (UnsupportedVersion (u8_at 7 bs)) else
     ic ← Compression_try_from (u8_at 97 bs);
     tc ← Compression_try_from (u8_at 98 bs);
     tt ← TileType_try_from (u8_at 99 bs);
     _ ← check_sections (Header_sections (header_at bs ic tc tt));
     Ok (header_at bs ic tc tt)).
Proof.
  intros Hlen. unfold Header_parse. rewrite (proj2 (Nat.ltb_ge _ _)) by done.
  unfold HEADER_SIZE in Hlen.
  rewrite <- (drop_0 bs) at 1. rewrite split_to_at by lia. res_simpl. cbn [Nat.add].
  rewrite drop_0. destruct (negb (bool_decide (take 7 bs = MAGIC))); [done|].
  read_field. destruct (negb (u8_at 7 bs =? PMTILES_VERSION)); [done|].
  do 11 read_field. do 2 read_field. destruct (Compression_try_from (u8_at 97 bs)); try done.
  read_field. destruct (Compression_try_from (u8_at 98 bs)); try done.
  read_field. destruct (TileType_try_from (u8_at 99 bs)); try done.
  res_simpl. do 9 read_field. done.
Qed.

(** Header layout: an archive header parses exactly when it is at least
    127 bytes long, starts with the magic and version 3, names known compression
    and tile-type codes and declares no section past the 64-bit address space;
    the parsed fields are then the little-endian values at the offsets of the
    PMTiles v3 table (coordinates as binary64 quotients by 10^7). *)
Theorem Header_parse_layout bs h :
  Header_parse bs = Ok h <->
  (HEADER_SIZE <= length bs)%nat /\ take 7 bs = MAGIC /\ u8_at 7 bs = PMTILES_VERSION /\
  exists ic tc tt,
    Compression_try_from (u8_at 97 bs) = Ok ic /\
    Compression_try_from (u8_at 98 bs) = Ok tc /\
    TileType_try_from (u8_at 99 bs) = Ok tt /\
    h = header_at bs ic tc tt /\ sections_fit h.
Proof.
  destruct (Nat.lt_ge_cases (length bs) HEADER_SIZE) as [Hlt|Hge].
  { unfold Header_parse. rewrite (proj2 (Nat.ltb_lt _ _)) by done. split; [done|lia]. }
  rewrite Header_parse_at by done. split.
  - intros H. case_bool_decide as Hm; simpl in H; [|done].
    destruct (Z.eqb_spec (u8_at 7 bs) PMTILES_VERSION); simpl in H; [|done].
    res_inv; try done.
    rewrite !checked_add_Some in *. destruct_and!. split_and!; try done.
    exists a, a0, a1. split_and!; try done. by repeat constructor.
  - intros (_ & Hm & Hv & ic & tc & tt & -> & -> & -> & -> & Hs).
    rewrite bool_decide_eq_true_2, Hv, Z.eqb_refl by done. cbn [negb]. res_simpl.
    apply check_sections_Ok in Hs. by rewrite Hs.
Qed.

Lemma Header_parse_total bs : Header_parse bs <> Panic.
Proof.
  destruct (Nat.lt_ge_cases (length bs) HEADER_SIZE) as [Hlt|Hge].
  { unfold Header_parse. by rewrite (proj2 (Nat.ltb_lt _ _)) by done. }
  rewrite Header_parse_at by done.
  repeat (case_match; [done|]). 
  apply Res_bind_no_panic; [unfold Compression_try_from; repeat case_match; done|intros ic _].
  apply Res_bind_no_panic; [unfold Compression_try_from; repeat case_match; done|intros tc _].
  apply Res_bind_no_panic; [unfold TileType_try_from; repeat case_match; done|intros tt _].
  by destruct (check_sections_spec (Header_sections (header_at bs ic tc tt)))
    as [->|[s ->]].
Qed.

(** The header parser never panics: the up-front length check covers every
    read, whatever the bytes. *)
Theorem Header_parse_no_panic bs : Header_parse bs <> Panic.
Proof. exact (Header_parse_total bs). Qed.

(** ** Tile ids *)

(** What fast_hilbert documents of [xy2h]: at order [z] it numbers the cells of
    the [2^z] by [2^z] grid, each with its own index below [4^z]. *)
Definition hilbert_ok (xy2h : Z -> Z -> Z -> Z) : Prop :=
  (forall z x y, 0 <= z <= MAX_ZOOM -> 0 <= x < 2 ^ z -> 0 <= y < 2 ^ z ->
     0 <= xy2h x y z < 4 ^ z) /\
  (forall z x y x' y', 0 <= z <= MAX_ZOOM ->
     0 <= x < 2 ^ z -> 0 <= y < 2 ^ z -> 0 <= x' < 2 ^ z -> 0 <= y' < 2 ^ z ->
     xy2h x y z = xy2h x' y' z -> x = x' /\ y = y').

Definition coord_valid (c : TileCoord) : Prop :=
  0 <= tc_z c <= MAX_ZOOM /\ 0 <= tc_x c < 2 ^ tc_z c /\ 0 <= tc_y c < 2 ^ tc_z c.

(** Tiles on all zoom levels below [z]: [(4^z - 1) / 3]. *)
Fixpoint pyramid (n : nat) : Z :=
  match n with O => 0 | S n => pyramid n + 4 ^ Z.of_nat n end.

Lemma pyramid_mono n m : (n < m)%nat -> pyramid n + 4 ^ Z.of_nat n <= pyramid m.
Proof.
  induction m as [|m IH]; intros H; [lia|]. cbn [pyramid].
  destruct (Nat.eq_dec n m) as [->|]; [lia|].
  pose proof (Z.pow_pos_nonneg 4 (Z.of_nat m)). specialize (IH ltac:(lia)). lia.
Qed.

Lemma pyramid_size_before_zoom_spec z :
  0 <= z <= MAX_ZOOM -> pyramid_size_before_zoom z = pyramid (Z.to_nat z).
Proof.
  intros Hz.
  assert (forallb (fun n => pyramid_size_before_zoom (Z.of_nat n) =? pyramid n) (seq 0 32)
          = true) as H by reflexivity.
  rewrite forallb_forall in H. specialize (H (Z.to_nat z)).
  rewrite Z2Nat.id in H by lia. apply Z.eqb_eq, H, in_seq. unfold MAX_ZOOM in Hz. lia.
Qed.

Section TileIdFacts.
Context (xy2h : Z -> Z -> Z -> Z) (Hxy : hilbert_ok xy2h).

(** The id lies in its zoom level's slice of the id space. *)
Lemma TileId_from_slice c :
  coord_valid c ->
  exists h, TileId_from xy2h c = pyramid (Z.to_nat (tc_z c)) + h /\
    0 <= h < 4 ^ tc_z c /\ (tc_z c = 0 -> h = 0) /\
    (tc_z c <> 0 -> h = xy2h (tc_x c) (tc_y c) (tc_z c)).
Proof.
  intros (Hz & Hx & Hy). unfold TileId_from.
  destruct (Z.eqb_spec (tc_z c) 0) as [Heq|Hne].
  { rewrite Heq. exists 0. simpl. lia. }
  destruct Hxy as [Hb _]. specialize (Hb _ _ _ Hz Hx Hy).
  exists (xy2h (tc_x c) (tc_y c) (tc_z c)).
  rewrite pyramid_size_before_zoom_spec by done.
  split; [|lia]. apply wrapping_add_small.
  pose proof (pyramid_mono (Z.to_nat (tc_z c)) 32 ltac:(unfold MAX_ZOOM in Hz; lia)) as Hm.
  rewrite Z2Nat.id in Hm by lia. change (pyramid 32) with 6148914691236517205 in Hm.
  pose proof (pyramid_mono 0 (Z.to_nat (tc_z c)) ltac:(lia)) as H0. simpl in H0.
  unfold is_u, u64_max. lia.
Qed.

(** Tile addressing: every validated coordinate has a valid tile id, and
    two coordinates share an id only if they are the same tile, zoom level
    included. *)
Theorem TileId_from_injective c c'
    (Hc : coord_valid c) (Hc' : coord_valid c') :
  TileId_new (TileId_from xy2h c) = Ok (TileId_from xy2h c) /\
  (TileId_from xy2h c = TileId_from xy2h c' -> c = c').
Proof.
  destruct (TileId_from_slice c Hc) as (h & -> & Hh & H0 & H1).
  destruct (TileId_from_slice c' Hc') as (h' & -> & Hh' & H0' & H1').
  destruct Hc as (Hz & Hx & Hy), Hc' as (Hz' & Hx' & Hy'). split.
  - unfold TileId_new. rewrite Z.gtb_ltb, (proj2 (Z.ltb_ge _ _)); [done|].
    pose proof (pyramid_mono (Z.to_nat (tc_z c)) 32 ltac:(unfold MAX_ZOOM in Hz; lia)) as Hm.
    rewrite Z2Nat.id in Hm by lia. change (pyramid 32) with 6148914691236517205 in Hm.
    unfold MAX_TILE_ID. lia.
  - intros Heq. assert (tc_z c = tc_z c') as Hzz.
    { destruct (Z.lt_trichotomy (tc_z c) (tc_z c')) as [Hlt|[?|Hlt]]; [|done|].
      - pose proof (pyramid_mono (Z.to_nat (tc_z c)) (Z.to_nat (tc_z c')) ltac:(lia)) as Hm.
        rewrite Z2Nat.id in Hm; lia.
      - pose proof (pyramid_mono (Z.to_nat (tc_z c')) (Z.to_nat (tc_z c)) ltac:(lia)) as Hm.
        rewrite Z2Nat.id in Hm; lia. }
    destruct c as [z x y], c' as [z' x' y']; simpl in *. subst z'.
    destruct (Z.eq_dec z 0) as [->|Hne]; [f_equal; lia|].
    destruct Hxy as [_ Hinj]. rewrite (H1 Hne), (H1' Hne) in Heq.
    destruct (Hinj z x y x' y'); try done; [lia|congruence].
Qed.
End TileIdFacts.

(** [TileCoord::new] accepts exactly the grid of the zoom level. *)
Lemma TileCoord_new_Ok z x y c :
  0 <= z <= u8_max -> 0 <= x -> 0 <= y ->
  TileCoord_new z x y = Ok c <-> c = {| tc_z := z; tc_x := x; tc_y := y |} /\ coord_valid c.
Proof.
  intros Hz Hx Hy. unfold TileCoord_new, checked_shl.
  destruct (Z.ltb_spec z 64) as [Hlt|Hge]; simpl.
  - rewrite Z.shiftl_mul_pow2, Z.mul_1_l by lia.
    rewrite (wrap64_small (2 ^ z)).
    2: { pose proof (Z.pow_pos_nonneg 2 z). unfold is_u, u64_max.
         assert (2 ^ z <= 2 ^ 63) by (apply Z.pow_le_mono_r; lia). lia. }
    rewrite Z.gtb_ltb, !Z.geb_leb.
    destruct (Z.ltb_spec MAX_ZOOM z), (Z.leb_spec (2 ^ z) x), (Z.leb_spec (2 ^ z) y);
      simpl; (split; [intros [= <-]|]); try (intros [-> Hv]); unfold coord_valid in *;
      simpl in *; (done || lia || (split; [done|lia])).
  - split; [done|]. intros [-> (? & _)]. unfold MAX_ZOOM in *. simpl in *. lia.
Qed.

(** Varints: on any byte buffer the decoder succeeds with [(v, rest)]
    exactly when the buffer is one complete base-128 number of at most ten
    digits followed by [rest], and [v] is its exact value, which fits a [u64]:
    no set bit is ever dropped. *)
Theorem read_u64_varint_exact buf v rest (Hbuf : is_bytes buf) :
  read_u64_varint buf = Ok (v, rest) <->
  exists c, buf = c ++ rest /\ leb128_shape c /\
    ((length c <= 10)%nat /\ v = leb128_value c /\ v <= u64_max).
Proof. exact (read_u64_varint_spec buf v rest Hbuf). Qed.

(** ** Witnesses *)

Definition sample_entries : list DirectoryEntry :=
  [ {| tile_id := 0; offset := 0; length_ := 10; run_length := 1 |};
    {| tile_id := 1; offset := 10; length_ := 5; run_length := 2 |};
    {| tile_id := 5; offset := 300; length_ := 7; run_length := 0 |} ].

Definition no_decoders : Decoders :=
  {| gz_decoder := fun _ => {| stream_bytes := []; stream_clean := false |};
     brotli_decoder := fun _ => {| stream_bytes := []; stream_clean := false |};
     zstd_decoder := fun _ => None |}.

Lemma no_decoders_ok : decoders_ok no_decoders.
Proof. intros bs _. split_and!; [constructor|constructor|done]. Qed.

Lemma sorted_ids_by_compute es :
  forallb (fun i => forallb (fun j => match es !! i, es !! j with
    | Some x, Some y => implb (i <=? j)%nat (tile_id x <=? tile_id y)
    | _, _ => true end) (seq 0 (length es))) (seq 0 (length es)) = true -> sorted_ids es.
Proof.
  intros H i j x y Hij Hx Hy. rewrite forallb_forall in H.
  pose proof (lookup_lt_Some _ _ _ Hx). pose proof (lookup_lt_Some _ _ _ Hy).
  specialize (H i ltac:(apply in_seq; lia)). rewrite forallb_forall in H.
  specialize (H j ltac:(apply in_seq; lia)). rewrite Hx, Hy in H.
  rewrite (proj2 (Nat.leb_le _ _) Hij) in H. simpl in H. lia.
Qed.

Ltac solve_ranges := repeat constructor; simpl; unfold is_u, u8_max, u32_max, u64_max; lia.

Lemma sample_sorted : sorted_ids sample_entries.
Proof. apply sorted_ids_by_compute. reflexivity. Qed.

Lemma read_u64_varint_exact_witness :
  exists c, [172; 2; 7] = c ++ [7] /\ leb128_shape c /\
    ((length c <= 10)%nat /\ 300 = leb128_value c /\ 300 <= u64_max).
Proof. apply (read_u64_varint_exact [172; 2; 7] 300 [7]); [solve_ranges|reflexivity]. Defined.

Lemma Directory_parse_encode_witness :
  Directory_parse_with_limit no_decoders (fun _ => true) CompNone
    (encode_directory sample_entries) 1000 = Ok {| entries := sample_entries |}.
Proof.
  apply (Directory_parse_encode no_decoders (fun _ => true) sample_entries 1000).
  - exact sample_sorted.
  - solve_ranges.
  - vm_compute. discriminate.
  - vm_compute. discriminate.
  - reflexivity.
Defined.

Lemma Directory_parse_sound_witness :
  directory_wf {| entries := sample_entries |} /\ 4 * Z.of_nat 3 < 1000.
Proof.
  apply (Directory_parse_sound no_decoders (fun _ => true) CompNone
           (encode_directory sample_entries) 1000 {| entries := sample_entries |}).
  - exact no_decoders_ok.
  - vm_compute encode_directory. solve_ranges.
  - reflexivity.
Defined.

Lemma find_tile_id_correct_witness :
  owner sample_entries 2 1 {| tile_id := 1; offset := 10; length_ := 5; run_length := 2 |} /\
  answers {| tile_id := 1; offset := 10; length_ := 5; run_length := 2 |} 2.
Proof.
  apply (find_tile_id_correct {| entries := sample_entries |} 2 1
           {| tile_id := 1; offset := 10; length_ := 5; run_length := 2 |}).
  - split; [exact sample_sorted|solve_ranges].
  - intros [|[|[|i]]] [|[|[|j]]] x y Hij Hx Hy; simplify_eq/=; lia.
  - unfold is_u, u64_max. lia.
  - reflexivity.
Defined.

(** Row-major numbering satisfies what is assumed of the curve. *)
Definition row_major (x y z : Z) : Z := x * 2 ^ z + y.

Lemma row_major_ok : hilbert_ok row_major.
Proof.
  unfold row_major. split.
  - intros z x y Hz Hx Hy. replace 4 with (2 * 2) by lia. rewrite Z.pow_mul_l. nia.
  - intros z x y x' y' Hz Hx Hy Hx' Hy' H.
    assert (x = x') as ->; [|lia].
    destruct (Z.lt_trichotomy x x') as [?|[?|?]]; [nia|done|nia].
Qed.

Lemma TileId_from_injective_witness :
  TileId_new (TileId_from row_major {| tc_z := 2; tc_x := 1; tc_y := 3 |}) =
    Ok (TileId_from row_major {| tc_z := 2; tc_x := 1; tc_y := 3 |}) /\
  (TileId_from row_major {| tc_z := 2; tc_x := 1; tc_y := 3 |} =
   TileId_from row_major {| tc_z := 1; tc_x := 1; tc_y := 1 |} ->
   {| tc_z := 2; tc_x := 1; tc_y := 3 |} = {| tc_z := 1; tc_x := 1; tc_y := 1 |}).
Proof.
  apply (TileId_from_injective row_major row_major_ok);
    unfold coord_valid, MAX_ZOOM; simpl; lia.
Defined.
