(* ===== verification/PmtilesReader.v ===== *)
(** * PMTiles archive reader (crates/mmpf-pmtiles/src/reader.rs)

    [ArchiveReader] resolves a tile id through a bounded walk over decoded
    directories and reads the tile's byte range.  Parsed access is the interface
    [ArchiveBackend]; [RangeArchiveBackend] is its implementation over a raw
    range source, a directory store and an observer.  Asynchronous calls are
    sequenced computations [SM] over the backend's state. *)

From S2P Require Import Prelude PmtilesFormat.

Local Open Scope list_scope.
Local Open Scope Z_scope.

Definition MIN_BOOTSTRAP_BYTES : Z := 16384.
Definition DEFAULT_MAX_DIRECTORY_DEPTH : Z := 64.
Definition DEFAULT_MAX_DECOMPRESSED_BYTES : Z := 64 * 1024 * 1024.

(** ** Data *)

Record ArchiveIdentity := { ai_name : string; ai_generation : string }.

Inductive ArchiveIdentityError := EmptyName | EmptyGeneration.

Definition ArchiveIdentity_new (name generation : string)
    : Res ArchiveIdentityError ArchiveIdentity :=
  if bool_decide (name = EmptyString) then Err EmptyName
  else if bool_decide (generation = EmptyString) then Err EmptyGeneration
  else Ok {| ai_name := name; ai_generation := generation |}.

#[export] Instance ArchiveIdentity_eq_dec : EqDecision ArchiveIdentity.
Proof. solve_decision. Defined.

Inductive ReadKind := RkBootstrap | RkMetadata | RkLeafDirectory | RkTile.

#[export] Instance ReadKind_eq_dec : EqDecision ReadKind.
Proof. solve_decision. Defined.

Record ReadRequest := {
  rq_offset : Z; rq_length : Z; rq_archive_len : option Z; rq_kind : ReadKind }.

Record LeafDirectoryKey := { lk_archive : ArchiveIdentity; lk_offset : Z; lk_length : Z }.

#[export] Instance LeafDirectoryKey_eq_dec : EqDecision LeafDirectoryKey.
Proof. solve_decision. Defined.

Inductive ReaderEvent :=
  | CacheHit (kind : ReadKind) (offset : Z)
  | ReadStarted (request : ReadRequest)
  | ReadCompleted (request : ReadRequest) (bytes : nat)
  | ShortRead (request : ReadRequest) (bytes : nat)
  | ReadFailed (request : ReadRequest)
  | DirectoryDecoded (kind : ReadKind) (n_entries : nat).

Record ReaderLimits := {
  bootstrap_bytes : Z;
  max_range_bytes : Z;
  max_directory_depth : Z;
  max_decompressed_directory_bytes : Z;
  max_decompressed_metadata_bytes : Z;
}.

Definition ReaderLimits_default : ReaderLimits :=
  {| bootstrap_bytes := MIN_BOOTSTRAP_BYTES;
     max_range_bytes := 64 * 1024 * 1024;
     max_directory_depth := DEFAULT_MAX_DIRECTORY_DEPTH;
     max_decompressed_directory_bytes := DEFAULT_MAX_DECOMPRESSED_BYTES;
     max_decompressed_metadata_bytes := DEFAULT_MAX_DECOMPRESSED_BYTES |}.

Inductive ReaderConfigError :=
  | BootstrapTooSmall | DepthZero | RangeBelowBootstrap | DecompressedZero.

Definition validate_limits (limits : ReaderLimits) : Res ReaderConfigError unit :=
  if bootstrap_bytes limits <? MIN_BOOTSTRAP_BYTES then Err BootstrapTooSmall
  else if max_directory_depth limits =? 0 then Err DepthZero
  else if max_range_bytes limits <? bootstrap_bytes limits then Err RangeBelowBootstrap
  else if (max_decompressed_directory_bytes limits =? 0)
       || (max_decompressed_metadata_bytes limits =? 0) then Err DecompressedZero
  else Ok tt.

Inductive ReaderError (SE : Type) :=
  | SourceError (e : SE)
  | InvalidTileId (e : FormatError)
  | InvalidArchive (e : FormatError).
Arguments SourceError {SE} e.
Arguments InvalidTileId {SE} e.
Arguments InvalidArchive {SE} e.

Record TileLocation := { tl_offset : Z; tl_length : Z; tl_archive_len : Z }.
Record ArchiveRange := { ar_offset : Z; ar_length : Z }.

Inductive DirectoryStep :=
  | Missing
  | Leaf (range : ArchiveRange)
  | Tile (location : TileLocation).

Record LeafDirectoryRequest := {
  lr_offset : Z; lr_length : Z; lr_compression : Compression; lr_archive_len : Z }.

Record TileLookupTrace := {
  tr_bootstrap : ArchiveRange;
  tr_leaves : list ArchiveRange;
  tr_tile : option TileLocation;
  tr_archive_len : Z;
}.

Record TileData := {
  td_bytes : list Z; td_content_type : string; td_content_encoding : option string }.

(** ** Section arithmetic *)

Fixpoint archive_len_loop (end_ : Z) (sections : list (Section_ * Z * Z)) : Res FormatError Z :=
  match sections with
  | [] => Ok end_
  | (name, offset, length) :: rest =>
      section_end ← ok_or (SectionRangeOverflow name) (checked_add offset length);
      archive_len_loop (Z.max end_ section_end) rest
  end.

(** Exclusive end of the declared archive sections. *)
Definition archive_len (h : Header) : Res FormatError Z :=
  archive_len_loop 0 (Header_sections h).

Definition checked_section_offset (name : Section_)
    (section_offset section_length relative_offset length : Z) : Res FormatError Z :=
  relative_end ← ok_or (EntryRangeOverflow name) (checked_add relative_offset length);
  if relative_end >? section_length
  then Err (EntryOutsideSection name relative_offset relative_end section_length)
  else ok_or (AbsoluteOffsetOverflow name) (checked_add section_offset relative_offset).

(** ** The directory walker *)

Record DirectoryWalker := {
  dw_header : Header;
  dw_archive_len : Z;
  dw_tile_id : Z;
  dw_depth : Z;
  dw_max_depth : Z;
}.

Definition DirectoryWalker_new (header : Header) (tile_id max_depth : Z)
    : Res FormatError DirectoryWalker :=
  if max_depth =? 0 then Err ZeroDepthLimit else
  archive_len ← archive_len header;
  Ok {| dw_header := header; dw_archive_len := archive_len; dw_tile_id := tile_id;
        dw_depth := 0; dw_max_depth := max_depth |}.

(** [DirectoryWalker::step(&mut self)]: the depth is spent before the leaf range
    is validated. *)
Definition DirectoryWalker_step (directory : Directory)
    : SM DirectoryWalker FormatError DirectoryStep := fun self =>
  match find_tile_id directory (dw_tile_id self) with
  | None => (Ok Missing, self)
  | Some (_, entry) =>
      if is_leaf entry then
        if dw_depth self >=? dw_max_depth self
        then (Err (DepthExceeded (dw_max_depth self)), self)
        else
          let self := {| dw_header := dw_header self; dw_archive_len := dw_archive_len self;
                         dw_tile_id := dw_tile_id self; dw_depth := dw_depth self + 1;
                         dw_max_depth := dw_max_depth self |} in
          (offset ← checked_section_offset LeafDirectorySection
                      (leaf_offset (dw_header self)) (leaf_length (dw_header self))
                      (offset entry) (length_ entry);
           Ok (Leaf {| ar_offset := offset; ar_length := length_ entry |}), self)
      else
        (offset ← checked_section_offset TileDataSection
                    (data_offset (dw_header self)) (data_length (dw_header self))
                    (offset entry) (length_ entry);
         Ok (Tile {| tl_offset := offset; tl_length := length_ entry;
                     tl_archive_len := dw_archive_len self |}), self)
  end.

(** ** Parsed archive access *)

Section Reader.
(** The decoded metadata document (metadata.rs, a serde_json deserialization). *)
Context {Metadata : Type}.

Record ArchiveBootstrap := {
  ab_header : Header;
  ab_root : Directory;
  ab_metadata : option Metadata;
  ab_archive_len : Z;
}.

Definition ArchiveBootstrap_new (header : Header) (root : Directory)
    (metadata : option Metadata) : Res FormatError ArchiveBootstrap :=
  archive_len ← archive_len header;
  Ok {| ab_header := header; ab_root := root; ab_metadata := metadata;
        ab_archive_len := archive_len |}.

(** The trait [ArchiveBackend]: its state is behind [&self]. *)
Class ArchiveBackend (S E : Type) := {
  load_bootstrap : SM S E ArchiveBootstrap;
  load_metadata : SM S E Metadata;
  load_leaf : LeafDirectoryRequest -> SM S E Directory;
  read_range : ReadRequest -> SM S E (list Z);
  invalid_tile_id : FormatError -> E;
  invalid_archive : FormatError -> E;
}.

Section ArchiveReader.
Context {S E : Type} `{ArchiveBackend S E} (limits : ReaderLimits).

Definition check_range (offset length : Z) : Res E unit :=
  if length >? max_range_bytes limits
  then Err (invalid_archive (RangeTooLong length (max_range_bytes limits)))
  else match checked_add offset length with
       | None => Err (invalid_archive (RangeOverflow offset length))
       | Some _ => Ok tt
       end.

(** The [loop] of [resolve_tile_location].  Every iteration that does not return
    spends one level of depth, so [max_depth + 1] rounds are enough; running out
    of [fuel] is the outcome [Panic], which is shown unreachable. *)
Fixpoint resolve_loop (fuel : nat) (bootstrap : ArchiveBootstrap)
    (walker : DirectoryWalker) (directory : Directory) (leaves : option (list ArchiveRange))
    : SM S E (option TileLocation * Header * Z * option (list ArchiveRange)) :=
  match fuel with
  | O => lift Panic
  | Datatypes.S fuel =>
      let '(step, walker) := DirectoryWalker_step directory walker in
      step ← lift (map_err invalid_archive step);
      match step with
      | Missing => mret (None, ab_header bootstrap, ab_archive_len bootstrap, leaves)
      | Tile location =>
          mret (Some location, ab_header bootstrap, ab_archive_len bootstrap, leaves)
      | Leaf range =>
          _ ← lift (check_range (ar_offset range) (ar_length range));
          let leaves := (fun l => l ++ [range]) <$> leaves in
          directory ← load_leaf
            {| lr_offset := ar_offset range; lr_length := ar_length range;
               lr_compression := internal_compression (ab_header bootstrap);
               lr_archive_len := ab_archive_len bootstrap |};
          resolve_loop fuel bootstrap walker directory leaves
      end
  end.

Definition resolve_fuel : nat := Datatypes.S (Z.to_nat (max_directory_depth limits)).

Definition resolve_tile_location (tile_id : Z) (leaves : option (list ArchiveRange))
    : SM S E (option TileLocation * Header * Z * option (list ArchiveRange)) :=
  tile_id ← lift (map_err invalid_tile_id (TileId_new tile_id));
  bootstrap ← load_bootstrap;
  walker ← lift (map_err invalid_archive
             (DirectoryWalker_new (ab_header bootstrap) tile_id (max_directory_depth limits)));
  resolve_loop resolve_fuel bootstrap walker (ab_root bootstrap) leaves.

Definition reader_header : SM S E Header :=
  bootstrap ← load_bootstrap; mret (ab_header bootstrap).

Definition reader_metadata : SM S E Metadata := load_metadata.

Definition lookup_with_trace (tile_id : Z) : SM S E TileLookupTrace :=
  '(tile, _, archive_len, leaves) ← resolve_tile_location tile_id (Some []);
  mret {| tr_bootstrap :=
            {| ar_offset := 0; ar_length := Z.min (bootstrap_bytes limits) u32_max |};
          tr_leaves := default [] leaves;
          tr_tile := tile;
          tr_archive_len := archive_len |}.

Definition get_tile (tile_id : Z) : SM S E (option TileData) :=
  '(location, header, _, _) ← resolve_tile_location tile_id None;
  match location with
  | None => mret None
  | Some location =>
      _ ← lift (check_range (tl_offset location) (tl_length location));
      bytes ← read_range
        {| rq_offset := tl_offset location; rq_length := tl_length location;
           rq_archive_len := Some (tl_archive_len location); rq_kind := RkTile |};
      mret (Some {| td_bytes := bytes;
                    td_content_type := content_type (tile_type header);
                    td_content_encoding := content_encoding (tile_compression header) |})
  end.
End ArchiveReader.

(** ** The raw-range backend *)

(** Trait [RangeSource]: raw bytes of one archive, from anywhere. *)
Class RangeSource (Src SE : Type) := source_read_range : ReadRequest -> SM Src SE (list Z).

(** Trait [DirectoryStore]: a cache of decoded directories. *)
Class DirectoryStore (D : Type) := {
  get_bootstrap : ArchiveIdentity -> D -> option ArchiveBootstrap * D;
  put_bootstrap : ArchiveIdentity -> ArchiveBootstrap -> D -> D;
  get_leaf : LeafDirectoryKey -> D -> option Directory * D;
  put_leaf : LeafDirectoryKey -> Directory -> D -> D;
}.

(** [NoDirectoryStore] caches nothing. *)
#[export] Instance NoDirectoryStore : DirectoryStore unit := {|
  get_bootstrap _ d := (None, d);
  put_bootstrap _ _ d := d;
  get_leaf _ d := (None, d);
  put_leaf _ _ d := d;
|}.

(** Trait [ReadObserver]. *)
Class ReadObserver (O : Type) := observe : ReaderEvent -> O -> O.
#[export] Instance NoopObserver : ReadObserver unit := fun _ o => o.

Section Decode.
Context (dec : Decoders) (try_reserve_exact : Z -> bool).
(** [serde_json::from_slice] and [Metadata::default]. *)
Context (metadata_from_json : list Z -> option Metadata) (Metadata_default : Metadata).

(** [Bytes::slice] panics outside the buffer. *)
Definition bytes_slice (lo hi : Z) (bs : list Z) : Res FormatError (list Z) :=
  if (0 <=? lo) && (lo <=? hi) && (hi <=? Z.of_nat (length bs))
  then Ok (take (Z.to_nat (hi - lo)) (drop (Z.to_nat lo) bs)) else Panic.

Definition decode_bootstrap_bytes (body : list Z) (max_decompressed_directory_bytes : Z)
    : Res FormatError ArchiveBootstrap :=
  if (length body <? HEADER_SIZE)%nat then Err BootstrapTruncated else
  head ← bytes_slice 0 (Z.of_nat HEADER_SIZE) body;
  header ← Header_parse head;
  root_start ← ok_or RootOffsetNotUsize (usize_try_from (root_offset header));
  root_length ← ok_or RootLengthNotUsize (usize_try_from (root_length header));
  root_end ← ok_or InvalidRootRange (checked_add root_start root_length);
  if root_end >? Z.of_nat (length body) then Err RootOutsideBootstrap else
  root_bytes ← bytes_slice root_start root_end body;
  root ← Directory_parse_with_limit dec try_reserve_exact (internal_compression header)
           root_bytes max_decompressed_directory_bytes;
  ArchiveBootstrap_new header root None.

Definition decode_metadata_bytes (header : Header) (bytes : list Z)
    (max_decompressed_bytes : Z) : Res FormatError Metadata :=
  bytes ← decompress_bytes_with_limit dec (internal_compression header) bytes
            max_decompressed_bytes;
  ok_or MetadataJson (metadata_from_json bytes).

Section RangeArchiveBackend.
Context {Src SE D O : Type}.
Context `{RangeSource Src SE} `{DirectoryStore D} `{ReadObserver O}.
Context (identity : ArchiveIdentity) (limits : ReaderLimits).

Record RangeState := { rs_source : Src; rs_directories : D; rs_observer : O }.

Definition emit (event : ReaderEvent) : SM RangeState (ReaderError SE) unit :=
  modify (fun s => {| rs_source := rs_source s; rs_directories := rs_directories s;
                      rs_observer := observe event (rs_observer s) |}).

Definition with_store {A} (f : D -> A * D) : SM RangeState (ReaderError SE) A := fun s =>
  let '(a, d) := f (rs_directories s) in
  (Ok a, {| rs_source := rs_source s; rs_directories := d; rs_observer := rs_observer s |}).

(** The source call itself, its result handed to the [match]. *)
Definition call_source (request : ReadRequest)
    : SM RangeState (ReaderError SE) (SE + list Z) := fun s =>
  let '(r, src) := source_read_range request (rs_source s) in
  (match r with Ok bytes => Ok (inr bytes) | Err e => Ok (inl e) | Panic => Panic end,
   {| rs_source := src; rs_directories := rs_directories s; rs_observer := rs_observer s |}).

Definition range_read_range (request : ReadRequest)
    : SM RangeState (ReaderError SE) (list Z) :=
  if rq_length request >? max_range_bytes limits
  then lift (Err (InvalidArchive (ReadTooLong (rq_length request) (max_range_bytes limits))))
  else
    _ ← emit (ReadStarted request);
    r ← call_source request;
    match r with
    | inr bytes =>
        if negb (bool_decide (rq_kind request = RkBootstrap))
           && negb (Z.of_nat (length bytes) =? rq_length request)
        then
          _ ← emit (ShortRead request (length bytes));
          lift (Err (InvalidArchive
            (ShortReadError (rq_offset request) (rq_length request) (Z.of_nat (length bytes)))))
        else
          _ ← emit (ReadCompleted request (length bytes));
          mret bytes
    | inl error =>
        _ ← emit (ReadFailed request);
        lift (Err (SourceError error))
    end.

Definition range_load_bootstrap : SM RangeState (ReaderError SE) ArchiveBootstrap :=
  cached ← with_store (get_bootstrap identity);
  match cached with
  | Some bootstrap =>
      _ ← emit (CacheHit RkBootstrap 0);
      mret bootstrap
  | None =>
      bytes ← range_read_range
        {| rq_offset := 0; rq_length := bootstrap_bytes limits; rq_archive_len := None;
           rq_kind := RkBootstrap |};
      bootstrap ← lift (map_err InvalidArchive
        (decode_bootstrap_bytes bytes (max_decompressed_directory_bytes limits)));
      _ ← emit (DirectoryDecoded RkBootstrap (length (entries (ab_root bootstrap))));
      _ ← with_store (fun d => (tt, put_bootstrap identity bootstrap d));
      mret bootstrap
  end.

Definition range_load_metadata : SM RangeState (ReaderError SE) Metadata :=
  bootstrap ← range_load_bootstrap;
  match ab_metadata bootstrap with
  | Some metadata =>
      _ ← emit (CacheHit RkMetadata (metadata_offset (ab_header bootstrap)));
      mret metadata
  | None =>
      metadata ←
        (if metadata_length (ab_header bootstrap) =? 0 then mret Metadata_default
         else
           length ← lift (map_err InvalidArchive (ok_or MetadataLengthNotUsize
                      (usize_try_from (metadata_length (ab_header bootstrap)))));
           bytes ← range_read_range
             {| rq_offset := metadata_offset (ab_header bootstrap); rq_length := length;
                rq_archive_len := Some (ab_archive_len bootstrap); rq_kind := RkMetadata |};
           lift (map_err InvalidArchive
             (decode_metadata_bytes (ab_header bootstrap) bytes
                (max_decompressed_metadata_bytes limits))));
      _ ← with_store (fun d => (tt, put_bootstrap identity
             {| ab_header := ab_header bootstrap; ab_root := ab_root bootstrap;
                ab_metadata := Some metadata;
                ab_archive_len := ab_archive_len bootstrap |} d));
      mret metadata
  end.

Definition range_load_leaf (request : LeafDirectoryRequest)
    : SM RangeState (ReaderError SE) Directory :=
  let key := {| lk_archive := identity; lk_offset := lr_offset request;
                lk_length := lr_length request |} in
  cached ← with_store (get_leaf key);
  match cached with
  | Some directory =>
      _ ← emit (CacheHit RkLeafDirectory (lr_offset request));
      mret directory
  | None =>
      bytes ← range_read_range
        {| rq_offset := lr_offset request; rq_length := lr_length request;
           rq_archive_len := Some (lr_archive_len request); rq_kind := RkLeafDirectory |};
      directory ← lift (map_err InvalidArchive
        (Directory_parse_with_limit dec try_reserve_exact (lr_compression request) bytes
           (max_decompressed_directory_bytes limits)));
      _ ← emit (DirectoryDecoded RkLeafDirectory (length (entries directory)));
      _ ← with_store (fun d => (tt, put_leaf key directory d));
      mret directory
  end.

#[export] Instance RangeArchiveBackend : ArchiveBackend RangeState (ReaderError SE) := {|
  load_bootstrap := range_load_bootstrap;
  load_metadata := range_load_metadata;
  load_leaf := range_load_leaf;
  read_range := range_read_range;
  invalid_tile_id := InvalidTileId;
  invalid_archive := InvalidArchive;
|}.
End RangeArchiveBackend.
End Decode.
End Reader.

Arguments ArchiveBootstrap : clear implicits.
Arguments ArchiveBackend : clear implicits.
Arguments DirectoryStore : clear implicits.
Arguments RangeState : clear implicits.

(** ** Section arithmetic *)

(** Section bounds are unsigned 64-bit values. *)
Definition header_wf (h : Header) : Prop :=
  Forall (fun '(_, off, len) => is_u64 off /\ is_u64 len) (Header_sections h).

Lemma archive_len_loop_Ok l end_ n :
  archive_len_loop end_ l = Ok n ->
  end_ <= n /\ Forall (fun '(_, off, len) => off + len <= n /\ off + len <= u64_max) l.
Proof.
  revert end_. induction l as [|[[s o] k] l IH]; intros end_ H; simpl in H.
  { res_inv. split; [lia|constructor]. }
  res_inv; try done. apply checked_add_Some in E as [-> Hm]. apply IH in H as [Hle Hf].
  split; [lia|]. constructor; [lia|]. done.
Qed.

Lemma archive_len_Ok h n :
  archive_len h = Ok n ->
  Forall (fun '(_, off, len) => off + len <= n /\ off + len <= u64_max) (Header_sections h).
Proof. intros H. by apply archive_len_loop_Ok in H as [_ H]. Qed.

Lemma checked_section_offset_Ok name so sl ro len o :
  checked_section_offset name so sl ro len = Ok o <->
  o = so + ro /\ ro + len <= sl /\ so + ro <= u64_max /\ ro + len <= u64_max.
Proof.
  unfold checked_section_offset. destruct (checked_add ro len) as [e|] eqn:He; simpl.
  2: { apply checked_add_None in He. split; [done|lia]. }
  apply checked_add_Some in He as [-> Hmax].
  rewrite Z.gtb_ltb. destruct (Z.ltb_spec sl (ro + len)); [split; [done|lia]|].
  rewrite ok_or_Ok, checked_add_Some. intuition lia.
Qed.

(** A range of a section, in absolute archive offsets. *)
Definition in_section (off len so sl : Z) : Prop := so <= off /\ off + len <= so + sl.

Definition entry_nonneg (d : Directory) : Prop :=
  Forall (fun e => 0 <= offset e) (entries d).

Lemma directory_wf_nonneg d : directory_wf d -> entry_nonneg d.
Proof. intros [_ H]. eapply Forall_impl; [done|]. intros e (_ & [? _] & _). done. Qed.

Lemma DirectoryWalker_new_spec h id max :
  DirectoryWalker_new h id max <> Panic /\
  forall w, DirectoryWalker_new h id max = Ok w -> dw_max_depth w = max /\ dw_depth w = 0.
Proof.
  assert (Hl : archive_len h <> Panic) by (unfold archive_len, Header_sections; simpl; no_panic).
  unfold DirectoryWalker_new. destruct (max =? 0); [done|].
  destruct (archive_len h); simpl; split; try done. by intros w [= <-].
Qed.

(** One step of the walker: depth accounting, and ranges inside their sections. *)
Lemma DirectoryWalker_step_Ok d w st w' :
  directory_wf d -> is_u64 (dw_tile_id w) ->
  DirectoryWalker_step d w = (Ok st, w') ->
  dw_header w' = dw_header w /\ dw_archive_len w' = dw_archive_len w /\
  dw_tile_id w' = dw_tile_id w /\ dw_max_depth w' = dw_max_depth w /\
  match st with
  | Missing => w' = w
  | Tile l => w' = w /\ tl_archive_len l = dw_archive_len w /\
      in_section (tl_offset l) (tl_length l) (data_offset (dw_header w)) (data_length (dw_header w))
  | Leaf r => dw_depth w < dw_max_depth w /\ dw_depth w' = dw_depth w + 1 /\
      in_section (ar_offset r) (ar_length r) (leaf_offset (dw_header w)) (leaf_length (dw_header w))
  end.
Proof.
  intros Hwf Hid H. unfold DirectoryWalker_step in H.
  destruct (find_tile_id d (dw_tile_id w)) as [[i e]|] eqn:Hf; [|by injection H as <- <-; split_and!].
  apply find_tile_id_Some in Hf as (Hi & _); [|done..].
  apply directory_wf_nonneg in Hwf. pose proof (Forall_lookup_1 _ _ _ _ Hwf Hi) as Hpos.
  simpl in Hpos. destruct (is_leaf e).
  - rewrite Z.geb_leb in H. destruct (Z.leb_spec (dw_max_depth w) (dw_depth w)); [done|].
    injection H as H <-. res_inv; try done.
    apply checked_section_offset_Ok in E. unfold in_section. simpl. split_and!; (done || lia).
  - injection H as H <-. res_inv; try done.
    apply checked_section_offset_Ok in E. unfold in_section. simpl. split_and!; (done || lia).
Qed.

(** ** The reader over any backend *)

(** What a backend promises the reader: decoded directories are well formed and
    belong to one header, over an invariant [I] of the backend's state. *)
Definition bootstrap_ok {Metadata} (b : ArchiveBootstrap Metadata) : Prop :=
  header_wf (ab_header b) /\ directory_wf (ab_root b) /\
  archive_len (ab_header b) = Ok (ab_archive_len b).

Class BackendLaws {Metadata S E : Type} `{!ArchiveBackend Metadata S E} (I : S -> Prop) := {
  load_bootstrap_law s : I s ->
    I (load_bootstrap s).2 /\ forall b, (load_bootstrap s).1 = Ok b -> bootstrap_ok b;
  load_leaf_law rq s : I s ->
    I (load_leaf rq s).2 /\ forall d, (load_leaf rq s).1 = Ok d -> directory_wf d;
  read_range_law rq s : I s -> I (read_range rq s).2;
}.

Section ReaderFacts.
Context {Metadata S E : Type} `{!ArchiveBackend Metadata S E} (limits : ReaderLimits).

Lemma resolve_loop_fuel fuel fuel' (b : ArchiveBootstrap Metadata) w d leaves s :
  (Z.to_nat (dw_max_depth w - dw_depth w) < fuel)%nat ->
  (Z.to_nat (dw_max_depth w - dw_depth w) < fuel')%nat ->
  resolve_loop limits fuel b w d leaves s = resolve_loop limits fuel' b w d leaves s.
Proof.
  revert fuel' w d leaves s.
  induction fuel as [|fuel IH]; intros [|fuel'] w d leaves s Hfuel Hfuel'; try lia.
  simpl. unfold DirectoryWalker_step.
  destruct (find_tile_id d (dw_tile_id w)) as [[i e]|]; [|done].
  destruct (is_leaf e).
  - rewrite Z.geb_leb. destruct (Z.leb_spec (dw_max_depth w) (dw_depth w)); [done|].
    unfold mbind, SM_bind, Res_bind, lift, map_err.
    destruct (checked_section_offset _ _ _ _ _) as [o|?|]; try done.
    destruct (check_range limits _ _); try done.
    destruct (load_leaf _ s) as [[d'|?|] s']; try done. apply IH; simpl; lia.
  - destruct (checked_section_offset _ _ _ _ _); done.
Qed.

Lemma checked_section_offset_no_panic name so sl ro len :
  checked_section_offset name so sl ro len <> Panic.
Proof. unfold checked_section_offset. no_panic. Qed.

Lemma resolve_loop_no_panic fuel (b : ArchiveBootstrap Metadata) w d leaves s :
  (forall rq s, (load_leaf rq s).1 <> Panic) ->
  (Z.to_nat (dw_max_depth w - dw_depth w) < fuel)%nat ->
  (resolve_loop limits fuel b w d leaves s).1 <> Panic.
Proof.
  intros Hleaf. revert w d leaves s.
  induction fuel as [|fuel IH]; intros w d leaves s Hfuel; [lia|].
  simpl. unfold DirectoryWalker_step.
  destruct (find_tile_id d (dw_tile_id w)) as [[i e]|]; [|done].
  destruct (is_leaf e).
  - rewrite Z.geb_leb. destruct (Z.leb_spec (dw_max_depth w) (dw_depth w)); [done|].
    unfold mbind, SM_bind, Res_bind, lift, map_err.
    match goal with |- context [checked_section_offset ?a ?b ?c ?d ?e] =>
      pose proof (checked_section_offset_no_panic a b c d e) as Hcs;
      destruct (checked_section_offset a b c d e) as [o|?|]; try done end.
    destruct (check_range limits _ _) as [[]|?|] eqn:Hc; try done.
    2: { exfalso. revert Hc. unfold check_range. repeat case_match; done. }
    cbn. match goal with |- context [load_leaf ?rq ?st] => pose proof (Hleaf rq st) as Hl;
      destruct (load_leaf rq st) as [[d'|?|] s'] end; try done. apply IH; simpl; lia.
  - unfold mbind, SM_bind, Res_bind, lift, map_err.
    match goal with |- context [checked_section_offset ?a ?b ?c ?d ?e] =>
      pose proof (checked_section_offset_no_panic a b c d e) as Hcs;
      destruct (checked_section_offset a b c d e) as [o|?|]; try done end.
Qed.

(** Termination of the directory walk: the loop has no bound of its own, but
    every round that continues spends one level of [max_directory_depth].  With
    any number of rounds above the depth that is left the loop returns a result
    or an error (running out of rounds is [Panic]), always the same one; so the
    [max_directory_depth + 1] rounds of the model are the loop of the code. *)
Theorem resolve_loop_terminates fuel (b : ArchiveBootstrap Metadata) w d leaves s
    (Hleaf : forall rq s, (load_leaf rq s).1 <> Panic)
    (Hfuel : (Z.to_nat (dw_max_depth w - dw_depth w) < fuel)%nat) :
  (resolve_loop limits fuel b w d leaves s).1 <> Panic /\
  forall more, resolve_loop limits (fuel + more) b w d leaves s =
               resolve_loop limits fuel b w d leaves s.
Proof.
  split; [by apply resolve_loop_no_panic|]. intros more. apply resolve_loop_fuel; lia.
Qed.

Context (I : S -> Prop) `{!BackendLaws I}.

Definition leaf_read_ok (h : Header) (r : ArchiveRange) : Prop :=
  in_section (ar_offset r) (ar_length r) (leaf_offset h) (leaf_length h) /\
  ar_length r <= max_range_bytes limits.

Definition location_ok (h : Header) (n : Z) (l : TileLocation) : Prop :=
  in_section (tl_offset l) (tl_length l) (data_offset h) (data_length h) /\
  tl_archive_len l = n.

Lemma check_range_Ok off len : check_range limits off len = Ok tt ->
  len <= max_range_bytes limits /\ off + len <= u64_max.
Proof.
  unfold check_range. rewrite Z.gtb_ltb.
  destruct (Z.ltb_spec (max_range_bytes limits) len); [done|].
  destruct (checked_add off len) eqn:Ha; [|done]. apply checked_add_Some in Ha. lia.
Qed.

Lemma load_leaf_Ok rq s d s' :
  I s -> load_leaf rq s = (Ok d, s') -> I s' /\ directory_wf d.
Proof. intros HI H. destruct (load_leaf_law rq s HI) as [? Hd]. rewrite H in *. auto. Qed.

Lemma load_bootstrap_Ok s b s' :
  I s -> load_bootstrap s = (Ok b, s') -> I s' /\ bootstrap_ok b.
Proof. intros HI H. destruct (load_bootstrap_law s HI) as [? Hb]. rewrite H in *. auto. Qed.

Lemma resolve_loop_Ok fuel (b : ArchiveBootstrap Metadata) w d leaves s loc h n leaves' s' :
  I s -> directory_wf d -> is_u64 (dw_tile_id w) -> dw_header w = ab_header b ->
  dw_archive_len w = ab_archive_len b ->
  Forall (leaf_read_ok (ab_header b)) leaves ->
  Z.of_nat (length leaves) = dw_depth w -> dw_depth w <= dw_max_depth w ->
  resolve_loop limits fuel b w d (Some leaves) s = (Ok (loc, h, n, leaves'), s') ->
  h = ab_header b /\ n = ab_archive_len b /\
  (forall l, loc = Some l -> location_ok h n l) /\
  exists lv, leaves' = Some lv /\ Forall (leaf_read_ok h) lv /\
    Z.of_nat (length lv) <= dw_max_depth w.
Proof.
  revert w d leaves s.
  induction fuel as [|fuel IH]; intros w d leaves s HI Hd Hid Hh Hn Hl Hlen Hdep H; [done|].
  cbn [resolve_loop] in H.
  destruct (DirectoryWalker_step d w) as [[st|?|] w'] eqn:Hst; [|done..].
  apply DirectoryWalker_step_Ok in Hst as (Hh' & Hn' & Hid' & Hm' & Hst); [|done..].
  unfold mbind at 1, SM_bind at 1, lift at 1 in H. cbn [map_err] in H.
  destruct st as [|r|l].
  - injection H as <- <- <- <- <-. subst w'.
    split_and!; [done..|exists leaves]. split_and!; [done..|lia].
  - destruct Hst as (Hlt & Hdep' & Hsec). apply SM_bind_Ok in H as (u & s1 & Hc & H).
    destruct u. injection Hc as Hc <-. apply check_range_Ok in Hc as [Hr _].
    apply SM_bind_Ok in H as (d' & s2 & Hload & H).
    apply load_leaf_Ok in Hload as [HI' Hwf']; [|done].
    eapply IH in H; [rewrite <- Hm'; exact H|..]; try done; try congruence.
    + apply Forall_app. split; [done|]. apply Forall_singleton.
      rewrite <- Hh. split; [done|done].
    + rewrite length_app. simpl. lia.
    + lia.
  - injection H as <- <- <- <- <-. destruct Hst as (-> & Hal & Hsec).
    split_and!; [done..| |exists leaves].
    + intros l' [= <-]. unfold location_ok. rewrite <- Hh. split; [done|congruence].
    + split_and!; [done..|lia].
Qed.

(** Bounds of a lookup, over any backend that keeps its promise: at most
    [max_directory_depth] leaf directories are read, each range read lies inside
    the declared leaf section and within [max_range_bytes], and a located tile
    lies inside the tile-data section and inside the archive. *)
Theorem lookup_with_trace_bounds id s tr s'
    (HI : I s) (Hid : 0 <= id) (Hdepth : 0 <= max_directory_depth limits)
    (Hlookup : lookup_with_trace limits id s = (Ok tr, s')) :
  exists h, header_wf h /\ archive_len h = Ok (tr_archive_len tr) /\
    Z.of_nat (length (tr_leaves tr)) <= max_directory_depth limits /\
    Forall (leaf_read_ok h) (tr_leaves tr) /\
    forall l, tr_tile tr = Some l ->
      location_ok h (tr_archive_len tr) l /\ tl_offset l + tl_length l <= tl_archive_len l.
Proof.
  unfold lookup_with_trace in Hlookup.
  apply SM_bind_Ok in Hlookup as ([[[loc h] n] lv] & s1 & Hres & Hret).
  unfold resolve_tile_location in Hres.
  apply SM_bind_Ok in Hres as (id' & s2 & Hid' & Hres). injection Hid' as Hid' <-.
  unfold TileId_new in Hid'. rewrite Z.gtb_ltb in Hid'.
  destruct (Z.ltb_spec MAX_TILE_ID id); [done|]. injection Hid' as <-.
  apply SM_bind_Ok in Hres as (b & s3 & Hb & Hres).
  apply load_bootstrap_Ok in Hb as [HI' (Hhw & Hroot & Hal)]; [|done].
  apply SM_bind_Ok in Hres as (w & s4 & Hw & Hres). injection Hw as Hw <-.
  unfold DirectoryWalker_new in Hw. destruct (_ =? 0); [done|].
  rewrite Hal in Hw. injection Hw as <-.
  apply resolve_loop_Ok in Hres as (-> & -> & Hloc & lv' & -> & Hlv & Hlen); try done.
  2: { unfold MAX_TILE_ID, is_u, u64_max in *. simpl. lia. }
  injection Hret as <- <-. exists (ab_header b). simpl in *.
  split_and!; try done. intros l Hl. specialize (Hloc l Hl). split; [done|].
  destruct Hloc as [[_ Hend] ->]. apply archive_len_Ok in Hal. unfold Header_sections in Hal.
  rewrite !Forall_cons in Hal. lia.
Qed.
End ReaderFacts.

(** ** Simulation between two backends

    Two backends that answer alike, step by step, make the reader answer alike. *)

(** Two bootstraps of the same archive; the metadata field is a cache slot. *)
Definition same_archive {Metadata} (b b' : ArchiveBootstrap Metadata) : Prop :=
  ab_header b = ab_header b' /\ ab_root b = ab_root b' /\ ab_archive_len b = ab_archive_len b'.

Definition res_rel {E A B} (R : A -> B -> Prop) (r : Res E A) (r' : Res E B) : Prop :=
  match r, r' with
  | Ok a, Ok b => R a b
  | Err e, Err e' => e = e'
  | Panic, Panic => True
  | _, _ => False
  end.

Lemma res_rel_eq {E A} (r r' : Res E A) : res_rel eq r r' <-> r = r'.
Proof. destruct r, r'; simpl; split; intros; (congruence || done || by simplify_eq). Qed.

(** Two computations related by [R] on states give related results. *)
Definition sm_rel {S S' E A B} (R : S -> S' -> Prop) (Q : A -> B -> Prop)
    (c : SM S E A) (c' : SM S' E B) : Prop :=
  forall s s', R s s' -> R (c s).2 (c' s').2 /\ res_rel Q (c s).1 (c' s').1.

Lemma sm_rel_bind {S S' E A B A' B'} R (Q : A -> A' -> Prop) (Q' : B -> B' -> Prop)
    (c : SM S E A) (c' : SM S' E A') f f' :
  sm_rel R Q c c' -> (forall a a', Q a a' -> sm_rel R Q' (f a) (f' a')) ->
  sm_rel R Q' (c ≫= f) (c' ≫= f').
Proof.
  intros Hc Hf s s' Hs. destruct (Hc s s' Hs) as [HR HQ].
  unfold mbind, SM_bind.
  destruct (c s) as [[a|e|] t], (c' s') as [[a'|e'|] t']; simpl in *; try done.
  by apply Hf.
Qed.

Lemma sm_rel_lift {S S' E A B} R (Q : A -> B -> Prop) (r : Res E A) (r' : Res E B) :
  res_rel Q r r' -> @sm_rel S S' E A B R Q (lift r) (lift r').
Proof. intros Hr s s' Hs. done. Qed.

Lemma sm_rel_mono {S S' E A B} R (Q Q' : A -> B -> Prop) (c : SM S E A) (c' : SM S' E B) :
  (forall a b, Q a b -> Q' a b) -> sm_rel R Q c c' -> sm_rel R Q' c c'.
Proof.
  intros HQ Hc s s' Hs. destruct (Hc s s' Hs) as [HR Hr]. split; [done|].
  destruct (c s).1, (c' s').1; simpl in *; auto.
Qed.

Section BackendSimulation.
Context {Metadata S S' E : Type}.
Context `{!ArchiveBackend Metadata S E} `{!ArchiveBackend Metadata S' E}.
Context (R : S -> S' -> Prop) (loaded : ArchiveBootstrap Metadata -> Prop).

(** The leaf requests the reader issues for an archive. *)
Definition leaf_request_of (b : ArchiveBootstrap Metadata) (rq : LeafDirectoryRequest) : Prop :=
  lr_compression rq = internal_compression (ab_header b) /\
  lr_archive_len rq = ab_archive_len b.

Class BackendSim := {
  sim_bootstrap :
    sm_rel R (fun b b' => same_archive b b' /\ loaded b')
      (load_bootstrap (S := S)) (load_bootstrap (S := S'));
  sim_leaf b rq : loaded b -> leaf_request_of b rq ->
    sm_rel R eq (load_leaf (S := S) rq) (load_leaf (S := S') rq);
  sim_read rq : sm_rel R eq (read_range (S := S) rq) (read_range (S := S') rq);
  sim_invalid_tile_id e : invalid_tile_id (S := S) e = invalid_tile_id (S := S') e;
  sim_invalid_archive e : invalid_archive (S := S) e = invalid_archive (S := S') e;
}.

Context `{!BackendSim} (limits : ReaderLimits).

Lemma check_range_sim off len :
  check_range (S := S) limits off len = check_range (S := S') limits off len.
Proof. unfold check_range. by rewrite !sim_invalid_archive. Qed.

Lemma resolve_loop_sim fuel b b' w d leaves :
  same_archive b b' -> loaded b' ->
  sm_rel R eq (resolve_loop (S := S) limits fuel b w d leaves)
              (resolve_loop (S := S') limits fuel b' w d leaves).
Proof.
  intros Hb Hl. destruct Hb as (Hh & Hr & Ha). revert w d leaves.
  induction fuel as [|fuel IH]; intros w d leaves; [by apply sm_rel_lift|].
  cbn [resolve_loop]. destruct (DirectoryWalker_step d w) as [st w'].
  eapply (sm_rel_bind R eq).
  { apply sm_rel_lift, res_rel_eq. destruct st; simpl; [done| |done].
    f_equal. apply sim_invalid_archive. }
  intros st' ? <-. destruct st' as [|r|l].
  - rewrite Hh, Ha. by intros s s' Hs.
  - eapply (sm_rel_bind R eq).
    { apply sm_rel_lift, res_rel_eq, check_range_sim. }
    intros _ _ _. rewrite Hh, Ha. eapply (sm_rel_bind R eq).
    + apply (sim_leaf b'); [done|by split].
    + intros d' ? <-. apply IH.
  - rewrite Hh, Ha. by intros s s' Hs.
Qed.

Lemma get_tile_sim id : sm_rel R eq (get_tile (S := S) limits id) (get_tile (S := S') limits id).
Proof.
  unfold get_tile, resolve_tile_location. eapply (sm_rel_bind R eq).
  - eapply (sm_rel_bind R eq).
    { apply sm_rel_lift, res_rel_eq. destruct (TileId_new id); simpl; [done| |done].
      f_equal. apply sim_invalid_tile_id. }
    intros id' ? <-. eapply sm_rel_bind; [apply sim_bootstrap|].
    intros b b' [Hb Hl]. eapply (sm_rel_bind R eq).
    { apply sm_rel_lift, res_rel_eq. destruct Hb as (-> & _).
      destruct (DirectoryWalker_new _ _ _); simpl; [done| |done].
      f_equal. apply sim_invalid_archive. }
    intros w ? <-. destruct Hb as (? & Hroot & ?). rewrite Hroot. by apply resolve_loop_sim.
  - intros [[[loc h] n] lv] ? <-. destruct loc as [l|]; [|by intros s s' Hs].
    eapply (sm_rel_bind R eq).
    { apply sm_rel_lift, res_rel_eq, check_range_sim. }
    intros _ _ _. eapply (sm_rel_bind R eq); [apply sim_read|].
    intros bytes ? <- s s' Hs. done.
Qed.
End BackendSimulation.
Arguments BackendSim : clear implicits.
Arguments BackendSim {Metadata S S' E _ _} R loaded.

(** ** Directory stores

    What a store promises: a lookup returns only values that were stored under
    the same key, so any predicate that holds of everything stored holds of
    everything returned. *)
Class StoreLaws {Metadata} (D : Type) `{!DirectoryStore Metadata D} := {
  store_holds : (ArchiveIdentity -> ArchiveBootstrap Metadata -> Prop) ->
    (LeafDirectoryKey -> Directory -> Prop) -> D -> Prop;
  get_bootstrap_holds PB PL id d : store_holds PB PL d ->
    store_holds PB PL (get_bootstrap id d).2 /\
    forall b, (get_bootstrap id d).1 = Some b -> PB id b;
  put_bootstrap_holds PB PL id (b : ArchiveBootstrap Metadata) d : PB id b ->
    store_holds PB PL d -> store_holds PB PL (put_bootstrap id b d);
  get_leaf_holds PB PL key d : store_holds PB PL d ->
    store_holds PB PL (get_leaf key d).2 /\ forall l, (get_leaf key d).1 = Some l -> PL key l;
  put_leaf_holds PB PL key l d : PL key l -> store_holds PB PL d ->
    store_holds PB PL (put_leaf key l d);
}.

#[export] Instance NoDirectoryStore_laws {Metadata} :
  StoreLaws (Metadata := Metadata) unit.
Proof. by refine {| store_holds := fun _ _ _ => True |}. Defined.

(** An unbounded in-memory store, most recent value first. *)
Record MapStore (Metadata : Type) := {
  ms_bootstraps : list (ArchiveIdentity * ArchiveBootstrap Metadata);
  ms_leaves : list (LeafDirectoryKey * Directory) }.
Arguments ms_bootstraps {Metadata} m.
Arguments ms_leaves {Metadata} m.

Fixpoint assoc {K V} `{EqDecision K} (k : K) (l : list (K * V)) : option V :=
  match l with
  | [] => None
  | (k', v) :: l => if decide (k = k') then Some v else assoc k l
  end.

Lemma assoc_Forall {K V} `{EqDecision K} (P : K -> V -> Prop) k (l : list (K * V)) v :
  Forall (fun '(k, v) => P k v) l -> assoc k l = Some v -> P k v.
Proof.
  induction 1 as [|[k' v'] l Hp _ IH]; simpl; [done|].
  case_decide; [|done]. intros [= <-]. by subst.
Qed.

#[export] Instance MapStore_store {Metadata} : DirectoryStore Metadata (MapStore Metadata) := {|
  get_bootstrap id d := (assoc id (ms_bootstraps d), d);
  put_bootstrap id b d :=
    {| ms_bootstraps := (id, b) :: ms_bootstraps d; ms_leaves := ms_leaves d |};
  get_leaf key d := (assoc key (ms_leaves d), d);
  put_leaf key l d :=
    {| ms_bootstraps := ms_bootstraps d; ms_leaves := (key, l) :: ms_leaves d |};
|}.

#[export] Instance MapStore_laws {Metadata} : StoreLaws (Metadata := Metadata) (MapStore Metadata).
Proof.
  refine {| store_holds := fun PB PL d =>
              Forall (fun '(k, v) => PB k v) (ms_bootstraps d) /\
              Forall (fun '(k, v) => PL k v) (ms_leaves d) |}; simpl.
  - intros PB PL id d [H1 H2]. split; [done|]. intros b. by apply assoc_Forall.
  - intros PB PL id b d Hb [H1 H2]. split; [by constructor|done].
  - intros PB PL key d [H1 H2]. split; [done|]. intros l. by apply assoc_Forall.
  - intros PB PL key l d Hl [H1 H2]. split; [done|by constructor].
Defined.

(** ** The range backend keeps the promise of [ArchiveBackend] *)

Lemma le_decode_bound bs : is_bytes bs -> 0 <= le_decode bs < 256 ^ Z.of_nat (length bs).
Proof.
  induction 1 as [|b bs Hb _ IH]; simpl; [lia|].
  unfold is_u, u8_max in Hb. rewrite Nat2Z.inj_succ, Z.pow_succ_r by lia. lia.
Qed.

Lemma u64_at_range n bs : is_bytes bs -> is_u64 (u64_at n bs).
Proof.
  intros Hb. unfold u64_at.
  assert (is_bytes (take 8 (drop n bs))) as Hb' by (by apply Forall_take, Forall_drop).
  pose proof (le_decode_bound _ Hb') as Hd.
  assert (256 ^ Z.of_nat (length (take 8 (drop n bs))) <= 256 ^ 8).
  { apply Z.pow_le_mono_r; [lia|]. rewrite length_take. lia. }
  change (256 ^ 8) with (2 ^ 64) in *. unfold is_u, u64_max. lia.
Qed.

Lemma Header_parse_wf bs h : is_bytes bs -> Header_parse bs = Ok h -> header_wf h.
Proof.
  intros Hb H. destruct (Nat.lt_ge_cases (length bs) HEADER_SIZE) as [Hlt|Hge].
  { unfold Header_parse in H. by rewrite (proj2 (Nat.ltb_lt _ _)) in H. }
  rewrite Header_parse_at in H by done.
  do 2 (case_match; [done|]). res_inv; try done.
  all: unfold header_wf; simpl; repeat constructor; by apply u64_at_range.
Qed.

Section RangeBackendFacts.
Context {Metadata : Type} (dec : Decoders) (try_reserve_exact : Z -> bool).
Context (metadata_from_json : list Z -> option Metadata) (Metadata_default : Metadata).
Context (identity : ArchiveIdentity) (limits : ReaderLimits) (Hdec : decoders_ok dec).

Lemma decode_bootstrap_bytes_Ok body limit b :
  is_bytes body ->
  decode_bootstrap_bytes (Metadata := Metadata) dec try_reserve_exact body limit = Ok b ->
  bootstrap_ok b /\ ab_metadata b = None.
Proof.
  intros Hb H. unfold decode_bootstrap_bytes in H. case_match; [done|].
  res_inv; try done. rewrite Z.gtb_ltb in H.
  destruct (Z.ltb_spec (Z.of_nat (length body)) a3); [done|].
  res_inv; try done. unfold ArchiveBootstrap_new in H. res_inv; try done.
  assert (Hsl : forall lo hi out, bytes_slice lo hi body = Ok out -> is_bytes out).
  { unfold bytes_slice. intros lo hi out. case_match; intros; simplify_eq.
    by apply Forall_take, Forall_drop. }
  apply Hsl in E, E4. split; [|done]. split_and!; simpl.
  - by apply Header_parse_wf in E0.
  - apply Directory_parse_wf in E5 as [Hwf _]; done.
  - done.
Qed.

Lemma decode_bootstrap_bytes_no_panic body limit (Hbody : is_bytes body) :
  decode_bootstrap_bytes (Metadata := Metadata) dec try_reserve_exact body limit <> Panic.
Proof.
  unfold decode_bootstrap_bytes.
  destruct (Nat.ltb_spec (length body) HEADER_SIZE) as [|Hlen]; [done|].
  assert (Hsl : forall lo hi, 0 <= lo -> lo <= hi -> hi <= Z.of_nat (length body) ->
    exists out, bytes_slice lo hi body = Ok out /\
      out = take (Z.to_nat (hi - lo)) (drop (Z.to_nat lo) body)).
  { intros lo hi H1 H2 H3. unfold bytes_slice.
    rewrite !(proj2 (Z.leb_le _ _)) by lia. eauto. }
  destruct (Hsl 0 (Z.of_nat HEADER_SIZE)) as (head & -> & Hhead); [lia..|]. res_simpl.
  apply Res_bind_no_panic; [apply Header_parse_total|intros h Hh].
  apply Header_parse_wf in Hh; [|by subst; apply Forall_take, Forall_drop].
  apply Forall_cons in Hh as [[Ho Hl] _]. unfold is_u in Ho, Hl.
  unfold usize_try_from. rewrite !(proj2 (Z.leb_le _ _)) by (unfold usize_max; lia).
  res_simpl. destruct (checked_add _ _) as [e|] eqn:He; [|done]. res_simpl.
  apply checked_add_Some in He as [-> Hmax]. rewrite Z.gtb_ltb.
  destruct (Z.ltb_spec (Z.of_nat (length body)) (root_offset h + root_length h)); [done|].
  destruct (Hsl (root_offset h) (root_offset h + root_length h)) as (out & -> & _); [lia..|].
  res_simpl. apply Res_bind_no_panic; [apply Directory_parse_no_panic|intros d _].
  unfold ArchiveBootstrap_new, archive_len, Header_sections. simpl. no_panic.
Qed.

Section Laws.
Context {Src SE D O : Type}.
Context `{!RangeSource Src SE} `{!DirectoryStore Metadata D} `{!ReadObserver O}.
Context `{!StoreLaws (Metadata := Metadata) D}.
(** The source returns bytes. *)
Context (Hsrc : forall rq src bytes src',
  source_read_range (SE := SE) rq src = (Ok bytes, src') -> is_bytes bytes).

Abbreviation St := (RangeState Src D O).
Abbreviation Er := (ReaderError SE).

(** Everything stored is well formed. *)
Definition range_inv (s : St) : Prop :=
  store_holds (fun _ b => bootstrap_ok b) (fun _ d => directory_wf d) (rs_directories s).

Lemma range_read_range_frame rq (s : St) :
  let r := range_read_range (SE := SE) limits rq s in
  rs_directories r.2 = rs_directories s /\ forall bytes, r.1 = Ok bytes -> is_bytes bytes.
Proof.
  unfold range_read_range. case_match; [done|].
  unfold mbind, SM_bind, emit, modify, call_source. cbn.
  destruct (source_read_range rq (rs_source s)) as [[bytes|e|] src] eqn:Hr; cbn; try done.
  case_match; cbn; [done|]. split; [done|]. intros ? [= <-]. by apply Hsrc in Hr.
Qed.

#[local] Instance range_backend : ArchiveBackend Metadata St Er :=
  RangeArchiveBackend dec try_reserve_exact metadata_from_json Metadata_default identity limits.

#[export] Instance RangeArchiveBackend_laws : BackendLaws (S := St) (E := Er) range_inv.
Proof.
  split.
  - intros s HI. cbn. unfold range_load_bootstrap.
    unfold mbind, SM_bind, with_store, emit, modify, lift, map_err.
    destruct (get_bootstrap_holds (fun _ b => bootstrap_ok b) (fun _ d => directory_wf d)
                identity (rs_directories s) HI) as [HI1 Hget].
    destruct (get_bootstrap identity (rs_directories s)) as [[b|] d1]; cbn in *.
    { split; [done|]. intros ? [= <-]. by apply Hget. }
    match goal with |- context [range_read_range _ ?rq ?st] =>
      pose proof (range_read_range_frame rq st) as [Hfr Hby] end.
    destruct (range_read_range limits _ _) as [[bytes|e|] s2]; cbn in *;
      unfold range_inv; rewrite ?Hfr; try done.
    destruct (decode_bootstrap_bytes _ _ _ _) as [b|e|] eqn:Hdb; cbn; rewrite ?Hfr; try done.
    apply decode_bootstrap_bytes_Ok in Hdb as [Hok _]; [|by apply Hby].
    split; [by apply put_bootstrap_holds|]. by intros ? [= <-].
  - intros rq s HI. cbn. unfold range_load_leaf.
    unfold mbind, SM_bind, with_store, emit, modify, lift, map_err.
    set (key := {| lk_archive := identity; lk_offset := lr_offset rq; lk_length := lr_length rq |}).
    destruct (get_leaf_holds (fun _ b => bootstrap_ok b) (fun _ d => directory_wf d)
                key (rs_directories s) HI) as [HI1 Hget].
    destruct (get_leaf key (rs_directories s)) as [[l|] d1]; cbn in *.
    { split; [done|]. intros ? [= <-]. by apply Hget. }
    match goal with |- context [range_read_range _ ?rq ?st] =>
      pose proof (range_read_range_frame rq st) as [Hfr Hby] end.
    destruct (range_read_range limits _ _) as [[bytes|e|] s2]; cbn in *;
      unfold range_inv; rewrite ?Hfr; try done.
    destruct (Directory_parse_with_limit _ _ _ _ _) as [l|e|] eqn:Hdl; cbn; rewrite ?Hfr; try done.
    apply Directory_parse_wf in Hdl as [Hok _]; [|done|by apply Hby].
    split; [by apply put_leaf_holds|]. by intros ? [= <-].
  - intros rq s HI. cbn. unfold range_inv.
    by rewrite (proj1 (range_read_range_frame rq s)).
Qed.

(** The source answers every request. *)
Context (Hanswers : forall rq src, (source_read_range (SE := SE) rq src).1 <> Panic).

Lemma range_read_range_no_panic rq : sm_total (range_read_range (SE := SE) limits rq : SM St Er _).
Proof.
  intros s. unfold range_read_range. case_match; [done|].
  unfold mbind, SM_bind, emit, modify, call_source. cbn. pose proof (Hanswers rq (rs_source s)).
  destruct (source_read_range rq (rs_source s)) as [[bytes|e|] src]; cbn in *; try done.
  by case_match.
Qed.

Lemma with_store_total {A} (f : D -> A * D) : sm_total (with_store f : SM St Er A).
Proof. intros s. unfold with_store. by destruct (f (rs_directories s)). Qed.

Lemma emit_total e : sm_total (emit e : SM St Er unit).
Proof. done. Qed.

#[local] Hint Resolve range_read_range_no_panic with_store_total emit_total : platform.

(** Decompose a computation into steps that do not panic. *)
Ltac total_step :=
  first
    [ solve [auto with platform]
    | apply sm_total_bind; [|intros ?]
    | apply sm_total_lift; solve [no_panic]
    | case_match ].

Lemma load_bootstrap_total : sm_total (load_bootstrap (S := St)).
Proof.
  cbn. unfold range_load_bootstrap. apply sm_total_bind; [apply with_store_total|].
  intros [b|]; [by repeat total_step|]. apply (sm_total_bind_post is_bytes).
  - apply range_read_range_no_panic.
  - intros s bytes. apply range_read_range_frame.
  - intros bytes Hb. apply sm_total_bind; [|intros; by repeat total_step].
    apply sm_total_lift, map_err_no_panic. by apply decode_bootstrap_bytes_no_panic.
Qed.

#[local] Hint Resolve load_bootstrap_total Directory_parse_no_panic decompress_no_panic : platform.

Lemma load_leaf_total rq : sm_total (load_leaf (S := St) rq).
Proof. cbn. unfold range_load_leaf. by repeat total_step. Qed.

Lemma load_metadata_total : sm_total (load_metadata (S := St)).
Proof.
  cbn. unfold range_load_metadata. apply sm_total_bind; [apply load_bootstrap_total|].
  intros b. unfold decode_metadata_bytes. by repeat total_step.
Qed.

Lemma check_range_total off len : check_range (S := St) limits off len <> Panic.
Proof. unfold check_range. by repeat case_match. Qed.

(** Totality of the reader over a raw-range backend: whatever bytes the
    source returns (a corrupt header, a cyclic or truncated directory, an
    oversized section), looking up a tile, its trace or the metadata ends with a
    value or an error; no slice is out of range and the walk always ends. *)
Theorem reader_total id :
  sm_total (get_tile (S := St) limits id) /\ sm_total (lookup_with_trace (S := St) limits id) /\
  sm_total (reader_metadata (S := St)) /\ sm_total (reader_header (S := St)).
Proof.
  assert (Hres : forall leaves, sm_total (resolve_tile_location (S := St) limits id leaves)).
  { intros leaves. unfold resolve_tile_location. apply sm_total_bind; [apply sm_total_lift|intros i].
    { unfold TileId_new. no_panic. }
    apply sm_total_bind; [apply load_bootstrap_total|intros b].
    apply sm_total_bind_post with (Q := fun w => dw_max_depth w = max_directory_depth limits /\ dw_depth w = 0).
    - apply sm_total_lift, map_err_no_panic, DirectoryWalker_new_spec.
    - unfold lift. intros s w. cbn.
      destruct (DirectoryWalker_new _ _ _) as [w0|?|] eqn:Hw; cbn; intros; simplify_eq.
      apply (proj2 (DirectoryWalker_new_spec _ _ _) _ Hw).
    - intros w [H1 H2] s. apply resolve_loop_no_panic; [apply load_leaf_total|].
      rewrite H1, H2. unfold resolve_fuel. lia. }
  split_and!.
  - unfold get_tile. apply sm_total_bind; [apply Hres|]. intros [[[[l|] h] n] lv]; [|by auto with platform].
    apply sm_total_bind; [apply sm_total_lift, check_range_total|intros _].
    apply sm_total_bind; [apply range_read_range_no_panic|intros ?; by repeat total_step].
  - unfold lookup_with_trace. apply sm_total_bind; [apply Hres|intros ?; by repeat total_step].
  - apply load_metadata_total.
  - unfold reader_header. apply sm_total_bind; [apply load_bootstrap_total|intros ?; by repeat total_step].
Qed.

End Laws.

(** ** Caching is transparent

    The archive of one generation is immutable: a read is a function of the
    request.  The same reader over the same archive, once with a directory store
    and an observer, once without either. *)
Section Transparency.
Context {SE : Type} (archive : ReadRequest -> Res SE (list Z)).

#[local] Instance immutable_source : RangeSource unit SE := fun rq s => (archive rq, s).

Abbreviation Er := (ReaderError SE).
Abbreviation Bare := (RangeState unit unit unit).

#[local] Instance bare_backend : ArchiveBackend Metadata Bare Er :=
  RangeArchiveBackend dec try_reserve_exact metadata_from_json Metadata_default identity limits.

Definition bare : Bare := {| rs_source := tt; rs_directories := tt; rs_observer := tt |}.

Definition direct_bootstrap : Res Er (ArchiveBootstrap Metadata) := (load_bootstrap bare).1.
Definition direct_leaf (b : ArchiveBootstrap Metadata) (key : LeafDirectoryKey) : Res Er Directory :=
  (load_leaf {| lr_offset := lk_offset key; lr_length := lk_length key;
                lr_compression := internal_compression (ab_header b);
                lr_archive_len := ab_archive_len b |} bare).1.

Context {D O : Type} `{!DirectoryStore Metadata D} `{!ReadObserver O}.
Context `{!StoreLaws (Metadata := Metadata) D}.
Abbreviation Cached := (RangeState unit D O).

#[local] Instance cached_backend : ArchiveBackend Metadata Cached Er :=
  RangeArchiveBackend dec try_reserve_exact metadata_from_json Metadata_default identity limits.

(** The store holds, for this archive, only what the archive decodes to. *)
Definition PB (id : ArchiveIdentity) (b : ArchiveBootstrap Metadata) : Prop :=
  id = identity -> exists b0, direct_bootstrap = Ok b0 /\ same_archive b b0.
Definition PL (key : LeafDirectoryKey) (d : Directory) : Prop :=
  lk_archive key = identity ->
  exists b0, direct_bootstrap = Ok b0 /\ direct_leaf b0 key = Ok d.
Definition coherent (s : Cached) : Prop := store_holds PB PL (rs_directories s).

Lemma bare_unique (u : Bare) : u = bare.
Proof. by destruct u as [[] [] []]. Qed.

Lemma read_same rq (s : Cached) (u : Bare) :
  (range_read_range limits rq s).1 = (range_read_range (SE := SE) limits rq u).1 /\
  rs_directories (range_read_range (SE := SE) limits rq s).2 = rs_directories s.
Proof.
  unfold range_read_range. case_match; [done|].
  unfold mbind, SM_bind, emit, modify, call_source, source_read_range, immutable_source. cbn.
  destruct (archive rq) as [bytes|e|]; cbn; try done. by case_match.
Qed.

Lemma bootstrap_sim :
  sm_rel (fun s (_ : Bare) => coherent s)
    (fun b b' => same_archive b b' /\ direct_bootstrap = Ok b')
    (load_bootstrap (S := Cached)) (load_bootstrap (S := Bare)).
Proof.
  intros s u Hs. rewrite (bare_unique u).
  change (load_bootstrap (S := Bare) bare).1 with direct_bootstrap.
  assert (Hd : direct_bootstrap = (
    bytes ← (range_read_range (SE := SE) limits
      {| rq_offset := 0; rq_length := bootstrap_bytes limits; rq_archive_len := None;
         rq_kind := RkBootstrap |} bare).1;
    map_err InvalidArchive (decode_bootstrap_bytes dec try_reserve_exact bytes
      (max_decompressed_directory_bytes limits)))).
  { unfold direct_bootstrap. cbn. unfold range_load_bootstrap, mbind, SM_bind, Res_bind,
      with_store, emit, modify, lift. cbn. fold bare.
    destruct (range_read_range limits _ bare) as [[bytes|e|] s2]; try done. cbn.
    by destruct (decode_bootstrap_bytes _ _ _ _). }
  cbn. unfold range_load_bootstrap, mbind, SM_bind, with_store, emit, modify, lift.
  destruct (get_bootstrap_holds PB PL identity (rs_directories s) Hs) as [HI1 Hget].
  destruct (get_bootstrap identity (rs_directories s)) as [[b|] d1]; cbn in *.
  { destruct (Hget b eq_refl eq_refl) as (b0 & -> & Hsame). done. }
  match goal with |- context [range_read_range _ ?rq ?st] =>
    pose proof (read_same rq st bare) as [Hr Hfr] end.
  rewrite <- Hr in Hd. clear Hr. unfold mbind, Res_bind in Hd.
  destruct (range_read_range limits _ _) as [[bytes|e|] s2]; cbn in *;
    unfold coherent; rewrite ?Hfr.
  2,3: by rewrite Hd.
  destruct (decode_bootstrap_bytes _ _ _ _) as [b|e|]; cbn in *; rewrite ?Hfr, Hd; try done.
  split; [|done]. apply put_bootstrap_holds; [|done]. intros _. by exists b.
Qed.

Lemma leaf_sim b rq :
  direct_bootstrap = Ok b -> leaf_request_of b rq ->
  sm_rel (fun s (_ : Bare) => coherent s) eq
    (load_leaf (S := Cached) rq) (load_leaf (S := Bare) rq).
Proof.
  intros Hb [Hc Ha] s u Hs. rewrite (bare_unique u).
  set (key := {| lk_archive := identity; lk_offset := lr_offset rq; lk_length := lr_length rq |}).
  assert (Hdl : (load_leaf (S := Bare) rq bare).1 = direct_leaf b key).
  { unfold direct_leaf. simpl lk_offset. simpl lk_length. rewrite <- Hc, <- Ha. by destruct rq. }
  rewrite Hdl.
  assert (Hd : direct_leaf b key = (
    bytes ← (range_read_range (SE := SE) limits
      {| rq_offset := lr_offset rq; rq_length := lr_length rq;
         rq_archive_len := Some (lr_archive_len rq); rq_kind := RkLeafDirectory |} bare).1;
    map_err InvalidArchive (Directory_parse_with_limit dec try_reserve_exact
      (lr_compression rq) bytes (max_decompressed_directory_bytes limits)))).
  { rewrite <- Hdl. cbn. unfold range_load_leaf, mbind, SM_bind, Res_bind,
      with_store, emit, modify, lift. cbn. fold bare.
    destruct (range_read_range limits _ bare) as [[bytes|e|] s2]; try done. cbn.
    by destruct (Directory_parse_with_limit _ _ _ _ _). }
  cbn. unfold range_load_leaf, mbind, SM_bind, with_store, emit, modify, lift. fold key.
  destruct (get_leaf_holds PB PL key (rs_directories s) Hs) as [HI1 Hget].
  destruct (get_leaf key (rs_directories s)) as [[l|] d1]; cbn in *.
  { destruct (Hget l eq_refl eq_refl) as (b0 & Hb0 & Hl). rewrite Hb in Hb0.
    injection Hb0 as <-. by rewrite Hl. }
  match goal with |- context [range_read_range _ ?rq ?st] =>
    pose proof (read_same rq st bare) as [Hr Hfr] end.
  rewrite <- Hr in Hd. clear Hr. unfold mbind, Res_bind in Hd.
  destruct (range_read_range limits _ _) as [[bytes|e|] s2]; cbn in *;
    unfold coherent; rewrite ?Hfr.
  2,3: by rewrite Hd.
  destruct (Directory_parse_with_limit _ _ _ _ _) as [l|e|]; cbn in *; rewrite ?Hfr, Hd; try done.
  split; [|done]. apply put_leaf_holds; [|done]. intros _. by exists b.
Qed.

#[local] Instance cached_sim :
  BackendSim (fun (s : Cached) (_ : Bare) => coherent s) (fun b => direct_bootstrap = Ok b).
Proof.
  split.
  - exact bootstrap_sim.
  - exact leaf_sim.
  - intros rq s u Hs. cbn. destruct (read_same rq s u) as [Hr Hfr].
    unfold coherent. rewrite Hfr, Hr. split; [done|by apply res_rel_eq].
  - done.
  - done.
Qed.

(** [C11] Cache transparency (refinement): over an immutable archive, a reader
    with any lawful directory store and observer returns exactly what the
    uncached reader returns, for every tile id, errors included, and leaves the
    store coherent for the next request. *)
Theorem get_tile_cache_transparent id (s : Cached) (Hs : coherent s) :
  (get_tile (S := Cached) limits id s).1 = (get_tile (S := Bare) limits id bare).1 /\
  coherent (get_tile (S := Cached) limits id s).2.
Proof.
  destruct (get_tile_sim (S := Cached) (S' := Bare) (fun s _ => coherent s)
              (fun b => direct_bootstrap = Ok b) limits id s bare Hs) as [HR Hr].
  split; [by apply res_rel_eq|done].
Qed.
End Transparency.
End RangeBackendFacts.

(** ** The read protocol seen by an observer *)

(** An observer that records the events in order. *)
#[export] Instance LogObserver : ReadObserver (list ReaderEvent) := fun e l => l ++ [e].

(** How a read of [rq] may end. *)
Definition read_outcome (rq : ReadRequest) (e : ReaderEvent) : Prop :=
  match e with
  | ReadCompleted rq' n => rq' = rq /\ (rq_kind rq = RkBootstrap \/ Z.of_nat n = rq_length rq)
  | ShortRead rq' n => rq' = rq /\ rq_kind rq <> RkBootstrap /\ Z.of_nat n <> rq_length rq
  | ReadFailed rq' => rq' = rq
  | _ => False
  end.

(** A log in which every started read is within the limit and is directly
    followed by its one outcome. *)
Inductive balanced (limit : Z) : list ReaderEvent -> Prop :=
  | balanced_nil : balanced limit []
  | balanced_hit l k o : balanced limit l -> balanced limit (l ++ [CacheHit k o])
  | balanced_decoded l k n : balanced limit l -> balanced limit (l ++ [DirectoryDecoded k n])
  | balanced_read l rq e : balanced limit l -> rq_length rq <= limit -> read_outcome rq e ->
      balanced limit ((l ++ [ReadStarted rq]) ++ [e]).
#[export] Hint Constructors balanced : platform.

Section ReadProtocol.
Context {Metadata : Type} (dec : Decoders) (try_reserve_exact : Z -> bool).
Context (metadata_from_json : list Z -> option Metadata) (Metadata_default : Metadata).
Context (identity : ArchiveIdentity) (limits : ReaderLimits).
Context {Src SE D : Type} `{!RangeSource Src SE} `{!DirectoryStore Metadata D}.
(** The source returns a result. *)
Context (Hsrc : forall rq src, (source_read_range (SE := SE) rq src).1 <> Panic).

Abbreviation St := (RangeState Src D (list ReaderEvent)).
Abbreviation Er := (ReaderError SE).

#[local] Instance log_backend : ArchiveBackend Metadata St Er :=
  RangeArchiveBackend dec try_reserve_exact metadata_from_json Metadata_default identity limits.

Definition log_ok (s : St) : Prop := balanced (max_range_bytes limits) (rs_observer s).

Lemma read_log_ok rq : sm_preserves log_ok (range_read_range (SE := SE) limits rq : SM St Er _).
Proof.
  intros s Hs. unfold range_read_range. rewrite Z.gtb_ltb.
  destruct (Z.ltb_spec (max_range_bytes limits) (rq_length rq)); [done|].
  unfold mbind, SM_bind, emit, modify, call_source. cbn. pose proof (Hsrc rq (rs_source s)) as Hp.
  destruct (source_read_range rq (rs_source s)) as [[bytes|e|] src]; cbn in *; [| |done].
  - case_bool_decide as Hk; cbn.
    + apply balanced_read; cbn; auto.
    + destruct (Z.eqb_spec (Z.of_nat (length bytes)) (rq_length rq)); cbn;
        apply balanced_read; cbn; auto.
  - by apply balanced_read.
Qed.

Lemma emit_hit_ok k o : sm_preserves log_ok (emit (CacheHit k o) : SM St Er unit).
Proof. intros s Hs. by apply balanced_hit. Qed.

Lemma emit_decoded_ok k n : sm_preserves log_ok (emit (DirectoryDecoded k n) : SM St Er unit).
Proof. intros s Hs. by apply balanced_decoded. Qed.

Lemma with_store_ok {A} (f : D -> A * D) : sm_preserves log_ok (with_store f : SM St Er A).
Proof. intros s Hs. unfold with_store. by destruct (f (rs_directories s)). Qed.

#[local] Hint Resolve read_log_ok emit_hit_ok emit_decoded_ok with_store_ok : platform.

(** Decompose a computation into its steps. *)
Ltac preserve :=
  repeat first
    [ apply sm_preserves_bind; [|intros ?] | apply sm_preserves_lift | apply sm_preserves_ret
    | solve [auto with platform] | case_match ].

Lemma load_bootstrap_log_ok : sm_preserves log_ok (load_bootstrap (S := St)).
Proof. cbn. unfold range_load_bootstrap. preserve. Qed.

Lemma load_leaf_log_ok rq : sm_preserves log_ok (load_leaf (S := St) rq).
Proof. cbn. unfold range_load_leaf. preserve. Qed.

Lemma read_range_log_ok rq : sm_preserves log_ok (read_range (S := St) rq).
Proof. apply read_log_ok. Qed.

#[local] Hint Resolve load_bootstrap_log_ok load_leaf_log_ok read_range_log_ok : platform.

Lemma resolve_loop_log_ok fuel b w d leaves :
  sm_preserves log_ok (resolve_loop (S := St) limits fuel b w d leaves).
Proof.
  revert w d leaves. induction fuel as [|fuel IH]; intros w d leaves; [apply sm_preserves_lift|].
  cbn [resolve_loop]. destruct (DirectoryWalker_step d w) as [st w']. preserve.
Qed.

(** Read protocol: whatever tile or metadata is asked for, every read the
    reader starts is within [max_range_bytes] and is reported with exactly one
    outcome, a completed non-bootstrap read having exactly the requested length. *)
Theorem reads_bounded_and_reported id :
  sm_preserves log_ok (get_tile (S := St) limits id) /\
  sm_preserves log_ok (reader_metadata (S := St)).
Proof.
  split.
  - unfold get_tile, resolve_tile_location. preserve; auto using resolve_loop_log_ok.
  - unfold reader_metadata. cbn. unfold range_load_metadata. preserve; apply load_bootstrap_log_ok.
Qed.
End ReadProtocol.

(** ** A concrete archive

    A header, a root directory with one leaf pointer, a leaf directory with one
    tile, and three bytes of tile data. *)

Definition le64 (v : Z) : list Z :=
  (fun i => Z.land (Z.shiftr v (8 * Z.of_nat i)) 255) <$> seq 0 8.

Definition demo_root : list Z :=
  encode_directory [ {| tile_id := 0; offset := 0; length_ := 5; run_length := 0 |} ].
Definition demo_leaf : list Z :=
  encode_directory [ {| tile_id := 1; offset := 0; length_ := 3; run_length := 1 |} ].

Definition demo_archive : list Z :=
  MAGIC ++ [3] ++ le64 127 ++ le64 5 ++ le64 0 ++ le64 0 ++ le64 132 ++ le64 5 ++
  le64 137 ++ le64 3 ++ le64 1 ++ le64 1 ++ le64 1 ++ [1; 1; 1; 1; 0; 1] ++
  replicate 25 0 ++ demo_root ++ demo_leaf ++ [7; 8; 9].

Definition demo_read (rq : ReadRequest) : Res unit (list Z) :=
  Ok (take (Z.to_nat (rq_length rq)) (drop (Z.to_nat (rq_offset rq)) demo_archive)).

Definition demo_identity : ArchiveIdentity := {| ai_name := "demo"; ai_generation := "1" |}.

Definition demo_tile : TileData :=
  {| td_bytes := [7; 8; 9]; td_content_type := content_type TtMvt; td_content_encoding := None |}.

#[local] Instance demo_source : RangeSource unit unit := fun rq s => (demo_read rq, s).
#[local] Instance demo_backend : ArchiveBackend unit
    (RangeState unit (MapStore unit) (list ReaderEvent)) (ReaderError unit) :=
  RangeArchiveBackend no_decoders (fun _ => true) (fun _ => Some tt) tt demo_identity
    ReaderLimits_default.

Definition demo_start : RangeState unit (MapStore unit) (list ReaderEvent) :=
  {| rs_source := tt; rs_directories := {| ms_bootstraps := []; ms_leaves := [] |};
     rs_observer := [] |}.

Example demo_get : (get_tile ReaderLimits_default 1 demo_start).1 = Ok (Some demo_tile).
Proof. vm_compute. reflexivity. Qed.

Lemma demo_answers rq src : (source_read_range (SE := unit) (Src := unit) rq src).1 <> Panic.
Proof. done. Qed.

Lemma demo_bytes rq (src : unit) bytes src' :
  source_read_range (SE := unit) rq src = (Ok bytes, src') -> is_bytes bytes.
Proof.
  unfold source_read_range, demo_source, demo_read. intros [= <- _].
  apply Forall_take, Forall_drop, Forall_forall. intros x Hx.
  assert (Hall : Forall is_u8 demo_archive).
  { apply (bool_decide_unpack _). vm_compute. exact I. }
  rewrite Forall_forall in Hall. by apply Hall.
Qed.

Definition demo_trace : TileLookupTrace :=
  {| tr_bootstrap := {| ar_offset := 0; ar_length := 16384 |};
     tr_leaves := [ {| ar_offset := 132; ar_length := 5 |} ];
     tr_tile := Some {| tl_offset := 137; tl_length := 3; tl_archive_len := 140 |};
     tr_archive_len := 140 |}.


(** Witness: an empty store is coherent. *)
Lemma get_tile_cache_transparent_witness :
  (get_tile ReaderLimits_default 1 demo_start).1 = Ok (Some demo_tile).
Proof.
  refine (eq_trans (proj1 (get_tile_cache_transparent no_decoders (fun _ => true)
    (fun _ => Some tt) tt demo_identity ReaderLimits_default demo_read 1 demo_start _)) _).
  - split; constructor.
  - vm_compute. reflexivity.
Defined.

(** Witness: the log of one lookup on the demo archive is balanced. *)
Lemma reads_bounded_and_reported_witness :
  log_ok ReaderLimits_default (get_tile ReaderLimits_default 1 demo_start).2.
Proof.
  refine (proj1 (reads_bounded_and_reported no_decoders (fun _ => true) (fun _ => Some tt) tt
    demo_identity ReaderLimits_default (D := MapStore unit) demo_answers 1) demo_start _).
  constructor.
Defined.
