(* ===== verification/StdModel.v ===== *)
(** * Parts of the Rust standard library the servers rely on

    Byte-ordered keys, [BTreeMap] as a sorted association list, the stable
    [slice::sort_by], and the [str] and integer formatting and parsing methods
    that the gossip encoding uses.  A [String] is the list of its UTF-8 bytes. *)

From S2P Require Import Prelude.
From Stdlib Require Export Ascii.

Local Open Scope Z_scope.

(** ** Totally ordered keys *)

Class OrderedKey (K : Type) := {
  kcmp : K -> K -> comparison;
  kcmp_eq a b : kcmp a b = Eq <-> a = b;
  kcmp_antisym a b : kcmp b a = CompOpp (kcmp a b);
  kcmp_trans a b c : kcmp a b = Lt -> kcmp b c = Lt -> kcmp a c = Lt;
}.

#[export] Instance Z_key : OrderedKey Z.
Proof.
  refine {| kcmp := Z.compare |}.
  - apply Z.compare_eq_iff.
  - intros. apply Z.compare_antisym.
  - intros a b c. rewrite !Z.compare_lt_iff. lia.
Defined.

Lemma string_compare_refl s : String.compare s s = Eq.
Proof.
  induction s as [|a s IH]; simpl; [done|].
  unfold Ascii.compare. by rewrite N.compare_refl.
Qed.

Lemma string_compare_trans a b c :
  String.compare a b = Lt -> String.compare b c = Lt -> String.compare a c = Lt.
Proof.
  revert b c. induction a as [|x a IH]; intros [|y b] [|z c]; simpl; try done.
  unfold Ascii.compare.
  destruct (N.compare_spec (N_of_ascii x) (N_of_ascii y)) as [H1|H1|H1]; try done.
  all: destruct (N.compare_spec (N_of_ascii y) (N_of_ascii z)) as [H2|H2|H2]; try done; intros Ha Hb.
  - rewrite H1, H2, N.compare_refl. by eapply IH.
  - rewrite H1. by apply N.compare_lt_iff in H2 as ->.
  - rewrite <- H2. by apply N.compare_lt_iff in H1 as ->.
  - assert (H3 : (N_of_ascii x < N_of_ascii z)%N) by lia. by apply N.compare_lt_iff in H3 as ->.
Qed.

#[export] Instance string_key : OrderedKey string.
Proof.
  refine {| kcmp := String.compare |}.
  - intros a b. split; [apply String.compare_eq_iff|]. intros <-. apply string_compare_refl.
  - intros. apply String.compare_antisym.
  - apply string_compare_trans.
Defined.

Section KeyFacts.
Context {K : Type} `{OrderedKey K}.

Lemma kcmp_refl k : kcmp k k = Eq.
Proof. by apply kcmp_eq. Qed.

Lemma kcmp_Gt a b : kcmp a b = Gt <-> kcmp b a = Lt.
Proof. rewrite (kcmp_antisym a b). by destruct (kcmp a b). Qed.

Definition klt (a b : K) : Prop := kcmp a b = Lt.

#[export] Instance klt_trans : Transitive klt.
Proof. intros a b c. apply kcmp_trans. Qed.

Lemma klt_irrefl k : ~ klt k k.
Proof. unfold klt. by rewrite kcmp_refl. Qed.

(** Two strictly ascending lists with the same elements are the same list. *)
Lemma ascending_ext (l l' : list K) :
  StronglySorted klt l -> StronglySorted klt l' -> (forall k, k ∈ l <-> k ∈ l') -> l = l'.
Proof.
  intros Hl. revert l'. induction Hl as [|a l Hl IH Ha]; intros l' Hl' Hin.
  - destruct l' as [|b l']; [done|]. by destruct (not_elem_of_nil b); apply Hin, elem_of_cons; left.
  - destruct Hl' as [|b l' Hl' Hb]; [by destruct (not_elem_of_nil a); apply Hin, elem_of_cons; left|].
    rewrite Forall_forall in Ha, Hb. assert (a = b) as ->.
    { assert (Ha' : a ∈ b :: l') by (apply Hin; left). assert (Hb' : b ∈ a :: l) by (apply Hin; left).
      apply elem_of_cons in Ha' as [?|Ha']; [done|]. apply elem_of_cons in Hb' as [?|Hb']; [done|].
      destruct (klt_irrefl a). transitivity b; [by apply Ha|by apply Hb]. }
    f_equal. apply IH; [done|]. intros k. split; intros Hk.
    + assert (Hk' : k ∈ b :: l') by (apply Hin; by right).
      apply elem_of_cons in Hk' as [->|?]; [|done]. by destruct (klt_irrefl b); apply Ha.
    + assert (Hk' : k ∈ b :: l) by (apply Hin; by right).
      apply elem_of_cons in Hk' as [->|?]; [|done]. by destruct (klt_irrefl b); apply Hb.
Qed.
End KeyFacts.

(** ** [BTreeMap]: entries in ascending key order *)

Section BTreeMap.
Context {K : Type} `{OrderedKey K} {V : Type}.

Definition BTreeMap : Type := list (K * V).

Fixpoint bt_get (k : K) (m : BTreeMap) : option V :=
  match m with
  | [] => None
  | (k', v) :: m => match kcmp k k' with Eq => Some v | _ => bt_get k m end
  end.

(** [entry(k)] followed by a write: [f] sees the present value. *)
Fixpoint bt_alter (f : option V -> V) (k : K) (m : BTreeMap) : BTreeMap :=
  match m with
  | [] => [(k, f None)]
  | (k', v) :: m' =>
      match kcmp k k' with
      | Lt => (k, f None) :: m
      | Eq => (k, f (Some v)) :: m'
      | Gt => (k', v) :: bt_alter f k m'
      end
  end.

Definition bt_insert (k : K) (v : V) (m : BTreeMap) : BTreeMap := bt_alter (fun _ => v) k m.

Definition bt_wf (m : BTreeMap) : Prop := StronglySorted klt (fst <$> m).

Lemma bt_alter_keys f k m k' : k' ∈ fst <$> bt_alter f k m <-> k' = k \/ k' ∈ fst <$> m.
Proof.
  induction m as [|[k0 v0] m IH]; simpl.
  - rewrite list_elem_of_singleton. split; [by left|]. by intros [?|Hf%not_elem_of_nil].
  - destruct (kcmp k k0) eqn:E; rewrite ?fmap_cons; simpl; rewrite ?elem_of_cons.
    + apply kcmp_eq in E as ->. tauto.
    + tauto.
    + rewrite IH. tauto.
Qed.

Lemma bt_alter_wf f k m : bt_wf m -> bt_wf (bt_alter f k m).
Proof.
  unfold bt_wf. induction m as [|[k0 v0] m IH]; intros Hm; simpl.
  - repeat constructor.
  - inversion Hm as [|? ? Hm' Hk]; subst. destruct (kcmp k k0) eqn:E; simpl.
    + apply kcmp_eq in E as ->. by constructor.
    + constructor; [done|]. constructor; [done|]. eapply Forall_impl; [done|].
      intros k'. apply kcmp_trans. exact E.
    + constructor; [by apply IH|]. apply Forall_forall. intros k' Hk'.
      apply bt_alter_keys in Hk' as [->|Hk']; [by apply kcmp_Gt|].
      rewrite Forall_forall in Hk. by apply Hk.
Qed.

Lemma bt_get_alter f k m : bt_wf m -> bt_get k (bt_alter f k m) = Some (f (bt_get k m)).
Proof.
  unfold bt_wf. induction m as [|[k0 v0] m IH]; intros Hm; simpl.
  - by rewrite kcmp_refl.
  - inversion Hm as [|? ? Hm' Hk]; subst. destruct (kcmp k k0) eqn:E; simpl.
    + by rewrite kcmp_refl.
    + rewrite kcmp_refl. f_equal. f_equal. symmetry.
      assert (Hlt : Forall (klt k) (fst <$> m)).
      { eapply Forall_impl; [done|]. intros k'. apply kcmp_trans. exact E. }
      clear -Hlt. induction m as [|[k1 v1] m IH]; simpl in *; [done|].
      inversion Hlt as [|? ? Hk1 Hr]; subst. unfold klt in Hk1. rewrite Hk1. by apply IH.
    + rewrite E. by apply IH.
Qed.

Lemma bt_get_alter_ne f k k' m : k' <> k -> bt_get k' (bt_alter f k m) = bt_get k' m.
Proof.
  intros Hne. assert (Hn : kcmp k' k <> Eq) by (by rewrite kcmp_eq).
  induction m as [|[k0 v0] m IH]; simpl.
  - by destruct (kcmp k' k).
  - destruct (kcmp k k0) eqn:E; simpl.
    + apply kcmp_eq in E as ->. by destruct (kcmp k' k0).
    + by destruct (kcmp k' k).
    + by rewrite IH.
Qed.

Lemma bt_get_elem m k v : bt_wf m -> bt_get k m = Some v <-> (k, v) ∈ m.
Proof.
  unfold bt_wf. induction m as [|[k0 v0] m IH]; intros Hm; simpl; [set_solver|].
  inversion Hm as [|? ? Hm' Hk]; subst. rewrite elem_of_cons.
  destruct (kcmp k k0) eqn:E.
  - apply kcmp_eq in E as ->. split; [intros [= ->]; by left|]. intros [[= ->]|Hin]; [done|].
    rewrite Forall_forall in Hk. destruct (klt_irrefl k0). apply Hk.
    apply list_elem_of_fmap. by exists (k0, v).
  - rewrite IH by done. split; [by right|]. intros [[= -> ->]|?]; [by rewrite kcmp_refl in E|done].
  - rewrite IH by done. split; [by right|]. intros [[= -> ->]|?]; [by rewrite kcmp_refl in E|done].
Qed.

Lemma bt_insert_elem k v m k' v' :
  bt_wf m -> (k', v') ∈ bt_insert k v m <-> (k' = k /\ v' = v) \/ (k' <> k /\ (k', v') ∈ m).
Proof.
  intros Hm. unfold bt_insert. rewrite <- bt_get_elem by by apply bt_alter_wf.
  destruct (kcmp k' k) eqn:E.
  1: { apply kcmp_eq in E as ->. rewrite bt_get_alter by done.
    split; [intros [= ->]; by left|]. by intros [[_ ->]|[? _]]. }
  all: assert (k' <> k) by (intros ->; by rewrite kcmp_refl in E).
  all: rewrite bt_get_alter_ne, bt_get_elem by done; split; [by right|by intros [[? _]|[_ ?]]].
Qed.

Lemma bt_reconstruct m : bt_wf m -> m = omap (fun k => (k,.) <$> bt_get k m) (fst <$> m).
Proof.
  unfold bt_wf. induction m as [|[k v] m IH]; intros Hm; [done|].
  inversion Hm as [|? ? Hm' Hk]; subst. rewrite fmap_cons. cbn [omap list_omap bt_get fst].
  rewrite kcmp_refl. cbn. f_equal. rewrite (IH Hm') at 1. apply list_omap_ext.
  apply Forall2_same_length_lookup_2; [done|]. intros i x y Hx Hy. simplify_eq.
  rewrite Forall_forall in Hk. assert (Hlt : klt k x) by (apply Hk; by eapply list_elem_of_lookup_2).
  apply kcmp_Gt in Hlt. cbn. by rewrite Hlt.
Qed.

(** Two maps with the same lookups are the same map. *)
Lemma bt_ext m m' : bt_wf m -> bt_wf m' -> (forall k, bt_get k m = bt_get k m') -> m = m'.
Proof.
  intros Hm Hm' Hget. rewrite (bt_reconstruct m), (bt_reconstruct m') by done.
  assert (Hkeys : fst <$> m = fst <$> m').
  { apply ascending_ext; [done..|]. intros k. rewrite !list_elem_of_fmap.
    split; intros ([k' v] & -> & Hin); exists (k', v); (split; [done|]).
    - apply bt_get_elem; [done|]. rewrite <- Hget. by apply bt_get_elem.
    - apply bt_get_elem; [done|]. rewrite Hget. by apply bt_get_elem. }
  rewrite Hkeys. apply list_omap_ext, Forall2_same_length_lookup_2; [done|].
  intros i x y Hx Hy. simplify_eq. by rewrite Hget.
Qed.
End BTreeMap.
Arguments BTreeMap : clear implicits.

(** ** [slice::sort_by] (stable) and [Vec::dedup] *)

Section SortBy.
Context {A : Type} (cmp : A -> A -> comparison).

Fixpoint insert_by (x : A) (l : list A) : list A :=
  match l with
  | [] => [x]
  | y :: l' => match cmp x y with Gt => y :: insert_by x l' | _ => x :: l end
  end.

Definition sort_by (l : list A) : list A := foldr insert_by [] l.

(** A comparator that [sort_by] accepts: a total preorder. *)
Class TotalPreorderCmp : Prop := {
  cmp_antisym a b : cmp b a = CompOpp (cmp a b);
  cmp_le_trans a b c : cmp a b <> Gt -> cmp b c <> Gt -> cmp a c <> Gt;
}.

Definition cmp_le (a b : A) : Prop := cmp a b <> Gt.

Lemma insert_by_perm x l : insert_by x l ≡ₚ x :: l.
Proof.
  induction l as [|y l IH]; simpl; [done|]. destruct (cmp x y); [done..|].
  rewrite IH. apply perm_swap.
Qed.

Lemma sort_by_perm l : sort_by l ≡ₚ l.
Proof. induction l as [|x l IH]; simpl; [done|]. by rewrite insert_by_perm, IH. Qed.

Lemma sort_by_elem l x : x ∈ sort_by l <-> x ∈ l.
Proof. by rewrite sort_by_perm. Qed.

Lemma insert_by_sorted `{!TotalPreorderCmp} x l :
  StronglySorted cmp_le l -> StronglySorted cmp_le (insert_by x l).
Proof.
  induction 1 as [|y l Hl IH Hy]; simpl; [repeat constructor|].
  destruct (cmp x y) eqn:E.
  1,2: constructor; [by constructor|]; constructor; [unfold cmp_le; congruence|];
    eapply Forall_impl; [done|]; intros z Hz; apply (cmp_le_trans x y z); [by rewrite E|done].
  constructor; [done|]. rewrite insert_by_perm. constructor; [|done].
  unfold cmp_le. rewrite cmp_antisym, E. done.
Qed.

Lemma sort_by_sorted `{!TotalPreorderCmp} l : StronglySorted cmp_le (sort_by l).
Proof. induction l; simpl; [constructor|]. by apply insert_by_sorted. Qed.
End SortBy.

(** Adjacent equal elements collapse. *)
Fixpoint dedup {A} `{EqDecision A} (l : list A) : list A :=
  match l with
  | x :: ((y :: _) as l') => if decide (x = y) then dedup l' else x :: dedup l'
  | _ => l
  end.

Lemma dedup_cons {A} `{EqDecision A} (x y : A) l :
  dedup (x :: y :: l) = if decide (x = y) then dedup (y :: l) else x :: dedup (y :: l).
Proof. done. Qed.

Lemma dedup_elem {A} `{EqDecision A} (l : list A) x : x ∈ dedup l <-> x ∈ l.
Proof.
  induction l as [|a [|b l] IH]; [done..|]. rewrite dedup_cons.
  case_decide as Hab.
  - subst. rewrite IH, !elem_of_cons. tauto.
  - rewrite elem_of_cons, IH, (elem_of_cons (b :: l)). tauto.
Qed.

(** [windows(2)]: each element with the next. *)
Fixpoint unit_steps {A} (l : list A) : list (A * A) :=
  match l with a :: (b :: _) as rest => (a, b) :: unit_steps rest | _ => [] end.
Lemma unit_steps_join {A} (l l' : list A) a b :
  last l = Some a -> head l' = Some b -> unit_steps (l ++ l') = unit_steps l ++ (a, b) :: unit_steps l'.
Proof.
  intros Hl Hl'. destruct l' as [|b' l']; [done|]. injection Hl' as ->. induction l as [|x l IH]; [done|]. destruct l as [|y l]; [by injection Hl as ->|].
  specialize (IH Hl). cbn in IH |- *. by rewrite IH.
Qed.

Section SortKeys.
Context {K : Type} `{OrderedKey K} `{EqDecision K}.

#[export] Instance kcmp_preorder : TotalPreorderCmp (kcmp (K := K)).
Proof.
  split; [apply kcmp_antisym|]. intros a b c H1 H2 H3. apply kcmp_Gt in H3.
  destruct (kcmp a b) eqn:E1; [| |done].
  - apply kcmp_eq in E1 as ->. by apply kcmp_Gt in H3.
  - pose proof (kcmp_trans _ _ _ H3 E1) as H4. by apply kcmp_Gt in H4.
Qed.

(** Sorting and then removing adjacent duplicates leaves a strictly ascending list. *)
Lemma dedup_ascending (l : list K) :
  StronglySorted (cmp_le kcmp) l -> StronglySorted klt (dedup l).
Proof.
  induction 1 as [|a l Hl IH Ha]; [constructor|].
  destruct l as [|b l]; [repeat constructor|]. rewrite dedup_cons. case_decide as Hab; [done|].
  constructor; [done|]. apply Forall_forall. intros x Hx. rewrite dedup_elem in Hx.
  assert (Hlt : kcmp a b = Lt).
  { apply Forall_cons in Ha as [Ha _]. unfold cmp_le in Ha.
    destruct (kcmp a b) eqn:E; [by apply kcmp_eq in E|done|done]. }
  apply elem_of_cons in Hx as [->|Hx]; [done|].
  inversion Hl as [|? ? _ Hb]; subst. rewrite Forall_forall in Hb. specialize (Hb x Hx).
  unfold cmp_le in Hb. unfold klt. destruct (kcmp b x) eqn:E; [|by eapply kcmp_trans|done].
  apply kcmp_eq in E as <-. done.
Qed.

Definition sort_dedup (l : list K) : list K := dedup (sort_by kcmp l).

Lemma sort_dedup_ascending l : StronglySorted klt (sort_dedup l).
Proof. apply dedup_ascending, sort_by_sorted, _. Qed.

Lemma sort_dedup_elem l x : x ∈ sort_dedup l <-> x ∈ l.
Proof. unfold sort_dedup. by rewrite dedup_elem, sort_by_elem. Qed.

(** An ascending slice is partitioned for the comparator of a search. *)
Lemma ascending_lookup (l : list K) i j x y :
  StronglySorted klt l -> (i < j)%nat -> l !! i = Some x -> l !! j = Some y -> klt x y.
Proof.
  intros Hl. revert i j. induction Hl as [|a l Hl IH Ha]; intros [|i] [|j] Hij Hi Hj; try done; try lia.
  - simplify_eq/=. rewrite Forall_forall in Ha. apply Ha. by eapply list_elem_of_lookup_2.
  - eapply IH; [|done..]. lia.
Qed.

Lemma ascending_partitioned (l : list K) k :
  StronglySorted klt l -> partitioned (fun v => kcmp v k) l.
Proof.
  intros Hl i j x y Hij Hx Hy. destruct (decide (i = j)) as [->|Hne].
  { rewrite Hx in Hy. injection Hy as ->. done. }
  pose proof (ascending_lookup l i j x y Hl ltac:(lia) Hx Hy) as Hxy. split; intros Hc.
  - apply kcmp_Gt in Hc. apply kcmp_Gt. by eapply kcmp_trans.
  - by eapply kcmp_trans.
Qed.

Definition slice_contains_sorted (l : list K) (k : K) : bool :=
  match binary_search_by (fun v => kcmp v k) l with Found _ => true | Insert _ => false end.

Lemma slice_contains_sorted_spec l k :
  StronglySorted klt l -> slice_contains_sorted l k = true <-> k ∈ l.
Proof.
  intros Hl. unfold slice_contains_sorted.
  destruct (binary_search_by _ l) as [i|i] eqn:E.
  - apply binary_search_by_Found in E as (x & Hx & He). apply kcmp_eq in He as ->.
    split; [|done]. intros _. by eapply list_elem_of_lookup_2.
  - split; [done|]. intros Hin. exfalso.
    apply binary_search_by_Insert in E as (_ & Hlt & Hgt); [|by apply ascending_partitioned].
    apply list_elem_of_lookup in Hin as [j Hj].
    destruct (decide (j < i)%nat) as [Hji|Hji].
    + specialize (Hlt j k Hji Hj). simpl in Hlt. by rewrite kcmp_refl in Hlt.
    + specialize (Hgt j k ltac:(lia) Hj). simpl in Hgt. by rewrite kcmp_refl in Hgt.
Qed.
End SortKeys.

(** ** Composite comparators *)

(** [Ordering::then_with]. *)
Definition then_cmp (c d : comparison) : comparison := match c with Eq => d | _ => c end.
(** [bool]'s order: [false < true]. *)
Definition bool_cmp (a b : bool) : comparison :=
  match a, b with false, true => Lt | true, false => Gt | _, _ => Eq end.

Section Comparators.
Context {A : Type}.

Lemma cmp_lt_le (c : A -> A -> comparison) `{!TotalPreorderCmp c} x y z :
  c x y = Lt -> c y z <> Gt -> c x z = Lt.
Proof.
  intros Hxy Hyz. destruct (c x z) eqn:E; [|done|].
  - exfalso. assert (Hzx : c z x <> Gt) by (by rewrite (cmp_antisym c x z), E).
    pose proof (cmp_le_trans c y z x Hyz Hzx) as H. rewrite (cmp_antisym c x y), Hxy in H. done.
  - exfalso. assert (Hxy' : c x y <> Gt) by congruence.
    by pose proof (cmp_le_trans c x y z Hxy' Hyz).
Qed.

Lemma cmp_le_lt (c : A -> A -> comparison) `{!TotalPreorderCmp c} x y z :
  c x y <> Gt -> c y z = Lt -> c x z = Lt.
Proof.
  intros Hxy Hyz. destruct (c x z) eqn:E; [|done|].
  - exfalso. assert (Hzx : c z x <> Gt) by (by rewrite (cmp_antisym c x z), E).
    pose proof (cmp_le_trans c z x y Hzx Hxy) as H. rewrite (cmp_antisym c y z), Hyz in H. done.
  - exfalso. assert (Hyz' : c y z <> Gt) by congruence.
    by pose proof (cmp_le_trans c x y z Hxy Hyz').
Qed.

Lemma then_preorder (c d : A -> A -> comparison)
    `{!TotalPreorderCmp c} `{!TotalPreorderCmp d} :
  TotalPreorderCmp (fun x y => then_cmp (c x y) (d x y)).
Proof.
  split.
  - intros x y. rewrite (cmp_antisym c x y), (cmp_antisym d x y). by destruct (c x y).
  - intros x y z Hxy Hyz. unfold then_cmp in *.
    destruct (c x y) eqn:E1; [| |done]; destruct (c y z) eqn:E2; try done.
    + destruct (c x z) eqn:E3; [by eapply (cmp_le_trans d)|done|].
      exfalso. assert (H1 : c x y <> Gt) by congruence. assert (H2 : c y z <> Gt) by congruence.
      by pose proof (cmp_le_trans c x y z H1 H2).
    + by rewrite (cmp_le_lt c x y z) by congruence.
    + by rewrite (cmp_lt_le c x y z) by congruence.
    + by rewrite (cmp_lt_le c x y z) by congruence.
Qed.

Lemma comap_preorder {B} (f : A -> B) (c : B -> B -> comparison)
    `{!TotalPreorderCmp c} : TotalPreorderCmp (fun x y => c (f x) (f y)).
Proof.
  split; [intros; apply (cmp_antisym c)|]. intros x y z. apply (cmp_le_trans c).
Qed.

Lemma flip_preorder (c : A -> A -> comparison) `{!TotalPreorderCmp c} :
  TotalPreorderCmp (fun x y => c y x).
Proof.
  split; [intros; apply (cmp_antisym c)|]. intros x y z Hxy Hyz. by apply (cmp_le_trans c z y x).
Qed.
End Comparators.

#[export] Instance bool_preorder : TotalPreorderCmp bool_cmp.
Proof. split; [by intros [] []|by intros [] [] []]. Qed.
#[export] Instance Z_preorder : TotalPreorderCmp Z.compare.
Proof. exact (kcmp_preorder (K := Z)). Qed.
#[export] Instance string_preorder : TotalPreorderCmp String.compare.
Proof. exact (kcmp_preorder (K := string)). Qed.

(** A comparator that separates the elements of a list fixes its sorted order. *)
Lemma sorted_unique {A} (c : A -> A -> comparison) `{!TotalPreorderCmp c} (l l' : list A) :
  l ≡ₚ l' -> StronglySorted (cmp_le c) l -> StronglySorted (cmp_le c) l' ->
  (forall x y, x ∈ l -> y ∈ l -> c x y = Eq -> x = y) -> l = l'.
Proof.
  intros Hp Hl. revert l' Hp. induction Hl as [|a l Hl IH Ha]; intros l' Hp Hl' Heq.
  - by apply Permutation_nil in Hp as ->.
  - destruct l' as [|b l']; [by apply Permutation_sym, Permutation_nil_cons in Hp|].
    apply StronglySorted_cons in Hl' as [Hb Hl'].
    assert (a = b) as ->.
    { assert (Hin : b ∈ a :: l) by (rewrite Hp; left). assert (Hin' : a ∈ b :: l') by (rewrite <- Hp; left).
      apply elem_of_cons in Hin as [->|Hin]; [done|]. apply elem_of_cons in Hin' as [->|Hin']; [done|].
      rewrite Forall_forall in Ha, Hb. specialize (Ha b Hin). specialize (Hb a Hin').
      apply Heq; [left|by right|]. unfold cmp_le in *. destruct (c a b) eqn:E; [done| |done].
      rewrite (cmp_antisym c a b), E in Hb. done. }
    f_equal. apply IH; [by apply Permutation_cons_inv in Hp|done|].
    intros x y Hx Hy. by apply Heq; right.
Qed.

Lemma sort_by_perm_eq {A} (c : A -> A -> comparison) `{!TotalPreorderCmp c} (l l' : list A) :
  l ≡ₚ l' -> (forall x y, x ∈ l -> y ∈ l -> c x y = Eq -> x = y) -> sort_by c l = sort_by c l'.
Proof.
  intros Hp Heq. apply (sorted_unique c); [by rewrite !sort_by_perm|by apply sort_by_sorted..|].
  intros x y. rewrite !sort_by_elem. apply Heq.
Qed.

(** ** [str] methods, on the bytes of the string *)

Local Open Scope string_scope.
Local Open Scope Z_scope.

(** [split_once(c)]: around the first occurrence. *)
Fixpoint split_once (c : ascii) (s : string) : option (string * string) :=
  match s with
  | "" => None
  | String a s =>
      if decide (a = c) then Some ("", s)
      else prod_map (String a) id <$> split_once c s
  end.

(** [rsplit_once(c)]: around the last occurrence. *)
Fixpoint rsplit_once (c : ascii) (s : string) : option (string * string) :=
  match s with
  | "" => None
  | String a s =>
      match rsplit_once c s with
      | Some (x, y) => Some (String a x, y)
      | None => if decide (a = c) then Some ("", s) else None
      end
  end.

Fixpoint strip_prefix (p s : string) : option string :=
  match p, s with
  | "", _ => Some s
  | String a p, String b s => if decide (a = b) then strip_prefix p s else None
  | String _ _, "" => None
  end.

Fixpoint str_In (c : ascii) (s : string) : Prop :=
  match s with "" => False | String a s => a = c \/ str_In c s end.

Lemma app_empty s : "" +:+ s = s.
Proof. done. Qed.
Lemma app_String a s t : String a s +:+ t = String a (s +:+ t).
Proof. done. Qed.
Lemma app_assoc_str s t u : (s +:+ t) +:+ u = s +:+ (t +:+ u).
Proof. induction s as [|a s IH]; [done|]. by rewrite !app_String, IH. Qed.
Lemma app_empty_r s : s +:+ "" = s.
Proof. induction s as [|a s IH]; [done|]. by rewrite app_String, IH. Qed.
#[export] Hint Rewrite app_empty app_String app_assoc_str app_empty_r : platform.
Ltac str_simpl := autorewrite with platform in *; cbn [split_once rsplit_once strip_prefix str_In
  String.length] in *.

Lemma split_once_app c x y : ~ str_In c x -> split_once c (x +:+ String c y) = Some (x, y).
Proof.
  induction x as [|a x IH]; intros Hn; str_simpl.
  - rewrite decide_True by done. done.
  - rewrite decide_False by tauto. rewrite IH by tauto. done.
Qed.

Lemma rsplit_once_None c x : ~ str_In c x -> rsplit_once c x = None.
Proof.
  induction x as [|a x IH]; intros Hn; [done|]. cbn in *.
  rewrite IH by tauto. by rewrite decide_False by tauto.
Qed.

Lemma rsplit_once_app c x y : ~ str_In c y -> rsplit_once c (x +:+ String c y) = Some (x, y).
Proof.
  intros Hn. induction x as [|a x IH]; str_simpl.
  - rewrite rsplit_once_None by done. by rewrite decide_True by done.
  - by rewrite IH.
Qed.

Lemma str_length_app x y : String.length (x +:+ y) = (String.length x + String.length y)%nat.
Proof. induction x as [|a x IH]; [done|]. rewrite app_String. cbn. by rewrite IH. Qed.
Lemma strip_prefix_app p s : strip_prefix p (p +:+ s) = Some s.
Proof.
  induction p as [|a p IH]; str_simpl; [by destruct s|]. by rewrite decide_True by done.
Qed.
Lemma strip_prefix_Some p s r : strip_prefix p s = Some r -> s = p +:+ r.
Proof.
  revert s. induction p as [|a p IH]; intros s; cbn; [by destruct s; intros [= <-]|].
  destruct s as [|b s]; [done|]. case_decide; [|done]. subst. intros Hr%IH. by rewrite app_String, <- Hr.
Qed.

(** ** Decimal formatting and parsing *)

Definition digit_char (d : Z) : ascii := ascii_of_N (Z.to_N (48 + d)).
Definition char_digit (a : ascii) : option Z :=
  let v := Z.of_N (N_of_ascii a) - 48 in
  if (0 <=? v) && (v <? 10) then Some v else None.

(** [n.to_string()]: digits are produced from the least significant one; 20
    digits hold every [u64]. *)
Fixpoint decimal_go (fuel : nat) (n : Z) (acc : string) : string :=
  match fuel with
  | O => acc
  | S fuel =>
      let acc := String (digit_char (n mod 10)) acc in
      if n <? 10 then acc else decimal_go fuel (n / 10) acc
  end.
Definition decimal (n : Z) : string := decimal_go 20 n "".

(** The digit loop of [FromStr] for unsigned integers: an overflowing step fails. *)
Fixpoint parse_digits (max acc : Z) (s : string) : option Z :=
  match s with
  | "" => Some acc
  | String a s =>
      d ← char_digit a;
      let acc := acc * 10 + d in
      if acc <=? max then parse_digits max acc s else None
  end.

(** [str::parse::<uN>()]: a leading plus sign is accepted before a digit. *)
Definition parse_uint (max : Z) (s : string) : option Z :=
  match s with
  | "" => None
  | String a rest =>
      if decide (a = "+"%char)
      then match rest with "" => None | _ => parse_digits max 0 rest end
      else parse_digits max 0 s
  end.

Lemma char_digit_char d : 0 <= d < 10 -> char_digit (digit_char d) = Some d.
Proof.
  intros Hd. unfold char_digit, digit_char. rewrite N_ascii_embedding by lia.
  rewrite Z2N.id by lia. replace (48 + d - 48) with d by lia.
  by rewrite (proj2 (Z.leb_le _ _)), (proj2 (Z.ltb_lt _ _)) by lia.
Qed.

Lemma decimal_go_spec fuel n acc :
  0 <= n < 10 ^ Z.of_nat fuel -> (0 < fuel)%nat ->
  exists ds, decimal_go fuel n acc = ds +:+ acc /\ ds <> "" /\
    (forall c, str_In c ds -> exists d, 0 <= d < 10 /\ c = digit_char d) /\
    forall max v s, 0 <= v -> v * 10 ^ Z.of_nat (String.length ds) + n <= max ->
      parse_digits max v (ds +:+ s) = parse_digits max (v * 10 ^ Z.of_nat (String.length ds) + n) s.
Proof.
  revert n acc. induction fuel as [|fuel IH]; intros n acc Hn Hf; [lia|]. cbn [decimal_go].
  pose proof (Z.mod_pos_bound n 10 ltac:(lia)) as Hm. pose proof (Z.div_mod n 10 ltac:(lia)) as Hdm.
  destruct (Z.ltb_spec n 10) as [Hlt|Hge].
  - exists (String (digit_char (n mod 10)) ""). split_and!; [done|done| |].
    + intros c [<-|[]]. eauto.
    + intros max v s Hv Hmax. str_simpl. cbn [parse_digits].
      change (10 ^ Z.of_nat 1) with 10 in *. rewrite char_digit_char by done. cbn.
      rewrite Z.mod_small by lia. by rewrite (proj2 (Z.leb_le _ _)) by lia.
  - rewrite Nat2Z.inj_succ, Z.pow_succ_r in Hn by lia.
    assert (0 < fuel)%nat by (destruct fuel; [cbn in Hn; lia|lia]).
    destruct (IH (n / 10) (String (digit_char (n mod 10)) acc)) as (ds & Heq & Hne & Hds & Hp); [lia|done|].
    exists (ds +:+ String (digit_char (n mod 10)) ""). split_and!.
    + rewrite Heq, app_assoc_str. done.
    + by destruct ds.
    + intros c Hc. assert (Hc' : str_In c ds \/ c = digit_char (n mod 10)).
      { clear -Hc. induction ds as [|b ds IH]; str_simpl; [|tauto]. destruct Hc; [by right|done]. }
      destruct Hc' as [Hc'| ->]; [by apply Hds|eauto].
    + intros max v s Hv Hmax.
      assert (Hlen : Z.of_nat (String.length (ds +:+ String (digit_char (n mod 10)) "")) =
                Z.succ (Z.of_nat (String.length ds))).
      { clear. induction ds as [|b ds IH]; str_simpl; lia. }
      rewrite Hlen, Z.pow_succ_r in * by lia.
      rewrite app_assoc_str. rewrite Hp by lia.
      str_simpl. cbn [parse_digits]. rewrite char_digit_char by done. cbn.
      rewrite (proj2 (Z.leb_le _ _)) by lia. f_equal. lia.
Qed.

(** Formatting and parsing are inverse, for every width up to 64 bits. *)
Lemma parse_decimal max n : 0 <= n <= max -> max <= u64_max -> parse_uint max (decimal n) = Some n.
Proof.
  intros Hn Hmax. unfold u64_max in Hmax.
  destruct (decimal_go_spec 20 n "") as (ds & Heq & Hne & Hds & Hp); [cbn; lia|lia|].
  unfold decimal. rewrite Heq. rewrite app_empty_r in *.
  specialize (Hp max 0 ""). rewrite app_empty_r in Hp.
  destruct ds as [|a ds]; [done|]. unfold parse_uint. rewrite decide_False.
  - rewrite Hp by lia. cbn [parse_digits]. by rewrite Z.mul_0_l.
  - destruct (Hds a) as (d & Hd & ->); [by left|]. intros Hplus.
    apply (f_equal char_digit) in Hplus. rewrite char_digit_char in Hplus by done. by vm_compute in Hplus.
Qed.

(** A formatted number holds digits only. *)
Lemma decimal_no_char n c : 0 <= n <= u64_max -> char_digit c = None -> ~ str_In c (decimal n).
Proof.
  intros Hn Hc Hin. unfold u64_max in Hn.
  destruct (decimal_go_spec 20 n "") as (ds & Heq & _ & Hds & _); [cbn; lia|lia|].
  unfold decimal in Hin. rewrite Heq, app_empty_r in Hin.
  apply Hds in Hin as (d & Hd & ->). by rewrite char_digit_char in Hc.
Qed.

Lemma decimal_inj n n' : 0 <= n <= u64_max -> 0 <= n' <= u64_max -> decimal n = decimal n' -> n = n'.
Proof.
  intros Hn Hn' He. apply (f_equal (parse_uint u64_max)) in He.
  rewrite !parse_decimal in He by (done || lia). congruence.
Qed.

#[global] Arguments decimal : simpl never.
#[global] Arguments parse_uint : simpl never.

(** Evaluate the comparisons of string literals in the goal. *)
Ltac is_literal s :=
  lazymatch s with
  | EmptyString => idtac
  | String (Ascii _ _ _ _ _ _ _ _) ?s => is_literal s
  end.
Ltac decide_literals :=
  repeat match goal with
  | |- context [bool_decide (?a = ?b)] =>
      is_literal a; is_literal b;
      let r := eval vm_compute in (bool_decide (a = b)) in
      lazymatch r with
      | true => change (bool_decide (a = b)) with true
      | false => change (bool_decide (a = b)) with false
      end
  end; cbv beta iota.
