(* ===== verification/Types.v ===== *)
(** * Domain types of the render service (crates/biei-core/src/types.rs)

    Tasks, outcomes, the dispatcher's view of a node, authorization namespace
    sets, and the key-value encoding workers are gossiped in.  Floating-point
    fields are carried as their bit patterns, instants and durations as
    nanoseconds. *)

From S2P Require Import Prelude StdModel.

Local Open Scope string_scope.
Local Open Scope Z_scope.

(** ** Bounded credentials and namespace sets *)

Definition MAX_AUTHORIZATION_NAMESPACES : Z := 1024.
Definition MAX_AUTHORIZATION_NAMESPACE_BYTES : Z := 256.
Definition MAX_PROVIDER_BEARER_TOKEN_BYTES : Z := 4096.

Fixpoint str_existsb (p : ascii -> bool) (s : string) : bool :=
  match s with "" => false | String a s => p a || str_existsb p s end.

Definition byte_of (a : ascii) : Z := Z.of_N (N_of_ascii a).

(** [u8::is_ascii_control] and [u8::is_ascii_whitespace]. *)
Definition is_ascii_control (a : ascii) : bool := (byte_of a <? 32) || (byte_of a =? 127).
Definition is_ascii_whitespace (a : ascii) : bool :=
  existsb (Z.eqb (byte_of a)) [32; 9; 10; 12; 13].

Definition str_len (s : string) : Z := Z.of_nat (String.length s).

Inductive TypesError :=
  | TokenInvalid
  | NamespaceSetSize
  | NamespaceInvalid
  | NamespaceNotCanonical.

Record ProviderBearerToken := { token : string }.

Definition ProviderBearerToken_try_new (value : string) : Res TypesError ProviderBearerToken :=
  if bool_decide (value = "") || (str_len value >? MAX_PROVIDER_BEARER_TOKEN_BYTES)
     || str_existsb (fun b => is_ascii_control b || is_ascii_whitespace b) value
  then Err TokenInvalid
  else Ok {| token := value |}.

(** [chars().any(char::is_control)] on UTF-8 bytes: U+0000..U+001F, U+007F, and
    U+0080..U+009F, which are encoded as C2 80 .. C2 9F. *)
Fixpoint has_control (s : string) : bool :=
  match s with
  | "" => false
  | String a s =>
      is_ascii_control a
      || ((byte_of a =? 0xC2)
          && match s with String b _ => (0x80 <=? byte_of b) && (byte_of b <=? 0x9F) | "" => false end)
      || has_control s
  end.

Record NamespaceSet := { namespaces : list string }.

#[export] Instance NamespaceSet_eq_dec : EqDecision NamespaceSet.
Proof. solve_decision. Defined.

Definition namespace_count_bad (l : list string) : bool :=
  match l with [] => true | _ => Z.of_nat (length l) >? MAX_AUTHORIZATION_NAMESPACES end.
Definition namespace_bad (s : string) : bool :=
  bool_decide (s = "") || (str_len s >? MAX_AUTHORIZATION_NAMESPACE_BYTES) || has_control s.

Definition NamespaceSet_try_new (l : list string) : Res TypesError NamespaceSet :=
  if namespace_count_bad l then Err NamespaceSetSize
  else if existsb namespace_bad l then Err NamespaceInvalid
  else
    let l := sort_dedup l in
    match binary_search_by (fun value => String.compare value "*") l with
    | Found _ => Ok {| namespaces := ["*"] |}
    | Insert _ => Ok {| namespaces := l |}
    end.

(** [windows(2).any(|pair| pair[0] >= pair[1])]. *)
Fixpoint not_ascending (l : list string) : bool :=
  match l with
  | x :: ((y :: _) as l') =>
      match String.compare x y with Lt => not_ascending l' | _ => true end
  | _ => false
  end.

Definition NamespaceSet_try_from_shared (l : list string) : Res TypesError NamespaceSet :=
  if namespace_count_bad l then Err NamespaceSetSize
  else if existsb namespace_bad l then Err NamespaceInvalid
  else if not_ascending l
          || (existsb (fun n => bool_decide (n = "*")) l && negb (bool_decide (l = ["*"])))
       then Err NamespaceNotCanonical
       else Ok {| namespaces := l |}.

(** The caller grant [self] satisfies every required namespace. *)
Definition allows (self required : NamespaceSet) : bool :=
  if match namespaces self with n :: _ => bool_decide (n = "*") | [] => false end then true
  else forallb (fun n => negb (bool_decide (n = "*")) && slice_contains_sorted (namespaces self) n)
         (namespaces required).

Record RenderAuthorization := {
  readable_namespaces : NamespaceSet;
  cache_partition : list Z;
  provider_bearer_token : ProviderBearerToken;
}.

(** ** Style identity *)

Abbreviation NodeId := string (only parsing).
Abbreviation StyleId := string (only parsing).
Abbreviation WorkerId := Z (only parsing).
Abbreviation SourceHash := Z (only parsing).

(** [StyleId::namespace]: the first [/]-separated segment. *)
Definition style_namespace (id : StyleId) : string :=
  match split_once "/" id with Some (ns, _) => ns | None => id end.

Record StyleRevision := { sr_id : StyleId; sr_version : Z }.
#[export] Instance StyleRevision_eq_dec : EqDecision StyleRevision.
Proof. solve_decision. Defined.

Definition StyleRevision_to_gossip_value (r : StyleRevision) : string :=
  sr_id r +:+ "@" +:+ decimal (sr_version r).

Definition StyleRevision_parse_gossip_value (s : string) : option StyleRevision :=
  '(id, v) ← rsplit_once "@" s;
  if bool_decide (id = "") then None
  else v ← parse_uint u64_max v; Some {| sr_id := id; sr_version := v |}.

Inductive RenderMode := RmStatic | RmTile.
#[export] Instance RenderMode_eq_dec : EqDecision RenderMode.
Proof. solve_decision. Defined.

Definition RenderMode_as_gossip_value (m : RenderMode) : string :=
  match m with RmStatic => "static" | RmTile => "tile" end.
Definition RenderMode_parse_gossip_value (s : string) : option RenderMode :=
  if bool_decide (s = "static") then Some RmStatic
  else if bool_decide (s = "tile") then Some RmTile else None.

Inductive Scale := X1 | X2.
#[export] Instance Scale_eq_dec : EqDecision Scale.
Proof. solve_decision. Defined.

Definition Scale_as_gossip_value (s : Scale) : string :=
  match s with X1 => "1x" | X2 => "2x" end.
Definition Scale_parse_gossip_value (s : string) : option Scale :=
  if bool_decide (s = "1x") then Some X1
  else if bool_decide (s = "2x") then Some X2 else None.

(** [PixelRatio(f32)] by its bits.  Binary32 values that are not NaN are ordered
    as sign-magnitude integers. *)
Record PixelRatio := { ratio_bits : Z }.

Definition f32_is_nan (b : Z) : bool := Z.land b 0x7fffffff >? 0x7f800000.
Definition f32_order (b : Z) : Z := if b <? 0x80000000 then b else 0x80000000 - b.
Definition f32_ge (a b : Z) : bool :=
  negb (f32_is_nan a) && negb (f32_is_nan b) && (f32_order b <=? f32_order a).

Definition F32_1_0 : Z := 0x3f800000.
Definition F32_1_5 : Z := 0x3fc00000.
Definition F32_2_0 : Z := 0x40000000.

Definition to_scale (p : PixelRatio) : Scale := if f32_ge (ratio_bits p) F32_1_5 then X2 else X1.
Definition PixelRatio_from (s : Scale) : PixelRatio :=
  {| ratio_bits := match s with X1 => F32_1_0 | X2 => F32_2_0 end |}.

Inductive ImageFormat := Png | Webp | Jpeg.
#[export] Instance ImageFormat_eq_dec : EqDecision ImageFormat.
Proof. solve_decision. Defined.

Inductive CachePolicy := Cacheable | OneShot.
#[export] Instance CachePolicy_eq_dec : EqDecision CachePolicy.
Proof. solve_decision. Defined.

Record SourceRef := { src_hash : SourceHash; src_policy : CachePolicy }.

Record WorkerProfile := { wp_style : StyleRevision; wp_render_mode : RenderMode; wp_scale : Scale }.
#[export] Instance WorkerProfile_eq_dec : EqDecision WorkerProfile.
Proof. solve_decision. Defined.

(** ** Render requests *)

Inductive Positioning :=
  | Center (lon lat zoom : Z) (bearing pitch : Z)
  | Bbox (min_lon min_lat max_lon max_lat : Z)
  | Auto.

Record Padding := { pad_top : Z; pad_right : Z; pad_bottom : Z; pad_left : Z }.
Definition Padding_all (value : Z) : Padding :=
  {| pad_top := value; pad_right := value; pad_bottom := value; pad_left := value |}.

Record AddLayerSource := { als_tileset_id : string; als_json : string }.
Record AddLayer := { al_json : string; al_hash : Z; al_source : option AddLayerSource }.
Record LngLat := { ll_lon : Z; ll_lat : Z }.
Record PathOverlay := {
  po_stroke_width : option Z; po_stroke_color : option string; po_stroke_opacity : option Z;
  po_fill_color : option string; po_fill_opacity : option Z; po_coordinates : list LngLat }.
Inductive PinSize := Small | Medium | Large.
Record PinOverlay := {
  pin_size : PinSize; pin_label : option string; pin_color : string; pin_coordinate : LngLat }.

Section Request.
(** [serde_json::Value], the parsed document of a GeoJSON overlay. *)
Context {Json : Type}.

Record GeoJsonOverlay := { gj_feature_collection : Json }.

Inductive StaticOverlay :=
  | OverlayPath (p : PathOverlay)
  | OverlayGeoJson (g : GeoJsonOverlay)
  | OverlayPin (p : PinOverlay).

Inductive RenderRequest :=
  | ReqTile (z x y tile_size : Z)
  | ReqStaticImage (positioning : Positioning) (width height : Z)
      (overlays : list StaticOverlay) (before_layer : option string) (padding : Padding)
      (addlayer : option AddLayer).

Definition render_mode (r : RenderRequest) : RenderMode :=
  match r with ReqTile _ _ _ _ => RmTile | ReqStaticImage _ _ _ _ _ _ _ => RmStatic end.

Definition has_addlayer_source (r : RenderRequest) : bool :=
  match r with
  | ReqStaticImage _ _ _ _ _ _ (Some {| al_source := Some _ |}) => true
  | _ => false
  end.

(** ** Tasks *)

Record TaskSpec := {
  ts_id : Z; ts_request_id : string; ts_style : StyleRevision; ts_source : option SourceRef;
  ts_request : RenderRequest; ts_pixel_ratio : PixelRatio; ts_output_format : ImageFormat }.

Record InternalTask := {
  t_id : Z;
  t_request_id : string;
  t_authorization : option RenderAuthorization;
  t_style : StyleRevision;
  t_source : option SourceRef;
  t_request : RenderRequest;
  t_pixel_ratio : PixelRatio;
  t_output_format : ImageFormat;
  t_arrived_at : Z;
  t_deadline : Z;
  t_forwarding_hops : Z;
}.

Definition worker_profile (t : InternalTask) : WorkerProfile :=
  {| wp_style := t_style t; wp_render_mode := render_mode (t_request t);
     wp_scale := to_scale (t_pixel_ratio t) |}.

Definition has_source (t : InternalTask) : bool :=
  match t_source t with Some _ => true | None => has_addlayer_source (t_request t) end.
End Request.
Arguments GeoJsonOverlay : clear implicits.
Arguments StaticOverlay : clear implicits.
Arguments RenderRequest : clear implicits.
Arguments TaskSpec : clear implicits.
Arguments InternalTask : clear implicits.

(** ** Time

    An [Instant] is a 64-bit second count with nanoseconds, a [Duration] an
    unsigned 64-bit second count with nanoseconds; both are held in
    nanoseconds. *)
Definition nanos_per_sec : Z := 1000000000.
Definition from_secs (secs : Z) : Z := secs * nanos_per_sec.
Definition as_secs (d : Z) : Z := d / nanos_per_sec.
Definition from_millis (ms : Z) : Z := ms * 1000000.
Definition DURATION_MAX : Z := (u64_max + 1) * nanos_per_sec - 1.
Definition INSTANT_MAX : Z := 2 ^ 63 * nanos_per_sec - 1.

(** [Instant::checked_add(Duration)]; the operator [+] panics instead. *)
Definition instant_checked_add (t d : Z) : option Z :=
  if t + d <=? INSTANT_MAX then Some (t + d) else None.
(** [Duration]'s [+] panics on overflow. *)
Definition duration_add {E} (a b : Z) : Res E Z :=
  if a + b <=? DURATION_MAX then Ok (a + b) else Panic.
Definition duration_saturating_add (a b : Z) : Z := Z.min DURATION_MAX (a + b).
Definition duration_checked_mul (a n : Z) : option Z :=
  if a * n <=? DURATION_MAX then Some (a * n) else None.

Definition TaskSpec_start {Json E} (self : TaskSpec Json) (arrived_at budget : Z)
    : Res E (InternalTask Json) :=
  match instant_checked_add arrived_at budget with
  | None => Panic
  | Some deadline =>
      Ok {| t_id := ts_id self; t_request_id := ts_request_id self; t_authorization := None;
            t_style := ts_style self; t_source := ts_source self; t_request := ts_request self;
            t_pixel_ratio := ts_pixel_ratio self; t_output_format := ts_output_format self;
            t_arrived_at := arrived_at; t_deadline := deadline; t_forwarding_hops := 0 |}
  end.

(** ** Outcomes *)

Inductive RouteTier :=
  | RenderCacheHit | Tier1WarmTracking | Tier2HrwBl | Tier3DrainSwap | Tier4Overflow.

Inductive DeadlineStage :=
  | StAcquireRenderPermit | StStyleSwap | StEnsureSource | StAcquireNativeRenderPermit | StRender.

Inductive FailureKind :=
  | RenderTimeout | RendererDead | StyleUnavailable | FkStyleNotReady | SourceUnavailable
  | PreparationTimeout | OtherFailure.
#[export] Instance FailureKind_eq_dec : EqDecision FailureKind.
Proof. solve_decision. Defined.

Inductive RendererError :=
  | StyleLoadFailed (style_id : StyleId) (source : string)
  | SetupFailed (style_id : StyleId) (source : string)
  | StyleNotReady (style_id : StyleId) (version : Z)
  | SourceFetchFailed (hash : SourceHash) (source : string)
  | RenderFailed (source : string)
  | Timeout
  | ActorDead.

Definition from_renderer_error (e : RendererError) : FailureKind :=
  match e with
  | Timeout => RenderTimeout
  | ActorDead => RendererDead
  | StyleLoadFailed _ _ => StyleUnavailable
  | SetupFailed _ _ => OtherFailure
  | StyleNotReady _ _ => FkStyleNotReady
  | SourceFetchFailed _ _ => SourceUnavailable
  | RenderFailed _ => OtherFailure
  end.

Inductive ProfileContent := ContentStyle (id : StyleId) | ContentSource (hash : SourceHash).

Inductive ProfilePreparationError :=
  | PpeStyleUnavailable (style_id : StyleId) (source : string)
  | PpeSourceUnavailable (hash : SourceHash) (source : string)
  | CallerDeadlineExceeded
  | InfrastructureFailure (source : string)
  | InvalidPreparedContent (content : ProfileContent) (source : string).

Definition into_source (e : ProfilePreparationError) (hash : SourceHash)
    : ProfilePreparationError :=
  match e with
  | PpeStyleUnavailable _ source => PpeSourceUnavailable hash source
  | InvalidPreparedContent _ source => InvalidPreparedContent (ContentSource hash) source
  | other => other
  end.

Definition failure_kind (e : ProfilePreparationError) : FailureKind :=
  match e with
  | PpeStyleUnavailable _ _ => StyleUnavailable
  | PpeSourceUnavailable _ _ => SourceUnavailable
  | CallerDeadlineExceeded => PreparationTimeout
  | InfrastructureFailure _ => OtherFailure
  | InvalidPreparedContent (ContentStyle _) _ => StyleUnavailable
  | InvalidPreparedContent (ContentSource _) _ => SourceUnavailable
  end.

Inductive RejectionReason :=
  | QueueFull | NoCapacity | RendererDegraded | DrainTooSlow | UnknownStyle
  | HopLimitExceeded | ForwardFailed | DeadlineTooClose | DeadlineExceeded.
#[export] Instance RejectionReason_eq_dec : EqDecision RejectionReason.
Proof. solve_decision. Defined.

Definition is_retryable_at_forward (r : RejectionReason) : bool :=
  match r with
  | QueueFull | NoCapacity | RendererDegraded | DrainTooSlow => true
  | UnknownStyle | HopLimitExceeded | ForwardFailed | DeadlineTooClose | DeadlineExceeded => false
  end.

Record RenderOutput := { out_bytes : list Z; out_format : ImageFormat }.

Record RenderObservation := {
  ob_render_mode : RenderMode; ob_scale : Scale; ob_output_format : ImageFormat;
  ob_width : Z; ob_height : Z;
  ob_style_setup_duration : option Z; ob_source_setup_duration : option Z }.

Definition RenderObservation_from_task {Json} (task : InternalTask Json)
    (style_setup_duration source_setup_duration : option Z) : RenderObservation :=
  let '(width, height) := match t_request task with
    | ReqTile _ _ _ tile_size => (tile_size, tile_size)
    | ReqStaticImage _ width height _ _ _ _ => (width, height)
    end in
  {| ob_render_mode := render_mode (t_request task);
     ob_scale := to_scale (t_pixel_ratio task); ob_output_format := t_output_format task;
     ob_width := width; ob_height := height;
     ob_style_setup_duration := style_setup_duration;
     ob_source_setup_duration := source_setup_duration |}.

Record CompletedInfo := {
  ci_node_id : NodeId;
  ci_worker_id : option WorkerId;
  ci_route_tier : RouteTier;
  ci_started_at : Z;
  ci_native_render_started_at : Z;
  ci_native_render_completed_at : Z;
  ci_completed_at : Z;
  ci_style_swap : bool;
  ci_cold_start : bool;
  ci_source_loaded : bool;
  ci_admitted_at_overflow : bool;
  ci_render_observation : option RenderObservation;
}.

Inductive TaskResult :=
  | Completed (info : CompletedInfo) (output : RenderOutput)
  | Rejected (reason : RejectionReason)
  | Failed (error : string) (kind : FailureKind).

Record TaskOutcome := {
  to_task_id : Z;
  to_request_id : string;
  to_arrived_at : Z;
  to_had_source : bool;
  to_deadline_stage : option DeadlineStage;
  to_result : TaskResult;
}.

Record ForwardCandidate := { fc_node_id : NodeId; fc_drain_worker : option WorkerId }.

Inductive Decision :=
  | Local (route_tier : RouteTier) (worker_hint : option WorkerId)
      (fallback_candidates : list ForwardCandidate)
  | Forward (route_tier : RouteTier) (candidates : list ForwardCandidate)
  | Reject (reason : RejectionReason).

(** ** Gossiped node state *)

Definition RENDER_ADMISSION_GOSSIP_KEY : string := "renderer.accepting".

Record WorkerView := {
  wv_id : WorkerId; wv_loaded_profile : option WorkerProfile; wv_queue_depth : Z }.
Record NodeStateView := {
  ns_id : NodeId; ns_accepts_new_renders : bool; ns_workers : list WorkerView }.

(** The local struct [Builder] of [from_kvs]. *)
Record Builder := {
  b_loaded_revision : option (option StyleRevision);
  b_render_mode : option RenderMode;
  b_scale : option Scale;
  b_queue_depth : option Z;
}.
Definition Builder_default : Builder :=
  {| b_loaded_revision := None; b_render_mode := None; b_scale := None; b_queue_depth := None |}.

(** The [match field] of [from_kvs]. *)
Definition Builder_update (field value : string) (b : Builder) : Builder :=
  let set_revision r := {| b_loaded_revision := r; b_render_mode := b_render_mode b;
                           b_scale := b_scale b; b_queue_depth := b_queue_depth b |} in
  if bool_decide (field = "style") then
    if bool_decide (value = "") then set_revision (Some None)
    else match StyleRevision_parse_gossip_value value with
         | Some rev => set_revision (Some (Some rev))
         | None => b
         end
  else if bool_decide (field = "mode") then
    if bool_decide (value = "") then b
    else {| b_loaded_revision := b_loaded_revision b;
            b_render_mode := RenderMode_parse_gossip_value value;
            b_scale := b_scale b; b_queue_depth := b_queue_depth b |}
  else if bool_decide (field = "scale") then
    if bool_decide (value = "") then b
    else {| b_loaded_revision := b_loaded_revision b; b_render_mode := b_render_mode b;
            b_scale := Scale_parse_gossip_value value; b_queue_depth := b_queue_depth b |}
  else if bool_decide (field = "queue") then
    {| b_loaded_revision := b_loaded_revision b; b_render_mode := b_render_mode b;
       b_scale := b_scale b; b_queue_depth := parse_uint usize_max value |}
  else b.

(** The worker and field a key names. *)
Definition worker_key (key : string) : option (WorkerId * string) :=
  rest ← strip_prefix "worker." key;
  '(wid_s, field) ← split_once "." rest;
  wid ← parse_uint u32_max wid_s;
  Some (wid, field).

(** One round of the [for] loop of [from_kvs]. *)
Definition from_kvs_step (s : bool * BTreeMap Z Builder) (kv : string * string)
    : bool * BTreeMap Z Builder :=
  let '(accepts_new_renders, by_worker) := s in
  let '(key, value) := kv in
  if bool_decide (key = RENDER_ADMISSION_GOSSIP_KEY)
  then (bool_decide (value = "true"), by_worker)
  else match worker_key key with
       | None => (accepts_new_renders, by_worker)
       | Some (wid, field) =>
           (accepts_new_renders,
            bt_alter (fun b => Builder_update field value (default Builder_default b)) wid by_worker)
       end.

(** The [filter_map] of [from_kvs]: a worker with a missing key is skipped. *)
Definition build_worker (e : Z * Builder) : option WorkerView :=
  let '(wid, b) := e in
  rev ← b_loaded_revision b;
  loaded_profile ←
    match rev with
    | None => Some None
    | Some style =>
        render_mode ← b_render_mode b; scale ← b_scale b;
        Some (Some {| wp_style := style; wp_render_mode := render_mode; wp_scale := scale |})
    end;
  queue_depth ← b_queue_depth b;
  Some {| wv_id := wid; wv_loaded_profile := loaded_profile; wv_queue_depth := queue_depth |}.

Definition from_kvs (id : NodeId) (kvs : list (string * string)) : NodeStateView :=
  let '(accepts_new_renders, by_worker) := foldl from_kvs_step (false, []) kvs in
  {| ns_id := id; ns_accepts_new_renders := accepts_new_renders;
     ns_workers := omap build_worker by_worker |}.

Definition has_capacity (n : NodeStateView) (bl_capacity_per_worker : Z) : bool :=
  ns_accepts_new_renders n
  && existsb (fun w => wv_queue_depth w <? bl_capacity_per_worker) (ns_workers n).

Definition has_admission_capacity (n : NodeStateView) (queue_capacity_per_worker : Z) : bool :=
  ns_accepts_new_renders n
  && existsb (fun w => wv_queue_depth w <? queue_capacity_per_worker) (ns_workers n).

Abbreviation NodeKvs := (BTreeMap string string).

Definition encode_worker_kvs (out : NodeKvs) (worker_id : WorkerId)
    (loaded_profile : option WorkerProfile) (queue_depth : Z) : NodeKvs :=
  let '(style_value, mode_value, scale_value) :=
    match loaded_profile with
    | Some profile => (StyleRevision_to_gossip_value (wp_style profile),
                       RenderMode_as_gossip_value (wp_render_mode profile),
                       Scale_as_gossip_value (wp_scale profile))
    | None => ("", "", "")
    end in
  let key field := "worker." +:+ decimal worker_id +:+ "." +:+ field in
  let out := bt_insert (key "style") style_value out in
  let out := bt_insert (key "mode") mode_value out in
  let out := bt_insert (key "scale") scale_value out in
  bt_insert (key "queue") (decimal queue_depth) out.

(** [states] is a [HashMap]: its entries are held in its (arbitrary) iteration
    order. *)
Record ClusterView := {
  cv_members : list NodeId; cv_states : list (NodeId * NodeStateView); cv_generated_at : Z }.

(** ** Counters per profile *)

(** [HashMap<WorkerProfile, usize>] built with [entry(..).or_insert(0) += 1]. *)
Fixpoint count_inc (p : WorkerProfile) (counts : list (WorkerProfile * Z)) : list (WorkerProfile * Z) :=
  match counts with
  | [] => [(p, 1)]
  | (q, n) :: counts => if decide (p = q) then (q, n + 1) :: counts else (q, n) :: count_inc p counts
  end.
Fixpoint count_get (p : WorkerProfile) (counts : list (WorkerProfile * Z)) : Z :=
  match counts with
  | [] => 0
  | (q, n) :: counts => if decide (p = q) then n else count_get p counts
  end.

Lemma count_get_inc p q counts :
  count_get p (count_inc q counts) = count_get p counts + (if decide (p = q) then 1 else 0).
Proof.
  induction counts as [|[r n] counts IH]; cbn [count_inc count_get].
  - case_decide; lia.
  - destruct (decide (q = r)) as [->|Hqr]; cbn [count_get].
    + case_decide; lia.
    + rewrite IH. repeat case_decide; subst; (done || lia).
Qed.

(** ** The gossip encoding round-trips *)

Definition style_wf (r : StyleRevision) : Prop := sr_id r <> "" /\ is_u64 (sr_version r).
Definition profile_wf (p : option WorkerProfile) : Prop :=
  match p with Some p => style_wf (wp_style p) | None => True end.
Definition worker_view_wf (w : WorkerView) : Prop :=
  is_u32 (wv_id w) /\ is_usize (wv_queue_depth w) /\ profile_wf (wv_loaded_profile w).

Lemma StyleRevision_gossip_roundtrip r :
  style_wf r -> StyleRevision_parse_gossip_value (StyleRevision_to_gossip_value r) = Some r.
Proof.
  intros [Hid Hv]. unfold is_u in Hv. unfold StyleRevision_parse_gossip_value, StyleRevision_to_gossip_value.
  change ("@" +:+ decimal (sr_version r)) with (String "@" (decimal (sr_version r))).
  rewrite rsplit_once_app by (apply decimal_no_char; [lia|done]). cbn.
  rewrite bool_decide_false by done. rewrite parse_decimal by lia. by destruct r.
Qed.

Lemma RenderMode_gossip_roundtrip m :
  RenderMode_parse_gossip_value (RenderMode_as_gossip_value m) = Some m.
Proof. by destruct m. Qed.

Lemma Scale_gossip_roundtrip s : Scale_parse_gossip_value (Scale_as_gossip_value s) = Some s.
Proof. by destruct s. Qed.

(** The key of one field of a worker, and the value it is published with. *)
Definition gossip_key (wid : WorkerId) (field : string) : string :=
  "worker." +:+ decimal wid +:+ "." +:+ field.
Definition gossip_fields : list string := ["style"; "mode"; "scale"; "queue"].
Definition gossip_value (w : WorkerView) (field : string) : string :=
  if bool_decide (field = "style") then
    match wv_loaded_profile w with Some p => StyleRevision_to_gossip_value (wp_style p) | None => "" end
  else if bool_decide (field = "mode") then
    match wv_loaded_profile w with Some p => RenderMode_as_gossip_value (wp_render_mode p) | None => "" end
  else if bool_decide (field = "scale") then
    match wv_loaded_profile w with Some p => Scale_as_gossip_value (wp_scale p) | None => "" end
  else decimal (wv_queue_depth w).

Lemma worker_key_gossip wid field : is_u32 wid -> worker_key (gossip_key wid field) = Some (wid, field).
Proof.
  intros Hw. unfold is_u, u32_max in Hw. unfold worker_key, gossip_key. rewrite strip_prefix_app. cbn.
  change ("." +:+ field) with (String "." field).
  rewrite split_once_app by (apply decimal_no_char; [unfold u64_max; lia|done]). cbn.
  rewrite parse_decimal by (unfold u32_max, u64_max; lia). done.
Qed.

Lemma gossip_key_inj wid field wid' field' :
  is_u32 wid -> is_u32 wid' -> gossip_key wid field = gossip_key wid' field' ->
  wid = wid' /\ field = field'.
Proof.
  intros H H' He. apply (f_equal worker_key) in He. rewrite !worker_key_gossip in He by done.
  by injection He as -> ->.
Qed.

Lemma gossip_key_not_admission wid field : is_u32 wid -> gossip_key wid field <> RENDER_ADMISSION_GOSSIP_KEY.
Proof.
  intros H He. apply (f_equal worker_key) in He. rewrite worker_key_gossip in He by done.
  by vm_compute in He.
Qed.

Definition encode_workers (ws : list WorkerView) : NodeKvs :=
  foldl (fun out w => encode_worker_kvs out (wv_id w) (wv_loaded_profile w) (wv_queue_depth w)) [] ws.

(** What a node publishes: its workers, and whether it admits renders. *)
Definition publish_kvs (accepts : bool) (ws : list WorkerView) : NodeKvs :=
  bt_insert RENDER_ADMISSION_GOSSIP_KEY (if accepts then "true" else "false") (encode_workers ws).

Lemma encode_worker_kvs_alt out w :
  encode_worker_kvs out (wv_id w) (wv_loaded_profile w) (wv_queue_depth w) =
  foldl (fun out field => bt_insert (gossip_key (wv_id w) field) (gossip_value w field) out)
    out gossip_fields.
Proof. unfold encode_worker_kvs, gossip_value. by destruct (wv_loaded_profile w). Qed.

Lemma gossip_fields_elem f :
  f ∈ gossip_fields <-> f = "style" \/ f = "mode" \/ f = "scale" \/ f = "queue".
Proof. unfold gossip_fields. rewrite !elem_of_cons, elem_of_nil. tauto. Qed.

Lemma encode_worker_kvs_elem out w k v :
  bt_wf out -> is_u32 (wv_id w) ->
  let out' := encode_worker_kvs out (wv_id w) (wv_loaded_profile w) (wv_queue_depth w) in
  bt_wf out' /\
  ((k, v) ∈ out' <->
   (exists f, f ∈ gossip_fields /\ k = gossip_key (wv_id w) f /\ v = gossip_value w f) \/
   ((forall f, f ∈ gossip_fields -> k <> gossip_key (wv_id w) f) /\ (k, v) ∈ out)).
Proof.
  intros Hout Hid. rewrite encode_worker_kvs_alt. simpl.
  assert (Hne : forall f f', f <> f' -> gossip_key (wv_id w) f <> gossip_key (wv_id w) f').
  { intros f f' Hff He. by apply gossip_key_inj in He as [_ ?]. }
  assert (Hwf : forall k v (m : NodeKvs), bt_wf m -> bt_wf (bt_insert k v m)).
  { intros. by apply bt_alter_wf. }
  split; [by repeat apply Hwf|].
  rewrite !bt_insert_elem by (by repeat apply Hwf).
  split.
  - intros H. repeat destruct H as [[-> ->]|[? H]].
    all: try (left; eexists; split; [|split; reflexivity]; rewrite gossip_fields_elem; tauto).
    right. split; [|done]. intros f Hf. apply gossip_fields_elem in Hf. by destruct Hf as [->|[->|[->| ->]]].
  - intros [(f & Hf & -> & ->)|[Hf Hin]].
    + apply gossip_fields_elem in Hf. destruct Hf as [->|[->|[->| ->]]].
      * right; split; [by apply Hne|]. right; split; [by apply Hne|]. right; split; [by apply Hne|]. by left.
      * right; split; [by apply Hne|]. right; split; [by apply Hne|]. by left.
      * right; split; [by apply Hne|]. by left.
      * by left.
    + repeat (right; split; [apply Hf, gossip_fields_elem; tauto|]). done.
Qed.

Lemma encode_workers_elem ws :
  StronglySorted klt (wv_id <$> ws) -> Forall worker_view_wf ws ->
  bt_wf (encode_workers ws) /\
  forall k v, (k, v) ∈ encode_workers ws <->
    exists w f, w ∈ ws /\ f ∈ gossip_fields /\ k = gossip_key (wv_id w) f /\ v = gossip_value w f.
Proof.
  unfold encode_workers. induction ws as [|w ws IH] using rev_ind; intros Hs Hwf.
  - split; [constructor|]. intros k v. split; [by intros ?%not_elem_of_nil|].
    by intros (w & f & ?%not_elem_of_nil & _).
  - rewrite fmap_app in Hs. apply StronglySorted_app in Hs as (Hbefore & Hs & _).
    apply Forall_app in Hwf as [Hwf Hw]. apply Forall_singleton in Hw as (Hid & _).
    destruct (IH Hs Hwf) as [Hm Hel]. rewrite foldl_app. cbn [foldl].
    split; [by apply (encode_worker_kvs_elem _ w "" "")|]. intros k v.
    destruct (encode_worker_kvs_elem _ w k v Hm Hid) as [_ ->]. rewrite Hel. split.
    + intros [(f & ? & -> & ->)|(_ & w' & f & ? & ? & -> & ->)].
      * exists w, f. rewrite elem_of_app, list_elem_of_singleton. tauto.
      * exists w', f. rewrite elem_of_app. tauto.
    + intros (w' & f & Hw' & Hf & -> & ->).
      apply elem_of_app in Hw' as [Hw'|Hw'%list_elem_of_singleton]; [right|left; subst; by eexists].
      rewrite Forall_forall in Hwf. specialize (Hwf _ Hw') as (Hid' & _). split.
      * intros f' _ He. apply gossip_key_inj in He as [He _]; [|done..].
        apply (klt_irrefl (wv_id w)). apply Hbefore; [|by apply list_elem_of_singleton].
        rewrite <- He. apply list_elem_of_fmap. by exists w'.
      * by exists w', f.
Qed.

(** A field written by every relevant step to the same value holds that value. *)
Lemma foldl_determined {S A X} (step : S -> A -> S) (pr : S -> X) (x : X) l s :
  Forall (fun a => (forall s, pr (step s a) = pr s) \/ (forall s, pr (step s a) = x)) l ->
  pr s = x \/ Exists (fun a => forall s, pr (step s a) = x) l ->
  pr (foldl step s l) = x.
Proof.
  intros Hl. revert s. induction Hl as [|a l Ha Hl IH]; intros s Hs; simpl.
  - by destruct Hs as [?|?%Exists_nil].
  - apply IH. destruct Hs as [Hs|Hs%Exists_cons].
    + left. destruct Ha as [Ha|Ha]; [by rewrite Ha|apply Ha].
    + destruct Hs as [Hs|Hs]; [left; apply Hs|by right].
Qed.

(** The builder of one worker, from the entries in order. *)
Definition builder_step (wid : WorkerId) (o : option Builder) (kv : string * string) : option Builder :=
  if bool_decide (kv.1 = RENDER_ADMISSION_GOSSIP_KEY) then o
  else match worker_key kv.1 with
       | Some (w, f) => if decide (w = wid) then Some (Builder_update f kv.2 (default Builder_default o)) else o
       | None => o
       end.

Lemma from_kvs_step_builder kv a m :
  bt_wf m ->
  let r := from_kvs_step (a, m) kv in
  bt_wf r.2 /\ forall wid, bt_get wid r.2 = builder_step wid (bt_get wid m) kv.
Proof.
  intros Hm. destruct kv as [k v]. unfold from_kvs_step, builder_step. cbn [fst snd].
  case_bool_decide; [done|]. destruct (worker_key k) as [[w f]|]; [|done]. cbn [fst snd].
  split; [by apply bt_alter_wf|]. intros wid. case_decide as Hw.
  - subst. by rewrite bt_get_alter.
  - by rewrite bt_get_alter_ne by congruence.
Qed.

Lemma from_kvs_fold kvs a m :
  bt_wf m ->
  let r := foldl from_kvs_step (a, m) kvs in
  bt_wf r.2 /\ forall wid, bt_get wid r.2 = foldl (builder_step wid) (bt_get wid m) kvs.
Proof.
  revert a m. induction kvs as [|kv kvs IH]; intros a m Hm; [done|]. cbn [foldl].
  destruct (from_kvs_step_builder kv a m Hm) as [Hm' Hget].
  destruct (from_kvs_step (a, m) kv) as [a' m']. cbn [snd] in *.
  destruct (IH a' m' Hm') as [Hwf Hget']. split; [done|]. intros wid. by rewrite Hget', Hget.
Qed.

Lemma from_kvs_accepts kvs a m :
  (foldl from_kvs_step (a, m) kvs).1 =
  foldl (fun a kv => if bool_decide (kv.1 = RENDER_ADMISSION_GOSSIP_KEY)
                     then bool_decide (kv.2 = "true") else a) a kvs.
Proof.
  revert m a.
  induction kvs as [|[k v] kvs IH]; intros m a; [done|]. cbn [foldl fst snd].
  assert (Hstep : exists m', from_kvs_step (a, m) (k, v) =
    (if bool_decide (k = RENDER_ADMISSION_GOSSIP_KEY) then bool_decide (v = "true") else a, m')).
  { unfold from_kvs_step. case_bool_decide; [eauto|]. destruct (worker_key k) as [[w f]|]; eauto. }
  destruct Hstep as [m' ->]. apply IH.
Qed.

(** The builder a worker's published entries decode to. *)
Definition builder_of (w : WorkerView) : Builder :=
  {| b_loaded_revision := Some (wp_style <$> wv_loaded_profile w);
     b_render_mode := wp_render_mode <$> wv_loaded_profile w;
     b_scale := wp_scale <$> wv_loaded_profile w;
     b_queue_depth := Some (wv_queue_depth w) |}.

Lemma build_worker_of w : build_worker (wv_id w, builder_of w) = Some w.
Proof. by destruct w as [i [[? ? ?]|] q]. Qed.

(** Each published field sets exactly its own component of the builder. *)
Lemma Builder_update_published w f b :
  worker_view_wf w -> f ∈ gossip_fields ->
  let b' := Builder_update f (gossip_value w f) b in
  b_loaded_revision b' = (if bool_decide (f = "style") then b_loaded_revision (builder_of w)
                          else b_loaded_revision b) /\
  b_render_mode b' = (if bool_decide (f = "mode" /\ wv_loaded_profile w <> None)
                      then b_render_mode (builder_of w) else b_render_mode b) /\
  b_scale b' = (if bool_decide (f = "scale" /\ wv_loaded_profile w <> None)
                then b_scale (builder_of w) else b_scale b) /\
  b_queue_depth b' = (if bool_decide (f = "queue") then b_queue_depth (builder_of w)
                      else b_queue_depth b).
Proof.
  intros (_ & Hq & Hp) Hf. apply gossip_fields_elem in Hf.
  assert (Hparse : parse_uint usize_max (decimal (wv_queue_depth w)) = Some (wv_queue_depth w)).
  { apply parse_decimal; [done|unfold usize_max; lia]. }
  destruct w as [i [p|] q]; cbn in *.
  - pose proof (StyleRevision_gossip_roundtrip _ Hp) as Hs.
    assert (StyleRevision_to_gossip_value (wp_style p) <> "") by (intros E; by rewrite E in Hs).
    destruct Hf as [->|[->|[->| ->]]]; unfold Builder_update, gossip_value; cbv zeta;
      cbn [wv_loaded_profile wv_queue_depth wv_id]; decide_literals.
    + rewrite bool_decide_false, Hs by done. done.
    + by destruct (wp_render_mode p).
    + by destruct (wp_scale p).
    + by rewrite Hparse.
  - destruct Hf as [->|[->|[->| ->]]]; unfold Builder_update, gossip_value; decide_literals; cbn; done.
Qed.

Section RoundTrip.
Context (ws : list WorkerView) (Hsorted : StronglySorted klt (wv_id <$> ws)).
Context (Hwf : Forall worker_view_wf ws).

Lemma worker_id_unique w w' : w ∈ ws -> w' ∈ ws -> wv_id w = wv_id w' -> w = w'.
Proof.
  intros [i Hi]%list_elem_of_lookup [j Hj]%list_elem_of_lookup He.
  assert (Hlk : forall k u, ws !! k = Some u -> (wv_id <$> ws) !! k = Some (wv_id u)).
  { intros k u Hu. by rewrite list_lookup_fmap, Hu. }
  destruct (Nat.lt_trichotomy i j) as [Hlt|[->|Hlt]]; [|by simplify_eq|].
  all: exfalso; apply (klt_irrefl (wv_id w)); eapply ascending_lookup; [exact Hsorted|exact Hlt|..].
  all: first [by apply Hlk|by rewrite He; apply Hlk].
Qed.

(** Every entry either leaves the builder of [w] alone or is one of its fields. *)
Lemma builder_step_published w kv :
  w ∈ ws -> kv ∈ encode_workers ws \/ kv.1 = RENDER_ADMISSION_GOSSIP_KEY ->
  (forall o, builder_step (wv_id w) o kv = o) \/
  exists f, f ∈ gossip_fields /\ kv = (gossip_key (wv_id w) f, gossip_value w f) /\
    forall o, builder_step (wv_id w) o kv =
      Some (Builder_update f (gossip_value w f) (default Builder_default o)).
Proof.
  intros Hw Hkv. unfold builder_step.
  destruct Hkv as [Hkv|Hkv]; [|left; intros o; by rewrite bool_decide_true].
  destruct kv as [k v]. destruct (encode_workers_elem ws Hsorted Hwf) as [_ Hel].
  apply Hel in Hkv as (w' & f & Hw' & Hf & -> & ->). cbn [fst snd].
  assert (Hid' : is_u32 (wv_id w')) by (rewrite Forall_forall in Hwf; by apply Hwf).
  rewrite bool_decide_false, worker_key_gossip by (done || by apply gossip_key_not_admission).
  case_decide as He; [|by left].
  assert (w' = w) as -> by (by apply worker_id_unique). right. exists f. done.
Qed.

(** A projection of the builder that some published fields set to [x] and no
    other published field changes. *)
Lemma foldl_builder_field {X} (pr : option Builder -> X) (x : X) (sets : string -> bool) w kvs :
  w ∈ ws -> (forall kv, kv ∈ encode_workers ws -> kv ∈ kvs) ->
  (forall kv, kv ∈ kvs -> kv ∈ encode_workers ws \/ kv.1 = RENDER_ADMISSION_GOSSIP_KEY) ->
  (forall f o, f ∈ gossip_fields ->
     pr (Some (Builder_update f (gossip_value w f) (default Builder_default o))) =
     if sets f then x else pr o) ->
  pr None = x \/ (exists f, f ∈ gossip_fields /\ sets f = true) ->
  pr (foldl (builder_step (wv_id w)) None kvs) = x.
Proof.
  intros Hw Hall Hkvs Hpr Hex. apply foldl_determined.
  - apply Forall_forall. intros kv Hkv.
    destruct (builder_step_published w kv Hw (Hkvs _ Hkv)) as [Hn|(f & Hf & -> & Hs)].
    { left. intros o. by rewrite Hn. }
    destruct (sets f) eqn:Hset; [right|left]; intros o; by rewrite Hs, Hpr, Hset.
  - destruct Hex as [Hx|(f & Hf & Hset)]; [by left|right].
    apply Exists_exists. exists (gossip_key (wv_id w) f, gossip_value w f).
    assert (Hin : (gossip_key (wv_id w) f, gossip_value w f) ∈ encode_workers ws).
    { apply (encode_workers_elem ws Hsorted Hwf). by exists w, f. }
    assert (Hid : is_u32 (wv_id w)) by (rewrite Forall_forall in Hwf; by apply Hwf).
    split; [by apply Hall|]. intros o.
    unfold builder_step. cbn [fst snd].
    rewrite bool_decide_false, worker_key_gossip, decide_True
      by (done || by apply gossip_key_not_admission). by rewrite Hpr, Hset.
Qed.

Ltac published f := right; exists f; split;
  [apply gossip_fields_elem; tauto|by apply bool_decide_true].

Lemma foldl_builder w kvs :
  w ∈ ws -> (forall kv, kv ∈ encode_workers ws -> kv ∈ kvs) ->
  (forall kv, kv ∈ kvs -> kv ∈ encode_workers ws \/ kv.1 = RENDER_ADMISSION_GOSSIP_KEY) ->
  foldl (builder_step (wv_id w)) None kvs = Some (builder_of w).
Proof.
  intros Hw Hall Hkvs.
  assert (Hww : worker_view_wf w) by (rewrite Forall_forall in Hwf; by apply Hwf).
  pose proof (fun f b Hf => Builder_update_published w f b Hww Hf) as Hup. cbv zeta in Hup.
  pose proof (foldl_builder_field (fun o => match o with None => true | _ => false end) false
    (fun _ => true) w kvs Hw Hall Hkvs) as H0.
  pose proof (foldl_builder_field (fun o => b_loaded_revision (default Builder_default o)) _
    (fun f => bool_decide (f = "style")) w kvs Hw Hall Hkvs
    (fun f o Hf => proj1 (Hup f (default Builder_default o) Hf))) as H1.
  pose proof (foldl_builder_field (fun o => b_render_mode (default Builder_default o)) _
    (fun f => bool_decide (f = "mode" /\ wv_loaded_profile w <> None)) w kvs Hw Hall Hkvs
    (fun f o Hf => proj1 (proj2 (Hup f (default Builder_default o) Hf)))) as H2.
  pose proof (foldl_builder_field (fun o => b_scale (default Builder_default o)) _
    (fun f => bool_decide (f = "scale" /\ wv_loaded_profile w <> None)) w kvs Hw Hall Hkvs
    (fun f o Hf => proj1 (proj2 (proj2 (Hup f (default Builder_default o) Hf))))) as H3.
  pose proof (foldl_builder_field (fun o => b_queue_depth (default Builder_default o)) _
    (fun f => bool_decide (f = "queue")) w kvs Hw Hall Hkvs
    (fun f o Hf => proj2 (proj2 (proj2 (Hup f (default Builder_default o) Hf))))) as H4.
  destruct (foldl (builder_step (wv_id w)) None kvs) as [b|].
  - f_equal. destruct b as [r m sc q]. unfold builder_of in *. cbn in *. f_equal.
    + apply H1. by published "style".
    + apply H2. destruct (wv_loaded_profile w); [|by left]. by published "mode".
    + apply H3. destruct (wv_loaded_profile w); [|by left]. by published "scale".
    + apply H4. by published "queue".
  - discriminate H0; [done|]. right. exists "style". split; [by left|done].
Qed.

Lemma publish_kvs_elem accepts kv :
  kv ∈ publish_kvs accepts ws <->
  kv = (RENDER_ADMISSION_GOSSIP_KEY, if accepts then "true" else "false") \/
  kv ∈ encode_workers ws.
Proof.
  destruct (encode_workers_elem ws Hsorted Hwf) as [Hm Hel]. destruct kv as [k v].
  unfold publish_kvs. rewrite bt_insert_elem by done. split.
  - intros [[-> ->]|[_ ?]]; [by left|by right].
  - intros [[= -> ->]|Hin]; [by left|right; split; [|done]].
    apply Hel in Hin as (w & f & Hw & Hf & -> & ->). apply gossip_key_not_admission.
    rewrite Forall_forall in Hwf. by apply Hwf.
Qed.

Lemma foldl_builder_absent wid kvs :
  (forall w, w ∈ ws -> wv_id w <> wid) ->
  (forall kv, kv ∈ kvs -> kv ∈ encode_workers ws \/ kv.1 = RENDER_ADMISSION_GOSSIP_KEY) ->
  foldl (builder_step wid) None kvs = None.
Proof.
  intros Hno Hkvs. apply (foldl_determined (builder_step wid) (fun o => o)); [|by left].
  apply Forall_forall. intros [k v] Hkv. left. intros o. unfold builder_step. cbn [fst snd].
  destruct (Hkvs _ Hkv) as [Hin|Hadm]; [|by rewrite bool_decide_true].
  apply (encode_workers_elem ws Hsorted Hwf) in Hin as (w & f & Hw & Hf & -> & ->).
  assert (Hid : is_u32 (wv_id w)) by (rewrite Forall_forall in Hwf; by apply Hwf).
  rewrite bool_decide_false, worker_key_gossip by (done || by apply gossip_key_not_admission).
  by rewrite decide_False by (by apply Hno).
Qed.

Lemma published_builders accepts :
  (foldl from_kvs_step (false, []) (publish_kvs accepts ws)).2 =
  (fun w => (wv_id w, builder_of w)) <$> ws.
Proof.
  assert (Hwf0 : bt_wf ([] : BTreeMap Z Builder)) by constructor.
  destruct (from_kvs_fold (publish_kvs accepts ws) false [] Hwf0) as [Hm Hget].
  assert (Hsub : forall kv, kv ∈ publish_kvs accepts ws ->
    kv ∈ encode_workers ws \/ kv.1 = RENDER_ADMISSION_GOSSIP_KEY).
  { intros kv [->|?]%publish_kvs_elem; [by right|by left]. }
  apply bt_ext; [done| |].
  { unfold bt_wf. rewrite <- list_fmap_compose. exact Hsorted. }
  intros wid. rewrite Hget. cbn [bt_get].
  destruct (decide (wid ∈ wv_id <$> ws)) as [Hin|Hout].
  - apply list_elem_of_fmap in Hin as (w & -> & Hw).
    rewrite (foldl_builder w) by (done || intros; apply publish_kvs_elem; by right).
    symmetry. apply bt_get_elem.
    { unfold bt_wf. rewrite <- list_fmap_compose. exact Hsorted. }
    apply list_elem_of_fmap. by exists w.
  - rewrite foldl_builder_absent; [| |done].
    2: { intros w Hw <-. apply Hout, list_elem_of_fmap. by exists w. }
    symmetry. destruct (bt_get wid _) as [b|] eqn:E; [|done]. exfalso. apply Hout.
    apply bt_get_elem in E; [|unfold bt_wf; rewrite <- list_fmap_compose; exact Hsorted].
    apply list_elem_of_fmap in E as (w & [= -> ->] & Hw). apply list_elem_of_fmap. by exists w.
Qed.

Lemma from_kvs_publish id accepts :
  from_kvs id (publish_kvs accepts ws) =
  {| ns_id := id; ns_accepts_new_renders := accepts; ns_workers := ws |}.
Proof.
  unfold from_kvs. pose proof (published_builders accepts) as Hb.
  assert (Ha : (foldl from_kvs_step (false, []) (publish_kvs accepts ws)).1 = _)
    by apply from_kvs_accepts.
  destruct (foldl from_kvs_step (false, []) (publish_kvs accepts ws)) as [a m]. cbn [fst snd] in *.
  subst m. f_equal.
  - rewrite Ha. apply (foldl_determined _ (fun a : bool => a)).
    + apply Forall_forall. intros kv Hkv. case_bool_decide as Hk; [right|by left].
      apply publish_kvs_elem in Hkv as [->|Hkv]; [by destruct accepts|].
      exfalso. destruct kv as [k v]. apply (encode_workers_elem ws Hsorted Hwf) in Hkv as (w & f & Hw & _ & -> & _).
      revert Hk. apply gossip_key_not_admission. rewrite Forall_forall in Hwf. by apply Hwf.
    + right. apply Exists_exists. eexists. split; [apply publish_kvs_elem; by left|].
      by destruct accepts.
  - clear. induction ws as [|w l IH]; [done|]. rewrite fmap_cons. cbn [omap list_omap].
    rewrite build_worker_of. f_equal. exact IH.
Qed.

(** Gossip round trip: what a node publishes, its workers under ascending
    32-bit ids and whether it admits renders, decodes to exactly that state; no
    style id or version is mangled, whatever characters the id holds. *)
Theorem gossip_roundtrip id accepts :
  from_kvs id (publish_kvs accepts ws) =
  {| ns_id := id; ns_accepts_new_renders := accepts; ns_workers := ws |}.
Proof. apply from_kvs_publish. Qed.
End RoundTrip.

(** ** Namespace sets are canonical *)

(** Canonical form: non-empty, bounded, valid names, strictly ascending, and the
    wildcard only on its own. *)
Definition namespaces_wf (l : list string) : Prop :=
  namespace_count_bad l = false /\ existsb namespace_bad l = false /\
  StronglySorted klt l /\ ("*" ∈ l -> l = ["*"]).

Lemma existsb_subset (p : string -> bool) l l' :
  (forall x, x ∈ l' -> x ∈ l) -> existsb p l = false -> existsb p l' = false.
Proof.
  intros Hsub Hp. apply not_true_iff_false. intros H. apply existsb_exists in H as (x & Hx & Hpx).
  apply not_true_iff_false in Hp. apply Hp, existsb_exists. exists x.
  by rewrite <- list_elem_of_In in *; auto.
Qed.

Lemma dedup_length {A} `{EqDecision A} (l : list A) : (length (dedup l) <= length l)%nat.
Proof.
  induction l as [|a [|b l] IH]; [done..|]. rewrite dedup_cons. case_decide; simpl in *; lia.
Qed.

Lemma namespace_count_mono l l' :
  l' <> [] -> (length l' <= length l)%nat -> namespace_count_bad l = false ->
  namespace_count_bad l' = false.
Proof.
  destruct l as [|x l], l' as [|y l']; try done. unfold namespace_count_bad.
  rewrite !Z.gtb_ltb, !Z.ltb_ge. lia.
Qed.

Lemma NamespaceSet_try_new_Ok l n :
  NamespaceSet_try_new l = Ok n ->
  namespaces_wf (namespaces n) /\
  namespaces n = (if bool_decide ("*" ∈ l) then ["*"] else sort_dedup l).
Proof.
  unfold NamespaceSet_try_new. destruct (namespace_count_bad l) eqn:Hc; [done|].
  destruct (existsb namespace_bad l) eqn:Hb; [done|].
  assert (Hfound : (match binary_search_by (fun value => String.compare value "*") (sort_dedup l) with
    Found _ => true | Insert _ => false end) = true <-> "*" ∈ l).
  { rewrite <- (sort_dedup_elem l).
    exact (slice_contains_sorted_spec (sort_dedup l) "*" (sort_dedup_ascending l)). }
  destruct (binary_search_by _ _); intros [= <-]; cbn [namespaces].
  - rewrite bool_decide_true by by apply Hfound. split; [|done].
    split_and!; [done|done|repeat constructor|done].
  - rewrite bool_decide_false by (intros Hin; by apply Hfound in Hin). split; [|done]. split_and!.
    + apply (namespace_count_mono l).
      * destruct l as [|x l]; [done|]. intros He.
        assert (Hx : x ∈ sort_dedup (x :: l)) by (apply sort_dedup_elem; left).
        rewrite He in Hx. by apply not_elem_of_nil in Hx.
      * unfold sort_dedup. rewrite dedup_length. by rewrite (sort_by_perm kcmp l).
      * done.
    + by apply (existsb_subset _ l); [intros x; apply sort_dedup_elem|].
    + apply sort_dedup_ascending.
    + intros Hin. apply sort_dedup_elem, Hfound in Hin. done.
Qed.

Lemma not_ascending_spec l : not_ascending l = false <-> StronglySorted klt l.
Proof.
  induction l as [|a [|b l] IH]; [split; [constructor|done]|split; [repeat constructor|done]|].
  change (not_ascending (a :: b :: l)) with
    (match String.compare a b with Lt => not_ascending (b :: l) | _ => true end).
  rewrite StronglySorted_cons, Forall_cons. unfold klt at 1. cbn [kcmp string_key].
  destruct (String.compare a b) eqn:E.
  - split; [done|]. by intros [[? _] _].
  - rewrite IH. split; [|by intros [_ ?]]. intros Hs. split_and!; [done| |done].
    apply StronglySorted_cons in Hs as [Hf _]. eapply Forall_impl; [done|]. intros x. by apply kcmp_trans.
  - split; [done|]. by intros [[? _] _].
Qed.

Lemma try_from_shared_Ok l n :
  NamespaceSet_try_from_shared l = Ok n <-> namespaces n = l /\ namespaces_wf l.
Proof.
  unfold NamespaceSet_try_from_shared, namespaces_wf.
  destruct (namespace_count_bad l); [split; [done|by intros (_ & ? & _)]|].
  destruct (existsb namespace_bad l); [split; [done|by intros (_ & _ & ? & _)]|].
  rewrite <- not_ascending_spec. destruct (not_ascending l); cbn [orb].
  { split; [done|by intros (_ & _ & _ & ? & _)]. }
  assert (Hstar : existsb (fun s => bool_decide (s = "*")) l = true <-> "*" ∈ l).
  { rewrite existsb_exists. setoid_rewrite bool_decide_eq_true. rewrite list_elem_of_In.
    split; [by intros (x & ? & ->)|by eexists]. }
  destruct (existsb _ l); cbn [andb].
  - case_bool_decide as Hl; cbn [negb].
    + split; [by intros [= <-]|]. intros (<- & _). by destruct n.
    + split; [done|]. intros (_ & _ & _ & _ & H). destruct Hl. by apply H, Hstar.
  - split; [|intros (<- & _); by destruct n]. intros [= <-]. split_and!; [done..|].
    intros H%Hstar. done.
Qed.

(** Sorting and removing duplicates changes nothing in an ascending list. *)
Lemma sort_dedup_id (l : list string) : StronglySorted klt l -> sort_dedup l = l.
Proof. intros H. apply ascending_ext; [apply sort_dedup_ascending|done|apply sort_dedup_elem]. Qed.

Lemma try_new_canonical l : namespaces_wf l -> NamespaceSet_try_new l = Ok {| namespaces := l |}.
Proof.
  intros (Hc & Hb & Hs & Hstar). destruct (NamespaceSet_try_new l) as [n|e|] eqn:E.
  - apply NamespaceSet_try_new_Ok in E as [_ E]. destruct n as [ns]. f_equal. f_equal. cbn in E. rewrite E.
    case_bool_decide as Hin; [by rewrite (Hstar Hin)|by apply sort_dedup_id].
  - revert E. unfold NamespaceSet_try_new. rewrite Hc, Hb. by case_match.
  - revert E. unfold NamespaceSet_try_new. rewrite Hc, Hb. by case_match.
Qed.

(** One canonical form of a namespace set: the verifier boundary
    [try_from_shared] accepts a slice exactly when it is a value [try_new]
    produces, and [try_new] keeps exactly the given names, or the wildcard
    alone when it is among them. *)
Theorem namespace_set_canonical l n :
  (NamespaceSet_try_from_shared l = Ok n <->
   namespaces n = l /\ exists l', NamespaceSet_try_new l' = Ok n) /\
  (NamespaceSet_try_new l = Ok n ->
   if bool_decide ("*" ∈ l) then namespaces n = ["*"]
   else forall s, s ∈ namespaces n <-> s ∈ l).
Proof.
  split.
  - rewrite try_from_shared_Ok. split.
    + intros [<- Hwf]. split; [done|]. exists (namespaces n). rewrite try_new_canonical by done. by destruct n.
    + intros [<- (l' & H)]. split; [done|]. apply (NamespaceSet_try_new_Ok _ _ H).
  - intros H. apply NamespaceSet_try_new_Ok in H as [_ H]. case_bool_decide; [done|].
    intros s. rewrite H.
    apply sort_dedup_elem.
Qed.

Lemma allows_spec a b :
  namespaces_wf (namespaces a) ->
  allows a b = true <->
  ("*" ∈ namespaces a) \/ (("*" ∉ namespaces b) /\ forall s, s ∈ namespaces b -> s ∈ namespaces a).
Proof.
  intros (Hc & _ & Hs & Hstar). unfold allows.
  assert (Hfirst : match namespaces a with n :: _ => bool_decide (n = "*") | [] => false end = true
                   <-> "*" ∈ namespaces a).
  { destruct (namespaces a) as [|x l]; [split; [done|by intros ?%not_elem_of_nil]|]. rewrite bool_decide_eq_true. split.
    - intros ->. left.
    - intros Hin. apply Hstar in Hin. by injection Hin as -> _. }
  destruct (match namespaces a with n :: _ => bool_decide (n = "*") | [] => false end).
  { split; [left; by apply Hfirst|done]. }
  rewrite forallb_forall. split.
  - intros H. right. setoid_rewrite <- list_elem_of_In in H. split.
    + intros Hin. specialize (H "*" Hin). by rewrite bool_decide_true in H.
    + intros s Hin. specialize (H s Hin). apply andb_prop in H as [_ H].
      by apply slice_contains_sorted_spec in H.
  - intros [Hin|[Hno Hsub]] s Hs'; [by apply Hfirst in Hin|]. apply list_elem_of_In in Hs'.
    rewrite bool_decide_false by (by intros ->). cbn. apply slice_contains_sorted_spec; auto.
Qed.

(** Grants: a caller grant satisfies a requirement exactly when it is the
    wildcard, or names every required namespace and the requirement is not
    itself the wildcard; so a canonical grant satisfies itself, and a grant that
    satisfies another satisfies all that the other does. *)
Theorem allows_is_coverage a b c
    (Ha : namespaces_wf (namespaces a)) (Hb : namespaces_wf (namespaces b)) :
  (allows a b = true <->
   ("*" ∈ namespaces a) \/ (("*" ∉ namespaces b) /\ forall s, s ∈ namespaces b -> s ∈ namespaces a)) /\
  allows a a = true /\
  (allows a b = true -> allows b c = true -> allows a c = true).
Proof.
  rewrite !allows_spec by done. split_and!; [done| |].
  - destruct (decide ("*" ∈ namespaces a)); [by left|right; auto].
  - intros [?|[Hnb Hab]]; [by left|]. intros [?|[Hnc Hbc]]; [done|right; auto].
Qed.

(** ** Witnesses *)

Definition sample_workers : list WorkerView :=
  [ {| wv_id := 0; wv_loaded_profile := None; wv_queue_depth := 0 |};
    {| wv_id := 7;
       wv_loaded_profile := Some {| wp_style := {| sr_id := "carto/a@2.x"; sr_version := 18446744073709551615 |};
                                    wp_render_mode := RmTile; wp_scale := X2 |};
       wv_queue_depth := 3 |};
    {| wv_id := 10;
       wv_loaded_profile := Some {| wp_style := {| sr_id := "@"; sr_version := 0 |};
                                    wp_render_mode := RmStatic; wp_scale := X1 |};
       wv_queue_depth := 12 |} ].

(** Witness: three workers, one style id holding separators of the encoding. *)
Lemma gossip_roundtrip_witness :
  from_kvs "node-1" (publish_kvs true sample_workers) =
  {| ns_id := "node-1"; ns_accepts_new_renders := true; ns_workers := sample_workers |}.
Proof.
  apply (gossip_roundtrip sample_workers).
  - repeat constructor.
  - repeat constructor; vm_compute; discriminate.
Defined.

(** Witness: the canonical form of an unsorted list with a duplicate. *)
Lemma namespace_set_canonical_witness :
  ("a" ∈ ["a"; "b"]) <-> ("a" ∈ ["b"; "a"; "b"]).
Proof.
  exact (proj2 (namespace_set_canonical ["b"; "a"; "b"] {| namespaces := ["a"; "b"] |}) eq_refl "a").
Defined.

(** Witness: a grant of two namespaces covers one of them. *)
Lemma allows_is_coverage_witness :
  allows {| namespaces := ["a"; "b"] |} {| namespaces := ["b"] |} = true.
Proof.
  refine (proj2 (proj1 (allows_is_coverage {| namespaces := ["a"; "b"] |}
    {| namespaces := ["b"] |} {| namespaces := ["b"] |} _ _)) _).
  - split_and!; [reflexivity|reflexivity|repeat constructor|].
    intros H. apply (bool_decide_eq_true_2 _) in H. vm_compute in H. discriminate H.
  - split_and!; [reflexivity|reflexivity|repeat constructor|].
    intros H. apply (bool_decide_eq_true_2 _) in H. vm_compute in H. discriminate H.
  - right. split.
    + intros H. apply (bool_decide_eq_true_2 _) in H. vm_compute in H. discriminate H.
    + intros s H. apply elem_of_cons. right. exact H.
Defined.
