(* ===== verification/Hrw.v ===== *)
(** * Rendezvous hashing (crates/biei-core/src/hrw.rs, crates/mmpf-common/src/rng.rs)

    The SplitMix64 mixer, FNV-1a, and the weight that orders nodes for a worker
    profile.  The mixer and every FNV-1a step permute the 64-bit words, so two
    nodes tie for a profile exactly when the FNV-1a hashes of their ids tie. *)

From S2P Require Import Prelude StdModel Types.

Local Open Scope Z_scope.

(** ** crates/mmpf-common/src/rng.rs *)

(** [value ^ (value >> k)]. *)
Definition xor_shift (k v : Z) : Z := Z.lxor v (Z.shiftr v k).

Definition splitmix64_finalize (value : Z) : Z :=
  let value := wrapping_mul (xor_shift 30 value) 0xbf58476d1ce4e5b9 in
  let value := wrapping_mul (xor_shift 27 value) 0x94d049bb133111eb in
  xor_shift 31 value.

Definition splitmix64 (value : Z) : Z :=
  splitmix64_finalize (wrapping_add value 0x9e3779b97f4a7c15).

(** ** FNV-1a *)

Definition FNV_OFFSET : Z := 0xcbf29ce484222325.
Definition FNV_PRIME : Z := 0x00000100000001b3.

Definition fnv1a_byte (h b : Z) : Z := wrapping_mul (Z.lxor h b) FNV_PRIME.
Definition fnv1a_continue (h : Z) (bytes : list Z) : Z := foldl fnv1a_byte h bytes.
Definition fnv1a (bytes : list Z) : Z := fnv1a_continue FNV_OFFSET bytes.

(** [str::as_bytes]. *)
Fixpoint as_bytes (s : string) : list Z :=
  match s with EmptyString => [] | String a s => byte_of a :: as_bytes s end.

Definition mode_byte (m : RenderMode) : Z := match m with RmStatic => 115 | RmTile => 116 end.
Definition scale_byte (s : Scale) : Z := match s with X1 => 49 | X2 => 50 end.

Definition fnv1a_profile (p : WorkerProfile) : Z :=
  let h := fnv1a (as_bytes (sr_id (wp_style p))) in
  let h := fnv1a_continue h [0] in
  let h := fnv1a_continue h [mode_byte (wp_render_mode p)] in
  let h := fnv1a_continue h [0] in
  fnv1a_continue h [scale_byte (wp_scale p)].

Definition hrw_weight (p : WorkerProfile) (node : NodeId) : Z :=
  let profile_hash := fnv1a_profile p in
  let node_hash := fnv1a (as_bytes node) in
  let h := wrapping_mul profile_hash 0x9E3779B97F4A7C15 in
  let h := Z.lxor h (wrapping_mul node_hash 0xBF58476D1CE4E5B9) in
  splitmix64_finalize h.

Example splitmix64_vectors :
  splitmix64_finalize 0 = 0 /\ splitmix64_finalize 1 = 0x5692161d100b05e5 /\
  splitmix64_finalize 0xdeadbeef = 0x4e062702ec929eea /\
  splitmix64_finalize u64_max = 0xb4d055fcf2cbbd7b /\
  splitmix64 0 = 0xe220a8397b1dcdaf /\ splitmix64 1 = 0x910a2dec89025cc1.
Proof. vm_compute. repeat split; reflexivity. Qed.

(** ** Every step is a permutation of the 64-bit words *)

Lemma is_u64_bits z : is_u64 z <-> 0 <= z /\ forall i, 64 <= i -> Z.testbit z i = false.
Proof.
  unfold is_u, u64_max. split.
  - intros Hz. split; [lia|]. intros i Hi.
    destruct (decide (z = 0)) as [->|]; [apply Z.bits_0|].
    apply Z.bits_above_log2; [lia|]. apply Z.log2_lt_pow2; [lia|].
    assert (2 ^ 64 <= 2 ^ i) by (apply Z.pow_le_mono_r; lia). lia.
  - intros [H0 Hb]. split; [done|]. enough (z = z mod 2 ^ 64) as ->.
    { pose proof (Z.mod_pos_bound z (2 ^ 64)). lia. }
    apply Z.bits_inj'. intros i Hi. rewrite Z.testbit_mod_pow2 by lia.
    destruct (Z.ltb_spec i 64); [done|]. by rewrite Hb by lia.
Qed.

Lemma lxor_u64 a b : is_u64 a -> is_u64 b -> is_u64 (Z.lxor a b).
Proof.
  rewrite !is_u64_bits. intros [Ha Ha'] [Hb Hb']. split; [by apply Z.lxor_nonneg; split|].
  intros i Hi. rewrite Z.lxor_spec, Ha', Hb' by lia. done.
Qed.

Lemma shiftr_u64 a k : 0 <= k -> is_u64 a -> is_u64 (Z.shiftr a k).
Proof.
  intros Hk. rewrite !is_u64_bits. intros [Ha Ha']. split; [by apply Z.shiftr_nonneg|].
  intros i Hi. rewrite Z.shiftr_spec by lia. apply Ha'. lia.
Qed.

Lemma xor_shift_u64 k v : 0 <= k -> is_u64 v -> is_u64 (xor_shift k v).
Proof. intros. by apply lxor_u64, shiftr_u64. Qed.

Lemma wrapping_mul_u64 a b : is_u64 (wrapping_mul a b).
Proof. apply wrap64_range. Qed.

#[export] Hint Resolve lxor_u64 shiftr_u64 xor_shift_u64 wrapping_mul_u64 : platform.

Lemma lxor_inj_l a b c : Z.lxor a b = Z.lxor a c -> b = c.
Proof.
  intros H. apply (f_equal (Z.lxor a)) in H.
  by rewrite <- !Z.lxor_assoc, Z.lxor_nilpotent, !Z.lxor_0_l in H.
Qed.

Lemma xor_shift_inj k a b :
  0 < k -> is_u64 a -> is_u64 b -> xor_shift k a = xor_shift k b -> a = b.
Proof.
  intros Hk Ha Hb H. apply is_u64_bits in Ha as [_ Ha], Hb as [_ Hb].
  assert (Hbit : forall n i, 0 <= i -> 64 - i <= Z.of_nat n -> Z.testbit a i = Z.testbit b i).
  { induction n as [|n IH]; intros i Hi Hn; [by rewrite Ha, Hb by lia|].
    apply (f_equal (fun z => Z.testbit z i)) in H. unfold xor_shift in H.
    rewrite !Z.lxor_spec, !Z.shiftr_spec, (IH (i + k)) in H by lia.
    by destruct (Z.testbit a i), (Z.testbit b i), (Z.testbit b (i + k)). }
  apply Z.bits_inj'. intros i Hi. apply (Hbit 64%nat); lia.
Qed.

(** Multiplication by a word with an inverse modulo [2^64] is injective. *)
Lemma wrapping_mul_inj c c' a b :
  wrapping_mul c c' = 1 -> is_u64 a -> is_u64 b -> wrapping_mul a c = wrapping_mul b c -> a = b.
Proof.
  unfold wrapping_mul, wrap64. intros Hinv Ha Hb H.
  assert (Hid : forall x, is_u64 x -> ((x * c) mod 2 ^ 64 * c') mod 2 ^ 64 = x).
  { intros x Hx. rewrite Z.mul_mod_idemp_l by lia.
    rewrite <- Z.mul_assoc, <- Z.mul_mod_idemp_r, Hinv, Z.mul_1_r by lia. by apply wrap64_small. }
  rewrite <- (Hid a Ha), <- (Hid b Hb). by rewrite H.
Qed.

Lemma splitmix64_finalize_inj a b :
  is_u64 a -> is_u64 b -> splitmix64_finalize a = splitmix64_finalize b -> a = b.
Proof.
  intros Ha Hb H. unfold splitmix64_finalize in H.
  apply xor_shift_inj in H; [|lia|auto with platform..].
  apply (wrapping_mul_inj _ 0x319642b2d24d8ec3) in H; [|reflexivity|apply xor_shift_u64; auto with platform; lia..].
  apply xor_shift_inj in H; [|lia|auto with platform..].
  apply (wrapping_mul_inj _ 0x96de1b173f119089) in H; [|reflexivity|apply xor_shift_u64; auto with platform; lia..].
  by apply xor_shift_inj in H.
Qed.

Lemma fnv1a_byte_inj h h' b :
  is_u64 h -> is_u64 h' -> is_u64 b -> fnv1a_byte h b = fnv1a_byte h' b -> h = h'.
Proof.
  intros Hh Hh' Hb H. apply (wrapping_mul_inj _ 0xce965057aff6957b) in H; [|reflexivity|auto with platform..].
  rewrite !(Z.lxor_comm _ b) in H. by apply lxor_inj_l in H.
Qed.

Lemma fnv1a_byte_byte_inj h b b' :
  is_u64 h -> is_u64 b -> is_u64 b' -> fnv1a_byte h b = fnv1a_byte h b' -> b = b'.
Proof.
  intros Hh Hb Hb' H. apply (wrapping_mul_inj _ 0xce965057aff6957b) in H; [|reflexivity|auto with platform..].
  by apply lxor_inj_l in H.
Qed.

Lemma fnv1a_byte_u64 h b : is_u64 (fnv1a_byte h b).
Proof. apply wrapping_mul_u64. Qed.

Lemma fnv1a_u64 bytes : is_u64 (fnv1a bytes).
Proof.
  unfold fnv1a, fnv1a_continue. destruct bytes as [|b l _] using rev_ind.
  - by vm_compute.
  - rewrite foldl_app. apply fnv1a_byte_u64.
Qed.

Lemma fnv1a_profile_u64 p : is_u64 (fnv1a_profile p).
Proof. apply fnv1a_byte_u64. Qed.

#[export] Hint Resolve fnv1a_byte_u64 fnv1a_u64 fnv1a_profile_u64 : platform.

(** Two weights are equal only when the mixed words are. *)
Lemma hrw_weight_eq p p' n n' :
  hrw_weight p n = hrw_weight p' n' ->
  Z.lxor (wrapping_mul (fnv1a_profile p) 0x9E3779B97F4A7C15)
         (wrapping_mul (fnv1a (as_bytes n)) 0xBF58476D1CE4E5B9) =
  Z.lxor (wrapping_mul (fnv1a_profile p') 0x9E3779B97F4A7C15)
         (wrapping_mul (fnv1a (as_bytes n')) 0xBF58476D1CE4E5B9).
Proof.
  unfold hrw_weight. cbv zeta. apply splitmix64_finalize_inj; auto with platform.
Qed.

(** Rendezvous weights tie only on hash collisions: for one profile two
    nodes have the same weight exactly when the FNV-1a hashes of their ids
    collide, and at one node two profiles tie exactly when their FNV-1a hashes
    collide; the style version never enters, and a change of only the mode or
    only the scale always changes the weight. *)
Theorem hrw_weight_ties p p' n n' :
  (hrw_weight p n = hrw_weight p n' <-> fnv1a (as_bytes n) = fnv1a (as_bytes n')) /\
  (hrw_weight p n = hrw_weight p' n <-> fnv1a_profile p = fnv1a_profile p') /\
  (sr_id (wp_style p) = sr_id (wp_style p') ->
   (wp_render_mode p = wp_render_mode p' /\ wp_scale p = wp_scale p' ->
    hrw_weight p n = hrw_weight p' n) /\
   (wp_render_mode p <> wp_render_mode p' /\ wp_scale p = wp_scale p' \/
    wp_render_mode p = wp_render_mode p' /\ wp_scale p <> wp_scale p' ->
    hrw_weight p n <> hrw_weight p' n)).
Proof.
  assert (Hprof : hrw_weight p n = hrw_weight p' n <-> fnv1a_profile p = fnv1a_profile p').
  { split; [|unfold hrw_weight; by intros ->]. intros H%hrw_weight_eq.
    rewrite !(Z.lxor_comm _ (wrapping_mul (fnv1a (as_bytes n)) _)) in H. apply lxor_inj_l in H.
    by apply (wrapping_mul_inj _ 0xf1de83e19937733d) in H; [|reflexivity|auto with platform..]. }
  split_and!.
  - split; [|unfold hrw_weight; by intros ->]. intros H%hrw_weight_eq. apply lxor_inj_l in H.
    by apply (wrapping_mul_inj _ 0x96de1b173f119089) in H; [|reflexivity|auto with platform..].
  - done.
  - intros Hid. rewrite Hprof. unfold fnv1a_profile. rewrite Hid. cbn [fnv1a_continue foldl].
    assert (Hb0 : is_u64 0) by (by vm_compute).
    assert (Hm : forall m, is_u64 (mode_byte m)) by (intros []; by vm_compute).
    assert (Hs : forall s, is_u64 (scale_byte s)) by (intros []; by vm_compute).
    split; [by intros [-> ->]|]. intros [[Hne ->]|[-> Hne]] H.
    + do 2 (apply fnv1a_byte_inj in H; [|auto with platform..]).
      apply fnv1a_byte_byte_inj in H; [|auto with platform..].
      by destruct (wp_render_mode p), (wp_render_mode p').
    + apply fnv1a_byte_byte_inj in H; [|auto with platform..].
      by destruct (wp_scale p), (wp_scale p').
Qed.

(** Witness: two revisions of one style share their placement. *)
Lemma hrw_weight_ties_witness :
  hrw_weight {| wp_style := {| sr_id := "style-7"; sr_version := 1 |};
                wp_render_mode := RmStatic; wp_scale := X2 |} "node-3" =
  hrw_weight {| wp_style := {| sr_id := "style-7"; sr_version := 2 |};
                wp_render_mode := RmStatic; wp_scale := X2 |} "node-3".
Proof.
  refine (proj1 (proj2 (proj2 (hrw_weight_ties
    {| wp_style := {| sr_id := "style-7"; sr_version := 1 |};
       wp_render_mode := RmStatic; wp_scale := X2 |}
    {| wp_style := {| sr_id := "style-7"; sr_version := 2 |};
       wp_render_mode := RmStatic; wp_scale := X2 |} "node-3" "node-3")) eq_refl) _).
  split; reflexivity.
Defined.
