(* ===== verification/Config.v ===== *)
(** * Node configuration (crates/biei-core/src/config.rs)

    Cost ranges, queue limits and permit counts as a node resolves them.
    Durations are nanoseconds. *)

From S2P Require Import Prelude StdModel Types.
From Stdlib Require Import Floats.SpecFloat.

Local Open Scope Z_scope.

Record CostRange := { cr_min : Z; cr_max : Z }.
Definition CostRange_fixed (d : Z) : CostRange := {| cr_min := d; cr_max := d |}.
Definition CostRange_new (min max : Z) : CostRange := {| cr_min := min; cr_max := max |}.

(** [Duration]'s [+] panics on overflow. *)
Definition mid {E} (r : CostRange) : Res E Z :=
  sum ← duration_add (cr_min r) (cr_max r);
  Ok (sum / 2).

Definition CostRange_saturating_add (a b : CostRange) : CostRange :=
  {| cr_min := duration_saturating_add (cr_min a) (cr_min b);
     cr_max := duration_saturating_add (cr_max a) (cr_max b) |}.

Inductive BlCapacityPolicy := Fixed (n : Z) | AutoBl.
Inductive Tier1Strategy := WeightedRandom | PowerOfTwo.

Record ClusterConfig := {
  renderer_slots_per_node : Z;
  render_permits_per_node : option Z;
  native_render_permits_per_node : option Z;
  cc_bl_capacity : BlCapacityPolicy;
  queue_capacity_multiplier : Z;
  cc_source_cache_capacity : Z;
  cc_render_output_cache_capacity_bytes : Z;
}.

Record QueueLimits := { soft : Z; hard : Z }.

Record CostConfig := {
  style_setup_cost : CostRange;
  source_load_cost : CostRange;
  render_cpu_cost : CostRange;
  render_resource_cost : CostRange;
  first_render_resource_cost : CostRange;
  hop_latency : Z;
  sla : Z;
}.

Definition warm_render_cost (c : CostConfig) : CostRange :=
  CostRange_saturating_add (render_cpu_cost c) (render_resource_cost c).
Definition first_render_cost (c : CostConfig) : CostRange :=
  CostRange_saturating_add (render_cpu_cost c) (first_render_resource_cost c).

Record RoutingConfig := {
  tier1_strategy : Tier1Strategy; tier3_enabled : bool; drain_max_queue : Z }.

Record ResolvedNodeConfig := {
  rn_routing : RoutingConfig;
  rn_costs : CostConfig;
  rn_publish_interval : Z;
  rn_queue_limits : QueueLimits;
  rn_render_permits : Z;
  rn_native_render_permits : Z;
  rn_source_cache_capacity : Z;
  rn_render_output_cache_capacity_bytes : Z;
}.

(** [Duration::as_micros() as u64]. *)
Definition as_micros (d : Z) : Z := d / 1000.
Definition as_micros_u64 (d : Z) : Z := wrap64 (as_micros d).

(** [max(1) as u64] casts after the maximum is taken.  A cast to zero makes the
    division panic. *)
Definition compute_bl_capacity {E} (s p l : Z) : Res E Z :=
  let p_us := wrap64 (Z.max 1 (as_micros p)) in
  if p_us =? 0 then Panic else
  let by_latency := as_micros_u64 s / p_us in
  let by_sla := saturating_sub (as_micros_u64 l / p_us) 1 in
  Ok (Z.max 1 (Z.min by_latency by_sla)).

Definition resolved_render_permits_per_node (c : ClusterConfig) : Z :=
  Z.min (Z.max (default (renderer_slots_per_node c) (render_permits_per_node c)) 1)
        (Z.max (renderer_slots_per_node c) 1).

Definition resolved_native_render_permits_per_node (c : ClusterConfig) : Z :=
  Z.min (Z.max (default (resolved_render_permits_per_node c) (native_render_permits_per_node c)) 1)
        (resolved_render_permits_per_node c).

(** [usize as f64] and binary64 division, rounding to nearest even. *)
Definition f64_of_usize (n : Z) : spec_float := binary_normalize 53 1024 n 0 false.
Definition STANDBY_RATIO_ERROR : spec_float := S754_finite false 6755399441055744 (-52).
Definition standby_ratio (c : ClusterConfig) : spec_float :=
  SFdiv 53 1024 (f64_of_usize (renderer_slots_per_node c))
    (f64_of_usize (resolved_render_permits_per_node c)).

Definition validate_standby_ratio (c : ClusterConfig) : Res spec_float unit :=
  let ratio := standby_ratio c in
  if SFltb STANDBY_RATIO_ERROR ratio then Err ratio else Ok tt.

Definition resolved_bl_capacity {E} (c : ClusterConfig) (costs : CostConfig) : Res E Z :=
  match cc_bl_capacity c with
  | Fixed n => Ok n
  | AutoBl =>
      s ← mid (style_setup_cost costs);
      p ← mid (warm_render_cost costs);
      compute_bl_capacity s p (sla costs)
  end.

(** [usize::saturating_mul]. *)
Definition saturating_mul (a b : Z) : Z := Z.min usize_max (a * b).

Definition resolved_queue_limits {E} (c : ClusterConfig) (costs : CostConfig) : Res E QueueLimits :=
  soft ← resolved_bl_capacity c costs;
  let hard := Z.max (saturating_mul soft (Z.max (queue_capacity_multiplier c) 1)) soft in
  Ok {| soft := soft; hard := hard |}.

Definition resolve_node_config (c : ClusterConfig) (routing : RoutingConfig) (costs : CostConfig)
    (publish_interval : Z) : Res spec_float ResolvedNodeConfig :=
  _ ← validate_standby_ratio c;
  queue_limits ← resolved_queue_limits c costs;
  Ok {| rn_routing := routing; rn_costs := costs; rn_publish_interval := publish_interval;
        rn_queue_limits := queue_limits;
        rn_render_permits := resolved_render_permits_per_node c;
        rn_native_render_permits := resolved_native_render_permits_per_node c;
        rn_source_cache_capacity := cc_source_cache_capacity c;
        rn_render_output_cache_capacity_bytes := cc_render_output_cache_capacity_bytes c |}.

Definition sample_cluster : ClusterConfig :=
  {| renderer_slots_per_node := 6; render_permits_per_node := Some 4;
     native_render_permits_per_node := None; cc_bl_capacity := AutoBl;
     queue_capacity_multiplier := 4; cc_source_cache_capacity := 8;
     cc_render_output_cache_capacity_bytes := 0 |}.

(** Six slots on four permits is exactly the rejected ratio's boundary: accepted;
    seven slots are not. *)
Example standby_boundary :
  validate_standby_ratio sample_cluster = Ok tt /\
  is_ok (validate_standby_ratio {| renderer_slots_per_node := 7; render_permits_per_node := Some 4;
     native_render_permits_per_node := None; cc_bl_capacity := AutoBl;
     queue_capacity_multiplier := 4; cc_source_cache_capacity := 8;
     cc_render_output_cache_capacity_bytes := 0 |}) = false.
Proof. vm_compute. split; reflexivity. Qed.

(** ** What a resolved configuration guarantees *)

Definition cost_range_wf (r : CostRange) : Prop := 0 <= cr_min r /\ 0 <= cr_max r.

(** Permits and queue limits are consistent whatever the configuration asks for. *)
Lemma resolve_node_config_limits c routing costs publish r :
  match cc_bl_capacity c with Fixed n => 1 <= n | AutoBl => True end ->
  resolve_node_config c routing costs publish = Ok r ->
  1 <= soft (rn_queue_limits r) /\
  soft (rn_queue_limits r) <= hard (rn_queue_limits r) /\
  1 <= rn_native_render_permits r <= rn_render_permits r /\
  rn_render_permits r <= Z.max 1 (renderer_slots_per_node c).
Proof.
  intros Hfixed H. unfold resolve_node_config in H. res_inv; try done. cbn.
  unfold resolved_queue_limits in E0. res_inv; try done. cbn.
  assert (1 <= a1).
  { unfold resolved_bl_capacity in E1. destruct (cc_bl_capacity c); res_inv; try done.
    unfold compute_bl_capacity in E1. case_match; [done|]. res_inv. lia. }
  unfold resolved_native_render_permits_per_node, resolved_render_permits_per_node. lia.
Qed.
