(* ===== verification/Dispatcher.v ===== *)
(** * Routing decisions (crates/biei-core/src/dispatcher.rs)

    The dispatcher maps a task and a view of the cluster to a decision in four
    tiers: warm tracking, rendezvous hashing under the soft queue limit,
    drain-and-swap, and overflow up to the hard limit.  The random generator of
    the [rand] crate is a parameter. *)

From S2P Require Import Prelude StdModel Types Hrw Config.

Local Open Scope Z_scope.

Definition DEFAULT_FORWARD_CANDIDATES : nat := 2.

(** ** The dispatcher's view of the cluster *)

Record DispatchView := { dv_cluster : ClusterView; dv_local : option NodeStateView }.

Definition DispatchView_new (cluster : ClusterView) (local : option NodeStateView) : DispatchView :=
  {| dv_cluster := cluster;
     dv_local := match local with
                 | Some s => if bool_decide (ns_id s ∈ cv_members cluster) then Some s else None
                 | None => None
                 end |}.

Definition dv_members (v : DispatchView) : list NodeId := cv_members (dv_cluster v).

(** [HashMap::get]. *)
Fixpoint assoc_get {V} (k : string) (l : list (string * V)) : option V :=
  match l with
  | [] => None
  | (k', v) :: l => if decide (k = k') then Some v else assoc_get k l
  end.

Definition dv_state (v : DispatchView) (id : NodeId) : option NodeStateView :=
  match dv_local v with
  | Some local => if decide (ns_id local = id) then Some local
                  else assoc_get id (cv_states (dv_cluster v))
  | None => assoc_get id (cv_states (dv_cluster v))
  end.

(** The gossiped entries other than the local node's, then the local one. *)
Definition not_local (v : DispatchView) (e : NodeId * NodeStateView) : bool :=
  match dv_local v with None => true | Some local => negb (bool_decide (ns_id local = e.1)) end.

Definition state_entries (v : DispatchView) : list (NodeId * NodeStateView) :=
  List.filter (not_local v) (cv_states (dv_cluster v)) ++
  match dv_local v with Some s => [(ns_id s, s)] | None => [] end.

Definition dv_states (v : DispatchView) : list NodeStateView :=
  (List.filter (not_local v) (cv_states (dv_cluster v))).*2 ++
  match dv_local v with Some s => [s] | None => [] end.

(** ** Warm candidates *)

Record WarmCandidate := { wc_node : NodeStateView; wc_warm_count : Z; wc_style_spare_bl : Z }.

(** The loop of [warm_candidate]: warm workers, their spare soft capacity, and
    whether some worker can take the task without evicting another profile. *)
Definition warm_step (profile : WorkerProfile) (bl : Z) (acc : Z * Z * bool) (worker : WorkerView)
    : Z * Z * bool :=
  let '(warm_count, style_spare_bl, has_usable_capacity) := acc in
  if bool_decide (wv_loaded_profile worker = Some profile) then
    (warm_count + 1, wrapping_add style_spare_bl (saturating_sub bl (wv_queue_depth worker)),
     has_usable_capacity || (wv_queue_depth worker <? bl))
  else match wv_loaded_profile worker with
       | None => (warm_count, style_spare_bl, true)
       | Some _ => acc
       end.

Definition warm_candidate (node : NodeStateView) (profile : WorkerProfile) (bl : Z)
    : option WarmCandidate :=
  if negb (ns_accepts_new_renders node) then None
  else
    let '(warm_count, style_spare_bl, has_usable_capacity) :=
      foldl (warm_step profile bl) (0, 0, false) (ns_workers node) in
    if (warm_count >? 0) && has_usable_capacity
    then Some {| wc_node := node; wc_warm_count := warm_count; wc_style_spare_bl := style_spare_bl |}
    else None.

(** ** Rendezvous order *)

(** [Iterator::position]. *)
Fixpoint position {A} (p : A -> bool) (l : list A) : option nat :=
  match l with
  | [] => None
  | x :: l => if p x then Some O else S <$> position p l
  end.

(** One round of the [for] loop of [top_hrw_candidates]. *)
Definition top_hrw_step (profile : WorkerProfile) (limit : nat) (top : list (Z * NodeId))
    (node_id : NodeId) : list (Z * NodeId) :=
  let weight := hrw_weight profile node_id in
  let insert_at := default (length top) (position (fun e : Z * NodeId => weight >? e.1) top) in
  if (insert_at <? limit)%nat
  then take limit (take insert_at top ++ [(weight, node_id)] ++ drop insert_at top)
  else top.

Definition top_hrw_candidates (members : list NodeId) (profile : WorkerProfile) (limit : nat)
    (eligible : NodeId -> bool) : list ForwardCandidate :=
  (fun e => {| fc_node_id := e.2; fc_drain_worker := None |}) <$>
  foldl (top_hrw_step profile limit) [] (List.filter eligible members).

(** ** Drain-and-swap ranking *)

(** [(bool, bool, Reverse<usize>)]. *)
Definition Tier3SortKey : Type := bool * bool * Z.

Definition tier3_sort_key (loaded_profile : option WorkerProfile) (task_profile : WorkerProfile)
    (cluster_counts : list (WorkerProfile * Z)) : Tier3SortKey :=
  match loaded_profile with
  | None => (false, true, usize_max)
  | Some profile =>
      let count := count_get profile cluster_counts in
      let shape_mismatch := negb (bool_decide (wp_render_mode profile = wp_render_mode task_profile))
                            || negb (bool_decide (wp_scale profile = wp_scale task_profile)) in
      (count <=? 1, shape_mismatch, count)
  end.

(** Tuples compare lexicographically, [Reverse] in the opposite order. *)
Definition key_cmp (a b : Tier3SortKey) : comparison :=
  let '(a1, a2, a3) := a in
  let '(b1, b2, b3) := b in
  then_cmp (bool_cmp a1 b1) (then_cmp (bool_cmp a2 b2) (Z.compare b3 a3)).

Definition tier3_cmp (task_profile : WorkerProfile) (counts : list (WorkerProfile * Z))
    (a b : NodeId * WorkerView) : comparison :=
  then_cmp (key_cmp (tier3_sort_key (wv_loaded_profile a.2) task_profile counts)
                    (tier3_sort_key (wv_loaded_profile b.2) task_profile counts))
    (then_cmp (Z.compare (wv_queue_depth a.2) (wv_queue_depth b.2))
      (then_cmp (String.compare a.1 b.1) (Z.compare (wv_id a.2) (wv_id b.2)))).

Definition is_drain_candidate (drain_max : Z) (task_profile : WorkerProfile) (w : WorkerView) : bool :=
  (wv_queue_depth w <? drain_max)
  && match wv_loaded_profile w with
     | None => true
     | Some profile => negb (bool_decide (profile = task_profile))
     end.

(** The scan of [tier3_candidates_view] over one worker. *)
Definition tier3_scan_worker (drain_max : Z) (task_profile : WorkerProfile) (nid : NodeId)
    (acc : list (WorkerProfile * Z) * list (NodeId * WorkerView)) (worker : WorkerView)
    : list (WorkerProfile * Z) * list (NodeId * WorkerView) :=
  let '(cluster_counts, candidates) := acc in
  let cluster_counts := match wv_loaded_profile worker with
                        | Some profile => count_inc profile cluster_counts
                        | None => cluster_counts
                        end in
  (cluster_counts,
   if is_drain_candidate drain_max task_profile worker then candidates ++ [(nid, worker)]
   else candidates).

Definition tier3_scan (drain_max : Z) (task_profile : WorkerProfile)
    (entries : list (NodeId * NodeStateView))
    : list (WorkerProfile * Z) * list (NodeId * WorkerView) :=
  foldl (fun acc e =>
    if negb (ns_accepts_new_renders e.2) then acc
    else foldl (tier3_scan_worker drain_max task_profile e.1) acc (ns_workers e.2))
    ([], []) entries.

(** ** Seeds *)

Definition routing_seed (seed task_id : Z) : Z :=
  splitmix64_finalize (Z.lxor seed (wrapping_mul task_id 0x9E3779B97F4A7C15)).

Record Dispatcher := {
  d_node_id : NodeId;
  d_config : RoutingConfig;
  d_costs : CostConfig;
  d_bl_capacity : Z;
  d_queue_capacity : Z;
  d_seed : Z;
}.

Definition Dispatcher_new (node_id : NodeId) (config : RoutingConfig) (costs : CostConfig)
    (bl_capacity queue_capacity resolved_seed : Z) : Dispatcher :=
  {| d_node_id := node_id; d_config := config; d_costs := costs; d_bl_capacity := bl_capacity;
     d_queue_capacity := Z.max queue_capacity bl_capacity; d_seed := resolved_seed |}.

Section Decide.
Context {Json : Type}.
(** [Xoshiro256PlusPlus::seed_from_u64] and [random_range(0..n)]. *)
Context {Rng : Type} (seed_from_u64 : Z -> Rng) (random_range : Z -> Rng -> Z * Rng).

Section Dispatch.
Context (self : Dispatcher).

(** The cost ranges' [mid] and [+] on durations panic on overflow. *)
Definition estimate_drain_eta (w : WorkerView) (task_profile : WorkerProfile) : Res Empty_set Z :=
  warm_p ← mid (warm_render_cost (d_costs self));
  first_p ← mid (first_render_cost (d_costs self));
  s ← mid (style_setup_cost (d_costs self));
  per_ahead ← duration_add first_p s;
  let queue_wait := default DURATION_MAX
    (duration_checked_mul per_ahead (wv_queue_depth w mod 2 ^ 32)) in
  own ← (if bool_decide (wv_loaded_profile w = Some task_profile) then Ok warm_p
         else duration_add s first_p);
  Ok (duration_saturating_add queue_wait own).

Definition warm_candidates (view : DispatchView) (profile : WorkerProfile) : list WarmCandidate :=
  omap (fun node => warm_candidate node profile (d_bl_capacity self)) (dv_states view).

(** The ticket loop of the weighted choice; falling through is [unreachable!]. *)
Fixpoint draw (ticket : Z) (l : list WarmCandidate) : Res Empty_set (option NodeId) :=
  match l with
  | [] => Panic
  | c :: l =>
      if ticket <? wc_warm_count c then Ok (Some (ns_id (wc_node c)))
      else draw (ticket - wc_warm_count c) l
  end.

Definition select_warm_target (task : InternalTask Json) (view : DispatchView)
    (profile : WorkerProfile) : Res Empty_set (option NodeId) :=
  let rng := seed_from_u64 (routing_seed (d_seed self) (t_id task)) in
  let candidates := warm_candidates view profile in
  match tier1_strategy (d_config self) with
  | WeightedRandom =>
      let total_weight := foldl Z.add 0 (wc_warm_count <$> candidates) in
      if total_weight =? 0 then Ok None
      else draw (random_range total_weight rng).1 candidates
  | PowerOfTwo =>
      match candidates with
      | [] => Ok None
      | [c] => Ok (Some (ns_id (wc_node c)))
      | _ =>
          let candidate_count := Z.of_nat (length candidates) in
          let '(first_idx, rng) := random_range candidate_count rng in
          let '(second_idx, rng) := random_range (candidate_count - 1) rng in
          let second_idx := if second_idx >=? first_idx then second_idx + 1 else second_idx in
          match candidates !! Z.to_nat first_idx, candidates !! Z.to_nat second_idx with
          | Some first, Some second =>
              Ok (Some (ns_id (wc_node
                (if wc_style_spare_bl first >=? wc_style_spare_bl second then first else second))))
          | _, _ => Panic
          end
      end
  end.

(** The selection loop of [tier3_candidates_view]: the first [limit] candidates
    that can drain within the task's deadline. *)
Fixpoint tier3_select (now : Z) (sla_deadline : option Z) (task_profile : WorkerProfile)
    (limit : nat) (candidates : list (NodeId * WorkerView)) (selected : list ForwardCandidate)
    : Res Empty_set (list ForwardCandidate) :=
  match candidates with
  | [] => Ok selected
  | (nid, w) :: candidates =>
      eta ← estimate_drain_eta w task_profile;
      let fits := match sla_deadline with
                  | None => true
                  | Some deadline => match instant_checked_add now eta with
                                     | Some candidate_deadline => candidate_deadline <=? deadline
                                     | None => false
                                     end
                  end in
      if fits then
        let selected := selected ++ [{| fc_node_id := nid; fc_drain_worker := Some (wv_id w) |}] in
        if (limit <=? length selected)%nat then Ok selected
        else tier3_select now sla_deadline task_profile limit candidates selected
      else tier3_select now sla_deadline task_profile limit candidates selected
  end.

Definition tier3_candidates_view (now : Z) (view : DispatchView) (task : InternalTask Json)
    (limit : nat) : Res Empty_set (list ForwardCandidate) :=
  let sla_deadline := instant_checked_add (t_arrived_at task) (sla (d_costs self)) in
  let task_profile := worker_profile task in
  let '(cluster_counts, candidates) :=
    tier3_scan (drain_max_queue (d_config self)) task_profile (state_entries view) in
  match candidates with
  | [] => Ok []
  | _ =>
      let candidates := sort_by (tier3_cmp task_profile cluster_counts) candidates in
      tier3_select now sla_deadline task_profile limit candidates []
  end.

Definition not_self (c : ForwardCandidate) : bool := negb (bool_decide (fc_node_id c = d_node_id self)).

Definition materialize_candidates (task : InternalTask Json) (tier : RouteTier)
    (candidates : list ForwardCandidate) : Decision :=
  match candidates with
  | [] => Reject NoCapacity
  | first :: rest =>
      if bool_decide (fc_node_id first = d_node_id self) then
        let fallback_candidates :=
          if t_forwarding_hops task >=? 1 then [] else List.filter not_self rest in
        Local tier (fc_drain_worker first) fallback_candidates
      else if t_forwarding_hops task >=? 1 then Local tier None []
      else Forward tier (List.filter not_self candidates)
  end.

Definition soft_eligible (view : DispatchView) (id : NodeId) : bool :=
  match dv_state view id with Some node => has_capacity node (d_bl_capacity self) | None => false end.
Definition hard_eligible (view : DispatchView) (id : NodeId) : bool :=
  match dv_state view id with
  | Some node => has_admission_capacity node (d_queue_capacity self)
  | None => false
  end.

Definition decide_view (now : Z) (task : InternalTask Json) (view : DispatchView)
    : Res Empty_set Decision :=
  let profile := worker_profile task in
  target ← select_warm_target task view profile;
  match target with
  | Some target_id =>
      let fallback := take (DEFAULT_FORWARD_CANDIDATES - 1)
        (top_hrw_candidates (dv_members view) profile DEFAULT_FORWARD_CANDIDATES
          (fun id => negb (bool_decide (id = target_id)) && soft_eligible view id)) in
      Ok (materialize_candidates task Tier1WarmTracking
            ({| fc_node_id := target_id; fc_drain_worker := None |} :: fallback))
  | None =>
      match top_hrw_candidates (dv_members view) profile DEFAULT_FORWARD_CANDIDATES
              (soft_eligible view) with
      | (_ :: _) as tier2_candidates => Ok (materialize_candidates task Tier2HrwBl tier2_candidates)
      | [] =>
          tier3_candidates ←
            (if tier3_enabled (d_config self)
             then tier3_candidates_view now view task DEFAULT_FORWARD_CANDIDATES else Ok []);
          match tier3_candidates with
          | _ :: _ => Ok (materialize_candidates task Tier3DrainSwap tier3_candidates)
          | [] =>
              match top_hrw_candidates (dv_members view) profile DEFAULT_FORWARD_CANDIDATES
                      (hard_eligible view) with
              | (_ :: _) as tier4_candidates =>
                  Ok (materialize_candidates task Tier4Overflow tier4_candidates)
              | [] => Ok (Reject NoCapacity)
              end
          end
      end
  end.

Definition decide_with_local_state (now : Z) (task : InternalTask Json) (cluster : ClusterView)
    (local : NodeStateView) : Res Empty_set Decision :=
  decide_view now task (DispatchView_new cluster (Some local)).
End Dispatch.
End Decide.

(** ** Rendezvous selection is the head of the sorted order *)

#[local] Opaque hrw_weight.

(** By descending weight. *)
Definition weight_cmp (a b : Z * NodeId) : comparison := Z.compare b.1 a.1.
Definition weighted (profile : WorkerProfile) (id : NodeId) : Z * NodeId := (hrw_weight profile id, id).

(** Insertion behind every element that is at least as heavy. *)
Definition insert_after (x : Z * NodeId) (l : list (Z * NodeId)) : list (Z * NodeId) :=
  let p := default (length l) (position (fun e => x.1 >? e.1) l) in
  take p l ++ [x] ++ drop p l.

Lemma insert_after_nil x : insert_after x [] = [x].
Proof. done. Qed.
Lemma insert_after_cons x y l :
  insert_after x (y :: l) = if x.1 >? y.1 then x :: y :: l else y :: insert_after x l.
Proof.
  unfold insert_after. cbn [position]. destruct (x.1 >? y.1); [done|].
  by destruct (position (fun e => x.1 >? e.1) l).
Qed.

Lemma insert_by_after x y l :
  insert_by weight_cmp y (insert_after x l) = insert_after x (insert_by weight_cmp y l).
Proof.
  induction l as [|z l IH]; cbn [insert_by]; rewrite ?insert_after_nil, ?insert_after_cons.
  - cbn [insert_by]. unfold weight_cmp. rewrite insert_after_nil, Z.gtb_ltb.
    destruct (Z.compare_spec x.1 y.1), (Z.ltb_spec y.1 x.1); (lia || done).
  - unfold weight_cmp in *. rewrite Z.gtb_ltb. destruct (Z.ltb_spec z.1 x.1) as [Hz|Hz]; cbn [insert_by].
    + destruct (Z.compare_spec x.1 y.1), (Z.compare_spec z.1 y.1); try lia.
      all: rewrite ?insert_after_cons, ?Z.gtb_ltb.
      all: repeat match goal with |- context [?a <? ?b] => destruct (Z.ltb_spec a b); try lia end; done.
    + destruct (Z.compare_spec z.1 y.1); rewrite ?insert_after_cons, ?Z.gtb_ltb.
      all: repeat match goal with |- context [?a <? ?b] => destruct (Z.ltb_spec a b); try lia end.
      all: by rewrite ?insert_after_cons, ?IH, ?Z.gtb_ltb, ?(proj2 (Z.ltb_ge z.1 x.1)) by done.
Qed.

Lemma sort_by_snoc l x : sort_by weight_cmp (l ++ [x]) = insert_after x (sort_by weight_cmp l).
Proof.
  unfold sort_by. induction l as [|y l IH]; [done|]. cbn [foldr app].
  by rewrite IH, insert_by_after.
Qed.

Lemma take_insert_after n x l :
  take n (insert_after x l) =
  if (default (length (take n l)) (position (fun e => x.1 >? e.1) (take n l)) <? n)%nat
  then take n (insert_after x (take n l)) else take n l.
Proof.
  revert n. induction l as [|z l IH]; intros [|n]; [done..|].
  rewrite insert_after_cons. cbn [take position]. rewrite insert_after_cons.
  destruct (x.1 >? z.1); cbn [default Nat.ltb Nat.leb take].
  - f_equal. destruct n; [done|]. cbn [take]. f_equal. rewrite take_take. f_equal. lia.
  - rewrite IH.
    assert (Hd : default (length (z :: take n l)) (S <$> position (fun e => x.1 >? e.1) (take n l)) =
      S (default (length (take n l)) (position (fun e => x.1 >? e.1) (take n l)))).
    { by destruct (position _ (take n l)). }
    rewrite Hd. generalize (default (length (take n l)) (position (fun e => x.1 >? e.1) (take n l))).
    intros p. change (S p <=? n)%nat with (p <? n)%nat. by destruct (p <? n)%nat.
Qed.

Lemma top_hrw_fold profile limit members :
  foldl (top_hrw_step profile limit) [] members =
  take limit (sort_by weight_cmp (weighted profile <$> members)).
Proof.
  induction members as [|id members IH] using rev_ind; [by destruct limit|].
  rewrite foldl_app, fmap_app. cbn [foldl fmap list_fmap]. rewrite IH, sort_by_snoc, take_insert_after.
  unfold top_hrw_step, insert_after. cbv zeta. change (weighted profile id) with (hrw_weight profile id, id).
  cbn [fst].
  generalize (hrw_weight profile id). reflexivity.
Qed.

(** The bounded insertion of [top_hrw_candidates] selects exactly the head
    of the eligible members stably sorted by descending rendezvous weight. *)
Theorem top_hrw_candidates_sorted members profile limit eligible :
  top_hrw_candidates members profile limit eligible =
  (fun e => {| fc_node_id := e.2; fc_drain_worker := None |}) <$>
  take limit (sort_by weight_cmp (weighted profile <$> List.filter eligible members)).
Proof. unfold top_hrw_candidates. by rewrite top_hrw_fold. Qed.

Lemma top_hrw_elem members profile limit eligible c :
  c ∈ top_hrw_candidates members profile limit eligible ->
  fc_node_id c ∈ members /\ eligible (fc_node_id c) = true /\ fc_drain_worker c = None.
Proof.
  unfold top_hrw_candidates. rewrite top_hrw_fold.
  intros ([w id] & -> & Hin)%list_elem_of_fmap. cbn.
  apply elem_of_take in Hin as (i & Hi & _). apply list_elem_of_lookup_2 in Hi.
  rewrite sort_by_elem in Hi. apply list_elem_of_fmap in Hi as (id' & [= -> ->] & Hin).
  apply list_elem_of_In, filter_In in Hin as [Hin He]. by apply list_elem_of_In in Hin.
Qed.

Lemma top_hrw_empty members profile limit eligible :
  (0 < limit)%nat -> top_hrw_candidates members profile limit eligible = [] ->
  forall id, id ∈ members -> eligible id = false.
Proof.
  unfold top_hrw_candidates. rewrite top_hrw_fold. intros Hl H id Hid.
  apply fmap_nil_inv in H. apply not_true_iff_false. intros He.
  assert (Hin : weighted profile id ∈ sort_by weight_cmp (weighted profile <$> List.filter eligible members)).
  { rewrite sort_by_elem. apply list_elem_of_fmap. exists id. split; [done|].
    apply list_elem_of_In, filter_In. by rewrite <- list_elem_of_In. }
  revert H Hin. destruct (sort_by weight_cmp _); [by intros _ ?%not_elem_of_nil|].
  by destruct limit; [lia|].
Qed.

(** ** The warm choice *)

Section WarmChoice.
Context {Json Rng : Type} (seed_from_u64 : Z -> Rng) (random_range : Z -> Rng -> Z * Rng).
(** [random_range(0..n)] is in range. *)
Context (Hrange : forall n r, 0 < n -> 0 <= (random_range n r).1 < n).
Context (self : Dispatcher).

(** The accumulator of [warm_candidate] counts warm workers and remembers
    whether one of the workers is usable. *)
Definition warm_worker (profile : WorkerProfile) (w : WorkerView) : bool :=
  bool_decide (wv_loaded_profile w = Some profile).
Definition usable_worker (profile : WorkerProfile) (bl : Z) (w : WorkerView) : bool :=
  if warm_worker profile w then wv_queue_depth w <? bl
  else bool_decide (wv_loaded_profile w = None).

Lemma warm_fold profile bl ws a b c :
  let r := foldl (warm_step profile bl) (a, b, c) ws in
  r.1.1 = a + Z.of_nat (length (List.filter (warm_worker profile) ws)) /\
  r.2 = (c || existsb (usable_worker profile bl) ws).
Proof.
  revert a b c. induction ws as [|w ws IH]; intros a b c; cbn; [by rewrite orb_false_r; split; [lia|]|].
  replace (usable_worker profile bl w) with
    (if bool_decide (wv_loaded_profile w = Some profile) then wv_queue_depth w <? bl
     else bool_decide (wv_loaded_profile w = None)) by done.
  replace (warm_worker profile w) with (bool_decide (wv_loaded_profile w = Some profile)) by done.
  case_bool_decide as Hw; cbn [length].
  - destruct (IH (a + 1) (wrapping_add b (saturating_sub bl (wv_queue_depth w))) (c || (wv_queue_depth w <? bl)))
      as [H1 H2]. rewrite H1, H2. split; [lia|]. by rewrite orb_assoc.
  - destruct (wv_loaded_profile w); cbn.
    + apply IH.
    + destruct (IH a b true) as [H1 H2]. rewrite H1, H2. split; [done|]. by rewrite orb_true_r.
Qed.

(** A node is a warm candidate when it admits renders, has a warm worker, and a
    warm worker below the soft limit or a fresh worker. *)
Lemma warm_candidate_Some node profile bl c :
  warm_candidate node profile bl = Some c ->
  wc_node c = node /\ 0 < wc_warm_count c /\ ns_accepts_new_renders node = true /\
  (exists w, w ∈ ns_workers node /\ wv_loaded_profile w = Some profile) /\
  (exists w, w ∈ ns_workers node /\ usable_worker profile bl w = true).
Proof.
  unfold warm_candidate. destruct (ns_accepts_new_renders node); [|done]. cbn [negb].
  destruct (warm_fold profile bl (ns_workers node) 0 0 false) as [H1 H2].
  destruct (foldl _ _ _) as [[n s] u]. cbn [fst snd orb] in *. subst n u.
  case_match eqn:Hc; [|done]. intros [= <-]. cbn. bool_props. rewrite Z.gtb_ltb in H. bool_props.
  split_and!; [done|lia|done| |].
  - destruct (List.filter (warm_worker profile) (ns_workers node)) as [|w l] eqn:Hf; [cbn in H; lia|].
    exists w. assert (Hin : In w (w :: l)) by by left. rewrite <- Hf in Hin.
    apply filter_In in Hin as [Hin Hw]. apply list_elem_of_In in Hin. split; [done|].
    by apply bool_decide_eq_true in Hw.
  - apply existsb_exists in H0 as (w & Hin & Hu). exists w. by apply list_elem_of_In in Hin.
Qed.

Lemma foldl_add_sum l a : foldl Z.add a l = a + foldr Z.add 0 l.
Proof. revert a. induction l as [|x l IH]; intros a; cbn; [lia|]. rewrite IH. lia. Qed.

Lemma draw_in l ticket :
  0 <= ticket < foldr Z.add 0 (wc_warm_count <$> l) ->
  exists c, c ∈ l /\ draw ticket l = Ok (Some (ns_id (wc_node c))).
Proof.
  revert ticket. induction l as [|c l IH]; intros ticket Ht; cbn in *; [lia|].
  destruct (Z.ltb_spec ticket (wc_warm_count c)).
  - exists c. split; [left|done].
  - destruct (IH (ticket - wc_warm_count c)) as (c' & Hin & ->); [lia|]. exists c'. split; [by right|done].
Qed.

Lemma warm_candidates_positive view profile :
  Forall (fun c => 0 < wc_warm_count c) (warm_candidates self view profile).
Proof.
  apply Forall_forall. intros c (n & _ & Hc)%list_elem_of_omap. by apply warm_candidate_Some in Hc as (_ & ? & _).
Qed.

(** The warm choice is one of the warm candidates, made whenever there is one;
    neither [unreachable!] nor an [expect] is reached. *)
Lemma select_warm_target_spec (task : InternalTask Json) view profile :
  match select_warm_target seed_from_u64 random_range self task view profile with
  | Ok None => warm_candidates self view profile = []
  | Ok (Some id) => exists c, c ∈ warm_candidates self view profile /\ id = ns_id (wc_node c)
  | _ => False
  end.
Proof.
  unfold select_warm_target. pose proof (warm_candidates_positive view profile) as Hpos.
  generalize dependent (warm_candidates self view profile). intros l Hpos.
  set (rng := seed_from_u64 _). destruct (tier1_strategy _).
  - rewrite foldl_add_sum, Z.add_0_l.
    assert (Hsum : l = [] \/ 0 < foldr Z.add 0 (wc_warm_count <$> l)).
    { destruct Hpos as [|c l Hc Hl]; [by left|right]. cbn.
      assert (0 <= foldr Z.add 0 (wc_warm_count <$> l)); [|lia].
      clear -Hl. induction Hl; cbn; lia. }
    destruct (Z.eqb_spec (foldr Z.add 0 (wc_warm_count <$> l)) 0) as [Hz|Hz].
    + destruct Hsum; [done|lia].
    + destruct Hsum as [->|Hsum]; [done|].
      destruct (draw_in l (random_range (foldr Z.add 0 (wc_warm_count <$> l)) rng).1) as (c & Hin & ->).
      { by apply Hrange. }
      by exists c.
  - destruct l as [|c1 [|c2 l]]; [done|exists c1; split; [left|done]|].
    set (n := Z.of_nat (length (c1 :: c2 :: l))). assert (2 <= n) by (subst n; cbn; lia).
    destruct (random_range n rng) as [i rng'] eqn:Hi.
    pose proof (Hrange n rng ltac:(lia)) as Hi'. rewrite Hi in Hi'. cbn [fst] in Hi'.
    destruct (random_range (n - 1) rng') as [j rng''] eqn:Hj.
    pose proof (Hrange (n - 1) rng' ltac:(lia)) as Hj'. rewrite Hj in Hj'. cbn [fst] in Hj'.
    set (j' := if j >=? i then j + 1 else j). assert (0 <= j' < n) by (subst j'; case_match; lia).
    assert (Hlt : forall k, 0 <= k < n -> exists c, (c1 :: c2 :: l) !! Z.to_nat k = Some c).
    { intros k Hk. apply lookup_lt_is_Some_2. subst n. lia. }
    destruct (Hlt i Hi') as (ci & Hci), (Hlt j') as (cj & Hcj); [done|].
    rewrite Hci, Hcj. eexists. split; [|reflexivity].
    destruct (wc_style_spare_bl ci >=? _); by eapply list_elem_of_lookup_2.
Qed.
End WarmChoice.

(** ** Drain-and-swap candidates *)

(** The workers of the nodes that admit renders, in the order they are scanned. *)
Definition accepted_workers (entries : list (NodeId * NodeStateView)) : list (NodeId * WorkerView) :=
  entries ≫= fun e => if ns_accepts_new_renders e.2 then (e.1,.) <$> ns_workers e.2 else [].

Definition count_step (counts : list (WorkerProfile * Z)) (nw : NodeId * WorkerView)
    : list (WorkerProfile * Z) :=
  match wv_loaded_profile nw.2 with Some q => count_inc q counts | None => counts end.

Lemma tier3_scan_spec drain_max p entries :
  tier3_scan drain_max p entries =
  (foldl count_step [] (accepted_workers entries),
   List.filter (fun nw => is_drain_candidate drain_max p nw.2) (accepted_workers entries)).
Proof.
  unfold tier3_scan.
  assert (Hw : forall nid ws counts cands,
    foldl (tier3_scan_worker drain_max p nid) (counts, cands) ws =
    (foldl count_step counts ((nid,.) <$> ws),
     cands ++ List.filter (fun nw => is_drain_candidate drain_max p nw.2) ((nid,.) <$> ws))).
  { intros nid ws. induction ws as [|w ws IH]; intros counts cands; [by rewrite app_nil_r|].
    cbn [foldl fmap list_fmap List.filter]. unfold tier3_scan_worker at 2. rewrite IH.
    unfold count_step at 3. cbn [snd]. destruct (is_drain_candidate drain_max p w); [|done].
    by rewrite <- app_assoc. }
  enough (Hgen : forall counts cands,
    foldl (fun acc e => if negb (ns_accepts_new_renders e.2) then acc
           else foldl (tier3_scan_worker drain_max p e.1) acc (ns_workers e.2)) (counts, cands) entries =
    (foldl count_step counts (accepted_workers entries),
     cands ++ List.filter (fun nw => is_drain_candidate drain_max p nw.2) (accepted_workers entries)))
    by apply Hgen.
  induction entries as [|[nid n] entries IH]; intros counts cands; [by rewrite app_nil_r|].
  cbn [foldl fst snd]. unfold accepted_workers. rewrite bind_cons. cbn [fst snd].
  fold (accepted_workers entries).
  destruct (ns_accepts_new_renders n); cbn [negb]; [|by rewrite IH].
  rewrite Hw, IH, foldl_app. f_equal. by rewrite List.filter_app, app_assoc.
Qed.

(** The counts are the numbers of accepted workers that hold a profile. *)
Definition holds_profile (p : WorkerProfile) (nw : NodeId * WorkerView) : bool :=
  bool_decide (wv_loaded_profile nw.2 = Some p).

Lemma count_get_fold p ws counts :
  count_get p (foldl count_step counts ws) =
  count_get p counts + Z.of_nat (length (List.filter (holds_profile p) ws)).
Proof.
  revert counts. induction ws as [|w ws IH]; intros counts; [cbn; lia|].
  cbn [foldl List.filter]. rewrite IH. unfold count_step. unfold holds_profile at 2.
  destruct (wv_loaded_profile w.2) as [q|].
  - rewrite count_get_inc. case_decide as Hd.
    + subst. rewrite bool_decide_true by done. cbn [length]. lia.
    + rewrite bool_decide_false by congruence. lia.
  - rewrite bool_decide_false by done. done.
Qed.

Lemma filter_perm {A} (f : A -> bool) l l' : l ≡ₚ l' -> List.filter f l ≡ₚ List.filter f l'.
Proof.
  induction 1 as [|x l l' _ IH|x y l|l l' l'' _ IH1 _ IH2]; cbn; [done| | |by etrans].
  - destruct (f x); [by constructor|done].
  - destruct (f x), (f y); (apply perm_swap || done).
Qed.

Lemma accepted_workers_perm entries entries' :
  entries ≡ₚ entries' -> accepted_workers entries ≡ₚ accepted_workers entries'.
Proof. intros H. unfold accepted_workers. by rewrite H. Qed.

#[export] Instance tier3_preorder p counts : TotalPreorderCmp (tier3_cmp p counts).
Proof.
  assert (Hk : TotalPreorderCmp key_cmp).
  { assert (H : TotalPreorderCmp (fun a b : Tier3SortKey =>
      then_cmp (bool_cmp a.1.1 b.1.1) (then_cmp (bool_cmp a.1.2 b.1.2) (Z.compare b.2 a.2)))).
    { apply then_preorder; [|apply then_preorder].
      - apply (comap_preorder (fun a : Tier3SortKey => a.1.1)), _.
      - apply (comap_preorder (fun a : Tier3SortKey => a.1.2)), _.
      - exact (@flip_preorder _ (fun a b : Tier3SortKey => Z.compare a.2 b.2)
          (comap_preorder (fun a : Tier3SortKey => a.2) Z.compare)). }
    split.
    - intros [[a1 a2] a3] [[b1 b2] b3]. exact (@cmp_antisym _ _ H (a1, a2, a3) (b1, b2, b3)).
    - intros [[a1 a2] a3] [[b1 b2] b3] [[c1 c2] c3].
      exact (@cmp_le_trans _ _ H (a1, a2, a3) (b1, b2, b3) (c1, c2, c3)). }
  unfold tier3_cmp. apply then_preorder; [|apply then_preorder; [|apply then_preorder]].
  - apply (comap_preorder (fun a : NodeId * WorkerView => tier3_sort_key (wv_loaded_profile a.2) p counts)), Hk.
  - apply (comap_preorder (fun a : NodeId * WorkerView => wv_queue_depth a.2)), _.
  - apply (comap_preorder (fun a : NodeId * WorkerView => a.1)), _.
  - apply (comap_preorder (fun a : NodeId * WorkerView => wv_id a.2)), _.
Qed.

Lemma tier3_cmp_Eq p counts a b :
  tier3_cmp p counts a b = Eq -> a.1 = b.1 /\ wv_id a.2 = wv_id b.2.
Proof.
  unfold tier3_cmp, then_cmp. intros H. repeat case_match; try done.
  match goal with H : String.compare _ _ = Eq |- _ => apply String.compare_eq_iff in H as -> end.
  apply Z.compare_eq_iff in H. done.
Qed.

Lemma sort_by_ext {A} (c c' : A -> A -> comparison) l :
  (forall x y, c x y = c' x y) -> sort_by c l = sort_by c' l.
Proof.
  intros H. unfold sort_by. induction l as [|x l IH]; cbn; [done|]. rewrite IH. clear IH.
  generalize (foldr (insert_by c') [] l). intros k. induction k as [|y k IH]; cbn; [done|].
  rewrite H. by destruct (c' x y); rewrite ?IH.
Qed.

Definition worker_key_of (nw : NodeId * WorkerView) : NodeId * WorkerId := (nw.1, wv_id nw.2).

(** Drain-and-swap is independent of iteration order: two dispatchers that
    hold the same node states, in whatever order their maps iterate, rank and
    select the same eviction targets, given that (node, worker) pairs are unique. *)
Theorem tier3_order_independent {Json} self now view view' (task : InternalTask Json) limit
    (Hperm : state_entries view ≡ₚ state_entries view')
    (Huniq : NoDup (worker_key_of <$> accepted_workers (state_entries view))) :
  tier3_candidates_view self now view task limit = tier3_candidates_view self now view' task limit.
Proof.
  unfold tier3_candidates_view. rewrite !tier3_scan_spec. cbv zeta beta iota.
  set (p := worker_profile task). set (dm := drain_max_queue (d_config self)).
  pose proof (accepted_workers_perm _ _ Hperm) as Haw.
  set (aw := accepted_workers (state_entries view)) in *.
  set (aw' := accepted_workers (state_entries view')) in *.
  assert (Hf : List.filter (fun nw => is_drain_candidate dm p nw.2) aw ≡ₚ
               List.filter (fun nw => is_drain_candidate dm p nw.2) aw') by (by apply filter_perm).
  assert (Hc : forall q, count_get q (foldl count_step [] aw) = count_get q (foldl count_step [] aw')).
  { intros q. rewrite !count_get_fold. by rewrite (filter_perm _ _ _ Haw). }
  assert (Hsort : sort_by (tier3_cmp p (foldl count_step [] aw))
                    (List.filter (fun nw => is_drain_candidate dm p nw.2) aw) =
                  sort_by (tier3_cmp p (foldl count_step [] aw'))
                    (List.filter (fun nw => is_drain_candidate dm p nw.2) aw')).
  { rewrite (sort_by_ext (tier3_cmp p (foldl count_step [] aw')) (tier3_cmp p (foldl count_step [] aw))).
    2: { intros x y. unfold tier3_cmp, tier3_sort_key.
         destruct (wv_loaded_profile x.2), (wv_loaded_profile y.2); by rewrite ?Hc. }
    apply sort_by_perm_eq; [apply _|done|]. intros x y Hx Hy [H1 H2]%tier3_cmp_Eq.
    assert (Hin : forall z, z ∈ List.filter (fun nw => is_drain_candidate dm p nw.2) aw -> z ∈ aw).
    { intros z Hz. apply list_elem_of_In, filter_In in Hz as [Hz _]. by apply list_elem_of_In. }
    apply Hin, list_elem_of_lookup in Hx as [i Hi]. apply Hin, list_elem_of_lookup in Hy as [j Hj].
    assert (i = j) as ->; [|congruence]. eapply NoDup_lookup; [exact Huniq| |].
    - by rewrite list_lookup_fmap, Hi.
    - rewrite list_lookup_fmap, Hj. cbn. unfold worker_key_of. by rewrite H1, H2. }
  destruct (List.filter _ aw) as [|c l] eqn:E, (List.filter _ aw') as [|c' l'] eqn:E'; [done| | |].
  - by apply Permutation_nil_cons in Hf.
  - by apply Permutation_sym, Permutation_nil_cons in Hf.
  - by rewrite Hsort.
Qed.

(** ** Decisions *)

(** Cost ranges small enough that no duration sum overflows. *)
Definition range_small (r : CostRange) : Prop :=
  0 <= cr_min r <= DURATION_MAX / 8 /\ 0 <= cr_max r <= DURATION_MAX / 8.
Definition costs_small (c : CostConfig) : Prop :=
  range_small (style_setup_cost c) /\ range_small (render_cpu_cost c) /\
  range_small (render_resource_cost c) /\ range_small (first_render_resource_cost c).

Lemma estimate_drain_eta_total self w p :
  costs_small (d_costs self) -> exists eta, estimate_drain_eta self w p = Ok eta.
Proof.
  intros ((H1 & H2) & (H3 & H4) & (H5 & H6) & (H7 & H8)).
  unfold estimate_drain_eta, mid, duration_add, warm_render_cost, first_render_cost,
    CostRange_saturating_add, duration_saturating_add. cbn [cr_min cr_max].
  set (m := DURATION_MAX / 8) in *.
  assert (Hm : 0 <= m /\ 8 * m <= DURATION_MAX) by (subst m; vm_compute; split; discriminate).
  rewrite !(Z.min_r DURATION_MAX) by lia.
  repeat (rewrite (proj2 (Z.leb_le _ _)) by lia; res_simpl).
  assert (Hb : forall a b, 0 <= a <= 4 * m -> 0 <= b <= 4 * m -> 0 <= (a + b) / 2 <= 4 * m).
  { intros a b Ha Hb. split; [apply Z.div_pos; lia|]. apply Z.div_le_upper_bound; lia. }
  pose proof (Hb (cr_min (style_setup_cost (d_costs self))) (cr_max (style_setup_cost (d_costs self)))).
  match goal with |- context [(?a + ?b) / 2 + (?c + ?d) / 2] =>
    assert (0 <= (a + b) / 2 <= 2 * m) by (split; [apply Z.div_pos; lia|apply Z.div_le_upper_bound; lia]);
    assert (0 <= (c + d) / 2 <= 2 * m) by (split; [apply Z.div_pos; lia|apply Z.div_le_upper_bound; lia])
  end.
  repeat (rewrite (proj2 (Z.leb_le _ _)) by lia; res_simpl).
  case_bool_decide; res_simpl; eauto.
Qed.

Lemma tier3_select_spec self now sla_deadline p limit cands selected :
  costs_small (d_costs self) ->
  exists out, tier3_select self now sla_deadline p limit cands selected = Ok out /\
    forall c, c ∈ out -> c ∈ selected \/
      exists nid w, (nid, w) ∈ cands /\ c = {| fc_node_id := nid; fc_drain_worker := Some (wv_id w) |}.
Proof.
  intros Hc. revert selected. induction cands as [|[nid w] cands IH]; intros selected; cbn [tier3_select].
  { exists selected. split; [done|]. by left. }
  destruct (estimate_drain_eta_total self w p Hc) as [eta ->]. res_simpl.
  destruct (match sla_deadline with None => true | _ => _ end).
  - case_match.
    + eexists. split; [done|]. intros c [?|Hs%list_elem_of_singleton]%elem_of_app; [by left|].
      subst c. right. exists nid, w. split; [left|done].
    + destruct (IH (selected ++ [{| fc_node_id := nid; fc_drain_worker := Some (wv_id w) |}]))
        as (out & -> & Hout). exists out. split; [done|]. intros c Hin.
      apply Hout in Hin as [[?|Hs%list_elem_of_singleton]%elem_of_app|(nid' & w' & ? & ->)];
        [by left|subst c; right; exists nid, w; split; [left|done]
        |right; exists nid', w'; split; [by right|done]].
  - destruct (IH selected) as (out & -> & Hout). exists out. split; [done|]. intros c Hin.
    apply Hout in Hin as [?|(nid' & w' & ? & ->)]; [by left|right; exists nid', w'; split; [by right|done]].
Qed.

Section Soundness.
Context {Json Rng : Type} (seed_from_u64 : Z -> Rng) (random_range : Z -> Rng -> Z * Rng).
Context (Hrange : forall n r, 0 < n -> 0 <= (random_range n r).1 < n).
Context (self : Dispatcher) (Hcosts : costs_small (d_costs self)).
Context (now : Z) (task : InternalTask Json) (view : DispatchView).

Abbreviation profile := (worker_profile task).

(** A worker that tier 3 may drain for the task: on a node that admits renders,
    not already warm for it, and below the drain limit. *)
Definition drainable (nid : NodeId) (wid : WorkerId) : Prop :=
  exists w, (nid, w) ∈ accepted_workers (state_entries view) /\ wv_id w = wid /\
    is_drain_candidate (drain_max_queue (d_config self)) profile w = true.

Definition candidate_ok (tier : RouteTier) (c : ForwardCandidate) : Prop :=
  match tier with
  | RenderCacheHit => False
  | Tier1WarmTracking =>
      fc_drain_worker c = None /\
      ((exists wc, wc ∈ warm_candidates self view profile /\ fc_node_id c = ns_id (wc_node wc)) \/
       (fc_node_id c ∈ dv_members view /\ soft_eligible self view (fc_node_id c) = true))
  | Tier2HrwBl =>
      fc_drain_worker c = None /\ fc_node_id c ∈ dv_members view /\
      soft_eligible self view (fc_node_id c) = true
  | Tier3DrainSwap => exists wid, fc_drain_worker c = Some wid /\ drainable (fc_node_id c) wid
  | Tier4Overflow =>
      fc_drain_worker c = None /\ fc_node_id c ∈ dv_members view /\
      hard_eligible self view (fc_node_id c) = true
  end.

(** A tier is used only when the tiers before it have no target. *)
Definition tier_reached (tier : RouteTier) : Prop :=
  match tier with
  | RenderCacheHit => False
  | Tier1WarmTracking => warm_candidates self view profile <> []
  | Tier2HrwBl => warm_candidates self view profile = []
  | Tier3DrainSwap | Tier4Overflow =>
      warm_candidates self view profile = [] /\
      forall id, id ∈ dv_members view -> soft_eligible self view id = false
  end.

Definition remote_ok (tier : RouteTier) (c : ForwardCandidate) : Prop :=
  fc_node_id c <> d_node_id self /\ candidate_ok tier c.

Definition decision_ok (d : Decision) : Prop :=
  match d with
  | Forward tier cs =>
      t_forwarding_hops task < 1 /\ cs <> [] /\ tier_reached tier /\ Forall (remote_ok tier) cs
  | Local tier hint fallback =>
      tier_reached tier /\ Forall (remote_ok tier) fallback /\
      (1 <= t_forwarding_hops task -> fallback = []) /\
      (forall wid, hint = Some wid -> tier = Tier3DrainSwap /\ drainable (d_node_id self) wid)
  | Reject r =>
      r = NoCapacity /\ tier_reached Tier4Overflow /\
      forall id, id ∈ dv_members view -> hard_eligible self view id = false
  end.

Lemma filter_not_self tier cs :
  Forall (candidate_ok tier) cs -> Forall (remote_ok tier) (List.filter (not_self self) cs).
Proof.
  intros Hcs. rewrite Forall_forall in Hcs. apply Forall_forall. intros c Hc.
  apply list_elem_of_In, filter_In in Hc as [Hc Hs]. apply list_elem_of_In in Hc.
  split; [|by apply Hcs]. unfold not_self in Hs. bool_props. by apply bool_decide_eq_false in Hs.
Qed.

Lemma materialize_ok tier cs :
  cs <> [] -> tier_reached tier -> Forall (candidate_ok tier) cs ->
  decision_ok (materialize_candidates self task tier cs).
Proof.
  intros Hne Hr Hcs. destruct cs as [|c cs]; [done|]. unfold materialize_candidates. rewrite Z.geb_leb.
  pose proof Hcs as [Hc Hrest]%Forall_cons. case_bool_decide as Hself.
  - split_and!; [done| | |].
    + case_match; [constructor|by apply filter_not_self].
    + intros H. by rewrite (proj2 (Z.leb_le _ _)) by lia.
    + intros wid Hw. destruct tier; cbn in Hc; try (destruct Hc as [Hc _]; congruence); [done|].
      destruct Hc as (wid' & Hw' & Hd). rewrite Hself in Hd. split; [done|]. congruence.
  - destruct (Z.leb_spec 1 (t_forwarding_hops task)); [by split_and!|].
    split_and!; [done| |done|by apply filter_not_self]. cbn [List.filter].
    unfold not_self at 1. by rewrite bool_decide_false.
Qed.

End Soundness.

(** ** A concrete cluster *)

Definition demo_profile : WorkerProfile :=
  {| wp_style := {| sr_id := "style-1"; sr_version := 0 |}; wp_render_mode := RmTile; wp_scale := X1 |}.
Definition demo_task : InternalTask unit :=
  {| t_id := 1; t_request_id := "r"; t_authorization := None;
     t_style := {| sr_id := "style-2"; sr_version := 0 |}; t_source := None;
     t_request := ReqTile 0 0 0 512; t_pixel_ratio := PixelRatio_from X1; t_output_format := Png;
     t_arrived_at := 0; t_deadline := 10 * nanos_per_sec; t_forwarding_hops := 0 |}.
Definition demo_node (id : NodeId) (w : WorkerId) : NodeId * NodeStateView :=
  (id, {| ns_id := id; ns_accepts_new_renders := true;
          ns_workers := [ {| wv_id := w; wv_loaded_profile := Some demo_profile; wv_queue_depth := 1 |} ] |}).
Definition demo_view (states : list (NodeId * NodeStateView)) : DispatchView :=
  {| dv_cluster := {| cv_members := ["node-0"; "node-1"]; cv_states := states; cv_generated_at := 0 |};
     dv_local := None |}.
Definition demo_costs : CostConfig :=
  {| style_setup_cost := CostRange_fixed 100000000; source_load_cost := CostRange_fixed 0;
     render_cpu_cost := CostRange_fixed 10000000; render_resource_cost := CostRange_fixed 0;
     first_render_resource_cost := CostRange_fixed 0; hop_latency := 0;
     sla := 10 * nanos_per_sec |}.
Definition demo_dispatcher : Dispatcher :=
  Dispatcher_new "node-0" {| tier1_strategy := WeightedRandom; tier3_enabled := true; drain_max_queue := 10 |}
    demo_costs 1 4 0.

(** A generator that always draws zero. *)
Definition zero_range (n : Z) (r : unit) : Z * unit := (0, r).
Lemma zero_range_in n r : 0 < n -> 0 <= (zero_range n r).1 < n.
Proof. cbn. lia. Qed.

(** No worker is below the soft limit, so the task drains and swaps: the local
    worker first, the peer's worker as the fallback. *)
Example demo_decision :
  decide_view (fun _ => tt) zero_range demo_dispatcher 0 demo_task
    (demo_view [demo_node "node-0" 0; demo_node "node-1" 0]) =
  Ok (Local Tier3DrainSwap (Some 0) [ {| fc_node_id := "node-1"; fc_drain_worker := Some 0 |} ]).
Proof. vm_compute. reflexivity. Qed.

(** Witness: the two iteration orders of a two-node map. *)
Lemma tier3_order_independent_witness :
  tier3_candidates_view demo_dispatcher 0
    (demo_view [demo_node "node-0" 0; demo_node "node-1" 0]) demo_task 2 =
  tier3_candidates_view demo_dispatcher 0
    (demo_view [demo_node "node-1" 0; demo_node "node-0" 0]) demo_task 2.
Proof.
  apply tier3_order_independent.
  - apply perm_swap.
  - apply (bool_decide_unpack _). vm_compute. exact I.
Defined.

