(* ===== verification/RenderCache.v ===== *)
(** * The rendered image cache (crates/biei-core/src/render_cache.rs)

    The cache key of a task, the authorization rule of a hit, and the render
    flights that let one leader per key render while followers wait.

    The [moka] cache is a map that may drop any entry at any time (capacity,
    time to live); [DefaultHasher], which only spreads keys over flight shards,
    is a parameter.  [lookup_or_join_key] reads the cache and the flight map
    under the shard lock, a leader inserts without it and removes its flight
    under it, so every call takes effect atomically at its second cache read (at
    its first one when that hits): a run is a sequence of whole operations. *)

From S2P Require Import Prelude StdModel Types.

Local Open Scope string_scope.
Local Open Scope list_scope.
Local Open Scope Z_scope.

Definition RENDER_FLIGHT_SHARDS : Z := 16.

(** ** Cache keys *)

Record LngLatKey := { lk_lon : Z; lk_lat : Z }.
Inductive PositioningKey :=
  | CenterKey (lon lat zoom : Z) (bearing pitch : Z)
  | BboxKey (min_lon min_lat max_lon max_lat : Z)
  | AutoKey.
Record PathOverlayKey := {
  pk_stroke_width : option Z; pk_stroke_color : option string; pk_stroke_opacity : option Z;
  pk_fill_color : option string; pk_fill_opacity : option Z; pk_coordinates : list LngLatKey }.
Record PinOverlayKey := {
  nk_size : PinSize; nk_label : option string; nk_color : string; nk_coordinate : LngLatKey }.
Inductive StaticOverlayKey :=
  | PathKey (p : PathOverlayKey)
  | GeoJsonKey (feature_collection : string)
  | PinKey (p : PinOverlayKey).
Inductive RenderRequestKey :=
  | TileKey (z x y tile_size : Z)
  | StaticImageKey (positioning : PositioningKey) (width height : Z)
      (overlays : list StaticOverlayKey) (before_layer : option string) (padding : Padding)
      (addlayer : option string).
Record RenderCacheKey := {
  ck_style_id : string;
  ck_style_version : Z;
  ck_request : RenderRequestKey;
  ck_scale : Scale;
  ck_output_format : ImageFormat;
  ck_source_hash : option SourceHash;
}.

#[export] Instance LngLatKey_eq_dec : EqDecision LngLatKey.
Proof. solve_decision. Defined.
#[export] Instance PositioningKey_eq_dec : EqDecision PositioningKey.
Proof. solve_decision. Defined.
#[export] Instance PathOverlayKey_eq_dec : EqDecision PathOverlayKey.
Proof. solve_decision. Defined.
#[export] Instance PinSize_eq_dec : EqDecision PinSize.
Proof. solve_decision. Defined.
#[export] Instance PinOverlayKey_eq_dec : EqDecision PinOverlayKey.
Proof. solve_decision. Defined.
#[export] Instance StaticOverlayKey_eq_dec : EqDecision StaticOverlayKey.
Proof. solve_decision. Defined.
#[export] Instance Padding_eq_dec : EqDecision Padding.
Proof. solve_decision. Defined.
#[export] Instance RenderRequestKey_eq_dec : EqDecision RenderRequestKey.
Proof. solve_decision. Defined.
#[export] Instance RenderCacheKey_eq_dec : EqDecision RenderCacheKey.
Proof. solve_decision. Defined.

Definition LngLatKey_from (p : LngLat) : LngLatKey := {| lk_lon := ll_lon p; lk_lat := ll_lat p |}.

Definition PositioningKey_from (p : Positioning) : PositioningKey :=
  match p with
  | Center lon lat zoom bearing pitch => CenterKey lon lat zoom bearing pitch
  | Bbox min_lon min_lat max_lon max_lat => BboxKey min_lon min_lat max_lon max_lat
  | Auto => AutoKey
  end.

Definition PathOverlayKey_from (p : PathOverlay) : PathOverlayKey :=
  {| pk_stroke_width := po_stroke_width p; pk_stroke_color := po_stroke_color p;
     pk_stroke_opacity := po_stroke_opacity p; pk_fill_color := po_fill_color p;
     pk_fill_opacity := po_fill_opacity p;
     pk_coordinates := LngLatKey_from <$> po_coordinates p |}.

Definition PinOverlayKey_from (p : PinOverlay) : PinOverlayKey :=
  {| nk_size := pin_size p; nk_label := pin_label p; nk_color := pin_color p;
     nk_coordinate := LngLatKey_from (pin_coordinate p) |}.

(** The closure [frame] of [addlayer_identity]. *)
Definition frame (component : string) : string := decimal (str_len component) +:+ ":" +:+ component.

Definition addlayer_identity (a : AddLayer) : string :=
  frame (al_json a) +:+
  match al_source a with
  | Some source => frame (als_tileset_id source) +:+ frame (als_json source)
  | None => ""
  end.

Section Keys.
Context {Json : Type} (json_to_string : Json -> string).

Definition StaticOverlayKey_from (o : StaticOverlay Json) : StaticOverlayKey :=
  match o with
  | OverlayPath path => PathKey (PathOverlayKey_from path)
  | OverlayGeoJson geojson => GeoJsonKey (json_to_string (gj_feature_collection geojson))
  | OverlayPin pin => PinKey (PinOverlayKey_from pin)
  end.

Definition RenderRequestKey_from (r : RenderRequest Json) : RenderRequestKey :=
  match r with
  | ReqTile z x y tile_size => TileKey z x y tile_size
  | ReqStaticImage positioning width height overlays before_layer padding addlayer =>
      StaticImageKey (PositioningKey_from positioning) width height
        (StaticOverlayKey_from <$> overlays) before_layer padding
        (addlayer_identity <$> addlayer)
  end.

Definition RenderCacheKey_from_task (t : InternalTask Json) : RenderCacheKey :=
  {| ck_style_id := sr_id (t_style t); ck_style_version := sr_version (t_style t);
     ck_request := RenderRequestKey_from (t_request t);
     ck_scale := to_scale (t_pixel_ratio t); ck_output_format := t_output_format t;
     ck_source_hash := src_hash <$> t_source t |}.
End Keys.

(** ** Cached outputs *)

Record CachedRenderOutput := {
  cro_output : RenderOutput; cro_required_namespaces : option NamespaceSet }.

Definition is_authorized_for (self : CachedRenderOutput) (readable : option NamespaceSet) : bool :=
  match cro_required_namespaces self, readable with
  | None, None => true
  | Some required, Some readable => allows readable required
  | None, Some _ | Some _, None => false
  end.

(** ** The cache and its flights *)

Abbreviation FlightMap := (list (RenderCacheKey * nat)).

(** A flight is named by the watch channel created for it; [next_flight] names
    the next one. *)
Record RenderOutputCacheInner := {
  rc_cache : list (RenderCacheKey * CachedRenderOutput);
  rc_in_flight : list FlightMap;
  rc_next_flight : nat;
}.

Fixpoint map_get {V} (k : RenderCacheKey) (m : list (RenderCacheKey * V)) : option V :=
  match m with
  | [] => None
  | (k', v) :: m => if decide (k = k') then Some v else map_get k m
  end.
Definition map_remove {V} (k : RenderCacheKey) (m : list (RenderCacheKey * V)) : list (RenderCacheKey * V) :=
  List.filter (fun e => negb (bool_decide (e.1 = k))) m.
Definition map_insert {V} (k : RenderCacheKey) (v : V) (m : list (RenderCacheKey * V)) : list (RenderCacheKey * V) :=
  (k, v) :: map_remove k m.

(** [None] when the configured capacity is zero. *)
Definition RenderOutputCache_new (max_capacity_bytes : Z) : option RenderOutputCacheInner :=
  if max_capacity_bytes =? 0 then None
  else Some {| rc_cache := []; rc_in_flight := replicate (Z.to_nat RENDER_FLIGHT_SHARDS) [];
               rc_next_flight := 0 |}.

Definition is_enabled_for {Json} (inner : option RenderOutputCacheInner) (t : InternalTask Json) : bool :=
  bool_decide (inner <> None)
  && match t_source t with None => true | Some s => bool_decide (src_policy s = Cacheable) end.

Record RenderFlightLeader := {
  fl_key : option RenderCacheKey; fl_required_namespaces : option NamespaceSet }.
Record RenderFlightFollower := {
  ff_key : RenderCacheKey; ff_readable_namespaces : option NamespaceSet; ff_flight : nat }.

Inductive RenderCacheLookup :=
  | Disabled
  | Hit (output : RenderOutput)
  | Leader (l : RenderFlightLeader)
  | Wait (f : RenderFlightFollower).

Section Flights.
(** [DefaultHasher] over the key. *)
Context (hash : RenderCacheKey -> Z).

Definition flight_shard (key : RenderCacheKey) : nat :=
  Z.to_nat (Z.land (hash key) (RENDER_FLIGHT_SHARDS - 1)).

Definition flight_get (key : RenderCacheKey) (inner : RenderOutputCacheInner) : option nat :=
  m ← rc_in_flight inner !! flight_shard key; map_get key m.

Definition with_flights (f : FlightMap -> FlightMap) (key : RenderCacheKey) (next : nat)
    (inner : RenderOutputCacheInner) : RenderOutputCacheInner :=
  {| rc_cache := rc_cache inner;
     rc_in_flight := alter f (flight_shard key) (rc_in_flight inner);
     rc_next_flight := next |}.

(** A cached output the reader may have. *)
Definition cache_probe (key : RenderCacheKey) (readable : option NamespaceSet)
    (inner : RenderOutputCacheInner) : option RenderOutput :=
  match map_get key (rc_cache inner) with
  | Some output => if is_authorized_for output readable then Some (cro_output output) else None
  | None => None
  end.

Definition lookup_or_join_key (key : RenderCacheKey) (readable : option NamespaceSet)
    (inner : RenderOutputCacheInner) : RenderCacheLookup * RenderOutputCacheInner :=
  match cache_probe key readable inner with
  | Some output => (Hit output, inner)
  | None =>
      match cache_probe key readable inner with
      | Some output => (Hit output, inner)
      | None =>
          match flight_get key inner with
          | Some flight =>
              (Wait {| ff_key := key; ff_readable_namespaces := readable; ff_flight := flight |}, inner)
          | None =>
              let changed := rc_next_flight inner in
              (Leader {| fl_key := Some key; fl_required_namespaces := readable |},
               with_flights (map_insert key changed) key (S changed) inner)
          end
      end
  end.

Definition lookup_or_join {Json} (json_to_string : Json -> string)
    (inner : option RenderOutputCacheInner) (t : InternalTask Json)
    : RenderCacheLookup * option RenderOutputCacheInner :=
  if negb (is_enabled_for inner t) then (Disabled, inner)
  else match inner with
       | None => (Disabled, inner)
       | Some i =>
           let '(r, i) := lookup_or_join_key (RenderCacheKey_from_task json_to_string t)
                            (readable_namespaces <$> t_authorization t) i in
           (r, Some i)
       end.

Definition recheck (f : RenderFlightFollower) (inner : RenderOutputCacheInner)
    : RenderCacheLookup * RenderOutputCacheInner :=
  lookup_or_join_key (ff_key f) (ff_readable_namespaces f) inner.

Definition insert_from_outcome (l : RenderFlightLeader) (outcome : TaskOutcome)
    (inner : RenderOutputCacheInner) : bool * RenderOutputCacheInner :=
  match to_result outcome with
  | Completed _ output =>
      match fl_key l with
      | None => (false, inner)
      | Some key =>
          let insert :=
            (true, {| rc_cache := map_insert key
                        {| cro_output := output; cro_required_namespaces := fl_required_namespaces l |}
                        (rc_cache inner);
                      rc_in_flight := rc_in_flight inner; rc_next_flight := rc_next_flight inner |}) in
          match map_get key (rc_cache inner) with
          | Some existing =>
              if bool_decide (cro_required_namespaces existing = fl_required_namespaces l)
              then insert else (false, inner)
          | None => insert
          end
      end
  | _ => (false, inner)
  end.

(** [Drop for RenderFlightLeader]: the flight is removed, which wakes the
    receivers of its channel. *)
Definition drop_leader (l : RenderFlightLeader) (inner : RenderOutputCacheInner)
    : RenderFlightLeader * RenderOutputCacheInner :=
  match fl_key l with
  | None => (l, inner)
  | Some key => ({| fl_key := None; fl_required_namespaces := fl_required_namespaces l |},
                 with_flights (map_remove key) key (rc_next_flight inner) inner)
  end.
End Flights.

Definition cache_hit_outcome {Json} (now : Z) (node_id : NodeId) (task : InternalTask Json)
    (output : RenderOutput) : TaskOutcome :=
  {| to_task_id := t_id task; to_request_id := t_request_id task;
     to_arrived_at := t_arrived_at task; to_had_source := has_source task;
     to_deadline_stage := None;
     to_result := Completed
       {| ci_node_id := node_id; ci_worker_id := None; ci_route_tier := RenderCacheHit;
          ci_started_at := t_arrived_at task; ci_native_render_started_at := now;
          ci_native_render_completed_at := now; ci_completed_at := now;
          ci_style_swap := false; ci_cold_start := false; ci_source_loaded := false;
          ci_admitted_at_overflow := false; ci_render_observation := None |} output |}.

(** ** The key identifies what is rendered *)

Lemma app_inj_length a b x y :
  String.length a = String.length b -> a +:+ x = b +:+ y -> a = b /\ x = y.
Proof.
  revert b. induction a as [|c a IH]; intros [|d b] Hl He; str_simpl; try done.
  injection Hl as Hl. injection He as -> He. destruct (IH b Hl He) as [-> ->]. done.
Qed.

Definition str_bounded (s : string) : Prop := str_len s <= usize_max.

(** Length framing is unambiguous for any content. *)
Lemma frame_inj a b x y :
  str_bounded a -> str_bounded b -> frame a +:+ x = frame b +:+ y -> a = b /\ x = y.
Proof.
  unfold str_bounded, frame, str_len. intros Ha Hb He. rewrite !app_assoc_str in He.
  assert (Hsplit : forall s t, Z.of_nat (String.length s) <= usize_max ->
    split_once ":" (decimal (Z.of_nat (String.length s)) +:+ ":" +:+ s +:+ t) =
    Some (decimal (Z.of_nat (String.length s)), s +:+ t)).
  { intros s t Hs. change (":" +:+ s +:+ t) with (String ":" (s +:+ t)).
    apply split_once_app, decimal_no_char; [unfold usize_max in Hs; lia|done]. }
  apply (f_equal (split_once ":")) in He. rewrite !Hsplit in He by done.
  injection He as Hd He. apply decimal_inj in Hd; [|unfold usize_max in *; lia..].
  apply app_inj_length; [lia|done].
Qed.

Lemma frame_nonempty a : frame a <> "".
Proof.
  unfold frame. intros H. apply (f_equal String.length) in H. revert H.
  generalize (decimal (str_len a)). intros d. induction d as [|c d IH]; str_simpl; done.
Qed.

Definition addlayer_bounded (a : AddLayer) : Prop :=
  str_bounded (al_json a) /\
  match al_source a with
  | Some s => str_bounded (als_tileset_id s) /\ str_bounded (als_json s)
  | None => True
  end.

(** The content of an addlayer without its affinity hash. *)
Definition erase_hash (a : AddLayer) : AddLayer :=
  {| al_json := al_json a; al_hash := 0; al_source := al_source a |}.

Lemma addlayer_identity_inj a b :
  addlayer_bounded a -> addlayer_bounded b ->
  addlayer_identity a = addlayer_identity b -> erase_hash a = erase_hash b.
Proof.
  destruct a as [ja ha [[ta sa]|]], b as [jb hb [[tb sb]|]]; intros [H1 H2] [H3 H4];
    unfold addlayer_identity; cbn [al_json al_source als_tileset_id als_json] in *;
    intros He; apply frame_inj in He as [-> He]; try done.
  - destruct H2, H4. apply frame_inj in He as [-> He]; [|done..].
    rewrite <- (app_empty_r (frame sa)), <- (app_empty_r (frame sb)) in He.
    by apply frame_inj in He as [-> _].
  - exfalso. apply (f_equal String.length) in He. revert He. pose proof (frame_nonempty ta).
    by destruct (frame ta).
  - exfalso. apply (f_equal String.length) in He. revert He. pose proof (frame_nonempty tb).
    by destruct (frame tb).
Qed.

Section KeyIdentity.
Context {Json : Type} (json_to_string : Json -> string).

(** A request up to the text of its GeoJSON documents and the affinity hash of
    its addlayer. *)
Definition erase_overlay (o : StaticOverlay Json) : StaticOverlay string :=
  match o with
  | OverlayPath p => OverlayPath p
  | OverlayGeoJson g => OverlayGeoJson {| gj_feature_collection := json_to_string (gj_feature_collection g) |}
  | OverlayPin p => OverlayPin p
  end.
Definition erase_request (r : RenderRequest Json) : RenderRequest string :=
  match r with
  | ReqTile z x y tile_size => ReqTile z x y tile_size
  | ReqStaticImage p w h overlays before_layer padding addlayer =>
      ReqStaticImage p w h (erase_overlay <$> overlays) before_layer padding (erase_hash <$> addlayer)
  end.

Definition request_bounded (r : RenderRequest Json) : Prop :=
  match r with
  | ReqStaticImage _ _ _ _ _ _ (Some a) => addlayer_bounded a
  | _ => True
  end.

Lemma LngLatKey_inj : Inj (=) (=) LngLatKey_from.
Proof. intros [] []; unfold LngLatKey_from; cbn; by intros [= -> ->]. Qed.

Lemma overlay_key_erase o o' :
  StaticOverlayKey_from json_to_string o = StaticOverlayKey_from json_to_string o' <->
  erase_overlay o = erase_overlay o'.
Proof.
  destruct o as [p|g|p], o' as [p'|g'|p']; cbn; try done.
  - split; [|by intros [= ->]]. destruct p, p'. unfold PathOverlayKey_from. cbn.
    intros [= -> -> -> -> -> H]. pose proof LngLatKey_inj.
    by apply (inj (fmap LngLatKey_from)) in H as ->.
  - split; [by intros [= ->]|by intros [= ->]].
  - split; [|by intros [= ->]]. destruct p as [? ? ? []], p' as [? ? ? []].
    unfold PinOverlayKey_from, LngLatKey_from. cbn. by intros [= -> -> -> -> ->].
Qed.

Lemma overlays_key_erase (l l' : list (StaticOverlay Json)) :
  StaticOverlayKey_from json_to_string <$> l = StaticOverlayKey_from json_to_string <$> l' <->
  erase_overlay <$> l = erase_overlay <$> l'.
Proof.
  revert l'. induction l as [|o l IH]; intros [|o' l']; rewrite ?fmap_cons; try done.
  split; intros [= H1 H2]; f_equal; (by apply overlay_key_erase) || (by apply IH).
Qed.

Lemma PositioningKey_inj p p' : PositioningKey_from p = PositioningKey_from p' -> p = p'.
Proof. destruct p, p'; cbn; try done; intros H; by injection H as -> -> -> -> ->
  || by injection H as -> -> -> ->. Qed.

Lemma request_key_erase r r' :
  request_bounded r -> request_bounded r' ->
  RenderRequestKey_from json_to_string r = RenderRequestKey_from json_to_string r' <->
  erase_request r = erase_request r'.
Proof.
  intros Hr Hr'. destruct r as [|p w h os bl pad al], r' as [|p' w' h' os' bl' pad' al']; cbn in *; try done.
  { split; by intros [= -> -> -> ->]. }
  split.
  - intros H. injection H as Hp -> -> Hos -> -> Hal.
    apply PositioningKey_inj in Hp as ->. apply overlays_key_erase in Hos as ->. f_equal.
    destruct al as [a|], al' as [a'|]; cbn in *; try done. injection Hal as Hal.
    f_equal. by apply addlayer_identity_inj.
  - intros H. injection H as -> -> -> Hos -> -> Hal. apply overlays_key_erase in Hos as ->. f_equal.
    destruct al as [a|], al' as [a'|]; cbn in *; try done. injection Hal as H1 H2.
    unfold addlayer_identity. by rewrite H1, H2.
Qed.

(** The render-cache key is collision free: two tasks share a key exactly
    when they ask for the same style revision, scale, output format, source and
    request (GeoJSON compared by its text, the addlayer by its full content, not
    by its 64-bit hash). *)
Theorem cache_key_identifies_render (t t' : InternalTask Json)
    (Ht : request_bounded (t_request t)) (Ht' : request_bounded (t_request t')) :
  RenderCacheKey_from_task json_to_string t = RenderCacheKey_from_task json_to_string t' <->
  t_style t = t_style t' /\ erase_request (t_request t) = erase_request (t_request t') /\
  to_scale (t_pixel_ratio t) = to_scale (t_pixel_ratio t') /\
  t_output_format t = t_output_format t' /\ (src_hash <$> t_source t) = (src_hash <$> t_source t').
Proof.
  unfold RenderCacheKey_from_task. split.
  - intros H. injection H as H1 H2 H3 -> -> ->. apply request_key_erase in H3; [|done..].
    destruct (t_style t), (t_style t'). cbn in *. by subst.
  - intros (-> & H & -> & -> & ->). apply request_key_erase in H; [|done..]. by rewrite H.
Qed.
End KeyIdentity.

(** ** Runs of the cache *)

(** The live leaders (with the flight each owns), the waiting followers, and the
    outputs inserted so far. *)
Record Sys := {
  sys_inner : RenderOutputCacheInner;
  sys_leaders : list (nat * RenderFlightLeader);
  sys_followers : list RenderFlightFollower;
  sys_inserted : list (RenderCacheKey * option NamespaceSet * RenderOutput);
}.

Definition sys_init : Sys :=
  {| sys_inner := {| rc_cache := []; rc_in_flight := replicate (Z.to_nat RENDER_FLIGHT_SHARDS) [];
                     rc_next_flight := 0 |};
     sys_leaders := []; sys_followers := []; sys_inserted := [] |}.

Section Runs.
Context (hash : RenderCacheKey -> Z).

Inductive sys_step : Sys -> Sys -> Prop :=
  | step_hit s key readable output :
      lookup_or_join_key hash key readable (sys_inner s) = (Hit output, sys_inner s) ->
      sys_step s s
  | step_lead s key readable l inner :
      lookup_or_join_key hash key readable (sys_inner s) = (Leader l, inner) ->
      sys_step s {| sys_inner := inner;
                    sys_leaders := (rc_next_flight (sys_inner s), l) :: sys_leaders s;
                    sys_followers := sys_followers s; sys_inserted := sys_inserted s |}
  | step_wait s key readable f inner :
      lookup_or_join_key hash key readable (sys_inner s) = (Wait f, inner) ->
      sys_step s {| sys_inner := inner; sys_leaders := sys_leaders s;
                    sys_followers := f :: sys_followers s; sys_inserted := sys_inserted s |}
  (** A follower whose flight is gone wakes up; its [recheck] is a lookup. *)
  | step_wake s fs f fs' :
      sys_followers s = fs ++ f :: fs' ->
      flight_get hash (ff_key f) (sys_inner s) <> Some (ff_flight f) ->
      sys_step s {| sys_inner := sys_inner s; sys_leaders := sys_leaders s;
                    sys_followers := fs ++ fs'; sys_inserted := sys_inserted s |}
  | step_insert s i l outcome key info output inner :
      (i, l) ∈ sys_leaders s -> fl_key l = Some key -> to_result outcome = Completed info output ->
      insert_from_outcome l outcome (sys_inner s) = (true, inner) ->
      sys_step s {| sys_inner := inner; sys_leaders := sys_leaders s;
                    sys_followers := sys_followers s;
                    sys_inserted := (key, fl_required_namespaces l, output) :: sys_inserted s |}
  (** The leader is dropped, after success, failure or cancellation alike. *)
  | step_drop s ls i l ls' :
      sys_leaders s = ls ++ (i, l) :: ls' ->
      sys_step s {| sys_inner := (drop_leader hash l (sys_inner s)).2;
                    sys_leaders := ls ++ ls'; sys_followers := sys_followers s;
                    sys_inserted := sys_inserted s |}
  | step_evict s key :
      sys_step s {| sys_inner := {| rc_cache := map_remove key (rc_cache (sys_inner s));
                                    rc_in_flight := rc_in_flight (sys_inner s);
                                    rc_next_flight := rc_next_flight (sys_inner s) |};
                    sys_leaders := sys_leaders s; sys_followers := sys_followers s;
                    sys_inserted := sys_inserted s |}.

Definition reachable : Sys -> Prop := rtc sys_step sys_init.

(** *** Map and flight lookups *)

Lemma map_get_remove {V} k k' (m : list (RenderCacheKey * V)) :
  map_get k (map_remove k' m) = if decide (k = k') then None else map_get k m.
Proof.
  unfold map_remove.
  induction m as [|[k0 v] m IH]; cbn [List.filter map_get fst]; [by case_decide|].
  case_bool_decide as H0; cbn [negb map_get]; subst.
  - rewrite IH. repeat case_decide; subst; done.
  - rewrite IH. repeat case_decide; subst; done.
Qed.

Lemma map_get_insert {V} k k' v (m : list (RenderCacheKey * V)) :
  map_get k (map_insert k' v m) = if decide (k = k') then Some v else map_get k m.
Proof.
  unfold map_insert. cbn [map_get]. case_decide; [done|]. rewrite map_get_remove.
  by rewrite decide_False.
Qed.

Lemma flight_shard_lt key : (flight_shard hash key < Z.to_nat RENDER_FLIGHT_SHARDS)%nat.
Proof.
  unfold flight_shard. change (RENDER_FLIGHT_SHARDS - 1) with (Z.ones 4).
  rewrite Z.land_ones by lia. pose proof (Z.mod_pos_bound (hash key) (2 ^ 4)).
  unfold RENDER_FLIGHT_SHARDS. lia.
Qed.

(** One flight map per shard. *)
Definition shards_wf (inner : RenderOutputCacheInner) : Prop :=
  length (rc_in_flight inner) = Z.to_nat RENDER_FLIGHT_SHARDS.

Lemma flight_get_with f k n inner k' :
  shards_wf inner ->
  flight_get hash k' (with_flights hash f k n inner) =
  if decide (flight_shard hash k' = flight_shard hash k)
  then m ← rc_in_flight inner !! flight_shard hash k; map_get k' (f m)
  else flight_get hash k' inner.
Proof.
  intros Hwf. unfold flight_get, with_flights. cbn [rc_in_flight]. case_decide as Hs.
  - rewrite Hs, list_lookup_alter_eq. by destruct (rc_in_flight inner !! flight_shard hash k).
  - by rewrite list_lookup_alter_ne by congruence.
Qed.

Lemma flight_get_insert k i n inner k' :
  shards_wf inner ->
  flight_get hash k' (with_flights hash (map_insert k i) k n inner) =
  if decide (k' = k) then Some i else flight_get hash k' inner.
Proof.
  intros Hwf. rewrite flight_get_with by done.
  destruct (lookup_lt_is_Some_2 (rc_in_flight inner) (flight_shard hash k)) as [m Hm].
  { rewrite Hwf. apply flight_shard_lt. }
  rewrite Hm. cbn [mbind option_bind]. rewrite map_get_insert. unfold flight_get.
  repeat case_decide; subst; try done. by rewrite H, Hm.
Qed.

Lemma flight_get_remove k n inner k' :
  shards_wf inner ->
  flight_get hash k' (with_flights hash (map_remove k) k n inner) =
  if decide (k' = k) then None else flight_get hash k' inner.
Proof.
  intros Hwf. rewrite flight_get_with by done.
  destruct (lookup_lt_is_Some_2 (rc_in_flight inner) (flight_shard hash k)) as [m Hm].
  { rewrite Hwf. apply flight_shard_lt. }
  rewrite Hm. cbn [mbind option_bind]. rewrite map_get_remove. unfold flight_get.
  repeat case_decide; subst; try done. by rewrite H, Hm.
Qed.

#[local] Arguments map_insert : simpl never.
#[local] Arguments map_remove : simpl never.
#[local] Arguments flight_get : simpl never.

(** *** The invariant of a run *)

Record sys_inv (s : Sys) : Prop := {
  inv_shards : shards_wf (sys_inner s);
  inv_ids : NoDup (sys_leaders s).*1;
  inv_fresh : forall i l, (i, l) ∈ sys_leaders s -> (i < rc_next_flight (sys_inner s))%nat;
  inv_leader : forall i l, (i, l) ∈ sys_leaders s ->
    exists k, fl_key l = Some k /\ flight_get hash k (sys_inner s) = Some i;
  inv_flight : forall k i, flight_get hash k (sys_inner s) = Some i ->
    exists l, (i, l) ∈ sys_leaders s /\ fl_key l = Some k;
  inv_cached : forall k c, map_get k (rc_cache (sys_inner s)) = Some c ->
    (k, cro_required_namespaces c, cro_output c) ∈ sys_inserted s;
}.

Lemma sys_inv_init : sys_inv sys_init.
Proof.
  assert (Hno : forall k, flight_get hash k (sys_inner sys_init) = None).
  { intros k. unfold flight_get. cbn [sys_init sys_inner rc_in_flight].
    by rewrite lookup_replicate_2 by apply flight_shard_lt. }
  split; cbn [sys_init sys_leaders sys_inserted].
  - done.
  - constructor.
  - by intros i l ?%not_elem_of_nil.
  - by intros i l ?%not_elem_of_nil.
  - intros k i. by rewrite Hno.
  - done.
Qed.

(** The cases of a lookup. *)
Lemma lookup_cases key readable inner r inner' :
  lookup_or_join_key hash key readable inner = (r, inner') ->
  match r with
  | Disabled => False
  | Hit output => inner' = inner /\ cache_probe key readable inner = Some output
  | Wait f => inner' = inner /\ ff_key f = key /\ flight_get hash key inner = Some (ff_flight f)
  | Leader l => fl_key l = Some key /\ fl_required_namespaces l = readable /\
      flight_get hash key inner = None /\
      inner' = with_flights hash (map_insert key (rc_next_flight inner)) key
                 (S (rc_next_flight inner)) inner
  end.
Proof.
  unfold lookup_or_join_key. destruct (cache_probe key readable inner); [by intros [= <- <-]|].
  destruct (flight_get hash key inner) eqn:E; intros [= <- <-]; done.
Qed.

Lemma insert_cases l outcome inner inner' :
  insert_from_outcome l outcome inner = (true, inner') ->
  exists key info output, fl_key l = Some key /\ to_result outcome = Completed info output /\
    (forall c, map_get key (rc_cache inner) = Some c ->
       cro_required_namespaces c = fl_required_namespaces l) /\
    inner' = {| rc_cache := map_insert key
                  {| cro_output := output; cro_required_namespaces := fl_required_namespaces l |}
                  (rc_cache inner);
                rc_in_flight := rc_in_flight inner; rc_next_flight := rc_next_flight inner |}.
Proof.
  unfold insert_from_outcome. destruct (to_result outcome) as [info output| |]; try done.
  destruct (fl_key l) as [key|]; [|done].
  destruct (map_get key (rc_cache inner)) as [c|] eqn:Hc.
  - case_bool_decide as Hreq; [|done]. intros [= <-]. exists key, info, output.
    rewrite Hc. split_and!; [done|done| |done]. by intros c' [= <-].
  - intros [= <-]. exists key, info, output. rewrite Hc. by split_and!.
Qed.

Lemma sys_inv_step s s' : sys_inv s -> sys_step s s' -> sys_inv s'.
Proof.
  intros Hinv Hstep.
  destruct Hstep as [s key readable output H|s key readable l inner H|s key readable f inner H
    |s fs f fs' Hfs Hclosed|s i l outcome key info output inner Hin Hkey Hres H|s ls i l ls' Hls|s key].
  - done.
  - apply lookup_cases in H as (Hk & _ & Hnone & ->). destruct Hinv. split; cbn.
    + unfold shards_wf, with_flights. cbn. by rewrite length_alter.
    + constructor; [|done]. intros ([i l'] & Hi & Hin)%list_elem_of_fmap. cbn in Hi. subst i.
      apply inv_fresh0 in Hin. lia.
    + intros i l' [[= -> ->]|Hin]%elem_of_cons; [lia|]. apply inv_fresh0 in Hin. lia.
    + intros i l' [[= -> ->]|Hin]%elem_of_cons.
      * exists key. split; [done|]. rewrite flight_get_insert by done. by rewrite decide_True.
      * apply inv_leader0 in Hin as (k & Hk' & Hg). exists k. split; [done|].
        rewrite flight_get_insert by done. rewrite decide_False; [done|]. intros ->. congruence.
    + intros k i. rewrite flight_get_insert by done. case_decide as Hd.
      * intros [= <-]. subst. exists l. split; [left|done].
      * intros (l' & Hin & ?)%inv_flight0. exists l'. split; [by right|done].
    + done.
  - apply lookup_cases in H as (-> & _). by destruct Hinv.
  - by destruct Hinv.
  - apply insert_cases in H as (key' & info' & output' & Hk' & Hr' & _ & ->).
    destruct Hinv. split; cbn; try done. intros k c.
    rewrite Hres in Hr'. injection Hr' as <- <-. rewrite Hkey in Hk'. injection Hk' as <-.
    rewrite map_get_insert. case_decide as Hd.
    + intros [= <-]. subst. cbn. left.
    + intros ?%inv_cached0. by right.
  - destruct Hinv. assert (Hmem : (i, l) ∈ sys_leaders s) by (rewrite Hls; set_solver).
    destruct (inv_leader0 _ _ Hmem) as (key & Hk & Hg). unfold drop_leader. rewrite Hk.
    assert (Hsub : forall j l', (j, l') ∈ ls ++ ls' -> (j, l') ∈ sys_leaders s).
    { intros j l'. rewrite Hls, !elem_of_app, elem_of_cons. tauto. }
    assert (Hids : NoDup (ls ++ ls').*1 /\ i ∉ (ls ++ ls').*1).
    { rewrite Hls, fmap_app, fmap_cons in inv_ids0.
      apply NoDup_app in inv_ids0 as (H1 & H2 & [H3 H4]%NoDup_cons). cbn in *.
      rewrite fmap_app. rewrite NoDup_app, elem_of_app. split_and!; [done| |done|].
      - intros x Hx. specialize (H2 x Hx). rewrite elem_of_cons in H2. tauto.
      - intros [Hx|Hx]; [|done]. apply (H2 i Hx). left. }
    destruct Hids as [Hnd Hni].
    assert (Hother : forall j l', (j, l') ∈ ls ++ ls' -> j <> i).
    { intros j l' Hin ->. apply Hni, list_elem_of_fmap. by exists (i, l'). }
    split; cbn.
    + unfold shards_wf, with_flights. cbn. by rewrite length_alter.
    + done.
    + intros j l' Hin. by apply (inv_fresh0 j l'), Hsub.
    + intros j l' Hin. destruct (inv_leader0 _ _ (Hsub _ _ Hin)) as (k & Hk' & Hg').
      exists k. split; [done|]. rewrite flight_get_remove by done. rewrite decide_False; [done|].
      intros ->. rewrite Hg in Hg'. injection Hg' as <-. by apply (Hother i l').
    + intros k j. rewrite flight_get_remove by done. case_decide as Hd; [done|].
      intros (l' & Hin & Hk')%inv_flight0. exists l'. split; [|done].
      rewrite Hls, elem_of_app, elem_of_cons in Hin. rewrite elem_of_app.
      destruct Hin as [?|[[= -> ->]|?]]; [by left| |by right]. congruence.
    + done.
  - destruct Hinv. split; cbn; try done. intros k c. rewrite map_get_remove. case_decide; [done|].
    apply inv_cached0.
Qed.

Lemma reachable_inv s : reachable s -> sys_inv s.
Proof.
  intros H. unfold reachable in H. remember sys_init as s0 eqn:E.
  assert (Hinv : sys_inv s0) by (subst; apply sys_inv_init). clear E.
  induction H as [|s1 s2 s3 Hstep _ IH]; [done|]. apply IH. by eapply sys_inv_step.
Qed.

(** Every follower that waits has an open flight whose leader is alive, so the
    leader's drop wakes it. *)
Definition wakeable (s : Sys) (f : RenderFlightFollower) : Prop :=
  flight_get hash (ff_key f) (sys_inner s) <> Some (ff_flight f) \/
  exists i l, (i, l) ∈ sys_leaders s /\ fl_key l = Some (ff_key f) /\
    flight_get hash (ff_key f) (drop_leader hash l (sys_inner s)).2 = None.

(** [C21] Single flight without stranded waiters: in every run, however leaders
    complete, fail, or are cancelled and entries are evicted, a key has at most
    one live leader, a caller waits only while such a leader exists, and the
    drop of that leader closes the flight the follower waits for. *)
Theorem flights_never_strand s (Hs : reachable s) :
  (forall i l j l', (i, l) ∈ sys_leaders s -> (j, l') ∈ sys_leaders s -> fl_key l = fl_key l' ->
     (i, l) = (j, l')) /\
  Forall (wakeable s) (sys_followers s).
Proof.
  pose proof (reachable_inv s Hs) as Hinv. split.
  - intros i l j l' Hi Hj Hk.
    destruct (inv_leader _ Hinv _ _ Hi) as (k & Hk1 & Hg1).
    destruct (inv_leader _ Hinv _ _ Hj) as (k' & Hk2 & Hg2).
    assert (k' = k) as -> by congruence. assert (j = i) as -> by congruence.
    apply list_elem_of_lookup in Hi as [a Ha]. apply list_elem_of_lookup in Hj as [b Hb].
    assert (a = b) as ->; [|congruence]. eapply NoDup_lookup; [apply (inv_ids _ Hinv)| |];
      rewrite list_lookup_fmap; [by rewrite Ha|by rewrite Hb].
  - apply Forall_forall. intros f _. unfold wakeable.
    destruct (decide (flight_get hash (ff_key f) (sys_inner s) = Some (ff_flight f))) as [Ho|]; [right|by left].
    destruct (inv_flight _ Hinv _ _ Ho) as (l & Hin & Hk). exists (ff_flight f), l.
    split_and!; [done|done|]. unfold drop_leader. rewrite Hk. cbn [snd].
    rewrite flight_get_remove by apply (inv_shards _ Hinv). by rewrite decide_True.
Qed.

End Runs.

(** ** Witnesses *)

Definition demo_render (hash : Z) : InternalTask string :=
  {| t_id := 1; t_request_id := "r"; t_authorization := None;
     t_style := {| sr_id := "style"; sr_version := 1 |}; t_source := None;
     t_request := ReqStaticImage Auto 10 10 [OverlayGeoJson {| gj_feature_collection := "{}" |}] None
       (Padding_all 0) (Some {| al_json := "1:"; al_hash := hash; al_source := None |});
     t_pixel_ratio := PixelRatio_from X2; t_output_format := Png;
     t_arrived_at := 0; t_deadline := 1; t_forwarding_hops := 0 |}.

(** Witness: the addlayer hash is not part of the key. *)
Lemma cache_key_identifies_render_witness :
  RenderCacheKey_from_task (fun s => s) (demo_render 1) =
  RenderCacheKey_from_task (fun s => s) (demo_render 2).
Proof.
  refine (proj2 (cache_key_identifies_render (fun s => s) (demo_render 1) (demo_render 2) _ _) _).
  - vm_compute. split; [discriminate|exact I].
  - vm_compute. split; [discriminate|exact I].
  - repeat split; reflexivity.
Defined.

Definition demo_key : RenderCacheKey := RenderCacheKey_from_task (fun s => s) (demo_render 1).
Definition demo_ns : option NamespaceSet := Some {| namespaces := ["a"] |}.
Definition demo_output : RenderOutput := {| out_bytes := [1; 2]; out_format := Png |}.
Definition demo_outcome : TaskOutcome := cache_hit_outcome 0 "node-0" (demo_render 1) demo_output.
Definition demo_leader : RenderFlightLeader :=
  {| fl_key := Some demo_key; fl_required_namespaces := demo_ns |}.
Definition demo_follower : RenderFlightFollower :=
  {| ff_key := demo_key; ff_readable_namespaces := demo_ns; ff_flight := 0 |}.
Definition demo_inner : RenderOutputCacheInner :=
  (lookup_or_join_key (fun _ => 5) demo_key demo_ns (sys_inner sys_init)).2.
Definition demo_led : Sys :=
  {| sys_inner := demo_inner; sys_leaders := [(0%nat, demo_leader)]; sys_followers := [];
     sys_inserted := [] |}.
Definition demo_waiting : Sys :=
  {| sys_inner := demo_inner; sys_leaders := [(0%nat, demo_leader)];
     sys_followers := [demo_follower]; sys_inserted := [] |}.
Definition demo_inserted : Sys :=
  {| sys_inner := (insert_from_outcome demo_leader demo_outcome demo_inner).2;
     sys_leaders := [(0%nat, demo_leader)]; sys_followers := [demo_follower];
     sys_inserted := [(demo_key, demo_ns, demo_output)] |}.

Lemma demo_waiting_reachable : reachable (fun _ => 5) demo_waiting.
Proof.
  apply rtc_l with demo_led.
  { apply (step_lead (fun _ => 5) sys_init demo_key demo_ns). vm_compute. reflexivity. }
  apply rtc_once. apply (step_wait (fun _ => 5) demo_led demo_key demo_ns). vm_compute. reflexivity.
Qed.

Lemma demo_inserted_reachable : reachable (fun _ => 5) demo_inserted.
Proof.
  eapply rtc_r; [exact demo_waiting_reachable|].
  eapply (step_insert (fun _ => 5) demo_waiting 0 demo_leader demo_outcome demo_key _ demo_output);
    [left|reflexivity|reflexivity|vm_compute; reflexivity].
Qed.

(** Witness: a leader and a follower of one key. *)
Lemma flights_never_strand_witness : Forall (wakeable (fun _ => 5) demo_waiting) [demo_follower].
Proof. exact (proj2 (flights_never_strand (fun _ => 5) demo_waiting demo_waiting_reachable)). Defined.

