(* ===== verification/WorkerPool.v ===== *)
(** * The worker pool of a node (crates/biei-core/src/worker_pool.rs)

    The pool's prediction of what each worker holds, the choice of a worker for
    a task, the lock-free reservation of a queue slot, and the accounting that
    travels with every accepted command.  A worker is an index; a vector access
    out of range panics. *)

From S2P Require Import Prelude StdModel Types.

Local Open Scope list_scope.
Local Open Scope Z_scope.

Definition ADDLAYER_SOURCE_AFFINITY_CAPACITY : Z := 64.

(** ** Pool state *)

(** [profile_counts] is a [HashMap]; an id set is held as the list of its
    elements. *)
Record PoolState := {
  ps_loaded : list (option WorkerProfile);
  ps_dispatch_generations : list Z;
  ps_profile_counts : list (WorkerProfile * Z);
  ps_last_used : list (option Z);
  ps_addlayer_source_ids : list (list string);
  ps_addlayer_source_lru : list (list string);
}.

Definition PoolState_new (n : nat) : PoolState :=
  {| ps_loaded := replicate n None; ps_dispatch_generations := replicate n 0;
     ps_profile_counts := []; ps_last_used := replicate n None;
     ps_addlayer_source_ids := replicate n []; ps_addlayer_source_lru := replicate n [] |}.

(** [*count -= 1], and the entry is removed at zero. *)
Fixpoint count_dec (p : WorkerProfile) (counts : list (WorkerProfile * Z)) : list (WorkerProfile * Z) :=
  match counts with
  | [] => []
  | (q, n) :: counts =>
      if decide (p = q) then if n - 1 =? 0 then counts else (q, n - 1) :: counts
      else (q, n) :: count_dec p counts
  end.

Definition decrement_profile_count (p : WorkerProfile) (s : PoolState) : PoolState :=
  {| ps_loaded := ps_loaded s; ps_dispatch_generations := ps_dispatch_generations s;
     ps_profile_counts := count_dec p (ps_profile_counts s); ps_last_used := ps_last_used s;
     ps_addlayer_source_ids := ps_addlayer_source_ids s;
     ps_addlayer_source_lru := ps_addlayer_source_lru s |}.

Definition clear_addlayer_sources (idx : nat) (s : PoolState) : PoolState :=
  {| ps_loaded := ps_loaded s; ps_dispatch_generations := ps_dispatch_generations s;
     ps_profile_counts := ps_profile_counts s; ps_last_used := ps_last_used s;
     ps_addlayer_source_ids := <[idx := []]> (ps_addlayer_source_ids s);
     ps_addlayer_source_lru := <[idx := []]> (ps_addlayer_source_lru s) |}.

(** [if let Some(previous) = self.loaded[idx].take() { decrement }]. *)
Definition take_loaded (idx : nat) (s : PoolState) : PoolState :=
  match mjoin (ps_loaded s !! idx) with
  | Some previous =>
      decrement_profile_count previous
        {| ps_loaded := <[idx := None]> (ps_loaded s);
           ps_dispatch_generations := ps_dispatch_generations s;
           ps_profile_counts := ps_profile_counts s; ps_last_used := ps_last_used s;
           ps_addlayer_source_ids := ps_addlayer_source_ids s;
           ps_addlayer_source_lru := ps_addlayer_source_lru s |}
  | None => s
  end.

Definition mark_loaded (now : Z) (idx : nat) (profile : WorkerProfile) (s : PoolState)
    : Res Empty_set (Z * PoolState) :=
  match ps_dispatch_generations s !! idx with
  | None => Panic
  | Some g =>
      let generation := wrapping_add g 1 in
      let s := {| ps_loaded := ps_loaded s;
                  ps_dispatch_generations := <[idx := generation]> (ps_dispatch_generations s);
                  ps_profile_counts := ps_profile_counts s;
                  ps_last_used := <[idx := Some now]> (ps_last_used s);
                  ps_addlayer_source_ids := ps_addlayer_source_ids s;
                  ps_addlayer_source_lru := ps_addlayer_source_lru s |} in
      if bool_decide (mjoin (ps_loaded s !! idx) = Some profile) then Ok (generation, s)
      else
        let s := take_loaded idx s in
        let s := clear_addlayer_sources idx s in
        Ok (generation,
            {| ps_loaded := <[idx := Some profile]> (ps_loaded s);
               ps_dispatch_generations := ps_dispatch_generations s;
               ps_profile_counts := count_inc profile (ps_profile_counts s);
               ps_last_used := ps_last_used s;
               ps_addlayer_source_ids := ps_addlayer_source_ids s;
               ps_addlayer_source_lru := ps_addlayer_source_lru s |})
  end.

Definition set_remove (x : string) (l : list string) : list string :=
  List.filter (fun y => negb (bool_decide (y = x))) l.

(** The eviction [while]: one pass per element of the LRU queue at most. *)
Fixpoint evict_loop (ids lru : list string) : list string * list string :=
  match lru with
  | [] => (ids, lru)
  | evicted :: lru' =>
      if Z.of_nat (length ids) >=? ADDLAYER_SOURCE_AFFINITY_CAPACITY
      then evict_loop (set_remove evicted ids) lru'
      else (ids, lru)
  end.

Definition mark_addlayer_source (idx : nat) (source_id : string) (s : PoolState)
    : Res Empty_set PoolState :=
  match ps_addlayer_source_ids s !! idx, ps_addlayer_source_lru s !! idx with
  | Some ids, Some lru =>
      let '(ids, lru) :=
        if bool_decide (source_id ∈ ids) then (ids, set_remove source_id lru ++ [source_id])
        else
          let '(ids, lru) := evict_loop ids lru in
          (source_id :: ids, lru ++ [source_id]) in
      Ok {| ps_loaded := ps_loaded s; ps_dispatch_generations := ps_dispatch_generations s;
            ps_profile_counts := ps_profile_counts s; ps_last_used := ps_last_used s;
            ps_addlayer_source_ids := <[idx := ids]> (ps_addlayer_source_ids s);
            ps_addlayer_source_lru := <[idx := lru]> (ps_addlayer_source_lru s) |}
  | _, _ => Panic
  end.

Definition clear_loaded (idx : nat) (s : PoolState) : PoolState :=
  let s := take_loaded idx s in
  clear_addlayer_sources idx
    {| ps_loaded := ps_loaded s; ps_dispatch_generations := ps_dispatch_generations s;
       ps_profile_counts := ps_profile_counts s; ps_last_used := <[idx := None]> (ps_last_used s);
       ps_addlayer_source_ids := ps_addlayer_source_ids s;
       ps_addlayer_source_lru := ps_addlayer_source_lru s |}.

Definition clear_loaded_if_latest (idx : nat) (dispatch_generation : Z) (s : PoolState)
    : Res Empty_set PoolState :=
  match ps_dispatch_generations s !! idx with
  | None => Panic
  | Some g => Ok (if g =? dispatch_generation then clear_loaded idx s else s)
  end.

(** [WorkerCompletion::finish]: a failed or rejected outcome invalidates the
    prediction made at dispatch. *)
Definition WorkerCompletion_finish (idx : nat) (dispatch_generation : Z) (outcome : TaskOutcome)
    (s : PoolState) : Res Empty_set PoolState :=
  match to_result outcome with
  | Failed _ _ | Rejected _ => clear_loaded_if_latest idx dispatch_generation s
  | Completed _ _ => Ok s
  end.

(** ** Picking a worker *)

Inductive PickTier :=
  | WarmComfort | Fresh | WarmFull | AllocSwapIdle | WarmOverflow | WarmSaturated | ShortestQueue.
#[export] Instance PickTier_eq_dec : EqDecision PickTier.
Proof. solve_decision. Defined.

(** The derived order of the variants. *)
Definition tier_rank (t : PickTier) : Z :=
  match t with
  | WarmComfort => 0 | Fresh => 1 | WarmFull => 2 | AllocSwapIdle => 3 | WarmOverflow => 4
  | WarmSaturated => 5 | ShortestQueue => 6
  end.

Record PickScore := {
  sc_tier : PickTier; sc_source_miss : bool; sc_queue_depth : Z; sc_protected_singleton : bool;
  sc_shape_mismatch : bool; sc_profile_count : Z; sc_last_seen : option Z }.

(** [Option]'s order: [None] first. *)
Definition option_cmp (a b : option Z) : comparison :=
  match a, b with
  | None, None => Eq
  | None, Some _ => Lt
  | Some _, None => Gt
  | Some a, Some b => Z.compare a b
  end.

(** The derived lexicographic order; the count is wrapped in [Reverse]. *)
Definition score_cmp (a b : PickScore) : comparison :=
  then_cmp (Z.compare (tier_rank (sc_tier a)) (tier_rank (sc_tier b)))
  (then_cmp (bool_cmp (sc_source_miss a) (sc_source_miss b))
  (then_cmp (Z.compare (sc_queue_depth a) (sc_queue_depth b))
  (then_cmp (bool_cmp (sc_protected_singleton a) (sc_protected_singleton b))
  (then_cmp (bool_cmp (sc_shape_mismatch a) (sc_shape_mismatch b))
  (then_cmp (Z.compare (sc_profile_count b) (sc_profile_count a))
            (option_cmp (sc_last_seen a) (sc_last_seen b))))))).

Record PickContext := {
  px_state : PoolState;
  px_incoming_addlayer_source_id : option string;
  px_incoming_profile : WorkerProfile;
  px_bl_capacity : Z;
  px_queue_capacity : Z;
}.

Definition pick_tier (ctx : PickContext) (loaded_profile : option WorkerProfile) (queue_depth : Z) : PickTier :=
  let warm := bool_decide (loaded_profile = Some (px_incoming_profile ctx)) in
  let expand_threshold := Z.max (wrapping_mul (px_bl_capacity ctx) 2 / 3) 1 in
  match loaded_profile with
  | None => Fresh
  | Some profile =>
      if warm && (queue_depth <? expand_threshold) then WarmComfort
      else if warm && (queue_depth <? px_bl_capacity ctx) then WarmFull
      else if negb (bool_decide (profile = px_incoming_profile ctx)) && (queue_depth =? 0) then AllocSwapIdle
      else if warm && (queue_depth <? px_queue_capacity ctx) then WarmOverflow
      else if warm then WarmSaturated
      else ShortestQueue
  end.

Definition pick_score (ctx : PickContext) (idx : nat) (queue_depth : Z) : PickScore :=
  let s := px_state ctx in
  let loaded_profile := mjoin (ps_loaded s !! idx) in
  let tier := pick_tier ctx loaded_profile queue_depth in
  let source_miss := match px_incoming_addlayer_source_id ctx with
                     | None => false
                     | Some id => negb (bool_decide (id ∈ default [] (ps_addlayer_source_ids s !! idx)))
                     end in
  match bool_decide (tier = AllocSwapIdle), loaded_profile with
  | true, Some profile =>
      let count := count_get profile (ps_profile_counts s) in
      {| sc_tier := tier; sc_source_miss := source_miss; sc_queue_depth := queue_depth;
         sc_protected_singleton := count <=? 1;
         sc_shape_mismatch :=
           negb (bool_decide (wp_render_mode profile = wp_render_mode (px_incoming_profile ctx)))
           || negb (bool_decide (wp_scale profile = wp_scale (px_incoming_profile ctx)));
         sc_profile_count := count;
         sc_last_seen := mjoin (ps_last_used s !! idx) |}
  | _, _ =>
      {| sc_tier := tier; sc_source_miss := source_miss; sc_queue_depth := queue_depth;
         sc_protected_singleton := false; sc_shape_mismatch := false;
         sc_profile_count := usize_max; sc_last_seen := None |}
  end.

(** [Iterator::min_by_key]: the first of the smallest elements. *)
Fixpoint min_from {A} (cmp : A -> A -> comparison) (best : A) (l : list A) : A :=
  match l with
  | [] => best
  | x :: l => min_from cmp (match cmp best x with Gt => x | _ => best end) l
  end.
Definition min_by {A} (cmp : A -> A -> comparison) (l : list A) : option A :=
  match l with [] => None | x :: l => Some (min_from cmp x l) end.

(** The workers below the hard limit with their scores; [depths] are the queue
    depths the scan reads. *)
Definition scored_workers (ctx : PickContext) (depths : list Z) : list (nat * PickScore) :=
  omap (fun idx =>
    let queue_depth := default 0 (depths !! idx) in
    if queue_depth <? px_queue_capacity ctx then Some (idx, pick_score ctx idx queue_depth) else None)
    (seq 0 (length depths)).

Definition best_available_worker (ctx : PickContext) (depths : list Z) : option nat :=
  fst <$> min_by (fun a b => score_cmp a.2 b.2) (scored_workers ctx depths).

(** ** Pool configuration and snapshots *)

(** [WorkerPool::spawn]: clamped permits and queue limits. *)
Record PoolLimits := {
  pl_bl_capacity : Z; pl_queue_capacity : Z; pl_render_permits : Z; pl_native_render_permits : Z }.

Definition spawn_limits (n bl_capacity queue_capacity render_permits native_render_permits : Z) : PoolLimits :=
  let render_permits := Z.min (Z.max render_permits 1) (Z.max n 1) in
  {| pl_bl_capacity := bl_capacity; pl_queue_capacity := Z.max queue_capacity bl_capacity;
     pl_render_permits := render_permits;
     pl_native_render_permits := Z.min (Z.max native_render_permits 1) render_permits |}.

(** [i as WorkerId] keeps the low 32 bits. *)
Definition as_worker_id (i : nat) : WorkerId := Z.of_nat i mod 2 ^ 32.

Definition snapshot_workers (depths : list Z) (s : PoolState) : list WorkerView :=
  imap (fun i depth => {| wv_id := as_worker_id i; wv_loaded_profile := mjoin (ps_loaded s !! i);
                          wv_queue_depth := depth |}) depths.

Definition snapshot_kvs (depths : list Z) (s : PoolState) : NodeKvs :=
  foldl (fun out '(i, depth) => encode_worker_kvs out (as_worker_id i) (mjoin (ps_loaded s !! i)) depth)
    [] (imap pair depths).

(** [WorkerPool::shutdown]: the joins that finish before the deadline; a handle
    that was already taken is skipped. *)
Record WorkerShutdown := { joined : Z; timed_out : Z }.
Definition shutdown (handles : list (option bool)) : WorkerShutdown :=
  foldl (fun out h => match h with
    | None => out
    | Some true => {| joined := joined out + 1; timed_out := timed_out out |}
    | Some false => {| joined := joined out; timed_out := timed_out out + 1 |}
    end) {| joined := 0; timed_out := 0 |} handles.
Definition is_complete (w : WorkerShutdown) : bool := timed_out w =? 0.

(** ** The pool state invariant *)

Definition loaded_count (p : WorkerProfile) (l : list (option WorkerProfile)) : Z :=
  Z.of_nat (length (List.filter (fun o => bool_decide (o = Some p)) l)).

(** The counters are exactly the numbers of workers per profile. *)
Record counts_ok (counts : list (WorkerProfile * Z)) (loaded : list (option WorkerProfile)) : Prop := {
  counts_nodup : NoDup counts.*1;
  counts_positive : Forall (fun e => 1 <= e.2) counts;
  counts_exact : forall p, count_get p counts = loaded_count p loaded;
}.

(** The affinity set and its LRU queue hold the same ids, at most 64. *)
Definition sources_ok (ids lru : list string) : Prop :=
  NoDup ids /\ NoDup lru /\ (forall x, x ∈ ids <-> x ∈ lru) /\
  Z.of_nat (length ids) <= ADDLAYER_SOURCE_AFFINITY_CAPACITY.

Record pool_wf (n : nat) (s : PoolState) : Prop := {
  wf_loaded : length (ps_loaded s) = n;
  wf_generations : length (ps_dispatch_generations s) = n;
  wf_last_used : length (ps_last_used s) = n;
  wf_ids : length (ps_addlayer_source_ids s) = n;
  wf_lru : length (ps_addlayer_source_lru s) = n;
  wf_counts : counts_ok (ps_profile_counts s) (ps_loaded s);
  wf_sources : forall i ids lru, ps_addlayer_source_ids s !! i = Some ids ->
    ps_addlayer_source_lru s !! i = Some lru -> sources_ok ids lru;
}.

Lemma loaded_count_insert p l i o o' :
  l !! i = Some o ->
  loaded_count p (<[i := o']> l) =
  loaded_count p l - (if decide (o = Some p) then 1 else 0) + (if decide (o' = Some p) then 1 else 0).
Proof.
  intros Hi. unfold loaded_count. rewrite (filter_count_insert _ _ _ _ _ Hi).
  repeat case_bool_decide; repeat case_decide; cbn [Z.b2z]; (done || lia).
Qed.

Lemma count_inc_keys p counts q : q ∈ (count_inc p counts).*1 -> q = p \/ q ∈ counts.*1.
Proof.
  induction counts as [|[r n] counts IH]; cbn [count_inc].
  - cbn. rewrite list_elem_of_singleton. by left.
  - case_decide; rewrite !fmap_cons, !elem_of_cons; cbn; [tauto|]. intros [->|?]; tauto.
Qed.

Lemma count_dec_keys p counts q : q ∈ (count_dec p counts).*1 -> q ∈ counts.*1.
Proof.
  induction counts as [|[r n] counts IH]; cbn [count_dec]; [done|].
  case_decide; [case_match|]; rewrite !fmap_cons, ?elem_of_cons; cbn; tauto.
Qed.

Lemma count_inc_ok p counts :
  NoDup counts.*1 -> Forall (fun e : WorkerProfile * Z => 1 <= e.2) counts ->
  NoDup (count_inc p counts).*1 /\ Forall (fun e => 1 <= e.2) (count_inc p counts).
Proof.
  induction counts as [|[q n] counts IH]; intros Hnd Hpos; cbn [count_inc].
  - split; repeat constructor; set_solver.
  - rewrite fmap_cons in Hnd. apply NoDup_cons in Hnd as [Hq Hnd].
    apply Forall_cons in Hpos as [Hn Hpos]. cbn in *. destruct (IH Hnd Hpos) as [H1 H2].
    case_decide as Hd.
    + split; [by constructor|]. constructor; [cbn; lia|done].
    + split; [|by constructor]. constructor; [|done]. intros Hin.
      apply count_inc_keys in Hin as [He|?]; [by cbn in He; subst|done].
Qed.

Lemma count_dec_ok p counts :
  NoDup counts.*1 -> Forall (fun e : WorkerProfile * Z => 1 <= e.2) counts ->
  NoDup (count_dec p counts).*1 /\ Forall (fun e => 1 <= e.2) (count_dec p counts).
Proof.
  induction counts as [|[q n] counts IH]; intros Hnd Hpos; cbn [count_dec]; [done|].
  rewrite fmap_cons in Hnd. apply NoDup_cons in Hnd as [Hq Hnd].
  apply Forall_cons in Hpos as [Hn Hpos]. cbn in *. destruct (IH Hnd Hpos) as [H1 H2].
  case_decide as Hd; [destruct (Z.eqb_spec (n - 1) 0)|].
  - done.
  - split; [by constructor|]. constructor; [cbn; lia|done].
  - split; [|by constructor]. constructor; [|done]. intros Hin. by apply count_dec_keys in Hin.
Qed.

Lemma count_get_absent p counts : p ∉ counts.*1 -> count_get p counts = 0.
Proof.
  induction counts as [|[q n] counts IH]; [done|]. rewrite fmap_cons, not_elem_of_cons. cbn.
  intros [Hne Hni]. rewrite decide_False by done. by apply IH.
Qed.

Lemma count_get_dec p q counts :
  NoDup counts.*1 -> 1 <= count_get p counts ->
  count_get q (count_dec p counts) = count_get q counts - (if decide (q = p) then 1 else 0).
Proof.
  induction counts as [|[r n] counts IH]; intros Hnd Hge; cbn [count_dec count_get] in *; [lia|].
  rewrite fmap_cons in Hnd. apply NoDup_cons in Hnd as [Hr Hnd]. cbn in Hr.
  destruct (decide (p = r)) as [->|Hpr].
  - destruct (Z.eqb_spec (n - 1) 0); cbn [count_get].
    + destruct (decide (q = r)) as [->|]; [|lia]. rewrite count_get_absent by done. lia.
    + case_decide; lia.
  - cbn [count_get]. destruct (decide (q = r)) as [->|].
    + rewrite decide_False by congruence. lia.
    + by apply IH.
Qed.

(** Replacing one worker's profile keeps the counters exact. *)
Lemma counts_ok_take counts loaded i p :
  counts_ok counts loaded -> loaded !! i = Some (Some p) ->
  counts_ok (count_dec p counts) (<[i := None]> loaded).
Proof.
  intros [Hnd Hpos Hex] Hi.
  assert (Hge : 1 <= count_get p counts).
  { rewrite Hex. pose proof (loaded_count_insert p loaded i _ None Hi) as H.
    rewrite decide_True, decide_False in H by done. unfold loaded_count in *. lia. }
  destruct (count_dec_ok p counts Hnd Hpos) as [H1 H2]. split; [done..|]. intros q.
  rewrite count_get_dec by done. rewrite (loaded_count_insert q _ _ _ _ Hi), Hex.
  rewrite (decide_False (P := None = Some q)) by done.
  repeat case_decide; simplify_eq; lia.
Qed.

Lemma counts_ok_put counts loaded i p :
  counts_ok counts loaded -> loaded !! i = Some None ->
  counts_ok (count_inc p counts) (<[i := Some p]> loaded).
Proof.
  intros [Hnd Hpos Hex] Hi. destruct (count_inc_ok p counts Hnd Hpos) as [H1 H2].
  split; [done..|]. intros q. rewrite count_get_inc, (loaded_count_insert q _ _ _ _ Hi), Hex.
  rewrite (decide_False (P := None = Some q)) by done.
  repeat case_decide; simplify_eq; lia.
Qed.

Lemma PoolState_new_wf n : pool_wf n (PoolState_new n).
Proof.
  split; cbn; try by rewrite length_replicate.
  - split; [constructor|constructor|]. intros p. cbn. unfold loaded_count.
    induction n as [|n IH]; cbn; [done|]. by rewrite bool_decide_false.
  - intros i ids lru [-> _]%lookup_replicate_1 [-> _]%lookup_replicate_1.
    split_and!; [constructor|constructor|done|done].
Qed.

Lemma take_loaded_wf n idx s :
  pool_wf n s -> (idx < n)%nat ->
  pool_wf n (take_loaded idx s) /\ ps_loaded (take_loaded idx s) !! idx = Some None.
Proof.
  intros Hwf Hidx. destruct Hwf as [H1 H2 H3 H4 H5 H6 H7]. unfold take_loaded.
  destruct (lookup_lt_is_Some_2 (ps_loaded s) idx) as [o Ho]; [lia|]. rewrite Ho.
  destruct o as [p|]; cbn; [|done]. split.
  - split; cbn; try done; [by rewrite length_insert|by apply counts_ok_take].
  - apply list_lookup_insert_eq. lia.
Qed.

Lemma sources_ok_nil : sources_ok [] [].
Proof. split_and!; [constructor|constructor|done|done]. Qed.

Lemma insert_sources_wf (n idx : nat) (idss lrus : list (list string)) ids lru :
  length idss = n -> length lrus = n ->
  (forall i ids lru, idss !! i = Some ids -> lrus !! i = Some lru -> sources_ok ids lru) ->
  sources_ok ids lru ->
  forall i ids' lru', <[idx := ids]> idss !! i = Some ids' -> <[idx := lru]> lrus !! i = Some lru' ->
    sources_ok ids' lru'.
Proof.
  intros H1 H2 Hall Hok i ids' lru' Hi Hl.
  apply list_lookup_insert_Some in Hi as [(-> & <- & _)|[Hne Hi]];
    apply list_lookup_insert_Some in Hl as [(? & <- & _)|[Hne' Hl]]; try done.
  by eapply Hall.
Qed.

Lemma clear_addlayer_sources_wf n idx s : pool_wf n s -> pool_wf n (clear_addlayer_sources idx s).
Proof.
  intros [H1 H2 H3 H4 H5 H6 H7]. split; cbn; rewrite ?length_insert; try done.
  by apply (insert_sources_wf n); [..|apply sources_ok_nil].
Qed.

(** A dispatch commits the worker to the task's profile. *)
Lemma mark_loaded_wf n now idx p s :
  pool_wf n s -> (idx < n)%nat ->
  exists g s', mark_loaded now idx p s = Ok (g, s') /\ pool_wf n s' /\
    ps_loaded s' !! idx = Some (Some p) /\ ps_dispatch_generations s' !! idx = Some g /\
    (forall j, j <> idx -> ps_loaded s' !! j = ps_loaded s !! j /\
       ps_dispatch_generations s' !! j = ps_dispatch_generations s !! j).
Proof.
  intros Hwf Hidx. pose proof Hwf as [H1 H2 H3 H4 H5 H6 H7]. unfold mark_loaded.
  destruct (lookup_lt_is_Some_2 (ps_dispatch_generations s) idx) as [g Hg]; [lia|]. rewrite Hg.
  match goal with |- context [take_loaded idx ?st] => set (s0 := st) end.
  assert (Hwf0 : pool_wf n s0) by (split; cbn; rewrite ?length_insert; done).
  assert (Hg0 : ps_dispatch_generations s0 !! idx = Some (wrapping_add g 1)).
  { apply list_lookup_insert_eq. lia. }
  assert (Hj0 : forall j, j <> idx -> ps_dispatch_generations s0 !! j = ps_dispatch_generations s !! j).
  { intros j Hj. apply list_lookup_insert_ne. congruence. }
  case_bool_decide as Hsame.
  - exists (wrapping_add g 1), s0. split_and!; [done|done| |done|by intros j Hj; auto].
    change (ps_loaded s0) with (ps_loaded s) in *.
    destruct (ps_loaded s !! idx) as [o|]; cbn in Hsame; congruence.
  - destruct (take_loaded_wf n idx s0 Hwf0 Hidx) as [Hwf1 Hnone].
    assert (Hgen : ps_dispatch_generations (take_loaded idx s0) = ps_dispatch_generations s0 /\
                   forall j, j <> idx -> ps_loaded (take_loaded idx s0) !! j = ps_loaded s !! j).
    { unfold take_loaded. destruct (mjoin (ps_loaded s0 !! idx)); cbn; [|done]. split; [done|].
      intros j Hj. apply list_lookup_insert_ne. congruence. }
    destruct Hgen as [Hgen Hl]. apply (clear_addlayer_sources_wf n idx) in Hwf1 as Hwf2.
    eexists _, _. split; [done|]. split_and!.
    + destruct Hwf2 as [K1 K2 K3 K4 K5 K6 K7]. split; cbn in *; rewrite ?length_insert in *; try done.
      by apply counts_ok_put.
    + cbn. apply list_lookup_insert_eq. rewrite (wf_loaded _ _ Hwf1). lia.
    + cbn. by rewrite Hgen.
    + intros j Hj. cbn. rewrite Hgen, Hj0 by done. split; [|done].
      rewrite list_lookup_insert_ne by congruence. by apply Hl.
Qed.

Lemma clear_loaded_wf n idx s :
  pool_wf n s -> (idx < n)%nat ->
  pool_wf n (clear_loaded idx s) /\ ps_loaded (clear_loaded idx s) !! idx = Some None.
Proof.
  intros Hwf Hidx. unfold clear_loaded. destruct (take_loaded_wf n idx s Hwf Hidx) as [Hwf1 Hnone].
  split; [|done]. apply clear_addlayer_sources_wf. destruct Hwf1. split; cbn; rewrite ?length_insert; done.
Qed.

(** A failed or dropped command invalidates the prediction only if no later
    command was dispatched to the worker. *)
Lemma clear_loaded_if_latest_wf n idx g s :
  pool_wf n s -> (idx < n)%nat ->
  exists s', clear_loaded_if_latest idx g s = Ok s' /\ pool_wf n s' /\
    (if decide (ps_dispatch_generations s !! idx = Some g) then ps_loaded s' !! idx = Some None
     else s' = s).
Proof.
  intros Hwf Hidx. unfold clear_loaded_if_latest.
  destruct (lookup_lt_is_Some_2 (ps_dispatch_generations s) idx) as [g' Hg].
  { destruct Hwf. lia. }
  rewrite Hg. eexists. split; [done|].
  destruct (Z.eqb_spec g' g) as [->|Hne].
  - rewrite decide_True by done. by apply clear_loaded_wf.
  - rewrite decide_False by congruence. done.
Qed.

Lemma set_remove_spec x l y : y ∈ set_remove x l <-> y ∈ l /\ y <> x.
Proof.
  unfold set_remove. rewrite list_elem_of_In, filter_In, <- list_elem_of_In.
  by rewrite negb_true_iff, bool_decide_eq_false.
Qed.

Lemma set_remove_nodup x l : NoDup l -> NoDup (set_remove x l).
Proof.
  unfold set_remove. induction 1 as [|y l Hy Hl IH]; cbn; [constructor|].
  case_match; [|done]. constructor; [|done]. intros Hin. by apply (set_remove_spec x) in Hin as [? _].
Qed.

Lemma set_remove_notin x l : x ∉ l -> set_remove x l = l.
Proof.
  unfold set_remove. induction l as [|y l IH]; cbn; [done|]. rewrite not_elem_of_cons. intros [H1 H2].
  rewrite bool_decide_false by congruence. cbn. by rewrite IH.
Qed.

Lemma sources_length ids lru : sources_ok ids lru -> length ids = length lru.
Proof.
  intros (H1 & H2 & H3 & _). by rewrite (NoDup_Permutation ids lru H1 H2 H3).
Qed.

(** Eviction leaves room for one more id. *)
Lemma evict_loop_ok ids lru :
  sources_ok ids lru ->
  let r := evict_loop ids lru in
  sources_ok r.1 r.2 /\ Z.of_nat (length r.1) < ADDLAYER_SOURCE_AFFINITY_CAPACITY /\
  (forall x, x ∈ r.1 -> x ∈ ids).
Proof.
  revert ids. induction lru as [|e lru IH]; intros ids Hok; cbn [evict_loop].
  - pose proof (sources_length _ _ Hok) as Hl. destruct ids; [|done].
    split_and!; [done|by vm_compute|done].
  - rewrite Z.geb_leb. destruct (Z.leb_spec ADDLAYER_SOURCE_AFFINITY_CAPACITY (Z.of_nat (length ids))).
    + destruct Hok as (H1 & [H2 H3]%NoDup_cons & H4 & H5).
      destruct (IH (set_remove e ids)) as (Hok' & Hlt & Hsub).
      { split_and!; [by apply set_remove_nodup|done| |].
        - intros x. rewrite set_remove_spec, H4, elem_of_cons. split; [tauto|].
          intros Hx. split; [tauto|]. by intros ->.
        - assert (length (set_remove e ids) <= length ids)%nat; [|lia].
          unfold set_remove. clear. induction ids; cbn; [lia|]. case_match; cbn; lia. }
      split_and!; [done|done|]. intros x Hx%Hsub. by apply set_remove_spec in Hx as [? _].
    + by split_and!.
Qed.

Lemma mark_addlayer_source_wf n idx x s :
  pool_wf n s -> (idx < n)%nat ->
  exists s', mark_addlayer_source idx x s = Ok s' /\ pool_wf n s' /\
    (exists ids, ps_addlayer_source_ids s' !! idx = Some ids /\ x ∈ ids) /\
    ps_loaded s' = ps_loaded s /\ ps_dispatch_generations s' = ps_dispatch_generations s.
Proof.
  intros Hwf Hidx. pose proof Hwf as [H1 H2 H3 H4 H5 H6 H7]. unfold mark_addlayer_source.
  destruct (lookup_lt_is_Some_2 (ps_addlayer_source_ids s) idx) as [ids Hi]; [lia|].
  destruct (lookup_lt_is_Some_2 (ps_addlayer_source_lru s) idx) as [lru Hl]; [lia|].
  rewrite Hi, Hl. pose proof (H7 _ _ _ Hi Hl) as Hok.
  assert (Hnew : exists ids' lru', (if bool_decide (x ∈ ids) then (ids, set_remove x lru ++ [x])
      else let '(ids, lru) := evict_loop ids lru in (x :: ids, lru ++ [x])) = (ids', lru') /\
      sources_ok ids' lru' /\ x ∈ ids').
  { case_bool_decide as Hx.
    - eexists _, _. split; [done|]. destruct Hok as (K1 & K2 & K3 & K4). split; [|done]. split_and!; [done| | |done].
      + apply NoDup_app. split_and!; [by apply set_remove_nodup| |apply NoDup_singleton].
        intros y [_ Hy]%set_remove_spec ->%list_elem_of_singleton. done.
      + intros y. rewrite elem_of_app, set_remove_spec, list_elem_of_singleton, K3.
        destruct (decide (y = x)) as [->|]; [|tauto]. rewrite K3 in Hx. tauto.
    - destruct (evict_loop_ok ids lru Hok) as ((K1 & K2 & K3 & K4) & Hlt & Hsub).
      destruct (evict_loop ids lru) as [ids1 lru1]. cbn in *. eexists _, _. split; [done|].
      assert (Hx1 : x ∉ ids1) by (intros ?%Hsub; done).
      split; [|left]. split_and!.
      + by constructor.
      + apply NoDup_app. split_and!; [done| |apply NoDup_singleton].
        intros y Hy ->%list_elem_of_singleton. by apply K3 in Hy.
      + intros y. rewrite elem_of_cons, elem_of_app, list_elem_of_singleton, K3. tauto.
      + cbn. lia. }
  destruct Hnew as (ids' & lru' & -> & Hok' & Hx). eexists. split; [done|]. split_and!; cbn.
  - split; cbn; rewrite ?length_insert; try done. by apply (insert_sources_wf n).
  - exists ids'. split; [|done]. apply list_lookup_insert_eq. lia.
  - done.
  - done.
Qed.

(** The pool's bookkeeping is exact: from a new pool, every dispatch,
    source mark and invalidation keeps the per-profile counters equal to the
    number of workers that hold the profile, and each worker's source-affinity
    set equal to its LRU queue with at most 64 ids; none of them panics on a
    worker of the pool. *)
Theorem pool_state_invariant n s idx now p x g
    (Hwf : pool_wf n s) (Hidx : (idx < n)%nat) :
  pool_wf n (PoolState_new n) /\
  (exists g' s', mark_loaded now idx p s = Ok (g', s') /\ pool_wf n s' /\
     ps_loaded s' !! idx = Some (Some p) /\ ps_dispatch_generations s' !! idx = Some g') /\
  (exists s', mark_addlayer_source idx x s = Ok s' /\ pool_wf n s' /\
     exists ids, ps_addlayer_source_ids s' !! idx = Some ids /\ x ∈ ids) /\
  (exists s', clear_loaded_if_latest idx g s = Ok s' /\ pool_wf n s' /\
     if decide (ps_dispatch_generations s !! idx = Some g) then ps_loaded s' !! idx = Some None
     else s' = s).
Proof.
  split_and!.
  - apply PoolState_new_wf.
  - destruct (mark_loaded_wf n now idx p s Hwf Hidx) as (g' & s' & ? & ? & ? & ? & _). by exists g', s'.
  - destruct (mark_addlayer_source_wf n idx x s Hwf Hidx) as (s' & ? & ? & ? & _). by exists s'.
  - by apply clear_loaded_if_latest_wf.
Qed.

(** ** The pick *)

#[export] Instance option_preorder : TotalPreorderCmp option_cmp.
Proof.
  split.
  - intros [a|] [b|]; cbn; try done. apply Z.compare_antisym.
  - intros [a|] [b|] [c|]; cbn; try done. apply (cmp_le_trans Z.compare).
Qed.

#[export] Instance score_preorder : TotalPreorderCmp score_cmp.
Proof.
  unfold score_cmp. repeat apply then_preorder.
  - apply (comap_preorder (fun a => tier_rank (sc_tier a))), _.
  - apply (comap_preorder sc_source_miss), _.
  - apply (comap_preorder sc_queue_depth), _.
  - apply (comap_preorder sc_protected_singleton), _.
  - apply (comap_preorder sc_shape_mismatch), _.
  - exact (@flip_preorder _ (fun a b => Z.compare (sc_profile_count a) (sc_profile_count b))
      (comap_preorder sc_profile_count Z.compare)).
  - apply (comap_preorder sc_last_seen), _.
Qed.

Lemma min_from_spec {A} (cmp : A -> A -> comparison) `{!TotalPreorderCmp cmp} b l :
  let m := min_from cmp b l in
  (m = b \/ m ∈ l) /\ cmp m b <> Gt /\ forall y, y ∈ l -> cmp m y <> Gt.
Proof.
  revert b. induction l as [|x l IH]; intros b; cbn [min_from].
  - split_and!; [by left| |by intros y ?%not_elem_of_nil]. intros Hgt.
    pose proof (cmp_antisym cmp b b) as Ha. by rewrite Hgt in Ha.
  - match goal with |- context [min_from cmp ?b' l] => destruct (IH b') as (H1 & H2 & H3); set (b0 := b') in * end.
    assert (Hb : cmp b0 b <> Gt /\ cmp b0 x <> Gt).
    { subst b0. destruct (cmp b x) eqn:E.
      1, 2: split; [|congruence]; intros Hgt; pose proof (cmp_antisym cmp b b) as Ha; by rewrite Hgt in Ha.
      split; [by rewrite (cmp_antisym cmp b x), E|]. intros Hgt.
      pose proof (cmp_antisym cmp x x) as Ha. by rewrite Hgt in Ha. }
    split_and!.
    + destruct H1 as [->|?]; [|right; by right]. subst b0. destruct (cmp b x); [by left|by left|right; left].
    + apply (cmp_le_trans cmp _ b0); tauto.
    + intros y [->|Hy]%elem_of_cons; [apply (cmp_le_trans cmp _ b0); tauto|by apply H3].
Qed.

Lemma scored_elem ctx depths idx sc :
  (idx, sc) ∈ scored_workers ctx depths <->
  exists d, depths !! idx = Some d /\ d < px_queue_capacity ctx /\ sc = pick_score ctx idx d.
Proof.
  unfold scored_workers. rewrite list_elem_of_omap. split.
  - intros (i & Hi & He). apply elem_of_seq in Hi.
    destruct (lookup_lt_is_Some_2 depths i) as [d Hd]; [lia|]. rewrite Hd in He. cbn in He.
    destruct (Z.ltb_spec d (px_queue_capacity ctx)); [|done]. injection He as -> <-. eauto.
  - intros (d & Hd & Hlt & ->). exists idx. split.
    + apply elem_of_seq. apply lookup_lt_Some in Hd. lia.
    + rewrite Hd. cbn. by rewrite (proj2 (Z.ltb_lt _ _)).
Qed.

(** The profile a worker is committed to. *)
Definition holds (ctx : PickContext) (idx : nat) : option WorkerProfile := mjoin (ps_loaded (px_state ctx) !! idx).

Lemma pick_score_tier ctx idx d : sc_tier (pick_score ctx idx d) = pick_tier ctx (holds ctx idx) d.
Proof. unfold pick_score, holds. by repeat case_match. Qed.

Lemma score_le_tier a b : score_cmp a b <> Gt -> tier_rank (sc_tier a) <= tier_rank (sc_tier b).
Proof.
  unfold score_cmp, then_cmp. destruct (Z.compare_spec (tier_rank (sc_tier a)) (tier_rank (sc_tier b))); (lia || done).
Qed.

(** The pick: a worker is chosen whenever one is below the hard limit; the
    choice is below the hard limit and has the smallest score; and no other
    profile is evicted while an eligible worker is fresh, or is warm for the
    task below the soft limit. *)
Theorem best_available_worker_spec ctx depths :
  match best_available_worker ctx depths with
  | None => forall idx d, depths !! idx = Some d -> px_queue_capacity ctx <= d
  | Some idx =>
      exists d, depths !! idx = Some d /\ d < px_queue_capacity ctx /\
      (forall j dj, depths !! j = Some dj -> dj < px_queue_capacity ctx ->
         score_cmp (pick_score ctx idx d) (pick_score ctx j dj) <> Gt) /\
      (forall j dj, depths !! j = Some dj -> dj < px_queue_capacity ctx ->
         holds ctx j = None \/ (holds ctx j = Some (px_incoming_profile ctx) /\ dj < px_bl_capacity ctx) ->
         holds ctx idx = None \/ holds ctx idx = Some (px_incoming_profile ctx))
  end.
Proof.
  unfold best_available_worker, min_by.
  destruct (scored_workers ctx depths) as [|[i0 sc0] l] eqn:El; cbn [fmap option_fmap option_map].
  - intros idx d Hd. destruct (Z.le_gt_cases (px_queue_capacity ctx) d); [done|exfalso].
    assert (Hin : (idx, pick_score ctx idx d) ∈ scored_workers ctx depths) by (apply scored_elem; eauto).
    rewrite El in Hin. by apply not_elem_of_nil in Hin.
  - pose proof (min_from_spec (fun a b : nat * PickScore => score_cmp a.2 b.2)
      (TotalPreorderCmp0 := comap_preorder snd score_cmp) (i0, sc0) l) as (Hm & Hb & Hl).
    destruct (min_from _ (i0, sc0) l) as [idx sc]. cbn [fst snd] in *.
    assert (Hin : (idx, sc) ∈ scored_workers ctx depths).
    { rewrite El. destruct Hm as [->|?]; [left|by right]. }
    apply scored_elem in Hin as (d & Hd & Hlt & ->). exists d. split; [done|]. split; [done|].
    assert (Hmin : forall j dj, depths !! j = Some dj -> dj < px_queue_capacity ctx ->
      score_cmp (pick_score ctx idx d) (pick_score ctx j dj) <> Gt).
    { intros j dj Hj Hlj. assert (Hin : (j, pick_score ctx j dj) ∈ (i0, sc0) :: l).
      { rewrite <- El. apply scored_elem. eauto. }
      apply elem_of_cons in Hin as [[= <- <-]|Hin]; [done|]. by apply (Hl (j, pick_score ctx j dj)). }
    split; [done|]. intros j dj Hj Hlj Hgood. pose proof (score_le_tier _ _ (Hmin j dj Hj Hlj)) as Ht.
    rewrite !pick_score_tier in Ht. unfold pick_tier in Ht.
    destruct (holds ctx idx) as [p|] eqn:Hp; [|by left]. right.
    destruct (decide (p = px_incoming_profile ctx)) as [->|Hne]; [done|exfalso].
    rewrite (bool_decide_false (Some p = _)), (bool_decide_false (p = _)) in Ht by congruence. cbn [andb negb] in Ht.
    destruct Hgood as [Hj'|[Hj' Hs]]; rewrite Hj' in Ht.
    + by destruct (d =? 0).
    + rewrite bool_decide_true in Ht by done. cbn [andb] in Ht.
      rewrite (proj2 (Z.ltb_lt dj (px_bl_capacity ctx))) in Ht by done.
      by destruct (dj <? _), (d =? 0).
Qed.

(** ** Reservations and completions

    [process] runs in one thread per task.  The compare-and-swap loop of
    [try_reserve], the commit under the state lock, the hand-over of the command
    and the drop of its [WorkerCompletion] are separate atomic steps of an
    interleaving of all threads. *)

Record Pool := { p_depths : list Z; p_state : PoolState }.

Inductive Thread :=
  (** [reserve_best_available], about to scan. *)
  | Scanning
  (** [try_reserve], about to test [current] against the hard limit; a hinted
      reservation has no fallback. *)
  | Checking (hinted : bool) (idx : nat) (current : Z)
  (** About to compare-and-swap [current]. *)
  | Trying (hinted : bool) (idx : nat) (current : Z)
  (** Holds a queue slot, before the state lock. *)
  | Reserved (idx : nat) (pre_admit_depth : Z)
  (** The command and its completion are with the worker. *)
  | Queued (idx : nat) (dispatch_generation : Z)
  (** [Drop for WorkerCompletion], before [fetch_sub]. *)
  | Dropping (idx : nat)
  | Gone.

Section Reservations.
Context (n : nat) (queue_capacity : Z).

Inductive thread_step : Pool -> Thread -> Pool -> Thread -> Prop :=
  (** The scan reads the depths one by one, without a lock: any values. *)
  | ts_scan pool ctx observed idx d :
      px_state ctx = p_state pool -> px_queue_capacity ctx = queue_capacity ->
      length observed = n -> best_available_worker ctx observed = Some idx ->
      p_depths pool !! idx = Some d ->
      thread_step pool Scanning pool (Checking false idx d)
  | ts_scan_none pool ctx observed :
      px_state ctx = p_state pool -> px_queue_capacity ctx = queue_capacity ->
      length observed = n -> best_available_worker ctx observed = None ->
      thread_step pool Scanning pool Gone
  | ts_full pool hinted idx current :
      queue_capacity <= current ->
      thread_step pool (Checking hinted idx current) pool (if hinted then Gone else Scanning)
  | ts_check pool hinted idx current :
      current < queue_capacity ->
      thread_step pool (Checking hinted idx current) pool (Trying hinted idx current)
  | ts_cas_ok pool hinted idx current :
      p_depths pool !! idx = Some current ->
      thread_step pool (Trying hinted idx current)
        {| p_depths := <[idx := current + 1]> (p_depths pool); p_state := p_state pool |}
        (Reserved idx current)
  (** The weak exchange may also fail spuriously. *)
  | ts_cas_fail pool hinted idx current actual :
      p_depths pool !! idx = Some actual ->
      thread_step pool (Trying hinted idx current) pool (Checking hinted idx actual)
  | ts_mark pool idx pre now profile source g s1 s2 :
      mark_loaded now idx profile (p_state pool) = Ok (g, s1) ->
      match source with None => s2 = s1 | Some x => mark_addlayer_source idx x s1 = Ok s2 end ->
      thread_step pool (Reserved idx pre)
        {| p_depths := p_depths pool; p_state := s2 |} (Queued idx g)
  | ts_finish pool idx g outcome s' :
      WorkerCompletion_finish idx g outcome (p_state pool) = Ok s' ->
      thread_step pool (Queued idx g)
        {| p_depths := p_depths pool; p_state := s' |} (Dropping idx)
  (** The command is dropped unanswered: the send failed, or the worker exited. *)
  | ts_abandon pool idx g s' :
      clear_loaded_if_latest idx g (p_state pool) = Ok s' ->
      thread_step pool (Queued idx g)
        {| p_depths := p_depths pool; p_state := s' |} (Dropping idx)
  | ts_release pool idx d :
      p_depths pool !! idx = Some d ->
      thread_step pool (Dropping idx)
        {| p_depths := <[idx := wrapping_sub d 1]> (p_depths pool); p_state := p_state pool |} Gone.

Inductive pool_step : Pool * list Thread -> Pool * list Thread -> Prop :=
  | pool_arrive pool threads : pool_step (pool, threads) (pool, threads ++ [Scanning])
  (** A worker hint within the pool. *)
  | pool_arrive_hinted pool threads idx d :
      p_depths pool !! idx = Some d ->
      pool_step (pool, threads) (pool, threads ++ [Checking true idx d])
  | pool_thread pool threads t th pool' th' :
      threads !! t = Some th -> thread_step pool th pool' th' ->
      pool_step (pool, threads) (pool', <[t := th']> threads).

Definition pool_init : Pool * list Thread :=
  ({| p_depths := replicate n 0; p_state := PoolState_new n |}, []).

Definition pool_reachable : Pool * list Thread -> Prop := rtc pool_step pool_init.

(** The thread accounts for a slot of worker [i]. *)
Definition owns (i : nat) (th : Thread) : bool :=
  match th with
  | Reserved idx _ | Queued idx _ | Dropping idx => Nat.eqb idx i
  | _ => false
  end.
Definition owners (i : nat) (threads : list Thread) : Z :=
  Z.of_nat (length (List.filter (owns i) threads)).

Definition thread_ok (th : Thread) : Prop :=
  match th with
  | Scanning | Gone => True
  | Checking _ idx _ | Reserved idx _ | Queued idx _ | Dropping idx => (idx < n)%nat
  | Trying _ idx current => (idx < n)%nat /\ current < queue_capacity
  end.

Record pool_inv (c : Pool * list Thread) : Prop := {
  pi_state : pool_wf n (p_state c.1);
  pi_length : length (p_depths c.1) = n;
  pi_threads : Forall thread_ok c.2;
  pi_depths : forall i d, p_depths c.1 !! i = Some d -> d = owners i c.2 /\ d <= queue_capacity;
}.

Context (Hcap : 0 <= queue_capacity <= usize_max).

Lemma owners_insert i threads t th th' :
  threads !! t = Some th ->
  owners i (<[t := th']> threads) = owners i threads - Z.b2z (owns i th) + Z.b2z (owns i th').
Proof. apply filter_count_insert. Qed.

Lemma owners_snoc i threads th : owners i (threads ++ [th]) = owners i threads + Z.b2z (owns i th).
Proof.
  unfold owners. rewrite List.filter_app, length_app. cbn [List.filter].
  destruct (owns i th); cbn [length Z.b2z]; lia.
Qed.

Lemma owners_ge i threads t th : threads !! t = Some th -> owns i th = true -> 1 <= owners i threads.
Proof.
  intros Ht Ho. pose proof (owners_insert i threads t th Gone Ht) as H. rewrite Ho in H. cbn [owns Z.b2z] in H.
  assert (0 <= owners i (<[t := Gone]> threads)) by (unfold owners; lia). lia.
Qed.

(** One step of one thread. *)
Lemma thread_step_inv pool threads t th pool' th' :
  pool_inv (pool, threads) -> threads !! t = Some th -> thread_step pool th pool' th' ->
  pool_inv (pool', <[t := th']> threads).
Proof.
  intros Hinv Ht Hstep. destruct Hinv as [Hst Hlen Hth Hd]. cbn [fst snd] in *.
  pose proof (Forall_lookup_1 _ _ _ _ Hth Ht) as Hok.
  assert (Hidle : forall pool' th', p_depths pool' = p_depths pool -> pool_wf n (p_state pool') ->
    thread_ok th' -> (forall i, owns i th' = owns i th) -> pool_inv (pool', <[t := th']> threads)).
  { intros pool1 th1 He Hwf Hok1 Hown. split; cbn [fst snd]; [done|by rewrite He| |].
    - by apply Forall_insert.
    - intros i d. rewrite He, (owners_insert i _ _ _ _ Ht), Hown. intros Hi%Hd. lia. }
  destruct Hstep as [pool ctx obs idx d Hc Hq Hl Hb Hdi|pool ctx obs Hc Hq Hl Hb|pool h idx cur Hfull
    |pool h idx cur Hlt|pool h idx cur Hdi|pool h idx cur act Hdi|pool idx pre now p src g s1 s2 Hm Hs
    |pool idx g outcome s' Hcl|pool idx g s' Hcl|pool idx d Hdi].
  - apply Hidle; [done|done| |done]. cbn. apply lookup_lt_Some in Hdi. lia.
  - by apply Hidle.
  - apply Hidle; [done|done| |]; by destruct h.
  - by apply Hidle.
  - destruct Hok as [Hi Hlt]. destruct (Hd _ _ Hdi) as [Hown Hle]. split; cbn [fst snd p_state p_depths].
    + done.
    + by rewrite length_insert.
    + by apply Forall_insert.
    + intros i d Hi'. rewrite (owners_insert i _ _ _ _ Ht). cbn [owns Z.b2z].
      apply list_lookup_insert_Some in Hi' as [(-> & <- & _)|[Hne Hi']].
      * rewrite Nat.eqb_refl. cbn [Z.b2z]. lia.
      * rewrite (proj2 (Nat.eqb_neq idx i)) by congruence. cbn [Z.b2z]. apply Hd in Hi'. lia.
  - apply Hidle; [done|done| |done]. cbn. apply lookup_lt_Some in Hdi. lia.
  - destruct (mark_loaded_wf n now idx p (p_state pool) Hst Hok) as (g' & s1' & Hm' & Hwf1 & _).
    rewrite Hm' in Hm. injection Hm as <- <-. apply Hidle; [done| |done|done]. cbn.
    destruct src as [x|]; [|by subst].
    destruct (mark_addlayer_source_wf n idx x s1' Hwf1 Hok) as (s2' & Hs' & Hwf2 & _).
    rewrite Hs' in Hs. by injection Hs as <-.
  - unfold WorkerCompletion_finish in Hcl. destruct (to_result outcome).
    1: { injection Hcl as <-. by apply Hidle. }
    all: destruct (clear_loaded_if_latest_wf n idx g (p_state pool) Hst Hok) as (s'' & Hcl' & Hwf & _);
      rewrite Hcl' in Hcl; injection Hcl as <-; by apply Hidle.
  - destruct (clear_loaded_if_latest_wf n idx g (p_state pool) Hst Hok) as (s'' & Hcl' & Hwf & _).
    rewrite Hcl' in Hcl. injection Hcl as <-. by apply Hidle.
  - destruct (Hd _ _ Hdi) as [Hown Hle].
    assert (1 <= owners idx threads) by (eapply owners_ge; [done|]; cbn; apply Nat.eqb_refl).
    rewrite wrapping_sub_small by (unfold is_u; unfold usize_max in Hcap; lia).
    split; cbn [fst snd p_state p_depths].
    + done.
    + by rewrite length_insert.
    + by apply Forall_insert.
    + intros i d' Hi'. rewrite (owners_insert i _ _ _ _ Ht). cbn [owns Z.b2z].
      apply list_lookup_insert_Some in Hi' as [(-> & <- & _)|[Hne Hi']].
      * rewrite Nat.eqb_refl. cbn [Z.b2z]. lia.
      * rewrite (proj2 (Nat.eqb_neq idx i)) by congruence. cbn [Z.b2z]. apply Hd in Hi'. lia.
Qed.

Lemma pool_reachable_inv c : pool_reachable c -> pool_inv c.
Proof.
  intros H. unfold pool_reachable in H. remember pool_init as c0 eqn:E0.
  assert (Hinv : pool_inv c0).
  { subst. split; cbn; [apply PoolState_new_wf|by rewrite length_replicate|constructor|].
    intros i d [-> _]%lookup_replicate_1. unfold owners. cbn. lia. }
  clear E0. induction H as [|c1 c2 c3 Hstep _ IH]; [done|]. apply IH. clear IH.
  destruct Hstep as [pool threads|pool threads idx d Hdi|pool threads t th pool' th' Ht Hs].
  - destruct Hinv as [H1 H2 H3 H4]. split; cbn in *; [done|done|apply Forall_app; split; [done|by repeat constructor]|].
    intros i d. rewrite owners_snoc. intros Hi%H4. cbn. lia.
  - destruct Hinv as [H1 H2 H3 H4]. split; cbn in *; [done|done| |].
    + apply Forall_app. split; [done|]. constructor; [|done]. cbn. apply lookup_lt_Some in Hdi. lia.
    + intros i d'. rewrite owners_snoc. intros Hi%H4. cbn. lia.
  - by eapply thread_step_inv.
Qed.

(** Admission accounting: in every interleaving of reservations, lost
    races, spurious exchange failures, failures and dropped commands, a worker's
    queue depth is exactly the number of accepted commands that are not finished,
    it never exceeds the hard limit, and it returns to zero when all are done;
    the pool's bookkeeping stays well formed. *)
Theorem queue_depth_is_outstanding pool threads (Hreach : pool_reachable (pool, threads)) :
  pool_wf n (p_state pool) /\
  (forall i d, p_depths pool !! i = Some d -> d = owners i threads /\ d <= queue_capacity) /\
  (Forall (fun th => th = Gone) threads -> Forall (fun d => d = 0) (p_depths pool)).
Proof.
  apply pool_reachable_inv in Hreach as [H1 H2 H3 H4]. cbn in *. split_and!; [done|done|].
  intros Hgone. apply Forall_forall. intros d [i Hi]%list_elem_of_lookup. apply H4 in Hi as [-> _].
  unfold owners. clear -Hgone. induction Hgone as [|th l -> _ IH]; [done|]. exact IH.
Qed.
End Reservations.

(** ** What a node publishes is what its pool holds *)

Lemma snapshot_kvs_encode depths s : snapshot_kvs depths s = encode_workers (snapshot_workers depths s).
Proof.
  unfold snapshot_kvs, encode_workers, snapshot_workers.
  replace (imap (fun i depth => {| wv_id := as_worker_id i;
      wv_loaded_profile := mjoin (ps_loaded s !! i); wv_queue_depth := depth |}) depths)
    with ((fun '(i, depth) => {| wv_id := as_worker_id i;
      wv_loaded_profile := mjoin (ps_loaded s !! i); wv_queue_depth := depth |}) <$> imap pair depths)
    by (by rewrite fmap_imap).
  generalize (@nil (string * string)). induction (imap pair depths) as [|[i d] l IH]; intros m; [done|].
  cbn [foldl fmap list_fmap]. apply IH.
Qed.

Lemma snapshot_ids depths s :
  Z.of_nat (length depths) <= 2 ^ 32 -> StronglySorted klt (wv_id <$> snapshot_workers depths s).
Proof.
  intros Hlen. unfold snapshot_workers. rewrite fmap_imap.
  assert (Hgen : forall (l : list Z) (k : nat), Z.of_nat (k + length l) <= 2 ^ 32 ->
    StronglySorted klt (imap (fun i (_ : Z) => as_worker_id (k + i)) l) /\
    Forall (fun z => Z.of_nat k <= z) (imap (fun i (_ : Z) => as_worker_id (k + i)) l)).
  { induction l as [|d l IH]; intros k Hk; [by split; constructor|]. rewrite imap_cons. cbn [length] in Hk.
    destruct (IH (S k)) as [Hs Hf]; [lia|].
    assert (He : imap ((fun i (_ : Z) => as_worker_id (k + i)) ∘ S) l =
                 imap (fun i (_ : Z) => as_worker_id (S k + i)) l).
    { apply imap_ext. intros i x _. cbn. f_equal. lia. }
    rewrite He. assert (Hid : as_worker_id (k + 0) = Z.of_nat k).
    { unfold as_worker_id. rewrite Nat.add_0_r. apply Z.mod_small. lia. }
    rewrite Hid. split; constructor; [done| |lia|].
    - eapply Forall_impl; [exact Hf|]. intros z Hz. cbv beta in Hz.
      apply Z.compare_lt_iff. lia.
    - eapply Forall_impl; [exact Hf|]. intros z Hz. cbv beta in *. lia. }
  apply (Hgen depths 0%nat). done.
Qed.

(** The gossiped state is the pool's state: the keys a node publishes from
    its pool decode, on every peer, to exactly the workers of its own snapshot. *)
Theorem published_pool_decodes (id : string) (accepts : bool) (depths : list Z) (s : PoolState)
    (Hlen : Z.of_nat (length depths) <= 2 ^ 32) (Hdepths : Forall is_usize depths)
    (Hprofiles : Forall profile_wf (ps_loaded s)) :
  from_kvs id (bt_insert RENDER_ADMISSION_GOSSIP_KEY (if accepts then "true" else "false")
                 (snapshot_kvs depths s)) =
  {| ns_id := id; ns_accepts_new_renders := accepts; ns_workers := snapshot_workers depths s |}.
Proof.
  rewrite snapshot_kvs_encode. apply (from_kvs_publish (snapshot_workers depths s)).
  - by apply snapshot_ids.
  - apply Forall_forall. intros w [i Hi]%list_elem_of_lookup. unfold snapshot_workers in Hi.
    rewrite list_lookup_imap in Hi. destruct (depths !! i) as [d|] eqn:Hd; [|done].
    injection Hi as <-. split_and!; cbn.
    + unfold as_worker_id, is_u, u32_max. pose proof (Z.mod_pos_bound (Z.of_nat i) (2 ^ 32)). lia.
    + by eapply (Forall_lookup_1 _ _ _ _ Hdepths).
    + destruct (ps_loaded s !! i) as [o|] eqn:Ho; cbn; [|done].
      by eapply (Forall_lookup_1 _ _ _ _ Hprofiles).
Qed.

(** ** Witnesses *)

Definition sample_profile : WorkerProfile :=
  {| wp_style := {| sr_id := "s"; sr_version := 3 |}; wp_render_mode := RmStatic; wp_scale := X1 |}.

(** Witness: a pool of two workers. *)
Lemma pool_state_invariant_witness :
  exists s', clear_loaded_if_latest 1 0 (PoolState_new 2) = Ok s' /\ pool_wf 2 s' /\
    if decide (ps_dispatch_generations (PoolState_new 2) !! 1%nat = Some 0)
    then ps_loaded s' !! 1%nat = Some None else s' = PoolState_new 2.
Proof.
  apply (pool_state_invariant 2 (PoolState_new 2) 1 0 sample_profile "x" 0 (PoolState_new_wf 2)). lia.
Defined.

Lemma demo_reachable :
  pool_reachable 1 4
    ({| p_depths := [1]; p_state := PoolState_new 1 |}, [Reserved 0 0]).
Proof.
  eapply rtc_l; [apply (pool_arrive_hinted _ _ _ _ 0 0); reflexivity|].
  eapply rtc_l; [eapply (pool_thread _ _ _ _ 0); [reflexivity|apply ts_check; lia]|].
  eapply rtc_l; [eapply (pool_thread _ _ _ _ 0); [reflexivity|apply ts_cas_ok; reflexivity]|].
  apply rtc_refl.
Qed.

(** Witness: one reserved slot. *)
Lemma queue_depth_is_outstanding_witness : 1 = owners 0 [Reserved 0 0] /\ 1 <= 4.
Proof.
  refine (proj1 (proj2 (queue_depth_is_outstanding 1 4 _ _ _ demo_reachable)) 0%nat 1 eq_refl).
  vm_compute. split; discriminate.
Defined.

(** Witness: a loaded and a fresh worker. *)
Lemma published_pool_decodes_witness :
  from_kvs "n" (bt_insert RENDER_ADMISSION_GOSSIP_KEY "false"
    (snapshot_kvs [2; 0] {| ps_loaded := [Some sample_profile; None];
       ps_dispatch_generations := [1; 0]; ps_profile_counts := [(sample_profile, 1)];
       ps_last_used := [Some 5; None]; ps_addlayer_source_ids := [[]; []];
       ps_addlayer_source_lru := [[]; []] |})) =
  {| ns_id := "n"; ns_accepts_new_renders := false;
     ns_workers := [ {| wv_id := 0; wv_loaded_profile := Some sample_profile; wv_queue_depth := 2 |};
                     {| wv_id := 1; wv_loaded_profile := None; wv_queue_depth := 0 |} ] |}.
Proof.
  apply (published_pool_decodes "n" false [2; 0]).
  - vm_compute. discriminate.
  - repeat constructor; vm_compute; discriminate.
  - repeat constructor; vm_compute; discriminate.
Defined.
