(* ===== verification/TilesetSources.v ===== *)
(** * Tileset identifiers and the object-store sources behind them

    Models [crates/ishikari-core/src/interned.rs] (validated tileset ids and
    routing keys), the entry selection of
    [crates/mmpf-common/src/resource_templates.rs], and the resolution of a
    tileset id to an object path in
    [crates/ishikari-core/src/storage/chunked_store/fetcher.rs].

    The percent-encoding of a path segment by the object-store library is the
    parameter [encode]; an object path is the list of its encoded segments. *)

From S2P Require Import Prelude StdModel.

(** [str::split]: the pieces between the separators, at least one. *)
Fixpoint str_split (c : ascii) (s : string) : list string :=
  match s with
  | EmptyString => [EmptyString]
  | String a s' =>
      if Ascii.eqb a c then EmptyString :: str_split c s'
      else match str_split c s' with
           | [] => [String a EmptyString]
           | p :: ps => String a p :: ps
           end
  end.

Fixpoint str_all (f : ascii -> bool) (s : string) : bool :=
  match s with EmptyString => true | String a s' => f a && str_all f s' end.

Definition slash : ascii := "/"%char.

(** ** Tileset ids *)

Definition MAX_TILESET_ID_LEN : nat := 256.

Inductive IdError : Type :=
  | IdEmpty
  | IdTooLong
  | IdManySlashes
  | IdReservedWord
  | SegmentEmpty
  | SegmentDots
  | SegmentCharacters.

(** [u8::is_ascii_alphanumeric]. *)
Definition is_ascii_alphanumeric (a : ascii) : bool :=
  let n := nat_of_ascii a in
  ((48 <=? n) && (n <=? 57) || (65 <=? n) && (n <=? 90) || (97 <=? n) && (n <=? 122))%nat.

Definition is_identifier_segment (segment : string) : bool :=
  str_all (fun a => is_ascii_alphanumeric a || Ascii.eqb a "." || Ascii.eqb a "_" || Ascii.eqb a "-")
    segment.

Definition validate_tileset_segment (segment : string) : Res IdError unit :=
  _ ← ensure (negb (String.eqb segment "")) SegmentEmpty;
  _ ← ensure (negb (String.eqb segment "." || String.eqb segment "..")) SegmentDots;
  ensure (is_identifier_segment segment) SegmentCharacters.

Definition validate_tileset_id (tileset_id : string) : Res IdError unit :=
  _ ← ensure (negb (String.eqb tileset_id "")) IdEmpty;
  _ ← ensure (String.length tileset_id <=? MAX_TILESET_ID_LEN)%nat IdTooLong;
  let segments := str_split slash tileset_id in
  let first := default "" (segments !! 0%nat) in
  let second := segments !! 1%nat in
  _ ← ensure (bool_decide (segments !! 2%nat = None)) IdManySlashes;
  _ ← validate_tileset_segment first;
  match second with
  | Some second =>
      _ ← validate_tileset_segment second;
      ensure (negb (String.eqb second "preview" || String.eqb second "preview.json")) IdReservedWord
  | None => Ok tt
  end.

Definition TilesetId_try_new (value : string) : Res IdError string :=
  _ ← validate_tileset_id value; Ok value.

Definition join_segment (self segment : string) : Res IdError string :=
  TilesetId_try_new (self +:+ "/" +:+ segment).

Definition namespace (self : string) : option string := fst <$> split_once slash self.

Definition local_id (self : string) : string :=
  match split_once slash self with Some (_, local_id) => local_id | None => self end.

Definition validate_resource_segment (segment : string) : Res IdError unit :=
  _ ← ensure (negb (String.eqb segment "")) SegmentEmpty;
  _ ← ensure (String.length segment <=? MAX_TILESET_ID_LEN)%nat IdTooLong;
  ensure (negb (String.eqb segment "." || String.eqb segment ".." || negb (is_identifier_segment segment)))
    SegmentCharacters.

Definition for_derived_resource (product tileset_id : string) : Res IdError string :=
  _ ← validate_resource_segment product;
  Ok ("derived:" +:+ product +:+ ":" +:+ tileset_id).

(** ** Namespaced entries *)

Record NamespacedEntries (T : Type) := {
  ne_namespaces : list (string * T);
  ne_default : option T;
}.
Arguments ne_namespaces {T} _.
Arguments ne_default {T} _.

(** [SelectedEntry]: the value and the key relative to its namespace. *)
Definition select {T} (self : NamespacedEntries T) (key : string) : option (T * string) :=
  let by_default := (fun value => (value, key)) <$> ne_default self in
  match split_once slash key with
  | Some (ns, rest) =>
      match list_find (fun e => e.1 = ns) (ne_namespaces self) with
      | Some (_, (_, value)) => Some (value, rest)
      | None => by_default
      end
  | None => by_default
  end.

Definition try_map {T U E} (map : option string -> T -> Res E U) (self : NamespacedEntries T)
    : Res E (NamespacedEntries U) :=
  namespaces ← mapM (fun '(ns, value) => mapped ← map (Some ns) value; mret (ns, mapped))
                 (ne_namespaces self);
  default ← match ne_default self with
            | Some value => mapped ← map None value; mret (Some mapped)
            | None => mret None
            end;
  mret {| ne_namespaces := namespaces; ne_default := default |}.

(** ** Object paths *)

Inductive TilesetPathPart : Type :=
  | PartLiteral (segment : string)
  | PartNamespace
  | PartTilesetId (prefix suffix : string).

Record TilesetPathTemplate := {
  tp_parts : list TilesetPathPart;
  tp_tileset_id_includes_namespace : bool;
}.

Inductive TilesetPath : Type :=
  | Root (base : list string)
  | Template (t : TilesetPathTemplate).

Record TilesetSource (Store : Type) := {
  ts_object_store : Store;
  ts_path : TilesetPath;
}.
Arguments ts_object_store {Store} _.
Arguments ts_path {Store} _.

Section Paths.
Context (encode : string -> string).

(** [ObjectPath::join]: one more encoded segment. *)
Definition join (path : list string) (segment : string) : list string := path ++ [encode segment].

Definition join_template_tileset_id (path : list string) (prefix tileset_id suffix : string)
    : list string :=
  match split_once slash tileset_id with
  | Some (namespace, tileset_id) => join (join path (prefix +:+ namespace)) (tileset_id +:+ suffix)
  | None => join path (prefix +:+ tileset_id +:+ suffix)
  end.

Definition render_part (namespace : option string) (tileset_id : string) (path : list string)
    (part : TilesetPathPart) : list string :=
  match part with
  | PartLiteral segment => join path segment
  | PartNamespace => match namespace with Some namespace => join path namespace | None => path end
  | PartTilesetId prefix suffix => join_template_tileset_id path prefix tileset_id suffix
  end.

Definition render (self : TilesetPathTemplate) (logical_id : string) : list string :=
  let '(namespace, id_after_namespace) :=
    match split_once slash logical_id with
    | Some (namespace, tileset_id) => (Some namespace, tileset_id)
    | None => (None, logical_id)
    end in
  let tileset_id :=
    if tp_tileset_id_includes_namespace self then logical_id else id_after_namespace in
  foldl (render_part namespace tileset_id) [] (tp_parts self).

(** The segments of the key, the last one with the archive extension. *)
Fixpoint join_key (path : list string) (parts : list string) : list string :=
  match parts with
  | [] => path
  | [part] => join path (part +:+ ".pmtiles")
  | part :: parts => join_key (join path part) parts
  end.

Definition object_path_under (base : list string) (relative_key : string) : list string :=
  join_key base (str_split slash relative_key).

(** [TilesetSources::resolve]. *)
Definition resolve {Store} (entries : NamespacedEntries (TilesetSource Store)) (tileset_id : string)
    : option (Store * list string) :=
  '(source, relative_key) ← select entries tileset_id;
  let path :=
    match ts_path source with
    | Root base_path => object_path_under base_path relative_key
    | Template template => render template tileset_id
    end in
  Some (ts_object_store source, path).
End Paths.

(** ** Facts about identifiers *)

Definition valid_segment (s : string) : Prop := validate_tileset_segment s = Ok tt.

(** A valid segment is not empty, is no dot segment, and has no separator. *)
Definition plain_segment (s : string) : Prop :=
  s <> "" /\ s <> "." /\ s <> ".." /\ ~ str_In slash s /\ is_identifier_segment s = true.

Lemma is_identifier_no_slash s : is_identifier_segment s = true -> ~ str_In slash s.
Proof.
  unfold is_identifier_segment. induction s as [|a s IH]; cbn; [tauto|].
  intros [Ha Hs]%andb_prop [->|Hin]; [by vm_compute in Ha|by apply IH].
Qed.

Lemma valid_segment_plain s : valid_segment s -> plain_segment s.
Proof.
  unfold valid_segment, validate_tileset_segment, plain_segment. intros H. res_inv. bool_props.
  repeat match goal with H : String.eqb _ _ = false |- _ => apply String.eqb_neq in H end.
  split_and!; [done..| |done]. by apply is_identifier_no_slash.
Qed.

Lemma str_split_no_sep c s : ~ str_In c s -> str_split c s = [s].
Proof.
  induction s as [|a s IH]; cbn; [done|]; intros H.
  destruct (Ascii.eqb_spec a c) as [->|_]; [tauto|]. rewrite IH by tauto. done.
Qed.

Lemma str_split_app c x y : ~ str_In c x -> str_split c (x +:+ String c y) = x :: str_split c y.
Proof.
  induction x as [|a x IH]; intros H.
  - rewrite app_empty. cbn. by rewrite Ascii.eqb_refl.
  - rewrite app_String. cbn in H |- *. destruct (Ascii.eqb_spec a c) as [->|_]; [tauto|].
    by rewrite IH by tauto.
Qed.

Lemma str_split_cons c s : exists p ps, str_split c s = p :: ps.
Proof. induction s as [|a s (p & ps & IH)]; cbn; [eauto|]. rewrite IH. case_match; eauto. Qed.

Lemma split_once_None c s : split_once c s = None -> ~ str_In c s.
Proof.
  induction s as [|a s IH]; cbn; [tauto|]. case_decide as Hd; [discriminate|].
  destruct (split_once c s) as [[]|]; [discriminate|]. intros _ [->|?]; [done|by apply IH].
Qed.

Lemma split_once_Some c s x y : split_once c s = Some (x, y) -> s = x +:+ String c y /\ ~ str_In c x.
Proof.
  revert x. induction s as [|a s IH]; cbn; intros x; [done|].
  case_decide as Hd; [intros [= <- <-]; subst; cbn; tauto|].
  destruct (split_once c s) as [[x' y']|]; [|done]. intros [= <- <-].
  destruct (IH x' eq_refl) as [-> Hx]. rewrite app_String. cbn. tauto.
Qed.

Lemma str_In_app c x y : str_In c (x +:+ String c y).
Proof. induction x as [|a x IH]; [by left|by right]. Qed.

Lemma split_once_no_sep c s : ~ str_In c s -> split_once c s = None.
Proof.
  intros Hs. destruct (split_once c s) as [[x y]|] eqn:E; [|done].
  apply split_once_Some in E as [-> _]. by destruct (Hs (str_In_app c x y)).
Qed.

(** The shapes of a validated id. *)
Inductive id_shape (t : string) : Prop :=
  | FlatId : plain_segment t -> split_once slash t = None -> str_split slash t = [t] -> id_shape t
  | NamespacedId a b : t = a +:+ String slash b -> plain_segment a -> plain_segment b ->
      split_once slash t = Some (a, b) -> str_split slash t = [a; b] -> id_shape t.

Lemma valid_id_shape t : validate_tileset_id t = Ok tt -> id_shape t.
Proof.
  unfold validate_tileset_id. intros H. destruct (split_once slash t) as [[a b]|] eqn:Hs.
  - apply split_once_Some in Hs as [-> Ha]. rewrite str_split_app in H by done.
    destruct (str_split_cons slash b) as (p & ps & Hp). rewrite Hp in H. cbn in H.
    res_inv. case_bool_decide as Hps; [|done]. destruct ps as [|]; [|done].
    destruct a0, a1. apply valid_segment_plain in E2, E3.
    assert (Hb : ~ str_In slash b).
    { destruct (split_once slash b) as [[x y]|] eqn:Hb; [|by apply split_once_None].
      apply split_once_Some in Hb as [-> Hx]. rewrite str_split_app in Hp by done.
      destruct (str_split_cons slash y) as (? & ? & Hy). by rewrite Hy in Hp. }
    rewrite str_split_no_sep in Hp by done. injection Hp as <-.
    apply (NamespacedId _ a b); [done|done|done| |].
    + by apply split_once_app.
    + rewrite str_split_app by done. by rewrite str_split_no_sep.
  - apply split_once_None in Hs. rewrite str_split_no_sep in H by done. cbn in H. res_inv.
    destruct a. apply valid_segment_plain in E1. apply FlatId; [done|by apply split_once_no_sep|by apply str_split_no_sep].
Qed.

(** ** Paths of distinct ids are distinct *)

Lemma str_app_inj_r x y z : x +:+ z = y +:+ z -> x = y.
Proof.
  assert (Hlen : forall u v, String.length (u +:+ v) = (String.length u + String.length v)%nat).
  { induction u as [|a u IH]; intros v; [done|]. rewrite app_String. cbn. by rewrite IH. }
  revert y. induction x as [|a x IH]; intros [|b y] H; autorewrite with platform in H; [done| | |].
  - apply (f_equal String.length) in H. cbn in H. rewrite Hlen in H. lia.
  - apply (f_equal String.length) in H. cbn in H. rewrite Hlen in H. lia.
  - injection H as -> H. f_equal. by apply IH.
Qed.

Section Injective.
Context (encode : string -> string) `{!Inj (=) (=) encode}.

(** The segments one template part contributes. *)
Definition part_segments (namespace : option string) (tileset_id : string) (part : TilesetPathPart)
    : list string :=
  match part with
  | PartLiteral segment => [segment]
  | PartNamespace => option_list namespace
  | PartTilesetId prefix suffix =>
      match split_once slash tileset_id with
      | Some (a, b) => [prefix +:+ a; b +:+ suffix]
      | None => [prefix +:+ tileset_id +:+ suffix]
      end
  end.

Lemma render_segments namespace tileset_id parts path :
  foldl (render_part encode namespace tileset_id) path parts =
  path ++ (encode <$> (parts ≫= part_segments namespace tileset_id)).
Proof.
  revert path. induction parts as [|part parts IH]; intros path; cbn [foldl mbind list_bind].
  - by rewrite app_nil_r.
  - rewrite IH. rewrite fmap_app, app_assoc. f_equal.
    destruct part as [|  |prefix suffix]; cbn; [done| |].
    + by destruct namespace; cbn; [|rewrite app_nil_r].
    + unfold join_template_tileset_id, join. destruct (split_once slash tileset_id) as [[]|]; [|done].
      cbn. by rewrite <- app_assoc.
Qed.

(** Two lists of parts rendered for ids of the same shape agree part by part. *)
Lemma segments_agree ns ns' tid tid' parts part :
  (forall q, length (part_segments ns tid q) = length (part_segments ns' tid' q)) ->
  (parts ≫= part_segments ns tid) = (parts ≫= part_segments ns' tid') ->
  part ∈ parts -> part_segments ns tid part = part_segments ns' tid' part.
Proof.
  intros Hlen. induction parts as [|q parts IH]; cbn; intros Heq Hin; [by apply not_elem_of_nil in Hin|].
  apply app_inj_1 in Heq as [Hq Hrest]; [|done]. apply elem_of_cons in Hin as [->|Hin]; auto.
Qed.

Definition has_namespace_part (parts : list TilesetPathPart) : bool :=
  existsb (fun part => match part with PartNamespace => true | _ => false end) parts.

(** What the startup validation of a template establishes. *)
Definition template_wf (is_default : bool) (t : TilesetPathTemplate) : Prop :=
  (exists prefix suffix, PartTilesetId prefix suffix ∈ tp_parts t) /\
  tp_tileset_id_includes_namespace t = is_default && negb (has_namespace_part (tp_parts t)).

Lemma segments_length ns tid parts :
  length (parts ≫= part_segments ns tid) = sum_list ((fun q => length (part_segments ns tid q)) <$> parts).
Proof. induction parts as [|q parts IH]; cbn; [done|]. by rewrite length_app, IH. Qed.

Lemma sum_list_lt {A} (f g : A -> nat) (l : list A) x :
  (forall y, f y <= g y)%nat -> x ∈ l -> (f x < g x)%nat ->
  (sum_list (f <$> l) < sum_list (g <$> l))%nat.
Proof.
  intros Hle Hin Hlt.
  assert (Hall : forall l, (sum_list (f <$> l) <= sum_list (g <$> l))%nat).
  { induction l0 as [|y l0 IH]; cbn; [done|]. specialize (Hle y). lia. }
  induction l as [|y l IH]; [by apply not_elem_of_nil in Hin|]. cbn.
  apply elem_of_cons in Hin as [->|Hin].
  - specialize (Hall l). lia.
  - specialize (Hle y). specialize (IH Hin). lia.
Qed.

(** A flat id is rendered to a shorter path than a namespaced one. *)
Lemma render_flat_shorter t x a b :
  template_wf true t -> ~ str_In slash x -> ~ str_In slash a -> ~ str_In slash b ->
  (length (render encode t x) < length (render encode t (a +:+ String slash b)))%nat.
Proof.
  intros [(prefix & suffix & Hin) Hinc] Hx Ha Hb. unfold render.
  pose proof (split_once_no_sep _ _ Hx) as Hnx. pose proof (split_once_no_sep _ _ Hb) as Hnb.
  rewrite split_once_app by done. rewrite Hnx, !render_segments. cbn [app].
  rewrite !length_fmap, !segments_length. destruct (tp_tileset_id_includes_namespace t).
  - apply sum_list_lt with (PartTilesetId prefix suffix); [|done|].
    + intros [| |p s]; cbn; rewrite ?Hnx, ?split_once_app by done; cbn; lia.
    + cbn. rewrite Hnx, split_once_app by done. cbn. lia.
  - cbn in Hinc. symmetry in Hinc. apply negb_false_iff, existsb_exists in Hinc as (q & Hq & Hns).
    destruct q; try done. apply sum_list_lt with PartNamespace; [|by apply list_elem_of_In|cbn; lia].
    intros [| |p s]; cbn; rewrite ?Hnx, ?Hnb; cbn; lia.
Qed.

Lemma render_same_shape t a b a' b' is_default :
  template_wf is_default t -> (is_default = false -> a = a') ->
  ~ str_In slash a -> ~ str_In slash b -> ~ str_In slash a' -> ~ str_In slash b' ->
  render encode t (a +:+ String slash b) = render encode t (a' +:+ String slash b') ->
  a = a' /\ b = b'.
Proof.
  intros [(prefix & suffix & Hin) Hinc] Hdef Ha Hb Ha' Hb'. unfold render.
  rewrite !split_once_app by done. rewrite !render_segments. cbn [app].
  intros Heq%(inj (fmap encode)).
  pose proof (fun s => split_once_no_sep slash s) as Hnone.
  set (t1 := if tp_tileset_id_includes_namespace t then a +:+ String slash b else b) in *.
  set (t2 := if tp_tileset_id_includes_namespace t then a' +:+ String slash b' else b') in *.
  assert (Hlen : forall q, length (part_segments (Some a) t1 q) = length (part_segments (Some a') t2 q)).
  { intros [| |p s]; cbn; [done..|]. subst t1 t2. destruct (tp_tileset_id_includes_namespace t).
    - by rewrite !split_once_app by done.
    - by rewrite !Hnone by done. }
  pose proof (segments_agree _ _ _ _ _ _ Hlen Heq Hin) as Hid. cbn in Hid. subst t1 t2.
  destruct (tp_tileset_id_includes_namespace t).
  - rewrite !split_once_app in Hid by done. injection Hid as H1 H2.
    split; [by eapply inj in H1; [|apply _]|by eapply str_app_inj_r].
  - rewrite !Hnone in Hid by done. injection Hid as H1.
    assert (b = b') as ->.
    { eapply str_app_inj_r. by eapply inj in H1; [|apply _]. }
    split; [|done]. destruct is_default; [|by apply Hdef]. cbn in Hinc. symmetry in Hinc.
    apply negb_false_iff, existsb_exists in Hinc as (q & Hq & Hns). destruct q; try done.
    pose proof (segments_agree _ _ _ _ _ PartNamespace Hlen Heq) as Hn. cbn in Hn.
    assert ([a] = [a']) as [= ->]; [|done]. by apply Hn, list_elem_of_In.
Qed.

(** The configured entry that serves an id: its namespace, or the default. *)
Definition selected_entry {T} (entries : NamespacedEntries T) (t : string) : option string :=
  match split_once slash t with
  | Some (ns, _) => (fun _ => ns) <$> list_find (fun e => e.1 = ns) (ne_namespaces entries)
  | None => None
  end.

Definition path_wf (is_default : bool) (path : TilesetPath) : Prop :=
  match path with Root _ => True | Template t => template_wf is_default t end.

Definition sources_wf {Store} (entries : NamespacedEntries (TilesetSource Store)) : Prop :=
  (forall ns source, (ns, source) ∈ ne_namespaces entries -> path_wf false (ts_path source)) /\
  (forall source, ne_default entries = Some source -> path_wf true (ts_path source)).

(** What [select] returns, by the entry it chose. *)
Lemma select_cases {T} (entries : NamespacedEntries T) t value rel :
  select entries t = Some (value, rel) ->
  match selected_entry entries t with
  | Some ns => (ns, value) ∈ ne_namespaces entries /\ split_once slash t = Some (ns, rel) /\
      (fun e => e.2.2) <$> list_find (fun e => e.1 = ns) (ne_namespaces entries) = Some value
  | None => ne_default entries = Some value /\ rel = t
  end.
Proof.
  unfold select, selected_entry. destruct (split_once slash t) as [[ns rest]|].
  - destruct (list_find _ _) as [[i [ns' v]]|] eqn:Hf; cbn.
    + intros [= -> ->]. rewrite Hf. apply list_find_Some in Hf as (Hi & <- & _).
      by apply list_elem_of_lookup_2 in Hi.
    + destruct (ne_default entries); cbn; [|done]. by intros [= -> ->].
  - destruct (ne_default entries); cbn; [|done]. by intros [= -> ->].
Qed.

Lemma str_all_app f x y : str_all f (x +:+ y) = str_all f x && str_all f y.
Proof.
  induction x as [|a x IH]; [done|]. rewrite app_String. cbn. by rewrite IH, andb_assoc.
Qed.

Lemma pmtiles_plain b : plain_segment b -> plain_segment (b +:+ ".pmtiles").
Proof.
  intros (H1 & H2 & H3 & _ & H5).
  assert (Hid : is_identifier_segment (b +:+ ".pmtiles") = true).
  { unfold is_identifier_segment in *. by rewrite str_all_app, H5. }
  unfold plain_segment. split_and!; [| | |by apply is_identifier_no_slash|done].
  - by destruct b.
  - intros H. destruct b as [|a [|? b]]; try discriminate H.
  - intros H. destruct b as [|a [|? [|? b]]]; try discriminate H.
Qed.

(** The path of a flat or namespaced key below a root. *)
Lemma object_path_flat base x :
  ~ str_In slash x -> object_path_under encode base x = base ++ [encode (x +:+ ".pmtiles")].
Proof. intros H. unfold object_path_under. by rewrite str_split_no_sep. Qed.

Lemma object_path_namespaced base a b :
  ~ str_In slash a -> ~ str_In slash b ->
  object_path_under encode base (a +:+ String slash b) = base ++ [encode a; encode (b +:+ ".pmtiles")].
Proof.
  intros Ha Hb. unfold object_path_under. rewrite str_split_app, str_split_no_sep by done.
  cbn. unfold join. by rewrite <- app_assoc.
Qed.

Lemma root_path_injective base x y :
  id_shape x -> id_shape y -> object_path_under encode base x = object_path_under encode base y -> x = y.
Proof.
  assert (Hshape : forall z, id_shape z ->
    object_path_under encode base z = base ++ [encode (z +:+ ".pmtiles")] \/
    exists a b, z = a +:+ String slash b /\
      object_path_under encode base z = base ++ [encode a; encode (b +:+ ".pmtiles")]).
  { intros z [Hz _ _|a b -> Ha Hb _ _].
    - left. apply object_path_flat, Hz.
    - right. exists a, b. split; [done|]. apply object_path_namespaced; [apply Ha|apply Hb]. }
  intros [->|(a & b & -> & ->)]%Hshape [->|(a' & b' & -> & ->)]%Hshape Heq%(inj (app base));
    try discriminate Heq.
  - injection Heq as Heq%(inj encode). by eapply str_app_inj_r.
  - injection Heq as ->%(inj encode) Heq%(inj encode). apply str_app_inj_r in Heq. by subst.
Qed.

Lemma template_path_injective tpl x y :
  template_wf true tpl -> id_shape x -> id_shape y -> render encode tpl x = render encode tpl y -> x = y.
Proof.
  intros Hwf [Hx Hnx _|a b -> Ha Hb _ _] [Hy Hny _|a' b' -> Ha' Hb' _ _] Heq.
  - destruct Hwf as [(prefix & suffix & Hin) _]. unfold render in Heq. rewrite Hnx, Hny in Heq.
    rewrite !render_segments in Heq. cbn [app] in Heq. apply (inj (fmap encode)) in Heq.
    assert (Hid : forall z : string, (if tp_tileset_id_includes_namespace tpl then z else z) = z)
      by (intros; by case_match).
    rewrite !Hid in Heq.
    eapply (segments_agree _ _ _ _ _ (PartTilesetId prefix suffix)) in Heq; [|intros [| |p q]; cbn|done].
    all: cbn; rewrite ?Hnx, ?Hny; try done.
    cbn in Heq. rewrite Hnx, Hny in Heq. injection Heq as Heq.
    eapply str_app_inj_r. by eapply inj in Heq; [|apply _].
  - pose proof (render_flat_shorter tpl x a' b' Hwf) as Hlt.
    rewrite Heq in Hlt. exfalso. eapply Nat.lt_irrefl. apply Hlt; [apply Hx|apply Ha'|apply Hb'].
  - pose proof (render_flat_shorter tpl y a b Hwf) as Hlt.
    rewrite Heq in Hlt. exfalso. eapply Nat.lt_irrefl. apply Hlt; [apply Hy|apply Ha|apply Hb].
  - destruct (render_same_shape tpl a b a' b' true Hwf) as [-> ->]; try done.
    all: first [apply Ha|apply Hb|apply Ha'|apply Hb'].
Qed.

Lemma try_new_shape t : TilesetId_try_new t = Ok t -> id_shape t.
Proof. unfold TilesetId_try_new. intros H. res_inv. destruct a. by apply valid_id_shape. Qed.

(** Below a root, a key adds one or two plain segments. *)
Lemma root_path_confined base z :
  id_shape z -> exists segments, object_path_under encode base z = base ++ (encode <$> segments) /\
    (1 <= length segments <= 2)%nat /\ Forall plain_segment segments.
Proof.
  intros [Hz _ _|a b -> Ha Hb _ _].
  - exists [z +:+ ".pmtiles"]. rewrite object_path_flat by apply Hz. split_and!; [done|cbn; lia..|].
    repeat constructor; by apply pmtiles_plain.
  - exists [a; b +:+ ".pmtiles"].
    rewrite object_path_namespaced by first [apply Ha|apply Hb]. split_and!; [done|cbn; lia..|].
    apply Forall_cons_2; [done|]. apply Forall_singleton. by apply pmtiles_plain.
Qed.

Lemma entry_path_injective {Store} (entries : NamespacedEntries (TilesetSource Store)) t t' s s' p :
  sources_wf entries -> id_shape t -> id_shape t' ->
  selected_entry entries t = selected_entry entries t' ->
  resolve encode entries t = Some (s, p) -> resolve encode entries t' = Some (s', p) -> t = t'.
Proof.
  intros [Hns Hdef] Ht Ht' Hsel. unfold resolve.
  destruct (select entries t) as [[src rel]|] eqn:E; [|done].
  destruct (select entries t') as [[src' rel']|] eqn:E'; [|done]. cbn. intros [= <- <-] [= <- Hp].
  apply select_cases in E, E'. rewrite <- Hsel in E'.
  destruct (selected_entry entries t) as [ns|].
  - destruct E as (Hin & Hs & Hf), E' as (_ & Hs' & Hf').
    assert (src' = src) as -> by congruence. clear Hf Hf'. apply Hns in Hin.
    assert (Hplain : forall z r, id_shape z -> split_once slash z = Some (ns, r) ->
      z = ns +:+ String slash r /\ ~ str_In slash ns /\ plain_segment r).
    { intros z r [_ Hz _|a b -> Ha Hb Hz _]; rewrite Hz; [done|]. intros [= <- <-].
      split_and!; [done|apply Ha|done..]. }
    destruct (Hplain _ _ Ht Hs) as (-> & Hn & Hr), (Hplain _ _ Ht' Hs') as (-> & _ & Hr').
    assert (rel = rel') as ->; [|done]. destruct (ts_path src) as [base|tpl]; cbn in *.
    + assert (Hshape : forall r, plain_segment r -> id_shape r).
      { intros r Hr0. apply FlatId; [done| |].
        - apply split_once_no_sep, Hr0.
        - apply str_split_no_sep, Hr0. }
      by apply (root_path_injective base); [apply Hshape..|].
    + destruct (render_same_shape tpl ns rel ns rel' false) as [_ ->]; try done.
      all: first [apply Hr|apply Hr'].
  - destruct E as (Hd & ->), E' as (Hd' & ->). assert (src' = src) as -> by congruence.
    apply Hdef in Hd. destruct (ts_path src) as [base|tpl].
    + by apply (root_path_injective base).
    + by apply (template_path_injective tpl).
Qed.

(** Object paths of tilesets: within one configured entry, two validated
    tileset ids never resolve to the same object, whether the entry is a root or
    a template; and below a root the path is the root followed by one or two
    plain segments, so no id escapes the configured location. *)
Theorem resolve_injective_confined {Store} (entries : NamespacedEntries (TilesetSource Store))
    t t' s s' p p'
    (Hwf : sources_wf entries)
    (Ht : TilesetId_try_new t = Ok t) (Ht' : TilesetId_try_new t' = Ok t')
    (Hsel : selected_entry entries t = selected_entry entries t')
    (Hr : resolve encode entries t = Some (s, p)) (Hr' : resolve encode entries t' = Some (s', p')) :
  (p = p' <-> t = t') /\
  (forall source rel base, select entries t = Some (source, rel) -> ts_path source = Root base ->
     exists segments, p = base ++ (encode <$> segments) /\
       (1 <= length segments <= 2)%nat /\ Forall plain_segment segments).
Proof.
  apply try_new_shape in Ht, Ht'. split; [split|].
  - intros ->. by eapply entry_path_injective.
  - intros ->. congruence.
  - intros source rel base Hselect Hroot. unfold resolve in Hr. rewrite Hselect in Hr. cbn in Hr.
    rewrite Hroot in Hr. injection Hr as _ <-. apply root_path_confined.
    apply select_cases in Hselect. destruct (selected_entry entries t) as [ns|].
    + destruct Hselect as (_ & Hs & _). destruct Ht as [_ Hz _|a b -> Ha Hb Hz _]; rewrite Hz in Hs; [done|].
      injection Hs as <- <-. apply FlatId; [done| |].
      * apply split_once_no_sep, Hb.
      * apply str_split_no_sep, Hb.
    + by destruct Hselect as [_ ->].
Qed.
End Injective.

(** ** Routing keys of derived resources *)

Lemma identifier_no_colon s : is_identifier_segment s = true -> ~ str_In ":"%char s.
Proof.
  unfold is_identifier_segment. induction s as [|a s IH]; cbn; [tauto|].
  intros [Ha Hs]%andb_prop [->|Hin]; [by vm_compute in Ha|by apply IH].
Qed.

(** Routing keys: the key of a derived product determines the product and
    the tileset, and is never the id of a tileset, so generated resources and
    archives cannot share placement or cache entries. *)
Theorem derived_key_unambiguous product product' t t' k k'
    (Hk : for_derived_resource product t = Ok k) (Hk' : for_derived_resource product' t' = Ok k') :
  (k = k' <-> product = product' /\ t = t') /\ TilesetId_try_new k <> Ok k.
Proof.
  unfold for_derived_resource, validate_resource_segment in *. res_inv. bool_props.
  split; [split|].
  - intros Heq. apply (inj (String.append "derived:")) in Heq.
    apply (f_equal (split_once ":"%char)) in Heq.
    change (":" +:+ t) with (String ":" t) in Heq. change (":" +:+ t') with (String ":" t') in Heq.
    rewrite !split_once_app in Heq by by apply identifier_no_colon. by injection Heq.
  - by intros [-> ->].
  - intros Hid%try_new_shape.
    assert (Hno : ~ str_In ":"%char ("derived:" +:+ (product +:+ ":" +:+ t))); [|by apply Hno; do 7 right; left].
    destruct Hid as [Hz _ _|a b Heq Ha Hb _ _]; [by apply identifier_no_colon, Hz|]. rewrite Heq.
    intros Hin. destruct Ha as (_ & _ & _ & _ & Ha), Hb as (_ & _ & _ & _ & Hb).
    apply identifier_no_colon in Ha, Hb. revert Hin. clear - Ha Hb.
    induction a as [|c a IH]; [|rewrite app_String; cbn in Ha |- *; tauto].
    rewrite app_empty. cbn. by intros [[=]|?].
Qed.

(** ** Witnesses *)

Definition demo_sources : NamespacedEntries (TilesetSource Z) :=
  {| ne_namespaces := [("regional", {| ts_object_store := 1; ts_path := Root ["bucket"; "tiles"] |})];
     ne_default := Some {| ts_object_store := 2;
       ts_path := Template {| tp_parts := [PartLiteral "v1"; PartTilesetId "" ".pmtiles"];
                              tp_tileset_id_includes_namespace := true |} |} |}.

Lemma demo_sources_wf : sources_wf demo_sources.
Proof.
  split; cbn.
  - intros ns source [[= -> ->]|[]%not_elem_of_nil]%elem_of_cons. done.
  - intros source [= <-]. split; [|done]. exists "", ".pmtiles". right. left.
Defined.

Example resolve_root :
  resolve id demo_sources "regional/streets" = Some (1, ["bucket"; "tiles"; "streets.pmtiles"]).
Proof. reflexivity. Qed.
Example resolve_template :
  resolve id demo_sources "omt/japan" = Some (2, ["v1"; "omt"; "japan.pmtiles"]).
Proof. reflexivity. Qed.

Lemma resolve_injective_confined_witness :
  (["bucket"; "tiles"; "a.pmtiles"] = ["bucket"; "tiles"; "b.pmtiles"] <-> "regional/a" = "regional/b") /\
  (forall source rel base, select demo_sources "regional/a" = Some (source, rel) ->
     ts_path source = Root base ->
     exists segments, ["bucket"; "tiles"; "a.pmtiles"] = base ++ (id <$> segments) /\
       (1 <= length segments <= 2)%nat /\ Forall plain_segment segments).
Proof.
  apply (resolve_injective_confined id demo_sources "regional/a" "regional/b" 1 1);
    [apply demo_sources_wf|reflexivity..].
Defined.

Lemma derived_key_unambiguous_witness :
  ("derived:contour:a" = "derived:contour:b" <-> "contour" = "contour" /\ "a" = "b") /\
  TilesetId_try_new "derived:contour:a" <> Ok "derived:contour:a".
Proof. apply (derived_key_unambiguous "contour" "contour" "a" "b"); reflexivity. Defined.
