(* ===== verification/ChunkStore.v ===== *)
(** * Chunked byte-range reads

    Models [storage/chunked_store/store.rs] (range validation, chunk planning,
    reconstruction of a range from chunks, the group cache), the byte-range part
    of [storage/chunked_store/fetcher.rs], [storage/chunked_store/cache.rs] and
    [storage/tuning.rs] of [crates/ishikari-core/src].

    Messages of errors are the structured values they are printed from. The
    object store is a parameter that replies to a ranged read; the coordinator
    that fetches missing chunks is the interface [ChunkCoordinator], whose laws
    the file FetchCoordinator discharges. *)

From S2P Require Import Prelude StdModel TilesetSources.

(** ** Byte slices *)

Abbreviation bytes := (list Z).

(** The bytes at offsets [lo, hi) of a buffer. *)
Definition slice (lo hi : Z) (bs : bytes) : bytes :=
  take (Z.to_nat (hi - lo)) (drop (Z.to_nat lo) bs).

Definition len (bs : bytes) : Z := Z.of_nat (length bs).

(** [Bytes::slice] and slice indexing panic outside the buffer. *)
Definition Bytes_slice {E} (lo hi : Z) (bs : bytes) : Res E bytes :=
  if (0 <=? lo) && (lo <=? hi) && (hi <=? len bs) then Ok (slice lo hi bs) else Panic.

(** ** Errors *)

Inductive ChunkRangeError : Type :=
  | ByteRangeOverflow (start length : Z)
  | OutsideArchive (start end_ archive_len : Z)
  | InvalidChunkGroup (start_chunk end_chunk : Z)
  | ChunkArithmeticOverflow (chunk_index chunk_size : Z)
  | ChunkOutsideArchive (chunk_index archive_len : Z)
  | SliceOutsideFetchedBytes (chunk_index relative_start relative_end bytes_len : Z).

(** The [anyhow] errors of the reconstruction. *)
Inductive ReadError : Type :=
  | CachedReadOverflow
  | ResolvedChunkMissing
  | OffsetExceedsChunk (chunk_index chunk_len chunk_offset : Z)
  | ChunkSliceOverflow
  | ReconstructFailed
  | CachedChunkShorter (chunk_index chunk_len chunk_offset length : Z).

Inductive FetchMessage : Type :=
  | MRange (e : ChunkRangeError)
  | MRead (e : ReadError)
  | MNoSource (tileset_id : string)
  | MChunkRangeOverflow (start_chunk end_chunk chunk_size : Z)
  | MEmptyChunkRange (range_start range_end archive_len : Z)
  | MRangeDoesNotFit (range_start range_end : Z)
  | MUnexpectedLength (range_start range_end expected actual : Z)
  | MGroupOmitted (chunk_index : Z)
  | MText (text : string).

Inductive ChunkFetchError : Type :=
  | NotFound
  | Overloaded (text : string)
  | Timeout (m : FetchMessage)
  | BackendFailure (error : string)
  | Message (m : FetchMessage).

#[export] Instance ChunkRangeError_eq_dec : EqDecision ChunkRangeError.
Proof. solve_decision. Defined.
#[export] Instance ReadError_eq_dec : EqDecision ReadError.
Proof. solve_decision. Defined.
#[export] Instance FetchMessage_eq_dec : EqDecision FetchMessage.
Proof. solve_decision. Defined.
#[export] Instance ChunkFetchError_eq_dec : EqDecision ChunkFetchError.
Proof. solve_decision. Defined.

(** ** Resolver tuning *)

Record ResolverTuning := {
  rt_candidate_count : Z;
  rt_tile_group_size : Z;
  rt_chunk_size_bytes : Z;
  rt_max_fetch_chunks : Z;
  rt_chunk_fetch_merge_window : Z;
  rt_backend_fetch_concurrency : Z;
  rt_backend_fetch_max_inflight : Z;
  rt_tile_cache_max_bytes : Z;
  rt_chunk_cache_max_bytes : Z;
  rt_tile_negative_ttl : Z;
}.

Inductive ResolverTuningError : Type := ZeroChunkSizeBytes.

(** [ResolverTuningInput::resolve]; the input has the fields of the result. *)
Definition resolve_tuning (self : ResolverTuning) : Res ResolverTuningError ResolverTuning :=
  _ ← ensure (negb (rt_chunk_size_bytes self =? 0)) ZeroChunkSizeBytes;
  let backend_fetch_concurrency := Z.max (rt_backend_fetch_concurrency self) 1 in
  Ok {| rt_candidate_count := Z.max (rt_candidate_count self) 1;
        rt_tile_group_size := Z.max (rt_tile_group_size self) 1;
        rt_chunk_size_bytes := rt_chunk_size_bytes self;
        rt_max_fetch_chunks := Z.max (rt_max_fetch_chunks self) 1;
        rt_chunk_fetch_merge_window := rt_chunk_fetch_merge_window self;
        rt_backend_fetch_concurrency := backend_fetch_concurrency;
        rt_backend_fetch_max_inflight :=
          Z.max (rt_backend_fetch_max_inflight self) backend_fetch_concurrency;
        rt_tile_cache_max_bytes := rt_tile_cache_max_bytes self;
        rt_chunk_cache_max_bytes := rt_chunk_cache_max_bytes self;
        rt_tile_negative_ttl := rt_tile_negative_ttl self |}.

(** ** Range planning *)

Definition validate_byte_range (start length : Z) (archive_len : option Z) : Res ChunkRangeError Z :=
  end_ ← ok_or (ByteRangeOverflow start length) (checked_add start length);
  match archive_len with
  | Some archive_len =>
      if (archive_len <? start) || (archive_len <? end_)
      then Err (OutsideArchive start end_ archive_len) else Ok end_
  | None => Ok end_
  end.

(** One turn of the loop of [chunk_slices]. *)
Definition chunk_slice (chunk_size archive_len bytes_len range_start chunk_index : Z)
    : Res ChunkRangeError (Z * (Z * Z)) :=
  absolute_start ← ok_or (ChunkArithmeticOverflow chunk_index chunk_size)
                     (checked_mul chunk_index chunk_size);
  next_chunk ← ok_or (ChunkArithmeticOverflow chunk_index chunk_size) (checked_add chunk_index 1);
  next_start ← ok_or (ChunkArithmeticOverflow next_chunk chunk_size)
                 (checked_mul next_chunk chunk_size);
  let absolute_end := Z.min next_start archive_len in
  _ ← ensure (absolute_start <? absolute_end) (ChunkOutsideArchive chunk_index archive_len);
  relative_start ← ok_or (SliceOutsideFetchedBytes chunk_index usize_max usize_max bytes_len)
                     (usize_try_from (wrapping_sub absolute_start range_start));
  relative_end ← ok_or (SliceOutsideFetchedBytes chunk_index relative_start usize_max bytes_len)
                   (usize_try_from (wrapping_sub absolute_end range_start));
  _ ← ensure ((relative_start <=? relative_end) && (relative_end <=? bytes_len))
        (SliceOutsideFetchedBytes chunk_index relative_start relative_end bytes_len);
  Ok (chunk_index, (relative_start, relative_end)).

(** The integers of a [Range<u64>], in order. *)
Definition range_list (start end_ : Z) : list Z := seqZ start (end_ - start).

Definition chunk_slices (start end_ chunk_size archive_len bytes_len : Z)
    : Res ChunkRangeError (list (Z * (Z * Z))) :=
  _ ← ensure (start <? end_) (InvalidChunkGroup start end_);
  range_start ← ok_or (ChunkArithmeticOverflow start chunk_size) (checked_mul start chunk_size);
  mapM (chunk_slice chunk_size archive_len bytes_len range_start) (range_list start end_).

(** Integer division by zero panics. *)
Definition chunk_index {E} (offset chunk_size : Z) : Res E Z :=
  if chunk_size =? 0 then Panic else Ok (offset / chunk_size).

Definition byte_range_to_chunk_range {E} (start end_ chunk_size : Z) : Res E (Z * Z) :=
  first_chunk ← chunk_index start chunk_size;
  last_chunk ← chunk_index (saturating_sub end_ 1) chunk_size;
  Ok (first_chunk, last_chunk).

(** ** Reconstruction *)

Definition slice_single_chunk (chunk_size chunk_index start length : Z) (chunk : bytes)
    : Res ReadError bytes :=
  if chunk_size =? 0 then Panic else
  let chunk_offset := start mod chunk_size in
  chunk_end ← ok_or ChunkSliceOverflow (checked_add chunk_offset length);
  _ ← ensure (chunk_end <=? len chunk)
        (CachedChunkShorter chunk_index (len chunk) chunk_offset length);
  Bytes_slice chunk_offset chunk_end chunk.

(** The loop over the chunks of the range: [remaining] bytes are still wanted,
    from [current_offset] of the next chunk. *)
Fixpoint append_chunks (chunks : gmap Z bytes) (chunk_idxs : list Z)
    (acc : bytes) (remaining current_offset : Z) : Res ReadError (bytes * Z) :=
  match chunk_idxs with
  | [] => Ok (acc, remaining)
  | chunk_idx :: chunk_idxs =>
      chunk ← ok_or ResolvedChunkMissing (chunks !! chunk_idx);
      _ ← ensure (current_offset <=? len chunk)
            (OffsetExceedsChunk chunk_idx (len chunk) current_offset);
      let take := Z.min remaining (len chunk - current_offset) in
      current_end ← ok_or ChunkSliceOverflow (checked_add current_offset take);
      piece ← Bytes_slice current_offset current_end chunk;
      append_chunks chunks chunk_idxs (acc ++ piece) (remaining - take) 0
  end.

Definition read_resolved_bytes (chunk_size start length : Z) (chunks : gmap Z bytes)
    : Res ReadError bytes :=
  end_ ← ok_or CachedReadOverflow (checked_add start length);
  '(first_chunk, last_chunk) ← byte_range_to_chunk_range start end_ chunk_size;
  let chunk_offset := start mod chunk_size in
  if first_chunk =? last_chunk then
    chunk ← ok_or ResolvedChunkMissing (chunks !! first_chunk);
    slice_single_chunk chunk_size first_chunk start length chunk
  else
    '(bytes, remaining) ← append_chunks chunks (range_list first_chunk (last_chunk + 1))
                            [] length chunk_offset;
    _ ← ensure (remaining =? 0) ReconstructFailed;
    Ok bytes.

(** ** The chunk cache

    Entries by tileset and chunk; a bounded cache may drop any of them at any
    time, which the runs of the coordinator include as a step. *)
Abbreviation ChunkCache := (gmap (string * Z) bytes).

Fixpoint put_slices (tileset_id : string) (bs : bytes) (slices : list (Z * (Z * Z)))
    (chunks : gmap Z bytes) : SM ChunkCache ChunkRangeError (gmap Z bytes) :=
  match slices with
  | [] => mret chunks
  | (chunk_index, (lo, hi)) :: slices =>
      chunk ← lift (Bytes_slice lo hi bs);
      _ ← modify <[(tileset_id, chunk_index) := chunk]>;
      put_slices tileset_id bs slices (<[chunk_index := chunk]> chunks)
  end.

Definition cache_chunk_group (chunk_size : Z) (tileset_id : string) (start end_ archive_len : Z)
    (bs : bytes) : SM ChunkCache ChunkRangeError (gmap Z bytes) :=
  slices ← lift (chunk_slices start end_ chunk_size archive_len (len bs));
  put_slices tileset_id bs slices ∅.

(** ** Backend fetches *)

Inductive FetchAdmission : Type :=
  | Granted
  | AdmissionClosed
  | AdmissionTimeout.

Inductive StoreReply : Type :=
  | StoreBytes (bs : bytes)
  | StoreNotFound
  | StoreError (error : string)
  | StoreTimeout.

Inductive RangeLengthPolicy : Type :=
  | Exact
  | AllowShortAtEof.

(** The atomics of [ChunkFetcher]. *)
Record FetchCounters := {
  fc_fetch_sequence : Z;
  fc_received_bytes : Z;
}.

Definition received (n : Z) (c : FetchCounters) : FetchCounters :=
  {| fc_fetch_sequence := fc_fetch_sequence c;
     fc_received_bytes := wrapping_add (fc_received_bytes c) n |}.
Definition next_sequence (c : FetchCounters) : FetchCounters :=
  {| fc_fetch_sequence := wrapping_add (fc_fetch_sequence c) 1;
     fc_received_bytes := fc_received_bytes c |}.

Section Fetcher.
Context {Store : Type} (encode : string -> string).
Context (sources : NamespacedEntries (TilesetSource Store)).
Context (chunk_size : Z).
(** What the environment answers to one fetch: the admission to the backend
    semaphore, and the reply of the object store. *)
Context (admission : FetchAdmission) (get_range : Store -> list string -> Z -> Z -> StoreReply).

Definition fetch_range (tileset_id : string) (range_start requested_range_end : Z)
    (range_length_policy : RangeLengthPolicy) : SM FetchCounters ChunkFetchError bytes :=
  '(object_store, path) ← lift (ok_or (Message (MNoSource tileset_id))
                                  (resolve encode sources tileset_id));
  _ ← lift (match admission with
            | Granted => Ok tt
            | AdmissionClosed => Err (Message (MText "backend fetch admission closed"))
            | AdmissionTimeout =>
                Err (Timeout (MText "timed out waiting for backend fetch admission"))
            end);
  _ ← modify next_sequence;
  bs ← lift (match get_range object_store path range_start requested_range_end with
             | StoreBytes bs => Ok bs
             | StoreNotFound => Err NotFound
             | StoreError error => Err (BackendFailure error)
             | StoreTimeout => Err (Timeout (MText "timed out fetching object-store range"))
             end);
  let requested_bytes := saturating_sub requested_range_end range_start in
  expected_len ← lift (ok_or (Message (MRangeDoesNotFit range_start requested_range_end))
                         (usize_try_from requested_bytes));
  _ ← modify (received (len bs));
  let exact := match range_length_policy with Exact => true | AllowShortAtEof => false end in
  _ ← lift (ensure (negb ((expected_len <? len bs) || exact && negb (len bs =? expected_len)))
              (Message (MUnexpectedLength range_start requested_range_end expected_len (len bs))));
  mret bs.

Definition fetch_chunk_group (tileset_id : string) (start_chunk end_chunk archive_len : Z)
    : SM FetchCounters ChunkFetchError bytes :=
  if end_chunk <=? start_chunk then mret [] else
  match checked_mul start_chunk chunk_size, checked_mul end_chunk chunk_size with
  | Some range_start, Some range_end =>
      let range_end := Z.min range_end archive_len in
      _ ← lift (ensure (range_start <? range_end)
                  (Message (MEmptyChunkRange range_start range_end archive_len)));
      fetch_range tileset_id range_start range_end Exact
  | _, _ => lift (Err (Message (MChunkRangeOverflow start_chunk end_chunk chunk_size)))
  end.

Definition fetch_exact_range (tileset_id : string) (range_start range_end : Z)
    : SM FetchCounters ChunkFetchError bytes :=
  if range_end <=? range_start then mret []
  else fetch_range tileset_id range_start range_end AllowShortAtEof.
End Fetcher.

(** ** Reads through the cache and the coordinator *)

Inductive ChunkReadSource : Type :=
  | FromCache
  | FromBackend.

Record ChunkRead := {
  cr_bytes : bytes;
  cr_source : ChunkReadSource;
}.

(** The operations a read uses, over the state shared with every other task. *)
Class ChunkCoordinator (S : Type) := {
  chunk_cache_get : string -> Z -> SM S ChunkFetchError (option bytes);
  fetch_chunks : string -> list Z -> Z -> SM S ChunkFetchError (gmap Z bytes);
  coordinator_fetch_exact_range : string -> Z -> Z -> SM S ChunkFetchError bytes;
}.

Section Reads.
Context {S : Type} `{!ChunkCoordinator S} (chunk_size : Z).

Definition read_single_chunk (tileset_id : string) (chunk_index start length archive_len : Z)
    : SM S ChunkFetchError ChunkRead :=
  cached ← chunk_cache_get tileset_id chunk_index;
  '(chunk, source) ←
    match cached with
    | Some chunk => mret (chunk, FromCache)
    | None =>
        fetched ← fetch_chunks tileset_id [chunk_index] archive_len;
        chunk ← lift (ok_or (Message (MText "resolved chunk missing after fetch"))
                        (fetched !! chunk_index));
        mret (chunk, FromBackend)
    end;
  bs ← lift (map_err (fun e => Message (MRead e))
               (slice_single_chunk chunk_size chunk_index start length chunk));
  mret {| cr_bytes := bs; cr_source := source |}.

(** The probe of every chunk of the range: the resolved and the missing ones. *)
Fixpoint probe_chunks (tileset_id : string) (chunk_idxs : list Z) (resolved : gmap Z bytes)
    (missing : list Z) : SM S ChunkFetchError (gmap Z bytes * list Z) :=
  match chunk_idxs with
  | [] => mret (resolved, missing)
  | chunk_index :: chunk_idxs =>
      cached ← chunk_cache_get tileset_id chunk_index;
      match cached with
      | Some chunk => probe_chunks tileset_id chunk_idxs (<[chunk_index := chunk]> resolved) missing
      | None => probe_chunks tileset_id chunk_idxs resolved (missing ++ [chunk_index])
      end
  end.

Definition read_bytes (tileset_id : string) (start length : Z) (archive_len : option Z)
    : SM S ChunkFetchError ChunkRead :=
  end_ ← lift (map_err (fun e => Message (MRange e)) (validate_byte_range start length archive_len));
  if length =? 0 then mret {| cr_bytes := []; cr_source := FromCache |} else
  match archive_len with
  | None =>
      bs ← coordinator_fetch_exact_range tileset_id start end_;
      mret {| cr_bytes := bs; cr_source := FromBackend |}
  | Some archive_len =>
      '(first_chunk, last_chunk) ← lift (byte_range_to_chunk_range start end_ chunk_size);
      if first_chunk =? last_chunk
      then read_single_chunk tileset_id first_chunk start length archive_len
      else
        '(resolved, missing) ← probe_chunks tileset_id (range_list first_chunk (last_chunk + 1)) ∅ [];
        resolved ←
          match missing with
          | [] => mret resolved
          | _ =>
              fetched ← fetch_chunks tileset_id missing archive_len;
              mret (fetched ∪ resolved)
          end;
        let source := match missing with [] => FromCache | _ => FromBackend end in
        bs ← lift (map_err (fun e => Message (MRead e))
                     (read_resolved_bytes chunk_size start length resolved));
        mret {| cr_bytes := bs; cr_source := source |}
  end.
End Reads.

(** ** Facts about slices *)

Lemma len_slice lo hi bs : 0 <= lo <= hi -> hi <= len bs -> len (slice lo hi bs) = hi - lo.
Proof. unfold len, slice. intros. rewrite length_take, length_drop. lia. Qed.

Lemma slice_slice lo hi a b bs :
  0 <= lo -> 0 <= a <= b -> b <= hi - lo -> slice a b (slice lo hi bs) = slice (lo + a) (lo + b) bs.
Proof.
  intros. unfold slice. rewrite skipn_firstn_comm, take_take, drop_drop. f_equal; [lia|]. f_equal. lia.
Qed.

Lemma slice_app a b c bs : 0 <= a <= b -> b <= c -> slice a b bs ++ slice b c bs = slice a c bs.
Proof.
  intros. unfold slice.
  replace (Z.to_nat (c - a)) with (Z.to_nat (b - a) + Z.to_nat (c - b))%nat by lia.
  rewrite <- take_take_drop. do 2 f_equal. rewrite drop_drop. f_equal. lia.
Qed.

Lemma slice_empty a bs : slice a a bs = [].
Proof. unfold slice. by rewrite Z.sub_diag. Qed.

Lemma Bytes_slice_Ok {E} lo hi bs :
  0 <= lo <= hi -> hi <= len bs -> Bytes_slice (E := E) lo hi bs = Ok (slice lo hi bs).
Proof.
  intros. unfold Bytes_slice. by rewrite !(proj2 (Z.leb_le _ _)) by lia.
Qed.

(** ** Chunks of an archive *)

Section Archive.
Context (chunk_size : Z) (archive : bytes).
Context (Hsize : 0 < chunk_size) (Hlen : len archive <= u64_max).

(** The chunk with index [i]; the last one may be short. *)
Definition archive_chunk (i : Z) : bytes :=
  slice (i * chunk_size) (Z.min ((i + 1) * chunk_size) (len archive)) archive.

(** Every chunk of the map is the archive's. *)
Definition chunks_ok (chunks : gmap Z bytes) : Prop :=
  forall i b, chunks !! i = Some b -> b = archive_chunk i.

Lemma len_archive_chunk i :
  0 <= i -> i * chunk_size < len archive ->
  len (archive_chunk i) = Z.min ((i + 1) * chunk_size) (len archive) - i * chunk_size.
Proof. intros. unfold archive_chunk. rewrite len_slice; nia. Qed.

Lemma slice_archive_chunk i a b :
  0 <= i -> 0 <= a <= b -> b <= Z.min ((i + 1) * chunk_size) (len archive) - i * chunk_size ->
  slice a b (archive_chunk i) = slice (i * chunk_size + a) (i * chunk_size + b) archive.
Proof. intros. unfold archive_chunk. apply slice_slice; nia. Qed.

Lemma range_list_cons a b : a < b -> range_list a b = a :: range_list (a + 1) b.
Proof. intros. unfold range_list. rewrite seqZ_cons by lia. do 2 f_equal; lia. Qed.

Lemma range_list_nil a b : b <= a -> range_list a b = [].
Proof. intros. unfold range_list. apply seqZ_nil. lia. Qed.

Lemma elem_of_range_list a b i : i ∈ range_list a b <-> a <= i < b.
Proof. unfold range_list. rewrite elem_of_seqZ. lia. Qed.

(** The reconstruction loop, from byte [k * chunk_size + off] up to [end_]. *)
Lemma append_chunks_archive chunks last end_ (n : nat) k off acc :
  chunks_ok chunks -> (forall i, k <= i <= last -> is_Some (chunks !! i)) ->
  last * chunk_size < end_ <= (last + 1) * chunk_size -> end_ <= len archive ->
  0 <= k -> k + Z.of_nat n = last -> 0 <= off < chunk_size -> k * chunk_size + off <= end_ ->
  append_chunks chunks (range_list k (last + 1)) acc (end_ - (k * chunk_size + off)) off =
  Ok (acc ++ slice (k * chunk_size + off) end_ archive, 0).
Proof.
  intros Hok. revert k off acc. induction n as [|n IH]; intros k off acc Hsome Hend Hle Hk Hn Hoff Hpos.
  all: rewrite range_list_cons by lia; cbn [append_chunks].
  all: destruct (Hsome k) as [chunk Hc]; [lia|]; rewrite Hc; pose proof (Hok _ _ Hc) as ->; res_simpl.
  all: assert (Hck : k * chunk_size < len archive) by nia; pose proof (len_archive_chunk k Hk Hck) as Hl.
  - assert (k = last) as -> by lia. rewrite (proj2 (Z.leb_le _ _)) by nia. res_simpl.
    rewrite Z.min_l by nia.
    replace (checked_add off _) with (Some (end_ - last * chunk_size))
      by (symmetry; apply checked_add_Some; nia).
    res_simpl. rewrite Bytes_slice_Ok by nia. res_simpl. rewrite range_list_nil by lia.
    cbn [append_chunks]. rewrite slice_archive_chunk by nia. do 3 f_equal; [f_equal; lia|lia].
  - assert (Hfull : (k + 1) * chunk_size <= last * chunk_size) by nia.
    rewrite Z.min_l in Hl by lia.
    rewrite (proj2 (Z.leb_le _ _)) by nia. res_simpl. rewrite Z.min_r by nia.
    replace (checked_add off _) with (Some (len (archive_chunk k)))
      by (symmetry; apply checked_add_Some; nia).
    res_simpl. rewrite Bytes_slice_Ok by nia. res_simpl.
    rewrite slice_archive_chunk by nia.
    replace (k * chunk_size + len (archive_chunk k)) with ((k + 1) * chunk_size) by nia.
    replace (end_ - (k * chunk_size + off) - (len (archive_chunk k) - off))
      with (end_ - ((k + 1) * chunk_size + 0)) by nia.
    rewrite IH; try nia; [|intros; apply Hsome; lia].
    rewrite Z.add_0_r, <- app_assoc, slice_app by nia. done.
Qed.

Lemma slice_single_chunk_archive i start length :
  0 <= start -> 0 < length -> start + length <= len archive ->
  i * chunk_size <= start -> start + length <= (i + 1) * chunk_size ->
  slice_single_chunk chunk_size i start length (archive_chunk i) =
  Ok (slice start (start + length) archive).
Proof.
  intros. unfold slice_single_chunk. rewrite (proj2 (Z.eqb_neq _ _)) by lia.
  assert (Hm : start mod chunk_size = start - i * chunk_size).
  { symmetry. apply Z.mod_unique with i; lia. }
  assert (Hi : 0 <= i) by nia. rewrite Hm.
  replace (checked_add _ _) with (Some (start + length - i * chunk_size))
    by (symmetry; apply checked_add_Some; nia).
  res_simpl. rewrite len_archive_chunk by nia. rewrite (proj2 (Z.leb_le _ _)) by lia. res_simpl.
  rewrite Bytes_slice_Ok; [|lia|rewrite len_archive_chunk by nia; lia].
  rewrite slice_archive_chunk by lia. do 2 f_equal; lia.
Qed.

(** The chunk range of a non-empty byte range. *)
Lemma chunk_range_spec {E} start length :
  0 <= start -> 0 < length ->
  exists first last, byte_range_to_chunk_range (E := E) start (start + length) chunk_size = Ok (first, last) /\
    0 <= first <= last /\ first = start / chunk_size /\
    first * chunk_size <= start < (first + 1) * chunk_size /\
    last * chunk_size < start + length <= (last + 1) * chunk_size.
Proof.
  intros. unfold byte_range_to_chunk_range, chunk_index, saturating_sub.
  rewrite !(proj2 (Z.eqb_neq _ _)) by lia. res_simpl. do 2 eexists. split; [done|].
  rewrite Z.max_r by lia.
  pose proof (Z.div_mod start chunk_size). pose proof (Z.mod_pos_bound start chunk_size).
  pose proof (Z.div_mod (start + length - 1) chunk_size).
  pose proof (Z.mod_pos_bound (start + length - 1) chunk_size).
  assert (start / chunk_size <= (start + length - 1) / chunk_size) by (apply Z.div_le_mono; lia).
  assert (0 <= start / chunk_size) by (apply Z.div_pos; lia).
  split_and!; nia.
Qed.

Lemma read_resolved_archive start length chunks :
  0 <= start -> 0 < length -> start + length <= len archive -> chunks_ok chunks ->
  (forall i, start / chunk_size <= i <= (start + length - 1) / chunk_size -> is_Some (chunks !! i)) ->
  read_resolved_bytes chunk_size start length chunks = Ok (slice start (start + length) archive).
Proof.
  intros Hs Hl Hle Hok Hsome. unfold read_resolved_bytes.
  replace (checked_add start length) with (Some (start + length))
    by (symmetry; apply checked_add_Some; lia).
  res_simpl. destruct (chunk_range_spec (E := ReadError) start length Hs Hl)
    as (first & last & -> & Hfl & -> & Hfirst & Hlast). res_simpl. cbn beta iota.
  assert ((start + length - 1) / chunk_size = last) as Hd.
  { symmetry. apply Z.div_unique with (start + length - 1 - last * chunk_size); lia. }
  rewrite Hd in Hsome. set (first := start / chunk_size) in *.
  destruct (Z.eqb_spec first last) as [Heq|Hne].
  - destruct (Hsome first) as [c Hc]; [lia|]. rewrite Hc. res_simpl. rewrite (Hok _ _ Hc).
    apply slice_single_chunk_archive; nia.
  - assert (Hm : start mod chunk_size = start - first * chunk_size).
    { symmetry. apply Z.mod_unique with first; lia. }
    replace length with (start + length - (first * chunk_size + start mod chunk_size)) at 1 by lia.
    rewrite (append_chunks_archive chunks last (start + length) (Z.to_nat (last - first))); try lia; try done.
    res_simpl. cbn. do 2 f_equal. lia.
Qed.

(** ** Cutting a fetched group into chunks *)

(** A chunk the planner accepts is the archive's, relative to the group. *)
Lemma chunk_slice_spec start i bytes_len r :
  0 <= start <= i -> start * chunk_size <= u64_max ->
  chunk_slice chunk_size (len archive) bytes_len (start * chunk_size) i = Ok r ->
  i * chunk_size < len archive /\
  r = (i, (i * chunk_size - start * chunk_size,
           Z.min ((i + 1) * chunk_size) (len archive) - start * chunk_size)) /\
  Z.min ((i + 1) * chunk_size) (len archive) - start * chunk_size <= bytes_len.
Proof.
  intros Hi Hmul H. unfold chunk_slice in H. res_inv.
  repeat match goal with
  | H : checked_mul _ _ = Some _ |- _ => apply checked_mul_Some in H as [-> ?]
  | H : checked_add _ _ = Some _ |- _ => apply checked_add_Some in H as [-> ?]
  | H : usize_try_from _ = Some _ |- _ => apply usize_try_from_Some in H as [-> ?]
  end.
  bool_props. rewrite !wrapping_sub_small in * by (unfold is_u; nia). split_and!; [lia|done|lia].
Qed.

Lemma chunk_slice_complete start i end_ bytes_len :
  0 <= start <= i -> i < end_ -> end_ * chunk_size <= u64_max -> end_ <= u64_max ->
  i * chunk_size < len archive ->
  Z.min (end_ * chunk_size) (len archive) - start * chunk_size <= bytes_len ->
  chunk_slice chunk_size (len archive) bytes_len (start * chunk_size) i =
  Ok (i, (i * chunk_size - start * chunk_size,
          Z.min ((i + 1) * chunk_size) (len archive) - start * chunk_size)).
Proof.
  intros Hi Hend Hmul Hend' Hin Hb. unfold chunk_slice.
  assert ((i + 1) * chunk_size <= end_ * chunk_size) by nia.
  replace (checked_mul i chunk_size) with (Some (i * chunk_size)) by (symmetry; apply checked_mul_Some; nia).
  res_simpl. replace (checked_add i 1) with (Some (i + 1)) by (symmetry; apply checked_add_Some; lia).
  res_simpl. replace (checked_mul (i + 1) chunk_size) with (Some ((i + 1) * chunk_size))
    by (symmetry; apply checked_mul_Some; lia).
  res_simpl. rewrite (proj2 (Z.ltb_lt _ _)) by nia. res_simpl.
  rewrite !wrapping_sub_small by (unfold is_u; nia).
  replace (usize_try_from (i * chunk_size - start * chunk_size)) with (Some (i * chunk_size - start * chunk_size))
    by (symmetry; apply usize_try_from_Some; unfold usize_max; nia).
  res_simpl. replace (usize_try_from _) with (Some (Z.min ((i + 1) * chunk_size) (len archive) - start * chunk_size))
    by (symmetry; apply usize_try_from_Some; unfold usize_max; nia).
  res_simpl. rewrite !(proj2 (Z.leb_le _ _)) by nia. done.
Qed.

(** The slices the planner returns for a group, and where they lie. *)
Definition group_slices (start end_ : Z) : list (Z * (Z * Z)) :=
  (fun i => (i, (i * chunk_size - start * chunk_size,
                 Z.min ((i + 1) * chunk_size) (len archive) - start * chunk_size)))
  <$> range_list start end_.

Lemma chunk_slices_spec start end_ bytes_len slices :
  0 <= start -> chunk_slices start end_ chunk_size (len archive) bytes_len = Ok slices ->
  start < end_ /\ slices = group_slices start end_ /\
  (forall i, start <= i < end_ -> i * chunk_size < len archive /\
     Z.min ((i + 1) * chunk_size) (len archive) - start * chunk_size <= bytes_len).
Proof.
  intros Hs H. unfold chunk_slices in H. res_inv. bool_props.
  apply checked_mul_Some in E0 as [-> Hmul]. split; [done|].
  apply mapM_Ok in H. unfold group_slices.
  assert (Hin : forall i, i ∈ range_list start end_ -> 0 <= start <= i)
    by (intros i ?%elem_of_range_list; lia).
  assert (Hall : forall i, start <= i < end_ -> i ∈ range_list start end_)
    by (intros; by apply elem_of_range_list).
  revert Hall. generalize (fun i => start <= i < end_). intros P Hall.
  assert (Hgoal : slices = (fun i => (i, (i * chunk_size - start * chunk_size,
      Z.min ((i + 1) * chunk_size) (len archive) - start * chunk_size))) <$> range_list start end_ /\
    forall i, i ∈ range_list start end_ -> i * chunk_size < len archive /\
      Z.min ((i + 1) * chunk_size) (len archive) - start * chunk_size <= bytes_len).
  { clear Hall. induction H as [|i r l k Hr _ IH]; [split; [done|by intros ? ?%not_elem_of_nil]|].
    destruct IH as [-> IH]; [intros; apply Hin; by right|].
    apply chunk_slice_spec in Hr as (H1 & -> & H3); [|apply Hin; left|done].
    split; [done|]. intros j [->|Hj]%elem_of_cons; auto. }
  destruct Hgoal as [-> Hgoal]. split; [done|]. auto.
Qed.

Lemma chunk_slices_complete start end_ bytes_len :
  0 <= start < end_ -> end_ * chunk_size <= u64_max -> (end_ - 1) * chunk_size < len archive ->
  Z.min (end_ * chunk_size) (len archive) - start * chunk_size <= bytes_len ->
  chunk_slices start end_ chunk_size (len archive) bytes_len = Ok (group_slices start end_).
Proof.
  intros Hs Hmul Hin Hb. unfold chunk_slices. rewrite (proj2 (Z.ltb_lt _ _)) by lia. res_simpl.
  replace (checked_mul _ _) with (Some (start * chunk_size)) by (symmetry; apply checked_mul_Some; nia).
  res_simpl. apply mapM_Ok. unfold group_slices. apply Forall2_fmap_r, Forall_Forall2_diag, Forall_forall.
  intros i Hi%elem_of_range_list. apply chunk_slice_complete with end_; nia.
Qed.

(** Storing the slices of a group. *)
Definition put_all (slices : list (Z * (Z * Z))) (bs : bytes) (chunks : gmap Z bytes) : gmap Z bytes :=
  foldl (fun m e => <[e.1 := slice e.2.1 e.2.2 bs]> m) chunks slices.
Definition cache_all (tileset_id : string) (slices : list (Z * (Z * Z))) (bs : bytes) (cache : ChunkCache) : ChunkCache :=
  foldl (fun m e => <[(tileset_id, e.1) := slice e.2.1 e.2.2 bs]> m) cache slices.

Lemma put_slices_run tileset_id bs slices chunks cache :
  Forall (fun e => 0 <= e.2.1 <= e.2.2 /\ e.2.2 <= len bs) slices ->
  put_slices tileset_id bs slices chunks cache =
  (Ok (put_all slices bs chunks), cache_all tileset_id slices bs cache).
Proof.
  intros H. revert chunks cache. induction H as [|[i [lo hi]] slices [H1 H2] _ IH]; intros; [done|].
  cbn [put_slices]. unfold mbind, SM_bind, lift. cbn in H1, H2. rewrite Bytes_slice_Ok by lia.
  cbn [modify]. apply IH.
Qed.

Lemma group_lookup {K} `{Countable K} (key : Z -> K) `{!Inj (=) (=) key} start end_ bs (m : gmap K bytes) :
  0 <= start -> bs = slice (start * chunk_size) (Z.min (end_ * chunk_size) (len archive)) archive ->
  (forall i, start <= i < end_ -> i * chunk_size < len archive) ->
  forall l, (forall i, i ∈ l -> start <= i < end_) ->
  let m' := foldl (fun m e => <[key e.1 := slice e.2.1 e.2.2 bs]> m) m
              ((fun i => (i, (i * chunk_size - start * chunk_size,
                 Z.min ((i + 1) * chunk_size) (len archive) - start * chunk_size))) <$> l) in
  (forall i, i ∈ l -> m' !! key i = Some (archive_chunk i)) /\
  (forall k, (forall i, i ∈ l -> k <> key i) -> m' !! k = m !! k).
Proof.
  intros Hs -> Hin l. revert m. induction l as [|j l IH]; intros m Hl; cbn.
  { split; [by intros ? ?%not_elem_of_nil|done]. }
  destruct (IH (<[key j := archive_chunk j]> m)) as [IH1 IH2]; [intros; apply Hl; by right|].
  assert (Hj : start <= j < end_) by (apply Hl; left). pose proof (Hin j Hj).
  assert (Hcut : slice (j * chunk_size - start * chunk_size)
      (Z.min ((j + 1) * chunk_size) (len archive) - start * chunk_size)
      (slice (start * chunk_size) (Z.min (end_ * chunk_size) (len archive)) archive) = archive_chunk j).
  { rewrite slice_slice by nia. unfold archive_chunk. f_equal; lia. }
  rewrite Hcut. split.
  - intros i [->|Hi]%elem_of_cons; [|auto]. destruct (decide (j ∈ l)) as [Hjl|Hjl]; [auto|].
    rewrite IH2; [apply lookup_insert_eq|]. intros i Hi Heq%(inj key). by subst.
  - intros k Hk. rewrite IH2 by (intros; apply Hk; by right). apply lookup_insert_ne.
    intros <-. by apply (Hk j); [left|].
Qed.

(** The chunks and the cache after a group's bytes have been cut. *)
Lemma cache_chunk_group_spec tileset_id start end_ bs cache r cache' :
  0 <= start -> bs = slice (start * chunk_size) (Z.min (end_ * chunk_size) (len archive)) archive ->
  cache_chunk_group chunk_size tileset_id start end_ (len archive) bs cache = (r, cache') ->
  (exists e, r = Err e /\ cache' = cache) \/
  (exists chunks, r = Ok chunks /\
    (forall i, chunks !! i = if decide (start <= i < end_) then Some (archive_chunk i) else None) /\
    (forall k, cache' !! k = if decide (k.1 = tileset_id /\ start <= k.2 < end_)
                             then Some (archive_chunk k.2) else cache !! k)).
Proof.
  intros Hs Hbs. unfold cache_chunk_group, mbind, SM_bind, lift.
  destruct (chunk_slices _ _ _ _ _) as [slices|e|] eqn:Hsl.
  - apply chunk_slices_spec in Hsl as (Hlt & -> & Hin); [|done].
    rewrite put_slices_run.
    + intros [= <- <-]. right. eexists. split; [done|].
      assert (Hin' : forall i, start <= i < end_ -> i * chunk_size < len archive) by (intros; by apply Hin).
      assert (Hall : forall i, i ∈ range_list start end_ -> start <= i < end_)
        by (intros i; apply elem_of_range_list).
      split.
      * destruct (group_lookup id start end_ bs ∅ Hs Hbs Hin' _ Hall) as [H1 H2].
        intros i. case_decide; [by apply (H1 i), elem_of_range_list|].
        etrans; [apply (H2 i)|apply lookup_empty]. intros j ?%elem_of_range_list ->. done.
      * destruct (group_lookup (pair tileset_id) start end_ bs cache Hs Hbs Hin' _ Hall) as [H1 H2].
        intros [t i]. cbn. case_decide as Hd.
        -- destruct Hd as [-> ?]. by apply (H1 i), elem_of_range_list.
        -- apply H2. intros j ?%elem_of_range_list [= -> ->]. apply Hd. done.
    + unfold group_slices. apply Forall_fmap, Forall_forall. intros i Hi%elem_of_range_list.
      cbn. destruct (Hin i Hi). nia.
  - intros [= <- <-]. left. eauto.
  - exfalso. revert Hsl. unfold chunk_slices, chunk_slice.
    generalize (range_list start end_). intros l.
    apply Res_bind_no_panic; [apply ensure_no_panic|intros _ _].
    apply Res_bind_no_panic; [apply ok_or_no_panic|intros rs _].
    induction l as [|i l IH]; cbn [mapM]; [done|].
    apply Res_bind_no_panic; [no_panic|intros; by apply Res_bind_no_panic].
Qed.
End Archive.

(** ** Fetched groups are slices of the object *)

Section FetchFacts.
Context {Store : Type} (encode : string -> string).
Context (sources : NamespacedEntries (TilesetSource Store)).
Context (chunk_size : Z) (archive : bytes) (tileset_id : string).
Context (admission : FetchAdmission) (get_range : Store -> list string -> Z -> Z -> StoreReply).

(** The documented contract of a ranged read: the bytes of the object in the
    range, as far as the object reaches. *)
Definition store_serves : Prop :=
  forall store path lo hi bs, resolve encode sources tileset_id = Some (store, path) ->
    get_range store path lo hi = StoreBytes bs -> bs = slice lo hi archive.

Context (Hserves : store_serves).

Lemma fetch_range_spec lo hi policy c r c' :
  fetch_range encode sources admission get_range tileset_id lo hi policy c = (r, c') ->
  r <> Panic /\ (forall bs, r = Ok bs -> bs = slice lo hi archive /\
    (policy = Exact -> len bs = saturating_sub hi lo)).
Proof.
  unfold fetch_range, mbind, SM_bind, lift, modify.
  destruct (resolve encode sources tileset_id) as [[store path]|] eqn:Hr; cbn [ok_or]; [|by intros [= <- <-]].
  destruct admission; try by intros [= <- <-].
  destruct (get_range store path lo hi) as [bs| | |] eqn:Hg; try by intros [= <- <-].
  destruct (usize_try_from _) as [n|] eqn:Hn; cbn [ok_or]; [|by intros [= <- <-]].
  apply usize_try_from_Some in Hn as [-> _]. unfold ensure.
  destruct (negb _) eqn:Hneg; intros [= <- <-]; split; try done. intros bs' [= <-].
  split; [by eapply Hserves|]. intros ->. apply negb_true_iff in Hneg. bool_props.
  cbn in *. apply negb_false_iff in H0. by apply Z.eqb_eq in H0.
Qed.

Lemma fetch_chunk_group_spec start end_ c r c' :
  0 <= chunk_size -> 0 <= start ->
  fetch_chunk_group encode sources chunk_size admission get_range tileset_id start end_ (len archive) c =
    (r, c') ->
  r <> Panic /\ (forall bs, r = Ok bs ->
    bs = slice (start * chunk_size) (Z.min (end_ * chunk_size) (len archive)) archive).
Proof.
  intros Hc Hs. unfold fetch_chunk_group. destruct (Z.leb_spec end_ start) as [Hle|Hlt].
  { intros [= <- <-]. split; [done|]. intros bs [= <-]. unfold slice.
    by replace (Z.to_nat _) with 0%nat by nia. }
  destruct (checked_mul start chunk_size) as [lo|] eqn:Hlo; [|by intros [= <- <-]].
  destruct (checked_mul end_ chunk_size) as [hi|] eqn:Hhi; [|by intros [= <- <-]].
  apply checked_mul_Some in Hlo as [-> _], Hhi as [-> _].
  unfold mbind, SM_bind, lift, ensure. destruct (_ <? _); [|by intros [= <- <-]].
  intros H%fetch_range_spec. split; [apply H|]. intros bs Hbs. by apply H.
Qed.
End FetchFacts.

(** ** Reads return the archive's bytes *)

(** What the coordinator and the cache promise to a reader: in every state of
    the invariant, cached and fetched chunks are the archive's, and a successful
    fetch has every chunk that was asked for. *)
Class CoordinatorLaws (S : Type) `{!ChunkCoordinator S} (chunk_size : Z) (archive_of : string -> bytes)
    (I : S -> Prop) : Prop := {
  law_cache_get : forall t i s r s', I s -> chunk_cache_get t i s = (r, s') ->
    I s' /\ exists o, r = Ok o /\ forall b, o = Some b -> b = archive_chunk chunk_size (archive_of t) i;
  law_fetch_chunks : forall t idxs s r s', I s ->
    (forall i, i ∈ idxs -> 0 <= i /\ i * chunk_size < len (archive_of t)) ->
    fetch_chunks t idxs (len (archive_of t)) s = (r, s') ->
    I s' /\ r <> Panic /\ forall m, r = Ok m ->
      chunks_ok chunk_size (archive_of t) m /\ forall i, i ∈ idxs -> is_Some (m !! i);
  law_fetch_exact : forall t lo hi s r s', I s -> 0 <= lo <= hi ->
    coordinator_fetch_exact_range t lo hi s = (r, s') ->
    I s' /\ r <> Panic /\ forall bs, r = Ok bs -> bs = slice lo hi (archive_of t);
}.

Section ReadFacts.
Context {S : Type} `{!ChunkCoordinator S} (chunk_size : Z) (archive_of : string -> bytes) (I : S -> Prop).
Context `{!CoordinatorLaws S chunk_size archive_of I}.
Context (Hsize : 0 < chunk_size) (t : string) (Hlen : len (archive_of t) <= u64_max).
Abbreviation archive := (archive_of t).

(** An error the coordinator returned for this tileset. *)
Definition coordinator_error (e : ChunkFetchError) : Prop :=
  exists s s', (exists idxs n, fetch_chunks t idxs n s = (Err e, s')) \/
    (exists lo hi, coordinator_fetch_exact_range t lo hi s = (Err e, s')).

Lemma probe_chunks_spec idxs s resolved missing r s' :
  I s -> chunks_ok chunk_size archive resolved ->
  probe_chunks t idxs resolved missing s = (r, s') ->
  I s' /\ exists resolved' missing', r = Ok (resolved', missing') /\
    chunks_ok chunk_size archive resolved' /\
    (forall i, is_Some (resolved !! i) -> is_Some (resolved' !! i)) /\
    (forall i, i ∈ missing -> i ∈ missing') /\
    (forall i, i ∈ missing' -> i ∈ missing \/ i ∈ idxs) /\
    (forall i, i ∈ idxs -> is_Some (resolved' !! i) \/ i ∈ missing').
Proof.
  revert s resolved missing. induction idxs as [|i idxs IH]; intros s resolved missing Hs Hok; cbn.
  { intros [= <- <-]. split; [done|]. do 2 eexists. split_and!; try done.
    - by left.
    - by intros ? ?%not_elem_of_nil. }
  unfold mbind, SM_bind at 1. destruct (chunk_cache_get t i s) as [o s1] eqn:Hg.
  destruct (law_cache_get _ _ _ _ _ Hs Hg) as (Hs1 & c & -> & Hc).
  destruct c as [c|]; intros H; apply IH in H as (Hs' & res' & mis' & -> & Hok' & Hr & Hm & Hback & Hall); try done.
  - split; [done|]. do 2 eexists. split_and!; try done.
    + intros j Hj. apply Hr. destruct (decide (j = i)) as [->|].
      * by rewrite lookup_insert_eq.
      * by rewrite lookup_insert_ne.
    + intros j [?|?]%Hback; [by left|right; by right].
    + intros j [->|Hj]%elem_of_cons; [|auto]. left. apply Hr. by rewrite lookup_insert_eq.
  - intros j b. destruct (decide (j = i)) as [->|].
    + rewrite lookup_insert_eq. intros [= <-]. by apply Hc.
    + rewrite lookup_insert_ne by done. apply Hok.
  - split; [done|]. do 2 eexists. split_and!; try done.
    + intros j Hj. apply Hm, elem_of_app. by left.
    + intros j [[?| ->%list_elem_of_singleton]%elem_of_app|?]%Hback; [by left|right; left|right; by right].
    + intros j [->|Hj]%elem_of_cons; [|auto]. right. apply Hm, elem_of_app. right. left.
Qed.

Lemma read_single_chunk_spec i start length s r s' :
  I s -> 0 <= start -> 0 < length -> start + length <= len archive ->
  i * chunk_size <= start -> start + length <= (i + 1) * chunk_size ->
  read_single_chunk chunk_size t i start length (len archive) s = (r, s') ->
  I s' /\ ((exists rd, r = Ok rd /\ cr_bytes rd = slice start (start + length) archive) \/
           (exists e, r = Err e /\ coordinator_error e)).
Proof.
  intros Hs H0 H1 H2 H3 H4. unfold read_single_chunk, mbind, SM_bind, lift.
  destruct (chunk_cache_get t i s) as [o s1] eqn:Hg.
  destruct (law_cache_get _ _ _ _ _ Hs Hg) as (Hs1 & c & -> & Hc). destruct c as [c|].
  - rewrite (Hc c eq_refl). cbn. rewrite slice_single_chunk_archive by done. intros [= <- <-].
    split; [done|]. left. by eexists.
  - destruct (fetch_chunks t [i] (len archive) s1) as [f s2] eqn:Hf.
    destruct (law_fetch_chunks t [i] s1 f s2 Hs1) as (Hs2 & Hnp & Hm); [|done|].
    { intros j ->%list_elem_of_singleton. nia. }
    destruct f as [m|e|]; [|intros [= <- <-]; split; [done|right; exists e; split; [done|]]|done].
    + destruct (Hm m eq_refl) as [Hok Hin]. destruct (Hin i) as [b Hb]; [left|]. rewrite Hb. cbn.
      rewrite (Hok _ _ Hb), slice_single_chunk_archive by done. intros [= <- <-].
      split; [done|]. left. by eexists.
    + exists s1, s2. left. eauto.
Qed.

Lemma read_chunks_spec start length s r s' :
  I s -> 0 <= start -> 0 < length -> start + length <= len archive ->
  read_bytes chunk_size t start length (Some (len archive)) s = (r, s') ->
  I s' /\ ((exists rd, r = Ok rd /\ cr_bytes rd = slice start (start + length) archive) \/
           (exists e, r = Err e /\ coordinator_error e)).
Proof.
  intros Hs H0 H1 H2. unfold read_bytes, validate_byte_range.
  replace (checked_add start length) with (Some (start + length))
    by (symmetry; apply checked_add_Some; lia).
  res_simpl. rewrite !(proj2 (Z.ltb_ge _ _)) by lia. cbn [orb map_err].
  unfold mbind at 1, SM_bind at 1, lift at 1. rewrite (proj2 (Z.eqb_neq _ _)) by lia.
  destruct (chunk_range_spec (E := ChunkFetchError) chunk_size Hsize start length H0 H1)
    as (first & last & -> & Hfl & Hf & Hfirst & Hlast).
  unfold mbind at 1, SM_bind at 1, lift at 1. destruct (Z.eqb_spec first last) as [Heq|Hne].
  { apply read_single_chunk_spec; (done || nia). }
  unfold mbind at 1, SM_bind at 1.
  destruct (probe_chunks t (range_list first (last + 1)) ∅ [] s) as [pr s1] eqn:Hp.
  apply probe_chunks_spec in Hp as (Hs1 & resolved & missing & -> & Hok & _ & _ & Hback & Hall); [|done|done].
  assert (Hread : forall m, chunks_ok chunk_size archive m ->
    (forall i, first <= i <= last -> is_Some (m !! i)) ->
    read_resolved_bytes chunk_size start length m = Ok (slice start (start + length) archive)).
  { intros m Hm Hsome. apply read_resolved_archive; try done. intros i Hi. apply Hsome.
    assert ((start + length - 1) / chunk_size = last) as <-.
    { symmetry. apply Z.div_unique with (start + length - 1 - last * chunk_size); lia. }
    lia. }
  assert (Hin : forall i, first <= i <= last -> i ∈ range_list first (last + 1))
    by (intros; apply elem_of_range_list; lia).
  destruct missing as [|j missing].
  - unfold mbind, SM_bind, lift. cbn. rewrite Hread; [|done|].
    + intros [= <- <-]. split; [done|]. left. by eexists.
    + intros i Hi. destruct (Hall i (Hin i Hi)) as [?|?%not_elem_of_nil]; done.
  - unfold mbind, SM_bind, lift.
    destruct (fetch_chunks t (j :: missing) (len archive) s1) as [f s2] eqn:Hfe.
    destruct (law_fetch_chunks t (j :: missing) s1 f s2 Hs1) as (Hs2 & Hnp & Hm); [|done|].
    { intros i [Hnone|Hi%elem_of_range_list]%Hback; [by apply not_elem_of_nil in Hnone|]. nia. }
    destruct f as [m|e|]; [|intros [= <- <-]; split; [done|right; exists e; split; [done|]]|done].
    + destruct (Hm m eq_refl) as [Hmok Hmin]. cbn. rewrite Hread.
      * intros [= <- <-]. split; [done|]. left. by eexists.
      * intros i b. rewrite lookup_union_Some_raw. intros [Hb|[_ Hb]]; [by apply Hmok|by apply Hok].
      * intros i Hi. rewrite lookup_union_is_Some. destruct (Hall i (Hin i Hi)); auto.
    + exists s1, s2. left. eauto.
Qed.
End ReadFacts.

Lemma resolve_tuning_positive input tuning :
  is_u64 (rt_chunk_size_bytes input) -> resolve_tuning input = Ok tuning ->
  0 < rt_chunk_size_bytes tuning /\ 0 < rt_max_fetch_chunks tuning.
Proof. unfold resolve_tuning, is_u. intros Hu H. res_inv. bool_props. cbn. lia. Qed.

Lemma read_bytes_spec {S} `{!ChunkCoordinator S} input tuning archive_of (I : S -> Prop)
    `{!CoordinatorLaws S (rt_chunk_size_bytes tuning) archive_of I}
    t start length archive_len s r s'
    (Htuning : resolve_tuning input = Ok tuning) (Hinput : is_u64 (rt_chunk_size_bytes input))
    (Hlen : len (archive_of t) <= u64_max) (Hstart : is_u64 start) (Hlength : is_usize length)
    (Harchive : archive_len = None \/ archive_len = Some (len (archive_of t)))
    (Hs : I s)
    (Hread : read_bytes (rt_chunk_size_bytes tuning) t start length archive_len s = (r, s')) :
  I s' /\
  match validate_byte_range start length archive_len with
  | Ok end_ => end_ = start + length /\
      ((exists rd, r = Ok rd /\ cr_bytes rd = slice start (start + length) (archive_of t) /\
          (is_Some archive_len -> len (cr_bytes rd) = length)) \/
       (exists e, r = Err e /\ coordinator_error t e))
  | Err e => r = Err (Message (MRange e)) /\ s' = s
  | Panic => False
  end.
Proof.
  destruct (resolve_tuning_positive _ _ Hinput Htuning) as [Hsize _]. unfold is_u in *.
  destruct (validate_byte_range start length archive_len) as [end_|e|] eqn:Hv.
  - assert (end_ = start + length /\ (archive_len = Some (len (archive_of t)) ->
      start + length <= len (archive_of t))) as [-> Hbound].
    { unfold validate_byte_range in Hv. res_inv. apply checked_add_Some in E as [-> ?].
      destruct archive_len as [n|]; [|by injection Hv as <-].
      destruct ((n <? start) || (n <? start + length)) eqn:Hb; [done|]. injection Hv as <-.
      bool_props. split; [done|]. intros [= ->]. lia. }
    destruct (Z.eq_dec length 0) as [->|Hne].
    { unfold read_bytes, mbind, SM_bind, lift in Hread. rewrite Hv in Hread. cbn in Hread.
      injection Hread as <- <-. rewrite Z.add_0_r, slice_empty. split_and!; [done..|].
      left. by eexists. }
    destruct Harchive as [->| ->].
    + unfold read_bytes, mbind, SM_bind, lift in Hread. rewrite Hv in Hread. cbn [map_err] in Hread.
      rewrite (proj2 (Z.eqb_neq _ _)) in Hread by done.
      destruct (coordinator_fetch_exact_range t start (start + length) s) as [f s1] eqn:Hf.
      destruct (law_fetch_exact t start (start + length) s f s1 Hs ltac:(lia) Hf) as (Hs1 & Hnp & Hb).
      destruct f as [b|e|]; [| |done]; injection Hread as <- <-; split_and!; try done.
      * left. eexists. split; [done|]. split; [by apply Hb|by intros []].
      * right. exists e. split; [done|]. exists s, s1. right. eauto.
    + specialize (Hbound eq_refl).
      destruct (read_chunks_spec _ _ I Hsize t Hlen start length s r s')
        as [Hs' [(rd & -> & Hrd)|Herr]]; try (done || lia).
      * split_and!; try done. left. exists rd. split_and!; [done..|]. intros _.
        rewrite Hrd, len_slice; lia.
      * split_and!; try done. by right.
  - unfold read_bytes, mbind, SM_bind, lift in Hread. rewrite Hv in Hread. by injection Hread as <- <-.
  - unfold validate_byte_range in Hv. res_inv. by repeat case_match.
Qed.

(** Range reads: over any coordinator that keeps its promise, a read of a
    valid range returns exactly the archive's bytes of that range (whatever mix
    of cached and fetched chunks it spans) or an error the coordinator itself
    returned; an invalid range is rejected with the precise error before any
    state is touched. The read never panics and the shared state stays valid. *)
Theorem read_bytes_exact {S} `{!ChunkCoordinator S} input tuning archive_of (I : S -> Prop)
    `{!CoordinatorLaws S (rt_chunk_size_bytes tuning) archive_of I}
    t start length archive_len s r s'
    (Htuning : resolve_tuning input = Ok tuning) (Hinput : is_u64 (rt_chunk_size_bytes input))
    (Hlen : len (archive_of t) <= u64_max) (Hstart : is_u64 start) (Hlength : is_usize length)
    (Harchive : archive_len = None \/ archive_len = Some (len (archive_of t)))
    (Hs : I s)
    (Hread : read_bytes (rt_chunk_size_bytes tuning) t start length archive_len s = (r, s')) :
  I s' /\
  match validate_byte_range start length archive_len with
  | Ok end_ => end_ = start + length /\
      ((exists rd, r = Ok rd /\ cr_bytes rd = slice start (start + length) (archive_of t) /\
          (is_Some archive_len -> len (cr_bytes rd) = length)) \/
       (exists e, r = Err e /\ coordinator_error t e))
  | Err e => r = Err (Message (MRange e)) /\ s' = s
  | Panic => False
  end.
Proof. by eapply read_bytes_spec. Qed.

(** Group fetches: from a store that serves the object's bytes, the bytes
    of a fetched chunk group are cut into exactly the archive's chunks of the
    group, each recorded in the cache and in the result and nothing else
    touched, or the cutting fails and the cache is unchanged; it does not fail
    for a group whose chunks all intersect the archive and whose end is
    representable. *)
Theorem fetched_group_chunks {Store} encode (sources : NamespacedEntries (TilesetSource Store))
    chunk_size archive admission get_range tileset_id start end_ c bs c' cache r cache'
    (Hsize : 0 < chunk_size) (Hlen : len archive <= u64_max) (Hstart : 0 <= start)
    (Hserves : store_serves encode sources archive tileset_id get_range)
    (Hfetch : fetch_chunk_group encode sources chunk_size admission get_range tileset_id
                start end_ (len archive) c = (Ok bs, c'))
    (Hcache : cache_chunk_group chunk_size tileset_id start end_ (len archive) bs cache = (r, cache')) :
  ((exists e, r = Err e /\ cache' = cache) \/
   (exists chunks, r = Ok chunks /\
     (forall i, chunks !! i = if decide (start <= i < end_)
                              then Some (archive_chunk chunk_size archive i) else None) /\
     (forall k, cache' !! k = if decide (k.1 = tileset_id /\ start <= k.2 < end_)
                              then Some (archive_chunk chunk_size archive k.2) else cache !! k))) /\
  (start < end_ -> end_ * chunk_size <= u64_max -> (end_ - 1) * chunk_size < len archive ->
   is_ok r = true).
Proof.
  apply (fetch_chunk_group_spec _ _ _ archive) in Hfetch as [_ Hbs]; [|done|lia..].
  specialize (Hbs _ eq_refl). split.
  - by eapply cache_chunk_group_spec in Hcache.
  - intros Hlt Hmul Hin. unfold cache_chunk_group, mbind, SM_bind, lift in Hcache.
    assert (Hl : len bs = Z.min (end_ * chunk_size) (len archive) - start * chunk_size)
      by (rewrite Hbs, len_slice; nia).
    rewrite chunk_slices_complete in Hcache by (done || lia).
    rewrite put_slices_run in Hcache; [by injection Hcache as <- _|].
    unfold group_slices. apply Forall_fmap, Forall_forall. intros i Hi%elem_of_range_list.
    cbn. rewrite Hl. nia.
Qed.

(** ** Witnesses *)

(** A coordinator without a cache that serves one archive. *)
Definition demo_archive : bytes := seqZ 0 11.
Definition demo_coordinator : ChunkCoordinator Z :=
  {| chunk_cache_get _ _ := mret None;
     fetch_chunks _ idxs _ := fun n =>
       (Ok (list_to_map ((fun i => (i, archive_chunk 4 demo_archive i)) <$> idxs)), n + 1);
     coordinator_fetch_exact_range _ lo hi := mret (slice lo hi demo_archive) |}.

Definition demo_tuning : ResolverTuning :=
  {| rt_candidate_count := 3; rt_tile_group_size := 512; rt_chunk_size_bytes := 4;
     rt_max_fetch_chunks := 4; rt_chunk_fetch_merge_window := 10;
     rt_backend_fetch_concurrency := 32; rt_backend_fetch_max_inflight := 128;
     rt_tile_cache_max_bytes := 0; rt_chunk_cache_max_bytes := 0; rt_tile_negative_ttl := 60 |}.

Lemma demo_laws :
  @CoordinatorLaws Z demo_coordinator (rt_chunk_size_bytes demo_tuning) (fun _ => demo_archive) (fun _ => True).
Proof.
  split; cbn.
  - intros t i s r s' _ [= <- <-]. split; [done|]. by exists None.
  - intros t idxs s r s' _ _ [= <- <-]. split_and!; [done..|]. intros m [= <-]. split.
    + intros i b Hb%elem_of_list_to_map_2. apply list_elem_of_fmap in Hb as (j & [= -> ->] & _). done.
    + intros i Hi. exists (archive_chunk 4 demo_archive i). apply elem_of_list_to_map_1'.
      * intros y (j & [= -> ->] & _)%list_elem_of_fmap. done.
      * apply list_elem_of_fmap. eauto.
  - intros t lo hi s r s' _ _ [= <- <-]. split_and!; [done..|]. by intros bs [= <-].
Defined.

Definition demo_read : Res ChunkFetchError ChunkRead :=
  Ok {| cr_bytes := [3; 4; 5; 6; 7; 8; 9]; cr_source := FromBackend |}.

Lemma read_bytes_exact_witness :
  True /\
  match validate_byte_range 3 7 (Some 11) with
  | Ok end_ => end_ = 3 + 7 /\
      ((exists rd, demo_read = Ok rd /\ cr_bytes rd = slice 3 (3 + 7) demo_archive /\
          (is_Some (Some 11) -> len (cr_bytes rd) = 7)) \/
       (exists e, demo_read = Err e /\ @coordinator_error Z demo_coordinator "t" e))
  | Err e => demo_read = Err (Message (MRange e)) /\ 1 = 0
  | Panic => False
  end.
Proof.
  apply (@read_bytes_exact Z demo_coordinator demo_tuning demo_tuning (fun _ => demo_archive) (fun _ => True)
           demo_laws "t" 3 7 (Some 11) 0).
  - reflexivity.
  - vm_compute. split; discriminate.
  - vm_compute. discriminate.
  - vm_compute. split; discriminate.
  - vm_compute. split; discriminate.
  - right. reflexivity.
  - exact I.
  - vm_compute. reflexivity.
Defined.

Definition demo_get_range (store : Z) (path : list string) (lo hi : Z) : StoreReply :=
  StoreBytes (slice lo hi demo_archive).

Lemma fetched_group_chunks_witness :
  is_ok (cache_chunk_group 4 "regional/a" 1 3 11 (slice 4 11 demo_archive) ∅).1 = true.
Proof.
  destruct (cache_chunk_group 4 "regional/a" 1 3 11 (slice 4 11 demo_archive) ∅) as [r cache'] eqn:Hc.
  refine (proj2 (fetched_group_chunks id demo_sources 4 demo_archive Granted demo_get_range "regional/a"
    1 3 {| fc_fetch_sequence := 0; fc_received_bytes := 0 |} (slice 4 11 demo_archive)
    {| fc_fetch_sequence := 1; fc_received_bytes := 7 |} ∅ r cache' _ _ _ _ _ Hc) _ _ _).
  - lia.
  - vm_compute. discriminate.
  - lia.
  - intros store path lo hi bs _ [= <-]. reflexivity.
  - vm_compute. reflexivity.
  - lia.
  - vm_compute. discriminate.
  - vm_compute. reflexivity.
Defined.
