(* ===== verification/HttpMessage.v ===== *)
(** * HTTP messages

    Status codes, header maps and responses as the servers build and read them:
    [HeaderMap] of the http crate is a list of names and values in the order of
    insertion, [HttpError] and [bytes_response] are those of
    [servers/ishikari/src/server/mod.rs] and [response.rs]. *)

From S2P Require Import Prelude StdModel Types TilesetSources ChunkStore.

(** ** Messages *)

Record HttpResponse := { hr_status : Z; hr_headers : list (string * string); hr_body : bytes }.

(** [HttpError]: status code and message. *)
Abbreviation HttpError := (Z * string)%type.

Definition OK : Z := 200.
Definition BAD_REQUEST : Z := 400.
Definition NOT_FOUND : Z := 404.
Definition GONE : Z := 410.
Definition TOO_MANY_REQUESTS : Z := 429.
Definition INTERNAL_SERVER_ERROR : Z := 500.
Definition BAD_GATEWAY : Z := 502.
Definition SERVICE_UNAVAILABLE : Z := 503.
Definition GATEWAY_TIMEOUT : Z := 504.

Definition status_is_success (status : Z) : bool := (200 <=? status) && (status <? 300).
Definition status_is_server_error (status : Z) : bool := (500 <=? status) && (status <? 600).

Definition TILE_SOURCE_HEADER : string := "x-ishikari-tile-source".
Definition PROVIDER_CACHE_CONTROL_HEADER : string := "x-ishikari-provider-cache-control".
Definition PROVIDER_AGE_HEADER : string := "x-ishikari-provider-age".
Definition PROVIDER_ETAG_HEADER : string := "x-ishikari-provider-etag".
Definition PROVIDER_LAST_MODIFIED_HEADER : string := "x-ishikari-provider-last-modified".
Definition PROVIDER_NEGATIVE_HEADER : string := "x-ishikari-provider-negative".
Definition CONTENT_TYPE_HEADER : string := "content-type".
Definition CONTENT_ENCODING_HEADER : string := "content-encoding".
Definition CACHE_CONTROL_HEADER : string := "cache-control".
Definition VARY_HEADER : string := "vary".

(** [HeaderMap::get]: the first value of a name. *)
Fixpoint header_get (name : string) (headers : list (string * string)) : option string :=
  match headers with
  | [] => None
  | (n, v) :: headers => if String.eqb n name then Some v else header_get name headers
  end.

(** [HeaderMap::insert] replaces the values of the name. *)
Definition header_insert (name value : string) (headers : list (string * string)) : list (string * string) :=
  List.filter (fun h => negb (String.eqb h.1 name)) headers ++ [(name, value)].

(** [HeaderValue::to_str]: visible characters, spaces and tabs only. *)
Definition header_to_str (value : string) : option string :=
  if str_all (fun a => (32 <=? byte_of a) && (byte_of a <? 127) || (byte_of a =? 9)) value then Some value else None.

Definition NOT_MODIFIED : Z := 304.
Definition ETAG_HEADER : string := "etag".
Definition LAST_MODIFIED_HEADER : string := "last-modified".
Definition IF_NONE_MATCH_HEADER : string := "if-none-match".
Definition IF_MODIFIED_SINCE_HEADER : string := "if-modified-since".
Definition AGE_HEADER : string := "age".
Definition DATE_HEADER : string := "date".

(** [HeaderMap::get_all], and the values that are text. *)
Definition header_get_all (name : string) (headers : list (string * string)) : list string :=
  snd <$> List.filter (fun h => String.eqb h.1 name) headers.
Definition header_texts (name : string) (headers : list (string * string)) : list string :=
  omap header_to_str (header_get_all name headers).
Definition header_value (headers : list (string * string)) (name : string) : option string :=
  header_get name headers ≫= header_to_str.

Definition bytes_response (body : bytes) (content_type : string) (cache_control : option string) : HttpResponse :=
  let headers := header_insert CONTENT_TYPE_HEADER content_type [] in
  {| hr_status := OK;
     hr_headers := match cache_control with
                   | Some cache_control => header_insert CACHE_CONTROL_HEADER cache_control headers
                   | None => headers
                   end;
     hr_body := body |}.

(** The bytes of a text body. *)
Fixpoint text_bytes (s : string) : bytes :=
  match s with EmptyString => [] | String a s => byte_of a :: text_bytes s end.

(** [IntoResponse] of a handler's error. *)
Definition error_into_response (error : HttpError) : HttpResponse :=
  {| hr_status := error.1; hr_headers := [(CONTENT_TYPE_HEADER, "text/plain; charset=utf-8")];
     hr_body := text_bytes error.2 |}.

(** The bytes that arrive before a chunk fails. *)
Fixpoint received_bytes (chunks : list (string + bytes)) : bytes :=
  match chunks with inr chunk :: chunks => chunk ++ received_bytes chunks | _ => [] end.

Definition complete (chunks : list (string + bytes)) : Prop := Forall (fun c => exists b, c = inr b) chunks.
