(* ===== verification/FetchCoordinator.v ===== *)
(** * Shared chunk fetches

    Models [storage/chunked_store/coordinator.rs] of [crates/ishikari-core/src]:
    the per-tileset fetch state and its operations, the scheduler, the detached
    group tasks with their completion guard, and the waiters. Every critical
    section of the map lock is one function; the tasks interleave as the steps of
    [coord_step]. Chunk sets are [gset], iterated in ascending order; the sending
    half of a oneshot channel is the number of its waiter; [Notify] is its stored
    permit. The metrics calls are left out. *)

From S2P Require Import Prelude StdModel TilesetSources ChunkStore.

Definition IMMEDIATE_CHUNK_INDEX : Z := 0.
Definition MAX_CHUNK_GAP : Z := 1.
Definition MAX_CONCURRENT_FETCHES_PER_TILESET : Z := 32.

(** [Result<A, ChunkFetchError>] as a value that is sent to waiters. *)
Abbreviation FetchResult A := (A + ChunkFetchError)%type.

(** ** Planning of backend ranges *)

(** A [BTreeSet<u64>] iterates in ascending order. *)
Definition btree_iter (s : gset Z) : list Z := sort_by Z.compare (elements s).

Fixpoint ranges_from (max_fetch_chunks max_chunk_gap start end_ : Z) (iter : list Z) : list (Z * Z) :=
  match iter with
  | [] => [(start, end_)]
  | chunk :: iter =>
      if (chunk <=? wrapping_add end_ max_chunk_gap) &&
         (wrapping_sub (wrapping_add chunk 1) start <=? max_fetch_chunks)
      then ranges_from max_fetch_chunks max_chunk_gap start (wrapping_add chunk 1) iter
      else (start, end_) ::
             ranges_from max_fetch_chunks max_chunk_gap chunk (wrapping_add chunk 1) iter
  end.

Definition contiguous_chunk_ranges (chunks : gset Z) (max_fetch_chunks max_chunk_gap : Z)
    : list (Z * Z) :=
  match btree_iter chunks with
  | [] => []
  | start :: iter =>
      ranges_from (Z.max max_fetch_chunks 1) max_chunk_gap start (wrapping_add start 1) iter
  end.

(** ** The fetch state of a tileset *)

Record TilesetFetchState := {
  pending_chunks : gset Z;
  first_pending_at : option Z;
  inflight_chunks : gset Z;
  waiters : gmap Z (list nat);
  scheduler_running : bool;
  inflight_fetch_count : Z;
  (** The permit stored in [capacity_available]. *)
  capacity_available : bool;
  fs_archive_len : Z;
}.

Definition TilesetFetchState_default : TilesetFetchState :=
  {| pending_chunks := ∅; first_pending_at := None; inflight_chunks := ∅; waiters := ∅;
     scheduler_running := false; inflight_fetch_count := 0; capacity_available := false;
     fs_archive_len := 0 |}.

Definition is_idle (st : TilesetFetchState) : bool :=
  negb (scheduler_running st) && bool_decide (pending_chunks st = ∅) &&
  bool_decide (inflight_chunks st = ∅) && (inflight_fetch_count st =? 0).

Definition is_drainable (st : TilesetFetchState) : bool :=
  negb (scheduler_running st) && bool_decide (pending_chunks st = ∅) &&
  (inflight_fetch_count st =? 0).

Definition set_scheduler_running (b : bool) (st : TilesetFetchState) : TilesetFetchState :=
  {| pending_chunks := pending_chunks st; first_pending_at := first_pending_at st;
     inflight_chunks := inflight_chunks st; waiters := waiters st; scheduler_running := b;
     inflight_fetch_count := inflight_fetch_count st; capacity_available := capacity_available st;
     fs_archive_len := fs_archive_len st |}.

Definition set_archive_len (n : Z) (st : TilesetFetchState) : TilesetFetchState :=
  {| pending_chunks := pending_chunks st; first_pending_at := first_pending_at st;
     inflight_chunks := inflight_chunks st; waiters := waiters st;
     scheduler_running := scheduler_running st; inflight_fetch_count := inflight_fetch_count st;
     capacity_available := capacity_available st; fs_archive_len := n |}.

(** The consumption of the stored permit by [notified().await]. *)
Definition take_notification (st : TilesetFetchState) : TilesetFetchState :=
  {| pending_chunks := pending_chunks st; first_pending_at := first_pending_at st;
     inflight_chunks := inflight_chunks st; waiters := waiters st;
     scheduler_running := scheduler_running st; inflight_fetch_count := inflight_fetch_count st;
     capacity_available := false; fs_archive_len := fs_archive_len st |}.

Inductive EnqueueOutcome : Type :=
  | JoinedInflight
  | Queued
  | JoinedPending.

Record EnqueuedChunk := {
  ec_chunk_index : Z;
  ec_receiver : nat;
  ec_outcome : EnqueueOutcome;
}.

(** One turn of the loop of [enqueue_chunks]; [tx] is the new channel. *)
Definition enqueue_chunk (queued_at : Z) (tx : nat) (chunk_index : Z) (st : TilesetFetchState)
    : EnqueuedChunk * TilesetFetchState :=
  let waiters' := <[chunk_index := default [] (waiters st !! chunk_index) ++ [tx]]> (waiters st) in
  let with_pending pending first_pending :=
    {| pending_chunks := pending; first_pending_at := first_pending;
       inflight_chunks := inflight_chunks st; waiters := waiters';
       scheduler_running := scheduler_running st; inflight_fetch_count := inflight_fetch_count st;
       capacity_available := capacity_available st; fs_archive_len := fs_archive_len st |} in
  let '(outcome, st') :=
    if decide (chunk_index ∈ inflight_chunks st) then
      (JoinedInflight, with_pending (pending_chunks st) (first_pending_at st))
    else if decide (chunk_index ∈ pending_chunks st) then
      (JoinedPending, with_pending (pending_chunks st) (first_pending_at st))
    else
      (Queued, with_pending ({[chunk_index]} ∪ pending_chunks st)
                 (Some (default queued_at (first_pending_at st)))) in
  ({| ec_chunk_index := chunk_index; ec_receiver := tx; ec_outcome := outcome |}, st').

Fixpoint enqueue_chunks (required_chunks : list Z) (queued_at : Z) (tx : nat) (st : TilesetFetchState)
    : list EnqueuedChunk * TilesetFetchState :=
  match required_chunks with
  | [] => ([], st)
  | chunk_index :: required_chunks =>
      let '(joined, st) := enqueue_chunk queued_at tx chunk_index st in
      let '(rest, st) := enqueue_chunks required_chunks queued_at (S tx) st in
      (joined :: rest, st)
  end.

(** The live waiters of a chunk, or [None] when all receivers are gone. *)
Definition live_waiters (closed : gset nat) (ws : list nat) : option (list nat) :=
  match filter (fun w => w ∉ closed) ws with [] => None | live => Some live end.

Definition waiter_count (ws : gmap Z (list nat)) : Z :=
  map_fold (fun _ l n => Z.of_nat (length l) + n) 0 ws.

Definition prune_cancelled_waiters (closed : gset nat) (st : TilesetFetchState)
    : Z * TilesetFetchState :=
  let waiters' := omap (live_waiters closed) (waiters st) in
  let pending' := filter (fun i => is_Some (waiters' !! i)) (pending_chunks st) in
  (waiter_count (waiters st) - waiter_count waiters',
   {| pending_chunks := pending';
      first_pending_at := if decide (pending' = ∅) then None else first_pending_at st;
      inflight_chunks := inflight_chunks st; waiters := waiters';
      scheduler_running := scheduler_running st; inflight_fetch_count := inflight_fetch_count st;
      capacity_available := capacity_available st; fs_archive_len := fs_archive_len st |}).

Inductive DispatchDecision : Type :=
  | Idle
  | Throttled
  | Dispatch (groups : list (Z * Z)) (archive_len queue_delay pending_at_dispatch : Z).

(** The chunks of a list of ranges. *)
Definition group_chunks (groups : list (Z * Z)) : list Z :=
  groups ≫= fun '(start, end_) => range_list start end_.

Definition select_dispatch_groups (max_fetch_chunks now : Z) (st : TilesetFetchState)
    : DispatchDecision * TilesetFetchState :=
  if decide (pending_chunks st = ∅) then (Idle, set_scheduler_running false st)
  else if MAX_CONCURRENT_FETCHES_PER_TILESET <=? inflight_fetch_count st then (Throttled, st)
  else
    let available_slots := MAX_CONCURRENT_FETCHES_PER_TILESET - inflight_fetch_count st in
    let groups := take (Z.to_nat available_slots)
      (contiguous_chunk_ranges (pending_chunks st) max_fetch_chunks MAX_CHUNK_GAP) in
    match groups with
    | [] => (Throttled, st)
    | _ =>
        let pending_at_dispatch := Z.of_nat (size (pending_chunks st)) in
        let queue_delay := match first_pending_at st with Some t => saturating_sub now t | None => 0 end in
        let pending' := pending_chunks st ∖ list_to_set (group_chunks groups) in
        (Dispatch groups (fs_archive_len st) queue_delay pending_at_dispatch,
         {| pending_chunks := pending';
            first_pending_at := if decide (pending' = ∅) then None else first_pending_at st;
            inflight_chunks := inflight_chunks st ∪ list_to_set (group_chunks groups);
            waiters := waiters st; scheduler_running := scheduler_running st;
            inflight_fetch_count := inflight_fetch_count st + Z.of_nat (length groups);
            capacity_available := capacity_available st; fs_archive_len := fs_archive_len st |})
    end.

Record GroupWaiterOutcome := {
  delivered : Z;
  cancelled : Z;
}.

(** What a waiter of one chunk receives from the result of its group. *)
Definition chunk_result (chunk_index : Z) (result : FetchResult (gmap Z bytes)) : FetchResult bytes :=
  match result with
  | inl chunks =>
      match chunks !! chunk_index with
      | Some chunk => inl chunk
      | None => inr (Message (MGroupOmitted chunk_index))
      end
  | inr error => inr error
  end.

(** [send] to the waiters of one chunk: a closed receiver refuses the value. *)
Definition send_all (closed : gset nat) (r : FetchResult bytes) (ws : list nat)
    (answers : gmap nat (FetchResult bytes)) (outcome : GroupWaiterOutcome)
    : GroupWaiterOutcome * gmap nat (FetchResult bytes) :=
  foldl (fun '(outcome, answers) w =>
    if decide (w ∈ closed)
    then ({| delivered := delivered outcome; cancelled := cancelled outcome + 1 |}, answers)
    else ({| delivered := delivered outcome + 1; cancelled := cancelled outcome |}, <[w := r]> answers))
    (outcome, answers) ws.

(** One turn of the loop of [complete_group]. *)
Definition release_chunk (closed : gset nat) (result : FetchResult (gmap Z bytes)) (chunk_index : Z)
    (acc : GroupWaiterOutcome * gmap nat (FetchResult bytes) * TilesetFetchState)
    : GroupWaiterOutcome * gmap nat (FetchResult bytes) * TilesetFetchState :=
  let '(outcome, answers, st) := acc in
  let st' :=
    {| pending_chunks := pending_chunks st; first_pending_at := first_pending_at st;
       inflight_chunks := inflight_chunks st ∖ {[chunk_index]};
       waiters := delete chunk_index (waiters st);
       scheduler_running := scheduler_running st; inflight_fetch_count := inflight_fetch_count st;
       capacity_available := capacity_available st; fs_archive_len := fs_archive_len st |} in
  match waiters st !! chunk_index with
  | Some ws => (send_all closed (chunk_result chunk_index result) ws answers outcome, st')
  | None => (outcome, answers, st')
  end.

Definition complete_group (closed : gset nat) (chunk_range : Z * Z)
    (result : FetchResult (gmap Z bytes)) (answers : gmap nat (FetchResult bytes))
    (st : TilesetFetchState)
    : GroupWaiterOutcome * gmap nat (FetchResult bytes) * TilesetFetchState :=
  let scheduler_needs_capacity :=
    (MAX_CONCURRENT_FETCHES_PER_TILESET <=? inflight_fetch_count st) &&
    bool_decide (pending_chunks st <> ∅) in
  let st :=
    {| pending_chunks := pending_chunks st; first_pending_at := first_pending_at st;
       inflight_chunks := inflight_chunks st; waiters := waiters st;
       scheduler_running := scheduler_running st;
       inflight_fetch_count := saturating_sub (inflight_fetch_count st) 1;
       capacity_available := capacity_available st || scheduler_needs_capacity;
       fs_archive_len := fs_archive_len st |} in
  foldl (fun acc i => release_chunk closed result i acc)
    ({| delivered := 0; cancelled := 0 |}, answers, st)
    (range_list chunk_range.1 chunk_range.2).

(** ** The coordinator and its tasks *)

(** A dispatched group. *)
Record Group := {
  g_tileset : string;
  g_range : Z * Z;
  g_archive_len : Z;
}.

(** Where a scheduler task is: in the merge window, about to take the lock,
    waiting for a slot, or handing out the groups it selected. *)
Inductive SchedulerPhase : Type :=
  | Sleeping
  | Ready
  | AwaitingCapacity
  | Dispatching (groups : list (Z * Z)) (archive_len : Z).

(** Where a group task is: fetching, or waiting for the lock with its result. *)
Inductive GroupTask : Type :=
  | Fetching
  | Completing (result : FetchResult (gmap Z bytes)).

Record Coordinator := {
  tileset_states : gmap string TilesetFetchState;
  backend_group_permits : Z;
  co_cache : ChunkCache;
  co_counters : FetchCounters;
  (** The channels: receivers dropped, values sent, the chunk each waiter asked
      for, and the next channel. *)
  co_closed : gset nat;
  co_answers : gmap nat (FetchResult bytes);
  co_requests : gmap nat (string * Z);
  co_next : nat;
  (** The spawned tasks: schedulers, group tasks holding a permit, and the
      completions that dropped guards spawned. *)
  co_schedulers : list (string * SchedulerPhase);
  co_tasks : list (Group * GroupTask);
  co_completions : list (Group * FetchResult (gmap Z bytes));
  (** Exact-range reads that hold a permit. *)
  co_exact_reads : Z;
}.

Definition Coordinator_new (backend_fetch_max_inflight : Z) : Coordinator :=
  {| tileset_states := ∅; backend_group_permits := Z.max backend_fetch_max_inflight 1;
     co_cache := ∅; co_counters := {| fc_fetch_sequence := 0; fc_received_bytes := 0 |};
     co_closed := ∅; co_answers := ∅; co_requests := ∅; co_next := 0;
     co_schedulers := []; co_tasks := []; co_completions := []; co_exact_reads := 0 |}.

(** The map behind the lock, and the answers sent while it is held. *)
Definition with_states (states : gmap string TilesetFetchState)
    (answers : gmap nat (FetchResult bytes)) (c : Coordinator) : Coordinator :=
  {| tileset_states := states; backend_group_permits := backend_group_permits c;
     co_cache := co_cache c; co_counters := co_counters c; co_closed := co_closed c;
     co_answers := answers; co_requests := co_requests c; co_next := co_next c;
     co_schedulers := co_schedulers c; co_tasks := co_tasks c; co_completions := co_completions c;
     co_exact_reads := co_exact_reads c |}.

Definition with_tasks (permits : Z) schedulers tasks completions (c : Coordinator) : Coordinator :=
  {| tileset_states := tileset_states c; backend_group_permits := permits;
     co_cache := co_cache c; co_counters := co_counters c; co_closed := co_closed c;
     co_answers := co_answers c; co_requests := co_requests c; co_next := co_next c;
     co_schedulers := schedulers; co_tasks := tasks; co_completions := completions;
     co_exact_reads := co_exact_reads c |}.

Definition with_schedulers schedulers (c : Coordinator) : Coordinator :=
  with_tasks (backend_group_permits c) schedulers (co_tasks c) (co_completions c) c.

Definition with_cache (cache : ChunkCache) (counters : FetchCounters) (c : Coordinator) : Coordinator :=
  {| tileset_states := tileset_states c; backend_group_permits := backend_group_permits c;
     co_cache := cache; co_counters := counters; co_closed := co_closed c;
     co_answers := co_answers c; co_requests := co_requests c; co_next := co_next c;
     co_schedulers := co_schedulers c; co_tasks := co_tasks c; co_completions := co_completions c;
     co_exact_reads := co_exact_reads c |}.

Definition close_receiver (w : nat) (c : Coordinator) : Coordinator :=
  {| tileset_states := tileset_states c; backend_group_permits := backend_group_permits c;
     co_cache := co_cache c; co_counters := co_counters c; co_closed := {[w]} ∪ co_closed c;
     co_answers := co_answers c; co_requests := co_requests c; co_next := co_next c;
     co_schedulers := co_schedulers c; co_tasks := co_tasks c; co_completions := co_completions c;
     co_exact_reads := co_exact_reads c |}.

(** A permit moves to ([n = 1]) or from ([n = -1]) an exact-range read. *)
Definition move_permit (n : Z) (c : Coordinator) : Coordinator :=
  {| tileset_states := tileset_states c; backend_group_permits := backend_group_permits c - n;
     co_cache := co_cache c; co_counters := co_counters c; co_closed := co_closed c;
     co_answers := co_answers c; co_requests := co_requests c; co_next := co_next c;
     co_schedulers := co_schedulers c; co_tasks := co_tasks c; co_completions := co_completions c;
     co_exact_reads := co_exact_reads c + n |}.

Definition remove_drainable_state (states : gmap string TilesetFetchState) (tileset_id : string)
    : bool * gmap string TilesetFetchState :=
  match states !! tileset_id with
  | Some st => if is_drainable st then (true, delete tileset_id states) else (false, states)
  | None => (false, states)
  end.

Definition complete_dispatched_group (tileset_id : string) (chunk_range : Z * Z)
    (result : FetchResult (gmap Z bytes)) (c : Coordinator) : Coordinator :=
  match tileset_states c !! tileset_id with
  | None => c
  | Some st =>
      let '(_, answers, st) := complete_group (co_closed c) chunk_range result (co_answers c) st in
      with_states (remove_drainable_state (<[tileset_id := st]> (tileset_states c)) tileset_id).2 answers c
  end.

(** The critical section of [fetch_chunks]: the receivers to wait on. *)
Definition fetch_chunks_enqueue (tileset_id : string) (required_chunks : list Z) (archive_len queued_at : Z)
    (c : Coordinator) : list (Z * nat) * Coordinator :=
  let tileset_state := default TilesetFetchState_default (tileset_states c !! tileset_id) in
  let was_idle := is_idle tileset_state in
  let tileset_state := set_archive_len (Z.max (fs_archive_len tileset_state) archive_len) tileset_state in
  let '(enqueued, tileset_state) := enqueue_chunks required_chunks queued_at (co_next c) tileset_state in
  let receivers := (fun e => (ec_chunk_index e, ec_receiver e)) <$> enqueued in
  let start := negb (scheduler_running tileset_state) && bool_decide (pending_chunks tileset_state <> ∅) in
  let flush_immediately := was_idle && bool_decide (IMMEDIATE_CHUNK_INDEX ∈ pending_chunks tileset_state) in
  (receivers,
   {| tileset_states :=
        <[tileset_id := if start then set_scheduler_running true tileset_state else tileset_state]>
          (tileset_states c);
      backend_group_permits := backend_group_permits c; co_cache := co_cache c;
      co_counters := co_counters c; co_closed := co_closed c; co_answers := co_answers c;
      co_requests :=
        foldl (fun m e => <[ec_receiver e := (tileset_id, ec_chunk_index e)]> m) (co_requests c) enqueued;
      co_next := (co_next c + length required_chunks)%nat;
      co_schedulers :=
        if start then (tileset_id, if flush_immediately then Ready else Sleeping) :: co_schedulers c
        else co_schedulers c;
      co_tasks := co_tasks c; co_completions := co_completions c;
      co_exact_reads := co_exact_reads c |}).

(** The receive loop of [fetch_chunks], once no more answers come: a receiver
    without an answer has lost its sender. *)
Fixpoint await_chunks (answers : gmap nat (FetchResult bytes)) (receivers : list (Z * nat))
    (chunks : gmap Z bytes) : Res ChunkFetchError (gmap Z bytes) :=
  match receivers with
  | [] => Ok chunks
  | (chunk_index, receiver) :: receivers =>
      result ← ok_or (Message (MText "chunk fetch waiter dropped")) (answers !! receiver);
      match result with
      | inl chunk => await_chunks answers receivers (<[chunk_index := chunk]> chunks)
      | inr error => Err error
      end
  end.

(** The critical section of a scheduler pass: the next phase of the task, or
    [None] when it returns. *)
Definition scheduler_pass (max_fetch_chunks now : Z) (tileset_id : string) (c : Coordinator)
    : option SchedulerPhase * Coordinator :=
  match tileset_states c !! tileset_id with
  | None => (None, c)
  | Some st =>
      let '(_, st) := prune_cancelled_waiters (co_closed c) st in
      match select_dispatch_groups max_fetch_chunks now st with
      | (Idle, st) =>
          (None, with_states (remove_drainable_state (<[tileset_id := st]> (tileset_states c)) tileset_id).2
                   (co_answers c) c)
      | (Throttled, st) =>
          (Some AwaitingCapacity, with_states (<[tileset_id := st]> (tileset_states c)) (co_answers c) c)
      | (Dispatch groups archive_len _ _, st) =>
          (Some (Dispatching groups archive_len),
           with_states (<[tileset_id := st]> (tileset_states c)) (co_answers c) c)
      end
  end.

(** [try_reserve_backend_group] and the spawn, or the shed group. *)
Definition dispatch_group (g : Group) (c : Coordinator) : Coordinator :=
  if 0 <? backend_group_permits c then
    with_tasks (backend_group_permits c - 1) (co_schedulers c) ((g, Fetching) :: co_tasks c)
      (co_completions c) c
  else complete_dispatched_group (g_tileset g) (g_range g)
         (inr (Overloaded "backend fetch group limit reached")) c.

(** The scheduler task after a pass, if it goes on. *)
Definition phase_list (t : string) (phase : option SchedulerPhase) : list (string * SchedulerPhase) :=
  match phase with Some p => [(t, p)] | None => [] end.

Section Groups.
Context {Store : Type} (encode : string -> string).
Context (sources : NamespacedEntries (TilesetSource Store)) (chunk_size : Z).

(** The result a group task computes, with the cache it fills; [None] when it
    unwinds. *)
Definition group_result (admission : FetchAdmission)
    (get_range : Store -> list string -> Z -> Z -> StoreReply) (g : Group)
    (counters : FetchCounters) (cache : ChunkCache)
    : option (FetchResult (gmap Z bytes)) * FetchCounters * ChunkCache :=
  let '(start, end_) := g_range g in
  match fetch_chunk_group encode sources chunk_size admission get_range (g_tileset g) start end_
          (g_archive_len g) counters with
  | (Ok bs, counters) =>
      match cache_chunk_group chunk_size (g_tileset g) start end_ (g_archive_len g) bs cache with
      | (Ok chunks, cache) => (Some (inl chunks), counters, cache)
      | (Err e, cache) => (Some (inr (Message (MRange e))), counters, cache)
      | (Panic, cache) => (None, counters, cache)
      end
  | (Err e, counters) => (Some (inr e), counters, cache)
  | (Panic, counters) => (None, counters, cache)
  end.

(** The result a dropped guard reports for its group. *)
Definition dropped_result (task : GroupTask) : FetchResult (gmap Z bytes) :=
  match task with
  | Completing result => result
  | Fetching => inr (Message (MText "chunk fetch task cancelled or panicked"))
  end.

Context (max_fetch_chunks : Z) (archive_of : string -> bytes).

(** The interleaved runs. A reader enqueues chunks of an archive whose length it
    knows; schedulers sleep, pass, wait for a slot and dispatch; a group task
    fetches and completes, or is dropped at any point and its guard spawns the
    completion; receivers are dropped, permits are held by exact-range reads, and
    cache entries are evicted. *)
Inductive coord_step : Coordinator -> Coordinator -> Prop :=
  | step_fetch_chunks c t required now :
      (forall i, i ∈ required -> 0 <= i /\ i * chunk_size < len (archive_of t)) ->
      coord_step c (fetch_chunks_enqueue t required (len (archive_of t)) now c).2
  | step_window c l t l' :
      co_schedulers c = l ++ (t, Sleeping) :: l' ->
      coord_step c (with_schedulers (l ++ (t, Ready) :: l') c)
  | step_pass c l t l' now phase c' :
      co_schedulers c = l ++ (t, Ready) :: l' ->
      scheduler_pass max_fetch_chunks now t c = (phase, c') ->
      coord_step c (with_schedulers (l ++ phase_list t phase ++ l') c')
  | step_capacity c l t l' st :
      co_schedulers c = l ++ (t, AwaitingCapacity) :: l' ->
      tileset_states c !! t = Some st -> capacity_available st = true ->
      coord_step c (with_schedulers (l ++ (t, Ready) :: l')
        (with_states (<[t := take_notification st]> (tileset_states c)) (co_answers c) c))
  | step_dispatch c l t range groups n l' :
      co_schedulers c = l ++ (t, Dispatching (range :: groups) n) :: l' ->
      coord_step c (dispatch_group {| g_tileset := t; g_range := range; g_archive_len := n |}
        (with_schedulers (l ++ (t, Dispatching groups n) :: l') c))
  | step_dispatched c l t n l' :
      co_schedulers c = l ++ (t, Dispatching [] n) :: l' ->
      coord_step c (with_schedulers (l ++ (t, Sleeping) :: l') c)
  | step_fetched c l g l' admission get_range result counters cache :
      co_tasks c = l ++ (g, Fetching) :: l' ->
      store_serves encode sources (archive_of (g_tileset g)) (g_tileset g) get_range ->
      group_result admission get_range g (co_counters c) (co_cache c) = (Some result, counters, cache) ->
      coord_step c (with_tasks (backend_group_permits c) (co_schedulers c)
        (l ++ (g, Completing result) :: l') (co_completions c) (with_cache cache counters c))
  | step_completed c l g result l' :
      co_tasks c = l ++ (g, Completing result) :: l' ->
      coord_step c (with_tasks (backend_group_permits c + 1) (co_schedulers c) (l ++ l') (co_completions c)
        (complete_dispatched_group (g_tileset g) (g_range g) result c))
  | step_dropped c l g task l' :
      co_tasks c = l ++ (g, task) :: l' ->
      coord_step c (with_tasks (backend_group_permits c + 1) (co_schedulers c) (l ++ l')
        ((g, dropped_result task) :: co_completions c) c)
  | step_completion c l g result l' :
      co_completions c = l ++ (g, result) :: l' ->
      coord_step c (with_tasks (backend_group_permits c) (co_schedulers c) (co_tasks c) (l ++ l')
        (complete_dispatched_group (g_tileset g) (g_range g) result c))
  | step_close c w : coord_step c (close_receiver w c)
  | step_exact_start c :
      0 < backend_group_permits c -> coord_step c (move_permit 1 c)
  | step_exact_end c :
      0 < co_exact_reads c -> coord_step c (move_permit (-1) c)
  | step_evict c k : coord_step c (with_cache (delete k (co_cache c)) (co_counters c) c).
End Groups.

(** ** The coordinator as seen by a reader

    While a reader waits, the other tasks run: [env] maps the state in which the
    reader starts to wait to the state in which it resumes. *)
Definition exact_range_read {Store} encode (sources : NamespacedEntries (TilesetSource Store))
    (env : Coordinator -> Coordinator) (admission : FetchAdmission)
    (get_range : Store -> list string -> Z -> Z -> StoreReply) (t : string) (lo hi : Z)
    : SM Coordinator ChunkFetchError bytes := fun c =>
  if 0 <? backend_group_permits c then
    let c := env (move_permit 1 c) in
    let '(r, counters) :=
      fetch_exact_range encode sources admission get_range t lo hi (co_counters c) in
    (r, move_permit (-1) (with_cache (co_cache c) counters c))
  else (Err (Overloaded "backend fetch group limit reached"), c).

Definition coordinator_ops {Store} encode (sources : NamespacedEntries (TilesetSource Store))
    (env : Coordinator -> Coordinator) (now : Z) (admission : FetchAdmission)
    (get_range : Store -> list string -> Z -> Z -> StoreReply) : ChunkCoordinator Coordinator :=
  {| chunk_cache_get t i := fun c => (Ok (co_cache c !! (t, i)), c);
     fetch_chunks t required archive_len := fun c =>
       let '(receivers, c) := fetch_chunks_enqueue t required archive_len now c in
       let c := env c in
       (await_chunks (co_answers c) receivers ∅, c);
     coordinator_fetch_exact_range := exact_range_read encode sources env admission get_range |}.

(** ** Planned ranges cover the pending chunks *)

Lemma elem_of_btree_iter s i : i ∈ btree_iter s <-> i ∈ s.
Proof. unfold btree_iter. by rewrite sort_by_elem, elem_of_elements. Qed.

Lemma btree_iter_ascending s : StronglySorted Z.lt (btree_iter s).
Proof.
  unfold btree_iter. assert (Hnd : NoDup (sort_by Z.compare (elements s))).
  { rewrite sort_by_perm. apply NoDup_elements. }
  revert Hnd. induction (sort_by_sorted Z.compare (elements s)) as [|x l _ IH Hx]; intros Hnd; [constructor|].
  apply NoDup_cons in Hnd as [Hni Hnd]. constructor; [by apply IH|].
  apply Forall_forall. intros y Hy. rewrite Forall_forall in Hx. specialize (Hx y Hy).
  unfold cmp_le in Hx. destruct (Z.compare_spec x y); [by subst|done|done].
Qed.

(** A range of the plan: its ends are wanted chunks, it is not longer than the
    limit, and it skips over at most one unwanted chunk at a time. *)
Record planned (wanted : Z -> Prop) (limit : Z) (r : Z * Z) : Prop := {
  pl_start : wanted r.1;
  pl_end : wanted (r.2 - 1);
  pl_limit : 1 <= r.2 - r.1 <= limit;
  pl_gap : forall i, r.1 <= i < r.2 -> ~ wanted i -> wanted (i - 1) /\ wanted (i + 1);
}.

Lemma ranges_from_spec (wanted : Z -> Prop) limit start end_ iter :
  StronglySorted Z.lt iter -> (forall i, i ∈ iter -> wanted i /\ end_ <= i < u64_max) ->
  planned wanted limit (start, end_) -> 0 <= start -> end_ <= u64_max ->
  let ranges := ranges_from limit MAX_CHUNK_GAP start end_ iter in
  Forall (planned wanted limit) ranges /\
  StronglySorted (fun r r' => r.2 <= r'.1) ranges /\
  Forall (fun r => start <= r.1 /\ 0 <= r.1 /\ r.2 <= u64_max) ranges /\
  (forall i, start <= i < end_ \/ i ∈ iter -> exists r, r ∈ ranges /\ r.1 <= i < r.2).
Proof.
  intros Hsort. revert start end_. induction Hsort as [|chunk iter Hsort IH Hlt]; intros start end_ Hin Hpl Hs He; cbn.
  { split_and!; [by apply Forall_singleton|by repeat constructor|apply Forall_singleton; cbn; lia|].
    intros i [Hi|Hi%not_elem_of_nil]; [|done]. exists (start, end_). split; [left|done]. }
  destruct (Hin chunk) as [Hw Hc]; [left|]. destruct Hpl as [P1 P2 P3 P4]; cbn in *.
  rewrite Forall_forall in Hlt.
  assert (Hrest : forall i, i ∈ iter -> wanted i /\ chunk + 1 <= i < u64_max).
  { intros i Hi. specialize (Hlt i Hi). destruct (Hin i) as [? ?]; [by right|]. split; [done|lia]. }
  unfold MAX_CHUNK_GAP in *.
  rewrite (wrapping_add_small chunk 1) by (unfold is_u; lia).
  rewrite (wrapping_add_small end_ 1) by (unfold is_u; lia).
  rewrite (wrapping_sub_small (chunk + 1) start) by (unfold is_u; lia).
  destruct ((chunk <=? end_ + 1) && (chunk + 1 - start <=? limit)) eqn:Hb.
  - bool_props. destruct (IH start (chunk + 1)) as (IH1 & IH2 & IH3 & IH4); try done; try lia.
    + split; cbn; [done|by replace (chunk + 1 - 1) with chunk by lia|lia|].
      intros i Hi Hni. destruct (Z_lt_ge_dec i end_) as [|Hge]; [apply P4; [lia|done]|].
      assert (i <> chunk) by (by intros ->). assert (i = end_) as -> by lia.
      split; [done|]. by replace (end_ + 1) with chunk by lia.
    + split_and!; try done. intros i Hi. apply IH4. rewrite elem_of_cons in Hi.
      destruct Hi as [Hi|[->|Hi]]; [left; lia|left; lia|by right].
  - destruct (IH chunk (chunk + 1)) as (IH1 & IH2 & IH3 & IH4); try done; try lia.
    { split; cbn; [done|by replace (chunk + 1 - 1) with chunk by lia|lia|].
      intros i Hi Hni. assert (i = chunk) as -> by lia. done. }
    split_and!.
    + constructor; [by split|done].
    + constructor; [done|]. apply Forall_forall. intros r Hr. rewrite Forall_forall in IH3.
      specialize (IH3 r Hr). cbn. lia.
    + constructor; [cbn; lia|]. eapply Forall_impl; [exact IH3|]. cbn. intros r. lia.
    + intros i Hi. rewrite elem_of_cons in Hi. destruct Hi as [Hi|Hi].
      * exists (start, end_). split; [left|done].
      * destruct (IH4 i) as (r & Hr & Hir); [destruct Hi as [->|Hi]; [left; lia|by right]|].
        exists r. split; [by right|done].
Qed.

Lemma contiguous_ranges_spec chunks max_fetch_chunks :
  (forall i, i ∈ chunks -> 0 <= i < u64_max) ->
  let ranges := contiguous_chunk_ranges chunks max_fetch_chunks MAX_CHUNK_GAP in
  Forall (planned (fun i => i ∈ chunks) (Z.max max_fetch_chunks 1)) ranges /\
  StronglySorted (fun r r' => r.2 <= r'.1) ranges /\
  (forall i, i ∈ chunks -> exists r, r ∈ ranges /\ r.1 <= i < r.2).
Proof.
  intros Hin. unfold contiguous_chunk_ranges.
  pose proof (btree_iter_ascending chunks) as Hsort.
  pose proof (elem_of_btree_iter chunks) as Helem.
  destruct (btree_iter chunks) as [|start iter]; cbn.
  { split_and!; [constructor..|]. intros i Hi%Helem. by apply not_elem_of_nil in Hi. }
  assert (Hstart : start ∈ chunks) by (apply Helem; left). pose proof (Hin _ Hstart).
  apply StronglySorted_inv in Hsort as [Hsort Hlt]. rewrite Forall_forall in Hlt.
  rewrite wrapping_add_small by (unfold is_u; lia).
  destruct (ranges_from_spec (fun i => i ∈ chunks) (Z.max max_fetch_chunks 1) start (start + 1) iter)
    as (H1 & H2 & _ & H4); try done; try lia.
  - intros i Hi. specialize (Hlt i Hi). assert (Hc : i ∈ chunks) by (apply Helem; by right).
    pose proof (Hin _ Hc). split; [done|lia].
  - split; cbn; [done|by replace (start + 1 - 1) with start by lia|lia|].
    intros i Hi Hni. assert (i = start) as -> by lia. done.
  - split_and!; try done. intros i Hi%Helem. apply H4. rewrite elem_of_cons in Hi.
    destruct Hi as [->|Hi]; [left; lia|by right].
Qed.

(** ** Effects of the state operations *)

(** [send_all] answers exactly the open receivers. *)
Lemma send_all_spec closed r ws answers outcome :
  let a' := (send_all closed r ws answers outcome).2 in
  forall w, a' !! w = (if decide (w ∈ ws /\ w ∉ closed) then Some r else answers !! w).
Proof.
  cbn. unfold send_all. revert answers outcome. induction ws as [|x ws IH]; intros answers outcome w; cbn.
  { rewrite decide_False; [done|]. intros [[]%not_elem_of_nil _]. }
  case_decide as Hx; rewrite IH; clear IH.
  - case_decide as H1; case_decide as H2; try done.
    + destruct H2. destruct H1. split; [by right|done].
    + destruct H1. destruct H2 as [[->|?]%elem_of_cons ?]; done.
  - case_decide as H1; case_decide as H2; try done.
    + destruct H2. destruct H1. split; [by right|done].
    + destruct H2 as [[->|?]%elem_of_cons ?]; [by rewrite lookup_insert_eq|by destruct H1].
    + apply lookup_insert_ne. intros ->. apply H2. split; [left|done].
Qed.

(** A waiter that the release of the chunks [l] answers, with its answer. *)
Definition released (closed : gset nat) (result : FetchResult (gmap Z bytes)) (ws : gmap Z (list nat))
    (l : list Z) (w : nat) (r : FetchResult bytes) : Prop :=
  exists i live, i ∈ l /\ ws !! i = Some live /\ w ∈ live /\ (w ∉ closed) /\ r = chunk_result i result.

Record release_spec (closed : gset nat) (result : FetchResult (gmap Z bytes)) (l : list Z)
    (answers : gmap nat (FetchResult bytes)) (st : TilesetFetchState)
    (answers' : gmap nat (FetchResult bytes)) (st' : TilesetFetchState) : Prop := {
  rs_pending : pending_chunks st' = pending_chunks st;
  rs_inflight : forall i, i ∈ inflight_chunks st' <-> i ∈ inflight_chunks st /\ i ∉ l;
  rs_waiters : forall i, waiters st' !! i = if decide (i ∈ l) then None else waiters st !! i;
  rs_running : scheduler_running st' = scheduler_running st;
  rs_count : inflight_fetch_count st' = inflight_fetch_count st;
  rs_capacity : capacity_available st' = capacity_available st;
  rs_archive : fs_archive_len st' = fs_archive_len st;
  rs_kept : forall w, is_Some (answers !! w) -> is_Some (answers' !! w);
  rs_answered : forall w r, released closed result (waiters st) l w r -> is_Some (answers' !! w);
  rs_answers : forall w r, answers' !! w = Some r ->
    answers !! w = Some r \/ released closed result (waiters st) l w r;
}.

Lemma release_chunk_spec closed result i outcome answers st :
  let '(_, answers', st') := release_chunk closed result i (outcome, answers, st) in
  release_spec closed result [i] answers st answers' st'.
Proof.
  unfold release_chunk. destruct (waiters st !! i) as [ws|] eqn:Hw.
  - destruct (send_all closed (chunk_result i result) ws answers outcome) as [o' a'] eqn:Hs.
    pose proof (send_all_spec closed (chunk_result i result) ws answers outcome) as Ha. rewrite Hs in Ha.
    cbn in Ha. split; cbn; try done.
    + intros j. rewrite elem_of_difference, elem_of_singleton, list_elem_of_singleton. done.
    + intros j. destruct (decide (j ∈ [i])) as [->%list_elem_of_singleton|Hne].
      * apply lookup_delete_eq.
      * apply lookup_delete_ne. intros ->. apply Hne. left.
    + intros w Hsome. rewrite Ha. by case_decide.
    + intros w r (j & live & ->%list_elem_of_singleton & Hj & Hin & Hcl & ->). rewrite Ha.
      rewrite decide_True; [done|]. split; [congruence|done].
    + intros w r. rewrite Ha. case_decide as Hd; [|by left]. intros [= <-]. right.
      exists i, ws. destruct Hd. split_and!; try done. left.
  - split; cbn; try done.
    + intros j. rewrite elem_of_difference, elem_of_singleton, list_elem_of_singleton. done.
    + intros j. destruct (decide (j ∈ [i])) as [->%list_elem_of_singleton|Hne].
      * apply lookup_delete_eq.
      * apply lookup_delete_ne. intros ->. apply Hne. left.
    + intros w r (j & live & ->%list_elem_of_singleton & Hj & _). congruence.
    + intros w r. by left.
Qed.

Lemma release_chunks_spec closed result l outcome answers st :
  let '(_, answers', st') :=
    foldl (fun acc i => release_chunk closed result i acc) (outcome, answers, st) l in
  release_spec closed result l answers st answers' st'.
Proof.
  revert outcome answers st. induction l as [|i l IH]; intros outcome answers st; cbn [foldl].
  { split; try done.
    - intros i. split; [|by intros []]. intros ?. split; [done|apply not_elem_of_nil].
    - intros w r (i & ? & []%not_elem_of_nil & _).
    - intros w r. by left. }
  pose proof (release_chunk_spec closed result i outcome answers st) as H1.
  destruct (release_chunk closed result i (outcome, answers, st)) as [[o1 a1] st1].
  specialize (IH o1 a1 st1). destruct (foldl _ (o1, a1, st1) l) as [[o2 a2] st2].
  destruct H1 as [P1 F1 W1 R1 C1 K1 L1 A1 B1 D1], IH as [P2 F2 W2 R2 C2 K2 L2 A2 B2 D2].
  assert (Hsplit : forall w r, released closed result (waiters st1) l w r ->
    released closed result (waiters st) (i :: l) w r).
  { intros w r (j & live & Hj & Hw & Hin & Hcl & ->). rewrite W1 in Hw. case_decide as Hd; [done|].
    exists j, live. split_and!; try done. by right. }
  split; try congruence.
  - intros j. rewrite F2, F1, list_elem_of_singleton, elem_of_cons. tauto.
  - intros j. rewrite W2, W1.
    destruct (decide (j ∈ l)) as [Hj|Hj]; [by rewrite decide_True by (by right)|].
    destruct (decide (j ∈ [i])) as [->%list_elem_of_singleton|Hi]; [by rewrite decide_True by left|].
    rewrite decide_False; [done|]. intros [->|?]%elem_of_cons; [|done]. apply Hi. left.
  - auto.
  - intros w r (j & live & Hj & Hw & Hin & Hcl & ->). destruct (decide (j = i)) as [->|Hne].
    + apply A2. apply (B1 w (chunk_result i result)). exists i, live. split_and!; try done. left.
    + apply (B2 w (chunk_result j result)). exists j, live. rewrite W1. rewrite decide_False.
      * apply elem_of_cons in Hj as [->|Hj]; done.
      * by rewrite list_elem_of_singleton.
  - intros w r [Hr|Hr]%D2; [|right; by apply Hsplit]. apply D1 in Hr as [Hr|Hr]; [by left|right].
    destruct Hr as (j & live & ->%list_elem_of_singleton & Hw & Hin & Hcl & ->).
    exists i, live. split_and!; try done. left.
Qed.

(** The state and the answers after a group completes. *)
Lemma complete_group_spec closed range result answers st :
  let '(_, answers', st') := complete_group closed range result answers st in
  let l := range_list range.1 range.2 in
  pending_chunks st' = pending_chunks st /\
  (forall i, i ∈ inflight_chunks st' <-> i ∈ inflight_chunks st /\ i ∉ l) /\
  (forall i, waiters st' !! i = if decide (i ∈ l) then None else waiters st !! i) /\
  scheduler_running st' = scheduler_running st /\
  inflight_fetch_count st' = saturating_sub (inflight_fetch_count st) 1 /\
  capacity_available st' = capacity_available st ||
    ((MAX_CONCURRENT_FETCHES_PER_TILESET <=? inflight_fetch_count st) &&
     bool_decide (pending_chunks st <> ∅)) /\
  fs_archive_len st' = fs_archive_len st /\
  (forall w, is_Some (answers !! w) -> is_Some (answers' !! w)) /\
  (forall w r, released closed result (waiters st) l w r -> is_Some (answers' !! w)) /\
  (forall w r, answers' !! w = Some r -> answers !! w = Some r \/ released closed result (waiters st) l w r).
Proof.
  unfold complete_group.
  match goal with |- context [foldl _ (?o, answers, ?s) ?l] =>
    pose proof (release_chunks_spec closed result l o answers s) as H end.
  destruct (foldl _ _ _) as [[o' a'] st']. destruct H. cbn in *. split_and!; done.
Qed.

(** The waiter [w] is registered for the chunk [i]. *)
Definition registered (st : TilesetFetchState) (i : Z) (w : nat) : Prop :=
  exists ws, waiters st !! i = Some ws /\ w ∈ ws.

(** The receivers handed to the caller, in order. *)
Definition receivers (enqueued : list EnqueuedChunk) : list (Z * nat) :=
  (fun e => (ec_chunk_index e, ec_receiver e)) <$> enqueued.

Record enqueue_spec (required : list Z) (st : TilesetFetchState) (joined : list EnqueuedChunk)
    (st' : TilesetFetchState) : Prop := {
  es_inflight : inflight_chunks st' = inflight_chunks st;
  es_running : scheduler_running st' = scheduler_running st;
  es_count : inflight_fetch_count st' = inflight_fetch_count st;
  es_capacity : capacity_available st' = capacity_available st;
  es_archive : fs_archive_len st' = fs_archive_len st;
  es_pending : forall i, i ∈ pending_chunks st' <->
    i ∈ pending_chunks st \/ (i ∈ required /\ (i ∉ inflight_chunks st));
  es_waiters : forall i, is_Some (waiters st' !! i) -> is_Some (waiters st !! i) \/ i ∈ required;
  es_registered : forall i w, registered st' i w <-> registered st i w \/ (i, w) ∈ receivers joined;
}.

Lemma enqueue_chunk_spec queued_at tx i st :
  let '(joined, st') := enqueue_chunk queued_at tx i st in
  enqueue_spec [i] st [joined] st' /\ ec_chunk_index joined = i /\ ec_receiver joined = tx.
Proof.
  unfold enqueue_chunk.
  match goal with |- context [<[i := ?ws]> (waiters st)] => set (W := <[i := ws]> (waiters st)) end.
  assert (Hw : forall j, is_Some (W !! j) -> is_Some (waiters st !! j) \/ j ∈ [i]).
  { intros j. destruct (decide (j = i)) as [->|]; [right; left|left]. by unfold W in *; rewrite lookup_insert_ne in *. }
  assert (Hr : forall j w, (exists ws, W !! j = Some ws /\ w ∈ ws) <-> registered st j w \/ (j, w) ∈ [(i, tx)]).
  { intros j w. unfold W, registered. rewrite list_elem_of_singleton.
    destruct (decide (j = i)) as [->|Hne].
    - rewrite lookup_insert_eq. split.
      + intros (ws & [= <-] & Hin). apply elem_of_app in Hin as [Hin| ->%list_elem_of_singleton]; [|by right].
        left. destruct (waiters st !! i) as [l|]; [eauto|by apply not_elem_of_nil in Hin].
      + intros [(ws & Hws & Hin)|[= ->]]; eexists; (split; [done|]); apply elem_of_app.
        * left. by rewrite Hws.
        * right. left.
    - rewrite lookup_insert_ne by done. split; [by left|]. intros [?|[= ? ?]]; [done|congruence]. }
  repeat case_decide; cbn; (split; [|done]); split; cbn; try done.
  - intros j. rewrite list_elem_of_singleton. split; [by left|]. intros [?|[-> ?]]; done.
  - intros j. rewrite list_elem_of_singleton. split; [by left|]. intros [?|[-> ?]]; done.
  - intros j. rewrite elem_of_union, elem_of_singleton, list_elem_of_singleton. split.
    + intros [->|?]; [by right|by left].
    + intros [?|[-> ?]]; tauto.
Qed.

Lemma enqueue_chunks_spec required queued_at tx st :
  let '(joined, st') := enqueue_chunks required queued_at tx st in
  enqueue_spec required st joined st' /\ receivers joined = zip required (seq tx (length required)).
Proof.
  revert tx st. induction required as [|i required IH]; intros tx st; cbn.
  { split; [|done]. split; try done.
    - intros i. split; [by left|]. intros [?|[[]%not_elem_of_nil _]]; done.
    - intros i ?. by left.
    - intros i w. split; [by left|]. intros [?|[]%not_elem_of_nil]; done. }
  pose proof (enqueue_chunk_spec queued_at tx i st) as H1.
  destruct (enqueue_chunk queued_at tx i st) as [e st1]. destruct H1 as (H1 & Hi & Htx).
  specialize (IH (S tx) st1). destruct (enqueue_chunks required queued_at (S tx) st1) as [rest st2].
  destruct IH as [H2 Hrest]. split; [|cbn; by rewrite Hi, Htx, <- Hrest].
  destruct H1, H2. split; try congruence.
  - intros j. rewrite es_pending1, es_pending0, es_inflight0, list_elem_of_singleton, elem_of_cons.
    split; [|tauto]. intros [[?|[-> ?]]|[? ?]]; tauto.
  - intros j [Hj|Hj]%es_waiters1; [|right; by right].
    apply es_waiters0 in Hj as [Hj|Hj]; [by left|right]. rewrite list_elem_of_singleton in Hj. subst. left.
  - intros j w. rewrite es_registered1, es_registered0. unfold receivers. cbn [fmap list_fmap].
    rewrite !elem_of_cons, elem_of_nil. tauto.
Qed.

(** ** The scheduling invariant *)

Section Scheduling.
Context (chunk_size : Z) (archive_of : string -> bytes).
Context (Hsize : 0 < chunk_size) (Hlen : forall t, len (archive_of t) <= u64_max).

(** A chunk of the tileset's archive. *)
Definition chunk_in (t : string) (i : Z) : Prop := 0 <= i /\ i * chunk_size < len (archive_of t).

Lemma chunk_in_u64 t i : chunk_in t i -> 0 <= i < u64_max.
Proof. intros [H1 H2]. specialize (Hlen t). nia. Qed.

(** A tileset's state agrees with its outstanding groups [gs]: they are counted
    and bounded, every inflight chunk is in one of them, and every waiter's chunk
    is pending or inflight. *)
Record state_inv (t : string) (st : TilesetFetchState) (gs : list Group) : Prop := {
  si_count : inflight_fetch_count st = Z.of_nat (length gs);
  si_bound : inflight_fetch_count st <= MAX_CONCURRENT_FETCHES_PER_TILESET;
  si_inflight : forall i, i ∈ inflight_chunks st -> exists g, g ∈ gs /\ (g_range g).1 <= i < (g_range g).2;
  si_waiters : forall i ws, waiters st !! i = Some ws -> i ∈ pending_chunks st \/ i ∈ inflight_chunks st;
  si_pending : forall i, i ∈ pending_chunks st -> chunk_in t i;
  si_archive : fs_archive_len st = len (archive_of t);
}.

Definition of_tileset (t : string) (gs : list Group) : list Group := filter (fun g => g_tileset g = t) gs.
Definition tasks_of (t : string) (scheds : list (string * SchedulerPhase)) : list (string * SchedulerPhase) :=
  filter (fun s => s.1 = t) scheds.

(** Present states have a scheduler exactly while they say so, which is whenever
    chunks are pending; a scheduler that waits for a slot either has been
    notified or is behind a full set of groups. Absent states have no tasks. *)
Definition tileset_inv (gs : list Group) (scheds : list (string * SchedulerPhase)) (t : string)
    (ost : option TilesetFetchState) : Prop :=
  match ost with
  | Some st =>
      state_inv t st (of_tileset t gs) /\
      length (tasks_of t scheds) = (if scheduler_running st then 1 else 0)%nat /\
      (pending_chunks st <> ∅ -> scheduler_running st = true) /\
      ((t, AwaitingCapacity) ∈ scheds -> capacity_available st = true \/
         (MAX_CONCURRENT_FETCHES_PER_TILESET <= inflight_fetch_count st /\ pending_chunks st <> ∅))
  | None => of_tileset t gs = [] /\ tasks_of t scheds = []
  end.

Definition sched_inv (states : gmap string TilesetFetchState) (gs : list Group)
    (scheds : list (string * SchedulerPhase)) : Prop :=
  forall t, tileset_inv gs scheds t (states !! t).

Lemma state_inv_perm t st gs gs' : gs ≡ₚ gs' -> state_inv t st gs -> state_inv t st gs'.
Proof.
  intros Hp []. split; try done.
  - by rewrite <- Hp.
  - intros i (g & Hg & Hi)%si_inflight0. exists g. by rewrite <- Hp.
Qed.

Lemma sched_inv_perm states gs gs' scheds :
  gs ≡ₚ gs' -> sched_inv states gs scheds -> sched_inv states gs' scheds.
Proof.
  intros Hp H t. specialize (H t).
  assert (Ht : of_tileset t gs ≡ₚ of_tileset t gs') by (unfold of_tileset; by rewrite Hp).
  unfold tileset_inv in *. destruct (states !! t) as [st|].
  - destruct H as (H & ?). split; [by eapply state_inv_perm|done].
  - destruct H as [H ?]. split; [|done]. rewrite H in Ht. by apply Permutation_nil_l in Ht.
Qed.

(** Tilesets other than the one an operation is about. *)
Lemma tileset_inv_other gs gs' scheds scheds' t ost :
  of_tileset t gs' = of_tileset t gs -> tasks_of t scheds' = tasks_of t scheds ->
  tileset_inv gs scheds t ost -> tileset_inv gs' scheds' t ost.
Proof.
  intros Hg Hs. unfold tileset_inv. rewrite Hg, Hs. destruct ost as [st|]; [|done].
  intros (H1 & H2 & H3 & H4). split_and!; try done. intros Hin. apply H4.
  assert (Hin' : (t, AwaitingCapacity) ∈ tasks_of t scheds').
  { apply list_elem_of_filter. split; [done|exact Hin]. }
  rewrite Hs in Hin'. by apply list_elem_of_filter in Hin' as [_ ?].
Qed.

Lemma tasks_of_app t l l' : tasks_of t (l ++ l') = tasks_of t l ++ tasks_of t l'.
Proof. apply filter_app. Qed.
Lemma tasks_of_cons_eq t p l : tasks_of t ((t, p) :: l) = (t, p) :: tasks_of t l.
Proof. by apply filter_cons_True. Qed.
Lemma tasks_of_cons_ne t t' p l : t' <> t -> tasks_of t ((t', p) :: l) = tasks_of t l.
Proof. intros. by apply filter_cons_False. Qed.
Lemma of_tileset_cons_eq g gs : of_tileset (g_tileset g) (g :: gs) = g :: of_tileset (g_tileset g) gs.
Proof. by apply filter_cons_True. Qed.
Lemma of_tileset_cons_ne t g gs : g_tileset g <> t -> of_tileset t (g :: gs) = of_tileset t gs.
Proof. intros. by apply filter_cons_False. Qed.

Lemma of_tileset_app t l l' : of_tileset t (l ++ l') = of_tileset t l ++ of_tileset t l'.
Proof. apply filter_app. Qed.

(** A scheduler moves to a phase other than waiting for a slot. *)
Lemma sched_inv_phase states gs l t p p' l' :
  p' <> AwaitingCapacity -> sched_inv states gs (l ++ (t, p) :: l') ->
  sched_inv states gs (l ++ (t, p') :: l').
Proof.
  intros Hp H t'. specialize (H t'). destruct (decide (t' = t)) as [->|Hne].
  - unfold tileset_inv in *. rewrite tasks_of_app, tasks_of_cons_eq in *.
    destruct (states !! t) as [st|]; [|destruct H as [_ H]; by apply app_nil in H as [_ ?]].
    destruct H as (H1 & H2 & H3 & H4). split_and!; try done.
    + rewrite length_app in *. done.
    + intros Hin. apply H4. rewrite elem_of_app, elem_of_cons in *.
      destruct Hin as [?|[[= <-]|?]]; [tauto|done|tauto].
  - eapply tileset_inv_other; [done| |exact H]. rewrite !tasks_of_app, !tasks_of_cons_ne by done. done.
Qed.

(** The only scheduler of a tileset. *)
Lemma only_scheduler states gs l t p l' :
  sched_inv states gs (l ++ (t, p) :: l') ->
  exists st, states !! t = Some st /\ scheduler_running st = true /\
    tasks_of t l = [] /\ tasks_of t l' = [].
Proof.
  intros H. specialize (H t). unfold tileset_inv in H. rewrite tasks_of_app, tasks_of_cons_eq in H.
  destruct (states !! t) as [st|]; [|destruct H as [_ H]; by apply app_nil in H as [_ ?]].
  destruct H as (_ & H2 & _). exists st. rewrite length_app in H2. cbn in H2.
  destruct (scheduler_running st); [|lia]. split_and!; try done; apply nil_length_inv; lia.
Qed.

Lemma is_drainable_true st :
  is_drainable st = true <->
  scheduler_running st = false /\ pending_chunks st = ∅ /\ inflight_fetch_count st = 0.
Proof.
  unfold is_drainable. rewrite !andb_true_iff, negb_true_iff, bool_decide_eq_true, Z.eqb_eq. tauto.
Qed.

(** Dropping a drained state keeps the invariant. *)
Lemma sched_inv_remove states gs scheds t :
  sched_inv states gs scheds -> sched_inv (remove_drainable_state states t).2 gs scheds.
Proof.
  intros H. unfold remove_drainable_state. destruct (states !! t) as [st|] eqn:Ht; [|done].
  destruct (is_drainable st) eqn:Hd; [|done]. intros t'. cbn. destruct (decide (t' = t)) as [->|Hne].
  - rewrite lookup_delete_eq. specialize (H t). rewrite Ht in H. destruct H as (H1 & H2 & _).
    apply is_drainable_true in Hd as (Hr & _ & Hc). rewrite Hr in H2.
    destruct H1. rewrite Hc in si_count0. split; apply nil_length_inv; lia.
  - rewrite lookup_delete_ne by done. apply H.
Qed.

Lemma complete_state_inv t st g gs closed result answers :
  state_inv t st (g :: gs) ->
  let '(_, _, st') := complete_group closed (g_range g) result answers st in state_inv t st' gs.
Proof.
  intros [C B F W P A]. pose proof (complete_group_spec closed (g_range g) result answers st) as H.
  destruct (complete_group _ _ _ _ _) as [[o a'] st'].
  destruct H as (Hp & Hi & Hw & _ & Hc & _ & Ha & _). cbn [length] in C. unfold saturating_sub in Hc.
  split; rewrite ?Hp, ?Ha; try done.
  - lia.
  - lia.
  - intros i [Hin Hni]%Hi. apply F in Hin as (g' & Hg' & Hr). exists g'. split; [|done].
    apply elem_of_cons in Hg' as [->|?]; [|done]. exfalso. by apply Hni, elem_of_range_list.
  - intros i ws. rewrite Hw. case_decide as Hd; [done|]. rewrite Hi. intros [?|?]%W; tauto.
Qed.

(** The completion of a group returns its slot; the state exists, and the
    invariant holds before a drained state is dropped. *)
Lemma sched_inv_complete c g gs scheds result :
  sched_inv (tileset_states c) (g :: gs) scheds ->
  exists st, tileset_states c !! g_tileset g = Some st /\
    let '(_, answers', st') := complete_group (co_closed c) (g_range g) result (co_answers c) st in
    let states' := <[g_tileset g := st']> (tileset_states c) in
    sched_inv states' gs scheds /\
    complete_dispatched_group (g_tileset g) (g_range g) result c =
      with_states (remove_drainable_state states' (g_tileset g)).2 answers' c.
Proof.
  intros H. unfold complete_dispatched_group. pose proof (H (g_tileset g)) as Hg.
  pose proof (of_tileset_cons_eq g gs) as Hof.
  destruct (tileset_states c !! g_tileset g) as [st|] eqn:Hst;
    [|destruct Hg as [Hg _]; rewrite Hof in Hg; done].
  exists st. split; [done|]. destruct Hg as (H1 & H2 & H3 & H4). rewrite Hof in H1.
  pose proof (complete_state_inv _ _ _ _ (co_closed c) result (co_answers c) H1) as Hinv.
  pose proof (complete_group_spec (co_closed c) (g_range g) result (co_answers c) st) as Hspec.
  destruct (complete_group _ _ _ _ _) as [[o a'] st'].
  destruct Hspec as (Hp & _ & _ & Hr & Hc & Hcap & _). split; [|done].
  intros t. destruct (decide (t = g_tileset g)) as [->|Hne].
  - rewrite lookup_insert_eq. cbn. rewrite Hp, Hr. split_and!; try done. intros Hin. left. rewrite Hcap.
    destruct (H4 Hin) as [->|[Hfull Hne]]; [done|].
    rewrite (proj2 (Z.leb_le _ _)), bool_decide_eq_true_2 by done. apply orb_true_r.
  - rewrite lookup_insert_ne by done. eapply tileset_inv_other; [|done|apply H].
    by rewrite of_tileset_cons_ne.
Qed.

Lemma default_state_inv t gs scheds ost :
  tileset_inv gs scheds t ost ->
  let st := set_archive_len (Z.max (fs_archive_len (default TilesetFetchState_default ost))
              (len (archive_of t))) (default TilesetFetchState_default ost) in
  state_inv t st (of_tileset t gs).
Proof.
  destruct ost as [st|]; cbn.
  - intros ([] & _). split; cbn; try done. lia.
  - intros [-> _]. split; cbn; try done. unfold len. lia.
Qed.

Lemma enqueue_state_inv t st gs required joined st' :
  state_inv t st gs -> (forall i, i ∈ required -> chunk_in t i) ->
  enqueue_spec required st joined st' -> state_inv t st' gs.
Proof.
  intros [C B F W P A] Hreq [E1 E2 E3 E4 E5 E6 E7 _]. split; try congruence.
  - rewrite E1. apply F.
  - intros i ws Hws. rewrite E6, E1. destruct (E7 i) as [[ws' Hold]|Hin]; [by eexists| |].
    + destruct (W i ws' Hold); tauto.
    + destruct (decide (i ∈ inflight_chunks st)); tauto.
  - intros i [?|[? _]]%E6; auto.
Qed.

(** Readers enqueue: a scheduler runs afterwards whenever chunks are pending. *)
Lemma sched_inv_enqueue c t required now gs :
  (forall i, i ∈ required -> chunk_in t i) ->
  sched_inv (tileset_states c) gs (co_schedulers c) ->
  let c' := (fetch_chunks_enqueue t required (len (archive_of t)) now c).2 in
  sched_inv (tileset_states c') gs (co_schedulers c').
Proof.
  intros Hreq H. cbn zeta. unfold fetch_chunks_enqueue.
  pose proof (default_state_inv t gs (co_schedulers c) _ (H t)) as Hst0.
  set (st0 := default TilesetFetchState_default (tileset_states c !! t)) in *.
  set (st1 := set_archive_len _ st0) in *.
  pose proof (enqueue_chunks_spec required now (co_next c) st1) as Henq.
  destruct (enqueue_chunks required now (co_next c) st1) as [joined st2]. destruct Henq as [Henq _].
  pose proof (enqueue_state_inv _ _ _ _ _ _ Hst0 Hreq Henq) as Hst2. destruct Henq as [E1 E2 E3 E4 E5 E6 E7 _].
  assert (Hold : length (tasks_of t (co_schedulers c)) = (if scheduler_running st0 then 1 else 0)%nat /\
    (pending_chunks st0 <> ∅ -> scheduler_running st0 = true) /\
    ((t, AwaitingCapacity) ∈ co_schedulers c -> capacity_available st0 = true \/
         (MAX_CONCURRENT_FETCHES_PER_TILESET <= inflight_fetch_count st0 /\ pending_chunks st0 <> ∅))).
  { specialize (H t). unfold st0. destruct (tileset_states c !! t) as [st|]; [apply H|]. cbn.
    destruct H as [_ Hnone]. rewrite Hnone. split_and!; try done. intros Hin. exfalso.
    assert (Hin' : (t, AwaitingCapacity) ∈ tasks_of t (co_schedulers c)) by by apply list_elem_of_filter.
    rewrite Hnone in Hin'. by apply not_elem_of_nil in Hin'. }
  destruct Hold as (Hnum & Hrun & Hcap).
  assert (Hpend : pending_chunks st0 <> ∅ -> pending_chunks st2 <> ∅).
  { intros Hne Heq. apply Hne, elem_of_equiv_empty_L. intros i Hi.
    assert (Hi2 : i ∈ pending_chunks st2) by (apply E6; by left). rewrite Heq in Hi2.
    by apply not_elem_of_empty in Hi2. }
  cbn in E2, E3, E4. destruct (negb (scheduler_running st2) && bool_decide (pending_chunks st2 <> ∅)) eqn:Hstart;
    cbn [snd tileset_states co_schedulers]; intros t'; destruct (decide (t' = t)) as [->|Hne].
  - apply andb_prop in Hstart as [Hnr Hp]. apply negb_true_iff in Hnr. apply bool_decide_eq_true in Hp.
    rewrite lookup_insert_eq. unfold tileset_inv.
    cbn [set_scheduler_running scheduler_running pending_chunks inflight_fetch_count capacity_available].
    rewrite tasks_of_cons_eq. rewrite E2 in Hnr. rewrite Hnr in Hnum.
    split_and!; [by destruct Hst2; split|cbn [length]; by rewrite Hnum|done|]. intros Hin.
    rewrite E3, E4. destruct Hcap as [?|[? ?]]; [|by left|right; auto].
    apply elem_of_cons in Hin as [[= Hph]|Hin]; [|done]. by destruct (is_idle st0 && _).
  - rewrite lookup_insert_ne by done. eapply tileset_inv_other; [done| |apply H]. by apply tasks_of_cons_ne.
  - rewrite lookup_insert_eq. unfold tileset_inv. rewrite E2, E3, E4. split_and!; [done|done| |].
    + intros Hp. apply andb_false_iff in Hstart as [Hs|Hs].
      * apply negb_false_iff in Hs. by rewrite E2 in Hs.
      * by apply bool_decide_eq_false in Hs.
    + intros Hin. destruct (Hcap Hin) as [?|[? ?]]; [by left|right; auto].
  - rewrite lookup_insert_ne by done. apply H.
Qed.

Definition mk_group (t : string) (n : Z) (range : Z * Z) : Group :=
  {| g_tileset := t; g_range := range; g_archive_len := n |}.

Lemma prune_state_inv t st gs closed :
  state_inv t st gs -> state_inv t (prune_cancelled_waiters closed st).2 gs.
Proof.
  intros [C B F W P A]. split; cbn; try done.
  - intros i ws. rewrite lookup_omap_Some. intros (ws0 & Hlive & Hws0).
    destruct (W i ws0 Hws0); [left|by right]. apply elem_of_filter. split; [|done].
    rewrite lookup_omap, Hws0. cbn. by rewrite Hlive.
  - intros i [_ Hi]%elem_of_filter. auto.
Qed.

Lemma elem_of_group_chunks groups i :
  i ∈ group_chunks groups <-> exists r, r ∈ groups /\ r.1 <= i < r.2.
Proof.
  unfold group_chunks. rewrite list_elem_of_bind. split.
  - intros ([a b] & Hi & Hr). exists (a, b). by rewrite elem_of_range_list in Hi.
  - intros ([a b] & Hr & Hi). exists (a, b). by rewrite elem_of_range_list.
Qed.

(** What a dispatch decision means for the state. *)
Lemma select_spec t st gs max_fetch_chunks now :
  state_inv t st gs ->
  match select_dispatch_groups max_fetch_chunks now st with
  | (Idle, st') => pending_chunks st = ∅ /\ st' = set_scheduler_running false st
  | (Throttled, st') => st' = st /\ pending_chunks st <> ∅ /\
      MAX_CONCURRENT_FETCHES_PER_TILESET <= inflight_fetch_count st
  | (Dispatch groups n _ _, st') =>
      state_inv t st' ((mk_group t n <$> groups) ++ gs) /\ n = len (archive_of t) /\
      Forall (fun r => 0 <= r.1) groups /\
      scheduler_running st' = scheduler_running st /\ waiters st' = waiters st /\
      (size (pending_chunks st') < size (pending_chunks st))%nat /\
      (forall i, i ∈ pending_chunks st -> i ∈ pending_chunks st' \/ i ∈ inflight_chunks st') /\
      (forall i, i ∈ inflight_chunks st -> i ∈ inflight_chunks st')
  end.
Proof.
  intros [C B F W P A]. unfold select_dispatch_groups. case_decide as Hp; [done|].
  destruct (Z.leb_spec MAX_CONCURRENT_FETCHES_PER_TILESET (inflight_fetch_count st)) as [Hfull|Hfree]; [done|].
  destruct (contiguous_ranges_spec (pending_chunks st) max_fetch_chunks) as (Hpl & _ & Hcover).
  { intros i Hi. by apply (chunk_in_u64 t), P. }
  set (ranges := contiguous_chunk_ranges (pending_chunks st) max_fetch_chunks MAX_CHUNK_GAP) in *.
  set (groups := take (Z.to_nat (MAX_CONCURRENT_FETCHES_PER_TILESET - inflight_fetch_count st)) ranges).
  assert (Hsub : forall r, r ∈ groups -> r ∈ ranges)
    by (intros r (k & Hk & _)%elem_of_take; by apply list_elem_of_lookup_2 in Hk).
  assert (Hnum : (length groups <= Z.to_nat (MAX_CONCURRENT_FETCHES_PER_TILESET - inflight_fetch_count st))%nat)
    by (unfold groups; rewrite length_take; lia).
  destruct groups as [|r0 groups'] eqn:Hgroups.
  { exfalso. apply set_choose_L in Hp as [i Hi]. destruct (Hcover i Hi) as (r & Hr & _).
    unfold groups in Hgroups. apply (f_equal length) in Hgroups. rewrite length_take in Hgroups. cbn in Hgroups.
    destruct ranges; [by apply not_elem_of_nil in Hr|]. cbn in Hgroups. lia. }
  rewrite <- Hgroups in *. clearbody groups. rewrite Forall_forall in Hpl.
  assert (Hr0 : r0 ∈ groups) by (rewrite Hgroups; left).
  assert (Hstart : r0.1 ∈ pending_chunks st /\ r0.1 ∈ group_chunks groups).
  { destruct (Hpl r0 (Hsub _ Hr0)) as [H1 H2 H3 _]. split; [done|]. apply elem_of_group_chunks. exists r0.
    split; [done|lia]. }
  split_and!; cbn; try done.
  - split; cbn; try done.
    + rewrite length_app, length_fmap. lia.
    + lia.
    + intros i. rewrite elem_of_union, elem_of_list_to_set, elem_of_group_chunks.
      intros [(g & Hg & Hi)%F|(r & Hr & Hi)].
      * exists g. split; [|done]. apply elem_of_app. by right.
      * exists (mk_group t (fs_archive_len st) r). split; [|done]. apply elem_of_app. left.
        apply list_elem_of_fmap. eauto.
    + intros i ws Hws. rewrite elem_of_difference, elem_of_union, elem_of_list_to_set.
      destruct (W i ws Hws); [|tauto]. destruct (decide (i ∈ group_chunks groups)); tauto.
    + intros i [Hi _]%elem_of_difference. auto.
  - apply Forall_forall. intros r Hr. destruct (Hpl r (Hsub _ Hr)) as [H1 _ _ _].
    apply P in H1. unfold chunk_in in H1. lia.
  - apply subset_size. split; [intros i Hi; by apply elem_of_difference in Hi as [? _]|]. intros Hsubs.
    destruct Hstart as [Hs1 Hs2]. apply Hsubs in Hs1. apply elem_of_difference in Hs1 as [_ Hn].
    by apply Hn, elem_of_list_to_set.
  - intros i Hi. rewrite elem_of_difference, elem_of_union, elem_of_list_to_set.
    destruct (decide (i ∈ group_chunks groups)); tauto.
  - intros i Hi. apply elem_of_union. by left.
Qed.

(** The groups a scheduler has selected and not handed out yet. *)
Definition phase_groups (s : string * SchedulerPhase) : list Group :=
  match s.2 with Dispatching groups n => mk_group s.1 n <$> groups | _ => [] end.

Lemma of_tileset_mk_ne t t' n groups : t' <> t -> of_tileset t (mk_group t' n <$> groups) = [].
Proof.
  intros Hne. induction groups as [|r groups IH]; [done|].
  rewrite fmap_cons, of_tileset_cons_ne by done. apply IH.
Qed.

Lemma of_tileset_mk t n groups : of_tileset t (mk_group t n <$> groups) = mk_group t n <$> groups.
Proof.
  induction groups as [|r groups IH]; [done|].
  rewrite fmap_cons. change t with (g_tileset (mk_group t n r)) at 1. rewrite of_tileset_cons_eq.
  f_equal. apply IH.
Qed.

(** A pass of the scheduler; its new groups join the outstanding ones. *)
Lemma sched_inv_pass c max_fetch_chunks now l t l' gs phase c' :
  sched_inv (tileset_states c) gs (l ++ (t, Ready) :: l') ->
  scheduler_pass max_fetch_chunks now t c = (phase, c') ->
  sched_inv (tileset_states c')
    ((phase_list t phase ≫= phase_groups) ++ gs) (l ++ phase_list t phase ++ l').
Proof.
  intros H Hpass. destruct (only_scheduler _ _ _ _ _ _ H) as (st & Hst & Hrun & Hl & Hl').
  unfold scheduler_pass in Hpass. rewrite Hst in Hpass. pose proof (H t) as Ht. rewrite Hst in Ht.
  destruct Ht as (H1 & H2 & H3 & H4).
  pose proof (prune_state_inv _ _ _ (co_closed c) H1) as Hpr.
  destruct (prune_cancelled_waiters (co_closed c) st) as [n st1] eqn:Eprune. cbn [snd] in Hpr.
  assert (Hrun1 : scheduler_running st1 = true) by (by injection Eprune as _ <-).
  pose proof (select_spec t st1 _ max_fetch_chunks now Hpr) as Hsel.
  destruct (select_dispatch_groups max_fetch_chunks now st1) as [[| |groups m d k] st2];
    injection Hpass as <- <-; cbn [phase_list mbind list_bind app
      tileset_states with_states phase_groups snd fst].
  - destruct Hsel as [Hp ->]. apply sched_inv_remove. intros t'. destruct (decide (t' = t)) as [->|Hne].
    + rewrite lookup_insert_eq. unfold tileset_inv. rewrite tasks_of_app, Hl, Hl'.
      cbn [set_scheduler_running scheduler_running pending_chunks inflight_fetch_count capacity_available].
      split_and!; [by destruct Hpr; split|done|done|]. intros Hin. exfalso.
      assert (Hin' : (t, AwaitingCapacity) ∈ tasks_of t (l ++ l')) by by apply list_elem_of_filter.
      rewrite tasks_of_app, Hl, Hl' in Hin'. by apply not_elem_of_nil in Hin'.
    + rewrite lookup_insert_ne by done. eapply tileset_inv_other; [done| |apply H].
      by rewrite !tasks_of_app, tasks_of_cons_ne.
  - destruct Hsel as (-> & Hp & Hfull). intros t'. destruct (decide (t' = t)) as [->|Hne].
    + rewrite lookup_insert_eq. unfold tileset_inv. rewrite tasks_of_app, tasks_of_cons_eq, Hl, Hl', Hrun1.
      split_and!; try done. intros _. by right.
    + rewrite lookup_insert_ne by done. eapply tileset_inv_other; [done| |apply H].
      by rewrite !tasks_of_app, !tasks_of_cons_ne.
  - destruct Hsel as (Hst2 & -> & _ & Hr2 & _). intros t'. rewrite app_nil_r.
    destruct (decide (t' = t)) as [->|Hne].
    + rewrite lookup_insert_eq. unfold tileset_inv.
      rewrite tasks_of_app, tasks_of_cons_eq, Hl, Hl', Hr2, Hrun1, of_tileset_app, of_tileset_mk.
      split_and!; try done. intros Hin. exfalso.
      assert (Hin' : (t, AwaitingCapacity) ∈ tasks_of t (l ++ (t, Dispatching groups (len (archive_of t))) :: l'))
        by by apply list_elem_of_filter.
      rewrite tasks_of_app, tasks_of_cons_eq, Hl, Hl' in Hin'. by apply list_elem_of_singleton in Hin'.
    + rewrite lookup_insert_ne by done. eapply tileset_inv_other; [| |apply H].
      * by rewrite of_tileset_app, of_tileset_mk_ne.
      * by rewrite !tasks_of_app, !tasks_of_cons_ne.
Qed.

Lemma sched_inv_capacity states gs l t l' st :
  sched_inv states gs (l ++ (t, AwaitingCapacity) :: l') -> states !! t = Some st ->
  sched_inv (<[t := take_notification st]> states) gs (l ++ (t, Ready) :: l').
Proof.
  intros H Hst. destruct (only_scheduler _ _ _ _ _ _ H) as (st' & Hst' & Hrun & Hl & Hl').
  rewrite Hst in Hst'. injection Hst' as <-. intros t'. destruct (decide (t' = t)) as [->|Hne].
  - rewrite lookup_insert_eq. unfold tileset_inv. rewrite tasks_of_app, tasks_of_cons_eq, Hl, Hl'.
    cbn [take_notification scheduler_running pending_chunks inflight_fetch_count capacity_available].
    specialize (H t). rewrite Hst in H. destruct H as (H1 & _ & H3 & _).
    rewrite Hrun. split_and!; [by destruct H1; split|done|done|]. intros Hin. exfalso.
    assert (Hin' : (t, AwaitingCapacity) ∈ tasks_of t (l ++ (t, Ready) :: l')) by by apply list_elem_of_filter.
    rewrite tasks_of_app, tasks_of_cons_eq, Hl, Hl' in Hin'. by apply list_elem_of_singleton in Hin'.
  - rewrite lookup_insert_ne by done. eapply tileset_inv_other; [done| |apply H].
    by rewrite !tasks_of_app, !tasks_of_cons_ne.
Qed.

(** ** Waiters *)

Definition registered_in (states : gmap string TilesetFetchState) (t : string) (i : Z) (w : nat) : Prop :=
  exists st, states !! t = Some st /\ registered st i w.

(** A drained state has no waiters, so dropping it strands none. *)
Lemma drained_no_waiters t st gs : state_inv t st gs -> is_drainable st = true -> waiters st = ∅.
Proof.
  intros [C _ F W _ _] (_ & Hp & Hc)%is_drainable_true.
  apply map_empty. intros i. destruct (waiters st !! i) as [ws|] eqn:Hws; [|done]. exfalso.
  rewrite Hc in C. assert (gs = []) as -> by (apply nil_length_inv; lia).
  destruct (W i ws Hws) as [Hi|Hi].
  - rewrite Hp in Hi. by apply not_elem_of_empty in Hi.
  - apply F in Hi as (g & Hg & _). by apply not_elem_of_nil in Hg.
Qed.

Lemma registered_remove states t st gs t' i w :
  state_inv t st gs ->
  registered_in (remove_drainable_state (<[t := st]> states) t).2 t' i w <->
  registered_in (<[t := st]> states) t' i w.
Proof.
  intros H. unfold remove_drainable_state. rewrite lookup_insert_eq.
  destruct (is_drainable st) eqn:Hd; [|done]. cbn. unfold registered_in.
  destruct (decide (t' = t)) as [->|Hne]; [|by rewrite lookup_delete_ne].
  rewrite lookup_delete_eq, lookup_insert_eq. split; [by intros (? & ? & _)|].
  intros (st' & [= <-] & ws & Hws & _).
  by rewrite (drained_no_waiters _ _ _ H Hd), lookup_empty in Hws.
Qed.

Lemma registered_insert states t st t' i w :
  registered_in (<[t := st]> states) t' i w <->
  (t' = t /\ registered st i w) \/ (t' <> t /\ registered_in states t' i w).
Proof.
  unfold registered_in. destruct (decide (t' = t)) as [->|Hne].
  - rewrite lookup_insert_eq. split; [intros (? & [= <-] & ?); by left|].
    intros [[_ ?]|[? _]]; [by eexists|done].
  - rewrite lookup_insert_ne by done. split; [by right|]. intros [[? _]|[_ ?]]; done.
Qed.

(** Pruning keeps every open receiver registered. *)
Lemma registered_prune closed st i w :
  registered (prune_cancelled_waiters closed st).2 i w <-> registered st i w /\ (w ∉ closed).
Proof.
  unfold registered. cbn. setoid_rewrite lookup_omap_Some. unfold live_waiters. split.
  - intros (ws' & (ws & Hlive & Hws) & Hw). destruct (filter _ ws) as [|x l] eqn:Hf; [done|].
    injection Hlive as <-. rewrite <- Hf in Hw. apply list_elem_of_filter in Hw as [? ?]. eauto.
  - intros ((ws & Hws & Hw) & Hcl).
    assert (Hin : w ∈ filter (fun w => w ∉ closed) ws) by by apply list_elem_of_filter.
    destruct (filter _ ws) as [|x l] eqn:Hf; [by apply not_elem_of_nil in Hin|].
    exists (x :: l). split; [|done]. exists ws. by rewrite Hf.
Qed.

Record waiter_inv (c : Coordinator) : Prop := {
  wi_registered : forall t i w, registered_in (tileset_states c) t i w -> co_requests c !! w = Some (t, i);
  wi_waiting : forall w t i, co_requests c !! w = Some (t, i) ->
    w ∈ co_closed c \/ is_Some (co_answers c !! w) \/ registered_in (tileset_states c) t i w;
  wi_fresh : forall w x, co_requests c !! w = Some x -> (w < co_next c)%nat;
}.

(** A step that leaves the requests alone, and every waiter registered, answered
    or closed. *)
Lemma waiter_inv_step c c' :
  co_requests c' = co_requests c -> co_next c' = co_next c ->
  (forall w, w ∈ co_closed c -> w ∈ co_closed c') ->
  (forall w, is_Some (co_answers c !! w) -> is_Some (co_answers c' !! w)) ->
  (forall t i w, registered_in (tileset_states c') t i w -> registered_in (tileset_states c) t i w) ->
  (forall t i w, registered_in (tileset_states c) t i w ->
     w ∈ co_closed c' \/ is_Some (co_answers c' !! w) \/ registered_in (tileset_states c') t i w) ->
  waiter_inv c -> waiter_inv c'.
Proof.
  intros Hr Hn Hcl Ha Hreg Hreg' [R W F]. split; rewrite ?Hr, ?Hn; try done.
  - intros t i w Hin. by apply R, Hreg.
  - intros w t i Hw. destruct (W w t i Hw) as [?|[?|?]]; auto.
Qed.

Lemma waiter_inv_complete c g gs scheds result :
  sched_inv (tileset_states c) (g :: gs) scheds -> waiter_inv c ->
  waiter_inv (complete_dispatched_group (g_tileset g) (g_range g) result c).
Proof.
  intros H. destruct (sched_inv_complete c g gs scheds result H) as (st & Hst & Hc).
  pose proof (complete_group_spec (co_closed c) (g_range g) result (co_answers c) st) as Hspec.
  destruct (complete_group _ _ _ _ _) as [[o a'] st']. destruct Hc as [Hinv ->].
  specialize (Hinv (g_tileset g)). rewrite lookup_insert_eq in Hinv. destruct Hinv as [Hinv _].
  destruct Hspec as (_ & _ & Hw & _ & _ & _ & _ & Hkeep & Hans & _).
  apply waiter_inv_step; try done; cbn [tileset_states with_states co_answers co_closed].
  - intros t i w. rewrite (registered_remove _ _ _ _ _ _ _ Hinv), registered_insert.
    intros [[-> (ws & Hws & Hin)]|[_ ?]]; [|done]. rewrite Hw in Hws. case_decide; [done|].
    exists st. split; [done|]. by exists ws.
  - intros t i w Hreg. rewrite (registered_remove _ _ _ _ _ _ _ Hinv), registered_insert.
    destruct (decide (w ∈ co_closed c)) as [|Hcl]; [by left|right].
    destruct (decide (t = g_tileset g)) as [->|Hne]; [|by right; right].
    destruct Hreg as (st0 & Hst0 & ws & Hws & Hin). rewrite Hst in Hst0. injection Hst0 as <-.
    destruct (decide (i ∈ range_list (g_range g).1 (g_range g).2)) as [Hi|Hi].
    + left. apply (Hans w (chunk_result i result)). exists i, ws. by split_and!.
    + right. left. split; [done|]. exists ws. by rewrite Hw, decide_False.
Qed.

(** A pass drops only waiters whose receivers are closed. *)
Lemma waiter_inv_pass c max_fetch_chunks now l t l' gs phase c' :
  sched_inv (tileset_states c) gs (l ++ (t, Ready) :: l') ->
  scheduler_pass max_fetch_chunks now t c = (phase, c') -> waiter_inv c -> waiter_inv c'.
Proof.
  intros H Hpass. destruct (only_scheduler _ _ _ _ _ _ H) as (st & Hst & _).
  unfold scheduler_pass in Hpass. rewrite Hst in Hpass. specialize (H t). rewrite Hst in H.
  destruct H as (H1 & _). pose proof (prune_state_inv _ _ _ (co_closed c) H1) as Hpr.
  pose proof (registered_prune (co_closed c) st) as Hreg.
  destruct (prune_cancelled_waiters (co_closed c) st) as [n st1]. cbn [snd] in Hpr, Hreg.
  pose proof (select_spec t st1 _ max_fetch_chunks now Hpr) as Hsel.
  assert (Hstep : forall st2 states', waiters st2 = waiters st1 ->
    (forall t' i w, registered_in states' t' i w <-> registered_in (<[t := st2]> (tileset_states c)) t' i w) ->
    waiter_inv c -> waiter_inv (with_states states' (co_answers c) c)).
  { intros st2 states' Hws Hst'. apply waiter_inv_step; try done; cbn [tileset_states with_states co_answers co_closed].
    all: assert (Hr2 : forall i w, registered st2 i w <-> registered st1 i w)
      by (intros; unfold registered; by rewrite Hws).
    - intros t' i w. rewrite Hst', registered_insert, Hr2, Hreg.
      intros [[-> [? _]]|[_ ?]]; [|done]. by exists st.
    - intros t' i w Hr. rewrite Hst', registered_insert, Hr2, Hreg.
      destruct (decide (w ∈ co_closed c)) as [|Hcl]; [by left|right; right].
      destruct (decide (t' = t)) as [->|Hne]; [left|by right].
      destruct Hr as (st0 & Hst0 & ?). rewrite Hst in Hst0. by injection Hst0 as <-. }
  destruct (select_dispatch_groups max_fetch_chunks now st1) as [[| |groups m d k] st2]; injection Hpass as _ <-.
  - destruct Hsel as [Hp ->]. apply (Hstep (set_scheduler_running false st1)); [done|].
    intros. eapply registered_remove. by destruct Hpr; split.
  - destruct Hsel as (-> & _). by apply (Hstep st1).
  - apply (Hstep st2); [apply Hsel|done].
Qed.

(** The requests recorded for a batch of receivers. *)
Lemma record_requests t enqueued (m : gmap nat (string * Z)) :
  NoDup (receivers enqueued).*2 ->
  forall w x, foldl (fun m e => <[ec_receiver e := (t, ec_chunk_index e)]> m) m enqueued !! w = Some x <->
    (exists i, (i, w) ∈ receivers enqueued /\ x = (t, i)) \/
    ((w ∉ (receivers enqueued).*2) /\ m !! w = Some x).
Proof.
  revert m. induction enqueued as [|e enqueued IH]; intros m Hnd w x; cbn.
  { split; [right; split; [apply not_elem_of_nil|done]|].
    intros [(i & []%not_elem_of_nil & _)|[_ ?]]; done. }
  apply NoDup_cons in Hnd as [Hni Hnd]. rewrite IH by done. clear IH. unfold receivers. cbn [fmap list_fmap].
  rewrite !elem_of_cons. cbn. split.
  - intros [(i & Hi & ->)|[Hn Hx]]; [left; exists i; split; [by right|done]|].
    destruct (decide (w = ec_receiver e)) as [->|Hne].
    + rewrite lookup_insert_eq in Hx. injection Hx as <-. left. eexists. split; [by left|done].
    + rewrite lookup_insert_ne in Hx by done. right. split; [|done]. by intros [?|?].
  - intros [(i & [[= -> ->]|Hi]%elem_of_cons & ->)|[Hn Hx]].
    + right. split; [done|]. by rewrite lookup_insert_eq.
    + left. eauto.
    + right. split; [tauto|]. rewrite lookup_insert_ne; [done|]. intros Heq. apply Hn. by left.
Qed.

Lemma waiter_inv_enqueue c t required n now :
  waiter_inv c -> waiter_inv (fetch_chunks_enqueue t required n now c).2.
Proof.
  intros [R W F]. unfold fetch_chunks_enqueue.
  set (st0 := default TilesetFetchState_default (tileset_states c !! t)).
  set (st1 := set_archive_len _ st0).
  pose proof (enqueue_chunks_spec required now (co_next c) st1) as Henq.
  destruct (enqueue_chunks required now (co_next c) st1) as [joined st2]. destruct Henq as [[_ _ _ _ _ _ _ E] Hrec].
  assert (Hsnd : (receivers joined).*2 = seq (co_next c) (length required))
    by (rewrite Hrec; apply snd_zip; by rewrite length_seq).
  assert (Hnew : forall i w, (i, w) ∈ receivers joined -> (co_next c <= w < co_next c + length required)%nat).
  { intros i w Hin. apply elem_of_seq. rewrite <- Hsnd. apply list_elem_of_fmap. by exists (i, w). }
  assert (Hreq := record_requests t joined (co_requests c)).
  rewrite Hsnd in Hreq. specialize (Hreq (NoDup_seq _ _)).
  assert (Hreg0 : forall i w, registered st1 i w <-> registered_in (tileset_states c) t i w).
  { intros i w. unfold registered_in, st1, st0. destruct (tileset_states c !! t) as [st|]; cbn.
    - split; [intros; by exists st|]. by intros (? & [= <-] & ?).
    - split; [by intros (? & ? & _)|]. by intros (? & ? & _). }
  assert (Hreg : forall t' i w, registered_in
    (<[t := if negb (scheduler_running st2) && bool_decide (pending_chunks st2 <> ∅)
            then set_scheduler_running true st2 else st2]> (tileset_states c)) t' i w <->
    registered_in (tileset_states c) t' i w \/ (t' = t /\ (i, w) ∈ receivers joined)).
  { intros t' i w. rewrite registered_insert. set (st3 := if _ : bool then _ else st2).
    assert (H3 : registered st3 i w <-> registered st2 i w) by (unfold st3; by case_match).
    rewrite H3, E, Hreg0. destruct (decide (t' = t)) as [->|]; tauto. }
  split; cbn [snd tileset_states co_requests co_answers co_closed co_next].
  - intros t' i w [Hold|[-> Hin]]%Hreg; apply Hreq.
    + apply R in Hold. right. split; [|done]. rewrite elem_of_seq. apply F in Hold. lia.
    + left. eauto.
  - intros w t' i [(j & Hj & [= -> ->])|[_ Hw]]%Hreq.
    + right. right. apply Hreg. by right.
    + destruct (W w t' i Hw) as [?|[?|?]]; [by left|by right; left|right; right]. apply Hreg. by left.
  - intros w x [(j & Hj%Hnew & _)|[_ Hw]]%Hreq; [lia|]. apply F in Hw. lia.
Qed.
End Scheduling.

(** ** Invariants of the runs *)

Section Runs.
Context {Store : Type} (encode : string -> string).
Context (sources : NamespacedEntries (TilesetSource Store)) (chunk_size max_fetch_chunks : Z).
Context (archive_of : string -> bytes) (limit : Z).
Context (Hsize : 0 < chunk_size) (Hlen : forall t, len (archive_of t) <= u64_max).
Abbreviation step := (coord_step encode sources chunk_size max_fetch_chunks archive_of).

(** Every group that was selected and has not completed. *)
Definition outstanding (c : Coordinator) : list Group :=
  (co_schedulers c ≫= phase_groups) ++ (co_tasks c).*1 ++ (co_completions c).*1.

Definition group_ok (g : Group) : Prop :=
  0 <= (g_range g).1 /\ g_archive_len g = len (archive_of (g_tileset g)).

(** A successful result has the archive's chunk for every index of the group. *)
Definition result_ok (g : Group) (r : FetchResult (gmap Z bytes)) : Prop :=
  match r with
  | inl m => forall i, (g_range g).1 <= i < (g_range g).2 ->
      m !! i = Some (archive_chunk chunk_size (archive_of (g_tileset g)) i)
  | inr _ => True
  end.

Record content_inv (c : Coordinator) : Prop := {
  ct_groups : forall g, g ∈ outstanding c -> group_ok g;
  ct_tasks : forall g r, (g, Completing r) ∈ co_tasks c -> result_ok g r;
  ct_completions : forall g r, (g, r) ∈ co_completions c -> result_ok g r;
  ct_cache : forall t i b, co_cache c !! (t, i) = Some b -> b = archive_chunk chunk_size (archive_of t) i;
  ct_answers : forall w b, co_answers c !! w = Some (inl b) ->
    exists t i, co_requests c !! w = Some (t, i) /\ b = archive_chunk chunk_size (archive_of t) i;
}.

(** The permits are with the semaphore, the group tasks and the exact reads. *)
Definition permit_inv (c : Coordinator) : Prop :=
  backend_group_permits c + Z.of_nat (length (co_tasks c)) + co_exact_reads c = Z.max limit 1 /\
  0 <= backend_group_permits c /\ 0 <= co_exact_reads c.

Record coord_inv (c : Coordinator) : Prop := {
  inv_sched : sched_inv chunk_size archive_of (tileset_states c) (outstanding c) (co_schedulers c);
  inv_waiters : waiter_inv c;
  inv_content : content_inv c;
  inv_permits : permit_inv c;
}.

Lemma bind_phase (l : list (string * SchedulerPhase)) t p l' :
  (l ++ (t, p) :: l') ≫= phase_groups =
  (l ≫= phase_groups) ++ phase_groups (t, p) ++ (l' ≫= phase_groups).
Proof. by rewrite bind_app, bind_cons. Qed.

Lemma perm_front {A} (a b d e : list A) x : a ++ (b ++ x :: d) ++ e ≡ₚ x :: a ++ (b ++ d) ++ e.
Proof. rewrite <- (Permutation_middle b d x). cbn. by rewrite <- Permutation_middle. Qed.

(** Moving one group to the front of the outstanding ones. *)
Lemma outstanding_task c l g task l' :
  co_tasks c = l ++ (g, task) :: l' ->
  outstanding c ≡ₚ g :: (co_schedulers c ≫= phase_groups) ++ (l ++ l').*1 ++ (co_completions c).*1.
Proof.
  intros H. unfold outstanding. rewrite H, !fmap_app, fmap_cons. apply perm_front.
Qed.

Lemma outstanding_completion c l g result l' :
  co_completions c = l ++ (g, result) :: l' ->
  outstanding c ≡ₚ g :: (co_schedulers c ≫= phase_groups) ++ (co_tasks c).*1 ++ (l ++ l').*1.
Proof.
  intros H. unfold outstanding. rewrite H, !fmap_app, fmap_cons.
  pose proof (perm_front ((co_schedulers c ≫= phase_groups) ++ (co_tasks c).*1) l.*1 l'.*1 [] g) as Hp.
  by rewrite !app_nil_r, <- !app_assoc in Hp.
Qed.

Lemma outstanding_dropped c l g task l' result :
  co_tasks c = l ++ (g, task) :: l' ->
  outstanding (with_tasks (backend_group_permits c + 1) (co_schedulers c) (l ++ l')
    ((g, result) :: co_completions c) c) ≡ₚ outstanding c.
Proof.
  intros H. rewrite (outstanding_task _ _ _ _ _ H). unfold outstanding. cbn.
  by rewrite !(app_assoc (_ ≫= _)), Permutation_middle.
Qed.

Lemma outstanding_dispatch c l t range groups n l' :
  co_schedulers c = l ++ (t, Dispatching (range :: groups) n) :: l' ->
  outstanding c ≡ₚ mk_group t n range ::
    ((l ++ (t, Dispatching groups n) :: l') ≫= phase_groups) ++ (co_tasks c).*1 ++ (co_completions c).*1.
Proof.
  intros H. unfold outstanding. rewrite H, !bind_phase. cbn. apply (perm_front []).
Qed.

(** What the completion of a group leaves alone. *)
Lemma complete_frame t range result c :
  let c' := complete_dispatched_group t range result c in
  backend_group_permits c' = backend_group_permits c /\ co_cache c' = co_cache c /\
  co_requests c' = co_requests c /\ co_schedulers c' = co_schedulers c /\
  co_tasks c' = co_tasks c /\ co_completions c' = co_completions c /\
  co_exact_reads c' = co_exact_reads c /\ co_next c' = co_next c /\ co_closed c' = co_closed c.
Proof.
  cbn. unfold complete_dispatched_group. destruct (tileset_states c !! t) as [st|]; [|done].
  by destruct (complete_group _ _ _ _ _) as [[o a'] st'].
Qed.

Lemma sched_inv_completed c g gs scheds result :
  sched_inv chunk_size archive_of (tileset_states c) (g :: gs) scheds ->
  sched_inv chunk_size archive_of
    (tileset_states (complete_dispatched_group (g_tileset g) (g_range g) result c)) gs scheds.
Proof.
  intros H. destruct (sched_inv_complete _ _ c g gs scheds result H) as (st & Hst & Hc).
  destruct (complete_group _ _ _ _ _) as [[o a'] st']. destruct Hc as [Hinv ->].
  cbn [tileset_states with_states]. by apply sched_inv_remove.
Qed.

Lemma scheduler_pass_frame now t c phase c' :
  scheduler_pass max_fetch_chunks now t c = (phase, c') ->
  exists states, c' = with_states states (co_answers c) c.
Proof.
  unfold scheduler_pass. destruct (tileset_states c !! t) as [st|].
  - destruct (prune_cancelled_waiters (co_closed c) st) as [n st1].
    destruct (select_dispatch_groups max_fetch_chunks now st1) as [[| |? ? ? ?] st2]; intros [= _ <-]; eauto.
  - intros [= _ <-]. exists (tileset_states c). by destruct c.
Qed.

(** The scheduling part of the invariant at every step. *)
Lemma step_sched c c' :
  coord_inv c -> step c c' ->
  sched_inv chunk_size archive_of (tileset_states c') (outstanding c') (co_schedulers c').
Proof.
  intros Hinv Hstep. pose proof (inv_sched _ Hinv) as H. destruct Hstep as
    [c t required now Hreq|c l t l' Hs|c l t l' now phase c' Hs Hpass|c l t l' st Hs Hst Hcap
    |c l t range groups n l' Hs|c l t n l' Hs|c l g l' ad gr result counters cache Ht Hserve Hres
    |c l g result l' Ht|c l g task l' Ht|c l g result l' Hc|c w|c Hp|c Hp|c k].
  - pose proof (sched_inv_enqueue chunk_size archive_of c t required now (outstanding c) Hreq H) as H'.
    eapply sched_inv_perm; [|exact H']. clear. unfold outstanding, fetch_chunks_enqueue.
    destruct (enqueue_chunks _ _ _ _) as [joined st2]. cbn. by repeat case_match.
  - rewrite Hs in H. unfold outstanding, with_schedulers in *. cbn. rewrite Hs, bind_phase in H.
    rewrite bind_phase. by apply (sched_inv_phase _ _ _ _ _ _ Sleeping).
  - rewrite Hs in H. eapply sched_inv_pass in H; [|done|done|exact Hpass].
    apply scheduler_pass_frame in Hpass as [states ->]. cbn in *.
    eapply sched_inv_perm; [|exact H]. unfold outstanding. cbn. rewrite Hs, bind_phase, !bind_app.
    cbn. rewrite !app_assoc. do 3 f_equiv. by rewrite Permutation_app_comm.
  - rewrite Hs in H. unfold outstanding in *. cbn. rewrite Hs, bind_phase in H. rewrite bind_phase.
    by apply sched_inv_capacity.
  - pose proof (outstanding_dispatch c l t range groups n l' Hs) as Hperm.
    eapply sched_inv_perm in H; [|exact Hperm]. rewrite Hs in H.
    apply (sched_inv_phase _ _ _ _ _ _ _ (Dispatching groups n)) in H; [|done].
    unfold dispatch_group. cbn [backend_group_permits with_schedulers with_tasks]. case_match.
    + eapply sched_inv_perm; [|exact H]. unfold outstanding. cbn. by rewrite Permutation_middle.
    + set (c0 := with_schedulers _ c).
      pose proof (sched_inv_completed c0 (mk_group t n range) _ _
        (inr (Overloaded "backend fetch group limit reached")) H) as H'.
      destruct (complete_frame t range (inr (Overloaded "backend fetch group limit reached")) c0)
        as (_ & _ & _ & E1 & E2 & E3 & _). unfold outstanding. cbn [g_tileset g_range] in *.
      rewrite E1, E2, E3. exact H'.
  - rewrite Hs in H. unfold outstanding in *. cbn. rewrite Hs, bind_phase in H. rewrite bind_phase.
    by apply (sched_inv_phase _ _ _ _ _ _ (Dispatching [] n)).
  - unfold outstanding in *. cbn. rewrite Ht, fmap_app, fmap_cons in H. by rewrite fmap_app, fmap_cons.
  - pose proof (outstanding_task c l g _ l' Ht) as Hperm. eapply sched_inv_perm in H; [|exact Hperm].
    by apply (sched_inv_completed c g _ _ result) in H.
  - eapply sched_inv_perm; [|exact H]. symmetry. by eapply outstanding_dropped.
  - pose proof (outstanding_completion c l g _ l' Hc) as Hperm. eapply sched_inv_perm in H; [|exact Hperm].
    by apply (sched_inv_completed c g _ _ result) in H.
  - exact H.
  - exact H.
  - exact H.
  - exact H.
Qed.

(** The waiters at every step. *)
Lemma step_waiters c c' : coord_inv c -> step c c' -> waiter_inv c'.
Proof.
  intros Hinv Hstep. pose proof (inv_waiters _ Hinv) as Hw. pose proof (inv_sched _ Hinv) as H.
  assert (Hsame : forall c', co_requests c' = co_requests c -> co_next c' = co_next c ->
    (forall w, w ∈ co_closed c -> w ∈ co_closed c') -> co_answers c' = co_answers c ->
    tileset_states c' = tileset_states c -> waiter_inv c').
  { intros c'' E1 E2 E3 E4 E5. eapply waiter_inv_step; [..|exact Hw]; rewrite ?E4, ?E5; auto. }
  destruct Hstep as
    [c t required now Hreq|c l t l' Hs|c l t l' now phase c' Hs Hpass|c l t l' st Hs Hst Hcap
    |c l t range groups n l' Hs|c l t n l' Hs|c l g l' ad gr result counters cache Ht Hserve Hres
    |c l g result l' Ht|c l g task l' Ht|c l g result l' Hc|c w|c Hp|c Hp|c k];
    try (by apply Hsame).
  - by apply waiter_inv_enqueue.
  - rewrite Hs in H. eapply waiter_inv_pass in Hw; [|done|done|exact H|exact Hpass]. by destruct Hw.
  - eapply waiter_inv_step; [..|exact Hw]; try done; cbn [tileset_states with_schedulers with_tasks with_states].
    all: assert (Hreg : forall i w, registered (take_notification st) i w <-> registered st i w) by done.
    + intros t' i w. rewrite registered_insert, Hreg. intros [[-> ?]|[_ ?]]; [by exists st|done].
    + intros t' i w Hr. right. right. rewrite registered_insert, Hreg.
      destruct (decide (t' = t)) as [->|]; [left|by right]. destruct Hr as (st' & Hst' & ?).
      rewrite Hst in Hst'. by injection Hst' as <-.
  - pose proof (outstanding_dispatch c l t range groups n l' Hs) as Hperm.
    eapply sched_inv_perm in H; [|exact Hperm].
    unfold dispatch_group. cbn [backend_group_permits with_schedulers with_tasks]. case_match.
    + by apply Hsame.
    + eapply (waiter_inv_complete _ _ _ (mk_group t n range)); [exact H|]. by apply Hsame.
  - pose proof (outstanding_task c l g _ l' Ht) as Hperm. eapply sched_inv_perm in H; [|exact Hperm].
    pose proof (waiter_inv_complete _ _ c g _ _ result H Hw) as Hw'. by destruct Hw'.
  - pose proof (outstanding_completion c l g _ l' Hc) as Hperm. eapply sched_inv_perm in H; [|exact Hperm].
    pose proof (waiter_inv_complete _ _ c g _ _ result H Hw) as Hw'. by destruct Hw'.
  - apply Hsame; try done. intros w' ?. cbn. apply elem_of_union. by right.
Qed.

(** A group task returns the archive's chunks, and caches only those. *)
Lemma group_result_spec ad gr g counters cache result counters' cache' :
  group_ok g -> store_serves encode sources (archive_of (g_tileset g)) (g_tileset g) gr ->
  (forall t i b, cache !! (t, i) = Some b -> b = archive_chunk chunk_size (archive_of t) i) ->
  group_result encode sources chunk_size ad gr g counters cache = (Some result, counters', cache') ->
  result_ok g result /\
  (forall t i b, cache' !! (t, i) = Some b -> b = archive_chunk chunk_size (archive_of t) i).
Proof.
  intros [Hstart Hn] Hserve Hcache. unfold group_result. destruct (g_range g) as [start end_] eqn:Hr.
  cbn in Hstart. rewrite Hn. destruct (fetch_chunk_group _ _ _ _ _ _ _ _ _ _) as [rf cf] eqn:Hf.
  apply (fetch_chunk_group_spec _ _ _ (archive_of (g_tileset g))) in Hf as [Hnp Hbs]; [|done|lia|done].
  destruct rf as [bs|e|]; [|by intros [= <- <- <-]|done].
  destruct (cache_chunk_group _ _ _ _ _ _ _) as [rc cc] eqn:Hc.
  apply cache_chunk_group_spec in Hc; [|done|apply Hlen|done|by apply Hbs].
  destruct Hc as [(e & -> & ->)|(chunks & -> & Hch & Hcc)]; intros [= <- <- <-]; [done|]. split.
  - cbn. rewrite Hr. intros i Hi. rewrite Hch. by rewrite decide_True.
  - intros t i b. rewrite Hcc. cbn. case_decide as Hd; [|apply Hcache]. destruct Hd as [-> _]. by intros [= <-].
Qed.

(** The answers a completion sends. *)
Lemma complete_answers c g gs scheds result w b :
  sched_inv chunk_size archive_of (tileset_states c) (g :: gs) scheds -> waiter_inv c -> result_ok g result ->
  co_answers (complete_dispatched_group (g_tileset g) (g_range g) result c) !! w = Some (inl b) ->
  co_answers c !! w = Some (inl b) \/
  exists t i, co_requests c !! w = Some (t, i) /\ b = archive_chunk chunk_size (archive_of t) i.
Proof.
  intros H [R _ _] Hok. destruct (sched_inv_complete _ _ c g gs scheds result H) as (st & Hst & Hc).
  pose proof (complete_group_spec (co_closed c) (g_range g) result (co_answers c) st) as Hspec.
  destruct (complete_group _ _ _ _ _) as [[o a'] st']. destruct Hc as [_ ->]. cbn [co_answers with_states].
  destruct Hspec as (_ & _ & _ & _ & _ & _ & _ & _ & _ & Hans). intros [?|Hrel]%Hans; [by left|right].
  destruct Hrel as (i & ws & Hi%elem_of_range_list & Hws & Hw & _ & Hr).
  exists (g_tileset g), i. split; [apply R; exists st; split; [done|by exists ws]|].
  destruct result as [m|e]; [|done]. cbn in Hr, Hok. rewrite (Hok i Hi) in Hr. by injection Hr.
Qed.

(** The groups a pass selects belong to the archive. *)
Lemma pass_groups_ok c l t l' gs now phase c' g :
  sched_inv chunk_size archive_of (tileset_states c) gs (l ++ (t, Ready) :: l') ->
  scheduler_pass max_fetch_chunks now t c = (phase, c') ->
  g ∈ (phase_list t phase ≫= phase_groups) -> group_ok g.
Proof.
  intros H Hpass. destruct (only_scheduler _ _ _ _ _ _ _ _ H) as (st & Hst & _).
  unfold scheduler_pass in Hpass. rewrite Hst in Hpass. specialize (H t). rewrite Hst in H.
  destruct H as (H1 & _). pose proof (prune_state_inv _ _ _ _ _ (co_closed c) H1) as Hpr.
  destruct (prune_cancelled_waiters (co_closed c) st) as [n st1]. cbn [snd] in Hpr.
  pose proof (select_spec _ _ Hsize Hlen t st1 _ max_fetch_chunks now Hpr) as Hsel.
  destruct (select_dispatch_groups max_fetch_chunks now st1) as [[| |groups m d k] st2];
    injection Hpass as <- _; cbn; try by intros []%not_elem_of_nil.
  rewrite app_nil_r. intros (r & -> & Hr)%list_elem_of_fmap. destruct Hsel as (_ & -> & Hall & _).
  rewrite Forall_forall in Hall. split; [by apply Hall|done].
Qed.

Lemma enqueue_frame t required n now c :
  let c' := (fetch_chunks_enqueue t required n now c).2 in
  outstanding c' = outstanding c /\ co_tasks c' = co_tasks c /\ co_completions c' = co_completions c /\
  co_cache c' = co_cache c /\ co_answers c' = co_answers c /\
  backend_group_permits c' = backend_group_permits c /\ co_exact_reads c' = co_exact_reads c /\
  (waiter_inv c -> forall w x, co_requests c !! w = Some x -> co_requests c' !! w = Some x).
Proof.
  cbn zeta. unfold fetch_chunks_enqueue.
  match goal with |- context [enqueue_chunks _ _ _ ?s] => set (st1 := s) end.
  pose proof (enqueue_chunks_spec required now (co_next c) st1) as Henq.
  destruct (enqueue_chunks required now (co_next c) st1) as [joined st2]. destruct Henq as [_ Hrec].
  split_and!; try done; [unfold outstanding; cbn; by repeat case_match|].
  intros [_ _ F] w x Hw. cbn.
  assert (Hsnd : (receivers joined).*2 = seq (co_next c) (length required))
    by (rewrite Hrec; apply snd_zip; by rewrite length_seq).
  apply record_requests; rewrite Hsnd; [apply NoDup_seq|]. right. split; [|done].
  rewrite elem_of_seq. apply F in Hw. lia.
Qed.

Lemma content_inv_step c c' :
  (forall g, g ∈ outstanding c' -> g ∈ outstanding c \/ group_ok g) ->
  (forall g r, (g, Completing r) ∈ co_tasks c' -> (g, Completing r) ∈ co_tasks c \/ result_ok g r) ->
  (forall g r, (g, r) ∈ co_completions c' -> (g, r) ∈ co_completions c \/ result_ok g r) ->
  (forall t i b, co_cache c' !! (t, i) = Some b ->
     co_cache c !! (t, i) = Some b \/ b = archive_chunk chunk_size (archive_of t) i) ->
  (forall w b, co_answers c' !! w = Some (inl b) -> co_answers c !! w = Some (inl b) \/
     exists t i, co_requests c !! w = Some (t, i) /\ b = archive_chunk chunk_size (archive_of t) i) ->
  (forall w x, co_requests c !! w = Some x -> co_requests c' !! w = Some x) ->
  content_inv c -> content_inv c'.
Proof.
  intros H1 H2 H3 H4 H5 H6 [G T K C A]. split.
  - intros g [?|?]%H1; auto.
  - intros g r [?|?]%H2; auto.
  - intros g r [?|?]%H3; auto.
  - intros t i b [?|?]%H4; auto.
  - intros w b [(t & i & Hw & ->)%A|(t & i & Hw & ->)]%H5; eauto 6.
Qed.

Lemma content_inv_complete c g rest result c' :
  coord_inv c -> outstanding c ≡ₚ g :: rest -> outstanding c' = rest -> result_ok g result ->
  (forall e, e ∈ co_tasks c' -> e ∈ co_tasks c) -> (forall e, e ∈ co_completions c' -> e ∈ co_completions c) ->
  co_cache c' = co_cache c -> co_requests c' = co_requests c ->
  co_answers c' = co_answers (complete_dispatched_group (g_tileset g) (g_range g) result c) ->
  content_inv c'.
Proof.
  intros [H Hw Hct _] Hperm Hout Hok Htasks Hcompl Hcache Hreq Hans.
  eapply content_inv_step; [..|exact Hct]; rewrite ?Hcache, ?Hreq; auto.
  - intros g'. rewrite Hout. intros Hg'. left. rewrite Hperm. by right.
  - intros w b. rewrite Hans. eapply complete_answers; [|exact Hw|exact Hok].
    eapply sched_inv_perm; [exact Hperm|exact H].
Qed.

(** What is cached, computed and answered at every step. *)
Lemma step_content c c' : coord_inv c -> step c c' -> content_inv c'.
Proof.
  intros Hinv Hstep. pose proof (inv_content _ Hinv) as Hct. pose proof (inv_sched _ Hinv) as H.
  destruct Hstep as
    [c t required now Hreq|c l t l' Hs|c l t l' now phase c' Hs Hpass|c l t l' st Hs Hst Hcap
    |c l t range groups n l' Hs|c l t n l' Hs|c l g l' ad gr result counters cache Ht Hserve Hres
    |c l g result l' Ht|c l g task l' Ht|c l g result l' Hc|c w|c Hp|c Hp|c k].
  - destruct (enqueue_frame t required (len (archive_of t)) now c) as (E1 & E2 & E3 & E4 & E5 & _ & _ & E6).
    eapply content_inv_step; [..|exact Hct]; rewrite ?E1, ?E2, ?E3, ?E4, ?E5; auto.
    apply E6, Hinv.
  - eapply content_inv_step; [..|exact Hct]; auto. intros g Hg. left. unfold outstanding in *. cbn in Hg.
    rewrite Hs. by rewrite bind_phase in *.
  - rewrite Hs in H. pose proof (fun g => pass_groups_ok c l t l' _ now phase c' g H Hpass) as Hok.
    apply scheduler_pass_frame in Hpass as [states ->].
    eapply content_inv_step; [..|exact Hct]; auto. intros g. unfold outstanding. cbn.
    rewrite Hs, bind_phase, !bind_app. cbn. rewrite !elem_of_app. specialize (Hok g). tauto.
  - eapply content_inv_step; [..|exact Hct]; auto. intros g Hg. left. unfold outstanding in *. cbn in Hg.
    rewrite Hs. by rewrite bind_phase in *.
  - pose proof (outstanding_dispatch c l t range groups n l' Hs) as Hperm.
    unfold dispatch_group. cbn [backend_group_permits with_schedulers with_tasks]. case_match.
    + eapply content_inv_step; [..|exact Hct]; auto.
      * intros g Hg. left. rewrite Hperm. unfold outstanding in Hg. cbn in Hg.
        by rewrite <- Permutation_middle in Hg.
      * cbn. intros g r [[=]|?]%elem_of_cons. by left.
    + eapply (content_inv_complete c (mk_group t n range) _
        (inr (Overloaded "backend fetch group limit reached"))); [done|exact Hperm|..];
        try (by unfold complete_dispatched_group; cbn; destruct (tileset_states c !! t) as [st|];
             [destruct (complete_group _ _ _ _ _) as [[? ?] ?]|]).
      done.
  - eapply content_inv_step; [..|exact Hct]; auto. intros g Hg. left. unfold outstanding in *. cbn in Hg.
    rewrite Hs. by rewrite bind_phase in *.
  - apply group_result_spec in Hres as [Hrok Hcok]; [| |done|apply (ct_cache _ Hct)].
    + eapply content_inv_step; [..|exact Hct]; auto; cbn.
      * intros g' Hg'. left. unfold outstanding in *. cbn in Hg'. rewrite Ht.
        by rewrite fmap_app, fmap_cons in *.
      * intros g' r. rewrite Ht, !elem_of_app, !elem_of_cons.
        intros [?|[[= -> ->]|?]]; [by left; left|by right|by left; right; right].
    + apply (ct_groups _ Hct). rewrite (outstanding_task c l g _ l' Ht). left.
  - eapply (content_inv_complete c g _ result); [done|by eapply outstanding_task|..];
      try reflexivity; try (by unfold complete_dispatched_group; cbn; destruct (tileset_states c !! g_tileset g) as [st|];
           [destruct (complete_group _ _ _ _ _) as [[? ?] ?]|]).
    + apply (ct_tasks _ Hct). rewrite Ht. apply elem_of_app. right. left.
    + intros e. cbn. rewrite Ht, !elem_of_app, elem_of_cons. tauto.
    + by intros e.
  - eapply content_inv_step; [..|exact Hct]; auto.
    + intros g' Hg'. left. by rewrite (outstanding_dropped c l g task l' _ Ht) in Hg'.
    + intros g' r. cbn. rewrite Ht, !elem_of_app, elem_of_cons. tauto.
    + intros g' r [[= -> ->]|?]%elem_of_cons; [right|by left]. destruct task as [|r]; [done|].
      apply (ct_tasks _ Hct). rewrite Ht. apply elem_of_app. right. left.
  - eapply (content_inv_complete c g _ result); [done|by eapply outstanding_completion|..];
      try reflexivity; try (by unfold complete_dispatched_group; cbn; destruct (tileset_states c !! g_tileset g) as [st|];
           [destruct (complete_group _ _ _ _ _) as [[? ?] ?]|]).
    + apply (ct_completions _ Hct). rewrite Hc. apply elem_of_app. right. left.
    + by intros e.
    + intros e. cbn. rewrite Hc, !elem_of_app, elem_of_cons. tauto.
  - eapply content_inv_step; [..|exact Hct]; auto.
  - eapply content_inv_step; [..|exact Hct]; auto.
  - eapply content_inv_step; [..|exact Hct]; auto.
  - eapply content_inv_step; [..|exact Hct]; auto.
    intros t i b. cbn. rewrite lookup_delete_Some. tauto.
Qed.

(** No permit is lost or duplicated. *)
Lemma step_permits c c' : coord_inv c -> step c c' -> permit_inv c'.
Proof.
  intros Hinv Hstep. pose proof (inv_permits _ Hinv) as (P1 & P2 & P3).
  destruct Hstep as
    [c t required now Hreq|c l t l' Hs|c l t l' now phase c' Hs Hpass|c l t l' st Hs Hst Hcap
    |c l t range groups n l' Hs|c l t n l' Hs|c l g l' ad gr result counters cache Ht Hserve Hres
    |c l g result l' Ht|c l g task l' Ht|c l g result l' Hc|c w|c Hp|c Hp|c k]; unfold permit_inv; try done.
  - destruct (enqueue_frame t required (len (archive_of t)) now c) as (_ & -> & _ & _ & _ & -> & -> & _). done.
  - apply scheduler_pass_frame in Hpass as [states ->]. done.
  - unfold dispatch_group. cbn [backend_group_permits with_schedulers with_tasks]. case_match; bool_props.
    + cbn. lia.
    + match goal with |- context [complete_dispatched_group ?t ?r ?x ?c] =>
        destruct (complete_frame t r x c) as (-> & _ & _ & _ & -> & _ & -> & _) end.
      done.
  - cbn. rewrite Ht in P1. rewrite !length_app in *. cbn in *. lia.
  - cbn. destruct (complete_frame (g_tileset g) (g_range g) result c) as (_ & _ & _ & _ & _ & _ & -> & _).
    rewrite Ht in P1. rewrite !length_app in *. cbn in *. lia.
  - cbn. rewrite Ht in P1. rewrite !length_app in *. cbn in *. lia.
  - cbn. destruct (complete_frame (g_tileset g) (g_range g) result c) as (_ & _ & _ & _ & _ & _ & -> & _). done.
  - cbn. lia.
  - cbn. lia.
Qed.

Lemma coord_inv_step c c' : coord_inv c -> step c c' -> coord_inv c'.
Proof.
  intros Hinv Hstep.
  split; [by eapply step_sched|by eapply step_waiters|by eapply step_content|by eapply step_permits].
Qed.

Definition reachable (c : Coordinator) : Prop := rtc step (Coordinator_new limit) c.

Lemma coord_inv_rtc c c' : coord_inv c -> rtc step c c' -> coord_inv c'.
Proof. intros H Hr. induction Hr as [|c c1 c2 Hs _ IH]; [done|]. by apply IH, coord_inv_step with c. Qed.

Lemma coord_inv_new : coord_inv (Coordinator_new limit).
Proof.
  split.
  - intros t. cbn [Coordinator_new tileset_states]. by rewrite lookup_empty.
  - split; cbn.
    + intros t i w (st & Hst & _). by rewrite lookup_empty in Hst.
    + intros w t i. by rewrite lookup_empty.
    + intros w x. by rewrite lookup_empty.
  - split; cbn; try by intros ? ? ?%not_elem_of_nil.
    + by intros ? ?%not_elem_of_nil.
    + intros t i b. by rewrite lookup_empty.
    + intros w b. by rewrite lookup_empty.
  - unfold permit_inv. cbn. lia.
Qed.

Lemma coord_reachable_inv c : reachable c -> coord_inv c.
Proof. intros H. by eapply coord_inv_rtc, H; apply coord_inv_new. Qed.

(** ** Every waiter can be answered *)

Definition pending_size (t : string) (c : Coordinator) : nat :=
  match tileset_states c !! t with Some st => size (pending_chunks st) | None => 0%nat end.

Lemma complete_pending c g gs scheds result t :
  sched_inv chunk_size archive_of (tileset_states c) (g :: gs) scheds ->
  (pending_size t (complete_dispatched_group (g_tileset g) (g_range g) result c) <= pending_size t c)%nat.
Proof.
  intros H. destruct (sched_inv_complete _ _ c g gs scheds result H) as (st & Hst & Hc).
  pose proof (complete_group_spec (co_closed c) (g_range g) result (co_answers c) st) as Hspec.
  destruct (complete_group _ _ _ _ _) as [[o a'] st']. destruct Hc as [_ ->].
  destruct Hspec as (Hp & _). unfold pending_size, remove_drainable_state. cbn [tileset_states with_states].
  rewrite lookup_insert_eq. destruct (decide (t = g_tileset g)) as [->|Hne].
  - destruct (is_drainable st'); cbn; [rewrite lookup_delete_eq; lia|].
    by rewrite lookup_insert_eq, Hst, Hp.
  - destruct (is_drainable st'); cbn; rewrite ?lookup_delete_ne, lookup_insert_ne by done; done.
Qed.

(** The run from [c] to [c'] only finished groups of [t]. *)
Record finished (t : string) (c c' : Coordinator) : Prop := {
  fi_run : rtc step c c';
  fi_pending : (pending_size t c' <= pending_size t c)%nat;
  fi_requests : co_requests c' = co_requests c;
  fi_closed : co_closed c' = co_closed c;
}.

Lemma finished_trans t c1 c2 c3 : finished t c1 c2 -> finished t c2 c3 -> finished t c1 c3.
Proof. intros [R1 P1 Q1 C1] [R2 P2 Q2 C2]. split; [by etrans|lia|congruence..]. Qed.

Lemma of_tileset_perm t gs gs' : gs ≡ₚ gs' -> length (of_tileset t gs) = length (of_tileset t gs').
Proof. intros Hp. unfold of_tileset. by rewrite Hp. Qed.

Lemma finish_completion c g r :
  coord_inv c -> (g, r) ∈ co_completions c ->
  exists c', finished (g_tileset g) c c' /\
    (length (of_tileset (g_tileset g) (outstanding c')) <
     length (of_tileset (g_tileset g) (outstanding c)))%nat.
Proof.
  intros Hinv (l & l' & Hl)%list_elem_of_split.
  pose proof (outstanding_completion c l g r l' Hl) as Hperm. pose proof (inv_sched _ Hinv) as H.
  eapply sched_inv_perm in H; [|exact Hperm].
  destruct (complete_frame (g_tileset g) (g_range g) r c) as (_ & _ & F1 & F2 & F3 & _ & _ & _ & F4).
  eexists. split; [split|].
  - eapply rtc_once, step_completion; exact Hl.
  - by apply (complete_pending c g _ _ r (g_tileset g)) in H.
  - exact F1.
  - exact F4.
  - rewrite (of_tileset_perm _ _ _ Hperm), of_tileset_cons_eq. apply Nat.lt_succ_diag_r.
Qed.

Lemma finish_task c g task :
  coord_inv c -> (g, task) ∈ co_tasks c ->
  exists c', finished (g_tileset g) c c' /\
    (length (of_tileset (g_tileset g) (outstanding c')) <
     length (of_tileset (g_tileset g) (outstanding c)))%nat.
Proof.
  intros Hinv (l & l' & Hl)%list_elem_of_split.
  pose proof (step_dropped encode sources chunk_size max_fetch_chunks archive_of c l g task l' Hl) as Hstep.
  set (c1 := with_tasks _ _ _ _ c) in Hstep.
  destruct (finish_completion c1 g (dropped_result task)) as (c' & Hf & Hlt).
  - by eapply coord_inv_step.
  - cbn. left.
  - exists c'. split.
    + eapply finished_trans; [|exact Hf]. split; [by apply rtc_once|done..].
    + pose proof (outstanding_dropped c l g task l' (dropped_result task) Hl) as Hperm.
      by rewrite (of_tileset_perm _ _ _ Hperm) in Hlt.
Qed.

(** Some outstanding group of [t] can be finished. *)
Lemma finish_one t c :
  coord_inv c -> of_tileset t (outstanding c) <> [] ->
  exists c', finished t c c' /\
    (length (of_tileset t (outstanding c')) < length (of_tileset t (outstanding c)))%nat.
Proof.
  intros Hinv Hne. destruct (of_tileset t (outstanding c)) as [|g gs] eqn:Hof; [done|]. rewrite <- Hof in *.
  assert (Hg : g ∈ of_tileset t (outstanding c)) by (rewrite Hof; left).
  apply list_elem_of_filter in Hg as [<- Hg]. clear Hof gs Hne. unfold outstanding in Hg.
  rewrite !elem_of_app in Hg. destruct Hg as [Hg|[Hg|Hg]].
  - apply list_elem_of_bind in Hg as ([t p] & Hg & Hin). destruct p as [| | |groups n]; try by apply not_elem_of_nil in Hg.
    cbn in Hg. assert (Ht : g_tileset g = t) by (by apply list_elem_of_fmap in Hg as (r & -> & _)). rewrite Ht.
    destruct groups as [|range groups]; [by apply not_elem_of_nil in Hg|]. clear Hg.
    apply list_elem_of_split in Hin as (l & l' & Hl).
    pose proof (step_dispatch encode sources chunk_size max_fetch_chunks archive_of c l t range groups n l' Hl) as Hstep.
    pose proof (outstanding_dispatch c l t range groups n l' Hl) as Hperm.
    unfold dispatch_group in Hstep. cbn [backend_group_permits with_schedulers with_tasks] in Hstep.
    destruct (0 <? backend_group_permits c).
    + match type of Hstep with coord_step _ _ _ _ _ _ ?x => set (c1 := x) in Hstep end.
      destruct (finish_task c1 (mk_group t n range) Fetching) as (c' & Hf & Hlt).
      { by eapply coord_inv_step. } { cbn. left. }
      cbn [g_tileset mk_group] in *. exists c'. split.
      * eapply finished_trans; [|exact Hf]. split; [by apply rtc_once|done..].
      * assert (Hp1 : outstanding c1 ≡ₚ outstanding c)
          by (rewrite Hperm; unfold outstanding; cbn; by rewrite <- Permutation_middle).
        by rewrite (of_tileset_perm _ _ _ Hp1) in Hlt.
    + pose proof (inv_sched _ Hinv) as H. eapply sched_inv_perm in H; [|exact Hperm].
      match type of Hstep with coord_step _ _ _ _ _ _ (complete_dispatched_group _ _ ?r ?x) =>
        set (c1 := x) in Hstep; set (res := r) in Hstep end.
      destruct (complete_frame t range res c1) as (_ & _ & F1 & F2 & F3 & F5 & _ & _ & F4).
      eexists. split; [split; [by apply rtc_once|..]|].
      * by apply (complete_pending c1 (mk_group t n range) _ _ res t) in H.
      * exact F1.
      * exact F4.
      * rewrite (of_tileset_perm _ _ _ Hperm), (of_tileset_cons_eq (mk_group t n range)). unfold outstanding. cbn [g_tileset g_range] in *.
        rewrite F2, F3, F5. apply Nat.lt_succ_diag_r.
  - apply list_elem_of_fmap in Hg as ([g' task] & -> & Hg). by eapply finish_task.
  - apply list_elem_of_fmap in Hg as ([g' r] & -> & Hg). by eapply finish_completion.
Qed.

Lemma finish_all t c :
  coord_inv c -> exists c', finished t c c' /\ of_tileset t (outstanding c') = [].
Proof.
  intros Hinv. remember (length (of_tileset t (outstanding c))) as n eqn:Hn.
  revert c Hinv Hn. induction (lt_wf n) as [n _ IH]. intros c Hinv ->.
  destruct (of_tileset t (outstanding c)) as [|g gs] eqn:Hof.
  - exists c. split; [by split|done].
  - destruct (finish_one t c Hinv) as (c1 & Hf1 & Hlt); [by rewrite Hof|]. rewrite Hof in Hlt.
    destruct (IH _ Hlt c1) as (c2 & Hf2 & Hnil); [|done|].
    + eapply coord_inv_rtc, Hf1. exact Hinv.
    + exists c2. split; [by eapply finished_trans|done].
Qed.

(** With no group outstanding, the scheduler of [t] can reach its next pass. *)
Lemma make_ready t p c :
  coord_inv c -> of_tileset t (outstanding c) = [] -> (t, p) ∈ co_schedulers c ->
  exists c' l l', finished t c c' /\ of_tileset t (outstanding c') = [] /\
    co_schedulers c' = l ++ (t, Ready) :: l'.
Proof.
  intros Hinv Hnil (l & l' & Hl)%list_elem_of_split.
  assert (Hwindow : forall c, co_schedulers c = l ++ (t, Sleeping) :: l' -> of_tileset t (outstanding c) = [] ->
    exists c' l l', finished t c c' /\ of_tileset t (outstanding c') = [] /\
      co_schedulers c' = l ++ (t, Ready) :: l').
  { intros c0 Hl0 Hnil0. exists (with_schedulers (l ++ (t, Ready) :: l') c0), l, l'. split_and!; [split|..]; try done.
    - by eapply rtc_once, step_window.
    - unfold outstanding in *. cbn [co_schedulers co_tasks co_completions with_schedulers with_tasks].
      rewrite Hl0, bind_phase in Hnil0. by rewrite bind_phase. }
  destruct p as [| | |groups n].
  - by apply Hwindow.
  - exists c, l, l'. split_and!; [by split|done..].
  - pose proof (inv_sched _ Hinv) as H. rewrite Hl in H.
    destruct (only_scheduler _ _ _ _ _ _ _ _ H) as (st & Hst & _). specialize (H t). unfold tileset_inv in H. rewrite Hst, Hnil in H.
    destruct H as ([C _ _ _ _ _] & _ & _ & Hcap).
    destruct Hcap as [Hcap|[Hfull _]]; [apply elem_of_app; right; left|..];
      [|rewrite C in Hfull; cbn in Hfull; unfold MAX_CONCURRENT_FETCHES_PER_TILESET in Hfull; lia].
    eexists _, l, l'. split_and!; [split|..].
    + by eapply rtc_once, step_capacity.
    + unfold pending_size. cbn. by rewrite lookup_insert_eq, Hst.
    + done.
    + done.
    + unfold outstanding in *. cbn [co_schedulers co_tasks co_completions with_schedulers with_tasks with_states].
      rewrite Hl, bind_phase in Hnil. by rewrite bind_phase.
    + done.
  - destruct groups as [|range groups].
    + set (c1 := with_schedulers (l ++ (t, Sleeping) :: l') c).
      destruct (Hwindow c1) as (c2 & l2 & l2' & Hf & Hnil2 & Hl2); [done| |].
      { unfold outstanding in *. unfold c1. cbn [co_schedulers co_tasks co_completions with_schedulers with_tasks].
        rewrite Hl, bind_phase in Hnil. by rewrite bind_phase. }
      exists c2, l2, l2'. split_and!; try done. eapply finished_trans; [|exact Hf].
      split; [by eapply rtc_once, step_dispatched|done..].
    + exfalso. pose proof (outstanding_dispatch c l t range groups n l' Hl) as Hperm.
      apply (of_tileset_perm t) in Hperm.
      rewrite Hnil, (of_tileset_cons_eq (mk_group t n range)) in Hperm. done.
Qed.

(** A waiter that is neither answered nor closed waits for a pending chunk when
    no group of its tileset is outstanding. *)
Lemma drained_waiter c w t i :
  coord_inv c -> co_requests c !! w = Some (t, i) -> (w ∉ co_closed c) ->
  of_tileset t (outstanding c) = [] ->
  is_Some (co_answers c !! w) \/
  exists st, tileset_states c !! t = Some st /\ registered st i w /\ i ∈ pending_chunks st /\
    inflight_fetch_count st = 0 /\ exists p, (t, p) ∈ co_schedulers c.
Proof.
  intros [H Hw _ _] Hreq Hcl Hnil. destruct (wi_waiting _ Hw w t i Hreq) as [?|[?|(st & Hst & Hreg)]]; [done|by left|right].
  specialize (H t). unfold tileset_inv in H. rewrite Hst, Hnil in H. destruct H as ([C _ F W _ _] & Hnum & Hrun & _).
  destruct Hreg as (ws & Hws & Hin). exists st.
  assert (Hp : i ∈ pending_chunks st).
  { destruct (W i ws Hws) as [?|(g & Hg & _)%F]; [done|by apply not_elem_of_nil in Hg]. }
  split_and!; try done; [by exists ws|].
  rewrite Hrun in Hnum by (intros Hnone; rewrite Hnone in Hp; by apply not_elem_of_empty in Hp).
  destruct (tasks_of t (co_schedulers c)) as [|[t' p] l] eqn:Ht; [done|].
  assert (Hin' : (t', p) ∈ tasks_of t (co_schedulers c)) by (rewrite Ht; left).
  apply list_elem_of_filter in Hin' as [Heq Hin']. cbn in Heq. subst. eauto.
Qed.

(** The next pass of a drained tileset dispatches some pending chunks. *)
Lemma pass_progress c l t l' st i w :
  coord_inv c -> co_schedulers c = l ++ (t, Ready) :: l' -> tileset_states c !! t = Some st ->
  registered st i w -> (w ∉ co_closed c) -> i ∈ pending_chunks st -> inflight_fetch_count st = 0 ->
  exists c', step c c' /\ (pending_size t c' < pending_size t c)%nat /\
    co_requests c' = co_requests c /\ co_closed c' = co_closed c.
Proof.
  intros Hinv Hl Hst Hreg Hcl Hi Hc. pose proof (inv_sched _ Hinv t) as H. rewrite Hst in H. destruct H as [Hsi _].
  destruct (scheduler_pass max_fetch_chunks 0 t c) as [phase c'] eqn:Hpass.
  pose proof (step_pass encode sources chunk_size max_fetch_chunks archive_of c l t l' 0 phase c' Hl Hpass) as Hstep.
  pose proof (scheduler_pass_frame _ _ _ _ _ Hpass) as [states Hc'].
  eexists. split; [exact Hstep|]. split; [|by subst c'].
  unfold scheduler_pass in Hpass. rewrite Hst in Hpass.
  pose proof (prune_state_inv _ _ _ _ _ (co_closed c) Hsi) as Hpr.
  assert (Hreg1 : registered (prune_cancelled_waiters (co_closed c) st).2 i w) by by apply registered_prune.
  destruct (prune_cancelled_waiters (co_closed c) st) as [k st1] eqn:Eprune.
  assert (Hsub : pending_chunks st1 ⊆ pending_chunks st).
  { injection Eprune as _ <-. cbn. intros j [_ ?]%elem_of_filter. done. }
  assert (Hi1 : i ∈ pending_chunks st1).
  { destruct Hreg1 as (ws & Hws & _). injection Eprune as _ <-. cbn in *. apply elem_of_filter. by rewrite Hws. }
  assert (Hc1 : inflight_fetch_count st1 = 0) by by injection Eprune as _ <-.
  pose proof (select_spec _ _ Hsize Hlen t st1 _ max_fetch_chunks 0 Hpr) as Hsel.
  destruct (select_dispatch_groups max_fetch_chunks 0 st1) as [[| |groups n d m] st2]; injection Hpass as _ Hp2.
  - destruct Hsel as [He _]. rewrite He in Hi1. by apply not_elem_of_empty in Hi1.
  - destruct Hsel as (_ & _ & Hfull). rewrite Hc1 in Hfull. by vm_compute in Hfull.
  - destruct Hsel as (_ & _ & _ & _ & _ & Hlt & _). rewrite <- Hp2. unfold pending_size. cbn.
    rewrite lookup_insert_eq, Hst. apply subseteq_size in Hsub. lia.
Qed.

Lemma waiter_answered c w t i :
  coord_inv c -> co_requests c !! w = Some (t, i) -> (w ∉ co_closed c) ->
  exists c', rtc step c c' /\ is_Some (co_answers c' !! w).
Proof.
  remember (pending_size t c) as n eqn:Hn. revert c Hn. induction (lt_wf n) as [n _ IH]. intros c -> Hinv Hreq Hcl.
  destruct (finish_all t c Hinv) as (c1 & [R1 P1 Q1 C1] & Hnil1).
  assert (Hinv1 : coord_inv c1) by by eapply coord_inv_rtc.
  rewrite <- Q1 in Hreq. rewrite <- C1 in Hcl.
  destruct (drained_waiter c1 w t i Hinv1 Hreq Hcl Hnil1) as [?|(st1 & _ & _ & _ & _ & p & Hp)]; [by eexists|].
  destruct (make_ready t p c1 Hinv1 Hnil1 Hp) as (c2 & l & l' & [R2 P2 Q2 C2] & Hnil2 & Hl).
  assert (Hinv2 : coord_inv c2) by by eapply coord_inv_rtc.
  rewrite <- Q2 in Hreq. rewrite <- C2 in Hcl.
  destruct (drained_waiter c2 w t i Hinv2 Hreq Hcl Hnil2) as [?|(st2 & Hst2 & Hreg & Hi & Hc & _)].
  { exists c2. split; [by etrans|done]. }
  destruct (pass_progress c2 l t l' st2 i w Hinv2 Hl Hst2 Hreg Hcl Hi Hc) as (c3 & Hstep & Hlt & Q3 & C3).
  rewrite <- Q3 in Hreq. rewrite <- C3 in Hcl.
  destruct (IH (pending_size t c3)) with (c := c3) as (c4 & R4 & Ha); try done; [lia|by eapply coord_inv_step|].
  exists c4. split; [|done]. etrans; [exact R1|]. etrans; [exact R2|]. by eapply rtc_l.
Qed.

(** ** The promise to readers *)

Lemma step_requests c c' w x :
  coord_inv c -> step c c' -> co_requests c !! w = Some x -> co_requests c' !! w = Some x.
Proof.
  intros Hinv Hstep Hw. destruct Hstep as
    [c t required now Hreq|c l t l' Hs|c l t l' now phase c' Hs Hpass|c l t l' st Hs Hst Hcap
    |c l t range groups n l' Hs|c l t n l' Hs|c l g l' ad gr result counters cache Ht Hserve Hres
    |c l g result l' Ht|c l g task l' Ht|c l g result l' Hc|c w'|c Hp|c Hp|c k]; try done.
  - apply enqueue_frame; [apply Hinv|done].
  - by apply scheduler_pass_frame in Hpass as [states ->].
  - unfold dispatch_group. case_match; [done|].
    match goal with |- context [complete_dispatched_group ?t ?r ?x ?c] =>
      by destruct (complete_frame t r x c) as (_ & _ & -> & _) end.
  - cbn. by destruct (complete_frame (g_tileset g) (g_range g) result c) as (_ & _ & -> & _).
  - cbn. by destruct (complete_frame (g_tileset g) (g_range g) result c) as (_ & _ & -> & _).
Qed.

Lemma rtc_requests c c' w x :
  coord_inv c -> rtc step c c' -> co_requests c !! w = Some x -> co_requests c' !! w = Some x.
Proof.
  intros Hinv Hr. induction Hr as [|c c1 c2 Hs _ IH]; [done|]. intros Hw.
  apply IH; [by eapply coord_inv_step|by eapply step_requests].
Qed.

(** The receivers of a reader are recorded with their chunks. *)
Lemma enqueue_requests t required n now c i w :
  (i, w) ∈ (fetch_chunks_enqueue t required n now c).1 ->
  co_requests (fetch_chunks_enqueue t required n now c).2 !! w = Some (t, i).
Proof.
  unfold fetch_chunks_enqueue.
  match goal with |- context [enqueue_chunks _ _ _ ?s] => set (st1 := s) end.
  pose proof (enqueue_chunks_spec required now (co_next c) st1) as Henq.
  destruct (enqueue_chunks required now (co_next c) st1) as [joined st2]. destruct Henq as [_ Hrec].
  cbn [fst snd co_requests]. intros Hin.
  assert (Hsnd : (receivers joined).*2 = seq (co_next c) (length required))
    by (rewrite Hrec; apply snd_zip; by rewrite length_seq).
  apply record_requests; [rewrite Hsnd; apply NoDup_seq|]. left. by exists i.
Qed.

Lemma enqueue_indices t required n now c :
  ((fetch_chunks_enqueue t required n now c).1).*1 = required.
Proof.
  unfold fetch_chunks_enqueue.
  match goal with |- context [enqueue_chunks _ _ _ ?s] => set (st1 := s) end.
  pose proof (enqueue_chunks_spec required now (co_next c) st1) as Henq.
  destruct (enqueue_chunks required now (co_next c) st1) as [joined st2]. destruct Henq as [_ Hrec].
  cbn [fst]. change ((receivers joined).*1 = required). rewrite Hrec. apply fst_zip. by rewrite length_seq.
Qed.

Lemma await_chunks_spec t answers recv chunks m :
  (forall i w b, (i, w) ∈ recv -> answers !! w = Some (inl b) ->
     b = archive_chunk chunk_size (archive_of t) i) ->
  chunks_ok chunk_size (archive_of t) chunks -> await_chunks answers recv chunks = Ok m ->
  chunks_ok chunk_size (archive_of t) m /\
  (forall i, is_Some (chunks !! i) \/ i ∈ recv.*1 -> is_Some (m !! i)).
Proof.
  revert chunks. induction recv as [|[i w] recv IH]; intros chunks Ha Hok; cbn.
  { intros [= <-]. split; [done|]. intros i [?|?%not_elem_of_nil]; done. }
  intros H. res_inv. destruct a as [b|e]; [|done].
  apply IH in H as [Hm Hin].
  - split; [done|]. intros j Hj. apply Hin. rewrite elem_of_cons in Hj.
    destruct (decide (j = i)) as [->|]; [left; by rewrite lookup_insert_eq|].
    rewrite lookup_insert_ne by done. tauto.
  - intros j w' b' Hj. apply Ha. by right.
  - intros j b' Hj. destruct (decide (j = i)) as [->|].
    + rewrite lookup_insert_eq in Hj. injection Hj as <-. apply (Ha i w); [left|done].
    + rewrite lookup_insert_ne in Hj by done. by apply Hok.
Qed.

Lemma await_chunks_no_panic answers recv chunks : await_chunks answers recv chunks <> Panic.
Proof.
  revert chunks. induction recv as [|[i w] recv IH]; intros chunks; cbn; [done|].
  apply Res_bind_no_panic; [apply ok_or_no_panic|]. intros [b|e] _; [apply IH|done].
Qed.

Section Environment.
Context (env : Coordinator -> Coordinator) (now : Z) (admission : FetchAdmission).
Context (get_range : Store -> list string -> Z -> Z -> StoreReply).
(** The other tasks only take steps, and leave this reader its permit. *)
Definition env_runs : Prop :=
  (forall c, rtc step c (env c)) /\ (forall c, 0 < co_exact_reads c -> 0 < co_exact_reads (env c)).
Context (Henv : env_runs).
Context (Hserves : forall t, store_serves encode sources (archive_of t) t get_range).

Lemma fetch_exact_range_spec t lo hi counters r counters' :
  0 <= lo <= hi ->
  fetch_exact_range encode sources admission get_range t lo hi counters = (r, counters') ->
  r <> Panic /\ forall bs, r = Ok bs -> bs = slice lo hi (archive_of t).
Proof.
  intros Hle. unfold fetch_exact_range. destruct (Z.leb_spec hi lo).
  - intros [= <- <-]. split; [done|]. intros bs [= <-]. assert (lo = hi) as -> by lia. by rewrite slice_empty.
  - intros Hf. eapply (fetch_range_spec encode sources (archive_of t)) in Hf; [|apply Hserves].
    split; [apply Hf|]. intros bs Hbs. by apply Hf.
Qed.

(** The coordinator keeps the promise that reads rely on. *)
Lemma coordinator_laws :
  @CoordinatorLaws Coordinator (coordinator_ops encode sources env now admission get_range)
    chunk_size archive_of coord_inv.
Proof.
  destruct Henv as [Hrun Hpermit]. split; cbn.
  - intros t i c r c' Hinv [= <- <-]. split; [done|]. eexists. split; [done|].
    intros b Hb. by apply (ct_cache _ (inv_content _ Hinv)).
  - intros t idxs c r c' Hinv Hidx.
    pose proof (step_fetch_chunks encode sources chunk_size max_fetch_chunks archive_of c t idxs now Hidx) as Hstep.
    pose proof (fun i w => enqueue_requests t idxs (len (archive_of t)) now c i w) as Hreq.
    pose proof (enqueue_indices t idxs (len (archive_of t)) now c) as Hfst.
    destruct (fetch_chunks_enqueue t idxs (len (archive_of t)) now c) as [recv c1]. cbn [fst snd] in *.
    intros [= <- <-]. assert (Hinv1 : coord_inv c1) by by eapply coord_inv_step.
    assert (Hinv2 : coord_inv (env c1)) by by eapply coord_inv_rtc.
    split; [done|]. split; [apply await_chunks_no_panic|]. intros m Hm.
    apply (await_chunks_spec t) in Hm as [Hok Hin]; [| |intros i b Hb; by rewrite lookup_empty in Hb].
    + split; [done|]. intros i Hi. apply Hin. right. by rewrite Hfst.
    + intros i w b Hiw Hb. apply (ct_answers _ (inv_content _ Hinv2)) in Hb as (t' & i' & Hr' & ->).
      apply Hreq in Hiw. eapply rtc_requests in Hiw; [|done|apply Hrun]. rewrite Hr' in Hiw. by injection Hiw as -> ->.
  - intros t lo hi c r c' Hinv Hle. unfold exact_range_read.
    destruct (Z.ltb_spec 0 (backend_group_permits c)) as [Hp|Hp]; [|by intros [= <- <-]].
    set (c1 := env (move_permit 1 c)).
    assert (Hstep : step c (move_permit 1 c)) by by apply step_exact_start.
    assert (Hinv1 : coord_inv (move_permit 1 c)) by by eapply coord_inv_step.
    assert (Hinv2 : coord_inv c1) by by eapply coord_inv_rtc.
    destruct (fetch_exact_range _ _ _ _ _ _ _ _) as [r0 counters] eqn:Hf.
    apply fetch_exact_range_spec in Hf as [Hnp Hbs]; [|done]. intros [= <- <-]. split; [|done].
    assert (Hpos : 0 < co_exact_reads c1).
    { apply Hpermit. cbn. destruct (inv_permits _ Hinv) as (_ & _ & ?). lia. }
    destruct Hinv2 as [A B C (P1 & P2 & P3)]. split.
    + exact A.
    + destruct B. by split.
    + destruct C. by split.
    + unfold permit_inv. cbn. lia.
Qed.
End Environment.
End Runs.

(** ** Properties *)

(** Planning of backend ranges: the ranges cover every pending chunk, are
    disjoint and ascending, never exceed the fetch limit (at least one chunk),
    start and end at a pending chunk, and prefetch an unrequested chunk only
    between two requested neighbours. *)
Theorem planned_ranges_cover chunks max_fetch_chunks
    (Hchunks : forall i, i ∈ chunks -> 0 <= i < u64_max) :
  let ranges := contiguous_chunk_ranges chunks max_fetch_chunks MAX_CHUNK_GAP in
  Forall (fun r => r.1 ∈ chunks /\ r.2 - 1 ∈ chunks /\ 1 <= r.2 - r.1 <= Z.max max_fetch_chunks 1 /\
            forall i, r.1 <= i < r.2 -> (i ∉ chunks) -> i - 1 ∈ chunks /\ i + 1 ∈ chunks) ranges /\
  StronglySorted (fun r r' => r.2 <= r'.1) ranges /\
  (forall i, i ∈ chunks -> exists r, r ∈ ranges /\ r.1 <= i < r.2).
Proof.
  destruct (contiguous_ranges_spec chunks max_fetch_chunks Hchunks) as (H1 & H2 & H3).
  split; [|done]. eapply Forall_impl; [exact H1|]. intros r []. tauto.
Qed.

Lemma scheds_NoDup chunk_size archive_of states gs scheds :
  sched_inv chunk_size archive_of states gs scheds -> NoDup scheds.*1.
Proof.
  intros H. apply NoDup_alt. intros i j t Hi Hj.
  assert (Hle : (length (tasks_of t scheds) <= 1)%nat).
  { specialize (H t). unfold tileset_inv in H. destruct (states !! t) as [st|].
    - destruct H as (_ & -> & _). destruct (scheduler_running st); lia.
    - destruct H as (_ & ->). cbn. lia. }
  clear H. rewrite !list_lookup_fmap in *.
  destruct (scheds !! i) as [[ti pi]|] eqn:Ei; [|done]. destruct (scheds !! j) as [[tj pj]|] eqn:Ej; [|done].
  injection Hi as ->. injection Hj as ->.
  revert i j Ei Ej. induction scheds as [|[t' p] scheds IH]; intros i j Ei Ej; [done|].
  assert (Hone : forall k q, scheds !! k = Some (t, q) -> tasks_of t scheds <> []).
  { intros k q Hk Hnil. apply list_elem_of_lookup_2 in Hk.
    assert (Hin : (t, q) ∈ tasks_of t scheds) by by apply list_elem_of_filter.
    rewrite Hnil in Hin. by apply not_elem_of_nil in Hin. }
  destruct i as [|i], j as [|j]; [done|..].
  - injection Ei as -> ->. rewrite tasks_of_cons_eq in Hle. cbn in Hle.
    destruct (Hone j pj Ej). apply nil_length_inv. lia.
  - injection Ej as -> ->. rewrite tasks_of_cons_eq in Hle. cbn in Hle.
    destruct (Hone i pi Ei). apply nil_length_inv. lia.
  - f_equal. apply IH; try done. destruct (decide (t' = t)) as [->|].
    + rewrite tasks_of_cons_eq in Hle. cbn in Hle. lia.
    + by rewrite tasks_of_cons_ne in Hle.
Qed.

Section Theorems.
Context {Store : Type} (encode : string -> string).
Context (sources : NamespacedEntries (TilesetSource Store)) (chunk_size max_fetch_chunks : Z).
Context (archive_of : string -> bytes) (limit : Z).
Abbreviation reach := (reachable encode sources chunk_size max_fetch_chunks archive_of limit).
Abbreviation run := (rtc (coord_step encode sources chunk_size max_fetch_chunks archive_of)).

(** Bounded backend load: in every run, however requests, completions,
    cancellations and sheds interleave, each tileset has at most one scheduler
    and at most 32 groups between selection and completion, its counter is exactly
    their number, and the group tasks together with the exact-range reads never
    exceed the process-wide permits, all of which are accounted for. *)
Theorem fetches_bounded c
    (Hsize : 0 < chunk_size) (Hlen : forall t, len (archive_of t) <= u64_max) (Hc : reach c) :
  NoDup (co_schedulers c).*1 /\
  (forall t, Z.of_nat (length (of_tileset t (outstanding c))) <= MAX_CONCURRENT_FETCHES_PER_TILESET) /\
  (forall t st, tileset_states c !! t = Some st ->
     inflight_fetch_count st = Z.of_nat (length (of_tileset t (outstanding c)))) /\
  backend_group_permits c + Z.of_nat (length (co_tasks c)) + co_exact_reads c = Z.max limit 1 /\
  Z.of_nat (length (co_tasks c)) + co_exact_reads c <= Z.max limit 1.
Proof.
  apply coord_reachable_inv in Hc; [|done..]. destruct Hc as [H _ _ (P1 & P2 & P3)].
  split_and!; [by eapply scheds_NoDup| | |done|lia].
  - intros t. specialize (H t). unfold tileset_inv in H. destruct (tileset_states c !! t) as [st|].
    + destruct H as ([C B _ _ _ _] & _). lia.
    + destruct H as [-> _]. by vm_compute.
  - intros t st Hst. specialize (H t). rewrite Hst in H. by destruct H as ([C _ _ _ _ _] & _).
Qed.

(** [C33] No waiter is stranded: in every reachable state a request whose receiver
    is open is answered, or registered with a chunk that is pending under a live
    scheduler or part of an outstanding group; and from every such state some run
    of the tasks answers it, even if every backend fetch is cancelled or shed. *)
Theorem waiters_never_stranded c w t i
    (Hsize : 0 < chunk_size) (Hlen : forall t, len (archive_of t) <= u64_max) (Hc : reach c)
    (Hreq : co_requests c !! w = Some (t, i)) (Hopen : w ∉ co_closed c) :
  (is_Some (co_answers c !! w) \/
   exists st, tileset_states c !! t = Some st /\ registered st i w /\
     ((i ∈ pending_chunks st /\ exists p, (t, p) ∈ co_schedulers c) \/
      exists g, g ∈ outstanding c /\ g_tileset g = t /\ (g_range g).1 <= i < (g_range g).2)) /\
  (exists c', run c c' /\ is_Some (co_answers c' !! w)).
Proof.
  apply coord_reachable_inv in Hc; [|done..]. split; [|by eapply waiter_answered].
  destruct Hc as [H Hw _ _]. destruct (wi_waiting _ Hw w t i Hreq) as [?|[?|(st & Hst & Hreg)]]; [done|by left|right].
  exists st. split_and!; try done. specialize (H t). rewrite Hst in H.
  destruct H as ([_ _ F W _ _] & Hnum & Hrun & _). destruct Hreg as (ws & Hws & _).
  destruct (W i ws Hws) as [Hp|(g & Hg & Hi)%F].
  - left. split; [done|].
    rewrite Hrun in Hnum by (intros Hnone; rewrite Hnone in Hp; by apply not_elem_of_empty in Hp).
    destruct (tasks_of t (co_schedulers c)) as [|[t' p] l] eqn:Ht; [done|].
    assert (Hin : (t', p) ∈ tasks_of t (co_schedulers c)) by (rewrite Ht; left).
    apply list_elem_of_filter in Hin as [Heq Hin]. cbn in Heq. subst. eauto.
  - right. apply list_elem_of_filter in Hg as [? ?]. eauto.
Qed.
End Theorems.

(** [C34] End to end: a read through the cache, the coordinator and its tasks
    returns exactly the archive's bytes of a valid range, or an error the
    coordinator reported, from every reachable state and whatever the other tasks
    do while it waits; an invalid range is rejected without touching the state. *)
Theorem coordinator_reads_exact {Store} encode (sources : NamespacedEntries (TilesetSource Store))
    input tuning archive_of limit env now admission get_range c t start length archive_len r c'
    (Htuning : resolve_tuning input = Ok tuning) (Hinput : is_u64 (rt_chunk_size_bytes input))
    (Hlen : forall t, len (archive_of t) <= u64_max)
    (Henv : env_runs encode sources (rt_chunk_size_bytes tuning) (rt_max_fetch_chunks tuning) archive_of env)
    (Hserves : forall t, store_serves encode sources (archive_of t) t get_range)
    (Hstart : is_u64 start) (Hlength : is_usize length)
    (Harchive : archive_len = None \/ archive_len = Some (len (archive_of t)))
    (Hc : reachable encode sources (rt_chunk_size_bytes tuning) (rt_max_fetch_chunks tuning) archive_of limit c)
    (Hread : @read_bytes Coordinator (coordinator_ops encode sources env now admission get_range)
               (rt_chunk_size_bytes tuning) t start length archive_len c = (r, c')) :
  coord_inv (rt_chunk_size_bytes tuning) archive_of limit c' /\
  match validate_byte_range start length archive_len with
  | Ok end_ => end_ = start + length /\
      ((exists rd, r = Ok rd /\ cr_bytes rd = slice start (start + length) (archive_of t) /\
          (is_Some archive_len -> len (cr_bytes rd) = length)) \/
       (exists e, r = Err e /\
          @coordinator_error Coordinator (coordinator_ops encode sources env now admission get_range) t e))
  | Err e => r = Err (Message (MRange e)) /\ c' = c
  | Panic => False
  end.
Proof.
  destruct (resolve_tuning_positive _ _ Hinput Htuning) as [Hsize _].
  apply coord_reachable_inv in Hc; [|done..].
  pose proof (coordinator_laws encode sources _ _ archive_of limit Hsize Hlen env now admission get_range Henv Hserves)
    as Hlaws.
  by eapply read_bytes_spec.
Qed.

(** ** Witnesses *)

Lemma planned_ranges_cover_witness :
  exists r, r ∈ contiguous_chunk_ranges {[2; 4; 6]} 4 MAX_CHUNK_GAP /\ r.1 <= 6 < r.2.
Proof.
  apply (planned_ranges_cover {[2; 4; 6]} 4).
  - intros i. rewrite !elem_of_union, !elem_of_singleton. unfold u64_max. lia.
  - set_solver.
Defined.

Example plan_2_4_6 : contiguous_chunk_ranges {[2; 4; 6]} 4 MAX_CHUNK_GAP = [(2, 5); (6, 7)].
Proof. vm_compute. reflexivity. Qed.

Definition demo_archives (t : string) : bytes := demo_archive.

(** One reader of two chunks. *)
Definition demo_coordinator_state : Coordinator :=
  (fetch_chunks_enqueue "regional/a" [0; 2] 11 0 (Coordinator_new 4)).2.

Lemma demo_len t : len (demo_archives t) <= u64_max.
Proof. vm_compute. discriminate. Defined.

Lemma demo_coord_reachable :
  reachable id demo_sources 4 4 demo_archives 4 demo_coordinator_state.
Proof.
  apply rtc_once. apply (step_fetch_chunks id demo_sources 4 4 demo_archives).
  intros i [->|[->|[]%not_elem_of_nil]%elem_of_cons]%elem_of_cons; vm_compute; split; (discriminate || reflexivity).
Defined.

Lemma fetches_bounded_witness : NoDup (co_schedulers demo_coordinator_state).*1.
Proof.
  apply (fetches_bounded id demo_sources 4 4 demo_archives 4 demo_coordinator_state);
    [lia|apply demo_len|apply demo_coord_reachable].
Defined.

Lemma waiters_never_stranded_witness :
  exists c', rtc (coord_step id demo_sources 4 4 demo_archives) demo_coordinator_state c' /\
    is_Some (co_answers c' !! 1%nat).
Proof.
  apply (waiters_never_stranded id demo_sources 4 4 demo_archives 4 demo_coordinator_state 1%nat "regional/a" 2);
    [lia|apply demo_len|apply demo_coord_reachable|vm_compute; reflexivity|by apply not_elem_of_empty].
Defined.

Lemma coordinator_reads_exact_witness :
  exists c', @read_bytes Coordinator
      (coordinator_ops id demo_sources (fun c => c) 0 Granted demo_get_range) 4 "regional/a" 3 4 None
      demo_coordinator_state = (Ok {| cr_bytes := [3; 4; 5; 6]; cr_source := FromBackend |}, c') /\
    coord_inv 4 demo_archives 4 c'.
Proof.
  eexists. split; [vm_compute; reflexivity|].
  refine (proj1 (coordinator_reads_exact id demo_sources demo_tuning demo_tuning demo_archives 4 (fun c => c)
    0 Granted demo_get_range demo_coordinator_state "regional/a" 3 4 None _ _ _ _ demo_len _ _ _ _ _ _ _)).
  - reflexivity.
  - vm_compute. split; discriminate.
  - split; [intros; apply rtc_refl|done].
  - intros t store path lo hi bs _ [= <-]. reflexivity.
  - vm_compute. split; discriminate.
  - vm_compute. split; discriminate.
  - left. reflexivity.
  - apply demo_coord_reachable.
  - vm_compute. reflexivity.
Defined.
