(* ===== verification/SingleFlight.v ===== *)
(** * Per-key single flight

    Models [crates/mmpf-common/src/singleflight.rs]. The first caller of a key
    leads, later callers follow until the guard of the leader is dropped, whether
    it completed, failed or was cancelled.

    A [tokio::sync::watch] channel is an entry of the table [sf_channels]: its
    value, the version that a send increments, and whether its sender is alive.
    The sender of a flight lives in the entry of its key, so removing the entry
    closes the channel. A receiver remembers the version it saw when it
    subscribed. [send] without receivers stores nothing in the library; here the
    value is stored, which no receiver can observe. *)

From S2P Require Import Prelude.

Record Channel (E : Type) := { ch_value : option E; ch_version : nat; ch_open : bool }.
Arguments ch_value {E} c.
Arguments ch_version {E} c.
Arguments ch_open {E} c.

Definition watch_channel {E} : Channel E := {| ch_value := None; ch_version := 0; ch_open := true |}.
Definition watch_send {E} (v : E) (c : Channel E) : Channel E :=
  {| ch_value := Some v; ch_version := S (ch_version c); ch_open := ch_open c |}.
(** The sender is dropped. *)
Definition watch_close {E} (c : Channel E) : Channel E :=
  {| ch_value := ch_value c; ch_version := ch_version c; ch_open := false |}.

Record SingleFlight (K E : Type) `{Countable K} := {
  sf_entries : gmap K nat;
  sf_channels : list (Channel E) }.
Arguments sf_entries {K E _ _} s.
Arguments sf_channels {K E _ _} s.
Arguments Build_SingleFlight {K E _ _}.

Record Follower := { fo_receiver : nat; fo_seen : nat }.
Record LeaderGuard (K E : Type) := { lg_key : K; lg_outcome : option E }.
Arguments lg_key {K E} l.
Arguments lg_outcome {K E} l.
Arguments Build_LeaderGuard {K E}.

Inductive Flight (K E : Type) :=
  | FlightLeader (guard : LeaderGuard K E)
  | FlightFollower (follower : Follower).
Arguments FlightLeader {K E} guard.
Arguments FlightFollower {K E} follower.

Section SingleFlight.
Context {K E : Type} `{Countable K}.
Implicit Types (s : SingleFlight K E) (g : LeaderGuard K E) (f : Follower).

Definition SingleFlight_default : SingleFlight K E := {| sf_entries := ∅; sf_channels := [] |}.

(** [begin]: follow the flight of the key, or lead a new one. *)
Definition begin (key : K) s : Flight K E * SingleFlight K E :=
  match sf_entries s !! key with
  | Some sender =>
      let seen := default 0%nat (ch_version <$> sf_channels s !! sender) in
      (FlightFollower {| fo_receiver := sender; fo_seen := seen |}, s)
  | None =>
      let sender := length (sf_channels s) in
      (FlightLeader {| lg_key := key; lg_outcome := None |},
       {| sf_entries := <[key := sender]> (sf_entries s);
          sf_channels := sf_channels s ++ [watch_channel] |})
  end.

(** [Drop for LeaderGuard]: the entry is removed, the outcome is sent, and the
    sender goes out of scope. *)
Definition drop_guard g s : SingleFlight K E :=
  match sf_entries s !! lg_key g with
  | None => s
  | Some sender =>
      let publish c := match lg_outcome g with Some v => watch_send v c | None => c end in
      {| sf_entries := delete (lg_key g) (sf_entries s);
         sf_channels := alter (fun c => watch_close (publish c)) sender (sf_channels s) |}
  end.

(** [complete_with]: the guard is consumed with its outcome set. *)
Definition complete_with g (value : E) s : SingleFlight K E :=
  drop_guard {| lg_key := lg_key g; lg_outcome := Some value |} s.

Definition complete_with_error g (error : E) s : SingleFlight K E := complete_with g error s.

(** One poll of [Follower::wait]: pending, or ready with the published value. *)
Definition wait_poll f s : option (option E) :=
  match sf_channels s !! fo_receiver f with
  | Some c =>
      if negb (Nat.eqb (ch_version c) (fo_seen f)) || negb (ch_open c) then Some (ch_value c) else None
  | None => None
  end.

(** ** Invariant *)

Record sf_wf s : Prop := {
  (** The flight of a key has its own open channel, on which nothing was sent. *)
  wf_entry : forall k c, sf_entries s !! k = Some c -> sf_channels s !! c = Some watch_channel;
  wf_inj : forall k k' c, sf_entries s !! k = Some c -> sf_entries s !! k' = Some c -> k = k';
  (** Only the channels of flights are open. *)
  wf_open : forall c ch, sf_channels s !! c = Some ch -> ch_open ch = true ->
    exists k, sf_entries s !! k = Some c }.

(** A follower that joined the flight of [k] while it was under way. *)
Definition follows (k : K) f s : Prop :=
  sf_entries s !! k = Some (fo_receiver f) /\ fo_seen f = 0%nat.
(** A follower whose flight has ended. *)
Definition released f s : Prop :=
  exists ch, sf_channels s !! fo_receiver f = Some ch /\ ch_open ch = false.

Lemma default_wf : sf_wf SingleFlight_default.
Proof. split; cbn; intros *; rewrite ?lookup_empty, ?lookup_nil; done. Qed.

Lemma begin_spec k s :
  sf_wf s ->
  sf_wf (begin k s).2 /\
  match (begin k s).1 with
  | FlightLeader g =>
      sf_entries s !! k = None /\ g = {| lg_key := k; lg_outcome := None |} /\
      sf_entries (begin k s).2 = <[k := length (sf_channels s)]> (sf_entries s) /\
      sf_channels s `prefix_of` sf_channels (begin k s).2
  | FlightFollower f => (begin k s).2 = s /\ follows k f s
  end.
Proof.
  intros [He Hi Ho]. unfold begin. destruct (sf_entries s !! k) as [c|] eqn:Hk; cbn.
  - split; [by split|]. split; [done|]. split; [done|]. cbn. by rewrite (He k c Hk).
  - assert (Hlt : forall k' c, sf_entries s !! k' = Some c -> (c < length (sf_channels s))%nat).
    { intros k' c Hc. eapply lookup_lt_Some, He, Hc. }
    split; [split; cbn|by eauto using prefix_app_r].
    + intros k' c [[<- <-]|[Hne Hc]]%lookup_insert_Some.
      * by rewrite lookup_app_r, Nat.sub_diag by lia.
      * rewrite lookup_app_l by eauto. by eapply He.
    + intros k1 k2 c [[<- Hc1]|[Hn1 Hc1]]%lookup_insert_Some [[<- Hc2]|[Hn2 Hc2]]%lookup_insert_Some;
        [done|apply Hlt in Hc2; lia|apply Hlt in Hc1; lia|by eapply Hi].
    + intros c ch Hc Hopen. apply lookup_app_Some in Hc as [Hc|[Hle Hc]].
      * destruct (Ho c ch Hc Hopen) as [k' Hk']. exists k'. rewrite lookup_insert_ne; [done|congruence].
      * exists k. rewrite lookup_insert_eq. f_equal.
        apply list_lookup_singleton_Some in Hc as [Hc _]. lia.
Qed.

Lemma drop_guard_entries g s : sf_entries (drop_guard g s) = delete (lg_key g) (sf_entries s).
Proof.
  unfold drop_guard. destruct (sf_entries s !! lg_key g) eqn:Hk; [done|].
  by rewrite delete_id.
Qed.

Lemma drop_guard_wf g s : sf_wf s -> sf_wf (drop_guard g s).
Proof.
  intros [He Hi Ho]. unfold drop_guard. destruct (sf_entries s !! lg_key g) as [c0|] eqn:Hk; [|by split].
  split; cbn.
  - intros k c [Hne Hc]%lookup_delete_Some. rewrite list_lookup_alter_ne; [by eapply He|].
    intros ->. by eapply Hne, Hi.
  - intros k k' c [_ Hc]%lookup_delete_Some [_ Hc']%lookup_delete_Some. by eapply Hi.
  - intros c ch Hc Hopen. destruct (decide (c = c0)) as [->|Hne].
    + rewrite list_lookup_alter_eq, (He _ _ Hk) in Hc. injection Hc as <-. done.
    + rewrite list_lookup_alter_ne in Hc by done. destruct (Ho c ch Hc Hopen) as [k Hk'].
      exists k. rewrite lookup_delete_ne; [done|]. congruence.
Qed.

(** Dropping the guard answers every follower of the flight with the outcome. *)
Lemma drop_guard_answers g s f :
  sf_wf s -> follows (lg_key g) f s ->
  wait_poll f (drop_guard g s) = Some (lg_outcome g) /\ released f (drop_guard g s).
Proof.
  intros [He _ _] [Hk Hs]. unfold drop_guard, wait_poll, released. rewrite Hk. cbn.
  rewrite list_lookup_alter_eq, (He _ _ Hk). cbn. split.
  - destruct (lg_outcome g); cbn; by rewrite orb_true_r.
  - eexists. split; [done|]. by destruct (lg_outcome g).
Qed.

(** The other flights do not notice. *)
Lemma drop_guard_follows g s k f :
  k <> lg_key g -> follows k f s -> follows k f (drop_guard g s).
Proof.
  intros Hne [Hk Hs]. split; [|done]. rewrite drop_guard_entries. by rewrite lookup_delete_ne.
Qed.

Lemma drop_guard_released g s f : released f s -> released f (drop_guard g s).
Proof.
  intros (ch & Hch & Ho). unfold drop_guard, released.
  destruct (sf_entries s !! lg_key g) as [c|]; [|by eauto]. cbn.
  destruct (decide (fo_receiver f = c)) as [<-|Hne].
  - rewrite list_lookup_alter_eq, Hch. cbn. eauto.
  - rewrite list_lookup_alter_ne by done. eauto.
Qed.

Lemma begin_released k s f : released f s -> released f (begin k s).2.
Proof.
  intros (ch & Hch & Ho). unfold begin, released. destruct (sf_entries s !! k); cbn; [by eauto|].
  rewrite lookup_app_l; [by eauto|]. by eapply lookup_lt_Some.
Qed.

Lemma begin_follows k s k' f : follows k' f s -> follows k' f (begin k s).2.
Proof.
  intros [Hk Hs]. split; [|done]. unfold begin. destruct (sf_entries s !! k) eqn:Ek; cbn; [done|].
  rewrite lookup_insert_ne; [done|]. congruence.
Qed.

(** A follower waits exactly while its flight is under way. *)
Lemma wait_poll_follows s k f : sf_wf s -> follows k f s -> wait_poll f s = None.
Proof. intros [He _ _] [Hk Hs]. unfold wait_poll. by rewrite (He _ _ Hk), Hs. Qed.

Lemma wait_poll_released s f : released f s -> exists v, wait_poll f s = Some v.
Proof.
  intros (ch & Hch & Ho). unfold wait_poll. rewrite Hch, Ho. cbn. rewrite orb_true_r. eauto.
Qed.
End SingleFlight.
