(* ===== verification/Text.v ===== *)
(** * Text as UTF-8 bytes

    The [str] methods that need more than the bytes of a string: the characters
    that count as whitespace, trimming, and comparison without regard to ASCII
    case, as the credential and the HTTP code use them. *)

From S2P Require Import Prelude StdModel Types TilesetSources.

(** ** Characters of UTF-8 strings *)

Definition char_of (b : Z) : ascii := ascii_of_N (Z.to_N b).
Fixpoint str_bytes (s : string) : list Z :=
  match s with EmptyString => [] | String a s => byte_of a :: str_bytes s end.
Fixpoint bytes_str (l : list Z) : string :=
  match l with [] => EmptyString | b :: l => String (char_of b) (bytes_str l) end.

(** The UTF-8 encodings of the characters for which [char::is_whitespace] holds. *)
Definition whitespace_chars : list string := bytes_str <$>
  ((fun b => [b]) <$> [9; 10; 11; 12; 13; 32]) ++
  [[194; 133]; [194; 160]; [225; 154; 128]] ++
  ((fun i => [226; 128; 128 + Z.of_nat i]) <$> seq 0 11) ++
  [[226; 128; 168]; [226; 128; 169]; [226; 128; 175]; [226; 129; 159]; [227; 128; 128]].

(** The rest of the string after its first character, when that is whitespace. *)
Definition strip_whitespace (encodings : list string) (s : string) : option string :=
  head (omap (fun w => strip_prefix w s) encodings).
Fixpoint trim_by (encodings : list string) (fuel : nat) (s : string) : string :=
  match fuel with
  | O => s
  | S fuel => match strip_whitespace encodings s with
              | Some s => trim_by encodings fuel s
              | None => s
              end
  end.
(** [str::trim]. *)
Definition trim (s : string) : string :=
  let s := trim_by whitespace_chars (String.length s) s in
  String.rev (trim_by (String.rev <$> whitespace_chars) (String.length s) (String.rev s)).

(** [strip_suffix]. *)
Fixpoint strip_suffix (suffix s : string) : option string :=
  if String.eqb s suffix then Some "" else
  match s with EmptyString => None | String a s => String a <$> strip_suffix suffix s end.

(** [String::from_utf8] succeeds: the well-formed byte sequences of Unicode. *)
Definition byte_in (lo hi : Z) (a : ascii) : bool := (lo <=? byte_of a) && (byte_of a <=? hi).
Fixpoint utf8_valid (s : string) : bool :=
  match s with
  | EmptyString => true
  | String a s1 =>
      let b := byte_of a in
      if b <? 128 then utf8_valid s1 else
      match s1 with
      | EmptyString => false
      | String a2 s2 =>
          if (194 <=? b) && (b <=? 223) then byte_in 128 191 a2 && utf8_valid s2 else
          match s2 with
          | EmptyString => false
          | String a3 s3 =>
              if (224 <=? b) && (b <=? 239) then
                byte_in (if b =? 224 then 160 else 128) (if b =? 237 then 159 else 191) a2 &&
                byte_in 128 191 a3 && utf8_valid s3
              else
              match s3 with
              | EmptyString => false
              | String a4 s4 =>
                  (240 <=? b) && (b <=? 244) &&
                  byte_in (if b =? 240 then 144 else 128) (if b =? 244 then 143 else 191) a2 &&
                  byte_in 128 191 a3 && byte_in 128 191 a4 && utf8_valid s4
              end
          end
      end
  end.

Fixpoint str_any (f : string -> bool) (s : string) : bool :=
  f s || match s with EmptyString => false | String _ s => str_any f s end.
(** [str::contains(char::is_whitespace)]. *)
Definition contains_whitespace (s : string) : bool :=
  str_any (fun s => bool_decide (strip_whitespace whitespace_chars s <> None)) s.
Definition to_ascii_lowercase (a : ascii) : ascii :=
  if (65 <=? byte_of a) && (byte_of a <=? 90) then char_of (byte_of a + 32) else a.
Fixpoint str_to_ascii_lowercase (s : string) : string :=
  match s with EmptyString => EmptyString | String a s => String (to_ascii_lowercase a) (str_to_ascii_lowercase s) end.
Fixpoint eq_ignore_ascii_case (s t : string) : bool :=
  match s, t with
  | EmptyString, EmptyString => true
  | String a s, String b t =>
      Ascii.eqb (to_ascii_lowercase a) (to_ascii_lowercase b) && eq_ignore_ascii_case s t
  | _, _ => false
  end.
Fixpoint ends_with_char (c : ascii) (s : string) : bool :=
  match s with
  | EmptyString => false
  | String a EmptyString => Ascii.eqb a c
  | String _ s => ends_with_char c s
  end.

Lemma strip_suffix_app suffix x : strip_suffix suffix (x +:+ suffix) = Some x.
Proof.
  induction x as [|a x IH]; [change ("" +:+ suffix) with suffix; destruct suffix as [|b s]; [done|]; cbn [strip_suffix]; by rewrite String.eqb_refl|].
  rewrite app_String. cbn [strip_suffix]. rewrite IH.
  destruct (String.eqb_spec (String a (x +:+ suffix)) suffix) as [He|_]; [|done].
  apply (f_equal String.length) in He. cbn in He. rewrite str_length_app in He. lia.
Qed.
Lemma strip_suffix_Some suffix s x : strip_suffix suffix s = Some x -> s = x +:+ suffix.
Proof.
  revert x. induction s as [|a s IH]; intros x; cbn [strip_suffix].
  { destruct (String.eqb_spec "" suffix) as [<-|_]; [by intros [= <-]|done]. }
  destruct (String.eqb_spec (String a s) suffix) as [<-|_]; [by intros [= <-]|].
  destruct (strip_suffix suffix s) as [x'|] eqn:E; [|done]. intros [= <-]. rewrite app_String. f_equal. by apply IH.
Qed.

(** ** Text without whitespace *)

(** The printable characters but the space. *)
Definition plain (a : ascii) : bool := (33 <=? byte_of a) && (byte_of a <=? 126).
Definition is_plain (s : string) : Prop := str_all plain s = true.

Lemma rev_app_spec s t : String.rev_app s t = String.rev s +:+ t.
Proof.
  unfold String.rev. revert t. induction s as [|a s IH]; intros t; [done|]. cbn.
  rewrite IH, (IH (String a "")). by rewrite app_assoc_str.
Qed.
Lemma rev_String a s : String.rev (String a s) = String.rev s +:+ String a "".
Proof. unfold String.rev at 1. cbn. apply rev_app_spec. Qed.
Lemma rev_app_dist s t : String.rev (s +:+ t) = String.rev t +:+ String.rev s.
Proof.
  induction s as [|a s IH]; [cbn; by rewrite app_empty_r|].
  by rewrite app_String, !rev_String, IH, app_assoc_str.
Qed.
Lemma rev_involutive s : String.rev (String.rev s) = s.
Proof. induction s as [|a s IH]; [done|]. by rewrite rev_String, rev_app_dist, IH. Qed.
Lemma rev_plain s : is_plain s -> is_plain (String.rev s).
Proof.
  unfold is_plain. induction s as [|a s IH]; [done|]. rewrite rev_String, str_all_app. cbn.
  intros [Ha Hs]%andb_prop. by rewrite IH, Ha.
Qed.

(** No character that counts as whitespace begins, or ends, with a plain byte. *)
Definition spaced (w : string) : bool := match w with EmptyString => false | String b _ => negb (plain b) end.
Lemma strip_whitespace_plain encodings a s :
  forallb spaced encodings = true -> plain a = true -> strip_whitespace encodings (String a s) = None.
Proof.
  intros He Ha. unfold strip_whitespace. induction encodings as [|w l IH]; [done|].
  cbn in He. apply andb_prop in He as [Hw He]. destruct w as [|b w]; [done|]. cbn in *.
  rewrite decide_False; [by apply IH|]. intros ->. by rewrite Ha in Hw.
Qed.
Lemma trim_by_plain encodings fuel s :
  forallb spaced encodings = true -> is_plain s -> trim_by encodings fuel s = s.
Proof.
  intros He Hs. destruct fuel as [|fuel]; [done|]. cbn. destruct s as [|a s].
  - replace (strip_whitespace encodings "") with (@None string); [done|]. clear Hs. unfold strip_whitespace.
    induction encodings as [|w l IH]; [done|]. cbn in *. apply andb_prop in He as [Hw He].
    destruct w as [|b w]; [done|]. cbn. by apply IH.
  - unfold is_plain in Hs. cbn in Hs. apply andb_prop in Hs as [Ha Hs]. by rewrite strip_whitespace_plain.
Qed.

Lemma trim_plain s : is_plain s -> trim s = s.
Proof.
  intros Hs. unfold trim. rewrite (trim_by_plain whitespace_chars) by done.
  rewrite trim_by_plain; [by rewrite rev_involutive|done|by apply rev_plain].
Qed.
Lemma trim_space_plain s : is_plain s -> trim (String " " s) = s.
Proof.
  intros Hs. unfold trim at 1. cbn [String.length trim_by].
  replace (strip_whitespace whitespace_chars (String " " s)) with (Some s) by (vm_compute; by destruct s).
  rewrite (trim_by_plain whitespace_chars) by done.
  rewrite trim_by_plain; [by rewrite rev_involutive|done|by apply rev_plain].
Qed.

Lemma decimal_plain n : 0 <= n <= u64_max -> is_plain (decimal n).
Proof.
  intros Hn. assert (Hd : forall c, str_In c (decimal n) -> plain c = true).
  { intros c Hc. destruct (char_digit c) as [d|] eqn:Hcd.
    - unfold char_digit in Hcd. unfold plain, byte_of. destruct (_ && _) eqn:E in Hcd; [|done]. bool_props.
      apply andb_true_intro. split; apply Z.leb_le; lia.
    - by apply decimal_no_char in Hc. }
  unfold is_plain. induction (decimal n) as [|a s IH]; [done|]. cbn in *.
  rewrite Hd by (by left). apply IH. auto.
Qed.
