(* ===== verification/Floats.v ===== *)
(** * Floating-point numbers as their bits

    What the sources use of [f32] and [f64]: comparison, finiteness, conversion of
    integers, division, and [str::parse]. A value is its IEEE 754 bit pattern, as in
    Types; rounding is that of [SpecFloat]. *)

From S2P Require Import Prelude StdModel Types TilesetSources Text.
From Stdlib Require Import Floats.SpecFloat.

(** ** Decimal text

    The grammar of [f64::from_str]: digits with an optional point and an optional
    exponent. The exponent stops growing above 65536, as in the library. *)

Fixpoint take_digits (acc count : Z) (s : string) : Z * Z * string :=
  match s with
  | EmptyString => (acc, count, s)
  | String a rest =>
      match char_digit a with
      | Some d => take_digits (acc * 10 + d) (count + 1) rest
      | None => (acc, count, s)
      end
  end.

Fixpoint exponent_digits (acc : Z) (s : string) : option Z :=
  match s with
  | EmptyString => Some acc
  | String a s => d ← char_digit a; exponent_digits (if acc <? 65536 then acc * 10 + d else acc) s
  end.

Definition parse_exponent (s : string) : option Z :=
  let '(negative, digits) :=
    match s with
    | String "-" rest => (true, rest)
    | String "+" rest => (false, rest)
    | _ => (false, s)
    end in
  if String.eqb digits "" then None else
  n ← exponent_digits 0 digits;
  Some (if negative then - n else n).

(** The number is [m * 10 ^ e]. *)
Definition parse_number (s : string) : option (Z * Z) :=
  let '(m, whole, s) := take_digits 0 0 s in
  let '(m, fraction, s) :=
    match s with String "." rest => take_digits m 0 rest | _ => (m, 0, s) end in
  if whole + fraction =? 0 then None else
  match s with
  | EmptyString => Some (m, - fraction)
  | String a rest =>
      if Ascii.eqb a "e" || Ascii.eqb a "E"
      then exponent ← parse_exponent rest; Some (m, exponent - fraction)
      else None
  end.

Section Format.
(** Widths of the stored mantissa and of the exponent. *)
Context (mw ew : Z).

Definition f_prec : Z := mw + 1.
Definition f_emax : Z := 2 ^ (ew - 1).
Definition f_emin : Z := 3 - f_emax - f_prec.
Definition sign_bit (negative : bool) : Z := if negative then 2 ^ (mw + ew) else 0.
Definition infinity_bits : Z := (2 ^ ew - 1) * 2 ^ mw.
Definition nan_bits : Z := infinity_bits + 2 ^ (mw - 1).

Definition to_bits (x : spec_float) : Z :=
  match x with
  | S754_zero s => sign_bit s
  | S754_infinity s => sign_bit s + infinity_bits
  | S754_nan => nan_bits
  | S754_finite s m e =>
      sign_bit s +
      (if Zpos m <? 2 ^ mw then Zpos m else (e - f_emin + 1) * 2 ^ mw + (Zpos m - 2 ^ mw))
  end.

Definition magnitude (b : Z) : Z := Z.land b (2 ^ (mw + ew) - 1).
Definition f_is_nan (b : Z) : bool := magnitude b >? infinity_bits.
Definition f_is_finite (b : Z) : bool := magnitude b <? infinity_bits.
(** Values that are not NaN are ordered as sign-magnitude integers. *)
Definition f_order (b : Z) : Z := if b <? 2 ^ (mw + ew) then b else 2 ^ (mw + ew) - b.
Definition f_le (a b : Z) : bool :=
  negb (f_is_nan a) && negb (f_is_nan b) && (f_order a <=? f_order b).
Definition f_lt (a b : Z) : bool :=
  negb (f_is_nan a) && negb (f_is_nan b) && (f_order a <? f_order b).
(** [(lo..=hi).contains(&x)]. *)
Definition f_contains (lo hi x : Z) : bool := f_le lo x && f_le x hi.

Definition f_of_int (n : Z) : spec_float := binary_normalize f_prec f_emax n 0 false.

(** The value nearest to [m * 10 ^ e]. *)
Definition round_decimal (m e : Z) : spec_float :=
  if 0 <=? e then f_of_int (m * 10 ^ e) else
  match m with
  | Zpos p => SFdiv f_prec f_emax (S754_finite false p 0) (S754_finite false (Z.to_pos (10 ^ (- e))) 0)
  | _ => S754_zero false
  end.

Definition parse_float (s : string) : option Z :=
  match s with
  | EmptyString => None
  | String a rest =>
      let negative := Ascii.eqb a "-" in
      let body := if negative || Ascii.eqb a "+" then rest else s in
      match parse_number body with
      | Some (m, e) => Some (sign_bit negative + to_bits (round_decimal m e))
      | None =>
          if eq_ignore_ascii_case body "nan" then Some (sign_bit negative + nan_bits)
          else if eq_ignore_ascii_case body "inf" || eq_ignore_ascii_case body "infinity"
          then Some (sign_bit negative + infinity_bits)
          else None
      end
  end.
End Format.

(** ** [f64] and [f32] *)

Definition parse_f64 : string -> option Z := parse_float 52 11.
Definition f64_le : Z -> Z -> bool := f_le 52 11.
Definition f64_gt (a b : Z) : bool := f_lt 52 11 b a.
Definition f64_contains : Z -> Z -> Z -> bool := f_contains 52 11.
Definition f64_is_finite : Z -> bool := f_is_finite 52 11.
(** [n as f64]. *)
Definition f64_from_int (n : Z) : Z := to_bits 52 11 (f_of_int 52 11 n).
(** [n as f64 / d as f64]. *)
Definition f64_ratio (n d : Z) : Z := to_bits 52 11 (SFdiv 53 1024 (f_of_int 52 11 n) (f_of_int 52 11 d)).

Definition parse_f32 : string -> option Z := parse_float 23 8.
Definition f32_contains : Z -> Z -> Z -> bool := f_contains 23 8.
Definition f32_is_finite : Z -> bool := f_is_finite 23 8.
Definition f32_gt (a b : Z) : bool := f_lt 23 8 b a.
Definition f32_from_int (n : Z) : Z := to_bits 23 8 (f_of_int 23 8 n).

(** Known bit patterns. *)
Example parse_f64_samples :
  parse_f64 "139.767" = Some 0x4061788b43958106 /\ parse_f64 "-180" = Some 0xc066800000000000 /\
  parse_f64 "1e23" = Some 0x44b52d02c7e14af6 /\ parse_f64 "4.9e-324" = Some 1 /\
  parse_f64 "-0.1E+1" = Some 0xbff0000000000000 /\ parse_f64 "+.5" = Some 0x3fe0000000000000 /\
  parse_f64 "1e400" = Some 0x7ff0000000000000 /\ parse_f64 "." = None /\ parse_f64 "1e" = None /\
  parse_f64 "-nan" = Some 0xfff8000000000000 /\ parse_f32 "0.1" = Some 0x3dcccccd /\
  parse_f32 "16777217" = Some 0x4b800000.
Proof. by vm_compute. Qed.

(** ** Comparison *)

Lemma f_contains_finite mw ew lo hi x :
  f_contains mw ew lo hi x = true -> f_is_nan mw ew x = false.
Proof. unfold f_contains, f_le. by destruct (f_is_nan mw ew x); cbn; rewrite ?andb_false_r. Qed.
