(* ===== verification/Json.v ===== *)
(** * JSON documents

    [serde_json::Value] as the sources inspect and rewrite it: the default
    representation with sorted object keys. Reading and writing text are the class
    [JsonText]. A document that is written and read back keeps its structure, its
    strings and its integers; a floating-point number may come back as a neighbour,
    which keeps its order relative to small integers ([number_similar]), because the
    library is built without its exact float parser. *)

From S2P Require Import Prelude StdModel Types TilesetSources Text Floats.

(** [serde_json::Number]; floats by their bits. *)
Inductive JsonNumber :=
  | PosInt (n : Z)
  | NegInt (n : Z)
  | JFloat (bits : Z).

#[local] Unset Elimination Schemes.
Inductive Value :=
  | JNull
  | JBool (b : bool)
  | JNumber (n : JsonNumber)
  | JString (s : string)
  | JArray (items : list Value)
  | JObject (entries : list (string * Value)).

#[local] Set Elimination Schemes.

Section Induction.
Context (P : Value -> Prop).
Context (Hnull : P JNull) (Hbool : forall b, P (JBool b)) (Hnumber : forall n, P (JNumber n)).
Context (Hstring : forall s, P (JString s)) (Harray : forall items, Forall P items -> P (JArray items)).
Context (Hobject : forall entries, Forall (fun e => P e.2) entries -> P (JObject entries)).

Fixpoint Value_induction (v : Value) : P v :=
  match v with
  | JNull => Hnull
  | JBool b => Hbool b
  | JNumber n => Hnumber n
  | JString s => Hstring s
  | JArray items => Harray items
      ((fix go (l : list Value) : Forall P l :=
          match l with [] => @List.Forall_nil _ _ | v :: l => @List.Forall_cons _ _ v l (Value_induction v) (go l) end) items)
  | JObject entries => Hobject entries
      ((fix go (l : list (string * Value)) : Forall (fun e => P e.2) l :=
          match l with
          | [] => @List.Forall_nil _ _
          | (k, v) :: l => @List.Forall_cons _ (fun e => P e.2) (k, v) l (Value_induction v) (go l)
          end) entries)
  end.
End Induction.

Definition as_object (v : Value) : option (list (string * Value)) :=
  match v with JObject entries => Some entries | _ => None end.
Definition as_array (v : Value) : option (list Value) :=
  match v with JArray items => Some items | _ => None end.
Definition as_str (v : Value) : option string :=
  match v with JString s => Some s | _ => None end.
(** [Value::as_f64]. *)
Definition as_f64 (v : Value) : option Z :=
  match v with
  | JNumber (PosInt n) | JNumber (NegInt n) => Some (f64_from_int n)
  | JNumber (JFloat bits) => Some bits
  | _ => None
  end.
Definition is_null (v : Value) : bool := match v with JNull => true | _ => false end.

Definition obj_get (key : string) (entries : list (string * Value)) : option Value := bt_get key entries.
Definition obj_insert (key : string) (v : Value) (entries : list (string * Value)) : list (string * Value) :=
  bt_insert key v entries.
Definition get_str (key : string) (entries : list (string * Value)) : option string :=
  obj_get key entries ≫= as_str.

Class JsonText := {
  json_parse : string -> string + Value;
  json_print : Value -> string }.

(** ** Similar documents *)

Definition number_similar (m n : JsonNumber) : Prop :=
  match m, n with
  | JFloat b, JFloat b' =>
      forall k, -1024 <= k <= 1024 ->
        (f64_le (f64_from_int k) b = true -> f64_le (f64_from_int k) b' = true) /\
        (f64_le b (f64_from_int k) = true -> f64_le b' (f64_from_int k) = true)
  | _, _ => m = n
  end.

#[local] Unset Elimination Schemes.
Inductive similar : Value -> Value -> Prop :=
  | similar_null : similar JNull JNull
  | similar_bool b : similar (JBool b) (JBool b)
  | similar_number m n : number_similar m n -> similar (JNumber m) (JNumber n)
  | similar_string s : similar (JString s) (JString s)
  | similar_array l l' : Forall2 similar l l' -> similar (JArray l) (JArray l')
  | similar_object l l' :
      Forall2 (fun e e' => e.1 = e'.1 /\ similar e.2 e'.2) l l' -> similar (JObject l) (JObject l').

#[local] Set Elimination Schemes.

Lemma number_similar_refl n : number_similar n n.
Proof. destruct n; cbn; auto. Qed.
Lemma similar_refl v : similar v v.
Proof.
  induction v as [| | | |items IH|entries IH] using Value_induction; constructor; auto using number_similar_refl.
  - induction IH; by constructor.
  - induction IH; constructor; auto.
Qed.
#[export] Hint Resolve similar_refl number_similar_refl : platform.

(** The documents the library represents: integers of 64 bits, finite floats, sorted
    keys. *)
Definition number_printable (n : JsonNumber) : bool :=
  match n with
  | PosInt n => (0 <=? n) && (n <=? u64_max)
  | NegInt n => (- 2 ^ 63 <=? n) && (n <? 0)
  | JFloat bits => f64_is_finite bits
  end.
Fixpoint keys_sorted (l : list (string * Value)) : bool :=
  match l with
  | (k, _) :: (((k', _) :: _) as l) => bool_decide (kcmp k k' = Lt) && keys_sorted l
  | _ => true
  end.
Fixpoint printable (v : Value) : bool :=
  match v with
  | JNumber n => number_printable n
  | JArray items => forallb printable items
  | JObject entries => keys_sorted entries && forallb (fun e => printable e.2) entries
  | _ => true
  end.

(** Arrays and objects nested at most [levels] deep; reading stops at 127. *)
Fixpoint nested_within (levels : nat) (v : Value) : bool :=
  match v, levels with
  | JArray items, S levels => forallb (nested_within levels) items
  | JObject entries, S levels => forallb (fun e => nested_within levels e.2) entries
  | JArray _, O | JObject _, O => false
  | _, _ => true
  end.
Definition readable (v : Value) : bool := printable v && nested_within 127 v.

(** What reading promises about what was written; the empty text is no document. *)
Class JsonTextLaws `{JsonText} : Prop := {
  law_json_empty : exists e, json_parse "" = inl e;
  law_json_parsed : forall s v, json_parse s = inr v -> readable v = true;
  law_json_reread : forall v, readable v = true ->
    exists v', json_parse (json_print v) = inr v' /\ similar v v' }.

Lemma similar_as_object v v' entries :
  similar v v' -> as_object v = Some entries ->
  exists entries', as_object v' = Some entries' /\
    Forall2 (fun e e' => e.1 = e'.1 /\ similar e.2 e'.2) entries entries'.
Proof. destruct 1; intros [= <-]; eauto. Qed.
Lemma similar_as_str v v' : similar v v' -> as_str v' = as_str v.
Proof. by destruct 1. Qed.

Lemma similar_get key l l' :
  Forall2 (fun e e' => e.1 = e'.1 /\ similar e.2 e'.2) l l' ->
  match obj_get key l, obj_get key l' with
  | Some v, Some v' => similar v v'
  | None, None => True
  | _, _ => False
  end.
Proof.
  unfold obj_get. induction 1 as [|[k v] [k' v'] l l' [Hk Hv] Hl IH]; cbn in *; [done|]. subst k'.
  by destruct (String.compare key k).
Qed.
Lemma similar_get_str key l l' :
  Forall2 (fun e e' => e.1 = e'.1 /\ similar e.2 e'.2) l l' -> get_str key l' = get_str key l.
Proof.
  intros Hl. unfold get_str. pose proof (similar_get key l l' Hl) as Hg.
  destruct (obj_get key l), (obj_get key l'); try done. by apply similar_as_str.
Qed.

Lemma keys_sorted_wf l : keys_sorted l = true <-> bt_wf l.
Proof.
  unfold bt_wf. induction l as [|[k v] l IH]; [split; [constructor|done]|].
  cbn [keys_sorted fmap list_fmap fst]. destruct l as [|[k' v'] l]; [split; [repeat constructor|done]|].
  rewrite andb_true_iff, bool_decide_eq_true, IH. clear IH. cbn [fmap list_fmap fst]. split.
  - intros [Hk Hs]. constructor; [done|]. constructor; [done|]. apply StronglySorted_inv in Hs as [_ Hf].
    eapply Forall_impl; [done|]. intros x Hx. by eapply klt_trans.
  - intros [Hs Hf]%StronglySorted_inv. split; [|done]. by inversion Hf.
Qed.

(** ** A text format

    The promises can be kept: documents written as the bits of their code number. *)
Module DemoJson.
Abbreviation Tree := (gen_tree (string + nat * Z)).
Definition number_code (n : JsonNumber) : nat * Z :=
  match n with PosInt n => (3, n) | NegInt n => (4, n) | JFloat bits => (5, bits) end%nat.
Fixpoint to_tree (v : Value) : Tree :=
  match v with
  | JNull => GenLeaf (inr (0%nat, 0))
  | JBool b => GenLeaf (inr (if b then 1%nat else 2%nat, 0))
  | JNumber n => GenLeaf (inr (number_code n))
  | JString s => GenLeaf (inl s)
  | JArray items => GenNode 0 (to_tree <$> items)
  | JObject entries => GenNode 1 (concat ((fun e => [GenLeaf (inl e.1); to_tree e.2]) <$> entries))
  end.
Fixpoint from_tree (t : Tree) : Value :=
  match t with
  | GenLeaf (inl s) => JString s
  | GenLeaf (inr (1%nat, _)) => JBool true
  | GenLeaf (inr (2%nat, _)) => JBool false
  | GenLeaf (inr (3%nat, n)) => JNumber (PosInt n)
  | GenLeaf (inr (4%nat, n)) => JNumber (NegInt n)
  | GenLeaf (inr (5%nat, n)) => JNumber (JFloat n)
  | GenLeaf (inr _) => JNull
  | GenNode O ts => JArray (from_tree <$> ts)
  | GenNode _ ts => JObject
      ((fix go (ts : list Tree) : list (string * Value) :=
          match ts with GenLeaf (inl k) :: t :: ts => (k, from_tree t) :: go ts | _ => [] end) ts)
  end.
Lemma from_to_tree v : from_tree (to_tree v) = v.
Proof.
  induction v as [|[]|[]| |items IH|entries IH] using Value_induction; try done.
  - cbn [to_tree from_tree]. f_equal. induction IH as [|v l Hv Hl IHl]; [done|]. cbn. by rewrite Hv, IHl.
  - cbn [to_tree from_tree]. f_equal. induction IH as [|[k v] l Hv Hl IHl]; [done|]. cbn in *. by rewrite Hv, IHl.
Qed.

Fixpoint bits_text (p : positive) : string :=
  match p with xH => "" | xO p => String "0" (bits_text p) | xI p => String "1" (bits_text p) end.
Fixpoint text_bits (s : string) : option positive :=
  match s with
  | EmptyString => Some xH
  | String a s => p ← text_bits s; if Ascii.eqb a "0" then Some (xO p) else if Ascii.eqb a "1" then Some (xI p) else None
  end.
Lemma text_bits_text p : text_bits (bits_text p) = Some p.
Proof. induction p as [p IH|p IH|]; cbn; by rewrite ?IH. Qed.

(** Texts with a meaning of their own. *)
Section Format.
Context (known : string -> option Value).
Definition demo_parse (s : string) : string + Value :=
  let document := match s with
    | String "#" s => p ← text_bits s; from_tree <$> decode p
    | String _ _ => known s
    | EmptyString => None
    end in
  match document with Some v => if readable v then inr v else inl "unreadable" | None => inl "expected value" end.
Definition demo_text : JsonText :=
  {| json_parse := demo_parse; json_print := fun v => String "#" (bits_text (encode (to_tree v))) |}.
Lemma demo_text_laws : @JsonTextLaws demo_text.
Proof.
  split; cbn.
  - by eexists.
  - intros s v. unfold demo_parse. destruct (match s with String _ _ => _ | _ => _ end) as [v'|]; [|done].
    destruct (readable v') eqn:Hr; [|done]. by intros [= <-].
  - intros v Hv. exists v. split; [|apply similar_refl]. unfold demo_parse. rewrite text_bits_text.
    cbn [mbind option_bind]. rewrite decode_encode. cbn. by rewrite from_to_tree, Hv.
Qed.
End Format.
End DemoJson.
