(* ===== verification/DeliveryAuth.v ===== *)
(** * Delivery credentials

    Models the credential side of [crates/mmpf-auth/src/lib.rs]: the registry
    catalog, tokens and their envelope, registry snapshots, verifier digests and
    the decision [authorize] takes on a snapshot. How snapshots are loaded,
    cached and refreshed is in AuthRegistry.

    Strings are their UTF-8 bytes. Third-party code is the class [AuthExternals]:
    URLs and form decoding (url), header values (http), JSON decoding
    (serde_json) and SHA-256 (sha2); [anyhow] errors are named by their
    [bail!]. *)

From S2P Require Import Prelude StdModel Types TilesetSources Text.

(** ** Constants *)

Definition CURRENT_OBJECT : string := "current.json".
Definition MAX_REGISTRIES : Z := 128.
Definition MAX_REGISTRY_ID_BYTES : Z := 64.
Definition MAX_CREDENTIAL_BYTES : Z := 4096.
Definition MAX_SNAPSHOT_BYTES : Z := 16 * 1024 * 1024.
Definition MAX_CREDENTIALS_PER_REGISTRY : Z := 100000.
Definition MAX_CONCURRENT_REGISTRY_LOADS : Z := 8.
Definition MAX_PRINCIPAL_ID_BYTES : Z := 256.
Definition MAX_NAMESPACES_PER_CREDENTIAL : Z := 1024.
Definition MAX_ORIGINS_PER_CREDENTIAL : Z := 128.
(** Durations in milliseconds. *)
Definition REFRESH_INTERVAL : Z := 60000.
Definition REFRESH_FAILURE_COOLDOWN : Z := 5000.
Definition DIGEST_DOMAIN : list Z := str_bytes "mmpf-object-store-auth-v1" ++ [0].
Definition CACHE_PARTITION_DOMAIN : list Z := str_bytes "mmpf-delivery-cache-partition-v1" ++ [0].

(** ** Data *)

Inductive AuthError :=
  | EntrySyntax | UrlSyntax | UrlScheme | UrlNotDirectory | UrlHasSecrets | UrlJoin
  | RegistryIdLength | RegistryIdCharacters | DuplicateRegistry | TooManyRegistries
  | SnapshotJson | SchemaVersion | RegistryMismatch | TooManyCredentials
  | DuplicateDigest | LabelInvalid | NamespacesUnbounded | ActionsEmpty | TooManyOrigins
  | OriginSyntax | OriginNotHttp | OriginOpaque | DigestLength | DigestCharacters.

Inductive AuthFailure := InvalidCredential | Forbidden | Unavailable.

Inductive DeliveryAction := RenderStatic | Read.
#[export] Instance DeliveryAction_eq : EqDecision DeliveryAction.
Proof. solve_decision. Defined.
#[export] Instance DeliveryAction_countable : Countable DeliveryAction.
Proof.
  refine (inj_countable' (fun a => match a with RenderStatic => true | Read => false end)
            (fun b : bool => if b then RenderStatic else Read) _). by intros [].
Defined.

Record CredentialGrantWire := {
  w_credential_sha256 : string; w_principal_id : string; w_enabled : bool;
  w_namespaces : list string; w_actions : list DeliveryAction;
  w_allowed_origins : list string; w_allow_missing_origin : bool }.
Record RegistrySnapshotWire := {
  w_schema_version : Z; w_registry_id : string; w_revision : Z;
  w_credentials : list CredentialGrantWire }.

Record CredentialGrant := {
  g_credential_sha256 : list Z; g_principal_id : string; g_enabled : bool;
  g_namespaces : list string; g_actions : gset DeliveryAction;
  g_allowed_origins : list string; g_allow_missing_origin : bool }.
Record RegistrySnapshot := {
  s_revision : Z; s_credentials : gmap (list Z) CredentialGrant }.

Record AuthorizedDelivery := {
  ad_principal_id : string; ad_registry_id : string; ad_readable_namespaces : list string;
  ad_cache_partition : list Z; ad_presented_token : string; ad_propagate_access_token : bool }.

Record PresentedCredential := { pc_value : string; pc_from_query : bool }.

(** The headers that are read. *)
Inductive HeaderName := AUTHORIZATION | ORIGIN | REFERER.

Class AuthExternals := {
  (** [url::Url] and its accessors. *)
  Url : Type;
  Url_parse : string -> option Url;
  scheme : Url -> string;
  username : Url -> string;
  password : Url -> option string;
  host : Url -> option string;
  path : Url -> string;
  query : Url -> option string;
  fragment : Url -> option string;
  cannot_be_a_base : Url -> bool;
  url_join : Url -> string -> option Url;
  (** [url.origin().ascii_serialization()]. *)
  origin_ascii : Url -> string;
  (** [url::form_urlencoded::parse]. *)
  form_urlencoded_parse : string -> list (string * string);
  (** A header value and [HeaderValue::to_str]. *)
  HeaderValue : Type;
  to_str : HeaderValue -> option string;
  (** [serde_json::from_slice::<RegistrySnapshotWire>]. *)
  from_slice : list Z -> option RegistrySnapshotWire;
  (** [Sha256::digest]. *)
  sha256 : list Z -> list Z }.

(** What is relied on: digests are 32 bytes. *)
Class AuthExternalsLaws `{AuthExternals} : Prop := {
  sha256_length l : length (sha256 l) = 32%nat;
  sha256_bytes l : Forall is_u8 (sha256 l) }.

Section DeliveryAuth.
Context `{AuthExternals}.

(** The values of a header, in order. *)
Definition HeaderMap : Type := HeaderName -> list HeaderValue.

Definition is_http (u : Url) : bool := String.eqb (scheme u) "http" || String.eqb (scheme u) "https".
Definition is_some {A} (o : option A) : bool := match o with Some _ => true | None => false end.
Definition is_none {A} (o : option A) : bool := negb (is_some o).

(** ** Registry catalog *)

Record RegistryConfig := { current_url : Url }.
Definition RegistryCatalog : Type := BTreeMap string RegistryConfig.

Definition validate_registry_id (registry_id : string) : Res AuthError unit :=
  _ ← ensure (negb (String.eqb registry_id "" || (MAX_REGISTRY_ID_BYTES <? str_len registry_id)))
        RegistryIdLength;
  ensure (str_all (fun a => let b := byte_of a in
            (97 <=? b) && (b <=? 122) || (48 <=? b) && (b <=? 57) || Ascii.eqb a "-" || Ascii.eqb a "_")
          registry_id) RegistryIdCharacters.

Definition parse_auth_root (raw : string) : Res AuthError Url :=
  url ← ok_or UrlSyntax (Url_parse raw);
  _ ← ensure (bool_decide (scheme url ∈ ["file"; "memory"; "gs"; "s3"; "http"; "https"])) UrlScheme;
  _ ← ensure (negb (cannot_be_a_base url || negb (ends_with_char "/" (path url)))) UrlNotDirectory;
  _ ← ensure (negb (negb (String.eqb (username url) "") || is_some (password url)
                    || is_some (query url) || is_some (fragment url))) UrlHasSecrets;
  Ok url.

Fixpoint catalog_entries (raw_entries : list string) (entries : RegistryCatalog)
    : Res AuthError RegistryCatalog :=
  match raw_entries with
  | [] => Ok entries
  | raw_entry :: raw_entries =>
      '(raw_id, raw_root) ← ok_or EntrySyntax (split_once "=" raw_entry);
      let registry_id := trim raw_id in
      _ ← validate_registry_id registry_id;
      auth_root ← parse_auth_root (trim raw_root);
      current ← ok_or UrlJoin (url_join auth_root CURRENT_OBJECT);
      _ ← ensure (is_none (bt_get registry_id entries)) DuplicateRegistry;
      let entries := bt_insert registry_id {| current_url := current |} entries in
      _ ← ensure (negb (MAX_REGISTRIES <? Z.of_nat (length entries))) TooManyRegistries;
      catalog_entries raw_entries entries
  end.

(** [RegistryCatalog::parse]. *)
Definition RegistryCatalog_parse (spec : string) : Res AuthError RegistryCatalog :=
  if String.eqb (trim spec) "" then Ok []
  else catalog_entries (str_split ";" spec) [].

(** [DeliveryAuth::new]: no catalog entry means no authentication. *)
Definition auth_enabled (catalog : RegistryCatalog) : bool := negb (Nat.eqb (length catalog) 0).

(** ** Tokens *)

Definition bearer_token (headers : HeaderMap) : Res AuthFailure (option string) :=
  match headers AUTHORIZATION with
  | [] => Ok None
  | value :: more =>
      _ ← ensure (Nat.eqb (length more) 0) InvalidCredential;
      value ← ok_or InvalidCredential (to_str value);
      '(scheme, token) ← ok_or InvalidCredential (split_once " " value);
      _ ← ensure (negb (negb (eq_ignore_ascii_case scheme "bearer") || String.eqb token ""
                        || contains_whitespace token)) InvalidCredential;
      Ok (Some token)
  end.

Fixpoint find_access_token (pairs : list (string * string)) (token : option string)
    : Res AuthFailure (option string) :=
  match pairs with
  | [] => Ok token
  | (key, value) :: pairs =>
      if negb (String.eqb key "access_token") then find_access_token pairs token
      else if is_some token then Err InvalidCredential
      else find_access_token pairs (Some value)
  end.
Definition access_token_from_query (query : option string) : Res AuthFailure (option string) :=
  match query with
  | None => Ok None
  | Some query => find_access_token (form_urlencoded_parse query) None
  end.

Definition delivery_token (headers : HeaderMap) (query : option string)
    : Res AuthFailure PresentedCredential :=
  bearer ← bearer_token headers;
  query ← access_token_from_query query;
  match bearer, query with
  | Some _, Some _ => Err InvalidCredential
  | Some token, None => Ok {| pc_value := token; pc_from_query := false |}
  | None, Some token => Ok {| pc_value := token; pc_from_query := true |}
  | None, None => Err InvalidCredential
  end.

Definition parse_token_envelope (token : string) : Res AuthFailure (string * string) :=
  '(registry_id, credential) ← ok_or InvalidCredential (split_once "." token);
  _ ← map_err (fun _ => InvalidCredential) (validate_registry_id registry_id);
  _ ← ensure (negb (String.eqb credential "" || (MAX_CREDENTIAL_BYTES <? str_len credential)
                    || str_existsb (fun b => is_ascii_control b || is_ascii_whitespace b) credential))
        InvalidCredential;
  Ok (registry_id, credential).

(** ** Digests *)

(** [u64::to_be_bytes]. *)
Definition to_be_bytes (n : Z) : list Z :=
  (fun i => Z.shiftr n (8 * (7 - Z.of_nat i)) mod 256) <$> seq 0 8.

Definition framed (s : string) : list Z := to_be_bytes (str_len s) ++ str_bytes s.
Definition namespaced_digest (domain : list Z) (registry_id credential : string) : list Z :=
  sha256 (domain ++ framed registry_id ++ framed credential).
Definition credential_digest (registry_id credential : string) : list Z :=
  namespaced_digest DIGEST_DOMAIN registry_id credential.
Definition credential_cache_partition (registry_id credential : string) (registry_revision : Z) : list Z :=
  sha256 (CACHE_PARTITION_DOMAIN ++ to_be_bytes registry_revision ++ framed registry_id ++ framed credential).

Definition HEX : string := "0123456789abcdef".
Definition hex_char (n : Z) : ascii := default "0"%char (String.get (Z.to_nat n) HEX).
Fixpoint encode_sha256_bytes (digest : list Z) : string :=
  match digest with
  | [] => ""
  | byte :: digest =>
      String (hex_char (Z.shiftr byte 4)) (String (hex_char (Z.land byte 15)) (encode_sha256_bytes digest))
  end.
Definition credential_sha256 (registry_id credential : string) : string :=
  encode_sha256_bytes (credential_digest registry_id credential).

Definition decode_lower_hex (a : ascii) : Res AuthError Z :=
  let byte := byte_of a in
  if (48 <=? byte) && (byte <=? 57) then Ok (byte - 48)
  else if (97 <=? byte) && (byte <=? 102) then Ok (byte - 97 + 10)
  else Err DigestCharacters.
(** [chunks_exact(2)] over the bytes of the string. *)
Fixpoint decode_pairs (value : string) : Res AuthError (list Z) :=
  match value with
  | String a (String b value) =>
      high ← decode_lower_hex a;
      low ← decode_lower_hex b;
      rest ← decode_pairs value;
      Ok (Z.lor (Z.shiftl high 4) low :: rest)
  | _ => Ok []
  end.
Definition decode_sha256 (value : string) : Res AuthError (list Z) :=
  _ ← ensure (str_len value =? 64) DigestLength;
  decode_pairs value.

Definition constant_time_eq (left right : list Z) : bool :=
  foldl (fun difference lr => Z.lor difference (Z.lxor lr.1 lr.2)) 0 (zip left right) =? 0.

(** ** Origins *)

Definition normalize_declared_origin (raw : string) : Res AuthError string :=
  url ← ok_or OriginSyntax (Url_parse raw);
  _ ← ensure (negb (negb (is_http url) || is_none (host url) || negb (String.eqb (username url) "")
                    || is_some (password url) || negb (String.eqb (path url) "/")
                    || is_some (query url) || is_some (fragment url))) OriginNotHttp;
  let origin := origin_ascii url in
  _ ← ensure (negb (String.eqb origin "null")) OriginOpaque;
  Ok origin.

Definition normalize_referer_origin (raw : string) : Res AuthError string :=
  url ← ok_or OriginSyntax (Url_parse raw);
  _ ← ensure (negb (negb (is_http url) || is_none (host url) || negb (String.eqb (username url) "")
                    || is_some (password url))) OriginNotHttp;
  let origin := origin_ascii url in
  _ ← ensure (negb (String.eqb origin "null")) OriginOpaque;
  Ok origin.

Definition single_header (headers : HeaderMap) (name : HeaderName) : Res AuthFailure (option string) :=
  match headers name with
  | [] => Ok None
  | value :: more =>
      _ ← ensure (Nat.eqb (length more) 0) Forbidden;
      value ← ok_or Forbidden (to_str value);
      Ok (Some value)
  end.

(** [Option::transpose] of a fallible map. *)
Definition try_map_option {A B E} (f : A -> Res E B) (o : option A) : Res E (option B) :=
  match o with Some a => b ← f a; Ok (Some b) | None => Ok None end.

(** The origin a request names: its [Origin] header, else its [Referer]. *)
Definition request_origin (headers : HeaderMap) : Res AuthFailure (option string) :=
  origin ← single_header headers ORIGIN;
  origin ← map_err (fun _ => Forbidden) (try_map_option normalize_declared_origin origin);
  match origin with
  | Some origin => Ok (Some origin)
  | None =>
      referer ← single_header headers REFERER;
      map_err (fun _ => Forbidden) (try_map_option normalize_referer_origin referer)
  end.

Definition authorize_origin (headers : HeaderMap) (grant : CredentialGrant) : Res AuthFailure unit :=
  if Nat.eqb (length (g_allowed_origins grant)) 0 then Ok tt
  else
    origin ← request_origin headers;
    match origin with
    | Some origin => ensure (bool_decide (origin ∈ g_allowed_origins grant)) Forbidden
    | None => ensure (g_allow_missing_origin grant) Forbidden
    end.

(** ** Registry snapshots *)

Definition validate_bounded_label (value : string) (max_bytes : Z) : Res AuthError unit :=
  ensure (negb (String.eqb value "" || (max_bytes <? str_len value) || has_control value)) LabelInvalid.

Definition validate_namespace (namespace : string) : Res AuthError unit :=
  if negb (String.eqb namespace "*") then validate_bounded_label namespace 256 else Ok tt.

(** Sorted, without duplicates, and collapsed to the wildcard if it occurs. *)
Definition normalize_namespaces (namespaces : list string) : list string :=
  let namespaces := sort_dedup namespaces in
  if slice_contains_sorted namespaces "*" then ["*"] else namespaces.

(** One turn of the loop of [RegistrySnapshot::parse]. *)
Definition parse_grant (credentials : gmap (list Z) CredentialGrant) (grant : CredentialGrantWire)
    : Res AuthError (gmap (list Z) CredentialGrant) :=
  digest ← decode_sha256 (w_credential_sha256 grant);
  _ ← ensure (is_none (credentials !! digest)) DuplicateDigest;
  _ ← validate_bounded_label (w_principal_id grant) MAX_PRINCIPAL_ID_BYTES;
  _ ← ensure (negb (Nat.eqb (length (w_namespaces grant)) 0
                    || (MAX_NAMESPACES_PER_CREDENTIAL <? Z.of_nat (length (w_namespaces grant)))))
        NamespacesUnbounded;
  _ ← mapM validate_namespace (w_namespaces grant);
  let namespaces := normalize_namespaces (w_namespaces grant) in
  let actions : gset DeliveryAction := list_to_set (w_actions grant) in
  _ ← ensure (negb (Nat.eqb (size actions) 0)) ActionsEmpty;
  _ ← ensure (negb (MAX_ORIGINS_PER_CREDENTIAL <? Z.of_nat (length (w_allowed_origins grant)))) TooManyOrigins;
  allowed_origins ← mapM normalize_declared_origin (w_allowed_origins grant);
  Ok (<[digest := {| g_credential_sha256 := digest; g_principal_id := w_principal_id grant;
                     g_enabled := w_enabled grant; g_namespaces := namespaces; g_actions := actions;
                     g_allowed_origins := allowed_origins;
                     g_allow_missing_origin := w_allow_missing_origin grant |}]> credentials).

Fixpoint parse_grants (grants : list CredentialGrantWire) (credentials : gmap (list Z) CredentialGrant)
    : Res AuthError (gmap (list Z) CredentialGrant) :=
  match grants with
  | [] => Ok credentials
  | grant :: grants =>
      credentials ← parse_grant credentials grant;
      parse_grants grants credentials
  end.

Definition RegistrySnapshot_parse (expected_registry_id : string) (body : list Z)
    : Res AuthError RegistrySnapshot :=
  wire ← ok_or SnapshotJson (from_slice body);
  _ ← ensure (w_schema_version wire =? 1) SchemaVersion;
  _ ← ensure (String.eqb (w_registry_id wire) expected_registry_id) RegistryMismatch;
  _ ← ensure (negb (MAX_CREDENTIALS_PER_REGISTRY <? Z.of_nat (length (w_credentials wire)))) TooManyCredentials;
  credentials ← parse_grants (w_credentials wire) ∅;
  Ok {| s_revision := w_revision wire; s_credentials := credentials |}.

(** ** The decision *)

(** The namespace test of [authorize]. *)
Definition namespace_granted (grant : CredentialGrant) (namespace : string) : bool :=
  negb (match head (g_namespaces grant) with
        | Some first => negb (String.eqb first "*")
        | None => true
        end && negb (slice_contains_sorted (g_namespaces grant) namespace)).

(** [DeliveryAuth::authorize]; [snapshot] is the registry lookup it awaits. *)
Definition authorize (catalog : RegistryCatalog)
    (snapshot : string -> RegistryConfig -> Res unit RegistrySnapshot)
    (headers : HeaderMap) (query : option string) (namespace : option string) (action : DeliveryAction)
    : Res AuthFailure AuthorizedDelivery :=
  presented ← delivery_token headers query;
  '(registry_id, credential) ← parse_token_envelope (pc_value presented);
  config ← ok_or InvalidCredential (bt_get registry_id catalog);
  snapshot ← map_err (fun _ => Unavailable) (snapshot registry_id config);
  let digest := credential_digest registry_id credential in
  grant ← ok_or InvalidCredential
    (match s_credentials snapshot !! digest with
     | Some grant =>
         if g_enabled grant && constant_time_eq (g_credential_sha256 grant) digest then Some grant else None
     | None => None
     end);
  _ ← ensure (negb (match namespace with
                    | Some namespace => negb (namespace_granted grant namespace)
                    | None => false
                    end || negb (bool_decide (action ∈ g_actions grant)))) Forbidden;
  _ ← authorize_origin headers grant;
  Ok {| ad_principal_id := g_principal_id grant; ad_registry_id := registry_id;
        ad_readable_namespaces := g_namespaces grant;
        ad_cache_partition := credential_cache_partition registry_id credential (s_revision snapshot);
        ad_presented_token := pc_value presented;
        ad_propagate_access_token := pc_from_query presented |}.

Definition authorize_static catalog snapshot headers query (namespace : string) :=
  authorize catalog snapshot headers query (Some namespace) RenderStatic.

(** [propagated_access_token]: header credentials never reach a URL. *)
Definition propagated_access_token (d : AuthorizedDelivery) : option string :=
  if ad_propagate_access_token d then Some (ad_presented_token d) else None.
Definition backend_bearer_token (d : AuthorizedDelivery) : string := ad_presented_token d.

(** ** The render ingress

    [servers/biei/src/http/ingress.rs] turns the decision into the authorization
    of a render task; each [expect] is a panic. *)
Definition expect {E F A} (r : Res E A) : Res F A :=
  match r with Ok a => Ok a | Err _ | Panic => Panic end.

Definition render_authorization (authorized : AuthorizedDelivery) : Res AuthFailure RenderAuthorization :=
  readable ← expect (NamespaceSet_try_from_shared (ad_readable_namespaces authorized));
  token ← expect (ProviderBearerToken_try_new (backend_bearer_token authorized));
  Ok {| readable_namespaces := readable; cache_partition := ad_cache_partition authorized;
        provider_bearer_token := token |}.

(** Authorization of a static render: the task's authorization, or the failure
    that is answered. *)
Definition ingress_authorization catalog snapshot headers query (style_namespace : string)
    : Res AuthFailure RenderAuthorization :=
  authorized ← authorize_static catalog snapshot headers query style_namespace;
  render_authorization authorized.

(** [failure_response]: the status code of a failure. *)
Definition failure_status (failure : AuthFailure) : Z :=
  match failure with InvalidCredential => 401 | Forbidden => 403 | Unavailable => 503 end.
End DeliveryAuth.

(** ** Hexadecimal digests *)

Lemma hex_char_decode n : 0 <= n < 16 -> decode_lower_hex (hex_char n) = Ok n.
Proof.
  intros Hn. assert (Hall : Forall (fun i => decode_lower_hex (hex_char (Z.of_nat i)) = Ok (Z.of_nat i)) (seq 0 16)).
  { by repeat constructor. }
  rewrite Forall_forall in Hall. rewrite <- (Z2Nat.id n) by lia. apply Hall, elem_of_seq. lia.
Qed.

Lemma decode_lower_hex_Ok a n : decode_lower_hex a = Ok n -> 0 <= n < 16 /\ hex_char n = a.
Proof.
  destruct a as [[] [] [] [] [] [] [] []]; vm_compute; intros [= <-]; done.
Qed.

(** A byte is its two nibbles; checked for all of them. *)
Lemma byte_nibbles b :
  is_u8 b -> 0 <= Z.shiftr b 4 < 16 /\ 0 <= Z.land b 15 < 16 /\
  Z.lor (Z.shiftl (Z.shiftr b 4) 4) (Z.land b 15) = b.
Proof.
  unfold is_u, u8_max. intros Hb.
  assert (Hall : forallb (fun i => let b := Z.of_nat i in
    (0 <=? Z.shiftr b 4) && (Z.shiftr b 4 <? 16) && (0 <=? Z.land b 15) && (Z.land b 15 <? 16) &&
    (Z.lor (Z.shiftl (Z.shiftr b 4) 4) (Z.land b 15) =? b)) (seq 0 256) = true) by (vm_compute; done).
  rewrite forallb_forall in Hall. specialize (Hall (Z.to_nat b)). rewrite Z2Nat.id in Hall by lia.
  specialize (Hall ltac:(apply in_seq; lia)). cbn zeta in Hall. bool_props. lia.
Qed.

Lemma nibbles_byte h l :
  0 <= h < 16 -> 0 <= l < 16 ->
  let b := Z.lor (Z.shiftl h 4) l in is_u8 b /\ Z.shiftr b 4 = h /\ Z.land b 15 = l.
Proof.
  intros Hh Hl b. subst b.
  assert (Hall : forallb (fun i => forallb (fun j =>
    let h := Z.of_nat i in let l := Z.of_nat j in let b := Z.lor (Z.shiftl h 4) l in
    (0 <=? b) && (b <=? u8_max) && (Z.shiftr b 4 =? h) && (Z.land b 15 =? l)) (seq 0 16)) (seq 0 16) = true)
    by (vm_compute; done).
  rewrite forallb_forall in Hall. specialize (Hall (Z.to_nat h) ltac:(apply in_seq; lia)).
  rewrite forallb_forall in Hall. specialize (Hall (Z.to_nat l) ltac:(apply in_seq; lia)).
  cbn zeta in Hall. rewrite !Z2Nat.id in Hall by lia. bool_props. unfold is_u. lia.
Qed.

Lemma encode_sha256_length l : String.length (encode_sha256_bytes l) = (2 * length l)%nat.
Proof. induction l as [|b l IH]; cbn; [done|]. rewrite IH. lia. Qed.

Lemma decode_encode l : Forall is_u8 l -> decode_pairs (encode_sha256_bytes l) = Ok l.
Proof.
  induction 1 as [|b l Hb _ IH]; [done|]. cbn [encode_sha256_bytes decode_pairs].
  destruct (byte_nibbles b Hb) as (Hh & Hl & He). rewrite !hex_char_decode by done. res_simpl.
  rewrite IH. res_simpl. by rewrite He.
Qed.

Lemma decode_pairs_Ok n s l :
  String.length s = (2 * n)%nat -> decode_pairs s = Ok l ->
  length l = n /\ Forall is_u8 l /\ encode_sha256_bytes l = s.
Proof.
  revert s l. induction n as [|n IH]; intros [|a [|b s]] l Hlen; cbn in Hlen; try lia.
  { intros [= <-]. done. }
  cbn [decode_pairs]. intros Hd. res_inv.
  apply decode_lower_hex_Ok in E as [Hh Ha], E0 as [Hl Hb].
  destruct (nibbles_byte _ _ Hh Hl) as (Hu & Hs1 & Hs2).
  destruct (IH s a2) as (<- & Hf & He); [lia|done|].
  split_and!; [done|by constructor|].
  cbn [encode_sha256_bytes]. by rewrite Hs1, Hs2, Ha, Hb, He.
Qed.

(** A digest is listed under exactly one spelling. *)
Lemma decode_sha256_iff s d :
  decode_sha256 s = Ok d <-> length d = 32%nat /\ Forall is_u8 d /\ s = encode_sha256_bytes d.
Proof.
  unfold decode_sha256, str_len. split.
  - intros Hd. res_inv. bool_props. apply (decode_pairs_Ok 32) in Hd as (? & ? & ?); [done|lia].
  - intros (Hl & Hf & ->). rewrite encode_sha256_length, Hl. cbn. by apply decode_encode.
Qed.

(** ** Digests are taken of unambiguous encodings *)

Lemma to_be_bytes_inj n m : is_u64 n -> is_u64 m -> to_be_bytes n = to_be_bytes m -> n = m.
Proof.
  unfold is_u, u64_max. intros Hn Hm He. apply Z.bits_inj'. intros i Hi.
  destruct (decide (i < 64)) as [Hlt|Hge].
  - assert (Hk : 0 <= i / 8 < 8) by (split; [apply Z.div_pos|apply Z.div_lt_upper_bound]; lia).
    assert (Hj : 0 <= i mod 8 < 8) by (apply Z.mod_pos_bound; lia).
    apply (f_equal (fun l => l !! Z.to_nat (7 - i / 8))) in He. unfold to_be_bytes in He.
    rewrite !list_lookup_fmap, !lookup_seq_lt in He by lia. cbn [fmap option_fmap option_map] in He.
    injection He as He.
    apply (f_equal (fun z => Z.testbit z (i mod 8))) in He. change 256 with (2 ^ 8) in He.
    rewrite !Z.mod_pow2_bits_low, !Z.shiftr_spec in He by lia.
    pose proof (Z.div_mod i 8). rewrite Z2Nat.id in He by lia.
    by replace (i mod 8 + 8 * (7 - (7 - i / 8))) with i in He by lia.
  - rewrite <- (Z.mod_small n (2 ^ 64)), <- (Z.mod_small m (2 ^ 64)) by lia.
    by rewrite !Z.mod_pow2_bits_high by lia.
Qed.

Lemma to_be_bytes_length n : length (to_be_bytes n) = 8%nat.
Proof. by unfold to_be_bytes; rewrite length_fmap, length_seq. Qed.

Lemma byte_of_inj a b : byte_of a = byte_of b -> a = b.
Proof.
  unfold byte_of. intros He%N2Z.inj. rewrite <- (ascii_N_embedding a), <- (ascii_N_embedding b).
  by f_equal.
Qed.

Lemma str_bytes_app s t l l' :
  String.length s = String.length t -> str_bytes s ++ l = str_bytes t ++ l' -> s = t /\ l = l'.
Proof.
  revert t. induction s as [|a s IH]; intros [|b t] Hl He; cbn in *; try done.
  injection Hl as Hl. injection He as Hb He. apply byte_of_inj in Hb as ->.
  by destruct (IH t Hl He) as [-> ->].
Qed.

Definition framable (s : string) : Prop := is_u64 (str_len s).

Lemma framed_inj s t l l' :
  framable s -> framable t -> framed s ++ l = framed t ++ l' -> s = t /\ l = l'.
Proof.
  intros Hs Ht He. unfold framed in He. rewrite <- !app_assoc in He.
  apply app_inj_1 in He as [Hlen He]; [|by rewrite !to_be_bytes_length].
  apply to_be_bytes_inj in Hlen; [|done..]. apply str_bytes_app in He; [done|].
  unfold str_len in Hlen. lia.
Qed.

Section Digests.
Context `{AuthExternals}.

(** Two inputs of SHA-256 with the same digest. *)
Definition sha256_collision : Prop := exists x y, x <> y /\ sha256 x = sha256 y.

Lemma digest_identifies r c r' c' :
  framable r -> framable c -> framable r' -> framable c' ->
  credential_digest r c = credential_digest r' c' -> (r = r' /\ c = c') \/ sha256_collision.
Proof.
  intros Hr Hc Hr' Hc' He. unfold credential_digest, namespaced_digest in He.
  destruct (decide (DIGEST_DOMAIN ++ framed r ++ framed c = DIGEST_DOMAIN ++ framed r' ++ framed c')) as [Hp|Hp];
    [left|right; by eexists _, _].
  apply app_inv_head in Hp. apply framed_inj in Hp as [-> Hp]; [|done..].
  apply (f_equal (fun l => l ++ [])) in Hp. by apply framed_inj in Hp as [-> _].
Qed.

Lemma partition_identifies r c n r' c' n' :
  framable r -> framable c -> framable r' -> framable c' -> is_u64 n -> is_u64 n' ->
  credential_cache_partition r c n = credential_cache_partition r' c' n' ->
  (r = r' /\ c = c' /\ n = n') \/ sha256_collision.
Proof.
  intros Hr Hc Hr' Hc' Hn Hn' He. unfold credential_cache_partition in He.
  destruct (decide (CACHE_PARTITION_DOMAIN ++ to_be_bytes n ++ framed r ++ framed c =
                    CACHE_PARTITION_DOMAIN ++ to_be_bytes n' ++ framed r' ++ framed c')) as [Hp|Hp];
    [left|right; by eexists _, _].
  apply app_inv_head in Hp. apply app_inj_1 in Hp as [Hb Hp]; [|by rewrite !to_be_bytes_length].
  apply to_be_bytes_inj in Hb as ->; [|done..]. apply framed_inj in Hp as [-> Hp]; [|done..].
  apply (f_equal (fun l => l ++ [])) in Hp. by apply framed_inj in Hp as [-> _].
Qed.

(** The partition is not the verifier digest of any credential. *)
Lemma partition_not_digest r c n r' c' :
  credential_cache_partition r c n = credential_digest r' c' -> sha256_collision.
Proof.
  intros He. eexists _, _. split; [|exact He]. intros Hp.
  apply (f_equal (fun l => l !! 5%nat)) in Hp. vm_compute in Hp. done.
Qed.
End Digests.

(** ** What a snapshot holds *)

Section Snapshots.
Context `{AuthExternals}.

(** [g] is the stored form of the declared grant [w]. *)
Record normalizes (w : CredentialGrantWire) (g : CredentialGrant) : Prop := {
  nz_digest : decode_sha256 (w_credential_sha256 w) = Ok (g_credential_sha256 g);
  nz_principal : g_principal_id g = w_principal_id w;
  nz_enabled : g_enabled g = w_enabled w;
  nz_namespaces : g_namespaces g = normalize_namespaces (w_namespaces w);
  nz_actions : forall a, a ∈ g_actions g <-> a ∈ w_actions w;
  nz_origins : Forall2 (fun raw origin => normalize_declared_origin raw = Ok origin)
                 (w_allowed_origins w) (g_allowed_origins g);
  nz_missing : g_allow_missing_origin g = w_allow_missing_origin w }.

Record grant_wf (g : CredentialGrant) : Prop := {
  gw_digest : length (g_credential_sha256 g) = 32%nat /\ Forall is_u8 (g_credential_sha256 g);
  gw_principal : validate_bounded_label (g_principal_id g) MAX_PRINCIPAL_ID_BYTES = Ok tt;
  gw_namespaces : namespaces_wf (g_namespaces g);
  gw_actions : g_actions g <> ∅;
  gw_origins : Z.of_nat (length (g_allowed_origins g)) <= MAX_ORIGINS_PER_CREDENTIAL }.

(** Every declared grant is stored under its digest, and nothing else is. *)
Record represents (grants : list CredentialGrantWire) (m : gmap (list Z) CredentialGrant) : Prop := {
  rp_stored : forall w, w ∈ grants -> exists g, normalizes w g /\ m !! g_credential_sha256 g = Some g;
  rp_declared : forall d g, m !! d = Some g ->
    d = g_credential_sha256 g /\ grant_wf g /\ exists w, w ∈ grants /\ normalizes w g }.

Lemma validate_namespace_Ok l :
  mapM validate_namespace l = Ok (replicate (length l) tt) -> existsb namespace_bad l = false.
Proof.
  intros Hm%mapM_Ok. induction l as [|n l IH]; [done|].
  inversion Hm as [|? ? ? ? Hn Hl]; subst. cbn. rewrite (IH Hl), orb_false_r.
  unfold validate_namespace, namespace_bad in *. destruct (String.eqb_spec n "*") as [->|Hne]; [done|].
  unfold validate_bounded_label in Hn. cbn in Hn. res_inv. bool_props.
  rewrite Z.gtb_ltb. unfold MAX_AUTHORIZATION_NAMESPACE_BYTES.
  destruct (String.eqb_spec n ""); [done|]. rewrite bool_decide_eq_false_2 by done.
  apply orb_false_iff. split; [by apply Z.ltb_ge|done].
Qed.

Lemma mapM_unit {E A} (f : A -> Res E unit) l k : mapM f l = Ok k -> k = replicate (length l) tt.
Proof.
  intros Hm%mapM_Ok. induction Hm as [|x [] l k _ _ IH]; cbn; [done|]. by rewrite <- IH.
Qed.

Lemma normalize_namespaces_wf l :
  length l <> 0%nat -> Z.of_nat (length l) <= MAX_NAMESPACES_PER_CREDENTIAL ->
  existsb namespace_bad l = false -> namespaces_wf (normalize_namespaces l).
Proof.
  intros H0 Hmax Hbad.
  assert (Hc : namespace_count_bad l = false).
  { destruct l as [|x l]; [done|]. cbn -[Z.of_nat]. rewrite Z.gtb_ltb. apply Z.ltb_ge. done. }
  assert (Ht : NamespaceSet_try_new l = Ok {| namespaces := normalize_namespaces l |}).
  { unfold NamespaceSet_try_new, normalize_namespaces, slice_contains_sorted. rewrite Hc, Hbad.
    cbn [kcmp string_key]. by destruct (binary_search_by _ _). }
  by apply NamespaceSet_try_new_Ok in Ht as [Hwf _].
Qed.

(** The namespace test on the stored list decides the declared one. *)
Lemma namespace_granted_spec w g ns :
  normalizes w g ->
  namespace_granted g ns = true <-> (ns ∈ w_namespaces w) \/ ("*" ∈ w_namespaces w).
Proof.
  intros Hn. unfold namespace_granted. rewrite (nz_namespaces _ _ Hn). unfold normalize_namespaces.
  pose proof (sort_dedup_ascending (w_namespaces w)) as Hs.
  pose proof (slice_contains_sorted_spec _ "*" Hs) as Hstar. rewrite sort_dedup_elem in Hstar.
  destruct (slice_contains_sorted (sort_dedup (w_namespaces w)) "*").
  { cbn. split; [intros _; right; by apply Hstar|done]. }
  assert (Hno : "*" ∉ w_namespaces w) by (intros Hin; by apply Hstar in Hin).
  assert (Hhead : match head (sort_dedup (w_namespaces w)) with
                  | Some first => negb (String.eqb first "*") | None => true end = true).
  { destruct (sort_dedup (w_namespaces w)) as [|x l] eqn:E; [done|]. cbn.
    destruct (String.eqb_spec x "*") as [->|]; [|done]. destruct Hno.
    rewrite <- sort_dedup_elem, E. left. }
  rewrite Hhead, andb_true_l, negb_involutive, slice_contains_sorted_spec, sort_dedup_elem by done.
  split; [by left|by intros [?|?]].
Qed.

Lemma parse_grant_Ok m w m' :
  parse_grant m w = Ok m' ->
  exists g, normalizes w g /\ grant_wf g /\ m !! g_credential_sha256 g = None /\
    m' = <[g_credential_sha256 g := g]> m.
Proof.
  unfold parse_grant. intros Hp. res_inv.
  match goal with |- exists g, _ /\ _ /\ _ /\ <[_ := ?x]> _ = _ => exists x end.
  split_and!; [| | |reflexivity]; cbn.
  - split; cbn; try done; [|by apply mapM_Ok].
    intros act. by rewrite elem_of_list_to_set.
  - bool_props. split; cbn.
    + apply decode_sha256_iff in E as (? & ? & _). done.
    + by destruct a0.
    + apply normalize_namespaces_wf.
      * by apply Nat.eqb_neq.
      * done.
      * apply validate_namespace_Ok. rewrite <- (mapM_unit _ _ _ E3). exact E3.

    + apply Nat.eqb_neq in E4. intros Hz. rewrite Hz in E4. by rewrite size_empty in E4.
    + apply mapM_Ok, Forall2_length in E6. rewrite <- E6. lia.
  - destruct (m !! a); [done|done].
Qed.

Lemma normalizes_digest_inj w g g' :
  normalizes w g -> normalizes w g' -> g_credential_sha256 g = g_credential_sha256 g'.
Proof. intros [H1 _ _ _ _ _ _] [H2 _ _ _ _ _ _]. rewrite H1 in H2. by injection H2. Qed.

Lemma parse_grants_represents before grants m m' :
  represents before m -> parse_grants grants m = Ok m' -> represents (before ++ grants) m'.
Proof.
  revert before m. induction grants as [|w grants IH]; intros before m [Hs Hd]; cbn.
  { intros [= ->]. rewrite app_nil_r. by split. }
  intros Hp. res_inv. apply parse_grant_Ok in E as (g & Hn & Hw & Hnone & ->).
  rewrite (cons_middle w), app_assoc. eapply IH; [|done]. split.
  - intros w' [Hw'|Hw']%elem_of_app.
    + destruct (Hs w' Hw') as (g' & Hn' & Hg'). exists g'. split; [done|].
      rewrite lookup_insert_ne; [done|]. congruence.
    + apply list_elem_of_singleton in Hw' as ->. exists g. by rewrite lookup_insert_eq.
  - intros d g' [[<- <-]|[Hne Hg']]%lookup_insert_Some.
    + split_and!; [done|done|]. exists w. split; [|done]. apply elem_of_app. right. by apply list_elem_of_singleton.
    + destruct (Hd d g' Hg') as (-> & Hw' & w' & Hin & Hn'). split_and!; [done|done|].
      exists w'. split; [|done]. apply elem_of_app. by left.
Qed.

(** A snapshot that was accepted is the normal form of a document of this
    registry. *)
Definition snapshot_of (registry_id : string) (wire : RegistrySnapshotWire) (snap : RegistrySnapshot) : Prop :=
  w_registry_id wire = registry_id /\ w_schema_version wire = 1 /\
  s_revision snap = w_revision wire /\
  Z.of_nat (length (w_credentials wire)) <= MAX_CREDENTIALS_PER_REGISTRY /\
  represents (w_credentials wire) (s_credentials snap).

Lemma RegistrySnapshot_parse_Ok registry_id body snap :
  RegistrySnapshot_parse registry_id body = Ok snap ->
  exists wire, from_slice body = Some wire /\ snapshot_of registry_id wire snap.
Proof.
  unfold RegistrySnapshot_parse. intros Hp. res_inv. bool_props. exists a. split; [done|].
  split_and!; [by apply String.eqb_eq|done|done|done|].
  eapply (parse_grants_represents []); [|done]. split; [by intros w ?%not_elem_of_nil|].
  intros d g. by rewrite lookup_empty.
Qed.
End Snapshots.

(** ** The decision, declaratively *)

Section Verdict.
Context `{AuthExternals}.

Definition access_tokens (query : option string) : list string :=
  match query with
  | Some query => omap (fun kv => if String.eqb kv.1 "access_token" then Some kv.2 else None)
                    (form_urlencoded_parse query)
  | None => []
  end.

(** The one credential a request presents: a bearer header and no query token,
    or a query token and no header. *)
Inductive presents (headers : HeaderMap) (query : option string) : PresentedCredential -> Prop :=
  | presents_header value s scheme token :
      headers AUTHORIZATION = [value] -> to_str value = Some s ->
      split_once " " s = Some (scheme, token) ->
      eq_ignore_ascii_case scheme "bearer" = true -> token <> "" -> contains_whitespace token = false ->
      access_tokens query = [] ->
      presents headers query {| pc_value := token; pc_from_query := false |}
  | presents_query token :
      headers AUTHORIZATION = [] -> access_tokens query = [token] ->
      presents headers query {| pc_value := token; pc_from_query := true |}.

Record enveloped (token registry_id credential : string) : Prop := {
  ev_token : token = registry_id +:+ "." +:+ credential;
  ev_registry : validate_registry_id registry_id = Ok tt;
  ev_nonempty : credential <> "";
  ev_bounded : str_len credential <= MAX_CREDENTIAL_BYTES;
  ev_bytes : str_existsb (fun b => is_ascii_control b || is_ascii_whitespace b) credential = false }.

Lemma find_access_token_spec pairs tok :
  find_access_token pairs tok =
  match tok, omap (fun kv : string * string => if String.eqb kv.1 "access_token" then Some kv.2 else None) pairs with
  | o, [] => Ok o
  | None, [v] => Ok (Some v)
  | _, _ => Err InvalidCredential
  end.
Proof.
  revert tok. induction pairs as [|[k v] pairs IH]; intros tok; [by destruct tok|].
  cbn. destruct (String.eqb k "access_token"); cbn; [|by apply IH].
  destruct tok as [t|]; cbn; [done|]. rewrite IH.
  by destruct (omap _ pairs) as [|x [|y l]].
Qed.

Lemma access_token_spec query :
  access_token_from_query query =
  match access_tokens query with
  | [] => Ok None
  | [v] => Ok (Some v)
  | _ => Err InvalidCredential
  end.
Proof.
  unfold access_token_from_query, access_tokens. destruct query as [q|]; [|done].
  by rewrite find_access_token_spec.
Qed.

Lemma bearer_token_Ok headers o :
  bearer_token headers = Ok o ->
  match o with
  | None => headers AUTHORIZATION = []
  | Some token => exists value s scheme,
      headers AUTHORIZATION = [value] /\ to_str value = Some s /\ split_once " " s = Some (scheme, token) /\
      eq_ignore_ascii_case scheme "bearer" = true /\ token <> "" /\ contains_whitespace token = false
  end.
Proof.
  unfold bearer_token. destruct (headers AUTHORIZATION) as [|v more] eqn:Eh; [by intros [= <-]|].
  intros Hb. res_inv. destruct a0 as [sch tok]. res_inv. bool_props. destruct more; [|done].
  exists v, a, sch. split_and!; try done. by apply String.eqb_neq.
Qed.

(** [delivery_token] succeeds exactly on the credential that is presented, and
    every other request is answered with an invalid credential. *)
Lemma delivery_token_spec headers query :
  match delivery_token headers query with
  | Ok p => presents headers query p
  | Err e => e = InvalidCredential /\ forall p, ~ presents headers query p
  | Panic => False
  end.
Proof.
  unfold delivery_token. destruct (bearer_token headers) as [o|e|] eqn:Eb; res_simpl.
  - pose proof (bearer_token_Ok _ _ Eb) as Hb. rewrite access_token_spec.
    destruct (access_tokens query) as [|t [|t' ts]] eqn:Et; res_simpl; destruct o as [tok|]; res_simpl.
    + destruct Hb as (v & s & sch & ? & ? & ? & ? & ? & ?). by econstructor.
    + split; [done|]. intros p [? ? ? ? Hh|? Hh Ht]; congruence.
    + split; [done|]. intros p [? ? ? ? Hh ? ? ? ? ? Ht|? Hh Ht]; [congruence|].
      destruct Hb as (? & ? & ? & ? & _). congruence.
    + by constructor.
    + split; [done|]. intros p [? ? ? ? Hh ? ? ? ? ? Ht|? Hh Ht]; congruence.
    + split; [done|]. intros p [? ? ? ? Hh ? ? ? ? ? Ht|? Hh Ht]; congruence.
  - revert Eb. unfold bearer_token. destruct (headers AUTHORIZATION) as [|v more] eqn:Eh; [done|].
    intros Hb. split.
    { res_inv; try done. destruct a0. by res_inv. }
    intros p [value s sch tok Hh Hs Hsp Hbear Hne Hws Ht|? Hh Ht]; [|congruence].
    rewrite Eh in Hh. injection Hh as -> ->. revert Hb. cbn. rewrite Hs. res_simpl. rewrite Hsp. res_simpl.
    rewrite Hbear, Hws. apply String.eqb_neq in Hne. rewrite Hne. done.
  - revert Eb. unfold bearer_token. destruct (headers AUTHORIZATION) as [|v more]; [done|].
    intros Hb. res_inv. destruct a0. by res_inv.
Qed.

Lemma registry_id_no_dot r : validate_registry_id r = Ok tt -> ~ str_In "."%char r.
Proof.
  unfold validate_registry_id. intros Hv. res_inv. clear E. revert Hv.
  destruct (str_all _ r) eqn:Ha; [|done]. intros _. revert Ha.
  induction r as [|a r IH]; cbn; [auto|]. intros [Ha Hr]%andb_prop [->|Hin]; [done|by apply IH].
Qed.

Lemma enveloped_unique token r c r' c' :
  enveloped token r c -> enveloped token r' c' -> r = r' /\ c = c'.
Proof.
  intros [-> Hr _ _ _] [Ht Hr' _ _ _]. apply registry_id_no_dot in Hr, Hr'.
  apply (f_equal (split_once ".")) in Ht.
  change ("." +:+ c) with (String "." c) in Ht. change ("." +:+ c') with (String "." c') in Ht.
  rewrite !split_once_app in Ht by done. by injection Ht.
Qed.

Lemma presents_unique headers query p p' : presents headers query p -> presents headers query p' -> p = p'.
Proof. intros Hp Hp'. destruct Hp, Hp'; simplify_eq; congruence. Qed.

Lemma parse_token_envelope_spec token :
  match parse_token_envelope token with
  | Ok (r, c) => enveloped token r c
  | Err e => e = InvalidCredential /\ forall r c, ~ enveloped token r c
  | Panic => False
  end.
Proof.
  unfold parse_token_envelope. destruct (split_once "." token) as [[r c]|] eqn:Es; res_simpl.
  2: { split; [done|]. intros r c [-> Hr _ _ _]. apply registry_id_no_dot in Hr.
       change ("." +:+ c) with (String "." c) in Es. by rewrite split_once_app in Es. }
  apply split_once_Some in Es as [-> Hnd].
  assert (Hu : forall r' c', enveloped (r +:+ String "." c) r' c' -> r' = r /\ c' = c).
  { intros r' c' [Ht Hr' _ _ _]. apply registry_id_no_dot in Hr'.
    apply (f_equal (split_once ".")) in Ht. change ("." +:+ c') with (String "." c') in Ht.
    rewrite !split_once_app in Ht by done. by injection Ht. }
  destruct (validate_registry_id r) as [[]|e|] eqn:Ev; res_simpl.
  - destruct (String.eqb_spec c "") as [Hc|Hc]; [|destruct (MAX_CREDENTIAL_BYTES <? str_len c) eqn:El;
      [|destruct (str_existsb _ c) eqn:Eb]]; res_simpl.
    1-3: split; [done|]; intros r' c' Henv; destruct (Hu _ _ Henv) as [-> ->];
         destruct Henv as [_ _ ? ? ?]; bool_props; congruence || lia.
    bool_props. by split.
  - split; [done|]. intros r' c' Henv. destruct (Hu _ _ Henv) as [-> ->]. destruct Henv. congruence.
  - revert Ev. unfold validate_registry_id. intros Hv. res_inv.
Qed.

(** The request names an origin the grant declares, or names none where that is
    tolerated; a grant without origins admits every request. *)
Definition origin_permitted (w : CredentialGrantWire) (headers : HeaderMap) : Prop :=
  w_allowed_origins w = [] \/
  (exists raw origin, request_origin headers = Ok (Some origin) /\
     raw ∈ w_allowed_origins w /\ normalize_declared_origin raw = Ok origin) \/
  (request_origin headers = Ok None /\ w_allow_missing_origin w = true).

Record permits (w : CredentialGrantWire) (namespace : option string) (action : DeliveryAction)
    (headers : HeaderMap) : Prop := {
  pm_namespace : forall ns, namespace = Some ns -> (ns ∈ w_namespaces w) \/ ("*" ∈ w_namespaces w);
  pm_action : action ∈ w_actions w;
  pm_origin : origin_permitted w headers }.

Lemma single_header_cases headers name :
  single_header headers name = Err Forbidden \/ exists o, single_header headers name = Ok o.
Proof.
  unfold single_header. destruct (headers name) as [|v more]; [by eauto|].
  destruct (Nat.eqb (length more) 0); res_simpl; [|by left]. destruct (to_str v); res_simpl; eauto.
Qed.

Lemma normalize_no_panic raw : normalize_declared_origin raw <> Panic /\ normalize_referer_origin raw <> Panic.
Proof. unfold normalize_declared_origin, normalize_referer_origin. split; no_panic. Qed.

Lemma request_origin_cases headers :
  request_origin headers = Err Forbidden \/ exists o, request_origin headers = Ok o.
Proof.
  unfold request_origin.
  destruct (single_header_cases headers ORIGIN) as [->|[[o|] ->]]; res_simpl; [by left| |].
  - cbn [try_map_option]. pose proof (proj1 (normalize_no_panic o)) as Hp.
    destruct (normalize_declared_origin o); res_simpl; [by eauto|by left|done].
  - destruct (single_header_cases headers REFERER) as [->|[[o|] ->]]; res_simpl; [by left| |by eauto].
    cbn [try_map_option]. pose proof (proj2 (normalize_no_panic o)) as Hp.
    destruct (normalize_referer_origin o); res_simpl; [by eauto|by left|done].
Qed.

Lemma declared_origin_stored w g origin :
  normalizes w g ->
  origin ∈ g_allowed_origins g <->
  exists raw, raw ∈ w_allowed_origins w /\ normalize_declared_origin raw = Ok origin.
Proof.
  intros Hn. pose proof (nz_origins _ _ Hn) as Ho. split.
  - intros (i & Hi)%list_elem_of_lookup. destruct (Forall2_lookup_r _ _ _ _ _ Ho Hi) as (raw & Hr & ?).
    exists raw. split; [by eapply list_elem_of_lookup_2|done].
  - intros (raw & (i & Hi)%list_elem_of_lookup & Hraw).
    destruct (Forall2_lookup_l _ _ _ _ _ Ho Hi) as (o & Hio & He).
    rewrite Hraw in He. injection He as ->. by eapply list_elem_of_lookup_2.
Qed.

Lemma authorize_origin_spec w g headers :
  normalizes w g ->
  (authorize_origin headers g = Ok tt /\ origin_permitted w headers) \/
  (authorize_origin headers g = Err Forbidden /\ ~ origin_permitted w headers).
Proof.
  intros Hn. unfold authorize_origin, origin_permitted.
  pose proof (nz_origins _ _ Hn) as Ho. apply Forall2_length in Ho. rewrite <- Ho.
  destruct (w_allowed_origins w) as [|raw0 raws] eqn:Ew; [by auto|]. cbn [length Nat.eqb].
  destruct (request_origin_cases headers) as [Hr|[[o|] Hr]]; rewrite Hr; res_simpl.
  - right. split; [done|]. by intros [?|[(? & ? & ? & _)|[? _]]].
  - case_bool_decide as Hin; res_simpl; [left|right]; (split; [done|]).
    + apply (declared_origin_stored w) in Hin as (raw & ? & ?); [|done]. rewrite Ew in *. eauto 7.
    + intros [?|[(raw & o' & [= <-] & Hraw & Ho')|[? _]]]; [done| |done]. apply Hin.
      apply (declared_origin_stored w); [done|]. rewrite Ew. eauto.
  - rewrite (nz_missing _ _ Hn). destruct (w_allow_missing_origin w); res_simpl; [by left; split; [|right; right]|].
    right. split; [done|]. by intros [?|[(? & ? & ? & _)|[_ ?]]].
Qed.

Lemma constant_time_eq_refl d : constant_time_eq d d = true.
Proof.
  unfold constant_time_eq. apply Z.eqb_eq. induction d as [|b d IH]; [done|]. cbn.
  rewrite Z.lxor_nilpotent. exact IH.
Qed.

(** A request that reached the lookup of its registry. *)
Record candidate (catalog : RegistryCatalog) (headers : HeaderMap) (query : option string)
    (p : PresentedCredential) (registry_id credential : string) (config : RegistryConfig) : Prop := {
  ca_presents : presents headers query p;
  ca_envelope : enveloped (pc_value p) registry_id credential;
  ca_config : bt_get registry_id catalog = Some config }.

(** [w] is the enabled grant the document lists for a credential. *)
Definition declared (wire : RegistrySnapshotWire) (registry_id credential : string)
    (w : CredentialGrantWire) : Prop :=
  w ∈ w_credentials wire /\ w_credential_sha256 w = credential_sha256 registry_id credential /\
  w_enabled w = true.

Definition find_grant (snap : RegistrySnapshot) (digest : list Z) : option CredentialGrant :=
  match s_credentials snap !! digest with
  | Some grant =>
      if g_enabled grant && constant_time_eq (g_credential_sha256 grant) digest then Some grant else None
  | None => None
  end.

Lemma find_grant_declared `{!AuthExternalsLaws} wire snap r c :
  snapshot_of r wire snap ->
  match find_grant snap (credential_digest r c) with
  | Some g => exists w, declared wire r c w /\ normalizes w g
  | None => forall w, ~ declared wire r c w
  end.
Proof.
  intros (_ & _ & _ & _ & [Hst Hde]). unfold find_grant, declared, credential_sha256.
  set (d := credential_digest r c).
  assert (Hd : forall w g, normalizes w g -> g_credential_sha256 g = d <-> w_credential_sha256 w = encode_sha256_bytes d).
  { intros w g Hn. pose proof (nz_digest _ _ Hn) as Hh. split.
    - intros <-. by apply decode_sha256_iff in Hh as (_ & _ & ->).
    - intros Hw. assert (Hok : decode_sha256 (w_credential_sha256 w) = Ok d).
      { apply decode_sha256_iff. split_and!; [apply sha256_length|apply sha256_bytes|done]. }
      rewrite Hok in Hh. by injection Hh. }
  assert (Hnone : forall g w, s_credentials snap !! d = Some g -> g_enabled g = false ->
    ~ (w ∈ w_credentials wire /\ w_credential_sha256 w = encode_sha256_bytes d /\ w_enabled w = true)).
  { intros g w Hg He (Hin & Hw & Hen). destruct (Hst w Hin) as (g' & Hn & Hg').
    apply (Hd _ _ Hn) in Hw. rewrite Hw, Hg in Hg'. injection Hg' as <-.
    pose proof (nz_enabled _ _ Hn). congruence. }
  destruct (s_credentials snap !! d) as [g|] eqn:Eg.
  - destruct (Hde d g Eg) as (Hdg & _ & w & Hin & Hn). rewrite <- Hdg, constant_time_eq_refl, andb_true_r.
    destruct (g_enabled g) eqn:Een; [|intros w'; by eapply Hnone].
    exists w. split; [|done]. split_and!; [done| |].
    + by apply (Hd _ _ Hn).
    + by rewrite <- (nz_enabled _ _ Hn).
  - intros w (Hin & Hw & _). destruct (Hst w Hin) as (g & Hn & Hg).
    apply (Hd _ _ Hn) in Hw. congruence.
Qed.

(** The tests on the stored grant decide what the document permits. *)
Lemma grant_tests_spec w g namespace action headers :
  normalizes w g ->
  let refused := match namespace with
                 | Some namespace => negb (namespace_granted g namespace)
                 | None => false
                 end || negb (bool_decide (action ∈ g_actions g)) in
  (refused = false /\ authorize_origin headers g = Ok tt /\ permits w namespace action headers) \/
  (~ permits w namespace action headers /\
   (refused = true \/ refused = false /\ authorize_origin headers g = Err Forbidden)).
Proof.
  intros Hn refused. destruct refused eqn:Er; subst refused.
  - right. split; [|by left]. intros [Hns Hac _]. apply orb_true_iff in Er as [Er|Er].
    + destruct namespace as [ns|]; [|done]. apply negb_true_iff in Er.
      specialize (Hns ns eq_refl). apply (namespace_granted_spec _ _ _ Hn) in Hns. congruence.
    + apply negb_true_iff, bool_decide_eq_false in Er. by apply Er, (nz_actions _ _ Hn).
  - apply orb_false_iff in Er as [Ens Eac]. apply negb_false_iff, bool_decide_eq_true in Eac.
    destruct (authorize_origin_spec w g headers Hn) as [[Ho Hp]|[Ho Hp]].
    + left. split_and!; [done|done|]. split; [|by apply (nz_actions _ _ Hn)|done].
      intros ns ->. apply negb_false_iff in Ens. by apply (namespace_granted_spec _ _ _ Hn).
    + right. split; [by intros []|]. by right.
Qed.

Section Decisions.
Context `{!AuthExternalsLaws} (catalog : RegistryCatalog)
  (snapshot : string -> RegistryConfig -> Res unit RegistrySnapshot)
  (headers : HeaderMap) (query namespace : option string) (action : DeliveryAction).

(** What the registry lookup hands out: parsed documents of that registry. *)
Definition snapshots_parsed : Prop := forall r c,
  match snapshot r c with
  | Ok snap => exists body, RegistrySnapshot_parse r body = Ok snap
  | Err _ => True
  | Panic => False
  end.

Definition verdict (result : Res AuthFailure AuthorizedDelivery) : Prop :=
  match result with
  | Ok d => exists p r c config snap wire w,
      candidate catalog headers query p r c config /\ snapshot r config = Ok snap /\
      snapshot_of r wire snap /\ declared wire r c w /\ permits w namespace action headers /\
      d = {| ad_principal_id := w_principal_id w; ad_registry_id := r;
             ad_readable_namespaces := normalize_namespaces (w_namespaces w);
             ad_cache_partition := credential_cache_partition r c (w_revision wire);
             ad_presented_token := pc_value p; ad_propagate_access_token := pc_from_query p |}
  | Err Forbidden => exists p r c config snap wire w,
      candidate catalog headers query p r c config /\ snapshot r config = Ok snap /\
      snapshot_of r wire snap /\ declared wire r c w /\ ~ permits w namespace action headers
  | Err Unavailable => exists p r c config,
      candidate catalog headers query p r c config /\ snapshot r config = Err tt
  | Err InvalidCredential => forall p r c config,
      candidate catalog headers query p r c config ->
      exists snap wire, snapshot r config = Ok snap /\ snapshot_of r wire snap /\
        forall w, ~ declared wire r c w
  | Panic => False
  end.

Lemma candidate_unique p r c config p' r' c' config' :
  candidate catalog headers query p r c config -> candidate catalog headers query p' r' c' config' ->
  p = p' /\ r = r' /\ c = c' /\ config = config'.
Proof.
  intros [Hp He Hc] [Hp' He' Hc']. rewrite (presents_unique _ _ _ _ Hp' Hp) in He'.
  destruct (enveloped_unique _ _ _ _ _ He He') as [<- <-]. rewrite Hc in Hc'. injection Hc' as <-.
  by rewrite (presents_unique _ _ _ _ Hp' Hp).
Qed.

Lemma authorize_spec :
  snapshots_parsed -> verdict (authorize catalog snapshot headers query namespace action).
Proof.
  intros Hsnap. unfold authorize.
  pose proof (delivery_token_spec headers query) as Ht.
  destruct (delivery_token headers query) as [p|e|]; res_simpl; [| |done].
  2: { destruct Ht as [-> Ht]. intros p r c config [Hp _ _]. by destruct (Ht p). }
  pose proof (parse_token_envelope_spec (pc_value p)) as He.
  destruct (parse_token_envelope (pc_value p)) as [[r c]|e|]; res_simpl; [| |done].
  2: { destruct He as [-> He]. intros p' r c config [Hp Henv _].
       rewrite (presents_unique _ _ _ _ Hp Ht) in Henv. by destruct (He r c). }
  destruct (bt_get r catalog) as [config|] eqn:Ec; res_simpl.
  2: { intros p' r' c' config [Hp Henv Hc]. exfalso.
       rewrite (presents_unique _ _ _ _ Hp Ht) in Henv. destruct (enveloped_unique _ _ _ _ _ He Henv) as [<- _].
       congruence. }
  assert (Hca : candidate catalog headers query p r c config) by (by split).
  specialize (Hsnap r config).
  destruct (snapshot r config) as [snap|[]|] eqn:Es; res_simpl; [|by exists p, r, c, config|done].
  destruct Hsnap as (body & Hbody). apply RegistrySnapshot_parse_Ok in Hbody as (wire & _ & Hso).
  pose proof (find_grant_declared wire snap r c Hso) as Hg. fold (find_grant snap (credential_digest r c)).
  destruct (find_grant snap (credential_digest r c)) as [g|]; res_simpl.
  2: { intros p' r' c' config' Hca'. destruct (candidate_unique _ _ _ _ _ _ _ _ Hca Hca') as (<- & <- & <- & <-).
       eauto. }
  destruct Hg as (w & Hw & Hn).
  destruct (grant_tests_spec w g namespace action headers Hn) as [(-> & -> & Hp)|[Hp [->|[-> ->]]]]; res_simpl.
  - exists p, r, c, config, snap, wire, w. split_and!; try done. destruct Hso as (_ & _ & <- & _).
    by rewrite (nz_principal _ _ Hn), (nz_namespaces _ _ Hn).
  - by exists p, r, c, config, snap, wire, w.
  - by exists p, r, c, config, snap, wire, w.
Qed.
End Decisions.

(** ** What the render ingress makes of a decision *)

Lemma str_existsb_app f s t : str_existsb f (s +:+ t) = str_existsb f s || str_existsb f t.
Proof.
  induction s as [|a s IH]; [done|]. rewrite app_String. cbn. by rewrite IH, orb_assoc.
Qed.

Lemma registry_id_bytes r :
  validate_registry_id r = Ok tt -> str_existsb (fun b => is_ascii_control b || is_ascii_whitespace b) r = false.
Proof.
  unfold validate_registry_id. intros Hv. res_inv. clear E. revert Hv.
  destruct (str_all _ r) eqn:Ha; [|done]. intros _. revert Ha.
  induction r as [|a r IH]; [done|]. cbn [str_all str_existsb]. intros [Ha Hr]%andb_prop.
  rewrite (IH Hr), orb_false_r. clear -Ha. destruct a as [[] [] [] [] [] [] [] []]; done.
Qed.

(** A presented token is a valid provider token exactly when it is short enough. *)
Lemma token_for_provider token r c :
  enveloped token r c ->
  ProviderBearerToken_try_new token =
  if MAX_PROVIDER_BEARER_TOKEN_BYTES <? str_len token then Err TokenInvalid else Ok {| token := token |}.
Proof.
  intros [-> Hr Hne _ Hb]. unfold ProviderBearerToken_try_new. rewrite !str_existsb_app, Hb.
  rewrite (registry_id_bytes _ Hr). cbn [str_existsb]. rewrite !orb_false_r, Z.gtb_ltb.
  rewrite bool_decide_eq_false_2; [done|]. destruct r; [done|]. by rewrite app_String.
Qed.

Lemma grant_namespaces_accepted `{!AuthExternalsLaws} r wire snap w c :
  snapshot_of r wire snap -> declared wire r c w -> namespaces_wf (normalize_namespaces (w_namespaces w)).
Proof.
  intros (_ & _ & _ & _ & [Hst Hde]) (Hin & _ & _). destruct (Hst w Hin) as (g & Hn & Hg).
  rewrite <- (nz_namespaces _ _ Hn). apply Hde in Hg as (_ & Hwf & _). apply (gw_namespaces _ Hwf).
Qed.

Definition ingress_verdict catalog snapshot headers query style_namespace
    (result : Res AuthFailure RenderAuthorization) : Prop :=
  match result with
  | Ok ra => exists p r c config snap wire w,
      candidate catalog headers query p r c config /\ snapshot r config = Ok snap /\
      snapshot_of r wire snap /\ declared wire r c w /\
      permits w (Some style_namespace) RenderStatic headers /\
      token (provider_bearer_token ra) = pc_value p /\
      cache_partition ra = credential_cache_partition r c (w_revision wire) /\
      namespaces_wf (namespaces (readable_namespaces ra)) /\
      (** The task may read exactly what the document grants. *)
      forall required, allows (readable_namespaces ra) required = true <->
        ("*" ∈ w_namespaces w) \/
        (("*" ∉ namespaces required) /\ forall ns, ns ∈ namespaces required -> ns ∈ w_namespaces w)
  | Err e => authorize_static catalog snapshot headers query style_namespace = Err e
  | Panic => exists d, authorize_static catalog snapshot headers query style_namespace = Ok d /\
      MAX_PROVIDER_BEARER_TOKEN_BYTES < str_len (ad_presented_token d)
  end.

Lemma normalize_namespaces_elem l ns :
  ns ∈ normalize_namespaces l <-> if bool_decide ("*" ∈ l) then ns = "*" else ns ∈ l.
Proof.
  unfold normalize_namespaces.
  pose proof (slice_contains_sorted_spec _ "*" (sort_dedup_ascending l)) as Hs. rewrite sort_dedup_elem in Hs.
  destruct (slice_contains_sorted (sort_dedup l) "*").
  - rewrite bool_decide_eq_true_2 by (by apply Hs). apply list_elem_of_singleton.
  - rewrite bool_decide_eq_false_2 by (intros Hin; by apply Hs in Hin). apply sort_dedup_elem.
Qed.

Lemma normalized_allows l required :
  namespaces_wf (normalize_namespaces l) ->
  allows {| namespaces := normalize_namespaces l |} required = true <->
  ("*" ∈ l) \/ (("*" ∉ namespaces required) /\ forall ns, ns ∈ namespaces required -> ns ∈ l).
Proof.
  intros Hwf. rewrite allows_spec by done. cbn [namespaces].
  assert (Hstar : "*" ∈ normalize_namespaces l <-> "*" ∈ l).
  { rewrite normalize_namespaces_elem. by case_bool_decide. }
  rewrite Hstar. destruct (decide ("*" ∈ l)) as [Hin|Hin]; [by split; intros _; left|].
  split; (intros [?|[Hr Hall]]; [done|right; split; [done|]]); intros ns Hns.
  - apply Hall, normalize_namespaces_elem in Hns. by rewrite bool_decide_eq_false_2 in Hns.
  - apply normalize_namespaces_elem. rewrite bool_decide_eq_false_2 by done. by apply Hall.
Qed.

Lemma ingress_authorization_spec `{!AuthExternalsLaws} catalog snapshot headers query ns :
  snapshots_parsed snapshot ->
  ingress_verdict catalog snapshot headers query ns (ingress_authorization catalog snapshot headers query ns).
Proof.
  intros Hs. unfold ingress_authorization, authorize_static.
  pose proof (authorize_spec catalog snapshot headers query (Some ns) RenderStatic Hs) as Hv.
  destruct (authorize _ _ _ _ _ _) as [d|e|] eqn:Ea; res_simpl; [|done|done].
  destruct Hv as (p & r & c & config & snap & wire & w & Hca & Hsn & Hso & Hd & Hp & ->).
  unfold render_authorization, backend_bearer_token. cbn [ad_readable_namespaces ad_presented_token].
  pose proof (grant_namespaces_accepted r wire snap w c Hso Hd) as Hwf.
  rewrite (proj2 (try_from_shared_Ok _ {| namespaces := normalize_namespaces (w_namespaces w) |}))
    by (split; [done|exact Hwf]). cbn [expect]. res_simpl.
  rewrite (token_for_provider _ _ _ (ca_envelope _ _ _ _ _ _ _ Hca)).
  destruct (Z.ltb_spec MAX_PROVIDER_BEARER_TOKEN_BYTES (str_len (pc_value p))) as [Hl|Hl]; cbn [expect]; res_simpl.
  { eexists. split; [exact Ea|done]. }
  exists p, r, c, config, snap, wire, w. split_and!; try done.
  intros required. by apply normalized_allows.
Qed.
End Verdict.



(** ** Witnesses *)

(** A small stand-in for the libraries: URLs are https origins, a query is one
    access token, header values are strings, the only JSON document is the body
    [0], and the digest is a checksum. *)
Definition demo_sha256 (l : list Z) : list Z :=
  replicate 32 (foldl (fun h b => (h * 31 + b) mod 65521) 7 l mod 256).
Definition demo_digest (credential : string) : string :=
  encode_sha256_bytes (demo_sha256 (DIGEST_DOMAIN ++ framed "public" ++ framed credential)).
Definition demo_long_credential : string := bytes_str (replicate 4096 97).
Definition demo_grant (credential : string) (namespaces origins : list string) : CredentialGrantWire :=
  {| w_credential_sha256 := demo_digest credential; w_principal_id := "client"; w_enabled := true;
     w_namespaces := namespaces; w_actions := [RenderStatic]; w_allowed_origins := origins;
     w_allow_missing_origin := false |}.
Definition demo_document : RegistrySnapshotWire :=
  {| w_schema_version := 1; w_registry_id := "public"; w_revision := 3;
     w_credentials := [demo_grant "secret" ["terrain"; "basemap"; "terrain"] ["https://a.example"];
                       demo_grant demo_long_credential ["*"; "terrain"] []] |}.

Definition demo_externals : AuthExternals := {|
  Url := string;
  Url_parse s := Some s; scheme _ := "https"; username _ := ""; password _ := None;
  host _ := Some "a.example"; path _ := "/"; query _ := None; fragment _ := None;
  cannot_be_a_base _ := false; url_join u p := Some (u +:+ p); origin_ascii u := u;
  form_urlencoded_parse q := [("access_token", q)];
  HeaderValue := string; to_str s := Some s;
  from_slice body := if decide (body = [0]) then Some demo_document else None;
  sha256 := demo_sha256 |}.

#[local] Existing Instance demo_externals.

Lemma demo_externals_laws : AuthExternalsLaws.
Proof.
  split; intros l; [done|]; change (sha256 l) with (demo_sha256 l); unfold demo_sha256.
  apply Forall_replicate. unfold is_u, u8_max.
  pose proof (Z.mod_pos_bound (foldl (fun h b => (h * 31 + b) mod 65521) 7 l) 256). lia.
Qed.

#[local] Existing Instance demo_externals_laws.

Definition demo_catalog : RegistryCatalog := [("public", {| current_url := "https://auth.example/current.json" |})].
Definition demo_snapshot (registry_id : string) (_ : RegistryConfig) : Res unit RegistrySnapshot :=
  match RegistrySnapshot_parse registry_id [0] with Ok snap => Ok snap | _ => Err tt end.
Definition demo_headers (bearer origin : list string) : HeaderMap := fun name =>
  match name with AUTHORIZATION => bearer | ORIGIN => origin | REFERER => [] end.

Lemma demo_snapshots_parsed : snapshots_parsed demo_snapshot.
Proof.
  intros r c. unfold demo_snapshot. destruct (RegistrySnapshot_parse r [0]) eqn:E; eauto.
Qed.


(** A registered credential of 4096 bytes is accepted by the verifier and panics
    the render ingress. *)
Lemma oversized_token_panics :
  is_ok (authorize_static demo_catalog demo_snapshot (demo_headers [] [])
           (Some ("public." +:+ demo_long_credential)) "terrain") = true /\
  ingress_authorization demo_catalog demo_snapshot (demo_headers [] [])
    (Some ("public." +:+ demo_long_credential)) "terrain" = Panic.
Proof. vm_compute. done. Qed.

