(* ===== verification/AuthRegistry.v ===== *)
(** * Loading of credential registries

    Models the registry side of [crates/mmpf-auth/src/lib.rs]: the snapshot cache
    of [DeliveryAuth], its refresh from the object store, the cold retry delay,
    the protection against revision rollback, and the single flight that elects
    the request which refreshes.

    Every request that needs a snapshot is a program counter; [poll] runs it up to
    its next access of shared state or its next await, so requests interleave
    between any two accesses. The object store and the clock answer through
    [Input]. The [moka] cache is a map that may drop any entry at any time;
    [source_bytes] is only its weight. *)

From S2P Require Import Prelude StdModel Types SingleFlight DeliveryAuth.

Section AuthRegistry.
Context `{AuthExternals}.

Record CachedRegistry := {
  cr_snapshot : RegistrySnapshot; cr_etag : option string;
  cr_refresh_after : Z; cr_source_bytes : Z }.
Record InstalledRevision := { ir_revision : Z; ir_body_sha256 : list Z }.

Record DeliveryAuthInner := {
  da_cache : gmap string CachedRegistry;
  da_cold_retry_after : gmap string Z;
  da_installed_revisions : gmap string InstalledRevision;
  da_refreshes : SingleFlight string unit;
  da_refresh_permits : Z }.

Definition DeliveryAuth_new (catalog : RegistryCatalog) : option DeliveryAuthInner :=
  if auth_enabled catalog
  then Some {| da_cache := ∅; da_cold_retry_after := ∅; da_installed_revisions := ∅;
               da_refreshes := SingleFlight_default; da_refresh_permits := MAX_CONCURRENT_REGISTRY_LOADS |}
  else None.

Definition with_cache (cache : gmap string CachedRegistry) (s : DeliveryAuthInner) : DeliveryAuthInner :=
  {| da_cache := cache; da_cold_retry_after := da_cold_retry_after s;
     da_installed_revisions := da_installed_revisions s; da_refreshes := da_refreshes s;
     da_refresh_permits := da_refresh_permits s |}.
Definition with_cold (cold : gmap string Z) (s : DeliveryAuthInner) : DeliveryAuthInner :=
  {| da_cache := da_cache s; da_cold_retry_after := cold;
     da_installed_revisions := da_installed_revisions s; da_refreshes := da_refreshes s;
     da_refresh_permits := da_refresh_permits s |}.
Definition with_installed (installed : gmap string InstalledRevision) (s : DeliveryAuthInner) : DeliveryAuthInner :=
  {| da_cache := da_cache s; da_cold_retry_after := da_cold_retry_after s;
     da_installed_revisions := installed; da_refreshes := da_refreshes s;
     da_refresh_permits := da_refresh_permits s |}.
Definition with_refreshes (refreshes : SingleFlight string unit) (s : DeliveryAuthInner) : DeliveryAuthInner :=
  {| da_cache := da_cache s; da_cold_retry_after := da_cold_retry_after s;
     da_installed_revisions := da_installed_revisions s; da_refreshes := refreshes;
     da_refresh_permits := da_refresh_permits s |}.
Definition with_permits (permits : Z) (s : DeliveryAuthInner) : DeliveryAuthInner :=
  {| da_cache := da_cache s; da_cold_retry_after := da_cold_retry_after s;
     da_installed_revisions := da_installed_revisions s; da_refreshes := da_refreshes s;
     da_refresh_permits := permits |}.

Definition refresh_at (cached : CachedRegistry) (refresh_after : Z) : CachedRegistry :=
  {| cr_snapshot := cr_snapshot cached; cr_etag := cr_etag cached;
     cr_refresh_after := refresh_after; cr_source_bytes := cr_source_bytes cached |}.

(** ** Requests *)

(** A parsed body on its way into the cache. *)
Record Candidate := {
  cd_snapshot : RegistrySnapshot; cd_body_sha256 : list Z; cd_etag : option string; cd_len : Z }.

(** The position of a leader inside [refresh]. *)
Inductive RefreshPc :=
  | TryPermit
  | ReadPrevious
  | AwaitGet (previous : option CachedRegistry)
  | Reinsert (cached : CachedRegistry)
  | AwaitBody (etag : option string)
  | CheckInstalled (c : Candidate)
  | Install (c : Candidate)
  | ClearCold (c : Candidate)
  | CacheInsert (c : Candidate)
  | RefreshReturned (result : Res unit RegistrySnapshot).

(** The position of a request inside [snapshot]. *)
Inductive Pc :=
  | LoopTop
  | ColdContains (now : Z)
  | ColdRetry (now : Z)
  | BeginFlight
  | Refreshing (leader : LeaderGuard string unit) (r : RefreshPc)
  | Deferring (leader : LeaderGuard string unit)
  | DeferStale (leader : LeaderGuard string unit) (cached : CachedRegistry)
  | DeferCold (leader : LeaderGuard string unit)
  | LeaderReturn (leader : LeaderGuard string unit) (result : Res unit RegistrySnapshot)
  | Following (follower : Follower)
  | Answered (result : Res unit RegistrySnapshot)
  | Cancelled.

Inductive GetReply :=
  | GetOk (size : Z) (etag : option string)
  | GetNotModified
  | GetFailed.

Inductive Input :=
  | Poll (now : Z)
  | Resolved (ok : bool)
  | GetReplied (reply : GetReply)
  | BodyRead (body : option (list Z)).

(** [refresh] after the store's answer to [get_opts]. *)
Definition on_get (previous : option CachedRegistry) (reply : GetReply) : RefreshPc :=
  match reply with
  | GetOk size etag => if MAX_SNAPSHOT_BYTES <? size then RefreshReturned (Err tt) else AwaitBody etag
  | GetNotModified =>
      match previous with Some cached => Reinsert cached | None => RefreshReturned (Err tt) end
  | GetFailed => RefreshReturned (Err tt)
  end.

(** [refresh] after the body was read. *)
Definition on_body (registry_id : string) (etag : option string) (body : option (list Z)) : RefreshPc :=
  match body with
  | None => RefreshReturned (Err tt)
  | Some body =>
      let len := Z.of_nat (length body) in
      if MAX_SNAPSHOT_BYTES <? len then RefreshReturned (Err tt)
      else match RegistrySnapshot_parse registry_id body with
           | Ok snapshot =>
               CheckInstalled {| cd_snapshot := snapshot; cd_body_sha256 := sha256 body;
                                 cd_etag := etag; cd_len := len |}
           | _ => RefreshReturned (Err tt)
           end
  end.

(** A rollback, or a change without a revision increase, is refused. *)
Definition rejects_candidate (installed : option InstalledRevision) (c : Candidate) : bool :=
  match installed with
  | Some previous =>
      (s_revision (cd_snapshot c) <? ir_revision previous)
      || ((s_revision (cd_snapshot c) =? ir_revision previous)
          && negb (bool_decide (cd_body_sha256 c = ir_body_sha256 previous)))
  | None => false
  end.

Definition poll_refresh (registry_id : string) (input : Input) (r : RefreshPc) (s : DeliveryAuthInner)
    : option (RefreshPc * DeliveryAuthInner) :=
  match r, input with
  | ReadPrevious, Resolved ok =>
      Some (if ok then AwaitGet (da_cache s !! registry_id) else RefreshReturned (Err tt), s)
  | AwaitGet previous, GetReplied reply => Some (on_get previous reply, s)
  | Reinsert cached, Poll now =>
      Some (RefreshReturned (Ok (cr_snapshot cached)),
            with_cache (<[registry_id := refresh_at cached (now + REFRESH_INTERVAL)]> (da_cache s)) s)
  | AwaitBody etag, BodyRead body => Some (on_body registry_id etag body, s)
  | CheckInstalled c, Poll _ =>
      Some (if rejects_candidate (da_installed_revisions s !! registry_id) c
            then RefreshReturned (Err tt) else Install c, s)
  | Install c, Poll _ =>
      Some (ClearCold c,
            with_installed (<[registry_id := {| ir_revision := s_revision (cd_snapshot c);
                                                ir_body_sha256 := cd_body_sha256 c |}]>
                              (da_installed_revisions s)) s)
  | ClearCold c, Poll _ => Some (CacheInsert c, with_cold (delete registry_id (da_cold_retry_after s)) s)
  | CacheInsert c, Poll now =>
      Some (RefreshReturned (Ok (cd_snapshot c)),
            with_cache (<[registry_id := {| cr_snapshot := cd_snapshot c; cr_etag := cd_etag c;
                                            cr_refresh_after := now + REFRESH_INTERVAL;
                                            cr_source_bytes := cd_len c |}]> (da_cache s)) s)
  | _, _ => None
  end.

(** One step of [snapshot]; [None] while the request cannot run. *)
Definition poll (registry_id : string) (input : Input) (pc : Pc) (s : DeliveryAuthInner)
    : option (Pc * DeliveryAuthInner) :=
  match pc, input with
  | LoopTop, Poll now =>
      match da_cache s !! registry_id with
      | Some cached =>
          if now <? cr_refresh_after cached then Some (Answered (Ok (cr_snapshot cached)), s)
          else Some (ColdContains now, s)
      | None => Some (ColdContains now, s)
      end
  | ColdContains now, Poll _ =>
      Some (if is_some (da_cache s !! registry_id) then BeginFlight else ColdRetry now, s)
  | ColdRetry now, Poll _ =>
      Some (match da_cold_retry_after s !! registry_id with
            | Some retry_after => if now <? retry_after then Answered (Err tt) else BeginFlight
            | None => BeginFlight
            end, s)
  | BeginFlight, Poll _ =>
      let '(flight, refreshes) := begin registry_id (da_refreshes s) in
      Some (match flight with
            | FlightLeader leader => Refreshing leader TryPermit
            | FlightFollower follower => Following follower
            end, with_refreshes refreshes s)
  | Refreshing leader TryPermit, Poll _ =>
      if 0 <? da_refresh_permits s
      then Some (Refreshing leader ReadPrevious, with_permits (da_refresh_permits s - 1) s)
      else Some (Deferring leader, s)
  | Refreshing leader (RefreshReturned result), Poll _ =>
      Some (match result with
            | Ok snapshot => LeaderReturn leader (Ok snapshot)
            | _ => Deferring leader
            end, with_permits (da_refresh_permits s + 1) s)
  | Refreshing leader r, _ =>
      '(r, s) ← poll_refresh registry_id input r s;
      Some (Refreshing leader r, s)
  | Deferring leader, Poll _ =>
      Some (match da_cache s !! registry_id with
            | Some cached => DeferStale leader cached
            | None => DeferCold leader
            end, s)
  | DeferStale leader cached, Poll now =>
      Some (LeaderReturn leader (Ok (cr_snapshot cached)),
            with_cache (<[registry_id := refresh_at cached (now + REFRESH_FAILURE_COOLDOWN)]> (da_cache s)) s)
  | DeferCold leader, Poll now =>
      Some (LeaderReturn leader (Err tt),
            with_cold (<[registry_id := now + REFRESH_FAILURE_COOLDOWN]> (da_cold_retry_after s)) s)
  | LeaderReturn leader result, Poll _ =>
      Some (Answered result,
            with_refreshes (match result with
                            | Ok _ => drop_guard leader (da_refreshes s)
                            | _ => complete_with_error leader tt (da_refreshes s)
                            end) s)
  | Following follower, Poll _ =>
      match wait_poll follower (da_refreshes s) with
      | None => None
      | Some (Some _) => Some (Answered (Err tt), s)
      | Some None => Some (LoopTop, s)
      end
  | _, _ => None
  end.

(** A future dropped at one of its awaits. *)
Definition cancel (pc : Pc) (s : DeliveryAuthInner) : option (Pc * DeliveryAuthInner) :=
  match pc with
  | Refreshing leader (AwaitGet _ | AwaitBody _) =>
      Some (Cancelled, with_refreshes (drop_guard leader (da_refreshes s))
                         (with_permits (da_refresh_permits s + 1) s))
  | LoopTop | Following _ => Some (Cancelled, s)
  | _ => None
  end.

(** ** The system of all requests

    [sy_answers] (newest first) and [sy_installs] are history variables: what
    requests were answered, and the digest each revision was installed with. *)
Record System := {
  sy_inner : DeliveryAuthInner;
  sy_requests : list (string * Pc);
  sy_answers : list (string * RegistrySnapshot);
  sy_installs : gmap (string * Z) (list Z) }.

Definition answers_of (registry_id : string) (pc : Pc) : list (string * RegistrySnapshot) :=
  match pc with Answered (Ok snapshot) => [(registry_id, snapshot)] | _ => [] end.
Definition record_install (registry_id : string) (pc : Pc) (m : gmap (string * Z) (list Z))
    : gmap (string * Z) (list Z) :=
  match pc with
  | Refreshing _ (Install c) => <[(registry_id, s_revision (cd_snapshot c)) := cd_body_sha256 c]> m
  | _ => m
  end.

Definition System_new (inner : DeliveryAuthInner) : System :=
  {| sy_inner := inner; sy_requests := []; sy_answers := []; sy_installs := ∅ |}.

Inductive auth_step : System -> System -> Prop :=
  | step_request sys registry_id :
      auth_step sys {| sy_inner := sy_inner sys; sy_requests := sy_requests sys ++ [(registry_id, LoopTop)];
                       sy_answers := sy_answers sys; sy_installs := sy_installs sys |}
  | step_poll sys i registry_id pc input pc' inner' :
      sy_requests sys !! i = Some (registry_id, pc) ->
      poll registry_id input pc (sy_inner sys) = Some (pc', inner') ->
      auth_step sys {| sy_inner := inner'; sy_requests := <[i := (registry_id, pc')]> (sy_requests sys);
                       sy_answers := answers_of registry_id pc' ++ sy_answers sys;
                       sy_installs := record_install registry_id pc (sy_installs sys) |}
  | step_cancel sys i registry_id pc pc' inner' :
      sy_requests sys !! i = Some (registry_id, pc) ->
      cancel pc (sy_inner sys) = Some (pc', inner') ->
      auth_step sys {| sy_inner := inner'; sy_requests := <[i := (registry_id, pc')]> (sy_requests sys);
                       sy_answers := sy_answers sys; sy_installs := sy_installs sys |}
  | step_evict sys k :
      auth_step sys {| sy_inner := with_cache (delete k (da_cache (sy_inner sys))) (sy_inner sys);
                       sy_requests := sy_requests sys; sy_answers := sy_answers sys;
                       sy_installs := sy_installs sys |}.

Definition reachable (catalog : RegistryCatalog) (sys : System) : Prop :=
  exists inner, DeliveryAuth_new catalog = Some inner /\ rtc auth_step (System_new inner) sys.

(** ** What holds of one registry *)

Definition guard_of (pc : Pc) : option (LeaderGuard string unit) :=
  match pc with
  | Refreshing g _ | Deferring g | DeferStale g _ | DeferCold g | LeaderReturn g _ => Some g
  | _ => None
  end.
Definition leads (pc : Pc) : bool := is_some (guard_of pc).
Definition holds_permit (pc : Pc) : bool :=
  match pc with Refreshing _ TryPermit => false | Refreshing _ _ => true | _ => false end.
(** The leader has recorded a new revision and not yet cached it. *)
Definition installing (pc : Pc) : bool :=
  match pc with Refreshing _ (ClearCold _ | CacheInsert _) => true | _ => false end.

Section OneRegistry.
Context (registry_id : string).

(** The snapshot is the parse of a body of bounded length with that digest. *)
Definition parsed_from (snap : RegistrySnapshot) (digest : list Z) : Prop :=
  exists body, RegistrySnapshot_parse registry_id body = Ok snap /\ sha256 body = digest /\
    Z.of_nat (length body) <= MAX_SNAPSHOT_BYTES.

(** It was installed with that digest. *)
Definition good (installs : gmap (string * Z) (list Z)) (snap : RegistrySnapshot) : Prop :=
  exists digest, installs !! (registry_id, s_revision snap) = Some digest /\ parsed_from snap digest.

Section View.
Context (cached : option CachedRegistry) (installed : option InstalledRevision)
  (installs : gmap (string * Z) (list Z)).

(** It is the newest installed revision. *)
Definition current (snap : RegistrySnapshot) : Prop :=
  good installs snap /\ ir_revision <$> installed = Some (s_revision snap).

Definition pc_inv (pc : Pc) : Prop :=
  match pc with
  | Refreshing _ r =>
      match r with
      | AwaitGet (Some c) | Reinsert c => current (cr_snapshot c)
      | CheckInstalled c => parsed_from (cd_snapshot c) (cd_body_sha256 c)
      | Install c => parsed_from (cd_snapshot c) (cd_body_sha256 c) /\ rejects_candidate installed c = false
      | ClearCold c | CacheInsert c => current (cd_snapshot c)
      | RefreshReturned (Ok snap) => current snap
      | _ => True
      end
  | DeferStale _ c => current (cr_snapshot c)
  | LeaderReturn _ (Ok snap) => current snap
  | _ => True
  end.

Record data_inv (lead : option Pc) (answers : list RegistrySnapshot) : Prop := {
  di_installed : forall r digest, installs !! (registry_id, r) = Some digest ->
    exists ir, installed = Some ir /\ r <= ir_revision ir;
  di_newest : forall ir, installed = Some ir ->
    installs !! (registry_id, ir_revision ir) = Some (ir_body_sha256 ir);
  di_cached : forall c, cached = Some c ->
    good installs (cr_snapshot c) /\
    (current (cr_snapshot c) \/ exists pc, lead = Some pc /\ installing pc = true);
  di_lead : forall pc, lead = Some pc -> pc_inv pc;
  di_answers : forall snap, snap ∈ answers ->
    good installs snap /\ forall c, cached = Some c -> s_revision snap <= s_revision (cr_snapshot c);
  (** Newest first: later answers never go back to an older revision. *)
  di_sorted : StronglySorted (fun new old => s_revision old <= s_revision new) answers }.
End View.

Lemma good_below cached installed installs lead answers snap :
  data_inv cached installed installs lead answers -> good installs snap ->
  exists ir, installed = Some ir /\ s_revision snap <= ir_revision ir.
Proof. intros Hd (digest & Hi & _). by eapply (di_installed _ _ _ _ _ Hd). Qed.

Lemma current_bounds cached installed installs lead answers snap old :
  data_inv cached installed installs lead answers -> current installed installs snap -> good installs old ->
  s_revision old <= s_revision snap.
Proof.
  intros Hd [_ Ht] Ho. destruct (good_below _ _ _ _ _ _ Hd Ho) as (ir & -> & Hle).
  cbn in Ht. injection Ht as <-. done.
Qed.

(** The leader moves on; what it carries is still right. *)
Lemma data_inv_lead cached installed installs lead lead' answers :
  data_inv cached installed installs lead answers ->
  (forall pc, lead = Some pc -> installing pc = true -> exists pc', lead' = Some pc' /\ installing pc' = true) ->
  (forall pc, lead' = Some pc -> pc_inv installed installs pc) ->
  data_inv cached installed installs lead' answers.
Proof.
  intros [H1 H2 H3 H4 H5 H6] Hi Hp. split; try done. intros c Hc.
  destruct (H3 c Hc) as [Hg [Ht|(pc & Hl & Hin)]]; split; eauto.
Qed.

Lemma data_inv_evict cached installed installs lead answers :
  data_inv cached installed installs lead answers -> data_inv None installed installs lead answers.
Proof. intros [H1 H2 H3 H4 H5 H6]. split; try done. intros snap Hs. split; [by apply H5|done]. Qed.

(** A current snapshot enters the cache. *)
Lemma data_inv_cache cached installed installs lead lead' answers c :
  data_inv cached installed installs lead answers -> current installed installs (cr_snapshot c) ->
  (forall pc, lead' = Some pc -> pc_inv installed installs pc) ->
  data_inv (Some c) installed installs lead' answers.
Proof.
  intros Hd Hc Hp. pose proof Hd as [H1 H2 H3 H4 H5 H6]. split; try done.
  - intros c' [= <-]. split; [apply Hc|by left].
  - intros snap Hs. destruct (H5 snap Hs) as [Hg _]. split; [done|]. intros c' [= <-].
    by eapply current_bounds.
Qed.

(** A request is answered with a snapshot at least as new as the cached one. *)
Lemma data_inv_answer cached installed installs lead answers snap :
  data_inv cached installed installs lead answers -> good installs snap ->
  (forall c, cached = Some c -> s_revision (cr_snapshot c) = s_revision snap) ->
  (current installed installs snap \/ exists c, cached = Some c) ->
  data_inv cached installed installs lead (snap :: answers).
Proof.
  intros Hd Hg Hc Hn. pose proof Hd as [H1 H2 H3 H4 H5 H6]. split; try done.
  - intros s [->|Hs]%elem_of_cons; [|by apply H5]. split; [done|]. intros c E. rewrite (Hc c E). lia.
  - constructor; [done|]. apply Forall_forall. intros old Ho. destruct (H5 old Ho) as [Hgo Hle].
    destruct Hn as [Hcur|(c & E)]; [by eapply current_bounds|]. rewrite <- (Hc c E). by apply Hle.
Qed.

Lemma rejects_false installed c :
  rejects_candidate installed c = false ->
  forall ir, installed = Some ir ->
    ir_revision ir < s_revision (cd_snapshot c) \/
    (ir_revision ir = s_revision (cd_snapshot c) /\ ir_body_sha256 ir = cd_body_sha256 c).
Proof.
  intros Hr ir ->. cbn in Hr. apply orb_false_iff in Hr as [Hlt Heq]. bool_props.
  destruct (Z.eqb_spec (s_revision (cd_snapshot c)) (ir_revision ir)) as [He|He]; [right|left; lia].
  rewrite andb_true_l in Heq. apply negb_false_iff, bool_decide_eq_true in Heq. done.
Qed.

(** Recording a candidate that passed the check forgets no installed digest. *)
Lemma install_extends cached installed installs lead answers c :
  data_inv cached installed installs lead answers -> rejects_candidate installed c = false ->
  installs ⊆ <[(registry_id, s_revision (cd_snapshot c)) := cd_body_sha256 c]> installs.
Proof.
  intros Hd Hr. pose proof (rejects_false _ _ Hr) as Hrej.
  destruct (installs !! (registry_id, s_revision (cd_snapshot c))) as [d|] eqn:E.
  - destruct (di_installed _ _ _ _ _ Hd _ _ E) as (ir & -> & Hle).
    destruct (Hrej ir eq_refl) as [Hlt|[He Hs]]; [lia|].
    pose proof (di_newest _ _ _ _ _ Hd ir eq_refl) as Hn. rewrite He, E in Hn. injection Hn as ->.
    by rewrite <- Hs, insert_id.
  - by apply insert_subseteq.
Qed.

Lemma good_mono installs installs' snap : installs ⊆ installs' -> good installs snap -> good installs' snap.
Proof. intros Hsub (d & Hd & Hp). exists d. split; [by eapply lookup_weaken|done]. Qed.

Lemma data_inv_install cached installed installs g answers c :
  data_inv cached installed installs (Some (Refreshing g (Install c))) answers ->
  data_inv cached
    (Some {| ir_revision := s_revision (cd_snapshot c); ir_body_sha256 := cd_body_sha256 c |})
    (<[(registry_id, s_revision (cd_snapshot c)) := cd_body_sha256 c]> installs)
    (Some (Refreshing g (ClearCold c))) answers.
Proof.
  intros Hd. pose proof Hd as [H1 H2 H3 H4 H5 H6]. destruct (H4 _ eq_refl) as [Hp Hr]. cbn in Hp.
  pose proof (rejects_false _ _ Hr) as Hrej. pose proof (install_extends _ _ _ _ _ _ Hd Hr) as Hsub.
  split.
  - intros r d [[[= <-] _]|[_ Hi]]%lookup_insert_Some; [eexists; split; [done|cbn; lia]|].
    destruct (H1 r d Hi) as (ir & Hir & Hle). eexists. split; [done|]. cbn.
    destruct (Hrej ir Hir) as [?|[? _]]; lia.
  - intros ir [= <-]. cbn. by rewrite lookup_insert_eq.
  - intros c' Hc. destruct (H3 c' Hc) as [Hg _]. split; [by eapply good_mono|]. right. by eexists.
  - intros pc [= <-]. split; [|done]. exists (cd_body_sha256 c). by rewrite lookup_insert_eq.
  - intros snap Hs. destruct (H5 snap Hs) as [Hg Hle]. split; [by eapply good_mono|done].
  - done.
Qed.

Definition view_inv (s : DeliveryAuthInner) (installs : gmap (string * Z) (list Z)) :=
  data_inv (da_cache s !! registry_id) (da_installed_revisions s !! registry_id) installs.

(** The leader of the registry after one of its requests moved. *)
Definition lead_after (pc pc' : Pc) (lead : option Pc) : option Pc :=
  if leads pc' then Some pc' else if leads pc then None else lead.

Lemma on_get_inv s installs previous reply g answers :
  view_inv s installs (Some (Refreshing g (AwaitGet previous))) answers ->
  view_inv s installs (Some (Refreshing g (on_get previous reply))) answers.
Proof.
  intros Hd. eapply data_inv_lead; [exact Hd|by intros pc [= <-]|].
  intros pc [= <-]. pose proof (di_lead _ _ _ _ _ Hd _ eq_refl) as Hp.
  unfold on_get. destruct reply as [size etag| |]; [by destruct (MAX_SNAPSHOT_BYTES <? size)|by destruct previous|done].
Qed.

Lemma on_body_inv installed installs etag body g : pc_inv installed installs (Refreshing g (on_body registry_id etag body)).
Proof.
  unfold on_body. destruct body as [body|]; [|done].
  destruct (Z.ltb_spec MAX_SNAPSHOT_BYTES (Z.of_nat (length body))); [done|].
  destruct (RegistrySnapshot_parse registry_id body) eqn:E; [|done..]. by exists body.
Qed.

Lemma poll_refresh_data input r s r' s' installs g answers :
  view_inv s installs (Some (Refreshing g r)) answers ->
  poll_refresh registry_id input r s = Some (r', s') ->
  view_inv s' (record_install registry_id (Refreshing g r) installs) (Some (Refreshing g r')) answers.
Proof.
  intros Hd Hp. pose proof (di_lead _ _ _ _ _ Hd _ eq_refl) as Hl. unfold view_inv in *.
  destruct r, input; try discriminate Hp; injection Hp as <- <-;
    cbn [with_cache with_cold with_installed da_cache da_installed_revisions da_cold_retry_after record_install] in *;
    rewrite ?lookup_insert_eq.
  - eapply data_inv_lead; [exact Hd|by intros pc [= <-]|]. intros pc [= <-].
    destruct ok; [|done]. cbn. destruct (da_cache s !! registry_id) as [c|] eqn:Ec; [|done].
    destruct (di_cached _ _ _ _ _ Hd c eq_refl) as [_ [Hc|(pc & [= <-] & Hi)]]; [done|done].
  - by apply on_get_inv.
  - eapply data_inv_cache; [exact Hd|exact Hl|]. intros pc [= <-]. exact Hl.
  - eapply data_inv_lead; [exact Hd|by intros pc [= <-]|]. intros pc [= <-]. apply on_body_inv.
  - eapply data_inv_lead; [exact Hd|by intros pc [= <-]|]. intros pc [= <-].
    destruct (rejects_candidate (da_installed_revisions s !! registry_id) c) eqn:Er; [done|]. by split.
  - by eapply data_inv_install.
  - eapply data_inv_lead; [exact Hd|by intros pc [= <-]; eauto|]. by intros pc [= <-].
  - eapply data_inv_cache; [exact Hd|exact Hl|]. intros pc [= <-]. exact Hl.
Qed.

(** The current snapshot is what is cached, unless the leader is installing. *)
Lemma current_cached s installs pc answers snap c :
  view_inv s installs (Some pc) answers -> installing pc = false ->
  current (da_installed_revisions s !! registry_id) installs snap -> da_cache s !! registry_id = Some c ->
  s_revision (cr_snapshot c) = s_revision snap.
Proof.
  intros Hd Hi [_ Hs] Hc. destruct (di_cached _ _ _ _ _ Hd c Hc) as [_ [[_ Ht]|(pc' & [= <-] & Hi')]]; congruence.
Qed.

Lemma poll_refreshing_data input g r s pc' s' installs answers :
  view_inv s installs (Some (Refreshing g r)) answers ->
  poll registry_id input (Refreshing g r) s = Some (pc', s') ->
  view_inv s' (record_install registry_id (Refreshing g r) installs) (lead_after (Refreshing g r) pc' None)
    ((answers_of registry_id pc').*2 ++ answers).
Proof.
  intros Hd Hp. unfold view_inv in *. pose proof (di_lead _ _ _ _ _ Hd _ eq_refl) as Hl.
  assert (Hmove : forall pc', pc_inv (da_installed_revisions s !! registry_id) installs pc' ->
    installing (Refreshing g r) = false ->
    data_inv (da_cache s !! registry_id) (da_installed_revisions s !! registry_id) installs (Some pc') answers).
  { intros pc Hpc Hi. eapply data_inv_lead; [exact Hd| |by intros ? [= <-]].
    intros ? [= <-]. by rewrite Hi. }
  destruct r, input; try discriminate Hp; cbn [poll] in Hp;
    try (apply bind_Some in Hp as ([r' s1] & Hr & [= <- <-]); exact (poll_refresh_data _ _ _ _ _ _ _ _ Hd Hr)).
  - revert Hp. destruct (0 <? da_refresh_permits s); intros [= <- <-]; by apply Hmove.
  - injection Hp as <- <-. destruct result; by apply Hmove.
Qed.

Lemma poll_data input pc s pc' s' installs lead answers :
  view_inv s installs lead answers ->
  (leads pc = true -> lead = Some pc) -> (leads pc = false -> leads pc' = true -> lead = None) ->
  poll registry_id input pc s = Some (pc', s') ->
  view_inv s' (record_install registry_id pc installs) (lead_after pc pc' lead)
    ((answers_of registry_id pc').*2 ++ answers).
Proof.
  intros Hd Hlead Hnew Hp. unfold view_inv in *.
  assert (Hl : forall g, guard_of pc = Some g -> pc_inv (da_installed_revisions s !! registry_id) installs pc).
  { intros g Hg. apply (di_lead _ _ _ _ _ Hd), Hlead. unfold leads. by rewrite Hg. }
  assert ((exists g r, pc = Refreshing g r) \/ ~ exists g r, pc = Refreshing g r) as [(g & r & ->)|Hnr].
  { destruct pc; try (right; by intros (? & ? & ?)). by eauto. }
  { rewrite (Hlead eq_refl) in *. 
    pose proof (poll_refreshing_data _ _ _ _ _ _ _ _ Hd Hp) as Hf. unfold lead_after in *. by destruct (leads pc'). }
  destruct pc as [|now|now| |g r|g|g c|g|g result|f|result|]; destruct input as [now'|ok|reply|body];
    try discriminate Hp; cbn [poll] in Hp; try (destruct Hnr; by eauto).
  all: try (specialize (Hlead eq_refl) as ->; specialize (Hl g eq_refl)).
  all: cbn [record_install].
  (* LoopTop, ColdContains, ColdRetry, BeginFlight *)
  - revert Hp. destruct (da_cache s !! registry_id) as [c|] eqn:Ec; [destruct (now' <? cr_refresh_after c)|];
      intros [= <- <-]; cbn; rewrite Ec; try done.
    apply data_inv_answer; [done|by apply (di_cached _ _ _ _ _ Hd c)|by intros c' [= <-]|by eauto].
  - injection Hp as <- <-. by destruct (is_some _).
  - injection Hp as <- <-. cbn. destruct (da_cold_retry_after s !! registry_id); [destruct (now <? z)|]; done.
  - revert Hp. destruct (begin registry_id (da_refreshes s)) as [[g|f] refreshes]; intros [= <- <-]; cbn; [|done].
    rewrite (Hnew eq_refl eq_refl) in Hd. eapply data_inv_lead; [exact Hd|done|by intros pc [= <-]].
  (* deferred *)
  - injection Hp as <- <-. destruct (da_cache s !! registry_id) as [c|] eqn:Ec; rewrite ?Ec;
      (eapply data_inv_lead; [exact Hd|by intros pc [= <-]|]; intros pc [= <-]); [|done].
    by destruct (di_cached _ _ _ _ _ Hd c eq_refl) as [_ [Hc|(pc & [= <-] & Hi)]].
  - injection Hp as <- <-. cbn. rewrite lookup_insert_eq.
    eapply data_inv_cache; [exact Hd|exact Hl|]. intros pc [= <-]. exact Hl.
  - injection Hp as <- <-. cbn. eapply data_inv_lead; [exact Hd|by intros pc [= <-]|by intros pc [= <-]].
  - injection Hp as <- <-. cbn. assert (Hno : data_inv (da_cache s !! registry_id)
      (da_installed_revisions s !! registry_id) installs None answers).
    { eapply data_inv_lead; [exact Hd|by intros pc [= <-]|done]. }
    destruct result as [snap|e|]; cbn; [|done..].
    apply data_inv_answer; [done|apply Hl| |by left]. intros c Hc. by eapply current_cached.
  - revert Hp. destruct (wait_poll f (da_refreshes s)) as [[e|]|]; [| |done]; intros [= <- <-]; done.
Qed.
End OneRegistry.

(** ** What holds of the requests and the flights *)

Abbreviation Leaders := (gmap string (nat * Pc)).

Record flights_inv (sf : SingleFlight string unit) (requests : list (string * Pc)) (lead : Leaders) : Prop := {
  fi_sf : sf_wf sf;
  (** One leader per registry, and it holds the guard of the registry. *)
  fi_lead : forall i reg pc, requests !! i = Some (reg, pc) -> leads pc = true -> lead !! reg = Some (i, pc);
  fi_request : forall reg i pc, lead !! reg = Some (i, pc) -> requests !! i = Some (reg, pc) /\ leads pc = true;
  fi_guard : forall i reg pc g, requests !! i = Some (reg, pc) -> guard_of pc = Some g ->
    g = {| lg_key := reg; lg_outcome := None |};
  (** A flight is under way exactly while it has a leader. *)
  fi_entries : forall reg, is_Some (sf_entries sf !! reg) <-> is_Some (lead !! reg);
  fi_follow : forall i reg f, requests !! i = Some (reg, Following f) -> follows reg f sf \/ released f sf }.

Lemma lead_unchanged lead reg pc pc' :
  leads pc = leads pc' -> (leads pc = true -> exists i, lead !! reg = Some (i, pc)) ->
  forall i : nat, snd <$> (if leads pc' then <[reg := (i, pc')]> lead else lead : Leaders) !! reg =
  lead_after pc pc' (snd <$> lead !! reg).
Proof.
  intros He Hl i. unfold lead_after. rewrite He in *. destruct (leads pc'); [|done].
  by rewrite lookup_insert_eq.
Qed.

Lemma fi_move sf requests lead i reg pc pc' :
  flights_inv sf requests lead -> requests !! i = Some (reg, pc) -> guard_of pc' = guard_of pc ->
  (forall f, pc' = Following f -> pc = Following f) ->
  flights_inv sf (<[i := (reg, pc')]> requests) (if leads pc' then <[reg := (i, pc')]> lead else lead).
Proof.
  intros [H1 H2 H3 H4 H5 H6] Hi Hg Hf. assert (Hl : leads pc' = leads pc) by (unfold leads; by rewrite Hg).
  assert (Hlt : (i < length requests)%nat) by (by eapply lookup_lt_Some).
  assert (Hlead : leads pc = true -> lead !! reg = Some (i, pc)) by (intros; by eapply H2).
  split; [done| | | | |].
  - intros j r p [(-> & [= -> ->] & _)|[Hne Hj]]%list_lookup_insert_Some Hp.
    + rewrite Hp. apply lookup_insert_eq.
    + specialize (H2 j r p Hj Hp). destruct (leads pc') eqn:E; [|done].
      rewrite lookup_insert_ne; [done|]. intros ->. rewrite (Hlead (eq_sym Hl)) in H2. by injection H2.
  - intros r j p Hr. destruct (leads pc') eqn:E.
    + apply lookup_insert_Some in Hr as [[<- [= <- <-]]|[Hne Hr]]; [by rewrite list_lookup_insert_eq|].
      destruct (H3 r j p Hr) as [Hj Hp]. rewrite list_lookup_insert_ne; [done|]. intros ->. congruence.
    + destruct (H3 r j p Hr) as [Hj Hp]. rewrite list_lookup_insert_ne; [done|]. intros ->. congruence.
  - intros j r p g [(-> & [= -> ->] & _)|[Hne Hj]]%list_lookup_insert_Some Hgp; [|by eapply H4].
    rewrite Hg in Hgp. by eapply H4.
  - intros r. rewrite H5. destruct (leads pc') eqn:E; [|done].
    destruct (decide (r = reg)) as [->|Hne]; [|by rewrite lookup_insert_ne].
    rewrite lookup_insert_eq, (Hlead (eq_sym Hl)). split; eauto.
  - intros j r f [(-> & [= -> ->] & _)|[Hne Hj]]%list_lookup_insert_Some; [|by eapply H6].
    rewrite (Hf f eq_refl) in Hi. by eapply H6.
Qed.

Lemma fi_drop sf requests lead i reg pc g pc' outcome :
  flights_inv sf requests lead -> requests !! i = Some (reg, pc) -> guard_of pc = Some g ->
  guard_of pc' = None -> (forall f, pc' <> Following f) ->
  flights_inv (drop_guard {| lg_key := reg; lg_outcome := outcome |} sf)
    (<[i := (reg, pc')]> requests) (delete reg lead).
Proof.
  intros [H1 H2 H3 H4 H5 H6] Hi Hg Hg' Hf.
  assert (Hl : lead !! reg = Some (i, pc)) by (apply H2; [done|]; unfold leads; by rewrite Hg).
  split; [by apply drop_guard_wf| | | | |].
  - intros j r p [(-> & [= -> ->] & _)|[Hne Hj]]%list_lookup_insert_Some Hp.
    { unfold leads in Hp. by rewrite Hg' in Hp. }
    specialize (H2 j r p Hj Hp). rewrite lookup_delete_ne; [done|]. intros ->. congruence.
  - intros r j p [Hne Hr]%lookup_delete_Some. destruct (H3 r j p Hr) as [Hj Hp].
    rewrite list_lookup_insert_ne; [done|]. intros ->. congruence.
  - intros j r p g' [(-> & [= -> ->] & _)|[Hne Hj]]%list_lookup_insert_Some Hgp; [congruence|by eapply H4].
  - intros r. rewrite drop_guard_entries. cbn. destruct (decide (r = reg)) as [->|Hne].
    + rewrite !lookup_delete_eq. done.
    + by rewrite !lookup_delete_ne.
  - intros j r f [(-> & [= -> ->] & _)|[Hne Hj]]%list_lookup_insert_Some; [by destruct (Hf f)|].
    destruct (H6 j r f Hj) as [Hfo|Hre]; [|by right; apply drop_guard_released].
    destruct (decide (r = reg)) as [->|Hr].
    + right. by apply (drop_guard_answers {| lg_key := reg; lg_outcome := outcome |}).
    + left. by apply drop_guard_follows.
Qed.

Lemma fi_begin sf requests lead i reg fl sf' :
  flights_inv sf requests lead -> requests !! i = Some (reg, BeginFlight) -> begin reg sf = (fl, sf') ->
  match fl with
  | FlightLeader g =>
      lead !! reg = None /\
      flights_inv sf' (<[i := (reg, Refreshing g TryPermit)]> requests)
        (<[reg := (i, Refreshing g TryPermit)]> lead)
  | FlightFollower f => flights_inv sf' (<[i := (reg, Following f)]> requests) lead
  end.
Proof.
  intros [H1 H2 H3 H4 H5 H6] Hi Hb. destruct (begin_spec reg sf H1) as [Hwf Hfl].
  assert (Hlt : (i < length requests)%nat) by (by eapply lookup_lt_Some).
  assert (Hfo : forall j r f, requests !! j = Some (r, Following f) -> follows r f sf' \/ released f sf').
  { intros j r f Hj. destruct (H6 j r f Hj) as [Hf|Hf]; [left|right].
    - rewrite <- (f_equal snd Hb : (begin reg sf).2 = sf'). by apply begin_follows.
    - rewrite <- (f_equal snd Hb : (begin reg sf).2 = sf'). by apply begin_released. }
  rewrite Hb in Hwf, Hfl. cbn in Hwf, Hfl. destruct fl as [g|f].
  - destruct Hfl as (Hnone & -> & Hent & _).
    assert (Hl : lead !! reg = None).
    { apply eq_None_not_Some. rewrite <- H5, Hnone. by intros []. }
    split; [done|]. split; [done| | | | |].
    + intros j r p [(-> & [= <- <-] & _)|[Hne Hj]]%list_lookup_insert_Some Hp; [by rewrite lookup_insert_eq|].
      specialize (H2 j r p Hj Hp). rewrite lookup_insert_ne; [done|congruence].
    + intros r j p [[<- [= <- <-]]|[Hne Hr]]%lookup_insert_Some; [by rewrite list_lookup_insert_eq|].
      destruct (H3 r j p Hr) as [Hj Hp]. rewrite list_lookup_insert_ne; [done|]. intros ->.
      rewrite Hi in Hj. by injection Hj as <- <-.
    + intros j r p g' [(-> & [= <- <-] & _)|[Hne Hj]]%list_lookup_insert_Some Hgp; [by injection Hgp|by eapply H4].
    + intros r. rewrite Hent. destruct (decide (r = reg)) as [->|Hne];
        [by rewrite !lookup_insert_eq|by rewrite !lookup_insert_ne].
    + intros j r f [(-> & [=] & _)|[Hne Hj]]%list_lookup_insert_Some. by eapply Hfo.
  - destruct Hfl as [-> Hf]. split; [done| | | |done|].
    + intros j r p [(-> & [= <- <-] & _)|[Hne Hj]]%list_lookup_insert_Some Hp; [done|by apply H2].
    + intros r j p Hr. destruct (H3 r j p Hr) as [Hj Hp]. rewrite list_lookup_insert_ne; [done|]. intros ->.
      rewrite Hi in Hj. by injection Hj as <- <-.
    + intros j r p g' [(-> & [= <- <-] & _)|[Hne Hj]]%list_lookup_insert_Some Hgp; [done|by eapply H4].
    + intros j r f' [(-> & [= <- <-] & _)|[Hne Hj]]%list_lookup_insert_Some; [by left|by eapply Hfo].
Qed.

Lemma fi_arrive sf requests lead reg :
  flights_inv sf requests lead -> flights_inv sf (requests ++ [(reg, LoopTop)]) lead.
Proof.
  intros [H1 H2 H3 H4 H5 H6].
  assert (Hlast : forall i r p, (requests ++ [(reg, LoopTop)]) !! i = Some (r, p) ->
    requests !! i = Some (r, p) \/ p = LoopTop).
  { intros i r p [Hj|[_ Hj]]%lookup_app_Some; [by left|]. apply list_lookup_singleton_Some in Hj as [_ [= _ <-]].
    by right. }
  split; [done| | | |done|].
  - intros i r p [Hi| ->]%Hlast; [by apply H2|done].
  - intros r i p Hr. destruct (H3 r i p Hr) as [Hi Hp]. split; [|done]. by apply lookup_app_l_Some.
  - intros i r p g [Hi| ->]%Hlast; [by eapply H4|done].
  - intros i r f [Hi|[=]]%Hlast. by eapply H6.
Qed.

(** ** What one step does *)

(** Run [poll] down to its branches. *)
Ltac poll_cases Hp :=
  repeat match type of Hp with
  | (match ?x with _ => _ end) = Some _ => destruct x eqn:?; try discriminate Hp
  | Some (match ?x with _ => _ end, _) = Some _ => destruct x eqn:?
  | mbind _ _ = Some _ => apply bind_Some in Hp as ([? ?] & ?Hr & Hp)
  | Some _ = Some _ => injection Hp as <- <-
  end;
  try match goal with
  | H : poll_refresh _ _ _ _ = Some _ |- _ =>
      cbn [poll_refresh] in H; try discriminate H;
      try match type of H with Some (match ?x with _ => _ end, _) = Some _ => destruct x eqn:? end;
      injection H as <- <-
  end.

Lemma on_get_holds g previous reply : holds_permit (Refreshing g (on_get previous reply)) = true.
Proof. destruct reply as [size etag| |]; cbn [on_get]; [by destruct (MAX_SNAPSHOT_BYTES <? size)|by destruct previous|done]. Qed.

Lemma on_body_holds g reg etag body : holds_permit (Refreshing g (on_body reg etag body)) = true.
Proof.
  destruct body as [body|]; [|done]. unfold on_body. destruct (_ <? _); [done|].
  by destruct (RegistrySnapshot_parse reg body).
Qed.

Lemma poll_frame reg input pc s pc' s' k :
  poll reg input pc s = Some (pc', s') -> k <> reg ->
  da_cache s' !! k = da_cache s !! k /\ da_installed_revisions s' !! k = da_installed_revisions s !! k.
Proof.
  intros Hp Hk. destruct pc, input; try discriminate Hp; cbn [poll] in Hp; poll_cases Hp;
    cbn; by rewrite ?lookup_insert_ne by done.
Qed.

(** How a step changes the flights and the permits. *)
Lemma poll_effect reg input pc s pc' s' :
  poll reg input pc s = Some (pc', s') ->
  (da_refresh_permits s' + Z.b2z (holds_permit pc') = da_refresh_permits s + Z.b2z (holds_permit pc) /\
   (0 <= da_refresh_permits s -> 0 <= da_refresh_permits s')) /\
  ((da_refreshes s' = da_refreshes s /\ guard_of pc' = guard_of pc /\
    (forall f, pc' = Following f -> pc = Following f)) \/
   (pc = BeginFlight /\ exists fl, begin reg (da_refreshes s) = (fl, da_refreshes s') /\
      pc' = match fl with FlightLeader g => Refreshing g TryPermit | FlightFollower f => Following f end) \/
   (exists g result outcome, pc = LeaderReturn g result /\ pc' = Answered result /\
      da_refreshes s' = drop_guard {| lg_key := lg_key g; lg_outcome := outcome |} (da_refreshes s) /\
      (lg_outcome g = None -> outcome = match result with Ok _ => None | _ => Some tt end))).
Proof.
  intros Hp. destruct pc as [| | | |g r| | | |g result| | |], input; try discriminate Hp; cbn [poll] in Hp.
  4: { destruct (begin reg (da_refreshes s)) as [fl sf] eqn:Eb. injection Hp as <- <-.
       split; [by destruct fl|]. right; left. eauto. }
  all: poll_cases Hp.
  all: bool_props; rewrite ?on_get_holds, ?on_body_holds.
  all: try (split; [split; cbn; lia|left; by split_and!]; fail).
  split; [done|]. right; right. exists g, result, (match result with Ok _ => lg_outcome g | _ => Some tt end).
  split_and!; [done|done| |by destruct result]. by destruct result, g.
Qed.

(** ** The system invariant *)

Definition answers_for (reg : string) (answers : list (string * RegistrySnapshot)) : list RegistrySnapshot :=
  omap (fun a => if decide (a.1 = reg) then Some a.2 else None) answers.

Definition permit_holders (requests : list (string * Pc)) : Z :=
  Z.of_nat (length (List.filter (fun r => holds_permit r.2) requests)).

Record auth_inv (sys : System) (lead : Leaders) : Prop := {
  ai_flights : flights_inv (da_refreshes (sy_inner sys)) (sy_requests sys) lead;
  ai_permits : 0 <= da_refresh_permits (sy_inner sys) /\
    da_refresh_permits (sy_inner sys) + permit_holders (sy_requests sys) = MAX_CONCURRENT_REGISTRY_LOADS;
  ai_data : forall reg, view_inv reg (sy_inner sys) (sy_installs sys) (snd <$> lead !! reg)
    (answers_for reg (sy_answers sys)) }.

Lemma answers_for_eq reg pc answers :
  answers_for reg (answers_of reg pc ++ answers) = (answers_of reg pc).*2 ++ answers_for reg answers.
Proof. unfold answers_for. destruct pc as [| | | | | | | | | |[]|]; cbn; try done. by rewrite decide_True. Qed.

Lemma answers_for_ne reg k pc answers :
  k <> reg -> answers_for k (answers_of reg pc ++ answers) = answers_for k answers.
Proof. intros Hk. unfold answers_for. destruct pc as [| | | | | | | | | |[]|]; cbn; try done. by rewrite decide_False. Qed.

(** Nothing about a registry depends on the installs of another one. *)
Lemma installs_frame reg k pc m r : k <> reg -> record_install reg pc m !! (k, r) = m !! (k, r).
Proof.
  intros Hk. unfold record_install. repeat case_match; try done. rewrite lookup_insert_ne; [done|]. congruence.
Qed.

Lemma good_frame k installs installs' snap :
  (forall r, installs' !! (k, r) = installs !! (k, r)) -> good k installs snap -> good k installs' snap.
Proof. intros He (d & Hd & Hp). exists d. by rewrite He. Qed.

Lemma pc_inv_frame k installed installs installs' pc :
  (forall r, installs' !! (k, r) = installs !! (k, r)) ->
  pc_inv k installed installs pc -> pc_inv k installed installs' pc.
Proof.
  intros He. assert (Hc : forall snap, current k installed installs snap -> current k installed installs' snap).
  { intros snap [Hg Ht]. split; [by eapply good_frame|done]. }
  destruct pc as [| | | |g [| |[]| | | | | | |[]]| | | |g []| | |]; cbn; auto.
Qed.

Lemma data_inv_frame k cached installed installs installs' lead answers :
  (forall r, installs' !! (k, r) = installs !! (k, r)) ->
  data_inv k cached installed installs lead answers -> data_inv k cached installed installs' lead answers.
Proof.
  intros He [H1 H2 H3 H4 H5 H6]. split; try done.
  - intros r d. rewrite He. apply H1.
  - intros ir Hir. rewrite He. by apply H2.
  - intros c Hc. destruct (H3 c Hc) as [Hg Ho]. split; [by eapply good_frame|].
    destruct Ho as [[_ Ht]|Ho]; [left; split; [by eapply good_frame|done]|by right].
  - intros pc Hpc. eapply pc_inv_frame; [done|]. by apply H4.
  - intros snap Hs. destruct (H5 snap Hs) as [Hg Hle]. split; [by eapply good_frame|done].
Qed.

(** What a poll does to the flights, and so to the leader of its registry. *)
Lemma poll_flights inner requests lead i reg pc input pc' inner' :
  flights_inv (da_refreshes inner) requests lead -> requests !! i = Some (reg, pc) ->
  poll reg input pc inner = Some (pc', inner') ->
  exists lead', flights_inv (da_refreshes inner') (<[i := (reg, pc')]> requests) lead' /\
    (forall k, k <> reg -> lead' !! k = lead !! k) /\
    snd <$> lead' !! reg = lead_after pc pc' (snd <$> lead !! reg) /\
    (leads pc = false -> leads pc' = true -> lead !! reg = None).
Proof.
  intros Hf Hi Hp. apply poll_effect in Hp as [_ [(-> & Hg & Hfo)|[(-> & fl & Hb & ->)|(g & result & o & -> & -> & -> & _)]]].
  - assert (Hl : leads pc' = leads pc) by (unfold leads; by rewrite Hg).
    eexists. split; [by eapply fi_move|]. split_and!.
    + intros k Hk. destruct (leads pc'); [by rewrite lookup_insert_ne|done].
    + apply lead_unchanged; [done|]. intros Hlead. exists i. by eapply fi_lead.
    + congruence.
  - pose proof (fi_begin _ _ _ _ _ _ _ Hf Hi Hb) as Hfl. destruct fl as [g|f].
    + destruct Hfl as [Hnone Hfl]. eexists. split; [exact Hfl|]. split_and!; [|by rewrite lookup_insert_eq|done].
      intros k Hk. by rewrite lookup_insert_ne.
    + exists lead. split_and!; done.
  - pose proof (fi_guard _ _ _ Hf _ _ _ _ Hi eq_refl) as ->.
    eexists. split; [by eapply fi_drop|]. cbn. split_and!; [|by rewrite lookup_delete_eq|done].
    intros k Hk. by rewrite lookup_delete_ne.
Qed.

Lemma poll_preserves sys lead i reg pc input pc' inner' :
  auth_inv sys lead -> sy_requests sys !! i = Some (reg, pc) ->
  poll reg input pc (sy_inner sys) = Some (pc', inner') ->
  exists lead', auth_inv {| sy_inner := inner'; sy_requests := <[i := (reg, pc')]> (sy_requests sys);
                            sy_answers := answers_of reg pc' ++ sy_answers sys;
                            sy_installs := record_install reg pc (sy_installs sys) |} lead'.
Proof.
  intros [Hf [Hp0 Hpm] Hd] Hi Hp. destruct (poll_flights _ _ _ _ _ _ _ _ _ Hf Hi Hp) as (lead' & Hf' & Hne & Heq & Hnew).
  exists lead'. split; cbn [sy_inner sy_requests sy_answers sy_installs]; [done| |].
  - apply poll_effect in Hp as [[Hs Hge] _]. split; [by apply Hge|]. unfold permit_holders in *.
    rewrite (filter_count_insert _ _ _ _ _ Hi). cbn. lia.
  - intros k. destruct (decide (k = reg)) as [->|Hk].
    + rewrite Heq, answers_for_eq. eapply poll_data; [done| | |exact Hp].
      * intros Hl. by rewrite (fi_lead _ _ _ Hf _ _ _ Hi Hl).
      * intros Hl Hl'. by rewrite (Hnew Hl Hl').
    + rewrite (Hne k Hk), answers_for_ne by done. unfold view_inv.
      destruct (poll_frame _ _ _ _ _ _ k Hp Hk) as [-> ->].
      eapply data_inv_frame; [|apply Hd]. intros r. by apply installs_frame.
Qed.

Lemma cancel_preserves sys lead i reg pc pc' inner' :
  auth_inv sys lead -> sy_requests sys !! i = Some (reg, pc) -> cancel pc (sy_inner sys) = Some (pc', inner') ->
  exists lead', auth_inv {| sy_inner := inner'; sy_requests := <[i := (reg, pc')]> (sy_requests sys);
                            sy_answers := sy_answers sys; sy_installs := sy_installs sys |} lead'.
Proof.
  intros [Hf [Hp0 Hpm] Hd] Hi Hc. unfold permit_holders in *.
  assert (Hdrop : forall g r, pc = Refreshing g r -> holds_permit pc = true -> installing pc = false ->
    pc' = Cancelled -> inner' = with_refreshes (drop_guard g (da_refreshes (sy_inner sys)))
                                  (with_permits (da_refresh_permits (sy_inner sys) + 1) (sy_inner sys)) ->
    auth_inv {| sy_inner := inner'; sy_requests := <[i := (reg, pc')]> (sy_requests sys);
                sy_answers := sy_answers sys; sy_installs := sy_installs sys |} (delete reg lead)).
  { intros g r -> Hh Hin -> ->. pose proof (fi_guard _ _ _ Hf _ _ _ _ Hi eq_refl) as ->.
    split; cbn [sy_inner sy_requests sy_answers sy_installs]; [by eapply fi_drop| |].
    - cbn. split; [lia|]. unfold permit_holders. rewrite (filter_count_insert _ _ _ _ _ Hi).
      change (Refreshing _ r) with ((reg, Refreshing {| lg_key := reg; lg_outcome := None |} r).2) in Hh.
      rewrite Hh. cbn. lia.
    - intros k. destruct (decide (k = reg)) as [->|Hk]; [|rewrite lookup_delete_ne by done; apply Hd].
      rewrite lookup_delete_eq. specialize (Hd reg). rewrite (fi_lead _ _ _ Hf _ _ _ Hi eq_refl) in Hd.
      eapply data_inv_lead; [exact Hd| |done]. intros pc [= <-]. by rewrite Hin. }
  assert (Hmove : guard_of pc = None -> holds_permit pc = false -> pc' = Cancelled -> inner' = sy_inner sys ->
    auth_inv {| sy_inner := inner'; sy_requests := <[i := (reg, pc')]> (sy_requests sys);
                sy_answers := sy_answers sys; sy_installs := sy_installs sys |} lead).
  { intros Hg Hh -> ->. split; cbn [sy_inner sy_requests sy_answers sy_installs]; [|split; [done|]|done].
    - exact (fi_move _ _ _ _ _ _ Cancelled Hf Hi (eq_sym Hg) ltac:(done)).
    - unfold permit_holders. rewrite (filter_count_insert _ _ _ _ _ Hi). cbn [snd]. rewrite Hh. cbn. lia. }
  destruct pc as [| | | |g r| | | | | | |]; try discriminate Hc.
  - injection Hc as <- <-. exists lead. by apply Hmove.
  - exists (delete reg lead). destruct r; try discriminate Hc; injection Hc as <- <-; by eapply Hdrop.
  - injection Hc as <- <-. exists lead. by apply Hmove.
Qed.

Lemma step_preserves sys sys' : auth_step sys sys' -> forall lead, auth_inv sys lead -> exists lead', auth_inv sys' lead'.
Proof.
  intros Hs lead Hinv. destruct Hs as [sys reg|sys i reg pc input pc' inner' Hi Hp|sys i reg pc pc' inner' Hi Hc|sys k].
  - exists lead. destruct Hinv as [Hf [Hp0 Hpm] Hd]. split; cbn; [by apply fi_arrive| |done].
    split; [done|]. unfold permit_holders in *. rewrite filter_count_snoc. cbn. lia.
  - by eapply poll_preserves.
  - by eapply cancel_preserves.
  - exists lead. destruct Hinv as [Hf Hp Hd]. split; [done|done|]. intros reg. cbn.
    specialize (Hd reg). unfold view_inv in *. cbn. destruct (decide (reg = k)) as [->|Hk].
    + rewrite lookup_delete_eq. by eapply data_inv_evict.
    + by rewrite lookup_delete_ne.
Qed.

Lemma auth_reachable_inv catalog sys : reachable catalog sys -> exists lead, auth_inv sys lead.
Proof.
  intros (inner & Hnew & Hr).
  assert (Hinit : exists lead, auth_inv (System_new inner) lead).
  { unfold DeliveryAuth_new in Hnew. destruct (auth_enabled catalog); [|done]. injection Hnew as <-.
    exists ∅. split; [| |].
    - split; cbn; try (intros *; rewrite ?lookup_nil, ?lookup_empty; done).
    - done.
    - intros reg. split; cbn; try (intros *; rewrite ?lookup_empty; done).
      + by intros snap ?%not_elem_of_nil.
      + constructor. }
  revert Hinit. clear Hnew. induction Hr as [|x y z Hxy _ IH]; [done|]. intros [lead Hinv]. apply IH.
  by eapply step_preserves.
Qed.

Lemma answers_for_elem reg snap answers : snap ∈ answers_for reg answers <-> (reg, snap) ∈ answers.
Proof.
  unfold answers_for. rewrite list_elem_of_omap. split.
  - intros ([r s] & Hin & He). cbn in He. case_decide as Hr; [|done]. injection He as ->. by rewrite <- Hr.
  - intros Hin. exists (reg, snap). split; [done|]. cbn. by rewrite decide_True.
Qed.

(** A snapshot that is held or handed out is the normal form of a document. *)
Definition document_snapshot (reg : string) (snap : RegistrySnapshot) : Prop :=
  exists body wire, Z.of_nat (length body) <= MAX_SNAPSHOT_BYTES /\ from_slice body = Some wire /\
    RegistrySnapshot_parse reg body = Ok snap /\ snapshot_of reg wire snap.

Lemma good_document reg installs snap : good reg installs snap -> document_snapshot reg snap.
Proof.
  intros (d & _ & body & Hp & _ & Hl). destruct (RegistrySnapshot_parse_Ok _ _ _ Hp) as (wire & Hw & Hs).
  by exists body, wire.
Qed.

Lemma lookup_sorted_pair (l1 l2 l3 : list (string * RegistrySnapshot)) reg new old :
  answers_for reg (l1 ++ (reg, new) :: l2 ++ (reg, old) :: l3) =
  answers_for reg l1 ++ new :: answers_for reg l2 ++ old :: answers_for reg l3.
Proof.
  unfold answers_for. rewrite omap_app. cbn [omap list_omap fst snd]. rewrite decide_True by done.
  rewrite omap_app. cbn [omap list_omap fst snd]. by rewrite decide_True by done.
Qed.

Lemma sorted_pair {A} (R : A -> A -> Prop) l1 x l2 y l3 : StronglySorted R (l1 ++ x :: l2 ++ y :: l3) -> R x y.
Proof.
  induction l1 as [|a l1 IH]; cbn; intros Hs; inversion Hs as [|? ? Hs' Hf]; subst; [|by apply IH].
  rewrite Forall_forall in Hf. apply Hf. apply elem_of_app. right. left.
Qed.

(** ** Theorems *)

(** [C37] The shared state of the registries is well formed in every reachable
    state. Whatever is cached or was handed out is the normal form of a bounded
    JSON document of that very registry, and a cached revision is never newer than
    the recorded one; at most eight loads run, each holding one permit; a registry
    has at most one refreshing request; and a request that still waits for a
    refresh has a live one to wait for. *)
Theorem registry_state_wf catalog sys (Hr : reachable catalog sys) :
  (forall reg c, da_cache (sy_inner sys) !! reg = Some c ->
     document_snapshot reg (cr_snapshot c) /\
     exists ir, da_installed_revisions (sy_inner sys) !! reg = Some ir /\
       s_revision (cr_snapshot c) <= ir_revision ir) /\
  (forall reg snap, (reg, snap) ∈ sy_answers sys -> document_snapshot reg snap) /\
  0 <= da_refresh_permits (sy_inner sys) /\
  da_refresh_permits (sy_inner sys) + permit_holders (sy_requests sys) = MAX_CONCURRENT_REGISTRY_LOADS /\
  (forall i j reg pc pc', sy_requests sys !! i = Some (reg, pc) -> sy_requests sys !! j = Some (reg, pc') ->
     leads pc = true -> leads pc' = true -> i = j) /\
  (forall i reg f, sy_requests sys !! i = Some (reg, Following f) ->
     wait_poll f (da_refreshes (sy_inner sys)) = None ->
     exists j pc, sy_requests sys !! j = Some (reg, pc) /\ leads pc = true).
Proof.
  destruct (auth_reachable_inv _ _ Hr) as [lead [Hf [Hp0 Hp] Hd]]. split_and!; try done.
  - intros reg c Hc. destruct (di_cached _ _ _ _ _ _ (Hd reg) c Hc) as [Hg _].
    split; [by eapply good_document|]. exact (good_below _ _ _ _ _ _ _ (Hd reg) Hg).
  - intros reg snap Hin. apply answers_for_elem in Hin.
    destruct (di_answers _ _ _ _ _ _ (Hd reg) snap Hin) as [Hg _]. by eapply good_document.
  - intros i j reg pc pc' Hi Hj Hl Hl'.
    pose proof (fi_lead _ _ _ Hf _ _ _ Hi Hl). pose proof (fi_lead _ _ _ Hf _ _ _ Hj Hl'). congruence.
  - intros i reg f Hi Hw. destruct (fi_follow _ _ _ Hf _ _ _ Hi) as [[He _]|Hre].
    + assert (Hs : is_Some (lead !! reg)) by (apply (fi_entries _ _ _ Hf); eauto).
      destruct Hs as [[j pc] Hl]. exists j, pc. by apply (fi_request _ _ _ Hf).
    + destruct (wait_poll_released _ _ Hre) as [v Hv]. congruence.
Qed.

(** [C38] No request ever sees a registry go back. In every run, with any
    interleaving of requests, failures, cancellations and cache evictions, a later
    answer of a registry has at least the revision of every earlier one, two
    answers with the same revision come from bodies with the same SHA-256, and the
    cached snapshot is at least as new as every answer. *)
Theorem no_registry_rollback catalog sys (Hr : reachable catalog sys) reg :
  (forall l1 l2 l3 new old, sy_answers sys = l1 ++ (reg, new) :: l2 ++ (reg, old) :: l3 ->
     s_revision old <= s_revision new /\
     (s_revision old = s_revision new ->
      exists digest, parsed_from reg old digest /\ parsed_from reg new digest)) /\
  (forall c snap, da_cache (sy_inner sys) !! reg = Some c -> (reg, snap) ∈ sy_answers sys ->
     s_revision snap <= s_revision (cr_snapshot c)).
Proof.
  destruct (auth_reachable_inv _ _ Hr) as [lead [Hf _ Hd]]. specialize (Hd reg). split.
  - intros l1 l2 l3 new old He. pose proof (di_sorted _ _ _ _ _ _ Hd) as Hs.
    rewrite He, lookup_sorted_pair in Hs. apply sorted_pair in Hs. split; [done|]. intros Heq.
    assert (Hgood : forall s, s = new \/ s = old -> good reg (sy_installs sys) s).
    { intros s Hs'. apply (di_answers _ _ _ _ _ _ Hd s), answers_for_elem. rewrite He.
      destruct Hs' as [-> | ->]; set_solver. }
    destruct (Hgood new) as (d & Hd1 & Hp1); [by left|]. destruct (Hgood old) as (d' & Hd2 & Hp2); [by right|].
    rewrite Heq, Hd1 in Hd2. injection Hd2 as <-. eauto.
  - intros c snap Hc Hin. apply answers_for_elem in Hin. by apply (di_answers _ _ _ _ _ _ Hd snap Hin).
Qed.

(** ** Executions *)

Inductive Event :=
  | Arrive (registry_id : string)
  | Run (i : nat) (input : Input)
  | Drop (i : nat)
  | Evict (registry_id : string).

Definition exec (e : Event) (sys : System) : option System :=
  match e with
  | Arrive reg => Some {| sy_inner := sy_inner sys; sy_requests := sy_requests sys ++ [(reg, LoopTop)];
                          sy_answers := sy_answers sys; sy_installs := sy_installs sys |}
  | Run i input =>
      '(reg, pc) ← sy_requests sys !! i;
      '(pc', inner') ← poll reg input pc (sy_inner sys);
      Some {| sy_inner := inner'; sy_requests := <[i := (reg, pc')]> (sy_requests sys);
              sy_answers := answers_of reg pc' ++ sy_answers sys;
              sy_installs := record_install reg pc (sy_installs sys) |}
  | Drop i =>
      '(reg, pc) ← sy_requests sys !! i;
      '(pc', inner') ← cancel pc (sy_inner sys);
      Some {| sy_inner := inner'; sy_requests := <[i := (reg, pc')]> (sy_requests sys);
              sy_answers := sy_answers sys; sy_installs := sy_installs sys |}
  | Evict k => Some {| sy_inner := with_cache (delete k (da_cache (sy_inner sys))) (sy_inner sys);
                       sy_requests := sy_requests sys; sy_answers := sy_answers sys;
                       sy_installs := sy_installs sys |}
  end.

Fixpoint exec_all (es : list Event) (sys : System) : option System :=
  match es with [] => Some sys | e :: es => sys ← exec e sys; exec_all es sys end.

Lemma exec_step e sys sys' : exec e sys = Some sys' -> auth_step sys sys'.
Proof.
  destruct e as [reg|i input|i|k]; cbn; intros He.
  - injection He as <-. constructor.
  - apply bind_Some in He as ([reg pc] & Hi & ([pc' inner'] & Hp & [= <-])%bind_Some). by econstructor.
  - apply bind_Some in He as ([reg pc] & Hi & ([pc' inner'] & Hp & [= <-])%bind_Some). by eapply step_cancel.
  - injection He as <-. constructor.
Qed.

Lemma exec_all_reach es sys sys' : exec_all es sys = Some sys' -> rtc auth_step sys sys'.
Proof.
  revert sys. induction es as [|e es IH]; intros sys; cbn; [by intros [= ->]|].
  intros (sys1 & He & Hr)%bind_Some. eapply rtc_l; [by eapply exec_step|by apply IH].
Qed.

Lemma exec_reachable catalog inner es sys :
  DeliveryAuth_new catalog = Some inner -> exec_all es (System_new inner) = Some sys -> reachable catalog sys.
Proof. intros Hn He. exists inner. split; [done|]. by eapply exec_all_reach. Qed.
End AuthRegistry.

(** ** Witnesses *)

#[local] Existing Instance demo_externals.

(** A request loads the demo registry while a second one waits; a third finds it
    cached, a fourth, after an eviction, is answered from a new load. *)
Definition load (i : nat) : list Event :=
  Run i <$> [Poll 0; Poll 0; Poll 0; Poll 0; Poll 0; Resolved true; GetReplied (GetOk 1 None);
             BodyRead (Some [0]); Poll 0; Poll 0; Poll 0; Poll 0; Poll 0; Poll 0].
Definition demo_events : list Event :=
  [Arrive "public"; Arrive "public"] ++ take 9 (load 0) ++ (Run 1 <$> [Poll 0; Poll 0; Poll 0; Poll 0]) ++
  drop 9 (load 0) ++ [Run 1 (Poll 0); Run 1 (Poll 0); Arrive "public"; Run 2 (Poll 1); Evict "public";
                      Arrive "public"] ++ load 3.

Definition demo_run : option System := inner ← DeliveryAuth_new demo_catalog; exec_all demo_events (System_new inner).

Lemma demo_run_reachable sys : demo_run = Some sys -> reachable demo_catalog sys.
Proof. unfold demo_run. intros (inner & Hn & He)%bind_Some. by eapply exec_reachable. Qed.

Lemma demo_run_answers : (fun sys => length (sy_answers sys)) <$> demo_run = Some 4%nat.
Proof. vm_compute. reflexivity. Qed.

Lemma registry_state_wf_witness :
  exists sys, demo_run = Some sys /\ length (sy_answers sys) = 4%nat /\
    da_refresh_permits (sy_inner sys) + permit_holders (sy_requests sys) = 8.
Proof.
  pose proof demo_run_answers as Hl. destruct demo_run as [sys|] eqn:E; [|done].
  exists sys. split; [done|]. split; [by injection Hl|].
  apply (registry_state_wf demo_catalog sys). by apply demo_run_reachable.
Defined.

Lemma no_registry_rollback_witness :
  exists sys, demo_run = Some sys /\ length (sy_answers sys) = 4%nat /\
    (forall c snap, da_cache (sy_inner sys) !! "public" = Some c -> ("public", snap) ∈ sy_answers sys ->
       s_revision snap <= s_revision (cr_snapshot c)).
Proof.
  pose proof demo_run_answers as Hl. destruct demo_run as [sys|] eqn:E; [|done].
  exists sys. split; [done|]. split; [by injection Hl|].
  apply (no_registry_rollback demo_catalog sys). by apply demo_run_reachable.
Defined.
