(* ===== verification/Wire.v ===== *)
(** * Tasks and outcomes between nodes

    Models [crates/biei-core/src/wire.rs] (the wire shapes of a forwarded task and
    of its outcome, and the framing of a response) and the two ends of the
    exchange in [servers/biei/src/http/internal.rs]: the response a node serves
    and the checks with which the sender accepts it.

    Instants and durations are nanoseconds as in Types; an [Instant] plus a
    [Duration] that does not fit panics. [serde_json] on the outcome header is the
    class [HeaderJson]; an HTTP response is its status, whether its content type is
    the one of forward responses, and its body. *)

From S2P Require Import Prelude StdModel Types RenderCache.

(** ** Time *)

Definition as_millis (d : Z) : Z := d / 1000000.
Definition saturating_duration_since (a b : Z) : Z := Z.max 0 (a - b).
Definition duration_saturating_sub (a b : Z) : Z := Z.max 0 (a - b).
Definition duration_saturating_mul (d n : Z) : Z := Z.min DURATION_MAX (d * n).
(** [Instant + Duration]. *)
Definition instant_add {E} (t d : Z) : Res E Z :=
  match instant_checked_add t d with Some t => Ok t | None => Panic end.
Definition INSTANT_MIN : Z := - 2 ^ 63 * nanos_per_sec.
(** [Instant::checked_sub]. *)
Definition instant_checked_sub (t d : Z) : option Z :=
  if INSTANT_MIN <=? t - d then Some (t - d) else None.
Definition is_instant (t : Z) : Prop := INSTANT_MIN <= t <= INSTANT_MAX.

(** [duration_millis] and [millis_since]. *)
Definition duration_millis (d : Z) : Z := Z.min (as_millis d) u64_max.
Definition millis_since (instant base : Z) : Z := duration_millis (saturating_duration_since instant base).

(** ** Tasks *)

Record WireSourceRef := { ws_hash : SourceHash; ws_policy : CachePolicy }.
Definition WireSourceRef_from (s : SourceRef) : WireSourceRef :=
  {| ws_hash := src_hash s; ws_policy := src_policy s |}.
Definition SourceRef_from (s : WireSourceRef) : SourceRef :=
  {| src_hash := ws_hash s; src_policy := ws_policy s |}.

Section Tasks.
Context {Json : Type}.

Record WireTask := {
  wt_id : Z; wt_request_id : string; wt_authorization : option RenderAuthorization;
  wt_style : StyleRevision; wt_source : option WireSourceRef; wt_request : RenderRequest Json;
  wt_scale : Scale; wt_output_format : ImageFormat; wt_remaining_budget_ms : Z;
  wt_forwarding_hops : Z }.

Record ForwardRequest := {
  fr_task : WireTask; fr_route_tier : RouteTier; fr_drain_worker : option WorkerId;
  fr_origin_response_budget_ms : Z }.

Definition to_wire_with_hop_latency (t : InternalTask Json) (now hop_latency : Z) : WireTask :=
  let budget := duration_saturating_sub (saturating_duration_since (t_deadline t) now) hop_latency in
  {| wt_id := t_id t; wt_request_id := t_request_id t; wt_authorization := t_authorization t;
     wt_style := t_style t; wt_source := WireSourceRef_from <$> t_source t; wt_request := t_request t;
     wt_scale := to_scale (t_pixel_ratio t); wt_output_format := t_output_format t;
     wt_remaining_budget_ms := Z.min (as_millis budget) u32_max;
     wt_forwarding_hops := t_forwarding_hops t |}.

Definition to_forward_wire (t : InternalTask Json) (now hop_latency : Z) : WireTask :=
  let round_trip := duration_saturating_mul hop_latency 2 in
  let wire := to_wire_with_hop_latency t now round_trip in
  {| wt_id := wt_id wire; wt_request_id := wt_request_id wire; wt_authorization := wt_authorization wire;
     wt_style := wt_style wire; wt_source := wt_source wire; wt_request := wt_request wire;
     wt_scale := wt_scale wire; wt_output_format := wt_output_format wire;
     wt_remaining_budget_ms := wt_remaining_budget_ms wire;
     wt_forwarding_hops := Z.min u8_max (t_forwarding_hops t + 1) |}.

Definition into_internal {E} (w : WireTask) (now : Z) : Res E (InternalTask Json) :=
  deadline ← instant_add now (from_millis (wt_remaining_budget_ms w));
  Ok {| t_id := wt_id w; t_request_id := wt_request_id w; t_authorization := wt_authorization w;
        t_style := wt_style w; t_source := SourceRef_from <$> wt_source w; t_request := wt_request w;
        t_pixel_ratio := PixelRatio_from (wt_scale w); t_output_format := wt_output_format w;
        t_arrived_at := now; t_deadline := deadline; t_forwarding_hops := wt_forwarding_hops w |}.

Definition wire_had_source (w : WireTask) : bool :=
  bool_decide (wt_source w <> None) || has_addlayer_source (wt_request w).
End Tasks.
Arguments WireTask : clear implicits.
Arguments ForwardRequest : clear implicits.

(** ** Outcomes *)

Record WireRenderObservation := {
  wo_render_mode : RenderMode; wo_scale : Scale; wo_output_format : ImageFormat;
  wo_width : Z; wo_height : Z; wo_style_setup_ms : option Z; wo_source_setup_ms : option Z }.
Definition WireRenderObservation_from (o : RenderObservation) : WireRenderObservation :=
  {| wo_render_mode := ob_render_mode o; wo_scale := ob_scale o; wo_output_format := ob_output_format o;
     wo_width := ob_width o; wo_height := ob_height o;
     wo_style_setup_ms := duration_millis <$> ob_style_setup_duration o;
     wo_source_setup_ms := duration_millis <$> ob_source_setup_duration o |}.
Definition RenderObservation_from (o : WireRenderObservation) : RenderObservation :=
  {| ob_render_mode := wo_render_mode o; ob_scale := wo_scale o; ob_output_format := wo_output_format o;
     ob_width := wo_width o; ob_height := wo_height o;
     ob_style_setup_duration := from_millis <$> wo_style_setup_ms o;
     ob_source_setup_duration := from_millis <$> wo_source_setup_ms o |}.

(** The fields of [OutcomeResult::Completed]. *)
Record CompletedHeader := {
  ch_node_id : NodeId; ch_worker_id : option WorkerId; ch_route_tier : RouteTier;
  ch_render_started_ms : Z; ch_native_render_started_ms : Z;
  ch_native_render_completed_ms : Z; ch_completed_ms : Z;
  ch_style_swap : bool; ch_cold_start : bool; ch_source_loaded : bool;
  ch_admitted_at_overflow : bool; ch_render_observation : option WireRenderObservation }.

Inductive OutcomeResult :=
  | OrCompleted (h : CompletedHeader)
  | OrRejected (reason : RejectionReason) (deadline_stage : option DeadlineStage)
  | OrFailed (error : string) (kind : FailureKind).

Record OutcomeHeader := {
  oh_task_id : Z; oh_request_id : string; oh_style_id : StyleId; oh_had_source : bool;
  oh_image_format : option ImageFormat; oh_result : OutcomeResult }.

Record ForwardResponse := { fp_outcome : OutcomeHeader; fp_output : option RenderOutput }.

Inductive WireError := EncodeError | DecodeError | InvalidCompletedTimeline | Truncated | TooLarge.

Definition completed_header (info : CompletedInfo) (arrived_at : Z) : CompletedHeader :=
  {| ch_node_id := ci_node_id info; ch_worker_id := ci_worker_id info; ch_route_tier := ci_route_tier info;
     ch_render_started_ms := millis_since (ci_started_at info) arrived_at;
     ch_native_render_started_ms := millis_since (ci_native_render_started_at info) arrived_at;
     ch_native_render_completed_ms := millis_since (ci_native_render_completed_at info) arrived_at;
     ch_completed_ms := millis_since (ci_completed_at info) arrived_at;
     ch_style_swap := ci_style_swap info; ch_cold_start := ci_cold_start info;
     ch_source_loaded := ci_source_loaded info; ch_admitted_at_overflow := ci_admitted_at_overflow info;
     ch_render_observation := WireRenderObservation_from <$> ci_render_observation info |}.

(** [OutcomeHeader::from_task_outcome]. *)
Definition from_task_outcome (outcome : TaskOutcome) (style_id : StyleId)
    : OutcomeHeader * option RenderOutput :=
  let '(output, image_format, result) :=
    match to_result outcome with
    | Completed info render_output =>
        (Some render_output, Some (out_format render_output),
         OrCompleted (completed_header info (to_arrived_at outcome)))
    | Rejected reason => (None, None, OrRejected reason (to_deadline_stage outcome))
    | Failed error kind => (None, None, OrFailed error kind)
    end in
  ({| oh_task_id := to_task_id outcome; oh_request_id := to_request_id outcome; oh_style_id := style_id;
      oh_had_source := to_had_source outcome; oh_image_format := image_format; oh_result := result |},
   output).

(** The timeline of a completed outcome at the origin. *)
Definition completed_info {E} (h : CompletedHeader) (arrived_at received_at : Z) : Res E CompletedInfo :=
  let completed_at := Z.max received_at arrived_at in
  let peer_duration := from_millis (ch_completed_ms h) in
  let peer_arrived_at := Z.max (default arrived_at (instant_checked_sub completed_at peer_duration)) arrived_at in
  let peer_duration := saturating_duration_since completed_at peer_arrived_at in
  let peer_offset offset_ms := instant_add peer_arrived_at (Z.min (from_millis offset_ms) peer_duration) in
  started_at ← peer_offset (ch_render_started_ms h);
  native_render_started_at ← peer_offset (ch_native_render_started_ms h);
  native_render_completed_at ← peer_offset (ch_native_render_completed_ms h);
  Ok {| ci_node_id := ch_node_id h; ci_worker_id := ch_worker_id h; ci_route_tier := ch_route_tier h;
        ci_started_at := started_at; ci_native_render_started_at := native_render_started_at;
        ci_native_render_completed_at := native_render_completed_at; ci_completed_at := completed_at;
        ci_style_swap := ch_style_swap h; ci_cold_start := ch_cold_start h;
        ci_source_loaded := ch_source_loaded h; ci_admitted_at_overflow := ch_admitted_at_overflow h;
        ci_render_observation := RenderObservation_from <$> ch_render_observation h |}.

(** [OutcomeHeader::into_task_outcome]. *)
Definition into_task_outcome {E} (header : OutcomeHeader) (arrived_at received_at : Z)
    (output : option RenderOutput) : Res E TaskOutcome :=
  '(deadline_stage, result) ←
    match oh_result header with
    | OrCompleted h =>
        info ← completed_info h arrived_at received_at;
        Ok (None, match output with
                  | Some output => Completed info output
                  | None => Failed "completed response missing render output" OtherFailure
                  end)
    | OrRejected reason stage => Ok (stage, Rejected reason)
    | OrFailed error kind => Ok (None, Failed error kind)
    end;
  Ok {| to_task_id := oh_task_id header; to_request_id := oh_request_id header; to_arrived_at := arrived_at;
        to_had_source := oh_had_source header; to_deadline_stage := deadline_stage; to_result := result |}.

(** [ForwardResponse::into_task_outcome], received at [now]. *)
Definition response_into_task_outcome {E} (r : ForwardResponse) (arrived_at now : Z) : Res E TaskOutcome :=
  into_task_outcome (fp_outcome r) arrived_at now (fp_output r).

Definition rejected_reason (h : OutcomeHeader) : option RejectionReason :=
  match oh_result h with OrRejected reason _ => Some reason | _ => None end.
Definition completed_format (h : OutcomeHeader) : option ImageFormat :=
  match oh_result h with OrCompleted _ => oh_image_format h | _ => None end.

(** ** The body of a response *)

Class HeaderJson := {
  to_vec : OutcomeHeader -> option (list Z);
  header_from_slice : list Z -> option OutcomeHeader }.

(** [serde_json] reads back the header it wrote. *)
Definition json_roundtrips `{HeaderJson} (h : OutcomeHeader) : Prop :=
  forall json, to_vec h = Some json -> header_from_slice json = Some h.

Definition u32_to_be_bytes (n : Z) : list Z :=
  [Z.shiftr n 24 mod 256; Z.shiftr n 16 mod 256; Z.shiftr n 8 mod 256; n mod 256].
Definition u32_from_be_bytes (a b c d : Z) : Z :=
  Z.lor (Z.shiftl a 24) (Z.lor (Z.shiftl b 16) (Z.lor (Z.shiftl c 8) d)).

Section Body.
Context `{HeaderJson}.

Definition encode_response_header (header : OutcomeHeader) : Res WireError (list Z) :=
  json ← ok_or EncodeError (to_vec header);
  json_len ← ok_or TooLarge (u32_try_from (Z.of_nat (length json)));
  Ok (u32_to_be_bytes json_len ++ json).

Definition timeline_ordered (h : CompletedHeader) : bool :=
  (ch_render_started_ms h <=? ch_native_render_started_ms h)
  && (ch_native_render_started_ms h <=? ch_native_render_completed_ms h)
  && (ch_native_render_completed_ms h <=? ch_completed_ms h).

Definition decode_response_prefix (body : list Z) : Res WireError (OutcomeHeader * nat) :=
  match body with
  | a :: b :: c :: d :: rest =>
      let json_len := u32_from_be_bytes a b c d in
      payload_end ← ok_or Truncated (checked_add 4 json_len);
      _ ← ensure (negb (Z.of_nat (length body) <? payload_end)) Truncated;
      header ← ok_or DecodeError (header_from_slice (take (Z.to_nat json_len) rest));
      _ ← match oh_result header with
          | OrCompleted h => ensure (timeline_ordered h) InvalidCompletedTimeline
          | _ => Ok tt
          end;
      Ok (header, Z.to_nat payload_end)
  | _ => Err Truncated
  end.

Definition decode_response_bytes (body : list Z) : Res WireError (OutcomeHeader * list Z) :=
  '(header, payload_end) ← decode_response_prefix body;
  Ok (header, drop payload_end body).

(** ** The exchange over HTTP *)

Record Response := { rs_status : Z; rs_forward_content_type : bool; rs_body : list Z }.

Definition MAX_FORWARD_RESPONSE_BODY_BYTES : Z := 48 * 1024 * 1024.

Definition status_for_outcome (h : OutcomeHeader) : Z :=
  match oh_result h with
  | OrCompleted _ => 200
  | OrRejected reason _ =>
      match reason with
      | UnknownStyle => 404
      | DeadlineTooClose | DeadlineExceeded => 504
      | HopLimitExceeded => 500
      | QueueFull | NoCapacity | RendererDegraded | DrainTooSlow | ForwardFailed => 503
      end
  | OrFailed _ kind =>
      match kind with
      | RenderTimeout | PreparationTimeout => 504
      | StyleUnavailable | SourceUnavailable => 502
      | RendererDead | FkStyleNotReady | OtherFailure => 500
      end
  end.

(** The text of an encoding failure is left out of the body. *)
Definition response_from_outcome (header : OutcomeHeader) (output : option RenderOutput) : Response :=
  match encode_response_header header with
  | Ok prefix =>
      {| rs_status := status_for_outcome header; rs_forward_content_type := true;
         rs_body := prefix ++ match output with Some output => out_bytes output | None => [] end |}
  | _ => {| rs_status := 500; rs_forward_content_type := false; rs_body := [] |}
  end.

Inductive ForwardError := Retryable | Fatal.

Definition retryable_peer_status (status : Z) : bool :=
  (500 <=? status) && (status <? 600) || (status =? 408) || (status =? 429).
Definition is_success (status : Z) : bool := (200 <=? status) && (status <? 300).

Definition duration_millis_ceil (d : Z) : Z :=
  let rounded := if d mod nanos_per_sec mod 1000000 =? 0 then as_millis d else as_millis d + 1 in
  Z.min rounded u32_max.

Section Send.
Context {Json : Type}.

(** [HttpTransport::send] up to the request it posts; resolving the peer's
    address took [resolution]. *)
Definition prepare_send (fwd : ForwardRequest Json) (resolution : option Z)
    : Res ForwardError (ForwardRequest Json) :=
  _ ← ensure (negb (fr_origin_response_budget_ms fwd =? 0)) Fatal;
  elapsed ← ok_or Retryable resolution;
  let resolution_ms := duration_millis_ceil elapsed in
  let task := fr_task fwd in
  let remaining := saturating_sub (wt_remaining_budget_ms task) resolution_ms in
  _ ← ensure (negb (remaining =? 0)) Retryable;
  Ok {| fr_task := {| wt_id := wt_id task; wt_request_id := wt_request_id task;
                      wt_authorization := wt_authorization task; wt_style := wt_style task;
                      wt_source := wt_source task; wt_request := wt_request task; wt_scale := wt_scale task;
                      wt_output_format := wt_output_format task; wt_remaining_budget_ms := remaining;
                      wt_forwarding_hops := wt_forwarding_hops task |};
        fr_route_tier := fr_route_tier fwd; fr_drain_worker := fr_drain_worker fwd;
        fr_origin_response_budget_ms :=
          Z.max (saturating_sub (fr_origin_response_budget_ms fwd) resolution_ms) 1 |}.

(** The checks [HttpTransport::send] makes on a response it received completely. *)
Definition accept_response (fwd : ForwardRequest Json) (r : Response) : Res ForwardError ForwardResponse :=
  _ ← ensure (rs_forward_content_type r) (if retryable_peer_status (rs_status r) then Retryable else Fatal);
  _ ← ensure (negb (MAX_FORWARD_RESPONSE_BODY_BYTES <? Z.of_nat (length (rs_body r)))) Fatal;
  '(outcome, image_bytes) ← map_err (fun _ => Fatal) (decode_response_bytes (rs_body r));
  _ ← ensure (bool_decide (oh_task_id outcome = wt_id (fr_task fwd))
              && bool_decide (oh_request_id outcome = wt_request_id (fr_task fwd))
              && bool_decide (oh_style_id outcome = sr_id (wt_style (fr_task fwd)))
              && Bool.eqb (oh_had_source outcome) (wire_had_source (fr_task fwd))) Fatal;
  if negb (is_success (rs_status r)) then
    match oh_result outcome with
    | OrRejected _ _ | OrFailed _ _ => Ok {| fp_outcome := outcome; fp_output := None |}
    | OrCompleted _ => Err Fatal
    end
  else
    match completed_format outcome with
    | Some format =>
        _ ← ensure (bool_decide (format = wt_output_format (fr_task fwd))) Fatal;
        _ ← ensure (negb (Nat.eqb (length image_bytes) 0)) Fatal;
        Ok {| fp_outcome := outcome;
              fp_output := Some {| out_bytes := image_bytes; out_format := format |} |}
    | None => Err Fatal
    end.
End Send.
End Body.

(** ** Framing *)

Lemma u32_be_roundtrip n :
  is_u32 n ->
  u32_from_be_bytes (Z.shiftr n 24 mod 256) (Z.shiftr n 16 mod 256) (Z.shiftr n 8 mod 256) (n mod 256) = n.
Proof.
  unfold is_u, u32_max, u32_from_be_bytes. intros Hn. apply Z.bits_inj'. intros i Hi.
  change 256 with (2 ^ 8). rewrite !Z.lor_spec, !Z.shiftl_spec by done.
  assert (Hbyte : forall k, 0 <= k -> Z.testbit (Z.shiftr n k mod 2 ^ 8) (i - k) =
    (k <=? i) && (i <? k + 8) && Z.testbit n i).
  { intros k Hk. destruct (Z.leb_spec k i); [|by rewrite Z.testbit_neg_r by lia].
    destruct (Z.ltb_spec i (k + 8)); [|by rewrite Z.mod_pow2_bits_high by lia].
    rewrite Z.mod_pow2_bits_low, Z.shiftr_spec by lia. by replace (i - k + k) with i by lia. }
  rewrite !Hbyte by lia.
  assert (Hlow : Z.testbit (n mod 2 ^ 8) i = (i <? 8) && Z.testbit n i).
  { destruct (Z.ltb_spec i 8); [by rewrite Z.mod_pow2_bits_low by lia|by rewrite Z.mod_pow2_bits_high by lia]. }
  rewrite Hlow. destruct (Z.ltb_spec i 32).
  - destruct (Z.leb_spec 24 i), (Z.ltb_spec i (24 + 8)), (Z.leb_spec 16 i), (Z.ltb_spec i (16 + 8)),
      (Z.leb_spec 8 i), (Z.ltb_spec i (8 + 8)), (Z.ltb_spec i 8), (Z.testbit n i); (done || lia).
  - replace (Z.testbit n i) with false; [by rewrite !andb_false_r|].
    rewrite <- (Z.mod_small n (2 ^ 32)) by lia. by rewrite Z.mod_pow2_bits_high by lia.
Qed.

Section Framing.
Context `{HeaderJson}.

Definition header_ordered (h : OutcomeHeader) : Prop :=
  match oh_result h with OrCompleted c => timeline_ordered c = true | _ => True end.

(** A framed header followed by any image decodes to both. *)
Lemma decode_encoded header prefix image :
  json_roundtrips header -> encode_response_header header = Ok prefix -> header_ordered header ->
  decode_response_bytes (prefix ++ image) = Ok (header, image).
Proof.
  unfold encode_response_header. intros Hjson He Ho. res_inv. rename a into json, a0 into n.
  apply u32_try_from_Some in E0 as [-> Hn]. pose proof (Hjson _ E) as Hj.
  unfold decode_response_bytes, u32_to_be_bytes. cbn [decode_response_prefix app].
  rewrite u32_be_roundtrip by (unfold is_u; lia).
  replace (checked_add 4 (Z.of_nat (length json))) with (Some (4 + Z.of_nat (length json))).
  2: { symmetry. apply checked_add_Some. split; [done|]. unfold u32_max, u64_max in *. lia. }
  res_simpl. rewrite Nat2Z.id, take_app_length.
  cbn [length]. rewrite length_app. rewrite (proj2 (Z.ltb_ge _ _)) by lia. cbn [negb]. res_simpl.
  rewrite Hj. res_simpl.
  assert (Hdrop : forall b1 b2 b3 b4, drop (Z.to_nat (4 + Z.of_nat (length json)))
    (b1 :: b2 :: b3 :: b4 :: json ++ image) = image).
  { intros. replace (Z.to_nat (4 + Z.of_nat (length json))) with (4 + length json)%nat by lia.
    cbn [Nat.add drop]. by rewrite drop_app_length. }
  unfold header_ordered in Ho. destruct (oh_result header) as [c| |]; [rewrite Ho| |]; res_simpl;
    by rewrite Hdrop.
Qed.
End Framing.

(** ** Timelines *)

Lemma millis_since_mono a b base : a <= b -> millis_since a base <= millis_since b base.
Proof.
  intros Hab. unfold millis_since, duration_millis, as_millis, saturating_duration_since.
  assert (Z.max 0 (a - base) / 1000000 <= Z.max 0 (b - base) / 1000000) by (apply Z.div_le_mono; lia). lia.
Qed.

Lemma millis_since_nonneg a base : 0 <= millis_since a base.
Proof.
  unfold millis_since, duration_millis, as_millis, saturating_duration_since.
  assert (0 <= Z.max 0 (a - base) / 1000000) by (apply Z.div_pos; lia). unfold u64_max. lia.
Qed.

(** The instants of a completed render are in order. *)
Definition info_ordered (i : CompletedInfo) : Prop :=
  ci_started_at i <= ci_native_render_started_at i <= ci_native_render_completed_at i /\
  ci_native_render_completed_at i <= ci_completed_at i.

Lemma completed_header_ordered i arrived_at :
  info_ordered i -> timeline_ordered (completed_header i arrived_at) = true.
Proof.
  intros ([H1 H2] & H3). unfold timeline_ordered. cbn.
  rewrite !(proj2 (Z.leb_le _ _)); [done|by apply millis_since_mono..].
Qed.

Record header_nonneg (h : CompletedHeader) : Prop := {
  hn_started : 0 <= ch_render_started_ms h;
  hn_ordered : timeline_ordered h = true }.

(** The timeline the origin reconstructs: ordered, inside its own interval, and
    with the durations the peer measured wherever the interval has room. *)
Lemma completed_info_spec {E} h arrived_at received_at :
  header_nonneg h -> is_instant arrived_at -> is_instant received_at ->
  exists i, @completed_info E h arrived_at received_at = Ok i /\ info_ordered i /\
    arrived_at <= ci_started_at i /\ ci_completed_at i = Z.max received_at arrived_at /\
    (from_millis (ch_completed_ms h) <= Z.max received_at arrived_at - arrived_at ->
     ci_completed_at i - ci_started_at i = from_millis (ch_completed_ms h - ch_render_started_ms h) /\
     ci_completed_at i - ci_native_render_started_at i =
       from_millis (ch_completed_ms h - ch_native_render_started_ms h) /\
     ci_completed_at i - ci_native_render_completed_at i =
       from_millis (ch_completed_ms h - ch_native_render_completed_ms h)) /\
    ci_node_id i = ch_node_id h /\ ci_worker_id i = ch_worker_id h /\ ci_route_tier i = ch_route_tier h /\
    ci_style_swap i = ch_style_swap h /\ ci_cold_start i = ch_cold_start h /\
    ci_source_loaded i = ch_source_loaded h /\ ci_admitted_at_overflow i = ch_admitted_at_overflow h /\
    ci_render_observation i = RenderObservation_from <$> ch_render_observation h.
Proof.
  intros [Hs Ho] [Ha1 Ha2] [Hr1 Hr2]. unfold timeline_ordered in Ho. bool_props.
  unfold completed_info. set (C := Z.max received_at arrived_at).
  assert (HC : arrived_at <= C <= INSTANT_MAX) by (subst C; lia).
  set (D := from_millis (ch_completed_ms h)).
  set (P := Z.max (default arrived_at (instant_checked_sub C D)) arrived_at).
  assert (HP : arrived_at <= P <= C /\ (D <= C - arrived_at -> P = C - D)).
  { subst P. unfold instant_checked_sub. destruct (Z.leb_spec INSTANT_MIN (C - D)) as [Hmin|Hmin]; cbn [from_option id].
    - assert (0 <= D) by (subst D; unfold from_millis; lia). lia.
    - lia. }
  assert (Hadd : forall ms, instant_add (E := E) P (Z.min (from_millis ms) (saturating_duration_since C P)) =
    Ok (P + Z.min (from_millis ms) (C - P))).
  { intros ms. unfold instant_add, instant_checked_add, saturating_duration_since.
    rewrite (Z.max_r 0 (C - P)) by lia. rewrite (proj2 (Z.leb_le _ _)) by lia. done. }
  rewrite !Hadd. res_simpl. eexists. split; [done|]. cbn. unfold info_ordered. cbn.
  assert (Hmono : forall a b, a <= b -> from_millis a <= from_millis b) by (unfold from_millis; intros; lia).
  pose proof (Hmono _ _ H). pose proof (Hmono _ _ H0). pose proof (Hmono _ _ H1).
  assert (0 <= from_millis (ch_render_started_ms h)) by (unfold from_millis; lia).
  split_and!; try done; try lia.
  intros Hroom. destruct HP as [_ HP]. specialize (HP Hroom). unfold from_millis in *.
  subst D. lia.
Qed.

(** ** Forwarded tasks *)

Lemma to_scale_from s : to_scale (PixelRatio_from s) = s.
Proof. by destruct s. Qed.

Lemma source_roundtrip (s : option SourceRef) : SourceRef_from <$> (WireSourceRef_from <$> s) = s.
Proof. by destruct s as [[]|]. Qed.

Lemma wire_budget_spec d hop :
  0 <= hop -> d <= DURATION_MAX ->
  let ms := Z.min (as_millis (duration_saturating_sub (Z.max 0 d) (duration_saturating_mul hop 2))) u32_max in
  0 <= from_millis ms <= Z.max 0 (d - 2 * hop) /\
  (0 <= d - 2 * hop <= from_millis u32_max -> d - 2 * hop - 1000000 < from_millis ms).
Proof.
  intros Hh Hd. unfold duration_saturating_sub, duration_saturating_mul, as_millis, from_millis.
  replace (Z.max 0 (Z.max 0 d - Z.min DURATION_MAX (hop * 2))) with (Z.max 0 (d - 2 * hop)).
  2: { assert (0 <= DURATION_MAX) by done. lia. }
  set (b := Z.max 0 (d - 2 * hop)). pose proof (Z.div_mod b 1000000 ltac:(lia)) as Hdm.
  pose proof (Z.mod_pos_bound b 1000000 ltac:(lia)). unfold u32_max. subst b. lia.
Qed.

(** ** The exchange *)

Section Exchange.
Context `{HeaderJson} {Json : Type}.

(** The outcome belongs to the request, and a completed one holds the image that
    was asked for, in a consistent timeline. *)
Record answers_request (fwd : ForwardRequest Json) (o : TaskOutcome) : Prop := {
  ar_task : to_task_id o = wt_id (fr_task fwd);
  ar_request : to_request_id o = wt_request_id (fr_task fwd);
  ar_source : to_had_source o = wire_had_source (fr_task fwd);
  ar_completed : forall info output, to_result o = Completed info output ->
    info_ordered info /\ out_format output = wt_output_format (fr_task fwd) /\ out_bytes output <> [] }.

(** The outcome of the peer as the origin sees it. *)
Definition same_outcome (o o' : TaskOutcome) (arrived_at now : Z) : Prop :=
  to_task_id o' = to_task_id o /\ to_request_id o' = to_request_id o /\ to_arrived_at o' = arrived_at /\
  to_had_source o' = to_had_source o /\
  match to_result o, to_result o' with
  | Rejected reason, Rejected reason' => reason' = reason /\ to_deadline_stage o' = to_deadline_stage o
  | Failed error kind, Failed error' kind' => error' = error /\ kind' = kind /\ to_deadline_stage o' = None
  | Completed i output, Completed i' output' =>
      output' = output /\ to_deadline_stage o' = None /\
      ci_node_id i' = ci_node_id i /\ ci_worker_id i' = ci_worker_id i /\ ci_route_tier i' = ci_route_tier i /\
      ci_style_swap i' = ci_style_swap i /\ ci_cold_start i' = ci_cold_start i /\
      ci_source_loaded i' = ci_source_loaded i /\ ci_admitted_at_overflow i' = ci_admitted_at_overflow i /\
      info_ordered i' /\ arrived_at <= ci_started_at i' /\ ci_completed_at i' = Z.max now arrived_at /\
      (** durations to the millisecond, when the peer's whole interval fits *)
      (let at_peer t := millis_since t (to_arrived_at o) in
       from_millis (at_peer (ci_completed_at i)) <= ci_completed_at i' - arrived_at ->
       ci_completed_at i' - ci_started_at i' =
         from_millis (at_peer (ci_completed_at i) - at_peer (ci_started_at i)) /\
       ci_completed_at i' - ci_native_render_started_at i' =
         from_millis (at_peer (ci_completed_at i) - at_peer (ci_native_render_started_at i)) /\
       ci_completed_at i' - ci_native_render_completed_at i' =
         from_millis (at_peer (ci_completed_at i) - at_peer (ci_native_render_completed_at i)))
  | _, _ => False
  end.

Lemma outcome_header_ordered o style_id :
  (forall info output, to_result o = Completed info output -> info_ordered info) ->
  header_ordered (from_task_outcome o style_id).1.
Proof.
  intros Ho. unfold from_task_outcome, header_ordered.
  destruct (to_result o) as [info output|reason|error kind] eqn:E; cbn; [|done|done].
  by eapply completed_header_ordered, Ho.
Qed.

Lemma accept_served fwd o :
  answers_request fwd o ->
  let '(header, output) := from_task_outcome o (sr_id (wt_style (fr_task fwd))) in
  json_roundtrips header -> is_ok (encode_response_header header) = true ->
  Z.of_nat (length (rs_body (response_from_outcome header output))) <= MAX_FORWARD_RESPONSE_BODY_BYTES ->
  accept_response fwd (response_from_outcome header output) =
  Ok {| fp_outcome := header; fp_output := output |}.
Proof.
  intros [Ht Hr Hs Hc]. destruct (from_task_outcome o _) as [header output] eqn:Ef. intros Hjson Hok Hlen.
  pose proof (outcome_header_ordered o (sr_id (wt_style (fr_task fwd)))
    (fun i out He => proj1 (Hc i out He))) as Hord.
  rewrite Ef in Hord. cbn in Hord. unfold response_from_outcome in *.
  destruct (encode_response_header header) as [prefix| |] eqn:Ee; [|done|done].
  cbn [rs_body] in Hlen. unfold accept_response. cbn [rs_body rs_status rs_forward_content_type].
  rewrite (proj2 (Z.ltb_ge _ _)) by done. cbn [negb]. res_simpl.
  rewrite (decode_encoded _ _ _ Hjson Ee Hord). res_simpl.
  unfold from_task_outcome in Ef.
  destruct (to_result o) as [info out|reason|error kind] eqn:Er; injection Ef as <- <-; cbn [oh_task_id
    oh_request_id oh_style_id oh_had_source]; rewrite Ht, Hr, Hs, !bool_decide_eq_true_2, eqb_reflx by done;
    cbn [andb]; res_simpl.
  - destruct (Hc info out eq_refl) as (_ & Hf & Hne). cbn. rewrite Hf, bool_decide_eq_true_2 by done. res_simpl.
    destruct (out_bytes out) as [|b l] eqn:Eb; [done|]. cbn. rewrite <- Hf, <- Eb. by destruct out.
  - by destruct reason.
  - by destruct kind.
Qed.

Lemma received_outcome {E} o style_id arrived_at now :
  (forall info output, to_result o = Completed info output -> info_ordered info) ->
  is_instant arrived_at -> is_instant now ->
  let '(header, output) := from_task_outcome o style_id in
  exists o', @response_into_task_outcome E {| fp_outcome := header; fp_output := output |} arrived_at now = Ok o' /\
    same_outcome o o' arrived_at now.
Proof.
  intros Ho Ha Hn. unfold from_task_outcome, response_into_task_outcome, into_task_outcome, same_outcome.
  destruct (to_result o) as [info out|reason|error kind] eqn:Er; cbn [fp_outcome fp_output oh_result].
  - destruct (completed_info_spec (E := E) (completed_header info (to_arrived_at o)) arrived_at now)
      as (i & Hi & Hord & Hst & Hcomp & Hdur & Hrest); [|done|done|].
    { split; [apply millis_since_nonneg|]. by eapply completed_header_ordered, Ho. }
    rewrite Hi. res_simpl. eexists. split; [done|]. cbn. cbn in Hrest, Hdur.
    destruct Hrest as (? & ? & ? & ? & ? & ? & ? & _). rewrite <- Hcomp in *. by split_and!.
  - res_simpl. eexists. split; [done|]. done.
  - res_simpl. eexists. split; [done|]. done.
Qed.
End Exchange.

(** [C39] Forwarding keeps a task what it is and never grants it time. The task a
    peer reconstructs has the same content, worker profile, cache key, source and
    authorization, and one more hop. Its budget is the origin's remaining budget
    less two hops, rounded down by less than a millisecond, so when the request
    took at most one hop, a render that meets the remote deadline is back one hop
    later within the origin's deadline. *)
Theorem forwarded_task_faithful {Json} (json_to_string : Json -> string) (t : InternalTask Json) now hop now'
    (Hd : is_instant (t_deadline t)) (Hn : is_instant now) (Hh : 0 <= hop)
    (Hroom : now' + from_millis u32_max <= INSTANT_MAX) :
  exists t', @into_internal Json Empty_set (to_forward_wire t now hop) now' = Ok t' /\
    t_id t' = t_id t /\ t_request_id t' = t_request_id t /\ t_authorization t' = t_authorization t /\
    t_request t' = t_request t /\ t_source t' = t_source t /\ t_output_format t' = t_output_format t /\
    worker_profile t' = worker_profile t /\
    RenderCacheKey_from_task json_to_string t' = RenderCacheKey_from_task json_to_string t /\
    wire_had_source (to_forward_wire t now hop) = has_source t /\
    t_forwarding_hops t' = Z.min u8_max (t_forwarding_hops t + 1) /\
    t_arrived_at t' = now' /\ now' <= t_deadline t' /\
    (now' < t_deadline t' -> t_deadline t' - now' <= t_deadline t - now - 2 * hop) /\
    (now' < t_deadline t' -> now' <= now + hop -> t_deadline t' + hop <= t_deadline t) /\
    (0 <= t_deadline t - now - 2 * hop <= from_millis u32_max ->
     t_deadline t - now - 2 * hop - 1000000 < t_deadline t' - now').
Proof.
  destruct (wire_budget_spec (t_deadline t - now) hop Hh) as [[Hb0 Hb1] Hb2].
  { unfold is_instant, INSTANT_MIN, INSTANT_MAX, DURATION_MAX, u64_max in *. lia. }
  set (w := to_forward_wire t now hop).
  assert (Hw : from_millis (wt_remaining_budget_ms w) <= from_millis u32_max).
  { cbn. unfold from_millis. lia. }
  unfold into_internal, instant_add, instant_checked_add. rewrite (proj2 (Z.leb_le _ _)) by lia. res_simpl.
  change (Z.max 0 (t_deadline t - now)) with (saturating_duration_since (t_deadline t) now) in *.
  eexists. split; [done|]. subst w. cbn [t_id t_request_id t_authorization t_request t_source t_output_format
    t_forwarding_hops t_arrived_at t_deadline to_forward_wire to_wire_with_hop_latency wt_id wt_request_id
    wt_authorization wt_request wt_source wt_output_format wt_forwarding_hops wt_remaining_budget_ms] in *.
  split_and!; try done; try lia.
  - apply source_roundtrip.
  - unfold worker_profile. cbn -[to_scale]. by rewrite to_scale_from.
  - unfold RenderCacheKey_from_task. cbn -[to_scale]. rewrite to_scale_from. by destruct (t_source t).
  - unfold wire_had_source, has_source. cbn. by destruct (t_source t).
Qed.

(** An outcome survives the exchange between nodes. The response a peer
    serves for a request is accepted by the sender, and what the sender makes of
    it has the same identity, the same rejection with its stage, the same failure,
    or the same image and render facts; the origin's timeline of a completed
    render is ordered, lies after the arrival of the request, ends at the receipt
    of the response, and keeps the peer's durations to the millisecond whenever
    they fit. *)
Theorem forward_exchange_roundtrip `{HeaderJson} {Json} (fwd : ForwardRequest Json) o
    arrived_at now header output
    (Ho : answers_request fwd o)
    (Hserve : from_task_outcome o (sr_id (wt_style (fr_task fwd))) = (header, output))
    (Hjson : json_roundtrips header) (Henc : is_ok (encode_response_header header) = true)
    (Hlen : Z.of_nat (length (rs_body (response_from_outcome header output))) <= MAX_FORWARD_RESPONSE_BODY_BYTES)
    (Ha : is_instant arrived_at) (Hn : is_instant now) :
  exists resp o', accept_response fwd (response_from_outcome header output) = Ok resp /\
    response_into_task_outcome (E := Empty_set) resp arrived_at now = Ok o' /\
    same_outcome o o' arrived_at now.
Proof.
  pose proof (accept_served fwd o Ho) as Hacc.
  pose proof (received_outcome (E := Empty_set) o (sr_id (wt_style (fr_task fwd))) arrived_at now
    (fun i out He => proj1 (ar_completed _ _ Ho i out He)) Ha Hn) as Hrec.
  rewrite Hserve in Hacc, Hrec. destruct Hrec as (o' & Hr & Hs).
  exists {| fp_outcome := header; fp_output := output |}, o'. split_and!; [by apply Hacc|done|done].
Qed.

(** ** Witnesses *)

Definition demo_task : InternalTask unit :=
  {| t_id := 7; t_request_id := "r"; t_authorization := None;
     t_style := {| sr_id := "demo/base"; sr_version := 1 |}; t_source := Some {| src_hash := 5; src_policy := Cacheable |};
     t_request := ReqTile 1 0 0 256; t_pixel_ratio := {| ratio_bits := F32_2_0 |}; t_output_format := Png;
     t_arrived_at := 0; t_deadline := 2000000000; t_forwarding_hops := 0 |}.

Lemma forwarded_task_faithful_witness :
  exists t', @into_internal unit Empty_set (to_forward_wire demo_task 500000000 100000000) 40 = Ok t' /\
    t_deadline t' - 40 = 1300000000 /\
    (40 < t_deadline t' -> 40 <= 500000000 + 100000000 -> t_deadline t' + 100000000 <= t_deadline demo_task).
Proof.
  destruct (forwarded_task_faithful (fun _ => "") demo_task 500000000 100000000 40)
    as (t' & Ht & _ & _ & _ & _ & _ & _ & _ & _ & _ & _ & _ & _ & _ & Hdl & _); [split; done|split; done|done|done|].
  exists t'. split; [done|]. split; [|exact Hdl]. vm_compute in Ht. by injection Ht as <-.
Defined.

Definition demo_fwd : ForwardRequest unit :=
  {| fr_task := to_forward_wire demo_task 500000000 100000000; fr_route_tier := Tier2HrwBl;
     fr_drain_worker := None; fr_origin_response_budget_ms := 1500 |}.
Definition demo_outcome : TaskOutcome :=
  {| to_task_id := 7; to_request_id := "r"; to_arrived_at := 1000; to_had_source := true; to_deadline_stage := None;
     to_result := Completed
       {| ci_node_id := "b"; ci_worker_id := Some 0; ci_route_tier := Tier2HrwBl; ci_started_at := 5001000;
          ci_native_render_started_at := 9001000; ci_native_render_completed_at := 29001000;
          ci_completed_at := 30001000; ci_style_swap := true; ci_cold_start := false; ci_source_loaded := true;
          ci_admitted_at_overflow := false; ci_render_observation := None |}
       {| out_bytes := [137; 80]; out_format := Png |} |}.

Lemma demo_outcome_answers : answers_request demo_fwd demo_outcome.
Proof. split; [done|done|done|]. intros info output [= <- <-]. by repeat split. Qed.

(** A stand-in encoder that knows the header of this outcome. *)
#[local] Instance demo_json : HeaderJson := {|
  to_vec _ := Some [123; 125];
  header_from_slice _ := Some (from_task_outcome demo_outcome "demo/base").1 |}.

Lemma forward_exchange_roundtrip_witness :
  let served := from_task_outcome demo_outcome "demo/base" in
  exists resp o', accept_response demo_fwd (response_from_outcome served.1 served.2) = Ok resp /\
    response_into_task_outcome (E := Empty_set) resp 200000000 300000000 = Ok o' /\
    same_outcome demo_outcome o' 200000000 300000000.
Proof.
  apply (forward_exchange_roundtrip demo_fwd demo_outcome); [apply demo_outcome_answers|done| |done|by vm_compute|by split|by split].
  intros json _. reflexivity.
Defined.
