(* ===== verification/Node.v ===== *)
(** * A render node

    Models the request handling of [crates/biei-core/src/node.rs]
    ([handle_incoming], [handle_forwarded] and what they call) and
    [crates/biei-core/src/style_catalog.rs].

    A request runs against the class [NodeWorld]: the clock, the render-output
    cache, the cluster view, the dispatcher, the profile preparer, the worker pool
    and the transport, each of which may answer anything its documentation
    allows, whatever other requests do meanwhile. The calls a request makes are
    recorded in order. While a request follows another render of the same key,
    the cache answers with the lookups after each wake-up before the deadline;
    when they run out the deadline fires. Metrics and log output are left out. *)

From S2P Require Import Prelude StdModel Types RenderCache Wire.

(** ** Style catalog *)

Module StyleCatalog.
Definition INITIAL_STYLE_VERSION : Z := 1.

Record StyleDefinition := { style_url : string; version : Z }.

Record StyleCatalogInner := {
  by_id : gmap string StyleDefinition;
  namespace_templates : gmap string string;
  default_template : option string }.

(** The template of an id and what replaces [{style_id}] in it. *)
Definition template_for (c : StyleCatalogInner) (id : StyleId) : option (string * string) :=
  match '(namespace, rest) ← split_once "/" id;
        template ← namespace_templates c !! namespace;
        Some (template, rest) with
  | Some found => Some found
  | None => (fun template => (template, id)) <$> default_template c
  end.

Definition upsert_definition (style_id : StyleId) (d : StyleDefinition) (c : StyleCatalogInner) : StyleCatalogInner :=
  {| by_id := <[style_id := d]> (by_id c); namespace_templates := namespace_templates c;
     default_template := default_template c |}.
Definition set_url_template (template : string) (c : StyleCatalogInner) : StyleCatalogInner :=
  {| by_id := by_id c; namespace_templates := namespace_templates c; default_template := Some template |}.
Definition add_namespace_template (namespace template : string) (c : StyleCatalogInner) : StyleCatalogInner :=
  {| by_id := by_id c; namespace_templates := <[namespace := template]> (namespace_templates c);
     default_template := default_template c |}.

Definition resolve_latest (c : StyleCatalogInner) (style_id : StyleId) : option Z :=
  match by_id c !! style_id with
  | Some definition => Some (version definition)
  | None => (fun _ => INITIAL_STYLE_VERSION) <$> template_for c style_id
  end.

Definition accepts_revision (c : StyleCatalogInner) (r : StyleRevision) : bool :=
  match resolve_latest c (sr_id r) with Some v => v =? sr_version r | None => false end.

(** [str::replace]. *)
Fixpoint replace_fuel (fuel : nat) (pattern subst s : string) : string :=
  match fuel with
  | O => s
  | S fuel =>
      match strip_prefix pattern s with
      | Some rest => subst +:+ replace_fuel fuel pattern subst rest
      | None => match s with
                | EmptyString => EmptyString
                | String a s => String a (replace_fuel fuel pattern subst s)
                end
      end
  end.
Definition replace (pattern subst s : string) : string := replace_fuel (S (String.length s)) pattern subst s.

Definition definition_for_revision (c : StyleCatalogInner) (r : StyleRevision) : option StyleDefinition :=
  match by_id c !! sr_id r with
  | Some definition => if version definition =? sr_version r then Some definition else None
  | None => None
  end ∪
  (if sr_version r =? INITIAL_STYLE_VERSION then
     '(template, subst) ← template_for c (sr_id r);
     Some {| style_url := replace "{style_id}" subst template; version := INITIAL_STYLE_VERSION |}
   else None).

(** Every revision a node accepts from a peer has a definition of that version. *)
Lemma accepted_revision_defined c r :
  accepts_revision c r = true ->
  exists d, definition_for_revision c r = Some d /\ version d = sr_version r.
Proof.
  unfold accepts_revision, definition_for_revision, resolve_latest.
  destruct (by_id c !! sr_id r) as [d|].
  - intros Hv. rewrite Hv. bool_props. exists d. split; [|done]. by destruct (if sr_version r =? _ then _ else _).
  - destruct (template_for c (sr_id r)) as [[template subst]|]; cbn [fmap option_fmap option_map]; [|done].
    rewrite Z.eqb_sym. intros Hv. rewrite Hv. bool_props. eexists. split; [done|]. cbn. by rewrite Hv.
Qed.
End StyleCatalog.

(** ** The node *)

Definition MIN_FORWARD_BUDGET_MS : Z := 200.
Definition MAX_FORWARDING_HOPS : Z := 1.

Inductive CacheMissAdmission := MayForward | RequiresLocalRenderer.
Definition requires_local_renderer (a : CacheMissAdmission) : bool :=
  match a with MayForward => false | RequiresLocalRenderer => true end.

Record TaskMeta := { tm_task_id : Z; tm_request_id : string; tm_arrived_at : Z; tm_had_source : bool }.

Definition TaskMeta_outcome (m : TaskMeta) (result : TaskResult) : TaskOutcome :=
  {| to_task_id := tm_task_id m; to_request_id := tm_request_id m; to_arrived_at := tm_arrived_at m;
     to_had_source := tm_had_source m; to_deadline_stage := None; to_result := result |}.
Definition reject (m : TaskMeta) (reason : RejectionReason) : TaskOutcome :=
  TaskMeta_outcome m (Rejected reason).
Definition fail (m : TaskMeta) (error : string) (kind : FailureKind) : TaskOutcome :=
  TaskMeta_outcome m (Failed error kind).

Section Node.
Context {Json W Profile : Type}.

Inductive ProcessError :=
  | PeQueueFull (task : InternalTask Json)
  | PeRenderAdmissionClosed (task : InternalTask Json)
  | PeQueueDisconnected.

Definition TaskMeta_of (t : InternalTask Json) : TaskMeta :=
  {| tm_task_id := t_id t; tm_request_id := t_request_id t; tm_arrived_at := t_arrived_at t;
     tm_had_source := has_source t |}.
Definition process_error_outcome (m : TaskMeta) (e : ProcessError) : TaskOutcome :=
  match e with
  | PeQueueFull _ => reject m QueueFull
  | PeRenderAdmissionClosed _ => reject m RendererDegraded
  | PeQueueDisconnected => fail m "worker queue disconnected" OtherFailure
  end.

(** What a node works with. [w_send] is [None] when the deadline passed first. *)
Class NodeWorld := {
  w_now : W -> Z * W;
  w_can_start_render : W -> bool * W;
  w_accepts_revision : StyleRevision -> W -> bool * W;
  w_lookup_or_join : InternalTask Json -> W -> RenderCacheLookup * W;
  w_rechecks : InternalTask Json -> RenderFlightFollower -> W -> list RenderCacheLookup * W;
  w_insert_from_outcome : RenderFlightLeader -> TaskOutcome -> W -> W;
  w_drop_leader : RenderFlightLeader -> W -> W;
  w_get_or_load : Z -> W -> option ClusterView * W;
  w_snapshot_workers : W -> list WorkerView * W;
  w_decide : InternalTask Json -> ClusterView -> NodeStateView -> W -> Decision * W;
  w_prepare_profile : InternalTask Json -> W -> (option Profile + ProfilePreparationError) * W;
  w_preparation_error : ProfilePreparationError -> string;
  w_process : InternalTask Json -> option Profile -> RouteTier -> option WorkerId -> W ->
    (TaskOutcome + ProcessError) * W;
  w_mark_style_load_failed : StyleRevision -> option RenderAuthorization -> W -> W;
  w_send : NodeId -> ForwardRequest Json -> Z -> W -> option (ForwardResponse + ForwardError) * W }.

(** The calls that can start or hand over work, and what they depend on. *)
Inductive Call :=
  | CallDecide (d : Decision)
  | CallAdmission (open : bool)
  | CallProcess (task : InternalTask Json) (tier : RouteTier) (hint : option WorkerId)
      (result : TaskOutcome + ProcessError)
  | CallSend (checked_at sent_at : Z) (target : NodeId) (fwd : ForwardRequest Json)
      (reply : option (ForwardResponse + ForwardError)).

Record St := { st_world : W; st_calls : list Call }.
Definition M (A : Type) : Type := SM St Empty_set A.

Definition io {A} (f : W -> A * W) : M A := fun s =>
  let '(a, w) := f (st_world s) in (Ok a, {| st_world := w; st_calls := st_calls s |}).
Definition effect (f : W -> W) : M unit := io (fun w => (tt, f w)).
Definition record (c : Call) : M unit :=
  modify (fun s => {| st_world := st_world s; st_calls := st_calls s ++ [c] |}).

Context `{NodeWorld} (node_id : NodeId) (hop_latency : Z).

Definition preparation_error_outcome (m : TaskMeta) (e : ProfilePreparationError) : TaskOutcome :=
  fail m (w_preparation_error e) (failure_kind e).

Definition can_start_render : M bool :=
  open ← io w_can_start_render;
  _ ← record (CallAdmission open);
  mret open.

Definition renderer_degraded_reject (t : InternalTask Json) : TaskOutcome :=
  reject (TaskMeta_of t) RendererDegraded.

(** The lookups of [acquire_render_output_cache] up to the deadline. *)
Fixpoint acquire_loop (t : InternalTask Json) (miss_admission : CacheMissAdmission)
    (lookups : list RenderCacheLookup) : M (option RenderFlightLeader + TaskOutcome) :=
  match lookups with
  | [] => mret (inr (reject (TaskMeta_of t) DeadlineExceeded))
  | Disabled :: _ =>
      if requires_local_renderer miss_admission then
        open ← can_start_render;
        if negb open then mret (inr (renderer_degraded_reject t)) else mret (inl None)
      else mret (inl None)
  | Hit output :: _ =>
      now ← io w_now;
      mret (inr (cache_hit_outcome now node_id t output))
  | Leader leader :: _ =>
      if requires_local_renderer miss_admission then
        open ← can_start_render;
        if negb open then
          _ ← effect (w_drop_leader leader);
          mret (inr (renderer_degraded_reject t))
        else mret (inl (Some leader))
      else mret (inl (Some leader))
  | Wait _ :: lookups => acquire_loop t miss_admission lookups
  end.

Definition acquire_render_output_cache (t : InternalTask Json) (miss_admission : CacheMissAdmission)
    : M (option RenderFlightLeader + TaskOutcome) :=
  lookup ← io (w_lookup_or_join t);
  rechecks ← match lookup with Wait follower => io (w_rechecks t follower) | _ => mret [] end;
  acquire_loop t miss_admission (lookup :: rechecks).

Definition process_local_task (t : InternalTask Json) (prepared : option Profile) (tier : RouteTier)
    (worker_hint : option WorkerId) : M (TaskOutcome + ProcessError) :=
  open ← can_start_render;
  if negb open then mret (inr (PeRenderAdmissionClosed t))
  else
    result ← io (w_process t prepared tier worker_hint);
    _ ← record (CallProcess t tier worker_hint result);
    match result with
    | inl outcome =>
        _ ← match to_result outcome with
            | Failed _ StyleUnavailable => effect (w_mark_style_load_failed (t_style t) (t_authorization t))
            | _ => mret tt
            end;
        mret (inl outcome)
    | inr e => mret (inr e)
    end.

Definition prepare_local_profile (t : InternalTask Json) : M (option Profile + ProfilePreparationError) :=
  io (w_prepare_profile t).

Definition forward_budget_too_small (now : Z) (t : InternalTask Json) : bool :=
  saturating_duration_since (t_deadline t) now <? from_millis MIN_FORWARD_BUDGET_MS.

(** The loop over the candidates: an answer, or what the candidates left behind
    (the last retryable rejection, whether a transport failed). *)
Fixpoint try_candidates (t : InternalTask Json) (tier : RouteTier) (candidates : list ForwardCandidate)
    (last : option RejectionReason) (saw_transport_failure : bool)
    : M (TaskOutcome + option RejectionReason * bool) :=
  match candidates with
  | [] => mret (inr (last, saw_transport_failure))
  | candidate :: candidates =>
      checked_at ← io w_now;
      if forward_budget_too_small checked_at t then mret (inl (reject (TaskMeta_of t) DeadlineTooClose))
      else
        sent_at ← io w_now;
        let fwd := {| fr_task := to_forward_wire t sent_at hop_latency; fr_route_tier := tier;
                      fr_drain_worker := fc_drain_worker candidate;
                      fr_origin_response_budget_ms :=
                        Z.min (as_millis (saturating_duration_since (t_deadline t) sent_at)) u32_max |} in
        sent ← io (w_send (fc_node_id candidate) fwd (t_deadline t));
        _ ← record (CallSend checked_at sent_at (fc_node_id candidate) fwd sent);
        match sent with
        | None => mret (inl (reject (TaskMeta_of t) DeadlineExceeded))
        | Some (inl resp) =>
            match rejected_reason (fp_outcome resp) with
            | Some reason =>
                if is_retryable_at_forward reason
                then try_candidates t tier candidates (Some reason) saw_transport_failure
                else now ← io w_now;
                     outcome ← lift (response_into_task_outcome resp (t_arrived_at t) now);
                     mret (inl outcome)
            | None => now ← io w_now;
                      outcome ← lift (response_into_task_outcome resp (t_arrived_at t) now);
                      mret (inl outcome)
            end
        | Some (inr _) => try_candidates t tier candidates last true
        end
  end.

Definition exhaustion_reason (tried : option RejectionReason * bool) : RejectionReason :=
  default (if tried.2 then ForwardFailed else NoCapacity) tried.1.

(** The local overflow attempt after all candidates. *)
Definition overflow_fallback (t : InternalTask Json) (exhausted : RejectionReason) : M TaskOutcome :=
  let m := TaskMeta_of t in
  open ← can_start_render;
  if negb open then mret (reject m exhausted)
  else
    now ← io w_now;
    if t_deadline t <=? now then mret (reject m DeadlineExceeded)
    else
      prepared ← prepare_local_profile t;
      match prepared with
      | inr e => mret (preparation_error_outcome m e)
      | inl prepared =>
          r ← process_local_task t prepared Tier4Overflow None;
          mret (match r with
                | inl outcome => outcome
                | inr (PeRenderAdmissionClosed t) => renderer_degraded_reject t
                | inr PeQueueDisconnected => process_error_outcome m PeQueueDisconnected
                | inr (PeQueueFull _) => reject m exhausted
                end)
      end.

Definition forward_with_failover (t : InternalTask Json) (tier : RouteTier) (candidates : list ForwardCandidate)
    : M TaskOutcome :=
  let m := TaskMeta_of t in
  if MAX_FORWARDING_HOPS <=? t_forwarding_hops t then mret (reject m HopLimitExceeded)
  else
    now ← io w_now;
    if forward_budget_too_small now t then mret (reject m DeadlineTooClose)
    else
      tried ← try_candidates t tier candidates None false;
      match tried with
      | inl outcome => mret outcome
      | inr exhausted => overflow_fallback t (exhaustion_reason exhausted)
      end.

Definition process_local_route (t : InternalTask Json) (tier : RouteTier) (worker_hint : option WorkerId)
    (fallback_candidates : list ForwardCandidate) : M TaskOutcome :=
  let m := TaskMeta_of t in
  let has_fallback := negb (Nat.eqb (length fallback_candidates) 0) in
  open ← can_start_render;
  if negb open then
    if negb has_fallback then mret (renderer_degraded_reject t)
    else forward_with_failover t tier fallback_candidates
  else
    prepared ← prepare_local_profile t;
    match prepared with
    | inr e => mret (preparation_error_outcome m e)
    | inl prepared =>
        r ← process_local_task t prepared tier worker_hint;
        match r with
        | inl outcome => mret outcome
        | inr (PeRenderAdmissionClosed task) =>
            if has_fallback then forward_with_failover task tier fallback_candidates
            else mret (renderer_degraded_reject task)
        | inr (PeQueueFull task) =>
            if has_fallback then forward_with_failover task tier fallback_candidates
            else mret (process_error_outcome m (PeQueueFull task))
        | inr PeQueueDisconnected => mret (process_error_outcome m PeQueueDisconnected)
        end
    end.

(** [maybe_insert_render_output_cache], then the leader is dropped. *)
Definition finish_flight (flight : option RenderFlightLeader) (outcome : TaskOutcome) : M unit :=
  match flight with
  | Some leader =>
      _ ← effect (w_insert_from_outcome leader outcome);
      effect (w_drop_leader leader)
  | None => mret tt
  end.
Definition drop_flight (flight : option RenderFlightLeader) : M unit :=
  match flight with Some leader => effect (w_drop_leader leader) | None => mret tt end.

Definition local_dispatch_state : M NodeStateView :=
  open ← can_start_render;
  workers ← io w_snapshot_workers;
  mret {| ns_id := node_id; ns_accepts_new_renders := open; ns_workers := workers |}.

(** The decision of the dispatcher is carried out. *)
Definition route (t : InternalTask Json) (local_renderer_available : bool) (d : Decision) : M TaskOutcome :=
  match d with
  | Local tier worker_hint fallback => process_local_route t tier worker_hint fallback
  | Forward tier candidates => forward_with_failover t tier candidates
  | Reject reason =>
      let reason := if bool_decide (reason = NoCapacity) && negb local_renderer_available
                    then RendererDegraded else reason in
      mret (reject (TaskMeta_of t) reason)
  end.

Definition handle_incoming (t : InternalTask Json) : M TaskOutcome :=
  let m := TaskMeta_of t in
  now ← io w_now;
  if t_deadline t <=? now then mret (reject m DeadlineExceeded)
  else
    acquired ← acquire_render_output_cache t MayForward;
    match acquired with
    | inr outcome => mret outcome
    | inl flight =>
        view ← io (w_get_or_load (t_deadline t));
        match view with
        | None => _ ← drop_flight flight; mret (reject m DeadlineExceeded)
        | Some view =>
            now ← io w_now;
            if t_deadline t <=? now then _ ← drop_flight flight; mret (reject m DeadlineExceeded)
            else
              local_state ← local_dispatch_state;
              d ← io (w_decide t view local_state);
              _ ← record (CallDecide d);
              outcome ← route t (ns_accepts_new_renders local_state) d;
              _ ← finish_flight flight outcome;
              mret outcome
        end
    end.

Definition handle_forwarded (fwd : ForwardRequest Json) : M TaskOutcome :=
  let w := fr_task fwd in
  now ← io w_now;
  let m := {| tm_task_id := wt_id w; tm_request_id := wt_request_id w; tm_arrived_at := now;
              tm_had_source := wire_had_source w |} in
  accepted ← io (w_accepts_revision (wt_style w));
  if negb accepted then mret (reject m UnknownStyle)
  else
    t ← lift (into_internal w now);
    if t_deadline t <=? now then mret (reject m DeadlineExceeded)
    else
      acquired ← acquire_render_output_cache t RequiresLocalRenderer;
      match acquired with
      | inr outcome => mret outcome
      | inl flight =>
          prepared ← prepare_local_profile t;
          match prepared with
          | inr e => _ ← drop_flight flight; mret (preparation_error_outcome m e)
          | inl prepared =>
              r ← process_local_task t prepared (fr_route_tier fwd) (fr_drain_worker fwd);
              let outcome := match r with
                             | inl outcome => outcome
                             | inr (PeRenderAdmissionClosed t) => renderer_degraded_reject t
                             | inr e => process_error_outcome m e
                             end in
              _ ← finish_flight flight outcome;
              mret outcome
          end
      end.

(** ** A program logic for requests

    [spec m P]: from every state [m] returns, and [P] holds of the result and the
    calls it made. *)
Definition spec {A} (m : M A) (P : A -> list Call -> Prop) : Prop :=
  forall s, exists a s' l, m s = (Ok a, s') /\ st_calls s' = st_calls s ++ l /\ P a l.

Lemma spec_ret {A} (a : A) (P : A -> list Call -> Prop) : P a [] -> spec (mret a) P.
Proof. intros HP s. exists a, s, []. by rewrite app_nil_r. Qed.

Lemma spec_bind {A B} (m : M A) (f : A -> M B) (Q : A -> list Call -> Prop) (P : B -> list Call -> Prop) :
  spec m Q -> (forall a l, Q a l -> spec (f a) (fun b l' => P b (l ++ l'))) -> spec (m ≫= f) P.
Proof.
  intros Hm Hf s. destruct (Hm s) as (a & s1 & l & Hr & Hl & HQ).
  destruct (Hf a l HQ s1) as (b & s2 & l' & Hr' & Hl' & HP).
  exists b, s2, (l ++ l'). split_and!; [|by rewrite Hl', Hl, app_assoc|done].
  unfold mbind, SM_bind. by rewrite Hr.
Qed.

Lemma spec_mono {A} (m : M A) (Q P : A -> list Call -> Prop) :
  spec m Q -> (forall a l, Q a l -> P a l) -> spec m P.
Proof. intros Hm HQP s. destruct (Hm s) as (a & s1 & l & Hr & Hl & HQ). exists a, s1, l. auto. Qed.

Lemma spec_io {A} (f : W -> A * W) (P : A -> list Call -> Prop) :
  (forall w, P (f w).1 []) -> spec (io f) P.
Proof.
  intros HP s. specialize (HP (st_world s)). unfold io. destruct (f (st_world s)) as [a w].
  eexists a, _, []. by rewrite app_nil_r.
Qed.

Lemma spec_record c (P : unit -> list Call -> Prop) : P tt [c] -> spec (record c) P.
Proof. intros HP s. by eexists tt, _, [c]. Qed.

Lemma spec_lift {A} (r : Res Empty_set A) (P : A -> list Call -> Prop) :
  (exists a, r = Ok a /\ P a []) -> spec (lift r) P.
Proof. intros (a & -> & HP) s. exists a, s, []. by rewrite app_nil_r. Qed.

(** A call whose result the rest of the request depends on, without a record. *)
Lemma spec_io_bind {A B} (f : W -> A * W) (k : A -> M B) P :
  (forall w, spec (k (f w).1) P) -> spec (io f ≫= k) P.
Proof.
  intros Hk. eapply (spec_bind _ _ (fun a l => l = [] /\ spec (k a) P)).
  - apply spec_io. intros w. split; [done|apply Hk].
  - intros a l [-> Ha]. by eapply spec_mono; [exact Ha|].
Qed.

Lemma spec_effect_bind {B} (f : W -> W) (k : unit -> M B) P : spec (k tt) P -> spec (effect f ≫= k) P.
Proof. intros Hk. apply spec_io_bind. by intros w. Qed.

Lemma spec_record_bind {B} c (k : unit -> M B) P : spec (k tt) (fun b l => P b (c :: l)) -> spec (record c ≫= k) P.
Proof.
  intros Hk. eapply (spec_bind _ _ (fun _ l => l = [c])); [by apply spec_record|].
  intros [] l ->. exact Hk.
Qed.

Lemma spec_admission_bind {B} (k : bool -> M B) P :
  (forall open, spec (k open) (fun b l => P b (CallAdmission open :: l))) -> spec (can_start_render ≫= k) P.
Proof.
  intros Hk. eapply (spec_bind _ _ (fun open l => l = [CallAdmission open])).
  - unfold can_start_render. apply spec_io_bind. intros w. apply spec_record_bind. by apply spec_ret.
  - intros open l ->. apply Hk.
Qed.

(** ** What the surrounding components promise *)

(** The outcome belongs to the task. *)
Definition outcome_of (t : InternalTask Json) (o : TaskOutcome) : Prop :=
  to_task_id o = t_id t /\ to_request_id o = t_request_id t /\ to_arrived_at o = t_arrived_at t /\
  to_had_source o = has_source t.

(** The response belongs to the request, with a timeline that was checked. *)
Definition response_answers (fwd : ForwardRequest Json) (resp : ForwardResponse) : Prop :=
  oh_task_id (fp_outcome resp) = wt_id (fr_task fwd) /\
  oh_request_id (fp_outcome resp) = wt_request_id (fr_task fwd) /\
  oh_had_source (fp_outcome resp) = wire_had_source (fr_task fwd) /\
  match oh_result (fp_outcome resp) with OrCompleted h => header_nonneg h | _ => True end.

(** The clock stays an [Instant], at least the longest wire budget (49 days)
    below its upper end. *)
Class NodeWorldLaws : Prop := {
  now_bounds w : INSTANT_MIN <= (w_now w).1 /\ (w_now w).1 + from_millis u32_max <= INSTANT_MAX;
  process_outcome t p tier hint w o : (w_process t p tier hint w).1 = inl o -> outcome_of t o;
  process_full t p tier hint w t' : (w_process t p tier hint w).1 = inr (PeQueueFull t') -> t' = t;
  process_admission t p tier hint w t' :
    (w_process t p tier hint w).1 = inr (PeRenderAdmissionClosed t') -> t' = t;
  send_response target fwd deadline w resp :
    (w_send target fwd deadline w).1 = Some (inl resp) -> response_answers fwd resp }.

(** ** The discipline of a request *)

(** Work was accepted or may have been: the request must not start it again. *)
Definition terminal (c : Call) : bool :=
  match c with
  | CallProcess _ _ _ (inl _) | CallProcess _ _ _ (inr PeQueueDisconnected) => true
  | CallProcess _ _ _ (inr _) => false
  | CallSend _ _ _ _ None => true
  | CallSend _ _ _ _ (Some (inl resp)) =>
      match rejected_reason (fp_outcome resp) with
      | Some reason => negb (is_retryable_at_forward reason)
      | None => true
      end
  | CallSend _ _ _ _ (Some (inr _)) => false
  | CallDecide _ | CallAdmission _ => false
  end.
Definition open_calls (l : list Call) : Prop := Forall (fun c => terminal c = false) l.

(** What the request is answered after its last call. *)
Definition answered (t : InternalTask Json) (c : Call) (o : TaskOutcome) : Prop :=
  match c with
  | CallProcess _ _ _ (inl o') => o = o'
  | CallProcess _ _ _ (inr _) => to_result o = Failed "worker queue disconnected" OtherFailure
  | CallSend _ _ _ _ (Some (inl resp)) =>
      exists now, response_into_task_outcome (E := Empty_set) resp (t_arrived_at t) now = Ok o
  | CallSend _ _ _ _ _ => to_result o = Rejected DeadlineExceeded
  | _ => False
  end.

Definition is_send (c : Call) : bool := match c with CallSend _ _ _ _ _ => true | _ => false end.
Definition sent_targets (l : list Call) : list NodeId :=
  omap (fun c => match c with CallSend _ _ target _ _ => Some target | _ => None end) l.

(** A send is the task's first hop, with at least 200 ms left when it was
    checked, and carries the task as it is forwarded. *)
Definition call_ok (t : InternalTask Json) (c : Call) : Prop :=
  match c with
  | CallSend checked_at sent_at _ fwd _ =>
      t_forwarding_hops t < MAX_FORWARDING_HOPS /\
      from_millis MIN_FORWARD_BUDGET_MS <= t_deadline t - checked_at /\
      fr_task fwd = to_forward_wire t sent_at hop_latency
  | CallProcess t' _ _ _ => t' = t
  | _ => True
  end.

(** Local work is handed to the pool right after admission was found open. *)
Definition guarded (l : list Call) : Prop :=
  forall l1 t' tier hint r l2, l = l1 ++ CallProcess t' tier hint r :: l2 ->
    exists l0, l1 = l0 ++ [CallAdmission true].

(** Calls after which a request goes on. *)
Record open_prefix (t : InternalTask Json) (l : list Call) : Prop := {
  op_open : open_calls l;
  op_calls : Forall (call_ok t) l;
  op_guarded : guarded l }.

(** The calls of a request that may be sent to [ns] and was answered [o]: they
    concern its task, they go to a prefix of [ns] in order, and either none of
    them was terminal, or the last one is and [o] is its answer. *)
Record request_calls (t : InternalTask Json) (ns : list NodeId) (o : TaskOutcome) (l : list Call) : Prop := {
  rq_outcome : outcome_of t o;
  rq_calls : Forall (call_ok t) l;
  rq_guarded : guarded l;
  rq_targets : sent_targets l `prefix_of` ns;
  rq_last : open_calls l \/ exists l' c, l = l' ++ [c] /\ open_calls l' /\ terminal c = true /\ answered t c o }.

Lemma guarded_app l l' : guarded l -> guarded l' -> guarded (l ++ l').
Proof.
  intros Hl Hl' l1 t' tier hint r l2 He. apply app_eq_inv in He as [(k & Hk1 & Hk2)|(k & Hk1 & Hk2)].
  - destruct k as [|c k]; cbn in Hk2.
    + destruct (Hl' [] t' tier hint r l2) as ([|? ?] & H0); [by rewrite Hk2|done|done].
    + injection Hk2 as <- ->. by eapply Hl.
  - destruct (Hl' k t' tier hint r l2 Hk2) as (l0 & ->). exists (l ++ l0). by rewrite Hk1, app_assoc.
Qed.

Lemma guarded_none l : Forall (fun c => match c with CallProcess _ _ _ _ => False | _ => True end) l -> guarded l.
Proof.
  intros Hl l1 t' tier hint r l2 ->. apply Forall_app in Hl as [_ Hl]. by apply Forall_cons in Hl as [? _].
Qed.

Lemma guarded_process t tier hint r : guarded [CallAdmission true; CallProcess t tier hint r].
Proof.
  intros l1 t' tier' hint' r' l2 He. destruct l1 as [|c [|c' l1]]; [done| |].
  - injection He as <- _. by exists [].
  - destruct l1; [|done]. cbn in He. injection He as _ _ He. by destruct l2.
Qed.

Lemma open_prefix_app t l l' : open_prefix t l -> open_prefix t l' -> open_prefix t (l ++ l').
Proof. intros [H1 H2 H3] [H1' H2' H3']. split; [by apply Forall_app|by apply Forall_app|by apply guarded_app]. Qed.

Lemma open_prefix_one t c :
  terminal c = false -> call_ok t c -> match c with CallProcess _ _ _ _ => False | _ => True end -> open_prefix t [c].
Proof. intros Ht Hc Hp. split; [by constructor|by constructor|]. apply guarded_none. by constructor. Qed.

(** Calls that are not terminal may precede. *)
Lemma request_calls_app t ns o l l' :
  open_prefix t l -> request_calls t ns o l' -> request_calls t (sent_targets l ++ ns) o (l ++ l').
Proof.
  intros [Ho Hc Hg] [H1 H2 H3 H4 H5]. split; [done|by apply Forall_app|by apply guarded_app| |].
  - unfold sent_targets at 1. rewrite omap_app. by apply prefix_app.
  - destruct H5 as [H5|(l1 & c & -> & Hl1 & Ht & Ha)]; [left; by apply Forall_app|right].
    exists (l ++ l1), c. rewrite app_assoc. split_and!; [done|by apply Forall_app|done|done].
Qed.

Lemma request_calls_cons t ns o c l :
  terminal c = false -> call_ok t c -> match c with CallProcess _ _ _ _ => False | _ => True end ->
  request_calls t ns o l -> request_calls t (sent_targets [c] ++ ns) o (c :: l).
Proof. intros Ht Hc Hp Hl. apply (request_calls_app t ns o [c] l); [by apply open_prefix_one|done]. Qed.

Lemma request_calls_admission t ns o open l :
  request_calls t ns o l -> request_calls t ns o (CallAdmission open :: l).
Proof. by apply (request_calls_cons t ns o (CallAdmission open)). Qed.

Lemma request_calls_nil t ns o : outcome_of t o -> request_calls t ns o [].
Proof. intros Ho. split; [done|done|by apply guarded_none|apply prefix_nil|by left; constructor]. Qed.

Lemma request_calls_more t ns ns' o l : request_calls t ns o l -> ns `prefix_of` ns' -> request_calls t ns' o l.
Proof. intros [H1 H2 H3 H4 H5] Hns. split; [done..|by trans ns|done]. Qed.

Lemma request_calls_open t ns o l :
  outcome_of t o -> open_prefix t l -> sent_targets l `prefix_of` ns -> request_calls t ns o l.
Proof. intros Ho [H1 H2 H3] Hp. split; [done..|by left]. Qed.

Lemma outcome_of_meta t r : outcome_of t (TaskMeta_outcome (TaskMeta_of t) r).
Proof. done. Qed.
Hint Resolve outcome_of_meta : core.

Context `{!NodeWorldLaws}.

(** ** Local work *)

Definition process_result_ok (t : InternalTask Json) (r : TaskOutcome + ProcessError) : Prop :=
  match r with
  | inl o => outcome_of t o
  | inr (PeQueueFull t' | PeRenderAdmissionClosed t') => t' = t
  | inr PeQueueDisconnected => True
  end.

Definition local_attempt (t : InternalTask Json) (r : TaskOutcome + ProcessError) (l : list Call) : Prop :=
  process_result_ok t r /\
  (l = [CallAdmission false] /\ r = inr (PeRenderAdmissionClosed t) \/
   exists tier hint, l = [CallAdmission true; CallProcess t tier hint r]).

Lemma process_local_task_spec t p tier hint : spec (process_local_task t p tier hint) (local_attempt t).
Proof.
  apply spec_admission_bind. intros []; cbn [negb].
  - apply spec_io_bind. intros w. apply spec_record_bind.
    assert (Hok : process_result_ok t (w_process t p tier hint w).1).
    { destruct (w_process t p tier hint w).1 as [o|[t'|t'|]] eqn:Hr; cbn; [|exact (process_full _ _ _ _ _ _ Hr)
        |exact (process_admission _ _ _ _ _ _ Hr)|done]. exact (process_outcome _ _ _ _ _ _ Hr). }
    destruct (w_process t p tier hint w).1 as [o|e]; [|apply spec_ret; split; eauto].
    destruct (to_result o) as [| |error []]; try (apply spec_effect_bind); apply spec_ret; split; eauto.
  - apply spec_ret. split; [done|by left].
Qed.

Lemma local_attempt_done t ns o l : local_attempt t (inl o) l -> request_calls t ns o l.
Proof.
  intros [Ho [(_ & [=])|(tier & hint & ->)]]. split; [done| |apply guarded_process|apply prefix_nil|].
  - by repeat constructor.
  - right. eexists [_], _. by split_and!; [|repeat constructor| |].
Qed.

Lemma local_attempt_disconnected t ns l :
  local_attempt t (inr PeQueueDisconnected) l ->
  request_calls t ns (process_error_outcome (TaskMeta_of t) PeQueueDisconnected) l.
Proof.
  intros [_ [(_ & [=])|(tier & hint & ->)]]. split; [apply outcome_of_meta| |apply guarded_process|apply prefix_nil|].
  - by repeat constructor.
  - right. eexists [_], _. by split_and!; [|repeat constructor| |].
Qed.

Lemma local_attempt_open t e l :
  local_attempt t (inr e) l -> e <> PeQueueDisconnected -> open_prefix t l /\ sent_targets l = [].
Proof.
  intros [_ [(-> & _)|(tier & hint & ->)]] He; (split; [|done]).
  - by apply open_prefix_one.
  - split; [|by repeat constructor|apply guarded_process]. by destruct e; repeat constructor.
Qed.
(** ** Forwarding *)

Definition ids (candidates : list ForwardCandidate) : list NodeId := fc_node_id <$> candidates.

Lemma wire_source_kept (t : InternalTask Json) now : wire_had_source (to_forward_wire t now hop_latency) = has_source t.
Proof.
  unfold wire_had_source, has_source. cbn. f_equal. by destruct (t_source t); cbn.
Qed.

(** A response to the task that was sent becomes an outcome of the task. *)
Lemma response_outcome (t : InternalTask Json) (fwd : ForwardRequest Json) resp sent_at now :
  is_instant (t_arrived_at t) -> is_instant now -> response_answers fwd resp ->
  fr_task fwd = to_forward_wire t sent_at hop_latency ->
  exists o, response_into_task_outcome (E := Empty_set) resp (t_arrived_at t) now = Ok o /\ outcome_of t o.
Proof.
  intros Ha Hn (Hid & Hrid & Hsrc & Hc) Hf. rewrite Hf in *. rewrite wire_source_kept in Hsrc. cbn in Hid, Hrid.
  unfold response_into_task_outcome, into_task_outcome.
  destruct (oh_result (fp_outcome resp)) as [h|reason stage|error kind].
  - destruct (completed_info_spec (E := Empty_set) h (t_arrived_at t) now) as (i & Hi & _); [done..|].
    rewrite Hi. res_simpl. eexists. split; [done|]. by split_and!.
  - res_simpl. eexists. split; [done|]. by split_and!.
  - res_simpl. eexists. split; [done|]. by split_and!.
Qed.

Lemma budget_left now (t : InternalTask Json) :
  forward_budget_too_small now t = false -> from_millis MIN_FORWARD_BUDGET_MS <= t_deadline t - now.
Proof.
  unfold forward_budget_too_small, saturating_duration_since, from_millis, MIN_FORWARD_BUDGET_MS. intros Hb.
  bool_props. lia.
Qed.

Lemma now_is_instant w : is_instant (w_now w).1.
Proof. destruct (now_bounds w). unfold is_instant, from_millis, u32_max in *. lia. Qed.

(** The candidates are tried in order until one is terminal. *)
Definition tried (t : InternalTask Json) (ns : list NodeId) (r : TaskOutcome + option RejectionReason * bool)
    (l : list Call) : Prop :=
  match r with
  | inl o => request_calls t ns o l
  | inr _ => open_prefix t l /\ sent_targets l = ns
  end.

Lemma tried_cons t ns r c target l :
  terminal c = false -> call_ok t c -> sent_targets [c] = [target] -> tried t ns r l ->
  tried t (target :: ns) r (c :: l).
Proof.
  intros Ht Hc Hs. assert (Hp : match c with CallProcess _ _ _ _ => False | _ => True end) by by destruct c.
  destruct r as [o|tr]; cbn [tried].
  - intros Hl. pose proof (request_calls_cons t ns o c l Ht Hc Hp Hl) as Hr. by rewrite Hs in Hr.
  - intros [Hl <-]. split; [by apply (open_prefix_app t [c]), Hl; apply open_prefix_one|].
    change (c :: l) with ([c] ++ l). unfold sent_targets in *. by rewrite omap_app, Hs.
Qed.

(** A terminal send ends the request with its answer. *)
Lemma tried_terminal t ns c target o :
  terminal c = true -> call_ok t c -> sent_targets [c] = [target] -> outcome_of t o -> answered t c o ->
  request_calls t (target :: ns) o [c].
Proof.
  intros Ht Hc Hs Ho Ha. split; [done|by repeat constructor| |rewrite Hs; by apply prefix_cons, prefix_nil|].
  - apply guarded_none. constructor; [by destruct c|done].
  - right. exists [], c. by split_and!; [|constructor| |].
Qed.

Lemma try_candidates_spec t tier candidates last failed :
  is_instant (t_arrived_at t) -> t_forwarding_hops t < MAX_FORWARDING_HOPS ->
  spec (try_candidates t tier candidates last failed) (tried t (ids candidates)).
Proof.
  intros Ha Hh. revert last failed. induction candidates as [|c cs IH]; intros last failed; cbn [try_candidates].
  - apply spec_ret. by split; [split; [constructor|constructor|apply guarded_none; constructor]|].
  - apply spec_io_bind. intros w1. destruct (forward_budget_too_small _ t) eqn:Hb.
    { apply spec_ret. by apply request_calls_nil. }
    apply budget_left in Hb. apply spec_io_bind. intros w2. cbn zeta.
    match goal with |- context [w_send _ ?f _] => set (fwd := f) end.
    apply spec_io_bind. intros w3. apply spec_record_bind.
    destruct (w_send (fc_node_id c) fwd (t_deadline t) w3).1 as [[resp|e]|] eqn:Hs.
    + assert (Hdone : terminal (CallSend (w_now w1).1 (w_now w2).1 (fc_node_id c) fwd (Some (inl resp))) = true ->
        spec (now ← io w_now; outcome ← lift (response_into_task_outcome resp (t_arrived_at t) now);
              mret (inl outcome) : M (TaskOutcome + option RejectionReason * bool))
          (fun b l => tried t (ids (c :: cs)) b
             (CallSend (w_now w1).1 (w_now w2).1 (fc_node_id c) fwd (Some (inl resp)) :: l))).
      { intros Ht. apply spec_io_bind. intros w4.
        destruct (response_outcome t fwd resp (w_now w2).1 (w_now w4).1) as (o & Ho & Hoo);
          [done|apply now_is_instant|by eapply send_response|done|].
        rewrite Ho. eapply (spec_bind _ _ (fun a l => a = o /\ l = [])); [apply spec_lift; by exists o|].
        intros a l [-> ->]. apply spec_ret. apply tried_terminal; [done|done|done|done|by eexists]. }
      cbn [terminal] in Hdone. destruct (rejected_reason (fp_outcome resp)) as [reason|] eqn:Hrej; [|by apply Hdone].
      destruct (is_retryable_at_forward reason) eqn:Hret; [|by apply Hdone].
      eapply spec_mono; [apply IH|]. intros r l Hl. apply tried_cons; [cbn; by rewrite Hrej, Hret|done|done|done].
    + eapply spec_mono; [apply IH|]. intros r l Hl. by apply tried_cons.
    + apply spec_ret. by apply tried_terminal.
Qed.

Lemma overflow_fallback_spec t reason : spec (overflow_fallback t reason) (request_calls t []).
Proof.
  apply spec_admission_bind. intros []; cbn [negb];
    [|by apply spec_ret, request_calls_admission, request_calls_nil].
  apply spec_io_bind. intros w. destruct (_ <=? _); [by apply spec_ret, request_calls_admission, request_calls_nil|].
  apply spec_io_bind. intros w'. destruct (w_prepare_profile t w').1 as [p|e];
    [|by apply spec_ret, request_calls_admission, request_calls_nil].
  eapply spec_bind; [apply process_local_task_spec|]. intros r l Hl. apply spec_ret. rewrite app_nil_r.
  apply request_calls_admission. destruct r as [o|[t'|t'|]].
  - by apply local_attempt_done.
  - destruct (local_attempt_open _ _ _ Hl) as [Ho Ht]; [done|]. by apply request_calls_open; [| |rewrite Ht].
  - destruct (local_attempt_open _ _ _ Hl) as [Ho Ht]; [done|]. destruct Hl as [Heq _]. cbn in Heq. subst t'.
    by apply request_calls_open; [| |rewrite Ht].
  - by apply local_attempt_disconnected.
Qed.

Lemma forward_with_failover_spec t tier candidates :
  is_instant (t_arrived_at t) ->
  spec (forward_with_failover t tier candidates) (request_calls t (ids candidates)).
Proof.
  intros Ha. unfold forward_with_failover. destruct (MAX_FORWARDING_HOPS <=? t_forwarding_hops t) eqn:Hh.
  { by apply spec_ret, request_calls_nil. }
  bool_props. apply spec_io_bind. intros w. destruct (forward_budget_too_small _ t).
  { by apply spec_ret, request_calls_nil. }
  eapply spec_bind; [by apply try_candidates_spec|]. intros [o|tr] l Hl; cbn [tried] in Hl.
  - apply spec_ret. by rewrite app_nil_r.
  - destruct Hl as [Hl <-]. eapply spec_mono; [apply overflow_fallback_spec|]. intros o l' Hl'.
    rewrite <- (app_nil_r (sent_targets l)). by apply request_calls_app.
Qed.
(** ** Whole requests *)

Lemma process_local_route_spec t tier hint fallback :
  is_instant (t_arrived_at t) ->
  spec (process_local_route t tier hint fallback) (request_calls t (ids fallback)).
Proof.
  intros Ha. apply spec_admission_bind. intros []; cbn [negb].
  - apply spec_io_bind. intros w. destruct (w_prepare_profile t w).1 as [p|e];
      [|by apply spec_ret, request_calls_admission, request_calls_nil].
    eapply spec_bind; [apply process_local_task_spec|]. intros r l Hl.
    assert (Hgo : forall e, r = inr e -> e <> PeQueueDisconnected -> forall o l',
      request_calls t (ids fallback) o l' -> request_calls t (ids fallback) o (CallAdmission true :: l ++ l')).
    { intros e -> He o l' Hl'. destruct (local_attempt_open _ _ _ Hl He) as [Ho Ht].
      apply request_calls_admission. pose proof (request_calls_app t _ o l l' Ho Hl') as Hr. by rewrite Ht in Hr. }
    assert (Hret : forall e, r = inr e -> e <> PeQueueDisconnected -> forall res,
      spec (mret (TaskMeta_outcome (TaskMeta_of t) res) : M TaskOutcome)
        (fun o l' => request_calls t (ids fallback) o (CallAdmission true :: l ++ l'))).
    { intros e He Hne res. apply spec_ret. eapply Hgo; [done..|]. by apply request_calls_nil. }
    destruct r as [o|[t'|t'|]].
    + apply spec_ret. rewrite app_nil_r. by apply request_calls_admission, local_attempt_done.
    + destruct Hl as [Heq _]. cbn in Heq. subst t'. destruct (negb _); [|by eapply (Hret _ eq_refl)].
      eapply spec_mono; [by apply forward_with_failover_spec|]. intros o l'. by eapply Hgo.
    + destruct Hl as [Heq _]. cbn in Heq. subst t'. destruct (negb _); [|by eapply (Hret _ eq_refl)].
      eapply spec_mono; [by apply forward_with_failover_spec|]. intros o l'. by eapply Hgo.
    + apply spec_ret. rewrite app_nil_r. by apply request_calls_admission, local_attempt_disconnected.
  - destruct (negb _).
    + by apply spec_ret, request_calls_admission, request_calls_nil.
    + eapply spec_mono; [by apply forward_with_failover_spec|]. intros o l'. apply request_calls_admission.
Qed.

(** The cache alone starts no work; a forwarded request asks for admission once. *)
Definition acquired_calls (t : InternalTask Json) (a : CacheMissAdmission)
    (r : option RenderFlightLeader + TaskOutcome) (l : list Call) : Prop :=
  (l = [] \/ a = RequiresLocalRenderer /\ exists open, l = [CallAdmission open]) /\
  match r with inl _ => True | inr o => outcome_of t o end.

Lemma acquire_loop_spec t a lookups : spec (acquire_loop t a lookups) (acquired_calls t a).
Proof.
  induction lookups as [|[|output|leader|follower] lookups IH]; cbn [acquire_loop].
  - apply spec_ret. split; [by left|done].
  - destruct a; cbn [requires_local_renderer]; [apply spec_ret; split; [by left|done]|].
    apply spec_admission_bind. intros []; apply spec_ret; (split; [right; eauto|done]).
  - apply spec_io_bind. intros w. apply spec_ret. split; [by left|done].
  - destruct a; cbn [requires_local_renderer]; [apply spec_ret; split; [by left|done]|].
    apply spec_admission_bind. intros []; cbn [negb]; [|apply spec_effect_bind]; apply spec_ret;
      (split; [right; eauto|done]).
  - exact IH.
Qed.

Lemma acquire_render_output_cache_spec t a : spec (acquire_render_output_cache t a) (acquired_calls t a).
Proof.
  apply spec_io_bind. intros w. destruct (w_lookup_or_join t w).1 as [|output|leader|follower];
    [..|apply spec_io_bind; intros w'; apply acquire_loop_spec].
  all: apply (acquire_loop_spec t a [_]).
Qed.

(** The nodes a decision allows the request to be sent to. *)
Definition decision_targets (d : Decision) : list NodeId :=
  match d with
  | Local _ _ fallback => ids fallback
  | Forward _ candidates => ids candidates
  | Reject _ => []
  end.
Definition decided (l : list Call) : list NodeId :=
  concat (omap (fun c => match c with CallDecide d => Some (decision_targets d) | _ => None end) l).

Lemma route_spec t available d :
  is_instant (t_arrived_at t) -> spec (route t available d) (request_calls t (decision_targets d)).
Proof.
  intros Ha. destruct d as [tier hint fallback|tier candidates|reason]; cbn [route decision_targets].
  - by apply process_local_route_spec.
  - by apply forward_with_failover_spec.
  - by apply spec_ret, request_calls_nil.
Qed.

Lemma finish_flight_bind {B} flight o (k : unit -> M B) P : spec (k tt) P -> spec (finish_flight flight o ≫= k) P.
Proof.
  intros Hk. eapply (spec_bind _ _ (fun _ l => l = [])); [|by intros [] l ->].
  destruct flight as [leader|]; cbn; [apply spec_effect_bind, spec_io; done|by apply spec_ret].
Qed.

Lemma drop_flight_bind {B} flight (k : unit -> M B) P : spec (k tt) P -> spec (drop_flight flight ≫= k) P.
Proof.
  intros Hk. eapply (spec_bind _ _ (fun _ l => l = [])); [|by intros [] l ->].
  destruct flight as [leader|]; cbn; [by apply spec_io|by apply spec_ret].
Qed.

Lemma handle_incoming_spec t :
  is_instant (t_arrived_at t) -> spec (handle_incoming t) (fun o l => request_calls t (decided l) o l).
Proof.
  intros Ha. apply spec_io_bind. intros w. destruct (_ <=? _); [by apply spec_ret, request_calls_nil|].
  eapply spec_bind; [apply acquire_render_output_cache_spec|]. intros r l [[->|[[=] _]] Hr].
  destruct r as [flight|o]; [|by apply spec_ret, request_calls_nil].
  apply spec_io_bind. intros w2. destruct (w_get_or_load (t_deadline t) w2).1 as [view|];
    [|by apply drop_flight_bind, spec_ret, request_calls_nil].
  apply spec_io_bind. intros w3. destruct (_ <=? _); [by apply drop_flight_bind, spec_ret, request_calls_nil|].
  eapply (spec_bind _ _ (fun _ l => exists open, l = [CallAdmission open])).
  { apply spec_admission_bind. intros open. apply spec_io_bind. intros w4. apply spec_ret. eauto. }
  intros state l [open ->]. apply spec_io_bind. intros w4. apply spec_record_bind.
  eapply spec_bind; [by apply route_spec|]. intros o l Hl. apply finish_flight_bind, spec_ret.
  rewrite app_nil_r. cbn [app]. set (d := (w_decide t view state w4).1) in *.
  apply request_calls_admission. apply (request_calls_cons t _ o (CallDecide d)); [done..|].
  eapply request_calls_more; [exact Hl|]. by apply prefix_app_r.
Qed.

Lemma into_internal_instant {E} (w : WireTask Json) now :
  INSTANT_MIN <= now /\ now + from_millis u32_max <= INSTANT_MAX -> 0 <= wt_remaining_budget_ms w <= u32_max ->
  exists t, @into_internal Json E w now = Ok t /\ t_arrived_at t = now /\ t_id t = wt_id w /\
    t_request_id t = wt_request_id w /\ has_source t = wire_had_source w.
Proof.
  intros Hn Hb. unfold into_internal, instant_add, instant_checked_add.
  rewrite (proj2 (Z.leb_le _ _)) by (unfold from_millis in *; lia).
  res_simpl. eexists. split; [done|]. split_and!; [done..|]. unfold has_source, wire_had_source.
  cbn. by destruct (wt_source w).
Qed.

Lemma handle_forwarded_spec fwd :
  0 <= wt_remaining_budget_ms (fr_task fwd) <= u32_max ->
  spec (handle_forwarded fwd)
    (fun o l => exists now t, into_internal (E := Empty_set) (fr_task fwd) now = Ok t /\ request_calls t [] o l).
Proof.
  intros Hb. apply spec_io_bind. intros w. pose proof (now_bounds w) as Hn. set (now := (w_now w).1) in *.
  destruct (into_internal_instant (E := Empty_set) (fr_task fwd) now Hn Hb) as (t & Ht & Hat & Hid & Hrid & Hsrc).
  set (m := Build_TaskMeta _ _ _ _). assert (Hm : m = TaskMeta_of t) by (unfold TaskMeta_of, m; congruence).
  eapply (spec_mono _ (request_calls t [])); [|by intros o l Hl; exists now, t].
  apply spec_io_bind. intros w2. destruct (w_accepts_revision _ w2).1; cbn [negb];
    [|by rewrite Hm; apply spec_ret, request_calls_nil].
  rewrite Ht. eapply (spec_bind _ _ (fun a l => a = t /\ l = [])); [apply spec_lift; by exists t|].
  intros ? ? [-> ->]. rewrite Hm. clear m Hm. destruct (_ <=? _); [by apply spec_ret, request_calls_nil|].
  eapply spec_bind; [apply acquire_render_output_cache_spec|]. intros r l [Hl Hr].
  assert (Hpre : forall o l', request_calls t [] o l' -> request_calls t [] o (l ++ l')).
  { destruct Hl as [->|[_ [open ->]]]; [done|]. intros o l'. apply request_calls_admission. }
  destruct r as [flight|o]; [|by apply spec_ret, Hpre, request_calls_nil].
  apply spec_io_bind. intros w3. destruct (w_prepare_profile t w3).1 as [p|e];
    [|by apply drop_flight_bind, spec_ret, Hpre, request_calls_nil].
  eapply spec_bind; [apply process_local_task_spec|]. intros r l2 Hl2. apply finish_flight_bind, spec_ret, Hpre.
  rewrite app_nil_r. destruct r as [o|[t'|t'|]].
  - by apply local_attempt_done.
  - destruct (local_attempt_open _ _ _ Hl2) as [Ho Hs]; [done|]. by apply request_calls_open; [| |rewrite Hs].
  - destruct (local_attempt_open _ _ _ Hl2) as [Ho Hs]; [done|]. destruct Hl2 as [Heq _]. cbn in Heq. subst t'.
    by apply request_calls_open; [| |rewrite Hs].
  - by apply local_attempt_disconnected.
Qed.
End Node.
Arguments Call : clear implicits.
Arguments St : clear implicits.

(** The HTTP transport promises what the node relies on: a response it accepts
    belongs to the request, with a checked timeline. *)
Section Transport.
Context `{HeaderJson} {Json : Type}.
(** The times of a header are unsigned. *)
Hypothesis header_unsigned : forall bytes h c,
  header_from_slice bytes = Some h -> oh_result h = OrCompleted c -> 0 <= ch_render_started_ms c.

Lemma decoded_timeline body h image c :
  decode_response_bytes body = Ok (h, image) -> oh_result h = OrCompleted c -> header_nonneg c.
Proof.
  unfold decode_response_bytes, decode_response_prefix. intros Hd Hc.
  destruct body as [|b1 [|b2 [|b3 [|b4 rest]]]]; res_inv; try done.
  rewrite Hc in *. split; [by eapply header_unsigned|]. by destruct (timeline_ordered c).
Qed.

Lemma accepted_response_answers (fwd : ForwardRequest Json) r resp :
  accept_response fwd r = Ok resp -> response_answers fwd resp.
Proof.
  unfold accept_response. intros Ha. res_inv. destruct a as [outcome image].
  match type of Ha with match ensure ?b _ with _ => _ end = _ => destruct b eqn:He; [|done] end. bool_props.
  cbn [ensure] in Ha.
  assert (fp_outcome resp = outcome) as Ho.
  { destruct (negb (is_success _)); [by destruct (oh_result outcome); simplify_eq|].
    destruct (completed_format outcome); res_inv; done. }
  unfold response_answers. rewrite Ho. split_and!; [by eapply bool_decide_eq_true_1..|by apply eqb_prop|].
  destruct (oh_result outcome) as [c| |] eqn:Hc; [|done|done]. by eapply decoded_timeline.
Qed.
End Transport.


(** ** Witness *)

(** A cluster in which [a] is full and [b] renders; the state is the clock. *)
Definition demo_reply (target : NodeId) (fwd : ForwardRequest unit) : ForwardResponse :=
  {| fp_outcome := {| oh_task_id := wt_id (fr_task fwd); oh_request_id := wt_request_id (fr_task fwd);
       oh_style_id := sr_id (wt_style (fr_task fwd)); oh_had_source := wire_had_source (fr_task fwd);
       oh_image_format := None;
       oh_result := if bool_decide (target = "a") then OrRejected QueueFull None else OrFailed "died" RendererDead |};
     fp_output := None |}.

Definition demo_worker_outcome (t : InternalTask unit) : TaskOutcome :=
  TaskMeta_outcome (TaskMeta_of t) (Failed "unavailable" StyleUnavailable).

Definition demo_world : NodeWorld (Json := unit) (W := Z) (Profile := unit) := {|
  w_now w := (Z.min (Z.max 0 w) 1000000000000, w + 1000000);
  w_can_start_render w := (true, w); w_accepts_revision _ w := (true, w);
  w_lookup_or_join _ w := (Disabled, w); w_rechecks _ _ w := ([], w);
  w_insert_from_outcome _ _ w := w; w_drop_leader _ w := w;
  w_get_or_load _ w := (Some {| cv_members := []; cv_states := []; cv_generated_at := 0 |}, w);
  w_snapshot_workers w := ([], w);
  w_decide _ _ _ w := (Forward Tier2HrwBl
    [{| fc_node_id := "a"; fc_drain_worker := None |}; {| fc_node_id := "b"; fc_drain_worker := None |};
     {| fc_node_id := "c"; fc_drain_worker := None |}], w);
  w_prepare_profile _ w := (inl None, w); w_preparation_error _ := "";
  w_process t _ _ _ w := (inl (demo_worker_outcome t), w);
  w_mark_style_load_failed _ _ w := w;
  w_send target fwd _ w := (Some (inl (demo_reply target fwd)), w) |}.

Lemma demo_world_laws : @NodeWorldLaws _ _ _ demo_world.
Proof.
  split.
  - intros w. cbn [w_now demo_world fst]. unfold INSTANT_MIN, INSTANT_MAX, from_millis, u32_max, nanos_per_sec. lia.
  - intros t p tier hint w o [= <-]. done.
  - done.
  - done.
  - intros target fwd deadline w resp [= <-]. split_and!; [done..|]. cbn. by destruct (bool_decide _).
Qed.

