(* ===== verification/Worker.v ===== *)
(** * A render worker

    Models [crates/biei-core/src/worker.rs]: the loop of one worker, the stages of
    a task with their deadlines and permits, the warm state and the source cache;
    with the types of the trait in [crates/biei-core/src/renderer/mod.rs].

    The renderer, the clock and the two semaphores are the class [WorkerWorld]; a
    renderer may answer anything. What the worker asks of its renderer is recorded
    as events. A permit that is held is dropped when the stages end. *)

From S2P Require Import Prelude StdModel Types Wire Node.

Record PreparedProfile := {
  pp_revision : StyleRevision; pp_authorization_partition : option (list Z);
  pp_style_json : string; pp_addlayer_source : option AddLayerSource }.
Record RendererOutput := { ro_output : RenderOutput; ro_source_setup_duration : option Z }.

(** [Display for RendererError]. *)
Definition RendererError_to_string (e : RendererError) : string :=
  match e with
  | StyleLoadFailed style_id source => "style load failed for " +:+ style_id +:+ ": " +:+ source
  | SetupFailed style_id source => "renderer setup failed for " +:+ style_id +:+ ": " +:+ source
  | StyleNotReady style_id version => "style not ready for " +:+ style_id +:+ "@" +:+ decimal version
  | SourceFetchFailed hash source => "source fetch failed for " +:+ decimal hash +:+ ": " +:+ source
  | RenderFailed source => "render failed: " +:+ source
  | Timeout => "render timeout"
  | ActorDead => "renderer actor dead"
  end.

(** ** The source cache of a slot *)

Record SourceCache := { sc_capacity : Z; sc_entries : list SourceHash }.

Definition SourceCache_new (capacity : Z) : SourceCache := {| sc_capacity := Z.max capacity 1; sc_entries := [] |}.
Definition cache_contains (c : SourceCache) (h : SourceHash) : bool := existsb (Z.eqb h) (sc_entries c).

(** [VecDeque::remove] at the first position of [h]. *)
Fixpoint remove_first (h : SourceHash) (l : list SourceHash) : list SourceHash :=
  match l with [] => [] | x :: l => if x =? h then l else x :: remove_first h l end.
(** [while entries.len() > capacity]: [pop_front]. *)
Fixpoint pop_excess (capacity : Z) (l : list SourceHash) : list SourceHash :=
  match l with
  | [] => []
  | x :: l' => if capacity <? Z.of_nat (length l) then pop_excess capacity l' else l
  end.
Definition touch (h : SourceHash) (c : SourceCache) : SourceCache :=
  {| sc_capacity := sc_capacity c; sc_entries := pop_excess (sc_capacity c) (remove_first h (sc_entries c) ++ [h]) |}.
Definition cache_clear (c : SourceCache) : SourceCache := {| sc_capacity := sc_capacity c; sc_entries := [] |}.

(** ** Stages *)

Inductive StageFailure :=
  | SfDeadlineExceeded (at_ : DeadlineStage)
  | SfRendererError (at_ : DeadlineStage) (err : RendererError)
  | SfPermitClosed (at_ : DeadlineStage).

Record StageSuccess := {
  ss_output : RenderOutput; ss_started_at : Z; ss_native_render_started_at : Z;
  ss_native_render_completed_at : Z; ss_style_swap : bool; ss_cold_start : bool; ss_source_loaded : bool;
  ss_style_setup_duration : option Z; ss_source_setup_duration : option Z }.

Definition renderer_error_invalidates_warm_state (e : RendererError) : bool :=
  match e with
  | StyleLoadFailed _ _ | SetupFailed _ _ | StyleNotReady _ _ | Timeout | ActorDead => true
  | SourceFetchFailed _ _ | RenderFailed _ => false
  end.

(** The two semaphores of a node, and how waiting for a permit ends. *)
Inductive Permit := RenderPermit | NativeRenderPermit.
Inductive AcquireReply := Acquired | PermitsClosed | DeadlineFired.

Section Worker.
Context {Json W : Type}.

Class WorkerWorld := {
  ww_now : W -> Z * W;
  ww_acquire : Permit -> Z -> W -> AcquireReply * W;
  ww_setup_profile : InternalTask Json -> option PreparedProfile -> W -> (unit + RendererError) * W;
  ww_ensure_source : SourceHash -> W -> (unit + RendererError) * W;
  ww_render : InternalTask Json -> W -> (RendererOutput + RendererError) * W;
  ww_retire_after_current : W -> W;
  ww_repair_if_needed : W -> (bool + RendererError) * W }.

Inductive Event :=
  | EvSetup (task : InternalTask Json) (r : unit + RendererError)
  | EvEnsure (h : SourceHash) (r : unit + RendererError)
  (** A render, with the permits that were held. *)
  | EvRender (task : InternalTask Json) (held : bool * bool) (r : RendererOutput + RendererError)
  | EvRetire
  | EvRepair (r : bool + RendererError)
  | EvAnswer (outcome : TaskOutcome).

Record WSt := {
  ws_world : W;
  ws_current_profile : option (WorkerProfile * option (list Z));
  ws_cache : SourceCache;
  ws_permits : bool * bool;
  ws_events : list Event }.

Definition WM (E A : Type) : Type := SM WSt E A.
Definition gets {E A} (f : WSt -> A) : WM E A := fun s => (Ok (f s), s).
Definition wio {E A} (f : W -> A * W) : WM E A := fun s =>
  let '(a, w) := f (ws_world s) in
  (Ok a, {| ws_world := w; ws_current_profile := ws_current_profile s; ws_cache := ws_cache s;
            ws_permits := ws_permits s; ws_events := ws_events s |}).
Definition event {E} (ev : Event) : WM E unit := modify (fun s =>
  {| ws_world := ws_world s; ws_current_profile := ws_current_profile s; ws_cache := ws_cache s;
     ws_permits := ws_permits s; ws_events := ws_events s ++ [ev] |}).
Definition set_warm {E} (p : option (WorkerProfile * option (list Z))) (f : SourceCache -> SourceCache) : WM E unit :=
  modify (fun s => {| ws_world := ws_world s; ws_current_profile := p; ws_cache := f (ws_cache s);
                      ws_permits := ws_permits s; ws_events := ws_events s |}).
Definition update_cache {E} (f : SourceCache -> SourceCache) : WM E unit :=
  modify (fun s => {| ws_world := ws_world s; ws_current_profile := ws_current_profile s; ws_cache := f (ws_cache s);
                      ws_permits := ws_permits s; ws_events := ws_events s |}).
Definition set_permits {E} (f : bool * bool -> bool * bool) : WM E unit :=
  modify (fun s => {| ws_world := ws_world s; ws_current_profile := ws_current_profile s; ws_cache := ws_cache s;
                      ws_permits := f (ws_permits s); ws_events := ws_events s |}).
Definition throw {E A} (e : E) : WM E A := fun s => (Err e, s).

(** The [Result] of a call, and [map_err] to a failure of the stage. *)
Definition stage_result {A} (at_ : DeadlineStage) (r : A + RendererError) : WM StageFailure A :=
  match r with inl a => mret a | inr err => throw (SfRendererError at_ err) end.
Definition attempt {E F A} (c : WM E A) : WM F (A + E) := fun s =>
  match c s with
  | (Ok a, s) => (Ok (inl a), s)
  | (Err e, s) => (Ok (inr e), s)
  | (Panic, s) => (Panic, s)
  end.

Context `{WorkerWorld} (node_id : NodeId) (worker_id : WorkerId).

Definition task_partition (t : InternalTask Json) : option (list Z) := cache_partition <$> t_authorization t.

Definition check_deadline_at (t : InternalTask Json) (at_ : DeadlineStage) : WM StageFailure unit :=
  now ← wio ww_now;
  if t_deadline t <=? now then throw (SfDeadlineExceeded at_) else mret tt.

Definition hold (p : Permit) (held : bool * bool) : bool * bool :=
  match p with RenderPermit => (true, held.2) | NativeRenderPermit => (held.1, true) end.

Definition acquire_permit (p : Permit) (t : InternalTask Json) (at_ : DeadlineStage) : WM StageFailure unit :=
  _ ← check_deadline_at t at_;
  reply ← wio (ww_acquire p (t_deadline t));
  match reply with
  | Acquired => set_permits (hold p)
  | PermitsClosed => throw (SfPermitClosed at_)
  | DeadlineFired => throw (SfDeadlineExceeded at_)
  end.

(** The style stage, when the profile or the credential changes. *)
Definition style_stage (t : InternalTask Json) (prepared : option PreparedProfile) : WM StageFailure (option Z) :=
  _ ← check_deadline_at t StStyleSwap;
  setup_started_at ← wio ww_now;
  r ← wio (ww_setup_profile t prepared);
  _ ← event (EvSetup t r);
  _ ← stage_result StStyleSwap r;
  now ← wio ww_now;
  _ ← set_warm (Some (worker_profile t, task_partition t)) cache_clear;
  mret (Some (saturating_duration_since now setup_started_at)).

(** The source stage: whether a source was loaded, and how long that took. *)
Definition source_stage (t : InternalTask Json) : WM StageFailure (bool * option Z) :=
  match t_source t with
  | None => mret (false, None)
  | Some src =>
      cache ← gets ws_cache;
      loaded ← (if negb (cache_contains cache (src_hash src)) then
                  source_started_at ← wio ww_now;
                  r ← wio (ww_ensure_source (src_hash src));
                  _ ← event (EvEnsure (src_hash src) r);
                  _ ← stage_result StEnsureSource r;
                  now ← wio ww_now;
                  mret (true, Some (saturating_duration_since now source_started_at))
                else mret (false, None));
      _ ← (if bool_decide (src_policy src = Cacheable) then update_cache (touch (src_hash src)) else mret tt);
      mret loaded
  end.

(** The prepared source replaces the one of the request's layer. *)
Definition install_addlayer_source (source : option AddLayerSource) (t : InternalTask Json) : InternalTask Json :=
  match source, t_request t with
  | Some source, ReqStaticImage positioning width height overlays before_layer padding (Some addlayer) =>
      {| t_id := t_id t; t_request_id := t_request_id t; t_authorization := t_authorization t;
         t_style := t_style t; t_source := t_source t;
         t_request := ReqStaticImage positioning width height overlays before_layer padding
           (Some {| al_json := al_json addlayer; al_hash := al_hash addlayer; al_source := Some source |});
         t_pixel_ratio := t_pixel_ratio t; t_output_format := t_output_format t; t_arrived_at := t_arrived_at t;
         t_deadline := t_deadline t; t_forwarding_hops := t_forwarding_hops t |}
  | _, _ => t
  end.

(** Durations of the source set-up before and during the render. *)
Definition source_setup_total (before during : option Z) : Res StageFailure (option Z) :=
  match before, during with
  | Some before, Some during => total ← duration_add before during; Ok (Some total)
  | Some d, None | None, Some d => Ok (Some d)
  | None, None => Ok None
  end.

(** From the native permit on. *)
Definition render_stage (t : InternalTask Json) (source : option AddLayerSource) (started_at : Z)
    (style_swap cold_start source_loaded : bool) (style_setup_duration source_setup_duration : option Z)
    : WM StageFailure (InternalTask Json * StageSuccess) :=
  _ ← acquire_permit NativeRenderPermit t StAcquireNativeRenderPermit;
  native_render_started_at ← wio ww_now;
  _ ← check_deadline_at t StRender;
  let t := install_addlayer_source source t in
  r ← wio (ww_render t);
  held ← gets ws_permits;
  _ ← event (EvRender t held r);
  rendered ← stage_result StRender r;
  let source_loaded := source_loaded || bool_decide (ro_source_setup_duration rendered <> None) in
  source_setup_duration ← lift (source_setup_total source_setup_duration (ro_source_setup_duration rendered));
  native_render_completed_at ← wio ww_now;
  if t_deadline t <? native_render_completed_at then throw (SfRendererError StRender Timeout)
  else
    mret (t, {| ss_output := ro_output rendered; ss_started_at := started_at;
                ss_native_render_started_at := native_render_started_at;
                ss_native_render_completed_at := native_render_completed_at;
                ss_style_swap := style_swap; ss_cold_start := cold_start; ss_source_loaded := source_loaded;
                ss_style_setup_duration := style_setup_duration;
                ss_source_setup_duration := source_setup_duration |}).

Definition stages (t : InternalTask Json) (prepared : option PreparedProfile)
    : WM StageFailure (InternalTask Json * StageSuccess) :=
  let task_profile := worker_profile t in
  current ← gets ws_current_profile;
  let style_swap := match current with
                    | None => true
                    | Some (profile, partition) =>
                        negb (bool_decide (profile = task_profile)) ||
                        negb (bool_decide (partition = task_partition t))
                    end in
  let cold_start := bool_decide (current = None) && style_swap in
  let prepared_addlayer_source := prepared ≫= pp_addlayer_source in
  _ ← acquire_permit RenderPermit t StAcquireRenderPermit;
  started_at ← wio ww_now;
  style_setup_duration ← (if style_swap then style_stage t prepared else mret None);
  _ ← check_deadline_at t StEnsureSource;
  '(source_loaded, source_setup_duration) ← source_stage t;
  render_stage t prepared_addlayer_source started_at style_swap cold_start source_loaded
    style_setup_duration source_setup_duration.

(** The permits are dropped however the stages end. *)
Definition run_stages (t : InternalTask Json) (prepared : option PreparedProfile)
    : WM Empty_set ((InternalTask Json * StageSuccess) + StageFailure) :=
  r ← attempt (stages t prepared);
  _ ← set_permits (fun _ => (false, false));
  mret r.

(** ** Outcomes *)

Definition outcome_for (t : InternalTask Json) (had_source : bool) (result : TaskResult) : TaskOutcome :=
  {| to_task_id := t_id t; to_request_id := t_request_id t; to_arrived_at := t_arrived_at t;
     to_had_source := had_source; to_deadline_stage := None; to_result := result |}.
Definition completed_outcome (completed_at : Z) (t : InternalTask Json) (had_source : bool) (route_tier : RouteTier)
    (admitted_at_overflow : bool) (s : StageSuccess) : TaskOutcome :=
  outcome_for t had_source
    (Completed {| ci_node_id := node_id; ci_worker_id := Some worker_id; ci_route_tier := route_tier;
                  ci_started_at := ss_started_at s; ci_native_render_started_at := ss_native_render_started_at s;
                  ci_native_render_completed_at := ss_native_render_completed_at s; ci_completed_at := completed_at;
                  ci_style_swap := ss_style_swap s; ci_cold_start := ss_cold_start s;
                  ci_source_loaded := ss_source_loaded s; ci_admitted_at_overflow := admitted_at_overflow;
                  ci_render_observation := Some (RenderObservation_from_task t (ss_style_setup_duration s)
                                                   (ss_source_setup_duration s)) |} (ss_output s)).
Definition failed_outcome (t : InternalTask Json) (had_source : bool) (e : RendererError) : TaskOutcome :=
  outcome_for t had_source (Failed (RendererError_to_string e) (from_renderer_error e)).
Definition rejected_outcome (t : InternalTask Json) (had_source : bool) (reason : RejectionReason) : TaskOutcome :=
  outcome_for t had_source (Rejected reason).
Definition deadline_rejected_outcome (t : InternalTask Json) (had_source : bool) (at_ : DeadlineStage) : TaskOutcome :=
  let o := rejected_outcome t had_source DeadlineExceeded in
  {| to_task_id := to_task_id o; to_request_id := to_request_id o; to_arrived_at := to_arrived_at o;
     to_had_source := to_had_source o; to_deadline_stage := Some at_; to_result := to_result o |}.

(** ** The loop *)

Record ProcessCmd := {
  pc_task : InternalTask Json; pc_prepared_profile : option PreparedProfile;
  pc_route_tier : RouteTier; pc_admitted_at_overflow : bool }.
Inductive WorkerCmd := CmdProcess (c : ProcessCmd) | CmdRetire.

Definition process_outcome_of (c : ProcessCmd) (r : (InternalTask Json * StageSuccess) + StageFailure)
    : WM Empty_set TaskOutcome :=
  let had_source := has_source (pc_task c) in
  match r with
  | inl (t, success) =>
      completed_at ← wio ww_now;
      mret (completed_outcome completed_at t had_source (pc_route_tier c) (pc_admitted_at_overflow c) success)
  | inr (SfDeadlineExceeded at_) => mret (deadline_rejected_outcome (pc_task c) had_source at_)
  | inr (SfRendererError _ err) =>
      _ ← match err with
          | Timeout => _ ← wio (fun w => (tt, ww_retire_after_current w)); event EvRetire
          | _ => mret tt
          end;
      _ ← (if renderer_error_invalidates_warm_state err then set_warm None cache_clear else mret tt);
      mret (failed_outcome (pc_task c) had_source err)
  | inr (SfPermitClosed _) => mret (failed_outcome (pc_task c) had_source ActorDead)
  end.

(** [completion.finish] and the answer; the completion acts on the pool. *)
Definition process_command (c : ProcessCmd) : WM Empty_set unit :=
  r ← run_stages (pc_task c) (pc_prepared_profile c);
  outcome ← process_outcome_of c r;
  event (EvAnswer outcome).

(** What [select!] delivers: a received command, a closed channel, a repair tick. *)
Inductive Input := Received (c : option WorkerCmd) | RepairTick.

Fixpoint worker_loop (inputs : list Input) : WM Empty_set unit :=
  match inputs with
  | [] => mret tt
  | RepairTick :: inputs =>
      r ← wio ww_repair_if_needed;
      _ ← event (EvRepair r);
      worker_loop inputs
  | Received (Some (CmdProcess c)) :: inputs => _ ← process_command c; worker_loop inputs
  | Received (Some CmdRetire) :: _ | Received None :: _ => mret tt
  end.

(** ** The warm state a worker may rely on

    What the events say about the renderer: the profile and credential of the last
    successful set-up and the sources loaded since, forgotten when an error says
    that the renderer lost them. *)
Definition Warm : Type := option (WorkerProfile * option (list Z) * list SourceHash).

Definition after_error (e : RendererError) (g : Warm) : Warm :=
  if renderer_error_invalidates_warm_state e then None else g.
Definition warm_step (g : Warm) (ev : Event) : Warm :=
  match ev with
  | EvSetup t (inl _) => Some (worker_profile t, task_partition t, [])
  | EvEnsure h (inl _) => (fun '(p, q, hs) => (p, q, h :: hs)) <$> g
  | EvSetup _ (inr e) | EvEnsure _ (inr e) | EvRender _ _ (inr e) => after_error e g
  | EvRetire => None
  | EvRender _ _ (inl _) | EvRepair _ | EvAnswer _ => g
  end.
Definition warm_state (evs : list Event) : Warm := foldl warm_step None evs.

(** A render runs under both permits, on a renderer that was set up for the
    profile and the credential of the task, with the task's source loaded. *)
Definition render_ok (g : Warm) (ev : Event) : Prop :=
  match ev with
  | EvRender t held _ =>
      held = (true, true) /\
      exists hs, g = Some (worker_profile t, task_partition t, hs) /\
        match t_source t with Some src => src_hash src ∈ hs | None => True end
  | _ => True
  end.
Definition renders_ok (evs : list Event) : Prop :=
  forall l1 ev l2, evs = l1 ++ ev :: l2 -> render_ok (warm_state l1) ev.

Definition answers (evs : list Event) : list TaskOutcome :=
  omap (fun ev => match ev with EvAnswer o => Some o | _ => None end) evs.

(** A completed answer is the image of the render right before it, of the same task. *)
Definition answer_backed (evs : list Event) (ev : Event) : Prop :=
  match ev with
  | EvAnswer o =>
      match to_result o with
      | Completed _ output =>
          exists l t r, evs = l ++ [EvRender t (true, true) (inl r)] /\ output = ro_output r /\
            to_task_id o = t_id t /\ to_request_id o = t_request_id t
      | _ => True
      end
  | _ => True
  end.
Definition answers_backed (evs : list Event) : Prop :=
  forall l1 ev l2, evs = l1 ++ ev :: l2 -> answer_backed l1 ev.

Lemma warm_snoc evs ev : warm_state (evs ++ [ev]) = warm_step (warm_state evs) ev.
Proof. unfold warm_state. by rewrite foldl_app. Qed.

(** A property of every event and what precedes it. *)
Lemma every_snoc {A} (P : list A -> A -> Prop) evs ev :
  (forall l1 x l2, evs = l1 ++ x :: l2 -> P l1 x) -> P evs ev ->
  forall l1 x l2, evs ++ [ev] = l1 ++ x :: l2 -> P l1 x.
Proof.
  intros Hr He l1 ev' l2 Heq. destruct l2 as [|x l2 _] using rev_ind.
  - by apply app_inj_tail in Heq as [-> ->].
  - rewrite app_comm_cons, app_assoc in Heq. apply app_inj_tail in Heq as [-> _]. by eapply Hr.
Qed.

Lemma renders_snoc evs ev : renders_ok evs -> render_ok (warm_state evs) ev -> renders_ok (evs ++ [ev]).
Proof. exact (every_snoc (fun l1 ev => render_ok (warm_state l1) ev) evs ev). Qed.
Lemma backed_snoc evs ev : answers_backed evs -> answer_backed evs ev -> answers_backed (evs ++ [ev]).
Proof. exact (every_snoc answer_backed evs ev). Qed.

Lemma answers_snoc evs ev : (forall o, ev <> EvAnswer o) -> answers (evs ++ [ev]) = answers evs.
Proof. intros Hne. unfold answers. rewrite omap_app. destruct ev; try by rewrite app_nil_r. by destruct (Hne outcome). Qed.

(** The tracked state is what the renderer was asked for. *)
Definition coherent (p : option (WorkerProfile * option (list Z))) (entries : list SourceHash) (g : Warm) : Prop :=
  match p, g with
  | None, None => entries = []
  | Some (p, q), Some (p', q', hs) => p = p' /\ q = q' /\ entries ⊆ hs
  | _, _ => False
  end.

Record worker_wf (s : WSt) : Prop := {
  wf_renders : renders_ok (ws_events s);
  wf_backed : answers_backed (ws_events s);
  wf_cache : Z.of_nat (length (sc_entries (ws_cache s))) <= sc_capacity (ws_cache s) /\ 1 <= sc_capacity (ws_cache s) }.
Record worker_inv (s : WSt) : Prop := {
  wi_wf : worker_wf s;
  wi_coherent : coherent (ws_current_profile s) (sc_entries (ws_cache s)) (warm_state (ws_events s)) }.

(** ** A weakest precondition for the worker *)
Definition wp {E A} (c : WM E A) (Q : A -> WSt -> Prop) (X : E -> WSt -> Prop) (s : WSt) : Prop :=
  match c s with (Ok a, s') => Q a s' | (Err e, s') => X e s' | (Panic, _) => False end.

Lemma wp_bind {E A B} (c : WM E A) (f : A -> WM E B) Q X s :
  wp c (fun a => wp (f a) Q X) X s -> wp (c ≫= f) Q X s.
Proof. unfold wp, mbind, SM_bind. by destruct (c s) as [[a|e|] s']. Qed.

Lemma wp_mono {E A} (c : WM E A) (Q Q' : A -> WSt -> Prop) (X X' : E -> WSt -> Prop) s :
  wp c Q X s -> (forall a s', Q a s' -> Q' a s') -> (forall e s', X e s' -> X' e s') -> wp c Q' X' s.
Proof. unfold wp. destruct (c s) as [[a|e|] s']; auto. Qed.

Definition with_world (w : W) (s : WSt) : WSt :=
  {| ws_world := w; ws_current_profile := ws_current_profile s; ws_cache := ws_cache s;
     ws_permits := ws_permits s; ws_events := ws_events s |}.
Definition with_event (ev : Event) (s : WSt) : WSt :=
  {| ws_world := ws_world s; ws_current_profile := ws_current_profile s; ws_cache := ws_cache s;
     ws_permits := ws_permits s; ws_events := ws_events s ++ [ev] |}.

Lemma wp_wio {E A} (f : W -> A * W) Q (X : E -> WSt -> Prop) s :
  Q (f (ws_world s)).1 (with_world (f (ws_world s)).2 s) -> wp (wio f) Q X s.
Proof. unfold wp, wio. by destruct (f (ws_world s)). Qed.

(** ** What the surroundings promise: clocks and timeouts never run backwards *)
Context (clock : W -> Z).
Class WorkerWorldLaws : Prop := {
  ww_clock w : (ww_now w).1 = clock (ww_now w).2 /\ clock w <= clock (ww_now w).2 /\
    0 <= clock (ww_now w).2 <= INSTANT_MAX;
  ww_acquire_clock p deadline w : clock w <= clock (ww_acquire p deadline w).2;
  ww_setup_clock t prepared w : clock w <= clock (ww_setup_profile t prepared w).2;
  ww_ensure_clock h w : clock w <= clock (ww_ensure_source h w).2;
  ww_render_clock t w : clock w <= clock (ww_render t w).2;
  ww_render_duration t w o d :
    (ww_render t w).1 = inl o -> ro_source_setup_duration o = Some d -> 0 <= d <= INSTANT_MAX }.
Context `{!WorkerWorldLaws}.

(** A state later in the same command. *)
Record later (s s' : WSt) : Prop := {
  lt_clock : clock (ws_world s) <= clock (ws_world s');
  lt_answers : answers (ws_events s') = answers (ws_events s) }.
#[local] Instance later_preorder : PreOrder later.
Proof.
  split; [by intros s; split|]. intros s1 s2 s3 [H1 H2] [H3 H4]. split; [lia|congruence].
Qed.

(** How the stages leave the worker when they fail: coherent, or about to be cleared. *)
Definition stage_failed (s : WSt) (f : StageFailure) (s' : WSt) : Prop :=
  later s s' /\ worker_wf s' /\
  match f with
  | SfRendererError _ e =>
      if renderer_error_invalidates_warm_state e then e = Timeout \/ warm_state (ws_events s') = None
      else worker_inv s'
  | _ => worker_inv s'
  end.

Lemma stage_failed_later s1 s2 f s3 : later s1 s2 -> stage_failed s2 f s3 -> stage_failed s1 f s3.
Proof. intros H1 (H2 & H3). split; [by trans s2|done]. Qed.

#[local] Tactic Notation "wcbn" := cbn [ws_world ws_current_profile ws_cache ws_permits ws_events with_world with_event
  cache_clear sc_entries sc_capacity fst snd].
#[local] Tactic Notation "wcbn" "in" hyp(H) := cbn [ws_world ws_current_profile ws_cache ws_permits ws_events with_world
  with_event cache_clear sc_entries sc_capacity fst snd] in H.

(** A call that moves only the world. *)
Lemma world_inv s w : worker_inv s -> worker_inv (with_world w s).
Proof. intros [[H1 H2 H3] H4]. by split; [split|]. Qed.
Lemma world_later s w : clock (ws_world s) <= clock w -> later s (with_world w s).
Proof. intros Hc. by split. Qed.

Lemma wp_now {E} Q (X : E -> WSt -> Prop) s :
  (forall w, clock (ws_world s) <= clock w -> 0 <= clock w <= INSTANT_MAX -> Q (clock w) (with_world w s)) ->
  wp (wio ww_now) Q X s.
Proof. intros HQ. apply wp_wio. destruct (ww_clock (ws_world s)) as (H1 & H2 & H3). rewrite H1. by apply HQ. Qed.

Lemma wp_check_deadline t at_ Q s :
  worker_inv s ->
  (forall w, clock (ws_world s) <= clock w -> clock w < t_deadline t -> Q tt (with_world w s)) ->
  wp (check_deadline_at t at_) Q (stage_failed s) s.
Proof.
  intros Hs HQ. apply wp_bind, wp_now. intros w Hc Hb.
  destruct (t_deadline t <=? clock w) eqn:Hd; bool_props; unfold wp; cbn.
  - split_and!; [by apply world_later|by apply wi_wf, world_inv|by apply world_inv].
  - by apply HQ.
Qed.

Definition with_permit (p : Permit) (s : WSt) : WSt :=
  {| ws_world := ws_world s; ws_current_profile := ws_current_profile s; ws_cache := ws_cache s;
     ws_permits := hold p (ws_permits s); ws_events := ws_events s |}.

Lemma wp_acquire p t at_ Q s :
  worker_inv s ->
  (forall w, clock (ws_world s) <= clock w -> Q tt (with_permit p (with_world w s))) ->
  wp (acquire_permit p t at_) Q (stage_failed s) s.
Proof.
  intros Hs HQ. apply wp_bind, wp_check_deadline; [done|]. intros w Hc Hd. apply wp_bind, wp_wio. cbn [with_world ws_world].
  pose proof (ww_acquire_clock p (t_deadline t) w) as Ha.
  destruct (ww_acquire p (t_deadline t) w) as [reply w']. cbn [fst snd] in *.
  assert (stage_failed s (SfPermitClosed at_) (with_world w' s) /\ stage_failed s (SfDeadlineExceeded at_) (with_world w' s))
    as [Hf1 Hf2].
  { by split; (split_and!; [apply world_later; lia|by apply wi_wf, world_inv|by apply world_inv]). }
  destruct reply; unfold wp; cbn; [apply HQ; lia|done|done].
Qed.

Lemma event_wf ev s :
  worker_wf s -> render_ok (warm_state (ws_events s)) ev -> answer_backed (ws_events s) ev ->
  worker_wf (with_event ev s).
Proof. intros [H1 H2 H3] He Hb. split; [by apply renders_snoc|by apply backed_snoc|done]. Qed.

Lemma event_later ev s : (forall o, ev <> EvAnswer o) -> later s (with_event ev s).
Proof. intros Hne. split; [done|]. by apply answers_snoc. Qed.

(** A call of the renderer failed. *)
Lemma event_failed s ev at_ e :
  worker_inv s -> render_ok (warm_state (ws_events s)) ev -> (forall o, ev <> EvAnswer o) ->
  warm_step (warm_state (ws_events s)) ev = after_error e (warm_state (ws_events s)) ->
  stage_failed s (SfRendererError at_ e) (with_event ev s).
Proof.
  intros Hs Hr Hne Hw. assert (Hb : answer_backed (ws_events s) ev) by by destruct ev; [..|destruct (Hne outcome)].
  split; [by apply event_later|]. split; [by apply event_wf; [apply wi_wf|..]|].
  unfold after_error in Hw. cbn [with_event ws_events]. rewrite warm_snoc.
  destruct (renderer_error_invalidates_warm_state e); [by right|].
  destruct Hs as [Hwf Hc]. split; [by apply event_wf|]. cbn. by rewrite warm_snoc, Hw.
Qed.

Lemma style_stage_spec t prepared s :
  worker_inv s ->
  wp (style_stage t prepared)
    (fun _ s' => worker_inv s' /\ later s s' /\ ws_permits s' = ws_permits s /\
       ws_current_profile s' = Some (worker_profile t, task_partition t))
    (stage_failed s) s.
Proof.
  intros Hs. apply wp_bind, wp_check_deadline; [done|]. intros w1 Hc1 Hd.
  apply wp_bind, wp_now. intros w2 Hc2 Hb2. apply wp_bind, wp_wio. cbn [with_world ws_world].
  pose proof (ww_setup_clock t prepared w2) as Hc3.
  destruct (ww_setup_profile t prepared w2) as [r w3]. cbn [fst snd] in *.
  set (s3 := with_world w3 s). assert (Hs3 : worker_inv s3) by by apply world_inv.
  assert (Hl3 : later s s3) by (apply world_later; cbn in *; lia).
  apply wp_bind. change (wp (event (EvSetup t r)) ?Q ?X ?s) with (Q tt (with_event (EvSetup t r) s3)). apply wp_bind.
  destruct r as [[]|e]; unfold stage_result.
  - change (wp (mret ?a) ?Q ?X ?s) with (Q a s). apply wp_bind, wp_now. intros w4 Hc4 Hb4. 
    subst s3. destruct Hs3 as [[H1 H2 H3] H4]. split_and!; [split; [split|]|split|done|done]; wcbn.
    + by apply renders_snoc.
    + by apply backed_snoc.
    + cbn. wcbn in H3. lia.
    + rewrite warm_snoc. by cbn.
    + wcbn in Hc4. pose proof (lt_clock _ _ Hl3) as Hlt. wcbn in Hlt. lia.
    + by apply answers_snoc.
  - change (wp (throw ?e) ?Q ?X ?s) with (X e s). eapply stage_failed_later; [exact Hl3|].
    by apply event_failed.
Qed.

Lemma pop_excess_sub capacity l : pop_excess capacity l ⊆ l.
Proof.
  induction l as [|x l IH]; [done|]. cbn [pop_excess]. destruct (_ <? _); [|done].
  intros y Hy%IH. by right.
Qed.
Lemma pop_excess_length capacity l : 0 <= capacity -> Z.of_nat (length (pop_excess capacity l)) <= capacity.
Proof.
  intros Hc. induction l as [|x l IH]; [done|]. cbn [pop_excess].
  destruct (capacity <? Z.of_nat (length (x :: l))) eqn:Hl; [done|]. bool_props. lia.
Qed.
Lemma remove_first_sub h l : remove_first h l ⊆ l.
Proof.
  induction l as [|x l IH]; [done|]. cbn [remove_first]. destruct (x =? h).
  - intros y Hy. by right.
  - intros y [->|Hy]%elem_of_cons; [by left|right; by apply IH].
Qed.

Lemma touch_sub h c hs : sc_entries c ⊆ hs -> h ∈ hs -> sc_entries (touch h c) ⊆ hs.
Proof.
  intros Hc Hh y Hy%pop_excess_sub. apply elem_of_app in Hy as [Hy%remove_first_sub|Hy].
  - by apply Hc.
  - apply list_elem_of_singleton in Hy. by subst.
Qed.

Lemma cache_contains_spec c h : cache_contains c h = true -> h ∈ sc_entries c.
Proof.
  unfold cache_contains. rewrite existsb_exists. intros (x & Hx & He). bool_props. subst.
  by apply list_elem_of_In.
Qed.

Definition loaded_source (t : InternalTask Json) (evs : list Event) : Prop :=
  match t_source t with
  | Some src => exists p q hs, warm_state evs = Some (p, q, hs) /\ src_hash src ∈ hs
  | None => True
  end.

Definition with_cache (f : SourceCache -> SourceCache) (s : WSt) : WSt :=
  {| ws_world := ws_world s; ws_current_profile := ws_current_profile s; ws_cache := f (ws_cache s);
     ws_permits := ws_permits s; ws_events := ws_events s |}.

Lemma touch_inv h s p q hs :
  worker_inv s -> warm_state (ws_events s) = Some (p, q, hs) -> h ∈ hs -> worker_inv (with_cache (touch h) s).
Proof.
  intros [[H1 H2 H3] H4] Hw Hh. rewrite Hw in H4. destruct (ws_current_profile s) as [[p' q']|] eqn:Hp; [|done].
  destruct H4 as (-> & -> & Hsub). split; [split|]; cbn [with_cache ws_events ws_cache ws_current_profile]; [done|done| |].
  - cbn. split; [apply pop_excess_length; lia|lia].
  - rewrite Hp, Hw. cbn [coherent]. split_and!; [done|done|by apply touch_sub].
Qed.

Lemma source_stage_spec t s :
  worker_inv s -> ws_current_profile s <> None ->
  wp (source_stage t)
    (fun '(_, d) s' => worker_inv s' /\ later s s' /\ ws_permits s' = ws_permits s /\
       ws_current_profile s' = ws_current_profile s /\ loaded_source t (ws_events s') /\
       forall x, d = Some x -> 0 <= x <= INSTANT_MAX)
    (stage_failed s) s.
Proof.
  intros Hs Hp. unfold source_stage, loaded_source. destruct (t_source t) as [src|]; [|by unfold wp].
  apply wp_bind. change (wp (gets ws_cache) ?Q ?X s) with (Q (ws_cache s) s). cbv beta.
  set (h := src_hash src). apply wp_bind.
  set (K := fun (ld : bool * option Z) s' => worker_inv s' /\ later s s' /\ ws_permits s' = ws_permits s /\
    ws_current_profile s' = ws_current_profile s /\
    (exists p q hs, warm_state (ws_events s') = Some (p, q, hs) /\ h ∈ hs) /\
    forall x, ld.2 = Some x -> 0 <= x <= INSTANT_MAX).
  apply (wp_mono _ K _ (stage_failed s)); [|intros [loaded d] s' (H1 & H2 & H3 & H4 & (p & q & hs & Hw & Hh) & H6)|done].
  2: { apply wp_bind. destruct (bool_decide _); [|by unfold wp; cbn; split_and!; eauto 10].
       unfold wp. cbn.
       split_and!; [by eapply touch_inv|by destruct H2|done|done|by eauto|done]. }
  destruct (cache_contains (ws_cache s) h) eqn:Hc; cbn [negb].
  - unfold wp. cbn. split_and!; try done. apply cache_contains_spec in Hc. destruct Hs as [_ Hco].
    destruct (ws_current_profile s) as [[p q]|]; [|done]. destruct (warm_state (ws_events s)) as [[[p' q'] hs]|]; [|done].
    destruct Hco as (_ & _ & Hsub). exists p', q', hs. split; [done|by apply Hsub].
  - apply wp_bind, wp_now. intros w1 Hc1 Hb1. apply wp_bind, wp_wio. wcbn.
    pose proof (ww_ensure_clock h w1) as Hc2. destruct (ww_ensure_source h w1) as [r w2]. wcbn in Hc2. wcbn.
    set (s2 := with_world w2 s). assert (Hs2 : worker_inv s2) by by apply world_inv.
    assert (Hl2 : later s s2) by (apply world_later; lia).
    apply wp_bind. change (wp (event (EvEnsure h r)) ?Q ?X ?s) with (Q tt (with_event (EvEnsure h r) s2)). apply wp_bind.
    destruct r as [[]|e]; unfold stage_result.
    + change (wp (mret ?a) ?Q ?X ?s) with (Q a s). apply wp_bind, wp_now. intros w3 Hc3 Hb3.
      assert (exists p q hs, warm_state (ws_events s ++ [EvEnsure h (inl ())]) = Some (p, q, h :: hs) /\
        ws_current_profile s = Some (p, q) /\ sc_entries (ws_cache s) ⊆ h :: hs) as (p & q & hs & Hw & Hpq & Hsub).
      { destruct Hs as [_ Hco]. destruct (ws_current_profile s) as [[p q]|]; [|done].
        destruct (warm_state (ws_events s)) as [[[p' q'] hs]|] eqn:Hw; [|done]. destruct Hco as (<- & <- & Hsub).
        exists p, q, hs. rewrite warm_snoc, Hw. split_and!; [done|done|]. intros y Hy. right. by apply Hsub. }
      subst s2. unfold wp, K. cbn [mret SM_ret]. split_and!; [|split| | | |]; wcbn.
      * destruct Hs as [[H1 H2 H3] _]. split; [split|]; wcbn; [by apply renders_snoc|by apply backed_snoc|done|].
        rewrite Hw, Hpq. cbn. done.
      * wcbn in Hc3. lia.
      * by apply answers_snoc.
      * done.
      * done.
      * exists p, q, (h :: hs). split; [done|by left].
      * unfold saturating_duration_since. intros x [= <-]. lia.
    + change (wp (throw ?e) ?Q ?X ?s) with (X e s). eapply stage_failed_later; [exact Hl2|]. by apply event_failed.
Qed.

(** ** A command *)

Lemma install_same source t :
  let t' := install_addlayer_source source t in
  worker_profile t' = worker_profile t /\ task_partition t' = task_partition t /\ t_source t' = t_source t /\
  t_deadline t' = t_deadline t /\ t_id t' = t_id t /\ t_request_id t' = t_request_id t /\ t_arrived_at t' = t_arrived_at t.
Proof.
  unfold install_addlayer_source, worker_profile. destruct source; [|done].
  destruct (t_request t) as [| ? ? ? ? ? ? [addlayer|]] eqn:Hr; [by cbn; rewrite ?Hr|by cbn|by cbn; rewrite ?Hr].
Qed.

(** The task was rendered in time, under its profile, and the image is the renderer's. *)
Record stages_done (t : InternalTask Json) (s : WSt) (r : InternalTask Json * StageSuccess) (s' : WSt) : Prop := {
  sd_inv : worker_inv s';
  sd_later : later s s';
  sd_task : exists source, r.1 = install_addlayer_source source t;
  sd_render : exists l o, ws_events s' = l ++ [EvRender r.1 (true, true) (inl o)] /\ ss_output r.2 = ro_output o;
  sd_times : clock (ws_world s) <= ss_started_at r.2 <= ss_native_render_started_at r.2 /\
    ss_native_render_started_at r.2 <= ss_native_render_completed_at r.2 <= clock (ws_world s') /\
    ss_native_render_started_at r.2 < t_deadline t /\ ss_native_render_completed_at r.2 <= t_deadline t }.

Lemma wp_fail_later {E A} (c : WM E A) Q X (X' : E -> WSt -> Prop) s :
  wp c Q X s -> (forall e s', X e s' -> X' e s') -> wp c Q X' s.
Proof. intros Hc HX. by eapply wp_mono. Qed.

Lemma source_setup_total_ok before during :
  (forall x, before = Some x -> 0 <= x <= INSTANT_MAX) -> (forall x, during = Some x -> 0 <= x <= INSTANT_MAX) ->
  exists d, source_setup_total before during = Ok d.
Proof.
  intros Hb Hd. destruct before as [b|], during as [d|]; cbn; eauto. unfold duration_add.
  specialize (Hb b eq_refl). specialize (Hd d eq_refl). rewrite (proj2 (Z.leb_le _ _)).
  - by eexists.
  - unfold INSTANT_MAX, DURATION_MAX, u64_max in *. lia.
Qed.

Lemma render_stage_spec t source started_at swap cold loaded style_d source_d s :
  worker_inv s -> ws_current_profile s = Some (worker_profile t, task_partition t) ->
  loaded_source t (ws_events s) -> (ws_permits s).1 = true -> started_at <= clock (ws_world s) ->
  (forall x, source_d = Some x -> 0 <= x <= INSTANT_MAX) ->
  wp (render_stage t source started_at swap cold loaded style_d source_d)
    (fun r s' => forall s0, later s0 s -> clock (ws_world s0) <= started_at -> stages_done t s0 r s')
    (stage_failed s) s.
Proof.
  intros Hs Hp Hsrc Hheld Hst Hd. apply wp_bind, wp_acquire; [done|]. intros w1 Hc1.
  apply wp_bind, wp_now. intros w2 Hc2 Hb2. wcbn in Hc2. apply wp_bind.
  set (s2 := with_world w2 (with_permit NativeRenderPermit (with_world w1 s))).
  assert (Hl2 : later s s2) by (split; [subst s2; cbn in Hc2 |- *; lia|done]).
  assert (Hs2 : worker_inv s2) by (apply world_inv; destruct Hs as [[? ? ?] ?]; by split; [split|]).
  eapply wp_fail_later; [apply wp_check_deadline; [done|]|by intros e s'; apply stage_failed_later].
  intros w3 Hc3 Hdl. apply wp_bind, wp_wio. wcbn. change (clock w2 <= clock w3) in Hc3.
  destruct (install_same source t) as (Ipr & Ipa & Iso & Ide & Iid & Irid & Iat).
  set (t' := install_addlayer_source source t) in *.
  pose proof (ww_render_clock t' w3) as Hc4. pose proof (ww_render_duration t' w3) as Hdur.
  destruct (ww_render t' w3) as [r w4]. wcbn in Hc4. wcbn in Hdur. wcbn.
  set (s4 := with_world w4 s2). assert (Hs4 : worker_inv s4) by by apply world_inv.
  assert (Hl4 : later s s4) by (trans s2; [done|apply world_later; change (clock w2 <= clock w4); lia]).
  apply wp_bind. change (wp (gets ws_permits) ?Q ?X ?s) with (Q (ws_permits s4) s4). cbv beta.
  assert (Hpm : ws_permits s4 = (true, true)) by (subst s4 s2; cbn; by rewrite Hheld).
  rewrite Hpm. apply wp_bind.
  change (wp (event ?ev) ?Q ?X ?s) with (Q tt (with_event ev s4)). apply wp_bind.
  assert (Hev : render_ok (warm_state (ws_events s4)) (EvRender t' (true, true) r)).
  { cbn [render_ok]. split; [done|]. destruct Hs as [_ Hco]. subst s4 s2. rewrite Hp in Hco.
    unfold loaded_source in Hsrc. rewrite Ipr, Ipa, Iso. cbn [ws_events with_world with_permit].
    destruct (warm_state (ws_events s)) as [[[p q] hs]|] eqn:Hw; [|done]. destruct Hco as (<- & <- & _).
    exists hs. split; [done|]. destruct (t_source t) as [src|]; [|done].
    by destruct Hsrc as (p' & q' & hs' & [= <- <- <-] & Hh). }
  destruct r as [o|e]; unfold stage_result.
  - change (wp (mret ?a) ?Q ?X ?s) with (Q a s). apply wp_bind.
    destruct (source_setup_total_ok source_d (ro_source_setup_duration o)) as [d Hsd]; [done|by intros x; apply Hdur|].
    rewrite Hsd. change (wp (lift (Ok ?a)) ?Q ?X ?s) with (Q a s). cbv beta.
    apply wp_bind, wp_now. intros w5 Hc5 Hb5. rewrite Ide. change (clock w4 <= clock w5) in Hc5.
    set (s5 := with_world w5 (with_event (EvRender t' (true, true) (inl o)) s4)).
    assert (Hl5 : later s s5).
    { trans s4; [done|]. split; [done|]. subst s5. wcbn. by apply answers_snoc. }
    assert (Hs5 : worker_inv s5).
    { apply world_inv. destruct Hs4 as [Hwf Hco]. split; [by apply event_wf|]. wcbn. by rewrite warm_snoc. }
    destruct (t_deadline t <? clock w5) eqn:Hlate; bool_props.
    + change (wp (throw ?e) ?Q ?X ?s) with (X e s). split_and!; [done|by apply wi_wf|by left].
    + change (wp (mret ?a) ?Q ?X ?s) with (Q a s). intros s0 Hl0 Hc0. split.
      * done.
      * by trans s.
      * by exists source.
      * eexists _, o. split; [|done]. reflexivity.
      * cbn [fst snd ss_started_at ss_native_render_started_at ss_native_render_completed_at].
        change (ws_world s5) with w5. cbn in Hc2. lia.
  - change (wp (throw ?e) ?Q ?X ?s) with (X e s). eapply stage_failed_later; [exact Hl4|].
    apply event_failed; [done|done|done|]. by cbn.
Qed.

Lemma stages_spec t prepared s : worker_inv s -> ws_permits s = (false, false) ->
  wp (stages t prepared) (stages_done t s) (stage_failed s) s.
Proof.
  intros Hs Hpm. apply wp_bind. change (wp (gets ?f) ?Q ?X ?s) with (Q (f s) s). cbv beta zeta.
  set (swap := match ws_current_profile s with None => true | _ => _ end).
  apply wp_bind, wp_acquire; [done|]. intros w1 Hc1. apply wp_bind, wp_now. intros w2 Hc2 Hb2. apply wp_bind.
  set (s2 := with_world w2 (with_permit RenderPermit (with_world w1 s))). wcbn in Hc2. cbn in Hc2.
  assert (Hl2 : later s s2) by (split; [subst s2; wcbn; lia|done]).
  assert (Hs2 : worker_inv s2) by (apply world_inv; destruct Hs as [[? ? ?] ?]; by split; [split|]).
  apply (wp_mono _ (fun _ s' => worker_inv s' /\ later s2 s' /\ ws_permits s' = ws_permits s2 /\
      ws_current_profile s' = Some (worker_profile t, task_partition t)) _ (stage_failed s2));
    [|intros style_d s3 (Hs3 & Hl3 & Hp3 & Hpr3)|by intros e s'; apply stage_failed_later].
  { destruct swap eqn:Hswap; [by apply style_stage_spec|]. change (wp (mret ?a) ?Q ?X ?s) with (Q a s).
    split_and!; [done|done|done|]. cbn. subst swap. destruct (ws_current_profile s) as [[p q]|]; [|done].
    apply orb_false_elim in Hswap as [H1 H2]. apply negb_false_iff, bool_decide_eq_true in H1, H2. by subst. }
  assert (Hl03 : later s s3) by by trans s2. apply wp_bind.
  eapply wp_fail_later; [apply wp_check_deadline; [done|]|by intros e s'; apply stage_failed_later].
  intros w4 Hc4 _. apply wp_bind. set (s4 := with_world w4 s3).
  assert (Hs4 : worker_inv s4) by by apply world_inv.
  assert (Hl4 : later s s4) by (trans s3; [done|by apply world_later]).
  eapply wp_mono; [apply source_stage_spec; [done|by subst s4; wcbn; rewrite Hpr3]| |by intros e s'; apply stage_failed_later].
  intros [loaded source_d] s5 (Hs5 & Hl5 & Hp5 & Hpr5 & Hsrc5 & Hd5).
  assert (Hl05 : later s s5) by by trans s4.
  eapply wp_mono; [apply render_stage_spec| |by intros e s'; apply stage_failed_later]; try done.
  - rewrite Hpr5. exact Hpr3.
  - rewrite Hp5. subst s4. wcbn. by rewrite Hp3.
  - pose proof (lt_clock _ _ Hl3) as H1. pose proof (lt_clock _ _ Hl5) as H2. subst s2 s4. wcbn in H1. wcbn in H2.
    wcbn in Hc4. lia.
  - intros r s' Hr. apply Hr; [done|lia].
Qed.

Lemma wp_attempt {E F A} (c : WM E A) Q (X : F -> WSt -> Prop) s :
  wp c (fun a => Q (inl a)) (fun e => Q (inr e)) s -> wp (attempt c) Q X s.
Proof. unfold wp, attempt. by destruct (c s) as [[a|e|] s']. Qed.

Definition released (s : WSt) : WSt :=
  {| ws_world := ws_world s; ws_current_profile := ws_current_profile s; ws_cache := ws_cache s;
     ws_permits := (false, false); ws_events := ws_events s |}.
Lemma released_inv s : worker_inv s -> worker_inv (released s).
Proof. intros [[? ? ?] ?]. by split; [split|]. Qed.

Definition run_result (t : InternalTask Json) (s : WSt) (r : (InternalTask Json * StageSuccess) + StageFailure)
    (s' : WSt) : Prop :=
  ws_permits s' = (false, false) /\
  match r with inl done => stages_done t s done s' | inr f => stage_failed s f s' end.

Lemma run_stages_spec t prepared X s : worker_inv s -> ws_permits s = (false, false) ->
  wp (run_stages t prepared) (run_result t s) X s.
Proof.
  intros Hs Hp. apply wp_bind, wp_attempt. eapply wp_mono; [by apply stages_spec|..].
  - intros r s' [H1 H2 H3 H4 H5]. apply wp_bind. change (run_result t s (inl r) (released s')).
    split; [done|]. split; [by apply released_inv|by destruct H2; split|done|done|done].
  - intros f s' (H1 & H2 & H3). apply wp_bind. change (run_result t s (inr f) (released s')).
    split; [done|]. split_and!; [by destruct H1; split|by destruct H2; split|].
    destruct f as [| |]; [by apply released_inv| |by apply released_inv].
    destruct (renderer_error_invalidates_warm_state err); [done|by apply released_inv].
Qed.

(** How a command is answered. *)
Definition answer_ok (c : ProcessCmd) (o : TaskOutcome) : Prop :=
  outcome_of (pc_task c) o /\
  match to_result o with
  | Completed info _ =>
      to_deadline_stage o = None /\ ci_node_id info = node_id /\ ci_worker_id info = Some worker_id /\
      ci_route_tier info = pc_route_tier c /\ ci_admitted_at_overflow info = pc_admitted_at_overflow c /\
      info_ordered info /\ ci_native_render_started_at info < t_deadline (pc_task c) /\
      ci_native_render_completed_at info <= t_deadline (pc_task c)
  | Rejected reason => reason = DeadlineExceeded /\ to_deadline_stage o <> None
  | Failed error kind =>
      to_deadline_stage o = None /\
      exists e, error = RendererError_to_string e /\ kind = from_renderer_error e
  end.

Definition answered_with (c : ProcessCmd) (s s' : WSt) : Prop :=
  worker_inv s' /\ ws_permits s' = (false, false) /\
  exists o, answers (ws_events s') = answers (ws_events s) ++ [o] /\ answer_ok c o.

(** Whatever else happened, the answer is appended to a coherent state. *)
Lemma answer_step c s s' o :
  worker_inv s' -> ws_permits s' = (false, false) -> answers (ws_events s') = answers (ws_events s) ->
  answer_backed (ws_events s') (EvAnswer o) -> answer_ok c o -> answered_with c s (with_event (EvAnswer o) s').
Proof.
  intros [Hwf Hco] Hp Ha Hb Ho. split; [split; [by apply event_wf|]|split; [done|]].
  - wcbn. rewrite warm_snoc. exact Hco.
  - exists o. wcbn. split; [|done]. unfold answers in *. by rewrite omap_app, Ha.
Qed.

(** After an invalidating error the worker forgets what it tracked. *)
Lemma cleared_inv s : worker_wf s -> warm_state (ws_events s) = None ->
  worker_inv {| ws_world := ws_world s; ws_current_profile := None; ws_cache := cache_clear (ws_cache s);
                ws_permits := ws_permits s; ws_events := ws_events s |}.
Proof.
  intros [H1 H2 H3] Hw. split; [split|]; wcbn; [done|done|cbn; lia|]. by rewrite Hw.
Qed.

Lemma process_failed_spec c at_ err X s0 s : stage_failed s0 (SfRendererError at_ err) s ->
  ws_permits s = (false, false) ->
  wp (process_outcome_of c (inr (SfRendererError at_ err)))
    (fun o s' => worker_inv s' /\ ws_permits s' = (false, false) /\
       answers (ws_events s') = answers (ws_events s0) /\ o = failed_outcome (pc_task c) (has_source (pc_task c)) err) X s.
Proof.
  intros (Hl & Hwf & Hinv) Hp. unfold process_outcome_of. apply wp_bind.
  destruct (renderer_error_invalidates_warm_state err) eqn:Hi.
  - assert (Hgo : forall s1, worker_wf s1 -> warm_state (ws_events s1) = None -> ws_permits s1 = (false, false) ->
        answers (ws_events s1) = answers (ws_events s0) ->
        wp (_ ← set_warm None cache_clear; mret (failed_outcome (pc_task c) (has_source (pc_task c)) err) : WM Empty_set _)
          (fun o s' => worker_inv s' /\ ws_permits s' = (false, false) /\
             answers (ws_events s') = answers (ws_events s0) /\
             o = failed_outcome (pc_task c) (has_source (pc_task c)) err) X s1).
    { intros s1 H1 H2 H3 H4. unfold wp. cbn [mbind SM_bind set_warm modify mret SM_ret].
      split_and!; [by apply cleared_inv|done|done|done]. }
    destruct err; try (by destruct Hi); try (apply Hgo; [done|by destruct Hinv as [[=]|]|done|apply Hl]).
    unfold wp. cbn [mbind SM_bind wio event modify]. apply Hgo; wcbn.
    + apply (event_wf EvRetire (with_world _ s)); [by destruct Hwf; split|done|done].
    + by rewrite warm_snoc.
    + done.
    + rewrite answers_snoc by done. apply Hl.
  - destruct err; try done; unfold wp; cbn [mbind SM_bind mret SM_ret]; by split_and!; [..|apply Hl|].
Qed.

Lemma process_command_spec c X s : worker_inv s -> ws_permits s = (false, false) ->
  wp (process_command c) (fun _ s' => answered_with c s s') X s.
Proof.
  intros Hs Hp. apply wp_bind. eapply wp_mono; [by apply run_stages_spec| |done].
  intros r s1 [Hp1 Hr]. apply wp_bind. destruct r as [[t success]|[at_|at_ err|at_]].
  - destruct Hr as [Hi Hl [source Ht] (l & out & Hev & Hout) Htimes]. cbn [fst snd] in *.
    apply wp_bind, wp_now. intros w Hc Hb. change (wp (mret ?a) ?Q ?X ?s) with (Q a s). cbv beta.
    destruct (install_same source (pc_task c)) as (_ & _ & _ & _ & Iid & Irid & Iat).
    match goal with |- wp (event (EvAnswer ?o)) _ _ _ => change (answered_with c s (with_event (EvAnswer o) (with_world w s1))) end.
    apply answer_step; [by apply world_inv|done|apply Hl| |].
    + cbn [answer_backed completed_outcome outcome_for to_result]. exists l, t, out. done.
    + subst t. unfold answer_ok, outcome_of, info_ordered. cbn. rewrite Iid, Irid, Iat. split_and!; try done; lia.
  - destruct Hr as (Hl & Hwf & Hi).
    change (answered_with c s (with_event (EvAnswer (deadline_rejected_outcome (pc_task c) (has_source (pc_task c)) at_)) s1)).
    apply answer_step; [done|done|apply Hl|done|]. by split.
  - eapply wp_mono; [by eapply process_failed_spec| |done]. intros o s2 (H1 & H2 & H3 & ->).
    change (answered_with c s (with_event (EvAnswer (failed_outcome (pc_task c) (has_source (pc_task c)) err)) s2)).
    apply answer_step; [done|done|done|done|]. split; [done|]. cbn. split; [done|by exists err].
  - destruct Hr as (Hl & Hwf & Hi).
    change (answered_with c s (with_event (EvAnswer (failed_outcome (pc_task c) (has_source (pc_task c)) ActorDead)) s1)).
    apply answer_step; [done|done|apply Hl|done|]. split; [done|]. cbn. split; [done|by exists ActorDead].
Qed.

(** The commands a worker takes: those before a retirement or a closed channel. *)
Fixpoint processed (inputs : list Input) : list ProcessCmd :=
  match inputs with
  | [] => []
  | RepairTick :: inputs => processed inputs
  | Received (Some (CmdProcess c)) :: inputs => c :: processed inputs
  | Received (Some CmdRetire) :: _ | Received None :: _ => []
  end.

Lemma worker_loop_spec inputs X s : worker_inv s -> ws_permits s = (false, false) ->
  wp (worker_loop inputs) (fun _ s' => worker_inv s' /\ ws_permits s' = (false, false) /\
    exists os, answers (ws_events s') = answers (ws_events s) ++ os /\ Forall2 answer_ok (processed inputs) os) X s.
Proof.
  revert s. induction inputs as [|[[[c|]|]|] inputs IH]; intros s Hs Hp; cbn [worker_loop processed].
  - split_and!; [done|done|]. exists []. by rewrite app_nil_r.
  - apply wp_bind. eapply wp_mono; [by apply process_command_spec| |done]. intros [] s1 (H1 & H2 & o & Ha & Ho).
    eapply wp_mono; [by apply IH| |done]. intros [] s2 (H3 & H4 & os & Ha2 & Hos). split_and!; [done|done|].
    exists (o :: os). split; [by rewrite Ha2, Ha, <- app_assoc|by constructor].
  - split_and!; [done|done|]. exists []. by rewrite app_nil_r.
  - split_and!; [done|done|]. exists []. by rewrite app_nil_r.
  - apply wp_bind, wp_wio. destruct (ww_repair_if_needed (ws_world s)) as [r w]. cbn [fst snd]. apply wp_bind.
    set (s1 := with_event (EvRepair r) (with_world w s)). change (wp (event ?ev) ?Q ?X ?s) with (Q tt s1). cbv beta.
    assert (Hs1 : worker_inv s1).
    { destruct (world_inv s w Hs) as [Hwf Hco]. split; [by apply event_wf|]. subst s1. wcbn. by rewrite warm_snoc. }
    eapply wp_mono; [by apply IH| |done]. intros [] s2 (H3 & H4 & os & Ha2 & Hos). split_and!; [done|done|].
    exists os. split; [|done]. rewrite Ha2. subst s1. wcbn. by rewrite answers_snoc.
Qed.

Definition worker_init (w : W) (source_cache_capacity : Z) : WSt :=
  {| ws_world := w; ws_current_profile := None; ws_cache := SourceCache_new source_cache_capacity;
     ws_permits := (false, false); ws_events := [] |}.

Lemma worker_init_inv w capacity : worker_inv (worker_init w capacity).
Proof.
  split; [split|]; cbn; [by intros [|] ? ?|by intros [|] ? ?|lia|done].
Qed.
End Worker.
Arguments Event : clear implicits.
Arguments WSt : clear implicits.
Arguments Input : clear implicits.
Arguments ProcessCmd : clear implicits.



(** ** Witnesses *)

(** A renderer that draws one byte; each reading of the clock takes a millisecond. *)
Definition demo_worker_world : WorkerWorld (Json := unit) (W := Z) := {|
  ww_now w := let now := Z.min (Z.max 0 (w + 1000000)) INSTANT_MAX in (now, now);
  ww_acquire _ _ w := (Acquired, w);
  ww_setup_profile _ _ w := (inl tt, w);
  ww_ensure_source _ w := (inl tt, w);
  ww_render t w := (inl {| ro_output := {| out_bytes := [t_id t]; out_format := t_output_format t |};
                           ro_source_setup_duration := None |}, w);
  ww_retire_after_current w := w;
  ww_repair_if_needed w := (inl false, w) |}.

Definition demo_clock (w : Z) : Z := Z.min w INSTANT_MAX.

Lemma demo_worker_laws : WorkerWorldLaws (H := demo_worker_world) demo_clock.
Proof.
  split; [|done..|].
  - intros w. cbn [ww_now demo_worker_world fst snd]. unfold demo_clock, INSTANT_MAX, nanos_per_sec. lia.
  - by intros t w o d [= <-].
Qed.

Definition demo_cmd : ProcessCmd unit :=
  {| pc_task := demo_task; pc_prepared_profile := None; pc_route_tier := Tier1WarmTracking;
     pc_admitted_at_overflow := false |}.
Definition demo_inputs : list (Input unit) :=
  [Received (Some (CmdProcess demo_cmd)); RepairTick; Received (Some (CmdProcess demo_cmd)); Received (Some CmdRetire)].


