(* ===== verification/Renderer.v ===== *)
(** * The MapLibre renderer

    Models the renderer a worker drives in production: the native backend
    ([servers/biei/src/renderer/actor/backend.rs]), the actor that owns it on its
    own thread ([actor/protocol.rs]), the renderer that replaces actors
    ([renderer/maplibre.rs]) and the supervisor of all slots
    ([actor/supervisor.rs]).

    MapLibre Native itself is the class [Native]: building a renderer, loading a
    style document, drawing. A panic in it is [Panic], which the actor catches; the
    text of a panic is a parameter. Threads reply, time out or die as an oracle
    says. *)

From S2P Require Import Prelude StdModel Types Wire Node Worker.

(** ** The supervisor of all slots *)

Record Supervisor := {
  sv_total_slots : Z; sv_available_slots : Z; sv_max_orphaned_threads : Z; sv_orphaned_threads : Z;
  sv_orphaned_by_worker : gmap Z Z;
  sv_replacements_succeeded : Z; sv_replacements_exhausted : Z; sv_replacements_failed : Z }.

Inductive RendererHealth := Full | ExternalDegraded | InternalUnrecoverable.

Definition Supervisor_new (total_slots : Z) : Supervisor :=
  let total_slots := Z.max total_slots 1 in
  {| sv_total_slots := total_slots; sv_available_slots := total_slots; sv_max_orphaned_threads := total_slots;
     sv_orphaned_threads := 0; sv_orphaned_by_worker := ∅;
     sv_replacements_succeeded := 0; sv_replacements_exhausted := 0; sv_replacements_failed := 0 |}.

Definition sv_can_start_render (s : Supervisor) : bool := 0 <? sv_available_slots s.
(** [has_external_evidence] is the file source's provider health. *)
Definition sv_health (has_external_evidence : bool) (s : Supervisor) : RendererHealth :=
  if sv_available_slots s =? sv_total_slots s then Full
  else if has_external_evidence then ExternalDegraded else InternalUnrecoverable.
Definition is_ready (has_external_evidence : bool) (s : Supervisor) : bool :=
  match sv_health has_external_evidence s with InternalUnrecoverable => false | _ => true end.
Definition is_livable (has_external_evidence : bool) (s : Supervisor) : bool :=
  match sv_health has_external_evidence s with InternalUnrecoverable => false | _ => true end.

Definition with_orphans (n : Z) (by_worker : gmap Z Z) (s : Supervisor) : Supervisor :=
  {| sv_total_slots := sv_total_slots s; sv_available_slots := sv_available_slots s;
     sv_max_orphaned_threads := sv_max_orphaned_threads s; sv_orphaned_threads := n;
     sv_orphaned_by_worker := by_worker; sv_replacements_succeeded := sv_replacements_succeeded s;
     sv_replacements_exhausted := sv_replacements_exhausted s; sv_replacements_failed := sv_replacements_failed s |}.

Definition try_reserve_orphan (worker_id : WorkerId) (s : Supervisor) : bool * Supervisor :=
  if bool_decide (is_Some (sv_orphaned_by_worker s !! worker_id))
     || (sv_max_orphaned_threads s <=? sv_orphaned_threads s) then (false, s)
  else (true, with_orphans (wrapping_add (sv_orphaned_threads s) 1) (<[worker_id := 1]> (sv_orphaned_by_worker s)) s).

Definition reserve_orphan_unchecked (worker_id : WorkerId) (s : Supervisor) : Supervisor :=
  with_orphans (wrapping_add (sv_orphaned_threads s) 1)
    (<[worker_id := wrapping_add (default 0 (sv_orphaned_by_worker s !! worker_id)) 1]> (sv_orphaned_by_worker s)) s.

Definition release_orphan (worker_id : WorkerId) (s : Supervisor) : Supervisor :=
  match sv_orphaned_by_worker s !! worker_id with
  | None => s
  | Some count =>
      let count := wrapping_sub count 1 in
      with_orphans (wrapping_sub (sv_orphaned_threads s) 1)
        (if count =? 0 then delete worker_id (sv_orphaned_by_worker s)
         else <[worker_id := count]> (sv_orphaned_by_worker s)) s
  end.

Definition set_slot_available (available next : bool) (s : Supervisor) : bool * Supervisor :=
  if Bool.eqb available next then (available, s)
  else (next,
    {| sv_total_slots := sv_total_slots s;
       sv_available_slots := if next then wrapping_add (sv_available_slots s) 1 else wrapping_sub (sv_available_slots s) 1;
       sv_max_orphaned_threads := sv_max_orphaned_threads s; sv_orphaned_threads := sv_orphaned_threads s;
       sv_orphaned_by_worker := sv_orphaned_by_worker s; sv_replacements_succeeded := sv_replacements_succeeded s;
       sv_replacements_exhausted := sv_replacements_exhausted s; sv_replacements_failed := sv_replacements_failed s |}).

Inductive Replacement := Succeeded | Exhausted | ReplacementFailed.
(** [record_replacement_succeeded], [_exhausted] and [_failed]. *)
Definition record_replacement (r : Replacement) (s : Supervisor) : Supervisor :=
  {| sv_total_slots := sv_total_slots s; sv_available_slots := sv_available_slots s;
     sv_max_orphaned_threads := sv_max_orphaned_threads s; sv_orphaned_threads := sv_orphaned_threads s;
     sv_orphaned_by_worker := sv_orphaned_by_worker s;
     sv_replacements_succeeded := match r with Succeeded => wrapping_add (sv_replacements_succeeded s) 1 | _ => sv_replacements_succeeded s end;
     sv_replacements_exhausted := match r with Exhausted => wrapping_add (sv_replacements_exhausted s) 1 | _ => sv_replacements_exhausted s end;
     sv_replacements_failed := match r with ReplacementFailed => wrapping_add (sv_replacements_failed s) 1 | _ => sv_replacements_failed s end |}.

(** ** The native backend *)

Record ResolvedStyle := { rst_revision : StyleRevision; rst_style_json : string }.

Record RendererKey := { rk_render_mode : RenderMode; rk_pixel_ratio_bits : Z }.
#[export] Instance RendererKey_eq_dec : EqDecision RendererKey.
Proof. solve_decision. Defined.
Definition RendererKey_new (render_mode : RenderMode) (pixel_ratio : PixelRatio) : RendererKey :=
  {| rk_render_mode := render_mode; rk_pixel_ratio_bits := ratio_bits pixel_ratio |}.

Section Renderer.
Context {Json N Slots Sources Image : Type}.

Record RenderTaskView := {
  rv_id : Z; rv_style : StyleRevision; rv_request : RenderRequest Json; rv_pixel_ratio : PixelRatio;
  rv_output_format : ImageFormat; rv_deadline : Z }.
Definition RenderTaskView_from (t : InternalTask Json) : RenderTaskView :=
  {| rv_id := t_id t; rv_style := t_style t; rv_request := t_request t; rv_pixel_ratio := t_pixel_ratio t;
     rv_output_format := t_output_format t; rv_deadline := t_deadline t |}.

Class Native := {
  nat_build : RendererKey -> Z * Z -> N;
  nat_load_style : string -> SM N string unit;
  nat_populate_slots : SM N string Slots;
  nat_set_map_size : Z * Z -> N -> N;
  slots_need_rebuild : Slots -> bool;
  addlayer_cache_new : Sources;
  nat_render_tile : Z -> Z -> Z -> SM N string Image;
  (** Camera, overlays and request-local layer of a static image. *)
  nat_render_static : RenderTaskView -> SM (N * Slots * Sources) string (Image * option Z);
  nat_encode_image : Image -> ImageFormat -> Res string RenderOutput }.

Record StaticRenderer := {
  sr_key : RendererKey; sr_loaded_style : option StyleRevision; sr_renderer : N;
  sr_slots : Slots; sr_addlayer_sources : Sources }.
Record TileRenderer := { tr_key : RendererKey; tr_loaded_style : option StyleRevision; tr_renderer : N }.
Inductive ActiveRenderer := ActiveStatic (r : StaticRenderer) | ActiveTile (r : TileRenderer).

Record Backend := { be_loaded_style : option ResolvedStyle; be_active_renderer : option ActiveRenderer }.
Definition Backend_new : Backend := {| be_loaded_style := None; be_active_renderer := None |}.

Context `{Native}.

Abbreviation BM := (SM Backend RendererError).

Definition be_style : BM ResolvedStyle := fun b =>
  (ok_or (RenderFailed "style has not been loaded in renderer backend") (be_loaded_style b), b).
Definition set_active (r : ActiveRenderer) : BM unit :=
  modify (fun b => {| be_loaded_style := be_loaded_style b; be_active_renderer := Some r |}).

Definition render_size (width height : Z) : Res RendererError (Z * Z) :=
  if (width =? 0) || (height =? 0) then Err (RenderFailed "render size must be non-zero") else Ok (width, height).
Definition build_renderer (key : RendererKey) (size : Z * Z) : Res RendererError N :=
  if size.1 =? 0 then Err (RenderFailed "render width must be non-zero")
  else if size.2 =? 0 then Err (RenderFailed "render height must be non-zero")
  else Ok (nat_build key size).

Definition sm_map_err {S E F A} (f : E -> F) (c : SM S E A) : SM S F A := fun s => let '(r, s') := c s in (map_err f r, s').
Definition load_style_json (style : ResolvedStyle) : SM N RendererError unit :=
  sm_map_err (StyleLoadFailed (sr_id (rst_revision style))) (nat_load_style (rst_style_json style)).
Definition populate_static_slots (style : ResolvedStyle) : SM N RendererError Slots :=
  sm_map_err (SetupFailed (sr_id (rst_revision style))) nat_populate_slots.

(** The fields of the active renderer, behind a mutable reference; another variant is unreachable. *)
Definition with_static {A} (f : SM StaticRenderer RendererError A) : BM A := fun b =>
  match be_active_renderer b with
  | Some (ActiveStatic r) =>
      let '(res, r) := f r in
      (res, {| be_loaded_style := be_loaded_style b; be_active_renderer := Some (ActiveStatic r) |})
  | _ => (Panic, b)
  end.
Definition with_tile {A} (f : SM TileRenderer RendererError A) : BM A := fun b =>
  match be_active_renderer b with
  | Some (ActiveTile r) =>
      let '(res, r) := f r in
      (res, {| be_loaded_style := be_loaded_style b; be_active_renderer := Some (ActiveTile r) |})
  | _ => (Panic, b)
  end.
Definition static_native {A} (f : SM N RendererError A) : SM StaticRenderer RendererError A := fun r =>
  let '(res, n) := f (sr_renderer r) in
  (res, {| sr_key := sr_key r; sr_loaded_style := sr_loaded_style r; sr_renderer := n; sr_slots := sr_slots r;
           sr_addlayer_sources := sr_addlayer_sources r |}).
Definition tile_native {A} (f : SM N RendererError A) : SM TileRenderer RendererError A := fun r =>
  let '(res, n) := f (tr_renderer r) in
  (res, {| tr_key := tr_key r; tr_loaded_style := tr_loaded_style r; tr_renderer := n |}).

Definition static_needs_rebuild (key : RendererKey) (active : option ActiveRenderer) : bool :=
  match active with
  | Some (ActiveStatic r) => negb (bool_decide (sr_key r = key)) || slots_need_rebuild (sr_slots r)
  | _ => true
  end.
Definition tile_needs_rebuild (key : RendererKey) (active : option ActiveRenderer) : bool :=
  match active with Some (ActiveTile r) => negb (bool_decide (tr_key r = key)) | _ => true end.

(** A style that differs from the loaded one is loaded into the active renderer. *)
Definition refresh_static (style : ResolvedStyle) : SM StaticRenderer RendererError unit := fun r =>
  if negb (bool_decide (sr_loaded_style r = Some (rst_revision style))) then
    (_ ← static_native (load_style_json style);
     _ ← modify (fun r => {| sr_key := sr_key r; sr_loaded_style := Some (rst_revision style);
            sr_renderer := sr_renderer r; sr_slots := sr_slots r; sr_addlayer_sources := sr_addlayer_sources r |});
     slots ← static_native (populate_static_slots style);
     modify (fun r => {| sr_key := sr_key r; sr_loaded_style := sr_loaded_style r;
            sr_renderer := sr_renderer r; sr_slots := slots; sr_addlayer_sources := addlayer_cache_new |})) r
  else (Ok tt, r).
Definition refresh_tile (style : ResolvedStyle) : SM TileRenderer RendererError unit := fun r =>
  if negb (bool_decide (tr_loaded_style r = Some (rst_revision style))) then
    (_ ← tile_native (load_style_json style);
     modify (fun r => {| tr_key := tr_key r; tr_loaded_style := Some (rst_revision style);
            tr_renderer := tr_renderer r |})) r
  else (Ok tt, r).

Definition ensure_static_renderer (key : RendererKey) (size : Z * Z) : BM unit :=
  style ← be_style;
  _ ← (fun b =>
    if static_needs_rebuild key (be_active_renderer b) then
      (renderer ← lift (build_renderer key size);
       '(slots, renderer) ← lift (match (_ ← load_style_json style; populate_static_slots style) renderer with
                                  | (Ok slots, n) => Ok (slots, n) | (Err e, _) => Err e | (Panic, _) => Panic end);
       set_active (ActiveStatic {| sr_key := key; sr_loaded_style := Some (rst_revision style);
         sr_renderer := renderer; sr_slots := slots; sr_addlayer_sources := addlayer_cache_new |})) b
    else (Ok tt, b));
  _ ← with_static (refresh_static style);
  with_static (static_native (modify (nat_set_map_size size))).

Definition ensure_tile_renderer (key : RendererKey) (size : Z * Z) : BM unit :=
  style ← be_style;
  _ ← (fun b =>
    if tile_needs_rebuild key (be_active_renderer b) then
      (renderer ← lift (build_renderer key size);
       renderer ← lift (match load_style_json style renderer with
                        | (Ok _, n) => Ok n | (Err e, _) => Err e | (Panic, _) => Panic end);
       set_active (ActiveTile {| tr_key := key; tr_loaded_style := Some (rst_revision style);
         tr_renderer := renderer |})) b
    else (Ok tt, b));
  _ ← with_tile (refresh_tile style);
  with_tile (tile_native (modify (nat_set_map_size size))).

(** The renderer a task needs: the common part of [ensure_renderer_for_task] and [render]. *)
Definition ensure_renderer_for_task (task : RenderTaskView) : BM unit :=
  match rv_request task with
  | ReqTile _ _ _ tile_size =>
      size ← lift (render_size tile_size tile_size);
      ensure_tile_renderer (RendererKey_new RmTile (rv_pixel_ratio task)) size
  | ReqStaticImage _ width height _ _ _ _ =>
      size ← lift (render_size width height);
      ensure_static_renderer (RendererKey_new RmStatic (rv_pixel_ratio task)) size
  end.

Definition reset_loaded_state (b : Backend) : Backend :=
  {| be_loaded_style := None;
     be_active_renderer := match be_active_renderer b with
       | Some (ActiveStatic r) => Some (ActiveStatic {| sr_key := sr_key r; sr_loaded_style := None;
           sr_renderer := sr_renderer r; sr_slots := sr_slots r; sr_addlayer_sources := sr_addlayer_sources r |})
       | Some (ActiveTile r) => Some (ActiveTile {| tr_key := tr_key r; tr_loaded_style := None;
           tr_renderer := tr_renderer r |})
       | None => None
       end |}.

Definition be_load_profile (style : ResolvedStyle) (task : RenderTaskView) : BM unit :=
  _ ← modify (fun b => {| be_loaded_style := Some style; be_active_renderer := be_active_renderer b |});
  ensure_renderer_for_task task.

Definition draw_static (task : RenderTaskView) : SM StaticRenderer RendererError (Image * option Z) := fun r =>
  let '(res, (n, slots, sources)) :=
    nat_render_static task (sr_renderer r, sr_slots r, sr_addlayer_sources r) in
  (map_err RenderFailed res,
   {| sr_key := sr_key r; sr_loaded_style := sr_loaded_style r; sr_renderer := n; sr_slots := slots;
      sr_addlayer_sources := sources |}).

Definition draw (task : RenderTaskView) : BM (Image * option Z) :=
  match rv_request task with
  | ReqTile z x y _ =>
      image ← with_tile (tile_native (sm_map_err RenderFailed (nat_render_tile z x y)));
      mret (image, None)
  | ReqStaticImage _ _ _ _ _ _ _ => with_static (draw_static task)
  end.

Definition be_render (task : RenderTaskView) : BM RendererOutput :=
  _ ← ensure_renderer_for_task task;
  '(image, source_setup_duration) ← draw task;
  output ← lift (map_err RenderFailed (nat_encode_image image (rv_output_format task)));
  mret {| ro_output := output; ro_source_setup_duration := source_setup_duration |}.

Definition error_invalidates_loaded_state (e : RendererError) : bool :=
  match e with RenderFailed _ => false | _ => true end.

(** ** The actor *)

Context (panic_message : string).

Definition PANIC_PREFIX : string := "renderer actor panicked during ".
Definition renderer_error_is_actor_panic (e : RendererError) : bool :=
  match e with RenderFailed message => bool_decide (is_Some (strip_prefix PANIC_PREFIX message)) | _ => false end.

Definition catch_backend_unwind {A} (operation : string) (c : BM A) (b : Backend) : (A + RendererError) * Backend :=
  match c b with
  | (Ok a, b) => (inl a, b)
  | (Err e, b) => (inr e, b)
  | (Panic, b) => (inr (RenderFailed (PANIC_PREFIX +:+ operation +:+ ": " +:+ panic_message)), b)
  end.

Record Actor := { ac_loaded : option StyleRevision; ac_backend : Backend }.
Definition Actor_new : Actor := {| ac_loaded := None; ac_backend := Backend_new |}.

Definition actor_load_profile (style : ResolvedStyle) (task : RenderTaskView) (a : Actor)
    : (unit + RendererError) * Actor :=
  let '(result, b) := catch_backend_unwind "load_profile" (be_load_profile style task) (ac_backend a) in
  (result, match result with
           | inl _ => {| ac_loaded := Some (rst_revision style); ac_backend := b |}
           | inr _ => {| ac_loaded := None; ac_backend := reset_loaded_state b |}
           end).

Definition actor_render (task : RenderTaskView) (a : Actor) : (RendererOutput + RendererError) * Actor :=
  let '(result, b) :=
    if bool_decide (ac_loaded a = Some (rv_style task))
    then catch_backend_unwind "render" (be_render task) (ac_backend a)
    else (inr (StyleNotReady (sr_id (rv_style task)) (sr_version (rv_style task))), ac_backend a) in
  (result, match result with
           | inr e =>
               if renderer_error_is_actor_panic e || error_invalidates_loaded_state e
               then {| ac_loaded := None; ac_backend := reset_loaded_state b |}
               else {| ac_loaded := ac_loaded a; ac_backend := b |}
           | inl _ => {| ac_loaded := ac_loaded a; ac_backend := b |}
           end).

Inductive RenderCmd :=
  | LoadProfile (style : ResolvedStyle) (task : RenderTaskView)
  | Render (task : RenderTaskView)
  | RetireActor
  | Shutdown.

(** The state of [run_actor] after the commands it received; it ends on a retirement. *)
Fixpoint run_actor (cmds : list RenderCmd) (a : Actor) : Actor :=
  match cmds with
  | LoadProfile style task :: cmds => run_actor cmds (actor_load_profile style task a).2
  | Render task :: cmds => run_actor cmds (actor_render task a).2
  | RetireActor :: _ | Shutdown :: _ | [] => a
  end.

(** ** The renderer of a slot *)

(** What the threads do during one call: whether the actor's thread had ended,
    whether it ends while it is being abandoned, whether a new thread starts, and
    how the actor replies. *)
Inductive ActorTiming := Replies | TimesOut (executed : bool) | Dies.
Record Oracle := { or_finished : bool; or_finishes_meanwhile : bool; or_spawns : bool; or_timing : ActorTiming }.

(** [mr_thread] is the join handle; it is gone once the thread was abandoned. *)
Record MapLibreRenderer := {
  mr_worker_id : WorkerId; mr_actor : Actor; mr_thread : bool; mr_retiring : bool; mr_slot_available : bool;
  mr_supervisor : Supervisor }.

Abbreviation MM := (SM MapLibreRenderer RendererError).

Definition mr_update (f : Supervisor -> bool * Supervisor) (r : MapLibreRenderer) : MapLibreRenderer :=
  let '(available, sup) := f (mr_supervisor r) in
  {| mr_worker_id := mr_worker_id r; mr_actor := mr_actor r; mr_thread := mr_thread r; mr_retiring := mr_retiring r;
     mr_slot_available := available; mr_supervisor := sup |}.
Definition mr_set_available (next : bool) (r : MapLibreRenderer) : MapLibreRenderer :=
  mr_update (set_slot_available (mr_slot_available r) next) r.
Definition mr_record (e : Replacement) (r : MapLibreRenderer) : MapLibreRenderer :=
  mr_update (fun sup => (mr_slot_available r, record_replacement e sup)) r.
Definition mr_set_thread (thread retiring : bool) (actor : Actor) (r : MapLibreRenderer) : MapLibreRenderer :=
  {| mr_worker_id := mr_worker_id r; mr_actor := actor; mr_thread := thread; mr_retiring := retiring;
     mr_slot_available := mr_slot_available r; mr_supervisor := mr_supervisor r |}.
Definition mr_set_supervisor (sup : Supervisor) (r : MapLibreRenderer) : MapLibreRenderer :=
  {| mr_worker_id := mr_worker_id r; mr_actor := mr_actor r; mr_thread := mr_thread r; mr_retiring := mr_retiring r;
     mr_slot_available := mr_slot_available r; mr_supervisor := sup |}.

Definition mr_alive (o : Oracle) (r : MapLibreRenderer) : bool := mr_thread r && negb (or_finished o).

(** [RendererActor::try_abandon]. *)
Definition try_abandon (o : Oracle) : MM bool := fun r =>
  if negb (mr_thread r) then (Ok true, r)
  else if or_finished o then (Ok true, mr_set_thread false (mr_retiring r) (mr_actor r) r)
  else
    let '(reserved, sup) := try_reserve_orphan (mr_worker_id r) (mr_supervisor r) in
    if negb reserved then (Ok false, r)
    else
      let sup := if or_finishes_meanwhile o then release_orphan (mr_worker_id r) sup else sup in
      (Ok true, mr_set_thread false (mr_retiring r) (mr_actor r) (mr_set_supervisor sup r)).

Definition spawn_and_install_replacement (o : Oracle) : MM unit :=
  if or_spawns o then
    _ ← modify (fun r => mr_set_thread true (mr_retiring r) Actor_new r);
    _ ← modify (mr_set_available true);
    modify (mr_record Succeeded)
  else
    _ ← modify (mr_record ReplacementFailed);
    _ ← modify (mr_set_available false);
    lift (Err (RenderFailed "failed to spawn renderer actor")).

Definition replace_retiring_actor (o : Oracle) : MM unit :=
  abandoned ← try_abandon o;
  if negb abandoned then
    _ ← modify (fun r => if mr_slot_available r then mr_record Exhausted r else r);
    _ ← modify (mr_set_available false);
    lift (Err ActorDead)
  else
    _ ← spawn_and_install_replacement o;
    modify (fun r => mr_set_thread (mr_thread r) false (mr_actor r) r).
Definition replace_finished_actor (o : Oracle) : MM unit := spawn_and_install_replacement o.

(** The actor, replaced first when it retires or has ended. *)
Definition mr_get_actor (o : Oracle) : MM unit := fun r =>
  if mr_retiring r then replace_retiring_actor o r
  else if negb (mr_alive o r) then replace_finished_actor o r
  else (Ok tt, r).

(** A request to the actor and [await_actor_reply]. *)
Definition ask_actor {A} (o : Oracle) (f : Actor -> (A + RendererError) * Actor) : MM A := fun r =>
  let '(result, actor) := f (mr_actor r) in
  match or_timing o with
  | Replies => (match result with inl a => Ok a | inr e => Err e end, mr_set_thread (mr_thread r) (mr_retiring r) actor r)
  | TimesOut executed =>
      (Err Timeout, mr_set_thread (mr_thread r) (mr_retiring r) (if executed then actor else mr_actor r) r)
  | Dies => (Err ActorDead, r)
  end.

Definition mr_setup_profile (o : Oracle) (task : InternalTask Json) (prepared : option PreparedProfile) : MM unit :=
  prepared ← lift (ok_or (StyleLoadFailed (sr_id (t_style task)) "prepared style JSON is missing or stale")
    (prepared ≫= fun p => if bool_decide (pp_revision p = t_style task)
                             && bool_decide (pp_authorization_partition p = task_partition task)
                          then Some p else None));
  _ ← mr_get_actor o;
  ask_actor o (actor_load_profile {| rst_revision := pp_revision prepared; rst_style_json := pp_style_json prepared |}
                 (RenderTaskView_from task)).

Definition mr_ensure_source (_ : SourceHash) : MM unit := mret tt.

Definition mr_render (o : Oracle) (task : InternalTask Json) : MM RendererOutput :=
  _ ← mr_get_actor o;
  ask_actor o (actor_render (RenderTaskView_from task)).

Definition mr_retire_after_current (o : Oracle) (r : MapLibreRenderer) : MapLibreRenderer :=
  (replace_retiring_actor o (mr_set_thread (mr_thread r) true (mr_actor r) r)).2.

Definition mr_repair_if_needed (o : Oracle) : MM bool := fun r =>
  if mr_retiring r then (_ ← replace_retiring_actor o; mret true) r
  else if negb (mr_alive o r) then (_ ← replace_finished_actor o; mret true) r
  else (Ok false, r).

(** The renderer as a worker's surroundings, with a clock and the oracles of the calls to come. *)
Record MapLibreWorld := { mw_clock : Z; mw_renderer : MapLibreRenderer; mw_oracles : list Oracle }.

Definition prompt : Oracle := {| or_finished := false; or_finishes_meanwhile := false; or_spawns := true; or_timing := Replies |}.
(** None of the methods panics. *)
Definition call {A} (f : Oracle -> MM A) (w : MapLibreWorld) : (A + RendererError) * MapLibreWorld :=
  let '(res, r) := f (default prompt (head (mw_oracles w))) (mw_renderer w) in
  (match res with Ok a => inl a | Err e => inr e | Panic => inr ActorDead end,
   {| mw_clock := mw_clock w; mw_renderer := r; mw_oracles := tail (mw_oracles w) |}).

#[local] Instance maplibre_world : WorkerWorld (Json := Json) (W := MapLibreWorld) := {|
  ww_now w := let now := mw_clock w + 1000000 in
    (now, {| mw_clock := now; mw_renderer := mw_renderer w; mw_oracles := mw_oracles w |});
  ww_acquire _ _ w := (Acquired, w);
  ww_setup_profile task prepared := call (fun o => mr_setup_profile o task prepared);
  ww_ensure_source h := call (fun _ => mr_ensure_source h);
  ww_render task := call (fun o => mr_render o task);
  ww_retire_after_current w :=
    {| mw_clock := mw_clock w;
       mw_renderer := mr_retire_after_current (default prompt (head (mw_oracles w))) (mw_renderer w);
       mw_oracles := tail (mw_oracles w) |};
  ww_repair_if_needed := call mr_repair_if_needed |}.

Definition MapLibreRenderer_new (worker_id : WorkerId) (sup : Supervisor) : MapLibreRenderer :=
  {| mr_worker_id := worker_id; mr_actor := Actor_new; mr_thread := true; mr_retiring := false;
     mr_slot_available := true; mr_supervisor := sup |}.

(** ** Which document is drawn *)

(** The document of a native renderer: a successful load installs it, and no other
    operation changes it. *)
Context (doc : N -> option string).
Class NativeLaws : Prop := {
  load_doc json n n' : nat_load_style json n = (Ok tt, n') -> doc n' = Some json;
  populate_doc n : doc (nat_populate_slots n).2 = doc n;
  size_doc size n : doc (nat_set_map_size size n) = doc n;
  tile_doc z x y n : doc (nat_render_tile z x y n).2 = doc n;
  static_doc task n slots sources : doc (nat_render_static task (n, slots, sources)).2.1.1 = doc n }.
Context `{!NativeLaws}.

(** The loaded revision and the document of the active renderer. *)
Definition active_doc (b : Backend) : option (option StyleRevision * option string) :=
  (fun r => match r with
            | ActiveStatic r => (sr_loaded_style r, doc (sr_renderer r))
            | ActiveTile r => (tr_loaded_style r, doc (tr_renderer r))
            end) <$> be_active_renderer b.

Lemma sm_bind_eq {S E A B} (c : SM S E A) (f : A -> SM S E B) s :
  (c ≫= f) s = match c s with
               | (Ok a, s') => f a s' | (Err e, s') => (Err e, s') | (Panic, s') => (Panic, s')
               end.
Proof. reflexivity. Qed.

(** Drawing keeps the loaded style and the document. *)
Lemma with_tile_doc {A} (f : SM N RendererError A) b : (forall n, doc (f n).2 = doc n) ->
  active_doc (with_tile (tile_native f) b).2 = active_doc b /\
  be_loaded_style (with_tile (tile_native f) b).2 = be_loaded_style b.
Proof.
  intros Hf. unfold with_tile, active_doc. destruct (be_active_renderer b) as [[r|r]|] eqn:Ha; [by cbn; rewrite Ha| |by cbn; rewrite Ha].
  unfold tile_native. specialize (Hf (tr_renderer r)). destruct (f (tr_renderer r)) as [res n]. cbn in *. by rewrite Hf.
Qed.

Lemma draw_static_doc task b :
  active_doc (with_static (draw_static task) b).2 = active_doc b /\
  be_loaded_style (with_static (draw_static task) b).2 = be_loaded_style b.
Proof.
  unfold with_static, active_doc. destruct (be_active_renderer b) as [[r|r]|] eqn:Ha; [|by cbn; rewrite Ha|by cbn; rewrite Ha].
  unfold draw_static. pose proof (static_doc task (sr_renderer r) (sr_slots r) (sr_addlayer_sources r)) as Hd.
  destruct (nat_render_static task _) as [res [[n slots] sources]]. cbn in *. by rewrite Hd.
Qed.

Lemma draw_doc task b : active_doc (draw task b).2 = active_doc b /\ be_loaded_style (draw task b).2 = be_loaded_style b.
Proof.
  unfold draw. destruct (rv_request task) as [z x y size|]; [|apply draw_static_doc].
  destruct (with_tile_doc (sm_map_err RenderFailed (nat_render_tile z x y)) b) as [H1 H2].
  { intros n. pose proof (tile_doc z x y n) as Htd. unfold sm_map_err. by destruct (nat_render_tile z x y n). }
  rewrite sm_bind_eq. by destruct (with_tile _ b) as [[image|e|] b2].
Qed.

Section Consistent.
(** Every revision has one document. *)
Context (document : StyleRevision -> string).

Definition style_ok (b : Backend) : Prop :=
  match be_loaded_style b with Some st => rst_style_json st = document (rst_revision st) | None => True end.
Definition active_ok (b : Backend) : Prop :=
  match active_doc b with Some (Some rev, d) => d = Some (document rev) | _ => True end.
(** The active renderer holds the document of the loaded style. *)
Definition active_current (b : Backend) : Prop :=
  exists st, be_loaded_style b = Some st /\ active_doc b = Some (Some (rst_revision st), Some (document (rst_revision st))).

(** How preparing a renderer ends: current, failed with an error that resets the
    backend, or unchanged; after a panic the backend is reset as well. *)
Definition ensured {A} (P : Backend -> Prop) (b : Backend) (res : Res RendererError A * Backend) : Prop :=
  match res with
  | (Ok _, b') => P b'
  | (Err e, b') => error_invalidates_loaded_state e = true \/ b' = b
  | (Panic, _) => True
  end.

Lemma load_json_spec style n :
  match load_style_json style n with
  | (Ok _, n') => doc n' = Some (rst_style_json style)
  | (Err e, _) => error_invalidates_loaded_state e = true
  | (Panic, _) => True
  end.
Proof.
  unfold load_style_json, sm_map_err. destruct (nat_load_style (rst_style_json style) n) as [[[]|e|] n'] eqn:Hl; cbn;
    [by eapply load_doc|done|done].
Qed.

Lemma populate_spec style n :
  match populate_static_slots style n with
  | (Ok _, n') => doc n' = doc n
  | (Err e, _) => error_invalidates_loaded_state e = true
  | (Panic, _) => True
  end.
Proof.
  unfold populate_static_slots, sm_map_err. pose proof (populate_doc n) as Hd.
  by destruct (nat_populate_slots n) as [[slots|e|] n'].
Qed.

Lemma refresh_static_spec style r :
  (forall rev, sr_loaded_style r = Some rev -> doc (sr_renderer r) = Some (document rev)) ->
  rst_style_json style = document (rst_revision style) ->
  match refresh_static style r with
  | (Ok _, r') => sr_loaded_style r' = Some (rst_revision style) /\
                  doc (sr_renderer r') = Some (document (rst_revision style))
  | (Err e, _) => error_invalidates_loaded_state e = true
  | (Panic, _) => True
  end.
Proof.
  intros Hr Hs. unfold refresh_static. case_bool_decide as Hl; cbn [negb]; [by split; [|apply Hr]|].
  unfold mbind, SM_bind, static_native, modify. pose proof (load_json_spec style (sr_renderer r)) as Hj.
  destruct (load_style_json style (sr_renderer r)) as [[[]|e|] n1]; [|done|done].
  cbn [sr_renderer]. pose proof (populate_spec style n1) as Hp.
  destruct (populate_static_slots style n1) as [[slots|e|] n2]; cbn; [|done|done]. split; [done|congruence].
Qed.

Lemma refresh_tile_spec style r :
  (forall rev, tr_loaded_style r = Some rev -> doc (tr_renderer r) = Some (document rev)) ->
  rst_style_json style = document (rst_revision style) ->
  match refresh_tile style r with
  | (Ok _, r') => tr_loaded_style r' = Some (rst_revision style) /\
                  doc (tr_renderer r') = Some (document (rst_revision style))
  | (Err e, _) => error_invalidates_loaded_state e = true
  | (Panic, _) => True
  end.
Proof.
  intros Hr Hs. unfold refresh_tile. case_bool_decide as Hl; cbn [negb]; [by split; [|apply Hr]|].
  unfold mbind, SM_bind, tile_native, modify. pose proof (load_json_spec style (tr_renderer r)) as Hj.
  destruct (load_style_json style (tr_renderer r)) as [[[]|e|] n1]; [|done|done]. cbn. split; [done|congruence].
Qed.

(** The tail of [ensure_*_renderer], from a renderer that is active. *)
Lemma refresh_static_current b st r size :
  be_loaded_style b = Some st -> rst_style_json st = document (rst_revision st) ->
  be_active_renderer b = Some (ActiveStatic r) ->
  (forall rev, sr_loaded_style r = Some rev -> doc (sr_renderer r) = Some (document rev)) ->
  match (_ ← with_static (refresh_static st); with_static (static_native (modify (nat_set_map_size size)))) b with
  | (Ok _, b') => active_current b' /\ be_loaded_style b' = Some st
  | (Err e, _) => error_invalidates_loaded_state e = true
  | (Panic, _) => True
  end.
Proof.
  intros Hst Hj Ha Hr. unfold mbind, SM_bind, with_static. rewrite Ha.
  pose proof (refresh_static_spec st r Hr Hj) as Hs. destruct (refresh_static st r) as [[[]|e|] r']; [|done|done].
  cbn. destruct Hs as [Hl Hd]. split; [|done]. exists st. unfold active_doc. cbn. by rewrite size_doc, Hl, Hd.
Qed.

Lemma refresh_tile_current b st r size :
  be_loaded_style b = Some st -> rst_style_json st = document (rst_revision st) ->
  be_active_renderer b = Some (ActiveTile r) ->
  (forall rev, tr_loaded_style r = Some rev -> doc (tr_renderer r) = Some (document rev)) ->
  match (_ ← with_tile (refresh_tile st); with_tile (tile_native (modify (nat_set_map_size size)))) b with
  | (Ok _, b') => active_current b' /\ be_loaded_style b' = Some st
  | (Err e, _) => error_invalidates_loaded_state e = true
  | (Panic, _) => True
  end.
Proof.
  intros Hst Hj Ha Hr. unfold mbind, SM_bind, with_tile. rewrite Ha.
  pose proof (refresh_tile_spec st r Hr Hj) as Hs. destruct (refresh_tile st r) as [[[]|e|] r']; [|done|done].
  cbn. destruct Hs as [Hl Hd]. split; [|done]. exists st. unfold active_doc. cbn. by rewrite size_doc, Hl, Hd.
Qed.

Definition current (b b' : Backend) : Prop := active_current b' /\ be_loaded_style b' = be_loaded_style b.

Lemma ensure_static_spec key size b : style_ok b -> active_ok b ->
  ensured (current b) b (ensure_static_renderer key size b).
Proof.
  intros Hs Ha. unfold ensure_static_renderer, style_ok in *. rewrite sm_bind_eq. unfold be_style at 1.
  destruct (be_loaded_style b) as [st|] eqn:Hst; [|by right]. cbn [ok_or]. rewrite sm_bind_eq.
  assert (Hgo : forall b1 r, be_loaded_style b1 = Some st -> be_active_renderer b1 = Some (ActiveStatic r) ->
    (forall rev, sr_loaded_style r = Some rev -> doc (sr_renderer r) = Some (document rev)) ->
    ensured (current b) b ((_ ← with_static (refresh_static st);
      with_static (static_native (modify (nat_set_map_size size)))) b1)).
  { intros b1 r H1 H2 H3. pose proof (refresh_static_current b1 st r size H1 Hs H2 H3) as Hc.
    match type of Hc with match ?c b1 with _ => _ end => destruct (c b1) as [[[]|e|] b2] end; cbn; [|by left|done]. unfold current. by rewrite Hst. }
  destruct (static_needs_rebuild key (be_active_renderer b)) eqn:Hn.
  - rewrite sm_bind_eq. unfold lift at 1, build_renderer.
    destruct (size.1 =? 0); [by right|]. destruct (size.2 =? 0); [by right|].
    rewrite sm_bind_eq. unfold lift at 1. rewrite sm_bind_eq.
    pose proof (load_json_spec st (nat_build key size)) as Hj.
    destruct (load_style_json st (nat_build key size)) as [[[]|e|] n1]; [|by left|done].
    pose proof (populate_spec st n1) as Hp. destruct (populate_static_slots st n1) as [[slots|e|] n2]; [|by left|done].
    cbn [set_active modify]. eapply Hgo; [done|done|]. cbn. intros rev [= <-]. congruence.
  - unfold static_needs_rebuild in Hn. destruct (be_active_renderer b) as [[r|r]|] eqn:Har; [|done|done].
    eapply Hgo; [done|done|]. intros rev Hrev. unfold active_ok, active_doc in Ha. rewrite Har in Ha. cbn in Ha.
    by rewrite Hrev in Ha.
Qed.

Lemma ensure_tile_spec key size b : style_ok b -> active_ok b ->
  ensured (current b) b (ensure_tile_renderer key size b).
Proof.
  intros Hs Ha. unfold ensure_tile_renderer, style_ok in *. rewrite sm_bind_eq. unfold be_style at 1.
  destruct (be_loaded_style b) as [st|] eqn:Hst; [|by right]. cbn [ok_or]. rewrite sm_bind_eq.
  assert (Hgo : forall b1 r, be_loaded_style b1 = Some st -> be_active_renderer b1 = Some (ActiveTile r) ->
    (forall rev, tr_loaded_style r = Some rev -> doc (tr_renderer r) = Some (document rev)) ->
    ensured (current b) b ((_ ← with_tile (refresh_tile st);
      with_tile (tile_native (modify (nat_set_map_size size)))) b1)).
  { intros b1 r H1 H2 H3. pose proof (refresh_tile_current b1 st r size H1 Hs H2 H3) as Hc.
    match type of Hc with match ?c b1 with _ => _ end => destruct (c b1) as [[[]|e|] b2] end; cbn; [|by left|done]. unfold current. by rewrite Hst. }
  destruct (tile_needs_rebuild key (be_active_renderer b)) eqn:Hn.
  - rewrite sm_bind_eq. unfold lift at 1, build_renderer.
    destruct (size.1 =? 0); [by right|]. destruct (size.2 =? 0); [by right|].
    rewrite sm_bind_eq. unfold lift at 1.
    pose proof (load_json_spec st (nat_build key size)) as Hj.
    destruct (load_style_json st (nat_build key size)) as [[[]|e|] n1]; [|by left|done].
    cbn [set_active modify]. eapply Hgo; [done|done|]. cbn. intros rev [= <-]. congruence.
  - unfold tile_needs_rebuild in Hn. destruct (be_active_renderer b) as [[r|r]|] eqn:Har; [done| |done].
    eapply Hgo; [done|done|]. intros rev Hrev. unfold active_ok, active_doc in Ha. rewrite Har in Ha. cbn in Ha.
    by rewrite Hrev in Ha.
Qed.

Lemma ensure_task_spec task b : style_ok b -> active_ok b ->
  ensured (current b) b (ensure_renderer_for_task task b).
Proof.
  intros Hs Ha. unfold ensure_renderer_for_task. destruct (rv_request task) as [z x y size|? w h ? ? ? ?];
    rewrite sm_bind_eq; unfold lift, render_size; destruct (_ || _); try by right.
  - by apply ensure_tile_spec.
  - by apply ensure_static_spec.
Qed.

Lemma current_ok b b' : style_ok b -> current b b' -> style_ok b' /\ active_ok b'.
Proof.
  intros Hs [(st & Hst & Had) He]. unfold style_ok, active_ok in *. by rewrite He, Had.
Qed.

Lemma current_same b0 b b' : active_doc b' = active_doc b -> be_loaded_style b' = be_loaded_style b ->
  current b0 b -> current b0 b'.
Proof. intros Ha Hl [(st & Hst & Had) He]. split; [exists st|]; by rewrite ?Ha, ?Hl. Qed.

Lemma be_render_spec task b : style_ok b -> active_ok b ->
  match be_render task b with
  | (Ok _, b') => current b b'
  | (Err e, b') => error_invalidates_loaded_state e = true \/ b' = b \/ current b b'
  | (Panic, _) => True
  end.
Proof.
  intros Hs Ha. unfold be_render. rewrite sm_bind_eq. pose proof (ensure_task_spec task b Hs Ha) as He.
  destruct (ensure_renderer_for_task task b) as [[[]|e|] b1]; [|cbn in He; tauto|done]. cbn [ensured] in He.
  rewrite sm_bind_eq. destruct (draw_doc task b1) as [Hd1 Hd2]. apply (current_same b b1 (draw task b1).2) in He; [|done|done].
  destruct (draw task b1) as [[[image d]|e|] b2]; cbn [snd] in He; [|by right; right|done].
  rewrite sm_bind_eq. unfold lift. destruct (map_err RenderFailed _) as [o|e|]; [done|by right; right|done].
Qed.

Record actor_inv (a : Actor) : Prop := {
  ai_style : style_ok (ac_backend a);
  ai_active : active_ok (ac_backend a);
  ai_loaded : forall rev, ac_loaded a = Some rev ->
    exists st, be_loaded_style (ac_backend a) = Some st /\ rst_revision st = rev }.

Lemma Actor_new_inv : actor_inv Actor_new.
Proof. by split. Qed.

Lemma reset_inv b : actor_inv {| ac_loaded := None; ac_backend := reset_loaded_state b |}.
Proof. split; cbn; [done| |done]. unfold active_ok, active_doc. cbn. by destruct (be_active_renderer b) as [[r|r]|]. Qed.

Lemma actor_load_inv style task a : actor_inv a -> rst_style_json style = document (rst_revision style) ->
  actor_inv (actor_load_profile style task a).2.
Proof.
  intros [H1 H2 H3] Hd. unfold actor_load_profile, catch_backend_unwind, be_load_profile. rewrite sm_bind_eq. cbn [modify].
  set (b1 := {| be_loaded_style := Some style; be_active_renderer := be_active_renderer (ac_backend a) |}).
  pose proof (ensure_task_spec task b1 Hd H2) as He.
  destruct (ensure_renderer_for_task task b1) as [[[]|e|] b2]; cbn [snd]; [|apply reset_inv|apply reset_inv].
  cbn [ensured] in He. destruct (current_ok b1 b2 Hd He) as [Hs Ha]. split; [done|done|].
  cbn. intros rev [= <-]. destruct He as [_ He]. exists style. by rewrite He.
Qed.

Lemma actor_render_spec task a : actor_inv a ->
  actor_inv (actor_render task a).2 /\
  forall o, (actor_render task a).1 = inl o ->
    active_doc (ac_backend (actor_render task a).2) = Some (Some (rv_style task), Some (document (rv_style task))).
Proof.
  intros Hi. unfold actor_render. case_bool_decide as Hl; [|split; [apply reset_inv|done]].
  unfold catch_backend_unwind. pose proof (be_render_spec task (ac_backend a) (ai_style a Hi) (ai_active a Hi)) as Hr.
  assert (Hcur : forall b', current (ac_backend a) b' -> actor_inv {| ac_loaded := ac_loaded a; ac_backend := b' |} /\
    active_doc b' = Some (Some (rv_style task), Some (document (rv_style task)))).
  { intros b' Hc. destruct (current_ok _ _ (ai_style a Hi) Hc) as [Hs Ha]. destruct Hc as [(st & Hst & Had) He].
    destruct (ai_loaded a Hi _ Hl) as (st' & Hst' & Hrev). split.
    - split; [done|done|]. intros rev Hr'. cbn in *. rewrite He. by apply (ai_loaded a Hi).
    - assert (st' = st) as -> by congruence. by rewrite Had, Hrev. }
  destruct (be_render task (ac_backend a)) as [[o|e|] b'].
  - cbn. split; [by apply Hcur|]. intros _ _. by apply Hcur.
  - split; [|done]. cbn. destruct (renderer_error_is_actor_panic e || error_invalidates_loaded_state e) eqn:Hp;
      [apply reset_inv|]. apply orb_false_elim in Hp as [_ Hp].
    destruct Hr as [Hr|[->|Hr]]; [congruence|by destruct a|by apply Hcur].
  - split; [|done]. cbn [fst snd]. 
    assert (Hpan : renderer_error_is_actor_panic (RenderFailed (PANIC_PREFIX +:+ "render" +:+ ": " +:+ panic_message)) = true).
    { unfold renderer_error_is_actor_panic. apply bool_decide_eq_true. by eexists. }
    rewrite Hpan. apply reset_inv.
Qed.

Lemma run_actor_inv cmds a : actor_inv a ->
  (forall style task, LoadProfile style task ∈ cmds -> rst_style_json style = document (rst_revision style)) ->
  actor_inv (run_actor cmds a).
Proof.
  revert a. induction cmds as [|[style task|task| |] cmds IH]; intros a Ha Hc; cbn [run_actor]; try done.
  - apply IH; [apply actor_load_inv; [done|]; eapply Hc; by left|]. intros st t Ht. eapply Hc. by right.
  - apply IH; [by apply actor_render_spec|]. intros st t Ht. eapply Hc. by right.
Qed.
End Consistent.

(** ** A second document of the same revision *)

Definition key_of (task : RenderTaskView) : RendererKey :=
  RendererKey_new (render_mode (rv_request task)) (rv_pixel_ratio task).

(** The active renderer is of the key and holds the revision. *)
Definition ready (key : RendererKey) (rev : StyleRevision) (b : Backend) : Prop :=
  match be_active_renderer b with
  | Some (ActiveStatic r) => rk_render_mode key = RmStatic /\ sr_key r = key /\ sr_loaded_style r = Some rev
  | Some (ActiveTile r) => rk_render_mode key = RmTile /\ tr_key r = key /\ tr_loaded_style r = Some rev
  | None => False
  end.
Definition slots_intact (b : Backend) : Prop :=
  match be_active_renderer b with Some (ActiveStatic r) => slots_need_rebuild (sr_slots r) = false | _ => True end.

Lemma refresh_static_loaded style r r' : refresh_static style r = (Ok tt, r') ->
  sr_loaded_style r' = Some (rst_revision style) /\ sr_key r' = sr_key r.
Proof.
  unfold refresh_static. case_bool_decide as Hl; cbn [negb]; [by intros [= <-]|].
  unfold mbind, SM_bind, static_native, modify. destruct (load_style_json style (sr_renderer r)) as [[[]|e|] n1]; [|done|done].
  cbn [sr_renderer]. destruct (populate_static_slots style n1) as [[slots|e|] n2]; [|done|done]. by intros [= <-].
Qed.
Lemma refresh_tile_loaded style r r' : refresh_tile style r = (Ok tt, r') ->
  tr_loaded_style r' = Some (rst_revision style) /\ tr_key r' = tr_key r.
Proof.
  unfold refresh_tile. case_bool_decide as Hl; cbn [negb]; [by intros [= <-]|].
  unfold mbind, SM_bind, tile_native, modify. destruct (load_style_json style (tr_renderer r)) as [[[]|e|] n1]; [|done|done].
  by intros [= <-].
Qed.

Lemma ensure_static_ready key size b b' st : rk_render_mode key = RmStatic -> be_loaded_style b = Some st ->
  ensure_static_renderer key size b = (Ok tt, b') -> ready key (rst_revision st) b'.
Proof.
  intros Hk Hst. unfold ensure_static_renderer. rewrite sm_bind_eq. unfold be_style at 1. rewrite Hst. cbn [ok_or].
  rewrite sm_bind_eq.
  assert (Hgo : forall b1 r, be_active_renderer b1 = Some (ActiveStatic r) -> sr_key r = key ->
    (_ ← with_static (refresh_static st); with_static (static_native (modify (nat_set_map_size size)))) b1 = (Ok tt, b') ->
    ready key (rst_revision st) b').
  { intros b1 r Hr Hkey. rewrite sm_bind_eq. unfold with_static at 1. rewrite Hr.
    destruct (refresh_static st r) as [[[]|e|] r'] eqn:Hrf; [|done|done]. intros [= <-].
    destruct (refresh_static_loaded _ _ _ Hrf) as [H1 H2]. unfold ready. cbn. split_and!; congruence. }
  destruct (static_needs_rebuild key (be_active_renderer b)) eqn:Hn.
  - rewrite sm_bind_eq. unfold lift at 1. destruct (build_renderer key size) as [n|e|]; [|done|done].
    rewrite sm_bind_eq. unfold lift at 1. rewrite sm_bind_eq.
    destruct (load_style_json st n) as [[[]|e|] n1]; [|done|done].
    destruct (populate_static_slots st n1) as [[slots|e|] n2]; [|done|done]. cbn [set_active modify]. by eapply Hgo.
  - unfold static_needs_rebuild in Hn. destruct (be_active_renderer b) as [[r|r]|] eqn:Har; [|done|done].
    apply orb_false_elim in Hn as [Hkey _]. apply negb_false_iff, bool_decide_eq_true in Hkey. by eapply Hgo.
Qed.

Lemma ensure_tile_ready key size b b' st : rk_render_mode key = RmTile -> be_loaded_style b = Some st ->
  ensure_tile_renderer key size b = (Ok tt, b') -> ready key (rst_revision st) b'.
Proof.
  intros Hk Hst. unfold ensure_tile_renderer. rewrite sm_bind_eq. unfold be_style at 1. rewrite Hst. cbn [ok_or].
  rewrite sm_bind_eq.
  assert (Hgo : forall b1 r, be_active_renderer b1 = Some (ActiveTile r) -> tr_key r = key ->
    (_ ← with_tile (refresh_tile st); with_tile (tile_native (modify (nat_set_map_size size)))) b1 = (Ok tt, b') ->
    ready key (rst_revision st) b').
  { intros b1 r Hr Hkey. rewrite sm_bind_eq. unfold with_tile at 1. rewrite Hr.
    destruct (refresh_tile st r) as [[[]|e|] r'] eqn:Hrf; [|done|done]. intros [= <-].
    destruct (refresh_tile_loaded _ _ _ Hrf) as [H1 H2]. unfold ready. cbn. split_and!; congruence. }
  destruct (tile_needs_rebuild key (be_active_renderer b)) eqn:Hn.
  - rewrite sm_bind_eq. unfold lift at 1. destruct (build_renderer key size) as [n|e|]; [|done|done].
    rewrite sm_bind_eq. unfold lift at 1.
    destruct (load_style_json st n) as [[[]|e|] n1]; [|done|done]. cbn [set_active modify]. by eapply Hgo.
  - unfold tile_needs_rebuild in Hn. destruct (be_active_renderer b) as [[r|r]|] eqn:Har; [done| |done].
    apply negb_false_iff, bool_decide_eq_true in Hn. by eapply Hgo.
Qed.

Lemma ensure_task_ready task b b' st : be_loaded_style b = Some st ->
  ensure_renderer_for_task task b = (Ok tt, b') -> ready (key_of task) (rst_revision st) b'.
Proof.
  intros Hst. unfold ensure_renderer_for_task, key_of. destruct (rv_request task) as [z x y size|? w h ? ? ? ?];
    rewrite sm_bind_eq; unfold lift, render_size; (destruct (_ || _); [done|]).
  - by apply ensure_tile_ready.
  - by apply ensure_static_ready.
Qed.

(** A ready renderer is used as it is: nothing is loaded. *)
Lemma ensure_ready_noop task b b' st : be_loaded_style b = Some st ->
  ready (key_of task) (rst_revision st) b -> slots_intact b ->
  ensure_renderer_for_task task b = (Ok tt, b') ->
  active_doc b' = active_doc b /\ be_loaded_style b' = Some st /\ slots_intact b'.
Proof.
  intros Hst Hr Hs. unfold ensure_renderer_for_task, key_of in *.
  destruct (rv_request task) as [z x y size|? w h ? ? ? ?] eqn:Hreq; cbn [render_mode] in Hr;
    rewrite sm_bind_eq; unfold lift, render_size; (destruct (_ || _); [done|]).
  - unfold ensure_tile_renderer. rewrite sm_bind_eq. unfold be_style at 1. rewrite Hst. cbn [ok_or]. rewrite sm_bind_eq.
    unfold ready in Hr. destruct (be_active_renderer b) as [[r|r]|] eqn:Ha; [by destruct Hr| |done].
    destruct Hr as (_ & Hk & Hl). unfold tile_needs_rebuild. rewrite Hk, bool_decide_true by done. cbn [negb].
    rewrite sm_bind_eq. unfold with_tile at 1. rewrite Ha. unfold refresh_tile. rewrite Hl, bool_decide_true by done.
    cbn. intros [= <-]. unfold active_doc. cbn. rewrite Ha, size_doc. done.
  - unfold ensure_static_renderer. rewrite sm_bind_eq. unfold be_style at 1. rewrite Hst. cbn [ok_or]. rewrite sm_bind_eq.
    unfold ready in Hr. unfold slots_intact in Hs. destruct (be_active_renderer b) as [[r|r]|] eqn:Ha; [|by destruct Hr|done].
    destruct Hr as (_ & Hk & Hl). unfold static_needs_rebuild. rewrite Hk, bool_decide_true, Hs by done. cbn [negb orb].
    rewrite sm_bind_eq. unfold with_static at 1. rewrite Ha. unfold refresh_static. rewrite Hl, bool_decide_true by done.
    cbn. intros [= <-]. unfold active_doc. cbn. rewrite Ha, size_doc. done.
Qed.

Lemma render_ready_doc task b b' st o : be_loaded_style b = Some st ->
  ready (key_of task) (rst_revision st) b -> slots_intact b -> be_render task b = (Ok o, b') -> active_doc b' = active_doc b.
Proof.
  intros Hst Hr Hs. unfold be_render. rewrite sm_bind_eq.
  destruct (ensure_renderer_for_task task b) as [[[]|e|] b1] eqn:He; [|done|done].
  destruct (ensure_ready_noop task b b1 st Hst Hr Hs He) as [Hd _]. rewrite sm_bind_eq.
  destruct (draw_doc task b1) as [Hd1 _]. destruct (draw task b1) as [[[image d]|e|] b2]; [|done|done].
  rewrite sm_bind_eq. unfold lift. destruct (map_err RenderFailed _); [|done|done]. intros [= _ <-]. cbn in Hd1. congruence.
Qed.

Lemma load_profile_ok style task a a' : actor_load_profile style task a = (inl tt, a') ->
  exists b', ensure_renderer_for_task task
    {| be_loaded_style := Some style; be_active_renderer := be_active_renderer (ac_backend a) |} = (Ok tt, b') /\
    a' = {| ac_loaded := Some (rst_revision style); ac_backend := b' |}.
Proof.
  unfold actor_load_profile, catch_backend_unwind, be_load_profile. rewrite sm_bind_eq. cbn [modify].
  destruct (ensure_renderer_for_task task _) as [[[]|e|] b']; [|done|done]. intros [= <-]. by exists b'.
Qed.
End Renderer.


(** ** Witnesses *)

(** A native renderer that draws its document as bytes. *)
Definition demo_native : Native (Json := unit) (N := option string) (Slots := unit) (Sources := unit) (Image := option string) := {|
  nat_build _ _ := None;
  nat_load_style json _ := (Ok tt, Some json);
  nat_populate_slots n := (Ok tt, n);
  nat_set_map_size _ n := n;
  slots_need_rebuild _ := false;
  addlayer_cache_new := tt;
  nat_render_tile _ _ _ n := (Ok n, n);
  nat_render_static _ s := (Ok (s.1.1, None), s);
  nat_encode_image image format :=
    Ok {| out_bytes := Z.of_N ∘ Ascii.N_of_ascii <$> String.list_ascii_of_string (default "" image); out_format := format |} |}.

Lemma demo_native_laws : NativeLaws (H := demo_native) (fun n => n).
Proof. split; [by intros json n n' [= <-]|done..]. Qed.

Definition demo_style (json : string) : ResolvedStyle :=
  {| rst_revision := {| sr_id := "demo/base"; sr_version := 1 |}; rst_style_json := json |}.
Definition demo_view : RenderTaskView := RenderTaskView_from demo_task.


Definition credential (n : Z) : RenderAuthorization :=
  {| readable_namespaces := {| namespaces := ["demo"] |}; cache_partition := [n];
     provider_bearer_token := {| token := "t" |} |}.
Definition demo_credential_task (n : Z) : InternalTask unit :=
  {| t_id := n; t_request_id := "r"; t_authorization := Some (credential n);
     t_style := t_style demo_task; t_source := None; t_request := t_request demo_task;
     t_pixel_ratio := t_pixel_ratio demo_task; t_output_format := Png; t_arrived_at := 0;
     t_deadline := 2000000000; t_forwarding_hops := 0 |}.
Definition demo_credential_cmd (n : Z) (json : string) : Input unit :=
  Received (Some (CmdProcess {| pc_task := demo_credential_task n;
    pc_prepared_profile := Some {| pp_revision := t_style demo_task; pp_authorization_partition := Some [n];
      pp_style_json := json; pp_addlayer_source := None |};
    pc_route_tier := Tier1WarmTracking; pc_admitted_at_overflow := false |})).

(** End to end: a worker over this renderer sets up the style of the second
    credential, and still answers with the map of the first one's document. *)
Example second_credential_gets_first_document :
  let w := {| mw_clock := 0; mw_renderer := MapLibreRenderer_new 0 (Supervisor_new 1); mw_oracles := [] |} in
  let s := (@worker_loop _ _ (@maplibre_world _ _ _ _ _ demo_native "") "n" 0
    [demo_credential_cmd 1 "A"; demo_credential_cmd 2 "B"] (worker_init w 4)).2 in
  (fun o => match to_result o with Completed i output => (ci_style_swap i, out_bytes output) | _ => (false, []) end)
    <$> answers (ws_events s) = [(true, [65]); (true, [65])].
Proof. vm_compute. reflexivity. Qed.
