(* ===== verification/ActorThreads.v ===== *)
(** * Threads of renderer actors

    The life of actor threads in [servers/biei/src/renderer/actor/protocol.rs]
    ([try_abandon], [ActorThreadExit::drop]) and of slots in
    [renderer/maplibre.rs], as interleaved steps over the shared supervisor of
    [actor/supervisor.rs]: an owner abandons its actor while the actor's thread may
    end at any moment. Dropping an actor whose thread still runs, which happens
    when the process ends, is left out. *)

From S2P Require Import Prelude Types Renderer.

(** [THREAD_RUNNING], [THREAD_ORPHANED], [THREAD_FINISHED]. *)
Inductive ThreadStatus := StRunning | StOrphaned | StFinished.
(** The thread: alive, having seen that it is an orphan, or gone. *)
Inductive ThreadPc := Alive | ThReleasing | Exited.
(** The owner: holds the actor, holds a reservation before the exchange, gives the
    reservation back, or has let go of the thread. *)
Inductive OwnerPc := Owning | OwReserved | OwReleasing | LetGo.
#[export] Instance ThreadStatus_eq_dec : EqDecision ThreadStatus.
Proof. solve_decision. Defined.
#[export] Instance ThreadPc_eq_dec : EqDecision ThreadPc.
Proof. solve_decision. Defined.
#[export] Instance OwnerPc_eq_dec : EqDecision OwnerPc.
Proof. solve_decision. Defined.

Record ActorThread := { at_worker : WorkerId; at_status : ThreadStatus; at_thread : ThreadPc; at_owner : OwnerPc }.

(** The supervisor, the [slot_available] flag of every renderer, and all threads. *)
Record Slots := { sl_sup : Supervisor; sl_flags : list bool; sl_threads : list ActorThread }.

Definition put (i : nat) (a : ActorThread) (sup : Supervisor) (s : Slots) : Slots :=
  {| sl_sup := sup; sl_flags := sl_flags s; sl_threads := <[i := a]> (sl_threads s) |}.

Inductive slot_step : Slots -> Slots -> Prop :=
  | st_spawn s w :
      slot_step s {| sl_sup := sl_sup s; sl_flags := sl_flags s;
        sl_threads := sl_threads s ++ [{| at_worker := w; at_status := StRunning; at_thread := Alive; at_owner := Owning |}] |}
  (** The thread has ended: the owner joins it. *)
  | st_join s i w :
      sl_threads s !! i = Some {| at_worker := w; at_status := StFinished; at_thread := Exited; at_owner := Owning |} ->
      slot_step s (put i {| at_worker := w; at_status := StFinished; at_thread := Exited; at_owner := LetGo |} (sl_sup s) s)
  | st_reserve s i w status thread sup :
      sl_threads s !! i = Some {| at_worker := w; at_status := status; at_thread := thread; at_owner := Owning |} ->
      try_reserve_orphan w (sl_sup s) = (true, sup) ->
      slot_step s (put i {| at_worker := w; at_status := status; at_thread := thread; at_owner := OwReserved |} sup s)
  | st_detach s i w thread :
      sl_threads s !! i = Some {| at_worker := w; at_status := StRunning; at_thread := thread; at_owner := OwReserved |} ->
      slot_step s (put i {| at_worker := w; at_status := StOrphaned; at_thread := thread; at_owner := LetGo |} (sl_sup s) s)
  | st_late s i w thread :
      sl_threads s !! i = Some {| at_worker := w; at_status := StFinished; at_thread := thread; at_owner := OwReserved |} ->
      slot_step s (put i {| at_worker := w; at_status := StFinished; at_thread := thread; at_owner := OwReleasing |} (sl_sup s) s)
  | st_give_back s i w status thread :
      sl_threads s !! i = Some {| at_worker := w; at_status := status; at_thread := thread; at_owner := OwReleasing |} ->
      slot_step s (put i {| at_worker := w; at_status := status; at_thread := thread; at_owner := LetGo |}
        (release_orphan w (sl_sup s)) s)
  (** The thread ends and swaps its status. *)
  | st_exit s i w status owner :
      sl_threads s !! i = Some {| at_worker := w; at_status := status; at_thread := Alive; at_owner := owner |} ->
      slot_step s (put i {| at_worker := w; at_status := StFinished;
        at_thread := if bool_decide (status = StOrphaned) then ThReleasing else Exited; at_owner := owner |} (sl_sup s) s)
  | st_released s i w status owner :
      sl_threads s !! i = Some {| at_worker := w; at_status := status; at_thread := ThReleasing; at_owner := owner |} ->
      slot_step s (put i {| at_worker := w; at_status := status; at_thread := Exited; at_owner := owner |}
        (release_orphan w (sl_sup s)) s)
  (** A renderer loses or regains its slot. *)
  | st_slot s i available next flag sup :
      sl_flags s !! i = Some available -> set_slot_available available next (sl_sup s) = (flag, sup) ->
      slot_step s {| sl_sup := sup; sl_flags := <[i := flag]> (sl_flags s); sl_threads := sl_threads s |}
  | st_record s r :
      slot_step s {| sl_sup := record_replacement r (sl_sup s); sl_flags := sl_flags s; sl_threads := sl_threads s |}.

Definition slots_init (n : nat) : Slots :=
  {| sl_sup := Supervisor_new (Z.of_nat n); sl_flags := replicate n true; sl_threads := [] |}.
Definition slots_reachable (n : nat) : Slots -> Prop := rtc slot_step (slots_init n).

(** ** Accounting *)

(** The thread was let go of and has not given its place back. *)
Definition orphan (a : ActorThread) : bool :=
  bool_decide (at_status a = StOrphaned) || bool_decide (at_thread a = ThReleasing).
(** It accounts for a place of the budget. *)
Definition holds_place (a : ActorThread) : bool :=
  orphan a || bool_decide (at_owner a = OwReserved) || bool_decide (at_owner a = OwReleasing).
Definition places_of (w : WorkerId) (a : ActorThread) : bool := holds_place a && (at_worker a =? w).

Definition actor_thread_ok (a : ActorThread) : Prop :=
  match at_status a, at_thread a, at_owner a with
  | StRunning, Alive, (Owning | OwReserved) => True
  | StOrphaned, Alive, LetGo => True
  | StFinished, ThReleasing, LetGo => True
  | StFinished, Exited, _ => True
  | _, _, _ => False
  end.

Record slots_inv (n : nat) (s : Slots) : Prop := {
  si_threads : Forall actor_thread_ok (sl_threads s);
  si_total : sv_total_slots (sl_sup s) = Z.of_nat n /\ sv_max_orphaned_threads (sl_sup s) = Z.of_nat n;
  si_orphaned : sv_orphaned_threads (sl_sup s) = count holds_place (sl_threads s);
  si_bound : count holds_place (sl_threads s) <= Z.of_nat n;
  si_worker w : count (places_of w) (sl_threads s) <= 1 /\
    sv_orphaned_by_worker (sl_sup s) !! w = if count (places_of w) (sl_threads s) =? 0 then None else Some 1;
  si_flags : length (sl_flags s) = n /\ sv_available_slots (sl_sup s) = count (fun b => b) (sl_flags s) }.

Section Slots.
Context (n : nat) (Hn : 1 <= Z.of_nat n <= usize_max).

(** A step of one thread that keeps its place. *)
Lemma put_same s i a a' :
  slots_inv n s -> sl_threads s !! i = Some a -> actor_thread_ok a' -> at_worker a' = at_worker a ->
  holds_place a' = holds_place a -> slots_inv n (put i a' (sl_sup s) s).
Proof.
  intros [H1 H2 H3 H4 H5 H6] Hi Hok Hw Hh. split; cbn; [by apply Forall_insert|done| | | |done].
  - rewrite (count_insert _ _ _ _ _ Hi), Hh. lia.
  - rewrite (count_insert _ _ _ _ _ Hi), Hh. lia.
  - intros w. rewrite (count_insert _ _ _ _ _ Hi). unfold places_of at 2 3 5 6. rewrite Hh, Hw.
    replace (count (places_of w) (sl_threads s) - _ + _) with (count (places_of w) (sl_threads s)) by lia. apply H5.
Qed.

Lemma put_reserved s i a a' sup :
  slots_inv n s -> sl_threads s !! i = Some a -> actor_thread_ok a' -> at_worker a' = at_worker a ->
  holds_place a = false -> holds_place a' = true ->
  try_reserve_orphan (at_worker a) (sl_sup s) = (true, sup) -> slots_inv n (put i a' sup s).
Proof.
  intros [H1 H2 H3 H4 H5 H6] Hi Hok Hw Hh Hh' Hr. unfold try_reserve_orphan in Hr.
  destruct (bool_decide _ || _) eqn:Hb; [done|]. injection Hr as <-. apply orb_false_elim in Hb as [Hb1 Hb2].
  apply bool_decide_eq_false in Hb1. bool_props. pose proof (count_pos holds_place (sl_threads s)).
  rewrite wrapping_add_small by (unfold is_u, usize_max in *; lia).
  assert (H0 : count (places_of (at_worker a)) (sl_threads s) = 0).
  { destruct (H5 (at_worker a)) as [_ Hm]. rewrite Hm in Hb1. destruct (_ =? 0) eqn:He; bool_props; [done|].
    destruct Hb1. by eexists. }
  assert (Hc : count holds_place (<[i := a']> (sl_threads s)) = count holds_place (sl_threads s) + 1)
    by (rewrite (count_insert _ _ _ _ _ Hi), Hh, Hh'; cbn [Z.b2z]; lia).
  split; cbn; [by apply Forall_insert|done|lia|lia| |done].
  intros w. rewrite (count_insert _ _ _ _ _ Hi). unfold places_of at 2 3 5 6. rewrite Hh, Hh', Hw. cbn [andb Z.b2z].
  destruct (at_worker a =? w) eqn:He; bool_props.
  - subst w. rewrite H0, lookup_insert. by case_decide.
  - rewrite lookup_insert_ne by done. cbn [Z.b2z]. rewrite Z.sub_0_r, Z.add_0_r. apply H5.
Qed.

Lemma put_released s i a a' :
  slots_inv n s -> sl_threads s !! i = Some a -> actor_thread_ok a' -> at_worker a' = at_worker a ->
  holds_place a = true -> holds_place a' = false ->
  slots_inv n (put i a' (release_orphan (at_worker a) (sl_sup s)) s).
Proof.
  intros [H1 H2 H3 H4 H5 H6] Hi Hok Hw Hh Hh'.
  assert (Hp : places_of (at_worker a) a = true) by (unfold places_of; by rewrite Hh, Z.eqb_refl).
  pose proof (count_ge _ _ _ _ Hi Hh) as Hge. pose proof (count_ge _ _ _ _ Hi Hp) as Hge'.
  assert (H0 : count (places_of (at_worker a)) (sl_threads s) = 1) by (destruct (H5 (at_worker a)); lia).
  assert (Hm : sv_orphaned_by_worker (sl_sup s) !! at_worker a = Some 1).
  { destruct (H5 (at_worker a)) as [_ Hm]. by rewrite H0 in Hm. }
  unfold release_orphan. rewrite Hm.
  change (wrapping_sub 1 1) with 0. cbn [Z.eqb]. rewrite wrapping_sub_small by (unfold is_u, usize_max in *; lia).
  assert (Hc : count holds_place (<[i := a']> (sl_threads s)) = count holds_place (sl_threads s) - 1)
    by (rewrite (count_insert _ _ _ _ _ Hi), Hh, Hh'; cbn [Z.b2z]; lia).
  split; cbn; [by apply Forall_insert|done|lia|lia| |done].
  intros w. rewrite (count_insert _ _ _ _ _ Hi). unfold places_of at 2 3 5 6. rewrite Hh, Hh', Hw. cbn [andb Z.b2z].
  destruct (at_worker a =? w) eqn:He; bool_props.
  - subst w. rewrite H0, lookup_delete. by case_decide.
  - rewrite lookup_delete_ne by done. cbn [Z.b2z]. rewrite Z.sub_0_r, Z.add_0_r. apply H5.
Qed.

Lemma slot_step_inv s s' : slots_inv n s -> slot_step s s' -> slots_inv n s'.
Proof.
  intros Hs Hstep.
  assert (Hok : forall i a, sl_threads s !! i = Some a -> actor_thread_ok a).
  { intros i a Hi. by eapply (Forall_lookup_1 _ _ _ _ (si_threads _ _ Hs)). }
  destruct Hstep as [s w|s i w Hi|s i w status thread sup Hi Hr|s i w thread Hi|s i w thread Hi|s i w status thread Hi
    |s i w status owner Hi|s i w status owner Hi|s i available next flag sup Hi Hr|s r]; try specialize (Hok _ _ Hi).
  - destruct Hs as [H1 H2 H3 H4 H5 H6].
    set (a := {| at_worker := w; at_status := StRunning; at_thread := Alive; at_owner := Owning |}).
    assert (Hc : forall f : ActorThread -> bool, f a = false -> count f (sl_threads s ++ [a]) = count f (sl_threads s)).
    { intros f Hf. rewrite count_snoc, Hf. cbn [Z.b2z]. lia. }
    split; cbn [sl_threads sl_sup sl_flags]; [|done| | | |done].
    + apply Forall_app. split; [done|by constructor].
    + by rewrite Hc.
    + by rewrite Hc.
    + intros w'. rewrite Hc; [apply H5|done].
  - by eapply put_same.
  - destruct status, thread; try done; by eapply put_reserved.
  - destruct thread; try done; by eapply put_same.
  - destruct thread; try done; by eapply put_same.
  - destruct status, thread; try done; by eapply (put_released s i _ _ Hs Hi).
  - destruct status, owner; try done; by eapply put_same.
  - destruct status, owner; try done; by eapply (put_released s i _ _ Hs Hi).
  - destruct Hs as [H1 H2 H3 H4 H5 [H6 H7]]. unfold set_slot_available in Hr.
    pose proof (count_le_length (fun b : bool => b) (sl_flags s)) as Hle.
    destruct (Bool.eqb available next) eqn:He.
    + injection Hr as <- <-. split; cbn; try done. rewrite length_insert, (count_insert _ _ _ _ _ Hi). split; [done|lia].
    + injection Hr as <- <-. split; cbn; try done. rewrite length_insert, (count_insert _ _ _ _ _ Hi). split; [done|].
      destruct available, next; try done; cbn [Z.b2z].
      * pose proof (count_ge (fun b : bool => b) _ _ _ Hi eq_refl).
        rewrite wrapping_sub_small by (unfold is_u, usize_max in *; lia). lia.
      * assert (Hlt : count (fun b : bool => b) (<[i := true]> (sl_flags s)) <= Z.of_nat n).
        { pose proof (count_le_length (fun b : bool => b) (<[i := true]> (sl_flags s))) as Hl.
          rewrite length_insert in Hl. lia. }
        rewrite (count_insert _ _ _ _ _ Hi) in Hlt. cbn [Z.b2z] in Hlt.
        pose proof (count_pos (fun b : bool => b) (sl_flags s)).
        rewrite wrapping_add_small by (unfold is_u, usize_max in *; lia). lia.
  - destruct Hs as [H1 H2 H3 H4 H5 H6]. by split.
Qed.

Lemma slots_reachable_inv s : slots_reachable n s -> slots_inv n s.
Proof.
  intros Hr. assert (H0 : slots_inv n (slots_init n)).
  { split; cbn; [done|lia|done|unfold count; cbn; lia|by intros w|].
    rewrite length_replicate. split; [done|]. unfold count.
    assert (Hf : List.filter (fun b : bool => b) (replicate n true) = replicate n true).
    { clear. induction n as [|m IH]; [done|]. cbn. by rewrite IH. }
    rewrite Hf, length_replicate. lia. }
  unfold slots_reachable in Hr. remember (slots_init n) as s0 eqn:E. clear E.
  induction Hr as [|s1 s2 s3 Hs _ IH]; [done|]. by apply IH, (slot_step_inv s1).
Qed.
End Slots.

Lemma orphan_places l : count orphan l <= count holds_place l.
Proof.
  unfold count, holds_place. induction l as [|x l IH]; [done|]. cbn [List.filter].
  destruct (orphan x); cbn [orb length]; [lia|]. destruct (_ || _); cbn [length]; lia.
Qed.

(** [C30] Abandoned native threads are bounded and the budget never leaks. In every
    interleaving of abandonments and ending threads, the threads that were let go
    of and still run are at most [orphaned_threads], which is exactly the number of
    places taken, never more than the slots of the node, with at most one per
    worker; when no place is taken the counter and the per-worker table are empty
    again. Render admission is open exactly while some renderer has its slot, and
    health is full exactly while all have. *)
Theorem orphans_bounded n s (Hn : 1 <= Z.of_nat n <= usize_max) (Hs : slots_reachable n s) :
  count orphan (sl_threads s) <= sv_orphaned_threads (sl_sup s) <= Z.of_nat n /\
  sv_orphaned_threads (sl_sup s) = count holds_place (sl_threads s) /\
  (forall w, count (places_of w) (sl_threads s) <= 1) /\
  (Forall (fun a => holds_place a = false) (sl_threads s) ->
     sv_orphaned_threads (sl_sup s) = 0 /\ sv_orphaned_by_worker (sl_sup s) = ∅) /\
  sv_can_start_render (sl_sup s) = existsb (fun b => b) (sl_flags s) /\
  (forall evidence, sv_health evidence (sl_sup s) = Full <-> Forall (fun b => b = true) (sl_flags s)).
Proof.
  apply slots_reachable_inv in Hs as [H1 [H2 H2'] H3 H4 H5 [H6 H7]]; [|done].
  pose proof (orphan_places (sl_threads s)). split_and!; [lia|lia|done|intros w; apply H5| | |].
  - intros Hz. assert (Hw : forall w, count (places_of w) (sl_threads s) = 0).
    { intros w. apply count_zero. eapply Forall_impl; [exact Hz|]. cbn. intros a Ha. unfold places_of. by rewrite Ha. }
    apply count_zero in Hz. split; [lia|]. apply map_empty. intros w. destruct (H5 w) as [_ ->]. by rewrite Hw.
  - unfold sv_can_start_render. rewrite H7. destruct (existsb _ _) eqn:He.
    + apply existsb_exists in He as (b & Hb & ->). apply list_elem_of_In, list_elem_of_lookup in Hb as [i Hi].
      pose proof (count_ge (fun b : bool => b) _ _ _ Hi eq_refl). apply Z.ltb_lt. lia.
    + apply Z.ltb_ge. enough (count (fun b : bool => b) (sl_flags s) = 0) by lia. apply count_zero, Forall_forall.
      intros b Hb%list_elem_of_In. apply not_true_iff_false. intros ->.
      by rewrite (proj2 (existsb_exists _ _)) in He by (by exists true).
  - intros evidence. unfold sv_health. rewrite H2, H7, <- H6. clear.
    assert (Hf : count (fun b : bool => b) (sl_flags s) = Z.of_nat (length (sl_flags s)) <->
      Forall (fun b => b = true) (sl_flags s)).
    { induction (sl_flags s) as [|b l IH]; [done|]. rewrite Forall_cons, <- IH. unfold count. cbn [List.filter].
      pose proof (count_le_length (fun b : bool => b) l) as Hl. unfold count in Hl. destruct b; cbn [length]; [lia|].
      split; [lia|by intros [? _]]. }
    rewrite <- Hf. destruct (_ =? _) eqn:He; bool_props; [done|]. destruct evidence; split; try done; lia.
Qed.

(** A worker of a two-slot node abandons its actor, whose thread ends meanwhile. *)
Definition demo_thread (status : ThreadStatus) (thread : ThreadPc) (owner : OwnerPc) : ActorThread :=
  {| at_worker := 7; at_status := status; at_thread := thread; at_owner := owner |}.
Definition demo_slots : Slots :=
  {| sl_sup := with_orphans 1 {[7 := 1]} (Supervisor_new 2); sl_flags := [true; true];
     sl_threads := [demo_thread StFinished Exited OwReserved] |}.

Lemma demo_slots_reachable : slots_reachable 2 demo_slots.
Proof.
  eapply rtc_l; [apply (st_spawn _ 7)|].
  eapply rtc_l; [eapply (st_reserve _ 0); reflexivity|].
  eapply rtc_l; [eapply (st_exit _ 0); reflexivity|].
  apply rtc_refl.
Qed.

Lemma orphans_bounded_witness :
  sv_orphaned_threads (sl_sup demo_slots) = 1 /\ count orphan (sl_threads demo_slots) <= 1 <= 2.
Proof.
  destruct (orphans_bounded 2 demo_slots) as (H1 & _); [by vm_compute|apply demo_slots_reachable|]. split; [done|exact H1].
Defined.
