(* ===== verification/PeerRouting.v ===== *)
(** * Placement of resources on the peers of an Ishikari cluster

    Models [crates/ishikari-core/src/storage/routing.rs] (rendezvous routing of a
    tile group) and [crates/ishikari-core/src/cluster_metadata.rs] (the routable
    peers of a membership view).

    The hasher is the parameter [xxhash64]: the value of [XxHash64] after a
    sequence of writes. A socket address and its parser are parameters too: the
    router only copies addresses. [std::collections::BinaryHeap] is the list of
    its elements; [pop] removes a greatest one. *)

From S2P Require Import Prelude StdModel.

(** What [core::hash::Hasher] is fed. *)
Inductive HasherWrite : Type :=
  | WriteBytes (bytes : string)
  | WriteU8 (value : Z)
  | WriteU64 (value : Z).

(** ** [BinaryHeap] *)

Section BinaryHeap.
Context {A : Type} (cmp : A -> A -> comparison).

Definition heap_push (x : A) (heap : list A) : list A := x :: heap.
Definition into_sorted_vec (heap : list A) : list A := sort_by cmp heap.
Definition heap_pop (heap : list A) : list A := removelast (into_sorted_vec heap).
End BinaryHeap.

(** ** Sorting facts *)

Section SortFacts.
Context {A : Type} (cmp : A -> A -> comparison) `{!TotalPreorderCmp cmp}.

(** No two elements of the list tie. *)
Definition separated (l : list A) : Prop :=
  forall x y, x ∈ l -> y ∈ l -> cmp x y = Eq -> x = y.

Lemma take_insert_by n x (l : list A) :
  take n (insert_by cmp x (take n l)) = take n (insert_by cmp x l).
Proof.
  revert n. induction l as [|y l IH]; intros [|n]; try done. cbn.
  destruct (cmp x y); cbn.
  - destruct n; [done|]. cbn. rewrite take_take. do 3 f_equal. lia.
  - destruct n; [done|]. cbn. rewrite take_take. do 3 f_equal. lia.
  - f_equal. apply IH.
Qed.

Lemma length_insert_by x (l : list A) : length (insert_by cmp x l) = S (length l).
Proof. by rewrite insert_by_perm. Qed.

Lemma length_sort_by (l : list A) : length (sort_by cmp l) = length l.
Proof. by rewrite sort_by_perm. Qed.

Lemma separated_subset (l l' : list A) :
  separated l -> (forall x, x ∈ l' -> x ∈ l) -> separated l'.
Proof. intros Hl Hsub x y Hx Hy. apply Hl; by apply Hsub. Qed.

Lemma sort_by_id (l : list A) : separated l -> StronglySorted (cmp_le cmp) l -> sort_by cmp l = l.
Proof.
  intros Hsep Hl. apply (sorted_unique cmp); [apply sort_by_perm|apply sort_by_sorted, _|done|].
  intros x y. rewrite !sort_by_elem. apply Hsep.
Qed.

Lemma sorted_take n (l : list A) : StronglySorted (cmp_le cmp) l -> StronglySorted (cmp_le cmp) (take n l).
Proof. intros H. rewrite <- (take_drop n l) in H. by apply StronglySorted_app_1_l in H. Qed.

Lemma sorted_filter P (l : list A) :
  StronglySorted (cmp_le cmp) l -> StronglySorted (cmp_le cmp) (List.filter P l).
Proof.
  induction 1 as [|x l Hl IH Hx]; cbn; [constructor|]. destruct (P x); [|done].
  constructor; [done|]. rewrite Forall_forall in *. intros y Hy. apply Hx.
  apply list_elem_of_In, filter_In in Hy as [Hy _]. by apply list_elem_of_In.
Qed.

Lemma kept_perm P (l l' : list A) : l ≡ₚ l' -> List.filter P l ≡ₚ List.filter P l'.
Proof.
  induction 1 as [|x l l' _ IH|x y l|l l' k _ IH _ IH']; cbn; [done| | |by etrans].
  - destruct (P x); [by rewrite IH|done].
  - destruct (P x), (P y); try done. apply perm_swap.
Qed.

Lemma sort_by_filter P (l : list A) :
  separated l -> sort_by cmp (List.filter P l) = List.filter P (sort_by cmp l).
Proof.
  intros Hsep. apply (sorted_unique cmp).
  - rewrite sort_by_perm. apply kept_perm. by rewrite sort_by_perm.
  - apply sort_by_sorted, _.
  - apply sorted_filter, sort_by_sorted, _.
  - apply (separated_subset l); [done|]. intros x. rewrite sort_by_elem.
    intros [Hx _]%list_elem_of_In%filter_In. by apply list_elem_of_In.
Qed.

(** What stays of a head comes first in the head of what stays. *)
Lemma filter_take_prefix P k (l : list A) :
  List.filter P (take k l) `prefix_of` take k (List.filter P l).
Proof.
  revert k. induction l as [|x l IH]; intros [|k]; cbn; try apply prefix_nil.
  destruct (P x); cbn; [by apply prefix_cons|].
  etrans; [apply IH|]. replace k with (k `min` S k)%nat at 1 by lia. rewrite <- take_take. apply prefix_take.
Qed.

(** The heap bounded to [k] elements holds the [k] first of the sorted list. *)
Lemma bounded_heap k (l : list A) :
  separated l ->
  sort_by cmp (foldl (fun h x => let h := heap_push x h in
                       if (k <? length h)%nat then heap_pop cmp h else h) [] l) =
  take k (sort_by cmp l).
Proof.
  induction l as [|x l IH] using rev_ind; intros Hsep; [by destruct k|].
  rewrite foldl_snoc. cbv zeta.
  assert (Hl : separated l) by (apply (separated_subset (l ++ [x])); set_solver).
  specialize (IH Hl). cbv zeta in IH. set (h := foldl _ [] l) in *.
  assert (Hs : sort_by cmp (l ++ [x]) = insert_by cmp x (sort_by cmp l)).
  { rewrite (sort_by_perm_eq cmp (l ++ [x]) (x :: l)); [done| |done].
    by rewrite Permutation_app_comm. }
  assert (Hx : sort_by cmp (heap_push x h) = insert_by cmp x (take k (sort_by cmp l))).
  { unfold heap_push. cbn. by rewrite <- IH. }
  assert (Hlen : length h = min k (length l)).
  { by rewrite <- length_sort_by, IH, length_take, length_sort_by. }
  rewrite Hs, <- take_insert_by, <- Hx.
  change (length (heap_push x h)) with (S (length h)).
  destruct (Nat.ltb_spec k (S (length h))) as [Hk|Hk].
  - unfold heap_pop, into_sorted_vec. rewrite removelast_firstn_len, length_sort_by.
    change (length (heap_push x h)) with (S (length h)).
    replace (pred (S (length h))) with k by lia.
    apply sort_by_id; [|apply sorted_take, sort_by_sorted, _].
    apply (separated_subset (l ++ [x])); [done|]. intros y Hy. rewrite Hx in Hy.
    apply elem_of_take in Hy as (i & Hi & _). apply list_elem_of_lookup_2 in Hi.
    rewrite insert_by_perm in Hi. apply elem_of_cons in Hi as [->|Hi]; [set_solver|].
    apply elem_of_take in Hi as (j & Hj & _). apply list_elem_of_lookup_2 in Hj.
    rewrite sort_by_elem in Hj. set_solver.
  - rewrite take_ge; [done|]. rewrite length_sort_by. change (length (heap_push x h)) with (S (length h)). lia.
Qed.
End SortFacts.

(** ** Peers *)

Record Peer (SocketAddr : Type) := { peer_id : string; peer_addr : SocketAddr }.
Arguments peer_id {SocketAddr} p.
Arguments peer_addr {SocketAddr} p.
Arguments Build_Peer {SocketAddr}.

Record ScoredPeer (SocketAddr : Type) := { sp_score : Z; sp_peer : Peer SocketAddr }.
Arguments sp_score {SocketAddr} s.
Arguments sp_peer {SocketAddr} s.
Arguments Build_ScoredPeer {SocketAddr}.

Record HrwRouter := { hr_candidate_count : Z; hr_tile_group_size : Z }.

Definition HrwRouter_new (candidate_count tile_group_size : Z) : HrwRouter :=
  {| hr_candidate_count := Z.max candidate_count 1; hr_tile_group_size := Z.max tile_group_size 1 |}.

Section Routing.
Context {SocketAddr : Type} (parse_socket_addr : string -> option SocketAddr).
Context (xxhash64 : list HasherWrite -> Z).
Abbreviation Peer := (Peer SocketAddr).
Abbreviation ScoredPeer := (ScoredPeer SocketAddr).
Implicit Types (peers : list Peer) (router : HrwRouter).

Definition peer_http_addr (http_advertise_addr : option string) : option SocketAddr :=
  http_advertise_addr ≫= parse_socket_addr.

Definition project_peers (nodes : list (string * option string)) : list Peer :=
  let peers := omap (fun '(id, advertised_addr) =>
                 addr ← peer_http_addr advertised_addr;
                 Some {| peer_id := id; peer_addr := addr |}) nodes in
  sort_by (fun left right => String.compare (peer_id left) (peer_id right)) peers.

(** [Ord for ScoredPeer]: the highest score first, ties by node id. *)
Definition scored_cmp (self other : ScoredPeer) : comparison :=
  then_cmp (Z.compare (sp_score other) (sp_score self))
    (String.compare (peer_id (sp_peer self)) (peer_id (sp_peer other))).

Definition hrw_weight (tileset_id : string) (tile_group_id : Z) (node_id : string) : Z :=
  xxhash64 [WriteBytes tileset_id; WriteU8 0xff; WriteU64 tile_group_id; WriteU8 0xfe;
            WriteBytes node_id].

Definition scored_candidate (key : string) (group_id : Z) (peer : Peer) : ScoredPeer :=
  {| sp_score := hrw_weight key group_id (peer_id peer); sp_peer := peer |}.

(** One round of the loop over the peers. *)
Definition route_step router (key : string) (group_id : Z) (top_peers : list ScoredPeer)
    (peer : Peer) : list ScoredPeer :=
  let top_peers := heap_push (scored_candidate key group_id peer) top_peers in
  if Z.of_nat (length top_peers) >? hr_candidate_count router
  then heap_pop scored_cmp top_peers else top_peers.

Definition route_group router peers (key : string) (group_id : Z) : list ScoredPeer :=
  into_sorted_vec scored_cmp (foldl (route_step router key group_id) [] peers).

Definition route_tile router peers (tileset_id : string) (tile_id : Z) : list ScoredPeer :=
  route_group router peers tileset_id (tile_id `div` hr_tile_group_size router).

Definition route_key router peers (key : string) : list ScoredPeer :=
  route_group router peers key 0.

Definition route_tileset router peers (tileset_id : string) : list ScoredPeer :=
  route_tile router peers tileset_id 0.

(** ** The bounded heap keeps the head of the ranking *)

(** All peers in routing order. *)
Definition ranking (key : string) (group_id : Z) peers : list ScoredPeer :=
  sort_by scored_cmp (scored_candidate key group_id <$> peers).

#[local] Instance scored_preorder : TotalPreorderCmp scored_cmp.
Proof.
  pose proof (comap_preorder (sp_score (SocketAddr := SocketAddr)) Z.compare) as Hs.
  pose proof (flip_preorder _ (TotalPreorderCmp0 := Hs)) as Hf.
  pose proof (comap_preorder (fun x : ScoredPeer => peer_id (sp_peer x)) String.compare) as Hi.
  exact (then_preorder _ _ (TotalPreorderCmp0 := Hf) (TotalPreorderCmp1 := Hi)).
Qed.

Lemma scored_cmp_Eq (x y : ScoredPeer) :
  scored_cmp x y = Eq -> sp_score x = sp_score y /\ peer_id (sp_peer x) = peer_id (sp_peer y).
Proof.
  unfold scored_cmp, then_cmp. destruct (Z.compare_spec (sp_score y) (sp_score x)); try done.
  intros Hc. split; [done|]. exact (proj1 (kcmp_eq (K := string) _ _) Hc).
Qed.

(** Distinct node ids leave no ties. *)
Lemma candidates_separated key group_id peers :
  NoDup (peer_id <$> peers) -> separated scored_cmp (scored_candidate key group_id <$> peers).
Proof.
  intros Hnd x y Hx Hy [_ Hid]%scored_cmp_Eq.
  apply list_elem_of_fmap in Hx as (p & -> & Hp), Hy as (q & -> & Hq). cbn in Hid.
  apply list_elem_of_lookup in Hp as [i Hi], Hq as [j Hj].
  assert (i = j) as ->.
  { eapply (NoDup_lookup (peer_id <$> peers)); [done|..].
    - rewrite list_lookup_fmap, Hi. done.
    - rewrite list_lookup_fmap, Hj. cbn. by rewrite Hid. }
  by simplify_eq.
Qed.

Lemma ranking_perm key group_id peers : ranking key group_id peers ≡ₚ scored_candidate key group_id <$> peers.
Proof. apply sort_by_perm. Qed.

Lemma ranking_elem key group_id peers x :
  x ∈ ranking key group_id peers <-> exists p, p ∈ peers /\ x = scored_candidate key group_id p.
Proof. rewrite ranking_perm, list_elem_of_fmap. split; intros (p & ? & ?); eauto. Qed.

Lemma route_group_ranking router peers key group_id :
  NoDup (peer_id <$> peers) -> 0 <= hr_candidate_count router ->
  route_group router peers key group_id =
  take (Z.to_nat (hr_candidate_count router)) (ranking key group_id peers).
Proof.
  intros Hnd Hk. unfold route_group, into_sorted_vec, ranking.
  rewrite <- (bounded_heap scored_cmp) by (by apply candidates_separated).
  f_equal. generalize (@nil ScoredPeer) as h.
  clear Hnd. induction peers as [|p peers IH]; intros h; [done|]. cbn. rewrite <- IH. f_equal.
  unfold route_step, heap_push. rewrite Z.gtb_ltb. cbv zeta. cbn [length].
  destruct (Z.ltb_spec (hr_candidate_count router) (Z.of_nat (S (length h)))),
    (Nat.leb_spec (Z.to_nat (hr_candidate_count router)) (length h)); (lia || done).
Qed.

(** Restricting the peers restricts the ranking and keeps its order. *)
Lemma ranking_filter (P : Peer -> bool) key group_id peers :
  NoDup (peer_id <$> peers) ->
  ranking key group_id (List.filter P peers) =
  List.filter (fun x => P (sp_peer x)) (ranking key group_id peers).
Proof.
  intros Hnd. unfold ranking.
  rewrite <- (sort_by_filter scored_cmp) by (by apply candidates_separated). f_equal.
  clear Hnd. induction peers as [|p peers IH]; [done|]. cbn. destruct (P p); cbn; by rewrite IH.
Qed.

(** Only nodes with a readable address are routable, each under its own id. *)
Lemma project_peers_elem nodes p :
  p ∈ project_peers nodes <->
  exists text, (peer_id p, Some text) ∈ nodes /\ parse_socket_addr text = Some (peer_addr p).
Proof.
  unfold project_peers. rewrite sort_by_elem, list_elem_of_omap. split.
  - intros ([id [text|]] & Hin & Hp); [|done]. cbn in Hp.
    destruct (parse_socket_addr text) as [addr|] eqn:Ha; [|done]. injection Hp as <-. eauto.
  - intros (text & Hin & Ha). exists (peer_id p, Some text). split; [done|]. cbn. rewrite Ha.
    by destruct p.
Qed.

Lemma project_peers_ids nodes : NoDup (fst <$> nodes) -> NoDup (peer_id <$> project_peers nodes).
Proof.
  unfold project_peers. rewrite sort_by_perm. induction nodes as [|[id adv] nodes IH]; [constructor|].
  intros [Hnin Hnd]%NoDup_cons. cbn [omap list_omap].
  destruct (peer_http_addr adv); cbn; [|by apply IH]. constructor; [|by apply IH].
  intros (p & -> & Hp)%list_elem_of_fmap. apply list_elem_of_omap in Hp as ([id' adv'] & Hin & Hp).
  destruct (peer_http_addr adv'); [|done]. injection Hp as <-. cbn in Hnin. apply Hnin.
  apply list_elem_of_fmap. by exists (id', adv').
Qed.
End Routing.
