(* ===== verification/PeerBackend.v ===== *)
(** * Requests to peers

    Models [crates/ishikari-core/src/storage/peer.rs]: the routed requests of a
    node to the owners of a resource, the backoff after retryable failures, the
    internal paths and limits, and the bootstrap wire format, whose sending side
    is [servers/ishikari/src/server/internal.rs].

    The state of a node is a type [S]; every call that waits (the directory of
    peers, the transport) is an operation on the whole state, because other tasks
    run meanwhile. The backend's own maps are a part of [S] reached through
    [ps_get] and [ps_put]. Metrics and logs are left out. *)

From S2P Require Import Prelude StdModel Types PmtilesFormat PmtilesReader TilesetSources ChunkStore PeerRouting.

(** ** Strings *)

Fixpoint ends_with (suffix s : string) : bool :=
  String.eqb s suffix || match s with EmptyString => false | String _ s' => ends_with suffix s' end.

Fixpoint str_contains (pat s : string) : bool :=
  String.prefix pat s || match s with EmptyString => false | String _ s' => str_contains pat s' end.

Lemma str_In_append c x y : str_In c (x +:+ y) <-> str_In c x \/ str_In c y.
Proof. induction x as [|a x IH]; [cbn; tauto|]. rewrite app_String. cbn. tauto. Qed.

Lemma str_contains_char c s : str_contains (String c "") s = true -> str_In c s.
Proof.
  induction s as [|a s IH]; cbn; [done|]. destruct (ascii_dec c a); [intros _; by left|]. cbn. auto.
Qed.

(** [str::replace] of one character. *)
Fixpoint replace_char (c : ascii) (by_ s : string) : string :=
  match s with
  | EmptyString => EmptyString
  | String a s' => if Ascii.eqb a c then by_ +:+ replace_char c by_ s'
                   else String a (replace_char c by_ s')
  end.

(** One digit of [{:02X}]. *)
Definition hex_digit (d : Z) : ascii :=
  ascii_of_N (Z.to_N (if d <? 10 then 48 + d else 55 + d)).

(** ** Constants *)

Definition PEER_RETRY_BACKOFF : Z := 1 * nanos_per_sec.
Definition MAX_INTERNAL_BINARY_RESPONSE_BYTES : Z := 64 * 1024 * 1024.
Definition MAX_INTERNAL_GLYPH_RESPONSE_BYTES : Z := 1024 * 1024.
Definition MAX_INTERNAL_JSON_RESPONSE_BYTES : Z := 2 * 1024 * 1024.
Definition MAX_INTERNAL_SPRITE_RESPONSE_BYTES : Z := 8 * 1024 * 1024.
Definition MAX_INTERNAL_BOOTSTRAP_RESPONSE_BYTES : Z :=
  8 + MIN_BOOTSTRAP_BYTES + DEFAULT_MAX_DECOMPRESSED_BYTES.

(** ** Provider requests *)

Inductive ProviderResourceKind := KindStyle | KindGlyph | KindSprite.
Definition kind_as_str (k : ProviderResourceKind) : string :=
  match k with KindStyle => "style" | KindGlyph => "glyph" | KindSprite => "sprite" end.

Inductive ProviderSpriteVariant := SvJson | SvPng | SvJson2x | SvPng2x.
Definition suffix (v : ProviderSpriteVariant) : string :=
  match v with SvJson => ".json" | SvPng => ".png" | SvJson2x => "@2x.json" | SvPng2x => "@2x.png" end.

Inductive ProviderResource :=
  | PrStyle (style_key : string)
  | PrGlyph (fontstack range : string)
  | PrSprite (style_key : string) (variant : ProviderSpriteVariant).

Record ProviderRequest := { pr_resource : ProviderResource; pr_upstream_url : string }.

Definition provider_kind (r : ProviderRequest) : ProviderResourceKind :=
  match pr_resource r with
  | PrStyle _ => KindStyle
  | PrGlyph _ _ => KindGlyph
  | PrSprite _ _ => KindSprite
  end.

Definition placement_key (r : ProviderRequest) : string :=
  match pr_resource r with
  | PrStyle _ => "style:" +:+ pr_upstream_url r
  | PrGlyph _ _ => "glyph:" +:+ pr_upstream_url r
  | PrSprite _ variant => "sprite:" +:+ suffix variant +:+ ":" +:+ pr_upstream_url r
  end.

Fixpoint provider_path_encode (value : string) : string :=
  match value with
  | EmptyString => EmptyString
  | String byte value =>
      let encoded := provider_path_encode value in
      if is_ascii_alphanumeric byte || Ascii.eqb byte "-" || Ascii.eqb byte "." ||
         Ascii.eqb byte "_" || Ascii.eqb byte "~" || Ascii.eqb byte ","
      then String byte encoded
      else String "%" (String (hex_digit (byte_of byte / 16)) (String (hex_digit (byte_of byte mod 16)) encoded))
  end.

Definition provider_path_encode_segments (value : string) : string :=
  String.concat "/" (provider_path_encode <$> str_split slash value).

Definition internal_path (r : ProviderRequest) : string :=
  match pr_resource r with
  | PrStyle style_key =>
      "/_internal/provider/styles/" +:+ provider_path_encode_segments style_key +:+ "/style.json"
  | PrGlyph fontstack range =>
      "/_internal/provider/fonts/" +:+ provider_path_encode fontstack +:+ "/" +:+ range +:+ ".pbf"
  | PrSprite style_key variant =>
      "/_internal/provider/styles/" +:+ provider_path_encode_segments style_key +:+ "/sprite" +:+
      suffix variant
  end.

Inductive InternalProviderNegative := NegNotFound | NegGone.
Definition negative_as_str (n : InternalProviderNegative) : string :=
  match n with NegNotFound => "not-found" | NegGone => "gone" end.
Definition negative_parse (value : string) : option InternalProviderNegative :=
  if String.eqb value "not-found" then Some NegNotFound
  else if String.eqb value "gone" then Some NegGone else None.

Inductive InternalTileSource := ItsCache | ItsBackend.
Definition tile_source_as_str (s : InternalTileSource) : string :=
  match s with ItsCache => "cache" | ItsBackend => "backend" end.
Definition tile_source_parse (value : string) : option InternalTileSource :=
  if String.eqb value "cache" then Some ItsCache
  else if String.eqb value "backend" then Some ItsBackend else None.

(** ** Responses and errors of the internal transport *)

Record InternalFetchResponse := {
  ifr_bytes : list Z;
  ifr_tile_source : option InternalTileSource;
  ifr_provider_cache_control : option string;
  ifr_provider_age_seconds : option Z;
  ifr_provider_etag : option string;
  ifr_provider_last_modified : option string;
  ifr_content_encoding : option string }.

Inductive PeerFetchError :=
  | PfNotFound
  | PfProviderNotFound
  | PfProviderGone
  | PfRetryable (message : string)
  | PfFatal (message : string).

Definition pf_is_retryable (e : PeerFetchError) : bool :=
  match e with PfRetryable _ => true | _ => false end.

Inductive ProviderRouteOutcome :=
  | RouteResource (response : InternalFetchResponse)
  | RouteNotFound
  | RouteGone.

Record BootstrapTransfer := { bt_bootstrap : list Z; bt_metadata : option (list Z) }.

(** ** Paths, deadlines and limits *)

Definition peer_resource_label (kind : string) : string :=
  if existsb (String.eqb kind) ["tile"; "bootstrap"; "leaf"; "style"; "glyph"; "sprite"; "derived"]
  then kind else "other".

Definition internal_resource_kind (path : string) : option string :=
  let path := match split_once "?" path with Some (path, _) => path | None => path end in
  if String.prefix "/_internal/tiles/" path then Some "tile"
  else if String.prefix "/_internal/derived/" path then Some "derived"
  else if String.prefix "/_internal/pmtiles/" path && ends_with "/bootstrap" path then Some "bootstrap"
  else if String.prefix "/_internal/pmtiles/" path && str_contains "/leaf/" path then Some "leaf"
  else if String.prefix "/_internal/provider/fonts/" path then Some "glyph"
  else if String.prefix "/_internal/provider/styles/" path then
    if ends_with "/style.json" path then Some "style"
    else if str_contains "/sprite" path then Some "sprite"
    else Some "other"
  else None.

Definition internal_peer_request_timeout (path : string) : Z :=
  if String.prefix "/_internal/derived/" path then 30 * nanos_per_sec
  else if String.prefix "/_internal/provider/" path then 20 * nanos_per_sec
  else 10 * nanos_per_sec.

Definition internal_response_body_limit (path : string) : Z :=
  match internal_resource_kind path with
  | Some kind =>
      if String.eqb kind "bootstrap" then MAX_INTERNAL_BOOTSTRAP_RESPONSE_BYTES
      else if String.eqb kind "glyph" then MAX_INTERNAL_GLYPH_RESPONSE_BYTES
      else if String.eqb kind "style" then MAX_INTERNAL_JSON_RESPONSE_BYTES
      else if String.eqb kind "sprite" then MAX_INTERNAL_SPRITE_RESPONSE_BYTES
      else MAX_INTERNAL_BINARY_RESPONSE_BYTES
  | None => MAX_INTERNAL_BINARY_RESPONSE_BYTES
  end.

Definition encode_tileset_path (tileset_id : string) : string := replace_char slash "%2F" tileset_id.

Definition tile_path (tileset_id : string) (tile_id : Z) : string :=
  "/_internal/tiles/" +:+ encode_tileset_path tileset_id +:+ "/" +:+ decimal tile_id.
Definition bootstrap_path (tileset_id : string) (include_metadata : bool) : string :=
  "/_internal/pmtiles/" +:+ encode_tileset_path tileset_id +:+
  (if include_metadata then "/bootstrap?metadata=true" else "/bootstrap").
Definition leaf_path (tileset_id : string) (offset length : Z) : string :=
  "/_internal/pmtiles/" +:+ encode_tileset_path tileset_id +:+ "/leaf/" +:+ decimal offset +:+ "/" +:+
  decimal length.

(** ** The bootstrap wire format *)

Definition PREFIX_BYTES : Z := 8.
Definition MAX_TRANSFER_BYTES : Z := PREFIX_BYTES + MIN_BOOTSTRAP_BYTES + DEFAULT_MAX_DECOMPRESSED_BYTES.

Definition decode_bootstrap_wire (body : list Z) (include_metadata : bool) : Res string BootstrapTransfer :=
  if negb include_metadata then
    _ ← ensure (len body <=? MIN_BOOTSTRAP_BYTES) "bootstrap transfer exceeds the accepted bootstrap size";
    Ok {| bt_bootstrap := body; bt_metadata := None |}
  else
    _ ← ensure (len body <=? MAX_TRANSFER_BYTES) "bootstrap transfer exceeds the accepted metadata envelope";
    _ ← ensure (PREFIX_BYTES <=? len body) "bootstrap transfer too short";
    bootstrap_len ← ok_or "bootstrap length exceeds the platform size"
                      (usize_try_from (le_decode (slice 0 PREFIX_BYTES body)));
    _ ← ensure (bootstrap_len <=? MIN_BOOTSTRAP_BYTES) "bootstrap length exceeds the accepted bootstrap size";
    bootstrap_end ← ok_or "bootstrap transfer length overflows usize" (checked_add PREFIX_BYTES bootstrap_len);
    _ ← ensure (bootstrap_end <=? len body) "bootstrap transfer truncated";
    let bootstrap := slice PREFIX_BYTES bootstrap_end body in
    let metadata := if bootstrap_end <? len body then Some (slice bootstrap_end (len body) body) else None in
    Ok {| bt_bootstrap := bootstrap; bt_metadata := metadata |}.

(** [BufMut::put_u64_le]. *)
Fixpoint le_bytes (n : nat) (v : Z) : list Z :=
  match n with O => [] | S n => v mod 256 :: le_bytes n (v / 256) end.

(** The body [internal_bootstrap_handler] answers with. *)
Definition bootstrap_body (transfer : BootstrapTransfer) : list Z :=
  match bt_metadata transfer with
  | Some metadata => le_bytes 8 (len (bt_bootstrap transfer)) ++ bt_bootstrap transfer ++ metadata
  | None => bt_bootstrap transfer
  end.

(** ** Backoff state *)

(** [HashMap<String, HashMap<&'static str, Instant>>]: per peer and resource
    label, until when it is not asked again. *)
Abbreviation Failures := (gmap string (gmap string Z)).

(** The two [retain]s of [available_peers]. *)
Definition retain_failures (now : Z) (failures : Failures) : Failures :=
  omap (fun resources : gmap string Z =>
          let resources := filter (fun e => now < e.2) resources in
          if bool_decide (resources = ∅) then None else Some resources) failures.

(** What [fetch_from_peer] records of an answer. *)
Definition record_fetch (peer resource : string) (retryable : bool) (now : Z) (failures : Failures)
    : Failures :=
  if retryable then
    <[peer := <[resource := now + PEER_RETRY_BACKOFF]> (default ∅ (failures !! peer))]> failures
  else match failures !! peer with
       | Some resources =>
           let resources := delete resource resources in
           if bool_decide (resources = ∅) then delete peer failures else <[peer := resources]> failures
       | None => failures
       end.

Definition contains_resource (failures : Failures) (peer resource : string) : bool :=
  match failures !! peer with
  | Some resources => bool_decide (is_Some (resources !! resource))
  | None => false
  end.

Record PeerState := {
  retryable_failures : Failures;
  inflight_fetches : gmap (string * string) Z }.

(** [PeerFetchGuard]: entering and dropping. *)
Definition guard_enter (key : string * string) (requests : gmap (string * string) Z)
    : gmap (string * string) Z :=
  <[key := default 0 (requests !! key) + 1]> requests.
Definition guard_drop (key : string * string) (requests : gmap (string * string) Z)
    : gmap (string * string) Z :=
  match requests !! key with
  | None => requests
  | Some count => if count - 1 =? 0 then delete key requests else <[key := count - 1]> requests
  end.

Section PeerBackend.
Context {SocketAddr : Type}.
Abbreviation Peer := (Peer SocketAddr).
Abbreviation ScoredPeer := (ScoredPeer SocketAddr).

(** What a peer backend is built from, over the state [S] of the node. *)
Class PeerWorld (S : Type) := {
  ps_get : S -> PeerState;
  ps_put : PeerState -> S -> S;
  (** [Instant::now]. *)
  instant_now : S -> Z;
  (** [PeerDirectory::peers] and [InternalTransport::fetch]. *)
  directory_peers : S -> list Peer * S;
  transport_fetch : Peer -> string -> SM S PeerFetchError InternalFetchResponse }.

Context {S : Type} `{!PeerWorld S}.
Context (xxhash64 : list HasherWrite -> Z) (self_node_id : string) (router : HrwRouter).

Definition with_failures {E : Type} (f : Z -> Failures -> Failures) : SM S E unit :=
  modify (fun s =>
    ps_put {| retryable_failures := f (instant_now s) (retryable_failures (ps_get s));
              inflight_fetches := inflight_fetches (ps_get s) |} s).
Definition with_inflight {E : Type} (f : gmap (string * string) Z -> gmap (string * string) Z) : SM S E unit :=
  modify (fun s =>
    ps_put {| retryable_failures := retryable_failures (ps_get s);
              inflight_fetches := f (inflight_fetches (ps_get s)) |} s).

Definition pb_peers {E : Type} : SM S E (list Peer) := fun s => let '(peers, s) := directory_peers s in (Ok peers, s).

(** [None] is the borrowed list: nothing is suppressed. *)
Definition available_peers {E : Type} (peers : list Peer) (resource : string) : SM S E (option (list Peer)) :=
  _ ← with_failures retain_failures;
  failures ← sm_gets (fun s => retryable_failures (ps_get s));
  mret (if bool_decide (failures = ∅) then None
        else if negb (existsb (fun e => bool_decide (is_Some (e.2 !! resource))) (map_to_list failures)) then None
        else Some (List.filter (fun peer => negb (contains_resource failures (peer_id peer) resource)) peers)).

Definition route_with_backoff {E : Type} (peers : list Peer) (resource : string)
    (route : list Peer -> list ScoredPeer) : SM S E (list ScoredPeer) :=
  let preferred := route peers in
  available ← available_peers peers resource;
  match available with
  | None => mret preferred
  | Some available => mret (route available)
  end.

Definition route_tileset_for {E : Type} (tileset_id kind : string) : SM S E (list ScoredPeer) :=
  peers ← pb_peers;
  route_with_backoff peers (peer_resource_label kind)
    (fun peers => route_tileset xxhash64 router peers tileset_id).

Definition route_tile_for {E : Type} (tileset_id : string) (tile_id : Z) (kind : string) : SM S E (list ScoredPeer) :=
  peers ← pb_peers;
  route_with_backoff peers (peer_resource_label kind)
    (fun peers => route_tile xxhash64 router peers tileset_id tile_id).

Definition pb_route_tile {E : Type} (tileset_id : string) (tile_id : Z) : SM S E (list ScoredPeer) :=
  route_tile_for tileset_id tile_id "tile".

Definition route_derived_tile {E : Type} (routing_key : string) (tile_id : Z) : SM S E (list ScoredPeer) :=
  peers ← pb_peers;
  route_with_backoff peers (peer_resource_label "derived")
    (fun peers => route_tile xxhash64 router peers routing_key tile_id).

Definition route_provider_for {E : Type} (request : ProviderRequest) : SM S E (list ScoredPeer) :=
  peers ← pb_peers;
  route_with_backoff peers (kind_as_str (provider_kind request))
    (fun peers => route_key xxhash64 router peers (placement_key request)).

Definition is_self (peer : Peer) : bool := String.eqb (peer_id peer) self_node_id.

Definition fetch_from_peer (peer : Peer) (path kind : string) : SM S PeerFetchError InternalFetchResponse :=
  let key := (peer_id peer, path) in
  let resource := peer_resource_label kind in
  _ ← with_inflight (guard_enter key);
  result ← sm_attempt (transport_fetch peer path);
  _ ← with_inflight (guard_drop key);
  let retryable := match result with inl e => pf_is_retryable e | inr _ => false end in
  _ ← with_failures (record_fetch (peer_id peer) resource retryable);
  lift (match result with inl e => Err e | inr response => Ok response end).

(** The candidates are exhausted by the local node, or absent. *)
Definition local_first (candidates : list ScoredPeer) : bool :=
  match candidates with [] => true | peer :: _ => is_self (sp_peer peer) end.

Fixpoint forward_optional {E : Type} (candidates : list ScoredPeer) (path kind : string)
    : SM S E (option InternalFetchResponse) :=
  match candidates with
  | [] => mret None
  | peer :: candidates =>
      if is_self (sp_peer peer) then mret None else
      result ← sm_attempt (fetch_from_peer (sp_peer peer) path kind);
      match result with
      | inr response => mret (Some response)
      | inl PfNotFound => mret None
      | inl error => if pf_is_retryable error then forward_optional candidates path kind else mret None
      end
  end.

Definition route_fetch_optional_response_candidates {E : Type} (candidates : list ScoredPeer)
    (path kind : string) : SM S E (option InternalFetchResponse) :=
  if local_first candidates then mret None else forward_optional candidates path kind.

Definition route_fetch_optional {E : Type} (tileset_id path kind : string) : SM S E (option (list Z)) :=
  candidates ← route_tileset_for tileset_id kind;
  response ← route_fetch_optional_response_candidates candidates path kind;
  mret (ifr_bytes <$> response).

Definition route_bootstrap (tileset_id : string) (include_metadata : bool)
    : SM S string (option BootstrapTransfer) :=
  let path := bootstrap_path tileset_id include_metadata in
  result ← route_fetch_optional tileset_id path "bootstrap";
  match result with
  | Some bytes =>
      transfer ← lift (decode_bootstrap_wire bytes include_metadata);
      mret (Some transfer)
  | None => mret None
  end.

Definition route_leaf {E : Type} (tileset_id : string) (offset length : Z) : SM S E (option (list Z)) :=
  route_fetch_optional tileset_id (leaf_path tileset_id offset length) "leaf".

Definition fetch_tile_bytes (peer : Peer) (tileset_id : string) (tile_id : Z)
    : SM S PeerFetchError InternalFetchResponse :=
  fetch_from_peer peer (tile_path tileset_id tile_id) "tile".

Fixpoint forward_provider {E : Type} (candidates : list ScoredPeer) (path kind : string)
    : SM S E (option ProviderRouteOutcome) :=
  match candidates with
  | [] => mret None
  | peer :: candidates =>
      if is_self (sp_peer peer) then mret None else
      result ← sm_attempt (fetch_from_peer (sp_peer peer) path kind);
      match result with
      | inr response => mret (Some (RouteResource response))
      | inl PfProviderNotFound => mret (Some RouteNotFound)
      | inl PfProviderGone => mret (Some RouteGone)
      | inl error => if pf_is_retryable error then forward_provider candidates path kind else mret None
      end
  end.

Definition route_provider_response_candidates {E : Type} (candidates : list ScoredPeer)
    (request : ProviderRequest) (path : string) : SM S E (option ProviderRouteOutcome) :=
  if local_first candidates then mret None
  else forward_provider candidates path (kind_as_str (provider_kind request)).

Definition route_provider_request {E : Type} (request : ProviderRequest) : SM S E (option ProviderRouteOutcome) :=
  candidates ← route_provider_for request;
  route_provider_response_candidates candidates request (internal_path request).

Definition route_derived_resource {E : Type} (routing_key : string) (tile_id : Z) (path : string)
    : SM S E (option (list Z)) :=
  candidates ← route_derived_tile routing_key tile_id;
  response ← route_fetch_optional_response_candidates candidates path "derived";
  mret (ifr_bytes <$> response).
End PeerBackend.

(** ** What the backoff remembers *)

(** The answers and routing decisions of a node, oldest first. *)
Inductive BackoffEvent :=
  | Fetched (peer resource : string) (retryable : bool) (at_ : Z)
  | Routed (at_ : Z).

Definition event_time (e : BackoffEvent) : Z :=
  match e with Fetched _ _ _ t => t | Routed t => t end.

Definition backoff_step (failures : Failures) (e : BackoffEvent) : Failures :=
  match e with
  | Fetched peer resource retryable t => record_fetch peer resource retryable t failures
  | Routed t => retain_failures t failures
  end.
Definition backoff_run (history : list BackoffEvent) : Failures := foldl backoff_step ∅ history.

(** The time of the last answer of a peer for a resource, if it was retryable. *)
Definition last_retryable (history : list BackoffEvent) (peer resource : string) : option Z :=
  foldl (fun last e =>
    match e with
    | Fetched p r retryable t =>
        if String.eqb p peer && String.eqb r resource then if retryable then Some t else None else last
    | Routed _ => last
    end) None history.

Definition backing_off (history : list BackoffEvent) (now : Z) (resource peer : string) : bool :=
  match last_retryable history peer resource with
  | Some t => now <? t + PEER_RETRY_BACKOFF
  | None => false
  end.

Definition retry_at (failures : Failures) (peer resource : string) : option Z :=
  failures !! peer ≫= fun resources => resources !! resource.

Definition after (now : Z) (o : option Z) : option Z := t ← o; if now <? t then Some t else None.

Lemma after_after t now o : t <= now -> after now (after t o) = after now o.
Proof.
  intros H. destruct o as [x|]; [|done]. cbn. destruct (Z.ltb_spec t x); cbn; [done|].
  by rewrite (proj2 (Z.ltb_ge _ _)) by lia.
Qed.

Lemma retry_at_retain now failures p r : retry_at (retain_failures now failures) p r = after now (retry_at failures p r).
Proof.
  unfold retry_at, retain_failures. rewrite lookup_omap. destruct (failures !! p) as [m|]; [|done]. cbn.
  assert (Hf : filter (fun e : string * Z => now < e.2) m !! r = after now (m !! r)).
  { rewrite map_lookup_filter. destruct (m !! r) as [t|]; [|done]. cbn.
    destruct (Z.ltb_spec now t); [by rewrite option_guard_True|by rewrite option_guard_False by lia]. }
  case_bool_decide as He; cbn; [|done]. rewrite He, lookup_empty in Hf. done.
Qed.

Lemma retry_at_record peer resource retryable now failures p r :
  retry_at (record_fetch peer resource retryable now failures) p r =
  if String.eqb peer p && String.eqb resource r
  then if retryable then Some (now + PEER_RETRY_BACKOFF) else None
  else retry_at failures p r.
Proof.
  unfold retry_at, record_fetch. destruct retryable.
  - destruct (String.eqb_spec peer p) as [->|Hp]; [|by rewrite lookup_insert_ne].
    rewrite lookup_insert_eq. cbn. destruct (String.eqb_spec resource r) as [->|Hr].
    + by rewrite lookup_insert_eq.
    + rewrite lookup_insert_ne by done. destruct (failures !! p); cbn; [done|]. by rewrite lookup_empty.
  - destruct (failures !! peer) as [m|] eqn:Hm.
    + case_bool_decide as He.
      * destruct (String.eqb_spec peer p) as [->|Hp]; [|by rewrite lookup_delete_ne].
        rewrite lookup_delete_eq, Hm. cbn. destruct (String.eqb_spec resource r) as [->|Hr]; [done|].
        by rewrite <- (lookup_delete_ne m resource r), He, lookup_empty by done.
      * destruct (String.eqb_spec peer p) as [->|Hp]; [|by rewrite lookup_insert_ne].
        rewrite lookup_insert_eq, Hm. cbn. destruct (String.eqb_spec resource r) as [->|Hr].
        -- by rewrite lookup_delete_eq.
        -- by rewrite lookup_delete_ne.
    + destruct (String.eqb_spec peer p) as [->|Hp]; [|done]. rewrite Hm. by destruct (String.eqb resource r).
Qed.

Lemma backoff_run_retry_at history now p r :
  Forall (fun e => event_time e <= now) history ->
  after now (retry_at (backoff_run history) p r) =
  after now ((fun t => t + PEER_RETRY_BACKOFF) <$> last_retryable history p r).
Proof.
  induction history as [|e history IH] using rev_ind; [done|].
  intros [Hh [He _]%Forall_cons]%Forall_app. specialize (IH Hh).
  unfold backoff_run, last_retryable. rewrite !foldl_snoc. fold (backoff_run history) (last_retryable history p r).
  destruct e as [peer resource retryable t|t]; cbn [backoff_step event_time] in *.
  - rewrite retry_at_record. destruct (String.eqb peer p && String.eqb resource r); [by destruct retryable|done].
  - rewrite retry_at_retain, (after_after t now) by exact He. exact IH.
Qed.

Lemma contains_resource_retain history now p r :
  Forall (fun e => event_time e <= now) history ->
  contains_resource (retain_failures now (backoff_run history)) p r = backing_off history now r p.
Proof.
  intros Hh. transitivity (bool_decide (is_Some (retry_at (retain_failures now (backoff_run history)) p r))).
  { unfold contains_resource, retry_at. by destruct (retain_failures now (backoff_run history) !! p). }
  rewrite retry_at_retain, backoff_run_retry_at by done. unfold backing_off.
  destruct (last_retryable history p r) as [t|]; [|done]. cbn. destruct (now <? t + PEER_RETRY_BACKOFF); done.
Qed.

(** ** Routed candidates *)

Section Candidates.
Context {SocketAddr S : Type} `{!PeerWorld (SocketAddr := SocketAddr) S}.
Context (xxhash64 : list HasherWrite -> Z) (router : HrwRouter).
Context (Hput : forall p s, ps_get (ps_put (S := S) p s) = p).

Lemma available_peers_run {E : Type} (peers : list (Peer SocketAddr)) resource history s :
  retryable_failures (ps_get s) = backoff_run history ->
  Forall (fun e => event_time e <= instant_now s) history ->
  exists o s', available_peers (E := E) peers resource s = (Ok o, s') /\
    retryable_failures (ps_get s') = backoff_run (history ++ [Routed (instant_now s)]) /\
    default peers o = List.filter (fun p => negb (backing_off history (instant_now s) resource (peer_id p))) peers.
Proof.
  intros Hf Ht. set (failures := retain_failures (instant_now s) (backoff_run history)).
  unfold available_peers, with_failures, modify, sm_gets, mbind, SM_bind, mret, SM_ret. cbn.
  rewrite Hput. cbn. rewrite Hf. do 2 eexists. split; [done|]. split.
  { rewrite Hput. cbn. unfold backoff_run. by rewrite foldl_snoc. }
  fold failures.
  assert (Hc : forall p : Peer SocketAddr, contains_resource failures (peer_id p) resource =
                 backing_off history (instant_now s) resource (peer_id p)).
  { intros p. by apply contains_resource_retain. }
  assert (Hall : (forall p r, contains_resource failures p r = false \/ r <> resource) ->
    peers = List.filter (fun p => negb (backing_off history (instant_now s) resource (peer_id p))) peers).
  { intros Hno. induction peers as [|p ps IH]; [done|]. cbn. rewrite <- Hc.
    destruct (Hno (peer_id p) resource) as [->|]; [|done]. cbn. by f_equal. }
  case_bool_decide as He; cbn.
  { apply Hall. intros p r. left. unfold contains_resource. by rewrite He, lookup_empty. }
  destruct (existsb _ _) eqn:Hex; cbn.
  - clear Hall. induction peers as [|p ps IH]; [done|]. cbn. rewrite Hc, IH. done.
  - apply Hall. intros p r. destruct (decide (r = resource)) as [->|]; [|by right]. left.
    apply not_true_iff_false. intros Hin. apply not_true_iff_false in Hex. apply Hex.
    apply existsb_exists. unfold contains_resource in Hin. destruct (failures !! p) as [m|] eqn:Hm; [|done].
    exists (p, m). split; [|done]. by apply list_elem_of_In, elem_of_map_to_list.
Qed.

(** [C14] Routing with backoff: over peers with distinct ids, the candidates are the
    first [candidate_count] of the peers in rendezvous order, leaving out exactly
    those whose last answer for this kind of resource was a retryable failure
    less than [PEER_RETRY_BACKOFF] ago. The preferred candidates that are left
    keep their order and come before their replacements. *)
Theorem routed_candidates {E : Type} (peers : list (Peer SocketAddr)) resource key group_id history s r s'
    (Hids : NoDup (peer_id <$> peers)) (Hcount : 0 < hr_candidate_count router)
    (Hhistory : retryable_failures (ps_get s) = backoff_run history)
    (Htimes : Forall (fun e => event_time e <= instant_now s) history)
    (Hroute : route_with_backoff (E := E) peers resource
       (fun peers => route_group xxhash64 router peers key group_id) s = (r, s')) :
  let askable (c : ScoredPeer SocketAddr) :=
    negb (backing_off history (instant_now s) resource (peer_id (sp_peer c))) in
  let preferred := take (Z.to_nat (hr_candidate_count router)) (ranking xxhash64 key group_id peers) in
  exists candidates, r = Ok candidates /\
    candidates = take (Z.to_nat (hr_candidate_count router))
                   (List.filter askable (ranking xxhash64 key group_id peers)) /\
    List.filter askable preferred `prefix_of` candidates /\
    retryable_failures (ps_get s') = backoff_run (history ++ [Routed (instant_now s)]).
Proof.
  intros askable preferred.
  destruct (available_peers_run (E := E) peers resource history s Hhistory Htimes) as (o & s1 & Ha & Hs1 & Ho).
  unfold route_with_backoff, mbind, SM_bind in Hroute. rewrite Ha in Hroute.
  assert (Hr : r = Ok (route_group xxhash64 router (default peers o) key group_id) /\ s' = s1)
    by (by destruct o; injection Hroute as <- <-).
  destruct Hr as [-> ->]. eexists. split; [done|]. rewrite Ho, route_group_ranking, ranking_filter;
    [|done| |lia].
  - split; [done|]. split; [apply filter_take_prefix|done].
  - clear -Hids. induction peers as [|p ps IH]; [constructor|]. apply NoDup_cons in Hids as [Hn Hd]. cbn.
    destruct (negb _); [|by apply IH]. cbn. constructor; [|by apply IH].
    intros (q & Hq & Hin)%list_elem_of_fmap. apply Hn. apply list_elem_of_fmap. exists q. split; [done|].
    apply list_elem_of_In, filter_In in Hin as [Hin _]. by apply list_elem_of_In.
Qed.
End Candidates.

(** ** The bootstrap transfer *)

Lemma length_le_bytes n v : length (le_bytes n v) = n.
Proof. revert v. induction n; intros v; cbn; auto. Qed.

Lemma le_decode_bytes n v : 0 <= v < 256 ^ Z.of_nat n -> le_decode (le_bytes n v) = v.
Proof.
  revert v. induction n as [|n IH]; intros v Hv; cbn; [cbn in Hv; lia|].
  rewrite Nat2Z.inj_succ, Z.pow_succ_r in Hv by lia.
  rewrite IH; [pose proof (Z.div_mod v 256); lia|].
  split; [apply Z.div_pos; lia|]. apply Z.div_lt_upper_bound; lia.
Qed.

Lemma slice_app_r (a b : list Z) : slice (len a) (len (a ++ b)) (a ++ b) = b.
Proof.
  unfold slice, len. rewrite length_app, Nat2Z.id, drop_app_length, take_ge; [done|lia].
Qed.

Lemma slice_app_l (a b : list Z) : slice 0 (len a) (a ++ b) = a.
Proof. unfold slice, len. change (Z.to_nat 0) with 0%nat. rewrite drop_0, take_app_le, take_ge; [done|lia|lia]. Qed.

Lemma slice_mid (a b c : list Z) : slice (len a) (len a + len b) (a ++ b ++ c) = b.
Proof.
  unfold slice, len. rewrite Nat2Z.id, drop_app_length, take_app_le, take_ge; [done|lia|lia].
Qed.

Lemma len_app (a b : list Z) : len (a ++ b) = len a + len b.
Proof. unfold len. rewrite length_app. lia. Qed.

(** The length read from a transfer that starts with an archive header. *)
Lemma magic_length (b : list Z) :
  take 8 b = MAGIC ++ [PMTILES_VERSION] -> MIN_BOOTSTRAP_BYTES < le_decode (slice 0 PREFIX_BYTES b) <= usize_max.
Proof.
  intros Hm. unfold slice, PREFIX_BYTES. change (Z.to_nat (8 - 0)) with 8%nat. change (Z.to_nat 0) with 0%nat.
  rewrite drop_0, Hm. vm_compute. split; congruence.
Qed.

(** [C18] Bootstrap transfers: the body that a node sends for a transfer (bootstrap
    bytes of an archive, with metadata only when it was asked for and the archive
    has some) is decoded by the receiver to that transfer, except when metadata
    was asked for and the archive has none: the length prefix is then missing,
    the receiver reads the archive magic as a length and refuses the transfer. *)
Theorem bootstrap_transfer_wire (transfer : BootstrapTransfer) (include_metadata : bool)
    (Hbootstrap : len (bt_bootstrap transfer) <= MIN_BOOTSTRAP_BYTES)
    (Hheader : take 8 (bt_bootstrap transfer) = MAGIC ++ [PMTILES_VERSION])
    (Hmetadata : forall metadata, bt_metadata transfer = Some metadata ->
       include_metadata = true /\ 0 < len metadata <= DEFAULT_MAX_DECOMPRESSED_BYTES) :
  decode_bootstrap_wire (bootstrap_body transfer) include_metadata =
  if include_metadata && bool_decide (bt_metadata transfer = None)
  then Err "bootstrap length exceeds the accepted bootstrap size" else Ok transfer.
Proof.
  destruct transfer as [b [md|]]; cbn [bt_bootstrap bt_metadata] in *.
  - destruct (Hmetadata md eq_refl) as [-> Hmd]. unfold decode_bootstrap_wire, bootstrap_body. cbn [bt_bootstrap bt_metadata negb].
    set (pre := le_bytes 8 (len b)). assert (Hpre : len pre = PREFIX_BYTES) by (unfold len, pre; by rewrite length_le_bytes).
    assert (Hb0 : 0 <= len b) by (unfold len; lia).
    assert (Hle : le_decode (slice 0 PREFIX_BYTES (pre ++ b ++ md)) = len b).
    { rewrite <- Hpre, slice_app_l. apply le_decode_bytes. unfold MIN_BOOTSTRAP_BYTES in *. lia. }
    clearbody pre.
    assert (Hlen : len (pre ++ b ++ md) = PREFIX_BYTES + len b + len md) by (rewrite !len_app; lia).
    rewrite Hle, Hlen. unfold MAX_TRANSFER_BYTES.
    rewrite !(proj2 (Z.leb_le _ _)) by (unfold PREFIX_BYTES in *; lia). cbn [ensure mbind Res_bind].
    unfold usize_try_from. rewrite (proj2 (Z.leb_le _ _)) by (unfold MIN_BOOTSTRAP_BYTES, usize_max, u64_max in *; lia).
    cbn [ok_or mbind Res_bind]. rewrite (proj2 (Z.leb_le (len b) _)) by done. cbn [ensure mbind Res_bind].
    unfold checked_add. rewrite (proj2 (Z.leb_le (PREFIX_BYTES + len b) u64_max))
      by (unfold PREFIX_BYTES, MIN_BOOTSTRAP_BYTES, u64_max in *; lia).
    cbn [ok_or mbind Res_bind]. rewrite (proj2 (Z.leb_le _ _)) by lia. cbn [ensure mbind Res_bind].
    rewrite (proj2 (Z.ltb_lt _ _)) by lia. cbn. rewrite <- Hpre. do 2 f_equal; [apply slice_mid|].
    f_equal. rewrite app_assoc.
    replace (len pre + len b + len md) with (len ((pre ++ b) ++ md)) by (rewrite !len_app; lia).
    rewrite <- (len_app pre b). apply slice_app_r.
  - unfold decode_bootstrap_wire, bootstrap_body. cbn [bt_bootstrap bt_metadata].
    rewrite (bool_decide_true (None = None)) by done. destruct include_metadata; cbn [negb andb].
    + assert (Hl : (8 <= length b)%nat).
      { apply (f_equal length) in Hheader. rewrite length_take in Hheader. change (length (MAGIC ++ [PMTILES_VERSION])) with 8%nat in Hheader. lia. }
      apply magic_length in Hheader.
      rewrite (proj2 (Z.leb_le (len b) MAX_TRANSFER_BYTES))
        by (unfold MAX_TRANSFER_BYTES, PREFIX_BYTES, DEFAULT_MAX_DECOMPRESSED_BYTES; lia).
      rewrite (proj2 (Z.leb_le PREFIX_BYTES (len b))) by (unfold PREFIX_BYTES, len; lia).
      unfold usize_try_from. rewrite (proj2 (Z.leb_le _ usize_max)) by lia.
      cbn [ensure ok_or mbind Res_bind]. by rewrite (proj2 (Z.leb_gt _ MIN_BOOTSTRAP_BYTES)) by lia.
    + by rewrite (proj2 (Z.leb_le _ _)) by done.
Qed.

Lemma decode_bootstrap_wire_no_panic body include_metadata :
  decode_bootstrap_wire body include_metadata <> Panic.
Proof.
  unfold decode_bootstrap_wire. destruct include_metadata; cbn [negb]; [|by destruct (_ <=? _)].
  repeat (apply Res_bind_no_panic; [apply ensure_no_panic || apply ok_or_no_panic|intros ? _]). done.
Qed.

(** What is decoded from the body of a transfer comes from that transfer. *)
Lemma decode_bootstrap_wire_sound transfer include_metadata decoded :
  len (bt_bootstrap transfer) <= MIN_BOOTSTRAP_BYTES ->
  ((8 <= length (bt_bootstrap transfer))%nat -> take 8 (bt_bootstrap transfer) = MAGIC ++ [PMTILES_VERSION]) ->
  (is_Some (bt_metadata transfer) -> include_metadata = true) ->
  decode_bootstrap_wire (bootstrap_body transfer) include_metadata = Ok decoded ->
  bt_bootstrap decoded = bt_bootstrap transfer /\
  forall md, bt_metadata decoded = Some md -> bt_metadata transfer = Some md.
Proof.
  destruct transfer as [b [md|]]; cbn [bt_bootstrap bt_metadata]; intros Hlen Hmagic Hinc;
    unfold decode_bootstrap_wire, bootstrap_body; cbn [bt_bootstrap bt_metadata].
  - rewrite Hinc by done. cbn [negb]. set (pre := le_bytes 8 (len b)).
    assert (Hpre : len pre = PREFIX_BYTES) by (unfold len, pre; by rewrite length_le_bytes).
    assert (Hb0 : 0 <= len b) by (unfold len; lia).
    assert (Hle : le_decode (slice 0 PREFIX_BYTES (pre ++ b ++ md)) = len b).
    { rewrite <- Hpre, slice_app_l. apply le_decode_bytes. unfold MIN_BOOTSTRAP_BYTES in *. lia. }
    rewrite Hle. clear Hle. clearbody pre. intros H. res_inv; try done.
    apply usize_try_from_Some in E1 as [-> _]. apply checked_add_Some in E3 as [-> _]. cbn.
    rewrite <- Hpre. split; [apply slice_mid|]. intros md'. case_match; [|done]. intros [= <-]. f_equal.
    rewrite app_assoc, <- (len_app pre b). symmetry. apply slice_app_r.
  - destruct include_metadata; cbn [negb]; intros H; [|by res_inv].
    apply Res_bind_Ok in H as (_ & _ & H). apply Res_bind_Ok in H as (u8 & H8 & H).
    destruct (PREFIX_BYTES <=? len b) eqn:E8; [|done]. apply Z.leb_le in E8.
    assert (Hm : take 8 b = MAGIC ++ [PMTILES_VERSION]) by (apply Hmagic; unfold PREFIX_BYTES, len in E8; lia).
    apply magic_length in Hm. apply Res_bind_Ok in H as (n & Hn & H).
    apply ok_or_Ok, usize_try_from_Some in Hn as [-> _].
    by rewrite (proj2 (Z.leb_gt _ MIN_BOOTSTRAP_BYTES)) in H by lia.
Qed.

(** ** Requests over honest peers

    [I] is an invariant of the node's state that every task keeps; [answers path]
    holds of the bodies, and [denies path] of the absence, that the other nodes
    may report for [path]. *)

Section Requests.
Context {SocketAddr S : Type} `{!PeerWorld (SocketAddr := SocketAddr) S}.
Context (xxhash64 : list HasherWrite -> Z) (self_node_id : string) (router : HrwRouter).

Class PeerLaws (I : S -> Prop) (answers : string -> InternalFetchResponse -> Prop)
    (denies : string -> Prop) : Prop := {
  put_law p s : I s -> I (ps_put p s);
  directory_law s : I s -> I (directory_peers s).2;
  (** A node does not ask itself. *)
  transport_law peer path : peer_id peer <> self_node_id ->
    sm_post I (transport_fetch peer path) (fun r s => I s /\ answers path r)
      (fun e s => I s /\ (e = PfNotFound -> denies path)) }.

Context (I : S -> Prop) (answers : string -> InternalFetchResponse -> Prop) (denies : string -> Prop).
Context `{!PeerLaws I answers denies}.

Lemma fetch_from_peer_post peer path kind :
  is_self self_node_id peer = false ->
  sm_post I (fetch_from_peer peer path kind) (fun r s => I s /\ answers path r)
    (fun e s => I s /\ (e = PfNotFound -> denies path)).
Proof.
  intros Hself s Hs. unfold is_self in Hself. apply String.eqb_neq in Hself.
  unfold fetch_from_peer, with_inflight, with_failures, modify, mbind, SM_bind, sm_attempt, lift. cbn.
  pose proof (transport_law peer path Hself _ (put_law
    {| retryable_failures := retryable_failures (ps_get s);
       inflight_fetches := guard_enter (peer_id peer, path) (inflight_fetches (ps_get s)) |} s Hs)) as Ht.
  destruct (transport_fetch peer path _) as [[r|e|] s1]; [| |done]; destruct Ht as [Hs1 Hr]; cbn.
  - split; [by apply put_law, put_law|done].
  - split; [by apply put_law, put_law|done].
Qed.

Lemma forward_optional_post {E : Type} candidates path kind (X : E -> S -> Prop) :
  sm_post I (forward_optional self_node_id candidates path kind)
    (fun o s => I s /\ forall r, o = Some r -> answers path r) X.
Proof.
  induction candidates as [|c cs IH]; cbn; [by apply sm_post_ret|].
  destruct (is_self self_node_id (sp_peer c)) eqn:Hself; [by apply sm_post_ret|].
  eapply sm_post_bind; [by apply sm_post_attempt, fetch_from_peer_post|].
  intros [e|r]; cbn.
  - destruct e; cbn.
    all: try (apply sm_post_ret; intros s [Hs _]; split; [done|done]).
    eapply sm_post_conseq; [exact IH|by intros s [Hs _]|done|done].
  - apply sm_post_ret. intros s [Hs Hr]. split; [done|]. by intros ? [= <-].
Qed.

Lemma pb_peers_post {E : Type} (X : E -> S -> Prop) : sm_post I pb_peers (fun _ s => I s) X.
Proof.
  intros s Hs. unfold pb_peers. pose proof (directory_law s Hs). by destruct (directory_peers s).
Qed.

Lemma route_with_backoff_post {E : Type} peers resource route (X : E -> S -> Prop) :
  sm_post I (route_with_backoff peers resource route) (fun _ s => I s) X.
Proof.
  unfold route_with_backoff, available_peers.
  eapply (sm_post_bind _ (fun _ s => I s)).
  - eapply (sm_post_bind _ (fun _ s => I s)).
    + intros s Hs. cbn. by apply put_law.
    + intros _. eapply (sm_post_bind _ (fun _ s => I s)); [by intros s Hs|].
      intros failures. by apply sm_post_ret.
  - intros [available|]; by apply sm_post_ret.
Qed.

Lemma route_fetch_optional_post {E : Type} tileset_id path kind (X : E -> S -> Prop) :
  sm_post I (route_fetch_optional xxhash64 self_node_id router tileset_id path kind)
    (fun o s => I s /\ forall bytes, o = Some bytes -> exists r, answers path r /\ bytes = ifr_bytes r) X.
Proof.
  unfold route_fetch_optional, route_tileset_for.
  eapply sm_post_bind; [eapply sm_post_bind; [apply pb_peers_post|intros peers; apply route_with_backoff_post]|].
  intros candidates. unfold route_fetch_optional_response_candidates.
  eapply (sm_post_bind _ (fun o s => I s /\ forall r, o = Some r -> answers path r)).
  - destruct (local_first self_node_id candidates); [by apply sm_post_ret|apply forward_optional_post].
  - intros o. apply sm_post_ret. intros s [Hs Ho]. split; [done|].
    destruct o as [r|]; [|done]. intros bytes [= <-]. eauto.
Qed.

Lemma route_bootstrap_post tileset_id include_metadata (X : string -> S -> Prop) :
  (forall e s, I s -> X e s) ->
  sm_post I (route_bootstrap xxhash64 self_node_id router tileset_id include_metadata)
    (fun o s => I s /\ forall t, o = Some t -> exists r,
       answers (bootstrap_path tileset_id include_metadata) r /\
       decode_bootstrap_wire (ifr_bytes r) include_metadata = Ok t) X.
Proof.
  intros HX. unfold route_bootstrap.
  eapply sm_post_bind; [apply route_fetch_optional_post|]. intros [bytes|]; cbn.
  - intros s [Hs Hb]. destruct (Hb bytes eq_refl) as (r & Hr & ->). unfold mbind, SM_bind, lift.
    destruct (decode_bootstrap_wire (ifr_bytes r) include_metadata) as [t|e|] eqn:Hd; cbn.
    + split; [done|]. intros ? [= <-]. eauto.
    + by apply HX.
    + by apply decode_bootstrap_wire_no_panic in Hd.
  - apply sm_post_ret. intros s [Hs _]. done.
Qed.
End Requests.

(** ** Concrete requests *)

Module DemoPeers.
#[export] Instance demo_peer_world : PeerWorld (SocketAddr := unit) PeerState := {|
  ps_get s := s;
  ps_put p _ := p;
  instant_now _ := 5 * nanos_per_sec;
  directory_peers s := ([], s);
  transport_fetch _ _ s := (Err (PfRetryable "connection refused"), s) |}.

Definition demo_candidates : list (Peer unit) :=
  (fun id => {| peer_id := id; peer_addr := tt |}) <$> ["a"; "b"; "c"; "d"].

(** [b] failed a tenth of a second ago, [c] long ago, and [d] answered since. *)
Definition demo_history : list BackoffEvent :=
  [Fetched "c" "tile" true nanos_per_sec; Fetched "d" "tile" true (4 * nanos_per_sec + 800000000);
   Fetched "b" "tile" true (4 * nanos_per_sec + 900000000); Fetched "d" "tile" false (4 * nanos_per_sec + 950000000)].

Definition demo_state : PeerState := {| retryable_failures := backoff_run demo_history; inflight_fetches := ∅ |}.
Definition demo_router : HrwRouter := HrwRouter_new 3 4.

Lemma demo_put (p s : PeerState) : ps_get (SocketAddr := unit) (ps_put (SocketAddr := unit) p s) = p.
Proof. reflexivity. Qed.

(** Witness: the candidates leave out [b] only. *)
Lemma routed_candidates_witness :
  exists candidates, fst (route_with_backoff (E := unit) demo_candidates "tile"
      (fun peers => route_group (fun _ => 0) demo_router peers "demo" 7) demo_state) = Ok candidates /\
    (peer_id ∘ sp_peer) <$> candidates = ["a"; "c"; "d"].
Proof.
  destruct (route_with_backoff (E := unit) demo_candidates "tile"
      (fun peers => route_group (fun _ => 0) demo_router peers "demo" 7) demo_state) as [r s'] eqn:Hroute.
  destruct (routed_candidates (fun _ => 0) demo_router demo_put demo_candidates "tile" "demo" 7
    demo_history demo_state r s') as (candidates & Hr & Hc & _).
  - apply (bool_decide_unpack _). vm_compute. exact I.
  - reflexivity.
  - reflexivity.
  - repeat constructor; cbn; unfold nanos_per_sec; lia.
  - exact Hroute.
  - exists candidates. split; [exact Hr|]. rewrite Hc. vm_compute. reflexivity.
Defined.

(** Witness: a transfer with metadata. *)
Lemma bootstrap_transfer_wire_witness :
  let transfer := {| bt_bootstrap := MAGIC ++ [PMTILES_VERSION; 1; 2]; bt_metadata := Some [9; 9] |} in
  decode_bootstrap_wire (bootstrap_body transfer) true = Ok transfer.
Proof.
  refine (bootstrap_transfer_wire
    {| bt_bootstrap := MAGIC ++ [PMTILES_VERSION; 1; 2]; bt_metadata := Some [9; 9] |} true _ _ _).
  - vm_compute. discriminate.
  - reflexivity.
  - intros metadata [= <-]. split; [reflexivity|]. unfold len, DEFAULT_MAX_DECOMPRESSED_BYTES. cbn. lia.
Defined.
End DemoPeers.
