(* ===== verification/TileArchives.v ===== *)
(** * Archives of a tile node

    Models [crates/ishikari-core/src/pmtiles/cache.rs] and [pmtiles/reader.rs]
    (cached bootstraps and leaf directories, peers before the backend, one flight
    per key), [storage/pmtiles.rs] (range reads over the chunk store) and the
    caches of [cache.rs].

    The state of a node is the record [TileNode]: the maps of its caches, its
    flights and peer backend, and the world [W] around it. Whatever waits
    (transport, chunk store, a flight of another task) is an operation of the
    class [TileWorld] on the whole node, because other tasks run meanwhile; so do
    the evictions of the caches ([tw_background]). A moka cache is a map whose
    entries the world may drop; an entry with a time to live carries the instant
    at which it stops being served. The three flight tables of the reader are one
    table whose keys carry their kind.

    A follower may find, after its flight ended, that another flight is under way,
    so the loops of the reader take a number of rounds, [fuel]; it is enough when
    it exceeds the number of flights the request still joins, and running out of
    it is [Panic], shown unreachable. *)

From S2P Require Import Prelude StdModel Types PmtilesFormat PmtilesReader TilesetSources ChunkStore.
From S2P Require Import SingleFlight PeerRouting PeerBackend.

(** ** Errors *)

Inductive StorageError :=
  | SeNotFound
  | SeOverloaded (message : string)
  | SeTimeout (message : string)
  | SeBackend (message : string)
  | SeMessage (message : string).

(** [Display for StorageError]. *)
Definition storage_text (e : StorageError) : string :=
  match e with
  | SeNotFound => "archive not found"
  | SeOverloaded m | SeTimeout m | SeBackend m | SeMessage m => m
  end.

(** [anyhow::Error]: a storage error, any other message, and context around it. *)
Inductive AnyError :=
  | AeStorage (error : StorageError)
  | AeMessage (message : string)
  | AeContext (context : string) (error : AnyError).

(** The texts of [Error::chain], outermost first. *)
Fixpoint error_chain (e : AnyError) : list string :=
  match e with
  | AeStorage e => [storage_text e]
  | AeMessage m => [m]
  | AeContext c e => c :: error_chain e
  end.

(** [chain().find_map(downcast_ref::<StorageError>)]. *)
Fixpoint find_storage_error (e : AnyError) : option StorageError :=
  match e with
  | AeStorage e => Some e
  | AeMessage _ => None
  | AeContext _ e => find_storage_error e
  end.

(** [Error::to_string] and [{error:#}]. *)
Definition error_to_string (e : AnyError) : string := default "" (head (error_chain e)).
Definition format_error_chain (e : AnyError) : string := String.concat ": " (error_chain e).

Record ReaderFlightError := { rfe_message : string; rfe_storage : option StorageError }.

Definition rfe_capture (error : AnyError) : ReaderFlightError :=
  let storage := find_storage_error error in
  {| rfe_message := match storage with Some _ => error_to_string error | None => format_error_chain error end;
     rfe_storage := storage |}.

Definition rfe_into_error (self : ReaderFlightError) : AnyError :=
  match rfe_storage self with
  | None => AeMessage (rfe_message self)
  | Some storage =>
      if String.eqb (rfe_message self) (storage_text storage) then AeStorage storage
      else AeContext (rfe_message self) (AeStorage storage)
  end.

Inductive LocalLeafError := LeInvalidRange | LeReader (error : AnyError).

(** ** Leaf ranges a node serves *)

Record ValidatedLeafRange := { vl_offset : Z; vl_length : Z }.

Definition ValidatedLeafRange_new (leaf_offset leaf_length archive_len offset length : Z)
    : option ValidatedLeafRange :=
  end_ ← checked_add offset length;
  leaf_end ← checked_add leaf_offset leaf_length;
  if (length =? 0) || (max_range_bytes ReaderLimits_default <? length) || (offset <? leaf_offset) ||
     (leaf_end <? end_) || (archive_len <=? offset) || (archive_len <? end_)
  then None else Some {| vl_offset := offset; vl_length := length |}.

Definition ValidatedLeafRange_from_archive {M} (archive : ArchiveBootstrap M) (offset length : Z)
    : option ValidatedLeafRange :=
  ValidatedLeafRange_new (leaf_offset (ab_header archive)) (leaf_length (ab_header archive))
    (ab_archive_len archive) offset length.

(** ** Chunk limit of a range *)

Definition READ_CHUNK_LIMIT : Z := 8.

Definition enforce_chunk_limit (kind : string) (start length chunk_size_bytes : Z) : Res string unit :=
  end_ ← ok_or ("invalid " +:+ kind +:+ " byte range") (checked_add start length);
  let chunk_count := saturating_add (saturating_sub ((end_ - 1) / chunk_size_bytes) (start / chunk_size_bytes)) 1 in
  if chunk_count >? READ_CHUNK_LIMIT
  then Err (kind +:+ " spans too many chunks: start=" +:+ decimal start +:+ " length=" +:+ decimal length +:+
            " chunks=" +:+ decimal chunk_count +:+ " limit=" +:+ decimal READ_CHUNK_LIMIT)
  else Ok tt.

(** ** Caches *)

Record CachedArchive (M : Type) := { ca_archive : ArchiveBootstrap M; ca_bootstrap : bytes }.
Arguments ca_archive {M} c.
Arguments ca_bootstrap {M} c.
Arguments Build_CachedArchive {M}.

(** [LeafCacheKey]: tileset, offset and length. *)
Abbreviation LeafCacheKey := (string * Z * Z)%type.

Record ArchiveCache (M : Type) := {
  ac_archives : gmap string (CachedArchive M);
  ac_leafs : gmap LeafCacheKey Directory;
  (** Until when an archive is known to be absent. *)
  ac_absent : gmap string Z }.
Arguments ac_archives {M} a.
Arguments ac_leafs {M} a.
Arguments ac_absent {M} a.
Arguments Build_ArchiveCache {M}.

Definition ABSENT_ARCHIVE_TTL : Z := 1 * nanos_per_sec.

Section ArchiveCache.
Context {M : Type}.
Implicit Types (c : ArchiveCache M).

Definition ArchiveCache_new : ArchiveCache M := {| ac_archives := ∅; ac_leafs := ∅; ac_absent := ∅ |}.

Definition ac_get (tileset_id : string) c : option (ArchiveBootstrap M) := ca_archive <$> ac_archives c !! tileset_id.
Definition ac_get_bootstrap_bytes (tileset_id : string) c : option bytes := ca_bootstrap <$> ac_archives c !! tileset_id.

Definition with_metadata (metadata : option M) (b : ArchiveBootstrap M) : ArchiveBootstrap M :=
  {| ab_header := ab_header b; ab_root := ab_root b; ab_metadata := metadata; ab_archive_len := ab_archive_len b |}.

Definition ac_put (tileset_id : string) (archive : ArchiveBootstrap M) (bootstrap : bytes) c : ArchiveCache M :=
  let archive := match ab_metadata archive, ac_archives c !! tileset_id with
                 | None, Some existing => with_metadata (ab_metadata (ca_archive existing)) archive
                 | _, _ => archive
                 end in
  {| ac_archives := <[tileset_id := {| ca_archive := archive; ca_bootstrap := bootstrap |}]> (ac_archives c);
     ac_leafs := ac_leafs c;
     ac_absent := delete tileset_id (ac_absent c) |}.

Definition ac_is_known_absent (now : Z) (tileset_id : string) c : bool :=
  match ac_absent c !! tileset_id with Some expires => now <? expires | None => false end.

Definition ac_mark_absent (now : Z) (tileset_id : string) c : ArchiveCache M :=
  {| ac_archives := ac_archives c; ac_leafs := ac_leafs c;
     ac_absent := <[tileset_id := now + ABSENT_ARCHIVE_TTL]> (ac_absent c) |}.

Definition ac_put_metadata (tileset_id : string) (metadata : M) c : ArchiveCache M :=
  match ac_archives c !! tileset_id with
  | Some cached =>
      {| ac_archives := <[tileset_id := {| ca_archive := with_metadata (Some metadata) (ca_archive cached);
                                           ca_bootstrap := ca_bootstrap cached |}]> (ac_archives c);
         ac_leafs := ac_leafs c; ac_absent := ac_absent c |}
  | None => c
  end.

Definition ac_get_leaf (key : LeafCacheKey) c : option Directory := ac_leafs c !! key.
Definition ac_put_leaf (key : LeafCacheKey) (directory : Directory) c : ArchiveCache M :=
  {| ac_archives := ac_archives c; ac_leafs := <[key := directory]> (ac_leafs c); ac_absent := ac_absent c |}.
End ArchiveCache.

(** ** Tile cache *)

Inductive CachedTile :=
  | CtFound (bytes : bytes) (content_type : string) (content_encoding : option string)
  | CtNotFound.

(** [TileExpiry]: only negative entries expire. *)
Definition ttl_for (negative_ttl : Z) (value : CachedTile) : option Z :=
  match value with CtFound _ _ _ => None | CtNotFound => Some negative_ttl end.
Definition expire_after_create (negative_ttl : Z) (value : CachedTile) : option Z := ttl_for negative_ttl value.
Definition expire_after_update (negative_ttl : Z) (value : CachedTile) (current : option Z) : option Z :=
  ttl_for negative_ttl value.

(** An entry with the instant it expires at. *)
Record TileEntry := { te_value : CachedTile; te_expires : option Z }.
Abbreviation TileCache := (gmap (string * Z) TileEntry).

Definition tc_get (now : Z) (key : string * Z) (cache : TileCache) : option CachedTile :=
  entry ← cache !! key;
  match te_expires entry with
  | Some expires => if now <? expires then Some (te_value entry) else None
  | None => Some (te_value entry)
  end.

Definition tc_put (negative_ttl now : Z) (key : string * Z) (value : CachedTile) (cache : TileCache) : TileCache :=
  let ttl := match cache !! key with
             | Some entry => expire_after_update negative_ttl value ((fun t => t - now) <$> te_expires entry)
             | None => expire_after_create negative_ttl value
             end in
  <[key := {| te_value := value; te_expires := (fun ttl => now + ttl) <$> ttl |}]> cache.

(** ** The node and its world *)

(** Flights by kind: bootstrap, metadata, leaf range. *)
Abbreviation FlightKey := (Z * string * Z * Z)%type.
Definition bootstrap_flight (tileset_id : string) : FlightKey := (0, tileset_id, 0, 0).
Definition metadata_flight (tileset_id : string) : FlightKey := (1, tileset_id, 0, 0).
Definition leaf_flight (key : LeafCacheKey) : FlightKey := (2, key.1.1, key.1.2, key.2).

Record TilesetInfo (M : Type) := { ti_header : Header; ti_metadata : M }.
Arguments ti_header {M} t.
Arguments ti_metadata {M} t.
Arguments Build_TilesetInfo {M}.

Record TileNode (M W : Type) := {
  tn_world : W;
  tn_peers : PeerState;
  tn_archives : ArchiveCache M;
  tn_flights : SingleFlight FlightKey ReaderFlightError;
  tn_tiles : TileCache;
  tn_infos : gmap string (TilesetInfo M);
  (** [BACKEND_WAITED] of the running task. *)
  tn_waited : bool;
  (** The flights whose guard the running task holds, the innermost first. *)
  tn_led : list FlightKey }.
Arguments tn_world {M W} t.
Arguments tn_peers {M W} t.
Arguments tn_archives {M W} t.
Arguments tn_flights {M W} t.
Arguments tn_tiles {M W} t.
Arguments tn_infos {M W} t.
Arguments tn_waited {M W} t.
Arguments tn_led {M W} t.
Arguments Build_TileNode {M W}.

Section Node.
Context {M W : Type}.
Abbreviation St := (TileNode M W).
Implicit Types (s : St).

Definition set_peers (p : PeerState) s : St :=
  {| tn_world := tn_world s; tn_peers := p; tn_archives := tn_archives s; tn_flights := tn_flights s;
     tn_tiles := tn_tiles s; tn_infos := tn_infos s; tn_waited := tn_waited s; tn_led := tn_led s |}.
Definition set_archives (a : ArchiveCache M) s : St :=
  {| tn_world := tn_world s; tn_peers := tn_peers s; tn_archives := a; tn_flights := tn_flights s;
     tn_tiles := tn_tiles s; tn_infos := tn_infos s; tn_waited := tn_waited s; tn_led := tn_led s |}.
Definition set_flights (f : SingleFlight FlightKey ReaderFlightError) s : St :=
  {| tn_world := tn_world s; tn_peers := tn_peers s; tn_archives := tn_archives s; tn_flights := f;
     tn_tiles := tn_tiles s; tn_infos := tn_infos s; tn_waited := tn_waited s; tn_led := tn_led s |}.
Definition set_tiles (t : TileCache) s : St :=
  {| tn_world := tn_world s; tn_peers := tn_peers s; tn_archives := tn_archives s; tn_flights := tn_flights s;
     tn_tiles := t; tn_infos := tn_infos s; tn_waited := tn_waited s; tn_led := tn_led s |}.
Definition set_infos (i : gmap string (TilesetInfo M)) s : St :=
  {| tn_world := tn_world s; tn_peers := tn_peers s; tn_archives := tn_archives s; tn_flights := tn_flights s;
     tn_tiles := tn_tiles s; tn_infos := i; tn_waited := tn_waited s; tn_led := tn_led s |}.
Definition set_waited (b : bool) s : St :=
  {| tn_world := tn_world s; tn_peers := tn_peers s; tn_archives := tn_archives s; tn_flights := tn_flights s;
     tn_tiles := tn_tiles s; tn_infos := tn_infos s; tn_waited := b; tn_led := tn_led s |}.
Definition set_led (l : list FlightKey) s : St :=
  {| tn_world := tn_world s; tn_peers := tn_peers s; tn_archives := tn_archives s; tn_flights := tn_flights s;
     tn_tiles := tn_tiles s; tn_infos := tn_infos s; tn_waited := tn_waited s; tn_led := l |}.
End Node.

Section Reader.
Context {SocketAddr M W : Type}.
Abbreviation St := (TileNode M W).

Class TileWorld := {
  tw_now : W -> Z;
  tw_directory_peers : St -> list (Peer SocketAddr) * St;
  tw_transport_fetch : Peer SocketAddr -> string -> SM St PeerFetchError InternalFetchResponse;
  (** [ChunkedStore::read_bytes]. *)
  tw_read_bytes : string -> Z -> Z -> option Z -> SM St ChunkFetchError ChunkRead;
  (** Other tasks run until the flight of a follower has ended. *)
  tw_await_flight : FlightKey -> Follower -> St -> St;
  (** Evictions. *)
  tw_background : St -> St }.
Context `{!TileWorld}.

#[export] Instance tile_peer_world : PeerWorld (SocketAddr := SocketAddr) St := {|
  ps_get := tn_peers;
  ps_put := set_peers;
  instant_now s := tw_now (tn_world s);
  directory_peers := tw_directory_peers;
  transport_fetch := tw_transport_fetch |}.

Context (dec : Decoders) (try_reserve_exact : Z -> bool).
Context (metadata_from_json : list Z -> option M) (Metadata_default : M).
(** Rendering of structured errors. *)
Context (format_text : FormatError -> string) (message_text : FetchMessage -> string).
Context (xxhash64 : list HasherWrite -> Z) (self_node_id : string) (router : HrwRouter).
Context (chunk_size : Z) (fuel : nat).

(** ** Range reads ([storage/pmtiles.rs]) *)

Definition storage_error (e : ChunkFetchError) : StorageError :=
  match e with
  | NotFound => SeNotFound
  | Overloaded message => SeOverloaded message
  | ChunkStore.Timeout m => SeTimeout (message_text m)
  | BackendFailure message => SeBackend message
  | Message m => SeMessage (message_text m)
  end.

Definition storage_read_range (tileset_id : string) (start length : Z) (archive_len : option Z)
    : SM St StorageError bytes :=
  if length =? 0 then mret [] else
  _ ← lift (map_err SeMessage (enforce_chunk_limit "range" start length chunk_size));
  read ← sm_attempt (tw_read_bytes tileset_id start length archive_len);
  match read with
  | inl error => lift (Err (storage_error error))
  | inr read =>
      _ ← modify (fun s => match cr_source read with FromBackend => set_waited true s | FromCache => s end);
      mret (cr_bytes read)
  end.

Inductive PmtilesReadSource := PrsCache | PrsBackend.

(** [observe_reads]: the flag is scoped to the observed future. *)
Definition observe_reads {E F A : Type} (future : SM St E A) : SM St F ((E + A) * PmtilesReadSource) := fun s =>
  let outer := tn_waited s in
  let '(output, s) := future (set_waited false s) in
  let source := if tn_waited s then PrsBackend else PrsCache in
  match output with
  | Panic => (Panic, set_waited outer s)
  | Err e => (Ok (inl e, source), set_waited outer s)
  | Ok a => (Ok (inr a, source), set_waited outer s)
  end.

(** [Context::context] on a result. *)
Definition context {A : Type} (text : string) (c : SM St StorageError A) : SM St AnyError A :=
  r ← sm_attempt c;
  match r with inr a => mret a | inl e => lift (Err (AeContext text (AeStorage e))) end.

Definition format_error {A : Type} (r : Res FormatError A) : Res AnyError A :=
  map_err (fun e => AeMessage (format_text e)) r.

(** ** Flights *)

Definition flight_begin {E : Type} (key : FlightKey) : SM St E (Flight FlightKey ReaderFlightError) := fun s =>
  let '(flight, table) := begin key (tn_flights s) in
  let s := set_flights table s in
  (Ok flight, match flight with FlightLeader _ => set_led (key :: tn_led s) s | FlightFollower _ => s end).

(** The guard of the innermost flight is consumed or dropped. *)
Definition end_flight (f : SingleFlight FlightKey ReaderFlightError -> SingleFlight FlightKey ReaderFlightError)
    (s : St) : St :=
  set_led (tail (tn_led s)) (set_flights (f (tn_flights s)) s).

Definition complete_reader_flight {A : Type} (guard : LeaderGuard FlightKey ReaderFlightError)
    (result : AnyError + A) : SM St AnyError A :=
  match result with
  | inl error =>
      _ ← modify (end_flight (complete_with_error guard (rfe_capture error)));
      lift (Err error)
  | inr a => _ ← modify (end_flight (drop_guard guard)); mret a
  end.

Definition wait_reader_flight (key : FlightKey) (follower : Follower) : SM St AnyError unit := fun s =>
  let s := tw_await_flight key follower s in
  match wait_poll follower (tn_flights s) with
  | Some (Some error) => (Err (rfe_into_error error), s)
  | Some None => (Ok tt, s)
  | None => (Panic, s)
  end.

(** The loop shared by the loads of the reader: answer from the caches, lead the
    flight of the key, or wait for its leader and look again. *)
Fixpoint flight_loop {A : Type} (fuel : nat) (check : SM St AnyError (option A)) (key : FlightKey)
    (work : SM St AnyError A) : SM St AnyError A :=
  match fuel with
  | O => lift Panic
  | S fuel =>
      known ← check;
      match known with
      | Some a => mret a
      | None =>
          flight ← flight_begin key;
          match flight with
          | FlightLeader guard =>
              result ← sm_attempt work;
              complete_reader_flight guard result
          | FlightFollower follower =>
              _ ← wait_reader_flight key follower;
              flight_loop fuel check key work
          end
      end
  end.

(** Reads of the archive cache, after whatever was evicted. *)
Definition with_archives {E A : Type} (f : Z -> ArchiveCache M -> A) : SM St E A := fun s =>
  let s := tw_background s in (Ok (f (tw_now (tn_world s)) (tn_archives s)), s).
Definition update_archives {E : Type} (f : Z -> ArchiveCache M -> ArchiveCache M) : SM St E unit :=
  modify (fun s => set_archives (f (tw_now (tn_world s)) (tn_archives s)) s).

(** ** Bootstraps *)

Abbreviation decode_bootstrap bytes :=
  (decode_bootstrap_bytes dec try_reserve_exact bytes DEFAULT_MAX_DECOMPRESSED_BYTES : Res FormatError (ArchiveBootstrap M)).
Abbreviation decode_metadata header bytes :=
  (decode_metadata_bytes dec metadata_from_json header bytes DEFAULT_MAX_DECOMPRESSED_BYTES).

Definition load_bootstrap_local_uncached (tileset_id : string) : SM St AnyError (option (ArchiveBootstrap M)) :=
  initial ← sm_attempt (storage_read_range tileset_id 0 MIN_BOOTSTRAP_BYTES None);
  match initial with
  | inl SeNotFound => _ ← update_archives (fun now => ac_mark_absent now tileset_id); mret None
  | inl error => lift (Err (AeContext "failed to read PMTiles header" (AeStorage error)))
  | inr initial_bytes =>
      archive ← lift (format_error (decode_bootstrap initial_bytes));
      _ ← update_archives (fun _ => ac_put tileset_id archive initial_bytes);
      mret (Some archive)
  end.

(** A bootstrap that a peer sent. *)
Definition install_transfer (tileset_id : string) (transfer : BootstrapTransfer)
    : SM St AnyError (option (ArchiveBootstrap M)) :=
  let bootstrap := bt_bootstrap transfer in
  archive ← lift (map_err (AeContext "failed to decode bootstrap from peer") (format_error (decode_bootstrap bootstrap)));
  archive ← match bt_metadata transfer with
            | Some metadata_bytes =>
                metadata ← lift (map_err (AeContext "failed to decode metadata from peer")
                                   (format_error (decode_metadata (ab_header archive) metadata_bytes)));
                mret (with_metadata (Some metadata) archive)
            | None => mret archive
            end;
  _ ← update_archives (fun _ => ac_put tileset_id archive bootstrap);
  mret (Some archive).

Definition load_bootstrap_uncached (tileset_id : string) (include_metadata : bool)
    : SM St AnyError (option (ArchiveBootstrap M)) :=
  fetched ← sm_attempt (route_bootstrap xxhash64 self_node_id router tileset_id include_metadata);
  match fetched with
  | inr (Some transfer) => install_transfer tileset_id transfer
  | inr None | inl _ => load_bootstrap_local_uncached tileset_id
  end.

(** The answer the caches have for a bootstrap. *)
Definition known_bootstrap (tileset_id : string) : SM St AnyError (option (option (ArchiveBootstrap M))) :=
  with_archives (fun now c =>
    match ac_get tileset_id c with
    | Some archive => Some (Some archive)
    | None => if ac_is_known_absent now tileset_id c then Some None else None
    end).

Definition load_bootstrap_with_metadata (tileset_id : string) (include_metadata : bool)
    : SM St AnyError (option (ArchiveBootstrap M)) :=
  flight_loop fuel (known_bootstrap tileset_id) (bootstrap_flight tileset_id)
    (load_bootstrap_uncached tileset_id include_metadata).

Definition rd_load_bootstrap (tileset_id : string) : SM St AnyError (option (ArchiveBootstrap M)) :=
  load_bootstrap_with_metadata tileset_id false.

Definition load_bootstrap_local (tileset_id : string) : SM St AnyError (option (ArchiveBootstrap M)) :=
  flight_loop fuel (known_bootstrap tileset_id) (bootstrap_flight tileset_id)
    (load_bootstrap_local_uncached tileset_id).

(** ** Metadata *)

Definition metadata_length_usize (h : Header) : Res AnyError Z :=
  ok_or (AeContext "PMTiles metadata length exceeds usize" (AeMessage "out of range integral type conversion attempted"))
    (usize_try_from (metadata_length h)).

Definition load_metadata_from_backend (tileset_id : string) (archive : ArchiveBootstrap M) : SM St AnyError M :=
  if metadata_length (ab_header archive) =? 0 then mret Metadata_default else
  length ← lift (metadata_length_usize (ab_header archive));
  bytes ← context "failed to read PMTiles metadata"
            (storage_read_range tileset_id (metadata_offset (ab_header archive)) length
               (Some (ab_archive_len archive)));
  lift (format_error (decode_metadata (ab_header archive) bytes)).

Definition load_metadata_uncached (tileset_id : string) : SM St AnyError (option M) :=
  archive ← load_bootstrap_with_metadata tileset_id true;
  match archive with
  | None => mret None
  | Some archive =>
      match ab_metadata archive with
      | Some metadata => mret (Some metadata)
      | None =>
          metadata ← load_metadata_from_backend tileset_id archive;
          _ ← update_archives (fun _ => ac_put_metadata tileset_id metadata);
          mret (Some metadata)
      end
  end.

Definition known_metadata (tileset_id : string) : SM St AnyError (option (option M)) :=
  with_archives (fun now c =>
    match ac_get tileset_id c ≫= ab_metadata with
    | Some metadata => Some (Some metadata)
    | None => if ac_is_known_absent now tileset_id c then Some None else None
    end).

Definition rd_load_metadata (tileset_id : string) : SM St AnyError (option M) :=
  flight_loop fuel (known_metadata tileset_id) (metadata_flight tileset_id) (load_metadata_uncached tileset_id).

(** ** Leaf directories *)

Definition read_directory_from_backend (tileset_id : string) (offset length : Z) (compression : Compression)
    (archive_len : Z) : SM St AnyError Directory :=
  bytes ← context "failed to read directory" (storage_read_range tileset_id offset length (Some archive_len));
  lift (format_error (Directory_parse dec try_reserve_exact compression bytes)).

Definition load_leaf_directory_uncached (tileset_id : string) (offset length : Z) (compression : Compression)
    (archive_len : Z) : SM St AnyError Directory :=
  let leaf_key := (tileset_id, offset, length) in
  fetched ← route_leaf xxhash64 self_node_id router tileset_id offset length;
  directory ←
    match fetched with
    | Some body =>
        lift (map_err (AeContext "failed to decode leaf directory from peer")
                (format_error (Directory_parse dec try_reserve_exact compression body)))
    | None => read_directory_from_backend tileset_id offset length compression archive_len
    end;
  _ ← update_archives (fun _ => ac_put_leaf leaf_key directory);
  mret directory.

Definition load_leaf_directory (tileset_id : string) (offset length : Z) (compression : Compression)
    (archive_len : Z) : SM St AnyError Directory :=
  let leaf_key := (tileset_id, offset, length) in
  flight_loop fuel (with_archives (fun _ => ac_get_leaf leaf_key)) (leaf_flight leaf_key)
    (load_leaf_directory_uncached tileset_id offset length compression archive_len).

(** ** What a node serves to its peers *)

Definition load_bootstrap_bytes_local (tileset_id : string) (include_metadata : bool)
    : SM St AnyError (option BootstrapTransfer) :=
  archive ← load_bootstrap_local tileset_id;
  match archive with
  | None => mret None
  | Some archive =>
      let end_ := ab_archive_len archive in
      let bootstrap_length := Z.min end_ MIN_BOOTSTRAP_BYTES in
      cached ← with_archives (fun _ => ac_get_bootstrap_bytes tileset_id);
      bootstrap ← match cached with
                  | Some bytes => mret bytes
                  | None => context "failed to read archive bootstrap bytes"
                              (storage_read_range tileset_id 0 bootstrap_length (Some end_))
                  end;
      metadata ←
        (if include_metadata && (0 <? metadata_length (ab_header archive)) then
           length ← lift (metadata_length_usize (ab_header archive));
           bytes ← context "failed to read PMTiles metadata"
                     (storage_read_range tileset_id (metadata_offset (ab_header archive)) length (Some end_));
           mret (Some bytes)
         else mret None);
      mret (Some {| bt_bootstrap := bootstrap; bt_metadata := metadata |})
  end.

Definition load_leaf_bytes_local (tileset_id : string) (offset length : Z) : SM St LocalLeafError (option bytes) :=
  archive ← sm_attempt (load_bootstrap_local tileset_id);
  match archive with
  | inl e => lift (Err (LeReader e))
  | inr None => mret None
  | inr (Some archive) =>
      range ← lift (ok_or LeInvalidRange (ValidatedLeafRange_from_archive archive offset length));
      leaf ← sm_attempt (context "failed to read leaf bytes"
               (storage_read_range tileset_id (vl_offset range) (vl_length range) (Some (ab_archive_len archive))));
      match leaf with
      | inl e => lift (Err (LeReader e))
      | inr leaf => mret (Some leaf)
      end
  end.

(** ** The archive backend of one tileset *)

Inductive DistributedReaderError := ArchiveAbsent | DrOther (error : AnyError).

(** [map_err(Other)] and [ok_or(ArchiveAbsent)]. *)
Definition present {A : Type} (c : SM St AnyError (option A)) : SM St DistributedReaderError A :=
  r ← sm_attempt c;
  match r with
  | inl e => lift (Err (DrOther e))
  | inr None => lift (Err ArchiveAbsent)
  | inr (Some a) => mret a
  end.

Definition other {A : Type} (c : SM St AnyError A) : SM St DistributedReaderError A :=
  r ← sm_attempt c;
  match r with inl e => lift (Err (DrOther e)) | inr a => mret a end.

Definition read_context (kind : ReadKind) : string :=
  match kind with
  | RkTile => "failed to read PMTiles tile bytes"
  | RkBootstrap => "failed to read archive bootstrap bytes"
  | RkMetadata => "failed to read PMTiles metadata"
  | RkLeafDirectory => "failed to read directory"
  end.

Definition DistributedArchiveBackend (tileset_id : string) : ArchiveBackend M St DistributedReaderError := {|
  load_bootstrap := present (rd_load_bootstrap tileset_id);
  load_metadata := present (rd_load_metadata tileset_id);
  load_leaf request := other (load_leaf_directory tileset_id (lr_offset request) (lr_length request)
                                (lr_compression request) (lr_archive_len request));
  read_range request := other (context (read_context (rq_kind request))
                          (storage_read_range tileset_id (rq_offset request) (rq_length request) (rq_archive_len request)));
  invalid_tile_id e := DrOther (AeMessage (format_text e));
  invalid_archive e := DrOther (AeMessage (format_text e)) |}.

(** A missing archive is an absent result. *)
Definition absent_as_none {A : Type} (c : SM St DistributedReaderError A) : SM St AnyError (option A) :=
  r ← sm_attempt c;
  match r with
  | inr a => mret (Some a)
  | inl ArchiveAbsent => mret None
  | inl (DrOther e) => lift (Err e)
  end.

Definition rd_get_tile (tileset_id : string) (tile_id : Z) : SM St AnyError (option TileData) :=
  tile ← absent_as_none (get_tile (H := DistributedArchiveBackend tileset_id) ReaderLimits_default tile_id);
  mret (tile ≫= fun t => t).

Definition rd_header (tileset_id : string) : SM St AnyError (option Header) :=
  absent_as_none (reader_header (H := DistributedArchiveBackend tileset_id)).

Definition rd_metadata (tileset_id : string) : SM St AnyError (option M) :=
  absent_as_none (reader_metadata (H := DistributedArchiveBackend tileset_id)).
End Reader.

(** ** The archive itself

    A reader over the bytes of one archive, without caches, peers or failures. *)

Section Reference.
Context {M : Type} (dec : Decoders) (try_reserve_exact : Z -> bool).
Context (metadata_from_json : list Z -> option M) (Metadata_default : M).

Definition ref_bootstrap (a : bytes) : Res FormatError (ArchiveBootstrap M) :=
  decode_bootstrap_bytes dec try_reserve_exact (take (Z.to_nat MIN_BOOTSTRAP_BYTES) a) DEFAULT_MAX_DECOMPRESSED_BYTES.

Definition ref_range (a : bytes) (offset length : Z) : bytes := slice offset (offset + length) a.

Definition ref_metadata (a : bytes) (h : Header) : Res FormatError M :=
  if metadata_length h =? 0 then Ok Metadata_default
  else decode_metadata_bytes dec metadata_from_json h (ref_range a (metadata_offset h) (metadata_length h))
         DEFAULT_MAX_DECOMPRESSED_BYTES.

Definition ref_leaf (a : bytes) (compression : Compression) (offset length : Z) : Res FormatError Directory :=
  Directory_parse dec try_reserve_exact compression (ref_range a offset length).

Definition ref_backend (a : bytes) : ArchiveBackend M unit FormatError := {|
  load_bootstrap := lift (ref_bootstrap a);
  load_metadata := b ← lift (ref_bootstrap a); lift (ref_metadata a (ab_header b));
  load_leaf rq := lift (ref_leaf a (lr_compression rq) (lr_offset rq) (lr_length rq));
  read_range rq := mret (ref_range a (rq_offset rq) (rq_length rq));
  invalid_tile_id e := e;
  invalid_archive e := e |}.

Definition ref_tile (a : bytes) (tile_id : Z) : Res FormatError (option TileData) :=
  (get_tile (H := ref_backend a) ReaderLimits_default tile_id tt).1.

(** ** Prefixes of an archive decode alike *)

Lemma bytes_slice_prefix lo hi (x y : list Z) r :
  x `prefix_of` y -> bytes_slice lo hi x = Ok r -> bytes_slice lo hi y = Ok r.
Proof.
  intros [z ->]. unfold bytes_slice.
  destruct ((0 <=? lo) && (lo <=? hi) && (hi <=? Z.of_nat (length x))) eqn:E; [|done].
  intros [= <-]. bool_props. rewrite length_app, !(proj2 (Z.leb_le _ _)) by lia. cbn. f_equal.
  rewrite drop_app_le, take_app_le; [done|rewrite length_drop; lia|lia].
Qed.

Lemma decode_bootstrap_prefix (x y : list Z) limit (b : ArchiveBootstrap M) :
  x `prefix_of` y -> decode_bootstrap_bytes dec try_reserve_exact x limit = Ok b ->
  decode_bootstrap_bytes dec try_reserve_exact y limit = Ok b.
Proof.
  intros Hp H. unfold decode_bootstrap_bytes in *.
  assert (Hlen : (length x <= length y)%nat) by (by apply prefix_length).
  destruct (Nat.ltb_spec (length x) HEADER_SIZE) as [|Hx]; [done|].
  destruct (Nat.ltb_spec (length y) HEADER_SIZE) as [|Hy]; [lia|].
  apply Res_bind_Ok in H as (head & Hh & H). rewrite (bytes_slice_prefix _ _ x y head) by done. cbn [mbind Res_bind].
  apply Res_bind_Ok in H as (header & -> & H). cbn [mbind Res_bind].
  apply Res_bind_Ok in H as (rs & -> & H). cbn [mbind Res_bind].
  apply Res_bind_Ok in H as (rl & -> & H). cbn [mbind Res_bind].
  apply Res_bind_Ok in H as (re & -> & H). cbn [mbind Res_bind].
  rewrite Z.gtb_ltb in *. destruct (Z.ltb_spec (Z.of_nat (length x)) re); [done|].
  destruct (Z.ltb_spec (Z.of_nat (length y)) re); [lia|].
  apply Res_bind_Ok in H as (rb & Hr & H). rewrite (bytes_slice_prefix _ _ x y rb) by done. exact H.
Qed.

Lemma take_prefix_le n m (a : list Z) : (n <= m)%nat -> take n a `prefix_of` take m a.
Proof. intros H. replace n with (n `min` m)%nat by lia. rewrite <- take_take. apply prefix_take. Qed.

(** An archive that decodes starts with the magic and the version. *)
Lemma Header_parse_magic (bs : list Z) h : Header_parse bs = Ok h -> take 8 bs = MAGIC ++ [PMTILES_VERSION].
Proof.
  unfold Header_parse. destruct (Nat.ltb_spec (length bs) HEADER_SIZE) as [|Hl]; [done|]. intros H.
  apply Res_bind_Ok in H as ([magic rest] & Hs & H).
  unfold split_to in Hs. destruct (7 <=? length bs)%nat; [|done]. injection Hs as <- <-.
  case_bool_decide as Hm; [|done]. cbn [negb] in H. apply Res_bind_Ok in H as ([v rest] & Hv & H).
  destruct (Z.eqb_spec v PMTILES_VERSION) as [->|]; [|done]. clear H.
  destruct (drop 7 bs) as [|v' rest'] eqn:Hd; [done|]. injection Hv as -> ->.
  rewrite <- (take_drop 7 bs), Hm, Hd. done.
Qed.

Lemma ref_bootstrap_magic (a : bytes) b : ref_bootstrap a = Ok b -> take 8 a = MAGIC ++ [PMTILES_VERSION].
Proof.
  unfold ref_bootstrap, decode_bootstrap_bytes. generalize (Z.to_nat MIN_BOOTSTRAP_BYTES) as n. intros n.
  destruct (Nat.ltb_spec (length (take n a)) HEADER_SIZE) as [|Hl]; [done|]. rewrite length_take in Hl.
  intros H. apply Res_bind_Ok in H as (head & Hh & H). apply Res_bind_Ok in H as (header & Hp & _).
  apply Header_parse_magic in Hp. rewrite <- Hp. unfold bytes_slice in Hh. case_match; [|done]. injection Hh as <-.
  change (Z.to_nat 0) with 0%nat. rewrite drop_0, !take_take. f_equal. unfold HEADER_SIZE in *. lia.
Qed.
End Reference.

(** ** Coherent nodes

    [archive_of] is the content of the object store, one immutable archive per
    tileset. A node is coherent when its caches hold only what these archives
    decode to. *)

Section Coherence.
Context {SocketAddr M W : Type}.
Abbreviation St := (TileNode M W).
Context (dec : Decoders) (try_reserve_exact : Z -> bool).
Context (metadata_from_json : list Z -> option M) (Metadata_default : M).
Context (archive_of : string -> option bytes).
Abbreviation ref_bootstrap := (ref_bootstrap (M := M) dec try_reserve_exact).
Abbreviation ref_metadata := (ref_metadata dec metadata_from_json Metadata_default).
Abbreviation ref_leaf := (ref_leaf dec try_reserve_exact).
Abbreviation ref_tile := (ref_tile dec try_reserve_exact metadata_from_json Metadata_default).

(** What the store says about a tile, an archive and its leaf directories. *)
Definition tile_truth (t : string) (id : Z) (o : option TileData) : Prop :=
  match archive_of t with None => o = None | Some a => ref_tile a id = Ok o end.

Definition archive_matches (a : bytes) (b : ArchiveBootstrap M) : Prop :=
  exists b0, ref_bootstrap a = Ok b0 /\ same_archive b b0 /\
    forall md, ab_metadata b = Some md -> ref_metadata a (ab_header b0) = Ok md.

Definition bootstrap_truth (t : string) (o : option (ArchiveBootstrap M)) : Prop :=
  match o with
  | None => archive_of t = None
  | Some b => exists a, archive_of t = Some a /\ archive_matches a b
  end.

Definition header_truth (t : string) (h : Header) : Prop :=
  exists a b0, archive_of t = Some a /\ ref_bootstrap a = Ok b0 /\ h = ab_header b0.

Definition metadata_truth (t : string) (o : option M) : Prop :=
  match o with
  | None => archive_of t = None
  | Some md => exists a b0, archive_of t = Some a /\ ref_bootstrap a = Ok b0 /\ ref_metadata a (ab_header b0) = Ok md
  end.

Definition leaf_truth (t : string) (offset length : Z) (d : Directory) : Prop :=
  exists a b0, archive_of t = Some a /\ ref_bootstrap a = Ok b0 /\
    ref_leaf a (internal_compression (ab_header b0)) offset length = Ok d.

Definition archive_prefix (t : string) (bs : bytes) : Prop :=
  exists a n, archive_of t = Some a /\ n <= MIN_BOOTSTRAP_BYTES /\ bs = take (Z.to_nat n) a.

Definition tile_entry_truth (t : string) (id : Z) (v : CachedTile) : Prop :=
  match v with
  | CtFound bs ct ce =>
      tile_truth t id (Some {| td_bytes := bs; td_content_type := ct; td_content_encoding := ce |})
  | CtNotFound => tile_truth t id None
  end.

Record coherent (s : St) : Prop := {
  co_archives : forall t ca, ac_archives (tn_archives s) !! t = Some ca ->
    bootstrap_truth t (Some (ca_archive ca)) /\ archive_prefix t (ca_bootstrap ca);
  co_leafs : forall t offset length d, ac_leafs (tn_archives s) !! (t, offset, length) = Some d ->
    leaf_truth t offset length d;
  co_absent : forall t e, ac_absent (tn_archives s) !! t = Some e -> archive_of t = None;
  co_flights : sf_wf (tn_flights s);
  co_tiles : forall t id e, tn_tiles s !! (t, id) = Some e -> tile_entry_truth t id (te_value e);
  co_infos : forall t i, tn_infos s !! t = Some i ->
    header_truth t (ti_header i) /\ metadata_truth t (Some (ti_metadata i)) }.

(** ** What peers may answer *)

Definition valid_tileset (t : string) : Prop := TilesetId_try_new t = Ok t.

(** The transfers a node sends for an archive. *)
Definition transfer_truth (t : string) (include_metadata : bool) (tr : BootstrapTransfer) : Prop :=
  archive_prefix t (bt_bootstrap tr) /\
  exists a b0, archive_of t = Some a /\ ref_bootstrap a = Ok b0 /\
    bt_metadata tr =
    if include_metadata && (0 <? metadata_length (ab_header b0))
    then Some (ref_range a (metadata_offset (ab_header b0)) (metadata_length (ab_header b0))) else None.

Record answers (path : string) (r : InternalFetchResponse) : Prop := {
  an_tile : forall t id, valid_tileset t -> is_u64 id -> path = tile_path t id ->
    exists td, tile_truth t id (Some td) /\ td_bytes td = ifr_bytes r;
  an_bootstrap : forall t include_metadata, valid_tileset t -> path = bootstrap_path t include_metadata ->
    exists tr, transfer_truth t include_metadata tr /\ ifr_bytes r = bootstrap_body tr;
  an_leaf : forall t offset length, valid_tileset t -> is_u64 offset -> is_usize length ->
    path = leaf_path t offset length ->
    exists a, archive_of t = Some a /\ ifr_bytes r = ref_range a offset length }.

Definition denies (path : string) : Prop :=
  forall t id, valid_tileset t -> is_u64 id -> path = tile_path t id -> tile_truth t id None.

(** ** The laws of the world *)

Context `{!TileWorld (SocketAddr := SocketAddr) (M := M) (W := W)} (self_node_id : string).
(** How many flights the running request still joins. *)
Context (waits : W -> nat).

(** A coherent node whose running task holds the guards [led] and joins at most
    [n] more flights; it joins none when no other task leads one. *)
Record within (led : list FlightKey) (n : nat) (s : St) : Prop := {
  wi_coherent : coherent s;
  wi_waits : (waits (tn_world s) <= n)%nat;
  wi_led : tn_led s = led;
  wi_joins : forall key c, sf_entries (tn_flights s) !! key = Some c -> key ∉ led -> (0 < waits (tn_world s))%nat }.

Class TileLaws : Prop := {
  law_background led n s : within led n s -> within led n (tw_background s);
  law_peers led n s : within led n s -> within led n (tw_directory_peers s).2;
  law_fetch led n peer path : peer_id peer <> self_node_id ->
    sm_post (within led n) (tw_transport_fetch peer path) (fun r s => within led n s /\ answers path r)
      (fun e s => within led n s /\ (e = PfNotFound -> denies path));
  (** The chunk store reads the archive, of which it is told the declared length,
      and only an absent object is not found. *)
  law_read led n t start length archive_len : is_u64 start -> is_usize length ->
    (forall m, archive_len = Some m -> exists a b0, archive_of t = Some a /\ ref_bootstrap a = Ok b0 /\ m = ab_archive_len b0) ->
    sm_post (within led n) (tw_read_bytes t start length archive_len)
      (fun rd s => within led n s /\ exists a, archive_of t = Some a /\ cr_bytes rd = ref_range a start length)
      (fun e s => within led n s /\ (e = NotFound -> archive_of t = None));
  (** The flight of another task ends, which uses up one of the joins. *)
  law_await led n key f s : within led n s -> follows key f (tn_flights s) -> key ∉ led ->
    exists m, (m < n)%nat /\ within led m (tw_await_flight key f s) /\ released f (tn_flights (tw_await_flight key f s)) }.
End Coherence.

(** ** The reader keeps a node coherent and reads the archive *)

Section ReaderFacts.
Context {SocketAddr M W : Type}.
Abbreviation St := (TileNode M W).
Context `{!TileWorld (SocketAddr := SocketAddr) (M := M) (W := W)}.
Context (dec : Decoders) (try_reserve_exact : Z -> bool).
Context (metadata_from_json : list Z -> option M) (Metadata_default : M).
Context (format_text : FormatError -> string) (message_text : FetchMessage -> string).
Context (xxhash64 : list HasherWrite -> Z) (self_node_id : string) (router : HrwRouter).
Context (chunk_size : Z) (fuel : nat).
Context (archive_of : string -> option bytes) (waits : W -> nat).
Context (Hdec : decoders_ok dec).
(** The store holds bytes. *)
Context (Hbytes : forall t a, archive_of t = Some a -> is_bytes a).
Abbreviation coherent := (coherent (W := W) dec try_reserve_exact metadata_from_json Metadata_default archive_of).
Abbreviation within := (within (W := W) dec try_reserve_exact metadata_from_json Metadata_default archive_of waits).
Abbreviation ref_bootstrap := (ref_bootstrap (M := M) dec try_reserve_exact).
Abbreviation ref_metadata := (ref_metadata dec metadata_from_json Metadata_default).
Abbreviation ref_leaf := (ref_leaf dec try_reserve_exact).
Abbreviation archive_matches := (archive_matches dec try_reserve_exact metadata_from_json Metadata_default).
Abbreviation bootstrap_truth := (bootstrap_truth dec try_reserve_exact metadata_from_json Metadata_default archive_of).
Abbreviation header_truth := (header_truth (M := M) dec try_reserve_exact archive_of).
Abbreviation metadata_truth := (metadata_truth dec try_reserve_exact metadata_from_json Metadata_default archive_of).
Abbreviation leaf_truth := (leaf_truth (M := M) dec try_reserve_exact archive_of).
Abbreviation archive_prefix := (archive_prefix archive_of).
Abbreviation transfer_truth := (transfer_truth (M := M) dec try_reserve_exact archive_of).
Abbreviation tile_truth := (tile_truth dec try_reserve_exact metadata_from_json Metadata_default archive_of).
Abbreviation answers := (answers dec try_reserve_exact metadata_from_json Metadata_default archive_of).
Abbreviation denies := (denies dec try_reserve_exact metadata_from_json Metadata_default archive_of).
Context `{!TileLaws dec try_reserve_exact metadata_from_json Metadata_default archive_of self_node_id waits}.

(** The node is coherent and the rounds suffice. *)
Definition inv (L : list FlightKey) (s : St) : Prop := exists n, (n < fuel)%nat /\ within L n s.

(** A computation keeps [inv], its value satisfies [T] and its error [X]. *)
Definition ensures (L : list FlightKey) {E A : Type} (c : SM St E A) (T : A -> Prop) (X : E -> Prop) : Prop :=
  sm_post (inv L) c (fun a s => inv L s /\ T a) (fun e s => inv L s /\ X e).

Lemma ensures_bind {L} {E A B : Type} (c : SM St E A) (f : A -> SM St E B) T U X :
  ensures L c T X -> (forall a, T a -> ensures L (f a) U X) -> ensures L (c ≫= f) U X.
Proof.
  intros Hc Hf. eapply sm_post_bind; [exact Hc|]. intros a s [Hs Ha]. by apply (Hf a Ha s).
Qed.

Lemma ensures_ret {L} {E A : Type} (a : A) (T : A -> Prop) (X : E -> Prop) : T a -> ensures L (mret a) T X.
Proof. intros Ha s Hs. by split. Qed.

Lemma ensures_lift {L} {E A : Type} (r : Res E A) (T : A -> Prop) (X : E -> Prop) :
  r <> Panic -> (forall a, r = Ok a -> T a) -> (forall e, r = Err e -> X e) -> ensures L (lift r) T X.
Proof. intros Hp HT HX. apply sm_post_lift; [done|split; auto..]. Qed.

Lemma ensures_attempt {L} {E F A : Type} (c : SM St E A) T X (Y : F -> Prop) :
  ensures L c T X -> ensures L (sm_attempt c) (fun r => match r with inr a => T a | inl e => X e end) Y.
Proof.
  intros Hc s Hs. specialize (Hc s Hs). unfold sm_attempt. by destruct (c s) as [[a|e|] s'].
Qed.

Lemma ensures_conseq {L} {E A : Type} (c : SM St E A) (T T' : A -> Prop) (X X' : E -> Prop) :
  ensures L c T X -> (forall a, T a -> T' a) -> (forall e, X e -> X' e) -> ensures L c T' X'.
Proof. intros Hc HT HX. eapply sm_post_conseq; [exact Hc|done|..]; intros ? ? [? ?]; eauto. Qed.

(** Errors without a claim. *)
Abbreviation no_claim := (fun _ => True).

Lemma ensures_attempt_any {L} {E F A : Type} (c : SM St E A) T X (Y : F -> Prop) (f : E + A -> SM St F A) U :
  ensures L c T X -> (forall e, X e -> ensures L (f (inl e)) U Y) -> (forall a, T a -> ensures L (f (inr a)) U Y) ->
  ensures L (sm_attempt c ≫= f) U Y.
Proof. intros Hc He Ha. eapply ensures_bind; [by eapply ensures_attempt|]. intros [e|a]; auto. Qed.

(** ** Updates that keep a node coherent *)

Lemma inv_coherent {L} s : inv L s -> coherent s.
Proof. by intros (n & _ & [Hc _ _ _]). Qed.

(** Flights and world aside, only coherence matters. *)
Lemma inv_update {L} s s' :
  inv L s -> tn_world s' = tn_world s -> tn_flights s' = tn_flights s -> tn_led s' = tn_led s -> coherent s' -> inv L s'.
Proof.
  intros (n & Hn & [Hc Hw Hl Hj]) Ew Ef El Hc'. exists n. split; [done|]. split; [done|..]; by rewrite ?Ew, ?Ef, ?El.
Qed.

Lemma inv_set_waited {L} b s : inv L s -> inv L (set_waited b s).
Proof. intros Hs. apply (inv_update s); try done. by destruct (inv_coherent s Hs). Qed.

Lemma inv_set_peers {L} p s : inv L s -> inv L (set_peers p s).
Proof. intros Hs. apply (inv_update s); try done. by destruct (inv_coherent s Hs). Qed.

Lemma inv_background {L} s : inv L s -> inv L (tw_background s).
Proof.
  intros (n & Hn & Hs). exists n. split; [done|].
  by apply (law_background dec try_reserve_exact metadata_from_json Metadata_default archive_of self_node_id waits).
Qed.

Lemma archive_matches_header a b : archive_matches a b ->
  exists b0, ref_bootstrap a = Ok b0 /\ ab_header b = ab_header b0 /\ ab_archive_len b = ab_archive_len b0.
Proof. intros (b0 & Hb0 & (Hh & _ & Hl) & _). eauto. Qed.

(** A decoded prefix of the archive is its bootstrap. *)
Lemma prefix_decodes t bs b :
  archive_prefix t bs -> decode_bootstrap_bytes dec try_reserve_exact bs DEFAULT_MAX_DECOMPRESSED_BYTES = Ok b ->
  exists a, archive_of t = Some a /\ archive_matches a b /\ ref_bootstrap a = Ok b.
Proof.
  intros (a & n & Ha & Hn & ->) Hd. exists a. split; [done|].
  assert (Hb : ref_bootstrap a = Ok b).
  { unfold TileArchives.ref_bootstrap. eapply decode_bootstrap_prefix; [|exact Hd]. apply take_prefix_le. lia. }
  split; [|done]. exists b. split_and!; [done..|]. intros md Hmd. exfalso.
  apply decode_bootstrap_bytes_Ok in Hd as [_ Hnone]; [congruence|done|].
  apply Forall_take. by eapply Hbytes.
Qed.

Lemma inv_put_archive {L} t b bs s :
  inv L s -> bootstrap_truth t (Some b) -> archive_prefix t bs ->
  inv L (set_archives (ac_put t b bs (tn_archives s)) s).
Proof.
  intros Hs Hb Hp. apply (inv_update s); try done. destruct (inv_coherent s Hs) as [H1 H2 H3 H4 H5 H6].
  split; cbn; try done.
  - intros t' ca [[<- <-]|[Hne Hc]]%lookup_insert_Some; [|by apply H1]. cbn. split; [|done].
    destruct (ab_metadata b) eqn:Hm; [done|].
    destruct (ac_archives (tn_archives s) !! t) as [ex|] eqn:Hex; [|done].
    destruct (H1 t ex Hex) as [(a & Ha & b0 & Hb0 & _ & Hmd) _].
    destruct Hb as (a' & Ha' & b0' & Hb0' & Hsame & _).
    assert (a' = a) as -> by congruence. assert (b0' = b0) as -> by congruence.
    exists a. split; [done|]. exists b0. by split_and!.
  - intros t' e [_ He]%lookup_delete_Some. by eapply H3.
Qed.

Lemma inv_mark_absent {L} t now s :
  inv L s -> archive_of t = None -> inv L (set_archives (ac_mark_absent now t (tn_archives s)) s).
Proof.
  intros Hs Hn. apply (inv_update s); try done. destruct (inv_coherent s Hs) as [H1 H2 H3 H4 H5 H6].
  split; cbn; try done.
  intros t' e [[<- _]|[_ He]]%lookup_insert_Some; [done|by eapply H3].
Qed.

Lemma inv_put_metadata {L} t md s :
  inv L s -> metadata_truth t (Some md) -> inv L (set_archives (ac_put_metadata t md (tn_archives s)) s).
Proof.
  intros Hs (a & b0 & Ha & Hb0 & Hmd). apply (inv_update s); try done.
  destruct (inv_coherent s Hs) as [H1 H2 H3 H4 H5 H6]. unfold ac_put_metadata.
  destruct (ac_archives (tn_archives s) !! t) as [ca|] eqn:Hc; [|by split]. split; cbn; try done.
  intros t' ca' [[<- <-]|[Hne Hc']]%lookup_insert_Some; [|by apply H1]. cbn.
  destruct (H1 t ca Hc) as [(a' & Ha' & b1 & Hb1 & Hsame & _) Hp].
  assert (a' = a) as -> by congruence. assert (b1 = b0) as -> by congruence. split; [|done].
  exists a. split; [done|]. exists b0. split_and!; [done|done|]. by intros ? [= <-].
Qed.

Lemma inv_put_leaf {L} t offset length d s :
  inv L s -> leaf_truth t offset length d ->
  inv L (set_archives (ac_put_leaf (t, offset, length) d (tn_archives s)) s).
Proof.
  intros Hs Hl. apply (inv_update s); try done. destruct (inv_coherent s Hs) as [H1 H2 H3 H4 H5 H6].
  split; cbn; try done.
  intros t' o' l' d' [[[= <- <- <-] <-]|[Hne Hc]]%lookup_insert_Some; [done|by apply H2].
Qed.

Lemma ensures_update {L} {E : Type} f (X : E -> Prop) :
  (forall now s, inv L s -> inv L (set_archives (f now (tn_archives s)) s)) ->
  ensures L (update_archives f) no_claim X.
Proof. intros Hf s Hs. split; [by apply Hf|done]. Qed.

Lemma ensures_with_archives {L} {E A : Type} (f : Z -> ArchiveCache M -> A) (T : A -> Prop) (X : E -> Prop) :
  (forall now s, coherent s -> T (f now (tn_archives s))) -> ensures L (with_archives f) T X.
Proof.
  intros Hf s Hs%inv_background. split; [done|]. by eapply Hf, inv_coherent.
Qed.

(** ** Flights *)

(** Giving up the innermost guard. *)
Lemma inv_end_flight {L} guard s :
  inv (lg_key guard :: L) s -> inv L (end_flight (drop_guard guard) s).
Proof.
  intros (n & Hn & [Hc Hw Hl Hj]). exists n. split; [done|].
  split; cbn; [|done|by rewrite Hl|].
  - destruct Hc as [H1 H2 H3 H4 H5 H6]. split; cbn; try done. by apply drop_guard_wf.
  - intros key c. rewrite drop_guard_entries. intros [Hne Hk]%lookup_delete_Some Hnot.
    eapply Hj; [done|]. by rewrite not_elem_of_cons.
Qed.

Lemma complete_post {L} {A : Type} guard (r : AnyError + A) (T : A -> Prop) :
  (forall a, r = inr a -> T a) ->
  sm_post (inv (lg_key guard :: L)) (complete_reader_flight guard r)
    (fun a s => inv L s /\ T a) (fun _ s => inv L s /\ True).
Proof.
  intros HT s Hs. destruct r as [e|a]; cbn; (split; [|by auto]).
  - by apply (inv_end_flight {| lg_key := lg_key guard; lg_outcome := Some (rfe_capture e) |}).
  - by apply inv_end_flight.
Qed.

Lemma flight_begin_inv {L} key s :
  inv L s -> match flight_begin (E := AnyError) key s with
             | (Ok (FlightFollower f), s') => s' = s /\ follows key f (tn_flights s)
             | (Ok (FlightLeader g), s') => lg_key g = key /\ inv (key :: L) s'
             | _ => False
             end.
Proof.
  intros Hs. pose proof (begin_spec key (tn_flights s) (co_flights _ _ _ _ _ _ (inv_coherent s Hs))) as [Hwf' Hspec].
  unfold flight_begin. destruct (begin key (tn_flights s)) as [[g|f] table]; cbn in *.
  - destruct Hspec as (_ & -> & He & _). split; [done|].
    destruct Hs as (n & Hn & [[H1 H2 H3 H4 H5 H6] Hw Hl Hj]). exists n. split; [done|].
    split; cbn; [by split|done|by rewrite Hl|]. intros k c. rewrite He, not_elem_of_cons. intros Hk [Hne Hnot].
    rewrite lookup_insert_ne in Hk by done. by eapply Hj.
  - destruct Hspec as [-> Hf]. split; [by destruct s|done].
Qed.

(** A leader does the work with its guard held, and gives it up. *)
Lemma lead_post {L} {A : Type} guard (work : SM St AnyError A) (T : A -> Prop) :
  ensures (lg_key guard :: L) work T no_claim ->
  sm_post (inv (lg_key guard :: L)) (result ← sm_attempt work; complete_reader_flight guard result)
    (fun a s => inv L s /\ T a) (fun _ s => inv L s /\ True).
Proof.
  intros Hw. eapply sm_post_bind.
  { eapply sm_post_conseq; [by eapply (ensures_attempt (F := AnyError) _ _ _ (fun _ => False))|done..|]. by intros e s []. }
  cbn beta. intros r s [Hs Hr]. apply complete_post; [|done]. by intros a ->.
Qed.

Lemma flight_loop_post {L} {A : Type} n m f key (work : SM St AnyError A) (T : A -> Prop) :
  (n <= fuel)%nat -> (m < n)%nat -> key ∉ L ->
  (forall now s, coherent s -> forall a, f now (tn_archives s) = Some a -> T a) ->
  ensures (key :: L) work T no_claim ->
  sm_post (within L m) (flight_loop n (with_archives f) key work) (fun a s => inv L s /\ T a) (fun _ s => inv L s /\ True).
Proof.
  intros Hn Hm Hnot Hf Hwork. revert m Hm. induction n as [|n IH]; intros m Hm s Hs; [lia|]. cbn [flight_loop].
  unfold mbind, SM_bind, with_archives at 1. cbn.
  apply (law_background dec try_reserve_exact metadata_from_json Metadata_default archive_of self_node_id waits) in Hs.
  set (s1 := tw_background s) in *.
  assert (Hs1 : inv L s1) by (exists m; split; [lia|done]).
  destruct (f (tw_now (tn_world s1)) (tn_archives s1)) as [a|] eqn:Hfa;
    [cbn; split; [done|]; by eapply Hf, Hfa; eapply inv_coherent|].
  pose proof (flight_begin_inv key s1 Hs1) as Hb. destruct (flight_begin key s1) as [[[g|fo]|e|] s2]; try done.
  - destruct Hb as [<- Hb]. by apply (lead_post g work T Hwork s2).
  - destruct Hb as [-> Hfo]. unfold wait_reader_flight.
    destruct (law_await dec try_reserve_exact metadata_from_json Metadata_default archive_of self_node_id waits
                L m key fo s1) as (m' & Hm' & Hs2 & Hrel); [done..|].
    destruct (wait_poll_released _ fo Hrel) as [v Hv]. rewrite Hv. destruct v as [e|].
    + split; [|done]. exists m'. split; [lia|done].
    + apply (IH ltac:(lia) m'); [lia|done].
Qed.

Lemma flight_loop_ensures {L} {A : Type} f key (work : SM St AnyError A) (T : A -> Prop) :
  key ∉ L -> (forall now s, coherent s -> forall a, f now (tn_archives s) = Some a -> T a) ->
  ensures (key :: L) work T no_claim -> ensures L (flight_loop fuel (with_archives f) key work) T no_claim.
Proof. intros Hnot Hf Hwork s (m & Hm & Hs). by apply (flight_loop_post fuel m f key work T). Qed.

(** ** Reads *)

#[export] Instance tile_peer_laws L : PeerLaws self_node_id (inv L) answers denies.
Proof.
  split.
  - intros p s. apply inv_set_peers.
  - intros s (n & Hn & Hs). exists n. split; [done|].
    by apply (law_peers dec try_reserve_exact metadata_from_json Metadata_default archive_of self_node_id waits).
  - intros peer path Hne s (n & Hn & Hs).
    pose proof (law_fetch dec try_reserve_exact metadata_from_json Metadata_default archive_of self_node_id waits
                  L n peer path Hne s Hs) as Hf.
    cbn. destruct (tw_transport_fetch peer path s) as [[r|e|] s']; [| |done];
      destruct Hf as [Hs' Hr]; (split; [exists n; by split|done]).
Qed.

Lemma enforce_chunk_limit_no_panic kind start length size : enforce_chunk_limit kind start length size <> Panic.
Proof. unfold enforce_chunk_limit. no_panic. Qed.

(** The declared length of the archive, when a read passes one. *)
Definition declared (t : string) (archive_len : option Z) : Prop :=
  forall m, archive_len = Some m ->
    exists a b0, archive_of t = Some a /\ ref_bootstrap a = Ok b0 /\ m = ab_archive_len b0.

Lemma storage_read_ensures {L} t start length archive_len :
  is_u64 start -> is_usize length -> declared t archive_len ->
  ensures L (storage_read_range message_text chunk_size t start length archive_len)
    (fun bs => (length <> 0 -> is_Some (archive_of t)) /\
               forall a, archive_of t = Some a -> bs = ref_range a start length)
    (fun e => e = SeNotFound -> archive_of t = None).
Proof.
  intros Hstart Hlen Hdecl. unfold storage_read_range. destruct (Z.eqb_spec length 0) as [->|Hne].
  { apply ensures_ret. split; [done|]. intros a _. unfold ref_range. by rewrite Z.add_0_r, slice_empty. }
  eapply (ensures_bind _ _ no_claim).
  { apply ensures_lift; [apply map_err_no_panic, enforce_chunk_limit_no_panic|done|].
    intros e He. destruct (enforce_chunk_limit _ _ _ _); simplify_eq/=. by intros ?. }
  intros _ _. eapply ensures_bind.
  { eapply (ensures_attempt _ (fun rd => exists a, archive_of t = Some a /\ cr_bytes rd = ref_range a start length)
              (fun e => e = NotFound -> archive_of t = None)).
    intros s (n & Hn & Hs).
    pose proof (law_read dec try_reserve_exact metadata_from_json Metadata_default archive_of self_node_id waits
                  L n t start length archive_len Hstart Hlen Hdecl s Hs) as Hr.
    destruct (tw_read_bytes t start length archive_len s) as [[rd|e|] s']; [| |done];
      destruct Hr as [Hs' Hr]; (split; [exists n; by split|done]). }
  intros [e|rd] H; cbn in H.
  - apply ensures_lift; [done..|]. intros e' [= <-]. destruct e; try done. intros _. by apply H.
  - destruct H as (a & Ha & Hb). eapply (ensures_bind _ _ no_claim).
    + intros s Hs. cbn. split; [|done]. destruct (cr_source rd); [done|by apply inv_set_waited].
    + intros _ _. apply ensures_ret. split; [by eexists|]. intros a' Ha'. by simplify_eq.
Qed.

Lemma context_ensures {L} {A : Type} text (c : SM St StorageError A) T X :
  ensures L c T X -> ensures L (context text c) T no_claim.
Proof.
  intros Hc. unfold context. eapply ensures_bind; [by eapply ensures_attempt|].
  intros [e|a] H; [by apply ensures_lift|by apply ensures_ret].
Qed.

Lemma format_error_no_panic {A : Type} (r : Res FormatError A) : r <> Panic -> format_error format_text r <> Panic.
Proof. apply map_err_no_panic. Qed.

Lemma format_error_Ok {A : Type} (r : Res FormatError A) a : format_error format_text r = Ok a -> r = Ok a.
Proof. by destruct r; cbn; intros [= <-]. Qed.

(** ** Bootstraps *)

Lemma decode_prefix_ensures {L} t bs :
  archive_prefix t bs ->
  ensures L (lift (E := AnyError) (format_error format_text
    (decode_bootstrap_bytes dec try_reserve_exact bs DEFAULT_MAX_DECOMPRESSED_BYTES)))
    (fun b => exists a, archive_of t = Some a /\ archive_matches a b /\ ref_bootstrap a = Ok b) no_claim.
Proof.
  intros Hp. assert (Hb : is_bytes bs).
  { destruct Hp as (a & n & Ha & _ & ->). apply Forall_take. by eapply Hbytes. }
  apply ensures_lift; [by apply format_error_no_panic, decode_bootstrap_bytes_no_panic| |done].
  intros b Hd%format_error_Ok. by eapply prefix_decodes.
Qed.

Lemma load_bootstrap_local_uncached_ensures {L} t :
  ensures L (load_bootstrap_local_uncached dec try_reserve_exact format_text message_text chunk_size t)
    (bootstrap_truth t) no_claim.
Proof.
  unfold load_bootstrap_local_uncached. eapply ensures_bind.
  { apply ensures_attempt, storage_read_ensures; [done|done|by intros m]. }
  intros [e|bs] H; cbn in H.
  - destruct e; try by apply ensures_lift.
    eapply (ensures_bind _ _ no_claim); [|by intros _ _; apply ensures_ret, H].
    apply ensures_update. intros now s Hs. by apply inv_mark_absent, H.
  - destruct H as [[a Ha] H]; [done|]. specialize (H a Ha).
    assert (Hp : archive_prefix t bs).
    { exists a, MIN_BOOTSTRAP_BYTES. split; [done|]. split; [done|].
      rewrite H. unfold ref_range, slice. rewrite Z.add_0_l, Z.sub_0_r.
      change (Z.to_nat 0) with 0%nat. rewrite drop_0. reflexivity. }
    eapply ensures_bind; [by apply decode_prefix_ensures|]. cbn. intros b (a' & Ha' & Hm & Hb).
    eapply (ensures_bind _ _ no_claim); [apply ensures_update; intros now s Hs; apply inv_put_archive; cbn; eauto|].
    intros _ _. apply ensures_ret. cbn. eauto.
Qed.

Lemma decode_metadata_no_panic h bs limit : decode_metadata_bytes dec metadata_from_json h bs limit <> Panic.
Proof.
  unfold decode_metadata_bytes. apply Res_bind_no_panic; [apply decompress_no_panic|]. intros. apply ok_or_no_panic.
Qed.

Lemma ensures_map_err {L} {E F A : Type} (f : E -> F) (r : Res E A) T X (Y : F -> Prop) :
  ensures L (lift r) T X -> (forall e, X e -> Y (f e)) -> ensures L (lift (map_err f r)) T Y.
Proof.
  intros H HY s Hs. specialize (H s Hs). unfold lift in *. destruct r; cbn; [done| |done].
  destruct H as [? ?]. auto.
Qed.

(** Bytes of the metadata section decode to the metadata of the archive. *)
Lemma decode_metadata_ensures {L} a (b0 : ArchiveBootstrap M) bs :
  metadata_length (ab_header b0) <> 0 ->
  bs = ref_range a (metadata_offset (ab_header b0)) (metadata_length (ab_header b0)) ->
  ensures L (lift (format_error format_text (decode_metadata_bytes dec metadata_from_json
    (ab_header b0) bs DEFAULT_MAX_DECOMPRESSED_BYTES)))
    (fun md => ref_metadata a (ab_header b0) = Ok md) no_claim.
Proof.
  intros Hne ->. apply ensures_lift; [apply format_error_no_panic, decode_metadata_no_panic| |done].
  intros md H%format_error_Ok. unfold TileArchives.ref_metadata. by rewrite (proj2 (Z.eqb_neq _ _)) by done.
Qed.

Lemma install_transfer_ensures {L} t include_metadata sent tr :
  transfer_truth t include_metadata sent -> bt_bootstrap tr = bt_bootstrap sent ->
  (forall md, bt_metadata tr = Some md -> bt_metadata sent = Some md) ->
  ensures L (install_transfer dec try_reserve_exact metadata_from_json format_text t tr) (bootstrap_truth t) no_claim.
Proof.
  intros (Hp & a & b0 & Ha & Hb0 & Hsent) Hboot Hmd. unfold install_transfer. rewrite Hboot.
  eapply (ensures_bind _ _ (fun b => b = b0 /\ archive_matches a b)).
  { eapply ensures_map_err; [|done]. eapply ensures_conseq; [by apply (decode_prefix_ensures t)| |done].
    cbn. intros b (a' & Ha' & Hm & Hb). assert (a' = a) as -> by congruence. split; [congruence|done]. }
  cbn. intros b [-> Hm]. eapply (ensures_bind _ _ (archive_matches a)).
  - destruct (bt_metadata tr) as [md|] eqn:Htr; [|by apply ensures_ret].
    specialize (Hmd md eq_refl). rewrite Hsent in Hmd.
    destruct (include_metadata && (0 <? metadata_length (ab_header b0))) eqn:Hi; [|done]. bool_props.
    injection Hmd as <-. eapply ensures_bind; [by eapply ensures_map_err; [apply (decode_metadata_ensures a b0); [lia|done]|]|].
    cbn. intros md Hmd. apply ensures_ret. exists b0. split_and!; [done..|]. by intros ? [= <-].
  - intros b Hb. eapply (ensures_bind _ _ no_claim).
    + apply ensures_update. intros now s Hs. apply inv_put_archive; [done|cbn; eauto|done].
    + intros _ _. apply ensures_ret. cbn. eauto.
Qed.

Lemma route_bootstrap_ensures {L} t include_metadata :
  valid_tileset t ->
  ensures L (route_bootstrap xxhash64 self_node_id router t include_metadata)
    (fun o => forall tr, o = Some tr -> exists sent, transfer_truth t include_metadata sent /\
       bt_bootstrap tr = bt_bootstrap sent /\ forall md, bt_metadata tr = Some md -> bt_metadata sent = Some md)
    no_claim.
Proof.
  intros Hv. eapply sm_post_conseq; [apply (route_bootstrap_post xxhash64 self_node_id router (inv L) answers denies
    t include_metadata (fun _ s => inv L s)); done|done| |by intros e s Hs].
  cbn. intros o s [Hs Ho]. split; [done|]. intros tr ->. destruct (Ho tr eq_refl) as (r & Hr & Hd).
  destruct (an_bootstrap _ _ _ _ _ _ _ Hr t include_metadata Hv eq_refl) as (sent & Hsent & Hbody).
  exists sent. split; [done|]. rewrite Hbody in Hd.
  destruct Hsent as ((a & n & Ha & Hn & Hboot) & a' & b0 & Ha' & Hb0 & Hmd). assert (a' = a) as -> by congruence.
  eapply decode_bootstrap_wire_sound; [| | |exact Hd].
  - rewrite Hboot. unfold len. rewrite length_take. unfold MIN_BOOTSTRAP_BYTES in *. lia.
  - rewrite Hboot. rewrite length_take. intros H8. rewrite take_take, Nat.min_l by lia. by eapply ref_bootstrap_magic.
  - rewrite Hmd. intros [md Hs']. by destruct include_metadata.
Qed.

Lemma known_bootstrap_truth t now s :
  coherent s -> forall o : option (ArchiveBootstrap M),
  match ac_get t (tn_archives s) with
  | Some archive => Some (Some archive)
  | None => if ac_is_known_absent now t (tn_archives s) then Some None else None
  end = Some o -> bootstrap_truth t o.
Proof.
  intros Hc o. unfold ac_get, ac_is_known_absent.
  destruct (ac_archives (tn_archives s) !! t) as [ca|] eqn:Ha; cbn.
  - intros [= <-]. by apply (co_archives _ _ _ _ _ _ Hc) in Ha as [H _].
  - destruct (ac_absent (tn_archives s) !! t) eqn:He; [|done]. case_match; [|done]. intros [= <-]. cbn.
    by eapply (co_absent _ _ _ _ _ _ Hc).
Qed.

Abbreviation load_bootstrap_with_metadata t include_metadata :=
  (load_bootstrap_with_metadata dec try_reserve_exact metadata_from_json format_text message_text xxhash64
     self_node_id router chunk_size fuel t include_metadata).
Abbreviation load_bootstrap_local t :=
  (load_bootstrap_local dec try_reserve_exact format_text message_text chunk_size fuel t).

Lemma load_bootstrap_with_metadata_ensures {L} t include_metadata :
  valid_tileset t -> bootstrap_flight t ∉ L -> ensures L (load_bootstrap_with_metadata t include_metadata) (bootstrap_truth t) no_claim.
Proof.
  intros Hv Hnot. apply flight_loop_ensures; [done|intros now s; apply known_bootstrap_truth|].
  unfold load_bootstrap_uncached. eapply ensures_bind; [by eapply ensures_attempt, route_bootstrap_ensures|].
  intros [e|[tr|]] H; cbn in H; [apply load_bootstrap_local_uncached_ensures| |apply load_bootstrap_local_uncached_ensures].
  destruct (H tr eq_refl) as (sent & Hsent & Hb & Hmd). by eapply install_transfer_ensures.
Qed.

Lemma load_bootstrap_local_ensures {L} t :
  bootstrap_flight t ∉ L -> ensures L (load_bootstrap_local t) (bootstrap_truth t) no_claim.
Proof.
  intros Hnot. apply flight_loop_ensures; [done|intros now s; apply known_bootstrap_truth|apply load_bootstrap_local_uncached_ensures].
Qed.

Lemma ref_bootstrap_ok t a b0 : archive_of t = Some a -> ref_bootstrap a = Ok b0 -> bootstrap_ok b0.
Proof.
  intros Ha. unfold TileArchives.ref_bootstrap. generalize (Z.to_nat MIN_BOOTSTRAP_BYTES) as n. intros n Hb.
  apply decode_bootstrap_bytes_Ok in Hb as [H _]; [done|done|].
  apply Forall_take. by eapply Hbytes.
Qed.

Lemma declared_of t a (b b0 : ArchiveBootstrap M) :
  archive_of t = Some a -> ref_bootstrap a = Ok b0 -> same_archive b b0 -> declared t (Some (ab_archive_len b)).
Proof. intros Ha Hb (_ & _ & Hl) m [= <-]. exists a, b0. by rewrite Hl. Qed.

(** ** Metadata *)

(** The metadata section, read from the store. *)
Lemma read_metadata_ensures {L} {B : Type} t a b b0 text (f : bytes -> SM St AnyError B) U :
  archive_of t = Some a -> ref_bootstrap a = Ok b0 -> same_archive b b0 ->
  ensures L (f (ref_range a (metadata_offset (ab_header b0)) (metadata_length (ab_header b0)))) U no_claim ->
  ensures L (length ← lift (metadata_length_usize (ab_header b));
           bytes ← context text (storage_read_range message_text chunk_size t (metadata_offset (ab_header b)) length
                                   (Some (ab_archive_len b)));
           f bytes) U no_claim.
Proof.
  intros Ha Hb0 Hsame Hf. destruct (ref_bootstrap_ok t a b0 Ha Hb0) as [Hwf _].
  assert (Hh : ab_header b = ab_header b0) by apply Hsame.
  unfold header_wf, Header_sections in Hwf. rewrite !Forall_cons in Hwf. destruct Hwf as (_ & [Ho Hl] & _).
  eapply (ensures_bind _ _ (fun n => n = metadata_length (ab_header b0))).
  - apply ensures_lift; [apply ok_or_no_panic| |done].
    intros n [Hn _]%ok_or_Ok%usize_try_from_Some. by rewrite Hn, Hh.
  - intros n ->. eapply ensures_bind; [eapply context_ensures, storage_read_ensures|].
    + by rewrite Hh.
    + done.
    + by eapply declared_of.
    + cbn. intros bs [_ H]. rewrite Hh in H. by rewrite (H a Ha).
Qed.

Lemma load_metadata_from_backend_ensures {L} t b :
  bootstrap_truth t (Some b) ->
  ensures L (load_metadata_from_backend dec metadata_from_json Metadata_default format_text message_text chunk_size t b)
    (fun md => metadata_truth t (Some md)) no_claim.
Proof.
  intros (a & Ha & b0 & Hb0 & Hsame & _). assert (Hh : ab_header b = ab_header b0) by apply Hsame.
  unfold load_metadata_from_backend.
  assert (Hret : forall md, ref_metadata a (ab_header b0) = Ok md -> metadata_truth t (Some md)).
  { intros md Hmd. exists a, b0. by split_and!. }
  destruct (Z.eqb_spec (metadata_length (ab_header b)) 0) as [Hz|Hz].
  { apply ensures_ret, Hret. unfold TileArchives.ref_metadata. by rewrite <- Hh, Hz. }
  apply (read_metadata_ensures t a b b0); [done..|].
  rewrite Hh in *. eapply ensures_conseq; [by apply (decode_metadata_ensures a b0)|auto|done].
Qed.

Abbreviation rd_load_metadata t :=
  (rd_load_metadata dec try_reserve_exact metadata_from_json Metadata_default format_text message_text xxhash64
     self_node_id router chunk_size fuel t).

Lemma rd_load_metadata_ensures t : valid_tileset t -> ensures [] (rd_load_metadata t) (metadata_truth t) no_claim.
Proof.
  intros Hv. apply flight_loop_ensures; [by apply not_elem_of_nil|..].
  - intros now s Hc o. unfold ac_get, ac_is_known_absent.
    destruct (ac_archives (tn_archives s) !! t) as [ca|] eqn:Ha; cbn.
    + apply (co_archives _ _ _ _ _ _ Hc) in Ha as [(a & Ha & b0 & Hb0 & _ & Hmd) _].
      destruct (ab_metadata (ca_archive ca)) as [md|]; [intros [= <-]; exists a, b0; by auto|].
      destruct (ac_absent (tn_archives s) !! t) eqn:He; [|done]. apply (co_absent _ _ _ _ _ _ Hc) in He. congruence.
    + destruct (ac_absent (tn_archives s) !! t) eqn:He; [|done]. case_match; [|done]. intros [= <-]. cbn.
      by eapply (co_absent _ _ _ _ _ _ Hc).
  - unfold load_metadata_uncached. eapply ensures_bind; [apply load_bootstrap_with_metadata_ensures; [done|]|].
    { by rewrite list_elem_of_singleton. }
    intros [b|] Hb; [|by apply ensures_ret].
    destruct (ab_metadata b) as [md|] eqn:Hmd.
    + apply ensures_ret. destruct Hb as (a & Ha & b0 & Hb0 & _ & H). exists a, b0. by auto.
    + eapply ensures_bind; [by apply load_metadata_from_backend_ensures|]. cbn. intros md Ht.
      eapply (ensures_bind _ _ no_claim); [apply ensures_update; intros now s Hs; by apply inv_put_metadata|].
      intros _ _. by apply ensures_ret.
Qed.

(** ** Leaf directories *)

Lemma route_leaf_ensures {L} {E : Type} t offset length (X : E -> Prop) :
  valid_tileset t -> is_u64 offset -> is_usize length ->
  ensures L (route_leaf xxhash64 self_node_id router t offset length)
    (fun o => forall bs, o = Some bs -> exists a, archive_of t = Some a /\ bs = ref_range a offset length) X.
Proof.
  intros Hv Ho Hl. eapply sm_post_conseq; [apply (route_fetch_optional_post xxhash64 self_node_id router (inv L) answers
    denies t (leaf_path t offset length) "leaf" (fun _ _ => False))|done| |done].
  cbn. intros o s [Hs Hb]. split; [done|]. intros bs ->. destruct (Hb bs eq_refl) as (r & Hr & ->).
  by apply (an_leaf _ _ _ _ _ _ _ Hr).
Qed.

Lemma parse_leaf_ensures {L} a compression offset length bs :
  bs = ref_range a offset length ->
  ensures L (lift (format_error format_text (Directory_parse dec try_reserve_exact compression bs)))
    (fun d => ref_leaf a compression offset length = Ok d) no_claim.
Proof.
  intros ->. apply ensures_lift; [apply format_error_no_panic, Directory_parse_no_panic|by intros d Hd%format_error_Ok|done].
Qed.

Abbreviation load_leaf_directory t offset length compression archive_len :=
  (load_leaf_directory dec try_reserve_exact format_text message_text xxhash64 self_node_id router chunk_size fuel
     t offset length compression archive_len).

Lemma load_leaf_directory_ensures {L} t a b0 offset length :
  valid_tileset t -> leaf_flight (t, offset, length) ∉ L -> is_u64 offset -> is_usize length -> archive_of t = Some a -> ref_bootstrap a = Ok b0 ->
  ensures L (load_leaf_directory t offset length (internal_compression (ab_header b0)) (ab_archive_len b0))
    (fun d => ref_leaf a (internal_compression (ab_header b0)) offset length = Ok d) no_claim.
Proof.
  intros Hv Hnot Ho Hl Ha Hb0. apply flight_loop_ensures; [done|..].
  - intros now s Hc d Hd. apply (co_leafs _ _ _ _ _ _ Hc) in Hd as (a' & b' & Ha' & Hb' & Hd).
    assert (a' = a) as -> by congruence. assert (b' = b0) as -> by congruence. done.
  - unfold load_leaf_directory_uncached. eapply ensures_bind; [by apply route_leaf_ensures|]. cbn. intros o Hbs.
    eapply (ensures_bind _ _ (fun d => ref_leaf a (internal_compression (ab_header b0)) offset length = Ok d)).
    + destruct o as [bs|].
      * destruct (Hbs bs eq_refl) as (a' & Ha' & ->). assert (a' = a) as -> by congruence.
        eapply ensures_map_err; [by apply parse_leaf_ensures|done].
      * unfold read_directory_from_backend. eapply ensures_bind; [eapply context_ensures, storage_read_ensures; [done..|]|].
        -- by eapply declared_of.
        -- cbn. intros bs [_ H]. by apply parse_leaf_ensures, H.
    + cbn. intros d Hd. eapply (ensures_bind _ _ no_claim); [|by intros _ _; apply ensures_ret].
      apply ensures_update. intros now s Hs. apply inv_put_leaf; [done|]. exists a, b0. by split_and!.
Qed.

(** ** Tiles *)

Abbreviation Dist t :=
  (DistributedArchiveBackend dec try_reserve_exact metadata_from_json Metadata_default format_text message_text
     xxhash64 self_node_id router chunk_size fuel t).
Abbreviation Ref a := (ref_backend dec try_reserve_exact metadata_from_json Metadata_default a).

(** Only an absent archive is reported as absent. *)
Definition absent_claim (t : string) (e : DistributedReaderError) : Prop := e = ArchiveAbsent -> archive_of t = None.

Lemma other_ensures {L} {A : Type} t (c : SM St AnyError A) T :
  ensures L c T no_claim -> ensures L (other c) T (absent_claim t).
Proof.
  intros Hc. unfold other. eapply ensures_bind; [by eapply ensures_attempt|].
  intros [e|a] H; [|by apply ensures_ret]. apply ensures_lift; [done..|]. by intros ? [= <-].
Qed.

Lemma present_ensures {L} {A : Type} t (c : SM St AnyError (option A)) T :
  ensures L c T no_claim -> (T None -> archive_of t = None) -> ensures L (present c) (fun a => T (Some a)) (absent_claim t).
Proof.
  intros Hc HN. unfold present. eapply ensures_bind; [by eapply ensures_attempt|].
  intros [e|[a|]] H; [|by apply ensures_ret|]; (apply ensures_lift; [done..|]); intros ? [= <-]; [done|by intros _; apply HN].
Qed.

(** The ranges of a step are machine integers. *)
Lemma walker_step_range d w st w' :
  directory_wf d -> is_u64 (dw_tile_id w) -> header_wf (dw_header w) -> DirectoryWalker_step d w = (Ok st, w') ->
  match st with
  | Missing => True
  | Leaf r => is_u64 (ar_offset r) /\ is_usize (ar_length r)
  | Tile l => is_u64 (tl_offset l) /\ is_usize (tl_length l)
  end.
Proof.
  intros Hwf Hid Hh H. unfold DirectoryWalker_step in H.
  destruct (find_tile_id d (dw_tile_id w)) as [[i e]|] eqn:Hf; [|by injection H as <- <-].
  apply find_tile_id_Some in Hf as (Hi & _); [|done..]. destruct Hwf as [_ Hwf].
  pose proof (Forall_lookup_1 _ _ _ _ Hwf Hi) as (_ & Ho & Hl & _).
  unfold header_wf, Header_sections in Hh. rewrite !Forall_cons in Hh. destruct Hh as (_ & _ & [Hlo _] & [Hdo _] & _).
  unfold is_u, u32_max, u64_max, usize_max in *.
  destruct (is_leaf e); [destruct (dw_depth w >=? dw_max_depth w); [done|]|].
  all: injection H as H <-; res_inv; try done; apply checked_section_offset_Ok in E; cbn; unfold u64_max in *; lia.
Qed.

Lemma check_range_ensures {L} t a offset length (X : DistributedReaderError -> Prop) :
  (forall e, e <> ArchiveAbsent -> X e) ->
  ensures L (lift (check_range (H := Dist t) ReaderLimits_default offset length))
    (fun _ => check_range (H := Ref a) ReaderLimits_default offset length = Ok tt) X.
Proof.
  intros HX. unfold check_range. repeat case_match; (apply ensures_lift; [done|done|]); intros ? [= <-]; by apply HX.
Qed.

Lemma walker_step_no_panic d w : (DirectoryWalker_step d w).1 <> Panic.
Proof.
  unfold DirectoryWalker_step. destruct (find_tile_id _ _) as [[i e]|]; [|done].
  destruct (is_leaf e); [destruct (dw_depth w >=? dw_max_depth w); [done|]|];
    cbn; (apply Res_bind_no_panic; [apply checked_section_offset_no_panic|done]).
Qed.

(** The answer of a walk, and that a tile it found can be read. *)
Definition walk_truth (a : bytes) (b0 : ArchiveBootstrap M) n w d leaves
    (r : option TileLocation * Header * Z * option (list ArchiveRange)) : Prop :=
  resolve_loop (H := Ref a) ReaderLimits_default n b0 w d leaves tt = (Ok r, tt) /\ r.1.1.2 = ab_header b0 /\
  forall l, r.1.1.1 = Some l -> is_u64 (tl_offset l) /\ is_usize (tl_length l) /\ tl_archive_len l = ab_archive_len b0.

Lemma resolve_loop_ensures t a b b0 n w d leaves :
  valid_tileset t -> archive_of t = Some a -> ref_bootstrap a = Ok b0 -> same_archive b b0 ->
  directory_wf d -> is_u64 (dw_tile_id w) -> dw_header w = ab_header b0 -> dw_archive_len w = ab_archive_len b0 ->
  (Z.to_nat (dw_max_depth w - dw_depth w) < n)%nat ->
  ensures [] (resolve_loop (H := Dist t) ReaderLimits_default n b w d leaves) (walk_truth a b0 n w d leaves) (absent_claim t).
Proof.
  intros Hv Ha Hb0 Hsame. revert w d leaves. induction n as [|n IH]; intros w d leaves Hd Hid Hh Hn Hfuel; [lia|].
  destruct (ref_bootstrap_ok t a b0 Ha Hb0) as (Hhw & _).
  assert (Hbh : ab_header b = ab_header b0) by apply Hsame.
  assert (Hbl : ab_archive_len b = ab_archive_len b0) by apply Hsame.
  cbn [resolve_loop]. unfold walk_truth. cbn [resolve_loop].
  destruct (DirectoryWalker_step d w) as [st w'] eqn:Hst. destruct st as [st|e|].
  3: { by pose proof (walker_step_no_panic d w) as Hnp; rewrite Hst in Hnp. }
  2: { intros s Hs. cbn. split; [done|]. by intros. }
  pose proof (walker_step_range d w st w' Hd Hid ltac:(by rewrite Hh) Hst) as Hrange.
  apply DirectoryWalker_step_Ok in Hst as (Hh' & Hn' & Hid' & Hm' & Hst); [|done..].
  eapply (ensures_bind _ _ (fun st0 => st0 = st)).
  { by apply ensures_lift; [done|intros ? [= <-]|]. }
  intros ? ->.
  unfold mbind at 2, SM_bind at 2, lift at 2. cbn [map_err].
  destruct st as [|r|l].
  - apply ensures_ret. rewrite Hbh, Hbl. split_and!; [done|done|]. by intros l.
  - destruct Hst as (Hlt & Hdep & _). destruct Hrange as [Ho Hl].
    eapply ensures_bind; [apply (check_range_ensures t a); by intros e He ?|]. cbn beta. intros [] Hcr.
    rewrite Hbh, Hbl. eapply ensures_bind.
    { apply (other_ensures t), load_leaf_directory_ensures; [done|by apply not_elem_of_nil|done..]. }
    cbn beta. intros d' Hd'. eapply ensures_conseq; [apply IH| |done].
    + apply Directory_parse_wf in Hd' as [H _]; [done|done|]. apply Forall_take, Forall_drop. by eapply Hbytes.
    + congruence.
    + congruence.
    + congruence.
    + lia.
    + intros res (Hres & Hhd & Hloc).
      split_and!; [|done|done]. unfold mbind, SM_bind, lift. cbn [map_err]. rewrite Hcr.
      cbn [load_leaf ref_backend lr_compression lr_offset lr_length] in *. unfold lift. rewrite Hd'. exact Hres.
  - apply ensures_ret. rewrite Hbh, Hbl. destruct Hst as (-> & Hal & _). destruct Hrange.
    split_and!; [done|done|]. intros l' [= <-]. split_and!; [done|done|congruence].
Qed.

Lemma load_bootstrap_ensures t :
  valid_tileset t -> ensures [] (load_bootstrap (ArchiveBackend := Dist t)) (fun b => bootstrap_truth t (Some b)) (absent_claim t).
Proof.
  intros Hv. apply (present_ensures t _ (bootstrap_truth t)); [|done].
  apply load_bootstrap_with_metadata_ensures; [done|by apply not_elem_of_nil].
Qed.

Lemma read_range_ensures {L} t a offset length (b0 : ArchiveBootstrap M) kind :
  archive_of t = Some a -> ref_bootstrap a = Ok b0 -> is_u64 offset -> is_usize length ->
  ensures L (read_range (ArchiveBackend := Dist t)
    {| rq_offset := offset; rq_length := length; rq_archive_len := Some (ab_archive_len b0); rq_kind := kind |})
    (fun bs => bs = ref_range a offset length) (absent_claim t).
Proof.
  intros Ha Hb Ho Hl. apply other_ensures. eapply ensures_conseq; [eapply context_ensures, storage_read_ensures| |done].
  - done.
  - done.
  - by eapply declared_of.
  - cbn. intros bs [_ H]. by apply H.
Qed.

Lemma resolve_tile_location_ensures t id :
  valid_tileset t -> 0 <= id ->
  ensures [] (resolve_tile_location (H := Dist t) ReaderLimits_default id None)
    (fun r => exists a b0, archive_of t = Some a /\ ref_bootstrap a = Ok b0 /\
       resolve_tile_location (H := Ref a) ReaderLimits_default id None tt = (Ok r, tt) /\ r.1.1.2 = ab_header b0 /\
       forall l, r.1.1.1 = Some l ->
         is_u64 (tl_offset l) /\ is_usize (tl_length l) /\ tl_archive_len l = ab_archive_len b0) (absent_claim t).
Proof.
  intros Hv Hid. unfold resolve_tile_location.
  eapply (ensures_bind _ _ (fun id' => TileId_new id = Ok id')).
  { apply ensures_lift; unfold TileId_new; case_match; try done.
    - by intros ? [= <-].
    - by intros ? [= <-] ?. }
  intros id' Hid'. eapply ensures_bind; [by apply load_bootstrap_ensures|]. cbn beta.
  intros b (a & Ha & b0 & Hb0 & Hsame & _).
  destruct (ref_bootstrap_ok t a b0 Ha Hb0) as (Hhw & Hroot & Hal).
  destruct (DirectoryWalker_new_spec (ab_header b0) id' (max_directory_depth ReaderLimits_default)) as [Hwp Hws].
  assert (Hh : ab_header b = ab_header b0) by apply Hsame. assert (Hr : ab_root b = ab_root b0) by apply Hsame.
  rewrite Hh, Hr. eapply (ensures_bind _ _ (fun w =>
    DirectoryWalker_new (ab_header b0) id' (max_directory_depth ReaderLimits_default) = Ok w)).
  { apply ensures_lift; destruct (DirectoryWalker_new _ _ _); try done; [by intros ? [= <-]|by intros ? [= <-] ?]. }
  intros w Hw. destruct (Hws w Hw) as [Hmax Hdep].
  assert (Hww : dw_header w = ab_header b0 /\ dw_archive_len w = ab_archive_len b0 /\ dw_tile_id w = id').
  { unfold DirectoryWalker_new in Hw. destruct (_ =? 0); [done|]. rewrite Hal in Hw. by injection Hw as <-. }
  destruct Hww as (Hwh & Hwl & Hwi). eapply ensures_conseq; [apply (resolve_loop_ensures t a b b0); try done| |done].
  - rewrite Hwi. unfold TileId_new in Hid'. case_match; [done|]. injection Hid' as <-. rewrite Z.gtb_ltb in *.
    bool_props. unfold is_u, MAX_TILE_ID, u64_max in *. lia.
  - rewrite Hmax, Hdep. unfold resolve_fuel. lia.
  - intros r (Hres & Hhd & Hloc). exists a, b0. split_and!; [done|done| |done|done].
    unfold mbind, SM_bind, lift. rewrite Hid'. cbn [map_err load_bootstrap ref_backend]. unfold lift. rewrite Hb0.
    cbn [map_err]. by rewrite Hw.
Qed.

Lemma get_tile_ensures t id :
  valid_tileset t -> 0 <= id ->
  ensures [] (get_tile (H := Dist t) ReaderLimits_default id)
    (fun o => exists a, archive_of t = Some a /\
       ref_tile dec try_reserve_exact metadata_from_json Metadata_default a id = Ok o) (absent_claim t).
Proof.
  intros Hv Hid. unfold get_tile. eapply ensures_bind; [by apply resolve_tile_location_ensures|].
  intros [[[loc h] n] lv] (a & b0 & Ha & Hb0 & Href & Hh & Hloc). cbn in Hh, Hloc. subst h.
  unfold ref_tile, get_tile. unfold mbind at 3, SM_bind at 3.
  destruct loc as [l|].
  - destruct (Hloc l eq_refl) as (Ho & Hl & Hal).
    eapply ensures_bind; [apply (check_range_ensures t a); by intros e He ?|]. cbn beta. intros [] Hcr.
    eapply ensures_bind; [rewrite Hal; by apply (read_range_ensures t a)|]. cbn beta. intros bs ->. apply ensures_ret.
    exists a. split; [done|]. rewrite Href. unfold mbind, SM_bind, lift. by rewrite Hcr.
  - apply ensures_ret. exists a. split; [done|]. by rewrite Href.
Qed.

(** ** What the node's own readers return *)

Lemma absent_as_none_ensures {L} {A : Type} t (c : SM St DistributedReaderError A) T :
  ensures L c T (absent_claim t) ->
  ensures L (absent_as_none c) (fun o => match o with Some a => T a | None => archive_of t = None end) no_claim.
Proof.
  intros Hc. unfold absent_as_none. eapply ensures_bind; [by eapply ensures_attempt|].
  intros [[|e]|a] H; [by apply ensures_ret, H|by apply ensures_lift|by apply ensures_ret].
Qed.

Abbreviation rd_get_tile t id :=
  (rd_get_tile dec try_reserve_exact metadata_from_json Metadata_default format_text message_text xxhash64
     self_node_id router chunk_size fuel t id).
Abbreviation rd_header t :=
  (rd_header dec try_reserve_exact metadata_from_json Metadata_default format_text message_text xxhash64
     self_node_id router chunk_size fuel t).
Abbreviation rd_metadata t :=
  (rd_metadata dec try_reserve_exact metadata_from_json Metadata_default format_text message_text xxhash64
     self_node_id router chunk_size fuel t).

Lemma rd_get_tile_ensures t id :
  valid_tileset t -> 0 <= id -> ensures [] (rd_get_tile t id) (tile_truth t id) no_claim.
Proof.
  intros Hv Hid. eapply ensures_bind; [by eapply absent_as_none_ensures, get_tile_ensures|].
  cbn. unfold TileArchives.tile_truth. intros [o|] H; apply ensures_ret; cbn.
  - destruct H as (a & -> & H). done.
  - by rewrite H.
Qed.

Lemma rd_header_ensures t :
  valid_tileset t ->
  ensures [] (rd_header t) (fun o => match o with Some h => header_truth t h | None => archive_of t = None end) no_claim.
Proof.
  intros Hv. apply (absent_as_none_ensures t). unfold reader_header.
  eapply ensures_bind; [by apply load_bootstrap_ensures|]. cbn beta. intros b (a & Ha & b0 & Hb0 & (Hh & _) & _).
  apply ensures_ret. exists a, b0. by split_and!.
Qed.

Lemma rd_metadata_ensures t : valid_tileset t -> ensures [] (rd_metadata t) (metadata_truth t) no_claim.
Proof.
  intros Hv. eapply ensures_conseq.
  - apply (absent_as_none_ensures t _ (fun md => metadata_truth t (Some md))). unfold reader_metadata.
    apply (present_ensures t _ (metadata_truth t)); [by apply rd_load_metadata_ensures|done].
  - by intros [md|].
  - done.
Qed.

(** ** What the node serves to its peers *)

Abbreviation load_bootstrap_bytes_local t include_metadata :=
  (load_bootstrap_bytes_local dec try_reserve_exact format_text message_text chunk_size fuel t include_metadata).
Abbreviation load_leaf_bytes_local t offset length :=
  (load_leaf_bytes_local dec try_reserve_exact format_text message_text chunk_size fuel t offset length).

Lemma load_bootstrap_bytes_local_ensures t include_metadata :
  ensures [] (load_bootstrap_bytes_local t include_metadata)
    (fun o => forall tr, o = Some tr -> transfer_truth t include_metadata tr) no_claim.
Proof.
  unfold load_bootstrap_bytes_local. eapply ensures_bind; [by apply load_bootstrap_local_ensures, not_elem_of_nil|].
  intros [b|] Hb; [|by apply ensures_ret]. destruct Hb as (a & Ha & b0 & Hb0 & Hsame & _).
  assert (Hh : ab_header b = ab_header b0) by apply Hsame.
  destruct (ref_bootstrap_ok t a b0 Ha Hb0) as (Hhw & _ & Hal). apply archive_len_loop_Ok in Hal as [Hpos _].
  assert (Hl : ab_archive_len b = ab_archive_len b0) by apply Hsame.
  eapply (ensures_bind _ _ (fun o => forall bs, o = Some bs -> archive_prefix t bs)).
  { apply ensures_with_archives. intros now s Hc bs. unfold ac_get_bootstrap_bytes.
    destruct (ac_archives (tn_archives s) !! t) as [ca|] eqn:Hca; [|done]. intros [= <-].
    by apply (co_archives _ _ _ _ _ _ Hc) in Hca as [_ H]. }
  intros cached Hcached. eapply (ensures_bind _ _ (archive_prefix t)).
  { destruct cached as [bs|]; [by apply ensures_ret, Hcached|].
    eapply ensures_conseq; [eapply context_ensures, storage_read_ensures| |done].
    - done.
    - unfold is_u, usize_max, u64_max, MIN_BOOTSTRAP_BYTES. lia.
    - by eapply declared_of.
    - cbn. intros bs [_ H]. specialize (H a Ha). exists a, (Z.min (ab_archive_len b) MIN_BOOTSTRAP_BYTES).
      split; [done|]. split; [lia|]. rewrite H. unfold ref_range, slice. rewrite Z.add_0_l, Z.sub_0_r.
      change (Z.to_nat 0) with 0%nat. by rewrite drop_0. }
  intros bs Hbs. eapply (ensures_bind _ _ (fun md => md =
    if include_metadata && (0 <? metadata_length (ab_header b0))
    then Some (ref_range a (metadata_offset (ab_header b0)) (metadata_length (ab_header b0))) else None)).
  - destruct (include_metadata && (0 <? metadata_length (ab_header b))) eqn:Hi; rewrite Hh in Hi; rewrite Hi;
      [|by apply ensures_ret].
    by apply (read_metadata_ensures t a b b0); [..|apply ensures_ret].
  - intros md ->. apply ensures_ret. intros tr [= <-]. split; [done|]. exists a, b0. by split_and!.
Qed.

Lemma load_leaf_bytes_local_ensures t offset length :
  is_u64 offset -> is_usize length ->
  ensures [] (load_leaf_bytes_local t offset length)
    (fun o => forall bs, o = Some bs -> exists a, archive_of t = Some a /\ bs = ref_range a offset length) no_claim.
Proof.
  intros Ho Hl. unfold load_leaf_bytes_local. eapply ensures_bind; [apply ensures_attempt, load_bootstrap_local_ensures, not_elem_of_nil|].
  intros [e|[b|]] Hb; [by apply ensures_lift| |by apply ensures_ret].
  destruct Hb as (a & Ha & b0 & Hb0 & Hsame & _).
  eapply (ensures_bind _ _ (fun r => r = {| vl_offset := offset; vl_length := length |})).
  { apply ensures_lift; [apply ok_or_no_panic| |done]. intros r Hr%ok_or_Ok.
    unfold ValidatedLeafRange_from_archive, ValidatedLeafRange_new in Hr.
    destruct (checked_add offset length); [|done]. cbn in Hr. destruct (checked_add _ _); [|done]. cbn in Hr.
    case_match; [done|]. by injection Hr as <-. }
  intros r ->. cbn [vl_offset vl_length].
  eapply ensures_bind; [eapply ensures_attempt, context_ensures, storage_read_ensures; [done..|by eapply declared_of]|].
  intros [e|bs] H; [by apply ensures_lift|]. apply ensures_ret. intros ? [= <-]. exists a. split; [done|]. by apply H.
Qed.
End ReaderFacts.
