(* ===== verification/Resolver.v ===== *)
(** * The tile resolver of a node

    Models [crates/ishikari-core/src/storage/resolver.rs]: tile requests answered
    from the tile cache, forwarded to the peers that own the tile or resolved
    against the archive, the tileset information, and the internal protocol by
    which a node serves its peers, on the state [TileNode] of [TileArchives].
    Logs and metrics are left out. The texts of structured errors are parameters. *)

From S2P Require Import Prelude StdModel Types PmtilesFormat PmtilesReader TilesetSources ChunkStore.
From S2P Require Import SingleFlight PeerRouting PeerBackend TileArchives.

(** ** Results *)

Inductive ArchivePresence := Present | Absent.

Inductive PeerTileCachePolicy := EntryAndOwner | OwnerOnly.
#[export] Instance PeerTileCachePolicy_eq_dec : EqDecision PeerTileCachePolicy.
Proof. solve_decision. Defined.

Inductive CachedTileLookup := LookupFound (tile : TileData) | LookupNotFound | LookupNone.

Inductive TileSource :=
  | SelfTileCache | SelfChunkCache | SelfBackend | NegativeCache
  | PeerCache | PeerBackendSource | SelfMiss | PeerMiss.

Definition report_label (self : TileSource) : string :=
  match self with
  | SelfTileCache | SelfChunkCache => "self_cache"
  | SelfBackend => "self_backend"
  | NegativeCache | SelfMiss | PeerMiss => "miss"
  | PeerCache => "peer_cache"
  | PeerBackendSource => "peer_backend"
  end.

Definition is_l1_hit (self : TileSource) : bool :=
  match self with SelfTileCache => true | _ => false end.

Definition cache_outcomes (policy : PeerTileCachePolicy) (source : TileSource) : list string :=
  match source with
  | SelfTileCache => ["hit"]
  | NegativeCache => ["negative"]
  | SelfChunkCache | SelfBackend => ["miss"; "insert"]
  | PeerCache | PeerBackendSource =>
      if bool_decide (policy = EntryAndOwner) then ["miss"; "insert"] else ["miss"]
  | SelfMiss | PeerMiss => ["miss"; "negative"]
  end.

Inductive TilesetError :=
  | TeUpstream (message : string)
  | TeRetryableUpstream (message : string)
  | TeTimeout (message : string)
  | TeOverloaded (message : string)
  | TeMiss
  | TeInternal (message : string).

Definition te_is_retryable (self : TilesetError) : bool :=
  match self with TeRetryableUpstream _ | TeOverloaded _ => true | _ => false end.

Inductive LeafBytesError := LbInvalidRange | LbTileset (error : TilesetError).

Definition internal_tileset_error (error : AnyError) : TilesetError :=
  let message := format_error_chain error in
  match find_storage_error error with
  | Some (SeTimeout _) => TeTimeout message
  | Some (SeOverloaded _) => TeOverloaded message
  | Some (SeBackend _) => TeRetryableUpstream message
  | _ => TeInternal message
  end.

(** The errors of a forwarded tile request. *)
Definition forward_error (error : PeerFetchError) : TilesetError :=
  match error with
  | PfNotFound => TeMiss
  | PfRetryable message => TeRetryableUpstream message
  | PfProviderNotFound => TeUpstream "provider resource not found"
  | PfProviderGone => TeUpstream "provider resource gone"
  | PfFatal message => TeUpstream message
  end.

Definition simulator_fetch_error (error : TilesetError) : PeerFetchError :=
  match error with
  | TeRetryableUpstream message | TeTimeout message | TeOverloaded message => PfRetryable message
  | TeMiss => PfNotFound
  | TeUpstream message | TeInternal message => PfFatal message
  end.

(** [InternalFetchResponse::tile] and [InternalFetchResponse::bytes]. *)
Definition response_tile (bytes : list Z) (source : InternalTileSource) : InternalFetchResponse :=
  {| ifr_bytes := bytes; ifr_tile_source := Some source; ifr_provider_cache_control := None;
     ifr_provider_age_seconds := None; ifr_provider_etag := None; ifr_provider_last_modified := None;
     ifr_content_encoding := None |}.
Definition response_bytes (bytes : list Z) : InternalFetchResponse :=
  {| ifr_bytes := bytes; ifr_tile_source := None; ifr_provider_cache_control := None;
     ifr_provider_age_seconds := None; ifr_provider_etag := None; ifr_provider_last_modified := None;
     ifr_content_encoding := None |}.

(** ** Paths of the internal protocol *)

(** [str::replace] of three characters. *)
Fixpoint replace3 (a b c : ascii) (by_ s : string) : string :=
  match s with
  | String x ((String y (String z rest)) as tl) =>
      if Ascii.eqb x a && Ascii.eqb y b && Ascii.eqb z c then by_ +:+ replace3 a b c by_ rest
      else String x (replace3 a b c by_ tl)
  | String x tl => String x (replace3 a b c by_ tl)
  | EmptyString => EmptyString
  end.

(** The text of the error of [str::parse] on an unsigned integer. *)
Fixpoint parse_digits_error (max acc : Z) (s : string) : string :=
  match s with
  | EmptyString => EmptyString
  | String a s =>
      match char_digit a with
      | None => "invalid digit found in string"
      | Some d => if acc * 10 + d <=? max then parse_digits_error max (acc * 10 + d) s
                  else "number too large to fit in target type"
      end
  end.
Definition parse_uint_error (max : Z) (s : string) : string :=
  match s with
  | EmptyString => "cannot parse integer from empty string"
  | String a rest =>
      if Ascii.eqb a "+" then
        match rest with EmptyString => "invalid digit found in string" | _ => parse_digits_error max 0 rest end
      else parse_digits_error max 0 s
  end.

Definition parse_path_number (max : Z) (what text : string) : Res PeerFetchError Z :=
  ok_or (PfFatal ("invalid internal " +:+ what +:+ ": " +:+ parse_uint_error max text)) (parse_uint max text).

Definition decode_internal_tileset (id_text : IdError -> string) (encoded : string) : Res PeerFetchError string :=
  let decoded := replace3 "%" "2" "f" "/" (replace3 "%" "2" "F" "/" encoded) in
  if str_contains "%" decoded then Err (PfFatal "unsupported percent encoding in internal tileset path")
  else map_err (fun error => PfFatal ("invalid internal tileset id: " +:+ id_text error)) (TilesetId_try_new decoded).

(** The requests of the internal protocol. *)
Inductive InternalCall :=
  | CallTile (tileset_id : string) (tile_id : Z)
  | CallBootstrap (tileset_id : string) (include_metadata : bool)
  | CallLeaf (tileset_id : string) (offset length : Z).

(** How [fetch_internal_for_simulator] reads a path. *)
Definition parse_internal_tile (id_text : IdError -> string) (path rest : string) : Res PeerFetchError InternalCall :=
  split ← ok_or (PfFatal ("invalid internal tile path " +:+ path)) (rsplit_once slash rest);
  let '(tileset, tile_id) := split in
  tileset_id ← decode_internal_tileset id_text tileset;
  tile_id ← parse_path_number u64_max "tile id" tile_id;
  Ok (CallTile tileset_id tile_id).

Definition parse_internal_leaf (path tileset_id arguments : string) : Res PeerFetchError InternalCall :=
  split ← ok_or (PfFatal ("invalid internal leaf path " +:+ path)) (split_once slash arguments);
  let '(offset, length) := split in
  offset ← parse_path_number u64_max "leaf offset" offset;
  length ← parse_path_number usize_max "leaf length" length;
  Ok (CallLeaf tileset_id offset length).

Definition parse_internal_path (id_text : IdError -> string) (path : string) : Res PeerFetchError InternalCall :=
  match strip_prefix "/_internal/tiles/" path with
  | Some rest => parse_internal_tile id_text path rest
  | None =>
      rest ← ok_or (PfFatal ("unsupported simulator internal path " +:+ path)) (strip_prefix "/_internal/pmtiles/" path);
      let '(path_only, query) := match split_once "?" rest with
                                 | Some (path, query) => (path, Some query)
                                 | None => (rest, None)
                                 end in
      split ← ok_or (PfFatal ("invalid internal PMTiles path " +:+ path)) (split_once slash path_only);
      let '(tileset, operation) := split in
      tileset_id ← decode_internal_tileset id_text tileset;
      if String.eqb operation "bootstrap" then Ok (CallBootstrap tileset_id (bool_decide (query = Some "metadata=true")))
      else match strip_prefix "leaf/" operation with
           | Some arguments => parse_internal_leaf path tileset_id arguments
           | None => Err (PfFatal ("unsupported simulator PMTiles path " +:+ path))
           end
  end.

Section Serving.
Context {SocketAddr M W : Type}.
Abbreviation St := (TileNode M W).
Context `{!TileWorld (SocketAddr := SocketAddr) (M := M) (W := W)}.
Context (dec : Decoders) (try_reserve_exact : Z -> bool).
Context (metadata_from_json : list Z -> option M) (Metadata_default : M).
Context (format_text : FormatError -> string) (message_text : FetchMessage -> string) (id_text : IdError -> string).
Context (xxhash64 : list HasherWrite -> Z) (self_node_id : string) (router : HrwRouter).
Context (chunk_size : Z) (fuel : nat).
Context (negative_ttl : Z) (peer_tile_cache_policy : PeerTileCachePolicy).

Abbreviation pmtiles_get_tile t id :=
  (rd_get_tile dec try_reserve_exact metadata_from_json Metadata_default format_text message_text xxhash64
     self_node_id router chunk_size fuel t id).
Abbreviation pmtiles_header t :=
  (rd_header dec try_reserve_exact metadata_from_json Metadata_default format_text message_text xxhash64
     self_node_id router chunk_size fuel t).
Abbreviation pmtiles_metadata t :=
  (rd_metadata dec try_reserve_exact metadata_from_json Metadata_default format_text message_text xxhash64
     self_node_id router chunk_size fuel t).

(** [map_err(internal_tileset_error)]. *)
Definition tileset_result {A : Type} (c : SM St AnyError A) : SM St TilesetError A :=
  r ← sm_attempt c;
  match r with inl e => lift (Err (internal_tileset_error e)) | inr a => mret a end.

(** ** The tile cache *)

Definition load_cached_tile (tileset_id : string) (tile_id : Z) : SM St TilesetError CachedTileLookup := fun s =>
  let s := tw_background s in
  (Ok (match tc_get (tw_now (tn_world s)) (tileset_id, tile_id) (tn_tiles s) with
       | None => LookupNone
       | Some (CtFound bytes content_type content_encoding) =>
           LookupFound {| td_bytes := bytes; td_content_type := content_type; td_content_encoding := content_encoding |}
       | Some CtNotFound => LookupNotFound
       end), s).

Definition put_tile (tileset_id : string) (tile_id : Z) (value : CachedTile) : SM St TilesetError unit :=
  modify (fun s => set_tiles (tc_put negative_ttl (tw_now (tn_world s)) (tileset_id, tile_id) value (tn_tiles s)) s).

Definition cache_tile_hit (tileset_id : string) (tile_id : Z) (tile : TileData) : SM St TilesetError unit :=
  put_tile tileset_id tile_id (CtFound (td_bytes tile) (td_content_type tile) (td_content_encoding tile)).
Definition cache_tile_miss (tileset_id : string) (tile_id : Z) : SM St TilesetError unit :=
  put_tile tileset_id tile_id CtNotFound.

(** ** Tiles *)

Definition load_local_tile (tileset_id : string) (tile_id : Z)
    : SM St TilesetError (option TileData * PmtilesReadSource) :=
  observed ← observe_reads (pmtiles_get_tile tileset_id tile_id);
  let '(tile, source) := observed in
  tile ← lift (match tile with inl e => Err (internal_tileset_error e) | inr tile => Ok tile end);
  match tile with
  | None => _ ← cache_tile_miss tileset_id tile_id; mret (None, source)
  | Some tile => _ ← cache_tile_hit tileset_id tile_id tile; mret (Some tile, source)
  end.

Definition load_local_tile_with_source (tileset_id : string) (tile_id : Z)
    : SM St TilesetError (option TileData * TileSource) :=
  loaded ← load_local_tile tileset_id tile_id;
  let '(tile, read_source) := loaded in
  let source := match tile, read_source with
                | Some _, PrsCache => SelfChunkCache
                | Some _, PrsBackend => SelfBackend
                | None, _ => SelfMiss
                end in
  mret (tile, source).

Definition load_tile_by_id_with_source (tileset_id : string) (tile_id : Z)
    : SM St TilesetError (option TileData * TileSource) :=
  cached ← load_cached_tile tileset_id tile_id;
  match cached with
  | LookupFound tile => mret (Some tile, SelfTileCache)
  | LookupNotFound => mret (None, NegativeCache)
  | LookupNone => load_local_tile_with_source tileset_id tile_id
  end.

Definition load_tile_from_peer (peer : Peer SocketAddr) (tileset_id : string) (tile_id : Z)
    : SM St TilesetError (option (TileData * InternalTileSource)) :=
  fetched ← sm_attempt (fetch_tile_bytes peer tileset_id tile_id);
  match fetched with
  | inl error => lift (Err (forward_error error))
  | inr response =>
      header ← tileset_result (pmtiles_header tileset_id);
      match header with
      | None => mret None
      | Some header =>
          let tile := {| td_bytes := ifr_bytes response; td_content_type := content_type (tile_type header);
                         td_content_encoding := content_encoding (tile_compression header) |} in
          _ ← (if bool_decide (peer_tile_cache_policy = EntryAndOwner)
               then cache_tile_hit tileset_id tile_id tile else mret tt);
          mret (Some (tile, default ItsBackend (ifr_tile_source response)))
      end
  end.

(** The loop over the candidates of a tile. *)
Fixpoint forward_tile (candidates : list (ScoredPeer SocketAddr)) (tileset_id : string) (tile_id : Z)
    : SM St TilesetError (option TileData * TileSource) :=
  match candidates with
  | [] => load_local_tile_with_source tileset_id tile_id
  | peer :: candidates =>
      if is_self self_node_id (sp_peer peer) then load_local_tile_with_source tileset_id tile_id else
      result ← sm_attempt (load_tile_from_peer (sp_peer peer) tileset_id tile_id);
      match result with
      | inr (Some (tile, peer_source)) =>
          let source := match peer_source with ItsCache => PeerCache | ItsBackend => PeerBackendSource end in
          mret (Some tile, source)
      | inl TeMiss => _ ← cache_tile_miss tileset_id tile_id; mret (None, PeerMiss)
      | inr None => forward_tile candidates tileset_id tile_id
      | inl error =>
          if te_is_retryable error then forward_tile candidates tileset_id tile_id else lift (Err error)
      end
  end.

Definition rs_route_tile (tileset_id : string) (tile_id : Z) : SM St TilesetError (option TileData * TileSource) :=
  cached ← load_cached_tile tileset_id tile_id;
  match cached with
  | LookupFound tile => mret (Some tile, SelfTileCache)
  | LookupNotFound => mret (None, NegativeCache)
  | LookupNone =>
      candidates ← pb_route_tile xxhash64 router tileset_id tile_id;
      if local_first self_node_id candidates then load_local_tile_with_source tileset_id tile_id
      else forward_tile candidates tileset_id tile_id
  end.

(** ** Tileset information *)

Definition read_tileset_info (tileset_id : string) : SM St TilesetError (option (Header * M)) :=
  header ← tileset_result (pmtiles_header tileset_id);
  match header with
  | None => mret None
  | Some header =>
      metadata ← tileset_result (pmtiles_metadata tileset_id);
      match metadata with None => mret None | Some metadata => mret (Some (header, metadata)) end
  end.

(** [resource_cache.get], after whatever was evicted. *)
Definition cached_info (tileset_id : string) : SM St TilesetError (option (TilesetInfo M)) := fun s =>
  let s := tw_background s in (Ok (tn_infos s !! tileset_id), s).

Definition load_tileset_info (tileset_id : string) : SM St TilesetError (option (TilesetInfo M)) :=
  cached ← cached_info tileset_id;
  match cached with
  | Some info => mret (Some info)
  | None =>
      read ← read_tileset_info tileset_id;
      match read with
      | None => mret None
      | Some (header, metadata) =>
          let info := {| ti_header := header; ti_metadata := metadata |} in
          _ ← modify (fun s => set_infos (<[tileset_id := info]> (tn_infos s)) s);
          mret (Some info)
      end
  end.

Definition archive_presence (tileset_id : string) : SM St TilesetError ArchivePresence :=
  cached ← cached_info tileset_id;
  match cached with
  | Some _ => mret Present
  | None =>
      header ← tileset_result (pmtiles_header tileset_id);
      mret (match header with Some _ => Present | None => Absent end)
  end.

(** ** What a node serves to its peers *)

Definition load_bootstrap_bytes (tileset_id : string) (include_metadata : bool)
    : SM St TilesetError (option BootstrapTransfer) :=
  tileset_result (load_bootstrap_bytes_local dec try_reserve_exact format_text message_text chunk_size fuel
                    tileset_id include_metadata).

Definition load_leaf_bytes (tileset_id : string) (offset length : Z) : SM St LeafBytesError (option bytes) :=
  leaf ← sm_attempt (load_leaf_bytes_local dec try_reserve_exact format_text message_text chunk_size fuel
                       tileset_id offset length);
  match leaf with
  | inr leaf => mret leaf
  | inl LeInvalidRange => lift (Err LbInvalidRange)
  | inl (LeReader error) => lift (Err (LbTileset (internal_tileset_error error)))
  end.

(** [map_err] on a computation. *)
Definition fetch_result {E A : Type} (f : E -> PeerFetchError) (c : SM St E A) : SM St PeerFetchError A :=
  r ← sm_attempt c;
  match r with inl e => lift (Err (f e)) | inr a => mret a end.

Definition serve_internal_tile (tileset_id : string) (tile_id : Z) : SM St PeerFetchError InternalFetchResponse :=
  loaded ← fetch_result simulator_fetch_error (load_tile_by_id_with_source tileset_id tile_id);
  let '(tile, source) := loaded in
  source ← lift (match source with
                 | SelfTileCache | SelfChunkCache => Ok ItsCache
                 | SelfBackend => Ok ItsBackend
                 | _ => Err PfNotFound
                 end);
  lift (ok_or PfNotFound ((fun tile => response_tile (td_bytes tile) source) <$> tile)).

Definition serve_internal_bootstrap (tileset_id : string) (include_metadata : bool)
    : SM St PeerFetchError InternalFetchResponse :=
  transfer ← fetch_result simulator_fetch_error (load_bootstrap_bytes tileset_id include_metadata);
  transfer ← lift (ok_or PfNotFound transfer);
  mret (response_bytes (bootstrap_body transfer)).

Definition serve_internal_leaf (tileset_id : string) (offset length : Z) : SM St PeerFetchError InternalFetchResponse :=
  leaf ← fetch_result (fun error => match error with
                                    | LbInvalidRange => PfFatal "invalid leaf range"
                                    | LbTileset error => simulator_fetch_error error
                                    end) (load_leaf_bytes tileset_id offset length);
  lift (ok_or PfNotFound (response_bytes <$> leaf)).

Definition serve_internal (call : InternalCall) : SM St PeerFetchError InternalFetchResponse :=
  match call with
  | CallTile tileset_id tile_id => serve_internal_tile tileset_id tile_id
  | CallBootstrap tileset_id include_metadata => serve_internal_bootstrap tileset_id include_metadata
  | CallLeaf tileset_id offset length => serve_internal_leaf tileset_id offset length
  end.

(** Nothing is looked up before the whole path has been read. *)
Definition fetch_internal_for_simulator (path : string) : SM St PeerFetchError InternalFetchResponse :=
  call ← lift (parse_internal_path id_text path);
  serve_internal call.
End Serving.

(** ** The tiles of an archive carry the type and encoding of its header *)

Section Reference.
Context {M : Type} (dec : Decoders) (try_reserve_exact : Z -> bool).
Context (metadata_from_json : list Z -> option M) (Metadata_default : M).
Abbreviation Ref a := (ref_backend dec try_reserve_exact metadata_from_json Metadata_default a).

Lemma resolve_loop_header a n (b : ArchiveBootstrap M) w d leaves r :
  resolve_loop (H := Ref a) ReaderLimits_default n b w d leaves tt = (Ok r, tt) -> r.1.1.2 = ab_header b.
Proof.
  revert w d leaves. induction n as [|n IH]; intros w d leaves; [done|]. cbn [resolve_loop].
  destruct (DirectoryWalker_step d w) as [st w']. unfold mbind, SM_bind, lift. destruct st as [st|e|]; cbn [map_err]; try done.
  destruct st as [|range|l]; try by intros [= <-].
  destruct (check_range _ _ _) as [[]|e|]; try done.
  destruct (load_leaf _ _) as [[leaf|e|] []]; try done. apply IH.
Qed.

Lemma ref_load_bootstrap a b s s' :
  load_bootstrap (ArchiveBackend := Ref a) s = (Ok b, s') -> ref_bootstrap dec try_reserve_exact a = Ok b.
Proof. unfold ref_backend. cbn [load_bootstrap]. unfold lift. by intros [= -> _]. Qed.

Lemma resolve_tile_location_header a b0 id r s :
  ref_bootstrap (M := M) dec try_reserve_exact a = Ok b0 ->
  resolve_tile_location (H := Ref a) ReaderLimits_default id None tt = (Ok r, s) -> r.1.1.2 = ab_header b0.
Proof.
  unfold resolve_tile_location. intros Hb H.
  apply SM_bind_Ok in H as (i & [] & _ & H). apply SM_bind_Ok in H as (b & [] & Hb' & H).
  apply ref_load_bootstrap in Hb'. rewrite Hb in Hb'. injection Hb' as <-. clear Hb.
  apply SM_bind_Ok in H as (w & [] & _ & H). destruct s. by apply resolve_loop_header in H.
Qed.

Lemma ref_tile_content a b0 id td :
  ref_bootstrap (M := M) dec try_reserve_exact a = Ok b0 ->
  ref_tile dec try_reserve_exact metadata_from_json Metadata_default a id = Ok (Some td) ->
  td_content_type td = content_type (tile_type (ab_header b0)) /\
  td_content_encoding td = content_encoding (tile_compression (ab_header b0)).
Proof.
  intros Hb. unfold ref_tile. destruct (get_tile _ _ _) as [r s] eqn:H. cbn [fst]. intros ->.
  unfold get_tile in H. apply SM_bind_Ok in H as ([[[loc h] n] lv] & [] & Hr & H).
  apply (resolve_tile_location_header a b0) in Hr; [|done]. cbn [fst snd] in Hr. clear Hb.
  destruct loc as [l|]; [|done]. apply SM_bind_Ok in H as (u & [] & _ & H).
  apply SM_bind_Ok in H as (bs & [] & _ & H). injection H as <- _. cbn. by rewrite Hr.
Qed.
End Reference.

(** ** Paths of valid tilesets *)

Lemma is_identifier_not c s :
  is_identifier_segment (String c "") = false -> is_identifier_segment s = true -> ~ str_In c s.
Proof.
  unfold is_identifier_segment. intros Hc. induction s as [|a s IH]; cbn; [tauto|].
  intros [Ha Hs]%andb_prop [->|Hin]; [|by apply IH]. cbn in Hc. by rewrite Ha in Hc.
Qed.

Lemma replace_char_id c by_ s : ~ str_In c s -> replace_char c by_ s = s.
Proof.
  induction s as [|a s IH]; cbn; [done|]. intros H. destruct (Ascii.eqb_spec a c); [tauto|]. by rewrite IH by tauto.
Qed.

Lemma replace_char_app c by_ x y : replace_char c by_ (x +:+ y) = replace_char c by_ x +:+ replace_char c by_ y.
Proof.
  induction x as [|a x IH]; [done|]. rewrite app_String. cbn. rewrite IH.
  destruct (Ascii.eqb a c); [by rewrite app_assoc_str|by rewrite app_String].
Qed.

Lemma replace3_skip a b c by_ x y : ~ str_In a x -> replace3 a b c by_ (x +:+ y) = x +:+ replace3 a b c by_ y.
Proof.
  induction x as [|d x IH]; [done|]. rewrite !app_String. cbn [str_In replace3]. intros H.
  assert (Hd : Ascii.eqb d a = false) by (apply Ascii.eqb_neq; tauto).
  rewrite Hd. cbn [andb]. rewrite IH by tauto. by destruct (x +:+ y) as [|? [|? ?]].
Qed.

Lemma replace3_id a b c by_ x : ~ str_In a x -> replace3 a b c by_ x = x.
Proof. intros H. rewrite <- (app_empty_r x) at 1. rewrite replace3_skip by done. cbn. apply app_empty_r. Qed.

(** An encoded id has one segment, and is decoded to the id. *)
Lemma encode_tileset_path_spec id_text t :
  valid_tileset t ->
  decode_internal_tileset id_text (encode_tileset_path t) = Ok t /\
  (forall c, c = slash \/ c = "?"%char -> ~ str_In c (encode_tileset_path t)).
Proof.
  intros Hv. assert (Hval : validate_tileset_id t = Ok tt).
  { unfold valid_tileset, TilesetId_try_new in Hv. by destruct (validate_tileset_id t) as [[]| |]. }
  assert (Hno : forall c s, plain_segment s -> c = slash \/ c = "?"%char \/ c = "%"%char -> ~ str_In c s).
  { intros c s (_ & _ & _ & _ & Hi) Hc. apply is_identifier_not; [|done]. by destruct Hc as [->|[->| ->]]. }
  assert (Hdec : forall s, ~ str_In "%"%char s ->
    (if str_contains "%" s then Err (PfFatal "unsupported percent encoding in internal tileset path")
     else map_err (fun e => PfFatal ("invalid internal tileset id: " +:+ id_text e)) (TilesetId_try_new s)) =
    map_err (fun e => PfFatal ("invalid internal tileset id: " +:+ id_text e)) (TilesetId_try_new s)).
  { intros s Hs. destruct (str_contains "%" s) eqn:E; [|done]. by apply str_contains_char in E. }
  unfold encode_tileset_path, decode_internal_tileset. destruct (valid_id_shape t Hval) as [Hp _ _|a b -> Ha Hb _ _].
  - rewrite (replace_char_id _ _ t), !(replace3_id _ _ _ _ t) by (apply Hno; [done|auto]). rewrite Hdec by (apply Hno; [done|auto]). split; [by rewrite Hv|].
    intros c Hc. apply Hno; tauto.
  - rewrite replace_char_app, (replace_char_id _ _ a) by (apply Hno; [done|auto]). cbn [replace_char]. rewrite Ascii.eqb_refl.
    rewrite (replace_char_id _ _ b) by (apply Hno; [done|auto]). split.
    + rewrite replace3_skip by (apply Hno; [done|auto]).
      change (replace3 "%" "2" "F" "/" ("%2F" +:+ b)) with (String slash (replace3 "%" "2" "F" "/" b)).
      rewrite (replace3_id _ _ _ _ b) by (apply Hno; [done|auto]).
      assert (Hpct : ~ str_In "%"%char (a +:+ String slash b)).
      { rewrite str_In_append. cbn. intros [H|[H|H]]; [by eapply Hno; [| |exact H]; auto|done|by eapply Hno; [| |exact H]; auto]. }
      rewrite replace3_id, Hdec by done. by rewrite Hv.
    + intros c Hc. rewrite !str_In_append. cbn. intros [H|[H|H]]; [eapply Hno; [| |exact H]; [done|tauto]| |eapply Hno; [| |exact H]; [done|tauto]].
      by destruct Hc as [->| ->], H as [?|[?|[?|?]]].
Qed.

Lemma parse_digits_range max acc s v : 0 <= acc <= max -> parse_digits max acc s = Some v -> 0 <= v <= max.
Proof.
  revert acc. induction s as [|a s IH]; intros acc Hacc; cbn; [intros [= <-]; done|].
  unfold char_digit. case_match eqn:E; [|done]. cbn. apply andb_prop in E as [H1%Z.leb_le H2%Z.ltb_lt].
  case_match eqn:E'; [|done]. apply Z.leb_le in E'. apply IH. lia.
Qed.

Lemma parse_path_number_ok max what text v : 0 <= max -> parse_path_number max what text = Ok v -> 0 <= v <= max.
Proof.
  intros Hm [= H]%ok_or_Ok. unfold parse_uint in H. repeat case_match; try done; apply parse_digits_range in H; lia.
Qed.

Lemma parse_path_decimal max what n : 0 <= n <= max -> max <= u64_max -> parse_path_number max what (decimal n) = Ok n.
Proof. intros Hn Hm. unfold parse_path_number. by rewrite parse_decimal by done. Qed.

(** The path a node sends for a request, over machine integers and valid ids. *)
Definition path_of (call : InternalCall) : string :=
  match call with
  | CallTile t id => tile_path t id
  | CallBootstrap t include_metadata => bootstrap_path t include_metadata
  | CallLeaf t offset length => leaf_path t offset length
  end.
Definition call_wf (call : InternalCall) : Prop :=
  match call with
  | CallTile t id => valid_tileset t /\ is_u64 id
  | CallBootstrap t _ => valid_tileset t
  | CallLeaf t offset length => valid_tileset t /\ is_u64 offset /\ is_usize length
  end.

Lemma parse_tile_path id_text t id :
  valid_tileset t -> is_u64 id -> parse_internal_path id_text (tile_path t id) = Ok (CallTile t id).
Proof.
  intros Hv Hid. destruct (encode_tileset_path_spec id_text t Hv) as [Hd _].
  unfold parse_internal_path, tile_path. rewrite strip_prefix_app. unfold parse_internal_tile.
  change ("/" +:+ decimal id) with (String slash (decimal id)).
  rewrite rsplit_once_app by (apply decimal_no_char; [exact Hid|done]).
  cbn [ok_or mbind Res_bind]. rewrite Hd. cbn [mbind Res_bind]. by rewrite parse_path_decimal.
Qed.

Lemma parse_bootstrap_path id_text t (include_metadata : bool) :
  valid_tileset t -> parse_internal_path id_text (bootstrap_path t include_metadata) = Ok (CallBootstrap t include_metadata).
Proof.
  intros Hv. destruct (encode_tileset_path_spec id_text t Hv) as [Hd Hno].
  unfold parse_internal_path, bootstrap_path. set (rest := encode_tileset_path t +:+ _).
  change (strip_prefix "/_internal/tiles/" ("/_internal/pmtiles/" +:+ rest)) with (@None string).
  cbv beta iota. rewrite strip_prefix_app. cbn [ok_or mbind Res_bind].
  assert (Hq : split_once "?" rest =
    if include_metadata then Some (encode_tileset_path t +:+ "/bootstrap", "metadata=true") else None).
  { unfold rest. destruct include_metadata.
    - change "/bootstrap?metadata=true" with ("/bootstrap" +:+ String "?" "metadata=true"). rewrite <- app_assoc_str.
      apply split_once_app. rewrite str_In_append. intros [H|H]; [by eapply Hno; [|exact H]; right|].
      cbn in H. by repeat destruct H as [H|H].
    - apply split_once_no_sep. rewrite str_In_append. intros [H|H]; [by eapply Hno; [|exact H]; right|].
      cbn in H. by repeat destruct H as [H|H]. }
  assert (Hs : split_once slash (encode_tileset_path t +:+ "/bootstrap") = Some (encode_tileset_path t, "bootstrap")).
  { apply split_once_app, Hno. by left. }
  rewrite Hq. unfold rest. destruct include_metadata; rewrite Hs; cbn [ok_or mbind Res_bind]; by rewrite Hd.
Qed.

Lemma parse_leaf_path id_text t offset length :
  valid_tileset t -> is_u64 offset -> is_usize length ->
  parse_internal_path id_text (leaf_path t offset length) = Ok (CallLeaf t offset length).
Proof.
  intros Hv Ho Hl. destruct (encode_tileset_path_spec id_text t Hv) as [Hd Hno].
  assert (Hdo : forall c, char_digit c = None -> ~ str_In c (decimal offset)) by (intros; by apply decimal_no_char).
  assert (Hdl : forall c, char_digit c = None -> ~ str_In c (decimal length)) by (intros; by apply decimal_no_char).
  unfold parse_internal_path, leaf_path. set (rest := encode_tileset_path t +:+ _).
  change (strip_prefix "/_internal/tiles/" ("/_internal/pmtiles/" +:+ rest)) with (@None string).
  cbv beta iota. rewrite strip_prefix_app. cbn [ok_or mbind Res_bind].
  assert (Hq : split_once "?" rest = None).
  { apply split_once_no_sep. unfold rest. rewrite !str_In_append.
    intros [H|[H|[H|[H|H]]]]; [by eapply Hno; [|exact H]; right| |by apply Hdo in H| |by apply Hdl in H];
      cbn in H; by repeat destruct H as [H|H]. }
  rewrite Hq. unfold rest.
  change ("/leaf/" +:+ decimal offset +:+ "/" +:+ decimal length)
    with (String slash ("leaf/" +:+ decimal offset +:+ String slash (decimal length))).
  rewrite split_once_app by (apply Hno; by left). cbn [ok_or mbind Res_bind]. rewrite Hd. cbn [mbind Res_bind].
  rewrite strip_prefix_app. unfold parse_internal_leaf. rewrite split_once_app by (by apply Hdo).
  cbn [ok_or mbind Res_bind String.eqb]. by rewrite !parse_path_decimal.
Qed.

(** The path of a request is read back as that request. *)
Lemma parse_path_of id_text call : call_wf call -> parse_internal_path id_text (path_of call) = Ok call.
Proof.
  destruct call; cbn; [intros []; by apply parse_tile_path|apply parse_bootstrap_path|].
  intros (? & ? & ?). by apply parse_leaf_path.
Qed.

Lemma path_of_inj c1 c2 : call_wf c1 -> call_wf c2 -> path_of c1 = path_of c2 -> c1 = c2.
Proof.
  intros H1 H2 He. apply (parse_path_of (fun _ => "")) in H1, H2. rewrite He, H2 in H1. by injection H1.
Qed.

(** ** Answers of a node in a lawful world *)

Section Answers.
Context {SocketAddr M W : Type}.
Abbreviation St := (TileNode M W).
Context `{!TileWorld (SocketAddr := SocketAddr) (M := M) (W := W)}.
Context (dec : Decoders) (try_reserve_exact : Z -> bool).
Context (metadata_from_json : list Z -> option M) (Metadata_default : M).
Context (format_text : FormatError -> string) (message_text : FetchMessage -> string) (id_text : IdError -> string).
Context (xxhash64 : list HasherWrite -> Z) (self_node_id : string) (router : HrwRouter).
Context (chunk_size : Z) (fuel : nat).
Context (negative_ttl : Z) (peer_tile_cache_policy : PeerTileCachePolicy).
Context (archive_of : string -> option bytes) (waits : W -> nat).
Context (Hdec : decoders_ok dec).
Context (Hbytes : forall t a, archive_of t = Some a -> is_bytes a).
Context `{!TileLaws dec try_reserve_exact metadata_from_json Metadata_default archive_of self_node_id waits}.

Abbreviation inv := (inv dec try_reserve_exact metadata_from_json Metadata_default fuel archive_of waits []).
Abbreviation ensures := (ensures dec try_reserve_exact metadata_from_json Metadata_default fuel archive_of waits []).
Abbreviation coherent := (coherent (W := W) dec try_reserve_exact metadata_from_json Metadata_default archive_of).
Abbreviation tile_truth := (tile_truth dec try_reserve_exact metadata_from_json Metadata_default archive_of).
Abbreviation tile_entry_truth := (tile_entry_truth dec try_reserve_exact metadata_from_json Metadata_default archive_of).
Abbreviation header_truth := (header_truth (M := M) dec try_reserve_exact archive_of).
Abbreviation metadata_truth := (metadata_truth dec try_reserve_exact metadata_from_json Metadata_default archive_of).
Abbreviation transfer_truth := (transfer_truth (M := M) dec try_reserve_exact archive_of).
Abbreviation answers := (answers dec try_reserve_exact metadata_from_json Metadata_default archive_of).
Abbreviation denies := (denies dec try_reserve_exact metadata_from_json Metadata_default archive_of).
Abbreviation no_claim := (fun _ => True).

Abbreviation put_tile := (put_tile (M := M) (W := W) negative_ttl).
Abbreviation load_local_tile_with_source t id :=
  (load_local_tile_with_source dec try_reserve_exact metadata_from_json Metadata_default format_text message_text
     xxhash64 self_node_id router chunk_size fuel negative_ttl t id).
Abbreviation load_tile_by_id_with_source t id :=
  (load_tile_by_id_with_source dec try_reserve_exact metadata_from_json Metadata_default format_text message_text
     xxhash64 self_node_id router chunk_size fuel negative_ttl t id).
Abbreviation load_tile_from_peer peer t id :=
  (load_tile_from_peer dec try_reserve_exact metadata_from_json Metadata_default format_text message_text
     xxhash64 self_node_id router chunk_size fuel negative_ttl peer_tile_cache_policy peer t id).
Abbreviation forward_tile candidates t id :=
  (forward_tile dec try_reserve_exact metadata_from_json Metadata_default format_text message_text
     xxhash64 self_node_id router chunk_size fuel negative_ttl peer_tile_cache_policy candidates t id).
Abbreviation rs_route_tile t id :=
  (rs_route_tile dec try_reserve_exact metadata_from_json Metadata_default format_text message_text
     xxhash64 self_node_id router chunk_size fuel negative_ttl peer_tile_cache_policy t id).
Abbreviation load_tileset_info t :=
  (load_tileset_info dec try_reserve_exact metadata_from_json Metadata_default format_text message_text
     xxhash64 self_node_id router chunk_size fuel t).
Abbreviation archive_presence t :=
  (archive_presence dec try_reserve_exact metadata_from_json Metadata_default format_text message_text
     xxhash64 self_node_id router chunk_size fuel t).
Abbreviation fetch_internal path :=
  (fetch_internal_for_simulator dec try_reserve_exact metadata_from_json Metadata_default format_text message_text id_text
     xxhash64 self_node_id router chunk_size fuel negative_ttl path).

(** ** Caches *)

Lemma load_cached_tile_ensures t id :
  ensures (load_cached_tile t id)
    (fun l => match l with
              | LookupFound tile => tile_truth t id (Some tile)
              | LookupNotFound => tile_truth t id None
              | LookupNone => True
              end) (fun e => e <> TeMiss).
Proof.
  intros s Hs. apply inv_background with (self_node_id := self_node_id) in Hs; [|done]. split; [done|].
  apply inv_coherent in Hs. unfold tc_get.
  destruct (tn_tiles (tw_background s) !! (t, id)) as [e|] eqn:He; [|done].
  apply (co_tiles _ _ _ _ _ _ Hs) in He. destruct e as [v x]. cbn in *.
  destruct x as [x|]; [destruct (_ <? x); [|done]|]; by destruct v.
Qed.

Lemma put_tile_ensures t id v : tile_entry_truth t id v -> ensures (put_tile t id v) no_claim (fun e => e <> TeMiss).
Proof.
  intros Hv s Hs. split; [|done]. apply (inv_update _ _ _ _ _ _ _ s); try done.
  destruct (inv_coherent _ _ _ _ _ _ _ s Hs) as [H1 H2 H3 H4 H5 H6]. split; cbn; try done.
  intros t' id' e. unfold tc_put. intros [[[= <- <-] <-]|[_ He]]%lookup_insert_Some; [done|by eapply H5].
Qed.

Lemma cached_info_ensures t :
  ensures (cached_info t)
    (fun o => forall i, o = Some i -> header_truth t (ti_header i) /\ metadata_truth t (Some (ti_metadata i)))
    (fun e => e <> TeMiss).
Proof.
  intros s Hs. apply inv_background with (self_node_id := self_node_id) in Hs; [|done]. split; [done|].
  apply inv_coherent in Hs. intros i. apply (co_infos _ _ _ _ _ _ Hs).
Qed.

(** Errors of the archive are never reported as a missing tile. *)
Lemma internal_tileset_error_not_miss e : internal_tileset_error e <> TeMiss.
Proof. unfold internal_tileset_error. by repeat case_match. Qed.

Lemma tileset_result_ensures {A : Type} (c : SM St AnyError A) T :
  ensures c T no_claim -> ensures (tileset_result c) T (fun e => e <> TeMiss).
Proof.
  intros Hc. eapply ensures_bind; [by eapply ensures_attempt|].
  intros [e|a] H; [|by apply ensures_ret].
  apply ensures_lift; [done..|]. intros ? [= <-]. apply internal_tileset_error_not_miss.
Qed.

Lemma observe_reads_ensures {E F A : Type} (c : SM St E A) T X (Y : F -> Prop) :
  ensures c T X -> ensures (observe_reads c) (fun r => match r.1 with inr a => T a | inl e => X e end) Y.
Proof.
  intros Hc s Hs. unfold observe_reads.
  pose proof (Hc _ (inv_set_waited _ _ _ _ _ _ _ false s Hs)) as H.
  destruct (c (set_waited false s)) as [[a|e|] s']; [| |done]; destruct H as [Hs' H];
    (split; [by apply inv_set_waited|done]).
Qed.

(** ** Tiles *)

(** A served tile is what the archive holds, and it is absent exactly when its
    source is reported as a miss. *)
Definition served (t : string) (id : Z) (r : option TileData * TileSource) : Prop :=
  tile_truth t id r.1 /\ (r.1 = None <-> report_label r.2 = "miss").

Definition served_locally (t : string) (id : Z) (r : option TileData * TileSource) : Prop :=
  served t id r /\ r.2 <> PeerCache /\ r.2 <> PeerBackendSource.

Lemma load_local_tile_ensures t id :
  valid_tileset t -> 0 <= id ->
  ensures (load_local_tile_with_source t id) (served_locally t id) (fun e => e <> TeMiss).
Proof.
  intros Hv Hid. eapply (ensures_bind _ _ _ _ _ _ _ _ _ (fun r => tile_truth t id r.1)).
  - eapply ensures_bind; [by eapply observe_reads_ensures, rd_get_tile_ensures|].
    cbn beta. intros [r source] H. eapply (ensures_bind _ _ _ _ _ _ _ _ _ (tile_truth t id)).
    + destruct r as [e|o]; cbn in H; (apply ensures_lift; [done|by intros ? [= <-]|]); intros ? [= <-].
      apply internal_tileset_error_not_miss.
    + clear H. intros [tile|] H; (eapply ensures_bind; [apply put_tile_ensures|intros _ _; by apply ensures_ret]).
      * by destruct tile.
      * done.
  - intros [tile source] H. apply ensures_ret. unfold served_locally, served. cbn. by destruct tile, source.
Qed.

Lemma load_tile_by_id_ensures t id :
  valid_tileset t -> 0 <= id ->
  ensures (load_tile_by_id_with_source t id) (served_locally t id) (fun e => e <> TeMiss).
Proof.
  intros Hv Hid. eapply ensures_bind; [apply load_cached_tile_ensures|]. intros [tile| |] H; cbn in H.
  - by apply ensures_ret.
  - by apply ensures_ret.
  - by apply load_local_tile_ensures.
Qed.

Lemma load_tile_from_peer_ensures peer t id :
  valid_tileset t -> is_u64 id -> is_self self_node_id peer = false ->
  ensures (load_tile_from_peer peer t id)
    (fun o => forall tile source, o = Some (tile, source) -> tile_truth t id (Some tile))
    (fun e => e = TeMiss -> tile_truth t id None).
Proof.
  intros Hv Hid Hself. eapply ensures_bind.
  { eapply (ensures_attempt _ _ _ _ _ _ _ _ (answers (tile_path t id)) (fun e => e = PfNotFound -> denies (tile_path t id))).
    apply (fetch_from_peer_post self_node_id inv answers denies peer (tile_path t id) "tile" Hself). }
  intros [e|r] H; cbn in H.
  { apply ensures_lift; [done..|]. intros ? [= <-]. destruct e; try done. intros _. by apply H. }
  destruct (an_tile _ _ _ _ _ _ _ H t id Hv Hid eq_refl) as (td & Htd & Hb).
  eapply ensures_bind.
  { eapply ensures_conseq; [by eapply tileset_result_ensures, rd_header_ensures|done|]. by intros e ? ->. }
  intros [h|] Hh; [|by apply ensures_ret]. destruct Hh as (a & b0 & Ha & Hb0 & ->).
  set (tile := {| td_bytes := _; td_content_type := _; td_content_encoding := _ |}).
  assert (Htile : tile_truth t id (Some tile)).
  { unfold TileArchives.tile_truth in *. rewrite Ha in *.
    destruct (ref_tile_content _ _ _ _ a b0 id td Hb0 Htd) as [Hc He].
    rewrite Htd. unfold tile. rewrite <- Hb, <- Hc, <- He. by destruct td. }
  eapply (ensures_bind _ _ _ _ _ _ _ _ _ no_claim).
  - destruct (bool_decide _); [|by apply ensures_ret].
    eapply ensures_conseq; [by apply put_tile_ensures|done|]. by intros e ? ->.
  - intros _ _. apply ensures_ret. by intros ? ? [= <- _].
Qed.

Lemma try_candidates_ensures candidates t id :
  valid_tileset t -> is_u64 id -> ensures (forward_tile candidates t id) (served t id) (fun e => e <> TeMiss).
Proof.
  intros Hv Hid.
  assert (Hlocal : ensures (load_local_tile_with_source t id) (served t id) (fun e => e <> TeMiss)).
  { eapply ensures_conseq; [apply load_local_tile_ensures; [done|apply Hid]|by intros r []|done]. }
  induction candidates as [|c cs IH]; [exact Hlocal|]. cbn [Resolver.forward_tile].
  destruct (is_self self_node_id (sp_peer c)) eqn:Hself; [exact Hlocal|].
  eapply ensures_bind; [by eapply ensures_attempt, load_tile_from_peer_ensures|].
  intros [e|[[tile source]|]] H; cbn in H.
  - destruct e; cbn [te_is_retryable]; try exact IH; try (by apply ensures_lift; [done..|intros ? [= <-]]).
    eapply ensures_bind; [apply put_tile_ensures; by apply H|]. intros _ _. apply ensures_ret. by split; [apply H|].
  - apply ensures_ret. split; [by eapply H|]. by destruct source.
  - exact IH.
Qed.

Lemma route_tile_candidates_ensures t id :
  ensures (pb_route_tile xxhash64 router t id) no_claim (fun e => e <> TeMiss).
Proof.
  eapply sm_post_conseq; [|done| |].
  - eapply sm_post_bind.
    + apply (pb_peers_post self_node_id inv answers denies (fun _ _ => False)).
    + intros peers. apply (route_with_backoff_post self_node_id inv answers denies peers _ _ (fun _ _ => False)).
  - by intros ? ? ?.
  - by intros ? ? [].
Qed.

(** ** Tileset information *)

Lemma read_tileset_info_ensures t :
  valid_tileset t ->
  ensures (read_tileset_info dec try_reserve_exact metadata_from_json Metadata_default format_text message_text
             xxhash64 self_node_id router chunk_size fuel t)
    (fun o => match o with
              | Some (h, md) => header_truth t h /\ metadata_truth t (Some md)
              | None => archive_of t = None
              end) (fun e => e <> TeMiss).
Proof.
  intros Hv. eapply ensures_bind; [by eapply tileset_result_ensures, rd_header_ensures|].
  intros [h|] Hh; [|by apply ensures_ret].
  eapply ensures_bind; [by eapply tileset_result_ensures, rd_metadata_ensures|]. intros [md|] Hmd; by apply ensures_ret.
Qed.

Lemma load_tileset_info_ensures t :
  valid_tileset t ->
  ensures (load_tileset_info t)
    (fun o => match o with
              | Some i => header_truth t (ti_header i) /\ metadata_truth t (Some (ti_metadata i))
              | None => archive_of t = None
              end) (fun e => e <> TeMiss).
Proof.
  intros Hv. eapply ensures_bind; [apply cached_info_ensures|]. intros [i|] Hc; [by apply ensures_ret, Hc|].
  eapply ensures_bind; [by apply read_tileset_info_ensures|]. intros [[h md]|] H; [|by apply ensures_ret].
  eapply (ensures_bind _ _ _ _ _ _ _ _ _ no_claim); [|by intros _ _; apply ensures_ret].
  intros s Hs. split; [|done]. apply (inv_update _ _ _ _ _ _ _ s); try done.
  destruct (inv_coherent _ _ _ _ _ _ _ s Hs) as [H1 H2 H3 H4 H5 H6]. split; cbn; try done.
  intros t' i [[<- <-]|[_ He]]%lookup_insert_Some; [done|by apply H6].
Qed.

Lemma archive_presence_ensures t :
  valid_tileset t ->
  ensures (archive_presence t)
    (fun p => match p with Present => exists h, header_truth t h | Absent => archive_of t = None end)
    (fun e => e <> TeMiss).
Proof.
  intros Hv. eapply ensures_bind; [apply cached_info_ensures|]. intros [i|] Hc.
  - apply ensures_ret. exists (ti_header i). by apply Hc.
  - eapply ensures_bind; [by eapply tileset_result_ensures, rd_header_ensures|].
    intros [h|] Hh; apply ensures_ret; [by exists h|done].
Qed.

(** ** The internal protocol *)

Abbreviation serve_internal_tile t id :=
  (serve_internal_tile dec try_reserve_exact metadata_from_json Metadata_default format_text message_text
     xxhash64 self_node_id router chunk_size fuel negative_ttl t id).
Abbreviation serve_internal_leaf t offset length :=
  (serve_internal_leaf (W := W) dec try_reserve_exact format_text message_text chunk_size fuel t offset length).
Abbreviation serve_internal_bootstrap t include_metadata :=
  (serve_internal_bootstrap (W := W) dec try_reserve_exact format_text message_text chunk_size fuel t include_metadata).
Abbreviation serve_internal call :=
  (serve_internal dec try_reserve_exact metadata_from_json Metadata_default format_text message_text
     xxhash64 self_node_id router chunk_size fuel negative_ttl call).

(** What a node may answer to a request, and when it may deny it. *)
Definition answers_call (call : InternalCall) (r : InternalFetchResponse) : Prop :=
  match call with
  | CallTile t id => exists td, tile_truth t id (Some td) /\ td_bytes td = ifr_bytes r
  | CallBootstrap t include_metadata =>
      exists tr, transfer_truth t include_metadata tr /\ ifr_bytes r = bootstrap_body tr
  | CallLeaf t offset length => exists a, archive_of t = Some a /\ ifr_bytes r = ref_range a offset length
  end.
Definition denies_call (call : InternalCall) : Prop :=
  match call with CallTile t id => tile_truth t id None | _ => True end.

Lemma answers_parsed path call r :
  parse_internal_path id_text path = Ok call -> answers_call call r -> answers path r.
Proof.
  intros Hp Hr. split.
  - intros t id Hv Hid ->. rewrite parse_tile_path in Hp by done. by injection Hp as <-.
  - intros t include_metadata Hv ->. rewrite parse_bootstrap_path in Hp by done. by injection Hp as <-.
  - intros t offset length Hv Ho Hl ->. rewrite parse_leaf_path in Hp by done. by injection Hp as <-.
Qed.

Lemma denies_parsed path :
  (forall call, parse_internal_path id_text path = Ok call -> denies_call call) -> denies path.
Proof. intros H t id Hv Hid ->. by apply (H (CallTile t id)), parse_tile_path. Qed.

Lemma fetch_result_ensures {E A : Type} (f : E -> PeerFetchError) (c : SM St E A) T X :
  ensures c T X -> ensures (fetch_result f c) T (fun e => exists e0, X e0 /\ e = f e0).
Proof.
  intros Hc. eapply ensures_bind; [by eapply ensures_attempt|].
  intros [e|a] H; [|by apply ensures_ret]. apply ensures_lift; [done..|]. intros ? [= <-]. eauto.
Qed.

Lemma simulator_fetch_error_not_found e : e <> TeMiss -> simulator_fetch_error e <> PfNotFound.
Proof. by destruct e. Qed.

Lemma serve_internal_tile_ensures t id :
  valid_tileset t -> 0 <= id ->
  ensures (serve_internal_tile t id)
    (fun r => exists td, tile_truth t id (Some td) /\ td_bytes td = ifr_bytes r)
    (fun e => e = PfNotFound -> tile_truth t id None).
Proof.
  intros Hv Hid. eapply ensures_bind.
  { eapply ensures_conseq; [by eapply fetch_result_ensures, load_tile_by_id_ensures|done|].
    intros e (e0 & He0 & ->) H. by apply simulator_fetch_error_not_found in H. }
  intros [tile source] [[Htruth Hmiss] [Hn1 Hn2]]. cbn in *.
  eapply (ensures_bind _ _ _ _ _ _ _ _ _ (fun _ => report_label source <> "miss")).
  - apply ensures_lift; destruct source; try done; intros ? [= <-] _; by rewrite (proj2 Hmiss eq_refl) in Htruth.
  - intros its Hits. destruct tile as [tile|]; [|by destruct Hits; apply Hmiss].
    apply ensures_lift; [done| |done]. intros r [= <-]. eauto.
Qed.

Lemma serve_internal_bootstrap_ensures t include_metadata :
  ensures (serve_internal_bootstrap t include_metadata)
    (fun r => exists tr, transfer_truth t include_metadata tr /\ ifr_bytes r = bootstrap_body tr) no_claim.
Proof.
  eapply ensures_bind.
  { eapply ensures_conseq; [by eapply fetch_result_ensures, tileset_result_ensures, load_bootstrap_bytes_local_ensures|done..]. }
  cbn. intros o H. eapply (ensures_bind _ _ _ _ _ _ _ _ _ (fun tr => o = Some tr)).
  - apply ensures_lift; [apply ok_or_no_panic|by intros tr Htr%ok_or_Ok|done].
  - intros tr ->. apply ensures_ret. eauto.
Qed.

Lemma serve_internal_leaf_ensures t offset length :
  is_u64 offset -> is_usize length ->
  ensures (serve_internal_leaf t offset length)
    (fun r => exists a, archive_of t = Some a /\ ifr_bytes r = ref_range a offset length) no_claim.
Proof.
  intros Ho Hl. eapply (ensures_bind _ _ _ _ _ _ _ _ _
    (fun o => forall bs, o = Some bs -> exists a, archive_of t = Some a /\ bs = ref_range a offset length)).
  - eapply ensures_conseq; [eapply (fetch_result_ensures _ _ _ no_claim)|intros o H; exact H|done].
    eapply ensures_bind; [by eapply ensures_attempt, load_leaf_bytes_local_ensures|].
    intros [[|e]|o] H; [by apply ensures_lift|by apply ensures_lift|by apply ensures_ret].
  - intros o H. apply ensures_lift; [apply ok_or_no_panic| |done]. intros r Hr%ok_or_Ok.
    destruct o as [bs|]; [|done]. injection Hr as <-. by apply H.
Qed.

Lemma decode_internal_tileset_valid encoded t : decode_internal_tileset id_text encoded = Ok t -> valid_tileset t.
Proof.
  unfold decode_internal_tileset. case_match; [done|]. unfold valid_tileset, TilesetId_try_new.
  destruct (validate_tileset_id _) eqn:E; try done. intros [= <-]. by rewrite E.
Qed.

Lemma parse_internal_tile_wf path rest call : parse_internal_tile id_text path rest = Ok call -> call_wf call.
Proof.
  unfold parse_internal_tile. intros ([tileset id] & _ & H)%Res_bind_Ok.
  apply Res_bind_Ok in H as (t & Ht%decode_internal_tileset_valid & H).
  apply Res_bind_Ok in H as (n & Hn%parse_path_number_ok & H); [|done]. by injection H as <-.
Qed.

Lemma parse_internal_leaf_wf path t arguments call :
  valid_tileset t -> parse_internal_leaf path t arguments = Ok call -> call_wf call.
Proof.
  unfold parse_internal_leaf. intros Ht ([offset length] & _ & H)%Res_bind_Ok.
  apply Res_bind_Ok in H as (o & Ho%parse_path_number_ok & H); [|done].
  apply Res_bind_Ok in H as (l & Hl%parse_path_number_ok & H); [|done]. by injection H as <-.
Qed.

Lemma parse_internal_path_wf path :
  parse_internal_path id_text path <> Panic /\
  forall call, parse_internal_path id_text path = Ok call -> call_wf call.
Proof.
  assert (Hdecode : forall text, decode_internal_tileset id_text text <> Panic).
  { intros text. unfold decode_internal_tileset, TilesetId_try_new. case_match; [done|].
    unfold validate_tileset_id, validate_tileset_segment. no_panic. }
  unfold parse_internal_path. destruct (strip_prefix "/_internal/tiles/" path) as [rest|].
  { split; [|intros call; apply parse_internal_tile_wf]. unfold parse_internal_tile, parse_path_number. no_panic. }
  destruct (strip_prefix "/_internal/pmtiles/" path) as [rest|]; [|done]. cbn [ok_or mbind Res_bind].
  destruct (match split_once "?" rest with Some _ => _ | None => _ end) as [path_only query]. split.
  - unfold parse_internal_leaf, parse_path_number. no_panic.
  - intros call ([tileset operation] & _ & H)%Res_bind_Ok.
    apply Res_bind_Ok in H as (t & Ht%decode_internal_tileset_valid & H).
    destruct (String.eqb operation "bootstrap"); [by injection H as <-|].
    destruct (strip_prefix "leaf/" operation); [by eapply parse_internal_leaf_wf|done].
Qed.

Lemma serve_internal_ensures call :
  call_wf call -> ensures (serve_internal call) (answers_call call) (fun e => e = PfNotFound -> denies_call call).
Proof.
  destruct call; cbn.
  - intros [Hv Hid]. apply serve_internal_tile_ensures; [done|apply Hid].
  - intros _. by eapply ensures_conseq; [apply serve_internal_bootstrap_ensures|..].
  - intros (_ & Ho & Hl). by eapply ensures_conseq; [apply serve_internal_leaf_ensures|..].
Qed.

(** ** Correctness *)

Abbreviation within := (within (W := W) dec try_reserve_exact metadata_from_json Metadata_default archive_of waits []).

Lemma rs_route_tile_ensures t id :
  valid_tileset t -> is_u64 id -> ensures (rs_route_tile t id) (served t id) (fun e => e <> TeMiss).
Proof.
  intros Hvalid Hid. eapply ensures_bind; [apply load_cached_tile_ensures|].
  intros [tile| |] Hl; cbn in Hl; [by apply ensures_ret|by apply ensures_ret|].
  eapply ensures_bind; [apply route_tile_candidates_ensures|]. intros candidates _.
  case_match; [|by apply try_candidates_ensures].
  eapply ensures_conseq; [apply load_local_tile_ensures; [done|apply Hid]|by intros ? []|done].
Qed.

(** [C5] Tile requests: on a coherent node whose peers, store and fellow tasks
    keep their promises, a routed tile request ends, with [fuel] rounds for the
    fewer than [fuel] flights it joins, and leaves the node coherent. Its answer is
    the tile the archive holds, with the archive's type and encoding, whether it
    comes from the tile cache, a peer or the archive; it is absent exactly when
    the request is counted as a miss. An error never stands for a missing tile. *)
Theorem route_tile_correct n t id s r s'
    (Hvalid : valid_tileset t) (Hid : is_u64 id) (Hfuel : (n < fuel)%nat) (Hs : within n s)
    (Hrun : rs_route_tile t id s = (r, s')) :
  (exists m, (m < fuel)%nat /\ within m s') /\
  match r with
  | Ok (tile, source) => tile_truth t id tile /\ (tile = None <-> report_label source = "miss")
  | Err e => e <> TeMiss
  | Panic => False
  end.
Proof.
  pose proof (rs_route_tile_ensures t id Hvalid Hid s (ex_intro _ n (conj Hfuel Hs))) as H. rewrite Hrun in H.
  destruct r as [[tile source]|e|]; [| |done]; destruct H as [Hi H]; by split.
Qed.

(** The protocol, without HTTP: a coherent node answers a path with a body of the
    archive that the path names, reports a tile as not found only when the archive
    lacks it, and stays coherent whatever the path is. *)
Lemma simulator_protocol_honest n path s r s' :
  (n < fuel)%nat -> within n s -> fetch_internal path s = (r, s') ->
  (exists m, (m < fuel)%nat /\ within m s') /\
  match r with
  | Ok response => answers path response
  | Err e => e = PfNotFound -> denies path
  | Panic => False
  end.
Proof.
  intros Hfuel Hs Hrun. assert (Hi : inv s) by (exists n; by split).
  destruct (parse_internal_path_wf path) as [Hnp Hwf].
  unfold fetch_internal_for_simulator, mbind, SM_bind, lift in Hrun.
  destruct (parse_internal_path id_text path) as [call|e|] eqn:Hp; [| |done].
  - pose proof (serve_internal_ensures call (Hwf call eq_refl) s Hi) as H. rewrite Hrun in H.
    destruct r as [response|e|]; [| |done]; destruct H as [Hi' H]; (split; [exact Hi'|]).
    + by eapply answers_parsed.
    + intros ->. apply denies_parsed. intros call' Hc. rewrite Hp in Hc. injection Hc as <-. by apply H.
  - injection Hrun as <- <-. split; [by exists n|]. intros _. apply denies_parsed. intros call Hc. by rewrite Hp in Hc.
Qed.

(** Tileset information: header and metadata are those of the archive, from
    whichever cache or peer they come; no information and the presence [Absent]
    both mean that there is no archive, [Present] that there is one that decodes. *)
Theorem tileset_info_correct n t s
    (Hvalid : valid_tileset t) (Hfuel : (n < fuel)%nat) (Hs : within n s) :
  match load_tileset_info t s with
  | (Ok (Some info), s') =>
      (exists m, (m < fuel)%nat /\ within m s') /\
      header_truth t (ti_header info) /\ metadata_truth t (Some (ti_metadata info))
  | (Ok None, s') => (exists m, (m < fuel)%nat /\ within m s') /\ archive_of t = None
  | (Err e, s') => (exists m, (m < fuel)%nat /\ within m s') /\ e <> TeMiss
  | (Panic, _) => False
  end /\
  match archive_presence t s with
  | (Ok Present, s') => (exists m, (m < fuel)%nat /\ within m s') /\ exists h, header_truth t h
  | (Ok Absent, s') => (exists m, (m < fuel)%nat /\ within m s') /\ archive_of t = None
  | (Err e, s') => (exists m, (m < fuel)%nat /\ within m s') /\ e <> TeMiss
  | (Panic, _) => False
  end.
Proof.
  assert (Hi : inv s) by (exists n; by split).
  split; [pose proof (load_tileset_info_ensures t Hvalid s Hi) as H|pose proof (archive_presence_ensures t Hvalid s Hi) as H].
  - by destruct (load_tileset_info t s) as [[[i|]|e|] s'].
  - by destruct (archive_presence t s) as [[[]|e|] s'].
Qed.
End Answers.

(** ** The tile cache over its history *)

Inductive TileCacheEvent :=
  | CachePut (at_ : Z) (key : string * Z) (value : CachedTile)
  | CacheEvicted (key : string * Z).

Definition tile_cache_step (negative_ttl : Z) (cache : TileCache) (e : TileCacheEvent) : TileCache :=
  match e with
  | CachePut now key value => tc_put negative_ttl now key value cache
  | CacheEvicted key => delete key cache
  end.
Definition tile_cache_run (negative_ttl : Z) (history : list TileCacheEvent) : TileCache :=
  foldl (tile_cache_step negative_ttl) ∅ history.

(** The last insertion for a key that was not evicted since. *)
Definition last_put (history : list TileCacheEvent) (key : string * Z) : option (Z * CachedTile) :=
  foldl (fun last e =>
    match e with
    | CachePut now k value => if bool_decide (k = key) then Some (now, value) else last
    | CacheEvicted k => if bool_decide (k = key) then None else last
    end) None history.

(** Tile cache: after any history of insertions and evictions, a lookup
    returns the last insertion for the key; a found tile is served until it is
    evicted or replaced, an absent one only until [negative_ttl] after it was
    inserted, whatever was cached before and however often it was read. *)
Theorem tile_cache_expiry (negative_ttl now : Z) (history : list TileCacheEvent) (key : string * Z) :
  tc_get now key (tile_cache_run negative_ttl history) =
  match last_put history key with
  | None => None
  | Some (inserted, CtNotFound) => if now <? inserted + negative_ttl then Some CtNotFound else None
  | Some (_, found) => Some found
  end.
Proof.
  unfold tc_get, tile_cache_run, last_put.
  induction history as [|e history IH] using rev_ind; [done|]. rewrite !foldl_snoc.
  destruct e as [at_ k v|k]; cbn [tile_cache_step]; case_bool_decide as Hk.
  - subst k. unfold tc_put. rewrite lookup_insert_eq. cbn.
    destruct (foldl _ ∅ history !! key); by destruct v.
  - unfold tc_put. by rewrite lookup_insert_ne.
  - subst k. by rewrite lookup_delete_eq.
  - by rewrite lookup_delete_ne.
Qed.

(** ** A concrete node

    Node [a] with a peer [b] that cannot be reached, over a store that holds the
    archive [PmtilesReader.demo_archive] under the name [demo]. No other task leads a flight. *)

Module DemoNode.
Definition demo_store (t : string) : option bytes := if String.eqb t "demo" then Some PmtilesReader.demo_archive else None.

Definition demo_peers : list (Peer unit) :=
  [{| peer_id := "b"; peer_addr := tt |}; {| peer_id := "a"; peer_addr := tt |}].

#[export] Instance demo_world : TileWorld (SocketAddr := unit) (M := unit) (W := unit) := {|
  tw_now _ := 0;
  tw_directory_peers s := (demo_peers, s);
  tw_transport_fetch _ _ s := (Err (PfRetryable "connection refused"), s);
  tw_read_bytes t start length _ s :=
    (match demo_store t with
     | Some a => Ok {| cr_bytes := ref_range a start length; cr_source := FromBackend |}
     | None => Err NotFound
     end, s);
  tw_await_flight _ _ s := s;
  tw_background s := s |}.

Definition demo_node : TileNode unit unit :=
  {| tn_world := tt; tn_peers := {| retryable_failures := ∅; inflight_fetches := ∅ |};
     tn_archives := ArchiveCache_new; tn_flights := SingleFlight_default; tn_tiles := ∅; tn_infos := ∅;
     tn_waited := false; tn_led := [] |}.

Abbreviation demo_reserve := (fun _ : Z => true).
Abbreviation demo_json := (fun _ : list Z => Some tt).

#[export] Instance demo_laws :
  TileLaws no_decoders demo_reserve demo_json tt demo_store "a" (fun _ : unit => 0%nat).
Proof.
  split.
  - done.
  - done.
  - intros led n peer path _ s Hs. by split.
  - intros led n t start length archive_len _ _ _ s Hs. cbn. destruct (demo_store t); split; eauto; done.
  - intros led n key f s Hs [Hk _] Hnot. by apply (wi_joins _ _ _ _ _ _ _ _ _ Hs) in Hk; [lia|].
Qed.

Lemma demo_node_within : within no_decoders demo_reserve demo_json tt demo_store (fun _ : unit => 0%nat) [] 0 demo_node.
Proof. split; [|cbn; lia|done|done]. split; cbn; [done|done|done|apply default_wf|done|done]. Qed.

Lemma demo_store_bytes t a : demo_store t = Some a -> is_bytes a.
Proof.
  unfold demo_store. case_match; [|done]. intros [= <-]. apply (bool_decide_unpack _). vm_compute. exact I.
Qed.

Abbreviation demo_route t id :=
  (rs_route_tile no_decoders demo_reserve demo_json tt (fun _ => "") (fun _ => "") (fun _ => 0) "a"
     (HrwRouter_new 2 1) 65536 1 nanos_per_sec EntryAndOwner t id demo_node).
Abbreviation demo_serve path :=
  (fetch_internal_for_simulator no_decoders demo_reserve demo_json tt (fun _ => "") (fun _ => "") (fun _ => "")
     (fun _ => 0) "a" (HrwRouter_new 2 1) 65536 1 nanos_per_sec path demo_node).

Abbreviation demo_load_info t :=
  (load_tileset_info no_decoders demo_reserve demo_json tt (fun _ => "") (fun _ => "") (fun _ => 0) "a"
     (HrwRouter_new 2 1) 65536 1 t demo_node).

Lemma run_eta {A B : Type} (p : A * B) a : p.1 = a -> p = (a, p.2).
Proof. by destruct p; cbn; intros ->. Qed.

(** Witness: the tile of the archive is read after the peer failed. *)
Lemma route_tile_correct_witness :
  (demo_route "demo" 1).1 = Ok (Some demo_tile, SelfBackend) /\
  tile_truth no_decoders demo_reserve demo_json tt demo_store "demo" 1 (Some demo_tile).
Proof.
  assert (Hr : (demo_route "demo" 1).1 = Ok (Some demo_tile, SelfBackend)) by (vm_compute; reflexivity).
  split; [exact Hr|].
  refine (proj1 (proj2 (route_tile_correct _ _ _ _ _ _ _ "a" _ _ 1 _ _ demo_store (fun _ => 0%nat) no_decoders_ok
    demo_store_bytes 0 "demo" 1 demo_node _ _ eq_refl _ _ demo_node_within (run_eta _ _ Hr)))).
  - clear. unfold is_u, u64_max. lia.
  - clear. lia.
Defined.

(** Node [a] serves the tile to its peers. *)
Example demo_served : (demo_serve "/_internal/tiles/demo/1").1 = Ok (response_tile [7; 8; 9] ItsBackend).
Proof. vm_compute. reflexivity. Qed.

Definition demo_info : TilesetInfo unit :=
  ltac:(let r := eval vm_compute in (demo_load_info "demo").1 in match r with Ok (Some ?i) => exact i end).

(** Witness: the header of the archive is found. *)
Lemma tileset_info_correct_witness :
  (demo_load_info "demo").1 = Ok (Some demo_info) /\
  header_truth (M := unit) no_decoders demo_reserve demo_store "demo" (ti_header demo_info).
Proof.
  assert (Hr : (demo_load_info "demo").1 = Ok (Some demo_info)) by (vm_compute; reflexivity).
  split; [exact Hr|].
  pose proof (proj1 (tileset_info_correct no_decoders demo_reserve demo_json tt (fun _ => "") (fun _ => "") (fun _ => 0)
    "a" (HrwRouter_new 2 1) 65536 1 demo_store (fun _ => 0%nat) no_decoders_ok demo_store_bytes 0 "demo" demo_node
    eq_refl Nat.lt_0_1 demo_node_within)) as H.
  revert H Hr. generalize (demo_load_info "demo"). intros p H Hr. rewrite (run_eta p _ Hr) in H.
  exact (proj1 (proj2 H)).
Defined.
End DemoNode.
