(* ===== verification/InternalHttp.v ===== *)
(** * The internal HTTP protocol

    Models the two ends of a request between nodes: the handlers of
    [servers/ishikari/src/server/internal.rs], [server/tileset/tile.rs] and
    [server/tileset/error.rs], and the client of
    [servers/ishikari/src/internal_transport.rs], which classifies responses and
    reads bodies up to the limit of the route.

    The HTTP library matches a path against the templates of the internal router
    and hands the decoded parameters to the handlers; a request is here the
    [InternalCall] whose path was sent. The network between the ends is an
    [Exchange]: a failure to send, or a received response whose body arrives in
    chunks, possibly cut off. *)

From S2P Require Import Prelude StdModel Types PmtilesFormat PmtilesReader TilesetSources ChunkStore.
From S2P Require Import SingleFlight PeerRouting PeerBackend TileArchives Resolver HttpMessage.

(** ** Handlers *)

Definition tileset_error_response (error : TilesetError) : HttpError :=
  match error with
  | TeUpstream _ | TeRetryableUpstream _ => (BAD_GATEWAY, "upstream tileset request failed")
  | TeTimeout _ => (GATEWAY_TIMEOUT, "upstream tileset request timed out")
  | TeOverloaded _ => (SERVICE_UNAVAILABLE, "backend fetch capacity exhausted")
  | TeMiss => (NOT_FOUND, "not found")
  | TeInternal _ => (INTERNAL_SERVER_ERROR, "internal server error")
  end.

Definition leaf_error_response (error : LeafBytesError) : HttpError :=
  match error with
  | LbInvalidRange => (BAD_REQUEST, "invalid leaf range")
  | LbTileset error => tileset_error_response error
  end.

Record TilesetResponse := {
  tr_bytes : bytes; tr_content_type : string; tr_content_encoding : option string; tr_cache_control : option string }.

Definition TilesetResponse_from (tile : TileData) : TilesetResponse :=
  {| tr_bytes := td_bytes tile; tr_content_type := td_content_type tile;
     tr_content_encoding := td_content_encoding tile; tr_cache_control := None |}.

Definition with_cache_control (value : string) (self : TilesetResponse) : TilesetResponse :=
  {| tr_bytes := tr_bytes self; tr_content_type := tr_content_type self;
     tr_content_encoding := tr_content_encoding self; tr_cache_control := Some value |}.

Definition TilesetResponse_into_response (self : TilesetResponse) : HttpResponse :=
  let headers := header_insert CONTENT_TYPE_HEADER (tr_content_type self) [] in
  let headers := match tr_content_encoding self with
                 | Some encoding => header_insert CONTENT_ENCODING_HEADER encoding headers
                 | None => headers
                 end in
  let headers := match tr_cache_control self with
                 | Some cache_control =>
                     header_insert VARY_HEADER "Accept" (header_insert CACHE_CONTROL_HEADER cache_control headers)
                 | None => headers
                 end in
  {| hr_status := OK; hr_headers := headers; hr_body := tr_bytes self |}.

Section Handlers.
Context {SocketAddr M W : Type}.
Abbreviation St := (TileNode M W).
Context `{!TileWorld (SocketAddr := SocketAddr) (M := M) (W := W)}.
Context (dec : Decoders) (try_reserve_exact : Z -> bool).
Context (metadata_from_json : list Z -> option M) (Metadata_default : M).
Context (format_text : FormatError -> string) (message_text : FetchMessage -> string) (id_text : IdError -> string).
Context (xxhash64 : list HasherWrite -> Z) (self_node_id : string) (router : HrwRouter).
Context (chunk_size : Z) (fuel : nat) (negative_ttl : Z).

(** [map_err] on a computation, and [TilesetId::try_from]. *)
Definition http_result {E A : Type} (f : E -> HttpError) (c : SM St E A) : SM St HttpError A :=
  r ← sm_attempt c;
  match r with inl e => lift (Err (f e)) | inr a => mret a end.

Definition tileset_param (tileset_id : string) : SM St HttpError string :=
  lift (map_err (fun error => (BAD_REQUEST, id_text error)) (TilesetId_try_new tileset_id)).

Definition internal_tile_handler (tileset_id : string) (tile_id : Z) : SM St HttpError HttpResponse :=
  tileset_id ← tileset_param tileset_id;
  loaded ← http_result tileset_error_response
             (load_tile_by_id_with_source dec try_reserve_exact metadata_from_json Metadata_default format_text
                message_text xxhash64 self_node_id router chunk_size fuel negative_ttl tileset_id tile_id);
  let '(tile, source) := loaded in
  source ← lift (match source with
                 | SelfTileCache | SelfChunkCache => Ok ItsCache
                 | SelfBackend => Ok ItsBackend
                 | _ => Err (NOT_FOUND, "not found")
                 end);
  lift (ok_or (NOT_FOUND, "not found")
    ((fun tile =>
        let response := TilesetResponse_into_response (TilesetResponse_from tile) in
        {| hr_status := hr_status response;
           hr_headers := header_insert TILE_SOURCE_HEADER (tile_source_as_str source) (hr_headers response);
           hr_body := hr_body response |}) <$> tile)).

Definition internal_bootstrap_handler (tileset_id : string) (metadata : bool) : SM St HttpError HttpResponse :=
  tileset_id ← tileset_param tileset_id;
  transfer ← http_result tileset_error_response
               (load_bootstrap_bytes dec try_reserve_exact format_text message_text chunk_size fuel tileset_id metadata);
  transfer ← lift (ok_or (NOT_FOUND, "not found") transfer);
  mret (bytes_response (bootstrap_body transfer) "application/octet-stream" None).

Definition internal_leaf_handler (tileset_id : string) (offset length : Z) : SM St HttpError HttpResponse :=
  tileset_id ← tileset_param tileset_id;
  leaf ← http_result leaf_error_response
           (load_leaf_bytes dec try_reserve_exact format_text message_text chunk_size fuel tileset_id offset length);
  leaf ← lift (ok_or (NOT_FOUND, "not found") leaf);
  mret (bytes_response leaf "application/octet-stream" None).

(** The handlers, by the request whose parameters the router extracted. *)
Definition handle (call : InternalCall) : SM St HttpError HttpResponse :=
  match call with
  | CallTile tileset_id tile_id => internal_tile_handler tileset_id tile_id
  | CallBootstrap tileset_id metadata => internal_bootstrap_handler tileset_id metadata
  | CallLeaf tileset_id offset length => internal_leaf_handler tileset_id offset length
  end.

(** A handled request, errors turned into responses. *)
Definition serve_call {E : Type} (call : InternalCall) : SM St E HttpResponse :=
  r ← sm_attempt (handle call);
  match r with inl e => mret (error_into_response e) | inr response => mret response end.
End Handlers.

(** ** The client *)

Definition authoritative_provider_negative (path : string) (status : Z) (headers : list (string * string))
    : option InternalProviderNegative :=
  if negb (String.prefix "/_internal/provider/" path) then None else
  marker ← ((header_get PROVIDER_NEGATIVE_HEADER headers ≫= header_to_str) ≫= negative_parse);
  match marker with
  | NegNotFound => if status =? NOT_FOUND then Some marker else None
  | NegGone => if status =? GONE then Some marker else None
  end.

(** What the network delivers. *)
Inductive Exchange :=
  | SendFailed (connect_or_timeout : bool) (message : string)
  | Received (status : Z) (headers : list (string * string)) (content_length : option Z)
      (chunks : list (string + bytes)).

Definition limit_error (limit : Z) : PeerFetchError :=
  PfFatal ("peer response body exceeds the " +:+ decimal limit +:+ "-byte route limit").

(** The chunks of a body, until one fails. *)
Fixpoint read_chunks (limit : Z) (body : bytes) (chunks : list (string + bytes)) : Res PeerFetchError bytes :=
  match chunks with
  | [] => Ok body
  | inl error :: _ => Err (PfFatal error)
  | inr chunk :: chunks =>
      next_len ← ok_or (PfFatal "peer response body length overflowed usize") (checked_add (len body) (len chunk));
      if next_len >? limit then Err (limit_error limit) else read_chunks limit (body ++ chunk) chunks
  end.

Definition read_bounded_body (content_length : option Z) (chunks : list (string + bytes)) (limit : Z)
    : Res PeerFetchError bytes :=
  if match content_length with Some length => length >? limit | None => false end then Err (limit_error limit)
  else read_chunks limit [] chunks.

Definition http_fetch (status_text : Z -> string) (path : string) (exchange : Exchange)
    : Res PeerFetchError InternalFetchResponse :=
  match exchange with
  | SendFailed connect_or_timeout message => Err (if connect_or_timeout then PfRetryable message else PfFatal message)
  | Received status headers content_length chunks =>
      match authoritative_provider_negative path status headers with
      | Some NegNotFound => Err PfProviderNotFound
      | Some NegGone => Err PfProviderGone
      | None =>
          if status =? NOT_FOUND then Err PfNotFound
          else if (status =? TOO_MANY_REQUESTS) || status_is_server_error status
          then Err (PfRetryable ("peer returned " +:+ status_text status))
          else if negb (status_is_success status)
          then Err (PfFatal ("peer returned unexpected status " +:+ status_text status))
          else
            let str_header name := header_get name headers ≫= header_to_str in
            bytes ← read_bounded_body content_length chunks (internal_response_body_limit path);
            Ok {| ifr_bytes := bytes;
                  ifr_tile_source := (str_header TILE_SOURCE_HEADER ≫= tile_source_parse);
                  ifr_provider_cache_control := str_header PROVIDER_CACHE_CONTROL_HEADER;
                  ifr_provider_age_seconds := (str_header PROVIDER_AGE_HEADER ≫= parse_uint u64_max);
                  ifr_provider_etag := str_header PROVIDER_ETAG_HEADER;
                  ifr_provider_last_modified := str_header PROVIDER_LAST_MODIFIED_HEADER;
                  ifr_content_encoding := str_header CONTENT_ENCODING_HEADER |}
      end
  end.

(** ** The client reads what was sent *)

Lemma body_chunks_spec limit chunks body :
  match read_chunks limit body chunks with
  | Ok bytes => complete chunks /\ bytes = body ++ received_bytes chunks /\ (len body <= limit -> len bytes <= limit)
  | Err e => exists message, e = PfFatal message
  | Panic => False
  end.
Proof.
  revert body. induction chunks as [|[e|chunk] chunks IH]; intros body; cbn.
  - rewrite app_nil_r. split_and!; [constructor|done|done].
  - eauto.
  - destruct (checked_add (len body) (len chunk)) as [n|] eqn:Hn; cbn; [|eauto].
    apply checked_add_Some in Hn as [-> _]. rewrite Z.gtb_ltb. destruct (Z.ltb_spec limit (len body + len chunk)); [unfold limit_error; eauto|].
    specialize (IH (body ++ chunk)). destruct (read_chunks limit (body ++ chunk) chunks); [|done..].
    destruct IH as (Hc & -> & Hl). rewrite <- app_assoc. split_and!; [constructor; eauto|done|].
    intros _. rewrite app_assoc. apply Hl. rewrite len_app. lia.
Qed.

Lemma read_bounded_body_spec content_length chunks limit :
  0 <= limit ->
  match read_bounded_body content_length chunks limit with
  | Ok bytes => complete chunks /\ bytes = received_bytes chunks /\ len bytes <= limit
  | Err e => exists message, e = PfFatal message
  | Panic => False
  end.
Proof.
  intros Hl. unfold read_bounded_body.
  destruct (match content_length with Some _ => _ | None => _ end); [unfold limit_error; eauto|].
  pose proof (body_chunks_spec limit chunks []) as H. destruct (read_chunks limit [] chunks); [|done..].
  destruct H as (Hc & Hb & Hlen). split_and!; [done|done|]. apply Hlen. unfold len. cbn. lia.
Qed.

(** What the client makes of a response: the body when all of it arrived within
    the limit of the route, and otherwise an error of its class. *)
Lemma http_fetch_spec status_text path status headers content_length chunks :
  String.prefix "/_internal/provider/" path = false ->
  match http_fetch status_text path (Received status headers content_length chunks) with
  | Ok r => 200 <= status < 300 /\ complete chunks /\ ifr_bytes r = received_bytes chunks /\
            len (ifr_bytes r) <= internal_response_body_limit path /\
            ifr_tile_source r = ((header_get TILE_SOURCE_HEADER headers ≫= header_to_str) ≫= tile_source_parse)
  | Err PfNotFound => status = NOT_FOUND
  | Err (PfRetryable _) => status = TOO_MANY_REQUESTS \/ 500 <= status < 600
  | Err (PfFatal _) => status <> NOT_FOUND /\ status <> TOO_MANY_REQUESTS /\ ~ 500 <= status < 600
  | Err PfProviderNotFound | Err PfProviderGone | Panic => False
  end.
Proof.
  intros Hp. unfold http_fetch, authoritative_provider_negative. rewrite Hp. cbn [negb].
  destruct (Z.eqb_spec status NOT_FOUND) as [|Hnf]; [done|].
  unfold status_is_server_error, status_is_success.
  destruct (Z.eqb_spec status TOO_MANY_REQUESTS) as [|Htm]; cbn [orb]; [by left|].
  destruct ((500 <=? status) && (status <? 600)) eqn:H5; [bool_props; right; lia|].
  assert (Hn5 : ~ 500 <= status < 600).
  { intros [H1 H2]. by rewrite (proj2 (Z.leb_le _ _)), (proj2 (Z.ltb_lt _ _)) in H5. }
  destruct ((200 <=? status) && (status <? 300)) eqn:H2; cbn [negb]; [|done]. bool_props.
  assert (Hlim : 0 <= internal_response_body_limit path).
  { unfold internal_response_body_limit, MAX_INTERNAL_BOOTSTRAP_RESPONSE_BYTES. repeat case_match; by vm_compute. }
  pose proof (read_bounded_body_spec content_length chunks _ Hlim) as Hb.
  destruct (read_bounded_body content_length chunks _) as [bytes|e|]; cbn; [|by destruct Hb as [m ->]|done].
  destruct Hb as (Hc & -> & Hl). split_and!; [lia|lia|done|done|done|done].
Qed.

(** ** The protocol over HTTP *)

(** What may arrive of a response: nothing, or its status, its headers among
    others, and its body in chunks, unless a chunk fails. *)
Definition delivered (response : HttpResponse) (x : Exchange) : Prop :=
  match x with
  | SendFailed _ _ => True
  | Received status headers content_length chunks =>
      status = hr_status response /\
      header_get TILE_SOURCE_HEADER headers = header_get TILE_SOURCE_HEADER (hr_headers response) /\
      (complete chunks -> received_bytes chunks = hr_body response)
  end.

Section Protocol.
Context {SocketAddr M W : Type}.
Abbreviation St := (TileNode M W).
Context `{!TileWorld (SocketAddr := SocketAddr) (M := M) (W := W)}.
Context (dec : Decoders) (try_reserve_exact : Z -> bool).
Context (metadata_from_json : list Z -> option M) (Metadata_default : M).
Context (format_text : FormatError -> string) (message_text : FetchMessage -> string) (id_text : IdError -> string).
Context (xxhash64 : list HasherWrite -> Z) (self_node_id : string) (router : HrwRouter).
Context (chunk_size : Z) (fuel : nat) (negative_ttl : Z).
Context (archive_of : string -> option bytes) (waits : W -> nat).
Context (Hdec : decoders_ok dec).
Context (Hbytes : forall t a, archive_of t = Some a -> is_bytes a).
Context `{!TileLaws dec try_reserve_exact metadata_from_json Metadata_default archive_of self_node_id waits}.

Abbreviation ensures := (ensures dec try_reserve_exact metadata_from_json Metadata_default fuel archive_of waits []).
Abbreviation within := (within (W := W) dec try_reserve_exact metadata_from_json Metadata_default archive_of waits []).
Abbreviation tile_truth := (tile_truth dec try_reserve_exact metadata_from_json Metadata_default archive_of).
Abbreviation transfer_truth := (transfer_truth (M := M) dec try_reserve_exact archive_of).
Abbreviation answers_call := (answers_call dec try_reserve_exact metadata_from_json Metadata_default archive_of).
Abbreviation denies_call := (denies_call dec try_reserve_exact metadata_from_json Metadata_default archive_of).
Abbreviation answers := (answers dec try_reserve_exact metadata_from_json Metadata_default archive_of).
Abbreviation denies := (denies dec try_reserve_exact metadata_from_json Metadata_default archive_of).
Abbreviation handle call :=
  (handle dec try_reserve_exact metadata_from_json Metadata_default format_text message_text id_text xxhash64
     self_node_id router chunk_size fuel negative_ttl call).
Abbreviation serve_call call :=
  (serve_call (E := unit) dec try_reserve_exact metadata_from_json Metadata_default format_text message_text id_text
     xxhash64 self_node_id router chunk_size fuel negative_ttl call).

(** A success with the body of an answer. *)
Definition good (call : InternalCall) (response : HttpResponse) : Prop :=
  hr_status response = OK /\ forall r, ifr_bytes r = hr_body response -> answers_call call r.
(** The status of a refusal: not found, or one the client retries. *)
Definition refusal (call : InternalCall) (e : HttpError) : Prop :=
  (e.1 = NOT_FOUND /\ denies_call call) \/ e.1 = BAD_REQUEST \/ 500 <= e.1 < 600.

Lemma http_result_ensures {E A : Type} (f : E -> HttpError) (c : SM St E A) T X :
  ensures c T X -> ensures (http_result f c) T (fun e => exists e0, X e0 /\ e = f e0).
Proof.
  intros Hc. eapply ensures_bind; [by eapply ensures_attempt|].
  intros [e|a] H; [|by apply ensures_ret]. apply ensures_lift; [done..|]. intros ? [= <-]. eauto.
Qed.

Lemma tileset_error_refusal call e : e <> TeMiss -> refusal call (tileset_error_response e).
Proof. intros He. right. right. destruct e; try done; cbn; unfold BAD_GATEWAY, GATEWAY_TIMEOUT, SERVICE_UNAVAILABLE, INTERNAL_SERVER_ERROR; lia. Qed.

Lemma tileset_param_ensures t X : valid_tileset t -> ensures (tileset_param id_text t) (fun t' => t' = t) X.
Proof. intros Hv. unfold tileset_param. rewrite Hv. by apply ensures_ret. Qed.

Lemma tile_handler_ensures t id :
  valid_tileset t -> is_u64 id -> ensures (handle (CallTile t id)) (good (CallTile t id)) (refusal (CallTile t id)).
Proof.
  intros Hv Hid. eapply ensures_bind; [by apply tileset_param_ensures|]. cbn beta. intros ? ->.
  eapply ensures_bind.
  { eapply ensures_conseq; [eapply http_result_ensures, load_tile_by_id_ensures; [done..|apply Hid]|done|].
    intros e (e0 & He0 & ->). by apply tileset_error_refusal. }
  intros [tile source] [[Htruth Hmiss] [Hn1 Hn2]]. cbn in *.
  eapply (ensures_bind _ _ _ _ _ _ _ _ _ (fun _ => report_label source <> "miss")).
  - apply ensures_lift; destruct source; try done; intros ? [= <-]; left; (split; [done|]);
      by rewrite (proj2 Hmiss eq_refl) in Htruth.
  - intros its Hits. destruct tile as [tile|]; [|by destruct Hits; apply Hmiss].
    apply ensures_lift; [done| |done]. intros r [= <-]. split; [done|]. intros r Hr. exists tile. by rewrite Hr.
Qed.

Lemma bootstrap_handler_ensures t include_metadata :
  valid_tileset t ->
  ensures (handle (CallBootstrap t include_metadata)) (good (CallBootstrap t include_metadata))
    (refusal (CallBootstrap t include_metadata)).
Proof.
  intros Hv. eapply ensures_bind; [by apply tileset_param_ensures|]. cbn beta. intros ? ->.
  eapply ensures_bind.
  { eapply ensures_conseq; [by eapply http_result_ensures, tileset_result_ensures, load_bootstrap_bytes_local_ensures|done|].
    intros e (e0 & He0 & ->). by apply tileset_error_refusal. }
  cbn. intros o H. eapply (ensures_bind _ _ _ _ _ _ _ _ _ (fun tr => o = Some tr)).
  - apply ensures_lift; [apply ok_or_no_panic|by intros tr Htr%ok_or_Ok|].
    intros e He. left. destruct o; [done|]. by injection He as <-.
  - intros tr ->. apply ensures_ret. split; [done|]. intros r Hr. exists tr. by auto.
Qed.

Lemma leaf_handler_ensures t offset length :
  valid_tileset t -> is_u64 offset -> is_usize length ->
  ensures (handle (CallLeaf t offset length)) (good (CallLeaf t offset length)) (refusal (CallLeaf t offset length)).
Proof.
  intros Hv Ho Hl. eapply ensures_bind; [by apply tileset_param_ensures|]. cbn beta. intros ? ->.
  eapply (ensures_bind _ _ _ _ _ _ _ _ _
    (fun o => forall bs, o = Some bs -> exists a, archive_of t = Some a /\ bs = ref_range a offset length)).
  { eapply ensures_conseq; [eapply (http_result_ensures _ _ _ (fun e => e <> LbTileset TeMiss))|intros o H; exact H|].
    - eapply ensures_bind; [by eapply ensures_attempt, load_leaf_bytes_local_ensures|].
      intros [[|e]|o] H; [| |by apply ensures_ret]; (apply ensures_lift; [done..|]); intros ? [= <-]; [done|].
      intros [= He]. by apply internal_tileset_error_not_miss in He.
    - intros e ([|e0] & He & ->); [by right; left|]. cbn. apply tileset_error_refusal. congruence. }
  intros o H. eapply (ensures_bind _ _ _ _ _ _ _ _ _ (fun bs => o = Some bs)).
  - apply ensures_lift; [apply ok_or_no_panic|by intros bs Hb%ok_or_Ok|].
    intros e He. left. destruct o; [done|]. by injection He as <-.
  - intros bs ->. apply ensures_ret. split; [done|]. intros r Hr. cbn. rewrite Hr. by apply H.
Qed.

Lemma handle_ensures call : call_wf call -> ensures (handle call) (good call) (refusal call).
Proof.
  destruct call; cbn [call_wf]; [intros []; by apply tile_handler_ensures|apply bootstrap_handler_ensures|].
  intros (? & ? & ?). by apply leaf_handler_ensures.
Qed.

Lemma path_of_not_provider call : String.prefix "/_internal/provider/" (path_of call) = false.
Proof. by destruct call. Qed.

Lemma answers_path_of call r : call_wf call -> answers_call call r -> answers (path_of call) r.
Proof. intros Hwf. apply (answers_parsed _ _ _ _ (fun _ => "")). by apply parse_path_of. Qed.

Lemma denies_path_of call : call_wf call -> denies_call call -> denies (path_of call).
Proof.
  intros Hwf Hd. apply (denies_parsed _ _ _ _ (fun _ => "")). intros call' H. rewrite parse_path_of in H by done.
  by injection H as <-.
Qed.

(** What a node may send for a request. *)
Definition sent (call : InternalCall) (response : HttpResponse) : Prop :=
  good call response \/ refusal call (hr_status response, "").

Lemma serve_call_spec n call s :
  call_wf call -> (n < fuel)%nat -> within n s ->
  exists response s', serve_call call s = (Ok response, s') /\ (exists m, (m < fuel)%nat /\ within m s') /\ sent call response.
Proof.
  intros Hwf Hn Hs. pose proof (handle_ensures call Hwf s (ex_intro _ n (conj Hn Hs))) as H.
  unfold InternalHttp.serve_call, mbind, SM_bind, sm_attempt. destruct (handle call s) as [[response|e|] s']; [| |done];
    destruct H as [Hi H]; do 2 eexists; (split; [done|]); (split; [exact Hi|]); [by left|right; exact H].
Qed.

(** [C7] The protocol over HTTP: a coherent node answers every request of the
    protocol and stays coherent. Whatever the network does to the response, the
    client takes from it only a complete body, within the limit of the route, that
    answers the path it asked for, and "not found" only for a tile the archive
    lacks. A node that fails to serve makes the client try another node; the
    client gives up only on a cut-off or oversized body, on a request that was
    refused as malformed, or when it could not send. *)
Theorem http_protocol_honest status_text n call s r s'
    (Hcall : call_wf call) (Hfuel : (n < fuel)%nat) (Hs : within n s) (Hserve : serve_call call s = (r, s')) :
  (exists m, (m < fuel)%nat /\ within m s') /\
  exists response, r = Ok response /\ forall x, delivered response x ->
    match http_fetch status_text (path_of call) x with
    | Ok answer =>
        answers (path_of call) answer /\ ifr_bytes answer = hr_body response /\
        len (hr_body response) <= internal_response_body_limit (path_of call)
    | Err PfNotFound => denies (path_of call)
    | Err (PfRetryable message) => x = SendFailed true message \/ 500 <= hr_status response < 600
    | Err (PfFatal message) =>
        x = SendFailed false message \/ hr_status response = OK \/ hr_status response = BAD_REQUEST
    | Err PfProviderNotFound | Err PfProviderGone | Panic => False
    end.
Proof.
  destruct (serve_call_spec n call s Hcall Hfuel Hs) as (response & s1 & Hrun & Hi & Hsent).
  rewrite Hrun in Hserve. injection Hserve as <- <-. split; [exact Hi|]. exists response. split; [done|].
  intros [[] message|status headers content_length chunks] Hx; [by left|by left|].
  destruct Hx as (-> & _ & Hbody).
  pose proof (http_fetch_spec status_text (path_of call) (hr_status response) headers content_length chunks
                (path_of_not_provider call)) as H.
  destruct Hsent as [[Hok Hgood]|Href].
  - rewrite Hok in *. destruct (http_fetch _ _ _) as [answer|[]|]; try done.
    + destruct H as (_ & Hc & Hb & Hl & _). rewrite Hb in *. rewrite (Hbody Hc) in *.
      split_and!; [|done|done]. apply answers_path_of; [done|]. apply Hgood. by rewrite Hb.
    + unfold OK, TOO_MANY_REQUESTS in H. lia.
    + by right; left.
  - unfold refusal in Href. cbn [fst] in Href. unfold NOT_FOUND, BAD_REQUEST, OK, TOO_MANY_REQUESTS in *.
    destruct (http_fetch _ _ _) as [answer|[]|]; try done; [lia| |lia|lia].
    apply denies_path_of; [done|]. destruct Href as [[_ Hd]|Hd]; [done|lia].
Qed.
End Protocol.

(** ** A concrete exchange *)

Module DemoHttp.
Import DemoNode.

Abbreviation demo_call := (CallTile "demo" 1).
Abbreviation demo_response :=
  (serve_call (E := unit) no_decoders (fun _ => true) (fun _ => Some tt) tt (fun _ => "") (fun _ => "") (fun _ => "")
     (fun _ => 0) "a" (HrwRouter_new 2 1) 65536 1 nanos_per_sec demo_call demo_node).

Definition demo_http : HttpResponse :=
  {| hr_status := 200;
     hr_headers := [("content-type", content_type TtMvt); ("x-ishikari-tile-source", "backend")];
     hr_body := [7; 8; 9] |}.
(** The body arrives in two chunks. *)
Definition demo_exchange : Exchange := Received 200 (hr_headers demo_http) (Some 3) [inr [7; 8]; inr [9]].

Lemma demo_call_wf : call_wf demo_call.
Proof. split; [reflexivity|]. unfold is_u, u64_max. lia. Qed.

(** Witness: the tile reaches the node that asked for it. *)
Lemma http_protocol_honest_witness :
  demo_response.1 = Ok demo_http /\
  http_fetch (fun _ => "") (path_of demo_call) demo_exchange = Ok (response_tile [7; 8; 9] ItsBackend) /\
  answers no_decoders (fun _ => true) (fun _ => Some tt) tt demo_store (path_of demo_call) (response_tile [7; 8; 9] ItsBackend).
Proof.
  assert (Hr : demo_response.1 = Ok demo_http) by (vm_compute; reflexivity).
  assert (Hf : http_fetch (fun _ => "") (path_of demo_call) demo_exchange = Ok (response_tile [7; 8; 9] ItsBackend))
    by (vm_compute; reflexivity).
  split; [exact Hr|]. split; [exact Hf|].
  destruct (proj2 (http_protocol_honest _ _ _ _ _ _ _ _ "a" _ _ 1 _ demo_store (fun _ => 0%nat) no_decoders_ok
    demo_store_bytes (fun _ => "") 0 demo_call demo_node _ _
    demo_call_wf Nat.lt_0_1 demo_node_within (run_eta _ _ Hr)))
    as (response & Hresp & H).
  injection Hresp as <-. specialize (H demo_exchange).
  rewrite Hf in H. apply H. repeat split.
Defined.
End DemoHttp.
