(* ===== verification/CacheControl.v ===== *)
(** * Cache-Control directives

    Models [crates/mmpf-http/src/cache_control.rs]: the tokenizer, which keeps
    commas inside quoted strings, and the conservative parser of the directives a
    cache policy depends on. A field value is the bytes of its text.

    The iterator [Directives] is the list of what it yields; its loop consumes at
    least one byte per round, so the length of the field is enough fuel
    ([directives_unfold]). *)

From S2P Require Import Prelude StdModel Types TilesetSources Text Config.

Definition quote : ascii := Ascii false true false false false true false false.
Definition backslash : ascii := "\"%char.
Definition comma : ascii := ","%char.
Definition equals : ascii := "="%char.

Record Directive := { d_name : string; d_value : option string }.

(** ** Delta seconds *)

Definition is_ascii_digit (a : ascii) : bool := (48 <=? byte_of a) && (byte_of a <=? 57).

Fixpoint fold_digits (seconds : Z) (value : string) : Z :=
  match value with
  | EmptyString => seconds
  | String a value => fold_digits (saturating_add (saturating_mul seconds 10) (byte_of a - 48)) value
  end.
Definition parse_delta_seconds (value : string) : option Z :=
  if String.eqb value "" || negb (str_all is_ascii_digit value) then None
  else Some (fold_digits 0 value).

Definition name_eq (self : Directive) (expected : string) : bool := eq_ignore_ascii_case (d_name self) expected.
Definition delta_seconds (self : Directive) : option Z := d_value self ≫= parse_delta_seconds.

(** ** Tokenizer *)

(** The scan for the boundary: the token before it, and what remains after it. *)
Fixpoint split_token (quoted escaped : bool) (s : string) : string * string :=
  match s with
  | EmptyString => ("", "")
  | String a s =>
      let continue quoted escaped := let '(token, remaining) := split_token quoted escaped s in
                                     (String a token, remaining) in
      if escaped then continue quoted false
      else if Ascii.eqb a backslash && quoted then continue quoted true
      else if Ascii.eqb a quote then continue (negb quoted) false
      else if Ascii.eqb a comma && negb quoted then ("", s)
      else continue quoted false
  end.

(** The content of a quoted string holds no unescaped quote and ends unescaped. *)
Fixpoint quoted_content (escaped : bool) (s : string) : bool :=
  match s with
  | EmptyString => negb escaped
  | String a s =>
      if escaped then quoted_content false s
      else if Ascii.eqb a backslash then quoted_content true s
      else if Ascii.eqb a quote then false
      else quoted_content false s
  end.
Definition normalize_value (value : string) : string :=
  match value with
  | String a rest =>
      if Ascii.eqb a quote && ends_with_char quote rest then
        let content := String.substring 0 (String.length rest - 1) rest in
        if quoted_content false content then content else value
      else value
  | EmptyString => value
  end.

Definition token_directive (token : string) : Directive :=
  match split_once equals token with
  | Some (name, value) => {| d_name := trim name; d_value := Some (normalize_value (trim value)) |}
  | None => {| d_name := token; d_value := None |}
  end.

Fixpoint directives_go (fuel : nat) (remaining : string) : list Directive :=
  match fuel with
  | O => []
  | S fuel =>
      if String.eqb remaining "" then [] else
      let '(token, remaining) := split_token false false remaining in
      let token := trim token in
      if String.eqb token "" then directives_go fuel remaining
      else token_directive token :: directives_go fuel remaining
  end.
Definition directives (value : string) : list Directive := directives_go (String.length value) value.

(** ** Parser *)

Record ParsedCacheControl := {
  no_store : bool; no_cache : bool; private : bool; must_revalidate : bool; proxy_revalidate : bool;
  no_transform : bool; immutable : bool;
  max_age : option Z; s_maxage : option Z; stale_while_revalidate : option Z }.
#[export] Instance ParsedCacheControl_eq_dec : EqDecision ParsedCacheControl.
Proof. solve_decision. Defined.

Definition ParsedCacheControl_default : ParsedCacheControl :=
  {| no_store := false; no_cache := false; private := false; must_revalidate := false; proxy_revalidate := false;
     no_transform := false; immutable := false; max_age := None; s_maxage := None; stale_while_revalidate := None |}.

Definition merge_conservative (target parsed : option Z) : option Z :=
  let candidate := default 0 parsed in
  Some (match target with Some current => Z.min current candidate | None => candidate end).

Section Setters.
Implicit Types c : ParsedCacheControl.
Definition set_no_store c := {| no_store := true; no_cache := no_cache c; private := private c;
  must_revalidate := must_revalidate c; proxy_revalidate := proxy_revalidate c; no_transform := no_transform c;
  immutable := immutable c; max_age := max_age c; s_maxage := s_maxage c;
  stale_while_revalidate := stale_while_revalidate c |}.
Definition set_no_cache c := {| no_store := no_store c; no_cache := true; private := private c;
  must_revalidate := must_revalidate c; proxy_revalidate := proxy_revalidate c; no_transform := no_transform c;
  immutable := immutable c; max_age := max_age c; s_maxage := s_maxage c;
  stale_while_revalidate := stale_while_revalidate c |}.
Definition set_private c := {| no_store := no_store c; no_cache := no_cache c; private := true;
  must_revalidate := must_revalidate c; proxy_revalidate := proxy_revalidate c; no_transform := no_transform c;
  immutable := immutable c; max_age := max_age c; s_maxage := s_maxage c;
  stale_while_revalidate := stale_while_revalidate c |}.
Definition set_must_revalidate c := {| no_store := no_store c; no_cache := no_cache c; private := private c;
  must_revalidate := true; proxy_revalidate := proxy_revalidate c; no_transform := no_transform c;
  immutable := immutable c; max_age := max_age c; s_maxage := s_maxage c;
  stale_while_revalidate := stale_while_revalidate c |}.
Definition set_proxy_revalidate c := {| no_store := no_store c; no_cache := no_cache c; private := private c;
  must_revalidate := must_revalidate c; proxy_revalidate := true; no_transform := no_transform c;
  immutable := immutable c; max_age := max_age c; s_maxage := s_maxage c;
  stale_while_revalidate := stale_while_revalidate c |}.
Definition set_no_transform c := {| no_store := no_store c; no_cache := no_cache c; private := private c;
  must_revalidate := must_revalidate c; proxy_revalidate := proxy_revalidate c; no_transform := true;
  immutable := immutable c; max_age := max_age c; s_maxage := s_maxage c;
  stale_while_revalidate := stale_while_revalidate c |}.
Definition set_immutable c := {| no_store := no_store c; no_cache := no_cache c; private := private c;
  must_revalidate := must_revalidate c; proxy_revalidate := proxy_revalidate c; no_transform := no_transform c;
  immutable := true; max_age := max_age c; s_maxage := s_maxage c;
  stale_while_revalidate := stale_while_revalidate c |}.
Definition set_max_age o c := {| no_store := no_store c; no_cache := no_cache c; private := private c;
  must_revalidate := must_revalidate c; proxy_revalidate := proxy_revalidate c; no_transform := no_transform c;
  immutable := immutable c; max_age := o; s_maxage := s_maxage c;
  stale_while_revalidate := stale_while_revalidate c |}.
Definition set_s_maxage o c := {| no_store := no_store c; no_cache := no_cache c; private := private c;
  must_revalidate := must_revalidate c; proxy_revalidate := proxy_revalidate c; no_transform := no_transform c;
  immutable := immutable c; max_age := max_age c; s_maxage := o;
  stale_while_revalidate := stale_while_revalidate c |}.
Definition set_stale_while_revalidate o c := {| no_store := no_store c; no_cache := no_cache c; private := private c;
  must_revalidate := must_revalidate c; proxy_revalidate := proxy_revalidate c; no_transform := no_transform c;
  immutable := immutable c; max_age := max_age c; s_maxage := s_maxage c;
  stale_while_revalidate := o |}.
End Setters.

Definition apply_directive (control : ParsedCacheControl) (directive : Directive) : ParsedCacheControl :=
  if name_eq directive "no-store" then set_no_store control
  else if name_eq directive "no-cache" then set_no_cache control
  else if name_eq directive "private" then set_private control
  else if name_eq directive "must-revalidate" then set_must_revalidate control
  else if name_eq directive "proxy-revalidate" then set_proxy_revalidate control
  else if name_eq directive "no-transform" then set_no_transform control
  else if name_eq directive "immutable" then set_immutable control
  else if name_eq directive "max-age" then
    set_max_age (merge_conservative (max_age control) (delta_seconds directive)) control
  else if name_eq directive "s-maxage" then
    set_s_maxage (merge_conservative (s_maxage control) (delta_seconds directive)) control
  else if name_eq directive "stale-while-revalidate" then
    set_stale_while_revalidate (merge_conservative (stale_while_revalidate control) (delta_seconds directive)) control
  else control.

Definition parse_values (values : list string) : option ParsedCacheControl :=
  let control := fold_left (fun control value => fold_left apply_directive (directives value) control)
                   values ParsedCacheControl_default in
  if bool_decide (values = []) then None else Some control.

(** [parse]: one field is present. *)
Definition parse (value : string) : ParsedCacheControl := default ParsedCacheControl_default (parse_values [value]).

Definition conservative_delta_seconds_values (values : list string) (expected : string) : option Z :=
  let found := (fun directive => default 0 (d_value directive ≫= parse_delta_seconds)) <$>
                 List.filter (fun directive => name_eq directive expected) (mjoin (directives <$> values)) in
  match found with [] => None | seconds :: found => Some (fold_left Z.min found seconds) end.
Definition conservative_delta_seconds (value expected : string) : option Z :=
  conservative_delta_seconds_values [value] expected.

(** ** Tokenization laws *)

Lemma split_token_length q e s t r :
  split_token q e s = (t, r) -> s <> "" -> (String.length r < String.length s)%nat.
Proof.
  revert q e t r. induction s as [|a s IH]; intros q e t r; cbn; [done|]. intros Hs _.
  assert (Hgo : forall q' e', (let '(token, remaining) := split_token q' e' s in (String a token, remaining)) = (t, r) ->
             (String.length r < S (String.length s))%nat).
  { intros q' e' Hgo. destruct (split_token q' e' s) as [t' r'] eqn:Hst. injection Hgo as <- <-.
    destruct (decide (s = "")) as [->|Hne]; [by injection Hst as <- <-; cbn; lia|].
    apply IH in Hst; [lia|done]. }
  repeat match type of Hs with (if ?b then _ else _) = _ => destruct b end;
    first [by eapply Hgo|injection Hs as <- <-; lia].
Qed.

Lemma directives_go_fuel n m s :
  (String.length s <= n)%nat -> (String.length s <= m)%nat -> directives_go n s = directives_go m s.
Proof.
  revert m s. induction n as [|n IH]; intros m s Hn Hm.
  - destruct s; [|cbn in Hn; lia]. by destruct m.
  - destruct m as [|m]; [destruct s; [done|cbn in Hm; lia]|]. cbn.
    destruct (String.eqb_spec s "") as [->|Hne]; [done|].
    destruct (split_token false false s) as [t r] eqn:Hst.
    pose proof (split_token_length _ _ _ _ _ Hst Hne).
    by rewrite (IH m r) by lia.
Qed.

(** The loop of the iterator. *)
Lemma directives_unfold s :
  directives s =
  if String.eqb s "" then [] else
  let '(token, remaining) := split_token false false s in
  let token := trim token in
  if String.eqb token "" then directives remaining else token_directive token :: directives remaining.
Proof.
  unfold directives at 1. destruct s as [|a s]; [done|]. cbn [String.length directives_go].
  destruct (String.eqb_spec (String a s) "") as [|Hne]; [done|].
  destruct (split_token false false (String a s)) as [t r] eqn:Hst.
  pose proof (split_token_length _ _ _ _ _ Hst Hne) as Hl. cbn in Hl.
  unfold directives. by rewrite (directives_go_fuel _ (String.length r) r) by lia.
Qed.

(** Whether the field value is inside a quoted string at its end. *)
Fixpoint ends_quoted (quoted escaped : bool) (s : string) : bool :=
  match s with
  | EmptyString => quoted
  | String a s =>
      if escaped then ends_quoted quoted false s
      else if Ascii.eqb a backslash && quoted then ends_quoted quoted true s
      else if Ascii.eqb a quote then ends_quoted (negb quoted) false s
      else ends_quoted quoted false s
  end.
Definition balanced (s : string) : bool := negb (ends_quoted false false s).

Lemma split_token_app q e x y :
  ends_quoted q e x = false -> (e = true -> q = true) ->
  let '(t, r) := split_token q e x in
  (split_token q e (x +:+ String comma y) = (t, r +:+ String comma y) /\ balanced r = true) \/
  (r = "" /\ split_token q e (x +:+ String comma y) = (t, y)).
Proof.
  revert q e. induction x as [|a x IH]; intros q e Hb He.
  - right. cbn in *. subst q. destruct e; [by discriminate He|]. done.
  - rewrite app_String. cbn [split_token ends_quoted] in *.
    assert (Hgo : forall q' e', ends_quoted q' e' x = false -> (e' = true -> q' = true) ->
      let '(t, r) := let '(token, remaining) := split_token q' e' x in (String a token, remaining) in
      ((let '(token, remaining) := split_token q' e' (x +:+ String comma y) in (String a token, remaining)) =
         (t, r +:+ String comma y) /\ balanced r = true) \/
      (r = "" /\ (let '(token, remaining) := split_token q' e' (x +:+ String comma y) in (String a token, remaining)) = (t, y))).
    { intros q' e' Hb' He'. specialize (IH q' e' Hb' He'). destruct (split_token q' e' x) as [t r].
      destruct IH as [[-> ?]|[? ->]]; auto. }
    destruct e; [by apply Hgo|].
    destruct (Ascii.eqb a backslash && q) eqn:Hq; [bool_props; apply Hgo; auto|].
    destruct (Ascii.eqb a quote); [by apply Hgo|].
    destruct (Ascii.eqb a comma && negb q) eqn:Hc; [|by apply Hgo].
    bool_props. subst q. left. unfold balanced. by rewrite Hb.
Qed.

(** A comma outside quotes separates the directives on its sides. *)
Lemma directives_comma x y :
  balanced x = true -> directives (x +:+ String comma y) = directives x ++ directives y.
Proof.
  remember (String.length x) as n eqn:Hn. revert x Hn.
  induction (lt_wf n) as [n _ IH]; intros x -> Hb.
  rewrite (directives_unfold (x +:+ _)), (directives_unfold x).
  pose proof (split_token_app false false x y) as Hs. unfold balanced in Hb. bool_props.
  specialize (Hs Hb ltac:(done)).
  replace (String.eqb (x +:+ String comma y) "") with false by (by destruct x).
  destruct (String.eqb_spec x "") as [->|Hne].
  { cbn. by destruct (String.eqb_spec (trim "") ""). }
  destruct (split_token false false x) as [t r] eqn:Hst.
  pose proof (split_token_length _ _ _ _ _ Hst Hne) as Hl.
  destruct Hs as [[-> Hr]|[-> ->]].
  - rewrite (IH (String.length r) Hl r) by done. cbv zeta. by destruct (String.eqb (trim t) "").
  - rewrite (directives_unfold ""). cbv zeta. by destruct (String.eqb (trim t) "").
Qed.

(** ** The parser as a merge of contributions *)

Definition min_option (a b : option Z) : option Z :=
  match a, b with Some a, Some b => Some (Z.min a b) | Some a, None => Some a | None, b => b end.

Definition merge (c d : ParsedCacheControl) : ParsedCacheControl :=
  {| no_store := no_store c || no_store d; no_cache := no_cache c || no_cache d;
     private := private c || private d; must_revalidate := must_revalidate c || must_revalidate d;
     proxy_revalidate := proxy_revalidate c || proxy_revalidate d;
     no_transform := no_transform c || no_transform d; immutable := immutable c || immutable d;
     max_age := min_option (max_age c) (max_age d); s_maxage := min_option (s_maxage c) (s_maxage d);
     stale_while_revalidate := min_option (stale_while_revalidate c) (stale_while_revalidate d) |}.

(** What one directive says. *)
Definition contribution (d : Directive) : ParsedCacheControl := apply_directive ParsedCacheControl_default d.

#[export] Instance min_option_comm : Comm (=) min_option.
Proof. intros [x|] [y|]; cbn; f_equal; lia. Qed.
#[export] Instance min_option_assoc : Assoc (=) min_option.
Proof. intros [x|] [y|] [z|]; cbn; f_equal; lia. Qed.
#[export] Instance merge_comm : Comm (=) merge.
Proof. intros c d. unfold merge. f_equal; first [apply orb_comm|apply comm, _]. Qed.
#[export] Instance merge_assoc : Assoc (=) merge.
Proof. intros c d e. unfold merge. cbn. f_equal; first [apply orb_assoc|apply assoc, _]. Qed.
Lemma merge_default_r c : merge c ParsedCacheControl_default = c.
Proof. destruct c as [[] [] [] [] [] [] [] [m|] [sm|] [w|]]; done. Qed.
Lemma merge_idemp c : merge c c = c.
Proof.
  destruct c as [[] [] [] [] [] [] [] [m|] [sm|] [w|]]; unfold merge; cbn; rewrite ?Z.min_id; done.
Qed.

Lemma apply_directive_merge c d : apply_directive c d = merge c (contribution d).
Proof.
  unfold contribution, apply_directive.
  repeat match goal with |- context [name_eq d ?n] => destruct (name_eq d n) end;
    destruct c as [[] [] [] [] [] [] [] [m|] [sm|] [w|]]; done.
Qed.

Definition field_control (value : string) : ParsedCacheControl :=
  foldr merge ParsedCacheControl_default (contribution <$> directives value).

Lemma fold_left_merge {A} (f : A -> ParsedCacheControl) step c l :
  (forall c x, step c x = merge c (f x)) ->
  fold_left step l c = merge c (foldr merge ParsedCacheControl_default (f <$> l)).
Proof.
  intros Hstep. revert c. induction l as [|x l IH]; intros c; cbn; [by rewrite merge_default_r|].
  by rewrite IH, Hstep, (assoc_L merge).
Qed.

Lemma parse_values_merge values :
  parse_values values =
  if bool_decide (values = []) then None
  else Some (foldr merge ParsedCacheControl_default (field_control <$> values)).
Proof.
  unfold parse_values. case_bool_decide; [done|]. f_equal.
  rewrite (fold_left_merge field_control).
  - by rewrite (comm merge ParsedCacheControl_default), merge_default_r.
  - intros c v. apply (fold_left_merge contribution). apply apply_directive_merge.
Qed.

(** [c'] restricts caching at least as much as [c]. *)
Definition stricter (c' c : ParsedCacheControl) : Prop := merge c' c = c'.

#[export] Instance stricter_preorder : PreOrder stricter.
Proof.
  split; [exact merge_idemp|]. intros a b c Hab Hbc. unfold stricter in *.
  by rewrite <- Hab, <- (assoc_L merge), Hbc.
Qed.
#[export] Instance stricter_antisym : AntiSymm (=) stricter.
Proof. intros a b Ha Hb. unfold stricter in *. transitivity (merge a b); [done|by rewrite (comm_L merge a b)]. Qed.

Lemma merge_fold_stricter l c : c ∈ l -> stricter (foldr merge ParsedCacheControl_default l) c.
Proof.
  unfold stricter. induction l as [|x l IH]; cbn; [by intros ?%elem_of_nil|].
  intros [->|Hin]%elem_of_cons.
  - by rewrite (comm_L merge x), <- (assoc_L merge), merge_idemp.
  - by rewrite <- (assoc_L merge), IH.
Qed.

Lemma merge_fold_least l d :
  (forall c, c ∈ l -> stricter d c) -> stricter d (foldr merge ParsedCacheControl_default l).
Proof.
  unfold stricter. induction l as [|x l IH]; cbn; intros Hl; [apply merge_default_r|].
  rewrite (assoc_L merge), Hl by left. apply IH. intros c Hc. apply Hl. by right.
Qed.

(** The parsed control is the greatest lower bound of what its fields say. *)
Lemma parse_values_glb values c :
  parse_values values = Some c ->
  (forall v, v ∈ values -> stricter c (field_control v)) /\
  (forall d, (forall v, v ∈ values -> stricter d (field_control v)) -> stricter d c).
Proof.
  rewrite parse_values_merge. case_bool_decide; [done|]. intros [= <-]. split.
  - intros v Hv. apply merge_fold_stricter. by apply list_elem_of_fmap_2.
  - intros d Hd. apply merge_fold_least. intros c (v & -> & Hv)%list_elem_of_fmap. by apply Hd.
Qed.

Lemma parse_values_present values : values <> [] -> is_Some (parse_values values).
Proof. intros Hne. rewrite parse_values_merge. case_bool_decide; [done|]. eauto. Qed.

Lemma foldr_merge_app l l' :
  foldr merge ParsedCacheControl_default (l ++ l') =
  merge (foldr merge ParsedCacheControl_default l) (foldr merge ParsedCacheControl_default l').
Proof.
  induction l as [|x l IH]; cbn; [by rewrite (comm_L merge), merge_default_r|].
  by rewrite IH, (assoc_L merge).
Qed.

Lemma field_control_comma x y :
  balanced x = true -> field_control (x +:+ String comma y) = merge (field_control x) (field_control y).
Proof.
  intros Hb. unfold field_control. rewrite directives_comma by done. by rewrite fmap_app, foldr_merge_app.
Qed.

(** The reference reading of one freshness directive. *)
Lemma fold_min_option (l : list Z) x :
  Some (fold_left Z.min l x) = foldr min_option None (Some <$> (x :: l)).
Proof.
  revert x. induction l as [|y l IH]; intros x; [done|]. cbn [fold_left]. rewrite IH.
  cbn [fmap list_fmap foldr]. change (Some (Z.min x y)) with (min_option (Some x) (Some y)).
  by rewrite (assoc_L min_option).
Qed.

Lemma name_eq_unique d n n' : name_eq d n = true -> name_eq d n' = true -> eq_ignore_ascii_case n n' = true.
Proof.
  unfold name_eq. generalize (d_name d). intros s. revert n n'.
  induction s as [|a s IH]; intros [|b n] [|c n']; cbn; try done.
  intros [Hb Hn]%andb_prop [Hc Hn']%andb_prop. apply Ascii.eqb_eq in Hb, Hc.
  rewrite <- Hb, <- Hc, Ascii.eqb_refl. cbn. by apply IH.
Qed.

(** Only the directive of that name speaks about a window. *)
Ltac contribution_cases d :=
  unfold contribution, apply_directive;
  repeat match goal with |- context [name_eq d ?n] => destruct (name_eq d n) eqn:? end;
  try done;
  match goal with
  | H : name_eq d ?n = true, H' : name_eq d ?n' = true |- _ =>
      assert_fails (unify n n'); by pose proof (name_eq_unique d n n' H H')
  end.
Lemma contribution_max_age d :
  max_age (contribution d) = if name_eq d "max-age" then Some (default 0 (delta_seconds d)) else None.
Proof. contribution_cases d. Qed.
Lemma contribution_s_maxage d :
  s_maxage (contribution d) = if name_eq d "s-maxage" then Some (default 0 (delta_seconds d)) else None.
Proof. contribution_cases d. Qed.
Lemma contribution_swr d :
  stale_while_revalidate (contribution d) =
  if name_eq d "stale-while-revalidate" then Some (default 0 (delta_seconds d)) else None.
Proof. contribution_cases d. Qed.

Section Reference.
Context (get : ParsedCacheControl -> option Z) (expected : string).
Hypothesis get_merge : forall c d, get (merge c d) = min_option (get c) (get d).
Hypothesis get_default : get ParsedCacheControl_default = None.
Hypothesis get_contribution : forall d,
  get (contribution d) = if name_eq d expected then Some (default 0 (delta_seconds d)) else None.

Lemma foldr_merge_get l : get (foldr merge ParsedCacheControl_default l) = foldr min_option None (get <$> l).
Proof. induction l as [|x l IH]; cbn; [done|]. by rewrite get_merge, IH. Qed.

Lemma foldr_min_app (l l' : list (option Z)) :
  foldr min_option None (l ++ l') = min_option (foldr min_option None l) (foldr min_option None l').
Proof. induction l as [|x l IH]; cbn; [done|]. by rewrite IH, (assoc_L min_option). Qed.

Lemma reference_window values c :
  parse_values values = Some c -> get c = conservative_delta_seconds_values values expected.
Proof.
  rewrite parse_values_merge. case_bool_decide as Hne; [done|]. clear Hne. intros [= <-]. rewrite foldr_merge_get.
  unfold conservative_delta_seconds_values.
  transitivity (foldr min_option None (Some <$> ((fun d => default 0 (d_value d ≫= parse_delta_seconds)) <$>
    List.filter (fun d => name_eq d expected) (mjoin (directives <$> values))))).
  - induction values as [|v values IH]; cbn; [done|].
    rewrite IH, List.filter_app, !fmap_app, foldr_min_app. f_equal. unfold field_control. rewrite foldr_merge_get.
    clear IH. induction (directives v) as [|d ds IH]; cbn; [done|]. rewrite IH, get_contribution.
    by destruct (name_eq d expected).
  - case_match; [done|]. by rewrite fold_min_option.
Qed.
End Reference.

(** ** Conservative reading *)

Definition window_restricts (o' o : option Z) : Prop :=
  match o with Some n => exists n', o' = Some n' /\ n' <= n | None => True end.

(** Every restriction of [c] is one of [c'], and no window of [c'] is longer. *)
Record restricts (c' c : ParsedCacheControl) : Prop := {
  rs_no_store : no_store c = true -> no_store c' = true;
  rs_no_cache : no_cache c = true -> no_cache c' = true;
  rs_private : private c = true -> private c' = true;
  rs_must_revalidate : must_revalidate c = true -> must_revalidate c' = true;
  rs_proxy_revalidate : proxy_revalidate c = true -> proxy_revalidate c' = true;
  rs_max_age : window_restricts (max_age c') (max_age c);
  rs_s_maxage : window_restricts (s_maxage c') (s_maxage c);
  rs_swr : window_restricts (stale_while_revalidate c') (stale_while_revalidate c) }.

Lemma min_option_restricts a b : min_option a b = a -> window_restricts a b.
Proof. destruct a, b; cbn; intros [=]; eauto with lia. Qed.

Lemma stricter_restricts c' c : stricter c' c -> restricts c' c.
Proof.
  unfold stricter. destruct c'. unfold merge. cbn. intros [=]. split; cbn;
    first [by apply min_option_restricts
          |match goal with H : (?a || ?b)%bool = ?a |- ?b = true -> _ => intros Hb; rewrite Hb in H; by destruct a end].
Qed.

(** Fields can be reordered and repeated at will, and more fields only restrict. *)
Lemma parse_values_subset values values' c :
  parse_values values = Some c -> values ⊆ values' ->
  exists c', parse_values values' = Some c' /\ stricter c' c.
Proof.
  intros Hc Hsub. destruct (parse_values_present values') as [c' Hc'].
  { intros ->. destruct values as [|v values]; [done|]. specialize (Hsub v ltac:(left)). by apply elem_of_nil in Hsub. }
  exists c'. split; [done|]. apply parse_values_glb in Hc as [_ Hleast], Hc' as [Hlower _].
  apply Hleast. intros v Hv. apply Hlower, Hsub, Hv.
Qed.

(** ** Numbers *)

Lemma char_digit_ascii a d : char_digit a = Some d -> is_ascii_digit a = true /\ byte_of a - 48 = d /\ 0 <= d < 10.
Proof.
  unfold char_digit, is_ascii_digit, byte_of. intros Ha.
  destruct (_ && _) eqn:Hd in Ha; [|done]. injection Ha as <-. bool_props.
  split_and!; [|done|lia|lia]. apply andb_true_intro. split; apply Z.leb_le; lia.
Qed.

Lemma fold_digits_parse max acc s v :
  parse_digits max acc s = Some v -> 0 <= acc -> max <= u64_max -> fold_digits acc s = v /\ str_all is_ascii_digit s = true.
Proof.
  revert acc. induction s as [|a s IH]; intros acc; cbn; [by intros [= ->]|].
  destruct (char_digit a) as [d|] eqn:Hd; cbn; [|done].
  apply char_digit_ascii in Hd as (-> & -> & Hd). destruct (Z.leb_spec (acc * 10 + d) max) as [Hle|]; [|done].
  intros Hp Hacc Hmax. unfold saturating_add, saturating_mul, usize_max.
  rewrite (Z.min_r u64_max (acc * 10)), Z.min_r by lia. apply IH; [done|lia..].
Qed.

Lemma parse_delta_decimal n : is_u64 n -> parse_delta_seconds (decimal n) = Some n.
Proof.
  intros Hn. pose proof (parse_decimal u64_max n Hn ltac:(done)) as Hp. unfold parse_uint in Hp.
  pose proof (decimal_no_char n "+"%char Hn ltac:(done)) as Hplus.
  destruct (decimal n) as [|a s]; [done|]. rewrite decide_False in Hp by (intros ->; apply Hplus; by left).
  apply fold_digits_parse in Hp as [Hf Ha]; [|lia|done].
  unfold parse_delta_seconds. rewrite Ha, Hf. done.
Qed.

Lemma fold_digits_range acc s : is_u64 acc -> str_all is_ascii_digit s = true -> is_u64 (fold_digits acc s).
Proof.
  revert acc. induction s as [|a s IH]; intros acc Hacc; cbn; [done|]. intros [Ha Hs]%andb_prop.
  apply IH; [|done]. unfold is_ascii_digit in Ha. bool_props.
  unfold is_u, saturating_add, saturating_mul, usize_max in *. unfold u64_max in *. lia.
Qed.

Lemma delta_seconds_range d n : delta_seconds d = Some n -> is_u64 n.
Proof.
  unfold delta_seconds, parse_delta_seconds. destruct (d_value d) as [v|]; cbn; [|done].
  destruct (_ || _) eqn:Hv; [done|]. bool_props. intros [= <-]. apply fold_digits_range; done.
Qed.

(** The windows of a control are 64-bit. *)
Record control_u64 (c : ParsedCacheControl) : Prop := {
  cu_max_age : forall n, max_age c = Some n -> is_u64 n;
  cu_s_maxage : forall n, s_maxage c = Some n -> is_u64 n;
  cu_swr : forall n, stale_while_revalidate c = Some n -> is_u64 n }.

Lemma min_option_range a b n :
  (forall n, a = Some n -> is_u64 n) -> (forall n, b = Some n -> is_u64 n) -> min_option a b = Some n -> is_u64 n.
Proof. destruct a as [x|], b as [y|]; cbn; intros Ha Hb [= <-]; auto. destruct (Z.min_spec x y) as [[_ ->]|[_ ->]]; auto. Qed.

Lemma merge_u64 c d : control_u64 c -> control_u64 d -> control_u64 (merge c d).
Proof. intros [] []. split; intros n; apply min_option_range; auto. Qed.

Lemma contribution_u64 d : control_u64 (contribution d).
Proof.
  assert (Hd : is_u64 (default 0 (delta_seconds d))).
  { destruct (delta_seconds d) eqn:E; cbn; [by eapply delta_seconds_range|]. unfold is_u, u64_max. lia. }
  split; intros n; [rewrite contribution_max_age|rewrite contribution_s_maxage|rewrite contribution_swr];
    (case_match; [|done]); by intros [= <-].
Qed.

Lemma foldr_merge_u64 l : Forall control_u64 l -> control_u64 (foldr merge ParsedCacheControl_default l).
Proof. induction 1; cbn; [by split|by apply merge_u64]. Qed.

Lemma parse_values_u64 values c : parse_values values = Some c -> control_u64 c.
Proof.
  rewrite parse_values_merge. case_bool_decide; [done|]. intros [= <-].
  apply foldr_merge_u64, Forall_fmap, Forall_true. intros v. cbn.
  apply foldr_merge_u64, Forall_fmap, Forall_true. apply contribution_u64.
Qed.

(** Conservative reading of Cache-Control: the windows of a control are the
    smallest values its directives of that name carry (a missing or malformed value
    counts as zero); fields may be reordered or repeated without any effect, an
    additional field can only restrict, and a comma outside quotes separates
    directives exactly as separate fields do. So neither order nor duplication can
    extend freshness, and a field with an open quote hides nothing of another. *)
Theorem parse_conservative values c :
  parse_values values = Some c ->
  (max_age c = conservative_delta_seconds_values values "max-age" /\
   s_maxage c = conservative_delta_seconds_values values "s-maxage" /\
   stale_while_revalidate c = conservative_delta_seconds_values values "stale-while-revalidate") /\
  (forall values', values ⊆ values' ->
     exists c', parse_values values' = Some c' /\ restricts c' c /\ (values' ⊆ values -> c' = c)) /\
  (forall x y rest, values = (x +:+ String comma y) :: rest -> balanced x = true ->
     parse_values (x :: y :: rest) = Some c).
Proof.
  intros Hc. split_and!.
  - by apply (reference_window max_age _ ltac:(done) ltac:(done) contribution_max_age).
  - by apply (reference_window s_maxage _ ltac:(done) ltac:(done) contribution_s_maxage).
  - by apply (reference_window stale_while_revalidate _ ltac:(done) ltac:(done) contribution_swr).
  - intros values' Hsub. destruct (parse_values_subset _ _ _ Hc Hsub) as (c' & Hc' & Hs).
    exists c'. split_and!; [done|by apply stricter_restricts|]. intros Hsub'.
    destruct (parse_values_subset _ _ _ Hc' Hsub') as (c2 & Hc2 & Hs'). replace c2 with c in Hs' by congruence.
    by apply (anti_symm stricter).
  - intros x y rest -> Hb. revert Hc. rewrite !parse_values_merge, !bool_decide_eq_false_2 by done.
    intros [= <-]. f_equal. cbn [fmap list_fmap foldr]. by rewrite field_control_comma, (assoc_L merge).
Qed.

Definition demo_fields : list string :=
  ["Public, Max-Age=600, x=" +:+ String quote ("a,no-store" +:+ String quote ", max-age=45"); "s-maxage=oops, no-transform"].

Lemma parse_conservative_witness :
  parse_values demo_fields =
    Some {| no_store := false; no_cache := false; private := false; must_revalidate := false;
            proxy_revalidate := false; no_transform := true; immutable := false;
            max_age := Some 45; s_maxage := Some 0; stale_while_revalidate := None |} /\
  exists c', parse_values (demo_fields ++ ["no-store"]) = Some c' /\ max_age c' = Some 45.
Proof.
  split; [vm_compute; reflexivity|].
  destruct (parse_conservative demo_fields _ ltac:(vm_compute; reflexivity)) as (_ & H & _).
  destruct (H (demo_fields ++ ["no-store"])) as (c' & Hc' & _).
  { intros v Hv. apply elem_of_app. by left. }
  exists c'. split; [exact Hc'|]. vm_compute in Hc'. injection Hc' as <-. reflexivity.
Defined.
