(* ===== verification/ProviderPolicy.v ===== *)
(** * Cache policy of provider resources

    Models [servers/ishikari/src/server/provider_cache_policy.rs] and the default
    policies of [server/cache.rs]: what the shared cache of Ishikari may keep of a
    style, glyph or sprite fetched from its origin, for how long, and which
    Cache-Control it sends downstream. Durations are nanoseconds; resources are
    named by their string. *)

From S2P Require Import Prelude StdModel Types TilesetSources Text Config CacheControl.

Definition STYLE_POSITIVE_TTL : Z := from_secs 300.
Definition GLYPH_SPRITE_POSITIVE_TTL : Z := from_secs 86400.
Definition PROVIDER_NEGATIVE_TTL : Z := from_secs 30.
Definition MAX_PROVIDER_TTL : Z := from_secs (7 * 86400).

(** [server/cache.rs]. *)
Definition cache_STYLE : string := "public, max-age=300, s-maxage=3600, stale-while-revalidate=86400".
Definition cache_GLYPH_SPRITE : string := "public, max-age=86400, s-maxage=604800, stale-while-revalidate=604800".

Record ProviderCachePolicy := {
  cp_store : bool; cp_fresh : Z; cp_swr : Z; cp_response_cache_control : string }.
Record NegativeCachePolicy := { np_store : bool; np_fresh : Z }.

Definition default_response_cache_control (resource : string) : string :=
  if String.eqb resource "style" then cache_STYLE
  else if String.eqb resource "glyph" || String.eqb resource "sprite" then cache_GLYPH_SPRITE
  else "no-cache".
Definition positive_ttl (resource : string) : Z :=
  if String.eqb resource "glyph" || String.eqb resource "sprite" then GLYPH_SPRITE_POSITIVE_TTL
  else STYLE_POSITIVE_TTL.

Definition CachePolicy_defaulted (resource : string) : ProviderCachePolicy :=
  {| cp_store := true; cp_fresh := positive_ttl resource; cp_swr := 0;
     cp_response_cache_control := default_response_cache_control resource |}.

Definition normalized_cache_control (resource : string) (control : ParsedCacheControl) : string :=
  if no_store control then "no-store" else
  if no_cache control then "no-cache" else
  let clamp seconds := Z.min seconds (as_secs MAX_PROVIDER_TTL) in
  if private control then
    let max_age := default 0 (clamp <$> max_age control) in
    "private, max-age=" +:+ decimal max_age
  else
  let default_fresh := as_secs (positive_ttl resource) in
  let max_age' := match clamp <$> max_age control with
                  | Some max_age => max_age
                  | None => if bool_decide (s_maxage control <> None) then 0 else default_fresh
                  end in
  let s_maxage' := default default_fresh (or_else (clamp <$> s_maxage control) (clamp <$> max_age control)) in
  let directives := ["public"; "max-age=" +:+ decimal max_age'; "s-maxage=" +:+ decimal s_maxage'] in
  let directives := if negb (must_revalidate control || proxy_revalidate control) then
      match clamp <$> stale_while_revalidate control with
      | Some swr => if swr >? 0 then directives ++ ["stale-while-revalidate=" +:+ decimal swr] else directives
      | None => directives
      end else directives in
  let directives := if must_revalidate control then directives ++ ["must-revalidate"]
                    else if proxy_revalidate control then directives ++ ["proxy-revalidate"] else directives in
  let directives := if no_transform control then directives ++ ["no-transform"] else directives in
  let directives := if immutable control then directives ++ ["immutable"] else directives in
  String.concat ", " directives.

Definition has_explicit_freshness (control : option ParsedCacheControl) : bool :=
  match control with
  | Some control => bool_decide (max_age control <> None) || bool_decide (s_maxage control <> None)
  | None => false
  end.

Definition cache_policy_with_freshness_values (resource : string) (upstream : list string)
    : ProviderCachePolicy * bool :=
  let control := parse_values upstream in
  let has_explicit_freshness := has_explicit_freshness control in
  match control with
  | None => (CachePolicy_defaulted resource, false)
  | Some control =>
      let response_cache_control := normalized_cache_control resource control in
      if no_store control || no_cache control || private control then
        ({| cp_store := false; cp_fresh := 0; cp_swr := 0;
            cp_response_cache_control := response_cache_control |}, has_explicit_freshness)
      else
        let clamp secs := Z.min (from_secs secs) MAX_PROVIDER_TTL in
        let fresh := match or_else (s_maxage control) (max_age control) with
                     | Some secs => clamp secs
                     | None => positive_ttl resource
                     end in
        let swr := if must_revalidate control || proxy_revalidate control then 0
                   else default 0 (clamp <$> stale_while_revalidate control) in
        ({| cp_store := true; cp_fresh := fresh; cp_swr := swr;
            cp_response_cache_control := response_cache_control |}, has_explicit_freshness)
  end.
Definition cache_policy_values (resource : string) (upstream : list string) : ProviderCachePolicy :=
  (cache_policy_with_freshness_values resource upstream).1.
Definition cache_policy (resource : string) (upstream : option string) : ProviderCachePolicy :=
  cache_policy_values resource (option_list upstream).

Definition negative_cache_policy_with_freshness_values (upstream : list string) : NegativeCachePolicy * bool :=
  let control := parse_values upstream in
  let has_explicit_freshness := has_explicit_freshness control in
  match control with
  | None => ({| np_store := true; np_fresh := PROVIDER_NEGATIVE_TTL |}, false)
  | Some control =>
      if no_store control || no_cache control || private control then
        ({| np_store := false; np_fresh := 0 |}, has_explicit_freshness)
      else
        let fresh := Z.min (default PROVIDER_NEGATIVE_TTL (from_secs <$> or_else (s_maxage control) (max_age control)))
                       PROVIDER_NEGATIVE_TTL in
        ({| np_store := true; np_fresh := fresh |}, has_explicit_freshness)
  end.
Definition negative_cache_policy_values (upstream : list string) : NegativeCachePolicy :=
  (negative_cache_policy_with_freshness_values upstream).1.

(** ** Printed directives parse back *)

(** A token a policy prints: no separator, no quote and no whitespace. *)
Definition clean (a : ascii) : bool := plain a && negb (Ascii.eqb a comma) && negb (Ascii.eqb a quote).
Definition is_token (t : string) : Prop := str_all clean t = true /\ t <> "".

Lemma token_plain t : is_token t -> is_plain t.
Proof.
  intros [Ht _]. unfold is_plain. induction t as [|a t IH]; [done|]. cbn in *. apply andb_prop in Ht as [Ha Ht].
  unfold clean in Ha. bool_props. rewrite IH by done. by match goal with H : plain a = true |- _ => rewrite H end.
Qed.

Lemma clean_not_quoted s : str_all clean s = true -> ends_quoted false false s = false.
Proof.
  induction s as [|a s IH]; [done|]. cbn. intros [Ha Hs]%andb_prop. unfold clean in Ha. bool_props.
  rewrite andb_false_r. by match goal with H : Ascii.eqb a quote = false |- _ => rewrite H; apply IH end.
Qed.
Lemma token_balanced t : is_token t -> balanced t = true /\ balanced (String " " t) = true.
Proof. intros [Ht _]. unfold balanced. cbn. by rewrite clean_not_quoted. Qed.

Lemma split_token_clean t : str_all clean t = true -> split_token false false t = (t, "").
Proof.
  induction t as [|a t IH]; [done|]. cbn. intros [Ha Ht]%andb_prop. unfold clean in Ha. bool_props.
  rewrite andb_false_r, andb_true_r.
  repeat match goal with H : Ascii.eqb a _ = false |- _ => rewrite H end. by rewrite IH.
Qed.

Lemma directives_token t : is_token t ->
  directives t = [token_directive t] /\ directives (String " " t) = [token_directive t].
Proof.
  intros Ht. pose proof (token_plain t Ht) as Hp. destruct Ht as [Hc Hne].
  rewrite !directives_unfold. cbn [split_token]. rewrite split_token_clean by done.
  change (Ascii.eqb " " backslash && false)%bool with false.
  change (Ascii.eqb " " quote) with false. change (Ascii.eqb " " comma && negb false)%bool with false.
  cbv beta iota zeta. rewrite trim_plain, trim_space_plain by done.
  rewrite (directives_unfold ""). by destruct (String.eqb_spec t "").
Qed.

Lemma concat_cons sep (t u : string) ts :
  String.concat sep (t :: u :: ts) = t +:+ (sep +:+ String.concat sep (u :: ts)).
Proof. done. Qed.

(** The directives of a printed list are its tokens. *)
Lemma directives_concat ts :
  Forall is_token ts -> directives (String.concat ", " ts) = token_directive <$> ts.
Proof.
  intros Hts. destruct Hts as [|t ts Ht Hts]; [done|].
  assert (Hgo : forall ts t, is_token t -> Forall is_token ts ->
            directives (String.concat ", " (t :: ts)) = token_directive <$> (t :: ts) /\
            directives (String " " (String.concat ", " (t :: ts))) = token_directive <$> (t :: ts)).
  { clear. induction ts as [|u ts IH]; intros t Ht Hts.
    - by apply directives_token.
    - apply Forall_cons in Hts as [Hu Hts]. destruct (IH u Hu Hts) as [_ IHs].
      destruct (token_balanced t Ht) as [Hb Hbs]. rewrite concat_cons.
      change (", " +:+ String.concat ", " (u :: ts)) with (String comma (String " " (String.concat ", " (u :: ts)))).
      rewrite <- (app_String " " t), !directives_comma by done. rewrite IHs.
      by destruct (directives_token t Ht) as [-> ->]. }
  by apply Hgo.
Qed.

Lemma clean_app s t : str_all clean (s +:+ t) = str_all clean s && str_all clean t.
Proof. apply str_all_app. Qed.

Lemma decimal_clean n : is_u64 n -> str_all clean (decimal n) = true /\ decimal n <> "".
Proof.
  intros Hn. split.
  - pose proof (decimal_plain n Hn) as Hp. unfold is_plain in Hp.
    pose proof (decimal_no_char n comma Hn ltac:(done)) as Hc.
    pose proof (decimal_no_char n quote Hn ltac:(done)) as Hq.
    induction (decimal n) as [|a s IH]; [done|]. cbn in *. apply andb_prop in Hp as [Ha Hp].
    unfold clean at 1. rewrite Ha, IH by tauto. destruct (Ascii.eqb_spec a comma), (Ascii.eqb_spec a quote); tauto.
  - pose proof (parse_decimal u64_max n Hn ltac:(done)) as Hp. by destruct (decimal n).
Qed.

(** A printed window is a token that reads as its name and number. *)
Lemma window_token name n :
  str_all clean name = true -> name <> "" -> is_u64 n -> is_token (name +:+ decimal n).
Proof.
  intros Hname Hne Hn. destruct (decimal_clean n Hn) as [Hc _]. split.
  - by rewrite clean_app, Hname, Hc.
  - by destruct name.
Qed.

Lemma token_window name n :
  is_plain name -> split_once equals name = None -> is_u64 n ->
  token_directive (name +:+ String equals (decimal n)) = {| d_name := name; d_value := Some (decimal n) |}.
Proof.
  intros Hp Heq Hn. unfold token_directive. rewrite split_once_app.
  - rewrite !trim_plain by (done || by apply decimal_plain). do 2 f_equal.
    pose proof (decimal_no_char n quote Hn ltac:(done)) as Hq. destruct (decimal n) as [|a s]; [done|]. cbn in *.
    destruct (Ascii.eqb_spec a quote); [tauto|done].
  - clear -Heq. induction name as [|a name IH]; cbn [split_once str_In] in *; [tauto|]. destruct (decide (a = equals)); [done|].
    destruct (split_once equals name); [done|]. intros [?|?]; [done|by apply IH].
Qed.

Lemma parse_concat ts :
  Forall is_token ts ->
  parse_values [String.concat ", " ts] =
  Some (foldr merge ParsedCacheControl_default ((fun t => contribution (token_directive t)) <$> ts)).
Proof.
  intros Hts. rewrite parse_values_merge, bool_decide_eq_false_2 by done. cbn [fmap list_fmap foldr].
  rewrite merge_default_r. unfold field_control. rewrite directives_concat by done.
  by rewrite <- list_fmap_compose.
Qed.

Lemma max_age_token n : is_u64 n ->
  is_token ("max-age=" +:+ decimal n) /\
  contribution (token_directive ("max-age=" +:+ decimal n)) = set_max_age (Some n) ParsedCacheControl_default.
Proof.
  intros Hn. split; [by apply window_token|].
  change ("max-age=" +:+ decimal n) with ("max-age" +:+ String equals (decimal n)).
  rewrite token_window by done. transitivity (set_max_age (Some (default 0 (parse_delta_seconds (decimal n)))) ParsedCacheControl_default);
    [done|by rewrite parse_delta_decimal].
Qed.
Lemma s_maxage_token n : is_u64 n ->
  is_token ("s-maxage=" +:+ decimal n) /\
  contribution (token_directive ("s-maxage=" +:+ decimal n)) = set_s_maxage (Some n) ParsedCacheControl_default.
Proof.
  intros Hn. split; [by apply window_token|].
  change ("s-maxage=" +:+ decimal n) with ("s-maxage" +:+ String equals (decimal n)).
  rewrite token_window by done. transitivity (set_s_maxage (Some (default 0 (parse_delta_seconds (decimal n)))) ParsedCacheControl_default);
    [done|by rewrite parse_delta_decimal].
Qed.
Lemma swr_token n : is_u64 n ->
  is_token ("stale-while-revalidate=" +:+ decimal n) /\
  contribution (token_directive ("stale-while-revalidate=" +:+ decimal n)) =
    set_stale_while_revalidate (Some n) ParsedCacheControl_default.
Proof.
  intros Hn. split; [by apply window_token|].
  change ("stale-while-revalidate=" +:+ decimal n) with ("stale-while-revalidate" +:+ String equals (decimal n)).
  rewrite token_window by done. transitivity (set_stale_while_revalidate (Some (default 0 (parse_delta_seconds (decimal n)))) ParsedCacheControl_default);
    [done|by rewrite parse_delta_decimal].
Qed.

(** ** The normal form of a control *)

Definition clamp_secs (n : Z) : Z := Z.min n (as_secs MAX_PROVIDER_TTL).
Definition shown_max_age (resource : string) (c : ParsedCacheControl) : Z :=
  match clamp_secs <$> max_age c with
  | Some n => n
  | None => if bool_decide (s_maxage c <> None) then 0 else as_secs (positive_ttl resource)
  end.
Definition shown_s_maxage (resource : string) (c : ParsedCacheControl) : Z :=
  default (as_secs (positive_ttl resource)) (or_else (clamp_secs <$> s_maxage c) (clamp_secs <$> max_age c)).
Definition shown_swr (c : ParsedCacheControl) : option Z :=
  if must_revalidate c || proxy_revalidate c then None
  else match clamp_secs <$> stale_while_revalidate c with
       | Some n => if n >? 0 then Some n else None
       | None => None
       end.

(** What a reader of the printed policy parses. *)
Definition reparsed (resource : string) (c : ParsedCacheControl) : ParsedCacheControl :=
  if no_store c then set_no_store ParsedCacheControl_default
  else if no_cache c then set_no_cache ParsedCacheControl_default
  else if private c then
    set_private (set_max_age (Some (default 0 (clamp_secs <$> max_age c))) ParsedCacheControl_default)
  else
    {| no_store := false; no_cache := false; private := false;
       must_revalidate := must_revalidate c; proxy_revalidate := negb (must_revalidate c) && proxy_revalidate c;
       no_transform := no_transform c; immutable := immutable c;
       max_age := Some (shown_max_age resource c); s_maxage := Some (shown_s_maxage resource c);
       stale_while_revalidate := shown_swr c |}.

Lemma positive_ttl_secs resource : is_u64 (as_secs (positive_ttl resource)) /\
  as_secs (positive_ttl resource) <= as_secs MAX_PROVIDER_TTL /\
  from_secs (as_secs (positive_ttl resource)) = positive_ttl resource.
Proof. unfold positive_ttl. case_match; vm_compute; intuition discriminate. Qed.

Lemma clamp_u64 n : is_u64 n -> is_u64 (clamp_secs n) /\ clamp_secs n <= as_secs MAX_PROVIDER_TTL.
Proof. unfold is_u, clamp_secs. change (as_secs MAX_PROVIDER_TTL) with 604800. lia. Qed.

Lemma shown_range resource c : control_u64 c ->
  (is_u64 (shown_max_age resource c) /\ shown_max_age resource c <= as_secs MAX_PROVIDER_TTL) /\
  (is_u64 (shown_s_maxage resource c) /\ shown_s_maxage resource c <= as_secs MAX_PROVIDER_TTL) /\
  forall n, shown_swr c = Some n -> is_u64 n /\ 0 < n <= as_secs MAX_PROVIDER_TTL.
Proof.
  intros [Hm Hs Hw]. destruct (positive_ttl_secs resource) as (Hp & Hle & _).
  unfold shown_max_age, shown_s_maxage, shown_swr. split; [|split].
  - destruct (max_age c); cbn; [by apply clamp_u64, Hm|]. case_bool_decide; [|done].
    change (as_secs MAX_PROVIDER_TTL) with 604800. unfold is_u, u64_max. lia.
  - destruct (s_maxage c); cbn; [by apply clamp_u64, Hs|]. destruct (max_age c); cbn; [by apply clamp_u64, Hm|done].
  - intros n. case_match; [done|]. destruct (stale_while_revalidate c) as [w|]; cbn; [|done].
    destruct (Z.gtb_spec (clamp_secs w) 0); [|done]. intros [= <-]. destruct (clamp_u64 w (Hw w eq_refl)). split; [done|lia].
Qed.

Definition shown_tokens (resource : string) (c : ParsedCacheControl) : list string :=
  ["public"; "max-age=" +:+ decimal (shown_max_age resource c); "s-maxage=" +:+ decimal (shown_s_maxage resource c)] ++
  option_list ((fun n => "stale-while-revalidate=" +:+ decimal n) <$> shown_swr c) ++
  (if must_revalidate c then ["must-revalidate"] else if proxy_revalidate c then ["proxy-revalidate"] else []) ++
  (if no_transform c then ["no-transform"] else []) ++
  (if immutable c then ["immutable"] else []).

(** The printed form, as one list of tokens. *)
Lemma normalized_tokens resource c :
  no_store c = false -> no_cache c = false -> private c = false ->
  normalized_cache_control resource c = String.concat ", " (shown_tokens resource c).
Proof.
  intros Hs Hc Hp. unfold normalized_cache_control. rewrite Hs, Hc, Hp. cbv zeta. f_equal.
  unfold shown_tokens, shown_swr. fold clamp_secs.
  change (fun seconds => Z.min seconds (as_secs MAX_PROVIDER_TTL)) with clamp_secs.
  unfold shown_max_age, shown_s_maxage.
  destruct (clamp_secs <$> stale_while_revalidate c) as [n|] eqn:Hn;
    destruct (must_revalidate c), (proxy_revalidate c), (no_transform c), (immutable c); cbn [negb orb];
    try (destruct (n >? 0)); done.
Qed.

Lemma shown_tokens_clean resource c : control_u64 c -> Forall is_token (shown_tokens resource c).
Proof.
  intros Hu. destruct (shown_range resource c Hu) as ([Hm _] & [Hs _] & Hw). unfold shown_tokens.
  repeat apply Forall_app_2; repeat apply Forall_cons_2; try done.
  - by apply max_age_token.
  - by apply s_maxage_token.
  - destruct (shown_swr c) as [n|]; cbn; [|done]. apply Forall_singleton, swr_token. by apply Hw.
  - destruct (must_revalidate c), (proxy_revalidate c); try apply Forall_nil_2; by apply Forall_singleton.
  - destruct (no_transform c); try apply Forall_nil_2; by apply Forall_singleton.
  - destruct (immutable c); try apply Forall_nil_2; by apply Forall_singleton.
Qed.

Lemma literal_contributions :
  contribution (token_directive "public") = ParsedCacheControl_default /\
  contribution (token_directive "must-revalidate") = set_must_revalidate ParsedCacheControl_default /\
  contribution (token_directive "proxy-revalidate") = set_proxy_revalidate ParsedCacheControl_default /\
  contribution (token_directive "no-transform") = set_no_transform ParsedCacheControl_default /\
  contribution (token_directive "immutable") = set_immutable ParsedCacheControl_default.
Proof. vm_compute. done. Qed.

(** Reading the emitted Cache-Control. *)
Lemma parse_normalized resource c :
  control_u64 c -> parse_values [normalized_cache_control resource c] = Some (reparsed resource c).
Proof.
  intros Hu. destruct (no_store c) eqn:Hs; [|destruct (no_cache c) eqn:Hc; [|destruct (private c) eqn:Hp]].
  - unfold normalized_cache_control, reparsed. by rewrite Hs.
  - unfold normalized_cache_control, reparsed. by rewrite Hs, Hc.
  - unfold normalized_cache_control, reparsed. rewrite Hs, Hc, Hp.
    change (fun seconds => Z.min seconds (as_secs MAX_PROVIDER_TTL)) with clamp_secs. cbv zeta.
    set (n := default 0 (clamp_secs <$> max_age c)). assert (Hn : is_u64 n).
    { subst n. destruct (max_age c) eqn:Hm; cbn; [by apply clamp_u64, (cu_max_age c Hu)|]. unfold is_u, u64_max. lia. }
    change ("private, max-age=" +:+ decimal n) with (String.concat ", " ["private"; "max-age=" +:+ decimal n]).
    destruct (max_age_token n Hn) as [Ht Hct]. rewrite parse_concat by (repeat apply Forall_cons_2; done).
    cbn [fmap list_fmap foldr]. by rewrite Hct.
  - rewrite normalized_tokens by done. rewrite parse_concat by (by apply shown_tokens_clean).
    destruct (shown_range resource c Hu) as ([Hm _] & [Hsm _] & Hw).
    destruct literal_contributions as (Epub & Emust & Eproxy & Etrans & Eimm).
    unfold shown_tokens, reparsed. rewrite Hs, Hc, Hp. f_equal.
    destruct (shown_swr c) as [n|] eqn:Hn;
      destruct (must_revalidate c), (proxy_revalidate c), (no_transform c), (immutable c);
      unfold option_list; cbn [option_rect fmap option_fmap option_map list_fmap foldr app negb andb];
      rewrite Epub, (proj2 (max_age_token _ Hm)), (proj2 (s_maxage_token _ Hsm)), ?Emust, ?Eproxy, ?Etrans, ?Eimm;
      rewrite ?(proj2 (swr_token n (proj1 (Hw n eq_refl)))); done.
Qed.

(** ** Policies *)

(** The policy a present control yields. *)
Definition policy_of (resource : string) (c : ParsedCacheControl) : ProviderCachePolicy :=
  if no_store c || no_cache c || private c then
    {| cp_store := false; cp_fresh := 0; cp_swr := 0; cp_response_cache_control := normalized_cache_control resource c |}
  else
    {| cp_store := true;
       cp_fresh := default (positive_ttl resource)
                     ((fun n => Z.min (from_secs n) MAX_PROVIDER_TTL) <$> or_else (s_maxage c) (max_age c));
       cp_swr := if must_revalidate c || proxy_revalidate c then 0
                 else default 0 ((fun n => Z.min (from_secs n) MAX_PROVIDER_TTL) <$> stale_while_revalidate c);
       cp_response_cache_control := normalized_cache_control resource c |}.

Lemma cache_policy_values_eq resource values :
  cache_policy_values resource values =
  match parse_values values with Some c => policy_of resource c | None => CachePolicy_defaulted resource end.
Proof.
  unfold cache_policy_values, cache_policy_with_freshness_values, policy_of.
  destruct (parse_values values) as [c|]; [|done]. destruct (_ || _); [done|].
  by destruct (or_else _ _).
Qed.

Lemma clamp_from_secs n : Z.min (from_secs (clamp_secs n)) MAX_PROVIDER_TTL = Z.min (from_secs n) MAX_PROVIDER_TTL.
Proof.
  unfold clamp_secs, from_secs, MAX_PROVIDER_TTL, as_secs, from_secs, nanos_per_sec.
  change (7 * 86400 * 1000000000 / 1000000000) with 604800. lia.
Qed.
Lemma clamp_idemp n : clamp_secs (clamp_secs n) = clamp_secs n.
Proof. unfold clamp_secs. lia. Qed.
Lemma clamp_le n : n <= as_secs MAX_PROVIDER_TTL -> clamp_secs n = n.
Proof. unfold clamp_secs. lia. Qed.

Lemma shown_reparsed resource c :
  control_u64 c -> no_store c = false -> no_cache c = false -> private c = false ->
  shown_max_age resource (reparsed resource c) = shown_max_age resource c /\
  shown_s_maxage resource (reparsed resource c) = shown_s_maxage resource c /\
  shown_swr (reparsed resource c) = shown_swr c.
Proof.
  intros Hu Hs Hc Hp. destruct (shown_range resource c Hu) as ([_ Hm] & [_ Hsm] & Hw).
  unfold reparsed. rewrite Hs, Hc, Hp.
  unfold shown_max_age at 1, shown_s_maxage at 1, shown_swr at 1. cbn.
  split_and!; [by rewrite clamp_le|by rewrite clamp_le|].
  unfold shown_swr in *. destruct (must_revalidate c), (proxy_revalidate c); cbn; try done.
  destruct (clamp_secs <$> stale_while_revalidate c) as [n|]; cbn; [|done].
  destruct (n >? 0) eqn:Hn; cbn; [|done]. destruct (Hw n eq_refl) as [_ Hle].
  rewrite clamp_le by lia. by rewrite Hn.
Qed.

Lemma normalized_reparsed resource c :
  control_u64 c -> normalized_cache_control resource (reparsed resource c) = normalized_cache_control resource c.
Proof.
  intros Hu. destruct (no_store c) eqn:Hs; [|destruct (no_cache c) eqn:Hc; [|destruct (private c) eqn:Hp]].
  - unfold reparsed. rewrite Hs. unfold normalized_cache_control. by rewrite Hs.
  - unfold reparsed. rewrite Hs, Hc. unfold normalized_cache_control. by rewrite Hs, Hc.
  - unfold reparsed. rewrite Hs, Hc, Hp. unfold normalized_cache_control. rewrite Hs, Hc, Hp.
    change (fun seconds => Z.min seconds (as_secs MAX_PROVIDER_TTL)) with clamp_secs. cbn [no_store no_cache private
      set_private set_max_age ParsedCacheControl_default max_age]. do 2 f_equal.
    destruct (max_age c); cbn; [by rewrite clamp_idemp|done].
  - destruct (shown_reparsed resource c Hu Hs Hc Hp) as (Em & Esm & Ew).
    rewrite (normalized_tokens resource c) by done.
    assert (Hr : no_store (reparsed resource c) = false /\ no_cache (reparsed resource c) = false /\
                 private (reparsed resource c) = false) by (unfold reparsed; by rewrite Hs, Hc, Hp).
    destruct Hr as (Hrs & Hrc & Hrp). rewrite normalized_tokens by done.
    unfold shown_tokens. rewrite Em, Esm, Ew. unfold reparsed. rewrite Hs, Hc, Hp. cbn.
    by destruct (must_revalidate c), (proxy_revalidate c).
Qed.

Lemma policy_reparsed resource c : control_u64 c -> policy_of resource (reparsed resource c) = policy_of resource c.
Proof.
  intros Hu. unfold policy_of at 1. rewrite normalized_reparsed by done.
  destruct (no_store c) eqn:Hs; [|destruct (no_cache c) eqn:Hc; [|destruct (private c) eqn:Hp]];
    unfold policy_of, reparsed; rewrite ?Hs, ?Hc, ?Hp; try done. cbn. f_equal.
  - unfold shown_s_maxage. destruct (s_maxage c); cbn; [by rewrite clamp_from_secs|].
    destruct (max_age c); cbn; [by rewrite clamp_from_secs|].
    destruct (positive_ttl_secs resource) as (_ & _ & ->).
    unfold positive_ttl. by case_match.
  - unfold shown_swr. destruct (must_revalidate c), (proxy_revalidate c); cbn; try done.
    destruct (stale_while_revalidate c) as [w|] eqn:Hw; cbn; [|done].
    destruct (Z.gtb_spec (clamp_secs w) 0); cbn; [by rewrite clamp_from_secs|].
    apply (cu_swr c Hu) in Hw. rewrite <- clamp_from_secs.
    replace (clamp_secs w) with 0; [done|]. destruct (clamp_u64 w Hw) as [[? ?] ?]. lia.
Qed.

Lemma policy_bounds resource values :
  0 <= cp_fresh (cache_policy_values resource values) <= MAX_PROVIDER_TTL /\
  0 <= cp_swr (cache_policy_values resource values) <= MAX_PROVIDER_TTL.
Proof.
  rewrite cache_policy_values_eq. assert (Hp : 0 <= positive_ttl resource <= MAX_PROVIDER_TTL).
  { unfold positive_ttl. case_match; vm_compute; intuition discriminate. }
  assert (Hc : forall n, is_u64 n -> 0 <= Z.min (from_secs n) MAX_PROVIDER_TTL <= MAX_PROVIDER_TTL).
  { intros n [Hn _]. unfold from_secs, MAX_PROVIDER_TTL, nanos_per_sec. unfold from_secs, nanos_per_sec. lia. }
  destruct (parse_values values) as [c|] eqn:Hv; [|cbn; lia].
  destruct (parse_values_u64 _ _ Hv) as [Hm Hs Hw]. unfold policy_of. destruct (_ || _); cbn; [lia|]. split.
  - destruct (s_maxage c); cbn; [by apply Hc, Hs|]. destruct (max_age c); cbn; [by apply Hc, Hm|done].
  - destruct (_ || _); [lia|]. destruct (stale_while_revalidate c); cbn; [by apply Hc, Hw|lia].
Qed.

Lemma negative_policy_bounds values :
  0 <= np_fresh (negative_cache_policy_values values) <= PROVIDER_NEGATIVE_TTL.
Proof.
  unfold negative_cache_policy_values, negative_cache_policy_with_freshness_values.
  change PROVIDER_NEGATIVE_TTL with 30000000000.
  destruct (parse_values values) as [c|] eqn:Hv; cbn; [|lia].
  destruct (parse_values_u64 _ _ Hv) as [Hm Hs _]. destruct (_ || _); cbn; [lia|]. unfold from_secs, nanos_per_sec.
  destruct (s_maxage c) as [n|]; cbn; [destruct (Hs n eq_refl); lia|].
  destruct (max_age c) as [n|]; cbn; [destruct (Hm n eq_refl); lia|lia].
Qed.

(** The emitted policy is read back as the policy it was made from. *)
Lemma policy_fixpoint resource values :
  values <> [] ->
  cache_policy resource (Some (cp_response_cache_control (cache_policy_values resource values))) =
  cache_policy_values resource values.
Proof.
  intros Hne. destruct (parse_values_present values Hne) as [c Hc]. pose proof (parse_values_u64 _ _ Hc) as Hu.
  rewrite (cache_policy_values_eq resource values), Hc.
  unfold cache_policy. cbn [option_list option_rect]. rewrite cache_policy_values_eq.
  replace (cp_response_cache_control (policy_of resource c)) with (normalized_cache_control resource c)
    by (unfold policy_of; by case_match).
  rewrite parse_normalized by done. by apply policy_reparsed.
Qed.

(** The emitted policy is a normal form: whatever the origin sent, the
    Cache-Control that Ishikari emits is read back as exactly the policy it was
    made from, so a revalidation that answers without a Cache-Control of its own
    keeps the retention of the entry; both windows stay within seven days and a
    negative answer is kept for at most thirty seconds. *)
Theorem cache_policy_normal_form resource values :
  values <> [] ->
  let p := cache_policy_values resource values in
  cache_policy resource (Some (cp_response_cache_control p)) = p /\
  0 <= cp_fresh p <= MAX_PROVIDER_TTL /\ 0 <= cp_swr p <= MAX_PROVIDER_TTL /\
  (cp_store p = false -> cp_fresh p = 0 /\ cp_swr p = 0) /\
  np_store (negative_cache_policy_values values) = cp_store p /\
  0 <= np_fresh (negative_cache_policy_values values) <= PROVIDER_NEGATIVE_TTL.
Proof.
  intros Hne p. destruct (policy_bounds resource values) as [Hf Hw].
  destruct (parse_values_present values Hne) as [c Hc].
  assert (Hp : p = policy_of resource c) by (subst p; by rewrite cache_policy_values_eq, Hc).
  split; [|split; [exact Hf|split; [exact Hw|split; [|split; [|apply negative_policy_bounds]]]]].
  - by apply policy_fixpoint.
  - rewrite Hp. unfold policy_of. destruct (_ || _); done.
  - rewrite Hp. unfold negative_cache_policy_values, negative_cache_policy_with_freshness_values, policy_of.
    rewrite Hc. by destruct (_ || _).
Qed.

Lemma cache_policy_normal_form_witness :
  let p := cache_policy_values "style" ["max-age=60, s-maxage=99999999999999999999"; "Stale-While-Revalidate=120"] in
  cp_response_cache_control p = "public, max-age=60, s-maxage=604800, stale-while-revalidate=120" /\
  cache_policy "style" (Some (cp_response_cache_control p)) = p.
Proof.
  intros p. split; [vm_compute; reflexivity|].
  apply (cache_policy_normal_form "style" ["max-age=60, s-maxage=99999999999999999999"; "Stale-While-Revalidate=120"]).
  discriminate.
Defined.
