(* ===== verification/ProviderFetch.v ===== *)
(** * Provider resources and their origins

    Models the origin side of Ishikari's provider proxy:
    [servers/ishikari/src/server/upstream/fetch.rs] (HTTP and object-store
    fetches, age correction, revalidation), [server/conditional.rs] (validators and
    conditional requests), [server/provider_body.rs] (content types, decoding,
    validation), [crates/mmpf-http/src/content_type.rs], and the responses that
    [server/upstream.rs] and [server/provider.rs] build from a resource.

    Libraries are the class [ProviderExternals]: HTTP dates (httpdate), gzip
    (flate2), JSON (serde_json), URLs (url), the hash of derived documents
    (twox-hash). An origin is an [OriginWorld]: what a request with the given
    conditional headers receives. Times are nanoseconds since the epoch. *)

From S2P Require Import Prelude StdModel Types TilesetSources ChunkStore HttpMessage Text Config.
From S2P Require Import CacheControl ProviderPolicy PeerRouting PeerBackend.

(** [HeaderValue::from_str] and [from_bytes]: no control characters but the tab. *)
Definition header_valid (value : string) : bool :=
  str_all (fun a => (32 <=? byte_of a) && negb (byte_of a =? 127) || (byte_of a =? 9)) value.

Definition joined_header_values (headers : list (string * string)) (name : string) : option string :=
  let values := header_texts name headers in
  if bool_decide (values = []) then None else Some (String.concat ", " values).

Class ProviderExternals := {
  Url : Type;
  url_parse : string -> option Url;
  url_scheme : Url -> string;
  parse_http_date : string -> option Z;
  fmt_http_date : Z -> string;
  (** [read_to_end] of the decoder limited to this many bytes. *)
  gz_read : bytes -> Z -> string + bytes;
  (** [serde_json::from_slice::<IgnoredAny>]: the error, if any. *)
  json_error : bytes -> option string;
  derived_hash : bytes -> Z;
  status_text : Z -> string }.

(** The instants [httpdate] formats: the years 1970 to 9999. *)
Definition http_date_range (t : Z) : Prop := 0 <= t < from_secs 253402300800.

(** Formatted dates are visible text and read back as their second. *)
Class ProviderExternalsLaws `{ProviderExternals} : Prop := {
  law_date : forall t, http_date_range t -> parse_http_date (fmt_http_date t) = Some (from_secs (as_secs t));
  law_date_text : forall t, http_date_range t -> header_to_str (fmt_http_date t) = Some (fmt_http_date t) }.

(** ** Validators *)

Record Validators := { v_etag : option string; v_last_modified : option Z }.

Definition derived_etag (etag : string) : Validators := {| v_etag := Some etag; v_last_modified := None |}.

(** The list of entity tags, split at the commas outside quotes. *)
Fixpoint split_entity_tags (quoted : bool) (s : string) : list string :=
  match s with
  | EmptyString => [""]
  | String a s =>
      if Ascii.eqb a comma && negb quoted then "" :: split_entity_tags quoted s
      else match split_entity_tags (if Ascii.eqb a quote then negb quoted else quoted) s with
           | [] => [String a ""]
           | t :: ts => String a t :: ts
           end
  end.
Definition split_entity_tag_list (value : string) : list string := trim <$> split_entity_tags false value.
Definition strip_weak (etag : string) : string := default etag (strip_prefix "W/" etag).
Definition if_none_match_matches (if_none_match : string) (etag : option string) : bool :=
  existsb (fun candidate =>
      String.eqb candidate "*" ||
      match etag with Some etag => String.eqb (strip_weak candidate) (strip_weak etag) | None => false end)
    (split_entity_tag_list if_none_match).

(** Instants before the epoch are kept. *)
Definition truncate_to_seconds (time : Z) : Z := if 0 <=? time then from_secs (as_secs time) else time.

Section Provider.
Context `{ProviderExternals}.

Definition hex16 (n : Z) : string :=
  foldr (fun i acc => String (default "0"%char (String.get (Z.to_nat (n / 16 ^ Z.of_nat (15 - i) mod 16))
                                                   "0123456789abcdef")) acc) "" (seq 0 16).
Definition for_derived_body (body : bytes) : Validators :=
  derived_etag (String quote (hex16 (derived_hash body) +:+ String quote "")).

Definition last_modified_http_date (self : Validators) : option string := fmt_http_date <$> v_last_modified self.

Definition insert_text (name : string) (value : option string) (headers : list (string * string))
    : list (string * string) :=
  match value with
  | Some value => if header_valid value then header_insert name value headers else headers
  | None => headers
  end.
Definition Validators_apply (self : Validators) (headers : list (string * string)) : list (string * string) :=
  insert_text LAST_MODIFIED_HEADER (last_modified_http_date self) (insert_text ETAG_HEADER (v_etag self) headers).

Definition Validators_not_modified (self : Validators) (request : list (string * string)) : bool :=
  if negb (bool_decide (header_get_all IF_NONE_MATCH_HEADER request = [])) then
    existsb (fun value => if_none_match_matches value (v_etag self)) (header_texts IF_NONE_MATCH_HEADER request)
  else match header_get IF_MODIFIED_SINCE_HEADER request with
  | Some if_modified_since =>
      match v_last_modified self with
      | None => false
      | Some last_modified =>
          match header_to_str if_modified_since ≫= parse_http_date with
          | Some since => truncate_to_seconds last_modified <=? since
          | None => false
          end
      end
  | None => false
  end.

(** ** Bodies *)

Inductive BodyValidation := VBytes | VJson.
#[export] Instance BodyValidation_eq_dec : EqDecision BodyValidation.
Proof. solve_decision. Defined.

Definition media_type_eq (value expected : string) : bool :=
  eq_ignore_ascii_case
    (trim (match split_once ";"%char value with Some (media_type, _) => media_type | None => value end)) expected.
Definition content_type_matches (value : string) (accepted : list string) : bool :=
  existsb (media_type_eq value) accepted.

Definition validate_content_type (content_type : option string) (accepted : list string) (resource : string)
    : Res HttpError unit :=
  if bool_decide (accepted = []) then Ok tt else
  match content_type with
  | None => Ok tt
  | Some content_type =>
      if content_type_matches content_type accepted then Ok tt
      else Err (BAD_GATEWAY, resource +:+ " upstream content-type unsupported: " +:+ content_type)
  end.

(** [content_encoding.map(str::trim).filter(..)]. *)
Definition effective_encoding (content_encoding : option string) : option string :=
  match trim <$> content_encoding with
  | Some value => if negb (String.eqb value "") && negb (eq_ignore_ascii_case value "identity") then Some value else None
  | None => None
  end.
Definition decode_provider_body (body : bytes) (content_encoding : option string) (max_bytes : Z) (resource : string)
    : Res HttpError bytes :=
  match effective_encoding content_encoding with
  | None => if len body >? max_bytes then Err (BAD_GATEWAY, resource +:+ " body too large") else Ok body
  | Some encoding =>
      if negb (eq_ignore_ascii_case encoding "gzip") && negb (eq_ignore_ascii_case encoding "x-gzip") then
        Err (BAD_GATEWAY, resource +:+ " upstream content-encoding unsupported: " +:+ encoding)
      else match gz_read body (saturating_add max_bytes 1) with
      | inl error => Err (BAD_GATEWAY, resource +:+ " upstream gzip invalid: " +:+ error)
      | inr decoded =>
          if len decoded >? max_bytes then Err (BAD_GATEWAY, resource +:+ " decoded body too large") else Ok decoded
      end
  end.

Definition validate_body (body : bytes) (content_encoding : option string) (validation : BodyValidation)
    (max_bytes : Z) (resource : string) : Res HttpError unit :=
  if bool_decide (validation = VJson) then
    decoded ← decode_provider_body body content_encoding max_bytes resource;
    match json_error decoded with
    | Some error => Err (BAD_GATEWAY, resource +:+ " JSON invalid: " +:+ error)
    | None => Ok tt
    end
  else Ok tt.

(** ** What a fetch yields *)

Record FetchedProviderResource := {
  fr_bytes : bytes; fr_policy : ProviderCachePolicy; fr_validators : Validators;
  fr_content_encoding : option string; fr_initial_age : Z }.
Record FetchedProviderNegative := { fn_status : Z; fn_policy : NegativeCachePolicy; fn_initial_age : Z }.
Inductive ProviderOriginOutcome :=
  | Modified (fetched : FetchedProviderResource)
  | NotModified (fetched : FetchedProviderResource)
  | Negative (negative : FetchedProviderNegative).

Record CachedProviderRepresentation := {
  cr_bytes : bytes; cr_cache_control : string; cr_validators : Validators; cr_content_encoding : option string }.

(** What the network does with an HTTP request: the times are those of the point
    at which the response is evaluated. *)
Inductive HttpExchange :=
  | HxFailed (kind : string)
  | HxReceived (status : Z) (headers : list (string * string)) (content_length : option Z)
      (chunks : list (string + bytes)) (now elapsed : Z).
(** What the object store answers. *)
Inductive StoreExchange :=
  | SxUnresolved
  | SxNotModified
  | SxNotFound
  | SxFailed
  | SxResult (size : Z) (content_type cache_control content_encoding e_tag : option string) (last_modified : Z)
      (body : option bytes).

(** The conditional part of a request: an entity tag, or else a date. *)
Inductive Condition := IfNoneMatch (etag : string) | IfModifiedSince (date : Z) | Unconditional.

Record OriginWorld := {
  http_get : Url -> Condition -> HttpExchange;
  store_get : Url -> Condition -> StoreExchange }.

Definition revalidation_condition (revalidate : option CachedProviderRepresentation) : Condition :=
  match revalidate with
  | Some cached =>
      match v_etag (cr_validators cached), v_last_modified (cr_validators cached) with
      | Some etag, _ => IfNoneMatch etag
      | None, Some date => IfModifiedSince date
      | None, None => Unconditional
      end
  | None => Unconditional
  end.

(** ** Errors *)

Definition provider_body_too_large (resource : string) : HttpError := (BAD_GATEWAY, resource +:+ " body too large").
Definition provider_bad_gateway (resource what : string) : HttpError :=
  (BAD_GATEWAY, resource +:+ " upstream " +:+ what).
Definition provider_invalid_url (resource : string) : HttpError := (BAD_GATEWAY, resource +:+ " upstream URL invalid").
Definition require_complete_provider_status (status : Z) (resource : string) : Res HttpError unit :=
  if status =? OK then Ok tt else Err (BAD_GATEWAY, resource +:+ " upstream returned " +:+ status_text status).

(** ** Ages *)

Definition corrected_initial_age (headers : list (string * string)) (response_received response_delay : Z) : Z :=
  let ages := omap (fun value => parse_uint u64_max (trim value)) (header_texts AGE_HEADER headers) in
  let age_value := from_secs (foldr Z.max 0 ages) in
  let apparent_age := match header_value headers DATE_HEADER ≫= parse_http_date with
                      | Some date => if date <=? response_received then response_received - date else 0
                      | None => 0
                      end in
  Z.max apparent_age (duration_saturating_add age_value response_delay).

(** The age counts only against a lifetime the origin declared. *)
Definition declared_age (has_explicit_freshness : bool) (headers : list (string * string)) (now elapsed : Z) : Z :=
  if has_explicit_freshness then corrected_initial_age headers now elapsed else 0.

(** An encoding other than the identity. *)
Definition stored_encoding (value : string) : option string :=
  if eq_ignore_ascii_case (trim value) "identity" then None else Some value.

Definition revalidated_provider_resource (cached : CachedProviderRepresentation) (resource : string)
    (headers : option (list (string * string))) (now response_delay : Z) : FetchedProviderResource :=
  let cache_control_values := default [] (header_texts CACHE_CONTROL_HEADER <$> headers) in
  let policy := if bool_decide (cache_control_values = []) then cache_policy resource (Some (cr_cache_control cached))
                else cache_policy_values resource cache_control_values in
  let validators := {|
    v_etag := or_else (headers ≫= fun headers => header_value headers ETAG_HEADER) (v_etag (cr_validators cached));
    v_last_modified := or_else ((headers ≫= fun headers => header_value headers LAST_MODIFIED_HEADER) ≫= parse_http_date)
                         (v_last_modified (cr_validators cached)) |} in
  let content_encoding := match headers ≫= fun headers => joined_header_values headers CONTENT_ENCODING_HEADER with
                          | Some value => if eq_ignore_ascii_case (trim value) "identity" then None
                                          else Some (trim value)
                          | None => cr_content_encoding cached
                          end in
  let initial_age := match headers with
                     | Some headers => corrected_initial_age headers now response_delay
                     | None => 0
                     end in
  {| fr_bytes := cr_bytes cached; fr_policy := policy; fr_validators := validators;
     fr_content_encoding := content_encoding; fr_initial_age := initial_age |}.

(** ** Fetches *)

(** The body, chunk by chunk, up to the limit of the resource. *)
Fixpoint read_provider_chunks (resource : string) (max_bytes : Z) (body : bytes) (chunks : list (string + bytes))
    : Res HttpError bytes :=
  match chunks with
  | [] => Ok body
  | inl _ :: _ => Err (provider_bad_gateway resource "body failed")
  | inr chunk :: chunks =>
      if saturating_add (len body) (len chunk) >? max_bytes then Err (provider_body_too_large resource)
      else read_provider_chunks resource max_bytes (body ++ chunk) chunks
  end.

Definition fetch_http_provider (world : OriginWorld) (url : Url) (max_bytes : Z) (resource : string)
    (accepted_content_types : list string) (revalidate : option CachedProviderRepresentation)
    : Res HttpError ProviderOriginOutcome :=
  match http_get world url (revalidation_condition revalidate) with
  | HxFailed _ => Err (provider_bad_gateway resource "GET failed")
  | HxReceived status headers content_length chunks now elapsed =>
      if status =? NOT_MODIFIED then
        cached ← ok_or (BAD_GATEWAY, resource +:+ " upstream returned an unsolicited 304") revalidate;
        Ok (NotModified (revalidated_provider_resource cached resource (Some headers) now elapsed))
      else if (status =? NOT_FOUND) || (status =? GONE) then
        let '(policy, has_explicit_freshness) :=
          negative_cache_policy_with_freshness_values (header_texts CACHE_CONTROL_HEADER headers) in
        Ok (Negative {| fn_status := status; fn_policy := policy;
                        fn_initial_age := declared_age has_explicit_freshness headers now elapsed |})
      else
        _ ← require_complete_provider_status status resource;
        if match content_length with Some size => size >? max_bytes | None => false end
        then Err (provider_body_too_large resource)
        else
        _ ← validate_content_type (header_value headers CONTENT_TYPE_HEADER) accepted_content_types resource;
        let '(policy, has_explicit_freshness) :=
          cache_policy_with_freshness_values resource (header_texts CACHE_CONTROL_HEADER headers) in
        let validators := {| v_etag := header_value headers ETAG_HEADER;
                             v_last_modified := header_value headers LAST_MODIFIED_HEADER ≫= parse_http_date |} in
        let content_encoding := joined_header_values headers CONTENT_ENCODING_HEADER ≫= stored_encoding in
        body ← read_provider_chunks resource max_bytes [] chunks;
        Ok (Modified {| fr_bytes := body; fr_policy := policy; fr_validators := validators;
                        fr_content_encoding := content_encoding;
                        fr_initial_age := declared_age has_explicit_freshness headers now elapsed |})
  end.

Definition fetch_object_store_provider (world : OriginWorld) (url : Url) (max_bytes : Z) (resource : string)
    (accepted_content_types : list string) (revalidate : option CachedProviderRepresentation)
    : Res HttpError ProviderOriginOutcome :=
  match store_get world url (revalidation_condition revalidate) with
  | SxUnresolved => Err (provider_bad_gateway resource "store init failed")
  | SxNotModified =>
      match revalidate with
      | Some cached => Ok (NotModified (revalidated_provider_resource cached resource None 0 0))
      | None => Err (provider_bad_gateway resource "GET failed")
      end
  | SxNotFound =>
      Ok (Negative {| fn_status := NOT_FOUND; fn_policy := negative_cache_policy_values []; fn_initial_age := 0 |})
  | SxFailed => Err (provider_bad_gateway resource "GET failed")
  | SxResult size content_type cache_control content_encoding e_tag last_modified body =>
      if size >? max_bytes then Err (provider_body_too_large resource) else
      _ ← validate_content_type content_type accepted_content_types resource;
      let policy := cache_policy resource cache_control in
      let validators := {| v_etag := e_tag;
                           v_last_modified := if last_modified =? 0 then None else Some last_modified |} in
      let content_encoding := content_encoding ≫= stored_encoding in
      body ← ok_or (provider_bad_gateway resource "body failed") body;
      if len body >? max_bytes then Err (provider_body_too_large resource) else
      Ok (Modified {| fr_bytes := body; fr_policy := policy; fr_validators := validators;
                      fr_content_encoding := content_encoding; fr_initial_age := 0 |})
  end.

(** The body of [fetch_limited_bytes_uncached] once the fetch is admitted; admission
    and the deadline around it are steps of ProviderCache. *)
Definition fetch_admitted (world : OriginWorld) (url : string) (max_bytes : Z) (resource : string)
    (accepted_content_types : list string) (body_validation : BodyValidation)
    (revalidate : option CachedProviderRepresentation) : Res HttpError ProviderOriginOutcome :=
  parsed ← ok_or (provider_invalid_url resource) (url_parse url);
  fetched ← (if String.eqb (url_scheme parsed) "http" || String.eqb (url_scheme parsed) "https"
             then fetch_http_provider world parsed max_bytes resource accepted_content_types revalidate
             else fetch_object_store_provider world parsed max_bytes resource accepted_content_types revalidate);
  _ ← match fetched with
      | Modified fetched =>
          validate_body (fr_bytes fetched) (fr_content_encoding fetched) body_validation max_bytes resource
      | _ => Ok tt
      end;
  Ok fetched.

(** ** Responses *)

(** [ProviderResource] of [server/upstream.rs]. *)
Record ProvidedResource := {
  pv_bytes : bytes; pv_cache_control : string; pv_age_seconds : Z; pv_validators : Validators;
  pv_content_encoding : option string }.

Definition ProvidedResource_fetched (fetched : FetchedProviderResource) : ProvidedResource :=
  {| pv_bytes := fr_bytes fetched; pv_cache_control := cp_response_cache_control (fr_policy fetched);
     pv_age_seconds := as_secs (fr_initial_age fetched); pv_validators := fr_validators fetched;
     pv_content_encoding := fr_content_encoding fetched |}.

Definition from_peer (response : InternalFetchResponse) : Res string ProvidedResource :=
  cache_control ← ok_or "peer provider response is missing cache policy" (ifr_provider_cache_control response);
  age_seconds ← ok_or "peer provider response is missing age" (ifr_provider_age_seconds response);
  Ok {| pv_bytes := ifr_bytes response; pv_cache_control := cache_control; pv_age_seconds := age_seconds;
        pv_validators := {| v_etag := ifr_provider_etag response;
                            v_last_modified := ifr_provider_last_modified response ≫= parse_http_date |};
        pv_content_encoding := ifr_content_encoding response |}.

Definition decoded_bytes (self : ProvidedResource) (max_bytes : Z) (resource : string) : Res HttpError bytes :=
  decode_provider_body (pv_bytes self) (pv_content_encoding self) max_bytes resource.
Definition with_derived_validators (self : ProvidedResource) (validators : Validators) : ProvidedResource :=
  {| pv_bytes := pv_bytes self; pv_cache_control := pv_cache_control self; pv_age_seconds := pv_age_seconds self;
     pv_validators := validators; pv_content_encoding := None |}.

(** [HeaderValue::from_bytes(..).expect(..)]. *)
Definition insert_expected (name value : string) (headers : list (string * string))
    : Res HttpError (list (string * string)) :=
  if header_valid value then Ok (header_insert name value headers) else Panic.

Definition apply_cache_metadata (self : ProvidedResource) (headers : list (string * string))
    : Res HttpError (list (string * string)) :=
  headers ← insert_expected CACHE_CONTROL_HEADER (pv_cache_control self) headers;
  headers ← insert_expected AGE_HEADER (decimal (pv_age_seconds self)) headers;
  Ok (Validators_apply (pv_validators self) headers).
Definition apply_content_encoding (self : ProvidedResource) (headers : list (string * string))
    : list (string * string) := insert_text CONTENT_ENCODING_HEADER (pv_content_encoding self) headers.
Definition apply_public_headers (self : ProvidedResource) (headers : list (string * string))
    : Res HttpError (list (string * string)) :=
  headers ← apply_cache_metadata self headers;
  Ok (apply_content_encoding self headers).
Definition apply_internal_headers (self : ProvidedResource) (headers : list (string * string))
    : Res HttpError (list (string * string)) :=
  headers ← insert_expected PROVIDER_CACHE_CONTROL_HEADER (pv_cache_control self) headers;
  headers ← insert_expected PROVIDER_AGE_HEADER (decimal (pv_age_seconds self)) headers;
  let headers := insert_text PROVIDER_ETAG_HEADER (v_etag (pv_validators self)) headers in
  let headers := insert_text PROVIDER_LAST_MODIFIED_HEADER (last_modified_http_date (pv_validators self)) headers in
  Ok (apply_content_encoding self headers).

Definition not_modified_response (self : ProvidedResource) : Res HttpError HttpResponse :=
  headers ← apply_cache_metadata self [];
  Ok {| hr_status := NOT_MODIFIED; hr_headers := headers; hr_body := [] |}.
Definition public_response (self : ProvidedResource) (request : list (string * string)) (body : bytes)
    (content_type : string) : Res HttpError HttpResponse :=
  if Validators_not_modified (pv_validators self) request then not_modified_response self else
  let response := bytes_response body content_type None in
  headers ← apply_public_headers self (hr_headers response);
  Ok {| hr_status := hr_status response; hr_headers := headers; hr_body := hr_body response |}.
Definition internal_response (self : ProvidedResource) (content_type : string) : Res HttpError HttpResponse :=
  let response := bytes_response (pv_bytes self) content_type None in
  headers ← apply_internal_headers self (hr_headers response);
  Ok {| hr_status := hr_status response; hr_headers := headers; hr_body := hr_body response |}.

Definition internal_provider_fetch_error (error : HttpError) : Res HttpError HttpResponse :=
  let mark marker :=
    let response := error_into_response error in
    Ok {| hr_status := hr_status response;
          hr_headers := header_insert PROVIDER_NEGATIVE_HEADER (negative_as_str marker) (hr_headers response);
          hr_body := hr_body response |} in
  if error.1 =? NOT_FOUND then mark NegNotFound
  else if error.1 =? GONE then mark NegGone
  else Err error.

(** [route_peer_resource], on what the resolver routed. *)
Definition peer_route_result (outcome : option ProviderRouteOutcome) : Res HttpError (option ProvidedResource) :=
  match outcome with
  | None => Ok None
  | Some RouteNotFound => Err (NOT_FOUND, "not found")
  | Some RouteGone => Err (GONE, "gone")
  | Some (RouteResource response) =>
      match from_peer response with
      | Ok resource => Ok (Some resource)
      | Err _ => Ok None
      | Panic => Panic
      end
  end.

Definition apply_origin_vary (headers : list (string * string)) : list (string * string) :=
  header_insert VARY_HEADER "Origin, X-Forwarded-Proto" headers.
Definition derived_json_response (body : bytes) (headers : list (string * string)) (cache_control : string) : HttpResponse :=
  let validators := for_derived_body body in
  if Validators_not_modified validators headers then
    {| hr_status := NOT_MODIFIED;
       hr_headers := apply_origin_vary (Validators_apply validators (header_insert CACHE_CONTROL_HEADER cache_control []));
       hr_body := [] |}
  else
    let response := bytes_response body "application/json" (Some cache_control) in
    {| hr_status := hr_status response;
       hr_headers := apply_origin_vary (Validators_apply validators (hr_headers response));
       hr_body := hr_body response |}.
End Provider.

(** ** Fetched resources *)

Lemma concat_valid ts : Forall (fun t => str_all clean t = true) ts -> header_to_str (String.concat ", " ts) = Some (String.concat ", " ts).
Proof.
  intros Hts. unfold header_to_str.
  set (f := fun a => (32 <=? byte_of a) && (byte_of a <? 127) || (byte_of a =? 9)).
  assert (Hclean : forall t, str_all clean t = true -> str_all f t = true).
  { intros t. induction t as [|a t IH]; cbn; [done|]. intros [Ha Ht]%andb_prop. rewrite IH by done.
    unfold clean, plain in Ha. bool_props. apply andb_true_intro. split; [|done]. unfold f.
    apply orb_true_intro. left. apply andb_true_intro. split; [apply Z.leb_le|apply Z.ltb_lt]; lia. }
  enough (Hall : str_all f (String.concat ", " ts) = true) by (by rewrite Hall).
  induction Hts as [|t ts Ht Hts IH]; [done|]. destruct ts as [|u ts]; [by apply Hclean|].
  rewrite concat_cons, !str_all_app, IH, Hclean by done. done.
Qed.

(** A text value is a valid header value. *)
Lemma text_valid value : header_to_str value = Some value -> header_valid value = true.
Proof.
  unfold header_to_str, header_valid. destruct (str_all _ value) eqn:Hv; [|done]. intros _.
  induction value as [|a value IH]; [done|]. cbn in *. apply andb_prop in Hv as [Ha Hv].
  rewrite (IH Hv), andb_true_r. apply orb_true_iff in Ha as [Ha|Ha].
  - bool_props. apply orb_true_intro. left. apply andb_true_intro. split; [by apply Z.leb_le|].
    apply negb_true_iff, Z.eqb_neq. lia.
  - by rewrite Ha, orb_true_r.
Qed.
Lemma header_to_str_Some value text : header_to_str value = Some text -> text = value.
Proof. unfold header_to_str. case_match; congruence. Qed.

(** The Cache-Control of a policy is text. *)
Lemma policy_text resource values :
  let text := cp_response_cache_control (cache_policy_values resource values) in header_to_str text = Some text.
Proof.
  cbv zeta. rewrite cache_policy_values_eq. destruct (parse_values values) as [c|] eqn:Hc.
  - pose proof (parse_values_u64 _ _ Hc) as Hu.
    replace (cp_response_cache_control (policy_of resource c)) with (normalized_cache_control resource c)
      by (unfold policy_of; by case_match).
    destruct (no_store c) eqn:Es; [by unfold normalized_cache_control; rewrite Es|].
    destruct (no_cache c) eqn:Ec; [by unfold normalized_cache_control; rewrite Es, Ec|].
    destruct (private c) eqn:Ep.
    + unfold normalized_cache_control. rewrite Es, Ec, Ep.
      change (fun seconds => Z.min seconds (as_secs MAX_PROVIDER_TTL)) with clamp_secs. cbv zeta.
      set (n := default 0 (clamp_secs <$> max_age c)).
      change ("private, max-age=" +:+ decimal n) with (String.concat ", " ["private"; "max-age=" +:+ decimal n]).
      apply concat_valid. repeat apply Forall_cons_2; [done| |by apply Forall_nil_2].
      rewrite clean_app. cbn [str_all andb]. apply decimal_clean. subst n.
      destruct (max_age c) eqn:Hm; cbn; [by apply clamp_u64, (cu_max_age c Hu)|unfold is_u, u64_max; lia].
    + rewrite normalized_tokens by done. apply concat_valid.
      eapply Forall_impl; [by apply shown_tokens_clean|]. by intros t [Ht _].
  - cbn. unfold default_response_cache_control. repeat case_match; done.
Qed.

Lemma cache_policy_text resource upstream :
  let text := cp_response_cache_control (cache_policy resource upstream) in header_to_str text = Some text.
Proof. apply policy_text. Qed.

Section FetchSpec.
Context `{ProviderExternals}.

Lemma provider_chunks_spec resource max_bytes chunks body :
  max_bytes < u64_max ->
  match read_provider_chunks resource max_bytes body chunks with
  | Ok bytes => complete chunks /\ bytes = body ++ received_bytes chunks /\ (len body <= max_bytes -> len bytes <= max_bytes)
  | Err e => e.1 = BAD_GATEWAY
  | Panic => False
  end.
Proof.
  intros Hlimit. revert body. induction chunks as [|[error|chunk] chunks IH]; intros body; cbn.
  - rewrite app_nil_r. split_and!; [by apply Forall_nil_2|done|done].
  - done.
  - destruct (_ >? max_bytes) eqn:Hmax; [done|]. rewrite Z.gtb_ltb in Hmax. bool_props.
    specialize (IH (body ++ chunk)). destruct (read_provider_chunks _ _ _ _) as [bytes|e|]; [|done..].
    destruct IH as (Hc & -> & Hl). split_and!.
    + apply Forall_cons. eauto.
    + by rewrite <- app_assoc.
    + intros _. apply Hl. unfold saturating_add, len in *. rewrite length_app, Nat2Z.inj_add. lia.
Qed.

Lemma corrected_age_nonneg headers now elapsed : 0 <= elapsed -> 0 <= corrected_initial_age headers now elapsed.
Proof.
  intros He. unfold corrected_initial_age, duration_saturating_add.
  assert (Hm : forall l, 0 <= foldr Z.max 0 l) by (induction l; cbn; lia).
  assert (0 <= DURATION_MAX) by done.
  match goal with |- context [foldr Z.max 0 ?l] => specialize (Hm l) end.
  unfold from_secs, nanos_per_sec in *. lia.
Qed.

(** The times an origin reports are those of clocks. *)
Definition origin_clock (world : OriginWorld) : Prop :=
  forall url condition status headers content_length chunks now elapsed,
    http_get world url condition = HxReceived status headers content_length chunks now elapsed -> 0 <= elapsed.

(** What the caches rely on: a policy of the resource, whose text is a header. *)
Record fetched_wf (resource : string) (f : FetchedProviderResource) : Prop := {
  fw_policy : exists values, fr_policy f = cache_policy_values resource values;
  fw_age : 0 <= fr_initial_age f }.

Lemma fetched_wf_bounds resource f : fetched_wf resource f ->
  0 <= cp_fresh (fr_policy f) <= MAX_PROVIDER_TTL /\ 0 <= cp_swr (fr_policy f) <= MAX_PROVIDER_TTL.
Proof. intros [(values & ->) _]. apply policy_bounds. Qed.

Lemma revalidated_wf cached resource headers now elapsed :
  0 <= elapsed -> fetched_wf resource (revalidated_provider_resource cached resource headers now elapsed).
Proof.
  intros He. split; cbn.
  - case_match; [by exists [cr_cache_control cached]|eauto].
  - case_match; [by apply corrected_age_nonneg|done].
Qed.

Definition declared_policy (resource : string) (headers : list (string * string)) : ProviderCachePolicy :=
  cache_policy_values resource (header_texts CACHE_CONTROL_HEADER headers).

(** What one fetch of a resource may yield. *)
Definition origin_result (world : OriginWorld) (url : string) (max_bytes : Z) (resource : string)
    (accepted : list string) (validation : BodyValidation) (revalidate : option CachedProviderRepresentation)
    (r : Res HttpError ProviderOriginOutcome) : Prop :=
  match r with
  | Ok (Modified f) =>
      fetched_wf resource f /\ len (fr_bytes f) <= max_bytes /\
      validate_body (fr_bytes f) (fr_content_encoding f) validation max_bytes resource = Ok tt /\
      exists parsed, url_parse url = Some parsed /\
        if String.eqb (url_scheme parsed) "http" || String.eqb (url_scheme parsed) "https" then
          exists headers content_length chunks now elapsed,
            http_get world parsed (revalidation_condition revalidate) =
              HxReceived OK headers content_length chunks now elapsed /\
            complete chunks /\ fr_bytes f = received_bytes chunks /\
            fr_policy f = declared_policy resource headers /\
            validate_content_type (header_value headers CONTENT_TYPE_HEADER) accepted resource = Ok tt
        else
          exists size content_type cache_control content_encoding e_tag last_modified,
            store_get world parsed (revalidation_condition revalidate) =
              SxResult size content_type cache_control content_encoding e_tag last_modified (Some (fr_bytes f)) /\
            fr_policy f = cache_policy resource cache_control /\
            validate_content_type content_type accepted resource = Ok tt
  | Ok (NotModified f) =>
      fetched_wf resource f /\ exists cached, revalidate = Some cached /\ fr_bytes f = cr_bytes cached
  | Ok (Negative n) =>
      (fn_status n = NOT_FOUND \/ fn_status n = GONE) /\ 0 <= fn_initial_age n /\
      exists values, fn_policy n = negative_cache_policy_values values
  | Err e => e.1 = BAD_GATEWAY
  | Panic => False
  end.

Lemma validate_content_type_cases content_type accepted resource :
  match validate_content_type content_type accepted resource with
  | Ok _ => True | Err e => e.1 = BAD_GATEWAY | Panic => False end.
Proof. unfold validate_content_type. destruct (bool_decide _); [done|]. destruct content_type; [|done]. by destruct (content_type_matches _ _). Qed.

Lemma validate_body_cases body encoding validation max_bytes resource :
  match validate_body body encoding validation max_bytes resource with
  | Ok _ => True | Err e => e.1 = BAD_GATEWAY | Panic => False end.
Proof.
  unfold validate_body. case_bool_decide; [|done].
  assert (Hd : match decode_provider_body body encoding max_bytes resource with
               | Ok _ => True | Err e => e.1 = BAD_GATEWAY | Panic => False end).
  { unfold decode_provider_body. destruct (effective_encoding _); [|by destruct (_ >? _)].
    destruct (_ && _); [done|]. destruct (gz_read _ _) as [|decoded]; [done|]. by destruct (_ >? _). }
  destruct (decode_provider_body _ _ _ _); cbn; [|done..]. by destruct (json_error _).
Qed.

Lemma negative_policy_values values b p :
  negative_cache_policy_with_freshness_values values = (p, b) -> p = negative_cache_policy_values values.
Proof. intros E. unfold negative_cache_policy_values. by rewrite E. Qed.
Lemma policy_values resource values b p :
  cache_policy_with_freshness_values resource values = (p, b) -> p = cache_policy_values resource values.
Proof. intros E. unfold cache_policy_values. by rewrite E. Qed.

(** What the two kinds of fetch yield before the body is validated. *)
Lemma fetch_http_result world url parsed max_bytes resource accepted revalidate :
  0 <= max_bytes < u64_max -> origin_clock world ->
  url_parse url = Some parsed ->
  String.eqb (url_scheme parsed) "http" || String.eqb (url_scheme parsed) "https" = true ->
  origin_result world url max_bytes resource accepted VBytes revalidate
    (fetch_http_provider world parsed max_bytes resource accepted revalidate).
Proof.
  intros Hmax Hclock Hurl Hscheme. unfold fetch_http_provider.
  destruct (http_get _ _ _) as [kind|status headers cl chunks now elapsed] eqn:Hx; [done|].
  pose proof (Hclock _ _ _ _ _ _ _ _ Hx) as He.
  destruct (status =? NOT_MODIFIED).
  { destruct revalidate as [cached|]; cbn; [|done]. split; [by apply revalidated_wf|eauto]. }
  destruct ((status =? NOT_FOUND) || (status =? GONE)) eqn:Hneg.
  { destruct (negative_cache_policy_with_freshness_values _) as [p b] eqn:Hp. cbn. split_and!.
    - apply orb_true_iff in Hneg as [Hs|Hs]; bool_props; auto.
    - unfold declared_age. case_match; [by apply corrected_age_nonneg|done].
    - eexists. by eapply negative_policy_values. }
  unfold require_complete_provider_status. destruct (Z.eqb_spec status OK) as [->|]; cbn; [|done].
  destruct (match cl with Some size => size >? max_bytes | None => false end); [done|].
  pose proof (validate_content_type_cases (header_value headers CONTENT_TYPE_HEADER) accepted resource) as Hct.
  destruct (validate_content_type _ _ _) as [[]|e|] eqn:Ect; cbn; [|done..].
  destruct (cache_policy_with_freshness_values _ _) as [p b] eqn:Hp. apply policy_values in Hp as ->.
  pose proof (provider_chunks_spec resource max_bytes chunks [] ltac:(lia)) as Hch.
  destruct (read_provider_chunks _ _ _ _) as [body|e|]; cbn; [|done..]. destruct Hch as (Hc & -> & Hl).
  split_and!; [split; cbn|apply Hl; unfold len; cbn; lia|done|].
  - eauto.
  - unfold declared_age. case_match; [by apply corrected_age_nonneg|done].
  - exists parsed. split; [done|]. rewrite Hscheme. repeat eexists; done.
Qed.

Lemma fetch_store_result world url parsed max_bytes resource accepted revalidate :
  url_parse url = Some parsed ->
  String.eqb (url_scheme parsed) "http" || String.eqb (url_scheme parsed) "https" = false ->
  origin_result world url max_bytes resource accepted VBytes revalidate
    (fetch_object_store_provider world parsed max_bytes resource accepted revalidate).
Proof.
  intros Hurl Hscheme. unfold fetch_object_store_provider.
  destruct (store_get _ _ _) as [| | | |size ct cc ce etag lm body] eqn:Hx; try done.
  - destruct revalidate as [cached|]; cbn; [|done]. split; [by apply revalidated_wf|eauto].
  - cbn. split; [by left|split; [done|by exists []]].
  - destruct (size >? max_bytes); [done|].
    pose proof (validate_content_type_cases ct accepted resource) as Hct.
    destruct (validate_content_type _ _ _) as [[]|e|] eqn:Ect; cbn; [|done..].
    destruct body as [body|]; cbn; [|done]. destruct (Z.gtb_spec (len body) max_bytes); [done|]. cbn.
    split_and!; [split; cbn; [by exists (option_list cc)|done]|done|done|].
    exists parsed. split; [done|]. rewrite Hscheme. repeat eexists; done.
Qed.

Lemma fetch_admitted_result world url max_bytes resource accepted validation revalidate :
  0 <= max_bytes < u64_max -> origin_clock world ->
  origin_result world url max_bytes resource accepted validation revalidate
    (fetch_admitted world url max_bytes resource accepted validation revalidate).
Proof.
  intros Hmax Hclock. unfold fetch_admitted. destruct (url_parse url) as [parsed|] eqn:Hurl; cbn; [|done].
  assert (Hr : origin_result world url max_bytes resource accepted VBytes revalidate
    (if String.eqb (url_scheme parsed) "http" || String.eqb (url_scheme parsed) "https"
     then fetch_http_provider world parsed max_bytes resource accepted revalidate
     else fetch_object_store_provider world parsed max_bytes resource accepted revalidate)).
  { destruct (String.eqb (url_scheme parsed) "http" || String.eqb (url_scheme parsed) "https") eqn:Hscheme;
      [by apply fetch_http_result|by apply fetch_store_result]. }
  match goal with |- context [if ?b then ?x else ?y] => destruct (if b then x else y) as [[f|f|n]|e|] end; cbn; try done.
  pose proof (validate_body_cases (fr_bytes f) (fr_content_encoding f) validation max_bytes resource) as Hv.
  destruct (validate_body _ _ validation _ _) as [[]|e|] eqn:Eval; cbn; [|done..].
  cbn in Hr. rewrite Eval. naive_solver.
Qed.
End FetchSpec.


Module DemoOrigin.
Definition demo_provider : ProviderExternals := {|
  Url := string; url_parse := fun u => if String.eqb u "" then None else Some u; url_scheme := fun _ => "https";
  parse_http_date := fun s => match strip_prefix "D" s with Some n => from_secs <$> parse_uint u64_max n | None => None end;
  fmt_http_date := fun t => "D" +:+ decimal (as_secs t);
  gz_read := fun b _ => inr b; json_error := fun b => if bool_decide (b = []) then Some "EOF" else None;
  derived_hash := fun b => len b; status_text := decimal |}.
Definition demo_headers : list (string * string) :=
  [("content-type", "Application/JSON; charset=utf-8"); ("cache-control", "max-age=60, stale-while-revalidate=30");
   ("age", "5"); ("etag", "v1")].
#[local] Existing Instance demo_provider.
Definition demo_origin : OriginWorld := {|
  http_get := fun _ condition =>
    match condition with
    | IfNoneMatch _ => HxReceived 304 [("age", "1")] None [] 0 0
    | _ => HxReceived 200 demo_headers (Some 3) [inr [123]; inr [32; 125]] 0 2000000000
    end;
  store_get := fun _ _ => SxNotFound |}.

Lemma demo_origin_clock : origin_clock demo_origin.
Proof. intros url []; intros * [= <- <- <- <- <- <-]; lia. Qed.

End DemoOrigin.
