(* ===== verification/ProviderCache.v ===== *)
(** * The provider cache

    Models [ProviderFetchCache] and [ProviderFetcher] of
    [servers/ishikari/src/server/upstream.rs] with the request loop of
    [upstream/fetch.rs]: freshness windows, stale serving with background
    revalidation and its cooldown, single-flight fetches over SingleFlight, and the
    admission of origin fetches.

    Requests and background refreshes are tasks that interleave at every access to
    shared state; [advance] is one such step of one task. The clock advances, the
    caches evict at will, requests arrive and are cancelled, deadlines fire and
    origins answer anything ([pstep]). Metrics are left out. *)

From S2P Require Import Prelude StdModel Types TilesetSources ChunkStore HttpMessage Text Config.
From S2P Require Import CacheControl ProviderPolicy PeerRouting PeerBackend ProviderFetch SingleFlight.

Definition PROVIDER_FETCH_CONCURRENCY : Z := 16.
Definition PROVIDER_FETCH_MAX_INFLIGHT : Z := 128.
Definition PROVIDER_STALE_REVALIDATION_FAILURE_COOLDOWN : Z := from_secs 5.

#[export] Instance BodyValidation_countable : Countable BodyValidation.
Proof.
  apply (inj_countable' (fun v => match v with VBytes => false | VJson => true end)
           (fun b : bool => if b then VJson else VBytes)). by intros [].
Defined.

Record ProviderFetchCacheKey := {
  k_resource : string; k_accepted_content_types : list string; k_body_validation : BodyValidation; k_url : string }.
#[export] Instance ProviderFetchCacheKey_eq_dec : EqDecision ProviderFetchCacheKey.
Proof. solve_decision. Defined.
#[export] Instance ProviderFetchCacheKey_countable : Countable ProviderFetchCacheKey.
Proof.
  apply (inj_countable'
    (fun k => (k_resource k, k_accepted_content_types k, k_body_validation k, k_url k))
    (fun '(r, a, v, u) => {| k_resource := r; k_accepted_content_types := a; k_body_validation := v; k_url := u |})).
  by intros [].
Defined.

Inductive Freshness := Fresh | Stale | Expired.

Inductive CachedProviderFetch :=
  | CFound (bytes : bytes) (cache_control : string) (validators : Validators) (content_encoding : option string)
      (age_at_insert stored_at fresh_until stale_until : Z)
  | CNegative (status : Z) (fresh_until stale_until : Z).

Inductive ProviderFlightOutcome :=
  | FoError (error : HttpError)
  | FoResource (resource : ProvidedResource).

Definition freshness (now : Z) (entry : CachedProviderFetch) : Freshness :=
  let '(fresh_until, stale_until) := match entry with
    | CFound _ _ _ _ _ _ fresh_until stale_until => (fresh_until, stale_until)
    | CNegative _ fresh_until stale_until => (fresh_until, stale_until)
    end in
  if now <? fresh_until then Fresh else if now <? stale_until then Stale else Expired.

Definition provider_negative_error (status : Z) : HttpError :=
  (status, if status =? GONE then "gone" else "not found").

Definition into_result (now : Z) (entry : CachedProviderFetch) : Res HttpError ProvidedResource :=
  match entry with
  | CFound bytes cache_control validators content_encoding age_at_insert stored_at _ _ =>
      Ok {| pv_bytes := bytes; pv_cache_control := cache_control;
            pv_age_seconds := as_secs (duration_saturating_add (saturating_sub now stored_at) age_at_insert);
            pv_validators := validators; pv_content_encoding := content_encoding |}
  | CNegative status _ _ => Err (provider_negative_error status)
  end.

Definition representation (entry : CachedProviderFetch) : option CachedProviderRepresentation :=
  match entry with
  | CFound bytes cache_control validators content_encoding _ _ _ _ =>
      Some {| cr_bytes := bytes; cr_cache_control := cache_control; cr_validators := validators;
              cr_content_encoding := content_encoding |}
  | CNegative _ _ _ => None
  end.

(** ** The cache *)

Abbreviation Key := ProviderFetchCacheKey.
Record ProviderFetchCache := {
  pc_entries : gmap Key CachedProviderFetch;
  pc_failed_revalidations : gmap Key Z;
  pc_inflight : SingleFlight Key ProviderFlightOutcome;
  pc_fetch_semaphore : Z;
  pc_fetch_inflight : Z }.

Definition ProviderFetchCache_new : ProviderFetchCache :=
  {| pc_entries := ∅; pc_failed_revalidations := ∅; pc_inflight := SingleFlight_default;
     pc_fetch_semaphore := PROVIDER_FETCH_CONCURRENCY; pc_fetch_inflight := 0 |}.

Section Operations.
Implicit Types (key : Key) (c : ProviderFetchCache) (now : Z).

Definition with_entries (f : gmap Key CachedProviderFetch -> gmap Key CachedProviderFetch) c : ProviderFetchCache :=
  {| pc_entries := f (pc_entries c); pc_failed_revalidations := pc_failed_revalidations c;
     pc_inflight := pc_inflight c; pc_fetch_semaphore := pc_fetch_semaphore c; pc_fetch_inflight := pc_fetch_inflight c |}.
Definition with_failed (f : gmap Key Z -> gmap Key Z) c : ProviderFetchCache :=
  {| pc_entries := pc_entries c; pc_failed_revalidations := f (pc_failed_revalidations c);
     pc_inflight := pc_inflight c; pc_fetch_semaphore := pc_fetch_semaphore c; pc_fetch_inflight := pc_fetch_inflight c |}.
Definition with_flights (sf : SingleFlight Key ProviderFlightOutcome) c : ProviderFetchCache :=
  {| pc_entries := pc_entries c; pc_failed_revalidations := pc_failed_revalidations c;
     pc_inflight := sf; pc_fetch_semaphore := pc_fetch_semaphore c; pc_fetch_inflight := pc_fetch_inflight c |}.
(** Changes of the semaphore and of the counter of fetches. *)
Definition with_load (permits slots : Z) c : ProviderFetchCache :=
  {| pc_entries := pc_entries c; pc_failed_revalidations := pc_failed_revalidations c;
     pc_inflight := pc_inflight c; pc_fetch_semaphore := pc_fetch_semaphore c + permits;
     pc_fetch_inflight := pc_fetch_inflight c + slots |}.

Definition get now key c : option (CachedProviderFetch * Freshness) :=
  entry ← pc_entries c !! key;
  match freshness now entry with Expired => None | fresh => Some (entry, fresh) end.

Definition stale_representation now key c : option CachedProviderRepresentation :=
  match get now key c with Some (entry, Stale) => representation entry | _ => None end.

Definition invalidate key c : ProviderFetchCache := with_failed (delete key) (with_entries (delete key) c).

Definition put_found now key (fetched : FetchedProviderResource) c : ProviderFetchCache :=
  let c := with_failed (delete key) c in
  if negb (cp_store (fr_policy fetched)) then invalidate key c else
  let stored_at := now in
  let fresh_remaining := saturating_sub (cp_fresh (fr_policy fetched)) (fr_initial_age fetched) in
  let retention_remaining :=
    saturating_sub (duration_saturating_add (cp_fresh (fr_policy fetched)) (cp_swr (fr_policy fetched)))
      (fr_initial_age fetched) in
  if retention_remaining =? 0 then invalidate key c else
  let fresh_until := stored_at + fresh_remaining in
  with_entries (insert key
    (CFound (fr_bytes fetched) (cp_response_cache_control (fr_policy fetched)) (fr_validators fetched)
       (fr_content_encoding fetched) (fr_initial_age fetched) stored_at fresh_until (stored_at + retention_remaining))) c.

Definition put_negative now key (negative : FetchedProviderNegative) c : ProviderFetchCache :=
  let c := with_failed (delete key) c in
  if negb (np_store (fn_policy negative)) then invalidate key c else
  let fresh := saturating_sub (np_fresh (fn_policy negative)) (fn_initial_age negative) in
  if fresh =? 0 then invalidate key c else
  let fresh_until := now + fresh in
  with_entries (insert key (CNegative (fn_status negative) fresh_until fresh_until)) c.

Definition stale_revalidation_allowed now key c : bool * ProviderFetchCache :=
  match pc_failed_revalidations c !! key with
  | None => (true, c)
  | Some retry_at => if now <? retry_at then (false, c) else (true, with_failed (delete key) c)
  end.

Definition mark_stale_revalidation_failure now key c : ProviderFetchCache :=
  match freshness now <$> pc_entries c !! key with
  | Some Stale => with_failed (insert key (now + PROVIDER_STALE_REVALIDATION_FAILURE_COOLDOWN)) c
  | Some Expired => invalidate key c
  | Some Fresh | None => with_failed (delete key) c
  end.

Definition begin_fetch key c : Flight Key ProviderFlightOutcome * ProviderFetchCache :=
  let '(flight, sf) := begin key (pc_inflight c) in (flight, with_flights sf c).
Definition release_leader (guard : LeaderGuard Key ProviderFlightOutcome) c : ProviderFetchCache :=
  with_flights (drop_guard guard (pc_inflight c)) c.
End Operations.

(** ** Tasks *)

Record Request := { rq_key : Key; rq_max_bytes : Z }.

(** Where an origin fetch stands: [ProviderFetchSlot::try_reserve] adds to the
    counter and gives back what exceeds the limit, [admit_fetch] then waits for a
    permit. *)
Inductive FetchPhase := PReserve | POver | PQueued | PExchange.

(** How an answer came about: by a flight, or from a cache entry looked up then. *)
Inductive Provenance := ByFlight | ByCache (looked_up : Z).

Abbreviation Guard := (LeaderGuard Key ProviderFlightOutcome).
Inductive Task :=
  | TLookup (rq : Request)
  | TAllowed (rq : Request) (entry : CachedProviderFetch) (looked_up : Z)
  | TSpawnBegin (rq : Request) (entry : CachedProviderFetch) (looked_up : Z)
  | TAllowedLeader (rq : Request) (entry : CachedProviderFetch) (looked_up : Z) (guard : Guard)
  | TSpawn (rq : Request) (entry : CachedProviderFetch) (looked_up : Z) (guard : Guard)
  | TReturn (rq : Request) (entry : CachedProviderFetch) (looked_up : Z)
  | TBegin (rq : Request)
  | TRecheck (rq : Request) (guard : Guard)
  | TFetch (rq : Request) (guard : Guard) (stale : option CachedProviderRepresentation) (phase : FetchPhase)
  | TStore (rq : Request) (guard : Guard) (background : bool) (result : Res HttpError ProviderOriginOutcome)
  | TPublish (rq : Request) (guard : Guard) (background : bool) (outcome : ProviderFlightOutcome)
  | TWait (rq : Request) (follower : Follower)
  | TDone (rq : Request) (answer : Res HttpError ProvidedResource) (provenance : Provenance)
  | TGone.

Definition flight_answer (outcome : ProviderFlightOutcome) : Res HttpError ProvidedResource :=
  match outcome with FoError error => Err error | FoResource resource => Ok resource end.

Section Machine.
Context `{ProviderExternals}.

(** What the environment contributes to a step of a task. *)
Inductive Choice := Go | Deadline | Origin (world : OriginWorld).

Abbreviation Log := (list (Key * ProviderOriginOutcome)).
Definition queue_full (rq : Request) : HttpError :=
  (SERVICE_UNAVAILABLE, k_resource (rq_key rq) +:+ " upstream fetch queue full").
Definition timed_out (rq : Request) : HttpError :=
  (GATEWAY_TIMEOUT, k_resource (rq_key rq) +:+ " upstream timed out").

Definition is_background (stale : option CachedProviderRepresentation) : bool := bool_decide (stale <> None).

(** The cache, the task, the task it spawned and what an origin answered. *)
Definition Step : Type := ProviderFetchCache * Task * list Task * Log.
Definition stay (c : ProviderFetchCache) (t : Task) : option Step := Some (c, t, [], []).

Definition advance_fetch (choice : Choice) (c : ProviderFetchCache) (rq : Request) (guard : Guard)
    (stale : option CachedProviderRepresentation) (phase : FetchPhase) : option Step :=
  let key := rq_key rq in
  let background := is_background stale in
  match phase, choice with
  | PReserve, Go =>
      let previous := pc_fetch_inflight c in
      let c := with_load 0 1 c in
      if previous >=? PROVIDER_FETCH_MAX_INFLIGHT then stay c (TFetch rq guard stale POver)
      else stay c (TFetch rq guard stale PQueued)
  | POver, Go => stay (with_load 0 (-1) c) (TStore rq guard background (Err (queue_full rq)))
  | PQueued, Go =>
      if pc_fetch_semaphore c >? 0 then stay (with_load (-1) 0 c) (TFetch rq guard stale PExchange) else None
  | PQueued, Deadline => stay (with_load 0 (-1) c) (TStore rq guard background (Err (timed_out rq)))
  | PExchange, Deadline => stay (with_load 1 (-1) c) (TStore rq guard background (Err (timed_out rq)))
  | PExchange, Origin world =>
      let result := fetch_admitted world (k_url key) (rq_max_bytes rq) (k_resource key)
                      (k_accepted_content_types key) (k_body_validation key) stale in
      Some (with_load 1 (-1) c, TStore rq guard background result, [],
            match result with Ok outcome => [(key, outcome)] | _ => [] end)
  | _, _ => None
  end.

(** [store_leader_result], up to the publication; a background failure is marked
    before it. *)
Definition advance_store (now : Z) (c : ProviderFetchCache) (rq : Request) (guard : Guard) (background : bool)
    (result : Res HttpError ProviderOriginOutcome) : option Step :=
  let key := rq_key rq in
  match result with
  | Ok (Negative negative) =>
      stay (put_negative now key negative c)
        (TPublish rq guard background (FoError (provider_negative_error (fn_status negative))))
  | Ok (Modified fetched) | Ok (NotModified fetched) =>
      stay (put_found now key fetched c) (TPublish rq guard background (FoResource (ProvidedResource_fetched fetched)))
  | Err error =>
      let c := if background then mark_stale_revalidation_failure now key c else c in
      stay c (TPublish rq guard background (FoError error))
  | Panic => stay (release_leader guard c) TGone
  end.

Definition advance (now : Z) (choice : Choice) (c : ProviderFetchCache) (t : Task) : option Step :=
  match t, choice with
  | TLookup rq, Go =>
      match get now (rq_key rq) c with
      | Some (entry, Stale) => stay c (TAllowed rq entry now)
      | Some (entry, _) => stay c (TReturn rq entry now)
      | None => stay c (TBegin rq)
      end
  | TAllowed rq entry t, Go =>
      let '(allowed, c) := stale_revalidation_allowed now (rq_key rq) c in
      stay c (if allowed then TSpawnBegin rq entry t else TReturn rq entry t)
  | TSpawnBegin rq entry t, Go =>
      let '(flight, c) := begin_fetch (rq_key rq) c in
      stay c (match flight with FlightLeader guard => TAllowedLeader rq entry t guard | FlightFollower _ => TReturn rq entry t end)
  | TAllowedLeader rq entry t guard, Go =>
      let '(allowed, c) := stale_revalidation_allowed now (rq_key rq) c in
      if allowed then stay c (TSpawn rq entry t guard) else stay (release_leader guard c) (TReturn rq entry t)
  | TSpawn rq entry t guard, Go =>
      match stale_representation now (rq_key rq) c with
      | Some stale => Some (c, TReturn rq entry t, [TFetch rq guard (Some stale) PReserve], [])
      | None => stay (release_leader guard c) (TReturn rq entry t)
      end
  | TReturn rq entry t, Go => stay c (TDone rq (into_result now entry) (ByCache t))
  | TBegin rq, Go =>
      let '(flight, c) := begin_fetch (rq_key rq) c in
      stay c (match flight with FlightLeader guard => TRecheck rq guard | FlightFollower follower => TWait rq follower end)
  | TRecheck rq guard, Go =>
      match get now (rq_key rq) c with
      | Some _ => stay (release_leader guard c) (TLookup rq)
      | None => stay c (TFetch rq guard None PReserve)
      end
  | TFetch rq guard stale phase, _ => advance_fetch choice c rq guard stale phase
  | TStore rq guard background result, Go => advance_store now c rq guard background result
  | TPublish rq guard background outcome, Go =>
      stay (with_flights (complete_with guard outcome (pc_inflight c)) c)
        (if background then TGone else TDone rq (flight_answer outcome) ByFlight)
  | TWait rq follower, Go =>
      outcome ← wait_poll follower (pc_inflight c);
      stay c (match outcome with Some outcome => TDone rq (flight_answer outcome) ByFlight | None => TLookup rq end)
  | _, _ => None
  end.

(** A request is dropped where it awaits: its guard, slot and permit go with it. *)
Definition abandon (c : ProviderFetchCache) (t : Task) : option ProviderFetchCache :=
  match t with
  | TLookup _ | TWait _ _ => Some c
  | TFetch _ guard None PQueued => Some (release_leader guard (with_load 0 (-1) c))
  | TFetch _ guard None PExchange => Some (release_leader guard (with_load 1 (-1) c))
  | _ => None
  end.

Record PState := { ps_now : Z; ps_cache : ProviderFetchCache; ps_tasks : list Task; ps_log : Log }.
Definition PState_init : PState :=
  {| ps_now := 0; ps_cache := ProviderFetchCache_new; ps_tasks := []; ps_log := [] |}.

Inductive Event :=
  | EvTick (elapsed : Z)
  | EvArrive (rq : Request)
  | EvEvict (key : Key)
  | EvEvictFailure (key : Key)
  | EvRun (task : nat) (choice : Choice)
  | EvCancel (task : nat).

Definition event_ok (e : Event) : Prop :=
  match e with
  | EvTick elapsed => 0 <= elapsed
  | EvArrive rq => 0 <= rq_max_bytes rq < u64_max
  | EvRun _ (Origin world) => origin_clock world
  | _ => True
  end.

Definition pstep (e : Event) (s : PState) : option PState :=
  match e with
  | EvTick elapsed => Some {| ps_now := ps_now s + elapsed; ps_cache := ps_cache s; ps_tasks := ps_tasks s; ps_log := ps_log s |}
  | EvArrive rq =>
      Some {| ps_now := ps_now s; ps_cache := ps_cache s; ps_tasks := ps_tasks s ++ [TLookup rq]; ps_log := ps_log s |}
  | EvEvict key =>
      Some {| ps_now := ps_now s; ps_cache := with_entries (delete key) (ps_cache s); ps_tasks := ps_tasks s; ps_log := ps_log s |}
  | EvEvictFailure key =>
      Some {| ps_now := ps_now s; ps_cache := with_failed (delete key) (ps_cache s); ps_tasks := ps_tasks s; ps_log := ps_log s |}
  | EvRun i choice =>
      t ← ps_tasks s !! i;
      '(c, t', spawned, logged) ← advance (ps_now s) choice (ps_cache s) t;
      Some {| ps_now := ps_now s; ps_cache := c; ps_tasks := <[i := t']> (ps_tasks s) ++ spawned;
              ps_log := ps_log s ++ logged |}
  | EvCancel i =>
      t ← ps_tasks s !! i;
      c ← abandon (ps_cache s) t;
      Some {| ps_now := ps_now s; ps_cache := c; ps_tasks := <[i := TGone]> (ps_tasks s); ps_log := ps_log s |}
  end.

Inductive reachable : PState -> Prop :=
  | reachable_init : reachable PState_init
  | reachable_step e s s' : reachable s -> event_ok e -> pstep e s = Some s' -> reachable s'.
End Machine.

(** The cases of one step of a task. *)
Ltac adv_cases Hadv :=
  cbn in Hadv;
  unfold advance_fetch, advance_store, begin_fetch, stale_revalidation_allowed, stay in Hadv;
  try (apply bind_Some in Hadv as (? & ? & Hadv));
  simplify_eq/=; repeat (case_match; simplify_eq/=).

(** ** Invariant *)

Section Invariant.
Context `{ProviderExternals}.
Abbreviation Log := (list (Key * ProviderOriginOutcome)).
Implicit Types (log : Log) (k : Key) (c : ProviderFetchCache) (now : Z).

Definition from_log log k (f : FetchedProviderResource) : Prop := (k, Modified f) ∈ log \/ (k, NotModified f) ∈ log.

(** The origin of the key delivered these bytes. *)
Definition delivered log k (bytes : bytes) : Prop := exists f, (k, Modified f) ∈ log /\ fr_bytes f = bytes.

Definition stale_ok log k (stale : option CachedProviderRepresentation) : Prop :=
  forall cached, stale = Some cached -> delivered log k (cr_bytes cached).

(** Logged outcomes are those of fetches of their key. *)
Definition logged_ok log (logged : Key * ProviderOriginOutcome) : Prop :=
  let '(k, outcome) := logged in
  (exists world max_bytes stale,
     fetch_admitted world (k_url k) max_bytes (k_resource k) (k_accepted_content_types k) (k_body_validation k) stale =
       Ok outcome) /\
  match outcome with
  | Modified f | NotModified f => delivered log k (fr_bytes f)
  | Negative n => fn_status n = NOT_FOUND \/ fn_status n = GONE
  end.

Definition error_ok log k (e : HttpError) : Prop :=
  (e.1 = BAD_GATEWAY \/ e.1 = SERVICE_UNAVAILABLE \/ e.1 = GATEWAY_TIMEOUT) \/
  exists n, (k, Negative n) ∈ log /\ e = provider_negative_error (fn_status n).

Definition outcome_ok log k (o : ProviderFlightOutcome) : Prop :=
  match o with
  | FoResource r => exists f, from_log log k f /\ r = ProvidedResource_fetched f
  | FoError e => error_ok log k e
  end.

Record negative_wf (n : FetchedProviderNegative) : Prop := {
  nw_age : 0 <= fn_initial_age n;
  nw_policy : exists values, fn_policy n = negative_cache_policy_values values }.

Definition result_ok log k (r : Res HttpError ProviderOriginOutcome) : Prop :=
  match r with
  | Ok (Negative n) => (k, Negative n) ∈ log /\ negative_wf n
  | Ok (Modified f) | Ok (NotModified f) => from_log log k f /\ fetched_wf (k_resource k) f
  | Err e => error_ok log k e
  | Panic => False
  end.

(** An entry is what an origin answered, with the windows of its policy. *)
Definition entry_ok log now k (e : CachedProviderFetch) : Prop :=
  match e with
  | CFound bytes cc validators encoding age stored fresh_until stale_until =>
      exists f, from_log log k f /\ fetched_wf (k_resource k) f /\ cp_store (fr_policy f) = true /\
        bytes = fr_bytes f /\ cc = cp_response_cache_control (fr_policy f) /\ validators = fr_validators f /\
        encoding = fr_content_encoding f /\ age = fr_initial_age f /\ stored <= now /\
        fresh_until = stored + saturating_sub (cp_fresh (fr_policy f)) age /\
        stale_until = stored + saturating_sub (cp_fresh (fr_policy f) + cp_swr (fr_policy f)) age
  | CNegative status fresh_until stale_until =>
      exists n stored, (k, Negative n) ∈ log /\ negative_wf n /\ np_store (fn_policy n) = true /\
        status = fn_status n /\ stored <= now /\
        fresh_until = stored + saturating_sub (np_fresh (fn_policy n)) (fn_initial_age n) /\ stale_until = fresh_until
  end.

Definition answer_ok log now k (answer : Res HttpError ProvidedResource) (p : Provenance) : Prop :=
  match p with
  | ByFlight => exists o, answer = flight_answer o /\ outcome_ok log k o
  | ByCache looked_up =>
      exists e answered, looked_up <= answered <= now /\ entry_ok log looked_up k e /\
        freshness looked_up e <> Expired /\ answer = into_result answered e
  end.

(** A follower has its flight, or the outcome of its ended flight. *)
Definition wait_ok log k (f : Follower) (sf : SingleFlight Key ProviderFlightOutcome) : Prop :=
  follows k f sf \/
  exists ch, sf_channels sf !! fo_receiver f = Some ch /\ ch_open ch = false /\
    forall o, ch_value ch = Some o -> outcome_ok log k o.

Definition guard_ok (rq : Request) (g : Guard) : Prop := g = {| lg_key := rq_key rq; lg_outcome := None |}.
Definition request_ok (rq : Request) : Prop := 0 <= rq_max_bytes rq < u64_max.
Definition looked log now (rq : Request) (e : CachedProviderFetch) (t : Z) : Prop :=
  request_ok rq /\ t <= now /\ entry_ok log t (rq_key rq) e /\ freshness t e <> Expired.

Definition task_ok log now c (t : Task) : Prop :=
  match t with
  | TLookup rq | TBegin rq => request_ok rq
  | TAllowed rq e t | TSpawnBegin rq e t | TReturn rq e t => looked log now rq e t
  | TAllowedLeader rq e t g => looked log now rq e t /\ guard_ok rq g
  | TSpawn rq e t g => looked log now rq e t /\ guard_ok rq g /\ pc_failed_revalidations c !! rq_key rq = None
  | TRecheck rq g => request_ok rq /\ guard_ok rq g
  | TFetch rq g stale _ => request_ok rq /\ guard_ok rq g /\ stale_ok log (rq_key rq) stale
  | TStore rq g _ r => guard_ok rq g /\ result_ok log (rq_key rq) r
  | TPublish rq g _ o => guard_ok rq g /\ outcome_ok log (rq_key rq) o
  | TWait rq f => request_ok rq /\ wait_ok log (rq_key rq) f (pc_inflight c)
  | TDone rq answer p => answer_ok log now (rq_key rq) answer p
  | TGone => True
  end.

(** The key whose flight a task leads. *)
Definition guard_of (t : Task) : option Key :=
  match t with
  | TAllowedLeader _ _ _ g | TSpawn _ _ _ g | TRecheck _ g | TFetch _ g _ _ | TStore _ g _ _ | TPublish _ g _ _ =>
      Some (lg_key g)
  | _ => None
  end.

Definition counted (t : Task) : Z :=
  match t with TFetch _ _ _ (POver | PQueued | PExchange) => 1 | _ => 0 end.
Definition admitted (t : Task) : Z := match t with TFetch _ _ _ (PQueued | PExchange) => 1 | _ => 0 end.
Definition exchanging (t : Task) : Z := match t with TFetch _ _ _ PExchange => 1 | _ => 0 end.
Fixpoint total (f : Task -> Z) (tasks : list Task) : Z :=
  match tasks with [] => 0 | t :: tasks => f t + total f tasks end.

Lemma total_app f l l' : total f (l ++ l') = total f l + total f l'.
Proof. induction l as [|t l IH]; cbn; [done|]. rewrite IH. lia. Qed.
#[local] Instance total_perm f : Proper ((≡ₚ) ==> eq) (total f).
Proof. intros l l' Hl. induction Hl; cbn; lia. Qed.
Lemma total_le f g l : (forall t, f t <= g t) -> total f l <= total g l.
Proof. intros Hfg. induction l as [|t l IH]; cbn; [lia|]. specialize (Hfg t). lia. Qed.
Lemma total_nonneg f l : (forall t, 0 <= f t) -> 0 <= total f l.
Proof. intros Hf. induction l as [|t l IH]; cbn; [lia|]. specialize (Hf t). lia. Qed.

(** A step replaces one task by a task and what it spawned. *)
Lemma tasks_replace (tasks : list Task) i t t' sp :
  tasks !! i = Some t ->
  tasks ≡ₚ t :: delete i tasks /\ <[i := t']> tasks ++ sp ≡ₚ (t' :: sp) ++ delete i tasks.
Proof.
  intros Hi. split; [by apply delete_Permutation|].
  rewrite (delete_Permutation (<[i := t']> tasks) i t') by (apply list_lookup_insert_eq; by eapply lookup_lt_Some).
  replace (delete i (<[i := t']> tasks)) with (delete i tasks).
  - cbn. f_equiv. apply Permutation_app_comm.
  - clear. revert i. induction tasks as [|u l IH]; intros [|i]; cbn; [done..|]. by rewrite <- IH.
Qed.

Record pinv (s : PState) : Prop := {
  pi_flights : sf_wf (pc_inflight (ps_cache s));
  pi_guards : NoDup (omap guard_of (ps_tasks s));
  pi_held : forall k, k ∈ omap guard_of (ps_tasks s) <-> is_Some (sf_entries (pc_inflight (ps_cache s)) !! k);
  pi_entries : map_Forall (entry_ok (ps_log s) (ps_now s)) (pc_entries (ps_cache s));
  pi_tasks : Forall (task_ok (ps_log s) (ps_now s) (ps_cache s)) (ps_tasks s);
  pi_log : Forall (logged_ok (ps_log s)) (ps_log s);
  pi_slots : pc_fetch_inflight (ps_cache s) = total counted (ps_tasks s);
  pi_admitted : total admitted (ps_tasks s) <= PROVIDER_FETCH_MAX_INFLIGHT;
  pi_permits : pc_fetch_semaphore (ps_cache s) + total exchanging (ps_tasks s) = PROVIDER_FETCH_CONCURRENCY;
  pi_semaphore : 0 <= pc_fetch_semaphore (ps_cache s) }.

(** ** Monotonicity *)

Lemma from_log_mono log log' k f : log ⊆ log' -> from_log log k f -> from_log log' k f.
Proof. intros Hl [Hf|Hf]; [left|right]; by apply Hl. Qed.
Lemma stale_ok_mono log log' k stale : log ⊆ log' -> stale_ok log k stale -> stale_ok log' k stale.
Proof. intros Hl Hs cached ->. destruct (Hs cached eq_refl) as (f & Hf & He). exists f. auto. Qed.
Lemma logged_ok_mono log log' x : log ⊆ log' -> logged_ok log x -> logged_ok log' x.
Proof.
  intros Hl. destruct x as [k [f|f|n]]; cbn; [..|done]; intros [Hf (f0 & Hin & He)]; (split; [done|]); exists f0; auto.
Qed.
Lemma error_ok_mono log log' k e : log ⊆ log' -> error_ok log k e -> error_ok log' k e.
Proof. intros Hl [He|(n & Hn & ->)]; [by left|right]. eauto. Qed.
Lemma outcome_ok_mono log log' k o : log ⊆ log' -> outcome_ok log k o -> outcome_ok log' k o.
Proof.
  intros Hl. destruct o; cbn; [by apply error_ok_mono|]. intros (f & Hf & ->). eauto using from_log_mono.
Qed.
Lemma result_ok_mono log log' k r : log ⊆ log' -> result_ok log k r -> result_ok log' k r.
Proof.
  intros Hl. destruct r as [[f|f|n]|e|]; cbn; [..|done]; [intuition eauto using from_log_mono..|].
  by apply error_ok_mono.
Qed.
Lemma entry_ok_mono log log' now now' k e :
  log ⊆ log' -> now <= now' -> entry_ok log now k e -> entry_ok log' now' k e.
Proof.
  intros Hl Hn. destruct e; cbn.
  - intros (f & Hf & Hrest). exists f. split; [by eapply from_log_mono|]. destruct_and!. split_and!; try done; lia.
  - intros (n & t & Hf & Hrest). exists n, t. split; [by apply Hl|]. destruct_and!. split_and!; try done; lia.
Qed.
Lemma answer_ok_mono log log' now now' k a p :
  log ⊆ log' -> now <= now' -> answer_ok log now k a p -> answer_ok log' now' k a p.
Proof.
  intros Hl Hn. destruct p as [|t]; cbn.
  - intros (o & -> & Ho). eauto using outcome_ok_mono.
  - intros (e & a' & Ht & He & Hf & ->). exists e, a'. split; [lia|].
    split; [by eapply entry_ok_mono|]. done.
Qed.
Lemma wait_ok_mono log log' k f sf : log ⊆ log' -> wait_ok log k f sf -> wait_ok log' k f sf.
Proof. intros Hl [?|(ch & ? & ? & Hv)]; [by left|right]. exists ch. split_and!; eauto using outcome_ok_mono. Qed.
Lemma looked_mono log log' now now' rq e t :
  log ⊆ log' -> now <= now' -> looked log now rq e t -> looked log' now' rq e t.
Proof. intros Hl Hn (? & ? & He & ?). split_and!; [done|lia|by eapply entry_ok_mono|done]. Qed.

Lemma task_ok_mono log log' now now' c c' t :
  log ⊆ log' -> now <= now' ->
  (forall k, guard_of t = Some k -> pc_failed_revalidations c !! k = None -> pc_failed_revalidations c' !! k = None) ->
  (forall k f, wait_ok log k f (pc_inflight c) -> wait_ok log' k f (pc_inflight c')) ->
  task_ok log now c t -> task_ok log' now' c' t.
Proof.
  intros Hl Hn Hfail Hwait. destruct t; cbn;
    try (intuition eauto using looked_mono, stale_ok_mono, result_ok_mono, outcome_ok_mono, answer_ok_mono; fail).
  intros (Hlk & Hg & Hf). split_and!; [by eapply looked_mono|done|]. apply Hfail; [|done]. cbn. by rewrite Hg.
Qed.

(** ** Flights *)

(** What a step does to the flights, with the keys its tasks lead before and after. *)
Inductive flights_step log (sf sf' : SingleFlight Key ProviderFlightOutcome) (before : option Key) (after : list Key) : Prop :=
  | FsSame : sf' = sf -> after = option_list before -> flights_step log sf sf' before after
  | FsAcquire k g : before = None -> after = [k] -> begin k sf = (FlightLeader g, sf') -> flights_step log sf sf' before after
  | FsFollow k f : before = None -> after = [] -> begin k sf = (FlightFollower f, sf') -> flights_step log sf sf' before after
  | FsRelease g : before = Some (lg_key g) -> after = [] -> sf' = drop_guard g sf ->
      (forall o, lg_outcome g = Some o -> outcome_ok log (lg_key g) o) -> flights_step log sf sf' before after.

Lemma flights_step_wf log sf sf' before after :
  sf_wf sf -> flights_step log sf sf' before after -> sf_wf sf'.
Proof.
  intros Hwf [-> _|k g _ _ Hb|k f _ _ Hb|g _ _ -> _]; [done|..|by apply drop_guard_wf];
    by pose proof (begin_spec k sf Hwf) as [Hw _]; rewrite Hb in Hw.
Qed.

Lemma flights_step_guards log sf sf' before after rest :
  sf_wf sf -> flights_step log sf sf' before after ->
  NoDup (option_list before ++ rest) ->
  (forall k, k ∈ option_list before ++ rest <-> is_Some (sf_entries sf !! k)) ->
  NoDup (after ++ rest) /\ (forall k, k ∈ after ++ rest <-> is_Some (sf_entries sf' !! k)).
Proof.
  intros Hwf Hs Hnd Hk. destruct Hs as [-> ->|k g -> -> Hb|k f -> -> Hb|g -> -> -> _]; [done|..].
  - pose proof (begin_spec k sf Hwf) as [_ Hbegin]. rewrite Hb in Hbegin. destruct Hbegin as (Hnone & _ & He & _).
    cbn in *. split.
    + constructor; [|done]. intros Hin. apply Hk in Hin. rewrite Hnone in Hin. by destruct Hin.
    + intros k'. rewrite He, elem_of_cons, Hk, lookup_insert_is_Some. destruct (decide (k = k')); intuition congruence.
  - pose proof (begin_spec k sf Hwf) as [_ Hbegin]. rewrite Hb in Hbegin. cbn in Hbegin.
    destruct Hbegin as [-> _]. done.
  - cbn in *. apply NoDup_cons in Hnd as [Hnin Hnd]. split; [done|]. intros k'.
    rewrite drop_guard_entries, lookup_delete_is_Some, <- Hk, elem_of_cons. intuition congruence.
Qed.

Lemma drop_guard_wait log g sf k f :
  sf_wf sf -> (forall o, lg_outcome g = Some o -> outcome_ok log (lg_key g) o) ->
  wait_ok log k f sf -> wait_ok log k f (drop_guard g sf).
Proof.
  intros Hwf Ho [Hf|(ch & Hch & Hopen & Hv)].
  - destruct (decide (k = lg_key g)) as [->|Hne]; [|left; by apply drop_guard_follows].
    right. destruct Hf as [Hf Hseen]. unfold drop_guard. rewrite Hf. cbn.
    rewrite list_lookup_alter_eq, (wf_entry sf Hwf _ _ Hf). cbn. eexists. split; [done|].
    destruct (lg_outcome g) as [o|]; cbn; [|done]. split; [done|]. intros o' [= <-]. by apply Ho.
  - right. unfold drop_guard. destruct (sf_entries sf !! lg_key g) as [sender|] eqn:Hs; [|by eauto]. cbn.
    rewrite list_lookup_alter_ne; [by eauto|]. intros ->. apply (wf_entry sf Hwf) in Hs.
    rewrite Hs in Hch. injection Hch as <-. done.
Qed.

Lemma begin_wait log k0 sf k f : wait_ok log k f sf -> wait_ok log k f (begin k0 sf).2.
Proof.
  intros [Hf|(ch & Hch & Hopen & Hv)]; [left; by apply begin_follows|right].
  unfold begin. destruct (sf_entries sf !! k0); cbn; [by eauto|].
  rewrite lookup_app_l by (by eapply lookup_lt_Some). eauto.
Qed.

Lemma flights_step_wait log sf sf' before after k f :
  sf_wf sf -> flights_step log sf sf' before after -> wait_ok log k f sf -> wait_ok log k f sf'.
Proof.
  intros Hwf [-> _|k0 g _ _ Hb|k0 f0 _ _ Hb|g _ _ -> Ho] Hw; [done|..|by apply drop_guard_wait];
    by apply (begin_wait _ k0) in Hw; rewrite Hb in Hw.
Qed.

(** ** One step of a task *)

Lemma put_found_flights now k f c : pc_inflight (put_found now k f c) = pc_inflight c.
Proof. unfold put_found. by repeat case_match. Qed.
Lemma put_negative_flights now k n c : pc_inflight (put_negative now k n c) = pc_inflight c.
Proof. unfold put_negative. by repeat case_match. Qed.
Lemma mark_flights now k c : pc_inflight (mark_stale_revalidation_failure now k c) = pc_inflight c.
Proof. unfold mark_stale_revalidation_failure. by repeat case_match. Qed.

Lemma begin_leader k (sf sf' : SingleFlight Key ProviderFlightOutcome) g :
  begin k sf = (FlightLeader g, sf') -> g = {| lg_key := k; lg_outcome := None |}.
Proof. unfold begin. case_match; congruence. Qed.

Lemma advance_flights log now choice c t c' t' sp lg :
  advance now choice c t = Some (c', t', sp, lg) -> task_ok log now c t ->
  flights_step log (pc_inflight c) (pc_inflight c') (guard_of t) (omap guard_of (t' :: sp)).
Proof.
  intros Hadv Hok. destruct t, choice; try discriminate Hadv; cbn in Hok; adv_cases Hadv;
    try (apply FsSame; cbn; rewrite ?put_found_flights, ?put_negative_flights, ?mark_flights; done);
    try (eapply FsRelease; [done..|]; destruct_and!;
         match goal with H : guard_ok _ _ |- _ => rewrite H end; naive_solver);
    try (eapply FsFollow; done);
    try (match goal with H : begin _ _ = (FlightLeader _, _) |- _ =>
           pose proof (begin_leader _ _ _ _ H); simplify_eq/=; by eapply FsAcquire end);
    destruct Hok as [-> Ho]; by eapply (FsRelease _ _ _ _ _ {| lg_key := rq_key rq; lg_outcome := Some outcome |});
      [..|intros o [= <-]].
Qed.

(** The cooldown of a key is set only by the task that leads its flight. *)
Lemma advance_failed now choice c t c' t' sp lg log :
  advance now choice c t = Some (c', t', sp, lg) -> task_ok log now c t ->
  forall k, guard_of t <> Some k ->
    pc_failed_revalidations c !! k = None -> pc_failed_revalidations c' !! k = None.
Proof.
  intros Hadv Hok k Hk Hnone. destruct t, choice; try discriminate Hadv; cbn in Hok; adv_cases Hadv; try done.
  all: unfold put_found, put_negative, mark_stale_revalidation_failure, invalidate; repeat case_match; cbn.
  all: rewrite ?lookup_delete_None; auto.
  destruct Hok as [Hg _]. rewrite Hg in Hk. cbn in Hk. rewrite lookup_insert_ne; congruence.
Qed.

Lemma put_found_ok log now k f c :
  from_log log k f -> fetched_wf (k_resource k) f ->
  map_Forall (entry_ok log now) (pc_entries c) -> map_Forall (entry_ok log now) (pc_entries (put_found now k f c)).
Proof.
  intros Hf Hwf He. destruct (fetched_wf_bounds _ _ Hwf) as [Hfresh Hswr]. unfold put_found, invalidate.
  destruct (cp_store (fr_policy f)) eqn:Hstore; cbn; [|by apply map_Forall_delete].
  match goal with |- context [if ?b then _ else _] => destruct b end; cbn; [by apply map_Forall_delete|].
  apply map_Forall_insert_2; [|done]. cbn. exists f. split_and!; try done; try lia.
  unfold duration_saturating_add. rewrite Z.min_r; [done|].
  change MAX_PROVIDER_TTL with 604800000000000 in *. unfold DURATION_MAX, u64_max, nanos_per_sec. lia.
Qed.

Lemma put_negative_ok log now k n c :
  (k, Negative n) ∈ log -> negative_wf n ->
  map_Forall (entry_ok log now) (pc_entries c) -> map_Forall (entry_ok log now) (pc_entries (put_negative now k n c)).
Proof.
  intros Hn Hwf He. unfold put_negative, invalidate.
  destruct (np_store (fn_policy n)) eqn:Hstore; cbn; [|by apply map_Forall_delete].
  match goal with |- context [if ?b then _ else _] => destruct b end; cbn; [by apply map_Forall_delete|].
  apply map_Forall_insert_2; [|done]. cbn. exists n, now. split_and!; try done; lia.
Qed.

Lemma mark_ok log now k c :
  map_Forall (entry_ok log now) (pc_entries c) ->
  map_Forall (entry_ok log now) (pc_entries (mark_stale_revalidation_failure now k c)).
Proof.
  intros He. unfold mark_stale_revalidation_failure, invalidate. repeat case_match; cbn; try done.
  by apply map_Forall_delete.
Qed.

Lemma entries_ok_mono log log' now now' (m : gmap Key CachedProviderFetch) :
  log ⊆ log' -> now <= now' -> map_Forall (entry_ok log now) m -> map_Forall (entry_ok log' now') m.
Proof. intros Hl Hn Hm k e He. eapply entry_ok_mono; [done|done|]. by apply Hm. Qed.

Lemma advance_entries log now choice c t c' t' sp lg :
  advance now choice c t = Some (c', t', sp, lg) -> task_ok log now c t ->
  map_Forall (entry_ok log now) (pc_entries c) -> map_Forall (entry_ok (log ++ lg) now) (pc_entries c').
Proof.
  intros Hadv Hok He. apply (entries_ok_mono log _ now); [by apply list_subseteq_app_l|lia|].
  destruct t, choice; try discriminate Hadv; cbn in Hok; adv_cases Hadv; try done;
    destruct_and?; auto using put_found_ok, put_negative_ok, mark_ok.
Qed.

Lemma advance_load now choice c t c' t' sp lg :
  advance now choice c t = Some (c', t', sp, lg) ->
  pc_fetch_inflight c' + counted t = pc_fetch_inflight c + total counted (t' :: sp) /\
  pc_fetch_semaphore c' + total exchanging (t' :: sp) = pc_fetch_semaphore c + exchanging t /\
  (0 <= pc_fetch_semaphore c -> 0 <= pc_fetch_semaphore c') /\
  (total admitted (t' :: sp) <= admitted t \/
   pc_fetch_inflight c < PROVIDER_FETCH_MAX_INFLIGHT /\ admitted t = 0 /\ total admitted (t' :: sp) = 1).
Proof.
  intros Hadv. destruct t, choice; try discriminate Hadv; adv_cases Hadv;
    unfold put_found, put_negative, mark_stale_revalidation_failure, invalidate; repeat case_match; cbn; try lia.
Qed.

Lemma get_looked log now rq c e f :
  request_ok rq -> map_Forall (entry_ok log now) (pc_entries c) ->
  get now (rq_key rq) c = Some (e, f) -> looked log now rq e now.
Proof.
  intros Hrq He Hget. unfold get in Hget. apply bind_Some in Hget as (e' & He' & Hget).
  assert (e' = e /\ freshness now e' = f /\ f <> Expired) as (-> & Hf & Hne) by (destruct (freshness now e') eqn:E; naive_solver).
  split_and!; [done|lia| |congruence]. by apply He.
Qed.

(** What an origin answered is logged, and right. *)
Lemma exchange_result_ok log rq world stale :
  let key := rq_key rq in
  let result := fetch_admitted world (k_url key) (rq_max_bytes rq) (k_resource key)
                  (k_accepted_content_types key) (k_body_validation key) stale in
  request_ok rq -> origin_clock world ->
  result_ok (log ++ match result with Ok outcome => [(key, outcome)] | _ => [] end) key result.
Proof.
  intros key result Hrq Hw.
  pose proof (fetch_admitted_result world (k_url key) (rq_max_bytes rq) (k_resource key)
                (k_accepted_content_types key) (k_body_validation key) stale Hrq Hw) as Hr.
  fold result in Hr. destruct result as [[f|f|n]|e|]; cbn in *.
  - split; [left; apply elem_of_app; right; by left|apply Hr].
  - split; [right; apply elem_of_app; right; by left|apply Hr].
  - split; [apply elem_of_app; right; by left|]. destruct Hr as (_ & ? & ?). by split.
  - left. by left.
  - done.
Qed.

Lemma fetch_error_ok log rq : error_ok log (rq_key rq) (queue_full rq) /\ error_ok log (rq_key rq) (timed_out rq).
Proof. split; left; cbn; auto. Qed.

Lemma wait_poll_ok log rq f sf o :
  sf_wf sf -> wait_ok log (rq_key rq) f sf -> wait_poll f sf = Some (Some o) -> outcome_ok log (rq_key rq) o.
Proof.
  intros Hwf [Hf|(ch & Hch & Hopen & Hv)] Hp; [by rewrite (wait_poll_follows _ _ _ Hwf Hf) in Hp|].
  unfold wait_poll in Hp. rewrite Hch, Hopen in Hp. cbn in Hp. rewrite orb_true_r in Hp. injection Hp as Hp. auto.
Qed.

Lemma stale_representation_ok log now k c stale :
  map_Forall (entry_ok log now) (pc_entries c) -> Forall (logged_ok log) log ->
  stale_representation now k c = Some stale -> stale_ok log k (Some stale).
Proof.
  intros He Hlog Hs cached [= <-]. unfold stale_representation, get in Hs.
  destruct (pc_entries c !! k) as [e|] eqn:Hk; cbn in Hs; [|done]. apply He in Hk.
  destruct (freshness now e); try done. destruct e; cbn in *; [|done]. injection Hs as <-. cbn.
  destruct Hk as (f & Hf & _ & _ & -> & _). rewrite Forall_forall in Hlog.
  destruct Hf as [Hf|Hf]; apply Hlog in Hf; apply Hf.
Qed.

Lemma advance_log log now choice c t c' t' sp lg :
  advance now choice c t = Some (c', t', sp, lg) ->
  match choice with Origin world => origin_clock world | _ => True end ->
  task_ok log now c t -> Forall (logged_ok log) log -> Forall (logged_ok (log ++ lg)) (log ++ lg).
Proof.
  intros Hadv Hw Hok Hlog. apply Forall_app. split.
  { eapply Forall_impl; [exact Hlog|]. intros x. by apply logged_ok_mono, list_subseteq_app_l. }
  destruct t, choice; try discriminate Hadv; cbn in Hok; adv_cases Hadv; try apply Forall_nil_2.
  apply Forall_singleton. split; [by eauto|]. destruct Hok as (Hrq & _ & Hst).
  match goal with Hr : fetch_admitted ?w ?u ?m ?r ?a ?v ?st = Ok ?x |- _ =>
    pose proof (fetch_admitted_result w u m r a v st Hrq Hw) as Ho; rewrite Hr in Ho; destruct x as [f|f|n]; cbn in Ho end.
  - exists f. split; [|done]. apply elem_of_app. right. by left.
  - destruct Ho as (_ & cached & -> & ->). destruct (Hst cached eq_refl) as (f0 & Hin & He0). exists f0.
    split; [|done]. apply elem_of_app. by left.
  - apply Ho.
Qed.

Lemma advance_tasks log now choice c t c' t' sp lg :
  advance now choice c t = Some (c', t', sp, lg) ->
  match choice with Origin world => origin_clock world | _ => True end ->
  sf_wf (pc_inflight c) -> map_Forall (entry_ok log now) (pc_entries c) -> Forall (logged_ok log) log ->
  task_ok log now c t ->
  Forall (task_ok (log ++ lg) now c') (t' :: sp).
Proof.
  intros Hadv Hw Hwf He Hlog Hok. destruct t; try discriminate Hadv.
  all: destruct choice; try discriminate Hadv; cbn in Hok; adv_cases Hadv; rewrite ?app_nil_r.
  all: repeat apply Forall_cons_2; try apply Forall_nil_2; cbn; try done.
  all: try (by eapply get_looked).
  all: try (destruct Hok as ((? & _) & ? & ?); split_and!; [done..|]; by eapply stale_representation_ok).
  all: try (match goal with Hb : begin _ _ = (FlightLeader _, _) |- _ => apply begin_leader in Hb end; by split).
  all: try (split; [apply Hok|apply fetch_error_ok]).
  all: try (match goal with Hr : fetch_admitted ?w _ _ _ _ _ ?st = _ |- _ =>
              pose proof (exchange_result_ok log rq w st (proj1 Hok) Hw) as Hx; cbn in Hx; rewrite Hr in Hx;
              rewrite ?app_nil_r in Hx; split; [apply Hok|exact Hx] end).
  all: try (split_and!; try apply Hok; by rewrite ?lookup_delete_eq).
  - destruct Hok as (_ & Ht & He' & Hf). exists entry, now. split_and!; [lia|lia|done..].
  - split; [done|]. left. pose proof (begin_spec (rq_key rq) (pc_inflight c) Hwf) as [_ Hb].
    match goal with Hb' : begin _ _ = _ |- _ => rewrite Hb' in Hb end. cbn in Hb. by destruct Hb as [-> ?].
  - destruct Hok as [? [Hf _]]. eauto.
  - destruct Hok as [? [Hf _]]. eauto.
  - destruct Hok as [? [Hn _]]. split; [done|]. right. eauto.
  - exists outcome. split; [done|apply Hok].
  - exists p. split; [done|]. destruct Hok as [_ Hok]. by eapply wait_poll_ok.
Qed.

(** ** Every step keeps the invariant *)

Lemma pinv_init : pinv PState_init.
Proof.
  split; cbn; [apply default_wf|apply NoDup_nil_2|..|done|done|done|done].
  - intros k. rewrite lookup_empty. split; [by intros ?%elem_of_nil|by intros []].
  - apply map_Forall_empty.
  - apply Forall_nil_2.
  - apply Forall_nil_2.
Qed.

Lemma pinv_now s d :
  0 <= d -> pinv s ->
  pinv {| ps_now := ps_now s + d; ps_cache := ps_cache s; ps_tasks := ps_tasks s; ps_log := ps_log s |}.
Proof.
  intros Hd [Hf Hg Hh He Ht Hs Ha Hp Hsem]. split; cbn; try done.
  - apply (entries_ok_mono (ps_log s) _ (ps_now s)); [done|lia|done].
  - eapply Forall_impl; [exact Ht|]. intros t. by apply task_ok_mono; [|lia|..].
Qed.

(** Eviction of an entry, or of a cooldown. *)
Lemma pinv_evict s k :
  pinv s ->
  pinv {| ps_now := ps_now s; ps_cache := with_entries (delete k) (ps_cache s); ps_tasks := ps_tasks s; ps_log := ps_log s |} /\
  pinv {| ps_now := ps_now s; ps_cache := with_failed (delete k) (ps_cache s); ps_tasks := ps_tasks s; ps_log := ps_log s |}.
Proof.
  intros [Hf Hg Hh He Ht Hlog Hs Ha Hp Hsem]. split; split; cbn; try done.
  - by apply map_Forall_delete.
  - eapply Forall_impl; [exact Ht|]. intros t. apply task_ok_mono; auto; [lia|].
    intros k' _ Hk'. cbn. apply lookup_delete_None. auto.
Qed.

Lemma pinv_arrive s rq :
  request_ok rq -> pinv s ->
  pinv {| ps_now := ps_now s; ps_cache := ps_cache s; ps_tasks := ps_tasks s ++ [TLookup rq]; ps_log := ps_log s |}.
Proof.
  intros Hrq [Hf Hg Hh He Ht Hs Ha Hp Hsem]. split; cbn; try done.
  - rewrite omap_app. cbn. by rewrite app_nil_r.
  - intros k. rewrite omap_app. cbn. by rewrite app_nil_r.
  - apply Forall_app. split; [done|]. by apply Forall_singleton.
  - rewrite total_app. cbn. lia.
  - rewrite total_app. cbn. lia.
  - rewrite total_app. cbn. lia.
Qed.

(** One task is replaced, by a step that does right by its own state. *)
Lemma pinv_replace s i t t' sp c' lg :
  pinv s -> ps_tasks s !! i = Some t ->
  flights_step (ps_log s) (pc_inflight (ps_cache s)) (pc_inflight c') (guard_of t) (omap guard_of (t' :: sp)) ->
  (forall k, guard_of t <> Some k ->
     pc_failed_revalidations (ps_cache s) !! k = None -> pc_failed_revalidations c' !! k = None) ->
  map_Forall (entry_ok (ps_log s ++ lg) (ps_now s)) (pc_entries c') ->
  Forall (task_ok (ps_log s ++ lg) (ps_now s) c') (t' :: sp) ->
  Forall (logged_ok (ps_log s ++ lg)) (ps_log s ++ lg) ->
  (pc_fetch_inflight c' + counted t = pc_fetch_inflight (ps_cache s) + total counted (t' :: sp) /\
   pc_fetch_semaphore c' + total exchanging (t' :: sp) = pc_fetch_semaphore (ps_cache s) + exchanging t /\
   (0 <= pc_fetch_semaphore (ps_cache s) -> 0 <= pc_fetch_semaphore c') /\
   (total admitted (t' :: sp) <= admitted t \/
    pc_fetch_inflight (ps_cache s) < PROVIDER_FETCH_MAX_INFLIGHT /\ admitted t = 0 /\ total admitted (t' :: sp) = 1)) ->
  pinv {| ps_now := ps_now s; ps_cache := c'; ps_tasks := <[i := t']> (ps_tasks s) ++ sp; ps_log := ps_log s ++ lg |}.
Proof.
  intros [Hf Hg Hh He Ht Hlog Hs Ha Hp Hsem] Hi Hfl Hfail Hent Htask Hlg (Hslots & Hperm & Hpos & Hadm).
  destruct (tasks_replace (ps_tasks s) i t t' sp Hi) as [Hbefore Hafter].
  set (rest := delete i (ps_tasks s)) in *.
  assert (Hgb : omap guard_of (ps_tasks s) ≡ₚ option_list (guard_of t) ++ omap guard_of rest).
  { rewrite Hbefore. cbn. by destruct (guard_of t). }
  assert (Hga : omap guard_of (<[i := t']> (ps_tasks s) ++ sp) ≡ₚ omap guard_of (t' :: sp) ++ omap guard_of rest).
  { rewrite Hafter. by rewrite omap_app. }
  rewrite Hgb in Hg.
  assert (Hh' : forall k, k ∈ option_list (guard_of t) ++ omap guard_of rest <->
            is_Some (sf_entries (pc_inflight (ps_cache s)) !! k)) by (intros k; by rewrite <- Hgb).
  destruct (flights_step_guards _ _ _ _ _ _ Hf Hfl Hg Hh') as [Hnd Hheld].
  rewrite Hbefore in Ht, Hs, Ha, Hp. cbn [total] in Hs, Ha, Hp. apply Forall_cons in Ht as [Hok Ht].
  assert (Hcount : total admitted rest <= total counted rest) by (apply total_le; intros []; try done; by destruct phase).
  split; cbn [ps_now ps_cache ps_tasks ps_log].
  - by eapply flights_step_wf.
  - by rewrite Hga.
  - intros k. by rewrite Hga.
  - done.
  - rewrite Hafter. apply Forall_app. split; [done|].
    apply Forall_forall. intros u Hu. rewrite Forall_forall in Ht. eapply task_ok_mono; [..|by apply Ht].
    + by apply list_subseteq_app_l.
    + lia.
    + intros k Hk. apply Hfail. intros Hkt. rewrite Hkt in Hg. cbn in Hg. apply NoDup_cons in Hg as [Hnin _].
      apply Hnin, list_elem_of_omap. eauto.
    + intros k f Hw. eapply wait_ok_mono; [by apply list_subseteq_app_l|]. by eapply flights_step_wait.
  - done.
  - rewrite Hafter, total_app. lia.
  - rewrite Hafter, total_app. assert (0 <= counted t) by (destruct t; try done; by destruct phase). lia.
  - rewrite Hafter, total_app. lia.
  - auto.
Qed.

Lemma pinv_step e s s' : event_ok e -> pstep e s = Some s' -> pinv s -> pinv s'.
Proof.
  intros He Hstep Hinv. destruct e as [d|rq|k|k|i choice|i]; cbn in *; simplify_eq.
  - by apply pinv_now.
  - by apply pinv_arrive.
  - by apply pinv_evict.
  - by apply pinv_evict.
  - apply bind_Some in Hstep as (t & Hi & Hstep). apply bind_Some in Hstep as ([[[c' t'] sp] lg] & Hadv & [= <-]).
    assert (Hok : task_ok (ps_log s) (ps_now s) (ps_cache s) t).
    { eapply Forall_forall; [apply (pi_tasks s Hinv)|]. by eapply list_elem_of_lookup_2. }
    apply (pinv_replace s i t); [done|done|by eapply advance_flights|by eapply advance_failed|..].
    + by eapply advance_entries, pi_entries.
    + eapply advance_tasks; [done| |apply (pi_flights s Hinv)|apply (pi_entries s Hinv)|apply (pi_log s Hinv)|done].
      by destruct choice.
    + eapply advance_log; [done| |done|apply (pi_log s Hinv)]. by destruct choice.
    + by eapply advance_load.
  - apply bind_Some in Hstep as (t & Hi & Hstep). apply bind_Some in Hstep as (c' & Hc & [= <-]).
    assert (Hok : task_ok (ps_log s) (ps_now s) (ps_cache s) t).
    { eapply Forall_forall; [apply (pi_tasks s Hinv)|]. by eapply list_elem_of_lookup_2. }
    rewrite <- (app_nil_r (<[i := TGone]> (ps_tasks s))), <- (app_nil_r (ps_log s)).
    apply (pinv_replace s i t TGone []); rewrite ?app_nil_r; try done; try apply (pi_log s Hinv).
    all: destruct t; try discriminate Hc; cbn in Hc; repeat case_match; simplify_eq/=; try lia; try done.
    all: try (by apply FsSame). all: try apply (pi_entries s Hinv).
    all: try (destruct Hok as (_ & Hg & _); eapply FsRelease; [done..|]; rewrite Hg; done).
    all: by repeat constructor.
Qed.

Lemma provider_reachable_inv s : reachable s -> pinv s.
Proof. induction 1; [apply pinv_init|by eapply pinv_step]. Qed.
End Invariant.

(** ** What requests are told *)

Section Answers.
Context `{ProviderExternals}.

(** The windows of a live entry. *)
Lemma found_live log looked_up k bytes cc v enc age stored fu su f :
  entry_ok log looked_up k (CFound bytes cc v enc age stored fu su) ->
  freshness looked_up (CFound bytes cc v enc age stored fu su) = f -> f <> Expired ->
  exists g, from_log log k g /\ fetched_wf (k_resource k) g /\ cp_store (fr_policy g) = true /\
    bytes = fr_bytes g /\ cc = cp_response_cache_control (fr_policy g) /\ v = fr_validators g /\
    enc = fr_content_encoding g /\ age = fr_initial_age g /\ stored <= looked_up /\
    fr_initial_age g + (looked_up - stored) < cp_fresh (fr_policy g) + cp_swr (fr_policy g) /\
    (f = Fresh -> fr_initial_age g + (looked_up - stored) < cp_fresh (fr_policy g)).
Proof.
  intros (g & Hg & Hwf & Hst & -> & -> & -> & -> & -> & Hs & -> & ->) Hf Hne. exists g.
  destruct (fetched_wf_bounds _ _ Hwf) as [[? _] [? _]]. pose proof (fw_age _ _ Hwf) as Hage.
  split_and!; try done; cbn in Hf; unfold saturating_sub in Hf.
  - destruct (_ <? _) eqn:E1 in Hf; [bool_props; lia|]. destruct (_ <? _) eqn:E2 in Hf; [bool_props; lia|congruence].
  - intros ->. destruct (_ <? _) eqn:E1 in Hf; [bool_props; lia|]. by destruct (_ <? _) in Hf.
Qed.

(** A refresh that is confirmed without a Cache-Control keeps the retention of the
    entry: a stale entry never has a defaulted policy. *)
Lemma refresh_keeps_policy log now k c stale :
  map_Forall (entry_ok log now) (pc_entries c) -> stale_representation now k c = Some stale ->
  exists f, from_log log k f /\ cr_bytes stale = fr_bytes f /\
    forall t d, fr_policy (revalidated_provider_resource stale (k_resource k) None t d) = fr_policy f.
Proof.
  intros He Hs. unfold stale_representation, get in Hs.
  destruct (pc_entries c !! k) as [e|] eqn:Hk; cbn in Hs; [|done]. apply He in Hk.
  destruct (freshness now e) eqn:Hfresh; try done. destruct e; cbn in Hs; [|done]. injection Hs as <-.
  destruct Hk as (f & Hf & Hwf & _ & -> & -> & _ & _ & -> & _ & -> & ->). exists f. split_and!; [done..|].
  intros t d. destruct (fw_policy _ _ Hwf) as (values & Hpol). cbn. rewrite Hpol. apply policy_fixpoint. intros ->.
  cbn in Hfresh. rewrite Hpol in Hfresh. cbn in Hfresh. rewrite Z.add_0_r in Hfresh.
  destruct (_ <? _); done.
Qed.

(** What a request was answered with. *)
Definition answer_sound (s : PState) (k : Key) (answer : Res HttpError ProvidedResource) (p : Provenance) : Prop :=
  match answer with
  | Ok r =>
      delivered (ps_log s) k (pv_bytes r) /\
      exists f, from_log (ps_log s) k f /\ pv_bytes r = fr_bytes f /\
        pv_cache_control r = cp_response_cache_control (fr_policy f) /\ pv_validators r = fr_validators f /\
        pv_content_encoding r = fr_content_encoding f /\
        match p with
        | ByFlight => pv_age_seconds r = as_secs (fr_initial_age f)
        | ByCache looked_up =>
            cp_store (fr_policy f) = true /\
            exists stored answered, stored <= looked_up <= answered /\ answered <= ps_now s /\
              fr_initial_age f + (looked_up - stored) < cp_fresh (fr_policy f) + cp_swr (fr_policy f) /\
              pv_age_seconds r = as_secs (duration_saturating_add (answered - stored) (fr_initial_age f))
        end
  | Err e =>
      match p with
      | ByFlight => error_ok (ps_log s) k e
      | ByCache looked_up =>
          exists n stored, (k, Negative n) ∈ ps_log s /\ e = provider_negative_error (fn_status n) /\
            np_store (fn_policy n) = true /\ stored <= looked_up /\
            fn_initial_age n + (looked_up - stored) < PROVIDER_NEGATIVE_TTL
      end
  | Panic => False
  end.

Lemma logged_delivered s k f : pinv s -> from_log (ps_log s) k f -> delivered (ps_log s) k (fr_bytes f).
Proof.
  intros Hinv Hf. pose proof (pi_log s Hinv) as Hlog. rewrite Forall_forall in Hlog.
  destruct Hf as [Hf|Hf]; apply Hlog in Hf; apply Hf.
Qed.

Lemma answer_ok_sound s k answer p : pinv s -> answer_ok (ps_log s) (ps_now s) k answer p -> answer_sound s k answer p.
Proof.
  intros Hinv. destruct p as [|looked_up]; cbn.
  - intros (o & -> & Ho). destruct o as [e|r]; cbn in *; [done|]. destruct Ho as (f & Hf & ->).
    split; [by apply logged_delivered|]. exists f. by split_and!.
  - intros (e & answered & Ht & He & Hfresh & ->). destruct e as [bytes cc v enc age stored fu su|st fu su].
    + destruct (found_live _ _ _ _ _ _ _ _ _ _ _ _ He eq_refl Hfresh)
        as (g & Hg & _ & Hst & -> & -> & -> & -> & -> & Hs & Hlive & _). cbn.
      split; [by apply logged_delivered|]. exists g. split_and!; try done. exists stored, answered.
      split_and!; try lia. unfold saturating_sub. by rewrite Z.max_r by lia.
    + cbn in *. destruct He as (n & stored & Hn & [Hage (values & Hpol)] & Hst & -> & Hs & -> & ->).
      exists n, stored. split_and!; try done.
      pose proof (negative_policy_bounds values) as Hb. rewrite <- Hpol in Hb.
      destruct (_ <? _) eqn:E in Hfresh; [|done]. bool_props. unfold saturating_sub in E. lia.
Qed.
End Answers.

(** [C3] What the provider cache serves. In every execution, a request that was
    answered with a resource got bytes its origin delivered for that key, with the
    policy, validators and encoding of an origin answer for that key: fresh
    from a flight of that key, or from an entry its origin allowed to be stored and
    whose age, at the time of the lookup, was within the freshness and stale windows of
    that policy; the reported age never falls behind. An error is a 502, 503 or 504, or
    the origin's own negative answer, at most thirty seconds old. *)
Theorem provider_cache_answers `{ProviderExternals} s i rq answer p :
  reachable s -> ps_tasks s !! i = Some (TDone rq answer p) -> answer_sound s (rq_key rq) answer p.
Proof.
  intros Hr Hi. apply provider_reachable_inv in Hr as Hinv. apply answer_ok_sound; [done|].
  pose proof (pi_tasks s Hinv) as Ht. rewrite Forall_lookup in Ht. exact (Ht i _ Hi).
Qed.

(** Load on the origins. In every execution at most 128 fetches are admitted and
    at most 16 exchange with an origin, every key is led by at most one task, so it is
    fetched once at a time, and a background refresh starts only when no cooldown of
    its key is recorded. *)
Theorem provider_load_bounded `{ProviderExternals} s :
  reachable s ->
  total admitted (ps_tasks s) <= PROVIDER_FETCH_MAX_INFLIGHT /\
  total exchanging (ps_tasks s) <= PROVIDER_FETCH_CONCURRENCY /\
  NoDup (omap guard_of (ps_tasks s)) /\
  forall i choice s', pstep (EvRun i choice) s = Some s' ->
    forall j rq g stale phase, ps_tasks s' !! j = Some (TFetch rq g (Some stale) phase) ->
      (length (ps_tasks s) <= j)%nat -> pc_failed_revalidations (ps_cache s) !! rq_key rq = None.
Proof.
  intros Hr. apply provider_reachable_inv in Hr as [Hf Hg Hh He Ht Hlog Hs Ha Hp Hsem]. split_and!; [done|lia|done|].
  intros i choice s' Hstep j rq g stale phase Hj Hlen.
  cbn in Hstep. apply bind_Some in Hstep as (t & Hi & Hstep).
  apply bind_Some in Hstep as ([[[c' t'] sp] lg] & Hadv & [= <-]). cbn in Hj.
  rewrite lookup_app_r in Hj by (by rewrite length_insert). rewrite length_insert in Hj.
  rewrite Forall_lookup in Ht. specialize (Ht i t Hi).
  destruct t, choice; try discriminate Hadv; cbn in Ht; adv_cases Hadv; try done.
  apply list_lookup_singleton_Some in Hj as [_ Hj]. injection Hj as <- <- <- <-. apply Ht.
Qed.

(** ** Every request can be answered *)

Section Progress.
Context `{ProviderExternals}.

Definition ok_step (s s' : PState) : Prop := exists e, event_ok e /\ pstep e s = Some s'.

Lemma steps_inv s s' : rtc ok_step s s' -> pinv s -> pinv s'.
Proof. induction 1 as [|s s1 s' (e & He & Hs)]; [done|]. intros Hi. eauto using pinv_step. Qed.

(** How far a leading task is from giving up its guard. *)
Definition lead_rank (t : Task) : nat :=
  match t with
  | TPublish _ _ _ _ => 1
  | TStore _ _ _ _ => 2
  | TFetch _ _ _ (POver | PQueued | PExchange) => 3
  | TFetch _ _ _ PReserve => 4
  | TSpawn _ _ _ _ | TRecheck _ _ => 5
  | TAllowedLeader _ _ _ _ => 6
  | _ => 0
  end.

Lemma run_step s i t choice c' t' sp lg :
  ps_tasks s !! i = Some t -> advance (ps_now s) choice (ps_cache s) t = Some (c', t', sp, lg) ->
  match choice with Origin world => origin_clock world | _ => True end ->
  ok_step s {| ps_now := ps_now s; ps_cache := c'; ps_tasks := <[i := t']> (ps_tasks s) ++ sp; ps_log := ps_log s ++ lg |}.
Proof. intros Hi Hadv Hc. exists (EvRun i choice). split; [by destruct choice|]. cbn. by rewrite Hi; cbn; rewrite Hadv. Qed.

(** The next step of a leading task: it gives up its guard, or comes closer to it. *)
Lemma lead_step log now c t k :
  guard_of t = Some k -> task_ok log now c t ->
  exists choice c' t' sp lg, advance now choice c t = Some (c', t', sp, lg) /\
    match choice with Origin _ => False | _ => True end /\
    (sf_entries (pc_inflight c') !! k = None \/
     guard_of t' = Some k /\ (lead_rank t' < lead_rank t)%nat \/
     exists u, sp = [u] /\ guard_of u = Some k /\ (lead_rank u < lead_rank t)%nat).
Proof.
  intros Hk Hok. destruct t; try discriminate Hk; cbn in Hk; injection Hk as <-; cbn in Hok.
  - exists Go. cbn. unfold stale_revalidation_allowed.
    destruct (pc_failed_revalidations c !! rq_key rq) as [retry|]; [destruct (now <? retry)|];
      do 4 eexists; (split; [reflexivity|split; [done|]]); [left|right; left; split; [done|cbn; lia]..].
    cbn. by rewrite drop_guard_entries, lookup_delete_eq.
  - exists Go. cbn. destruct (stale_representation now (rq_key rq) c); do 4 eexists; (split; [reflexivity|split; [done|]]).
    + right; right. eexists. split_and!; [done..|cbn; lia].
    + left. cbn. by rewrite drop_guard_entries, lookup_delete_eq.
  - exists Go. cbn. destruct (get now (rq_key rq) c); do 4 eexists; (split; [reflexivity|split; [done|]]).
    + left. cbn. by rewrite drop_guard_entries, lookup_delete_eq.
    + right; left. split; [done|cbn; lia].
  - destruct phase.
    + exists Go. cbn. destruct (_ >=? _); do 4 eexists; (split; [reflexivity|split; [done|]]); right; left; (split; [done|cbn; lia]).
    + exists Go. do 4 eexists; (split; [reflexivity|split; [done|]]); right; left; (split; [done|cbn; lia]).
    + exists Deadline. do 4 eexists; (split; [reflexivity|split; [done|]]); right; left; (split; [done|cbn; lia]).
    + exists Deadline. do 4 eexists; (split; [reflexivity|split; [done|]]); right; left; (split; [done|cbn; lia]).
  - exists Go. destruct Hok as [_ Hok]. destruct result as [[f|f|n]|e|]; [..|done];
      do 4 eexists; (split; [reflexivity|split; [done|]]); right; left; (split; [done|cbn; lia]).
  - exists Go. do 4 eexists; (split; [reflexivity|split; [done|]]). left. cbn. unfold complete_with.
    by rewrite drop_guard_entries, lookup_delete_eq.
Qed.

(** A leading task can give up its guard while the other tasks stay where they are. *)
Lemma lead_release n : forall s j t k,
  pinv s -> ps_tasks s !! j = Some t -> guard_of t = Some k -> (lead_rank t < n)%nat ->
  exists s', rtc ok_step s s' /\ sf_entries (pc_inflight (ps_cache s')) !! k = None /\
    forall i, i <> j -> (i < length (ps_tasks s))%nat -> ps_tasks s' !! i = ps_tasks s !! i.
Proof.
  induction n as [|n IH]; intros s j t k Hinv Hj Hk Hn; [lia|].
  assert (Hok : task_ok (ps_log s) (ps_now s) (ps_cache s) t).
  { pose proof (pi_tasks s Hinv) as Ht. rewrite Forall_lookup in Ht. eauto. }
  destruct (lead_step _ _ _ _ _ Hk Hok) as (choice & c' & t' & sp & lg & Hadv & Hc & Hcase).
  pose proof (run_step s j t choice c' t' sp lg Hj Hadv ltac:(by destruct choice)) as Hstep.
  set (s1 := {| ps_now := ps_now s; ps_cache := c'; ps_tasks := <[j := t']> (ps_tasks s) ++ sp; ps_log := ps_log s ++ lg |}) in *.
  assert (Hinv1 : pinv s1) by (apply (steps_inv s); [by apply rtc_once|done]).
  assert (Hlen : (j < length (ps_tasks s))%nat) by (by eapply lookup_lt_Some).
  assert (Hkeep : forall i, i <> j -> (i < length (ps_tasks s))%nat -> ps_tasks s1 !! i = ps_tasks s !! i).
  { intros i Hi Hl. cbn. rewrite lookup_app_l by (by rewrite length_insert). by rewrite list_lookup_insert_ne. }
  assert (Hnext : forall j' u, ps_tasks s1 !! j' = Some u -> guard_of u = Some k -> (lead_rank u < lead_rank t)%nat ->
            (j' = j \/ length (ps_tasks s) <= j')%nat ->
            exists s', rtc ok_step s s' /\ sf_entries (pc_inflight (ps_cache s')) !! k = None /\
              forall i, i <> j -> (i < length (ps_tasks s))%nat -> ps_tasks s' !! i = ps_tasks s !! i).
  { intros j' u Hj' Hu Hr Hpos. destruct (IH s1 j' u k Hinv1 Hj' Hu ltac:(lia)) as (s' & Hs' & He & Hk').
    exists s'. split_and!; [by eapply rtc_l|done|]. intros i Hi Hl. rewrite Hk', Hkeep; [done|done|done|lia|].
    cbn. rewrite length_app, length_insert. lia. }
  destruct Hcase as [He|[[Hg Hr]|(u & -> & Hg & Hr)]].
  - exists s1. split_and!; [by apply rtc_once|done|done].
  - apply (Hnext j t'); [|done|done|by left]. cbn.
    rewrite lookup_app_l by (by rewrite length_insert). by apply list_lookup_insert_eq.
  - apply (Hnext (length (ps_tasks s)) u); [|done|done|right; lia]. cbn.
    rewrite lookup_app_r by (rewrite length_insert; lia). by rewrite length_insert, Nat.sub_diag.
Qed.

(** The request an unfinished task answers; background refreshes answer none. *)
Definition request_of (t : Task) : option Request :=
  match t with
  | TLookup rq | TAllowed rq _ _ | TSpawnBegin rq _ _ | TAllowedLeader rq _ _ _ | TSpawn rq _ _ _ | TReturn rq _ _
  | TBegin rq | TRecheck rq _ | TFetch rq _ None _ | TStore rq _ false _ | TPublish rq _ false _ | TWait rq _ => Some rq
  | _ => None
  end.

(** How far a request is from its answer, when no other task leads its key. *)
Definition answer_rank (now : Z) (c : ProviderFetchCache) (t : Task) : nat :=
  match t with
  | TReturn _ _ _ | TPublish _ _ _ _ => 1
  | TSpawn _ _ _ _ | TStore _ _ _ _ => 2
  | TAllowedLeader _ _ _ _ | TFetch _ _ _ (POver | PQueued | PExchange) => 3
  | TSpawnBegin _ _ _ | TFetch _ _ _ PReserve => 4
  | TAllowed _ _ _ => 5
  | TLookup rq => match get now (rq_key rq) c with Some _ => 6 | None => 9 end
  | TRecheck _ _ => 7
  | TBegin _ => 8
  | TWait _ _ => 10
  | _ => 0
  end.
Definition unled (c : ProviderFetchCache) (t : Task) : Prop :=
  match t with
  | TLookup rq | TBegin rq | TWait rq _ => sf_entries (pc_inflight c) !! rq_key rq = None
  | _ => True
  end.

Definition comes_closer (now : Z) (rq : Request) (c : ProviderFetchCache) (t : Task) (choice : Choice) : Prop :=
  exists c' t' sp lg, advance now choice c t = Some (c', t', sp, lg) /\
    ((exists a p, t' = TDone rq a p) \/
     request_of t' = Some rq /\ unled c' t' /\ (answer_rank now c' t' < answer_rank now c t)%nat).

Ltac closer := do 4 eexists; (split; [reflexivity|]); cbn;
  first [by left; eauto | right; (split; [done|]); (split; [done|]); cbn; lia].

Lemma wait_ready log k f sf : wait_ok log k f sf -> sf_entries sf !! k = None -> exists v, wait_poll f sf = Some v.
Proof.
  intros [[Hf _]|(ch & Hch & Hopen & _)] Hk; [congruence|]. apply wait_poll_released. exists ch. auto.
Qed.

Lemma provider_answer_step log now c t rq :
  task_ok log now c t -> request_of t = Some rq -> unled c t ->
  exists choice, match choice with Origin _ => False | _ => True end /\ comes_closer now rq c t choice.
Proof.
  intros Hok Hrq Hun. destruct t; try discriminate Hrq; cbn in Hrq, Hok, Hun.
  - injection Hrq as ->. exists Go. split; [done|]. unfold comes_closer. cbn.
    destruct (get now (rq_key rq) c) as [[e []]|]; closer.
  - injection Hrq as ->. exists Go. split; [done|]. unfold comes_closer. cbn. unfold stale_revalidation_allowed.
    destruct (_ !! _) as [retry|]; [destruct (now <? retry)|]; closer.
  - injection Hrq as ->. exists Go. split; [done|]. unfold comes_closer. cbn.
    destruct (begin_fetch (rq_key rq) c) as [[g|f] c']; closer.
  - injection Hrq as ->. exists Go. split; [done|]. unfold comes_closer. cbn. unfold stale_revalidation_allowed.
    destruct (_ !! _) as [retry|]; [destruct (now <? retry)|]; closer.
  - injection Hrq as ->. exists Go. split; [done|]. unfold comes_closer. cbn.
    destruct (stale_representation now (rq_key rq) c); closer.
  - injection Hrq as ->. exists Go. split; [done|]. unfold comes_closer. cbn. closer.
  - injection Hrq as ->. exists Go. split; [done|]. unfold comes_closer. cbn. unfold begin_fetch, begin. rewrite Hun. closer.
  - injection Hrq as ->. exists Go. split; [done|]. unfold comes_closer. cbn. destruct Hok as [_ ->].
    destruct (get now (rq_key rq) c) as [found|] eqn:Hget; [|closer].
    do 4 eexists; (split; [reflexivity|]). right. split; [done|]. split.
    + cbn. by rewrite drop_guard_entries, lookup_delete_eq.
    + cbn. change (get now (rq_key rq) (release_leader _ c)) with (get now (rq_key rq) c). rewrite Hget. lia.
  - destruct stale; [done|]. injection Hrq as ->. unfold comes_closer.
    destruct phase; [exists Go|exists Go|exists Deadline|exists Deadline]; (split; [done|]); cbn;
      [destruct (_ >=? _)| | |]; closer.
  - destruct background; [done|]. injection Hrq as ->. exists Go. split; [done|]. unfold comes_closer. cbn.
    destruct Hok as [_ Hok]. destruct result as [[f|f|n]|e|]; [..|done]; closer.
  - destruct background; [done|]. injection Hrq as ->. exists Go. split; [done|]. unfold comes_closer. cbn. closer.
  - injection Hrq as ->. exists Go. split; [done|]. unfold comes_closer. cbn.
    destruct (wait_ready _ _ _ _ (proj2 Hok) Hun) as [[o|] ->]; cbn; [closer|].
    do 4 eexists; (split; [reflexivity|]). right. split_and!; [done|done|]. cbn. case_match; lia.
Qed.

Lemma answer_run n : forall s i t rq,
  pinv s -> ps_tasks s !! i = Some t -> request_of t = Some rq -> unled (ps_cache s) t ->
  (answer_rank (ps_now s) (ps_cache s) t < n)%nat ->
  exists s' a p, rtc ok_step s s' /\ ps_tasks s' !! i = Some (TDone rq a p).
Proof.
  induction n as [|n IH]; intros s i t rq Hinv Hi Hrq Hun Hn; [lia|].
  assert (Hok : task_ok (ps_log s) (ps_now s) (ps_cache s) t).
  { pose proof (pi_tasks s Hinv) as Ht. rewrite Forall_lookup in Ht. eauto. }
  destruct (provider_answer_step _ _ _ _ _ Hok Hrq Hun) as (choice & Hc & c' & t' & sp & lg & Hadv & Hcase).
  pose proof (run_step s i t choice c' t' sp lg Hi Hadv ltac:(by destruct choice)) as Hstep.
  assert (Hi' : (<[i := t']> (ps_tasks s) ++ sp) !! i = Some t').
  { assert (Hlt : (i < length (ps_tasks s))%nat) by (by eapply lookup_lt_Some).
    rewrite lookup_app_l by (by rewrite length_insert). by apply list_lookup_insert_eq. }
  destruct Hcase as [(a & p & ->)|(Hrq' & Hun' & Hr)].
  - eexists _, a, p. split; [by apply rtc_once|]. exact Hi'.
  - set (s1 := {| ps_now := ps_now s; ps_cache := c'; ps_tasks := <[i := t']> (ps_tasks s) ++ sp; ps_log := ps_log s ++ lg |}) in *.
    destruct (IH s1 i t' rq) as (s' & a & p & Hs' & Hd); [|exact Hi'|exact Hrq'|exact Hun'|cbn; lia|].
    + apply (steps_inv s); [by apply rtc_once|done].
    + exists s', a, p. split; [by eapply rtc_l|done].
Qed.

Lemma request_answered s i t rq :
  pinv s -> ps_tasks s !! i = Some t -> request_of t = Some rq ->
  exists s' a p, rtc ok_step s s' /\ ps_tasks s' !! i = Some (TDone rq a p).
Proof.
  intros Hinv Hi Hrq.
  assert (Hcase : unled (ps_cache s) t \/ guard_of t = None /\
            exists k, is_Some (sf_entries (pc_inflight (ps_cache s)) !! k) /\
              (forall c, sf_entries (pc_inflight c) !! k = None -> unled c t)).
  { destruct t; cbn; try (by left);
      (destruct (sf_entries (pc_inflight (ps_cache s)) !! rq_key rq0) eqn:E; [right|by left]); eauto. }
  destruct Hcase as [Hun|(Hg & k & Hk & Hun)]; [exact (answer_run _ s i t rq Hinv Hi Hrq Hun (Nat.lt_succ_diag_r _))|].
  apply (pi_held s Hinv), list_elem_of_omap in Hk as (u & Hu & Hgu). apply list_elem_of_lookup in Hu as [j Hj].
  destruct (lead_release _ s j u k Hinv Hj Hgu (Nat.lt_succ_diag_r _)) as (s1 & Hs1 & He & Hkeep).
  assert (Hi1 : ps_tasks s1 !! i = Some t).
  { rewrite Hkeep; [done|congruence|by eapply lookup_lt_Some]. }
  destruct (answer_run _ s1 i t rq (steps_inv _ _ Hs1 Hinv) Hi1 Hrq (Hun _ He) (Nat.lt_succ_diag_r _))
    as (s' & a & p & Hs' & Hd).
  exists s', a, p. split; [by etransitivity|done].
Qed.
End Progress.

(** [C31] No request is stranded: from every state the provider cache can reach, every
    request that was not cancelled, whatever it waits for, has a continuation in which
    it is answered, whether its leader completes, fails, times out or was dropped. *)
Theorem provider_request_answered `{ProviderExternals} s i t rq :
  reachable s -> ps_tasks s !! i = Some t -> request_of t = Some rq ->
  exists s' answer p, rtc ok_step s s' /\ ps_tasks s' !! i = Some (TDone rq answer p).
Proof. intros Hr. apply request_answered. by apply provider_reachable_inv. Qed.

(** ** A run *)

Module DemoProviderRun.
#[local] Existing Instance DemoOrigin.demo_provider.

Fixpoint prun (events : list Event) (s : PState) : option PState :=
  match events with [] => Some s | e :: events => s' ← pstep e s; prun events s' end.
Lemma prun_reachable events s s' : reachable s -> Forall event_ok events -> prun events s = Some s' -> reachable s'.
Proof.
  revert s. induction events as [|e events IH]; intros s Hs He; cbn; [by intros [= <-]|].
  apply Forall_cons in He as [He Hes]. intros (s1 & H1 & H2)%bind_Some. eapply IH; [|done..].
  by eapply reachable_step.
Qed.

Definition demo_request : Request :=
  {| rq_key := {| k_resource := "style"; k_accepted_content_types := ["application/json"];
                  k_body_validation := VJson; k_url := "https://origin/style.json" |};
     rq_max_bytes := 2097152 |}.
Definition go (i : nat) : Event := EvRun i Go.
(** A first request fetches (its body is valid for sixty seconds and usable for thirty
    more, of which seven are spent); a second one waits for it. *)
Definition demo_flight : list Event :=
  [EvArrive demo_request; EvArrive demo_request; go 0; go 1; go 0; go 1; go 0; go 0; go 0].
(** The exchange completes; seventy seconds later a third request is served the stale
    body while a refresh runs in the background. *)
Definition demo_stale : list Event :=
  demo_flight ++ [EvRun 0 (Origin DemoOrigin.demo_origin); go 0; go 0; go 1;
    EvTick (from_secs 70); EvArrive demo_request; go 2; go 2; go 2; go 2; go 2; go 2].
Definition demo_state (events : list Event) : PState := default PState_init (prun events PState_init).

Definition completes (events : list Event) : bool := match prun events PState_init with Some _ => true | None => false end.
Lemma demo_provider_reachable events : Forall event_ok events -> completes events = true -> reachable (demo_state events).
Proof.
  intros He Hc. apply (prun_reachable events PState_init); [apply reachable_init|done|].
  unfold demo_state, completes in *. by destruct (prun events PState_init).
Qed.

Lemma demo_flight_ok : Forall event_ok demo_flight.
Proof. repeat apply Forall_cons_2; try apply Forall_nil_2; cbn; try done; unfold u64_max; lia. Qed.
Lemma demo_stale_ok : Forall event_ok demo_stale.
Proof.
  apply Forall_app. split; [apply demo_flight_ok|].
  repeat apply Forall_cons_2; try apply Forall_nil_2; cbn; try done; try (unfold u64_max; lia).
  apply DemoOrigin.demo_origin_clock.
Qed.
Lemma demo_flight_reachable : reachable (demo_state demo_flight).
Proof. apply demo_provider_reachable; [apply demo_flight_ok|vm_compute; reflexivity]. Qed.
Lemma demo_stale_reachable : reachable (demo_state demo_stale).
Proof. apply demo_provider_reachable; [apply demo_stale_ok|vm_compute; reflexivity]. Qed.

Definition demo_answer : ProvidedResource :=
  {| pv_bytes := [123; 32; 125]; pv_cache_control := "public, max-age=60, s-maxage=60, stale-while-revalidate=30";
     pv_age_seconds := 77; pv_validators := {| v_etag := Some "v1"; v_last_modified := None |};
     pv_content_encoding := None |}.

Lemma provider_cache_answers_witness :
  ps_tasks (demo_state demo_stale) !! 2%nat = Some (TDone demo_request (Ok demo_answer) (ByCache (from_secs 70))) /\
  answer_sound (demo_state demo_stale) (rq_key demo_request) (Ok demo_answer) (ByCache (from_secs 70)).
Proof.
  assert (Hi : ps_tasks (demo_state demo_stale) !! 2%nat = Some (TDone demo_request (Ok demo_answer) (ByCache (from_secs 70))))
    by (vm_compute; reflexivity).
  split; [exact Hi|].
  exact (provider_cache_answers (demo_state demo_stale) 2 demo_request (Ok demo_answer) (ByCache (from_secs 70))
           demo_stale_reachable Hi).
Defined.

Lemma provider_load_bounded_witness :
  total admitted (ps_tasks (demo_state demo_flight)) = 1 /\
  total admitted (ps_tasks (demo_state demo_flight)) <= PROVIDER_FETCH_MAX_INFLIGHT.
Proof.
  split; [vm_compute; reflexivity|].
  exact (proj1 (provider_load_bounded (demo_state demo_flight) demo_flight_reachable)).
Defined.

Lemma provider_request_answered_witness :
  exists t, ps_tasks (demo_state demo_flight) !! 1%nat = Some t /\ request_of t = Some demo_request /\
    exists s' answer p, rtc ok_step (demo_state demo_flight) s' /\ ps_tasks s' !! 1%nat = Some (TDone demo_request answer p).
Proof.
  assert (Hi : ps_tasks (demo_state demo_flight) !! 1%nat =
                 Some (TWait demo_request {| fo_receiver := 0; fo_seen := 0 |})) by (vm_compute; reflexivity).
  exists (TWait demo_request {| fo_receiver := 0; fo_seen := 0 |}).
  split; [exact Hi|]. split; [reflexivity|].
  exact (provider_request_answered (demo_state demo_flight) 1 _ demo_request demo_flight_reachable Hi eq_refl).
Defined.
End DemoProviderRun.
