(* ===== verification/ResourceTemplates.v ===== *)
(** * Resource templates

    Models [crates/mmpf-common/src/resource_templates.rs] (namespaced entries, URL
    templates and their resolution; the selection of an entry is in
    TilesetSources) and [servers/ishikari/src/provider.rs], which maps style keys,
    font stacks and sprites to the URLs of their origins. The parser of URLs is the
    class [UrlParser]; error texts are constructors. *)

From S2P Require Import Prelude StdModel Types TilesetSources Text PeerRouting PeerBackend.

(** ** Substrings *)

(** [str::replace] and [matches(..).count()] of a non-empty pattern: matches are found
    from the left and do not overlap. *)
Fixpoint replace_from (skip : nat) (pat to s : string) : string :=
  match s with
  | EmptyString => ""
  | String a s' =>
      match skip with
      | S skip => replace_from skip pat to s'
      | O => match strip_prefix pat s with
             | Some _ => to +:+ replace_from (String.length pat - 1) pat to s'
             | None => String a (replace_from 0 pat to s')
             end
      end
  end.
Definition str_replace (pat to s : string) : string := replace_from 0 pat to s.
Fixpoint matches_from (skip : nat) (pat s : string) : nat :=
  match s with
  | EmptyString => 0
  | String a s' =>
      match skip with
      | S skip => matches_from skip pat s'
      | O => match strip_prefix pat s with
             | Some _ => S (matches_from (String.length pat - 1) pat s')
             | None => matches_from 0 pat s'
             end
      end
  end.
Definition matches_count (pat s : string) : nat := matches_from 0 pat s.

(** ** Policies *)

Inductive NamespaceKeyPolicy := PlainSegment | AsciiIdentifier.
Record TemplatePolicy := {
  tp_placeholder : string; tp_require_placeholder : bool; tp_placeholder_must_be_in_path : bool;
  tp_allowed_schemes : list string; tp_namespace_keys : NamespaceKeyPolicy }.

Inductive TemplateError :=
  | MultipleDefaults
  | DuplicateNamespace (key : string)
  | NoEntries
  | EmptyTemplate (label : string)
  | MissingPlaceholder (label : string)
  | NotAUrl (label : string)
  | SchemeNotSupported (scheme : string)
  | PlaceholderOutsidePath.

Definition valid_namespace_key (key : string) (policy : NamespaceKeyPolicy) : bool :=
  match policy with
  | PlainSegment =>
      negb (String.eqb key "") && negb (contains_whitespace key) &&
      str_all (fun a => negb (existsb (Ascii.eqb a) [":"; "/"; ";"; "="; "{"; "}"]%char)) key
  | AsciiIdentifier =>
      negb (String.eqb key "") && str_all (fun a => is_ascii_alphanumeric a || Ascii.eqb a "-" || Ascii.eqb a "_") key
  end.

(** ** Entries *)

(** One trimmed entry: its namespace and value, [None] for a default. *)
Definition parse_entry (keys : NamespaceKeyPolicy) (entry : string) : option string * string :=
  match split_once "="%char entry with
  | Some (key, value) =>
      if valid_namespace_key (trim key) keys then
        (if String.eqb (trim key) "default" then None else Some (trim key), trim value)
      else (None, entry)
  | None => (None, entry)
  end.

Definition add_entry (keys : NamespaceKeyPolicy) (entry : string) (out : NamespacedEntries string)
    : Res TemplateError (NamespacedEntries string) :=
  let entry := trim entry in
  if String.eqb entry "" then Ok out else
  match parse_entry keys entry with
  | (None, value) =>
      match ne_default out with
      | Some _ => Err MultipleDefaults
      | None => Ok {| ne_namespaces := ne_namespaces out; ne_default := Some value |}
      end
  | (Some key, value) =>
      if existsb (fun e => String.eqb e.1 key) (ne_namespaces out) then Err (DuplicateNamespace key)
      else Ok {| ne_namespaces := ne_namespaces out ++ [(key, value)]; ne_default := ne_default out |}
  end.
Fixpoint add_entries (keys : NamespaceKeyPolicy) (entries : list string) (out : NamespacedEntries string)
    : Res TemplateError (NamespacedEntries string) :=
  match entries with
  | [] => Ok out
  | entry :: entries => out ← add_entry keys entry out; add_entries keys entries out
  end.
Definition NamespacedEntries_parse (raw : string) (keys : NamespaceKeyPolicy)
    : Res TemplateError (NamespacedEntries string) :=
  out ← add_entries keys (str_split ";"%char raw) {| ne_namespaces := []; ne_default := None |};
  if bool_decide (ne_namespaces out = []) && bool_decide (ne_default out = None) then Err NoEntries else Ok out.

(** ** Templates *)

Class UrlParser := {
  ParsedUrl : Type;
  Url_parse : string -> option ParsedUrl;
  Url_scheme : ParsedUrl -> string;
  Url_path : ParsedUrl -> string }.

Definition PLACEHOLDER_MARKER_PREFIX : string := "mmpf-placeholder-marker".
(** Longer than the template, the marker cannot occur in it: its length is enough. *)
Fixpoint placeholder_marker_from (fuel : nat) (template marker : string) : string :=
  match fuel with
  | O => marker
  | S fuel => if str_contains marker template then placeholder_marker_from fuel template (marker +:+ "x") else marker
  end.
Definition placeholder_marker (template : string) : string :=
  placeholder_marker_from (S (String.length template)) template PLACEHOLDER_MARKER_PREFIX.

Definition substitution_has_traversal_segment (substitution : string) : bool :=
  existsb (fun segment => String.eqb segment "." || String.eqb segment "..") (str_split slash substitution).

Record ResourceTemplates := {
  rt_entries : NamespacedEntries string; rt_placeholder : string; rt_enforce_path_placeholder : bool }.
Definition ResourceTemplates_default : ResourceTemplates :=
  {| rt_entries := {| ne_namespaces := []; ne_default := None |}; rt_placeholder := "";
     rt_enforce_path_placeholder := false |}.

Definition has_match (self : ResourceTemplates) (key : string) : bool := bool_decide (select (rt_entries self) key <> None).
Definition resolve_with (self : ResourceTemplates) (key : string) (encode : string -> string) : option string :=
  '(template, relative_key) ← select (rt_entries self) key;
  let substitution := encode relative_key in
  if rt_enforce_path_placeholder self && str_contains (rt_placeholder self) template &&
     substitution_has_traversal_segment substitution then None
  else Some (str_replace (rt_placeholder self) substitution template).

Section Parsing.
Context `{UrlParser}.

Definition validate_url_template (template label : string) (policy : TemplatePolicy) : Res TemplateError unit :=
  if String.eqb template "" then Err (EmptyTemplate label) else
  if tp_require_placeholder policy && negb (str_contains (tp_placeholder policy) template)
  then Err (MissingPlaceholder label) else
  let marker := placeholder_marker template in
  let sample := str_replace (tp_placeholder policy) marker template in
  parsed ← ok_or (NotAUrl label) (Url_parse sample);
  if negb (existsb (String.eqb (Url_scheme parsed)) (tp_allowed_schemes policy))
  then Err (SchemeNotSupported (Url_scheme parsed)) else
  if tp_placeholder_must_be_in_path policy then
    if Nat.eqb (matches_count marker (Url_path parsed)) (matches_count (tp_placeholder policy) template)
    then Ok tt else Err PlaceholderOutsidePath
  else Ok tt.

Definition ResourceTemplates_parse (raw : string) (policy : TemplatePolicy) : Res TemplateError ResourceTemplates :=
  entries ← NamespacedEntries_parse raw (tp_namespace_keys policy);
  _ ← mapM (fun '(namespace, template) => validate_url_template template namespace policy) (ne_namespaces entries);
  _ ← match ne_default entries with
      | Some template => validate_url_template template "default" policy
      | None => Ok tt
      end;
  Ok {| rt_entries := entries; rt_placeholder := tp_placeholder policy;
        rt_enforce_path_placeholder := tp_placeholder_must_be_in_path policy |}.

(** ** Provider configuration *)

Record ProviderConfig := {
  pf_style_templates : ResourceTemplates; pf_glyph_url_template : option string; pf_sprite_templates : ResourceTemplates }.

Definition provider_schemes : list string := ["http"; "https"; "gs"; "s3"].
Definition style_policy : TemplatePolicy :=
  {| tp_placeholder := "{style_id}"; tp_require_placeholder := false; tp_placeholder_must_be_in_path := true;
     tp_allowed_schemes := provider_schemes; tp_namespace_keys := AsciiIdentifier |}.
Definition parse_resource_templates (raw : string) : Res TemplateError ResourceTemplates :=
  ResourceTemplates_parse raw style_policy.

Definition glyph_policy (placeholder : string) : TemplatePolicy :=
  {| tp_placeholder := placeholder; tp_require_placeholder := true; tp_placeholder_must_be_in_path := true;
     tp_allowed_schemes := provider_schemes; tp_namespace_keys := AsciiIdentifier |}.
Definition validate_glyph_template (template : string) : Res TemplateError string :=
  if negb (str_contains "{fontstack}" template) then Err (MissingPlaceholder "{fontstack}") else
  if negb (str_contains "{range}" template) then Err (MissingPlaceholder "{range}") else
  _ ← validate_url_template (str_replace "{range}" "0-255" template) "default" (glyph_policy "{fontstack}");
  _ ← validate_url_template (str_replace "{fontstack}" "Noto%20Sans" template) "default" (glyph_policy "{range}");
  Ok template.

Definition transposed {A B} (f : A -> Res TemplateError B) (default : B) (o : option A) : Res TemplateError B :=
  match o with Some a => f a | None => Ok default end.
Definition ProviderConfig_new (style_templates glyph_url_template sprite_templates : option string)
    : Res TemplateError ProviderConfig :=
  style ← transposed parse_resource_templates ResourceTemplates_default style_templates;
  glyph ← transposed (fun template => Some <$> validate_glyph_template template) None glyph_url_template;
  sprite ← transposed parse_resource_templates ResourceTemplates_default sprite_templates;
  Ok {| pf_style_templates := style; pf_glyph_url_template := glyph; pf_sprite_templates := sprite |}.
End Parsing.

(** [path_percent_encode]. *)
Definition path_unreserved (byte : ascii) : bool :=
  is_ascii_alphanumeric byte || existsb (Ascii.eqb byte) ["-"; "."; "_"; "~"; ","]%char.
Fixpoint path_percent_encode (value : string) : string :=
  match value with
  | EmptyString => ""
  | String byte value =>
      let encoded := path_percent_encode value in
      if path_unreserved byte then String byte encoded
      else String "%" (String (hex_digit (Z.shiftr (byte_of byte) 4)) (String (hex_digit (Z.land (byte_of byte) 15)) encoded))
  end.
Definition path_percent_encode_segments (value : string) : string :=
  String.concat "/" (path_percent_encode <$> str_split slash value).

Definition resolve_style_url (self : ProviderConfig) (style_key : string) : option string :=
  resolve_with (pf_style_templates self) style_key path_percent_encode_segments.
Definition resolve_glyph_url (self : ProviderConfig) (fontstack range : string) : option string :=
  template ← pf_glyph_url_template self;
  Some (str_replace "{range}" range (str_replace "{fontstack}" (path_percent_encode fontstack) template)).
Definition resolve_sprite_url (self : ProviderConfig) (style_key suffix : string) : option string :=
  (fun base => base +:+ suffix) <$> resolve_with (pf_sprite_templates self) style_key path_percent_encode_segments.
Definition has_glyph_provider (self : ProviderConfig) : bool := bool_decide (pf_glyph_url_template self <> None).
Definition has_sprite_provider (self : ProviderConfig) (style_key : string) : bool :=
  has_match (pf_sprite_templates self) style_key.

(** ** Substitution *)

(** The text between the matches. *)
Fixpoint pieces_from (skip : nat) (pat s : string) : list string :=
  match s with
  | EmptyString => [""]
  | String a s' =>
      match skip with
      | S skip => pieces_from skip pat s'
      | O => match strip_prefix pat s with
             | Some _ => "" :: pieces_from (String.length pat - 1) pat s'
             | None => match pieces_from 0 pat s' with [] => [] | p :: ps => String a p :: ps end
             end
      end
  end.
Definition pieces (pat s : string) : list string := pieces_from 0 pat s.

Lemma pieces_from_cons skip pat s : exists p ps, pieces_from skip pat s = p :: ps.
Proof.
  revert skip. induction s as [|a s IH]; intros skip; cbn [pieces_from]; [by eauto|]. destruct skip as [|skip]; [|apply IH].
  destruct (strip_prefix pat (String a s)); [by eauto|]. destruct (IH 0%nat) as (p & ps & ->). eauto.
Qed.

Lemma concat_String sep a p ps : String.concat sep (String a p :: ps) = String a (String.concat sep (p :: ps)).
Proof. by destruct ps. Qed.
Lemma concat_empty sep ps : ps <> [] -> String.concat sep ("" :: ps) = sep +:+ String.concat sep ps.
Proof. by destruct ps. Qed.

(** Replacing joins the pieces. *)
Lemma replace_pieces skip pat to s : replace_from skip pat to s = String.concat to (pieces_from skip pat s).
Proof.
  revert skip. induction s as [|a s IH]; intros skip; [done|]. cbn [replace_from pieces_from].
  destruct skip as [|skip]; [|apply IH]. destruct (strip_prefix pat (String a s)).
  - rewrite concat_empty, IH; [done|]. by destruct (pieces_from_cons (String.length pat - 1) pat s) as (? & ? & ->).
  - destruct (pieces_from_cons 0 pat s) as (p & ps & E). rewrite IH, E, concat_String. done.
Qed.

(** The template is its pieces joined by the placeholder. *)
Lemma pieces_template pat s : pat <> "" -> String.concat pat (pieces pat s) = s.
Proof.
  intros Hpat. unfold pieces.
  assert (Hgo : forall s skip r, (skip = 0%nat /\ r = s) \/ (String.length s = skip + String.length r)%nat /\
                 (exists q, s = q +:+ r /\ String.length q = skip) ->
            String.concat pat (pieces_from skip pat s) = r).
  { clear s. induction s as [|a s IH]; intros skip r Hr.
    - destruct Hr as [[-> ->]|[Hl _]]; [done|]. cbn in *. by destruct r; [|cbn in Hl; lia].
    - destruct skip as [|skip].
      + assert (r = String a s) as -> by (destruct Hr as [[_ ->]|[_ (q & -> & Hq)]]; [done|by destruct q]).
        cbn [pieces_from]. destruct (strip_prefix pat (String a s)) as [rest|] eqn:Hp.
        * apply strip_prefix_Some in Hp. rewrite concat_empty
            by (by destruct (pieces_from_cons (String.length pat - 1) pat s) as (? & ? & ->)).
          destruct pat as [|b pat]; [done|]. rewrite app_String in Hp. injection Hp as <- Hs.
          rewrite (IH _ rest), app_String; [by rewrite Hs|]. right. cbn. rewrite Nat.sub_0_r. split; [|by eauto].
          rewrite Hs. clear. induction pat as [|b pat IH]; [done|]. rewrite app_String. cbn. by rewrite IH.
        * destruct (pieces_from_cons 0 pat s) as (p & ps & E). rewrite E, concat_String, <- E.
          f_equal. apply IH. by left.
      + cbn [pieces_from]. apply IH. right. destruct Hr as [[? _]|[Hl (q & Hs & Hq)]]; [done|].
        destruct q as [|b q]; [done|]. rewrite app_String in Hs. injection Hs as <- Hs. cbn in *. split; [lia|eauto]. }
  apply Hgo. by left.
Qed.

Lemma prefix_strip p s : String.prefix p s = bool_decide (strip_prefix p s <> None).
Proof.
  revert s. induction p as [|a p IH]; intros s; [by destruct s|]. destruct s as [|b s]; [done|]. cbn.
  destruct (ascii_dec a b) as [->|Hne]; [rewrite decide_True by done; apply IH|by rewrite decide_False].
Qed.

Lemma contains_pieces pat s : pat <> "" -> str_contains pat s = true <-> (2 <= length (pieces pat s))%nat.
Proof.
  intros Hpat. unfold pieces. induction s as [|a s IH].
  - cbn. destruct pat; [done|]. cbn. split; [done|lia].
  - cbn [str_contains pieces_from]. rewrite prefix_strip. destruct (strip_prefix pat (String a s)) as [r|] eqn:Hp.
    + rewrite bool_decide_eq_true_2 by done. cbn.
      destruct (pieces_from_cons (String.length pat - 1) pat s) as (p & ps & ->). cbn. split; [lia|done].
    + rewrite bool_decide_eq_false_2 by auto. cbn [orb]. rewrite IH.
      destruct (pieces_from_cons 0 pat s) as (p & ps & ->). done.
Qed.

Lemma str_app_inj_len x y u v : String.length x = String.length y -> x +:+ u = y +:+ v -> x = y /\ u = v.
Proof.
  revert y. induction x as [|a x IH]; intros [|b y] Hl; try discriminate Hl; [done|].
  rewrite !app_String. intros [= -> Hxy]. apply IH in Hxy as [-> ->]; [done|]. by injection Hl.
Qed.

Lemma concat_length sep ps :
  String.length (String.concat sep ps) = (foldr (fun p n => String.length p + n) 0 ps + (length ps - 1) * String.length sep)%nat.
Proof.
  induction ps as [|p ps IH]; [done|]. destruct ps as [|q ps]; [cbn; lia|].
  change (String.concat sep (p :: q :: ps)) with (p +:+ (sep +:+ String.concat sep (q :: ps))).
  rewrite !str_length_app, IH. cbn. lia.
Qed.

(** Different substitutions give different results. *)
Lemma concat_inj x y ps : (2 <= length ps)%nat -> String.concat x ps = String.concat y ps -> x = y.
Proof.
  intros Hl Heq. assert (Hlen : String.length x = String.length y).
  { apply (f_equal String.length) in Heq. rewrite !concat_length in Heq. nia. }
  destruct ps as [|p [|q ps]]; cbn in Hl; try lia. cbn in Heq.
  apply str_app_inj_len in Heq as [_ Heq]; [|done]. by apply str_app_inj_len in Heq as [-> _].
Qed.

(** ** Encoding *)

(** What an encoded path may contain. *)
Definition path_safe (a : ascii) : bool :=
  is_ascii_alphanumeric a || existsb (Ascii.eqb a) ["-"; "."; "_"; "~"; ","; "%"; "/"]%char.

Definition nibble_codes (a : ascii) : bool :=
  let b := byte_of a in
  path_unreserved (hex_digit (Z.shiftr b 4)) && path_unreserved (hex_digit (Z.land b 15)).
Lemma nibble_codes_all a : nibble_codes a = true.
Proof. destruct a as [[] [] [] [] [] [] [] []]; vm_compute; reflexivity. Qed.
Lemma nibble_codes_inj a b :
  hex_digit (Z.shiftr (byte_of a) 4) = hex_digit (Z.shiftr (byte_of b) 4) ->
  hex_digit (Z.land (byte_of a) 15) = hex_digit (Z.land (byte_of b) 15) -> a = b.
Proof.
  intros Hh Hl.
  set (value := fun c : ascii => let n := byte_of c in if n <? 58 then n - 48 else n - 55).
  assert (Hv : forall c, value (hex_digit (Z.shiftr (byte_of c) 4)) * 16 + value (hex_digit (Z.land (byte_of c) 15)) = byte_of c)
    by (intros [[] [] [] [] [] [] [] []]; vm_compute; reflexivity).
  assert (Hab : byte_of a = byte_of b) by (rewrite <- (Hv a), <- (Hv b), Hh, Hl; done).
  unfold byte_of in Hab. apply N2Z.inj in Hab. by apply (f_equal ascii_of_N) in Hab; rewrite !ascii_N_embedding in Hab.
Qed.

Lemma unreserved_safe a : path_unreserved a = true -> path_safe a = true.
Proof. destruct a as [[] [] [] [] [] [] [] []]; vm_compute; done. Qed.

Lemma encode_safe s : str_all path_safe (path_percent_encode s) = true /\ ~ str_In slash (path_percent_encode s).
Proof.
  induction s as [|a s [IH IHs]]; [cbn; tauto|]. cbn. destruct (path_unreserved a) eqn:Ha; cbn.
  - rewrite unreserved_safe, IH by done. split; [done|]. intros [->|?]; [done|tauto].
  - pose proof (nibble_codes_all a) as Hn. unfold nibble_codes in Hn. apply andb_prop in Hn as [Hh Hl].
    rewrite (unreserved_safe _ Hh), (unreserved_safe _ Hl), IH. split; [done|].
    intros [?|[Hs|[Hs|?]]]; [done|by rewrite Hs in Hh|by rewrite Hs in Hl|tauto].
Qed.

Lemma encode_inj s t : path_percent_encode s = path_percent_encode t -> s = t.
Proof.
  revert t. induction s as [|a s IH]; intros [|b t]; cbn; try (by case_match). 1: done.
  destruct (path_unreserved a) eqn:Ha, (path_unreserved b) eqn:Hb; intros [=]; subst; try done.
  - f_equal. by apply IH.
  - f_equal; [by apply nibble_codes_inj|by apply IH].
Qed.

#[export] Instance path_percent_encode_inj : Inj (=) (=) path_percent_encode := encode_inj.

Lemma split_concat ss : ss <> [] -> Forall (fun s => ~ str_In slash s) ss -> str_split slash (String.concat "/" ss) = ss.
Proof.
  intros Hne Hss. induction Hss as [|s ss Hs Hss IH]; [done|]. destruct ss as [|u ss]; [by apply str_split_no_sep|].
  change (String.concat "/" (s :: u :: ss)) with (s +:+ String slash (String.concat "/" (u :: ss))).
  rewrite str_split_app by done. by rewrite IH.
Qed.
Lemma concat_split s : String.concat "/" (str_split slash s) = s.
Proof.
  induction s as [|a s IH]; [done|]. cbn [str_split]. destruct (Ascii.eqb_spec a slash) as [->|Hne].
  - rewrite concat_empty by (by destruct (str_split_cons slash s) as (? & ? & ->)). by rewrite IH.
  - destruct (str_split_cons slash s) as (p & ps & E). rewrite E in *. by rewrite concat_String, IH.
Qed.

Lemma encode_segments_split s :
  str_split slash (path_percent_encode_segments s) = path_percent_encode <$> str_split slash s.
Proof.
  unfold path_percent_encode_segments. apply split_concat.
  - by destruct (str_split_cons slash s) as (? & ? & ->).
  - apply Forall_fmap, Forall_true. intros t. apply encode_safe.
Qed.
Lemma encode_segments_inj s t : path_percent_encode_segments s = path_percent_encode_segments t -> s = t.
Proof.
  intros He. apply (f_equal (str_split slash)) in He. rewrite !encode_segments_split in He.
  apply (inj (fmap (M := list) path_percent_encode)) in He.
  rewrite <- (concat_split s), <- (concat_split t), He. done.
Qed.
Lemma encode_segments_safe s : str_all path_safe (path_percent_encode_segments s) = true.
Proof.
  unfold path_percent_encode_segments. induction (str_split slash s) as [|p ps IH]; [done|].
  destruct ps as [|q ps]; [apply encode_safe|].
  change (String.concat "/" (path_percent_encode <$> p :: q :: ps)) with
    (path_percent_encode p +:+ ("/" +:+ String.concat "/" (path_percent_encode <$> (q :: ps)))).
  rewrite !str_all_app, IH. by rewrite (proj1 (encode_safe p)).
Qed.

(** ** Parsed templates *)

Section Wf.
Context `{UrlParser}.

Record entries_wf (keys : NamespaceKeyPolicy) (entries : NamespacedEntries string) : Prop := {
  ew_nodup : NoDup (fst <$> ne_namespaces entries);
  ew_valid : forall ns template, (ns, template) ∈ ne_namespaces entries -> valid_namespace_key ns keys = true /\ ns <> "default" }.

Lemma add_entry_wf keys entry out out' : add_entry keys entry out = Ok out' -> entries_wf keys out -> entries_wf keys out'.
Proof.
  intros Ha [Hnd Hv]. unfold add_entry in Ha. destruct (String.eqb (trim entry) ""); [by injection Ha as <-|].
  destruct (parse_entry keys (trim entry)) as [[key|] value] eqn:Hp.
  - destruct (existsb _ _) eqn:Hdup; [done|]. injection Ha as <-. split; cbn.
    + rewrite fmap_app. cbn. apply NoDup_app. split_and!; [done| |by apply NoDup_singleton].
      intros ns Hns Hin. apply list_elem_of_singleton in Hin as ->. apply list_elem_of_fmap in Hns as ([k v] & -> & Hkv).
      rewrite <- not_true_iff_false, existsb_exists in Hdup. apply Hdup. exists (k, v).
      split; [by apply list_elem_of_In|]. apply String.eqb_refl.
    + intros ns template [Hin|Hin]%elem_of_app; [by eapply Hv|]. apply list_elem_of_singleton in Hin. injection Hin as -> ->.
      unfold parse_entry in Hp. destruct (split_once _ _) as [[k v]|]; [|done].
      destruct (valid_namespace_key (trim k) keys) eqn:Hk; [|done].
      destruct (String.eqb_spec (trim k) "default"); [done|]. by injection Hp as <- _.
  - destruct (ne_default out); [done|]. by injection Ha as <-.
Qed.

Lemma entries_parse_wf raw keys entries : NamespacedEntries_parse raw keys = Ok entries -> entries_wf keys entries.
Proof.
  unfold NamespacedEntries_parse. intros Hp. res_inv. case_match; [done|]. injection Hp as <-.
  assert (Hgo : forall l out out', add_entries keys l out = Ok out' -> entries_wf keys out -> entries_wf keys out').
  { induction l as [|e l IH]; intros out out'; cbn; [by intros [= <-]|]. intros Ha Hwf. res_inv.
    eapply IH; [done|]. by eapply add_entry_wf. }
  eapply Hgo; [done|]. split; cbn; [apply NoDup_nil_2|]. by intros ns t ?%elem_of_nil.
Qed.

(** Every template of a parsed specification was validated. *)
Lemma templates_validated raw policy t template ns rel :
  ResourceTemplates_parse raw policy = Ok t -> select (rt_entries t) ns = Some (template, rel) ->
  exists label, validate_url_template template label policy = Ok tt.
Proof.
  intros Hp Hs. unfold ResourceTemplates_parse in Hp. res_inv. cbn in Hs.
  apply select_cases in Hs. destruct (selected_entry _ ns) as [ns'|].
  - destruct Hs as (Hin & _ & _). apply mapM_Ok in E0. apply list_elem_of_lookup in Hin as [i Hi].
    eapply Forall2_lookup_l in E0 as (u & _ & Hu); [|exact Hi]. cbn in Hu. destruct u. eauto.
  - destruct Hs as [Hd _]. rewrite Hd in E1. destruct a1. eauto.
Qed.
End Wf.

(** A key contributes only safe path text to a URL, and can be read off it. *)
Definition confined (policy : TemplatePolicy) (t : ResourceTemplates) (key url : string) : Prop :=
  exists template rel, select (rt_entries t) key = Some (template, rel) /\
    template = String.concat (tp_placeholder policy) (pieces (tp_placeholder policy) template) /\
    url = String.concat (path_percent_encode_segments rel) (pieces (tp_placeholder policy) template) /\
    str_all path_safe (path_percent_encode_segments rel) = true /\
    (tp_placeholder_must_be_in_path policy = true -> str_contains (tp_placeholder policy) template = true ->
     substitution_has_traversal_segment (path_percent_encode_segments rel) = false).

Section Resolution.
Context `{UrlParser}.

Lemma resolve_confined raw policy t key url :
  tp_placeholder policy <> "" -> ResourceTemplates_parse raw policy = Ok t ->
  resolve_with t key path_percent_encode_segments = Some url -> confined policy t key url.
Proof.
  intros Hne Hp Hr. assert (Ht : rt_placeholder t = tp_placeholder policy /\
    rt_enforce_path_placeholder t = tp_placeholder_must_be_in_path policy).
  { unfold ResourceTemplates_parse in Hp. by res_inv. }
  destruct Ht as [Hpl Hen]. unfold resolve_with in Hr. rewrite Hpl, Hen in Hr.
  apply bind_Some in Hr as ([template rel] & Hs & Hr). destruct (_ && _) eqn:Htr in Hr; [done|]. injection Hr as <-.
  exists template, rel. split_and!; [done|by rewrite pieces_template|apply replace_pieces|apply encode_segments_safe|].
  intros Hpath Hcont. by rewrite Hpath, Hcont in Htr.
Qed.

Lemma confined_inj policy t key key' url :
  tp_placeholder policy <> "" -> selected_entry (rt_entries t) key = selected_entry (rt_entries t) key' ->
  (forall template rel, select (rt_entries t) key = Some (template, rel) -> str_contains (tp_placeholder policy) template = true) ->
  confined policy t key url -> confined policy t key' url -> key = key'.
Proof.
  intros Hne Hsel Hcont (template & rel & Hs & _ & Hu & _) (template' & rel' & Hs' & _ & Hu' & _).
  specialize (Hcont _ _ Hs). apply select_cases in Hs, Hs'. rewrite <- Hsel in Hs'.
  assert (template' = template) as ->.
  { destruct (selected_entry _ key); [destruct Hs as (_ & _ & Hs), Hs' as (_ & _ & Hs')|destruct Hs as [Hs _], Hs' as [Hs' _]]; congruence. }
  assert (Hrel : rel = rel').
  { apply encode_segments_inj. apply (concat_inj _ _ (pieces (tp_placeholder policy) template)).
    - by apply contains_pieces.
    - congruence. }
  subst rel'. destruct (selected_entry _ key) as [ns|].
  - destruct Hs as (_ & Hk & _), Hs' as (_ & Hk' & _). apply split_once_Some in Hk as [-> _], Hk' as [-> _]. done.
  - by destruct Hs as [_ ->], Hs' as [_ ->].
Qed.
End Resolution.

Lemma transposed_Ok {A B} (f : A -> Res TemplateError B) d o b :
  transposed f d o = Ok b -> b = d \/ exists a, o = Some a /\ f a = Ok b.
Proof. destruct o as [a|]; cbn; [eauto|]. intros [= <-]. by left. Qed.

Section ConfigWf.
Context `{UrlParser}.

(** The templates of a configuration are parsed, or absent. *)
Definition templates_parsed (t : ResourceTemplates) : Prop :=
  t = ResourceTemplates_default \/ exists raw, ResourceTemplates_parse raw style_policy = Ok t.

Lemma provider_config_parsed style glyph sprite cfg :
  ProviderConfig_new style glyph sprite = Ok cfg ->
  templates_parsed (pf_style_templates cfg) /\ templates_parsed (pf_sprite_templates cfg).
Proof.
  unfold ProviderConfig_new. intros Hn. res_inv. cbn.
  apply transposed_Ok in E, E1. unfold templates_parsed.
  split; [destruct E as [?|(raw & _ & ?)]|destruct E1 as [?|(raw & _ & ?)]]; eauto.
Qed.

Lemma parsed_confined t key url :
  templates_parsed t -> resolve_with t key path_percent_encode_segments = Some url ->
  confined style_policy t key url /\
  exists template rel label, select (rt_entries t) key = Some (template, rel) /\
    validate_url_template template label style_policy = Ok tt.
Proof.
  intros [->|(raw & Hp)] Hr.
  { unfold resolve_with in Hr. cbn in Hr. unfold select in Hr. cbn in Hr. by destruct (split_once slash key) as [[]|]. }
  assert (Hc : confined style_policy t key url) by (eapply resolve_confined; [|done..]; done).
  split; [done|]. destruct Hc as (template & rel & Hs & _). exists template, rel.
  destruct (templates_validated _ _ _ _ _ _ Hp Hs) as (label & Hl). eauto.
Qed.
End ConfigWf.


Module DemoTemplates.
(** [scheme://authority/path], for the witness. *)
Definition demo_url_parser : UrlParser := {|
  ParsedUrl := string * string;
  Url_parse := fun s =>
    '(scheme, rest) ← split_once ":"%char s;
    rest ← strip_prefix "//" rest;
    '(_, path) ← split_once "/"%char rest;
    Some (scheme, path);
  Url_scheme := fst; Url_path := snd |}.
#[local] Existing Instance demo_url_parser.
Definition demo_config : Res TemplateError ProviderConfig :=
  ProviderConfig_new (Some "carto=https://styles.example/carto/{style_id}/style.json; https://styles.example/{style_id}.json")
    (Some "https://glyphs.example/{fontstack}/{range}.pbf") None.

End DemoTemplates.
