(* ===== verification/ProviderHandlers.v ===== *)
(** * Provider endpoints

    Models [servers/ishikari/src/server/glyph.rs], [sprite.rs], the request side of
    [style.rs] and [provider.rs]: validation of paths, the choice between a peer and a
    local fetch, public and internal responses; and proves what a node learns when it
    asks the owner of a resource over the internal protocol.

    Routing ([ResourceResolver::route_provider_resource]) and local fetches
    ([ProviderFetcher], ProviderCache) are the class [ProviderWorld]. *)

From S2P Require Import Prelude StdModel Types PmtilesFormat PmtilesReader TilesetSources ChunkStore HttpMessage Text Config.
From S2P Require Import CacheControl ProviderPolicy SingleFlight PeerRouting PeerBackend TileArchives Resolver InternalHttp.
From S2P Require Import ProviderFetch ResourceTemplates.

Definition MAX_FONTSTACK_LEN : Z := 256.
Definition MAX_GLYPH_BYTES : Z := 1024 * 1024.
Definition MAX_STYLE_BYTES : Z := 2 * 1024 * 1024.
Definition MAX_SPRITE_JSON_BYTES : Z := 2 * 1024 * 1024.
Definition MAX_SPRITE_PNG_BYTES : Z := 8 * 1024 * 1024.
Definition GLYPH_CONTENT_TYPES : list string :=
  ["application/x-protobuf"; "application/vnd.google.protobuf"; "application/protobuf"; "application/octet-stream"].
Definition STYLE_CONTENT_TYPES : list string := ["application/json"; "text/json"; "application/octet-stream"].
Definition SPRITE_JSON_CONTENT_TYPES : list string := ["application/json"; "text/json"; "application/octet-stream"].
Definition SPRITE_PNG_CONTENT_TYPES : list string := ["image/png"; "application/octet-stream"].

(** ** Validation *)

(** [chars().any(char::is_control)] on UTF-8. *)
Definition control_here (s : string) : bool :=
  match s with
  | String a s =>
      is_ascii_control a ||
      match s with String b _ => (byte_of a =? 194) && (128 <=? byte_of b) && (byte_of b <=? 159) | EmptyString => false end
  | EmptyString => false
  end.
Definition contains_control (s : string) : bool := str_any control_here s.

Definition validate_fontstack (fontstack : string) : Res HttpError unit :=
  if String.eqb fontstack "" || (str_len fontstack >? MAX_FONTSTACK_LEN)
  then Err (BAD_REQUEST, "fontstack length invalid") else
  if contains_control fontstack ||
     existsb (fun part => String.eqb (trim part) "" || str_contains "/" part || str_contains "\" part)
       (str_split comma fontstack)
  then Err (BAD_REQUEST, "fontstack invalid") else Ok tt.

Definition range_invalid : HttpError := (BAD_REQUEST, "glyph range invalid").
Definition validate_range (range : string) : Res HttpError string :=
  '(start, end_) ← ok_or range_invalid (split_once "-"%char (default range (strip_suffix ".pbf" range)));
  start ← ok_or range_invalid (parse_uint u32_max start);
  end_ ← ok_or range_invalid (parse_uint u32_max end_);
  if negb (start mod 256 =? 0) || negb (bool_decide (u32_try_from (start + 255) = Some end_)) then Err range_invalid
  else Ok (decimal start +:+ "-" +:+ decimal end_).

Definition style_key_char (byte : ascii) : bool :=
  is_ascii_alphanumeric byte || existsb (Ascii.eqb byte) ["."; "_"; "-"]%char.
Fixpoint validate_style_segments (segments : list string) : Res HttpError unit :=
  match segments with
  | [] => Ok tt
  | segment :: segments =>
      if String.eqb segment "" || String.eqb segment "." || String.eqb segment ".."
      then Err (BAD_REQUEST, "style_id segment invalid") else
      if negb (str_all style_key_char segment) then Err (BAD_REQUEST, "style_id contains invalid characters") else
      validate_style_segments segments
  end.
Definition validate_style_key (style_key : string) : Res HttpError unit :=
  if String.eqb style_key "" || (str_len style_key >? 200) then Err (BAD_REQUEST, "style_id length invalid") else
  validate_style_segments (str_split slash style_key).

Inductive SpriteFormat := FormatJson | FormatPng.
Definition format_content_type (f : SpriteFormat) : string :=
  match f with FormatJson => "application/json" | FormatPng => "image/png" end.
Definition format_max_bytes (f : SpriteFormat) : Z :=
  match f with FormatJson => MAX_SPRITE_JSON_BYTES | FormatPng => MAX_SPRITE_PNG_BYTES end.
Definition format_accepted_content_types (f : SpriteFormat) : list string :=
  match f with FormatJson => SPRITE_JSON_CONTENT_TYPES | FormatPng => SPRITE_PNG_CONTENT_TYPES end.

Record SpriteRequest := { sr_style_key : string; sr_variant : ProviderSpriteVariant; sr_format : SpriteFormat }.
Definition sprite_tails : list (string * ProviderSpriteVariant * SpriteFormat) :=
  [("/sprite@2x.json", SvJson2x, FormatJson); ("/sprite@2x.png", SvPng2x, FormatPng);
   ("/sprite.json", SvJson, FormatJson); ("/sprite.png", SvPng, FormatPng)].
Definition parse_sprite_path (style_path : string) : option SpriteRequest :=
  head (omap (fun '(tail, variant, format) =>
                style_key ← strip_suffix tail style_path;
                if String.eqb style_key "" then None
                else Some {| sr_style_key := style_key; sr_variant := variant; sr_format := format |}) sprite_tails).

(** ** Handlers *)

Class ProviderWorld (S : Type) := {
  route_provider_resource : ProviderRequest -> SM S string (option ProviderRouteOutcome);
  (** [fetch_bytes] and [fetch_json]. *)
  provider_fetch : BodyValidation -> string -> Z -> string -> list string -> SM S HttpError ProvidedResource }.

Section Handlers.
Context `{ProviderExternals} {S : Type} `{!ProviderWorld S}.
Context (provider : ProviderConfig).

Definition route_peer_resource (request : ProviderRequest) : SM S HttpError (option ProvidedResource) :=
  outcome ← sm_attempt (route_provider_resource request);
  match outcome with
  | inl error => lift (Err (BAD_GATEWAY, kind_as_str (provider_kind request) +:+ " peer route failed: " +:+ error))
  | inr outcome => lift (peer_route_result outcome)
  end.

(** A peer's resource, or the local fetch. *)
Definition route_or_fetch (request : ProviderRequest) (fetch : SM S HttpError ProvidedResource) : SM S HttpError ProvidedResource :=
  resource ← route_peer_resource request;
  match resource with Some resource => mret resource | None => fetch end.

(** What an internal handler answers with the outcome of its local fetch. *)
Definition internal_answer (fetched : Res HttpError ProvidedResource) (content_type : string) : Res HttpError HttpResponse :=
  match fetched with
  | Ok resource => internal_response resource content_type
  | Err error => internal_provider_fetch_error error
  | Panic => Panic
  end.
Definition internal_fetch (fetch : SM S HttpError ProvidedResource) (content_type : string) : SM S HttpError HttpResponse :=
  fun s => let '(fetched, s) := fetch s in (internal_answer fetched content_type, s).

Definition fetch_glyph_bytes_local (upstream : string) : SM S HttpError ProvidedResource :=
  provider_fetch VBytes upstream MAX_GLYPH_BYTES "glyph" GLYPH_CONTENT_TYPES.
Definition glyph_url (fontstack range : string) : Res HttpError string :=
  ok_or (NOT_FOUND, "glyph provider not configured") (resolve_glyph_url provider fontstack range).
Definition route_glyph_bytes (fontstack range upstream : string) : SM S HttpError ProvidedResource :=
  let request := {| pr_resource := PrGlyph fontstack range; pr_upstream_url := upstream |} in
  route_or_fetch request (fetch_glyph_bytes_local (pr_upstream_url request)).

Definition glyph_handler (fontstack range : string) (headers : list (string * string)) : SM S HttpError HttpResponse :=
  _ ← lift (validate_fontstack fontstack);
  range ← lift (validate_range range);
  upstream ← lift (glyph_url fontstack range);
  resource ← route_glyph_bytes fontstack range upstream;
  lift (public_response resource headers (pv_bytes resource) "application/x-protobuf").
Definition internal_glyph_handler (fontstack range : string) : SM S HttpError HttpResponse :=
  _ ← lift (validate_fontstack fontstack);
  range ← lift (validate_range range);
  upstream ← lift (glyph_url fontstack range);
  internal_fetch (fetch_glyph_bytes_local upstream) "application/x-protobuf".

Definition fetch_sprite_bytes_local (upstream : string) (format : SpriteFormat) : SM S HttpError ProvidedResource :=
  provider_fetch (match format with FormatJson => VJson | FormatPng => VBytes end) upstream (format_max_bytes format)
    "sprite" (format_accepted_content_types format).
Definition sprite_url (request : SpriteRequest) : Res HttpError string :=
  ok_or (NOT_FOUND, "sprite provider not configured")
    (resolve_sprite_url provider (sr_style_key request) (suffix (sr_variant request))).
Definition route_sprite_bytes (request : SpriteRequest) (upstream : string) : SM S HttpError ProvidedResource :=
  route_or_fetch {| pr_resource := PrSprite (sr_style_key request) (sr_variant request); pr_upstream_url := upstream |}
    (fetch_sprite_bytes_local upstream (sr_format request)).
Definition serve_sprite (request : SpriteRequest) (headers : list (string * string)) : SM S HttpError HttpResponse :=
  _ ← lift (validate_style_key (sr_style_key request));
  upstream ← lift (sprite_url request);
  resource ← route_sprite_bytes request upstream;
  lift (public_response resource headers (pv_bytes resource) (format_content_type (sr_format request))).
Definition serve_sprite_local (request : SpriteRequest) : SM S HttpError HttpResponse :=
  _ ← lift (validate_style_key (sr_style_key request));
  upstream ← lift (sprite_url request);
  internal_fetch (fetch_sprite_bytes_local upstream (sr_format request)) (format_content_type (sr_format request)).

Definition fetch_style_bytes_local (upstream : string) : SM S HttpError ProvidedResource :=
  provider_fetch VJson upstream MAX_STYLE_BYTES "style" STYLE_CONTENT_TYPES.
Definition style_url (style_key : string) : Res HttpError string :=
  ok_or (NOT_FOUND, "style provider not configured") (resolve_style_url provider style_key).
Definition route_style_bytes (style_key upstream : string) : SM S HttpError ProvidedResource :=
  route_or_fetch {| pr_resource := PrStyle style_key; pr_upstream_url := upstream |} (fetch_style_bytes_local upstream).

Definition internal_style_handler (style_path : string) : SM S HttpError HttpResponse :=
  match strip_suffix "/style.json" style_path with
  | Some style_key =>
      _ ← lift (validate_style_key style_key);
      upstream ← lift (style_url style_key);
      internal_fetch (fetch_style_bytes_local upstream) "application/json"
  | None =>
      match parse_sprite_path style_path with
      | Some request => serve_sprite_local request
      | None => lift (Err (NOT_FOUND, "not found"))
      end
  end.
End Handlers.

(** ** Headers *)

Lemma header_get_app name h h' :
  header_get name (h ++ h') = match header_get name h with Some v => Some v | None => header_get name h' end.
Proof. induction h as [|[n v] h IH]; cbn; [done|]. by destruct (String.eqb n name). Qed.
Lemma header_get_filter_eq name h : header_get name (List.filter (fun e => negb (String.eqb e.1 name)) h) = None.
Proof.
  induction h as [|[n v] h IH]; cbn; [done|]. destruct (String.eqb n name) eqn:E; cbn; [done|]. by rewrite E.
Qed.
Lemma header_get_filter_ne name name' h :
  name <> name' -> header_get name (List.filter (fun e => negb (String.eqb e.1 name')) h) = header_get name h.
Proof.
  intros Hne. induction h as [|[n v] h IH]; cbn; [done|]. destruct (String.eqb_spec n name') as [->|]; cbn.
  - destruct (String.eqb_spec name' name); [congruence|done].
  - by rewrite IH.
Qed.
Lemma header_get_insert_eq name v h : header_get name (header_insert name v h) = Some v.
Proof. unfold header_insert. rewrite header_get_app, header_get_filter_eq. cbn. by rewrite String.eqb_refl. Qed.
Lemma header_get_insert_ne name name' v h : name <> name' -> header_get name (header_insert name' v h) = header_get name h.
Proof.
  intros Hne. unfold header_insert. rewrite header_get_app, header_get_filter_ne by done. cbn.
  destruct (String.eqb_spec name' name); [congruence|]. by destruct (header_get name h).
Qed.
Lemma header_get_insert_text_ne name name' o h : name <> name' -> header_get name (insert_text name' o h) = header_get name h.
Proof. intros Hne. unfold insert_text. repeat case_match; auto using header_get_insert_ne. Qed.
Lemma header_get_insert_text_eq name o h :
  (forall v, o = Some v -> header_valid v = true) -> header_get name h = None ->
  header_get name (insert_text name o h) = o.
Proof.
  intros Hv Hn. unfold insert_text. destruct o as [v|]; [|done]. rewrite (Hv v eq_refl). apply header_get_insert_eq.
Qed.

(** ** Forwarding *)

(** The metadata of the resource fit headers. *)
Record resource_text (r : ProvidedResource) : Prop := {
  rx_cache_control : header_to_str (pv_cache_control r) = Some (pv_cache_control r);
  rx_age : is_u64 (pv_age_seconds r);
  rx_etag : forall v, v_etag (pv_validators r) = Some v -> header_to_str v = Some v;
  rx_last_modified : forall t, v_last_modified (pv_validators r) = Some t -> http_date_range t;
  rx_encoding : forall v, pv_content_encoding r = Some v -> header_to_str v = Some v }.

Section Forwarding.
Context `{ProviderExternals, !ProviderExternalsLaws}.

(** The resource as a peer receives it: HTTP dates carry whole seconds. *)
Definition wire_resource (r : ProvidedResource) : ProvidedResource :=
  {| pv_bytes := pv_bytes r; pv_cache_control := pv_cache_control r; pv_age_seconds := pv_age_seconds r;
     pv_validators := {| v_etag := v_etag (pv_validators r);
                         v_last_modified := truncate_to_seconds <$> v_last_modified (pv_validators r) |};
     pv_content_encoding := pv_content_encoding r |}.

Definition provider_headers : list string :=
  [PROVIDER_CACHE_CONTROL_HEADER; PROVIDER_AGE_HEADER; PROVIDER_ETAG_HEADER; PROVIDER_LAST_MODIFIED_HEADER;
   CONTENT_ENCODING_HEADER; PROVIDER_NEGATIVE_HEADER].

(** What may arrive of a response: nothing, or its status, the headers of the
    protocol and its body in chunks, unless a chunk fails. *)
Definition provider_delivered (response : HttpResponse) (x : Exchange) : Prop :=
  match x with
  | SendFailed _ _ => True
  | Received status headers content_length chunks =>
      status = hr_status response /\
      (forall name, name ∈ provider_headers -> header_get name headers = header_get name (hr_headers response)) /\
      (complete chunks -> received_bytes chunks = hr_body response)
  end.

(** The headers of an internal response. *)
Lemma internal_headers r content_type :
  resource_text r ->
  exists response, internal_response r content_type = Ok response /\ hr_status response = OK /\ hr_body response = pv_bytes r /\
    header_get PROVIDER_CACHE_CONTROL_HEADER (hr_headers response) = Some (pv_cache_control r) /\
    header_get PROVIDER_AGE_HEADER (hr_headers response) = Some (decimal (pv_age_seconds r)) /\
    header_get PROVIDER_ETAG_HEADER (hr_headers response) = v_etag (pv_validators r) /\
    header_get PROVIDER_LAST_MODIFIED_HEADER (hr_headers response) = last_modified_http_date (pv_validators r) /\
    header_get CONTENT_ENCODING_HEADER (hr_headers response) = pv_content_encoding r /\
    header_get PROVIDER_NEGATIVE_HEADER (hr_headers response) = None.
Proof.
  intros Hr. unfold internal_response, apply_internal_headers, insert_expected.
  rewrite (text_valid _ (rx_cache_control r Hr)). cbn [mbind Res_bind].
  assert (Hage : header_valid (decimal (pv_age_seconds r)) = true).
  { apply text_valid. pose proof (concat_valid [decimal (pv_age_seconds r)]) as Hc. apply Hc.
    apply Forall_singleton. by apply decimal_clean, (rx_age r Hr). }
  rewrite Hage. cbn [mbind Res_bind]. eexists. split; [reflexivity|]. cbn [hr_status hr_body hr_headers bytes_response].
  unfold apply_content_encoding.
  assert (Hetag : forall v, v_etag (pv_validators r) = Some v -> header_valid v = true).
  { intros v Hv. by apply text_valid, (rx_etag r Hr). }
  assert (Henc : forall v, pv_content_encoding r = Some v -> header_valid v = true).
  { intros v Hv. by apply text_valid, (rx_encoding r Hr). }
  assert (Hlm : forall v, last_modified_http_date (pv_validators r) = Some v -> header_valid v = true).
  { intros v Hv. apply text_valid. unfold last_modified_http_date in Hv. apply fmap_Some in Hv as (t & Ht & ->).
    by apply law_date_text, (rx_last_modified r Hr). }
  split_and!; try done;
    repeat first [rewrite header_get_insert_text_ne by done | rewrite header_get_insert_eq; done
                 | rewrite header_get_insert_ne by done
                 | rewrite header_get_insert_text_eq; [done|done|]]; done.
Qed.

Lemma last_modified_wire r :
  resource_text r ->
  (last_modified_http_date (pv_validators r) ≫= header_to_str) ≫= parse_http_date =
  truncate_to_seconds <$> v_last_modified (pv_validators r).
Proof.
  intros Hr. unfold last_modified_http_date. destruct (v_last_modified (pv_validators r)) as [t|] eqn:Ht; [|done]. cbn.
  pose proof (rx_last_modified r Hr t Ht) as Hpos. rewrite law_date_text by done. cbn. rewrite law_date by done.
  unfold truncate_to_seconds. by rewrite (proj2 (Z.leb_le _ _) (proj1 Hpos)).
Qed.

(** The response of a handler; a panic gives none. *)
Definition handler_response (result : Res HttpError HttpResponse) : option HttpResponse :=
  match result with Ok response => Some response | Err error => Some (error_into_response error) | Panic => None end.

(** The outcomes of a local fetch. *)
Definition local_ok (local : Res HttpError ProvidedResource) : Prop :=
  match local with
  | Ok r => resource_text r
  | Err e => e.1 = NOT_FOUND \/ e.1 = GONE \/ 500 <= e.1 < 600
  | Panic => False
  end.

(** What the asking node may conclude about the owner's fetch. *)
Definition learned (local : Res HttpError ProvidedResource) (path : string) (x : Exchange)
    (result : Res PeerFetchError InternalFetchResponse) : Prop :=
  match result with
  | Ok response => exists r, local = Ok r /\ from_peer response = Ok (wire_resource r)
  | Err PfProviderNotFound => exists m, local = Err (NOT_FOUND, m)
  | Err PfProviderGone => exists m, local = Err (GONE, m)
  | Err PfNotFound | Panic => False
  | Err (PfRetryable _) =>
      (exists e, local = Err e /\ 500 <= e.1 < 600) \/ exists c m, x = SendFailed c m
  | Err (PfFatal _) => (exists c m, x = SendFailed c m) \/
      exists r, local = Ok r /\
        ~ (exists status headers content_length chunks, x = Received status headers content_length chunks /\
             complete chunks /\ (forall n, content_length = Some n -> n = len (received_bytes chunks)) /\
             len (pv_bytes r) <= internal_response_body_limit path)
  end.

Lemma read_chunks_complete limit chunks body :
  complete chunks -> len (body ++ received_bytes chunks) <= limit -> limit <= u64_max ->
  read_chunks limit body chunks = Ok (body ++ received_bytes chunks).
Proof.
  intros Hc. revert body. induction Hc as [|x chunks [b ->] Hc IH]; intros body Hl Hmax; cbn in *.
  - by rewrite app_nil_r.
  - rewrite app_assoc in Hl. assert (Hb : len (body ++ b) <= limit).
    { rewrite len_app in Hl. assert (0 <= len (received_bytes chunks)) by (unfold len; lia). lia. }
    rewrite len_app in Hb. unfold checked_add. rewrite (proj2 (Z.leb_le _ _)) by lia. cbn.
    rewrite Z.gtb_ltb, (proj2 (Z.ltb_ge _ _)) by lia. rewrite IH by (done || lia). by rewrite <- app_assoc.
Qed.

Lemma body_limit_u64 path : 0 <= internal_response_body_limit path <= u64_max.
Proof.
  unfold internal_response_body_limit, MAX_INTERNAL_BOOTSTRAP_RESPONSE_BYTES.
  repeat case_match; split; by vm_compute.
Qed.

Section Client.
Context (path : string) (Hpath : String.prefix "/_internal/provider/" path = true).

Lemma client_reads_resource r content_type response x :
  resource_text r -> internal_response r content_type = Ok response -> provider_delivered response x ->
  learned (Ok r) path x (http_fetch status_text path x).
Proof.
  intros Hr Hresp Hx. destruct (internal_headers r content_type Hr) as (response' & E & Hs & Hb & Hcc & Hage & Het & Hlm & Hen & Hneg).
  rewrite Hresp in E. injection E as <-. destruct x as [c m|status headers cl chunks]; cbn.
  { destruct c; cbn; [right; eauto|left; eauto]. }
  destruct Hx as (-> & Hh & Hbody). rewrite Hs.
  unfold authoritative_provider_negative. rewrite Hpath. cbn [negb].
  assert (Hget : forall n, n ∈ provider_headers -> header_get n headers = header_get n (hr_headers response)) by done.
  rewrite (Hget PROVIDER_NEGATIVE_HEADER), Hneg by (apply list_elem_of_In; cbn; tauto). cbn [mbind option_bind].
  change (OK =? NOT_FOUND) with false. change ((OK =? TOO_MANY_REQUESTS) || status_is_server_error OK) with false.
  change (negb (status_is_success OK)) with false. cbv iota.
  pose proof (body_limit_u64 path) as Hlim.
  pose proof (read_bounded_body_spec cl chunks (internal_response_body_limit path) (proj1 Hlim)) as Hbs.
  destruct (read_bounded_body cl chunks _) as [bytes|e|] eqn:Hread; cbn [mbind Res_bind]; [|destruct Hbs as [m ->]|done].
  - destruct Hbs as (Hc & -> & _). exists r. split; [done|]. unfold from_peer. cbn.
    rewrite (Hget PROVIDER_CACHE_CONTROL_HEADER), (Hget PROVIDER_AGE_HEADER), (Hget PROVIDER_ETAG_HEADER),
      (Hget PROVIDER_LAST_MODIFIED_HEADER), (Hget CONTENT_ENCODING_HEADER) by (apply list_elem_of_In; cbn; tauto).
    rewrite Hcc, Hage, Het, Hlm, Hen. cbn. rewrite (rx_cache_control r Hr). cbn.
    pose proof (concat_valid [decimal (pv_age_seconds r)]
                  (proj2 (Forall_singleton _ _) (proj1 (decimal_clean _ (rx_age r Hr))))) as Hd. cbn in Hd.
    rewrite Hd. cbn. rewrite parse_decimal by (done || apply (rx_age r Hr)). cbn.
    unfold wire_resource. rewrite (Hbody Hc), Hb, last_modified_wire by done. do 3 f_equal.
    + f_equal. destruct (v_etag (pv_validators r)) as [v|] eqn:Ev; [|done]. cbn. by apply (rx_etag r Hr).
    + destruct (pv_content_encoding r) as [v|] eqn:Ev; [|done]. cbn. by apply (rx_encoding r Hr).
  - right. exists r. split; [done|]. intros (? & ? & ? & ? & Hx & Hc & Hcl & Hl). injection Hx as <- <- <- <-.
    unfold read_bounded_body in Hread. rewrite <- Hb, <- (Hbody Hc) in Hl.
    assert (Hno : match cl with Some length => length >? internal_response_body_limit path | None => false end = false).
    { destruct cl as [n|]; [|done]. rewrite (Hcl n eq_refl), Z.gtb_ltb. apply Z.ltb_ge. lia. }
    rewrite Hno, (read_chunks_complete _ chunks []) in Hread by (done || lia). done.
Qed.

Lemma client_reads_error e result response x :
  e.1 = NOT_FOUND \/ e.1 = GONE \/ 500 <= e.1 < 600 ->
  internal_provider_fetch_error e = result -> handler_response result = Some response -> provider_delivered response x ->
  learned (Err e) path x (http_fetch status_text path x).
Proof.
  intros He <- Hresp Hx. destruct x as [c m|status headers cl chunks]; cbn.
  { destruct c; cbn; [right; eauto|left; eauto]. }
  destruct Hx as (-> & Hh & _). specialize (Hh PROVIDER_NEGATIVE_HEADER ltac:(apply list_elem_of_In; cbn; tauto)).
  unfold authoritative_provider_negative. rewrite Hpath, Hh. cbn [negb]. destruct e as [status m]. cbn in He.
  unfold internal_provider_fetch_error in Hresp. cbn in Hresp.
  destruct (Z.eqb_spec status NOT_FOUND) as [->|H4]; [|destruct (Z.eqb_spec status GONE) as [->|H1]];
    injection Hresp as <-; cbn.
  1: change (header_to_str "not-found") with (Some "not-found"); cbn; by eauto.
  1: change (header_to_str "gone") with (Some "gone"); cbn; by eauto.
  destruct He as [?|[?|He]]; [done..|].
  rewrite (proj2 (Z.eqb_neq status NOT_FOUND) H4). unfold status_is_server_error.
  rewrite (proj2 (Z.leb_le 500 status)), (proj2 (Z.ltb_lt status 600)) by lia. rewrite orb_true_r. cbn. left. eauto.
Qed.
End Client.
End Forwarding.


Module DemoForward.
#[local] Existing Instance DemoOrigin.demo_provider.
#[local] Instance demo_laws : ProviderExternalsLaws.
Proof.
  assert (Hb : forall t, http_date_range t -> is_u64 (as_secs t)).
  { intros t [H0 H1]. unfold as_secs, from_secs, nanos_per_sec in *. unfold is_u64, u64_max. split.
    - by apply Z.div_pos.
    - apply Z.lt_succ_r, Z.div_lt_upper_bound; lia. }
  split; intros t Ht; cbn [parse_http_date fmt_http_date DemoOrigin.demo_provider].
  - change (from_secs <$> parse_uint u64_max (decimal (as_secs t)) = Some (from_secs (as_secs t))).
    by rewrite parse_decimal by (done || by apply Hb).
  - pose proof (concat_valid ["D" +:+ decimal (as_secs t)]) as Hc. apply Hc, Forall_singleton. cbn.
    by apply decimal_clean, Hb.
Qed.

Definition demo_request : ProviderRequest :=
  {| pr_resource := PrGlyph "Noto Sans" "0-255"; pr_upstream_url := "https://fonts/0-255.pbf" |}.
Definition demo_resource : ProvidedResource :=
  {| pv_bytes := [26; 4; 8]; pv_cache_control := "public, max-age=60"; pv_age_seconds := 7;
     pv_validators := {| v_etag := Some "v1"; v_last_modified := Some (from_secs 1700000000 + 5) |};
     pv_content_encoding := None |}.
Definition demo_exchange : Exchange :=
  Received OK [(PROVIDER_CACHE_CONTROL_HEADER, "public, max-age=60"); (PROVIDER_AGE_HEADER, "7");
               (PROVIDER_ETAG_HEADER, "v1"); (PROVIDER_LAST_MODIFIED_HEADER, "D1700000000")]
    (Some 3) [inr [26]; inr [4; 8]].

End DemoForward.
