(* ===== verification/Overlays.v ===== *)
(** * Static map overlays

    Models [servers/biei/src/http/overlay]: the list of overlays in a URL, encoded
    polylines with their style ([path.rs]), pins ([pin.rs]) and GeoJSON documents
    ([geojson.rs]), with [http/parse_util.rs]; the same validators guard requests that
    arrive from a peer. Coordinates are [f64] by their bits (Floats).

    Shows that polylines survive encoding and decoding, and that an accepted GeoJSON
    overlay has a bounded number of positions, all of them on the map. *)

From S2P Require Import Prelude StdModel Types TilesetSources PmtilesFormat Text Floats Json.

Inductive OverlayParseError :=
  | OvEmpty
  | OvInvalidPathSyntax
  | OvInvalidStrokeWidth
  | OvInvalidColor
  | OvInvalidOpacity
  | OvInvalidPercentEncoding
  | OvInvalidByte (byte index : Z)
  | OvTruncated
  | OvCoordinateOverflow
  | OvCoordinateOutOfRange
  | OvTooManyPoints
  | OvTooManyOverlays
  | OvInvalidGeoJsonSyntax
  | OvUnsupportedGeoJsonType
  | OvTooManyFeatures
  | OvTooManyCoordinates
  | OvInvalidPinSyntax
  | OvInvalidPinSize
  | OvInvalidPinLabel.

Definition MAX_STATIC_OVERLAYS : Z := 64.
Definition MAX_PATH_POINTS : Z := 500.
Definition MAX_GEOJSON_FEATURES : Z := 500.
Definition MAX_GEOJSON_COORDINATES : Z := 5000.
Definition MIN_LAT : Z := f64_from_int (-90).
Definition MAX_LAT : Z := f64_from_int 90.
Definition MIN_LON : Z := f64_from_int (-180).
Definition MAX_LON : Z := f64_from_int 180.

(** The [Display] text of an error. *)
Definition overlay_error_text (e : OverlayParseError) : string :=
  match e with
  | OvEmpty => "polyline must not be empty"
  | OvInvalidPathSyntax => "path overlay must be path-...(<polyline>)"
  | OvInvalidStrokeWidth => "path stroke width must be positive"
  | OvInvalidColor => "path color must be a 3- or 6-digit hex color"
  | OvInvalidOpacity => "path opacity must be between 0 and 1"
  | OvInvalidPercentEncoding => "invalid percent-encoded polyline"
  | OvInvalidByte byte index => "invalid polyline byte " +:+ decimal byte +:+ " at index " +:+ decimal index
  | OvTruncated => "polyline ended in the middle of a coordinate"
  | OvCoordinateOverflow => "polyline coordinate overflow"
  | OvCoordinateOutOfRange => "polyline coordinate is out of range"
  | OvTooManyPoints => "path overlay has too many points"
  | OvTooManyOverlays => "request has more than " +:+ decimal MAX_STATIC_OVERLAYS +:+ " overlays"
  | OvInvalidGeoJsonSyntax => "geojson overlay payload is not valid JSON"
  | OvUnsupportedGeoJsonType => "geojson overlay must be a Feature or FeatureCollection"
  | OvTooManyFeatures => "geojson overlay has more than " +:+ decimal MAX_GEOJSON_FEATURES +:+ " features"
  | OvTooManyCoordinates => "geojson overlay has more than " +:+ decimal MAX_GEOJSON_COORDINATES +:+ " coordinates"
  | OvInvalidPinSyntax => "pin overlay must be pin-{s|m|l}[-label]+color(lon,lat)"
  | OvInvalidPinSize => "pin size must be s, m, or l"
  | OvInvalidPinLabel => "pin label must be one ASCII letter or a number from 0 to 99"
  end.

(** ** Percent encoding *)

Definition from_hex (a : ascii) : option Z :=
  let byte := byte_of a in
  if (48 <=? byte) && (byte <=? 57) then Some (byte - 48)
  else if (97 <=? byte) && (byte <=? 102) then Some (byte - 97 + 10)
  else if (65 <=? byte) && (byte <=? 70) then Some (byte - 65 + 10)
  else None.

(** The decoding loop; [plus] says whether a plus sign stands for a space. *)
Fixpoint percent_bytes (plus : bool) (s : string) : option string :=
  match s with
  | EmptyString => Some ""
  | String a s1 =>
      if Ascii.eqb a "%" then
        match s1 with
        | String hi (String lo s2) =>
            hi ← from_hex hi; lo ← from_hex lo;
            String (char_of (Z.lor (Z.shiftl hi 4) lo)) <$> percent_bytes plus s2
        | _ => None
        end
      else String (if plus && Ascii.eqb a "+" then " "%char else a) <$> percent_bytes plus s1
  end.
(** [String::from_utf8]. *)
Definition checked_utf8 (s : string) : option string := if utf8_valid s then Some s else None.

(** [overlay::path::percent_decode]. *)
Definition percent_decode (value : string) : Res OverlayParseError string :=
  ok_or OvInvalidPercentEncoding (percent_bytes false value ≫= checked_utf8).
(** [parse_util::percent_decode_str]. *)
Definition percent_decode_str (value : string) : option string := percent_bytes true value ≫= checked_utf8.

(** ** Coordinates *)

Definition validate_coordinate (point : LngLat) : Res OverlayParseError unit :=
  ensure (f64_contains MIN_LON MAX_LON (ll_lon point) && f64_contains MIN_LAT MAX_LAT (ll_lat point))
    OvCoordinateOutOfRange.

(** [Vec::len]. *)
Definition vec_len {A} (l : list A) : Z := Z.of_nat (length l).

(** [try_for_each]. *)
Fixpoint try_for_each {A} (f : A -> Res OverlayParseError unit) (l : list A) : Res OverlayParseError unit :=
  match l with [] => Ok tt | x :: l => _ ← f x; try_for_each f l end.

(** ** Polylines *)

(** One number: the bytes and the index after it. *)
Fixpoint decode_delta (bytes : list Z) (index result shift : Z) : Res OverlayParseError (Z * (list Z * Z)) :=
  match bytes with
  | [] => Err OvTruncated
  | byte :: bytes =>
      _ ← ensure (63 <=? byte) (OvInvalidByte byte index);
      let value := byte - 63 in
      _ ← ensure (value <=? 63) (OvInvalidByte byte index);
      _ ← ensure (shift <? 60) OvCoordinateOverflow;
      let result := Z.lor result (Z.shiftl (Z.land value 31) shift) in
      if value <? 32 then
        Ok (if Z.land result 1 =? 1 then Z.lnot (Z.shiftr result 1) else Z.shiftr result 1, (bytes, index + 1))
      else decode_delta bytes (index + 1) result (shift + 5)
  end.

Definition i64_checked_add (a b : Z) : option Z :=
  if (- 2 ^ 63 <=? a + b) && (a + b <? 2 ^ 63) then Some (a + b) else None.

Definition polyline_point (lat lon : Z) : LngLat :=
  {| ll_lon := f64_ratio lon 100000; ll_lat := f64_ratio lat 100000 |}.

(** The loop over the bytes; each round takes at least two of them. *)
Fixpoint polyline_loop (fuel : nat) (bytes : list Z) (index lat lon : Z) (points : list LngLat)
    : Res OverlayParseError (list LngLat) :=
  match bytes, fuel with
  | [], _ => Ok points
  | _, O => Panic
  | _, S fuel =>
      '(delta_lat, (bytes, index)) ← decode_delta bytes index 0 0;
      '(delta_lon, (bytes, index)) ← decode_delta bytes index 0 0;
      lat ← ok_or OvCoordinateOverflow (i64_checked_add lat delta_lat);
      lon ← ok_or OvCoordinateOverflow (i64_checked_add lon delta_lon);
      _ ← ensure (vec_len points <? MAX_PATH_POINTS) OvTooManyPoints;
      let point := polyline_point lat lon in
      _ ← validate_coordinate point;
      polyline_loop fuel bytes index lat lon (points ++ [point])
  end.
Definition decode_polyline (encoded : string) : Res OverlayParseError (list LngLat) :=
  _ ← ensure (negb (String.eqb encoded "")) OvEmpty;
  let bytes := str_bytes encoded in
  polyline_loop (length bytes) bytes 0 0 0 [].

(** ** Paths *)

Definition is_ascii_hexdigit (a : ascii) : bool := bool_decide (from_hex a <> None).

Definition parse_optional_color (value : option string) : Res OverlayParseError (option string) :=
  match value with
  | None => Ok None
  | Some value =>
      if ((str_len value =? 3) || (str_len value =? 6)) && str_all is_ascii_hexdigit value
      then Ok (Some (str_to_ascii_lowercase value)) else Err OvInvalidColor
  end.

Definition F32_0_0 : Z := 0.
Definition validate_opacity (opacity : Z) : Res OverlayParseError unit :=
  ensure (f32_is_finite opacity && f32_contains F32_0_0 F32_1_0 opacity) OvInvalidOpacity.
Definition parse_optional_opacity (value : option string) : Res OverlayParseError (option Z) :=
  match value with
  | None => Ok None
  | Some value =>
      opacity ← ok_or OvInvalidOpacity (parse_f32 value);
      _ ← validate_opacity opacity;
      Ok (Some opacity)
  end.
Definition parse_optional_stroke_width (value : string) : Res OverlayParseError (option Z) :=
  if String.eqb value "" then Ok None else
  width ← ok_or OvInvalidStrokeWidth (parse_f32 value);
  if f32_is_finite width && f32_gt width F32_0_0 then Ok (Some width) else Err OvInvalidStrokeWidth.

Definition nonempty (value : string) : option string := if String.eqb value "" then None else Some value.
Definition split_first_optional_pair (value : string) (delimiter : ascii) : string * option string :=
  match split_once delimiter value with
  | None => (value, None)
  | Some (first, second) => (first, nonempty second)
  end.
Definition split_optional_pair (value : string) (delimiter : ascii)
    : Res OverlayParseError (string * option string) :=
  match str_split delimiter value with
  | [] => Ok ("", None)
  | [first] => Ok (first, None)
  | [first; second] => Ok (first, nonempty second)
  | _ => Err OvInvalidPathSyntax
  end.
Definition split_required_pair (value : string) (delimiter : ascii)
    : Res OverlayParseError (string * option string) :=
  '(first, second) ← split_optional_pair value delimiter;
  if String.eqb first "" then Err OvInvalidPathSyntax else Ok (first, second).

Record PathStyle := {
  ps_stroke_width : option Z; ps_stroke_color : option string; ps_stroke_opacity : option Z;
  ps_fill_color : option string; ps_fill_opacity : option Z }.
Definition parse_path_style (style : string) : Res OverlayParseError PathStyle :=
  let '(stroke_width, paint) := split_first_optional_pair style "+" in
  match paint with
  | None =>
      stroke_width ← parse_optional_stroke_width stroke_width;
      Ok {| ps_stroke_width := stroke_width; ps_stroke_color := None; ps_stroke_opacity := None;
            ps_fill_color := None; ps_fill_opacity := None |}
  | Some paint =>
      '(stroke, fill) ← split_optional_pair paint "+";
      '(stroke_color, stroke_opacity) ← split_required_pair stroke "-";
      '(fill_color, fill_opacity) ←
        match fill with
        | Some fill => '(fill_color, fill_opacity) ← split_required_pair fill "-"; Ok (Some fill_color, fill_opacity)
        | None => Ok (None, None)
        end;
      stroke_width ← parse_optional_stroke_width stroke_width;
      stroke_color ← parse_optional_color (Some stroke_color);
      stroke_opacity ← parse_optional_opacity stroke_opacity;
      fill_color ← parse_optional_color fill_color;
      fill_opacity ← parse_optional_opacity fill_opacity;
      Ok {| ps_stroke_width := stroke_width; ps_stroke_color := stroke_color; ps_stroke_opacity := stroke_opacity;
            ps_fill_color := fill_color; ps_fill_opacity := fill_opacity |}
  end.

Definition opacity_ok (opacity : option Z) : Res OverlayParseError unit :=
  match opacity with Some opacity => validate_opacity opacity | None => Ok tt end.
Definition validate_path_overlay (overlay : PathOverlay) : Res OverlayParseError unit :=
  _ ← ensure (negb (bool_decide (po_coordinates overlay = []))) OvEmpty;
  _ ← ensure (vec_len (po_coordinates overlay) <=? MAX_PATH_POINTS) OvTooManyPoints;
  _ ← ensure (match po_stroke_width overlay with
              | Some width => f32_is_finite width && negb (f_le 23 8 width F32_0_0)
              | None => true
              end) OvInvalidStrokeWidth;
  _ ← parse_optional_color (po_stroke_color overlay);
  _ ← parse_optional_color (po_fill_color overlay);
  _ ← opacity_ok (po_stroke_opacity overlay);
  _ ← opacity_ok (po_fill_opacity overlay);
  try_for_each validate_coordinate (po_coordinates overlay).

Definition parse_path_overlay (overlay : string) : Res OverlayParseError PathOverlay :=
  path_body ← ok_or OvInvalidPathSyntax (strip_prefix "path-" overlay);
  '(style, encoded) ← ok_or OvInvalidPathSyntax (split_once "(" path_body);
  encoded ← ok_or OvInvalidPathSyntax (strip_suffix ")" encoded);
  style ← parse_path_style style;
  decoded ← percent_decode encoded;
  coordinates ← decode_polyline decoded;
  let overlay := {| po_stroke_width := ps_stroke_width style; po_stroke_color := ps_stroke_color style;
                    po_stroke_opacity := ps_stroke_opacity style; po_fill_color := ps_fill_color style;
                    po_fill_opacity := ps_fill_opacity style; po_coordinates := coordinates |} in
  _ ← validate_path_overlay overlay;
  Ok overlay.

(** ** Pins *)

Definition is_ascii_alphabetic (a : ascii) : bool := byte_in 65 90 a || byte_in 97 122 a.
Definition ascii_digit (a : ascii) : bool := byte_in 48 57 a.
Definition normalize_pin_label (value : string) : option string :=
  match value with
  | String a EmptyString =>
      if is_ascii_alphabetic a then Some (str_to_ascii_lowercase value)
      else if ascii_digit a then Some value else None
  | String a (String b EmptyString) => if byte_in 49 57 a && ascii_digit b then Some value else None
  | _ => None
  end.

Definition parse_pin_head (value : string) : Res OverlayParseError (PinSize * option string) :=
  let '(size, label) := match split_once "-" value with
                        | Some (size, label) => (size, Some label)
                        | None => (value, None)
                        end in
  size ← (if String.eqb size "s" then Ok Small else if String.eqb size "m" then Ok Medium
          else if String.eqb size "l" then Ok Large else Err OvInvalidPinSize);
  label ← match label with
          | Some label => Some <$> ok_or OvInvalidPinLabel (normalize_pin_label label)
          | None => Ok None
          end;
  Ok (size, label).

Definition parse_lng_lat (value : string) : Res OverlayParseError LngLat :=
  '(lon, lat) ← ok_or OvInvalidPinSyntax (split_once "," value);
  lon ← ok_or OvInvalidPinSyntax (parse_f64 lon);
  lat ← ok_or OvInvalidPinSyntax (parse_f64 lat);
  let point := {| ll_lon := lon; ll_lat := lat |} in
  _ ← validate_coordinate point;
  Ok point.

Definition validate_pin_overlay (overlay : PinOverlay) : Res OverlayParseError unit :=
  _ ← ensure (match pin_label overlay with
              | Some label => bool_decide (normalize_pin_label label <> None)
              | None => true
              end) OvInvalidPinLabel;
  _ ← parse_optional_color (Some (pin_color overlay));
  validate_coordinate (pin_coordinate overlay).

Definition parse_pin_overlay (overlay : string) : Res OverlayParseError PinOverlay :=
  body ← ok_or OvInvalidPinSyntax (strip_prefix "pin-" overlay);
  '(style, coord) ← ok_or OvInvalidPinSyntax (split_once "(" body);
  coord ← ok_or OvInvalidPinSyntax (strip_suffix ")" coord);
  '(head, color) ← ok_or OvInvalidPinSyntax (split_once "+" style);
  '(size, label) ← parse_pin_head head;
  color ← parse_optional_color (Some color);
  color ← ok_or OvInvalidColor color;
  coordinate ← parse_lng_lat coord;
  let overlay := {| pin_size := size; pin_label := label; pin_color := color; pin_coordinate := coordinate |} in
  _ ← validate_pin_overlay overlay;
  Ok overlay.

(** ** GeoJSON *)

Definition geojson_syntax {A} (o : option A) : Res OverlayParseError A := ok_or OvInvalidGeoJsonSyntax o.

Definition validate_position (pos : Value) : Res OverlayParseError unit :=
  arr ← geojson_syntax (as_array pos);
  match arr with
  | lon :: lat :: _ =>
      lon ← geojson_syntax (as_f64 lon);
      lat ← geojson_syntax (as_f64 lat);
      _ ← ensure (f64_is_finite lon && f64_is_finite lat) OvCoordinateOutOfRange;
      ensure (f64_contains MIN_LON MAX_LON lon && f64_contains MIN_LAT MAX_LAT lat) OvCoordinateOutOfRange
  | _ => Err OvInvalidGeoJsonSyntax
  end.

(** Every element of an array. *)
Definition for_items (f : Value -> Res OverlayParseError unit) (v : Value) : Res OverlayParseError unit :=
  items ← geojson_syntax (as_array v);
  try_for_each f items.

Definition is_line (g_type : string) : bool := String.eqb g_type "LineString" || String.eqb g_type "MultiPoint".
Definition is_rings (g_type : string) : bool := String.eqb g_type "Polygon" || String.eqb g_type "MultiLineString".

Definition validate_coordinate_values (g_type : string) (coords : Value) : Res OverlayParseError unit :=
  if String.eqb g_type "Point" then validate_position coords
  else if is_line g_type then for_items validate_position coords
  else if is_rings g_type then for_items (for_items validate_position) coords
  else if String.eqb g_type "MultiPolygon" then for_items (for_items (for_items validate_position)) coords
  else Ok tt.

(** [as_array().map(Vec::len).unwrap_or(0)]. *)
Definition items_len (v : Value) : Z := default 0 (vec_len <$> as_array v).
Definition sum_Z (l : list Z) : Z := foldr Z.add 0 l.
Definition count_coordinates (g_type : string) (coords : Value) : Z :=
  if String.eqb g_type "Point" then 1
  else if is_line g_type then items_len coords
  else if is_rings g_type then default 0 ((fun rings => sum_Z (items_len <$> rings)) <$> as_array coords)
  else if String.eqb g_type "MultiPolygon" then
    default 0 ((fun polys => sum_Z (items_len <$> concat (omap as_array polys))) <$> as_array coords)
  else 0.

Definition geometry_supported (g_type : string) : bool :=
  existsb (String.eqb g_type) ["Point"; "LineString"; "Polygon"; "MultiPoint"; "MultiLineString"; "MultiPolygon"].

(** The total of the coordinates seen so far is threaded through. *)
Definition validate_feature (value : Value) (total_coords : Z) : Res OverlayParseError Z :=
  obj ← geojson_syntax (as_object value);
  _ ← ensure (bool_decide (get_str "type" obj = Some "Feature")) OvInvalidGeoJsonSyntax;
  match obj_get "geometry" obj with
  | None => Ok total_coords
  | Some geom =>
      if is_null geom then Ok total_coords else
      geom_obj ← geojson_syntax (as_object geom);
      g_type ← geojson_syntax (get_str "type" geom_obj);
      _ ← ensure (geometry_supported g_type) OvUnsupportedGeoJsonType;
      coords ← geojson_syntax (obj_get "coordinates" geom_obj);
      let total_coords := saturating_add total_coords (count_coordinates g_type coords) in
      _ ← ensure (total_coords <=? MAX_GEOJSON_COORDINATES) OvTooManyCoordinates;
      _ ← validate_coordinate_values g_type coords;
      Ok total_coords
  end.

Fixpoint validate_features (features : list Value) (total_coords : Z) : Res OverlayParseError Z :=
  match features with
  | [] => Ok total_coords
  | f :: features => total_coords ← validate_feature f total_coords; validate_features features total_coords
  end.

Definition validate_geojson (value : Value) : Res OverlayParseError unit :=
  obj ← geojson_syntax (as_object value);
  type_str ← geojson_syntax (get_str "type" obj);
  if String.eqb type_str "Feature" then _ ← validate_feature value 0; Ok tt
  else if String.eqb type_str "FeatureCollection" then
    features ← geojson_syntax (obj_get "features" obj ≫= as_array);
    _ ← ensure (vec_len features <=? MAX_GEOJSON_FEATURES) OvTooManyFeatures;
    _ ← validate_features features 0;
    Ok tt
  else Err OvUnsupportedGeoJsonType.

Definition parse_geojson_overlay `{JsonText} (overlay : string) : Res OverlayParseError (GeoJsonOverlay Value) :=
  body ← geojson_syntax (strip_prefix "geojson(" overlay);
  body ← geojson_syntax (strip_suffix ")" body);
  decoded ← percent_decode body;
  value ← match json_parse decoded with inr value => Ok value | inl _ => Err OvInvalidGeoJsonSyntax end;
  _ ← validate_geojson value;
  Ok {| gj_feature_collection := value |}.

(** ** Lists of overlays *)

Definition validate_static_overlay (overlay : StaticOverlay Value) : Res OverlayParseError unit :=
  match overlay with
  | OverlayPath path => validate_path_overlay path
  | OverlayGeoJson geojson => validate_geojson (gj_feature_collection geojson)
  | OverlayPin pin => validate_pin_overlay pin
  end.

Definition push_char (a : ascii) (parts : list string) : list string :=
  match parts with [] => [String a ""] | p :: ps => String a p :: ps end.
(** The segments between commas outside parentheses. *)
Fixpoint split_overlays_from (depth : Z) (overlay : string) : Res OverlayParseError (list string) :=
  match overlay with
  | EmptyString => if depth =? 0 then Ok [""] else Err OvInvalidPathSyntax
  | String a rest =>
      if Ascii.eqb a "(" then push_char a <$> split_overlays_from (saturating_add depth 1) rest
      else if Ascii.eqb a ")" then
        if depth =? 0 then Err OvInvalidPathSyntax else push_char a <$> split_overlays_from (depth - 1) rest
      else if Ascii.eqb a "," && (depth =? 0) then cons "" <$> split_overlays_from depth rest
      else push_char a <$> split_overlays_from depth rest
  end.
Definition split_overlays (overlay : string) : Res OverlayParseError (list string) := split_overlays_from 0 overlay.

Definition parse_overlay `{JsonText} (part : string) : Res OverlayParseError (StaticOverlay Value) :=
  if String.prefix "geojson(" part then OverlayGeoJson <$> parse_geojson_overlay part
  else if String.prefix "pin-" part then OverlayPin <$> parse_pin_overlay part
  else OverlayPath <$> parse_path_overlay part.

Definition parse_static_overlays `{JsonText} (overlay : string) : Res OverlayParseError (list (StaticOverlay Value)) :=
  if String.eqb overlay "none" then Ok [] else
  parts ← split_overlays overlay;
  _ ← ensure (vec_len parts <=? MAX_STATIC_OVERLAYS) OvTooManyOverlays;
  mapM parse_overlay parts.

(** ** Encoding of polylines

    The published algorithm: differences of coordinates in units of a hundred
    thousandth of a degree, the sign in the lowest bit, five bits per byte. *)

Fixpoint encode_groups (fuel : nat) (v : Z) : list Z :=
  match fuel with
  | O => []
  | S fuel => if v <? 32 then [v + 63] else (Z.lor 32 (Z.land v 31) + 63) :: encode_groups fuel (Z.shiftr v 5)
  end.
Definition zigzag (delta : Z) : Z := if delta <? 0 then Z.lnot (Z.shiftl delta 1) else Z.shiftl delta 1.
Definition encode_delta (delta : Z) : list Z := encode_groups 12 (zigzag delta).
Fixpoint encode_points (lat lon : Z) (points : list (Z * Z)) : list Z :=
  match points with
  | [] => []
  | (lat', lon') :: points => encode_delta (lat' - lat) ++ encode_delta (lon' - lon) ++ encode_points lat' lon' points
  end.
Definition encode_polyline (points : list (Z * Z)) : string := bytes_str (encode_points 0 0 points).

Definition unzigzag (v : Z) : Z := if Z.land v 1 =? 1 then Z.lnot (Z.shiftr v 1) else Z.shiftr v 1.
Lemma unzigzag_zigzag delta : unzigzag (zigzag delta) = delta.
Proof.
  unfold unzigzag, zigzag. rewrite !Z.shiftl_mul_pow2 by lia.
  change (2 ^ 1) with 2. destruct (Z.ltb_spec delta 0).
  - replace (Z.lnot (delta * 2)) with (2 * (- delta - 1) + 1) by (unfold Z.lnot; lia).
    rewrite (Z.land_ones _ 1), Z.shiftr_div_pow2 by lia. change (2 ^ 1) with 2.
    replace ((2 * (- delta - 1) + 1) mod 2) with 1 by (rewrite Z.add_comm, Z.mul_comm, Z.mod_add; [done|lia]).
    change (1 =? 1) with true. cbv iota. rewrite <- (Z.div_unique (2 * (- delta - 1) + 1) 2 (- delta - 1) 1) by lia.
    unfold Z.lnot. lia.
  - rewrite (Z.land_ones _ 1), Z.shiftr_div_pow2 by lia. change (2 ^ 1) with 2.
    rewrite Z.mod_mul by lia. cbn. by rewrite Z.div_mul.
Qed.
Lemma zigzag_range delta : - 2 ^ 59 <= delta < 2 ^ 59 -> 0 <= zigzag delta < 2 ^ 60.
Proof.
  unfold zigzag. rewrite !Z.shiftl_mul_pow2 by lia. destruct (Z.ltb_spec delta 0); unfold Z.lnot; lia.
Qed.

Lemma low_bits v : 0 <= Z.land v 31 < 32.
Proof. change 31 with (Z.ones 5). rewrite Z.land_ones by lia. apply Z.mod_pos_bound. lia. Qed.
Lemma continued_group v : Z.lor 32 (Z.land v 31) = 32 + Z.land v 31.
Proof.
  pose proof (low_bits v). rewrite Z.lor_comm. change 32 with (Z.shiftl 1 5) at 1. rewrite lor_shiftl_add by lia. lia.
Qed.

Lemma encode_groups_decode fuel v index result shift rest :
  0 <= v < 2 ^ (5 * Z.of_nat fuel) -> (1 <= fuel)%nat -> 0 <= shift -> shift + 5 * Z.of_nat fuel <= 60 ->
  0 <= result < 2 ^ shift ->
  decode_delta (encode_groups fuel v ++ rest) index result shift =
    Ok (unzigzag (result + v * 2 ^ shift), (rest, index + Z.of_nat (length (encode_groups fuel v)))).
Proof.
  revert v index result shift. induction fuel as [|fuel IH]; intros v index result shift Hv Hf Hs Hb Hr; [lia|].
  pose proof (low_bits v) as Hland.
  assert (Hsplit : v = Z.land v 31 + Z.shiftr v 5 * 32).
  { change 31 with (Z.ones 5). rewrite Z.land_ones, Z.shiftr_div_pow2 by lia. change (2 ^ 5) with 32.
    rewrite Z.mul_comm. rewrite Z.add_comm. apply Z.div_mod. lia. }
  cbn [encode_groups]. destruct (Z.ltb_spec v 32) as [Hlt|Hge].
  - cbn [app decode_delta]. rewrite (proj2 (Z.leb_le 63 _)) by lia. cbn [ensure mbind Res_bind].
    replace (v + 63 - 63) with v by lia. rewrite (proj2 (Z.leb_le v 63)) by lia. cbn [ensure mbind Res_bind].
    rewrite (proj2 (Z.ltb_lt shift 60)) by lia. cbn [ensure mbind Res_bind].
    rewrite (proj2 (Z.ltb_lt v 32)) by lia.
    replace (Z.land v 31) with v; [|change 31 with (Z.ones 5); rewrite Z.land_ones, Z.mod_small; lia].
    rewrite lor_shiftl_add by lia. done.
  - cbn [app decode_delta]. rewrite continued_group. rewrite (proj2 (Z.leb_le 63 _)) by lia. cbn [ensure mbind Res_bind].
    replace (32 + Z.land v 31 + 63 - 63) with (32 + Z.land v 31) by lia.
    rewrite (proj2 (Z.leb_le _ 63)) by lia. cbn [ensure mbind Res_bind].
    rewrite (proj2 (Z.ltb_lt shift 60)) by lia. cbn [ensure mbind Res_bind].
    rewrite (proj2 (Z.ltb_ge _ 32)) by lia.
    replace (Z.land (32 + Z.land v 31) 31) with (Z.land v 31).
    2:{ change 31 with (Z.ones 5). rewrite !Z.land_ones by lia. change (2 ^ 5) with 32.
        rewrite <- (Z.add_mod_idemp_l 32) by lia. change (32 mod 32) with 0. by rewrite Z.add_0_l, Zmod_mod. }
    rewrite lor_shiftl_add by lia.
    assert (Hfuel : (1 <= fuel)%nat). { destruct fuel; [cbn in Hv; lia|lia]. }
    rewrite IH.
    + f_equal. f_equal; [|f_equal; cbn [length]; lia]. f_equal.
      rewrite (Z.pow_add_r 2 shift 5) by lia. change (2 ^ 5) with 32. rewrite Hsplit at 3. ring.
    + split; [apply Z.shiftr_nonneg; lia|]. rewrite Z.shiftr_div_pow2 by lia. apply Z.div_lt_upper_bound; [lia|].
      rewrite <- Z.pow_add_r by lia. replace (5 + 5 * Z.of_nat fuel) with (5 * Z.of_nat (S fuel)) by lia. lia.
    + done.
    + lia.
    + lia.
    + split; [nia|]. rewrite Z.pow_add_r by lia. change (2 ^ 5) with 32. nia.
Qed.

Lemma encode_delta_decode delta index rest :
  - 2 ^ 59 <= delta < 2 ^ 59 ->
  decode_delta (encode_delta delta ++ rest) index 0 0 = Ok (delta, (rest, index + Z.of_nat (length (encode_delta delta)))).
Proof.
  intros Hd. unfold encode_delta. pose proof (zigzag_range delta Hd).
  rewrite encode_groups_decode; try lia. by rewrite Z.add_0_l, Z.mul_1_r, unzigzag_zigzag.
Qed.

Lemma encode_groups_nonempty fuel v : encode_groups (S fuel) v <> [].
Proof. cbn. by case_match. Qed.
Lemma encode_groups_bytes fuel v : 0 <= v -> Forall (fun b => 63 <= b < 127) (encode_groups fuel v).
Proof.
  revert v. induction fuel as [|fuel IH]; intros v Hv; cbn; [done|].
  pose proof (low_bits v) as Hland.
  destruct (Z.ltb_spec v 32).
  - apply Forall_singleton. lia.
  - constructor; [|apply IH, Z.shiftr_nonneg; lia].
    rewrite continued_group. lia.
Qed.
Lemma encode_points_bytes lat lon points : Forall (fun b => 63 <= b < 127) (encode_points lat lon points).
Proof.
  assert (Hz : forall d, 0 <= zigzag d).
  { intros d. unfold zigzag. rewrite Z.shiftl_mul_pow2 by lia. destruct (Z.ltb_spec d 0); unfold Z.lnot; lia. }
  revert lat lon. induction points as [|[lat' lon'] points IH]; intros lat lon; cbn [encode_points]; [done|].
  rewrite !Forall_app. split_and!; [apply encode_groups_bytes, Hz..|apply IH].
Qed.

Lemma str_bytes_str l : Forall (fun b => 0 <= b < 256) l -> str_bytes (bytes_str l) = l.
Proof.
  induction 1 as [|b l Hb Hl IH]; cbn; [done|]. rewrite IH. f_equal. unfold byte_of, char_of.
  rewrite N_ascii_embedding by lia. lia.
Qed.

(** A difference that is decoded took bytes. *)
Lemma decode_delta_shrinks bytes index result shift delta rest index' :
  decode_delta bytes index result shift = Ok (delta, (rest, index')) -> (length rest < length bytes)%nat.
Proof.
  revert index result shift. induction bytes as [|b bytes IH]; intros index result shift; cbn; [done|].
  unfold ensure. repeat (case_match; cbn; try done).
  1, 2: intros [= _ <- _]; lia.
  intros H'%IH. lia.
Qed.
Lemma decode_delta_no_panic bytes index result shift : decode_delta bytes index result shift <> Panic.
Proof.
  revert index result shift. induction bytes as [|b bytes IH]; intros index result shift; cbn; [done|].
  unfold ensure. repeat (case_match; cbn; try done).
Qed.

Lemma try_for_each_Ok {A} (f : A -> Res OverlayParseError unit) l :
  try_for_each f l = Ok tt <-> Forall (fun x => f x = Ok tt) l.
Proof.
  induction l as [|x l IH]; cbn; [by split|]. rewrite Forall_cons, <- IH. destruct (f x) as [[]| |]; cbn; naive_solver.
Qed.
Lemma validate_coordinate_no_panic p : validate_coordinate p <> Panic.
Proof. unfold validate_coordinate, ensure. by case_match. Qed.

Definition point_valid (p : LngLat) : Prop := validate_coordinate p = Ok tt.

Lemma polyline_loop_sound fuel bytes index lat lon points :
  (length bytes <= fuel)%nat -> Forall point_valid points -> vec_len points <= MAX_PATH_POINTS ->
  match polyline_loop fuel bytes index lat lon points with
  | Ok points' => Forall point_valid points' /\ vec_len points' <= MAX_PATH_POINTS /\
                  (bytes = [] -> points' = points) /\ (bytes <> [] -> points' <> [])
  | Err _ => True
  | Panic => False
  end.
Proof.
  revert bytes index lat lon points. induction fuel as [|fuel IH]; intros bytes index lat lon points Hf Hp Hl.
  { by destruct bytes; cbn in Hf; [|lia]. }
  destruct bytes as [|b bytes]; [done|]. set (bs := b :: bytes) in *.
  change (polyline_loop (S fuel) bs index lat lon points) with
    ('(delta_lat, (bytes, index)) ← decode_delta bs index 0 0;
     '(delta_lon, (bytes, index)) ← decode_delta bytes index 0 0;
     lat ← ok_or OvCoordinateOverflow (i64_checked_add lat delta_lat);
     lon ← ok_or OvCoordinateOverflow (i64_checked_add lon delta_lon);
     _ ← ensure (vec_len points <? MAX_PATH_POINTS) OvTooManyPoints;
     _ ← validate_coordinate (polyline_point lat lon);
     polyline_loop fuel bytes index lat lon (points ++ [polyline_point lat lon])).
  destruct (decode_delta bs index 0 0) as [[dlat [rest i]]| |] eqn:E1; cbn; [|done|by apply decode_delta_no_panic in E1].
  destruct (decode_delta rest i 0 0) as [[dlon [rest' i']]| |] eqn:E2; cbn; [|done|by apply decode_delta_no_panic in E2].
  apply decode_delta_shrinks in E1, E2.
  destruct (i64_checked_add lat dlat) as [lat'|]; cbn; [|done].
  destruct (i64_checked_add lon dlon) as [lon'|]; cbn; [|done].
  destruct (Z.ltb_spec (vec_len points) MAX_PATH_POINTS) as [Hlt|]; cbn; [|done].
  destruct (validate_coordinate _) as [[]| |] eqn:E3; cbn; [|done|by apply validate_coordinate_no_panic in E3].
  specialize (IH rest' i' lat' lon' (points ++ [polyline_point lat' lon'])).
  destruct (polyline_loop _ _ _ _ _ _) as [points'| |]; [|done|].
  - destruct IH as (Hv & Hn & He & Hne); [lia|by apply Forall_app_2; [|apply Forall_singleton]| |].
    + unfold vec_len in *. rewrite length_app. cbn. lia.
    + split_and!; try done. intros _. destruct rest' as [|? ?]; [rewrite He by done; by destruct points|by apply Hne].
  - apply IH; [lia|by apply Forall_app_2; [|apply Forall_singleton]|].
    unfold vec_len in *. rewrite length_app. cbn. lia.
Qed.

(** The coordinates of a point in hundred thousandths of a degree. *)
Definition encodable (p : Z * Z) : Prop := - 2 ^ 58 <= p.1 < 2 ^ 58 /\ - 2 ^ 58 <= p.2 < 2 ^ 58.
Definition decoded_point (p : Z * Z) : LngLat := polyline_point p.1 p.2.

Lemma polyline_loop_encoded fuel points lat lon index acc :
  encodable (lat, lon) -> Forall encodable points ->
  (length points <= fuel)%nat -> vec_len (acc ++ (decoded_point <$> points)) <= MAX_PATH_POINTS ->
  polyline_loop fuel (encode_points lat lon points) index lat lon acc =
    (_ ← try_for_each validate_coordinate (decoded_point <$> points); Ok (acc ++ (decoded_point <$> points))).
Proof.
  intros H0 Hp. revert fuel lat lon index acc H0.
  induction Hp as [|[lat' lon'] points Hq Hp IH]; intros fuel lat lon index acc H0 Hf Hl; cbn [encode_points].
  { cbn. by destruct fuel; rewrite app_nil_r. }
  destruct fuel as [|fuel]; [cbn in Hf; lia|].
  assert (Hne : encode_delta (lat' - lat) ++ encode_delta (lon' - lon) ++ encode_points lat' lon' points <> []).
  { intros [He _]%app_eq_nil. by apply encode_groups_nonempty in He. }
  unfold encodable in H0, Hq. cbn in H0, Hq.
  assert (Hlen : vec_len acc < MAX_PATH_POINTS).
  { unfold vec_len in *. rewrite length_app, length_fmap in Hl. cbn in Hl. lia. }
  cbn [polyline_loop]. destruct (encode_delta (lat' - lat) ++ _) as [|b bs] eqn:E; [done|]. rewrite <- E.
  rewrite encode_delta_decode by lia. cbn [mbind Res_bind]. rewrite encode_delta_decode by lia. cbn [mbind Res_bind].
  unfold i64_checked_add.
  replace (lat + (lat' - lat)) with lat' by lia. replace (lon + (lon' - lon)) with lon' by lia.
  rewrite !(proj2 (Z.leb_le _ _)), !(proj2 (Z.ltb_lt _ _)) by lia. cbn [andb ok_or mbind Res_bind ensure].
  cbn [fmap list_fmap try_for_each]. change (decoded_point (lat', lon')) with (polyline_point lat' lon').
  destruct (validate_coordinate (polyline_point lat' lon')) as [[]| |]; cbn [mbind Res_bind]; [|done..].
  rewrite IH; [by rewrite <- app_assoc|done|cbn in Hf; lia|].
  by rewrite <- app_assoc.
Qed.


(** ** What a GeoJSON overlay contains *)

(** The positions below a number of array levels. *)
Fixpoint nested (depth : nat) (v : Value) : option (list Value) :=
  match depth with
  | O => Some [v]
  | S depth => items ← as_array v; parts ← mapM (nested depth) items; Some (concat parts)
  end.
Definition geometry_depth (g_type : string) : nat :=
  if String.eqb g_type "Point" then 0 else if is_line g_type then 1 else if is_rings g_type then 2 else 3.

(** A position on the map. *)
Definition on_map (pos : Value) : Prop :=
  exists lon lat rest x y, pos = JArray (lon :: lat :: rest) /\ as_f64 lon = Some x /\ as_f64 lat = Some y /\
    (f64_is_finite x && f64_is_finite y = true) /\
    (f64_contains MIN_LON MAX_LON x && f64_contains MIN_LAT MAX_LAT y = true).

(** A feature with these positions. *)
Definition is_feature (f : Value) (ps : list Value) : Prop :=
  exists obj, f = JObject obj /\ get_str "type" obj = Some "Feature" /\
    match obj_get "geometry" obj with
    | None | Some JNull => ps = []
    | Some geom => exists g g_type coords, geom = JObject g /\ get_str "type" g = Some g_type /\
        geometry_supported g_type = true /\ obj_get "coordinates" g = Some coords /\
        nested (geometry_depth g_type) coords = Some ps
    end.

(** The features of a document. *)
Definition is_document (doc : Value) (features : list Value) : Prop :=
  exists obj, doc = JObject obj /\
    ((get_str "type" obj = Some "Feature" /\ features = [doc]) \/
     (get_str "type" obj = Some "FeatureCollection" /\ obj_get "features" obj = Some (JArray features))).

Lemma ensure_Ok {E} b (e : E) : ensure b e = Ok tt <-> b = true.
Proof. unfold ensure. by destruct b. Qed.
Lemma ensure_bind {E A} b (e : E) (r : Res E A) a : (_ ← ensure b e; r) = Ok a <-> b = true /\ r = Ok a.
Proof. unfold ensure. destruct b; cbn; naive_solver. Qed.
Lemma syntax_bind {A B} (o : option A) (f : A -> Res OverlayParseError B) b :
  geojson_syntax o ≫= f = Ok b <-> exists a, o = Some a /\ f a = Ok b.
Proof. destruct o; cbn; naive_solver. Qed.

Lemma on_map_spec pos : validate_position pos = Ok tt <-> on_map pos.
Proof.
  unfold validate_position. rewrite syntax_bind. split.
  - intros (items & Hi & Hp). destruct pos; try done. injection Hi as ->. destruct items as [|lon [|lat rest]]; try done.
    apply syntax_bind in Hp as (x & Hx & Hp). apply syntax_bind in Hp as (y & Hy & Hp).
    apply ensure_bind in Hp as [Hf Hc]. apply ensure_Ok in Hc. by exists lon, lat, rest, x, y.
  - intros (lon & lat & rest & x & y & -> & Hx & Hy & Hf & Hc). eexists. split; [done|]. cbv beta iota.
    apply syntax_bind. exists x. split; [done|]. apply syntax_bind. exists y. split; [done|].
    by rewrite Hf, Hc.
Qed.

Lemma for_items_nested depth f P v :
  (forall x, f x = Ok tt <-> exists ps, nested depth x = Some ps /\ Forall P ps) ->
  for_items f v = Ok tt <-> exists ps, nested (S depth) v = Some ps /\ Forall P ps.
Proof.
  intros Hf. unfold for_items. rewrite syntax_bind. cbn [nested]. split.
  - intros (items & Hi & Ht). rewrite Hi. cbn. apply try_for_each_Ok in Ht. clear Hi. induction Ht as [|x items Hx Ht IH].
    { exists []. by cbn. }
    apply Hf in Hx as (ps & Hn & Hp). destruct IH as (qs & Hm & Hq). cbn. rewrite Hn. cbn.
    destruct (mapM (nested depth) items) as [parts|]; [|done]. injection Hm as <-. cbn. eexists. split; [done|].
    by apply Forall_app_2.
  - intros (ps & Hn & Hp). destruct (as_array v) as [items|]; [|done]. exists items. split; [done|].
    apply try_for_each_Ok. cbn in Hn. destruct (mapM (nested depth) items) as [parts|] eqn:Hm; [|done].
    injection Hn as <-. apply mapM_Some in Hm. induction Hm as [|x part items parts Hx Hm IH]; [done|].
    cbn in Hp. apply Forall_app in Hp as [Hp Hq]. constructor; [|by apply IH]. apply Hf. eauto.
Qed.

Lemma coordinate_values_spec g_type coords :
  geometry_supported g_type = true ->
  validate_coordinate_values g_type coords = Ok tt <->
  exists ps, nested (geometry_depth g_type) coords = Some ps /\ Forall on_map ps.
Proof.
  intros Hg. assert (H0 : forall x, validate_position x = Ok tt <-> exists ps, nested 0 x = Some ps /\ Forall on_map ps).
  { intros x. rewrite on_map_spec. cbn. split; [intros ?; eexists; split; [done|by apply Forall_singleton]|].
    intros (ps & [= <-] & Hp). by inversion Hp. }
  pose proof (fun v => for_items_nested 0 _ _ v H0) as H1.
  pose proof (fun v => for_items_nested 1 _ _ v H1) as H2. pose proof (fun v => for_items_nested 2 _ _ v H2) as H3.
  unfold validate_coordinate_values, geometry_depth.
  destruct (String.eqb g_type "Point") eqn:Ep; [apply H0|]. destruct (is_line g_type) eqn:El; [apply H1|].
  destruct (is_rings g_type) eqn:Er; [apply H2|]. destruct (String.eqb g_type "MultiPolygon") eqn:Em; [apply H3|].
  exfalso. unfold geometry_supported, is_line, is_rings in *. cbn in Hg. rewrite Em, Ep in Hg.
  apply orb_false_iff in El as [El1 El2], Er as [Er1 Er2]. by rewrite El1, El2, Er1, Er2 in Hg.
Qed.

(** ** Counting *)

Lemma nested_S depth v ps :
  nested (S depth) v = Some ps ->
  exists items parts, as_array v = Some items /\ Forall2 (fun x p => nested depth x = Some p) items parts /\ ps = concat parts.
Proof.
  cbn. intros (items & Hi & Hm)%bind_Some. apply bind_Some in Hm as (parts & Hm & [= <-]). apply mapM_Some in Hm. eauto.
Qed.
Lemma sum_Z_app l l' : sum_Z (l ++ l') = sum_Z l + sum_Z l'.
Proof. induction l as [|x l IH]; cbn; [done|]. fold sum_Z. unfold sum_Z in *. lia. Qed.
Lemma vec_len_app {A} (l l' : list A) : vec_len (l ++ l') = vec_len l + vec_len l'.
Proof. unfold vec_len. rewrite length_app. lia. Qed.
Lemma sum_parts (g : Value -> Z) items parts :
  Forall2 (fun x p => g x = vec_len (A := Value) p) items parts -> sum_Z (g <$> items) = vec_len (concat parts).
Proof.
  induction 1 as [|x p items parts Hx Hi IH]; [done|]. cbn [fmap list_fmap concat]. rewrite vec_len_app, <- IH, <- Hx. done.
Qed.
Lemma count_points v ps : nested 1 v = Some ps -> items_len v = vec_len ps.
Proof.
  intros (items & parts & Hi & Hp & ->)%nested_S. unfold items_len. rewrite Hi. change (vec_len items = vec_len (concat parts)).
  clear Hi. induction Hp as [|x p items parts Hx Hp IH]; [done|]. cbn in Hx. injection Hx as <-. cbn [concat].
  rewrite vec_len_app, <- IH. unfold vec_len. cbn [length]. lia.
Qed.
Lemma count_rings v ps :
  nested 2 v = Some ps -> exists rings, as_array v = Some rings /\ sum_Z (items_len <$> rings) = vec_len ps.
Proof.
  intros (items & parts & Hi & Hp & ->)%nested_S. exists items. split; [done|]. apply sum_parts.
  eapply Forall2_impl; [done|]. intros x p. apply count_points.
Qed.
Lemma count_polygons v ps :
  nested 3 v = Some ps ->
  exists polys, as_array v = Some polys /\ sum_Z (items_len <$> concat (omap as_array polys)) = vec_len ps.
Proof.
  intros (items & parts & Hi & Hp & ->)%nested_S. exists items. split; [done|]. clear Hi.
  induction Hp as [|x p items parts Hx Hp IH]; [done|]. apply count_rings in Hx as (rings & Hr & Hs). cbn [omap list_omap].
  rewrite Hr. cbn [concat]. by rewrite fmap_app, sum_Z_app, vec_len_app, Hs, IH.
Qed.
Lemma count_spec g_type coords ps :
  geometry_supported g_type = true -> nested (geometry_depth g_type) coords = Some ps ->
  count_coordinates g_type coords = vec_len ps.
Proof.
  intros Hg Hn. unfold count_coordinates, geometry_depth in *.
  destruct (String.eqb g_type "Point") eqn:Ep; [by injection Hn as <-|].
  destruct (is_line g_type) eqn:El; [by apply count_points|]. destruct (is_rings g_type) eqn:Er.
  - apply count_rings in Hn as (rings & -> & Hs). done.
  - destruct (String.eqb g_type "MultiPolygon") eqn:Em; [by apply count_polygons in Hn as (polys & -> & Hs)|].
    unfold geometry_supported, is_line, is_rings in *. cbn in Hg. rewrite Em, Ep in Hg.
    apply orb_false_iff in El as [El1 El2], Er as [Er1 Er2]. by rewrite El1, El2, Er1, Er2 in Hg.
Qed.

Lemma vec_len_nonneg {A} (l : list A) : 0 <= vec_len l.
Proof. unfold vec_len. lia. Qed.

Lemma feature_spec f total total' :
  0 <= total <= MAX_GEOJSON_COORDINATES ->
  validate_feature f total = Ok total' <->
  exists ps, is_feature f ps /\ Forall on_map ps /\ total' = total + vec_len ps /\ total' <= MAX_GEOJSON_COORDINATES.
Proof.
  intros Ht. unfold validate_feature, is_feature. rewrite syntax_bind. split.
  - intros (obj & Ho & Hv). destruct f; try done. injection Ho as ->. apply ensure_bind in Hv as [Hty%bool_decide_eq_true Hv].
    destruct (obj_get "geometry" obj) as [geom|] eqn:Hg.
    2:{ injection Hv as <-. exists []. split_and!; [|done|unfold vec_len; cbn [length]; lia|lia]. exists obj. by rewrite Hg. }
    destruct (is_null geom) eqn:Hn.
    { injection Hv as <-. exists []. split_and!; [|done|unfold vec_len; cbn [length]; lia|lia]. exists obj. rewrite Hg. by destruct geom. }
    apply syntax_bind in Hv as (g & Hgo & Hv). apply syntax_bind in Hv as (ty & Hgt & Hv).
    apply ensure_bind in Hv as [Hs Hv]. apply syntax_bind in Hv as (coords & Hc & Hv). cbv zeta in Hv.
    apply ensure_bind in Hv as [Hb Hv]. apply Z.leb_le in Hb.
    destruct (validate_coordinate_values ty coords) as [[]| |] eqn:Hcv; try done. cbn in Hv. injection Hv as <-.
    apply coordinate_values_spec in Hcv as (ps & Hn' & Hps); [|done]. rewrite (count_spec ty coords ps) in * by done.
    pose proof (vec_len_nonneg ps). unfold saturating_add in *.
    exists ps. split_and!; [|done|unfold MAX_GEOJSON_COORDINATES, u64_max in *; lia..].
    exists obj. split_and!; [done..|]. rewrite Hg. destruct geom; try done. injection Hgo as ->. naive_solver.
  - intros (ps & (obj & -> & Hty & Hg) & Hps & -> & Hle). exists obj. split; [done|]. apply ensure_bind.
    rewrite Hty. split; [done|]. destruct (obj_get "geometry" obj) as [geom|]; [|subst; f_equal; unfold vec_len; cbn [length]; lia].
    destruct (is_null geom) eqn:Hn; [destruct geom; try done; subst; f_equal; unfold vec_len; cbn [length]; lia|].
    assert (Hg' : exists g g_type coords, geom = JObject g /\ get_str "type" g = Some g_type /\
        geometry_supported g_type = true /\ obj_get "coordinates" g = Some coords /\
        nested (geometry_depth g_type) coords = Some ps) by (by destruct geom).
    destruct Hg' as (g & ty & coords & -> & Hgt & Hs & Hc & Hn').
    apply syntax_bind. exists g. split; [done|]. apply syntax_bind. exists ty. split; [done|].
    apply ensure_bind. split; [done|]. apply syntax_bind. exists coords. split; [done|]. cbv zeta.
    rewrite (count_spec ty coords ps) by done. pose proof (vec_len_nonneg ps).
    assert (Hsat : saturating_add total (vec_len ps) = total + vec_len ps).
    { unfold saturating_add, MAX_GEOJSON_COORDINATES, u64_max in *. lia. }
    rewrite Hsat. apply ensure_bind. split; [by apply Z.leb_le|].
    rewrite (proj2 (coordinate_values_spec ty coords Hs)) by eauto. done.
Qed.

Lemma features_spec features total total' :
  0 <= total <= MAX_GEOJSON_COORDINATES ->
  validate_features features total = Ok total' <->
  exists pss, Forall2 is_feature features pss /\ Forall on_map (concat pss) /\
    total' = total + vec_len (concat pss) /\ total' <= MAX_GEOJSON_COORDINATES.
Proof.
  revert total. induction features as [|f features IH]; intros total Ht; cbn [validate_features].
  - split.
    + intros [= <-]. exists []. split_and!; [constructor|done|unfold vec_len; cbn [concat length]; lia|lia].
    + intros (pss & Hf & _ & -> & _). inversion Hf. f_equal. unfold vec_len. cbn [concat length]. lia.
  - split.
    + intros Hv. destruct (validate_feature f total) as [t1| |] eqn:E; try done. cbn in Hv.
      apply feature_spec in E as (ps & Hf & Hp & -> & Hle); [|done]. pose proof (vec_len_nonneg ps).
      apply IH in Hv as (pss & Hfs & Hps & -> & Hle'); [|lia]. exists (ps :: pss). cbn [concat].
      rewrite vec_len_app. split_and!; [by constructor|by apply Forall_app_2|lia..].
    + intros (pss & Hf & Hp & -> & Hle). inversion Hf as [|? ps ? pss' Hf1 Hf2]; subst. cbn [concat] in *.
      apply Forall_app in Hp as [Hp1 Hp2]. rewrite vec_len_app in *.
      pose proof (vec_len_nonneg ps). pose proof (vec_len_nonneg (concat pss')).
      rewrite (proj2 (feature_spec f total (total + vec_len ps) Ht)).
      2:{ exists ps. split_and!; try done. lia. }
      cbn [mbind Res_bind]. apply IH; [lia|]. exists pss'. split_and!; try done. lia.
Qed.

(** GeoJSON overlays. A document is accepted exactly when it is a feature or a
    collection of at most 500 features, each with a missing, null or supported geometry
    whose coordinates are nested as its type says, and it has at most 5000 positions
    in all, every one of them two finite numbers on the map. So no accepted overlay
    hides positions from the limit or from the range check. *)
Theorem geojson_accepted doc :
  validate_geojson doc = Ok tt <->
  exists features pss, is_document doc features /\ vec_len features <= MAX_GEOJSON_FEATURES /\
    Forall2 is_feature features pss /\ vec_len (concat pss) <= MAX_GEOJSON_COORDINATES /\ Forall on_map (concat pss).
Proof.
  assert (H0 : 0 <= 0 <= MAX_GEOJSON_COORDINATES) by (unfold MAX_GEOJSON_COORDINATES; lia).
  unfold validate_geojson, is_document. rewrite syntax_bind. split.
  - intros (obj & Ho & Hv). destruct doc; try done. injection Ho as ->. apply syntax_bind in Hv as (ty & Hty & Hv).
    destruct (String.eqb_spec ty "Feature") as [->|_]; [|destruct (String.eqb_spec ty "FeatureCollection") as [->|_]; [|done]].
    + destruct (validate_feature (JObject obj) 0) as [t| |] eqn:E; try done.
      apply feature_spec in E as (ps & Hf & Hp & -> & Hle); [|done]. exists [JObject obj], [ps]. cbn [concat].
      rewrite app_nil_r. split_and!; [by exists obj; split; [|left]|done|by repeat constructor|lia|done].
    + apply syntax_bind in Hv as (features & Hfe & Hv). apply ensure_bind in Hv as [Hl%Z.leb_le Hv].
      destruct (validate_features features 0) as [t| |] eqn:E; try done.
      apply features_spec in E as (pss & Hf & Hp & -> & Hle); [|done].
      apply bind_Some in Hfe as (v & Hg & Ha). destruct v; try done. injection Ha as ->.
      exists features, pss. split_and!; [exists obj; split; [done|by right]|done|done|lia|done].
  - intros (features & pss & (obj & -> & Hd) & Hl & Hf & Hc & Hp). exists obj. split; [done|].
    destruct Hd as [[Hty ->]|[Hty Hfe]]; rewrite Hty; cbn [geojson_syntax ok_or mbind Res_bind].
    + inversion Hf as [|? ps ? ? Hf1 Hf2]; subst. inversion Hf2; subst. cbn [concat] in *. rewrite app_nil_r in *.
      change (String.eqb "Feature" "Feature") with true. cbv iota.
      rewrite (proj2 (feature_spec (JObject obj) 0 (0 + vec_len ps) H0)); [done|]. exists ps. split_and!; try done; lia.
    + change (String.eqb "FeatureCollection" "Feature") with false.
      change (String.eqb "FeatureCollection" "FeatureCollection") with true. cbv iota.
      apply syntax_bind. exists features. rewrite Hfe. split; [done|]. apply ensure_bind. split; [by apply Z.leb_le|].
      rewrite (proj2 (features_spec features 0 (0 + vec_len (concat pss)) H0)); [done|]. exists pss. split_and!; try done; lia.
Qed.

(** ** Parsed overlays are valid *)

Lemma fmap_Ok {E A B} (f : A -> B) (r : Res E A) b : f <$> r = Ok b -> exists a, r = Ok a /\ b = f a.
Proof. destruct r; cbn; naive_solver. Qed.
Lemma parse_overlay_valid `{JsonText} part overlay : parse_overlay part = Ok overlay -> validate_static_overlay overlay = Ok tt.
Proof.
  unfold parse_overlay. repeat case_match; intros (o & Ho & ->)%fmap_Ok; cbn.
  - unfold parse_geojson_overlay in Ho. repeat (apply bind_Ok in Ho as (? & ? & Ho)). injection Ho as <-. cbn.
    by destruct (validate_geojson _) as [[]| |].
  - unfold parse_pin_overlay in Ho. apply bind_Ok in Ho as (? & _ & Ho).
    repeat (apply bind_Ok in Ho as (? & ? & Ho); repeat case_match; simplify_eq/=). all: by destruct (validate_pin_overlay _) as [[]| |].
  - unfold parse_path_overlay in Ho. apply bind_Ok in Ho as (? & _ & Ho).
    repeat (apply bind_Ok in Ho as (? & ? & Ho); repeat case_match; simplify_eq/=). all: by destruct (validate_path_overlay _) as [[]| |].
Qed.

Lemma parse_static_overlays_valid `{JsonText} overlay overlays :
  parse_static_overlays overlay = Ok overlays ->
  vec_len overlays <= MAX_STATIC_OVERLAYS /\ Forall (fun o => validate_static_overlay o = Ok tt) overlays.
Proof.
  unfold parse_static_overlays. destruct (String.eqb overlay "none"); [intros [= <-]; by split; [|constructor]|].
  intros (parts & _ & Hp)%bind_Ok. apply ensure_bind in Hp as [Hl%Z.leb_le Hp]. apply mapM_Ok in Hp.
  split; [unfold vec_len in *; by rewrite <- (Forall2_length _ _ _ Hp)|].
  clear Hl. induction Hp as [|part o parts overlays Hpo Hp IH]; constructor; [by apply parse_overlay_valid in Hpo|done].
Qed.

Module DemoOverlays.
Definition demo_points : list (Z * Z) := [(3850000, -12020000); (4070000, -12095000); (4325200, -12645300)].

End DemoOverlays.
