(* ===== verification/AddLayers.v ===== *)
(** * Additional style layers

    Models [servers/biei/src/http/addlayer.rs]: the style layer a static image request
    may carry as JSON, its validation at the public ingress and again where a request
    arrives from a peer. Reading and writing JSON is the class [JsonText]; the hash of
    a layer is a parameter. *)

From S2P Require Import Prelude StdModel Types TilesetSources Text Floats Json Overlays PeerBackend ResourceTemplates.

Inductive IngressError :=
  | InvalidRequest (detail : string)
  | UnknownStyle (style_id : StyleId).
Definition invalid (detail : string) : IngressError := InvalidRequest detail.
Abbreviation Ingress := (Res IngressError).
Definition refuse {A} (detail : string) : Ingress A := Err (invalid detail).

Definition MAX_ADDLAYER_JSON_BYTES : Z := 4096.
Definition MAX_ADDLAYER_JSON_DEPTH : Z := 16.
Definition MAX_ADDLAYER_SOURCE_JSON_BYTES : Z := 8192.
Definition MAX_ADDLAYER_STRING_LEN : Z := 64.
Definition MAX_ADDLAYER_TILESET_SEGMENTS : Z := 16.
Definition ADDLAYER_BIEI_ID_PREFIX : string := "__biei_".
Definition ADDLAYER_ALLOWED_TYPES : list string := ["fill"; "line"; "circle"].

(** The [Debug] text of a string without characters to escape. *)
Definition debug_str (s : string) : string := String (char_of 34) (s +:+ String (char_of 34) "").

(** Letters, digits and the given characters. *)
Definition id_char (extra : list ascii) (a : ascii) : bool := is_ascii_alphanumeric a || existsb (Ascii.eqb a) extra.
Definition layer_id_char : ascii -> bool := id_char ["-"; "_"; "."; ":"]%char.

Fixpoint check_segments (segments : list string) : Ingress unit :=
  match segments with
  | [] => Ok tt
  | segment :: segments =>
      if String.eqb segment "" then
        refuse "addlayer `source.url` tileset id must not have empty, leading, trailing, or repeated `/` segments"
      else if String.eqb segment "." || String.eqb segment ".." then
        refuse "addlayer `source.url` tileset id must not contain `.` or `..` path segments"
      else if negb (str_all layer_id_char segment) then
        refuse "addlayer `source.url` tileset id contains an unsupported character"
      else check_segments segments
  end.
Definition addlayer_tileset_id (value : string) : Ingress unit :=
  if String.eqb value "" || (str_len value >? MAX_ADDLAYER_STRING_LEN) then
    refuse ("addlayer `source.url` tileset id must be 1..=" +:+ decimal MAX_ADDLAYER_STRING_LEN +:+ " bytes")
  else if String.prefix "http://" value || String.prefix "https://" value then
    refuse "addlayer `source.url` must be a biei tileset id, not a direct URL"
  else
  _ ← check_segments (str_split slash value);
  if vec_len (str_split slash value) >? MAX_ADDLAYER_TILESET_SEGMENTS then
    refuse ("addlayer `source.url` tileset id must have at most " +:+ decimal MAX_ADDLAYER_TILESET_SEGMENTS +:+ " segments")
  else Ok tt.

(** [check_json_depth]: the walk over the document. *)
Fixpoint depth_within (depth : Z) (value : Value) : bool :=
  (depth <=? MAX_ADDLAYER_JSON_DEPTH) &&
  match value with
  | JObject entries => forallb (fun e => depth_within (depth + 1) e.2) entries
  | JArray items => forallb (depth_within (depth + 1)) items
  | _ => true
  end.
Definition check_json_depth (value : Value) : Ingress unit :=
  if depth_within 0 value then Ok tt
  else refuse ("addlayer JSON nesting depth must be at most " +:+ decimal MAX_ADDLAYER_JSON_DEPTH).

Definition required {A} (o : option A) (detail : string) : Ingress A := ok_or (invalid detail) o.

Class LayerHash := { stable_hash_u64 : string -> Z }.

Section Layers.
Context `{JsonText}.

(** The source properties that are copied. *)
Definition copied_keys : list string := ["minzoom"; "maxzoom"; "attribution"; "bounds"; "scheme"].
Definition copy_keys (source_obj resolved : list (string * Value)) : list (string * Value) :=
  fold_left (fun resolved key =>
      match obj_get key source_obj with Some value => obj_insert key value resolved | None => resolved end)
    copied_keys resolved.
Definition resolved_source (source_obj : list (string * Value)) (url : string) : Value :=
  JObject (copy_keys source_obj (obj_insert "url" (JString url) (obj_insert "type" (JString "vector") []))).

Definition rewrite_addlayer_source_object (source_obj : list (string * Value)) (tileset_url_template : string)
    : Ingress AddLayerSource :=
  source_type ← required (get_str "type" source_obj) "addlayer `source.type` must be a string";
  if negb (String.eqb source_type "vector") then refuse "addlayer `source` objects currently support only vector sources" else
  tileset_id ← required (get_str "url" source_obj) "addlayer `source.url` must be a tileset id string";
  _ ← addlayer_tileset_id tileset_id;
  let url := str_replace "{tileset_id}" tileset_id tileset_url_template in
  Ok {| als_tileset_id := tileset_id; als_json := json_print (resolved_source source_obj url) |}.

Definition bounded_string (s : string) : bool := negb (String.eqb s "" || (str_len s >? MAX_ADDLAYER_STRING_LEN)).

Definition check_layer_id (obj : list (string * Value)) : Ingress unit :=
  id ← required (get_str "id" obj) "addlayer requires a string `id`";
  if negb (bounded_string id) then refuse ("addlayer `id` must be 1..=" +:+ decimal MAX_ADDLAYER_STRING_LEN +:+ " bytes")
  else if negb (str_all layer_id_char id) then refuse "addlayer `id` may only contain [A-Za-z0-9-_.:]"
  else if String.prefix ADDLAYER_BIEI_ID_PREFIX id then
    refuse ("addlayer `id` may not start with the reserved prefix `" +:+ ADDLAYER_BIEI_ID_PREFIX +:+ "`")
  else Ok tt.
Definition check_layer_type (obj : list (string * Value)) : Ingress unit :=
  layer_type ← required (get_str "type" obj) "addlayer requires a string `type`";
  if existsb (String.eqb layer_type) ADDLAYER_ALLOWED_TYPES then Ok tt
  else refuse ("addlayer `type` must be one of [" +:+ String.concat ", " (debug_str <$> ADDLAYER_ALLOWED_TYPES) +:+
             "]; got `" +:+ layer_type +:+ "`").
Definition rewrite_layer_source (obj : list (string * Value)) (tileset_url_template : string)
    : Ingress (option AddLayerSource) :=
  source ← required (obj_get "source" obj) "addlayer requires a `source`";
  match source with
  | JString s =>
      if bounded_string s then Ok None
      else refuse ("addlayer `source` must be 1..=" +:+ decimal MAX_ADDLAYER_STRING_LEN +:+ " bytes")
  | JObject source_obj => Some <$> rewrite_addlayer_source_object source_obj tileset_url_template
  | _ => refuse "addlayer `source` must be a string or object"
  end.
Definition check_source_layer (obj : list (string * Value)) : Ingress unit :=
  match obj_get "source-layer" obj with
  | None => Ok tt
  | Some sl =>
      sl ← required (as_str sl) "addlayer `source-layer` must be a string";
      if bounded_string sl then Ok tt
      else refuse ("addlayer `source-layer` must be 1..=" +:+ decimal MAX_ADDLAYER_STRING_LEN +:+ " bytes")
  end.
Definition check_zoom (obj : list (string * Value)) (key : string) : Ingress unit :=
  match obj_get key obj with
  | None => Ok tt
  | Some z =>
      z ← required (as_f64 z) ("addlayer `" +:+ key +:+ "` must be a number");
      if f64_contains (f64_from_int 0) (f64_from_int 24) z then Ok tt
      else refuse ("addlayer `" +:+ key +:+ "` must be in [0, 24]")
  end.

(** The checks of one document; the document itself is not changed. *)
Definition validate_and_rewrite_addlayer_json (value : Value) (tileset_url_template : string)
    : Ingress (option AddLayerSource) :=
  _ ← check_json_depth value;
  obj ← required (as_object value) "addlayer must be a JSON object";
  _ ← check_layer_id obj;
  _ ← check_layer_type obj;
  rewritten_source ← rewrite_layer_source obj tileset_url_template;
  _ ← check_source_layer obj;
  _ ← check_zoom obj "minzoom";
  _ ← check_zoom obj "maxzoom";
  Ok rewritten_source.

Definition parse_document (what text : string) : Ingress Value :=
  match json_parse text with inr value => Ok value | inl e => refuse (what +:+ " parse error: " +:+ e) end.

(** The values of a query parameter. *)
Definition query_values (key : string) (query : string) : list string :=
  omap (fun pair => '(k, v) ← split_once "=" pair; if String.eqb k key then Some v else None) (str_split "&" query).

Definition parse_addlayer_from_query `{LayerHash} (query : option string) (tileset_url_template : string)
    : Ingress (option AddLayer) :=
  match query_values "addlayer" <$> query with
  | None | Some [] => Ok None
  | Some [encoded] =>
      decoded ← required (percent_decode_str encoded) "addlayer must be valid percent-encoded UTF-8";
      if String.eqb decoded "" then refuse "addlayer JSON must not be empty"
      else if str_len decoded >? MAX_ADDLAYER_JSON_BYTES then
        refuse ("addlayer JSON must be at most " +:+ decimal MAX_ADDLAYER_JSON_BYTES +:+ " bytes")
      else
      value ← parse_document "addlayer JSON" decoded;
      source ← validate_and_rewrite_addlayer_json value tileset_url_template;
      let json := json_print value in
      Ok (Some {| al_json := json; al_hash := stable_hash_u64 json; al_source := source |})
  | Some _ => refuse "at most one addlayer parameter is allowed per request"
  end.

Definition validate_addlayer_source (source : AddLayerSource) : Ingress unit :=
  _ ← addlayer_tileset_id (als_tileset_id source);
  if String.eqb (als_json source) "" || (str_len (als_json source) >? MAX_ADDLAYER_SOURCE_JSON_BYTES) then
    refuse ("addlayer source JSON must be 1..=" +:+ decimal MAX_ADDLAYER_SOURCE_JSON_BYTES +:+ " bytes")
  else
  value ← parse_document "addlayer source JSON" (als_json source);
  _ ← check_json_depth value;
  object ← required (as_object value) "addlayer source JSON must be an object";
  if negb (bool_decide (get_str "type" object = Some "vector")) then refuse "addlayer source JSON type must be `vector`" else
  url ← required (get_str "url" object) "addlayer source JSON requires a string `url`";
  if String.eqb url "" then refuse "addlayer source JSON `url` must not be empty" else Ok tt.

Definition validation_template : string := "https://validation.invalid/{tileset_id}".
Definition validate_addlayer (addlayer : AddLayer) : Ingress unit :=
  if String.eqb (al_json addlayer) "" then refuse "addlayer JSON must not be empty"
  else if str_len (al_json addlayer) >? MAX_ADDLAYER_JSON_BYTES then
    refuse ("addlayer JSON must be at most " +:+ decimal MAX_ADDLAYER_JSON_BYTES +:+ " bytes")
  else
  value ← parse_document "addlayer JSON" (al_json addlayer);
  expected_source ← validate_and_rewrite_addlayer_json value validation_template;
  match expected_source, al_source addlayer with
  | None, None => Ok tt
  | None, Some _ => refuse "addlayer carries a source descriptor for a string source"
  | Some _, None => refuse "addlayer object source is missing its source descriptor"
  | Some expected, Some source =>
      if negb (String.eqb (als_tileset_id source) (als_tileset_id expected)) then
        refuse "addlayer source descriptor tileset id does not match layer JSON"
      else validate_addlayer_source source
  end.
End Layers.

(** ** Rewritten documents keep the properties that are checked *)

Lemma depth_similar v v' depth : similar v v' -> depth_within depth v' = depth_within depth v.
Proof.
  revert v' depth. induction v as [| | | |items IH|entries IH] using Value_induction; intros v' depth Hs;
    inversion Hs as [| | | |l l' Hl|l l' Hl]; subst; try done; cbn [depth_within]; f_equal.
  - clear Hs. induction Hl as [|x x' l l' Hx Hl IHl]; [done|]. inversion IH; subst. cbn [forallb].
    rewrite IHl by done. f_equal. auto.
  - clear Hs. induction Hl as [|[k x] [k' x'] l l' [Hk Hx] Hl IHl]; [done|]. inversion IH; subst. cbn [forallb snd] in *.
    rewrite IHl by done. f_equal. auto.
Qed.
Lemma depth_monotone v d d' : d <= d' -> depth_within d' v = true -> depth_within d v = true.
Proof.
  revert d d'. induction v as [| | | |items IH|entries IH] using Value_induction; intros d d' Hd; cbn [depth_within];
    rewrite !andb_true_iff, !Z.leb_le; intros [Hle Hin]; (split; [lia|]); try done.
  all: rewrite List.forallb_forall in *; intros x Hx; rewrite List.Forall_forall in IH; eapply (IH x Hx); eauto; lia.
Qed.

Lemma required_Ok {A} (o : option A) detail a : required o detail = Ok a <-> o = Some a.
Proof. destruct o; cbn; naive_solver. Qed.
Lemma required_bind {A B} (o : option A) detail (f : A -> Ingress B) b :
  required o detail ≫= f = Ok b -> exists a, o = Some a /\ f a = Ok b.
Proof. destruct o; cbn; naive_solver. Qed.

Lemma number_contains m n lo hi :
  -1024 <= lo <= 1024 -> -1024 <= hi <= 1024 -> number_similar m n -> forall b, as_f64 (JNumber m) = Some b -> f64_contains (f64_from_int lo) (f64_from_int hi) b = true ->
  exists b', as_f64 (JNumber n) = Some b' /\ f64_contains (f64_from_int lo) (f64_from_int hi) b' = true.
Proof.
  unfold f64_contains, f_contains. intros Hlo Hhi Hs b Hb Hc.
  destruct m as [|? |x], n as [| |x']; cbn in Hs; simplify_eq; eauto. cbn in Hb. injection Hb as <-.
  apply andb_prop in Hc as [H1 H2]. exists x'. split; [done|]. destruct (Hs lo Hlo) as [Hl _], (Hs hi Hhi) as [_ Hh].
  unfold f64_le in *. by rewrite Hl, Hh.
Qed.

Section Similar.
Context `{JsonText} (obj obj' : list (string * Value)).
Context (Hobj : Forall2 (fun e e' => e.1 = e'.1 /\ similar e.2 e'.2) obj obj').

Lemma check_zoom_similar key : check_zoom obj key = Ok tt -> check_zoom obj' key = Ok tt.
Proof.
  unfold check_zoom. pose proof (similar_get key obj obj' Hobj) as Hg.
  destruct (obj_get key obj) as [v|], (obj_get key obj') as [v'|]; try done.
  intros (b & Hb & Hc)%required_bind. destruct (f64_contains _ _ b) eqn:E; [|done].
  destruct v as [| |m| | |]; try done. inversion Hg as [| |? n Hn| | |]; subst.
  destruct (number_contains m n 0 24 ltac:(lia) ltac:(lia) Hn b Hb E) as (b' & -> & E').
  cbn [required ok_or mbind Res_bind]. by rewrite E'.
Qed.
Lemma check_source_layer_similar : check_source_layer obj' = check_source_layer obj.
Proof.
  unfold check_source_layer. pose proof (similar_get "source-layer" obj obj' Hobj) as Hg.
  destruct (obj_get "source-layer" obj), (obj_get "source-layer" obj'); try done. by rewrite (similar_as_str _ _ Hg).
Qed.

(** The same tileset, if any. *)
Definition source_match (s s' : option AddLayerSource) : Prop :=
  als_tileset_id <$> s = als_tileset_id <$> s'.

Lemma rewrite_source_similar template template' s :
  rewrite_layer_source obj template = Ok s ->
  exists s', rewrite_layer_source obj' template' = Ok s' /\ source_match s s'.
Proof.
  unfold rewrite_layer_source. pose proof (similar_get "source" obj obj' Hobj) as Hg.
  intros (v & Hv & Hs)%required_bind. rewrite Hv in Hg. destruct (obj_get "source" obj') as [v'|]; [|done]. cbn.
  inversion Hg as [| | |t|l l' Hl|l l' Hl]; subst; try done.
  - destruct (bounded_string t); [|done]. injection Hs as <-. by exists None.
  - apply fmap_Ok in Hs as (src & Hs & ->). unfold rewrite_addlayer_source_object in *.
    rewrite !(similar_get_str _ l l' Hl).
    destruct (get_str "type" l) as [ty|]; [|done]. cbn in *. destruct (negb (String.eqb ty "vector")); [done|].
    destruct (get_str "url" l) as [id|]; [|done]. cbn in *.
    destruct (addlayer_tileset_id id) as [[]| |]; try done. cbn in *. injection Hs as <-. by eexists.
Qed.
End Similar.

Lemma validate_similar `{JsonText} v v' template template' s :
  similar v v' -> validate_and_rewrite_addlayer_json v template = Ok s ->
  exists s', validate_and_rewrite_addlayer_json v' template' = Ok s' /\ source_match s s'.
Proof.
  intros Hs Hv. unfold validate_and_rewrite_addlayer_json in *. unfold check_json_depth in *.
  rewrite (depth_similar v v' 0 Hs). destruct (depth_within 0 v); [|done]. cbn in Hv |- *.
  destruct (as_object v) as [obj|] eqn:Ho; [|done]. destruct (similar_as_object v v' obj Hs Ho) as (obj' & -> & Hobj).
  cbn [required ok_or mbind Res_bind] in Hv |- *.
  assert (Hid : check_layer_id obj' = check_layer_id obj) by (unfold check_layer_id; by rewrite (similar_get_str _ obj obj' Hobj)).
  assert (Hty : check_layer_type obj' = check_layer_type obj) by (unfold check_layer_type; by rewrite (similar_get_str _ obj obj' Hobj)).
  rewrite Hid, Hty, (check_source_layer_similar obj obj' Hobj).
  apply bind_Ok in Hv as (? & -> & Hv). apply bind_Ok in Hv as (? & -> & Hv). cbn [mbind Res_bind].
  apply bind_Ok in Hv as (s0 & Hr & Hv). apply (rewrite_source_similar obj obj' Hobj template template') in Hr as (s' & -> & Hm).
  apply bind_Ok in Hv as (? & -> & Hv). cbn [mbind Res_bind].
  apply bind_Ok in Hv as ([] & Hz1 & Hv). rewrite (check_zoom_similar obj obj' Hobj _ Hz1). cbn [mbind Res_bind].
  apply bind_Ok in Hv as ([] & Hz2 & Hv). rewrite (check_zoom_similar obj obj' Hobj _ Hz2). cbn [mbind Res_bind].
  injection Hv as <-. eauto.
Qed.

(** ** The source descriptor *)

Lemma str_replace_nonempty pat to s : to <> "" -> s <> "" -> str_replace pat to s <> "".
Proof.
  intros Ht Hs. unfold str_replace. destruct s as [|a s]; [done|]. cbn [replace_from].
  destruct (strip_prefix pat (String a s)); [by destruct to|done].
Qed.

Lemma obj_get_elem key entries v : obj_get key entries = Some v -> (key, v) ∈ entries.
Proof.
  unfold obj_get. induction entries as [|[k x] entries IH]; cbn [bt_get]; [done|].
  destruct (kcmp key k) eqn:E; rewrite ?elem_of_cons; [|by eauto..].
  intros [= ->]. apply kcmp_eq in E as ->. by left.
Qed.

Lemma copy_keys_spec source_obj keys resolved :
  bt_wf resolved ->
  let r := fold_left (fun resolved key =>
             match obj_get key source_obj with Some value => obj_insert key value resolved | None => resolved end) keys resolved in
  bt_wf r /\ (forall k, k ∉ keys -> obj_get k r = obj_get k resolved) /\
  (forall e, e ∈ r -> e ∈ resolved \/ e ∈ source_obj).
Proof.
  revert resolved. induction keys as [|key keys IH]; intros resolved Hw; cbn [fold_left]; [by eauto|].
  destruct (obj_get key source_obj) as [value|] eqn:Hg.
  - destruct (IH (obj_insert key value resolved)) as (Hw' & Hget & He); [by apply bt_alter_wf|]. split_and!; [done| |].
    + intros k [Hne Hk]%not_elem_of_cons. rewrite Hget by done. unfold obj_get, obj_insert. by apply bt_get_alter_ne.
    + intros [k x] Hx. apply He in Hx as [Hx|]; [|by right]. apply bt_insert_elem in Hx as [[-> ->]|[_ Hx]]; [|by left|done].
      right. by apply obj_get_elem.
  - destruct (IH resolved Hw) as (Hw' & Hget & He). split_and!; [done| |done].
    intros k [_ Hk]%not_elem_of_cons. by apply Hget.
Qed.

Lemma printable_object entries :
  printable (JObject entries) = true <-> bt_wf entries /\ Forall (fun e => printable e.2 = true) entries.
Proof. cbn. rewrite andb_true_iff, keys_sorted_wf, List.forallb_forall, List.Forall_forall. done. Qed.
Lemma depth_object depth entries :
  depth_within depth (JObject entries) = true <->
  depth <= MAX_ADDLAYER_JSON_DEPTH /\ Forall (fun e => depth_within (depth + 1) e.2 = true) entries.
Proof. cbn. rewrite andb_true_iff, Z.leb_le, List.forallb_forall, List.Forall_forall. done. Qed.

Lemma resolved_source_spec source_obj url :
  printable (JObject source_obj) = true -> depth_within 1 (JObject source_obj) = true ->
  exists entries, resolved_source source_obj url = JObject entries /\
    get_str "type" entries = Some "vector" /\ get_str "url" entries = Some url /\
    printable (JObject entries) = true /\ depth_within 0 (JObject entries) = true.
Proof.
  intros Hp Hd. apply printable_object in Hp as [Hw Hp]. apply depth_object in Hd as [_ Hd].
  unfold resolved_source, copy_keys. set (base := obj_insert "url" _ _).
  assert (Hbase : base = [("type", JString "vector"); ("url", JString url)]) by done.
  assert (Hwb : bt_wf base) by (rewrite Hbase; by apply keys_sorted_wf).
  destruct (copy_keys_spec source_obj copied_keys base Hwb) as (Hw' & Hg & He).
  set (entries := fold_left _ _ _) in *. exists entries. unfold get_str.
  rewrite !Hg by (unfold copied_keys; set_solver). rewrite Hbase in *.
  assert (Hall : Forall (fun e => printable e.2 = true /\ depth_within 1 e.2 = true) entries).
  { apply Forall_forall. intros e [Hin|Hin]%He.
    - rewrite !elem_of_cons in Hin. by destruct Hin as [->|[->|?%elem_of_nil]].
    - rewrite Forall_forall in Hp, Hd. split; [by apply Hp|]. eapply depth_monotone; [|by apply Hd]. lia. }
  split_and!; try done.
  - apply printable_object. split; [done|]. eapply Forall_impl; [done|]. by intros e [? _].
  - apply depth_object. split; [done|]. eapply Forall_impl; [done|]. by intros e [_ ?].
Qed.

(** A document of bounded depth can be read back. *)
Lemma depth_nested v depth levels :
  0 <= depth -> (17 <= levels + Z.to_nat depth)%nat -> depth_within depth v = true -> nested_within levels v = true.
Proof.
  revert depth levels. induction v as [| | | |items IH|entries IH] using Value_induction; intros depth levels Hd Hl;
    cbn [depth_within]; rewrite andb_true_iff, Z.leb_le; intros [Hle Hin]; unfold MAX_ADDLAYER_JSON_DEPTH in Hle; try (by destruct levels).
  - destruct levels as [|levels]; [lia|]. cbn [nested_within]. rewrite List.forallb_forall in *. rewrite List.Forall_forall in IH.
    intros x Hx. apply (IH x Hx (depth + 1)); [lia..|auto].
  - destruct levels as [|levels]; [lia|]. cbn [nested_within]. rewrite List.forallb_forall in *. rewrite List.Forall_forall in IH.
    intros x Hx. apply (IH x Hx (depth + 1)); [lia..|auto].
Qed.
Lemma shallow_readable v : printable v = true -> depth_within 0 v = true -> readable v = true.
Proof. intros Hp Hd. unfold readable. rewrite Hp. apply (depth_nested v 0); [lia..|done]. Qed.

Section Reread.
Context `{JsonText, !JsonTextLaws}.

Lemma print_nonempty v : readable v = true -> json_print v <> "".
Proof.
  intros (v' & Hv' & _)%law_json_reread Hne. destruct law_json_empty as [e He]. rewrite Hne in Hv'. congruence.
Qed.

Lemma source_descriptor_valid source_obj template source :
  printable (JObject source_obj) = true -> depth_within 1 (JObject source_obj) = true -> template <> "" ->
  rewrite_addlayer_source_object source_obj template = Ok source ->
  validate_addlayer_source source = Ok tt <-> str_len (als_json source) <= MAX_ADDLAYER_SOURCE_JSON_BYTES.
Proof.
  intros Hp Hd Ht Hr. unfold rewrite_addlayer_source_object in Hr.
  apply required_bind in Hr as (ty & _ & Hr). destruct (negb _); [done|].
  apply required_bind in Hr as (id & _ & Hr). destruct (addlayer_tileset_id id) as [[]| |] eqn:Hid; try done.
  cbn in Hr. injection Hr as <-. unfold validate_addlayer_source. cbn [als_tileset_id als_json]. rewrite Hid.
  cbn [mbind Res_bind]. set (url := str_replace _ _ _).
  assert (Hurl : url <> "").
  { apply str_replace_nonempty; [|done]. intros ->. by vm_compute in Hid. }
  destruct (resolved_source_spec source_obj url Hp Hd) as (entries & -> & Hty & Hu & Hpr & Hde).
  pose proof (shallow_readable _ Hpr Hde) as Hre.
  destruct (String.eqb_spec (json_print (JObject entries)) "") as [He|_]; [by apply print_nonempty in He|].
  cbn [orb]. destruct (law_json_reread _ Hre) as (v' & Hv' & Hs).
  destruct (similar_as_object _ v' entries Hs eq_refl) as (entries' & Ho & Hl).
  rewrite Z.gtb_ltb. destruct (Z.ltb_spec MAX_ADDLAYER_SOURCE_JSON_BYTES (str_len (json_print (JObject entries)))) as [Hlt|Hle].
  { split; [done|lia]. }
  split; [done|intros _]. unfold parse_document. rewrite Hv'. cbn [mbind Res_bind]. unfold check_json_depth.
  rewrite (depth_similar _ _ 0 Hs), Hde. cbn [mbind Res_bind]. rewrite Ho. cbn [required ok_or mbind Res_bind].
  rewrite !(similar_get_str _ entries entries' Hl), Hty, Hu. rewrite bool_decide_true by done. cbn [negb required ok_or mbind Res_bind].
  by destruct (String.eqb_spec url "").
Qed.

(** The layer and its source fit the limits of a forwarded request. *)
Definition layer_fits (layer : AddLayer) : Prop :=
  str_len (al_json layer) <= MAX_ADDLAYER_JSON_BYTES /\
  forall source, al_source layer = Some source -> str_len (als_json source) <= MAX_ADDLAYER_SOURCE_JSON_BYTES.

Lemma parsed_layer_valid `{LayerHash} query template layer :
  template <> "" -> parse_addlayer_from_query query template = Ok (Some layer) ->
  validate_addlayer layer = Ok tt <-> layer_fits layer.
Proof.
  intros Ht Hp. unfold parse_addlayer_from_query in Hp.
  destruct (query_values "addlayer" <$> query) as [[|encoded [|? ?]]|]; try done.
  apply required_bind in Hp as (decoded & _ & Hp). destruct (String.eqb decoded ""); [done|].
  destruct (_ >? _); [done|]. apply bind_Ok in Hp as (v & Hv & Hp). apply bind_Ok in Hp as (source & Hs & Hp).
  injection Hp as <-. unfold parse_document in Hv. destruct (json_parse decoded) as [|v0] eqn:Hj; [done|]. injection Hv as ->.
  apply law_json_parsed in Hj. destruct (law_json_reread v Hj) as (v' & Hv' & Hsim).
  destruct (validate_similar v v' template validation_template source Hsim Hs) as (source' & Hs' & Hm).
  unfold validate_addlayer, layer_fits. cbn [al_json al_source].
  destruct (String.eqb_spec (json_print v) "") as [He|_]; [by apply print_nonempty in He|].
  rewrite Z.gtb_ltb. destruct (Z.ltb_spec MAX_ADDLAYER_JSON_BYTES (str_len (json_print v))) as [Hlt|Hle]; [split; [done|lia]|].
  unfold parse_document. rewrite Hv'. cbn [mbind Res_bind]. rewrite Hs'. cbn [mbind Res_bind].
  unfold source_match in Hm. destruct source as [source|], source' as [source'|]; try done.
  - cbn in Hm. injection Hm as Hm. rewrite Hm, String.eqb_refl. cbn [negb].
    unfold validate_and_rewrite_addlayer_json in Hs. apply bind_Ok in Hs as (? & Hdep & Hs).
    apply required_bind in Hs as (obj & Ho & Hs). apply bind_Ok in Hs as (? & _ & Hs). apply bind_Ok in Hs as (? & _ & Hs).
    apply bind_Ok in Hs as (s0 & Hr & Hs). repeat (apply bind_Ok in Hs as (? & _ & Hs)). injection Hs as ->.
    unfold rewrite_layer_source in Hr. apply required_bind in Hr as (sv & Hsv & Hr).
    destruct sv as [| | |t| |source_obj]; try done; [by destruct (bounded_string t)|].
    apply fmap_Ok in Hr as (src & Hr & Heq). injection Heq as <-. destruct v; try done. injection Ho as ->.
    apply obj_get_elem in Hsv. apply andb_prop in Hj as [Hj _]. apply printable_object in Hj as [_ Hj]. rewrite Forall_forall in Hj.
    unfold check_json_depth in Hdep. destruct (depth_within 0 (JObject obj)) eqn:Hd0; [|done].
    apply depth_object in Hd0 as [_ Hd0]. rewrite Forall_forall in Hd0.
    rewrite (source_descriptor_valid source_obj template source); [|by apply (Hj _ Hsv)|by apply (Hd0 _ Hsv)|done..].
    split; [intros Hl; split; [done|by intros ? [= <-]]|]. intros [_ Hl]. by apply Hl.
Qed.
End Reread.
