(* ===== verification/PublicRequests.v ===== *)
(** * Public render requests

    Models the URL grammar of Biei's public API: [servers/biei/src/http/format.rs],
    [query.rs], [path.rs], [tile.rs], [static_image.rs] and the path classification of
    [ingress.rs]; and the validation of requests that arrive from a peer
    ([validate_render_request]). Floating-point values are bit patterns (Floats).

    Shows that tile URLs are read as they are written, and that what the public
    ingress accepts is accepted by every peer it is forwarded to, unless its added
    layer outgrows the limit of the peers. *)

From S2P Require Import Prelude StdModel Types RenderCache Wire Node TilesetSources.
From S2P Require Import Text Floats Json Overlays PeerBackend ResourceTemplates AddLayers.

(** ** Sizes, scales and formats *)

Definition parse_format (extension : string) : option ImageFormat :=
  if String.eqb extension "png" then Some Png
  else if String.eqb extension "webp" then Some Webp
  else if String.eqb extension "jpg" || String.eqb extension "jpeg" then Some Jpeg
  else None.
Definition parse_suffix (value : string) : Ingress (string * Scale * ImageFormat) :=
  '(body, output_format) ←
    match rsplit_once "." value with
    | Some (body, extension) =>
        format ← required (parse_format extension) "format must be png, webp, or jpg"; Ok (body, format)
    | None => Ok (value, Png)
    end;
  match strip_suffix "@2x" body with
  | Some body => Ok (body, X2, output_format)
  | None => if str_contains "@" body then refuse "scale must be omitted or @2x" else Ok (body, X1, output_format)
  end.
Definition parse_size_scale_format (value : string) : Ingress (Z * Z * Scale * ImageFormat) :=
  '(size, scale, format) ← parse_suffix value;
  '(width, height) ← required (split_once "x" size) "static size must be {width}x{height}";
  width ← required (parse_uint u16_max width) "static width must be an integer";
  height ← required (parse_uint u16_max height) "static height must be an integer";
  Ok (width, height, scale, format).
Definition parse_scale_format (value : string) : Ingress (Z * Scale * ImageFormat) :=
  '(number, scale, format) ← parse_suffix value;
  number ← required (parse_uint u32_max number) "tile y must be an integer";
  Ok (number, scale, format).

(** ** Query parameters *)

Definition MAX_PADDING : Z := 1024.

Definition validate_before_layer (before_layer : option string) : Ingress unit :=
  match before_layer with
  | None => Ok tt
  | Some value =>
      if String.eqb value "" || (str_len value >? 64) then refuse "before_layer must be 1..=64 characters"
      else if negb (str_all layer_id_char value) then refuse "before_layer contains an unsupported character"
      else Ok tt
  end.
Definition parse_before_layer_from_query (query : option string) : Ingress (option string) :=
  match query ≫= (fun q => head (query_values "before_layer" q)) with
  | None => Ok None
  | Some value => _ ← validate_before_layer (Some value); Ok (Some value)
  end.

Definition padding_side_ok (name : string) (value : Z) : Ingress unit :=
  if value >? MAX_PADDING then refuse (name +:+ " must be in [0, " +:+ decimal MAX_PADDING +:+ "]") else Ok tt.
Definition validate_padding (padding : Padding) : Ingress unit :=
  _ ← padding_side_ok "padding top" (pad_top padding);
  _ ← padding_side_ok "padding right" (pad_right padding);
  _ ← padding_side_ok "padding bottom" (pad_bottom padding);
  padding_side_ok "padding left" (pad_left padding).
Definition parse_padding_side (value name : string) : Ingress Z :=
  n ← required (parse_uint u16_max value) (name +:+ " must be a non-negative integer");
  _ ← padding_side_ok name n;
  Ok n.
Definition parse_padding_value (value : string) : Ingress Padding :=
  padding ←
    match str_split "," value with
    | [v] => n ← parse_padding_side v "padding"; Ok (Padding_all n)
    | [t; r; b; l] =>
        t ← parse_padding_side t "padding top";
        r ← parse_padding_side r "padding right";
        b ← parse_padding_side b "padding bottom";
        l ← parse_padding_side l "padding left";
        Ok {| pad_top := t; pad_right := r; pad_bottom := b; pad_left := l |}
    | _ => refuse "padding must be `N` or `top,right,bottom,left`"
    end;
  _ ← validate_padding padding;
  Ok padding.
Definition parse_padding_from_query (query : option string) : Ingress (option Padding) :=
  match query ≫= (fun q => head (query_values "padding" q)) with
  | None => Ok None
  | Some value => Some <$> parse_padding_value value
  end.

(** ** Styles *)

Definition MAX_STYLE_ID_BYTES : Z := 512.
Definition path_component_char : ascii -> bool := id_char ["-"; "_"; "."; ":"; "@"]%char.
Definition validate_path_component (value name : string) : Ingress unit :=
  if String.eqb value "" then refuse (name +:+ " must not be empty")
  else if str_contains ".." value then refuse (name +:+ " must not contain `..`")
  else if negb (str_all path_component_char value) then refuse (name +:+ " contains an unsupported character")
  else Ok tt.
Fixpoint validate_components (components : list string) : Ingress unit :=
  match components with
  | [] => Ok tt
  | component :: components => _ ← validate_path_component component "style_id"; validate_components components
  end.
Definition resolve_style_id (components : list string) : Ingress StyleId :=
  _ ← validate_components components;
  let style_id := String.concat "/" components in
  if str_len style_id >? MAX_STYLE_ID_BYTES
  then refuse ("style_id must be at most " +:+ decimal MAX_STYLE_ID_BYTES +:+ " bytes")
  else Ok style_id.
Definition resolve_style (catalog : StyleCatalog.StyleCatalogInner) (style_id : StyleId) : Ingress StyleRevision :=
  match StyleCatalog.resolve_latest catalog style_id with
  | None => Err (UnknownStyle style_id)
  | Some version => Ok {| sr_id := style_id; sr_version := version |}
  end.

(** What a request brings along: the task and request ids, the time budget and the
    time of arrival. *)
Record Arrival := { ar_task_id : Z; ar_request_id : string; ar_sla_budget : Z; ar_now : Z }.
Abbreviation Request := (RenderRequest Value).
Abbreviation PublicTask := (InternalTask Value).
Definition start_task (arrival : Arrival) (style : StyleRevision) (request : Request) (scale : Scale)
    (output_format : ImageFormat) : Ingress PublicTask :=
  TaskSpec_start
    {| ts_id := ar_task_id arrival; ts_request_id := ar_request_id arrival; ts_style := style; ts_source := None;
       ts_request := request; ts_pixel_ratio := PixelRatio_from scale; ts_output_format := output_format |}
    (ar_now arrival) (ar_sla_budget arrival).

(** ** Tiles *)

Definition TILE_SIZE : Z := 512.
Definition MAX_TILE_SIZE : Z := 1024.
Definition validate_tile_coordinate (z x y : Z) : Ingress unit :=
  if z >=? 32 then refuse "tile z must be less than 32" else
  let limit := Z.shiftl 1 z in
  if (x >=? limit) || (y >=? limit) then refuse "tile x/y are out of range for z" else Ok tt.
Definition validate_tile_size (tile_size : Z) : Ingress unit :=
  if tile_size =? 0 then refuse "tile size must be positive"
  else if tile_size >? MAX_TILE_SIZE then refuse "tile size exceeds limit" else Ok tt.

Definition parse_tile_path (parts : list string) (style_id : StyleId) (catalog : StyleCatalog.StyleCatalogInner)
    (arrival : Arrival) : Ingress PublicTask :=
  match drop (length parts - 3) parts with
  | [z_str; x_str; yfmt_str] =>
      style ← resolve_style catalog style_id;
      z ← required (parse_uint u8_max z_str) "tile z must be an integer in 0..=255";
      x ← required (parse_uint u32_max x_str) "tile x must be an integer";
      '(y, scale, output_format) ← parse_scale_format yfmt_str;
      _ ← validate_tile_coordinate z x y;
      start_task arrival style (ReqTile z x y TILE_SIZE) scale output_format
  | _ => Panic
  end.

(** ** Static images *)

Definition MAX_STATIC_WIDTH : Z := 1920.
Definition MAX_STATIC_HEIGHT : Z := 1280.
Definition MAX_STATIC_RGBA_BYTES : Z := MAX_STATIC_WIDTH * MAX_STATIC_HEIGHT * 2 * 2 * 4.
Definition five_percent_ceil (value : Z) : Z := Z.min u16_max (value + 19) / 20.
Definition default_padding_for_positioning (positioning : Positioning) (width height : Z) : Padding :=
  match positioning with
  | Auto => {| pad_top := five_percent_ceil height; pad_right := five_percent_ceil width;
               pad_bottom := five_percent_ceil height; pad_left := five_percent_ceil width |}
  | Center _ _ _ _ _ | Bbox _ _ _ _ => Padding_all 0
  end.

(** Bounds with their text. *)
Definition validate_f64_range (value : Z) (name : string) (lo hi : Z) (bounds : string) : Ingress unit :=
  if f64_contains (f64_from_int lo) (f64_from_int hi) value then Ok tt
  else refuse (name +:+ " must be in [" +:+ bounds +:+ "]").
Definition validate_lon (value : Z) (name : string) : Ingress unit := validate_f64_range value name (-180) 180 "-180, 180".
Definition validate_lat (value : Z) (name : string) : Ingress unit := validate_f64_range value name (-90) 90 "-90, 90".
Definition validate_zoom (value : Z) : Ingress unit := validate_f64_range value "zoom" 0 24 "0, 24".
Definition validate_bearing (value : Z) : Ingress unit :=
  if f32_is_finite value then Ok tt else refuse "bearing must be finite".
Definition validate_pitch (value : Z) : Ingress unit :=
  if f32_contains (f32_from_int 0) (f32_from_int 85) value then Ok tt else refuse "pitch must be in [0, 85]".

Definition validate_center (lon lat zoom bearing pitch : Z) : Ingress unit :=
  _ ← validate_lon lon "lon";
  _ ← validate_lat lat "lat";
  _ ← validate_zoom zoom;
  _ ← validate_bearing bearing;
  validate_pitch pitch.
Definition validate_bbox (min_lon min_lat max_lon max_lat : Z) : Ingress unit :=
  _ ← validate_lon min_lon "min_lon";
  _ ← validate_lon max_lon "max_lon";
  _ ← validate_lat min_lat "min_lat";
  _ ← validate_lat max_lat "max_lat";
  if f64_gt min_lon max_lon then refuse "bbox min_lon must be <= max_lon"
  else if f64_gt min_lat max_lat then refuse "bbox min_lat must be <= max_lat" else Ok tt.

Definition number_f64 (value name : string) : Ingress Z := required (parse_f64 value) (name +:+ " must be a number").
Definition number_f32 (value name : string) : Ingress Z := required (parse_f32 value) (name +:+ " must be a number").

Definition parse_bbox_positioning (value : string) : Ingress Positioning :=
  match str_split "," value with
  | [min_lon; min_lat; max_lon; max_lat] =>
      min_lon ← number_f64 min_lon "min_lon";
      min_lat ← number_f64 min_lat "min_lat";
      max_lon ← number_f64 max_lon "max_lon";
      max_lat ← number_f64 max_lat "max_lat";
      _ ← validate_bbox min_lon min_lat max_lon max_lat;
      Ok (Bbox min_lon min_lat max_lon max_lat)
  | _ => refuse "bbox must be [min_lon,min_lat,max_lon,max_lat]"
  end.

Definition parse_center (lon lat zoom : string) (bearing pitch : Ingress Z) : Ingress Positioning :=
  lon ← number_f64 lon "lon";
  lat ← number_f64 lat "lat";
  zoom ← number_f64 zoom "zoom";
  bearing ← bearing;
  pitch ← pitch;
  _ ← validate_center lon lat zoom bearing pitch;
  Ok (Center lon lat zoom bearing pitch).
Definition parse_positioning (value : string) : Ingress Positioning :=
  value ← (if str_contains "%" value
           then required (percent_decode_str value) "position must be valid percent-encoded UTF-8" else Ok value);
  if String.eqb value "auto" then Ok Auto else
  match strip_prefix "[" value ≫= strip_suffix "]" with
  | Some bbox => parse_bbox_positioning bbox
  | None =>
      match str_split "," value with
      | [lon; lat; zoom] => parse_center lon lat zoom (Ok F32_0_0) (Ok F32_0_0)
      | [lon; lat; zoom; bearing] =>
          if String.eqb bearing "0" then parse_center lon lat zoom (Ok F32_0_0) (Ok F32_0_0)
          else parse_center lon lat zoom (number_f32 bearing "bearing") (Ok F32_0_0)
      | [lon; lat; zoom; bearing; pitch] =>
          if String.eqb bearing "0" && String.eqb pitch "0" then parse_center lon lat zoom (Ok F32_0_0) (Ok F32_0_0)
          else parse_center lon lat zoom (number_f32 bearing "bearing") (number_f32 pitch "pitch")
      | _ => refuse "position must be auto, [min_lon,min_lat,max_lon,max_lat], or lon,lat,zoom[,bearing[,pitch]]"
      end
  end.

Definition scale_multiplier (scale : Scale) : Z := match scale with X1 => 1 | X2 => 2 end.
Definition validate_static_dimensions (width height : Z) (scale : Scale) : Ingress unit :=
  if (width =? 0) || (height =? 0) then refuse "static width and height must be positive"
  else if width >? MAX_STATIC_WIDTH then refuse "static width must be <= 1920"
  else if height >? MAX_STATIC_HEIGHT then refuse "static height must be <= 1280"
  else if width * height * scale_multiplier scale * scale_multiplier scale * 4 >? MAX_STATIC_RGBA_BYTES
  then refuse "static raw RGBA size exceeds limit" else Ok tt.
Definition validate_auto_has_overlays (positioning : Positioning) (overlays_empty : bool) : Ingress unit :=
  match positioning with
  | Auto => if overlays_empty then refuse "auto positioning requires at least one overlay with geometry" else Ok tt
  | _ => Ok tt
  end.
Definition validate_public_static_request (positioning : Positioning) (width height : Z) (scale : Scale)
    (overlays_empty : bool) : Ingress unit :=
  _ ← validate_static_dimensions width height scale;
  validate_auto_has_overlays positioning overlays_empty.

Definition overlay_invalid {A} (r : Res OverlayParseError A) : Ingress A :=
  map_err (fun e => invalid ("invalid static overlay: " +:+ overlay_error_text e)) r.

Section Static.
Context `{JsonText}.

Definition parse_static_path (parts : list string) (static_index : nat) (style_id : StyleId)
    (before_layer : option string) (padding : option Padding) (addlayer : option AddLayer)
    (catalog : StyleCatalog.StyleCatalogInner) (arrival : Arrival) : Ingress PublicTask :=
  let malformed := refuse "static path must be /{style_id}/static/[{overlay}/]{position}/{width}x{height}{@scale}.{format}" in
  if (length parts <? static_index)%nat then Panic else
  '(overlays, position, size_format) ←
    match drop static_index parts with
    | [static; position; size_format] =>
        if String.eqb static "static" then Ok ([], position, size_format) else malformed
    | [static; overlay; position; size_format] =>
        if String.eqb static "static" then
          overlays ← overlay_invalid (parse_static_overlays overlay); Ok (overlays, position, size_format)
        else malformed
    | _ => malformed
    end;
  style ← resolve_style catalog style_id;
  positioning ← parse_positioning position;
  '(width, height, scale, output_format) ← parse_size_scale_format size_format;
  let padding := default (default_padding_for_positioning positioning width height) padding in
  _ ← validate_public_static_request positioning width height scale (bool_decide (overlays = []));
  start_task arrival style (ReqStaticImage positioning width height overlays before_layer padding addlayer) scale output_format.

(** ** Requests from peers *)

Definition validate_positioning (positioning : Positioning) (overlays_empty : bool) : Ingress unit :=
  match positioning with
  | Auto => validate_auto_has_overlays positioning overlays_empty
  | Center lon lat zoom bearing pitch => validate_center lon lat zoom bearing pitch
  | Bbox min_lon min_lat max_lon max_lat => validate_bbox min_lon min_lat max_lon max_lat
  end.
Fixpoint validate_overlays (overlays : list (StaticOverlay Value)) : Ingress unit :=
  match overlays with
  | [] => Ok tt
  | overlay :: overlays => _ ← overlay_invalid (validate_static_overlay overlay); validate_overlays overlays
  end.
Definition validate_render_request (request : Request) (scale : Scale) : Ingress unit :=
  match request with
  | ReqStaticImage positioning width height overlays before_layer padding addlayer =>
      _ ← validate_static_dimensions width height scale;
      _ ← (if vec_len overlays >? MAX_STATIC_OVERLAYS
           then refuse ("request has more than " +:+ decimal MAX_STATIC_OVERLAYS +:+ " overlays") else Ok tt);
      _ ← validate_overlays overlays;
      _ ← validate_positioning positioning (bool_decide (overlays = []));
      _ ← validate_before_layer before_layer;
      _ ← validate_padding padding;
      match addlayer with Some addlayer => validate_addlayer addlayer | None => Ok tt end
  | ReqTile z x y tile_size =>
      _ ← validate_tile_coordinate z x y;
      validate_tile_size tile_size
  end.

(** ** Paths *)

Inductive ParsedRenderKind := PkTile | PkStatic (static_index : nat).
Record ParsedRenderPath := { prp_parts : list string; prp_style_id : StyleId; prp_kind : ParsedRenderKind }.
Inductive ParsedPublicPath := PpPreview (style_id : StyleId) | PpRender (path : ParsedRenderPath).

Definition looks_like_user_static_tile_path (z x yfmt : string) : bool :=
  bool_decide (parse_uint u8_max z <> None) && bool_decide (parse_uint u32_max x <> None) && is_ok (parse_scale_format yfmt).
Definition static_path_index (parts : list string) : option nat :=
  let len := length parts in
  if (4 <=? len)%nat && bool_decide (parts !! (len - 3)%nat = Some "static") then Some (len - 3)%nat
  else if (5 <=? len)%nat && bool_decide (parts !! (len - 4)%nat = Some "static") &&
          negb (match drop (len - 3) parts with
                | [z; x; yfmt] => looks_like_user_static_tile_path z x yfmt
                | _ => false
                end)
  then Some (len - 4)%nat else None.

Definition from_parts (parts : list string) : Ingress ParsedRenderPath :=
  match static_path_index parts with
  | Some static_index =>
      style_id ← resolve_style_id (take static_index parts);
      Ok {| prp_parts := parts; prp_style_id := style_id; prp_kind := PkStatic static_index |}
  | None =>
      if (length parts <? 3)%nat then refuse "tile path must be /{style_id}/{z}/{x}/{y}{@scale}.{format}" else
      style_id ← resolve_style_id (take (length parts - 3) parts);
      Ok {| prp_parts := parts; prp_style_id := style_id; prp_kind := PkTile |}
  end.

Definition parse_public_path (path : string) : Ingress ParsedPublicPath :=
  path ← required (strip_prefix "/" path) "public path must start with exactly one `/`";
  if String.eqb path "" || String.prefix "/" path || ends_with_char "/" path
  then refuse "public path must not contain repeated or trailing `/` characters" else
  let parts := str_split slash path in
  if existsb (String.eqb "") parts then refuse "public path must not contain empty segments" else
  match last parts with
  | Some final =>
      if String.eqb final "preview" && negb (bool_decide (take (length parts - 1) parts = []))
      then PpPreview <$> resolve_style_id (take (length parts - 1) parts)
      else PpRender <$> from_parts parts
  | None => PpRender <$> from_parts parts
  end.

Definition static_style_id (p : ParsedPublicPath) : option StyleId :=
  match p with
  | PpRender {| prp_style_id := style_id; prp_kind := PkStatic _ |} => Some style_id
  | _ => None
  end.

Definition parse_path_with_request_id `{LayerHash} (parsed : ParsedRenderPath) (query : option string)
    (catalog : StyleCatalog.StyleCatalogInner) (tileset_url_template : string) (arrival : Arrival) : Ingress PublicTask :=
  match prp_kind parsed with
  | PkStatic static_index =>
      before_layer ← parse_before_layer_from_query query;
      padding ← parse_padding_from_query query;
      addlayer ← parse_addlayer_from_query query tileset_url_template;
      parse_static_path (prp_parts parsed) static_index (prp_style_id parsed) before_layer padding addlayer catalog arrival
  | PkTile => parse_tile_path (prp_parts parsed) (prp_style_id parsed) catalog arrival
  end.
End Static.

(** ** What the ingress accepts, a peer accepts *)

Lemma before_layer_checked query before_layer :
  parse_before_layer_from_query query = Ok before_layer -> validate_before_layer before_layer = Ok tt.
Proof.
  unfold parse_before_layer_from_query. destruct (query ≫= _) as [value|]; [|by intros [= <-]].
  intros ([] & Hv & Ho)%bind_Ok. by injection Ho as <-.
Qed.

Lemma padding_checked query padding :
  parse_padding_from_query query = Ok (Some padding) -> validate_padding padding = Ok tt.
Proof.
  unfold parse_padding_from_query. destruct (query ≫= _) as [value|]; [|done].
  intros (p & Hp & [= ->])%fmap_Ok. unfold parse_padding_value in Hp.
  apply bind_Ok in Hp as (p' & _ & Hp). apply bind_Ok in Hp as ([] & Hv & Hp). by injection Hp as ->.
Qed.

Lemma side_ok name value : value <= MAX_PADDING -> padding_side_ok name value = Ok tt.
Proof. unfold padding_side_ok. intros H. rewrite Z.gtb_ltb. by destruct (Z.ltb_spec MAX_PADDING value); [lia|]. Qed.
Lemma five_percent_small value : value <= MAX_STATIC_WIDTH -> five_percent_ceil value <= MAX_PADDING.
Proof. unfold five_percent_ceil, MAX_STATIC_WIDTH, MAX_PADDING, u16_max. intros H. apply Z.div_le_upper_bound; lia. Qed.

Lemma dimensions_checked width height scale :
  validate_static_dimensions width height scale = Ok tt -> width <= MAX_STATIC_WIDTH /\ height <= MAX_STATIC_HEIGHT.
Proof.
  unfold validate_static_dimensions. destruct (_ || _); [done|]. rewrite !Z.gtb_ltb.
  destruct (Z.ltb_spec MAX_STATIC_WIDTH width), (Z.ltb_spec MAX_STATIC_HEIGHT height); done.
Qed.
Lemma default_padding_checked positioning width height scale :
  validate_static_dimensions width height scale = Ok tt ->
  validate_padding (default_padding_for_positioning positioning width height) = Ok tt.
Proof.
  intros [Hw Hh]%dimensions_checked. assert (Hh' : height <= MAX_STATIC_WIDTH) by (etrans; [done|by vm_compute]).
  unfold validate_padding. destruct positioning; cbn [default_padding_for_positioning pad_top pad_right pad_bottom pad_left];
    first [done|by rewrite !side_ok by (by apply five_percent_small)].
Qed.

Lemma positioning_checked value positioning overlays_empty :
  parse_positioning value = Ok positioning -> validate_auto_has_overlays positioning overlays_empty = Ok tt ->
  validate_positioning positioning overlays_empty = Ok tt.
Proof.
  intros Hp Ha. unfold parse_positioning in Hp. apply bind_Ok in Hp as (v & _ & Hp).
  destruct (String.eqb v "auto"); [by injection Hp as <-|].
  assert (Hc : forall lon lat zoom bearing pitch,
    parse_center lon lat zoom bearing pitch = Ok positioning -> validate_positioning positioning overlays_empty = Ok tt).
  { intros ????? Hc. unfold parse_center in Hc. repeat (apply bind_Ok in Hc as (? & ? & Hc)). injection Hc as <-. cbn.
    by destruct (validate_center _ _ _ _ _) as [[]| |]. }
  destruct (strip_prefix "[" v ≫= _) as [bbox|].
  - unfold parse_bbox_positioning in Hp. repeat case_match; try done.
    repeat (apply bind_Ok in Hp as (? & ? & Hp)). injection Hp as <-. cbn.
    by destruct (validate_bbox _ _ _ _) as [[]| |].
  - repeat case_match; try done; by eapply Hc.
Qed.

Lemma overlays_checked overlays :
  Forall (fun o => validate_static_overlay o = Ok tt) overlays -> validate_overlays overlays = Ok tt.
Proof. induction 1 as [|o l Ho Hl IH]; [done|]. cbn. by rewrite Ho. Qed.

Lemma started_task arrival style request scale format task :
  start_task arrival style request scale format = Ok task ->
  t_request task = request /\ t_pixel_ratio task = PixelRatio_from scale /\ t_style task = style /\
  t_output_format task = format.
Proof. unfold start_task, TaskSpec_start. destruct (instant_checked_add _ _); [|done]. by intros [= <-]. Qed.
Lemma scale_kept scale : to_scale (PixelRatio_from scale) = scale.
Proof. by destruct scale. Qed.

Definition request_addlayer (request : Request) : option AddLayer :=
  match request with ReqStaticImage _ _ _ _ _ _ addlayer => addlayer | ReqTile _ _ _ _ => None end.

Section Forwarding.
Context `{JsonText, !JsonTextLaws, LayerHash}.

Lemma tile_forwardable parts style_id catalog arrival task :
  parse_tile_path parts style_id catalog arrival = Ok task ->
  request_addlayer (t_request task) = None /\
  validate_render_request (t_request task) (to_scale (t_pixel_ratio task)) = Ok tt.
Proof.
  unfold parse_tile_path. repeat case_match; try done. intros Hp.
  apply bind_Ok in Hp as (style & _ & Hp). apply required_bind in Hp as (z & _ & Hp).
  apply required_bind in Hp as (x & _ & Hp). apply bind_Ok in Hp as ([[y scale] format] & _ & Hp).
  apply bind_Ok in Hp as ([] & Hv & Hp). apply started_task in Hp as (-> & -> & _). split; [done|]. cbn. by rewrite Hv.
Qed.

Lemma static_forwardable parts index style_id before_layer padding addlayer catalog arrival task :
  validate_before_layer before_layer = Ok tt ->
  (forall p, padding = Some p -> validate_padding p = Ok tt) ->
  parse_static_path parts index style_id before_layer padding addlayer catalog arrival = Ok task ->
  request_addlayer (t_request task) = addlayer /\
  validate_render_request (t_request task) (to_scale (t_pixel_ratio task)) =
    match addlayer with Some layer => validate_addlayer layer | None => Ok tt end.
Proof.
  intros Hb Hpad. unfold parse_static_path. destruct (_ <? _)%nat; [done|]. intros Hp.
  apply bind_Ok in Hp as ([[overlays position] size_format] & Ho & Hp).
  assert (Hov : vec_len overlays <= MAX_STATIC_OVERLAYS /\ Forall (fun o => validate_static_overlay o = Ok tt) overlays).
  { repeat case_match; try done.
    - injection Ho as <- _ _. by split; [|constructor].
    - apply bind_Ok in Ho as (ovs & Ho & Heq). injection Heq as -> _ _. unfold overlay_invalid in Ho.
      eapply parse_static_overlays_valid. destruct (parse_static_overlays _) eqn:Hpo; [by injection Ho as <-|done..]. }
  destruct Hov as [Hlen Hov]. clear Ho. apply bind_Ok in Hp as (style & _ & Hp). apply bind_Ok in Hp as (positioning & Hpos & Hp).
  apply bind_Ok in Hp as ([[[width height] scale] format] & _ & Hp). apply bind_Ok in Hp as ([] & Hv & Hp).
  apply started_task in Hp as (-> & -> & _). split; [done|]. rewrite scale_kept. cbn [validate_render_request].
  unfold validate_public_static_request in Hv. apply bind_Ok in Hv as ([] & Hdim & Hauto). rewrite Hdim.
  cbn [mbind Res_bind]. rewrite Z.gtb_ltb. destruct (Z.ltb_spec MAX_STATIC_OVERLAYS (vec_len overlays)); [lia|].
  cbn [mbind Res_bind]. rewrite overlays_checked by done. cbn [mbind Res_bind].
  rewrite (positioning_checked _ _ _ Hpos Hauto). cbn [mbind Res_bind]. rewrite Hb. cbn [mbind Res_bind].
  assert (Hpd : validate_padding (default (default_padding_for_positioning positioning width height) padding) = Ok tt).
  { destruct padding as [p|]; [by apply Hpad|by eapply default_padding_checked]. }
  by rewrite Hpd.
Qed.

(** [C9] Every request the public ingress accepts passes the complete validation with
    which a peer guards its renderer when the request is forwarded: sizes, camera,
    overlays, padding, layer ids and tile coordinates. The one exception is an added
    layer whose rewritten JSON outgrew the limits, which the public ingress measures
    before the rewriting; exactly such a request is refused by the peer. *)
Theorem public_request_forwardable parsed query catalog template arrival task :
  template <> "" ->
  parse_path_with_request_id parsed query catalog template arrival = Ok task ->
  validate_render_request (t_request task) (to_scale (t_pixel_ratio task)) = Ok tt <->
  (forall layer, request_addlayer (t_request task) = Some layer -> layer_fits layer).
Proof.
  intros Ht. unfold parse_path_with_request_id. destruct (prp_kind parsed) as [|index].
  - intros [-> ->]%tile_forwardable. done.
  - intros (before_layer & Hb & Hp)%bind_Ok. apply bind_Ok in Hp as (padding & Hpad & Hp).
    apply bind_Ok in Hp as (addlayer & Ha & Hp). apply static_forwardable in Hp as [-> ->];
      [|by eapply before_layer_checked|intros ? ->; by eapply padding_checked].
    destruct addlayer as [layer|]; [|done]. rewrite (parsed_layer_valid query template) by done. naive_solver.
Qed.
End Forwarding.

Lemma parsed_arrival `{JsonText, LayerHash} parsed query catalog template arrival task :
  parse_path_with_request_id parsed query catalog template arrival = Ok task ->
  t_arrived_at task = ar_now arrival /\ t_request_id task = ar_request_id arrival /\ t_id task = ar_task_id arrival.
Proof.
  assert (Hs : forall style request scale format, start_task arrival style request scale format = Ok task ->
    t_arrived_at task = ar_now arrival /\ t_request_id task = ar_request_id arrival /\ t_id task = ar_task_id arrival).
  { intros style request scale format. unfold start_task, TaskSpec_start. destruct (instant_checked_add _ _); [|done]. by intros [= <-]. }
  unfold parse_path_with_request_id, parse_tile_path, parse_static_path. intros Hp.
  destruct (prp_kind parsed) as [|index].
  - repeat case_match; try done. apply bind_Ok in Hp as (style & _ & Hp). apply required_bind in Hp as (z & _ & Hp).
    apply required_bind in Hp as (x & _ & Hp). apply bind_Ok in Hp as ([[y scale] format] & _ & Hp).
    apply bind_Ok in Hp as ([] & _ & Hp). by eapply Hs.
  - repeat (apply bind_Ok in Hp as (? & _ & Hp)). destruct (_ <? _)%nat; [done|].
    apply bind_Ok in Hp as ([[overlays position] size_format] & _ & Hp). apply bind_Ok in Hp as (style & _ & Hp).
    apply bind_Ok in Hp as (positioning & _ & Hp). apply bind_Ok in Hp as ([[[width height] scale] format] & _ & Hp).
    apply bind_Ok in Hp as ([] & _ & Hp). by eapply Hs.
Qed.

(** ** Tile URLs *)

Lemma ends_split c s : ends_with_char c s = true -> "" ∈ tail (str_split c s).
Proof.
  induction s as [|a s IH]; [done|]. destruct s as [|b s].
  { cbn. intros ->. cbn. set_solver. }
  change (ends_with_char c (String a (String b s))) with (ends_with_char c (String b s)). intros Hin%IH. clear IH.
  remember (String b s) as t. cbn. destruct (str_split_cons c t) as (p & ps & E). rewrite E in *. cbn in Hin.
  destruct (Ascii.eqb a c); cbn; set_solver.
Qed.
(** A path whose segments are not empty has no repeated, leading or trailing slash. *)
Lemma segments_clean path :
  Forall (fun p => p <> "") (str_split slash path) ->
  String.eqb path "" || String.prefix "/" path || ends_with_char "/" path = false /\
  existsb (String.eqb "") (str_split slash path) = false.
Proof.
  intros Hp. rewrite Forall_forall in Hp. split.
  - destruct path as [|a path]; [by destruct (Hp ""); [set_solver|]|]. cbn [String.eqb orb].
    apply orb_false_intro.
    + cbn [String.prefix]. destruct (ascii_dec "/" a) as [<-|]; [|done]. exfalso. apply (Hp ""); [|done].
      change (str_split slash (String "/" path)) with ("" :: str_split slash path). apply elem_of_cons. by left.
    + apply not_true_is_false. intros He%ends_split. apply (Hp ""); [|done]. by destruct (str_split _ _); [|apply elem_of_cons; right].
  - apply not_true_is_false. intros (p & Hin & He)%existsb_exists. apply String.eqb_eq in He as <-.
    apply list_elem_of_In in Hin. by apply (Hp "").
Qed.

Definition scale_suffix (scale : Scale) : string := match scale with X1 => "" | X2 => "@2x" end.
(** The spellings of an image format. *)
Definition extensions (format : ImageFormat) : list string :=
  match format with Png => [""; ".png"] | Webp => [".webp"] | Jpeg => [".jpg"; ".jpeg"] end.
Definition tile_segments (z x y : Z) (scale : Scale) (extension : string) : list string :=
  [decimal z; decimal x; decimal y +:+ scale_suffix scale +:+ extension].
Definition tile_url (components : list string) (z x y : Z) (scale : Scale) (extension : string) : string :=
  "/" +:+ String.concat "/" (components ++ tile_segments z x y scale extension).

Lemma parse_suffix_written n scale format extension :
  0 <= n <= u64_max -> extension ∈ extensions format ->
  parse_suffix (decimal n +:+ scale_suffix scale +:+ extension) = Ok (decimal n, scale, format).
Proof.
  intros Hn He. assert (Hno : forall c, char_digit c = None -> ~ str_In c (decimal n)) by (intros; by apply decimal_no_char).
  assert (Hsc : match strip_suffix "@2x" (decimal n +:+ scale_suffix scale) with
    | Some body => Ok (body, X2, format)
    | None => if str_contains "@" (decimal n +:+ scale_suffix scale) then refuse "scale must be omitted or @2x"
              else Ok (decimal n +:+ scale_suffix scale, X1, format)
    end = Ok (decimal n, scale, format)).
  { destruct scale; cbn [scale_suffix]; [|by rewrite strip_suffix_app]. rewrite app_empty_r.
    destruct (strip_suffix "@2x" (decimal n)) as [x|] eqn:E.
    - apply strip_suffix_Some in E. exfalso. apply (Hno "@"%char); [done|]. rewrite E. apply str_In_app.
    - destruct (str_contains "@" (decimal n)) eqn:C; [|done]. apply str_contains_char in C. by apply Hno in C. }
  unfold parse_suffix. rewrite <- app_assoc_str.
  assert (Hdot : ~ str_In "."%char (decimal n +:+ scale_suffix scale)).
  { rewrite str_In_append. intros [Hd|Hd]; [by apply Hno in Hd|]. destruct scale; cbn in Hd; intuition discriminate. }
  assert (Hx : extension = "" /\ format = Png \/ exists e, extension = String "." e /\ parse_format e = Some format /\ ~ str_In "."%char e).
  { destruct format; cbn in He; repeat (apply elem_of_cons in He as [->|He]); try (by apply not_elem_of_nil in He);
      [by left|right; eexists; split_and!; [done..|cbn; intuition discriminate]..]. }
  destruct Hx as [[-> ->]|(e & -> & Hf & Hde)].
  - rewrite app_empty_r, rsplit_once_None by done. cbn [mbind Res_bind]. done.
  - rewrite rsplit_once_app by done. rewrite Hf. cbn [required ok_or mbind Res_bind]. done.
Qed.

Lemma tile_segments_clean z x y scale format extension :
  0 <= z <= u64_max -> 0 <= x <= u64_max -> 0 <= y <= u64_max -> extension ∈ extensions format ->
  Forall (fun s => s <> "" /\ s <> "static" /\ s <> "preview" /\ ~ str_In slash s) (tile_segments z x y scale extension).
Proof.
  intros Hz Hx Hy He.
  assert (Hd : forall n rest, 0 <= n <= u64_max -> ~ str_In slash rest ->
    decimal n +:+ rest <> "" /\ decimal n +:+ rest <> "static" /\ decimal n +:+ rest <> "preview" /\ ~ str_In slash (decimal n +:+ rest)).
  { intros n rest Hn Hr. pose proof (decimal_no_char n slash Hn ltac:(done)) as Hsl.
    assert (Hs : exists d s, decimal n = String d s /\ char_digit d <> None).
    { pose proof (parse_decimal u64_max n Hn ltac:(done)) as Hp. destruct (decimal n) as [|d s] eqn:E; [done|].
      exists d, s. split; [done|]. intros Hc. apply (decimal_no_char n d Hn Hc). rewrite E. by left. }
    destruct Hs as (d & s & E & Hdig). rewrite str_In_append. rewrite E in *. rewrite app_String.
    split_and!; [done|intros [= -> _]; by vm_compute in Hdig|intros [= -> _]; by vm_compute in Hdig|tauto]. }
  assert (Hsfx : ~ str_In slash (scale_suffix scale +:+ extension)).
  { rewrite str_In_append. destruct scale, format; cbn in He; repeat (apply elem_of_cons in He as [->|He]); try (by apply not_elem_of_nil in He);
      cbn; intuition discriminate. }
  unfold tile_segments. rewrite <- (app_empty_r (decimal z)), <- (app_empty_r (decimal x)).
  repeat constructor; apply Hd; (done || (cbn; tauto)).
Qed.

Lemma component_clean c : validate_path_component c "style_id" = Ok tt -> c <> "" /\ ~ str_In slash c.
Proof.
  unfold validate_path_component. destruct (String.eqb_spec c "") as [|Hne]; [done|]. destruct (str_contains ".." c); [done|].
  destruct (str_all path_component_char c) eqn:Ha; [|done]. intros _. split; [done|]. clear Hne.
  induction c as [|a c IH]; cbn in *; [tauto|]. apply andb_prop in Ha as [Ha Hc]. intros [->|Hin]; [done|by apply IH].
Qed.

Lemma components_valid components :
  Forall (fun c => validate_path_component c "style_id" = Ok tt) components -> validate_components components = Ok tt.
Proof. induction 1 as [|c l Hc Hl IH]; [done|]. cbn [validate_components]. by rewrite Hc. Qed.

Section TileUrls.
Context (components : list string) (z x y : Z) (scale : Scale) (format : ImageFormat) (extension : string).
Context (Hcomponents : Forall (fun c => validate_path_component c "style_id" = Ok tt) components).
Context (Hlength : str_len (String.concat "/" components) <= MAX_STYLE_ID_BYTES).
Context (Hz : 0 <= z < 32) (Hx : 0 <= x < 2 ^ z) (Hy : 0 <= y < 2 ^ z) (Hext : extension ∈ extensions format).

Lemma tile_coordinates : (0 <= z <= u8_max) /\ (0 <= x <= u32_max) /\ (0 <= y <= u32_max).
Proof. assert (2 ^ z <= 2 ^ 31) by (apply Z.pow_le_mono_r; lia). unfold u8_max, u32_max. lia. Qed.

Let segments := tile_segments z x y scale extension.
Let parts := components ++ segments.

Lemma tile_parts_clean : Forall (fun p => p <> "" /\ ~ str_In slash p) parts.
Proof.
  destruct tile_coordinates as (H1 & H2 & H3). apply Forall_app. split.
  - eapply Forall_impl; [apply Hcomponents|]. apply component_clean.
  - eapply Forall_impl; [apply tile_segments_clean with (format := format); unfold u8_max, u32_max, u64_max in *; (done || lia)|].
    by intros p (? & _ & _ & ?).
Qed.

Lemma written_tile_kind : static_path_index parts = None.
Proof.
  destruct tile_coordinates as (H1 & H2 & H3). unfold static_path_index, parts, segments. rewrite length_app. cbn [length tile_segments].
  replace (length components + 3 - 3)%nat with (length components) by lia.
  rewrite lookup_app_r by lia. rewrite Nat.sub_diag, drop_app_length. cbn [lookup list_lookup tile_segments].
  rewrite bool_decide_false, andb_false_r.
  2: { intros [= E]. assert (Hf : decimal z +:+ "" = "static") by (by rewrite app_empty_r).
       pose proof (decimal_no_char z "s"%char ltac:(unfold u8_max, u64_max in *; lia) ltac:(done)) as Hs. rewrite E in Hs. apply Hs. by left. }
  cbn [looks_like_user_static_tile_path tile_segments]. unfold looks_like_user_static_tile_path, parse_scale_format.
  rewrite !parse_decimal by (done || lia). rewrite parse_suffix_written with (format := format) by (unfold u32_max, u64_max in *; done || lia).
  cbn [mbind Res_bind]. rewrite parse_decimal by (done || lia). cbn. by rewrite andb_false_r.
Qed.

(** Written tile URLs are classified as tiles of the style their segments name. *)
Lemma written_tile_path :
  parse_public_path (tile_url components z x y scale extension) =
  Ok (PpRender {| prp_parts := parts; prp_style_id := String.concat "/" components; prp_kind := PkTile |}).
Proof.
  pose proof tile_parts_clean as Hc. unfold parse_public_path, tile_url. fold segments parts. set (path := String.concat "/" parts).
  assert (Hsplit : str_split slash path = parts).
  { apply split_concat; [unfold parts, segments, tile_segments; by destruct components|]. eapply Forall_impl; [done|]. by intros ? [_ ?]. }
  replace (strip_prefix "/" ("/" +:+ path)) with (Some path) by (by cbn; destruct path). cbn [required ok_or mbind Res_bind].
  destruct (segments_clean path) as [-> ->]; [rewrite Hsplit; eapply Forall_impl; [done|]; by intros ? [? _]|].
  rewrite Hsplit. set (final := decimal y +:+ scale_suffix scale +:+ extension).
  assert (Hlast : last parts = Some final).
  { unfold parts, segments, tile_segments. change [decimal z; decimal x; _] with ([decimal z; decimal x] ++ [final]).
    by rewrite app_assoc, last_snoc. }
  assert (Hfinal : final <> "preview").
  { destruct tile_coordinates as (H1 & H2 & H3).
    pose proof (tile_segments_clean z x y scale format extension ltac:(unfold u8_max, u64_max in *; lia)
      ltac:(unfold u32_max, u64_max in *; lia) ltac:(unfold u32_max, u64_max in *; lia) Hext) as Hs.
    unfold tile_segments in Hs. rewrite !Forall_cons in Hs. by destruct Hs as (_ & _ & (_ & _ & ? & _) & _). }
  rewrite Hlast. destruct (String.eqb_spec final "preview") as [|_]; [done|]. cbn [andb].
  unfold from_parts. rewrite written_tile_kind.
  assert (Hlen : length parts = (length components + 3)%nat) by (unfold parts; by rewrite length_app).
  rewrite Hlen. destruct (Nat.ltb_spec (length components + 3) 3); [lia|].
  replace (length components + 3 - 3)%nat with (length components) by lia.
  assert (Htake : take (length components) parts = components) by (unfold parts; by rewrite take_app_length). rewrite Htake.
  unfold resolve_style_id. rewrite components_valid by done. cbn [mbind Res_bind]. rewrite Z.gtb_ltb.
  by destruct (Z.ltb_spec MAX_STYLE_ID_BYTES (str_len (String.concat "/" components))); [lia|].
Qed.

Context `{JsonText, LayerHash}.

Lemma written_tile_task query catalog template arrival :
  parse_path_with_request_id {| prp_parts := parts; prp_style_id := String.concat "/" components; prp_kind := PkTile |}
    query catalog template arrival =
  (style ← resolve_style catalog (String.concat "/" components);
   start_task arrival style (ReqTile z x y TILE_SIZE) scale format).
Proof.
  destruct tile_coordinates as (H1 & H2 & H3). unfold parse_path_with_request_id, parse_tile_path. cbn [prp_kind prp_parts prp_style_id].
  unfold parts, segments, tile_segments. rewrite length_app. cbn [length]. rewrite Nat.add_sub, drop_app_length.
  destruct (resolve_style catalog _) as [style| |]; [|done..]. cbn [mbind Res_bind]. unfold parse_scale_format.
  rewrite !parse_decimal by (done || lia). cbn [required ok_or mbind Res_bind].
  rewrite parse_suffix_written with (format := format) by (unfold u32_max, u64_max in *; done || lia).
  cbn [mbind Res_bind]. rewrite parse_decimal by (done || lia). cbn [required ok_or mbind Res_bind].
  unfold validate_tile_coordinate. rewrite !Z.geb_leb, Z.shiftl_1_l.
  destruct (Z.leb_spec 32 z); [lia|]. destruct (Z.leb_spec (2 ^ z) x); [lia|]. destruct (Z.leb_spec (2 ^ z) y); [lia|]. done.
Qed.
End TileUrls.

(** [C13] Tile URLs are read as they are written: for every style id whose segments are
    acceptable (also one that ends in `static`, or whose segments are numbers), every
    tile of the pyramid, both scales and every spelling of a format, the URL
    `/{style_id}/{z}/{x}/{y}[@2x][.ext]` is classified as a tile of that style and
    becomes the render task of exactly that tile, whatever the query says. *)
Theorem tile_url_roundtrip `{JsonText, LayerHash} components z x y scale format extension :
  Forall (fun c => validate_path_component c "style_id" = Ok tt) components ->
  str_len (String.concat "/" components) <= MAX_STYLE_ID_BYTES ->
  0 <= z < 32 -> 0 <= x < 2 ^ z -> 0 <= y < 2 ^ z -> extension ∈ extensions format ->
  exists parsed,
    parse_public_path (tile_url components z x y scale extension) = Ok (PpRender parsed) /\
    static_style_id (PpRender parsed) = None /\
    forall query catalog template arrival,
      parse_path_with_request_id parsed query catalog template arrival =
      (style ← resolve_style catalog (String.concat "/" components);
       start_task arrival style (ReqTile z x y TILE_SIZE) scale format).
Proof.
  intros Hc Hl Hz Hx Hy He. eexists. split; [by eapply written_tile_path|]. split; [done|].
  intros. by apply written_tile_task.
Qed.

Module DemoRequests.
Definition layer_text : string := "layer".
Definition layer_value : Value :=
  JObject [("id", JString "roads"); ("source", JObject [("type", JString "vector"); ("url", JString "osm/base")]);
           ("source-layer", JString "road"); ("type", JString "line")].
#[local] Instance demo_json : JsonText :=
  DemoJson.demo_text (fun s => if String.eqb s layer_text then Some layer_value else None).
#[local] Instance demo_laws : JsonTextLaws := DemoJson.demo_text_laws _.
#[local] Instance demo_hash : LayerHash := {| stable_hash_u64 s := str_len s |}.

Definition demo_catalog : StyleCatalog.StyleCatalogInner :=
  {| StyleCatalog.by_id := {["basic/static" := {| StyleCatalog.style_url := "https://styles.example/s.json"; StyleCatalog.version := 7 |}]};
     StyleCatalog.namespace_templates := ∅; StyleCatalog.default_template := None |}.
Definition demo_arrival : Arrival := {| ar_task_id := 1; ar_request_id := "r"; ar_sla_budget := 5; ar_now := 0 |}.
Definition demo_template : string := "https://tiles.example/{tileset_id}.json".
Definition demo_parsed : ParsedRenderPath :=
  match parse_public_path "/basic/static/static/pin-s+f00(1,2)/auto/600x400@2x.webp" with
  | Ok (PpRender p) => p
  | _ => {| prp_parts := []; prp_style_id := ""; prp_kind := PkTile |}
  end.
Definition demo_query : option string := Some "addlayer=layer&padding=3".
Definition demo_outcome : Ingress PublicTask :=
  parse_path_with_request_id demo_parsed demo_query demo_catalog demo_template demo_arrival.

(** A static image of a style named `static`, with a pin, an added layer and automatic
    positioning; the peer accepts it. *)
Lemma public_request_forwardable_witness :
  exists task layer, demo_outcome = Ok task /\ request_addlayer (t_request task) = Some layer /\ layer_fits layer /\
    validate_render_request (t_request task) (to_scale (t_pixel_ratio task)) = Ok tt.
Proof.
  destruct demo_outcome as [task| |] eqn:E; [|by vm_compute in E..].
  pose proof (public_request_forwardable demo_parsed demo_query demo_catalog demo_template demo_arrival task
    ltac:(done) E) as Hf.
  assert (Hl : exists layer, request_addlayer (t_request task) = Some layer /\ layer_fits layer).
  { vm_compute in E. injection E as <-. eexists. split; [reflexivity|]. split; [by vm_compute|]. intros source [= <-]. by vm_compute. }
  destruct Hl as (layer & Hl & Hfit). exists task, layer. split_and!; [done..|]. apply Hf. intros layer' Hl'. by simplify_eq.
Defined.

(** A tile of a style whose id ends in `static`. *)
Lemma tile_url_roundtrip_witness :
  exists parsed, parse_public_path "/basic/static/3/5/6@2x.jpeg" = Ok (PpRender parsed) /\
    exists task, parse_path_with_request_id parsed None demo_catalog demo_template demo_arrival = Ok task /\
      t_request task = ReqTile 3 5 6 512 /\ t_output_format task = Jpeg.
Proof.
  destruct (tile_url_roundtrip ["basic"; "static"] 3 5 6 X2 Jpeg ".jpeg") as (parsed & Hp & _ & Ht);
    [repeat constructor|by vm_compute|lia|lia|lia|cbn; set_solver|].
  exists parsed. split; [exact Hp|]. rewrite Ht. vm_compute. eexists. by split.
Defined.
End DemoRequests.
