(* ===== verification/Admission.v ===== *)
(** * Admission and graceful shutdown

    Models [servers/biei/src/drain.rs], [wait_for_change] of
    [crates/mmpf-common/src/sync.rs] and the way the two endpoints of Biei admit
    requests ([acquire_admission] of [http/ingress.rs]; [try_admit] and the guards of
    [handle_admitted] of [http/internal.rs]): a concurrency permit of the endpoint
    and a permit of the shared drain controller, kept until the work ends.

    A step is one atomic operation of one call; calls interleave arbitrarily, and
    atomics are sequentially consistent. The counter is an unbounded integer: it
    never exceeds the number of calls in progress.

    Shows that permits are never lost or doubled, that a drained node stays idle, and
    that a wait for idleness is always woken. *)

From S2P Require Import Prelude.

(** ** Calls *)

Inductive Endpoint := EpPublic | EpInternal.
#[export] Instance Endpoint_eq_dec : EqDecision Endpoint.
Proof. solve_decision. Defined.

(** How a request left: no concurrency permit, a refused body type, the node was
    draining, or its work ended. *)
Inductive Leave := LvBusy | LvUnsupported | LvDraining | LvServed.

(** Where the call of a request stands. *)
Inductive Phase :=
  | PhArrived
  | PhPermitted
  | PhEntering
  | PhCounted
  | PhRetreating
  | PhAdmitted
  | PhReleasing
  | PhNotifying (leave : Leave)
  | PhClosing (leave : Leave)
  | PhDone (leave : Leave).

(** A request; [ac_permit]: it holds a concurrency permit of its endpoint. *)
Record ActiveCall := { ac_endpoint : Endpoint; ac_permit : bool; ac_phase : Phase }.

(** A call of [begin_draining]. *)
Inductive DrainCall := DcStart | DcStored | DcNotifying | DcDone.

(** A call of [wait_idle]; [woken]: the registered notification fired. The answer
    carries whether the node was draining when it was given. *)
Inductive WaitCall :=
  | WcStart
  | WcFast
  | WcEnter
  | WcRegistered (woken : bool)
  | WcParked (woken : bool)
  | WcDone (idle draining : bool).

Record DrainSystem := {
  accepting : bool;
  in_flight : Z;
  free_public : Z;
  free_internal : Z;
  calls : list ActiveCall;
  drains : list DrainCall;
  waits : list WaitCall }.

(** The largest number of permits of a [tokio::sync::Semaphore]; [new] panics above. *)
Definition MAX_PERMITS : Z := Z.shiftr usize_max 3.
Definition Semaphore_new (permits : Z) : option Z := if permits <=? MAX_PERMITS then Some permits else None.

(** [with_drain_and_limit] of both endpoints over a new controller. *)
Definition DrainSystem_new (public_limit internal_limit : Z) : option DrainSystem :=
  public ← Semaphore_new (Z.max public_limit 1);
  internal ← Semaphore_new (Z.max internal_limit 1);
  Some {| accepting := true; in_flight := 0; free_public := public; free_internal := internal;
          calls := []; drains := []; waits := [] |}.

(** ** Atomic operations *)

Definition is_draining (s : DrainSystem) : bool := negb (accepting s).
Definition set_accepting (b : bool) (s : DrainSystem) : DrainSystem :=
  {| accepting := b; in_flight := in_flight s; free_public := free_public s; free_internal := free_internal s;
     calls := calls s; drains := drains s; waits := waits s |}.
Definition add_in_flight (n : Z) (s : DrainSystem) : DrainSystem :=
  {| accepting := accepting s; in_flight := in_flight s + n; free_public := free_public s;
     free_internal := free_internal s; calls := calls s; drains := drains s; waits := waits s |}.
Definition set_calls (l : list ActiveCall) (s : DrainSystem) : DrainSystem :=
  {| accepting := accepting s; in_flight := in_flight s; free_public := free_public s;
     free_internal := free_internal s; calls := l; drains := drains s; waits := waits s |}.
Definition set_drains (l : list DrainCall) (s : DrainSystem) : DrainSystem :=
  {| accepting := accepting s; in_flight := in_flight s; free_public := free_public s;
     free_internal := free_internal s; calls := calls s; drains := l; waits := waits s |}.
Definition set_waits (l : list WaitCall) (s : DrainSystem) : DrainSystem :=
  {| accepting := accepting s; in_flight := in_flight s; free_public := free_public s;
     free_internal := free_internal s; calls := calls s; drains := drains s; waits := l |}.

Definition free_permits (e : Endpoint) (s : DrainSystem) : Z :=
  match e with EpPublic => free_public s | EpInternal => free_internal s end.
Definition add_permits (e : Endpoint) (n : Z) (s : DrainSystem) : DrainSystem :=
  {| accepting := accepting s; in_flight := in_flight s;
     free_public := (if decide (e = EpPublic) then free_public s + n else free_public s);
     free_internal := (if decide (e = EpInternal) then free_internal s + n else free_internal s);
     calls := calls s; drains := drains s; waits := waits s |}.

(** [Notify::notify_waiters] wakes the registered futures and stores nothing. *)
Definition wake (w : WaitCall) : WaitCall :=
  match w with WcRegistered _ => WcRegistered true | WcParked _ => WcParked true | _ => w end.
Definition notify_waiters (s : DrainSystem) : DrainSystem := set_waits (wake <$> waits s) s.

(** ** One request *)

(** The call after its next operation and the state it leaves; [None]: it has none of
    its own (the work is in progress, or it left). *)
Definition with_phase (c : ActiveCall) (p : Phase) : ActiveCall :=
  {| ac_endpoint := ac_endpoint c; ac_permit := ac_permit c; ac_phase := p |}.
Definition with_permit (c : ActiveCall) (permit : bool) (p : Phase) : ActiveCall :=
  {| ac_endpoint := ac_endpoint c; ac_permit := permit; ac_phase := p |}.
(** [fetch_sub]; the one who takes the counter to zero notifies. *)
Definition leave_flight (c : ActiveCall) (leave : Leave) (s : DrainSystem) : ActiveCall * DrainSystem :=
  (with_phase c (if in_flight s =? 1 then PhNotifying leave else PhClosing leave), add_in_flight (-1) s).

Definition call_next (c : ActiveCall) (s : DrainSystem) : option (ActiveCall * DrainSystem) :=
  match ac_phase c with
  | PhArrived =>
      if 0 <? free_permits (ac_endpoint c) s
      then Some (with_permit c true PhPermitted, add_permits (ac_endpoint c) (-1) s)
      else Some (with_phase c (PhDone LvBusy), s)
  | PhPermitted => Some (with_phase c (if is_draining s then PhClosing LvDraining else PhEntering), s)
  | PhEntering => Some (with_phase c PhCounted, add_in_flight 1 s)
  | PhCounted => Some (with_phase c (if is_draining s then PhRetreating else PhAdmitted), s)
  | PhRetreating => Some (leave_flight c LvDraining s)
  | PhAdmitted => None
  | PhReleasing => Some (leave_flight c LvServed s)
  | PhNotifying leave => Some (with_phase c (PhClosing leave), notify_waiters s)
  | PhClosing leave =>
      if ac_permit c then Some (with_permit c false (PhDone leave), add_permits (ac_endpoint c) 1 s)
      else Some (with_phase c (PhDone leave), s)
  | PhDone _ => None
  end.

(** The end of the work drops the guards: the public endpoint returns its concurrency
    permit first, the internal one last. *)
Definition call_end_work (c : ActiveCall) (s : DrainSystem) : option (ActiveCall * DrainSystem) :=
  match ac_phase c, ac_endpoint c with
  | PhAdmitted, EpPublic => Some (with_permit c false PhReleasing, add_permits EpPublic 1 s)
  | PhAdmitted, EpInternal => Some (with_phase c PhReleasing, s)
  | _, _ => None
  end.
(** The internal endpoint refuses other body types before the drain controller is asked. *)
Definition call_refuse_type (c : ActiveCall) (s : DrainSystem) : option (ActiveCall * DrainSystem) :=
  match ac_phase c, ac_endpoint c with
  | PhPermitted, EpInternal => Some (with_phase c (PhClosing LvUnsupported), s)
  | _, _ => None
  end.

(** ** [begin_draining] and [wait_idle] *)

Definition drain_next (d : DrainCall) (s : DrainSystem) : option (DrainCall * DrainSystem) :=
  match d with
  | DcStart => Some (DcStored, set_accepting false s)
  | DcStored => Some (if in_flight s =? 0 then DcNotifying else DcDone, s)
  | DcNotifying => Some (DcDone, notify_waiters s)
  | DcDone => None
  end.

(** [wait_idle] checks; [wait_for_change] checks again, registers, checks and parks. *)
Definition wait_next (w : WaitCall) (s : DrainSystem) : option WaitCall :=
  let check otherwise := Some (if in_flight s =? 0 then WcDone true (is_draining s) else otherwise) in
  match w with
  | WcStart => check WcFast
  | WcFast => check WcEnter
  | WcEnter => Some (WcRegistered false)
  | WcRegistered woken => check (WcParked woken)
  | WcParked true => Some WcEnter
  | WcParked false => None
  | WcDone _ _ => None
  end.
(** The deadline of [tokio::time::timeout]. *)
Definition wait_timeout (w : WaitCall) (s : DrainSystem) : option WaitCall :=
  match w with
  | WcStart | WcDone _ _ => None
  | _ => Some (WcDone false (is_draining s))
  end.

(** ** Executions *)

Inductive Event :=
  | EvArrive (e : Endpoint)
  | EvCall (i : nat)
  | EvEndWork (i : nat)
  | EvRefuseType (i : nat)
  | EvBeginDraining
  | EvDrain (i : nat)
  | EvWaitIdle
  | EvWait (i : nat)
  | EvTimeout (i : nat).

Definition on_call (f : ActiveCall -> DrainSystem -> option (ActiveCall * DrainSystem)) (i : nat) (s : DrainSystem)
    : option DrainSystem :=
  c ← calls s !! i; '(c', s') ← f c s; Some (set_calls (<[i := c']> (calls s')) s').
Definition on_wait (f : WaitCall -> DrainSystem -> option WaitCall) (i : nat) (s : DrainSystem) : option DrainSystem :=
  w ← waits s !! i; w' ← f w s; Some (set_waits (<[i := w']> (waits s)) s).

Definition step (ev : Event) (s : DrainSystem) : option DrainSystem :=
  match ev with
  | EvArrive e => Some (set_calls (calls s ++ [{| ac_endpoint := e; ac_permit := false; ac_phase := PhArrived |}]) s)
  | EvCall i => on_call call_next i s
  | EvEndWork i => on_call call_end_work i s
  | EvRefuseType i => on_call call_refuse_type i s
  | EvBeginDraining => Some (set_drains (drains s ++ [DcStart]) s)
  | EvDrain i => d ← drains s !! i; '(d', s') ← drain_next d s; Some (set_drains (<[i := d']> (drains s')) s')
  | EvWaitIdle => Some (set_waits (waits s ++ [WcStart]) s)
  | EvWait i => on_wait wait_next i s
  | EvTimeout i => on_wait wait_timeout i s
  end.
Fixpoint run (evs : list Event) (s : DrainSystem) : option DrainSystem :=
  match evs with [] => Some s | ev :: evs => s ← step ev s; run evs s end.

Lemma run_app evs evs' s : run (evs ++ evs') s = run evs s ≫= run evs'.
Proof. revert s. induction evs as [|ev evs IH]; intros s; [done|]. cbn. destruct (step ev s); [apply IH|done]. Qed.

(** ** Accounting *)

Definition counted (c : ActiveCall) : bool :=
  match ac_phase c with PhCounted | PhRetreating | PhAdmitted | PhReleasing => true | _ => false end.
Definition notifying (c : ActiveCall) : bool := match ac_phase c with PhNotifying _ => true | _ => false end.
Definition holds (e : Endpoint) (c : ActiveCall) : bool := bool_decide (ac_endpoint c = e) && ac_permit c.
(** The request holds a permit of the drain controller: it works, or drops its guards. *)
Definition admitted (c : ActiveCall) : bool :=
  match ac_phase c with PhAdmitted | PhReleasing => true | _ => false end.
(** A request works under a concurrency permit of its endpoint. *)
Definition working (e : Endpoint) (c : ActiveCall) : bool :=
  bool_decide (ac_endpoint c = e) && match ac_phase c with PhAdmitted => true | _ => false end.

Definition call_ok (c : ActiveCall) : Prop :=
  match ac_phase c with
  | PhArrived | PhDone _ => ac_permit c = false
  | PhReleasing | PhNotifying _ | PhClosing _ => True
  | _ => ac_permit c = true
  end.
Definition stranded (w : WaitCall) : bool := match w with WcParked false => true | _ => false end.
Definition drained (w : WaitCall) : bool := match w with WcDone true true => true | _ => false end.
Definition quiet (s : DrainSystem) : Prop := accepting s = false /\ count admitted (calls s) = 0.

Section Accounting.
Context (limit : Endpoint -> Z).

Record admission_inv (s : DrainSystem) : Prop := {
  ai_calls : Forall call_ok (calls s);
  ai_flight : in_flight s = count counted (calls s);
  ai_permits e : 0 <= free_permits e s /\ free_permits e s + count (holds e) (calls s) = limit e;
  ai_waits : 0 < count stranded (waits s) -> in_flight s <> 0 \/ 0 < count notifying (calls s);
  ai_drained : 0 < count drained (waits s) -> quiet s }.

Lemma wake_counts l : count stranded (wake <$> l) = 0 /\ count drained (wake <$> l) = count drained l.
Proof.
  induction l as [|w l [IH1 IH2]]; [done|]. unfold count in *. cbn [fmap list_fmap List.filter].
  destruct w as [| | |[]|[]|[] []]; cbn [wake stranded drained length] in *; lia.
Qed.

Lemma admitted_counted l : count admitted l <= count counted l.
Proof.
  induction l as [|c l IH]; [done|]. unfold count in *. cbn [List.filter]. unfold admitted at 1, counted at 1.
  destruct (ac_phase c); cbn [length]; lia.
Qed.
Lemma working_held e l : Forall call_ok l -> count (working e) l <= count (holds e) l.
Proof.
  induction 1 as [|c l Hc Hl IH]; [done|]. unfold count in *. cbn [List.filter].
  unfold working at 1, holds at 1. destruct (bool_decide _); cbn [andb]; [|done].
  unfold call_ok in Hc. destruct (ac_phase c); rewrite ?Hc; try (destruct (ac_permit c)); cbn [length]; lia.
Qed.

(** A call is replaced: what the change of the counters has to be. *)
Record replaces (c c' : ActiveCall) (s s' : DrainSystem) : Prop := {
  rp_ok : call_ok c';
  rp_calls : calls s' = calls s;
  rp_flight : in_flight s' = in_flight s - Z.b2z (counted c) + Z.b2z (counted c');
  rp_permits e : 0 <= free_permits e s' /\
    free_permits e s' = free_permits e s + Z.b2z (holds e c) - Z.b2z (holds e c');
  rp_waits : waits s' = wake <$> waits s \/
    waits s' = waits s /\ (notifying c' = true \/ notifying c = false /\ (in_flight s <> 0 -> in_flight s' <> 0));
  rp_accepting : accepting s' = accepting s;
  rp_admitted : accepting s = false -> admitted c' = true -> admitted c = true }.

Lemma replaces_inv i c c' s s' :
  admission_inv s -> calls s !! i = Some c -> replaces c c' s s' ->
  admission_inv (set_calls (<[i := c']> (calls s')) s').
Proof.
  intros [Hok Hf Hp Hw Hd] Hi [Rok Rc Rf Rp Rw Ra Rad].
  split; cbn [calls in_flight waits set_calls]; rewrite Rc.
  - by apply Forall_insert.
  - rewrite (count_insert _ _ _ _ _ Hi). lia.
  - intros e. specialize (Hp e). specialize (Rp e). rewrite (count_insert _ _ _ _ _ Hi).
    replace (free_permits e (set_calls _ _)) with (free_permits e s') by (by destruct e). lia.
  - rewrite (count_insert _ _ _ _ _ Hi). pose proof (count_pos notifying (calls s)) as Hn.
    destruct Rw as [->|[-> Rw]]; [destruct (wake_counts (waits s)); lia|]. intros Hst. specialize (Hw Hst).
    destruct Rw as [Hc'|[Hc Hfl]].
    2: { rewrite Hc. destruct Hw as [Hw|Hw]; [left; auto|right; destruct (notifying c'); cbn [Z.b2z]; lia]. }
    right. rewrite Hc'. destruct (notifying c) eqn:Hc; cbn [Z.b2z]; [|lia].
    pose proof (count_ge notifying _ _ _ Hi Hc). lia.
  - assert (Hdr : count drained (waits s') = count drained (waits s)) by (destruct Rw as [->|[-> _]]; [apply wake_counts|done]).
    rewrite Hdr. intros [Hacc Had]%Hd. split; cbn [accepting calls set_calls]; [congruence|].
    rewrite (count_insert _ _ _ _ _ Hi). pose proof (count_ge admitted _ _ _ Hi) as Hge.
    destruct (admitted c), (admitted c'); cbn [Z.b2z]; try lia; try (specialize (Hge eq_refl); lia).
    by specialize (Rad Hacc eq_refl).
Qed.

#[local] Ltac solve_replaces :=
  lazymatch goal with
  | |- forall e0 : Endpoint, _ =>
      intros [];
      repeat match goal with e : Endpoint |- _ => destruct e end;
      unfold holds; cbn; repeat case_decide; repeat case_bool_decide; try done; cbn in *; lia
  | |- _ \/ _ => first [by left|right; split; [done|]; first [by left|right; split; [done|]; cbn; lia]]
  | |- _ => by cbn; lia
  end.

Lemma call_next_replaces i c c' s s' :
  admission_inv s -> calls s !! i = Some c -> call_next c s = Some (c', s') -> replaces c c' s s'.
Proof.
  intros [Hok Hf Hp Hw Hd] Hi Hn. pose proof (Forall_lookup_1 _ _ _ _ Hok Hi) as Hc.
  pose proof (Hp EpPublic) as Hp1. pose proof (Hp EpInternal) as Hp2. clear Hp Hw Hd.
  pose proof (count_pos counted (calls s)).
  destruct c as [e permit p]. unfold call_ok in Hc. cbn [ac_phase ac_permit ac_endpoint free_permits] in *.
  unfold call_next in Hn. cbn [ac_phase ac_endpoint ac_permit] in Hn.
  destruct p as [| | | | | | |leave|leave|leave]; try done; unfold leave_flight, is_draining in Hn;
    repeat case_match; simplify_eq/=; bool_props.
  all: split; try done; try solve_replaces.
  intros Ha. by rewrite Ha in *.
Qed.
Lemma call_end_replaces i c c' s s' :
  admission_inv s -> calls s !! i = Some c -> call_end_work c s = Some (c', s') -> replaces c c' s s'.
Proof.
  intros [Hok Hf Hp Hw Hd] Hi Hn. pose proof (Forall_lookup_1 _ _ _ _ Hok Hi) as Hc.
  pose proof (Hp EpPublic) as Hp1. pose proof (Hp EpInternal) as Hp2. clear Hp Hw Hd.
  destruct c as [e permit p]. unfold call_ok, call_end_work in *. cbn [ac_phase ac_permit ac_endpoint free_permits] in *.
  destruct p, e; try done; simplify_eq/=. all: split; try done; try solve_replaces.
Qed.
Lemma call_refuse_replaces i c c' s s' :
  admission_inv s -> calls s !! i = Some c -> call_refuse_type c s = Some (c', s') -> replaces c c' s s'.
Proof.
  intros [Hok Hf Hp Hw Hd] Hi Hn. pose proof (Forall_lookup_1 _ _ _ _ Hok Hi) as Hc.
  pose proof (Hp EpPublic) as Hp1. pose proof (Hp EpInternal) as Hp2. clear Hp Hw Hd.
  destruct c as [e permit p]. unfold call_ok, call_refuse_type in *. cbn [ac_phase ac_permit ac_endpoint free_permits] in *.
  destruct p, e; try done; simplify_eq/=. all: split; try done; try solve_replaces.
Qed.

Lemma on_call_inv f i s s' :
  (forall c c' s', calls s !! i = Some c -> f c s = Some (c', s') -> replaces c c' s s') ->
  admission_inv s -> on_call f i s = Some s' -> admission_inv s'.
Proof.
  intros Hf Hs. unfold on_call. destruct (calls s !! i) as [c|] eqn:Hi; [|done]. cbn.
  destruct (f c s) as [[c' s1]|] eqn:E; [|done]. cbn. intros [= <-]. by eapply replaces_inv; eauto.
Qed.

(** A wait is replaced by one that is not parked asleep unless the node is busy. *)
Lemma replaced_wait_inv i w w' s :
  admission_inv s -> waits s !! i = Some w ->
  (stranded w' = true -> in_flight s <> 0) -> (drained w' = true -> drained w = true \/ quiet s) ->
  admission_inv (set_waits (<[i := w']> (waits s)) s).
Proof.
  intros [Hok Hf Hp Hw Hd] Hi Hst Hdr. split; try done.
  - cbn [waits set_waits in_flight calls]. rewrite (count_insert _ _ _ _ _ Hi). intros Hc.
    destruct (stranded w'); [left; by apply Hst|]. apply Hw. destruct (stranded w); cbn [Z.b2z] in Hc; lia.
  - cbn [waits set_waits]. rewrite (count_insert _ _ _ _ _ Hi). intros Hc.
    assert (Hq : quiet s); [|by destruct Hq].
    destruct (drained w'); [|apply Hd; destruct (drained w); cbn [Z.b2z] in Hc; lia].
    destruct (Hdr eq_refl) as [Hw0|]; [|done]. apply Hd. pose proof (count_ge drained _ _ _ Hi Hw0). lia.
Qed.

Lemma idle_quiet s : admission_inv s -> in_flight s = 0 -> accepting s = false -> quiet s.
Proof.
  intros Hs Hz Ha. split; [done|]. pose proof (ai_flight _ Hs) as Hf. pose proof (admitted_counted (calls s)).
  pose proof (count_pos admitted (calls s)). lia.
Qed.

Lemma wait_next_inv i w w' s :
  admission_inv s -> waits s !! i = Some w -> wait_next w s = Some w' ->
  admission_inv (set_waits (<[i := w']> (waits s)) s).
Proof.
  intros Hs Hi Hn. apply (replaced_wait_inv i w); [done|done| |]; unfold wait_next, is_draining in Hn;
    destruct w as [| | |woken|[]|idle draining]; try done; try destruct (in_flight s =? 0) eqn:Hz; simplify_eq/=; try done.
  all: try (intros; bool_props; lia).
  all: intros Hdr; right; bool_props; apply idle_quiet; [done..|]; by destruct (accepting s).
Qed.
Lemma wait_timeout_inv i w w' s :
  admission_inv s -> waits s !! i = Some w -> wait_timeout w s = Some w' ->
  admission_inv (set_waits (<[i := w']> (waits s)) s).
Proof. intros Hs Hi Hn. apply (replaced_wait_inv i w); [done|done| |]; by destruct w as [| | |woken|[]|idle draining]; simplify_eq/=. Qed.

Lemma drain_next_inv i d d' s s' :
  admission_inv s -> drains s !! i = Some d -> drain_next d s = Some (d', s') ->
  admission_inv (set_drains (<[i := d']> (drains s')) s').
Proof.
  intros [Hok Hf Hp Hw Hd] Hi Hn.
  assert (Hp' : forall s', free_public s' = free_public s -> free_internal s' = free_internal s -> calls s' = calls s ->
    forall e, 0 <= free_permits e s' /\ free_permits e s' + count (holds e) (calls s') = limit e).
  { intros s1 H1 H2 -> e. specialize (Hp e). destruct e; cbn in *; by rewrite ?H1, ?H2. }
  destruct d; simplify_eq/=; (split; [done|done|by apply Hp'| |]); cbn [waits in_flight calls set_drains set_accepting notify_waiters set_waits].
  - done.
  - intros [_ Hq]%Hd. by split.
  - done.
  - intros [? ?]%Hd. by split.
  - destruct (wake_counts (waits s)) as [-> _]. lia.
  - destruct (wake_counts (waits s)) as [_ ->]. intros [? ?]%Hd. by split.
Qed.

Lemma step_inv ev s s' : admission_inv s -> step ev s = Some s' -> admission_inv s'.
Proof.
  intros Hs. pose proof Hs as [Hok Hf Hp Hw Hd]. destruct ev as [e|i|i|i| |i| |i|i]; cbn [step].
  - intros [= <-]. split; cbn [calls in_flight waits set_calls].
    + apply Forall_app. split; [done|]. by constructor.
    + rewrite count_snoc. cbn. lia.
    + intros e0. specialize (Hp e0). rewrite count_snoc. unfold holds at 2. cbn [ac_permit]. rewrite andb_false_r. by destruct e0; cbn in *; rewrite Z.add_0_r.
    + rewrite count_snoc. cbn. by rewrite Z.add_0_r.
    + intros [Ha Hq]%Hd. split; [done|]. cbn [calls set_calls]. rewrite count_snoc. cbn. lia.
  - apply on_call_inv; [|done]. intros. by eapply call_next_replaces.
  - apply on_call_inv; [|done]. intros. by eapply call_end_replaces.
  - apply on_call_inv; [|done]. intros. by eapply call_refuse_replaces.
  - intros [= <-]. split; done.
  - destruct (drains s !! i) as [d|] eqn:Hi; [|done]. cbn. destruct (drain_next d s) as [[d' s1]|] eqn:E; [|done].
    cbn. intros [= <-]. by eapply drain_next_inv.
  - intros [= <-]. split; try done.
    + cbn [waits set_waits in_flight calls]. rewrite count_snoc. cbn. by rewrite Z.add_0_r.
    + cbn [waits set_waits]. rewrite count_snoc. cbn. rewrite Z.add_0_r. intros [? ?]%Hd. by split.
  - unfold on_wait. destruct (waits s !! i) as [w|] eqn:Hi; [|done]. cbn. destruct (wait_next w s) as [w'|] eqn:E; [|done].
    cbn. intros [= <-]. by eapply wait_next_inv.
  - unfold on_wait. destruct (waits s !! i) as [w|] eqn:Hi; [|done]. cbn. destruct (wait_timeout w s) as [w'|] eqn:E; [|done].
    cbn. intros [= <-]. by eapply wait_timeout_inv.
Qed.
Lemma run_inv evs s s' : admission_inv s -> run evs s = Some s' -> admission_inv s'.
Proof.
  revert s. induction evs as [|ev evs IH]; intros s Hs; cbn; [by intros [= <-]|].
  destruct (step ev s) as [s1|] eqn:E; [|done]. cbn. apply IH. by eapply step_inv.
Qed.

(** ** A drained node stays idle *)

Lemma quiet_step ev s s' : admission_inv s -> quiet s -> step ev s = Some s' -> quiet s'.
Proof.
  intros Hs [Ha Hq].
  assert (Hcall : forall f i, (forall c c' s1, calls s !! i = Some c -> f c s = Some (c', s1) -> replaces c c' s s1) ->
    on_call f i s = Some s' -> quiet s').
  { intros f i Hf. unfold on_call. destruct (calls s !! i) as [c|] eqn:Hi; [|done]. cbn.
    destruct (f c s) as [[c' s1]|] eqn:E; [|done]. cbn. intros [= <-]. destruct (Hf c c' s1 eq_refl E) as [_ Rc _ _ _ Ra Rad].
    split; cbn [accepting calls set_calls]; [congruence|]. rewrite Rc, (count_insert _ _ _ _ _ Hi).
    pose proof (count_ge admitted _ _ _ Hi) as Hge. destruct (admitted c), (admitted c'); cbn [Z.b2z]; try lia;
      first [specialize (Hge eq_refl); lia|by specialize (Rad Ha eq_refl)]. }
  destruct ev as [e|i|i|i| |i| |i|i]; cbn [step].
  - intros [= <-]. split; [done|]. cbn [calls set_calls]. rewrite count_snoc. cbn. lia.
  - apply Hcall. intros. by eapply call_next_replaces.
  - apply Hcall. intros. by eapply call_end_replaces.
  - apply Hcall. intros. by eapply call_refuse_replaces.
  - by intros [= <-].
  - destruct (drains s !! i) as [[]|]; try done; by intros [= <-].
  - by intros [= <-].
  - unfold on_wait. destruct (waits s !! i) as [w|]; [|done]. cbn. destruct (wait_next w s); [|done]. by intros [= <-].
  - unfold on_wait. destruct (waits s !! i) as [w|]; [|done]. cbn. destruct (wait_timeout w s); [|done]. by intros [= <-].
Qed.
Lemma quiet_run evs s s' : admission_inv s -> quiet s -> run evs s = Some s' -> quiet s'.
Proof.
  revert s. induction evs as [|ev evs IH]; intros s Hs Hq; cbn; [by intros [= <-]|].
  destruct (step ev s) as [s1|] eqn:E; [|done]. cbn. apply IH; [by eapply step_inv|by eapply quiet_step].
Qed.

(** ** Waits end *)

Definition weight (c : ActiveCall) : nat :=
  match ac_phase c with
  | PhArrived => 9 | PhPermitted => 8 | PhEntering => 7 | PhCounted => 6 | PhAdmitted => 5
  | PhReleasing | PhRetreating => 3 | PhNotifying _ => 2 | PhClosing _ => 1 | PhDone _ => 0
  end.
Lemma weight_insert l i c c' :
  l !! i = Some c -> (weight c' < weight c)%nat -> (sum_list_with weight (<[i := c']> l) < sum_list_with weight l)%nat.
Proof.
  revert i. induction l as [|x l IH]; intros [|i] Hi Hw; try done.
  - injection Hi as ->. cbn. lia.
  - specialize (IH i Hi Hw). change (<[S i := c']> (x :: l)) with (x :: <[i := c']> l). cbn [sum_list_with]. lia.
Qed.

(** The request moves on: by its own operation, or because its work ends. *)
Lemma call_progress s i c :
  calls s !! i = Some c -> weight c <> 0%nat ->
  exists ev c' s1, step ev s = Some (set_calls (<[i := c']> (calls s)) s1) /\ (weight c' < weight c)%nat /\
    accepting s1 = accepting s /\ (waits s1 = waits s \/ waits s1 = wake <$> waits s) /\ ev ∈ [EvCall i; EvEndWork i].
Proof.
  intros Hi Hw. destruct c as [e permit p]. unfold weight in *. cbn [ac_phase] in *.
  destruct p; try done.
  6: { exists (EvEndWork i). cbn [step]. unfold on_call. rewrite Hi. destruct e; cbn; eexists _, _;
         (split; [reflexivity|split_and!; [cbn; lia|done|by left|set_solver]]). }
  all: exists (EvCall i); cbn [step]; unfold on_call; rewrite Hi; cbn [mbind option_bind call_next ac_phase ac_endpoint ac_permit]; unfold leave_flight.
  all: repeat case_match; cbn [mbind option_bind]; eexists _, _;
    (split; [reflexivity|split_and!; [cbn; repeat case_match; lia|done|first [by left|by right]|set_solver]]).
Qed.

Lemma wake_idemp w : wake (wake w) = wake w.
Proof. by destruct w. Qed.

Definition no_arrival (ev : Event) : Prop :=
  match ev with EvCall _ | EvEndWork _ | EvWait _ => True | _ => False end.

(** The requests in progress can all end. *)
Lemma calls_end n s :
  (sum_list_with weight (calls s) <= n)%nat -> admission_inv s ->
  exists evs s', run evs s = Some s' /\ Forall no_arrival evs /\ Forall (fun c => weight c = 0%nat) (calls s') /\
    accepting s' = accepting s /\ (waits s' = waits s \/ waits s' = wake <$> waits s).
Proof.
  revert s. induction n as [|n IH]; intros s Hn Hs.
  all: destruct (decide (Forall (fun c => weight c = 0%nat) (calls s))) as [Hall|Hne].
  1, 3: exists [], s; split_and!; [done|constructor|done|done|by left].
  all: apply not_Forall_Exists in Hne; [|apply _]; apply Exists_exists in Hne as (c & [i Hi]%list_elem_of_lookup & Hc).
  all: destruct (call_progress s i c Hi Hc) as (ev & c' & s1 & Hstep & Hlt & Hacc & Hwaits & Hev).
  all: pose proof (weight_insert _ _ _ _ Hi Hlt) as Hsum.
  1: lia.
  destruct (IH (set_calls (<[i := c']> (calls s)) s1)) as (evs & s' & Hrun & Hno & Hdone & Hacc' & Hw').
  { cbn [calls set_calls]. lia. }
  { by eapply step_inv. }
  exists (ev :: evs), s'. cbn [run]. rewrite Hstep. split_and!; [done| |done|cbn in Hacc'; congruence|].
  - constructor; [|done]. rewrite !elem_of_cons in Hev. by destruct Hev as [->|[->|?%elem_of_nil]].
  - cbn [waits set_calls] in Hw'. destruct Hwaits as [Hw1|Hw1]; rewrite Hw1 in Hw'; destruct Hw' as [->| ->]; auto.
    right. rewrite <- list_fmap_compose. apply list_fmap_ext. intros ? w _. apply wake_idemp.
Qed.

(** With every request gone, a wait that is not over returns. *)
Lemma idle_wait_returns s i w :
  admission_inv s -> Forall (fun c => weight c = 0%nat) (calls s) -> waits s !! i = Some w ->
  (forall idle draining, w <> WcDone idle draining) ->
  exists evs s', run evs s = Some s' /\ Forall no_arrival evs /\ waits s' !! i = Some (WcDone true (is_draining s)).
Proof.
  intros Hs Hdone Hi Hw.
  assert (Hz : in_flight s = 0).
  { rewrite (ai_flight _ Hs). apply count_zero. eapply Forall_impl; [done|]. intros c. unfold weight, counted. by destruct (ac_phase c). }
  assert (Hst : stranded w = false).
  { destruct (stranded w) eqn:E; [|done]. pose proof (count_ge stranded _ _ _ Hi E) as Hge.
    destruct (ai_waits _ Hs) as [?|Hn]; [lia|done|]. assert (count notifying (calls s) = 0); [|lia].
    apply count_zero. eapply Forall_impl; [done|]. intros c. unfold weight, notifying. by destruct (ac_phase c). }
  assert (Hgo : forall evs w', (forall s0, in_flight s0 = 0 -> is_draining s0 = is_draining s -> waits s0 !! i = Some w' ->
      exists s', run evs s0 = Some s' /\ waits s' !! i = Some (WcDone true (is_draining s))) ->
    forall s0 w0, in_flight s0 = 0 -> is_draining s0 = is_draining s -> waits s0 !! i = Some w0 -> wait_next w0 s0 = Some w' ->
      exists s', run (EvWait i :: evs) s0 = Some s' /\ waits s' !! i = Some (WcDone true (is_draining s))).
  { intros evs w' IH s0 w0 H0 Hd H1 H2. cbn [run step]. unfold on_wait. rewrite H1. cbn. rewrite H2. cbn.
    apply IH; [done..|]. cbn [waits set_waits]. apply list_lookup_insert_eq. by eapply lookup_lt_Some. }
  assert (Hend : forall s0, in_flight s0 = 0 -> is_draining s0 = is_draining s ->
    waits s0 !! i = Some (WcDone true (is_draining s)) ->
    exists s', run [] s0 = Some s' /\ waits s' !! i = Some (WcDone true (is_draining s))) by (intros s0 _ _ H0; by exists s0).
  assert (Hcheck : forall s0 w0, w0 ∈ [WcStart; WcFast; WcRegistered false; WcRegistered true] -> in_flight s0 = 0 ->
    is_draining s0 = is_draining s -> waits s0 !! i = Some w0 ->
    exists s', run [EvWait i] s0 = Some s' /\ waits s' !! i = Some (WcDone true (is_draining s))).
  { intros s0 w0 Hin H0 Hd H1. eapply (Hgo [] _ Hend s0 w0); [done..|]. unfold wait_next. rewrite H0, Hd. cbn.
    rewrite !elem_of_cons in Hin. by destruct Hin as [->|[->|[->|[->|?%elem_of_nil]]]]. }
  assert (Henter : forall s0, in_flight s0 = 0 -> is_draining s0 = is_draining s -> waits s0 !! i = Some WcEnter ->
    exists s', run [EvWait i; EvWait i] s0 = Some s' /\ waits s' !! i = Some (WcDone true (is_draining s))).
  { intros s0 H0 Hd H1. eapply (Hgo [EvWait i] (WcRegistered false) _ s0 WcEnter); [done..|done]. Unshelve.
    intros s2 H2 Hd2 Hi2. by eapply Hcheck; [|done..]; set_solver. }
  destruct w as [| | |woken|[]|idle draining]; try done.
  - destruct (Hcheck s WcStart) as (s' & ? & ?); [set_solver|done..|]. exists [EvWait i], s'. by repeat constructor.
  - destruct (Hcheck s WcFast) as (s' & ? & ?); [set_solver|done..|]. exists [EvWait i], s'. by repeat constructor.
  - destruct (Henter s) as (s' & ? & ?); [done..|]. exists [EvWait i; EvWait i], s'. by repeat constructor.
  - destruct (Hcheck s (WcRegistered woken)) as (s' & ? & ?); [destruct woken; set_solver|done..|].
    exists [EvWait i], s'. by repeat constructor.
  - destruct (Hgo [EvWait i; EvWait i] WcEnter Henter s (WcParked true)) as (s' & ? & ?); [done..|].
    exists [EvWait i; EvWait i; EvWait i], s'. by repeat constructor.
  - by destruct (Hw idle draining).
Qed.

Lemma wait_can_return s i w :
  admission_inv s -> waits s !! i = Some w -> (forall idle draining, w <> WcDone idle draining) ->
  exists evs s', run evs s = Some s' /\ Forall no_arrival evs /\ waits s' !! i = Some (WcDone true (is_draining s)).
Proof.
  intros Hs Hi Hw. destruct (calls_end _ s (le_n _) Hs) as (evs & s1 & Hrun & Hno & Hdone & Hacc & Hwaits).
  assert (Hs1 : admission_inv s1) by (by eapply run_inv).
  assert (Hi1 : exists w1, waits s1 !! i = Some w1 /\ forall idle draining, w1 <> WcDone idle draining).
  { destruct Hwaits as [->| ->]; [by exists w|]. exists (wake w). rewrite list_lookup_fmap, Hi. split; [done|].
    intros idle draining. by destruct w. }
  destruct Hi1 as (w1 & Hi1 & Hw1). destruct (idle_wait_returns s1 i w1 Hs1 Hdone Hi1 Hw1) as (evs' & s' & Hrun' & Hno' & Hi').
  exists (evs ++ evs'), s'. split_and!; [|by apply Forall_app|].
  - rewrite run_app, Hrun. exact Hrun'.
  - rewrite Hi'. unfold is_draining. by rewrite Hacc.
Qed.
End Accounting.

Definition limits (public_limit internal_limit : Z) (e : Endpoint) : Z :=
  match e with EpPublic => Z.max public_limit 1 | EpInternal => Z.max internal_limit 1 end.
Lemma new_inv public_limit internal_limit s :
  DrainSystem_new public_limit internal_limit = Some s -> admission_inv (limits public_limit internal_limit) s.
Proof.
  unfold DrainSystem_new, Semaphore_new. destruct (Z.max public_limit 1 <=? _); [|done]. cbn [mbind option_bind].
  destruct (Z.max internal_limit 1 <=? _); [|done]. cbn [mbind option_bind]. intros [= <-]. split; try done. intros []; cbn [free_permits free_public free_internal limits calls count List.filter length]; unfold count; cbn [List.filter length]; lia.
Qed.


Module DemoDrain.
(** Two requests are at work when the shutdown begins; a third one arrives. *)
Definition demo_events : list Event :=
  [EvArrive EpPublic; EvCall 0; EvCall 0; EvCall 0; EvCall 0;
   EvArrive EpInternal; EvCall 1; EvCall 1; EvCall 1; EvCall 1;
   EvBeginDraining; EvDrain 0; EvDrain 0; EvWaitIdle; EvWait 0; EvWait 0; EvWait 0; EvWait 0;
   EvArrive EpPublic; EvCall 2; EvCall 2; EvCall 2].
End DemoDrain.
