(* ===== verification/PublicIngress.v ===== *)
(** * The endpoints of Biei

    Models [servers/biei/src/http/response.rs], [preview.rs], [auth.rs], the handler of
    public requests in [ingress.rs] ([handle_public_path_with_request_id]) and the
    handler of forwarded requests in [internal.rs] ([handle_admitted]), over the node,
    the delivery authentication and the request grammar of the other files.

    Admission (Admission), the check whether a style exists and the counter of task ids
    are operations of the world, as the node's own effects are (Node). *)

From S2P Require Import Prelude StdModel Types Admission RenderCache Wire Node TilesetSources.
From S2P Require Import Text Floats Json Overlays PeerBackend ResourceTemplates AddLayers PublicRequests DeliveryAuth.

(** ** Responses *)

Definition JSON_CONTENT_TYPE : string := "application/json".
Definition HTML_CONTENT_TYPE : string := "text/html; charset=utf-8".
Definition SHARED_RENDER_CACHE_CONTROL : string := "public, max-age=3600".
Definition PRIVATE_NO_STORE_CACHE_CONTROL : string := "private, no-store".
Definition REQUEST_ID_HEADER : string := "x-request-id".

Inductive PublicResponsePolicy := PolicyTile | PolicyStatic | PolicyPreview.
Definition cache_control (self : PublicResponsePolicy) : string :=
  match self with
  | PolicyTile => SHARED_RENDER_CACHE_CONTROL
  | PolicyStatic | PolicyPreview => PRIVATE_NO_STORE_CACHE_CONTROL
  end.

Record IngressResponse := {
  ir_status : Z; ir_content_type : string; ir_headers : list (string * string); ir_body : list Z }.

Definition push_header (name value : string) (r : IngressResponse) : IngressResponse :=
  {| ir_status := ir_status r; ir_content_type := ir_content_type r;
     ir_headers := ir_headers r ++ [(name, value)]; ir_body := ir_body r |}.
Definition with_retry_after (seconds : string) (r : IngressResponse) : IngressResponse := push_header "Retry-After" seconds r.
Definition with_request_id (request_id : string) (r : IngressResponse) : IngressResponse :=
  push_header REQUEST_ID_HEADER request_id r.

Definition image_content_type (format : ImageFormat) : string :=
  match format with Png => "image/png" | Webp => "image/webp" | Jpeg => "image/jpeg" end.
Definition image_response (status : Z) (format : ImageFormat) (body : list Z) (policy : PublicResponsePolicy) : IngressResponse :=
  {| ir_status := status; ir_content_type := image_content_type format;
     ir_headers := [("Cache-Control", cache_control policy)]; ir_body := body |}.
Definition html_response (status : Z) (body : string) : IngressResponse :=
  {| ir_status := status; ir_content_type := HTML_CONTENT_TYPE;
     ir_headers := [("Cache-Control", cache_control PolicyPreview)]; ir_body := str_bytes body |}.

Section Responses.
Context `{JsonText}.

Definition json_response (status : Z) (code detail : string) : IngressResponse :=
  {| ir_status := status; ir_content_type := JSON_CONTENT_TYPE; ir_headers := [];
     ir_body := str_bytes (json_print (JObject [("detail", JString detail); ("error", JString code)])) |}.

Definition response_from_ingress_error (err : IngressError) : IngressResponse :=
  match err with
  | InvalidRequest detail => json_response 400 "invalid_request" detail
  | AddLayers.UnknownStyle style_id => json_response 404 "unknown_style" style_id
  end.

Definition response_from_rejection (reason : RejectionReason) : IngressResponse :=
  match reason with
  | Types.UnknownStyle => json_response 404 "unknown_style" ""
  | QueueFull => with_retry_after "1" (json_response 503 "queue_full" "")
  | NoCapacity => with_retry_after "5" (json_response 503 "no_capacity" "")
  | RendererDegraded => with_retry_after "2" (json_response 503 "renderer_degraded" "")
  | DrainTooSlow => with_retry_after "2" (json_response 503 "drain_too_slow" "")
  | ForwardFailed => with_retry_after "1" (json_response 503 "forward_failed" "")
  | HopLimitExceeded => json_response 500 "hop_limit" ""
  | DeadlineTooClose | DeadlineExceeded => with_retry_after "1" (json_response 504 "budget_exhausted" "")
  end.
Definition response_from_failure (kind : FailureKind) : IngressResponse :=
  match kind with
  | RenderTimeout => with_retry_after "1" (json_response 504 "render_timeout" "")
  | PreparationTimeout => with_retry_after "1" (json_response 504 "preparation_timeout" "")
  | RendererDead => with_retry_after "1" (json_response 500 "renderer_dead" "")
  | StyleUnavailable => json_response 502 "style_unavailable" ""
  | FkStyleNotReady => json_response 500 "style_not_ready" ""
  | SourceUnavailable => json_response 502 "source_unavailable" ""
  | OtherFailure => json_response 500 "render_failed" ""
  end.
Definition render_response (outcome : TaskOutcome) (policy : PublicResponsePolicy) : IngressResponse :=
  with_request_id (to_request_id outcome)
    match to_result outcome with
    | Completed _ output => image_response 200 (out_format output) (out_bytes output) policy
    | Rejected reason => response_from_rejection reason
    | Failed _ kind => response_from_failure kind
    end.

(** [auth.rs]. *)
Definition failure_response (failure : AuthFailure) : IngressResponse :=
  match failure with
  | InvalidCredential => push_header "WWW-Authenticate" "Bearer" (json_response 401 "invalid_token" "")
  | Forbidden => json_response 403 "forbidden" ""
  | Unavailable => with_retry_after "5" (json_response 503 "auth_unavailable" "")
  end.

(** ** The preview page *)

Inductive StyleAvailabilityError :=
  | SaNotFound (e : ProfilePreparationError)
  | SaUnavailable (e : ProfilePreparationError).

Definition escape_html_char (a : ascii) : string :=
  if Ascii.eqb a "&" then "&amp;"
  else if Ascii.eqb a "<" then "&lt;"
  else if Ascii.eqb a ">" then "&gt;"
  else if byte_of a =? 34 then "&quot;"
  else if Ascii.eqb a "'" then "&#39;"
  else String a "".
Fixpoint escape_html (value : string) : string :=
  match value with EmptyString => "" | String a value => escape_html_char a +:+ escape_html value end.

(** [{:04x}] of a byte. *)
Definition unicode_escape (b : Z) : string :=
  "\u00" +:+ String (hex_char (b / 16)) (String (hex_char (b mod 16)) "").
(** [char::is_control]: the ASCII controls, and U+0080 to U+009F, which UTF-8 writes
    as [0xc2] and a byte below [0xa0]. *)
Fixpoint escape_json_chars (value : string) : string :=
  match value with
  | EmptyString => ""
  | String a rest =>
      let b := byte_of a in
      if b =? 34 then String "\" (String a (escape_json_chars rest))
      else if Ascii.eqb a "\" then "\\" +:+ escape_json_chars rest
      else if b =? 10 then "\n" +:+ escape_json_chars rest
      else if b =? 13 then "\r" +:+ escape_json_chars rest
      else if b =? 9 then "\t" +:+ escape_json_chars rest
      else if (b <? 32) || (b =? 127) then unicode_escape b +:+ escape_json_chars rest
      else match rest with
           | String c rest' =>
               if (b =? 194) && byte_in 128 159 c then unicode_escape (byte_of c) +:+ escape_json_chars rest'
               else String a (escape_json_chars rest)
           | EmptyString => String a ""
           end
  end.
Definition escape_json_string (value : string) : string :=
  String (char_of 34) (escape_json_chars value +:+ String (char_of 34) "").

(** The page is the file [preview.html]. *)
Context (PREVIEW_HTML_TEMPLATE : string).
Definition PREVIEW_STYLE_CHECK_TIMEOUT : Z := 5 * nanos_per_sec.
Definition preview_html (style_id : StyleId) : IngressResponse :=
  html_response 200
    (str_replace "{{style_path_json}}" (escape_json_string style_id)
       (str_replace "{{style_path}}" (escape_html style_id) PREVIEW_HTML_TEMPLATE)).

(** ** The handler of public requests *)

Context {W Profile : Type} `{NodeWorld Value W Profile} (node_id : NodeId) (hop_latency : Z).

Class IngressWorld := {
  (** [Semaphore::try_acquire_owned] of an endpoint and the drop of the permit. *)
  w_try_acquire_permit : Endpoint -> W -> bool * W;
  w_release_permit : Endpoint -> W -> W;
  (** [DrainController::try_acquire] and the drop of the permit. *)
  w_try_acquire_drain : W -> bool * W;
  w_release_drain : W -> W;
  (** [next_task_id.fetch_add]. *)
  w_next_task_id : W -> Z * W;
  (** [Node::ensure_style_available], the call of the profile preparer. *)
  w_ensure_style_available : StyleRevision -> Z -> W -> (unit + StyleAvailabilityError) * W }.

Context `{!IngressWorld} `{AuthExternals} `{LayerHash}.

(** The guards of a request and the start of its work, as they are observed. *)
Inductive GuardEvent :=
  | GTryPermit (e : Endpoint) (granted : bool)
  | GTryDrain (granted : bool)
  | GReleasePermit (e : Endpoint)
  | GReleaseDrain
  | GRender (task : PublicTask)
  | GForwarded (fwd : ForwardRequest Value)
  | GCheckStyle (revision : StyleRevision).
Record IngressState := { is_node : @St Value W; is_events : list GuardEvent }.
Abbreviation Run := (SM IngressState Empty_set).

Definition on_node {A} (m : @M Value W A) : Run A := fun s =>
  let '(r, n) := m (is_node s) in (r, {| is_node := n; is_events := is_events s |}).
Definition observe (e : GuardEvent) : Run unit :=
  modify (fun s => {| is_node := is_node s; is_events := is_events s ++ [e] |}).
Definition try_permit (e : Endpoint) : Run bool :=
  granted ← on_node (io (w_try_acquire_permit e)); _ ← observe (GTryPermit e granted); mret granted.
Definition release_permit (e : Endpoint) : Run unit :=
  _ ← on_node (effect (w_release_permit e)); observe (GReleasePermit e).
Definition try_drain : Run bool :=
  granted ← on_node (io w_try_acquire_drain); _ ← observe (GTryDrain granted); mret granted.
Definition release_drain : Run unit := _ ← on_node (effect w_release_drain); observe GReleaseDrain.

Record HttpIngress := {
  hi_catalog : StyleCatalog.StyleCatalogInner;
  hi_tileset_url_template : string;
  hi_sla_budget : Z;
  (** The registries and their snapshots, when delivery is authenticated. *)
  hi_auth : option (RegistryCatalog * (string -> RegistryConfig -> Res unit RegistrySnapshot)) }.

Definition response_policy (parsed : ParsedRenderPath) : PublicResponsePolicy :=
  match prp_kind parsed with PkTile => PolicyTile | PkStatic _ => PolicyStatic end.

(** [None]: admitted, with both guards held. *)
Definition acquire_admission (request_id : string) : Run (option IngressResponse) :=
  concurrency ← try_permit EpPublic;
  if negb concurrency then
    mret (Some (with_request_id request_id (with_retry_after "1" (json_response 503 "ingress_busy" ""))))
  else
    drain ← try_drain;
    if negb drain then
      _ ← release_permit EpPublic;
      mret (Some (with_request_id request_id (with_retry_after "2" (json_response 503 "service_draining" ""))))
    else mret None.
(** The drop of the guards, a pair. *)
Definition release_admission : Run unit := _ ← release_permit EpPublic; release_drain.

Definition build_preview_response_for_style (catalog : StyleCatalog.StyleCatalogInner) (style_id : StyleId)
    (check_available : StyleRevision -> Run (unit + StyleAvailabilityError)) : Run IngressResponse :=
  match StyleCatalog.resolve_latest catalog style_id with
  | None => mret (response_from_ingress_error (AddLayers.UnknownStyle style_id))
  | Some version =>
      available ← check_available {| sr_id := style_id; sr_version := version |};
      mret match available with
           | inl _ => preview_html style_id
           | inr (SaNotFound _) => response_from_ingress_error (AddLayers.UnknownStyle style_id)
           | inr (SaUnavailable _) => json_response 503 "style_unavailable" style_id
           end
  end.
Definition ensure_style_available (revision : StyleRevision) : Run (unit + StyleAvailabilityError) :=
  now ← on_node (io w_now);
  deadline ← lift (instant_add now PREVIEW_STYLE_CHECK_TIMEOUT);
  _ ← observe (GCheckStyle revision);
  on_node (io (w_ensure_style_available revision deadline)).

(** [tokio::spawn(..).await]: a panic of the task is an error of its handle. *)
Definition spawned {A} (m : Run A) : Run (option A) := fun s =>
  match m s with
  | (Ok a, s') => (Ok (Some a), s')
  | (Err e, s') => (Err e, s')
  | (Panic, s') => (Ok None, s')
  end.

(** A panic drops the guards while the stack unwinds. *)
Definition unwinding {A} (drop_guards : Run unit) (m : Run A) : Run A := fun s =>
  match m s with
  | (Panic, s') => (Panic, (drop_guards s').2)
  | r => r
  end.

Definition with_authorization (authorization : option RenderAuthorization) (t : PublicTask) : PublicTask :=
  {| t_id := t_id t; t_request_id := t_request_id t; t_authorization := authorization; t_style := t_style t;
     t_source := t_source t; t_request := t_request t; t_pixel_ratio := t_pixel_ratio t;
     t_output_format := t_output_format t; t_arrived_at := t_arrived_at t; t_deadline := t_deadline t;
     t_forwarding_hops := t_forwarding_hops t |}.

(** The authorization of a request, or the failure it is answered with. *)
Definition authorize_request (self : HttpIngress) (parsed : ParsedPublicPath) (headers : HeaderMap)
    (query : option string) : Res AuthFailure (option RenderAuthorization) :=
  match hi_auth self, static_style_id parsed with
  | Some (registries, snapshot), Some style_id =>
      Some <$> ingress_authorization registries snapshot headers query (style_namespace style_id)
  | _, _ => Ok None
  end.

Definition render_public (self : HttpIngress) (parsed : ParsedRenderPath) (authorization : option RenderAuthorization)
    (query : option string) (request_id : string) (now : Z) : Run IngressResponse :=
  task_id ← on_node (io w_next_task_id);
  match parse_path_with_request_id parsed query (hi_catalog self) (hi_tileset_url_template self)
          {| ar_task_id := task_id; ar_request_id := request_id; ar_sla_budget := hi_sla_budget self; ar_now := now |} with
  | Err err =>
      _ ← release_admission;
      mret (with_request_id request_id (response_from_ingress_error err))
  | Panic => _ ← release_admission; lift Panic
  | Ok task =>
      let task := with_authorization authorization task in
      _ ← observe (GRender task);
      outcome ← spawned (on_node (handle_incoming node_id hop_latency task));
      _ ← release_admission;
      mret match outcome with
           | Some outcome => render_response outcome (response_policy parsed)
           | None => with_request_id request_id (json_response 500 "internal_error" "")
           end
  end.

Definition handle_public_path_with_request_id (self : HttpIngress) (path : string) (query : option string)
    (headers : HeaderMap) (request_id : string) (now : Z) : Run IngressResponse :=
  match parse_public_path path with
  | Err err => mret (with_request_id request_id (response_from_ingress_error err))
  | Panic => lift Panic
  | Ok parsed =>
      match authorize_request self parsed headers query with
      | Err failure => mret (with_request_id request_id (failure_response failure))
      | Panic => lift Panic
      | Ok authorization =>
          refused ← acquire_admission request_id;
          match refused with
          | Some response => mret response
          | None =>
              match parsed with
              | PpPreview style_id =>
                  response ← unwinding release_admission
                    (build_preview_response_for_style (hi_catalog self) style_id ensure_style_available);
                  _ ← release_admission;
                  mret (with_request_id request_id response)
              | PpRender parsed => render_public self parsed authorization query request_id now
              end
          end
      end
  end.

(** ** The handler of forwarded requests *)

(** [serde_json::from_slice::<ForwardRequest>], with the text of its error. *)
Class ForwardJson := { forward_from_slice : list Z -> string + ForwardRequest Value }.
Context `{!ForwardJson, HeaderJson}.

Definition plain_response (status : Z) (text : string) : Response :=
  {| rs_status := status; rs_forward_content_type := false; rs_body := str_bytes text |}.
Definition overloaded_response : Response := plain_response 503 "internal forward busy".
Definition ingress_error_text (e : IngressError) : string :=
  match e with
  | InvalidRequest detail => "invalid request: " +:+ detail
  | AddLayers.UnknownStyle style_id => "unknown style: " +:+ style_id
  end.
Definition with_request_id_of (request_id : string) (fwd : ForwardRequest Value) : ForwardRequest Value :=
  let t := fr_task fwd in
  {| fr_task := {| wt_id := wt_id t; wt_request_id := request_id; wt_authorization := wt_authorization t;
                   wt_style := wt_style t; wt_source := wt_source t; wt_request := wt_request t; wt_scale := wt_scale t;
                   wt_output_format := wt_output_format t; wt_remaining_budget_ms := wt_remaining_budget_ms t;
                   wt_forwarding_hops := wt_forwarding_hops t |};
     fr_route_tier := fr_route_tier fwd; fr_drain_worker := fr_drain_worker fwd;
     fr_origin_response_budget_ms := fr_origin_response_budget_ms fwd |}.

(** The locals are dropped in the reverse order of their declaration. *)
Definition release_forward : Run unit := _ ← release_drain; release_permit EpInternal.

(** [json_content_type] and [header_request_id] are read from the headers. *)
Definition handle_admitted (json_content_type : bool) (header_request_id : option string) (body : list Z) : Run Response :=
  if negb json_content_type then
    _ ← release_permit EpInternal; mret (plain_response 415 "unsupported media type")
  else
    drain ← try_drain;
    if negb drain then _ ← release_permit EpInternal; mret (plain_response 503 "draining")
    else
      match forward_from_slice body with
      | inl err => _ ← release_forward; mret (plain_response 400 ("decode forwarded request: " +:+ err))
      | inr forwarded =>
          let forwarded := match header_request_id with Some id => with_request_id_of id forwarded | None => forwarded end in
          match validate_render_request (wt_request (fr_task forwarded)) (wt_scale (fr_task forwarded)) with
          | Err err =>
              _ ← release_forward;
              mret (plain_response 400 ("invalid forwarded render request: " +:+ ingress_error_text err))
          | Panic => _ ← release_forward; lift Panic
          | Ok _ =>
              let style_id := sr_id (wt_style (fr_task forwarded)) in
              _ ← observe (GForwarded forwarded);
              outcome ← spawned (on_node (handle_forwarded node_id forwarded));
              _ ← release_forward;
              mret match outcome with
                   | Some outcome => let '(header, output) := from_task_outcome outcome style_id in response_from_outcome header output
                   | None => plain_response 500 "forwarded render task failed"
                   end
          end
      end.
(** ** The routes *)

Definition simple_response (status : Z) (body : string) : Response := plain_response status body.

(** [to_bytes] under a timeout: [sent] is the body, or [None] when its time is up. *)
Definition MAX_INTERNAL_FORWARD_BODY_BYTES : Z := 10 * 1024 * 1024.
Inductive BodyRead := BodyComplete (body : list Z) | BodyTooLarge | BodyTimedOut.
Definition read_body (sent : option (list Z)) : BodyRead :=
  match sent with
  | Some body => if Z.of_nat (length body) >? MAX_INTERNAL_FORWARD_BODY_BYTES then BodyTooLarge else BodyComplete body
  | None => BodyTimedOut
  end.
(** The endpoint admits a request before it reads the body. *)
Definition forwardz (json_content_type : bool) (header_request_id : option string) (sent : option (list Z)) : Run Response :=
  admitted ← try_permit EpInternal;
  if negb admitted then mret overloaded_response
  else match read_body sent with
       | BodyComplete body => handle_admitted json_content_type header_request_id body
       | BodyTooLarge => _ ← release_permit EpInternal; mret (simple_response 413 "body too large")
       | BodyTimedOut => _ ← release_permit EpInternal; mret (simple_response 408 "request body timed out")
       end.

Definition MAX_PUBLIC_PATH_BYTES : Z := 8192.
Definition public_error_response (status : Z) (code : string) : IngressResponse := json_response status code "".

Record PublicRequest := {
  pq_get : bool; pq_path : string; pq_query : option string; pq_headers : HeaderMap;
  (** [request_id_from_headers], or a new one. *)
  pq_request_id : string; pq_now : Z }.
Definition path_and_query_len (q : PublicRequest) : Z :=
  str_len (pq_path q) + match pq_query q with Some query => 1 + str_len query | None => 0 end.

Definition public_render (ingress : option HttpIngress) (q : PublicRequest) : Run IngressResponse :=
  if negb (pq_get q) then mret (public_error_response 405 "method_not_allowed")
  else if path_and_query_len q >? MAX_PUBLIC_PATH_BYTES then mret (public_error_response 414 "uri_too_long")
  else match ingress with
       | None => mret (public_error_response 404 "not_found")
       | Some ingress =>
           handle_public_path_with_request_id ingress (pq_path q) (pq_query q) (pq_headers q) (pq_request_id q) (pq_now q)
       end.

(** [HeaderMap::insert] replaces every value of the name. *)
Definition header_values (name : string) (headers : list (string * string)) : list string :=
  omap (fun h => if eq_ignore_ascii_case h.1 name then Some h.2 else None) headers.
Definition insert_header (name value : string) (r : IngressResponse) : IngressResponse :=
  {| ir_status := ir_status r; ir_content_type := ir_content_type r;
     ir_headers := List.filter (fun h => negb (eq_ignore_ascii_case h.1 name)) (ir_headers r) ++ [(name, value)];
     ir_body := ir_body r |}.
Definition enforce_public_response_cache_policy (r : IngressResponse) : IngressResponse :=
  if negb (is_success (ir_status r)) then insert_header "cache-control" PRIVATE_NO_STORE_CACHE_CONTROL r else r.
Definition attach_public_request_id (request_id : string) (r : IngressResponse) : IngressResponse :=
  insert_header REQUEST_ID_HEADER request_id r.
(** The render fallback of the public router with its layers. *)
Definition public_service (ingress : option HttpIngress) (q : PublicRequest) : Run IngressResponse :=
  response ← public_render ingress q;
  mret (attach_public_request_id (pq_request_id q) (enforce_public_response_cache_policy response)).

(** ** A program logic for handlers

    [rspec m P]: from every state [m] returns or panics, and [P] holds of its value (if
    it has one), of the calls of the node and of the events. *)
Definition rspec {A} (m : Run A) (P : option A -> list (@Call Value) -> list GuardEvent -> Prop) : Prop :=
  forall s, exists r s' l ev, m s = (r, s') /\
    st_calls (is_node s') = st_calls (is_node s) ++ l /\ is_events s' = is_events s ++ ev /\
    match r with Ok a => P (Some a) l ev | Panic => P None l ev | Err e => False end.

Lemma rspec_ret {A} (a : A) P : P (Some a) [] [] -> rspec (mret a) P.
Proof. intros HP s. exists (Ok a), s, [], []. by rewrite !app_nil_r. Qed.
Lemma rspec_panic {A} (P : option A -> _) : P None [] [] -> rspec (lift Panic) P.
Proof. intros HP s. exists Panic, s, [], []. by rewrite !app_nil_r. Qed.
Lemma rspec_bind {A B} (m : Run A) (f : A -> Run B) P (Q : option B -> _) :
  rspec m P ->
  (forall a l ev, P (Some a) l ev -> rspec (f a) (fun b l' ev' => Q b (l ++ l') (ev ++ ev'))) ->
  (forall l ev, P None l ev -> Q None l ev) ->
  rspec (m ≫= f) Q.
Proof.
  intros Hm Hf Hn s. destruct (Hm s) as (r & s1 & l1 & e1 & E1 & Hl1 & He1 & HP1).
  unfold mbind, SM_bind. rewrite E1. destruct r as [a| |]; [|done|exists Panic, s1, l1, e1; auto].
  destruct (Hf a l1 e1 HP1 s1) as (r & s2 & l2 & e2 & E2 & Hl2 & He2 & HP2).
  exists r, s2, (l1 ++ l2), (e1 ++ e2). split_and!; [done|by rewrite Hl2, Hl1, app_assoc|by rewrite He2, He1, app_assoc|].
  by destruct r.
Qed.
Lemma rspec_mono {A} (m : Run A) P Q : rspec m P -> (forall a l ev, P a l ev -> Q a l ev) -> rspec m Q.
Proof. intros Hm HPQ s. destruct (Hm s) as (r & s' & l & ev & ? & ? & ? & H'). exists r, s', l, ev. split_and!; [done..|]. destruct r; auto. Qed.

(** A step that returns, makes no call of the node and shows [ev]. *)
Lemma rspec_silent {A B} (m : Run A) (f : A -> Run B) Q :
  (forall s, exists a s', m s = (Ok a, s') /\ st_calls (is_node s') = st_calls (is_node s) /\ is_events s' = is_events s) ->
  (forall a, rspec (f a) Q) -> rspec (m ≫= f) Q.
Proof.
  intros Hm Hf. apply (rspec_bind m f (fun a l ev => a <> None /\ l = [] /\ ev = [])).
  - intros s. destruct (Hm s) as (a & s' & E & Hl & He). exists (Ok a), s', [], []. by rewrite !app_nil_r.
  - intros a l ev (_ & -> & ->). by apply Hf.
  - by intros l ev (? & _).
Qed.
Lemma io_silent {A} (f : W -> A * W) s :
  exists a s', on_node (io f) s = (Ok a, s') /\ st_calls (is_node s') = st_calls (is_node s) /\ is_events s' = is_events s.
Proof. unfold on_node, io. destruct (f (st_world (is_node s))) as [a w]. by exists a, {| is_node := {| st_world := w; st_calls := st_calls (is_node s) |}; is_events := is_events s |}. Qed.
Lemma rspec_io_bind {A B} (f : W -> A * W) (g : A -> Run B) Q : (forall a, rspec (g a) Q) -> rspec (on_node (io f) ≫= g) Q.
Proof. apply rspec_silent, io_silent. Qed.
Lemma rspec_observe_bind {B} e (g : unit -> Run B) Q :
  rspec (g tt) (fun b l ev => Q b l (e :: ev)) -> rspec (observe e ≫= g) Q.
Proof.
  intros Hg. apply (rspec_bind _ _ (fun a l ev => a <> None /\ l = [] /\ ev = [e])).
  - intros s. exists (Ok tt), {| is_node := is_node s; is_events := is_events s ++ [e] |}, [], [e]. by rewrite app_nil_r.
  - by intros [] l ev (_ & -> & ->).
  - by intros l ev (? & _).
Qed.
Lemma rspec_observe e (Q : option unit -> _) : Q (Some tt) [] [e] -> rspec (observe e) Q.
Proof.
  intros HQ s. exists (Ok tt), {| is_node := is_node s; is_events := is_events s ++ [e] |}, [], [e]. by rewrite app_nil_r.
Qed.

Lemma rspec_assoc {A B C} (m : Run A) (f : A -> Run B) (g : B -> Run C) Q :
  rspec (m ≫= (fun a => f a ≫= g)) Q -> rspec ((m ≫= f) ≫= g) Q.
Proof.
  intros Hm s. destruct (Hm s) as (r & s' & l & ev & E & H'). exists r, s', l, ev. split; [|done]. rewrite <- E.
  unfold mbind, SM_bind. destruct (m s) as [[a| |] s1]; try done. 
Qed.

Lemma rspec_try_permit {B} e (g : bool -> Run B) Q :
  (forall granted, rspec (g granted) (fun b l ev => Q b l (GTryPermit e granted :: ev))) -> rspec (try_permit e ≫= g) Q.
Proof. intros Hg. apply rspec_assoc, rspec_io_bind. intros granted. apply rspec_assoc, rspec_observe_bind. apply Hg. Qed.
Lemma rspec_try_drain {B} (g : bool -> Run B) Q :
  (forall granted, rspec (g granted) (fun b l ev => Q b l (GTryDrain granted :: ev))) -> rspec (try_drain ≫= g) Q.
Proof. intros Hg. apply rspec_assoc, rspec_io_bind. intros granted. apply rspec_assoc, rspec_observe_bind. apply Hg. Qed.
Lemma rspec_release_permit {B} e (g : unit -> Run B) Q :
  rspec (g tt) (fun b l ev => Q b l (GReleasePermit e :: ev)) -> rspec (release_permit e ≫= g) Q.
Proof. intros Hg. apply rspec_assoc, rspec_io_bind. intros []. by apply rspec_observe_bind. Qed.
Lemma rspec_release_admission {B} (g : unit -> Run B) Q :
  rspec (g tt) (fun b l ev => Q b l (GReleasePermit EpPublic :: GReleaseDrain :: ev)) -> rspec (release_admission ≫= g) Q.
Proof.
  intros Hg. apply rspec_assoc, rspec_release_permit, rspec_assoc, rspec_io_bind. intros []. by apply rspec_observe_bind.
Qed.
Lemma rspec_release_forward {B} (g : unit -> Run B) Q :
  rspec (g tt) (fun b l ev => Q b l (GReleaseDrain :: GReleasePermit EpInternal :: ev)) -> rspec (release_forward ≫= g) Q.
Proof.
  intros Hg. apply rspec_assoc, rspec_assoc, rspec_io_bind. intros []. by apply rspec_observe_bind, rspec_release_permit.
Qed.
Lemma rspec_spawned {A} (m : @M Value W A) P (Q : option (option A) -> _) :
  spec m P -> (forall a l, P a l -> Q (Some (Some a)) l []) -> rspec (spawned (on_node m)) Q.
Proof.
  intros Hm HQ s. destruct (Hm (is_node s)) as (a & n' & l & E & Hl & HP).
  exists (Ok (Some a)), {| is_node := n'; is_events := is_events s |}, l, []. unfold spawned, on_node. rewrite E.
  rewrite app_nil_r. auto.
Qed.

(** ** What a handler does *)

(** The guards of a public request: refused, or both held around its work and given
    back, the concurrency permit first. *)
Definition public_guards (work ev : list GuardEvent) : Prop :=
  work = [] /\ ev ∈ [[]; [GTryPermit EpPublic false]; [GTryPermit EpPublic true; GTryDrain false; GReleasePermit EpPublic]] \/
  ev = [GTryPermit EpPublic true; GTryDrain true] ++ work ++ [GReleasePermit EpPublic; GReleaseDrain].

Definition error_answer (r : IngressResponse) : Prop := is_success (ir_status r) = false.
Definition arrival (self : HttpIngress) (q : PublicRequest) (task_id : Z) : Arrival :=
  {| ar_task_id := task_id; ar_request_id := pq_request_id q; ar_sla_budget := hi_sla_budget self; ar_now := pq_now q |}.

(** The task that is rendered is the one the path and the query spell, with the
    authorization that was granted; the node is given it once and its outcome is what
    is answered. *)
Definition rendered (self : HttpIngress) (q : PublicRequest) (task : PublicTask) (r : IngressResponse)
    (l : list (@Call Value)) : Prop :=
  exists parsed authorization task_id task0 outcome,
    parse_public_path (pq_path q) = Ok (PpRender parsed) /\
    authorize_request self (PpRender parsed) (pq_headers q) (pq_query q) = Ok authorization /\
    parse_path_with_request_id parsed (pq_query q) (hi_catalog self) (hi_tileset_url_template self)
      (arrival self q task_id) = Ok task0 /\
    task = with_authorization authorization task0 /\
    request_calls hop_latency task (decided l) outcome l /\
    r = render_response outcome (response_policy parsed).

Definition handled (self : HttpIngress) (q : PublicRequest) (o : option IngressResponse)
    (l : list (@Call Value)) (ev : list GuardEvent) : Prop :=
  exists work, public_guards work ev /\
  match work with
  | [] => l = [] /\ forall r, o = Some r -> error_answer r
  | [GCheckStyle revision] => l = [] /\ forall r, o = Some r ->
      error_answer r \/ r = with_request_id (pq_request_id q) (preview_html (sr_id revision)) /\
        parse_public_path (pq_path q) = Ok (PpPreview (sr_id revision))
  | [GRender task] => exists r, o = Some r /\ rendered self q task r l
  | _ => False
  end.

Lemma json_error status code detail : is_success status = false -> error_answer (json_response status code detail).
Proof. done. Qed.
Lemma ingress_error_answer e id : error_answer (with_request_id id (response_from_ingress_error e)).
Proof. by destruct e. Qed.

Context `{!NodeWorldLaws}.

Lemma render_public_spec self parsed authorization q :
  is_instant (pq_now q) -> parse_public_path (pq_path q) = Ok (PpRender parsed) ->
  authorize_request self (PpRender parsed) (pq_headers q) (pq_query q) = Ok authorization ->
  rspec (render_public self parsed authorization (pq_query q) (pq_request_id q) (pq_now q))
    (fun o l ev => handled self q o l ([GTryPermit EpPublic true; GTryDrain true] ++ ev)).
Proof.
  intros Hnow Hparsed Hauth. apply rspec_io_bind. intros task_id.
  change {| ar_task_id := task_id; ar_request_id := pq_request_id q; ar_sla_budget := hi_sla_budget self; ar_now := pq_now q |}
    with (arrival self q task_id).
  destruct (parse_path_with_request_id parsed (pq_query q) _ _ (arrival self q task_id)) as [task0|err|] eqn:Htask.
  - set (task := with_authorization authorization task0). apply rspec_observe_bind.
    eapply (rspec_bind _ _ (fun r l ev => exists outcome, r = Some (Some outcome) /\ ev = [] /\
      request_calls hop_latency task (decided l) outcome l)).
    + eapply rspec_spawned; [apply handle_incoming_spec; [done|]|by intros a l Hl; exists a].
      apply parsed_arrival in Htask as (Ha & _). cbn [task with_authorization t_arrived_at]. by rewrite Ha.
    + intros [outcome|] l ev (o & [= <-] & -> & Hl). apply rspec_release_admission, rspec_ret.
      exists [GRender task]. split; [by right|]. eexists. split; [done|]. rewrite app_nil_r.
      by exists parsed, authorization, task_id, task0, outcome.
    + by intros l ev (? & ? & _).
  - apply rspec_release_admission, rspec_ret. exists []. split; [by right|]. split; [done|].
    intros r [= <-]. apply ingress_error_answer.
  - apply rspec_release_admission, rspec_panic. exists []. split; [by right|]. by split.
Qed.

Lemma rspec_unwinding {A} (m : Run A) P Q :
  rspec m P -> (forall a l ev, P (Some a) l ev -> Q (Some a) l ev) ->
  (forall l ev, P None l ev -> Q None l (ev ++ [GReleasePermit EpPublic; GReleaseDrain])) ->
  rspec (unwinding release_admission m) Q.
Proof.
  intros Hm Ha Hn s. destruct (Hm s) as (r & s' & l & ev & E & Hl & He & HP). unfold unwinding. rewrite E.
  destruct r as [a| |]; [exists (Ok a), s', l, ev; auto|done|].
  assert (Hrel : rspec release_admission (fun o l ev => o = Some tt /\ l = [] /\ ev = [GReleasePermit EpPublic; GReleaseDrain])).
  { apply rspec_release_permit, rspec_io_bind. intros []. by apply rspec_observe. }
  destruct (Hrel s') as (r2 & s2 & l2 & e2 & E2 & Hl2 & He2 & HP2). destruct r2 as [[]| |]; [|done|by destruct HP2].
  destruct HP2 as (_ & -> & ->). rewrite E2. exists Panic, s2, l, (ev ++ [GReleasePermit EpPublic; GReleaseDrain]).
  split_and!; [done|by rewrite Hl2, app_nil_r|by rewrite He2, He, app_assoc|auto].
Qed.

(** The answer of a preview, and whether the style was looked up for it. *)
Definition previewed (style_id : StyleId) (panic_events : list GuardEvent) (o : option IngressResponse)
    (l : list (@Call Value)) (ev : list GuardEvent) : Prop :=
  l = [] /\
  match o with
  | None => ev = panic_events
  | Some r => ev = [] /\ error_answer r \/
      exists revision, ev = [GCheckStyle revision] /\ sr_id revision = style_id /\ (error_answer r \/ r = preview_html style_id)
  end.

Lemma build_preview_spec catalog style_id :
  rspec (build_preview_response_for_style catalog style_id ensure_style_available) (previewed style_id []).
Proof.
  unfold build_preview_response_for_style. destruct (StyleCatalog.resolve_latest _ _) as [version|];
    [|apply rspec_ret; split; [done|]; by left].
  apply rspec_assoc, rspec_io_bind. intros now. apply rspec_assoc.
  destruct (instant_add now PREVIEW_STYLE_CHECK_TIMEOUT) as [deadline|[]|].
  - apply rspec_silent; [by intros s; exists deadline, s|]. intros d. apply rspec_assoc, rspec_observe_bind, rspec_io_bind.
    intros available. apply rspec_ret. split; [done|]. right. eexists. split_and!; [done..|].
    destruct available as [[]|[|]]; [by right|by left|by left].
  - intros s. exists Panic, s, [], []. by rewrite !app_nil_r.
Qed.

Lemma preview_spec self style_id q :
  parse_public_path (pq_path q) = Ok (PpPreview style_id) ->
  rspec (response ← unwinding release_admission
           (build_preview_response_for_style (hi_catalog self) style_id ensure_style_available);
         _ ← release_admission; mret (with_request_id (pq_request_id q) response))
    (fun o l ev => handled self q o l ([GTryPermit EpPublic true; GTryDrain true] ++ ev)).
Proof.
  intros Hparsed. eapply (rspec_bind _ _ (previewed style_id [GReleasePermit EpPublic; GReleaseDrain])).
  - eapply rspec_unwinding; [apply build_preview_spec|by intros a l ev|by intros l ev [-> ->]].
  - intros r l ev (-> & Hcase). apply rspec_release_admission, rspec_ret. cbn [app].
    destruct Hcase as [[-> He]|(revision & -> & Hid & Hr)].
    + exists []. split; [by right|]. split; [done|]. by intros r' [= <-].
    + exists [GCheckStyle revision]. split; [by right|]. split; [done|]. intros r' [= <-]. rewrite Hid.
      destruct Hr as [He| ->]; [by left|by right].
  - intros l ev [-> ->]. exists []. split; [by right|]. by split.
Qed.

Lemma acquire_admission_spec request_id :
  rspec (acquire_admission request_id) (fun o l ev => l = [] /\
    match o with
    | Some None => ev = [GTryPermit EpPublic true; GTryDrain true]
    | Some (Some r) => error_answer r /\
        ev ∈ [[GTryPermit EpPublic false]; [GTryPermit EpPublic true; GTryDrain false; GReleasePermit EpPublic]]
    | None => False
    end).
Proof.
  apply rspec_try_permit. intros []; cbn [negb]; [|apply rspec_ret; split_and!; [done..|set_solver]].
  apply rspec_try_drain. intros []; cbn [negb]; [by apply rspec_ret|].
  apply rspec_release_permit, rspec_ret. split_and!; [done..|set_solver].
Qed.

Lemma handle_public_spec self q :
  is_instant (pq_now q) ->
  rspec (handle_public_path_with_request_id self (pq_path q) (pq_query q) (pq_headers q) (pq_request_id q) (pq_now q))
    (handled self q).
Proof.
  intros Hnow. unfold handle_public_path_with_request_id.
  assert (Herr : forall r, error_answer r -> handled self q (Some r) [] []).
  { intros r Hr. exists []. split; [left; split; [done|set_solver]|]. split; [done|]. by intros r' [= <-]. }
  assert (Hpanic : handled self q None [] []).
  { exists []. split; [left; split; [done|set_solver]|]. by split. }
  destruct (parse_public_path (pq_path q)) as [parsed|err|] eqn:Hparsed; [|apply rspec_ret, Herr, ingress_error_answer|by apply rspec_panic].
  destruct (authorize_request self parsed (pq_headers q) (pq_query q)) as [authorization|failure|] eqn:Hauth;
    [|by apply rspec_ret, Herr; destruct failure|by apply rspec_panic].
  eapply rspec_bind; [apply acquire_admission_spec| |by intros l ev [_ []]].
  intros [response|] l ev [-> Hev]; cbn [app].
  - apply rspec_ret. rewrite app_nil_r. destruct Hev as [Hr Hev]. exists [].
    split; [left; split; [done|apply elem_of_cons; by right]|]. split; [done|]. by intros r' [= <-].
  - rewrite Hev. destruct parsed as [style_id|parsed]; [by apply preview_spec|by apply render_public_spec].
Qed.

(** ** Headers of the final response *)

Lemma ignore_case_lower x y : eq_ignore_ascii_case x y = String.eqb (str_to_ascii_lowercase x) (str_to_ascii_lowercase y).
Proof. revert y. induction x as [|a x IH]; intros [|b y]; cbn; try done. by rewrite IH. Qed.
Lemma header_values_app name l l' : header_values name (l ++ l') = header_values name l ++ header_values name l'.
Proof. apply omap_app. Qed.
Lemma header_values_replaced name l :
  header_values name (List.filter (fun h => negb (eq_ignore_ascii_case h.1 name)) l) = [].
Proof.
  induction l as [|h l IH]; [done|]. cbn [List.filter]. destruct (eq_ignore_ascii_case h.1 name) eqn:E; cbn [negb]; [done|].
  cbn. by rewrite E.
Qed.
Lemma header_values_kept name name' l :
  eq_ignore_ascii_case name' name = false ->
  header_values name' (List.filter (fun h => negb (eq_ignore_ascii_case h.1 name)) l) = header_values name' l.
Proof.
  intros Hne. induction l as [|h l IH]; [done|]. cbn [List.filter]. destruct (eq_ignore_ascii_case h.1 name) eqn:E; cbn [negb].
  - rewrite IH. cbn. destruct (eq_ignore_ascii_case h.1 name') eqn:E'; [|done]. rewrite ignore_case_lower in *.
    apply String.eqb_eq in E, E'. rewrite <- E', E, String.eqb_refl in Hne. done.
  - unfold header_values in *. cbn [omap list_omap]. rewrite IH. done.
Qed.
Lemma header_values_insert name value r : header_values name (ir_headers (insert_header name value r)) = [value].
Proof.
  cbn [ir_headers insert_header]. rewrite header_values_app, header_values_replaced. cbn.
  by rewrite ignore_case_lower, String.eqb_refl.
Qed.
Lemma header_values_other name name' value r :
  eq_ignore_ascii_case name' name = false -> eq_ignore_ascii_case name name' = false ->
  header_values name' (ir_headers (insert_header name value r)) = header_values name' (ir_headers r).
Proof.
  intros Hne Hne'. cbn [ir_headers insert_header]. rewrite header_values_app, header_values_kept by done. cbn.
  by rewrite Hne', app_nil_r.
Qed.

(** The layers of the router over the answer of the handler. *)
Definition finished (request_id : string) (r : IngressResponse) : IngressResponse :=
  attach_public_request_id request_id (enforce_public_response_cache_policy r).
Lemma finished_cache_control request_id r :
  header_values "cache-control" (ir_headers (finished request_id r)) =
  if is_success (ir_status r) then header_values "cache-control" (ir_headers r) else [PRIVATE_NO_STORE_CACHE_CONTROL].
Proof.
  unfold finished, attach_public_request_id. rewrite header_values_other by done. unfold enforce_public_response_cache_policy.
  destruct (is_success _); [done|]. apply header_values_insert.
Qed.

Definition service_handled (ingress : option HttpIngress) (q : PublicRequest) (o : option IngressResponse)
    (l : list (@Call Value)) (ev : list GuardEvent) : Prop :=
  exists r0 work, o = finished (pq_request_id q) <$> r0 /\ public_guards work ev /\
  match work with
  | [] => l = [] /\ forall r, r0 = Some r -> error_answer r
  | [GCheckStyle revision] => l = [] /\ forall r, r0 = Some r -> error_answer r \/
      r = with_request_id (pq_request_id q) (preview_html (sr_id revision)) /\
      parse_public_path (pq_path q) = Ok (PpPreview (sr_id revision))
  | [GRender task] => pq_get q = true /\ exists self r, ingress = Some self /\ r0 = Some r /\ rendered self q task r l
  | _ => False
  end.

Lemma public_service_spec ingress q :
  is_instant (pq_now q) -> rspec (public_service ingress q) (service_handled ingress q).
Proof.
  intros Hnow. unfold public_service.
  apply (rspec_bind _ _ (fun o l ev => exists work, public_guards work ev /\
    match work with
    | [] => l = [] /\ forall r, o = Some r -> error_answer r
    | [GCheckStyle revision] => l = [] /\ forall r, o = Some r -> error_answer r \/
        r = with_request_id (pq_request_id q) (preview_html (sr_id revision)) /\
        parse_public_path (pq_path q) = Ok (PpPreview (sr_id revision))
    | [GRender task] => pq_get q = true /\ exists self r, ingress = Some self /\ o = Some r /\ rendered self q task r l
    | _ => False
    end)).
  - unfold public_render. destruct (pq_get q) eqn:Hget; cbn [negb]; [destruct (_ >? _); [|destruct ingress as [self|]]|].
    1, 3, 4: apply rspec_ret; exists []; split; [left; split; [done|set_solver]|split; [done|by intros r [= <-]]].
    eapply rspec_mono; [by apply handle_public_spec|]. intros o l ev (work & Hg & Hw). exists work. split; [done|].
    destruct work as [|[] []]; try done. destruct Hw as (r & -> & Hr). split; [done|]. by exists self, r.
  - intros r l ev (work & Hg & Hw). apply rspec_ret. rewrite !app_nil_r. by exists (Some r), work.
  - intros l ev (work & Hg & Hw). by exists None, work.
Qed.

(** A response that shared caches may keep is a tile rendered without a credential. *)
Lemma rendered_cache_control self q task r l :
  rendered self q task r l ->
  header_values "cache-control" (ir_headers (finished (pq_request_id q) r)) = [SHARED_RENDER_CACHE_CONTROL] /\
    ir_status r = 200 /\ t_authorization task = None /\ (exists z x y, t_request task = ReqTile z x y TILE_SIZE) \/
  header_values "cache-control" (ir_headers (finished (pq_request_id q) r)) = [PRIVATE_NO_STORE_CACHE_CONTROL].
Proof.
  intros (parsed & authorization & task_id & task0 & outcome & Hp & Ha & Ht & -> & _ & ->).
  rewrite finished_cache_control. unfold render_response. destruct (to_result outcome) as [info output|reason|text kind].
  2: { right. by destruct reason. }
  2: { right. by destruct kind. }
  cbn [ir_status with_request_id push_header image_response]. cbn [is_success].
  destruct (prp_kind parsed) eqn:Hk; [left|right; unfold response_policy; by rewrite Hk].
  unfold response_policy. rewrite Hk. split_and!; [done|done| |].
  - cbn [t_authorization with_authorization]. unfold authorize_request, static_style_id in Ha.
    destruct parsed as [parts style_id kind]. cbn in Hk. subst kind. destruct (hi_auth self) as [[]|]; by injection Ha as <-.
  - cbn [t_request with_authorization]. unfold parse_path_with_request_id, parse_tile_path in Ht. rewrite Hk in Ht.
    repeat case_match; try done. apply bind_Ok in Ht as (style & _ & Ht). apply required_bind in Ht as (z & _ & Ht).
    apply required_bind in Ht as (x & _ & Ht). apply bind_Ok in Ht as ([[y scale] format] & _ & Ht).
    apply bind_Ok in Ht as ([] & _ & Ht). apply started_task in Ht as (-> & _). by exists z, x, y.
Qed.

(** ** The preview page *)

Definition style_char (a : ascii) : bool := path_component_char a || Ascii.eqb a slash.
Lemma resolved_style_chars components id : resolve_style_id components = Ok id -> str_all style_char id = true.
Proof.
  unfold resolve_style_id. intros ([] & Hv & Hid)%bind_Ok. destruct (_ >? _); [done|]. injection Hid as <-.
  induction components as [|c components IH]; [done|]. cbn [validate_components] in Hv.
  apply bind_Ok in Hv as ([] & Hc & Hv). specialize (IH Hv).
  assert (Hplain : str_all style_char c = true).
  { unfold validate_path_component in Hc. destruct (String.eqb c ""); [done|]. destruct (str_contains ".." c); [done|].
    destruct (str_all path_component_char c) eqn:Ha; [|done]. clear -Ha. induction c as [|a c IH]; [done|]. cbn in *.
    apply andb_prop in Ha as [Ha Hc]. unfold style_char. rewrite Ha. cbn. auto. }
  destruct components as [|c' components]; [done|].
  change (String.concat "/" (c :: c' :: components)) with (c +:+ String slash (String.concat "/" (c' :: components))).
  rewrite str_all_app, Hplain. cbn [str_all andb]. exact IH.
Qed.
Lemma style_char_range a : style_char a = true ->
  (45 <=? byte_of a) && (byte_of a <=? 122) = true /\ a <> "<"%char /\ a <> ">"%char /\ a <> "\"%char.
Proof.
  destruct a as [[] [] [] [] [] [] [] []]; intros H'; vm_compute in H'; try done; (split; [done|]); split_and!; discriminate.
Qed.
Lemma escape_html_plain id : str_all style_char id = true -> escape_html id = id.
Proof.
  induction id as [|a id IH]; [done|]. cbn [str_all escape_html]. intros [Ha Hid]%andb_prop. rewrite IH by done.
  apply style_char_range in Ha as (Hr & H1' & H2' & _). unfold escape_html_char.
  assert (Hn : forall b, byte_of b < 45 -> Ascii.eqb a b = false).
  { intros b Hb. apply Ascii.eqb_neq. intros ->. bool_props. lia. }
  rewrite (Hn "&"%char), (Hn "'"%char) by (by vm_compute).
  rewrite (proj2 (Ascii.eqb_neq a "<") H1'), (proj2 (Ascii.eqb_neq a ">") H2').
  destruct (Z.eqb_spec (byte_of a) 34); [bool_props; lia|]. done.
Qed.
Lemma escape_json_plain id : str_all style_char id = true -> escape_json_chars id = id.
Proof.
  induction id as [|a id IH]; [done|]. cbn [str_all]. intros [Ha Hid]%andb_prop. specialize (IH Hid).
  apply style_char_range in Ha as (Hr & _ & _ & H3'). bool_props. cbn [escape_json_chars]. rewrite IH.
  rewrite (proj2 (Ascii.eqb_neq _ _)) by done.
  destruct (Z.eqb_spec (byte_of a) 34); [lia|]. destruct (Z.eqb_spec (byte_of a) 10); [lia|].
  destruct (Z.eqb_spec (byte_of a) 13); [lia|]. destruct (Z.eqb_spec (byte_of a) 9); [lia|].
  destruct (Z.ltb_spec (byte_of a) 32); [lia|]. destruct (Z.eqb_spec (byte_of a) 127); [lia|]. cbn [orb].
  destruct id as [|c id]; [done|]. destruct (Z.eqb_spec (byte_of a) 194); [lia|]. cbn [andb]. by f_equal.
Qed.
(** The id of an accepted preview is inserted as it is: it has no character with a
    meaning in HTML or in a script. *)
Definition plain_preview (style_id : StyleId) : string :=
  str_replace "{{style_path_json}}" (String (char_of 34) (style_id +:+ String (char_of 34) ""))
    (str_replace "{{style_path}}" style_id PREVIEW_HTML_TEMPLATE).
Lemma preview_plain path style_id :
  parse_public_path path = Ok (PpPreview style_id) ->
  str_all style_char style_id = true /\ ir_body (preview_html style_id) = str_bytes (plain_preview style_id).
Proof.
  intros Hp. assert (Hc : str_all style_char style_id = true).
  { unfold parse_public_path in Hp. apply required_bind in Hp as (p & _ & Hp). destruct (_ || _); [done|].
    destruct (existsb _ _); [done|]. destruct (last _) as [final|]; [|by apply fmap_Ok in Hp as (? & _ & ?)].
    destruct (_ && _); [|by apply fmap_Ok in Hp as (? & _ & ?)].
    apply fmap_Ok in Hp as (id & Hid & [= ->]). by eapply resolved_style_chars. }
  split; [done|]. cbn [ir_body preview_html html_response]. unfold escape_json_string, plain_preview.
  by rewrite escape_html_plain, escape_json_plain.
Qed.


(** ** Forwarded requests *)

(** The permit of the endpoint is taken before the body is read; the drain permit is
    given back before it. *)
Definition internal_guards (work ev : list GuardEvent) : Prop :=
  work = [] /\ ev ∈ [[GTryPermit EpInternal false]; [GTryPermit EpInternal true; GReleasePermit EpInternal];
                     [GTryPermit EpInternal true; GTryDrain false; GReleasePermit EpInternal]] \/
  ev = [GTryPermit EpInternal true; GTryDrain true] ++ work ++ [GReleaseDrain; GReleasePermit EpInternal].

Definition identified (header_request_id : option string) (fwd : ForwardRequest Value) : ForwardRequest Value :=
  match header_request_id with Some id => with_request_id_of id fwd | None => fwd end.
Definition executed (header_request_id : option string) (body : list Z) (fwd : ForwardRequest Value) (r : Response)
    (l : list (@Call Value)) : Prop :=
  exists fwd0 o now t, forward_from_slice body = inr fwd0 /\ fwd = identified header_request_id fwd0 /\
    validate_render_request (wt_request (fr_task fwd)) (wt_scale (fr_task fwd)) = Ok tt /\
    into_internal (E := Empty_set) (fr_task fwd) now = Ok t /\ request_calls hop_latency t [] o l /\
    r = response_from_outcome (from_task_outcome o (sr_id (wt_style (fr_task fwd)))).1
          (from_task_outcome o (sr_id (wt_style (fr_task fwd)))).2.
(** An answer the sender never takes for an outcome. *)
Definition refusal (r : Response) : Prop := rs_forward_content_type r = false /\ is_success (rs_status r) = false.

Definition forward_handled (json_content_type : bool) (header_request_id : option string) (sent : option (list Z))
    (o : option Response) (l : list (@Call Value)) (ev : list GuardEvent) : Prop :=
  exists work, internal_guards work ev /\
  match work with
  | [] => l = [] /\ forall r, o = Some r -> refusal r
  | [GForwarded fwd] => json_content_type = true /\ exists body r, sent = Some body /\
      Z.of_nat (length body) <= MAX_INTERNAL_FORWARD_BODY_BYTES /\ o = Some r /\ executed header_request_id body fwd r l
  | _ => False
  end.

(** The budget of a decoded request is an [u32]. *)
Class ForwardJsonLaws : Prop := {
  law_forward_budget body fwd : forward_from_slice body = inr fwd -> 0 <= wt_remaining_budget_ms (fr_task fwd) <= u32_max }.
Context `{!ForwardJsonLaws}.

Lemma handle_admitted_spec json_content_type header_request_id body :
  Z.of_nat (length body) <= MAX_INTERNAL_FORWARD_BODY_BYTES ->
  rspec (handle_admitted json_content_type header_request_id body)
    (fun o l ev => forward_handled json_content_type header_request_id (Some body) o l (GTryPermit EpInternal true :: ev)).
Proof.
  intros Hlen. unfold handle_admitted. destruct json_content_type; cbn [negb].
  2: { apply rspec_release_permit, rspec_ret. exists []. split; [left; split; [done|set_solver]|]. split; [done|]. by intros r [= <-]. }
  apply rspec_try_drain. intros []; cbn [negb].
  2: { apply rspec_release_permit, rspec_ret. exists []. split; [left; split; [done|set_solver]|]. split; [done|]. by intros r [= <-]. }
  destruct (forward_from_slice body) as [err|fwd0] eqn:Hfwd.
  { apply rspec_release_forward, rspec_ret. exists []. split; [by right|]. split; [done|]. by intros r [= <-]. }
  change (match header_request_id with Some id => with_request_id_of id fwd0 | None => fwd0 end) with (identified header_request_id fwd0).
  set (fwd := identified header_request_id fwd0).
  destruct (validate_render_request _ _) as [[]|err|] eqn:Hval.
  - apply rspec_observe_bind.
    eapply (rspec_bind _ _ (fun r l ev => exists o now t, r = Some (Some o) /\ ev = [] /\
      into_internal (E := Empty_set) (fr_task fwd) now = Ok t /\ request_calls hop_latency t [] o l)).
    + eapply rspec_spawned; [apply (handle_forwarded_spec node_id hop_latency)|].
      * pose proof (law_forward_budget body fwd0 Hfwd) as Hb. by unfold fwd; destruct header_request_id.
      * intros o l (now & t & Ht & Hc). by exists o, now, t.
    + intros [o'|] l ev (o & now & t & [= <-] & -> & Ht & Hc). apply rspec_release_forward, rspec_ret.
      exists [GForwarded fwd]. split; [by right|]. split; [done|]. eexists body, _. split_and!; [done..|]. rewrite app_nil_r.
      exists fwd0, o', now, t. split_and!; try done. by destruct (from_task_outcome o' _).
    + by intros l ev (? & ? & ? & ? & _).
  - apply rspec_release_forward, rspec_ret. exists []. split; [by right|]. split; [done|]. by intros r [= <-].
  - apply rspec_release_forward, rspec_panic. exists []. split; [by right|]. by split.
Qed.

Lemma forwardz_spec json_content_type header_request_id sent :
  rspec (forwardz json_content_type header_request_id sent) (forward_handled json_content_type header_request_id sent).
Proof.
  apply rspec_try_permit. intros []; cbn [negb].
  2: { apply rspec_ret. exists []. split; [left; split; [done|set_solver]|]. split; [done|]. by intros r [= <-]. }
  unfold read_body. destruct sent as [body|].
  2: { apply rspec_release_permit, rspec_ret. exists []. split; [left; split; [done|set_solver]|]. split; [done|]. by intros r [= <-]. }
  rewrite Z.gtb_ltb. destruct (Z.ltb_spec MAX_INTERNAL_FORWARD_BODY_BYTES (Z.of_nat (length body))).
  { apply rspec_release_permit, rspec_ret. exists []. split; [left; split; [done|set_solver]|]. split; [done|]. by intros r [= <-]. }
  by apply handle_admitted_spec.
Qed.

(** [C25] A node executes a forwarded request only when it is admitted, its body has a
    bounded size, decodes, and passes the complete validation of render requests; then
    it is executed once, under both guards, without being forwarded again, and its
    outcome is what the sender reads. Everything else is answered with a refusal that
    no sender takes for an outcome, and the guards are given back on every path. *)
Theorem forward_service_contract json_content_type header_request_id sent s :
  exists res s' l ev work, forwardz json_content_type header_request_id sent s = (res, s') /\
    st_calls (is_node s') = st_calls (is_node s) ++ l /\ is_events s' = is_events s ++ ev /\ internal_guards work ev /\
    match res with
    | Ok r => work = [] /\ l = [] /\ refusal r \/
        exists fwd body, work = [GForwarded fwd] /\ json_content_type = true /\ sent = Some body /\
          Z.of_nat (length body) <= MAX_INTERNAL_FORWARD_BODY_BYTES /\ executed header_request_id body fwd r l
    | Panic => work = [] /\ l = []
    | Err _ => False
    end.
Proof.
  destruct (forwardz_spec json_content_type header_request_id sent s) as (res & s' & l & ev & E & Hl & Hev & Hres).
  exists res, s', l, ev. destruct res as [r|e|]; [|done|]; destruct Hres as (work & Hg & Hw); exists work; split_and!; try done.
  - destruct work as [|[] []]; try done.
    + left. destruct Hw as [-> Hw]. split_and!; [done..|by apply Hw].
    + right. destruct Hw as (Hj & body & r' & Hs & Hlen & [= <-] & Hex). by exists fwd, body.
  - destruct work as [|[] []]; try done. by destruct Hw as (_ & body & r' & _ & _ & ? & _).
  - destruct work as [|[] []]; try done; [by destruct Hw|by destruct Hw as (_ & body & r' & _ & _ & ? & _)].
Qed.
End Responses.

(** ** Witnesses *)

Module DemoIngress.
#[local] Instance demo_json : JsonText := DemoRequests.demo_json.
#[local] Instance demo_hash : LayerHash := DemoRequests.demo_hash.
#[local] Instance demo_auth : AuthExternals := demo_externals.

Definition demo_info : CompletedInfo :=
  {| ci_node_id := "self"; ci_worker_id := Some 0; ci_route_tier := Tier2HrwBl; ci_started_at := 0;
     ci_native_render_started_at := 0; ci_native_render_completed_at := 0; ci_completed_at := 0; ci_style_swap := false;
     ci_cold_start := false; ci_source_loaded := false; ci_admitted_at_overflow := false; ci_render_observation := None |}.
Definition demo_image (t : PublicTask) : TaskOutcome :=
  TaskMeta_outcome (TaskMeta_of t) (Completed demo_info {| out_bytes := [1; 2; 3]; out_format := t_output_format t |}).

(** A node that renders everything itself; its state is the clock. *)
#[local] Instance demo_node : NodeWorld (Json := Value) (W := Z) (Profile := unit) := {|
  w_now w := (Z.min (Z.max 0 w) 1000000000000, w + 1000000);
  w_can_start_render w := (true, w); w_accepts_revision _ w := (true, w);
  w_lookup_or_join _ w := (Disabled, w); w_rechecks _ _ w := ([], w);
  w_insert_from_outcome _ _ w := w; w_drop_leader _ w := w;
  w_get_or_load _ w := (Some {| cv_members := []; cv_states := []; cv_generated_at := 0 |}, w);
  w_snapshot_workers w := ([], w);
  w_decide _ _ _ w := (Local Tier2HrwBl None [], w);
  w_prepare_profile _ w := (inl None, w); w_preparation_error _ := "";
  w_process t _ _ _ w := (inl (demo_image t), w);
  w_mark_style_load_failed _ _ w := w;
  w_send _ _ _ w := (None, w) |}.
#[local] Instance demo_node_laws : NodeWorldLaws.
Proof.
  split.
  - intros w. cbn [w_now demo_node fst]. unfold INSTANT_MIN, INSTANT_MAX, from_millis, u32_max, nanos_per_sec. lia.
  - intros t p tier hint w o [= <-]. done.
  - done.
  - done.
  - done.
Qed.
#[local] Instance demo_ingress_world : IngressWorld (W := Z) := {|
  w_try_acquire_permit _ w := (true, w); w_release_permit _ w := w;
  w_try_acquire_drain w := (true, w); w_release_drain w := w; w_next_task_id w := (1, w);
  w_ensure_style_available _ _ w := (inl tt, w) |}.

Definition demo_ingress : HttpIngress :=
  {| hi_catalog := DemoRequests.demo_catalog; hi_tileset_url_template := DemoRequests.demo_template;
     hi_sla_budget := 5 * nanos_per_sec; hi_auth := None |}.
Definition demo_request (path : string) : PublicRequest :=
  {| pq_get := true; pq_path := path; pq_query := None; pq_headers := demo_headers [] [];
     pq_request_id := "r1"; pq_now := 1000 |}.
Definition demo_start : IngressState := {| is_node := {| st_world := 1000; st_calls := [] |}; is_events := [] |}.
Definition demo_page : string := "<h1>{{style_path}}</h1>".


#[local] Instance demo_forward_json : ForwardJson := {|
  forward_from_slice body :=
    if decide (body = [7]) then
      inr {| fr_task := {| wt_id := 9; wt_request_id := "r"; wt_authorization := None;
                           wt_style := {| sr_id := "basic"; sr_version := 1 |}; wt_source := None;
                           wt_request := ReqTile 3 5 6 512; wt_scale := X1; wt_output_format := Png;
                           wt_remaining_budget_ms := 1000; wt_forwarding_hops := 1 |};
             fr_route_tier := Tier2HrwBl; fr_drain_worker := None; fr_origin_response_budget_ms := 1100 |}
    else inl "expected value" |}.
#[local] Instance demo_forward_laws : ForwardJsonLaws.
Proof. split. intros body fwd. cbn. destruct (decide (body = [7])); [|done]. intros [= <-]. by vm_compute. Qed.

#[local] Instance demo_header_json : HeaderJson := Wire.demo_json.

(** A forwarded tile is executed under the id of the header. *)
Lemma forward_service_contract_witness :
  exists r s' fwd, forwardz "self" true (Some "r2") (Some [7]) demo_start = (Ok r, s') /\ rs_status r = 200 /\
    wt_request_id (fr_task fwd) = "r2" /\ executed 50000000 (Some "r2") [7] fwd r (st_calls (is_node s')).
Proof.
  destruct (forward_service_contract "self" 50000000 true (Some "r2") (Some [7]) demo_start)
    as (res & s' & l & ev & work & E & Hl & _ & _ & Hres).
  destruct res as [r| |]; [|done|by vm_compute in E].
  assert (Hr : rs_status r = 200 /\ rs_forward_content_type r = true) by (vm_compute in E; by injection E as <- _).
  destruct Hres as [(_ & _ & Hc & _)|(fwd & body & _ & _ & [= <-] & _ & Hex)]; [by destruct Hr as [_ Hr]; rewrite Hr in Hc|].
  exists r, s', fwd. cbn in Hl. rewrite Hl. split_and!; [exact E|apply Hr| |exact Hex].
  destruct Hex as (fwd0 & o & now & t & _ & -> & _). done.
Defined.
End DemoIngress.
