(* ===== verification/ResourcePolicy.v ===== *)
(** * Where resource requests may go

    Models [crates/mmpf-mln-filesource/src/policy.rs], the redirect policy of
    [build_filtered_http_client] and [can_request] of [source.rs]: which hosts and
    addresses the resources of a style may be fetched from.

    An address is its 32-bit or 128-bit number. The url crate, DNS and the HTTP
    client are parameters; [HttpClientLaws] states what the client documents about
    the addresses it connects to and the redirects it follows.

    Shows that the address test is membership in a list of networks, and that no
    chain of redirects reaches an address of these networks, or takes a credential to
    another origin, unless the host is listed as private. *)

From S2P Require Import Prelude StdModel Types TilesetSources Text.

(** ** Addresses *)

Inductive IpAddr := V4 (address : Z) | V6 (address : Z).
Definition addr_wf (a : IpAddr) : Prop :=
  match a with V4 v => 0 <= v < 2 ^ 32 | V6 v => 0 <= v < 2 ^ 128 end.

(** [Ipv4Addr::octets]. *)
Definition octet (i : Z) (v : Z) : Z := Z.land (Z.shiftr v (8 * (3 - i))) 255.
(** [Ipv6Addr::segments]. *)
Definition segment (i : Z) (v : Z) : Z := Z.land (Z.shiftr v (16 * (7 - i))) 65535.

(** [Ipv4Addr::new]. *)
Definition Ipv4Addr_new (a b c d : Z) : Z :=
  Z.lor (Z.lor (Z.shiftl a 24) (Z.shiftl b 16)) (Z.lor (Z.shiftl c 8) d).

(** *** The classes of the standard library *)

Definition v4_is_unspecified (v : Z) : bool := v =? 0.
Definition v4_is_private (v : Z) : bool :=
  (octet 0 v =? 10) ||
  ((octet 0 v =? 172) && ((16 <=? octet 1 v) && (octet 1 v <=? 31))) ||
  ((octet 0 v =? 192) && (octet 1 v =? 168)).
Definition v4_is_loopback (v : Z) : bool := octet 0 v =? 127.
Definition v4_is_link_local (v : Z) : bool := (octet 0 v =? 169) && (octet 1 v =? 254).
Definition v4_is_multicast (v : Z) : bool := (224 <=? octet 0 v) && (octet 0 v <=? 239).
Definition v4_is_broadcast (v : Z) : bool := v =? 4294967295.
Definition v4_is_documentation (v : Z) : bool :=
  ((octet 0 v =? 192) && (octet 1 v =? 0) && (octet 2 v =? 2)) ||
  ((octet 0 v =? 198) && (octet 1 v =? 51) && (octet 2 v =? 100)) ||
  ((octet 0 v =? 203) && (octet 1 v =? 0) && (octet 2 v =? 113)).

Definition v6_is_unspecified (v : Z) : bool := v =? 0.
Definition v6_is_loopback (v : Z) : bool := v =? 1.
Definition v6_is_multicast (v : Z) : bool := Z.land (segment 0 v) 0xff00 =? 0xff00.
Definition v6_is_unique_local (v : Z) : bool := Z.land (segment 0 v) 0xfe00 =? 0xfc00.
Definition v6_is_unicast_link_local (v : Z) : bool := Z.land (segment 0 v) 0xffc0 =? 0xfe80.
(** [Ipv6Addr::to_ipv4]: the mapped and the compatible addresses. *)
Definition to_ipv4 (v : Z) : option Z :=
  if (segment 0 v =? 0) && (segment 1 v =? 0) && (segment 2 v =? 0) && (segment 3 v =? 0) && (segment 4 v =? 0) &&
     ((segment 5 v =? 0) || (segment 5 v =? 0xffff))
  then Some (Ipv4Addr_new (Z.shiftr (segment 6 v) 8) (Z.land (segment 6 v) 255)
               (Z.shiftr (segment 7 v) 8) (Z.land (segment 7 v) 255))
  else None.

(** *** [is_forbidden_address] *)

Definition is_forbidden_ipv4 (address : Z) : bool :=
  v4_is_unspecified address
  || v4_is_private address
  || v4_is_loopback address
  || v4_is_link_local address
  || v4_is_multicast address
  || v4_is_broadcast address
  || v4_is_documentation address
  || (Z.shiftr address 24 =? 0)
  || (Z.land address 0xffc00000 =? 0x64400000)
  || (Z.land address 0xffffff00 =? 0xc0000000)
  || (Z.land address 0xfffe0000 =? 0xc6120000)
  || (Z.land address 0xf0000000 =? 0xf0000000).

Definition segments_start (prefix : list Z) (v : Z) : bool :=
  bool_decide (((fun i => segment (Z.of_nat i) v) <$> seq 0 (length prefix)) = prefix).

Definition is_forbidden_address (address : IpAddr) : bool :=
  match address with
  | V4 v => is_forbidden_ipv4 v
  | V6 v =>
      match to_ipv4 v with
      | Some mapped => is_forbidden_ipv4 mapped
      | None =>
          if segments_start [0x0064; 0xff9b; 0; 0; 0; 0] v then
            is_forbidden_ipv4 (Ipv4Addr_new (Z.land (Z.shiftr (segment 6 v) 8) 255) (Z.land (segment 6 v) 255)
              (Z.land (Z.shiftr (segment 7 v) 8) 255) (Z.land (segment 7 v) 255))
          else
            v6_is_unspecified v
            || v6_is_loopback v
            || v6_is_multicast v
            || v6_is_unique_local v
            || v6_is_unicast_link_local v
            || segments_start [0x0064; 0xff9b; 0x0001] v
            || (segment 0 v =? 0x2002)
            || segments_start [0x2001; 0] v
            || segments_start [0x2001; 0x0db8] v
      end
  end.

(** ** Networks *)

(** A network: its address and the number of its fixed leading bits. *)
Definition in_block (width : Z) (block : Z * Z) (v : Z) : bool :=
  Z.shiftr v (width - block.2) =? Z.shiftr block.1 (width - block.2).

(** The special-purpose networks of IPv4. *)
Definition v4_blocks : list (Z * Z) := [
  (Ipv4Addr_new 0 0 0 0, 8);
  (Ipv4Addr_new 10 0 0 0, 8);
  (Ipv4Addr_new 100 64 0 0, 10);
  (Ipv4Addr_new 127 0 0 0, 8);
  (Ipv4Addr_new 169 254 0 0, 16);
  (Ipv4Addr_new 172 16 0 0, 12);
  (Ipv4Addr_new 192 0 0 0, 24);
  (Ipv4Addr_new 192 0 2 0, 24);
  (Ipv4Addr_new 192 168 0 0, 16);
  (Ipv4Addr_new 198 18 0 0, 15);
  (Ipv4Addr_new 198 51 100 0, 24);
  (Ipv4Addr_new 203 0 113 0, 24);
  (Ipv4Addr_new 224 0 0 0, 4);
  (Ipv4Addr_new 240 0 0 0, 4)].

(** The networks of IPv6 whose addresses carry an IPv4 address in their last bits. *)
Definition v6_embedding : list (Z * Z) := [
  (0, 96);
  (Z.shiftl 0xffff 32, 96);
  (Z.lor (Z.shiftl 0x64 112) (Z.shiftl 0xff9b 96), 96)].
Definition v6_blocks : list (Z * Z) := [
  (Z.shiftl 0xff00 112, 8);
  (Z.shiftl 0xfc00 112, 7);
  (Z.shiftl 0xfe80 112, 10);
  (Z.lor (Z.lor (Z.shiftl 0x64 112) (Z.shiftl 0xff9b 96)) (Z.shiftl 1 80), 48);
  (Z.shiftl 0x2002 112, 16);
  (Z.shiftl 0x2001 112, 32);
  (Z.lor (Z.shiftl 0x2001 112) (Z.shiftl 0x0db8 96), 32)].

Definition in_blocks (width : Z) (blocks : list (Z * Z)) (v : Z) : bool := existsb (fun b => in_block width b v) blocks.

Definition special_purpose (a : IpAddr) : bool :=
  match a with
  | V4 v => in_blocks 32 v4_blocks v
  | V6 v => if in_blocks 128 v6_embedding v then in_blocks 32 v4_blocks (v mod 2 ^ 32) else in_blocks 128 v6_blocks v
  end.

(** *** Digits of an address *)

Lemma land_low v k : 0 <= v -> 0 <= k -> Z.land v (Z.ones k) = v mod 2 ^ k.
Proof. intros. by rewrite Z.land_ones. Qed.

(** Masks with leading ones keep the leading bits. *)
Lemma land_high v w k :
  0 <= v < 2 ^ w -> 0 <= k <= w -> Z.land v (Z.shiftl (Z.ones (w - k)) k) = Z.shiftl (Z.shiftr v k) k.
Proof.
  intros Hv Hk. apply Z.bits_inj'. intros i Hi. rewrite Z.land_spec, !Z.shiftl_spec by done.
  destruct (Z.ltb_spec i k) as [Hik|Hik].
  - by rewrite !(Z.testbit_neg_r _ (i - k)), andb_false_r by lia.
  - rewrite Z.shiftr_spec by lia. replace (i - k + k) with i by lia.
    destruct (Z.ltb_spec i w) as [Hiw|Hiw].
    + rewrite Z.ones_spec_low by lia. apply andb_true_r.
    + rewrite Z.ones_spec_high by lia. rewrite andb_false_r. symmetry.
      destruct (decide (v = 0)) as [->|]; [apply Z.testbit_0_l|].
      apply Z.bits_above_log2; [lia|]. apply Z.log2_lt_pow2; [lia|].
      apply Z.lt_le_trans with (2 ^ w); [lia|]. apply Z.pow_le_mono_r; lia.
Qed.

(** Two digits of a number in base [B] make one. *)
Lemma digit_join B q a b : 0 <= b < B -> (q / B =? a) && (q mod B =? b) = (q =? a * B + b).
Proof.
  intros Hb. pose proof (Z_div_mod_eq_full q B) as Hq.
  destruct (Z.eqb_spec (q / B) a) as [Ha|Ha], (Z.eqb_spec (q mod B) b) as [Hm|Hm], (Z.eqb_spec q (a * B + b)) as [He|He];
    cbn; try done; exfalso.
  - nia.
  - apply Hm. rewrite He, Z.add_comm, Z_mod_plus_full. by apply Z.mod_small.
  - apply Ha. rewrite He, Z.div_add_l by lia. rewrite Z.div_small; lia.
  - apply Ha. rewrite He, Z.div_add_l by lia. rewrite Z.div_small; lia.
Qed.

(** A digit sequence and a number above it. *)
Lemma lor_shiftl x y k : 0 <= k -> 0 <= y < 2 ^ k -> Z.lor (Z.shiftl x k) y = x * 2 ^ k + y.
Proof.
  intros Hk Hy. rewrite <- Z.shiftl_mul_pow2 by done. symmetry. rewrite <- Z.lxor_lor.
  - apply Z.add_nocarry_lxor. apply Z.bits_inj'. intros i Hi. rewrite Z.land_spec, Z.bits_0, Z.shiftl_spec by done.
    destruct (Z.ltb_spec i k); [by rewrite Z.testbit_neg_r by lia|].
    destruct (decide (y = 0)) as [->|]; [by rewrite Z.testbit_0_l, andb_false_r|].
    rewrite (Z.bits_above_log2 y); [by rewrite andb_false_r|lia|].
    apply Z.log2_lt_pow2; [lia|]. apply Z.lt_le_trans with (2 ^ k); [lia|]. apply Z.pow_le_mono_r; lia.
  - apply Z.bits_inj'. intros i Hi. rewrite Z.land_spec, Z.bits_0, Z.shiftl_spec by done.
    destruct (Z.ltb_spec i k); [by rewrite Z.testbit_neg_r by lia|].
    destruct (decide (y = 0)) as [->|]; [by rewrite Z.testbit_0_l, andb_false_r|].
    rewrite (Z.bits_above_log2 y); [by rewrite andb_false_r|lia|].
    apply Z.log2_lt_pow2; [lia|]. apply Z.lt_le_trans with (2 ^ k); [lia|]. apply Z.pow_le_mono_r; lia.
Qed.

Lemma Ipv4Addr_new_sum a b c d :
  0 <= b < 256 -> 0 <= c < 256 -> 0 <= d < 256 ->
  Ipv4Addr_new a b c d = ((a * 256 + b) * 256 + c) * 256 + d.
Proof.
  intros Hb Hc Hd. unfold Ipv4Addr_new.
  rewrite (lor_shiftl c d 8) by lia.
  rewrite (lor_shiftl a (Z.shiftl b 16) 24) by (rewrite ?Z.shiftl_mul_pow2 by lia; lia).
  rewrite Z.shiftl_mul_pow2 by lia.
  replace (a * 2 ^ 24 + b * 2 ^ 16) with (Z.shiftl (a * 256 + b) 16) by (rewrite Z.shiftl_mul_pow2 by lia; lia).
  rewrite (lor_shiftl _ _ 16) by lia. lia.
Qed.

Lemma octet_eq i v : octet i v = Z.shiftr v (8 * (3 - i)) mod 256.
Proof. unfold octet. by rewrite (Z.land_ones _ 8). Qed.
Lemma segment_eq i v : segment i v = Z.shiftr v (16 * (7 - i)) mod 65536.
Proof. unfold segment. by rewrite (Z.land_ones _ 16). Qed.

(** *** IPv4 *)

Section Ipv4.
Context (v : Z) (Hv : 0 <= v < 2 ^ 32).

Lemma octet0 : octet 0 v = v / 2 ^ 24.
Proof. rewrite octet_eq, Z.shiftr_div_pow2 by lia. apply Z.mod_small. Z.to_euclidean_division_equations. lia. Qed.
Lemma octet1 : octet 1 v = (v / 2 ^ 16) mod 256.
Proof. rewrite octet_eq, Z.shiftr_div_pow2 by lia. done. Qed.
Lemma octet2 : octet 2 v = (v / 2 ^ 8) mod 256.
Proof. rewrite octet_eq, Z.shiftr_div_pow2 by lia. done. Qed.

Lemma octets2 a b : 0 <= b < 256 -> (octet 0 v =? a) && (octet 1 v =? b) = (v / 2 ^ 16 =? a * 256 + b).
Proof.
  intros Hb. rewrite octet0, octet1, <- (digit_join 256) by done.
  by rewrite Z.div_div by lia.
Qed.
Lemma octets3 a b c : 0 <= b < 256 -> 0 <= c < 256 ->
  (octet 0 v =? a) && (octet 1 v =? b) && (octet 2 v =? c) = (v / 2 ^ 8 =? (a * 256 + b) * 256 + c).
Proof.
  intros Hb Hc. rewrite octets2 by done. rewrite octet2, <- (digit_join 256 _ (a * 256 + b) c) by done.
  by rewrite Z.div_div by lia.
Qed.

(** Masks with a power of two. *)
Lemma masked k c : 0 <= k <= 32 ->
  (Z.land v (Z.shiftl (Z.ones (32 - k)) k) =? Z.shiftl c k) = (v / 2 ^ k =? c).
Proof.
  intros Hk. rewrite land_high by done. rewrite !Z.shiftl_mul_pow2, Z.shiftr_div_pow2 by lia.
  assert (0 < 2 ^ k) by (apply Z.pow_pos_nonneg; lia).
  destruct (Z.eqb_spec (v / 2 ^ k) c) as [->|Hne]; [apply Z.eqb_refl|]. apply Z.eqb_neq. nia.
Qed.

Lemma block32 a b c d len :
  0 <= len <= 32 -> in_block 32 (Ipv4Addr_new a b c d, len) v = (v / 2 ^ (32 - len) =? Z.shiftr (Ipv4Addr_new a b c d) (32 - len)).
Proof. intros Hl. unfold in_block. cbn [fst snd]. by rewrite Z.shiftr_div_pow2 by lia. Qed.

(** A quotient is an interval. *)
Lemma eqb_range k c : Z.ltb (-1) k = true -> (v / 2 ^ k =? c) = true <-> c * 2 ^ k <= v < (c + 1) * 2 ^ k.
Proof.
  intros Hk%Z.ltb_lt. assert (0 < 2 ^ k) by (apply Z.pow_pos_nonneg; lia). rewrite Z.eqb_eq.
  pose proof (Z_div_mod_eq_full v (2 ^ k)). pose proof (Z.mod_pos_bound v (2 ^ k) ltac:(lia)). nia.
Qed.
Lemma div_le c : 0 <= c -> c <= v / 2 ^ 24 <-> c * 2 ^ 24 <= v.
Proof. intros Hc. Z.to_euclidean_division_equations. lia. Qed.
Lemma div_ge c : 0 <= c -> v / 2 ^ 24 <= c <-> v < (c + 1) * 2 ^ 24.
Proof. intros Hc. Z.to_euclidean_division_equations. lia. Qed.
Lemma private172 : (octet 0 v =? 172) && ((16 <=? octet 1 v) && (octet 1 v <=? 31)) = (v / 2 ^ 20 =? 2753).
Proof.
  rewrite octet0, octet1. apply eq_true_iff_eq. rewrite !andb_true_iff, !Z.eqb_eq, !Z.leb_le.
  Z.to_euclidean_division_equations. lia.
Qed.

(** The tests of the code cover exactly the networks of the list. *)
Lemma is_forbidden_ipv4_blocks : is_forbidden_ipv4 v = in_blocks 32 v4_blocks v.
Proof.
  unfold is_forbidden_ipv4, in_blocks, v4_blocks. cbn [existsb]. rewrite !block32 by lia.
  repeat match goal with |- context [Z.shiftr (Ipv4Addr_new ?a ?b ?c ?d) ?k] =>
    let r := eval vm_compute in (Z.shiftr (Ipv4Addr_new a b c d) k) in
    change (Z.shiftr (Ipv4Addr_new a b c d) k) with r end.
  unfold v4_is_private, v4_is_loopback, v4_is_link_local, v4_is_multicast, v4_is_documentation,
    v4_is_unspecified, v4_is_broadcast.
  rewrite !octets3, !octets2 by lia.
  change (Z.land v 0xffc00000 =? 0x64400000) with (Z.land v (Z.shiftl (Z.ones (32 - 22)) 22) =? Z.shiftl 401 22).
  change (Z.land v 0xffffff00 =? 0xc0000000) with (Z.land v (Z.shiftl (Z.ones (32 - 8)) 8) =? Z.shiftl 12582912 8).
  change (Z.land v 0xfffe0000 =? 0xc6120000) with (Z.land v (Z.shiftl (Z.ones (32 - 17)) 17) =? Z.shiftl 25353 17).
  change (Z.land v 0xf0000000 =? 0xf0000000) with (Z.land v (Z.shiftl (Z.ones (32 - 28)) 28) =? Z.shiftl 15 28).
  rewrite !masked by lia.
  rewrite private172, octet0, Z.shiftr_div_pow2 by lia. clear -Hv.
  apply eq_true_iff_eq. rewrite !orb_true_iff, !andb_true_iff, !Z.leb_le, !eqb_range by done.
  rewrite !Z.eqb_eq, div_le, div_ge by lia. change (2 ^ 32) with 4294967296 in Hv.
  repeat match goal with |- context [?c * 2 ^ ?k] =>
    let r := eval vm_compute in (c * 2 ^ k) in change (c * 2 ^ k) with r end.
  lia.
Qed.
End Ipv4.

(** *** IPv6 *)

Definition join_segments (prefix : list Z) : Z := fold_left (fun acc s => acc * 65536 + s) prefix 0.

Section Ipv6.
Context (v : Z) (Hv : 0 <= v < 2 ^ 128).

Lemma segments_start_snoc prefix s :
  segments_start (prefix ++ [s]) v = segments_start prefix v && (segment (Z.of_nat (length prefix)) v =? s).
Proof.
  unfold segments_start. rewrite length_app, Nat.add_1_r, seq_S, fmap_app. cbn [fmap list_fmap plus].
  apply eq_true_iff_eq. rewrite andb_true_iff, Z.eqb_eq, !bool_decide_eq_true. split.
  - intros [? [=]]%app_inj_2; [done|]. done.
  - intros [-> ->]. done.
Qed.

(** The leading segments are the leading bits. *)
Lemma segments_start_block prefix :
  (length prefix <= 8)%nat -> Forall (fun s => 0 <= s < 65536) prefix ->
  segments_start prefix v = (v / 2 ^ (128 - 16 * Z.of_nat (length prefix)) =? join_segments prefix).
Proof.
  induction prefix as [|s prefix IH] using rev_ind; intros Hl Hp.
  - cbn. rewrite Z.div_small by done. done.
  - rewrite length_app in *. cbn [length] in *. apply Forall_app in Hp as [Hp Hs]. rewrite Forall_singleton in Hs.
    rewrite segments_start_snoc, IH by (done || lia). unfold join_segments. rewrite fold_left_app. cbn [fold_left].
    fold (join_segments prefix). rewrite <- digit_join by done. rewrite segment_eq, Z.shiftr_div_pow2 by lia.
    rewrite Nat2Z.inj_add. change (Z.of_nat 1) with 1.
    replace (16 * (7 - Z.of_nat (length prefix))) with (128 - 16 * (Z.of_nat (length prefix) + 1)) by lia.
    rewrite Z.div_div by (try apply Z.pow_pos_nonneg; lia).
    change 65536 with (2 ^ 16). rewrite <- Z.pow_add_r by lia.
    by replace (128 - 16 * (Z.of_nat (length prefix) + 1) + 16) with (128 - 16 * Z.of_nat (length prefix)) by lia.
Qed.

(** The last bits are the embedded address. *)
Lemma embedded_address :
  Ipv4Addr_new (Z.land (Z.shiftr (segment 6 v) 8) 255) (Z.land (segment 6 v) 255)
    (Z.land (Z.shiftr (segment 7 v) 8) 255) (Z.land (segment 7 v) 255) = v mod 2 ^ 32 /\
  Ipv4Addr_new (Z.shiftr (segment 6 v) 8) (Z.land (segment 6 v) 255)
    (Z.shiftr (segment 7 v) 8) (Z.land (segment 7 v) 255) = v mod 2 ^ 32.
Proof.
  rewrite !(Z.land_ones _ 8), !segment_eq, !Z.shiftr_div_pow2 by lia.
  cbn [Z.sub Z.mul Z.opp Z.add Z.pos_sub Pos.mul Pos.pred_double]. 
  set (a := v / 2 ^ 16). change (v / 2 ^ 0) with (v / 1). rewrite Z.div_1_r.
  assert (Ha : forall x, 0 <= x mod 65536 / 2 ^ 8 < 256) by (intros; Z.to_euclidean_division_equations; lia).
  rewrite !(Z.mod_small (_ / 2 ^ 8) (2 ^ 8)) by apply Ha.
  rewrite Ipv4Addr_new_sum by (apply Ha || (apply Z.mod_pos_bound; lia)).
  split; subst a; Z.to_euclidean_division_equations; lia.
Qed.

Lemma segment0 : segment 0 v = v / 2 ^ 112.
Proof.
  rewrite segment_eq, Z.shiftr_div_pow2 by lia. change (16 * (7 - 0)) with 112. apply Z.mod_small.
  split; [apply Z.div_pos; lia|]. apply Z.div_lt_upper_bound; [lia|]. change (2 ^ 112 * 65536) with (2 ^ 128). lia.
Qed.
Lemma masked16 k c : 0 <= k <= 16 ->
  (Z.land (segment 0 v) (Z.shiftl (Z.ones (16 - k)) k) =? Z.shiftl c k) = (v / 2 ^ (112 + k) =? c).
Proof.
  intros Hk. assert (0 < 2 ^ k) by (apply Z.pow_pos_nonneg; lia).
  rewrite land_high by (try rewrite segment_eq; try apply Z.mod_pos_bound; lia).
  rewrite segment0, !Z.shiftl_mul_pow2, Z.shiftr_div_pow2, Z.div_div by lia.
  rewrite Z.pow_add_r by lia. destruct (Z.eqb_spec (v / (2 ^ 112 * 2 ^ k)) c) as [->|Hne]; [apply Z.eqb_refl|].
  apply Z.eqb_neq. nia.
Qed.

Lemma to_ipv4_spec :
  to_ipv4 v = if in_block 128 (0, 96) v || in_block 128 (Z.shiftl 0xffff 32, 96) v then Some (v mod 2 ^ 32) else None.
Proof.
  unfold to_ipv4. rewrite (proj2 embedded_address).
  assert (Hs : forall x, 0 <= x < 65536 -> (segment 0 v =? 0) && (segment 1 v =? 0) && (segment 2 v =? 0) && (segment 3 v =? 0) &&
    (segment 4 v =? 0) && (segment 5 v =? x) = (v / 2 ^ 32 =? x)).
  { intros x Hx. change (v / 2 ^ 32 =? x) with (v / 2 ^ (128 - 16 * Z.of_nat (length [0; 0; 0; 0; 0; x])) =? join_segments [0; 0; 0; 0; 0; x]).
    rewrite <- segments_start_block by (cbn; repeat constructor; lia).
    change [0; 0; 0; 0; 0; x] with ((((([0] ++ [0]) ++ [0]) ++ [0]) ++ [0]) ++ [x]).
    rewrite !segments_start_snoc. cbn [length app Z.of_nat Pos.of_succ_nat Pos.succ].
    change [0] with ([] ++ [0]). by rewrite segments_start_snoc. }
  unfold in_block. cbn [fst snd]. rewrite !Z.shiftr_div_pow2 by lia.
  change (128 - 96) with 32. change (Z.shiftl 65535 32 / 2 ^ 32) with 65535. change (0 / 2 ^ 32) with 0.
  rewrite <- (Hs 0), <- (Hs 65535) by lia.
  by destruct (segment 0 v =? 0), (segment 1 v =? 0), (segment 2 v =? 0), (segment 3 v =? 0), (segment 4 v =? 0),
    (segment 5 v =? 0), (segment 5 v =? 65535).
Qed.

Lemma block128 net len :
  0 <= len <= 128 -> in_block 128 (net, len) v = (v / 2 ^ (128 - len) =? Z.shiftr net (128 - len)).
Proof. intros Hl. unfold in_block. cbn [fst snd]. by rewrite Z.shiftr_div_pow2 by lia. Qed.

#[local] Ltac eval_shift :=
  repeat match goal with |- context [Z.shiftr ?a ?k =? _] => fail 1
  | |- context [_ =? Z.shiftr ?a ?k] =>
    let r := eval vm_compute in (Z.shiftr a k) in change (Z.shiftr a k) with r end.

Lemma is_forbidden_ipv6_blocks : is_forbidden_address (V6 v) = special_purpose (V6 v).
Proof.
  unfold is_forbidden_address, special_purpose. rewrite to_ipv4_spec, (proj1 embedded_address).
  assert (H4 : is_forbidden_ipv4 (v mod 2 ^ 32) = in_blocks 32 v4_blocks (v mod 2 ^ 32))
    by (apply is_forbidden_ipv4_blocks, Z.mod_pos_bound; lia).
  unfold in_blocks at 1, v6_embedding. cbn [existsb].
  destruct (in_block 128 (0, 96) v) eqn:E0; [done|]. destruct (in_block 128 (Z.shiftl _ 32, 96) v) eqn:E1; [done|]. cbn [orb].
  rewrite orb_false_r, !segments_start_block by (cbn; repeat constructor; lia).
  unfold in_blocks, v6_blocks. cbn [existsb]. rewrite !block128 by lia. eval_shift.
  cbn [length Z.of_nat Pos.of_succ_nat Pos.succ].
  repeat match goal with |- context [join_segments ?p] =>
    let r := eval vm_compute in (join_segments p) in change (join_segments p) with r end.
  change (128 - 16 * Z.of_nat 6) with (128 - 96). destruct (v / 2 ^ (128 - 96) =? _); [exact H4|].
  assert (Hz : v6_is_unspecified v = false /\ v6_is_loopback v = false).
  { unfold v6_is_unspecified, v6_is_loopback. rewrite block128 in E0 by lia. apply Z.eqb_neq in E0.
    rewrite !Z.eqb_neq. split; intros ->; by apply E0. }
  destruct Hz as [-> ->].
  change (v6_is_multicast v) with (Z.land (segment 0 v) (Z.shiftl (Z.ones (16 - 8)) 8) =? Z.shiftl 255 8).
  change (v6_is_unique_local v) with (Z.land (segment 0 v) (Z.shiftl (Z.ones (16 - 9)) 9) =? Z.shiftl 126 9).
  change (v6_is_unicast_link_local v) with (Z.land (segment 0 v) (Z.shiftl (Z.ones (16 - 6)) 6) =? Z.shiftl 1018 6).
  rewrite !masked16 by lia. rewrite segment0. cbn [orb]. by rewrite orb_false_r, <- !orb_assoc.
Qed.
End Ipv6.

(** The addresses the code refuses are those of the special-purpose networks, also
    when an IPv6 address carries an IPv4 address. *)
Lemma is_forbidden_address_blocks a : addr_wf a -> is_forbidden_address a = special_purpose a.
Proof. destruct a as [v|v]; intros Hv; [by apply is_forbidden_ipv4_blocks|by apply is_forbidden_ipv6_blocks]. Qed.

(** ** Hosts *)

(** [str::trim_end_matches] and [trim_start_matches] for a set of ASCII characters. *)
Fixpoint trim_end_matches (f : ascii -> bool) (s : string) : string :=
  match s with
  | EmptyString => EmptyString
  | String a s => let t := trim_end_matches f s in if f a && String.eqb t "" then "" else String a t
  end.
Fixpoint trim_start_matches (f : ascii -> bool) (s : string) : string :=
  match s with
  | EmptyString => EmptyString
  | String a t => if f a then trim_start_matches f t else s
  end.
Definition trim_matches (f : ascii -> bool) (s : string) : string := trim_end_matches f (trim_start_matches f s).
Definition is_dot (a : ascii) : bool := Ascii.eqb a "."%char.
Definition is_bracket (a : ascii) : bool := Ascii.eqb a "["%char || Ascii.eqb a "]"%char.

Record ResourceUrlPolicy := { private_hosts : list string }.

Definition ResourceUrlPolicy_new (hosts : list string) : ResourceUrlPolicy :=
  {| private_hosts := List.filter (fun host => negb (String.eqb host ""))
       ((fun host => str_to_ascii_lowercase (trim_end_matches is_dot (trim host))) <$> hosts) |}.

Definition allows_private_host (self : ResourceUrlPolicy) (host : string) : bool :=
  let host := str_to_ascii_lowercase (trim_end_matches is_dot host) in
  existsb (fun pattern =>
    match strip_prefix "*." pattern with
    | Some suffix => negb (String.eqb host suffix) && bool_decide (strip_suffix ("." +:+ suffix) host <> None)
    | None => String.eqb host pattern
    end) (private_hosts self).

(** ** URLs *)

Inductive UrlHost := HDomain (domain : string) | HIpv4 (address : Z) | HIpv6 (address : Z).

(** The url crate. *)
Class UrlLib := {
  Url : Type;
  Url_parse : string -> option Url;
  Url_scheme : Url -> string;
  Url_host : Url -> option UrlHost;
  (** [origin() == origin()] *)
  Url_same_origin : Url -> Url -> bool;
  (** The keys of [query_pairs]. *)
  Url_query_keys : Url -> list string;
  (** The text of an IPv6 address without its brackets. *)
  ipv6_text : Z -> string }.

Definition ipv4_text (v : Z) : string :=
  decimal (octet 0 v) +:+ "." +:+ decimal (octet 1 v) +:+ "." +:+ decimal (octet 2 v) +:+ "." +:+ decimal (octet 3 v).

Section Policy.
Context `{UrlLib}.

Definition host_text (host : UrlHost) : string :=
  match host with
  | HDomain domain => domain
  | HIpv4 address => ipv4_text address
  | HIpv6 address => "[" +:+ ipv6_text address +:+ "]"
  end.
Definition host_label (host : UrlHost) : string := str_to_ascii_lowercase (trim_matches is_bracket (host_text host)).

Definition permits_url_without_dns (self : ResourceUrlPolicy) (url : Url) : bool :=
  if negb (String.eqb (Url_scheme url) "http" || String.eqb (Url_scheme url) "https") then false else
  match Url_host url with
  | None => false
  | Some host =>
      match host with
      | HIpv4 address => negb (is_forbidden_address (V4 address)) || allows_private_host self (host_label host)
      | HIpv6 address => negb (is_forbidden_address (V6 address)) || allows_private_host self (host_label host)
      | HDomain _ => true
      end
  end.

(** [FilteringResolver::resolve] over the answer of [lookup_host]. *)
Definition resolve (self : ResourceUrlPolicy) (lookup_host : string -> Res string (list IpAddr)) (name : string)
    : Res string (list IpAddr) :=
  let host := str_to_ascii_lowercase (trim_end_matches is_dot name) in
  let allow_private := allows_private_host self host in
  addresses ← lookup_host host;
  let addresses := List.filter (fun address => allow_private || negb (is_forbidden_address address)) addresses in
  if bool_decide (addresses = []) then Err ("resource host " +:+ host +:+ " resolves only to blocked addresses")
  else Ok addresses.

(** *** Redirects *)

Inductive RedirectAction := Follow | RedirectError (message : string).

Definition carries_credential (url : Url) : bool := existsb (fun key => String.eqb key "access_token") (Url_query_keys url).
Definition credentialed_redirect_stays_on_origin (previous : list Url) (target : Url) : bool :=
  match List.find carries_credential previous with
  | Some credentialed => Url_same_origin credentialed target
  | None => true
  end.

Definition redirect_policy (self : ResourceUrlPolicy) (previous : list Url) (target : Url) : RedirectAction :=
  if 10 <=? Z.of_nat (length previous) then RedirectError "too many resource redirects"
  else if negb (credentialed_redirect_stays_on_origin previous target) then
    RedirectError "credential-bearing resource redirect changes origin"
  else if permits_url_without_dns self target then Follow
  else RedirectError "resource redirect target is blocked".

(** A request that a client sent: its URL and the address it connected to. *)
Record Hop := { hop_url : Url; hop_address : IpAddr }.
End Policy.

(** ** The HTTP client *)

(** The requests that [client.get(url).send()] makes, in order, with the resolver and
    the redirect policy it was built with. *)
Class HttpClient `{UrlLib} := {
  client_hops : (string -> Res string (list IpAddr)) -> (list Url -> Url -> RedirectAction) -> Url -> list Hop }.

(** What the client documents: it requests the given URL first, connects to the
    address a URL names or to one the resolver returns for its domain, and follows a
    redirect only when the policy says so for the URLs requested before it. *)
Class HttpClientLaws `{HttpClient} : Prop := {
  client_first resolver policy url h hs :
    client_hops resolver policy url = h :: hs -> hop_url h = url;
  client_connects resolver policy url h :
    h ∈ client_hops resolver policy url ->
    addr_wf (hop_address h) /\
    match Url_host (hop_url h) with
    | Some (HDomain domain) => exists addresses, resolver domain = Ok addresses /\ hop_address h ∈ addresses
    | Some (HIpv4 address) => hop_address h = V4 address
    | Some (HIpv6 address) => hop_address h = V6 address
    | None => False
    end;
  client_redirects resolver policy url before h after :
    client_hops resolver policy url = before ++ h :: after -> before <> [] ->
    policy (hop_url <$> before) (hop_url h) = Follow }.

(** ** Confinement *)

(** The operator lists the host: by its name, or as a subdomain of a wildcard. *)
Definition listed_private (hosts : list string) (label : string) : Prop :=
  exists entry, entry ∈ hosts /\
    let pattern := str_to_ascii_lowercase (trim_end_matches is_dot (trim entry)) in
    label = pattern \/ exists x suffix, pattern = "*." +:+ suffix /\ label = x +:+ "." +:+ suffix.

Lemma lowercase_dot a : is_dot (to_ascii_lowercase a) = is_dot a.
Proof. destruct a as [[] [] [] [] [] [] [] []]; reflexivity. Qed.
Lemma lowercase_idem a : to_ascii_lowercase (to_ascii_lowercase a) = to_ascii_lowercase a.
Proof. destruct a as [[] [] [] [] [] [] [] []]; reflexivity. Qed.
Lemma str_lowercase_idem s : str_to_ascii_lowercase (str_to_ascii_lowercase s) = str_to_ascii_lowercase s.
Proof. induction s as [|a s IH]; [done|]. cbn. by rewrite lowercase_idem, IH. Qed.
Lemma lowercase_empty s : String.eqb (str_to_ascii_lowercase s) "" = String.eqb s "".
Proof. by destruct s. Qed.
Lemma trim_end_lowercase s :
  trim_end_matches is_dot (str_to_ascii_lowercase s) = str_to_ascii_lowercase (trim_end_matches is_dot s).
Proof.
  induction s as [|a s IH]; [done|]. cbn. rewrite IH, lowercase_empty, lowercase_dot. by destruct (is_dot a && _).
Qed.
Lemma trim_end_idem f s : trim_end_matches f (trim_end_matches f s) = trim_end_matches f s.
Proof.
  induction s as [|a s IH]; [done|]. cbn. destruct (f a && String.eqb (trim_end_matches f s) "") eqn:E; [done|].
  cbn. by rewrite IH, E.
Qed.

Section Confinement.
Context `{HttpClientLaws}.

(** The name under which the policy looks for a host. *)
Definition policy_label (host : UrlHost) : string :=
  match host with
  | HDomain domain => str_to_ascii_lowercase (trim_end_matches is_dot domain)
  | _ => str_to_ascii_lowercase (trim_end_matches is_dot (host_label host))
  end.

Lemma allows_private_listed hosts host :
  allows_private_host (ResourceUrlPolicy_new hosts) host = true ->
  listed_private hosts (str_to_ascii_lowercase (trim_end_matches is_dot host)).
Proof.
  intros (pattern & Hp & Hm)%existsb_exists. cbn in Hp. apply filter_In in Hp as [Hp _].
  apply list_elem_of_In, list_elem_of_fmap in Hp as (entry & -> & Hentry). exists entry. split; [done|].
  set (pattern := str_to_ascii_lowercase (trim_end_matches is_dot (trim entry))) in *. cbn zeta.
  destruct (strip_prefix "*." pattern) as [suffix|] eqn:E; [|left; by apply String.eqb_eq].
  right. apply andb_prop in Hm as [_ Hm]. apply bool_decide_eq_true in Hm.
  destruct (strip_suffix _ _) as [x|] eqn:Es; [|done]. exists x, suffix.
  split; [by apply strip_prefix_Some|by apply strip_suffix_Some].
Qed.

Lemma permitted_hop hosts lookup_host url h :
  h ∈ client_hops (resolve (ResourceUrlPolicy_new hosts) lookup_host) (redirect_policy (ResourceUrlPolicy_new hosts)) url ->
  permits_url_without_dns (ResourceUrlPolicy_new hosts) (hop_url h) = true ->
  exists host, Url_host (hop_url h) = Some host /\
    (special_purpose (hop_address h) = true -> listed_private hosts (policy_label host)).
Proof.
  intros Hh Hp. destruct (client_connects _ _ _ _ Hh) as [Hwf Hc]. unfold permits_url_without_dns in Hp.
  destruct (negb _); [done|]. destruct (Url_host (hop_url h)) as [host|]; [|done]. exists host. split; [done|].
  rewrite <- is_forbidden_address_blocks by done. intros Hf. destruct host as [domain|v|v]; cbn [policy_label].
  - destruct Hc as (addresses & Hr & Hin). unfold resolve in Hr. apply bind_Ok in Hr as (found & _ & Hr).
    case_bool_decide; [done|]. injection Hr as <-. apply list_elem_of_In, filter_In in Hin as [_ Hin].
    rewrite Hf, orb_false_r in Hin. apply allows_private_listed in Hin.
    by rewrite trim_end_lowercase, trim_end_idem, str_lowercase_idem in Hin.
  - rewrite Hc in Hf. rewrite Hf in Hp. by apply allows_private_listed.
  - rewrite Hc in Hf. rewrite Hf in Hp. by apply allows_private_listed.
Qed.

Lemma followed_redirect hosts previous target :
  redirect_policy (ResourceUrlPolicy_new hosts) previous target = Follow ->
  (length previous < 10)%nat /\ permits_url_without_dns (ResourceUrlPolicy_new hosts) target = true /\
  forall u, u ∈ previous -> carries_credential u = true ->
    exists u', u' ∈ previous /\ carries_credential u' = true /\ Url_same_origin u' target = true.
Proof.
  unfold redirect_policy. destruct (10 <=? _) eqn:El; [done|]. apply Z.leb_gt in El.
  unfold credentialed_redirect_stays_on_origin.
  destruct (List.find carries_credential previous) as [u'|] eqn:Ef.
  - destruct (Url_same_origin u' target) eqn:Eo; [|done]. cbn [negb]. destruct (permits_url_without_dns _ _); [|done].
    intros _. split_and!; [lia|done|]. intros _ _ _. apply List.find_some in Ef as [Hin Hc].
    exists u'. by rewrite list_elem_of_In.
  - cbn [negb]. destruct (permits_url_without_dns _ _); [|done]. intros _. split_and!; [lia|done|].
    intros u Hu%list_elem_of_In Hc. by rewrite (List.find_none _ _ Ef u Hu) in Hc.
Qed.

(** [C23] Resource requests stay where they may go: a request that the file source accepts,
    with every redirect that follows, makes at most ten requests, connects to an
    address of a special-purpose network only for a host the operator listed, and
    takes a credential in a URL only to the origin of a URL that carried it. *)
Theorem resource_requests_confined hosts lookup_host url :
  let policy := ResourceUrlPolicy_new hosts in
  let hops := client_hops (resolve policy lookup_host) (redirect_policy policy) url in
  permits_url_without_dns policy url = true ->
  (length hops <= 10)%nat /\
  (forall h, h ∈ hops -> exists host, Url_host (hop_url h) = Some host /\
     (special_purpose (hop_address h) = true -> listed_private hosts (policy_label host))) /\
  (forall i j hi hj, hops !! i = Some hi -> hops !! j = Some hj -> (i < j)%nat ->
     carries_credential (hop_url hi) = true ->
     exists k hk, hops !! k = Some hk /\ (k < j)%nat /\ carries_credential (hop_url hk) = true /\
       Url_same_origin (hop_url hk) (hop_url hj) = true).
Proof.
  intros policy hops Hurl.
  assert (Hprev : forall j hj, hops !! S j = Some hj -> redirect_policy policy (hop_url <$> take (S j) hops) (hop_url hj) = Follow).
  { intros j hj Hj. apply (client_redirects (resolve policy lookup_host) (redirect_policy policy) url _ _ (drop (S (S j)) hops)).
    - by rewrite take_drop_middle.
    - by destruct hops. }
  split; [|split].
  - destruct (decide (length hops <= 10)%nat) as [|Hl]; [done|].
    destruct (lookup_lt_is_Some_2 hops 10 ltac:(lia)) as [h Hh].
    destruct (followed_redirect _ _ _ (Hprev _ _ Hh)) as [Hlen _]. rewrite length_fmap, length_take in Hlen. lia.
  - intros h Hh. eapply permitted_hop; [exact Hh|]. apply list_elem_of_lookup in Hh as [[|j] Hj].
    + destruct hops as [|h0 hs] eqn:E; [done|]. injection Hj as ->. by rewrite (client_first _ _ _ _ _ E).
    + by eapply followed_redirect, Hprev.
  - intros i [|j] hi hj Hi Hj Hij Hc; [lia|].
    destruct (followed_redirect _ _ _ (Hprev _ _ Hj)) as (_ & _ & Hcred).
    destruct (Hcred (hop_url hi)) as (u & Hu & Huc & Ho); [|done|].
    + apply list_elem_of_fmap. exists hi. split; [done|]. eapply list_elem_of_lookup_2. by rewrite lookup_take_lt.
    + apply list_elem_of_fmap in Hu as (hk & -> & Hk). apply list_elem_of_lookup in Hk as [k Hk].
      apply lookup_take_Some in Hk as [Hk Hlt]. by exists k, hk.
Qed.
End Confinement.

(** ** A client that follows redirects *)

Module DemoPolicy.

#[local] Instance UrlHost_eq_dec : EqDecision UrlHost.
Proof. solve_decision. Defined.

Record DemoUrl := { du_scheme : string; du_host : UrlHost; du_path : string; du_keys : list string }.
#[global] Instance DemoUrlLib : UrlLib := {|
  Url := DemoUrl;
  Url_parse text := Some {| du_scheme := "https"; du_host := HDomain text; du_path := "/"; du_keys := [] |};
  Url_scheme := du_scheme;
  Url_host url := Some (du_host url);
  Url_same_origin u u' := bool_decide (du_scheme u = du_scheme u' /\ du_host u = du_host u');
  Url_query_keys := du_keys;
  ipv6_text _ := "::" |}.

(** The redirect that a server answers with. *)
Definition location (url : DemoUrl) : option DemoUrl :=
  if String.eqb (du_path url) "/style.json" then
    Some {| du_scheme := du_scheme url; du_host := du_host url; du_path := "/v2"; du_keys := [] |}
  else if String.eqb (du_path url) "/v2" then
    Some {| du_scheme := "http"; du_host := HIpv4 (Ipv4Addr_new 169 254 169 254); du_path := "/meta"; du_keys := [] |}
  else None.

Definition connect (resolver : string -> Res string (list IpAddr)) (url : DemoUrl) : option IpAddr :=
  match du_host url with
  | HDomain domain =>
      match resolver domain with
      | Ok (address :: _) => match address with V4 v => if (0 <=? v) && (v <? 2 ^ 32) then Some address else None | _ => None end
      | _ => None
      end
  | HIpv4 v => if (0 <=? v) && (v <? 2 ^ 32) then Some (V4 v) else None
  | HIpv6 _ => None
  end.

Fixpoint hops (fuel : nat) (resolver : string -> Res string (list IpAddr)) (policy : list Url -> Url -> RedirectAction)
    (previous : list DemoUrl) (url : DemoUrl) : list Hop :=
  match fuel, connect resolver url with
  | S fuel, Some address =>
      {| hop_url := url : Url; hop_address := address |} ::
      match location url with
      | Some next =>
          match policy (previous ++ [url]) next with
          | Follow => hops fuel resolver policy (previous ++ [url]) next
          | RedirectError _ => []
          end
      | None => []
      end
  | _, _ => []
  end.

#[global] Instance DemoClient : HttpClient := {| client_hops resolver policy url := hops 20 resolver policy [] url |}.

Lemma connect_wf resolver url address : connect resolver url = Some address ->
  addr_wf address /\
  match du_host url with
  | HDomain domain => exists addresses, resolver domain = Ok addresses /\ address ∈ addresses
  | HIpv4 v => address = V4 v
  | HIpv6 v => address = V6 v
  end.
Proof.
  unfold connect. destruct (du_host url) as [domain|v|v]; [|case_match; [|done]; intros [= <-]; bool_props; cbn; split; [lia|done]|done].
  destruct (resolver domain) as [[|[v|v] l]| |]; try done. case_match; [|done]. intros [= <-]. bool_props.
  split; [cbn; lia|]. exists (V4 v :: l). split; [done|by left].
Qed.

Lemma hops_redirects n resolver policy previous url before h after :
  hops n resolver policy previous url = before ++ h :: after -> before <> [] ->
  policy (previous ++ (hop_url <$> before)) (hop_url h) = Follow.
Proof.
  revert previous url before. induction n as [|n IH]; intros previous url before; cbn [hops]; [by destruct before|].
  destruct (connect resolver url) as [address|]; [|by destruct before].
  destruct before as [|h0 before]; [done|]. cbn [fmap list_fmap app]. intros [= <- Hl] _.
  destruct (location url) as [next|]; [|by destruct before].
  destruct (policy (previous ++ [url]) next) eqn:Ep; [|by destruct before].
  destruct before as [|h1 before].
  - cbn in Hl. destruct n as [|n]; [done|]. cbn [hops] in Hl. destruct (connect resolver next); [|done].
    injection Hl as <- _. exact Ep.
  - specialize (IH _ _ _ Hl ltac:(done)). cbn [fmap list_fmap] in *. by rewrite <- app_assoc in IH.
Qed.

#[global] Instance DemoClientLaws : HttpClientLaws.
Proof.
  split.
  - intros resolver policy url h hs. cbn. destruct (connect resolver url); [|done]. by intros [= <- _].
  - intros resolver policy url h. cbn [client_hops DemoClient]. generalize 20%nat, (@nil DemoUrl). intros n. revert url.
    induction n as [|n IH]; intros url previous; cbn [hops]; [by intros ?%elem_of_nil|].
    destruct (connect resolver url) as [address|] eqn:E; [|by intros ?%elem_of_nil].
    intros [->|Hh]%elem_of_cons.
    + cbn. by apply connect_wf.
    + destruct (location url); [|by apply elem_of_nil in Hh]. destruct (policy _ _); [|by apply elem_of_nil in Hh].
      by eapply IH.
  - intros resolver policy url before h after. apply (hops_redirects 20 resolver policy []).
Qed.

Definition dns (name : string) : Res string (list IpAddr) :=
  if String.eqb name "tiles.internal" then Ok [V4 (Ipv4Addr_new 10 0 0 7)] else Ok [V4 (Ipv4Addr_new 8 8 8 8)].
Definition style_url : DemoUrl :=
  {| du_scheme := "http"; du_host := HDomain "tiles.internal"; du_path := "/style.json"; du_keys := ["access_token"] |}.
Definition demo_hosts : list string := [" *.Internal. "].

(** The listed host is reached on its private address with its credential; the redirect
    to the address of a metadata service is refused. *)
Lemma resource_requests_confined_witness :
  let policy := ResourceUrlPolicy_new demo_hosts in
  let hops := client_hops (resolve policy dns) (redirect_policy policy) style_url in
  (du_path ∘ hop_url <$> hops) = ["/style.json"; "/v2"] /\ (length hops <= 10)%nat.
Proof.
  split; [vm_compute; reflexivity|].
  apply (@resource_requests_confined DemoUrlLib DemoClient DemoClientLaws demo_hosts dns style_url). vm_compute. reflexivity.
Defined.
End DemoPolicy.
