(* ===== verification/FileSource.v ===== *)
(** * The renderer's file source: responses and caches

    Models the pure parts of [crates/mmpf-mln-filesource]: the mapping of HTTP answers
    to MapLibre responses with their freshness ([source/response.rs]), the shared
    resource cache ([source/cache.rs]), retry timing ([source/retry.rs]), the pieces of
    one fetch attempt between its waits ([source.rs]) and the bounded reader of
    [http.rs]. FileSourceTasks runs these pieces as concurrent requests.

    MapLibre's request and response are structs with the fields the code reads and
    writes; a constructor sets the field it is named after and leaves the others at
    their defaults. Times are nanoseconds; every reading of the system clock is an
    argument. HTTP dates and the standard hasher are the class [FsExternals]. Metrics
    are left out. *)

From S2P Require Import Prelude StdModel Types TilesetSources ChunkStore HttpMessage Text Config CacheControl ResourcePolicy.

(** ** MapLibre's data *)

Inductive ResourceKind := KUnknown | KStyle | KSource | KTile | KGlyphs | KSpriteImage | KSpriteJSON | KImage.
Inductive Priority := PriorityRegular | PriorityLow.
Inductive StoragePolicy := Permanent | Volatile.
Inductive ErrorReason := ReasonNotFound | ReasonServer | ReasonConnection | ReasonRateLimit | ReasonOther.
#[export] Instance ResourceKind_eq_dec : EqDecision ResourceKind.
Proof. solve_decision. Defined.
#[export] Instance Priority_eq_dec : EqDecision Priority.
Proof. solve_decision. Defined.
#[export] Instance StoragePolicy_eq_dec : EqDecision StoragePolicy.
Proof. solve_decision. Defined.
#[export] Instance ErrorReason_eq_dec : EqDecision ErrorReason.
Proof. solve_decision. Defined.

Record FsError := { fe_reason : ErrorReason; fe_message : string; fe_retry_after : option Z }.
Record FsResponse := {
  rs_data : option bytes;
  rs_error : option FsError;
  rs_no_content : bool;
  rs_not_modified : bool;
  rs_etag : option string;
  rs_modified : option Z;
  rs_expires : option Z;
  rs_must_revalidate : bool }.

Definition Response_default : FsResponse :=
  {| rs_data := None; rs_error := None; rs_no_content := false; rs_not_modified := false; rs_etag := None;
     rs_modified := None; rs_expires := None; rs_must_revalidate := false |}.
Definition Response_data (body : bytes) : FsResponse :=
  {| rs_data := Some body; rs_error := None; rs_no_content := false; rs_not_modified := false; rs_etag := None;
     rs_modified := None; rs_expires := None; rs_must_revalidate := false |}.
Definition Response_error (reason : ErrorReason) (message : string) : FsResponse :=
  {| rs_data := None; rs_error := Some {| fe_reason := reason; fe_message := message; fe_retry_after := None |};
     rs_no_content := false; rs_not_modified := false; rs_etag := None; rs_modified := None; rs_expires := None;
     rs_must_revalidate := false |}.
Definition set_no_content (b : bool) (r : FsResponse) : FsResponse :=
  {| rs_data := rs_data r; rs_error := rs_error r; rs_no_content := b; rs_not_modified := rs_not_modified r;
     rs_etag := rs_etag r; rs_modified := rs_modified r; rs_expires := rs_expires r; rs_must_revalidate := rs_must_revalidate r |}.
Definition set_not_modified (b : bool) (r : FsResponse) : FsResponse :=
  {| rs_data := rs_data r; rs_error := rs_error r; rs_no_content := rs_no_content r; rs_not_modified := b;
     rs_etag := rs_etag r; rs_modified := rs_modified r; rs_expires := rs_expires r; rs_must_revalidate := rs_must_revalidate r |}.
Definition set_data (d : option bytes) (r : FsResponse) : FsResponse :=
  {| rs_data := d; rs_error := rs_error r; rs_no_content := rs_no_content r; rs_not_modified := rs_not_modified r;
     rs_etag := rs_etag r; rs_modified := rs_modified r; rs_expires := rs_expires r; rs_must_revalidate := rs_must_revalidate r |}.
Definition with_etag (etag : string) (r : FsResponse) : FsResponse :=
  {| rs_data := rs_data r; rs_error := rs_error r; rs_no_content := rs_no_content r; rs_not_modified := rs_not_modified r;
     rs_etag := Some etag; rs_modified := rs_modified r; rs_expires := rs_expires r; rs_must_revalidate := rs_must_revalidate r |}.
Definition with_modified (t : Z) (r : FsResponse) : FsResponse :=
  {| rs_data := rs_data r; rs_error := rs_error r; rs_no_content := rs_no_content r; rs_not_modified := rs_not_modified r;
     rs_etag := rs_etag r; rs_modified := Some t; rs_expires := rs_expires r; rs_must_revalidate := rs_must_revalidate r |}.
Definition set_expires (t : option Z) (r : FsResponse) : FsResponse :=
  {| rs_data := rs_data r; rs_error := rs_error r; rs_no_content := rs_no_content r; rs_not_modified := rs_not_modified r;
     rs_etag := rs_etag r; rs_modified := rs_modified r; rs_expires := t; rs_must_revalidate := rs_must_revalidate r |}.
Definition with_expires (t : Z) (r : FsResponse) : FsResponse := set_expires (Some t) r.
Definition with_must_revalidate (b : bool) (r : FsResponse) : FsResponse :=
  {| rs_data := rs_data r; rs_error := rs_error r; rs_no_content := rs_no_content r; rs_not_modified := rs_not_modified r;
     rs_etag := rs_etag r; rs_modified := rs_modified r; rs_expires := rs_expires r; rs_must_revalidate := b |}.
Definition with_retry_after (t : Z) (r : FsResponse) : FsResponse :=
  {| rs_data := rs_data r;
     rs_error := (fun e => {| fe_reason := fe_reason e; fe_message := fe_message e; fe_retry_after := Some t |}) <$> rs_error r;
     rs_no_content := rs_no_content r; rs_not_modified := rs_not_modified r;
     rs_etag := rs_etag r; rs_modified := rs_modified r; rs_expires := rs_expires r; rs_must_revalidate := rs_must_revalidate r |}.
Definition Response_no_content : FsResponse := set_no_content true Response_default.
Definition Response_not_modified : FsResponse := set_not_modified true Response_default.

(** The tile of a request: URL template, pixel ratio, x, y and z. *)
Record ResourceTileKey := { rt_url_template : string; rt_pixel_ratio : Z; rt_x : Z; rt_y : Z; rt_z : Z }.
#[export] Instance ResourceTileKey_eq_dec : EqDecision ResourceTileKey.
Proof. solve_decision. Defined.
#[export] Instance ResourceTileKey_countable : Countable ResourceTileKey.
Proof.
  apply (inj_countable' (fun t => (rt_url_template t, rt_pixel_ratio t, rt_x t, rt_y t, rt_z t))
    (fun '(u, p, x, y, z) => {| rt_url_template := u; rt_pixel_ratio := p; rt_x := x; rt_y := y; rt_z := z |})).
  by intros [].
Defined.

Record ResourceRequest := {
  rq_url : string;
  rq_kind : ResourceKind;
  rq_priority : Priority;
  rq_storage_policy : StoragePolicy;
  (** [loading_methods.has_cache()] and [has_network()] *)
  rq_has_cache : bool;
  rq_has_network : bool;
  rq_data_range : option (Z * Z);
  rq_tile : option ResourceTileKey;
  rq_prior_data : option bytes;
  rq_prior_etag : option string;
  rq_prior_modified : option Z;
  rq_prior_expires : option Z;
  rq_minimum_update_interval : Z }.

(** ** Constants *)

Definition REQUEST_TIMEOUT : Z := from_secs 15.
Definition RETRY_BACKOFF : list Z := [from_millis 100; from_millis 300; from_secs 1; from_secs 3; from_secs 10].
Definition MAX_RETRY_DELAY : Z := from_secs 30.
Definition RETRY_WINDOW : Z := from_secs 600.
Definition DEFAULT_REGULAR_PERMITS : Z := 64.
Definition LOW_PRIORITY_PERMITS : Z := 8.
Definition DEFAULT_BODY_PERMITS : Z := 24.
Definition BODY_PERMITS_PER_RENDER : Z := 4.
Definition MIB : Z := 1024 * 1024.
Definition NEGATIVE_CACHE_TTL : Z := from_secs 15.
Definition MAX_REFRESH_DEFERRAL : Z := from_secs 300.
Definition SLOW_PROVIDER_ATTEMPT_THRESHOLD : Z := from_secs 1.
Definition REVALIDATED_FALLBACK_TTL : Z := from_secs 60.
Definition HEURISTIC_FRESHNESS_DIVISOR : Z := 10.
Definition MIN_HEURISTIC_FRESHNESS : Z := from_secs 60.
Definition MAX_HEURISTIC_FRESHNESS : Z := from_secs 3600.
Definition DEFAULT_HEURISTIC_FRESHNESS : Z := from_secs 300.

Definition max_resource_bytes (kind : ResourceKind) : Z :=
  if bool_decide (kind = KGlyphs) || bool_decide (kind = KSpriteJSON) || bool_decide (kind = KSource) ||
     bool_decide (kind = KStyle) then 4 * MIB
  else if bool_decide (kind = KTile) || bool_decide (kind = KSpriteImage) || bool_decide (kind = KImage) then 16 * MIB
  else 8 * MIB.

(** *** Permits *)

Record FileSourceIoPermits := { io_regular : Z; io_body : Z }.
Definition FileSourceIoPermits_default : FileSourceIoPermits :=
  {| io_regular := DEFAULT_REGULAR_PERMITS; io_body := DEFAULT_BODY_PERMITS |}.
Definition usize_saturating_mul (a b : Z) : Z := Z.min usize_max (a * b).
Definition for_render_permits (render_permits : Z) : FileSourceIoPermits :=
  let body := Z.max (usize_saturating_mul render_permits BODY_PERMITS_PER_RENDER) DEFAULT_BODY_PERMITS in
  {| io_regular := Z.max (usize_saturating_mul body 2) DEFAULT_REGULAR_PERMITS; io_body := body |}.
Definition clamped (self : FileSourceIoPermits) : FileSourceIoPermits :=
  {| io_regular := Z.max (Z.max (io_regular self) (io_body self)) 1; io_body := Z.max (io_body self) 1 |}.

(** ** Keys *)

Definition kind_label (kind : ResourceKind) : string :=
  if bool_decide (kind = KStyle) then "style"
  else if bool_decide (kind = KSource) then "source"
  else if bool_decide (kind = KTile) then "tile"
  else if bool_decide (kind = KGlyphs) then "glyphs"
  else if bool_decide (kind = KSpriteImage) then "sprite_image"
  else if bool_decide (kind = KSpriteJSON) then "sprite_json"
  else if bool_decide (kind = KImage) then "image"
  else "other".
Definition priority_label (priority : Priority) : string :=
  if bool_decide (priority = PriorityLow) then "low" else "regular".

Record ResourceRequestKey := {
  rk_url : string; rk_kind : string; rk_range : option (Z * Z); rk_tile : option ResourceTileKey }.
#[export] Instance ResourceRequestKey_eq_dec : EqDecision ResourceRequestKey.
Proof. solve_decision. Defined.
#[export] Instance ResourceRequestKey_countable : Countable ResourceRequestKey.
Proof.
  apply (inj_countable' (fun k => (rk_url k, rk_kind k, rk_range k, rk_tile k))
    (fun '(u, k, r, t) => {| rk_url := u; rk_kind := k; rk_range := r; rk_tile := t |})). by intros [].
Defined.
Definition from_request (request : ResourceRequest) : ResourceRequestKey :=
  {| rk_url := rq_url request; rk_kind := kind_label (rq_kind request); rk_range := rq_data_range request;
     rk_tile := rq_tile request |}.

Record FlightRequestSemantics := {
  fs_cache_allowed : bool; fs_prior_etag : option string; fs_prior_modified : option Z; fs_prior_expires : option Z;
  fs_has_prior_data : bool }.
#[export] Instance FlightRequestSemantics_eq_dec : EqDecision FlightRequestSemantics.
Proof. solve_decision. Defined.
Definition semantics_from_request (request : ResourceRequest) : FlightRequestSemantics :=
  {| fs_cache_allowed := rq_has_cache request; fs_prior_etag := rq_prior_etag request;
     fs_prior_modified := rq_prior_modified request; fs_prior_expires := rq_prior_expires request;
     fs_has_prior_data := bool_decide (rq_prior_data request <> None) |}.
Record FlightKey := {
  fk_resource : ResourceRequestKey; fk_persistent : bool; fk_priority : string; fk_semantics : FlightRequestSemantics }.
#[export] Instance FlightKey_eq_dec : EqDecision FlightKey.
Proof. solve_decision. Defined.
#[export] Instance FlightKey_countable : Countable FlightKey.
Proof.
  apply (inj_countable'
    (fun k => (fk_resource k, fk_persistent k, fk_priority k,
               (fs_cache_allowed (fk_semantics k), fs_prior_etag (fk_semantics k), fs_prior_modified (fk_semantics k),
                fs_prior_expires (fk_semantics k), fs_has_prior_data (fk_semantics k))))
    (fun '(r, p, l, (c, e, m, x, d)) =>
       {| fk_resource := r; fk_persistent := p; fk_priority := l;
          fk_semantics := {| fs_cache_allowed := c; fs_prior_etag := e; fs_prior_modified := m; fs_prior_expires := x;
                             fs_has_prior_data := d |} |})).
  by intros [? ? ? []].
Defined.

Definition uses_shared_cache (storage_policy : StoragePolicy) : bool := bool_decide (storage_policy = Permanent).
Definition tracks_provider_health (priority : Priority) : bool := bool_decide (priority <> PriorityLow).
Definition may_consult_shared_cache (storage_policy : StoragePolicy) (cache_loading_allowed : bool) : bool :=
  cache_loading_allowed && uses_shared_cache storage_policy.

(** The key of the flight that [fetch_coalesced] joins. *)
Definition flight_key (request : ResourceRequest) : FlightKey :=
  {| fk_resource := from_request request; fk_persistent := uses_shared_cache (rq_storage_policy request);
     fk_priority := priority_label (rq_priority request); fk_semantics := semantics_from_request request |}.

(** ** Freshness *)

Class FsExternals := {
  fs_parse_http_date : string -> option Z;
  fs_fmt_http_date : Z -> string;
  (** [DefaultHasher] over a URL and a retry index. *)
  retry_hash : string -> Z -> Z }.

(** [SystemTime::duration_since] *)
Definition duration_since (later earlier : Z) : option Z := if earlier <=? later then Some (later - earlier) else None.

Inductive CachePolicy := CacheStore | CacheRemove | CacheUnchanged.
Record RetryDirective := { rd_reason : string; rd_delay : option Z }.

(** The validators and the body that a revalidation starts from. *)
Record PriorResponse := {
  pr_data : option bytes; pr_etag : option string; pr_modified : option Z; pr_expires : option Z;
  pr_must_revalidate : bool }.
Definition PriorResponse_default : PriorResponse :=
  {| pr_data := None; pr_etag := None; pr_modified := None; pr_expires := None; pr_must_revalidate := false |}.

Definition prior_response_with_cache (request : ResourceRequest) (cached : option FsResponse) : PriorResponse :=
  {| pr_data := or_else (rq_prior_data request) (cached ≫= rs_data);
     pr_etag := or_else (rq_prior_etag request) (cached ≫= rs_etag);
     pr_modified := or_else (rq_prior_modified request) (cached ≫= rs_modified);
     pr_expires := or_else (rq_prior_expires request) (cached ≫= rs_expires);
     pr_must_revalidate := match cached with Some response => rs_must_revalidate response | None => false end |}.

Abbreviation Headers := (list (string * string)).
Definition RETRY_AFTER_HEADER : string := "retry-after".
Definition EXPIRES_HEADER : string := "expires".

Definition parsed_cache_control (headers : Headers) : option ParsedCacheControl :=
  parse_values (header_texts CACHE_CONTROL_HEADER headers).
Definition shared_max_age (control : option ParsedCacheControl) : option Z :=
  from_secs <$> (control ≫= fun control => or_else (s_maxage control) (max_age control)).
Definition control_has (f : ParsedCacheControl -> bool) (control : option ParsedCacheControl) : bool :=
  match control with Some control => f control | None => false end.

Definition cache_policy_for_response (storage_policy : StoragePolicy) (headers : Headers) : CachePolicy :=
  let control := parsed_cache_control headers in
  if negb (bool_decide (storage_policy = Permanent)) then CacheUnchanged
  else if control_has (fun control => no_store control || private control) control then CacheRemove
  else CacheStore.

Section Freshness.
Context `{FsExternals}.

Definition header_date (headers : Headers) (name : string) : option Z := header_value headers name ≫= fs_parse_http_date.

Definition response_current_age (now : Z) (headers : Headers) : Z :=
  let age := default 0 (from_secs <$> (header_value headers AGE_HEADER ≫= fun age => parse_uint u64_max (trim age))) in
  let apparent_age := default 0 (header_date headers DATE_HEADER ≫= duration_since now) in
  Z.max age apparent_age.

Definition parse_retry_after (now : Z) (value : string) : option Z :=
  or_else (parse_uint u64_max (trim value) ≫= fun seconds => instant_checked_add now (from_secs seconds))
    (fs_parse_http_date (trim value)).
Definition duration_until (now deadline : Z) : option Z := duration_since deadline now.

(** [now], [now']: the readings of the retry date and of the remaining delay. *)
Definition retry_directive (now now' : Z) (status : Z) (headers : Headers) : option RetryDirective :=
  if status =? 408 then Some {| rd_reason := "request_timeout"; rd_delay := None |}
  else if status =? 429 then
    Some {| rd_reason := "rate_limit";
            rd_delay := (header_value headers RETRY_AFTER_HEADER ≫= parse_retry_after now) ≫= duration_until now' |}
  else if (500 <=? status) && (status <=? 599) then Some {| rd_reason := "server"; rd_delay := None |}
  else None.

Definition negative_cache_ttl (now : Z) (status : Z) (kind : ResourceKind) (storage_policy : StoragePolicy)
    (headers : Headers) (maximum : Z) : option Z :=
  let control := parsed_cache_control headers in
  if negb ((status =? 404) || (status =? 410)) || negb (bool_decide (storage_policy = Permanent)) ||
     control_has (fun control => no_store control || private control || no_cache control) control
  then None else
  let explicit := or_else ((fun freshness => saturating_sub freshness (response_current_age now headers)) <$> shared_max_age control)
                    (header_date headers EXPIRES_HEADER ≫= fun expires => duration_since expires now) in
  let ttl := match explicit with
             | Some freshness => Some (Z.min freshness maximum)
             | None => if bool_decide (kind = KTile) then Some maximum else None
             end in
  match ttl with Some ttl => if ttl =? 0 then None else Some ttl | None => None end.

Definition heuristic_expires (headers : Headers) (now : Z) : option Z :=
  let ttl := default DEFAULT_HEURISTIC_FRESHNESS
    ((fun age => Z.max MIN_HEURISTIC_FRESHNESS (Z.min MAX_HEURISTIC_FRESHNESS (age / HEURISTIC_FRESHNESS_DIVISOR))) <$>
       (header_date headers LAST_MODIFIED_HEADER ≫= duration_since now)) in
  instant_checked_add now ttl.

(** A response may be used only after it was confirmed. *)
Definition requires_validation (control : option ParsedCacheControl) (prior : PriorResponse) : bool :=
  match control with
  | Some control => no_cache control || must_revalidate control || bool_decide (s_maxage control <> None)
  | None => pr_must_revalidate prior
  end.
Definition is_no_cache (control : option ParsedCacheControl) (prior : PriorResponse) : bool :=
  control_has no_cache control ||
  (bool_decide (control = None) && pr_must_revalidate prior && bool_decide (pr_expires prior = Some 0)).
(** The expiry a confirmed response keeps when the answer states none. *)
Definition inherited_expires (now : Z) (prior : PriorResponse) : option Z :=
  match pr_expires prior with
  | Some expires =>
      if bool_decide (pr_data prior <> None) && (expires <=? now) then instant_checked_add now REVALIDATED_FALLBACK_TTL
      else Some expires
  | None => None
  end.
(** [now']: the reading for the age of the answer. *)
Definition computed_expires (now now' : Z) (headers : Headers) (prior : PriorResponse) : option Z :=
  let control := parsed_cache_control headers in
  if requires_validation control prior && is_no_cache control prior then Some 0
  else or_else (((fun max_age => saturating_sub max_age (response_current_age now' headers)) <$> shared_max_age control) ≫=
                  instant_checked_add now)
      (or_else (header_date headers EXPIRES_HEADER)
      (or_else (inherited_expires now prior)
         (if requires_validation control prior then None else heuristic_expires headers now))).

Definition with_cache_metadata (now now' : Z) (response : FsResponse) (headers : Headers) (prior : PriorResponse) : FsResponse :=
  let response := match or_else (header_value headers ETAG_HEADER) (pr_etag prior) with
                  | Some etag => with_etag etag response | None => response end in
  let response := match or_else (header_date headers LAST_MODIFIED_HEADER) (pr_modified prior) with
                  | Some modified => with_modified modified response | None => response end in
  let response := match computed_expires now now' headers prior with
                  | Some expires => with_expires expires response | None => response end in
  if requires_validation (parsed_cache_control headers) prior then with_must_revalidate true response else response.

Definition http_status_message (status : Z) : string := "HTTP " +:+ decimal status.

Definition response_from_http (now now' : Z) (status : Z) (headers : Headers) (body : bytes) (kind : ResourceKind)
    (prior : PriorResponse) : FsResponse :=
  if (status =? 200) || (status =? 206) then with_cache_metadata now now' (Response_data body) headers PriorResponse_default
  else if status =? 204 then Response_no_content
  else if status =? 304 then with_cache_metadata now now' Response_not_modified headers prior
  else if (status =? 404) || (status =? 410) then
    if bool_decide (kind = KTile) then Response_no_content else Response_error ReasonNotFound (http_status_message status)
  else if status =? 429 then
    let response := Response_error ReasonRateLimit "HTTP 429" in
    match header_value headers RETRY_AFTER_HEADER ≫= parse_retry_after now with
    | Some retry_after => with_retry_after retry_after response
    | None => response
    end
  else if (500 <=? status) && (status <=? 599) then Response_error ReasonServer (http_status_message status)
  else Response_error ReasonOther (http_status_message status).
End Freshness.

Definition materialize_not_modified (response : FsResponse) (prior : PriorResponse) : option FsResponse :=
  data ← pr_data prior; Some (set_data (Some data) (set_not_modified false response)).

(** *** Errors of the client *)

Record ReqwestError := { re_timeout : bool; re_connect : bool; re_redirect : bool; re_body : bool; re_decode : bool }.
Definition reqwest_error_label (error : ReqwestError) : string :=
  if re_timeout error then "timeout"
  else if re_connect error then "connect"
  else if re_redirect error then "redirect"
  else if re_body error then "body"
  else if re_decode error then "decode"
  else "request".
Definition reqwest_error_message (error : ReqwestError) : string :=
  let label := reqwest_error_label error in
  if String.eqb label "timeout" then "resource request timed out"
  else if String.eqb label "connect" then "resource connection failed"
  else if String.eqb label "redirect" then "resource redirect failed"
  else if String.eqb label "body" || String.eqb label "decode" then "resource response body failed"
  else "resource request failed".
Definition response_from_reqwest_error (error : ReqwestError) : FsResponse :=
  Response_error ReasonConnection (reqwest_error_message error).
Definition request_timeout_response : FsResponse := Response_error ReasonConnection "resource request timed out".

(** ** The resource cache *)

Abbreviation ResourceCache := (gmap ResourceRequestKey FsResponse).

Definition fresh_until (now : Z) (key : ResourceRequestKey) (cache : ResourceCache) : option Z :=
  response ← cache !! key; expires ← rs_expires response; if now <? expires then Some expires else None.

Inductive CacheLookup := LookupHit (response : FsResponse) | LookupRevalidate (response : FsResponse) | LookupMiss.
Definition lookup (now : Z) (key : ResourceRequestKey) (cache : ResourceCache) : CacheLookup :=
  match cache !! key with
  | None => LookupMiss
  | Some response =>
      let expired := match rs_expires response with Some expires => expires <=? now | None => false end in
      if expired || (rs_must_revalidate response && bool_decide (rs_expires response = None))
      then LookupRevalidate response else LookupHit response
  end.

Definition is_cacheable_response (response : FsResponse) : bool :=
  bool_decide (rs_error response = None) && negb (rs_no_content response) && negb (rs_not_modified response) &&
  bool_decide (rs_data response <> None).
Definition store (key : ResourceRequestKey) (response : FsResponse) (cache : ResourceCache) : ResourceCache :=
  if is_cacheable_response response then <[key := response]> cache else cache.

Definition cache_miss : FsResponse := set_no_content true (Response_error ReasonNotFound "resource cache miss").

(** [DatabaseFileSource]. *)
Definition database_can_request (request : ResourceRequest) : bool :=
  rq_has_cache request && negb (bool_decide (strip_prefix "asset://" (rq_url request) <> None)) &&
  negb (bool_decide (strip_prefix "file://" (rq_url request) <> None)).
Definition database_request (now : Z) (request : ResourceRequest) (cache : ResourceCache) : FsResponse :=
  if negb (bool_decide (rq_storage_policy request = Permanent)) then cache_miss else
  match lookup now (from_request request) cache with
  | LookupHit response => response
  | LookupRevalidate response => with_must_revalidate true response
  | LookupMiss => cache_miss
  end.

(** [can_request] of the network source. *)
Definition network_can_request `{UrlLib} (policy : ResourceUrlPolicy) (request : ResourceRequest) : bool :=
  rq_has_network request &&
  match Url_parse (rq_url request) with Some url => permits_url_without_dns policy url | None => false end.

(** ** One attempt *)

Record FetchAttempt := {
  fa_response : FsResponse; fa_retry : option RetryDirective; fa_negative_cache_ttl : option Z;
  fa_cache_policy : CachePolicy; fa_cache_response : option FsResponse }.
Definition FetchAttempt_done (response : FsResponse) : FetchAttempt :=
  {| fa_response := response; fa_retry := None; fa_negative_cache_ttl := None; fa_cache_policy := CacheUnchanged;
     fa_cache_response := None |}.
Definition done_with_cache (response : FsResponse) (cache_policy : CachePolicy) : FetchAttempt :=
  {| fa_response := response; fa_retry := None; fa_negative_cache_ttl := None; fa_cache_policy := cache_policy;
     fa_cache_response := None |}.
Definition done_with_cache_response (response : FsResponse) (cache_policy : CachePolicy) (cache_response : FsResponse)
    : FetchAttempt :=
  {| fa_response := response; fa_retry := None; fa_negative_cache_ttl := None; fa_cache_policy := cache_policy;
     fa_cache_response := Some cache_response |}.
Definition retryable (response : FsResponse) (reason : string) (delay : option Z) : FetchAttempt :=
  {| fa_response := response; fa_retry := Some {| rd_reason := reason; rd_delay := delay |};
     fa_negative_cache_ttl := None; fa_cache_policy := CacheUnchanged; fa_cache_response := None |}.

Inductive ConditionalValidator := ValidatorEtag (etag : string) | ValidatorModified (modified : Z).
Definition conditional_validator (prior : PriorResponse) : option ConditionalValidator :=
  or_else (ValidatorEtag <$> pr_etag prior) (ValidatorModified <$> pr_modified prior).

Definition RANGE_HEADER : string := "range".
Definition too_large (length : Z) : FetchAttempt :=
  FetchAttempt_done (Response_error ReasonOther ("resource body too large: " +:+ decimal length +:+ " bytes")).
Definition exceeds (max_resource_bytes : Z) : FetchAttempt :=
  FetchAttempt_done (Response_error ReasonOther ("resource body exceeds " +:+ decimal max_resource_bytes +:+ " bytes")).

Section Attempt.
Context `{FsExternals}.

(** The headers of the request. *)
Definition request_headers (request : ResourceRequest) (prior : PriorResponse) : Headers :=
  match rq_data_range request with
  | Some (first, last) => [(RANGE_HEADER, "bytes=" +:+ decimal first +:+ "-" +:+ decimal last)]
  | None => []
  end ++
  match conditional_validator prior with
  | Some (ValidatorEtag etag) => [(IF_NONE_MATCH_HEADER, etag)]
  | Some (ValidatorModified modified) => [(IF_MODIFIED_SINCE_HEADER, fs_fmt_http_date modified)]
  | None => []
  end.

Definition not_modified_attempt (now now' : Z) (kind : ResourceKind) (storage_policy : StoragePolicy) (headers : Headers)
    (prior : PriorResponse) : FetchAttempt :=
  let not_modified := response_from_http now now' 304 headers [] kind prior in
  match materialize_not_modified not_modified prior with
  | None =>
      if bool_decide (pr_etag prior <> None) || bool_decide (pr_modified prior <> None)
      then FetchAttempt_done not_modified
      else FetchAttempt_done (Response_error ReasonOther "HTTP 304 received without a prior validator")
  | Some materialized =>
      done_with_cache_response not_modified (cache_policy_for_response storage_policy headers) materialized
  end.

(** What follows the status and headers of an answer: the attempt ends, or the body is
    read. [sys]: the readings of the system clock. *)
Definition answer_attempt (sys : nat -> Z) (request : ResourceRequest) (prior : PriorResponse) (status : Z)
    (headers : Headers) (content_length : option Z) : option FetchAttempt :=
  let kind := rq_kind request in
  if status =? 304 then Some (not_modified_attempt (sys 0%nat) (sys 1%nat) kind (rq_storage_policy request) headers prior)
  else if negb (status =? 200) && negb (status =? 206) then
    let mapped := response_from_http (sys 0%nat) (sys 1%nat) status headers [] kind prior in
    match retry_directive (sys 2%nat) (sys 3%nat) status headers with
    | Some retry =>
        Some {| fa_response := mapped; fa_retry := Some retry; fa_negative_cache_ttl := None;
                fa_cache_policy := CacheUnchanged; fa_cache_response := None |}
    | None =>
        Some {| fa_response := mapped; fa_retry := None;
                fa_negative_cache_ttl := negative_cache_ttl (sys 2%nat) status kind (rq_storage_policy request) headers
                                           NEGATIVE_CACHE_TTL;
                fa_cache_policy := CacheUnchanged; fa_cache_response := None |}
    end
  else match content_length with
       | Some length => if length >? max_resource_bytes kind then Some (too_large length) else None
       | None => None
       end.

(** A chunk of the body: the attempt ends, or the body grows. *)
Definition chunk_attempt (kind : ResourceKind) (body chunk : bytes) : FetchAttempt + bytes :=
  match checked_add (Z.of_nat (length body)) (Z.of_nat (length chunk)) with
  | None => inl (FetchAttempt_done (Response_error ReasonOther "resource body too large"))
  | Some new_len =>
      if new_len >? max_resource_bytes kind then inl (exceeds (max_resource_bytes kind)) else inr (body ++ chunk)
  end.

(** The end of the body. *)
Definition body_attempt (sys : nat -> Z) (request : ResourceRequest) (status : Z) (headers : Headers) (body : bytes)
    : FetchAttempt :=
  done_with_cache (response_from_http (sys 0%nat) (sys 1%nat) status headers body (rq_kind request) PriorResponse_default)
    (cache_policy_for_response (rq_storage_policy request) headers).

Definition transport_attempt (error : ReqwestError) : FetchAttempt :=
  retryable (response_from_reqwest_error error) "transport" None.
Definition timeout_attempt : FetchAttempt := retryable request_timeout_response "timeout" None.

(** *** Retries *)

Definition retry_delay (url : string) (retry_index : nat) : Z :=
  let base := default 0 (RETRY_BACKOFF !! Nat.min retry_index (length RETRY_BACKOFF - 1)) in
  base + from_millis (retry_hash url (Z.of_nat retry_index) mod 50).
Definition attempt_delay (request : ResourceRequest) (retry : RetryDirective) (attempt_index : nat) : Z :=
  Z.min (default (retry_delay (rq_url request) attempt_index) (rd_delay retry)) MAX_RETRY_DELAY.
(** The retry sequence is over: the next attempt would start outside the window. *)
Definition window_exceeded (elapsed delay : Z) : bool := duration_saturating_add elapsed delay >? RETRY_WINDOW.
End Attempt.

Definition finish_fetch (resource_key : ResourceRequestKey) (attempt : FetchAttempt) (cache : ResourceCache)
    : FsResponse * ResourceCache :=
  (fa_response attempt,
   match fa_cache_policy attempt with
   | CacheStore => store resource_key (default (fa_response attempt) (fa_cache_response attempt)) cache
   | CacheRemove => delete resource_key cache
   | CacheUnchanged => cache
   end).

(** *** Deferred refreshes *)

Record RefreshDeferral := { df_wait : Z; df_capped : bool }.
Definition refresh_deferral (now expires minimum_update_interval : Z) : RefreshDeferral :=
  let requested := Z.max (default 0 (duration_since expires now)) minimum_update_interval in
  {| df_wait := Z.min requested MAX_REFRESH_DEFERRAL; df_capped := requested >? MAX_REFRESH_DEFERRAL |}.
Definition complete_deferred_refresh (deferral : RefreshDeferral) (current_expires : option Z) : option FsResponse :=
  if negb (df_capped deferral) && bool_decide (current_expires = None) then None
  else Some (set_expires current_expires Response_not_modified).

(** *** [http.rs]: bodies of style and TileJSON fetches *)

Inductive BodyReadError := ReadTimeout | ReadTransport (label : string) | ReadTooLarge (limit : Z).
(** What a wait for a chunk gave before the deadline: nothing, an error, a chunk, the end. *)
Inductive ChunkRead := ChunkTimeout | ChunkError (error : ReqwestError) | ChunkData (chunk : bytes) | ChunkEnd.
Fixpoint read_loop (limit : Z) (body : bytes) (reads : list ChunkRead) : option (Res BodyReadError bytes) :=
  match reads with
  | [] => None
  | ChunkTimeout :: _ => Some (Err ReadTimeout)
  | ChunkError error :: _ => Some (Err (ReadTransport (reqwest_error_label error)))
  | ChunkEnd :: _ => Some (Ok body)
  | ChunkData chunk :: reads =>
      match checked_add (Z.of_nat (length body)) (Z.of_nat (length chunk)) with
      | None => Some (Err (ReadTooLarge limit))
      | Some new_len => if new_len >? limit then Some (Err (ReadTooLarge limit)) else read_loop limit (body ++ chunk) reads
      end
  end.
(** [None]: the reads end before the body does. *)
Definition read_bounded_response (content_length : option Z) (limit : Z) (reads : list ChunkRead)
    : option (Res BodyReadError bytes) :=
  match content_length with
  | Some length => if length >? limit then Some (Err (ReadTooLarge limit)) else read_loop limit [] reads
  | None => read_loop limit [] reads
  end.

(** ** A fetch without its waits *)

(** What an origin does with one request. *)
Inductive OriginAnswer :=
  | AnswerError (error : ReqwestError)
  | AnswerTimeout
  | AnswerResponse (status : Z) (headers : Headers) (content_length : option Z) (reads : list ChunkRead).

Section Script.
Context `{FsExternals}.

Fixpoint read_body (sys : nat -> Z) (request : ResourceRequest) (status : Z) (headers : Headers) (body : bytes)
    (reads : list ChunkRead) : option FetchAttempt :=
  match reads with
  | [] => None
  | ChunkTimeout :: _ => Some timeout_attempt
  | ChunkError error :: _ => Some (transport_attempt error)
  | ChunkEnd :: _ => Some (body_attempt sys request status headers body)
  | ChunkData chunk :: reads =>
      match chunk_attempt (rq_kind request) body chunk with
      | inl attempt => Some attempt
      | inr body => read_body sys request status headers body reads
      end
  end.

(** [fetch_once_inner], with the cache entry it finds. *)
Definition fetch_once_inner (sys : nat -> Z) (request : ResourceRequest) (entry : option FsResponse)
    (origin : string -> Headers -> OriginAnswer) : option FetchAttempt :=
  let cached := if may_consult_shared_cache (rq_storage_policy request) (rq_has_cache request) then entry else None in
  let prior := prior_response_with_cache request cached in
  match origin (rq_url request) (request_headers request prior) with
  | AnswerError error => Some (transport_attempt error)
  | AnswerTimeout => Some timeout_attempt
  | AnswerResponse status headers content_length reads =>
      match answer_attempt sys request prior status headers content_length with
      | Some attempt => Some attempt
      | None => read_body sys request status headers [] reads
      end
  end.

(** What the surroundings contribute to an attempt: clock readings, the cache entry, the
    origin, and the time since the first attempt when it ended. *)
Record AttemptWorld := {
  aw_sys : nat -> Z; aw_entry : option FsResponse; aw_origin : string -> Headers -> OriginAnswer; aw_elapsed : Z }.

(** The last attempt of [fetch_with_retries]; [None]: the surroundings end before. *)
Fixpoint fetch_with_retries (request : ResourceRequest) (attempt_index : nat) (worlds : list AttemptWorld) : option FetchAttempt :=
  match worlds with
  | [] => None
  | world :: worlds =>
      attempt ← fetch_once_inner (aw_sys world) request (aw_entry world) (aw_origin world);
      match fa_retry attempt with
      | None => Some attempt
      | Some retry =>
          if window_exceeded (aw_elapsed world) (attempt_delay request retry attempt_index) then Some attempt
          else fetch_with_retries request (S attempt_index) worlds
      end
  end.
End Script.

(** ** Freshness of what is stored *)

Section FreshnessFacts.
Context `{FsExternals}.

Lemma or_else_None {A} (a b : option A) : or_else a b = None <-> a = None /\ b = None.
Proof. destruct a; cbn; naive_solver. Qed.

Lemma heuristic_bounds headers now :
  now + MAX_HEURISTIC_FRESHNESS <= INSTANT_MAX ->
  exists expires, heuristic_expires headers now = Some expires /\
    now + MIN_HEURISTIC_FRESHNESS <= expires <= now + MAX_HEURISTIC_FRESHNESS.
Proof.
  intros Hnow. unfold heuristic_expires, instant_checked_add.
  assert (Hd : MIN_HEURISTIC_FRESHNESS <= DEFAULT_HEURISTIC_FRESHNESS <= MAX_HEURISTIC_FRESHNESS) by (split; vm_compute; discriminate).
  assert (Hm : MIN_HEURISTIC_FRESHNESS <= MAX_HEURISTIC_FRESHNESS) by lia.
  destruct (header_date headers LAST_MODIFIED_HEADER ≫= duration_since now) as [age|]; cbn [fmap option_fmap option_map default from_option id].
  all: rewrite (proj2 (Z.leb_le _ _)) by lia; eexists; split; [done|]; lia.
Qed.

(** Without an expiry a response has to be confirmed on every use. *)
Lemma no_expiry_validated now now' headers prior :
  now + MAX_HEURISTIC_FRESHNESS <= INSTANT_MAX -> computed_expires now now' headers prior = None ->
  requires_validation (parsed_cache_control headers) prior = true.
Proof.
  intros Hnow. unfold computed_expires. destruct (requires_validation _ _); [done|]. cbn [andb].
  rewrite !or_else_None. intros (_ & _ & _ & Hh). destruct (heuristic_bounds headers now Hnow) as (e & He & _). congruence.
Qed.

Lemma with_cache_metadata_fields now now' r headers prior :
  let r' := with_cache_metadata now now' r headers prior in
  rs_data r' = rs_data r /\ rs_error r' = rs_error r /\ rs_no_content r' = rs_no_content r /\
  rs_not_modified r' = rs_not_modified r /\
  rs_etag r' = or_else (or_else (header_value headers ETAG_HEADER) (pr_etag prior)) (rs_etag r) /\
  rs_expires r' = or_else (computed_expires now now' headers prior) (rs_expires r) /\
  rs_must_revalidate r' = requires_validation (parsed_cache_control headers) prior || rs_must_revalidate r.
Proof.
  cbn zeta. unfold with_cache_metadata. destruct (or_else _ (pr_etag prior)), (or_else _ (pr_modified prior)), (computed_expires _ _ _ _),
    (requires_validation _ _); by cbn.
Qed.

(** A hit of the shared cache is fresh: a response made at [now] is used without
    confirmation only before the expiry it was given. *)
Lemma hit_unexpired now now' headers prior key cache t entry response :
  now + MAX_HEURISTIC_FRESHNESS <= INSTANT_MAX -> cache !! key = Some entry ->
  rs_expires entry = computed_expires now now' headers prior ->
  rs_must_revalidate entry = requires_validation (parsed_cache_control headers) prior ->
  lookup t key cache = LookupHit response ->
  response = entry /\ exists expires, computed_expires now now' headers prior = Some expires /\ t < expires.
Proof.
  intros Hnow Hk He Hm. unfold lookup. rewrite Hk, He, Hm.
  destruct (computed_expires now now' headers prior) as [expires|] eqn:Hc.
  - destruct (Z.leb_spec expires t); [done|]. cbn [orb]. rewrite bool_decide_eq_false_2, andb_false_r by done.
    intros [= <-]. split; [done|]. exists expires. split; [done|lia].
  - apply no_expiry_validated in Hc; [|done]. rewrite Hc. done.
Qed.

(** A response that must not be reused unconfirmed never is. *)
Lemma no_cache_revalidates now now' r headers prior key cache t response :
  control_has no_cache (parsed_cache_control headers) = true -> 0 <= t ->
  cache !! key = Some (with_cache_metadata now now' r headers prior) -> lookup t key cache <> LookupHit response.
Proof.
  intros Hn Ht Hk. unfold lookup. rewrite Hk.
  destruct (with_cache_metadata_fields now now' r headers prior) as (_ & _ & _ & _ & _ & He & Hm). rewrite He.
  assert (Hc : computed_expires now now' headers prior = Some 0).
  { unfold computed_expires, requires_validation, is_no_cache, control_has in *.
    destruct (parsed_cache_control headers) as [control|]; [|done]. by rewrite Hn. }
  rewrite Hc. cbn [or_else]. by rewrite (proj2 (Z.leb_le 0 t)) by lia.
Qed.
End FreshnessFacts.

(** ** Coalescing *)

Section Coalescing.
Context `{FsExternals}.

(** Responses that differ in their body only. *)
Definition same_but_data (r r' : FsResponse) : Prop := set_data None r = set_data None r'.
Definition similar_attempts (a a' : FetchAttempt) : Prop :=
  fa_response a = fa_response a' /\ fa_retry a = fa_retry a' /\ fa_negative_cache_ttl a = fa_negative_cache_ttl a' /\
  fa_cache_policy a = fa_cache_policy a' /\
  option_Forall2 same_but_data (fa_cache_response a) (fa_cache_response a').
Definition similar_prior (p p' : PriorResponse) : Prop :=
  (pr_data p = None <-> pr_data p' = None) /\ pr_etag p = pr_etag p' /\ pr_modified p = pr_modified p' /\
  pr_expires p = pr_expires p' /\ pr_must_revalidate p = pr_must_revalidate p'.

Lemma similar_attempts_refl a : similar_attempts a a.
Proof. split_and!; try done. destruct (fa_cache_response a); by constructor. Qed.

Lemma kind_label_inj k k' : kind_label k = kind_label k' -> k = k'.
Proof. by destruct k, k'. Qed.

(** What the key of a flight fixes of a request. *)
Record alike (r r' : ResourceRequest) : Prop := {
  al_url : rq_url r = rq_url r';
  al_kind : rq_kind r = rq_kind r';
  al_priority : rq_priority r = rq_priority r';
  al_storage : rq_storage_policy r = rq_storage_policy r';
  al_cache : rq_has_cache r = rq_has_cache r';
  al_range : rq_data_range r = rq_data_range r';
  al_etag : rq_prior_etag r = rq_prior_etag r';
  al_modified : rq_prior_modified r = rq_prior_modified r';
  al_expires : rq_prior_expires r = rq_prior_expires r';
  al_data : rq_prior_data r = None <-> rq_prior_data r' = None }.

Lemma flight_key_alike r r' : flight_key r = flight_key r' -> alike r r'.
Proof.
  unfold flight_key, from_request, semantics_from_request. intros Heq. simplify_eq. split; try done.
  - by apply kind_label_inj.
  - by destruct (rq_priority r), (rq_priority r').
  - by destruct (rq_storage_policy r), (rq_storage_policy r').
  - destruct (rq_prior_data r), (rq_prior_data r'); naive_solver.
Qed.

Lemma similar_prior_alike r r' cached :
  alike r r' -> similar_prior (prior_response_with_cache r cached) (prior_response_with_cache r' cached).
Proof.
  intros [Hu Hk Hp Hs Hc Hr He Hm Hx Hd]. unfold prior_response_with_cache. rewrite He, Hm, Hx.
  split_and!; cbn; try done. destruct (rq_prior_data r), (rq_prior_data r'); naive_solver.
Qed.

Lemma similar_headers r r' p p' : alike r r' -> similar_prior p p' -> request_headers r p = request_headers r' p'.
Proof.
  intros Ha (_ & He & Hm & _). unfold request_headers, conditional_validator. by rewrite (al_range _ _ Ha), He, Hm.
Qed.

Lemma similar_metadata now now' r headers p p' :
  similar_prior p p' -> with_cache_metadata now now' r headers p = with_cache_metadata now now' r headers p'.
Proof.
  intros (Hd & He & Hm & Hx & Hv). unfold with_cache_metadata, computed_expires, requires_validation, is_no_cache, inherited_expires.
  rewrite He, Hm, Hx, Hv. by replace (bool_decide (pr_data p <> None)) with (bool_decide (pr_data p' <> None)) by (apply bool_decide_ext; naive_solver).
Qed.

Lemma similar_mapped now now' status headers body kind p p' :
  similar_prior p p' -> response_from_http now now' status headers body kind p = response_from_http now now' status headers body kind p'.
Proof. intros Hp. unfold response_from_http. by rewrite (similar_metadata now now' Response_not_modified headers _ _ Hp). Qed.

Lemma similar_answers sys r r' p p' status headers len :
  alike r r' -> similar_prior p p' ->
  option_Forall2 similar_attempts (answer_attempt sys r p status headers len) (answer_attempt sys r' p' status headers len).
Proof.
  intros Ha Hp. unfold answer_attempt. rewrite (al_kind _ _ Ha), (al_storage _ _ Ha).
  destruct (status =? 304).
  { constructor. unfold not_modified_attempt. rewrite (similar_mapped _ _ _ _ _ _ _ _ Hp).
    destruct Hp as (Hd & He & Hm & _). rewrite He, Hm. unfold materialize_not_modified.
    destruct (pr_data p), (pr_data p'); try naive_solver; cbn; [|by apply similar_attempts_refl].
    split_and!; try done. by repeat constructor. }
  rewrite (similar_mapped _ _ _ _ _ _ _ _ Hp). destruct (negb (status =? 200) && _).
  - destruct (retry_directive _ _ _ _); constructor; apply similar_attempts_refl.
  - destruct len as [len|]; [|constructor]. destruct (len >? _); constructor. apply similar_attempts_refl.
Qed.

Lemma alike_read_body sys r r' status headers body reads :
  alike r r' -> read_body sys r status headers body reads = read_body sys r' status headers body reads.
Proof.
  intros Ha. revert body. induction reads as [|[|e|chunk|] reads IH]; intros body; cbn; try done.
  - rewrite (al_kind _ _ Ha). destruct (chunk_attempt _ _ _); [done|apply IH].
  - unfold body_attempt. by rewrite (al_kind _ _ Ha), (al_storage _ _ Ha).
Qed.

Lemma alike_fetch_once sys r r' entry origin :
  alike r r' -> option_Forall2 similar_attempts (fetch_once_inner sys r entry origin) (fetch_once_inner sys r' entry origin).
Proof.
  intros Ha. unfold fetch_once_inner. rewrite (al_storage _ _ Ha), (al_cache _ _ Ha), (al_url _ _ Ha).
  set (cached := if may_consult_shared_cache _ _ then entry else None).
  pose proof (similar_prior_alike r r' cached Ha) as Hp. rewrite (similar_headers _ _ _ _ Ha Hp).
  destruct (origin _ _) as [e| |status headers len reads]; [by constructor; apply similar_attempts_refl..|].
  destruct (similar_answers sys r r' _ _ status headers len Ha Hp) as [a a' Hs|]; [by constructor|].
  rewrite (alike_read_body sys r r') by done. destruct (read_body _ _ _ _ _ _); constructor. apply similar_attempts_refl.
Qed.

End Coalescing.

(** ** Bodies *)

Fixpoint read_data (reads : list ChunkRead) : bytes :=
  match reads with ChunkData chunk :: reads => chunk ++ read_data reads | _ => [] end.

(** A body that is returned is complete and within the limit. *)
Lemma read_bounded_response_ok content_length limit reads body :
  limit <= usize_max -> read_bounded_response content_length limit reads = Some (Ok body) ->
  Z.of_nat (length body) <= Z.max 0 limit /\ body = read_data reads /\
  exists before after, reads = before ++ ChunkEnd :: after /\ Forall (fun c => exists chunk, c = ChunkData chunk) before.
Proof.
  intros Hl Hr. assert (Hgo : read_loop limit [] reads = Some (Ok body)).
  { unfold read_bounded_response in Hr. repeat case_match; done. }
  clear Hr. change (read_data reads) with ([] ++ read_data reads).
  assert (H0 : Z.of_nat (length (@nil Z)) <= Z.max 0 limit) by (cbn; lia).
  revert H0 Hgo. generalize (@nil Z). induction reads as [|[|e|chunk|] reads IH]; intros acc Hacc; cbn; try done.
  - unfold checked_add. destruct (_ <=? _) eqn:Hle; [|done]. destruct (_ >? limit) eqn:Hlim; [done|]. intros Hgo.
    apply IH in Hgo as (Hb & -> & before & after & -> & Hf).
    + split_and!; [done|by rewrite app_assoc|]. exists (ChunkData chunk :: before), after. split; [done|]. constructor; eauto.
    + rewrite length_app. rewrite Z.gtb_ltb, Z.ltb_ge in Hlim. lia.
  - intros [= ->]. split_and!; [done|by rewrite app_nil_r|]. exists [], reads. split; [done|constructor].
Qed.

(** ** Demonstration *)

Module DemoFetch.
(** Dates of this demonstration are decimal seconds since the epoch. *)
#[global] Instance DemoExternals : FsExternals := {|
  fs_parse_http_date text := from_secs <$> parse_uint u64_max text;
  fs_fmt_http_date t := "at";
  retry_hash url index := Z.of_nat (String.length url) + index |}.

Definition tile_request (prior : option bytes) : ResourceRequest := {|
  rq_url := "https://tiles.example/0/0/0.pbf"; rq_kind := KTile; rq_priority := PriorityRegular; rq_storage_policy := Permanent;
  rq_has_cache := true; rq_has_network := true; rq_data_range := None; rq_tile := None; rq_prior_data := prior;
  rq_prior_etag := Some "v1"; rq_prior_modified := None; rq_prior_expires := None; rq_minimum_update_interval := 0 |}.

(** The origin fails once and confirms [v1] to those that ask for it. *)
Definition failing (_ : string) (_ : Headers) : OriginAnswer := AnswerResponse 503 [] None [].
Definition confirming (_ : string) (headers : Headers) : OriginAnswer :=
  match header_value headers IF_NONE_MATCH_HEADER with
  | Some etag => if String.eqb etag "v1" then AnswerResponse 304 [("cache-control", "max-age=60")] None []
                 else AnswerResponse 200 [] (Some 1) [ChunkData [7]; ChunkEnd]
  | None => AnswerResponse 200 [] (Some 1) [ChunkData [7]; ChunkEnd]
  end.
Definition at_noon : nat -> Z := fun _ => from_secs 43200.
Definition worlds : list AttemptWorld := [
  {| aw_sys := at_noon; aw_entry := None; aw_origin := failing; aw_elapsed := from_millis 20 |};
  {| aw_sys := at_noon; aw_entry := None; aw_origin := confirming; aw_elapsed := from_millis 200 |}].


(** A request that knows [v1] without its body, while the cache holds [v2]: the
    confirmation of [v1] is taken for the cached body, which is stored again under the
    validator [v1]. *)
Lemma confirmation_mixes_versions :
  let cached := with_etag "v2" (Response_data [2]) in
  let world := {| aw_sys := at_noon; aw_entry := Some cached; aw_origin := confirming; aw_elapsed := 0 |} in
  (a ← fetch_with_retries (tile_request None) 0 [world]; r ← fa_cache_response a; Some (rs_data r, rs_etag r, rs_expires r))
  = Some (Some [2], Some "v1", Some (from_secs 43260)).
Proof. vm_compute. reflexivity. Qed.
End DemoFetch.
