(* ===== verification/FileSourceTasks.v ===== *)
(** * The renderer's file source: concurrent requests

    Models [NetworkFileSource] of [crates/mmpf-mln-filesource/src/source.rs] with the
    single flight of [source/singleflight.rs], the evidence of [source/health.rs] and
    the attempt budget of [source/retry.rs]: deferred refreshes, the negative cache, the
    flights of identical requests, admission to the network lanes and to body
    downloads, retries with backoff, and cancellation by MapLibre.

    Requests are tasks that interleave at every access to shared state; [advance] is one
    such step. The shards of the flight map are one map: a key is in one shard. The
    caches evict at will, the system clock reads anything, and origins answer anything.
    The end of a flight is set and its entry removed under the lock of the shard; the
    waiters are notified after it, which they cannot tell from before it.

    Shows that permits and evidence are exact, that no waiter of a flight is left
    behind, that bodies come from the origin of their key and are bounded, that
    transient failures are reported only when the retry window is over, and that every
    request can be answered from every reachable state. *)

From S2P Require Import Prelude StdModel Types TilesetSources ChunkStore HttpMessage Text Config CacheControl ResourcePolicy FileSource.

(** ** State *)

Inductive FlightState := FlPending | FlComplete (response : FsResponse) | FlAborted.

(** Where [Flight::wait] stands in [wait_for_change]. *)
Inductive WaitPhase := WFast | WEnter | WRegistered (woken : bool) | WParked (woken : bool).

(** A fetch under way: its flight, the attempt, the start of the first attempt, and
    whether it holds retry evidence. *)
Record Lead := { ld_flight : nat; ld_index : nat; ld_started : Z; ld_evidence : bool }.

(** The network operations of an attempt: [NetworkAttemptBudget] and
    [NetworkIoObservation] with the start of the current operation. *)
Record NetIo := { ni_remaining : Z; ni_elapsed : Z; ni_started : Z; ni_slow : bool }.

Inductive Phase :=
  | TStart
  | TDeferred (deferral : RefreshDeferral) (wake : Z)
  | TNegative
  | TNegativeDrop
  | TJoin
  | TWait (flight : nat) (wait : WaitPhase)
  | TAdmit (lead : Lead)
  | TSend (lead : Lead) (prior : PriorResponse) (io : NetIo)
  | TBodyWait (lead : Lead) (status : Z) (headers : Headers) (io : NetIo)
  | TBody (lead : Lead) (status : Z) (headers : Headers) (body : bytes) (io : NetIo)
  | TInsert (lead : Lead) (attempt : FetchAttempt)
  | TDecide (lead : Lead) (attempt : FetchAttempt)
  | TBackoff (lead : Lead) (wake : Z)
  | TFinish (lead : Lead) (attempt : FetchAttempt)
  | TComplete (flight : nat) (response : FsResponse)
  | TNotify (flight : nat) (response : FsResponse)
  | TDone (response : FsResponse)
  | TAbort (flight : nat)
  | TAbortNotify (flight : nat)
  | TAbortRemove (flight : nat)
  | TGone.

Record Task := { tk_request : ResourceRequest; tk_phase : Phase }.

(** What origins delivered, requests brought along and origins confirmed, and where
    retries were given up. *)
Inductive LogItem :=
  | LBody (key : ResourceRequestKey) (status : Z) (headers : Headers) (body : bytes)
  | LSupplied (key : ResourceRequestKey) (body : bytes)
  | LConfirmed (key : ResourceRequestKey) (headers : Headers)
  | LGaveUp (key : ResourceRequestKey) (elapsed : Z).

Record Shared := {
  sh_cache : ResourceCache;
  sh_negative : gmap ResourceRequestKey (FsResponse * Z);
  sh_flights : gmap FlightKey nat;
  sh_states : list FlightState;
  sh_regular : Z;
  sh_low : Z;
  sh_bodies : Z;
  sh_active_retries : Z;
  sh_slow_attempts : Z;
  sh_log : list LogItem }.

Definition Shared_new (io_permits : FileSourceIoPermits) : Shared :=
  let io_permits := clamped io_permits in
  {| sh_cache := ∅; sh_negative := ∅; sh_flights := ∅; sh_states := []; sh_regular := io_regular io_permits;
     sh_low := LOW_PRIORITY_PERMITS; sh_bodies := io_body io_permits; sh_active_retries := 0; sh_slow_attempts := 0;
     sh_log := [] |}.

(** *** Atomic operations *)

Definition with_cache (f : ResourceCache -> ResourceCache) (s : Shared) : Shared :=
  {| sh_cache := f (sh_cache s); sh_negative := sh_negative s; sh_flights := sh_flights s; sh_states := sh_states s;
     sh_regular := sh_regular s; sh_low := sh_low s; sh_bodies := sh_bodies s; sh_active_retries := sh_active_retries s;
     sh_slow_attempts := sh_slow_attempts s; sh_log := sh_log s |}.
Definition with_negative (f : gmap ResourceRequestKey (FsResponse * Z) -> gmap ResourceRequestKey (FsResponse * Z))
    (s : Shared) : Shared :=
  {| sh_cache := sh_cache s; sh_negative := f (sh_negative s); sh_flights := sh_flights s; sh_states := sh_states s;
     sh_regular := sh_regular s; sh_low := sh_low s; sh_bodies := sh_bodies s; sh_active_retries := sh_active_retries s;
     sh_slow_attempts := sh_slow_attempts s; sh_log := sh_log s |}.
Definition with_flights (f : gmap FlightKey nat -> gmap FlightKey nat) (g : list FlightState -> list FlightState)
    (s : Shared) : Shared :=
  {| sh_cache := sh_cache s; sh_negative := sh_negative s; sh_flights := f (sh_flights s); sh_states := g (sh_states s);
     sh_regular := sh_regular s; sh_low := sh_low s; sh_bodies := sh_bodies s; sh_active_retries := sh_active_retries s;
     sh_slow_attempts := sh_slow_attempts s; sh_log := sh_log s |}.
(** Changes of the semaphores. *)
Definition add_permits (priority : Priority) (lane bodies : Z) (s : Shared) : Shared :=
  {| sh_cache := sh_cache s; sh_negative := sh_negative s; sh_flights := sh_flights s; sh_states := sh_states s;
     sh_regular := (match priority with PriorityLow => sh_regular s | PriorityRegular => sh_regular s + lane end);
     sh_low := (match priority with PriorityLow => sh_low s + lane | PriorityRegular => sh_low s end);
     sh_bodies := sh_bodies s + bodies; sh_active_retries := sh_active_retries s;
     sh_slow_attempts := sh_slow_attempts s; sh_log := sh_log s |}.
(** Changes of the counters of [ProviderHealthTracker]. *)
Definition add_evidence (retries slow : Z) (s : Shared) : Shared :=
  {| sh_cache := sh_cache s; sh_negative := sh_negative s; sh_flights := sh_flights s; sh_states := sh_states s;
     sh_regular := sh_regular s; sh_low := sh_low s; sh_bodies := sh_bodies s;
     sh_active_retries := sh_active_retries s + retries; sh_slow_attempts := sh_slow_attempts s + slow; sh_log := sh_log s |}.
Definition add_log (items : list LogItem) (s : Shared) : Shared :=
  {| sh_cache := sh_cache s; sh_negative := sh_negative s; sh_flights := sh_flights s; sh_states := sh_states s;
     sh_regular := sh_regular s; sh_low := sh_low s; sh_bodies := sh_bodies s; sh_active_retries := sh_active_retries s;
     sh_slow_attempts := sh_slow_attempts s; sh_log := sh_log s ++ items |}.

Definition has_external_evidence (s : Shared) : bool :=
  negb (sh_active_retries s =? 0) || negb (sh_slow_attempts s =? 0).

(** [acquire]: the lane of the request. *)
Definition lane_free (priority : Priority) (s : Shared) : Z :=
  match priority with PriorityLow => sh_low s | PriorityRegular => sh_regular s end.

(** [Arc::strong_count] of a flight: its leader, the map, and the requests that wait. *)
Definition waits_for (flight : nat) (t : Task) : bool :=
  match tk_phase t with TWait f _ => Nat.eqb f flight | _ => false end.
Definition map_owns_flight (key : FlightKey) (flight : nat) (s : Shared) : bool :=
  bool_decide (sh_flights s !! key = Some flight).
Definition strong_count (key : FlightKey) (flight : nat) (tasks : list Task) (s : Shared) : Z :=
  1 + Z.b2z (map_owns_flight key flight s) + count (waits_for flight) tasks.

(** *** Network operations *)

Definition tracks (rq : ResourceRequest) (lead : Lead) : bool :=
  Nat.eqb (ld_index lead) 0 && tracks_provider_health (rq_priority rq).
Definition NetIo_new : NetIo := {| ni_remaining := REQUEST_TIMEOUT; ni_elapsed := 0; ni_started := 0; ni_slow := false |}.
(** [run] starts: an attempt that is slow already is evidence at once. *)
Definition io_begin (now : Z) (enabled : bool) (io : NetIo) : NetIo :=
  {| ni_remaining := ni_remaining io; ni_elapsed := ni_elapsed io; ni_started := now;
     ni_slow := enabled && (SLOW_PROVIDER_ATTEMPT_THRESHOLD <=? ni_elapsed io) |}.
(** [run] ends: the timing guard and the budget take the time of the operation. *)
Definition io_end (now : Z) (io : NetIo) : NetIo :=
  {| ni_remaining := saturating_sub (ni_remaining io) (now - ni_started io);
     ni_elapsed := duration_saturating_add (ni_elapsed io) (now - ni_started io); ni_started := ni_started io; ni_slow := false |}.
Definition io_slow (io : NetIo) : NetIo :=
  {| ni_remaining := ni_remaining io; ni_elapsed := ni_elapsed io; ni_started := ni_started io; ni_slow := true |}.
(** The sleep of [run] has passed the threshold. *)
Definition slow_due (now : Z) (enabled : bool) (io : NetIo) : bool :=
  enabled && negb (ni_slow io) && (SLOW_PROVIDER_ATTEMPT_THRESHOLD <=? ni_elapsed io + (now - ni_started io)).
(** [tokio::time::timeout] can elapse. *)
Definition timed_out (now : Z) (io : NetIo) : bool := ni_remaining io <=? now - ni_started io.

(** ** Steps of one request *)

Inductive Choice :=
  | Go
  | Slow
  | SendFailed (error : ReqwestError)
  | SendTimeout
  | Answered (status : Z) (headers : Headers) (content_length : option Z)
  | Read (read : ChunkRead).

(** The shared state, the phase, and the flight whose waiters are notified. *)
Definition Step : Type := Shared * Phase * option nat.
Definition stay (s : Shared) (p : Phase) : option Step := Some (s, p, None).

Section Machine.
Context `{FsExternals}.

(** The end of an attempt drops the body permit, the lane permit and the evidence of a slow
    operation. *)
Definition end_attempt (rq : ResourceRequest) (lead : Lead) (bodies : Z) (io : NetIo) (attempt : FetchAttempt)
    (items : list LogItem) (s : Shared) : option Step :=
  stay (add_log items (add_evidence 0 (- Z.b2z (ni_slow io)) (add_permits (rq_priority rq) 1 bodies s)))
    (TInsert lead attempt).

Definition wait_step (flight : nat) (wait : WaitPhase) (s : Shared) : option Step :=
  let check otherwise :=
    stay s (match sh_states s !! flight with
            | Some (FlComplete response) => TDone response
            | Some FlAborted => TJoin
            | _ => TWait flight otherwise
            end) in
  match wait with
  | WFast => check WEnter
  | WEnter => stay s (TWait flight (WRegistered false))
  | WRegistered woken => check (WParked woken)
  | WParked true => stay s (TWait flight WEnter)
  | WParked false => None
  end.

(** [fetch_coalesced] up to its election. *)
Definition join_step (now : Z) (rq : ResourceRequest) (s : Shared) : option Step :=
  match sh_flights s !! flight_key rq with
  | Some flight => stay s (TWait flight WFast)
  | None =>
      let flight := length (sh_states s) in
      stay (with_flights <[flight_key rq := flight]> (fun states => states ++ [FlPending]) s)
        (TAdmit {| ld_flight := flight; ld_index := 0; ld_started := now; ld_evidence := false |})
  end.

(** [FlightLeader::complete]. *)
Definition complete_step (tasks : list Task) (rq : ResourceRequest) (flight : nat) (response : FsResponse) (s : Shared)
    : option Step :=
  let owns := map_owns_flight (flight_key rq) flight s in
  let shared := strong_count (flight_key rq) flight tasks s >? 1 + Z.b2z owns in
  let remove flights := if owns then delete (flight_key rq) flights else flights in
  if shared then stay (with_flights remove <[flight := FlComplete response]> s) (TNotify flight response)
  else stay (with_flights remove id s) (TDone response).

(** [fetch_with_retries] after an attempt. *)
Definition decide_step (now : Z) (rq : ResourceRequest) (lead : Lead) (attempt : FetchAttempt) (s : Shared) : option Step :=
  match fa_retry attempt with
  | None => stay s (TFinish lead attempt)
  | Some retry =>
      let evidence := ld_evidence lead || tracks_provider_health (rq_priority rq) in
      let s := add_evidence (Z.b2z evidence - Z.b2z (ld_evidence lead)) 0 s in
      let lead := {| ld_flight := ld_flight lead; ld_index := ld_index lead; ld_started := ld_started lead;
                     ld_evidence := evidence |} in
      let delay := attempt_delay rq retry (ld_index lead) in
      if window_exceeded (now - ld_started lead) delay
      then stay (add_log [LGaveUp (from_request rq) (now - ld_started lead)] s) (TFinish lead attempt)
      else stay s (TBackoff lead (now + delay))
  end.

Definition send_step (now : Z) (sys : nat -> Z) (rq : ResourceRequest) (lead : Lead) (prior : PriorResponse) (io : NetIo)
    (choice : Choice) (s : Shared) : option Step :=
  match choice with
  | Slow => if slow_due now (tracks rq lead) io then stay (add_evidence 0 1 s) (TSend lead prior (io_slow io)) else None
  | SendFailed error => end_attempt rq lead 0 io (transport_attempt error) [] s
  | SendTimeout => if timed_out now io then end_attempt rq lead 0 io timeout_attempt [] s else None
  | Answered status headers content_length =>
      match answer_attempt sys rq prior status headers content_length with
      | Some attempt =>
          end_attempt rq lead 0 io attempt (if status =? 304 then [LConfirmed (from_request rq) headers] else []) s
      | None => stay (add_evidence 0 (- Z.b2z (ni_slow io)) s) (TBodyWait lead status headers (io_end now io))
      end
  | _ => None
  end.

Definition body_step (now : Z) (sys : nat -> Z) (rq : ResourceRequest) (lead : Lead) (status : Z) (headers : Headers)
    (body : bytes) (io : NetIo) (choice : Choice) (s : Shared) : option Step :=
  match choice with
  | Slow => if slow_due now (tracks rq lead) io then stay (add_evidence 0 1 s) (TBody lead status headers body (io_slow io)) else None
  | Read ChunkTimeout => if timed_out now io then end_attempt rq lead 1 io timeout_attempt [] s else None
  | Read (ChunkError error) => end_attempt rq lead 1 io (transport_attempt error) [] s
  | Read ChunkEnd =>
      end_attempt rq lead 1 io (body_attempt sys rq status headers body) [LBody (from_request rq) status headers body] s
  | Read (ChunkData chunk) =>
      match chunk_attempt (rq_kind rq) body chunk with
      | inl attempt => end_attempt rq lead 1 io attempt [] s
      | inr body =>
          let io' := io_begin now (tracks rq lead) (io_end now io) in
          stay (add_evidence 0 (Z.b2z (ni_slow io') - Z.b2z (ni_slow io)) s) (TBody lead status headers body io')
      end
  | _ => None
  end.

Definition advance (now : Z) (sys : nat -> Z) (tasks : list Task) (choice : Choice) (s : Shared) (t : Task) : option Step :=
  let rq := tk_request t in
  let key := from_request rq in
  match tk_phase t, choice with
  | TStart, Go =>
      if uses_shared_cache (rq_storage_policy rq) && rq_has_cache rq then
        match fresh_until (sys 0%nat) key (sh_cache s) with
        | Some expires =>
            let deferral := refresh_deferral (sys 1%nat) expires (rq_minimum_update_interval rq) in
            stay s (TDeferred deferral (now + df_wait deferral))
        | None => stay s TNegative
        end
      else stay s TJoin
  | TDeferred deferral wake, Go =>
      if wake <=? now then
        match complete_deferred_refresh deferral (fresh_until (sys 0%nat) key (sh_cache s)) with
        | Some response => stay s (TDone response)
        | None => stay s TNegative
        end
      else None
  | TNegative, Go =>
      match sh_negative s !! key with
      | Some (response, expires_at) => stay s (if now <? expires_at then TDone response else TNegativeDrop)
      | None => stay s TJoin
      end
  | TNegativeDrop, Go => stay (with_negative (delete key) s) TJoin
  | TJoin, Go => join_step now rq s
  | TWait flight wait, Go => wait_step flight wait s
  | TAdmit lead, Go =>
      if 0 <? lane_free (rq_priority rq) s then
        let cached := if may_consult_shared_cache (rq_storage_policy rq) (rq_has_cache rq) then sh_cache s !! key else None in
        let io := io_begin now (tracks rq lead) NetIo_new in
        let supplied := match rq_prior_data rq with Some body => [LSupplied key body] | None => [] end in
        stay (add_log supplied (add_evidence 0 (Z.b2z (ni_slow io)) (add_permits (rq_priority rq) (-1) 0 s)))
          (TSend lead (prior_response_with_cache rq cached) io)
      else None
  | TSend lead prior io, _ => send_step now sys rq lead prior io choice s
  | TBodyWait lead status headers io, Go =>
      if 0 <? sh_bodies s then
        let io := io_begin now (tracks rq lead) io in
        stay (add_evidence 0 (Z.b2z (ni_slow io)) (add_permits (rq_priority rq) 0 (-1) s)) (TBody lead status headers [] io)
      else None
  | TBody lead status headers body io, _ => body_step now sys rq lead status headers body io choice s
  | TInsert lead attempt, Go =>
      match fa_negative_cache_ttl attempt with
      | Some ttl =>
          if uses_shared_cache (rq_storage_policy rq)
          then stay (with_negative <[key := (fa_response attempt, now + ttl)]> s) (TDecide lead attempt)
          else stay s (TDecide lead attempt)
      | None => stay s (TDecide lead attempt)
      end
  | TDecide lead attempt, Go => decide_step now rq lead attempt s
  | TBackoff lead wake, Go =>
      if wake <=? now then
        stay s (TAdmit {| ld_flight := ld_flight lead; ld_index := S (ld_index lead); ld_started := ld_started lead;
                          ld_evidence := ld_evidence lead |})
      else None
  | TFinish lead attempt, Go =>
      let '(response, cache) := finish_fetch key attempt (sh_cache s) in
      stay (add_evidence (- Z.b2z (ld_evidence lead)) 0 (with_cache (fun _ => cache) s)) (TComplete (ld_flight lead) response)
  | TComplete flight response, Go => complete_step tasks rq flight response s
  | TNotify flight response, Go => Some (s, TDone response, Some flight)
  | TAbort flight, Go => stay (with_flights id <[flight := FlAborted]> s) (TAbortNotify flight)
  | TAbortNotify flight, Go => Some (s, TAbortRemove flight, Some flight)
  | TAbortRemove flight, Go =>
      stay (with_flights (fun flights => if map_owns_flight (flight_key rq) flight s then delete (flight_key rq) flights else flights) id s)
        TGone
  | _, _ => None
  end.

(** MapLibre drops a request where it waits: permits and evidence go with it, and a
    leader aborts its flight. *)
Definition cancel (s : Shared) (t : Task) : option (Shared * Phase) :=
  let priority := rq_priority (tk_request t) in
  let drop_lead lead lane bodies slow :=
    Some (add_evidence (- Z.b2z (ld_evidence lead)) (- Z.b2z slow) (add_permits priority lane bodies s), TAbort (ld_flight lead)) in
  match tk_phase t with
  | TStart | TDeferred _ _ | TWait _ _ => Some (s, TGone)
  | TAdmit lead => drop_lead lead 0 0 false
  | TBackoff lead _ => drop_lead lead 0 0 false
  | TSend lead _ io => drop_lead lead 1 0 (ni_slow io)
  | TBodyWait lead _ _ _ => drop_lead lead 1 0 false
  | TBody lead _ _ _ io => drop_lead lead 1 1 (ni_slow io)
  | _ => None
  end.

(** ** Executions *)

Record FsSystem := { fy_now : Z; fy_shared : Shared; fy_tasks : list Task }.
Definition FsSystem_new (io_permits : FileSourceIoPermits) : FsSystem :=
  {| fy_now := 0; fy_shared := Shared_new io_permits; fy_tasks := [] |}.

(** [notify_waiters] of a flight. *)
Definition wake (flight : nat) (t : Task) : Task :=
  {| tk_request := tk_request t;
     tk_phase := match tk_phase t with
                 | TWait f (WRegistered _) => if Nat.eqb f flight then TWait f (WRegistered true) else tk_phase t
                 | TWait f (WParked _) => if Nat.eqb f flight then TWait f (WParked true) else tk_phase t
                 | p => p
                 end |}.
Definition wake_all (flight : option nat) (tasks : list Task) : list Task :=
  match flight with Some flight => wake flight <$> tasks | None => tasks end.

Inductive Event :=
  | EvTick (elapsed : Z)
  | EvArrive (rq : ResourceRequest)
  | EvEvict (key : ResourceRequestKey)
  | EvEvictNegative (key : ResourceRequestKey)
  | EvRun (task : nat) (choice : Choice) (sys : nat -> Z)
  | EvCancel (task : nat).

(** Readings of the system clock after the epoch and before its last hour. *)
Definition clock_ok (sys : nat -> Z) : Prop := forall n, 0 <= sys n /\ sys n + MAX_HEURISTIC_FRESHNESS <= INSTANT_MAX.
Definition event_ok (e : Event) : Prop :=
  match e with
  | EvTick elapsed => 0 <= elapsed
  | EvRun _ _ sys => clock_ok sys
  | _ => True
  end.

Definition set_phase (t : Task) (p : Phase) : Task := {| tk_request := tk_request t; tk_phase := p |}.
Definition fstep (e : Event) (y : FsSystem) : option FsSystem :=
  match e with
  | EvTick elapsed => Some {| fy_now := fy_now y + elapsed; fy_shared := fy_shared y; fy_tasks := fy_tasks y |}
  | EvArrive rq =>
      Some {| fy_now := fy_now y; fy_shared := fy_shared y;
              fy_tasks := fy_tasks y ++ [{| tk_request := rq; tk_phase := TStart |}] |}
  | EvEvict key =>
      Some {| fy_now := fy_now y; fy_shared := with_cache (delete key) (fy_shared y); fy_tasks := fy_tasks y |}
  | EvEvictNegative key =>
      Some {| fy_now := fy_now y; fy_shared := with_negative (delete key) (fy_shared y); fy_tasks := fy_tasks y |}
  | EvRun i choice sys =>
      t ← fy_tasks y !! i;
      '(s, p, notified) ← advance (fy_now y) sys (fy_tasks y) choice (fy_shared y) t;
      Some {| fy_now := fy_now y; fy_shared := s; fy_tasks := wake_all notified (<[i := set_phase t p]> (fy_tasks y)) |}
  | EvCancel i =>
      t ← fy_tasks y !! i;
      '(s, p) ← cancel (fy_shared y) t;
      Some {| fy_now := fy_now y; fy_shared := s; fy_tasks := <[i := set_phase t p]> (fy_tasks y) |}
  end.
Fixpoint frun (evs : list Event) (y : FsSystem) : option FsSystem :=
  match evs with [] => Some y | e :: evs => y ← fstep e y; frun evs y end.

Inductive reachable (io_permits : FileSourceIoPermits) : FsSystem -> Prop :=
  | reachable_init : reachable io_permits (FsSystem_new io_permits)
  | reachable_step e y y' : reachable io_permits y -> event_ok e -> fstep e y = Some y' -> reachable io_permits y'.
End Machine.

(** ** Accounting *)

Definition lead_in (p : Phase) : option Lead :=
  match p with
  | TAdmit lead | TSend lead _ _ | TBodyWait lead _ _ _ | TBody lead _ _ _ _ | TInsert lead _ | TDecide lead _
  | TBackoff lead _ | TFinish lead _ => Some lead
  | _ => None
  end.
Definition in_lane (p : Phase) : bool := match p with TSend _ _ _ | TBodyWait _ _ _ _ | TBody _ _ _ _ _ => true | _ => false end.
Definition reading (t : Task) : bool := match tk_phase t with TBody _ _ _ _ _ => true | _ => false end.
Definition holds_lane (low : bool) (t : Task) : bool :=
  in_lane (tk_phase t) && match rq_priority (tk_request t) with PriorityLow => low | PriorityRegular => negb low end.
Definition retrying (t : Task) : bool := match lead_in (tk_phase t) with Some lead => ld_evidence lead | None => false end.
Definition slow_io (t : Task) : bool :=
  match tk_phase t with TSend _ _ io | TBody _ _ _ _ io => ni_slow io | _ => false end.

Record accounted (io_permits : FileSourceIoPermits) (s : Shared) (tasks : list Task) : Prop := {
  ac_regular : 0 <= sh_regular s /\ sh_regular s + count (holds_lane false) tasks = io_regular (clamped io_permits);
  ac_low : 0 <= sh_low s /\ sh_low s + count (holds_lane true) tasks = LOW_PRIORITY_PERMITS;
  ac_bodies : 0 <= sh_bodies s /\ sh_bodies s + count reading tasks = io_body (clamped io_permits);
  ac_retries : sh_active_retries s = count retrying tasks;
  ac_slow : sh_slow_attempts s = count slow_io tasks }.

(** The cases of one step. *)
Ltac step_cases Hadv :=
  unfold advance, send_step, body_step, decide_step, join_step, wait_step, complete_step, end_attempt, stay in Hadv;
  cbn [tk_phase tk_request] in Hadv;
  simplify_eq/=; repeat (case_match; simplify_eq/=).

Section Accounting.
Context `{FsExternals} (io_permits : FileSourceIoPermits).

(** The counters move with the task. *)
Definition balanced_step (s s' : Shared) (t t' : Task) : Prop :=
  (sh_regular s' = sh_regular s + Z.b2z (holds_lane false t) - Z.b2z (holds_lane false t') /\ (0 <= sh_regular s -> 0 <= sh_regular s')) /\
  (sh_low s' = sh_low s + Z.b2z (holds_lane true t) - Z.b2z (holds_lane true t') /\ (0 <= sh_low s -> 0 <= sh_low s')) /\
  (sh_bodies s' = sh_bodies s + Z.b2z (reading t) - Z.b2z (reading t') /\ (0 <= sh_bodies s -> 0 <= sh_bodies s')) /\
  sh_active_retries s' = sh_active_retries s - Z.b2z (retrying t) + Z.b2z (retrying t') /\
  sh_slow_attempts s' = sh_slow_attempts s - Z.b2z (slow_io t) + Z.b2z (slow_io t').

Lemma accounted_replace s s' tasks i t t' :
  accounted io_permits s tasks -> tasks !! i = Some t -> balanced_step s s' t t' -> accounted io_permits s' (<[i := t']> tasks).
Proof.
  intros [[? ?] [? ?] [? ?] ? ?] Hi ([? ?] & [? ?] & [? ?] & ? & ?).
  split; rewrite !(count_insert _ _ _ _ _ Hi); repeat split; auto; lia.
Qed.

Lemma slow_due_fresh now enabled io : slow_due now enabled io = true -> ni_slow io = false.
Proof. unfold slow_due. by destruct enabled, (ni_slow io). Qed.

Lemma advance_balanced now sys tasks choice s rq p s' p' n :
  advance now sys tasks choice s {| tk_request := rq; tk_phase := p |} = Some (s', p', n) ->
  balanced_step s s' {| tk_request := rq; tk_phase := p |} {| tk_request := rq; tk_phase := p' |}.
Proof.
  intros Hadv. unfold balanced_step, holds_lane, reading, retrying, slow_io. cbn [tk_request tk_phase].
  destruct p, choice; try discriminate Hadv; step_cases Hadv.
  all: unfold lane_free in *; destruct (rq_priority rq) eqn:Hp; cbn in *; bool_props.
  all: unfold tracks_provider_health in *; rewrite ?Hp in *; cbn in *.
  all: try match goal with Hd : slow_due _ _ _ = true |- _ => rewrite (slow_due_fresh _ _ _ Hd) end.
  all: repeat match goal with |- context [ni_slow ?io] => is_var io; destruct (ni_slow io) end.
  all: repeat match goal with |- context [ld_evidence ?l] => is_var l; destruct (ld_evidence l) end.
  all: cbn in *; try done; repeat split; intros; try lia.
Qed.

Lemma cancel_balanced s rq p s' p' :
  cancel s {| tk_request := rq; tk_phase := p |} = Some (s', p') ->
  balanced_step s s' {| tk_request := rq; tk_phase := p |} {| tk_request := rq; tk_phase := p' |}.
Proof.
  intros Hc. unfold balanced_step, holds_lane, reading, retrying, slow_io. cbn [tk_request tk_phase].
  destruct p; try discriminate Hc; cbn in Hc; simplify_eq; cbn; destruct (rq_priority rq) eqn:Hp; cbn.
  all: repeat match goal with |- context [ld_evidence ?l] => is_var l; destruct (ld_evidence l) end.
  all: repeat match goal with |- context [ni_slow ?io] => is_var io; destruct (ni_slow io) end.
  all: cbn; repeat split; intros; lia.
Qed.

(** Notifications change no counter. *)
Lemma count_wake (f : Task -> bool) n tasks :
  (forall m t, f (wake m t) = f t) -> count f (wake_all n tasks) = count f tasks.
Proof.
  intros Hf. destruct n as [m|]; [|done]. cbn. unfold count. induction tasks as [|t tasks IH]; [done|].
  cbn. rewrite Hf. destruct (f t); cbn [length]; lia.
Qed.
Lemma wake_phase m t : tk_phase (wake m t) = tk_phase t \/
  exists f w w', tk_phase t = TWait f w /\ tk_phase (wake m t) = TWait f w'.
Proof.
  destruct t as [rq p]. cbn. destruct p as [| | | | |f [| | |]| | | | | | | | | | | | | | |]; auto.
  all: destruct (Nat.eqb f m); eauto 8.
Qed.
Lemma accounted_wake s n tasks : accounted io_permits s tasks -> accounted io_permits s (wake_all n tasks).
Proof.
  intros [? ? ? ? ?]. split; rewrite count_wake; try done; intros m t.
  all: unfold holds_lane, reading, retrying, slow_io.
  all: destruct (wake_phase m t) as [->|(f & w & w' & -> & ->)]; done.
Qed.

Lemma accounted_step e y y' :
  accounted io_permits (fy_shared y) (fy_tasks y) -> fstep e y = Some y' -> accounted io_permits (fy_shared y') (fy_tasks y').
Proof.
  intros Ha. destruct e as [d|rq|k|k|i choice sys|i]; cbn [fstep]; intros Hs.
  - by simplify_eq.
  - simplify_eq. cbn. destruct Ha. split; rewrite count_snoc; unfold holds_lane at 2 || idtac; cbn; rewrite ?Z.add_0_r; done.
  - simplify_eq. by destruct Ha.
  - simplify_eq. by destruct Ha.
  - apply bind_Some in Hs as ([rq p] & Hi & Hs). apply bind_Some in Hs as ([[s p'] n] & Hadv & [= <-]).
    cbn [fy_shared fy_tasks]. apply accounted_wake. eapply accounted_replace; [done|done|]. by eapply advance_balanced.
  - apply bind_Some in Hs as ([rq p] & Hi & Hs). apply bind_Some in Hs as ([s p'] & Hc & [= <-]).
    cbn [fy_shared fy_tasks]. eapply accounted_replace; [done|done|]. by eapply cancel_balanced.
Qed.

Lemma reachable_accounted y : reachable io_permits y -> accounted io_permits (fy_shared y) (fy_tasks y).
Proof.
  induction 1 as [|e y y' _ IH _ Hs]; [|by eapply accounted_step]. cbn. unfold Shared_new.
  split; cbn; unfold LOW_PRIORITY_PERMITS, count; cbn; lia.
Qed.
End Accounting.

(** ** Content *)

Definition storable (headers : Headers) : Prop :=
  control_has (fun control => no_store control || private control) (parsed_cache_control headers) = false.
Definition success (status : Z) : Prop := status = 200 \/ status = 206.

(** The origin of the request delivered the body, within the bounds of its kind. *)
Definition delivered (log : list LogItem) (rq : ResourceRequest) (body : bytes) : Prop :=
  Z.of_nat (length body) <= max_resource_bytes (rq_kind rq) /\
  exists status headers, success status /\ LBody (from_request rq) status headers body ∈ log.
(** The body was delivered for the key, or brought along by a request of the key. *)
Definition known (log : list LogItem) (key : ResourceRequestKey) (body : bytes) : Prop :=
  (exists status headers, success status /\ LBody key status headers body ∈ log) \/ LSupplied key body ∈ log.

Definition transient (r : FsResponse) : Prop :=
  exists e, rs_error r = Some e /\
    (fe_reason e = ReasonServer \/ fe_reason e = ReasonConnection \/ fe_reason e = ReasonRateLimit).

(** A response that a request may get. *)
Record answer_ok (log : list LogItem) (rq : ResourceRequest) (r : FsResponse) : Prop := {
  ao_data body : rs_data r = Some body -> delivered log rq body;
  ao_transient : transient r ->
    exists elapsed, LGaveUp (from_request rq) elapsed ∈ log /\ RETRY_WINDOW < elapsed + MAX_RETRY_DELAY }.

Section Content.
Context `{FsExternals}.

(** How an entry of the cache came about: from an answer with a body, or from the
    confirmation of a known body. *)
Inductive made (log : list LogItem) (key : ResourceRequestKey) (e : FsResponse) : Prop :=
  | made_delivered status headers body now now' :
      success status -> LBody key status headers body ∈ log -> storable headers ->
      0 <= now -> now + MAX_HEURISTIC_FRESHNESS <= INSTANT_MAX ->
      e = with_cache_metadata now now' (Response_data body) headers PriorResponse_default -> made log key e
  | made_confirmed headers prior body now now' :
      LConfirmed key headers ∈ log -> storable headers -> pr_data prior = Some body -> known log key body ->
      0 <= now -> now + MAX_HEURISTIC_FRESHNESS <= INSTANT_MAX ->
      e = set_data (Some body) (set_not_modified false (with_cache_metadata now now' Response_not_modified headers prior)) ->
      made log key e.

Definition prior_ok (log : list LogItem) (key : ResourceRequestKey) (prior : PriorResponse) : Prop :=
  forall body, pr_data prior = Some body -> known log key body.

(** What an attempt gives. *)
Record attempt_ok (log : list LogItem) (rq : ResourceRequest) (a : FetchAttempt) : Prop := {
  at_data body : rs_data (fa_response a) = Some body -> delivered log rq body;
  at_final : fa_retry a = None -> ~ transient (fa_response a);
  at_store : fa_cache_policy a = CacheStore ->
    let entry := default (fa_response a) (fa_cache_response a) in
    is_cacheable_response entry = true -> made log (from_request rq) entry;
  at_negative ttl : fa_negative_cache_ttl a = Some ttl ->
    0 < ttl <= NEGATIVE_CACHE_TTL /\ rs_data (fa_response a) = None /\ ~ transient (fa_response a) }.

Definition negative_ok (now : Z) (entry : FsResponse * Z) : Prop :=
  rs_data entry.1 = None /\ ~ transient entry.1 /\ entry.2 <= now + NEGATIVE_CACHE_TTL.

Record io_ok (now : Z) (io : NetIo) : Prop := {
  io_elapsed : 0 <= ni_elapsed io;
  io_started : ni_started io <= now;
  io_budget : 0 <= ni_remaining io /\ REQUEST_TIMEOUT <= ni_remaining io + ni_elapsed io }.
Definition lead_ok (now : Z) (lead : Lead) : Prop := ld_started lead <= now.

Definition phase_ok (log : list LogItem) (now : Z) (rq : ResourceRequest) (p : Phase) : Prop :=
  match p with
  | TAdmit lead => lead_ok now lead
  | TSend lead prior io => lead_ok now lead /\ prior_ok log (from_request rq) prior /\ io_ok now io
  | TBodyWait lead status _ io => lead_ok now lead /\ success status /\ io_ok now io
  | TBody lead status _ body io =>
      lead_ok now lead /\ success status /\ Z.of_nat (length body) <= max_resource_bytes (rq_kind rq) /\ io_ok now io
  | TInsert lead a | TDecide lead a => lead_ok now lead /\ attempt_ok log rq a
  | TBackoff lead wake => lead_ok now lead /\ wake <= ld_started lead + RETRY_WINDOW
  | TFinish lead a => lead_ok now lead /\ attempt_ok log rq a /\ answer_ok log rq (fa_response a)
  | TComplete _ r | TNotify _ r | TDone r => answer_ok log rq r
  | _ => True
  end.

Record content_ok (now : Z) (s : Shared) (tasks : list Task) : Prop := {
  co_cache : map_Forall (made (sh_log s)) (sh_cache s);
  co_negative : map_Forall (fun _ => negative_ok now) (sh_negative s);
  co_tasks i t : tasks !! i = Some t -> phase_ok (sh_log s) now (tk_request t) (tk_phase t) }.

(** *** Growth of the log and of time *)

Lemma delivered_mono log log' rq body : log ⊆ log' -> delivered log rq body -> delivered log' rq body.
Proof. intros Hl (Hb & status & headers & Hs & Hin). split; [done|]. exists status, headers. auto. Qed.
Lemma known_mono log log' key body : log ⊆ log' -> known log key body -> known log' key body.
Proof. intros Hl [(status & headers & Hs & Hin)|Hin]; [left; exists status, headers; auto|right; auto]. Qed.
Lemma request_answer_mono log log' rq r : log ⊆ log' -> answer_ok log rq r -> answer_ok log' rq r.
Proof.
  intros Hl [Hd Ht]. split; [eauto using delivered_mono|]. intros (e & Hin & He)%Ht. eauto.
Qed.
Lemma made_mono log log' key e : log ⊆ log' -> made log key e -> made log' key e.
Proof.
  intros Hl [status headers body now now' Hs Hin Hst H0 Hn He|headers prior body now now' Hin Hst Hp Hk H0 Hn He].
  - eapply made_delivered; eauto.
  - eapply made_confirmed; eauto using known_mono.
Qed.
Lemma attempt_ok_mono log log' rq a : log ⊆ log' -> attempt_ok log rq a -> attempt_ok log' rq a.
Proof.
  intros Hl [Hd Hf Hs Hn]. split; [eauto using delivered_mono|done| |done].
  intros Hp entry He. eapply made_mono; [done|]. by apply Hs.
Qed.
Lemma io_ok_mono now now' io : now <= now' -> io_ok now io -> io_ok now' io.
Proof. intros Hn [? ? ?]. split; [done|lia|done]. Qed.
Lemma phase_ok_mono log log' now now' rq p :
  log ⊆ log' -> now <= now' -> phase_ok log now rq p -> phase_ok log' now' rq p.
Proof.
  intros Hl Hn. unfold lead_ok. destruct p; cbn; unfold lead_ok, prior_ok.
  all: try done. all: try (by intros; eapply request_answer_mono). all: try lia.
  all: intros Hp; destruct_and?; split_and?; try lia; eauto using known_mono, io_ok_mono, attempt_ok_mono, request_answer_mono.
Qed.

(** *** Attempts *)

Lemma response_from_http_failure now now' status headers kind prior :
  status <> 200 -> status <> 206 -> status <> 304 ->
  let r := response_from_http now now' status headers [] kind prior in
  rs_data r = None /\
  (transient r -> status = 429 \/ 500 <= status <= 599) /\
  (status = 404 \/ status = 410 -> ~ transient r).
Proof.
  intros H1 H2 H3. cbn zeta. unfold response_from_http.
  rewrite (proj2 (Z.eqb_neq status 200)), (proj2 (Z.eqb_neq status 206)), (proj2 (Z.eqb_neq status 304)) by done. cbn [orb].
  destruct (Z.eqb_spec status 204) as [->|]; [split_and!; [done|by intros (? & ? & _)|lia]|].
  assert (Hq : forall s, let r := if bool_decide (kind = KTile) then Response_no_content else Response_error ReasonNotFound s in
    rs_data r = None /\ ~ transient r).
  { intros s. destruct (bool_decide (kind = KTile)); (split; [done|]); [by intros (? & ? & _)|].
    intros (e & [= <-] & [?|[?|?]]); done. }
  destruct (Z.eqb_spec status 404) as [->|]; [split_and!; [apply Hq|by intros Ht; apply Hq in Ht|intros _; apply Hq]|].
  destruct (Z.eqb_spec status 410) as [->|]; [split_and!; [apply Hq|by intros Ht; apply Hq in Ht|intros _; apply Hq]|]. cbn [orb].
  destruct (Z.eqb_spec status 429) as [->|]; [destruct (_ ≫= _); split_and!; try done; auto; lia|].
  destruct ((500 <=? status) && (status <=? 599)) eqn:E; bool_props; (split_and!; [done|..|lia]).
  - intros _. right. lia.
  - intros (e & [= <-] & [?|[?|?]]); done.
Qed.

Lemma retry_directive_None now now' status headers :
  retry_directive now now' status headers = None -> status <> 429 /\ ~ 500 <= status <= 599.
Proof.
  unfold retry_directive. destruct (Z.eqb_spec status 408) as [->|]; [done|]. destruct (Z.eqb_spec status 429) as [->|]; [done|].
  destruct ((500 <=? status) && (status <=? 599)) eqn:E; [done|]. intros _. bool_props. lia.
Qed.

Lemma negative_ttl_bounds now status kind policy headers maximum ttl :
  0 < maximum -> negative_cache_ttl now status kind policy headers maximum = Some ttl ->
  0 < ttl <= maximum /\ (status = 404 \/ status = 410).
Proof.
  intros Hm. unfold negative_cache_ttl. destruct (_ || _ || _) eqn:Hg; [done|].
  assert (Hst : status = 404 \/ status = 410).
  { apply orb_false_iff in Hg as [[Hg _]%orb_false_iff _]. destruct (Z.eqb_spec status 404), (Z.eqb_spec status 410); try (by auto); done. }
  set (explicit := or_else _ _). assert (He : forall f, explicit = Some f -> 0 <= f).
  { subst explicit. intros f. destruct (shared_max_age _); cbn.
    - intros [= <-]. unfold saturating_sub. lia.
    - destruct (header_date headers EXPIRES_HEADER); cbn; [|done]. unfold duration_since.
      destruct (_ <=? _) eqn:Hle; [|done]. intros [= <-]. bool_props. lia. }
  destruct explicit as [f|].
  - specialize (He f eq_refl). destruct (Z.eqb_spec (Z.min f maximum) 0); [done|]. intros [= <-].
    split; [lia|done].
  - destruct (bool_decide (kind = KTile)); [|discriminate]. rewrite (proj2 (Z.eqb_neq maximum 0)) by lia. intros [= <-].
    split; [lia|done].
Qed.

Lemma not_transient_ok r : rs_error r = None -> ~ transient r.
Proof. intros He (e & He' & _). congruence. Qed.
Lemma done_other_ok log rq message : attempt_ok log rq (FetchAttempt_done (Response_error ReasonOther message)).
Proof. split; cbn; try done. intros _ (e & [= <-] & He). cbn in He. naive_solver. Qed.
Lemma retryable_ok log rq r reason delay : rs_data r = None -> attempt_ok log rq (retryable r reason delay).
Proof. intros Hr. split; cbn; try done. by rewrite Hr. Qed.

Lemma stored_policy policy headers : cache_policy_for_response policy headers = CacheStore -> storable headers.
Proof. unfold cache_policy_for_response, storable. destruct (negb _); [done|]. by destruct (control_has _ _). Qed.

Lemma not_modified_attempt_ok log rq prior headers now now' :
  0 <= now -> now + MAX_HEURISTIC_FRESHNESS <= INSTANT_MAX -> prior_ok log (from_request rq) prior ->
  attempt_ok (log ++ [LConfirmed (from_request rq) headers]) rq
    (not_modified_attempt now now' (rq_kind rq) (rq_storage_policy rq) headers prior).
Proof.
  intros H0 Hn Hp. unfold not_modified_attempt. change (response_from_http now now' 304 headers [] (rq_kind rq) prior)
    with (with_cache_metadata now now' Response_not_modified headers prior).
  destruct (with_cache_metadata_fields now now' Response_not_modified headers prior) as (Hd & He & _).
  unfold materialize_not_modified. destruct (pr_data prior) as [body|] eqn:Hb; cbn [mbind option_bind].
  - split; cbn [fa_response fa_retry fa_cache_policy fa_cache_response fa_negative_cache_ttl done_with_cache_response default]; try done.
    + by rewrite Hd.
    + intros _. by apply not_transient_ok.
    + intros Hs%stored_policy. cbn. intros _. eapply (made_confirmed _ _ _ headers prior body now now'); eauto.
      * apply elem_of_app. right. by left.
      * eapply known_mono; [|by apply Hp]. by apply list_subseteq_app_l.
  - destruct (_ || _); [|apply done_other_ok]. split; cbn; try done; [by rewrite Hd|]. intros _. by apply not_transient_ok.
Qed.

Lemma answer_attempt_ok log sys rq prior status headers len a :
  clock_ok sys -> prior_ok log (from_request rq) prior -> answer_attempt sys rq prior status headers len = Some a ->
  attempt_ok (log ++ if status =? 304 then [LConfirmed (from_request rq) headers] else []) rq a.
Proof.
  intros Hc Hp. unfold answer_attempt. destruct (Z.eqb_spec status 304) as [->|H304].
  { intros [= <-]. destruct (Hc 0%nat). by apply not_modified_attempt_ok. }
  rewrite app_nil_r. destruct (negb (status =? 200) && negb (status =? 206)) eqn:Hs; bool_props.
  - destruct (response_from_http_failure (sys 0%nat) (sys 1%nat) status headers (rq_kind rq) prior) as (Hd & Ht & Hneg); [lia..|].
    destruct (retry_directive _ _ _ _) eqn:Hr; intros [= <-]; split; cbn; try done; try (by rewrite Hd).
    + apply retry_directive_None in Hr. intros _ Htr%Ht. lia.
    + intros ttl (Hb & Hst)%negative_ttl_bounds; [|by vm_compute]. split_and!; [lia|lia|done|by apply Hneg].
  - destruct len as [len|]; [|done]. destruct (len >? _); [|done]. intros [= <-]. apply done_other_ok.
Qed.

Lemma answer_attempt_body sys rq prior status headers len :
  answer_attempt sys rq prior status headers len = None -> success status.
Proof.
  unfold answer_attempt, success. destruct (status =? 304); [done|]. destruct (Z.eqb_spec status 200) as [->|]; [auto|].
  destruct (Z.eqb_spec status 206) as [->|]; [auto|]. cbn [negb andb]. by destruct (retry_directive _ _ _ _).
Qed.

Lemma body_attempt_ok log sys rq status headers body :
  clock_ok sys -> success status -> Z.of_nat (length body) <= max_resource_bytes (rq_kind rq) ->
  attempt_ok (log ++ [LBody (from_request rq) status headers body]) rq (body_attempt sys rq status headers body).
Proof.
  intros Hc Hs Hb. unfold body_attempt.
  assert (Hr : response_from_http (sys 0%nat) (sys 1%nat) status headers body (rq_kind rq) PriorResponse_default =
    with_cache_metadata (sys 0%nat) (sys 1%nat) (Response_data body) headers PriorResponse_default) by (by destruct Hs as [->| ->]).
  rewrite Hr. destruct (with_cache_metadata_fields (sys 0%nat) (sys 1%nat) (Response_data body) headers PriorResponse_default) as (Hd & He & _).
  assert (Hin : LBody (from_request rq) status headers body ∈ log ++ [LBody (from_request rq) status headers body])
    by (apply elem_of_app; right; by left).
  split; cbn [fa_response fa_retry fa_cache_policy fa_cache_response fa_negative_cache_ttl done_with_cache default]; try done.
  - rewrite Hd. intros b [= <-]. split; [done|]. exists status, headers. auto.
  - intros _. by apply not_transient_ok.
  - intros Hst%stored_policy. cbn. intros _. destruct (Hc 0%nat). by eapply made_delivered.
Qed.

Lemma chunk_attempt_ok log rq body chunk :
  match chunk_attempt (rq_kind rq) body chunk with
  | inl a => attempt_ok log rq a
  | inr body' => Z.of_nat (length body') <= max_resource_bytes (rq_kind rq)
  end.
Proof.
  unfold chunk_attempt, checked_add, exceeds. destruct (_ <=? _); [|apply done_other_ok]. destruct (_ >? _) eqn:E; [apply done_other_ok|].
  rewrite length_app. rewrite Z.gtb_ltb, Z.ltb_ge in E. lia.
Qed.

(** *** Steps keep the content *)

Lemma quiet_answer_ok log rq r : rs_data r = None -> ~ transient r -> answer_ok log rq r.
Proof. intros Hd Ht. split; [by rewrite Hd|done]. Qed.
Lemma final_answer_ok log rq a : attempt_ok log rq a -> fa_retry a = None -> answer_ok log rq (fa_response a).
Proof. intros [Hd Hf _ _] Hr. split; [done|]. intros Ht. by apply Hf in Hr. Qed.

Lemma io_begin_ok now enabled io : io_ok now io -> io_ok now (io_begin now enabled io).
Proof. intros [? ? ?]. by split; cbn. Qed.
Lemma io_end_ok now io : io_ok now io -> io_ok now (io_end now io).
Proof.
  intros [? ? [? ?]]. assert (0 <= REQUEST_TIMEOUT <= DURATION_MAX) by (by vm_compute).
  split; cbn; unfold saturating_sub, duration_saturating_add; try lia.
Qed.
Lemma io_slow_ok now io : io_ok now io -> io_ok now (io_slow io).
Proof. intros [? ? ?]. by split; cbn. Qed.
Lemma io_new_ok now enabled : io_ok now (io_begin now enabled NetIo_new).
Proof. by split; cbn; [| |vm_compute]. Qed.

Lemma prior_known log rq cached :
  (forall e, cached = Some e -> made log (from_request rq) e) ->
  prior_ok (log ++ match rq_prior_data rq with Some body => [LSupplied (from_request rq) body] | None => [] end)
    (from_request rq) (prior_response_with_cache rq cached).
Proof.
  intros Hc body. cbn. destruct (rq_prior_data rq) as [b|]; cbn.
  - intros [= <-]. right. apply elem_of_app. right. by left.
  - rewrite app_nil_r. destruct cached as [e|]; cbn; [|done]. intros He.
    destruct (Hc e eq_refl) as [status headers b now now' Hs Hin _ _ _ ->|headers prior b now now' _ _ _ Hk _ _ ->].
    + destruct (with_cache_metadata_fields now now' (Response_data b) headers PriorResponse_default) as (Hd & _).
      rewrite Hd in He. injection He as ->. left. eauto.
    + cbn in He. by injection He as ->.
Qed.

Lemma finish_fetch_made log rq a cache :
  attempt_ok log rq a -> map_Forall (made log) cache -> map_Forall (made log) (finish_fetch (from_request rq) a cache).2.
Proof.
  intros Ha Hc. unfold finish_fetch. cbn. destruct (fa_cache_policy a) eqn:Hp; [|by apply map_Forall_delete|done].
  unfold store. destruct (is_cacheable_response _) eqn:He; [|done]. apply map_Forall_insert_2; [|done]. by apply (at_store _ _ _ Ha).
Qed.

Lemma delay_bounded rq retry index : attempt_delay rq retry index <= MAX_RETRY_DELAY.
Proof. unfold attempt_delay. lia. Qed.

Definition step_content (now : Z) (rq : ResourceRequest) (s s' : Shared) (p' : Phase) : Prop :=
  sh_log s ⊆ sh_log s' /\ map_Forall (made (sh_log s')) (sh_cache s') /\
  map_Forall (fun _ => negative_ok now) (sh_negative s') /\ phase_ok (sh_log s') now rq p'.

Lemma end_attempt_content now rq lead bodies io a items s s' p' n :
  map_Forall (made (sh_log s)) (sh_cache s) -> map_Forall (fun _ => negative_ok now) (sh_negative s) ->
  lead_ok now lead -> attempt_ok (sh_log s ++ items) rq a ->
  end_attempt rq lead bodies io a items s = Some (s', p', n) -> step_content now rq s s' p'.
Proof.
  intros Hc Hn Hl Ha [= <- <- <-]. unfold step_content. cbn.
  assert (Hsub : sh_log s ⊆ sh_log s ++ items) by (by apply list_subseteq_app_l).
  split_and!; try done. eapply map_Forall_impl; [exact Hc|]. intros k e. by apply made_mono.
Qed.

Lemma send_step_content now sys rq lead prior io choice s s' p' n :
  clock_ok sys -> map_Forall (made (sh_log s)) (sh_cache s) -> map_Forall (fun _ => negative_ok now) (sh_negative s) ->
  phase_ok (sh_log s) now rq (TSend lead prior io) ->
  send_step now sys rq lead prior io choice s = Some (s', p', n) -> step_content now rq s s' p'.
Proof.
  intros Hsys Hc Hn (Hl & Hp & Hio) Hs. unfold send_step in Hs. destruct choice; try done.
  - destruct (slow_due _ _ _); [|done]. injection Hs as <- <- <-. refine (conj _ (conj _ (conj _ _))); [done..|]. cbn. split_and!; try done. by apply io_slow_ok.
  - eapply end_attempt_content; [..|exact Hs]; first [done|by apply retryable_ok].
  - destruct (timed_out _ _); [|done]. eapply end_attempt_content; [..|exact Hs]; first [done|by apply retryable_ok].
  - destruct (answer_attempt _ _ _ _ _ _) as [a|] eqn:Ha.
    + eapply end_attempt_content; [..|exact Hs]; first [done|by eapply answer_attempt_ok].
    + injection Hs as <- <- <-. refine (conj _ (conj _ (conj _ _))); [done..|]. cbn. split_and!; [done|by eapply answer_attempt_body|by apply io_end_ok].
Qed.

Lemma body_step_content now sys rq lead status headers body io choice s s' p' n :
  clock_ok sys -> map_Forall (made (sh_log s)) (sh_cache s) -> map_Forall (fun _ => negative_ok now) (sh_negative s) ->
  phase_ok (sh_log s) now rq (TBody lead status headers body io) ->
  body_step now sys rq lead status headers body io choice s = Some (s', p', n) -> step_content now rq s s' p'.
Proof.
  intros Hsys Hc Hn (Hl & Hst & Hb & Hio) Hs. unfold body_step in Hs. destruct choice as [| | | | |[|e|chunk|]]; try done.
  - destruct (slow_due _ _ _); [|done]. injection Hs as <- <- <-. refine (conj _ (conj _ (conj _ _))); [done..|]. cbn. split_and!; try done. by apply io_slow_ok.
  - destruct (timed_out _ _); [|done]. eapply end_attempt_content; [..|exact Hs]; first [done|by apply retryable_ok].
  - eapply end_attempt_content; [..|exact Hs]; first [done|by apply retryable_ok].
  - pose proof (chunk_attempt_ok (sh_log s) rq body chunk) as Hk. destruct (chunk_attempt _ _ _) as [a|body'].
    + eapply end_attempt_content; [..|exact Hs]; first [done|by rewrite app_nil_r].
    + injection Hs as <- <- <-. refine (conj _ (conj _ (conj _ _))); [done..|]. cbn. split_and!; try done. by apply io_begin_ok, io_end_ok.
  - eapply end_attempt_content; [..|exact Hs]; first [done|by apply body_attempt_ok].
Qed.

Lemma decide_step_content now rq lead a s s' p' n :
  map_Forall (made (sh_log s)) (sh_cache s) -> map_Forall (fun _ => negative_ok now) (sh_negative s) ->
  phase_ok (sh_log s) now rq (TDecide lead a) ->
  decide_step now rq lead a s = Some (s', p', n) -> step_content now rq s s' p'.
Proof.
  intros Hc Hn (Hl & Ha) Hs. unfold decide_step in Hs. destruct (fa_retry a) as [retry|] eqn:Hr.
  2: { injection Hs as <- <- <-. refine (conj _ (conj _ (conj _ _))); [done..|]. cbn. split_and!; try done. by apply final_answer_ok. }
  cbn [ld_started ld_index] in Hs. pose proof (delay_bounded rq retry (ld_index lead)) as Hd. unfold window_exceeded in Hs.
  destruct (_ >? RETRY_WINDOW) eqn:Hw; injection Hs as <- <- <-.
  - assert (Hsub : sh_log s ⊆ sh_log s ++ [LGaveUp (from_request rq) (now - ld_started lead)]) by (by apply list_subseteq_app_l).
    split_and!; cbn; try done.
    + eapply map_Forall_impl; [exact Hc|]. intros k e. by apply made_mono.
    + split_and!; [done|by eapply attempt_ok_mono|]. split.
      * intros body Hb. eapply delivered_mono; [done|]. by apply (at_data _ _ _ Ha).
      * intros _. exists (now - ld_started lead). split; [apply elem_of_app; right; by left|].
        unfold duration_saturating_add in Hw. rewrite Z.gtb_ltb, Z.ltb_lt in Hw. lia.
  - split_and!; cbn; try done. split; [done|]. rewrite Z.gtb_ltb, Z.ltb_ge in Hw. unfold duration_saturating_add in Hw.
    assert (RETRY_WINDOW < DURATION_MAX) by (by vm_compute). lia.
Qed.

Lemma advance_content now sys tasks choice s rq p s' p' n :
  clock_ok sys -> map_Forall (made (sh_log s)) (sh_cache s) -> map_Forall (fun _ => negative_ok now) (sh_negative s) ->
  phase_ok (sh_log s) now rq p ->
  (forall f w r, p = TWait f w -> sh_states s !! f = Some (FlComplete r) -> answer_ok (sh_log s) rq r) ->
  advance now sys tasks choice s {| tk_request := rq; tk_phase := p |} = Some (s', p', n) -> step_content now rq s s' p'.
Proof.
  intros Hsys Hc Hn Hp Hw Hadv. destruct p; unfold advance in Hadv; cbn [tk_request tk_phase] in Hadv.
  8: by eapply send_step_content. 9: by eapply body_step_content.
  all: destruct choice; try discriminate Hadv.
  10: by eapply decide_step_content.
  all: unfold stay, join_step, wait_step, complete_step in Hadv.
  - repeat case_match; simplify_eq; refine (conj _ (conj _ (conj _ _))); done.
  - repeat case_match; simplify_eq; refine (conj _ (conj _ (conj _ _))); try done. cbn.
    unfold complete_deferred_refresh in *. repeat case_match; simplify_eq. apply quiet_answer_ok; [done|by apply not_transient_ok].
  - destruct (sh_negative s !! from_request rq) as [[r e]|] eqn:He; simplify_eq; refine (conj _ (conj _ (conj _ _))); try done.
    destruct (now <? e); [|done]. apply Hn in He as (Hd & Ht & _). by apply quiet_answer_ok.
  - simplify_eq. refine (conj _ (conj _ (conj _ _))); try done. by apply map_Forall_delete.
  - destruct (sh_flights s !! flight_key rq); injection Hadv as <- <- <-; refine (conj _ (conj _ (conj _ _))); try done.
    cbn. unfold lead_ok. cbn. lia.
  - assert (Hcheck : forall w0, stay s (match sh_states s !! flight with Some (FlComplete r) => TDone r | Some FlAborted => TJoin
        | _ => TWait flight w0 end) = Some (s', p', n) -> step_content now rq s s' p').
    { intros w0 [= <- <- <-]. refine (conj _ (conj _ (conj _ _))); try done.
      destruct (sh_states s !! flight) as [[|r|]|] eqn:Hst; try done. by eapply Hw. }
    destruct wait as [| |woken|[]]; [by eapply Hcheck| |by eapply Hcheck| |done].
    all: injection Hadv as <- <- <-; by refine (conj _ (conj _ (conj _ _))).
  - case_match; [|done]. injection Hadv as <- <- <-.
    set (cached := if may_consult_shared_cache _ _ then _ else None).
    set (supplied := match rq_prior_data rq with Some body => _ | None => _ end).
    refine (conj _ (conj _ (conj _ _))); cbn [sh_log sh_cache sh_negative add_log add_evidence add_permits phase_ok].
    + by apply list_subseteq_app_l.
    + eapply map_Forall_impl; [exact Hc|]. intros k e. by apply made_mono, list_subseteq_app_l.
    + done.
    + split_and!; [done| |apply io_new_ok]. apply prior_known. intros e He. subst cached.
      destruct (may_consult_shared_cache _ _); [|done]. by apply Hc.
  - case_match; [|done]. injection Hadv as <- <- <-. refine (conj _ (conj _ (conj _ _))); try done. cbn.
    destruct Hp as (? & ? & ?). split_and!; [done|done| |by apply io_begin_ok].
    unfold max_resource_bytes. repeat case_match; by vm_compute.
  - destruct Hp as [Hl Ha]. destruct (fa_negative_cache_ttl attempt) as [ttl|] eqn:Httl;
      [destruct (uses_shared_cache _)|]; injection Hadv as <- <- <-; refine (conj _ (conj _ (conj _ _))); try done.
    apply map_Forall_insert_2; [|done]. destruct (at_negative _ _ _ Ha ttl Httl) as (Hb & Hd & Ht).
    split_and!; [done|done|]. cbn. lia.
  - case_match; [|done]. injection Hadv as <- <- <-. refine (conj _ (conj _ (conj _ _))); try done. apply Hp.
  - destruct Hp as (Hl & Ha & Hans). injection Hadv as <- <- <-. refine (conj _ (conj _ (conj _ _))); try done.
    by apply (finish_fetch_made (sh_log s) rq attempt).
  - case_match; injection Hadv as <- <- <-; by refine (conj _ (conj _ (conj _ _))).
  - injection Hadv as <- <- <-. by refine (conj _ (conj _ (conj _ _))).
  - injection Hadv as <- <- <-. by refine (conj _ (conj _ (conj _ _))).
  - injection Hadv as <- <- <-. by refine (conj _ (conj _ (conj _ _))).
  - injection Hadv as <- <- <-. by refine (conj _ (conj _ (conj _ _))).
Qed.
End Content.

(** ** Flights *)

(** The flight that a task leads. *)
Definition lead_of (p : Phase) : option nat :=
  match p with
  | TComplete flight _ | TAbort flight | TAbortNotify flight | TAbortRemove flight => Some flight
  | _ => ld_flight <$> lead_in p
  end.
Definition aborted (p : Phase) : bool := match p with TAbortNotify _ | TAbortRemove _ => true | _ => false end.
Definition notifies (flight : nat) (p : Phase) : bool :=
  match p with TNotify f _ | TAbortNotify f => Nat.eqb f flight | _ => false end.

Definition wait_just (s : Shared) (rq : ResourceRequest) (f : nat) : Prop :=
  exists st, sh_states s !! f = Some st /\
    match st with
    | FlPending => sh_flights s !! flight_key rq = Some f
    | FlComplete r => answer_ok (sh_log s) rq r
    | FlAborted => True
    end.

Record flights_core (s : Shared) (tasks : list Task) : Prop := {
  (** A flight has one leader, and its entry in the map is that of the leader's key. *)
  fl_unique i j ti tj f : tasks !! i = Some ti -> tasks !! j = Some tj ->
    lead_of (tk_phase ti) = Some f -> lead_of (tk_phase tj) = Some f -> i = j;
  fl_owned i t f : tasks !! i = Some t -> lead_of (tk_phase t) = Some f -> sh_flights s !! flight_key (tk_request t) = Some f;
  fl_led k f : sh_flights s !! k = Some f ->
    exists i t, tasks !! i = Some t /\ lead_of (tk_phase t) = Some f /\ flight_key (tk_request t) = k;
  fl_state i t f : tasks !! i = Some t -> lead_of (tk_phase t) = Some f ->
    sh_states s !! f = Some (if aborted (tk_phase t) then FlAborted else FlPending);
  (** A waiter has a flight under way for its key, a response for its request, or an
      aborted flight. *)
  fl_wait i t f w : tasks !! i = Some t -> tk_phase t = TWait f w -> wait_just s (tk_request t) f }.

(** A waiter that sleeps after the end of its flight is about to be notified. *)
Definition parked_ok (s : Shared) (tasks : list Task) : Prop :=
  forall i t f, tasks !! i = Some t -> tk_phase t = TWait f (WParked false) -> sh_states s !! f <> Some FlPending ->
    exists j u, tasks !! j = Some u /\ notifies f (tk_phase u) = true.

Section Flights.
Context `{FsExternals}.

Lemma wait_just_log s s' rq f :
  sh_flights s' = sh_flights s -> sh_states s' = sh_states s -> sh_log s ⊆ sh_log s' -> wait_just s rq f -> wait_just s' rq f.
Proof.
  intros Hf Hs Hl (st & Hst & Hok). exists st. rewrite Hs. split; [done|]. rewrite Hf. destruct st; try done. by eapply request_answer_mono.
Qed.
Lemma core_log s s' tasks :
  sh_flights s' = sh_flights s -> sh_states s' = sh_states s -> sh_log s ⊆ sh_log s' -> flights_core s tasks -> flights_core s' tasks.
Proof.
  intros Hf Hs Hl [Hu Ho Hled Hst Hw]. split; rewrite ?Hf, ?Hs; try done.
  intros i t f w Hi Ht. by eapply wait_just_log, Hw.
Qed.

Lemma insert_task (tasks : list Task) i t' j u :
  <[i := t']> tasks !! j = Some u -> (j = i /\ u = t') \/ (j <> i /\ tasks !! j = Some u).
Proof. intros [(-> & <- & _)|[Hne Hj]]%list_lookup_insert_Some; [by left|by right]. Qed.
Lemma inserted_task (tasks : list Task) i t t' : tasks !! i = Some t -> <[i := t']> tasks !! i = Some t'.
Proof. intros Hi. apply list_lookup_insert_eq. by eapply lookup_lt_Some. Qed.

(** A step that neither begins nor ends a flight. *)
Lemma core_replace s tasks i t p' :
  flights_core s tasks -> tasks !! i = Some t -> lead_of p' = lead_of (tk_phase t) -> aborted p' = aborted (tk_phase t) ->
  (forall f w, p' = TWait f w -> wait_just s (tk_request t) f) ->
  flights_core s (<[i := set_phase t p']> tasks).
Proof.
  intros [Hu Ho Hled Hst Hw] Hi Hl Ha Hwt.
  assert (Hlead : forall j u f, <[i := set_phase t p']> tasks !! j = Some u -> lead_of (tk_phase u) = Some f ->
    exists u', tasks !! j = Some u' /\ lead_of (tk_phase u') = Some f /\ tk_request u' = tk_request u /\
      aborted (tk_phase u') = aborted (tk_phase u)).
  { intros j u f [[-> ->]|[_ Hj]]%insert_task Hf; [|by eauto]. exists t. cbn in *. by rewrite <- Hl, <- Ha. }
  split.
  - intros j k tj tk f Hj Hk Hfj Hfk. destruct (Hlead _ _ _ Hj Hfj) as (uj & Hj' & Hfj' & _).
    destruct (Hlead _ _ _ Hk Hfk) as (uk & Hk' & Hfk' & _). by eapply Hu.
  - intros j u f Hj Hf. destruct (Hlead _ _ _ Hj Hf) as (u' & Hj' & Hf' & <- & _). by eapply Ho.
  - intros k f Hk. destruct (Hled k f Hk) as (j & u & Hj & Hf & Hkey). destruct (decide (j = i)) as [->|Hne].
    + exists i, (set_phase t p'). rewrite Hi in Hj. injection Hj as <-. split; [by eapply inserted_task|]. cbn. by rewrite Hl.
    + exists j, u. by rewrite list_lookup_insert_ne.
  - intros j u f Hj Hf. destruct (Hlead _ _ _ Hj Hf) as (u' & Hj' & Hf' & _ & <-). by eapply Hst.
  - intros j u f w [[-> ->]|[_ Hj]]%insert_task Hph; [by eapply Hwt|by eapply Hw].
Qed.

Lemma parked_replace s tasks i t p' f0 :
  parked_ok s tasks -> tasks !! i = Some t -> (forall f, notifies f (tk_phase t) = true -> f0 = Some f) ->
  (forall f, p' = TWait f (WParked false) -> sh_states s !! f = Some FlPending) ->
  parked_ok s (wake_all f0 (<[i := set_phase t p']> tasks)).
Proof.
  intros Hp Hi Hn Hpw. assert (Hone : forall j u f, <[i := set_phase t p']> tasks !! j = Some u -> tk_phase u = TWait f (WParked false) ->
    sh_states s !! f <> Some FlPending -> f0 <> Some f ->
    exists k v, <[i := set_phase t p']> tasks !! k = Some v /\ notifies f (tk_phase v) = true).
  { intros j u f [[-> ->]|[_ Hj]]%insert_task Hph Hst Hf0; [by apply Hpw in Hph|].
    destruct (Hp j u f Hj Hph Hst) as (k & v & Hk & Hv). exists k, v. split; [|done]. rewrite list_lookup_insert_ne; [done|].
    intros ->. rewrite Hi in Hk. injection Hk as <-. by apply Hf0, Hn. }
  destruct f0 as [f0|]; [|by intros j u f Hj Hph Hst; eapply Hone].
  intros j u f Hj Hph Hst. cbn in Hj. rewrite list_lookup_fmap in Hj. apply fmap_Some in Hj as (u0 & Hj & ->).
  assert (Hu0 : tk_phase u0 = TWait f (WParked false) /\ f <> f0).
  { cbn in Hph. destruct (tk_phase u0) as [| | | | |f1 [| | |]| | | | | | | | | | | | | | |]; try done; destruct (Nat.eqb_spec f1 f0); naive_solver. }
  destruct Hu0 as [Hu0 Hne]. destruct (Hone j u0 f Hj Hu0 Hst ltac:(naive_solver)) as (k & v & Hk & Hv).
  exists k, (wake f0 v). cbn [wake_all]. rewrite list_lookup_fmap, Hk. split; [done|].
  by destruct (wake_phase f0 v) as [->|(f' & w & w' & Hp' & _)]; [|rewrite Hp' in Hv].
Qed.

Lemma core_wake s tasks f0 : flights_core s tasks -> flights_core s (wake_all f0 tasks).
Proof.
  destruct f0 as [f0|]; [|done]. intros [Hu Ho Hled Hst Hw]. cbn [wake_all].
  assert (Hback : forall j u, (wake f0 <$> tasks) !! j = Some u -> exists v, tasks !! j = Some v /\ tk_request v = tk_request u /\
    lead_of (tk_phase v) = lead_of (tk_phase u) /\ aborted (tk_phase v) = aborted (tk_phase u) /\
    forall f w, tk_phase u = TWait f w -> exists w', tk_phase v = TWait f w').
  { intros j u Hj. rewrite list_lookup_fmap in Hj. apply fmap_Some in Hj as (v & Hj & ->). exists v. split; [done|]. split; [done|].
    destruct (wake_phase f0 v) as [->|(f & w & w' & -> & ->)]; split_and!; try done; [by eauto|]. intros ? ? [= <- <-]. by eauto. }
  split.
  - intros i j ti tj f Hi Hj Hfi Hfj. destruct (Hback _ _ Hi) as (vi & Hvi & _ & Hli & _).
    destruct (Hback _ _ Hj) as (vj & Hvj & _ & Hlj & _). apply (Hu i j vi vj f); congruence.
  - intros i t f Hi Hf. destruct (Hback _ _ Hi) as (v & Hv & <- & Hl & _). eapply Ho; [done|]. congruence.
  - intros k f Hk. destruct (Hled k f Hk) as (i & t & Hi & Hf & Hkey). exists i, (wake f0 t).
    rewrite list_lookup_fmap, Hi. split; [done|]. split; [|done].
    destruct (wake_phase f0 t) as [->|(f' & w & w' & Hp' & _)]; [done|]. by rewrite Hp' in Hf.
  - intros i t f Hi Hf. destruct (Hback _ _ Hi) as (v & Hv & _ & Hl & <- & _). eapply Hst; [done|]. congruence.
  - intros i t f w Hi Hph. destruct (Hback _ _ Hi) as (v & Hv & <- & _ & _ & Hwt). destruct (Hwt f w Hph) as [w' Hw']. by eapply Hw.
Qed.

(** *** Beginning and ending flights *)

Lemma lead_lt s tasks i t f : flights_core s tasks -> tasks !! i = Some t -> lead_of (tk_phase t) = Some f -> (f < length (sh_states s))%nat.
Proof. intros Hc Hi Hf. eapply lookup_lt_Some. by eapply fl_state. Qed.

Lemma begin_core s tasks i t lead :
  flights_core s tasks -> tasks !! i = Some t -> lead_of (tk_phase t) = None ->
  sh_flights s !! flight_key (tk_request t) = None -> ld_flight lead = length (sh_states s) ->
  let s' := with_flights <[flight_key (tk_request t) := length (sh_states s)]> (fun states => states ++ [FlPending]) s in
  flights_core s' (<[i := set_phase t (TAdmit lead)]> tasks).
Proof.
  intros Hc Hi Hl Hk Hf. pose proof Hc as [Hu Ho Hled Hst Hw]. cbn zeta. set (n := length (sh_states s)) in *.
  assert (Hold : forall j u f, tasks !! j = Some u -> lead_of (tk_phase u) = Some f -> j <> i /\ (f < n)%nat).
  { intros j u f Hj Hfj. split; [intros ->; congruence|by eapply lead_lt]. }
  split; cbn [with_flights sh_flights sh_states sh_log].
  - intros j k tj tk f [[-> ->]|[_ Hj]]%insert_task [[-> ->]|[_ Hk']]%insert_task Hfj Hfk; cbn in *; try done.
    + destruct (Hold k tk f Hk' Hfk). simplify_eq. lia.
    + destruct (Hold j tj f Hj Hfj). simplify_eq. lia.
    + by eapply Hu.
  - intros j u f [[-> ->]|[_ Hj]]%insert_task Hfj; cbn in *.
    + injection Hfj as <-. rewrite Hf. apply lookup_insert_eq.
    + rewrite lookup_insert_ne; [by eapply Ho|]. intros He. pose proof (Ho j u f Hj Hfj) as Hx. rewrite <- He in Hx. congruence.
  - intros k f [[<- <-]|[Hne Hkf]]%lookup_insert_Some.
    + exists i, (set_phase t (TAdmit lead)). split; [by eapply inserted_task|]. cbn. by rewrite Hf.
    + destruct (Hled k f Hkf) as (j & u & Hj & Hfj & Hkey). destruct (Hold j u f Hj Hfj) as [Hji _].
      exists j, u. by rewrite list_lookup_insert_ne.
  - intros j u f [[-> ->]|[_ Hj]]%insert_task Hfj; cbn in *.
    + injection Hfj as <-. rewrite Hf. unfold n. by rewrite lookup_app_r, Nat.sub_diag by lia.
    + rewrite lookup_app_l by (by eapply lead_lt). by eapply Hst.
  - intros j u f w [[-> ->]|[_ Hj]]%insert_task Hph; [done|]. destruct (Hw j u f w Hj Hph) as (st & Hst' & Hok).
    exists st. cbn. rewrite lookup_app_l by (by eapply lookup_lt_Some). split; [done|]. destruct st; try done.
    rewrite lookup_insert_ne; [done|]. intros He. rewrite <- He in Hok. congruence.
Qed.

(** The end of a flight: its entry is removed, and its state is kept or set. *)
Lemma end_core s tasks i t f p' g :
  flights_core s tasks -> tasks !! i = Some t -> lead_of (tk_phase t) = Some f -> lead_of p' = None ->
  (forall f' w, p' <> TWait f' w) -> (forall f', f' <> f -> g (sh_states s) !! f' = sh_states s !! f') ->
  (forall j u w, tasks !! j = Some u -> tk_phase u = TWait f w -> exists st, g (sh_states s) !! f = Some st /\
     match st with FlPending => False | FlComplete r => answer_ok (sh_log s) (tk_request u) r | FlAborted => True end) ->
  flights_core (with_flights (delete (flight_key (tk_request t))) g s) (<[i := set_phase t p']> tasks).
Proof.
  intros Hc Hi Hl Hl' Hnw Hg Hwf. pose proof Hc as [Hu Ho Hled Hst Hw]. pose proof (Ho i t f Hi Hl) as Hk.
  assert (Hother : forall j u f', j <> i -> tasks !! j = Some u -> lead_of (tk_phase u) = Some f' -> f' <> f).
  { intros j u f' Hji Hj Hfj ->. by apply Hji, (Hu j i u t f). }
  assert (Hkey : forall k f', sh_flights s !! k = Some f' -> f' <> f -> flight_key (tk_request t) <> k).
  { intros k f' Hk' Hne He. subst k. congruence. }
  split; cbn [with_flights sh_flights sh_states sh_log].
  - intros j k tj tk f' [[-> ->]|[_ Hj]]%insert_task [[-> ->]|[_ Hk']]%insert_task Hfj Hfk; cbn in *; try congruence. by eapply Hu.
  - intros j u f' [[-> ->]|[Hji Hj]]%insert_task Hfj; cbn in *; [congruence|].
    rewrite lookup_delete_ne; [by eapply Ho|]. eapply Hkey; [by eapply Ho|by eapply Hother].
  - intros k f' [Hne Hkf]%lookup_delete_Some. destruct (Hled k f' Hkf) as (j & u & Hj & Hfj & Hkey').
    exists j, u. rewrite list_lookup_insert_ne; [done|]. intros ->. rewrite Hi in Hj. injection Hj as <-. congruence.
  - intros j u f' [[-> ->]|[Hji Hj]]%insert_task Hfj; cbn in *; [congruence|]. rewrite Hg by (by eapply Hother). by eapply Hst.
  - intros j u f' w [[-> ->]|[Hji Hj]]%insert_task Hph; [by apply Hnw in Hph|].
    destruct (decide (f' = f)) as [->|Hne].
    + destruct (Hwf j u w Hj Hph) as (st & Hst' & Hok). exists st. split; [done|]. by destruct st.
    + destruct (Hw j u f' w Hj Hph) as (st & Hst' & Hok). exists st. cbn. rewrite Hg by done. split; [done|].
      destruct st; try done. rewrite lookup_delete_ne; [done|]. by eapply Hkey.
Qed.

(** The abortion of a flight. *)
Lemma abort_core s tasks i t f :
  flights_core s tasks -> tasks !! i = Some t -> tk_phase t = TAbort f ->
  flights_core (with_flights id <[f := FlAborted]> s) (<[i := set_phase t (TAbortNotify f)]> tasks).
Proof.
  intros Hc Hi Hph. pose proof Hc as [Hu Ho Hled Hst Hw].
  assert (Hl : lead_of (tk_phase t) = Some f) by (by rewrite Hph).
  assert (Hlt : (f < length (sh_states s))%nat) by (by eapply lead_lt).
  split; cbn [with_flights sh_flights sh_states sh_log id].
  - intros j k tj tk f' [[-> ->]|[_ Hj]]%insert_task [[-> ->]|[_ Hk']]%insert_task Hfj Hfk; cbn in *; simplify_eq; try done.
    + by apply (Hu i k t tk f').
    + by apply (Hu j i tj t f').
    + by eapply Hu.
  - intros j u f' [[-> ->]|[Hji Hj]]%insert_task Hfj; cbn in *; simplify_eq; by eapply Ho.
  - intros k f' Hk. destruct (Hled k f' Hk) as (j & u & Hj & Hfj & Hkey). destruct (decide (j = i)) as [->|Hne].
    + exists i, (set_phase t (TAbortNotify f)). rewrite Hi in Hj. injection Hj as <-. split; [by eapply inserted_task|]. cbn. split; [congruence|done].
    + exists j, u. by rewrite list_lookup_insert_ne.
  - intros j u f' [[-> ->]|[Hji Hj]]%insert_task Hfj; cbn in *; simplify_eq.
    + by rewrite list_lookup_insert_eq.
    + rewrite list_lookup_insert_ne; [by eapply Hst|]. intros <-. by apply Hji, (Hu j i u t f).
  - intros j u f' w [[-> ->]|[Hji Hj]]%insert_task Hph'; [done|]. destruct (decide (f' = f)) as [->|Hne].
    + exists FlAborted. cbn. by rewrite list_lookup_insert_eq.
    + destruct (Hw j u f' w Hj Hph') as (st & Hst' & Hok). exists st. cbn. by rewrite list_lookup_insert_ne.
Qed.
End Flights.

(** ** The invariant *)

Section Invariant.
Context `{FsExternals} (io_permits : FileSourceIoPermits).

Record fs_inv (y : FsSystem) : Prop := {
  fi_content : content_ok (fy_now y) (fy_shared y) (fy_tasks y);
  fi_core : flights_core (fy_shared y) (fy_tasks y);
  fi_parked : parked_ok (fy_shared y) (fy_tasks y) }.

(** The phases whose step begins or ends a flight, or notifies. *)
Definition flight_step (p : Phase) : bool :=
  match p with TJoin | TComplete _ _ | TNotify _ _ | TAbort _ | TAbortNotify _ | TAbortRemove _ => true | _ => false end.

Lemma advance_neutral now sys tasks choice s rq p s' p' n :
  flight_step p = false -> advance now sys tasks choice s {| tk_request := rq; tk_phase := p |} = Some (s', p', n) ->
  n = None /\ sh_flights s' = sh_flights s /\ sh_states s' = sh_states s /\
  lead_of p' = lead_of p /\ aborted p' = aborted p /\ (forall f, notifies f p = false) /\
  (forall f w', p' = TWait f w' -> (exists w, p = TWait f w) /\
     (w' = WParked false -> sh_states s !! f = Some FlPending \/ sh_states s !! f = None)).
Proof.
  intros Hp Hadv. destruct p; try discriminate Hp; destruct choice; try discriminate Hadv; step_cases Hadv.
  all: split_and!; try done; try (intros ? ? [=]; fail).
  all: intros f0 w' Hw'; simplify_eq; split; [by eauto|].
  all: try (intros [=]; fail). all: auto.
Qed.

Lemma cancel_neutral s t s' p' :
  cancel s t = Some (s', p') ->
  sh_flights s' = sh_flights s /\ sh_states s' = sh_states s /\ sh_log s' = sh_log s /\ sh_cache s' = sh_cache s /\
  sh_negative s' = sh_negative s /\ lead_of p' = lead_of (tk_phase t) /\ aborted p' = aborted (tk_phase t) /\
  (forall f, notifies f (tk_phase t) = false) /\ (forall f w, p' <> TWait f w) /\
  forall log now, phase_ok log now (tk_request t) p'.
Proof. destruct t as [rq p]. intros Hc. destruct p; try discriminate Hc; cbn in Hc; simplify_eq/=; split_and!; done. Qed.

(** Content after one task moved. *)
Lemma content_replace now s s' tasks i t p' n :
  content_ok now s tasks -> tasks !! i = Some t -> step_content now (tk_request t) s s' p' ->
  content_ok now s' (wake_all n (<[i := set_phase t p']> tasks)).
Proof.
  intros [Hc Hn Ht] Hi (Hl & Hc' & Hn' & Hp'). split; try done.
  assert (Hone : forall j u, <[i := set_phase t p']> tasks !! j = Some u -> phase_ok (sh_log s') now (tk_request u) (tk_phase u)).
  { intros j u [[-> ->]|[_ Hj]]%insert_task; [done|]. eapply phase_ok_mono; [done| |by eapply Ht]. lia. }
  destruct n as [f|]; [|done]. intros j u Hj. cbn in Hj. rewrite list_lookup_fmap in Hj. apply fmap_Some in Hj as (v & Hj & ->).
  apply Hone in Hj. change (tk_request (wake f v)) with (tk_request v).
  by destruct (wake_phase f v) as [->|(f' & w & w' & _ & ->)].
Qed.

Lemma waiters_answered s tasks i t f r j u w :
  flights_core s tasks -> tasks !! i = Some t -> tk_phase t = TComplete f r -> answer_ok (sh_log s) (tk_request t) r ->
  tasks !! j = Some u -> tk_phase u = TWait f w -> answer_ok (sh_log s) (tk_request u) r.
Proof.
  intros Hc Hi Hph Hr Hj Hpu. destruct (fl_wait _ _ Hc j u f w Hj Hpu) as (st & Hst & Hok).
  assert (Hl : lead_of (tk_phase t) = Some f) by (by rewrite Hph).
  pose proof (fl_state _ _ Hc i t f Hi Hl) as Hst'. rewrite Hph in Hst'. rewrite Hst' in Hst. injection Hst as <-.
  destruct (fl_led _ _ Hc _ _ Hok) as (k & v & Hk & Hfk & Hkey).
  assert (k = i) as -> by (by apply (fl_unique _ _ Hc k i v t f)). rewrite Hi in Hk. injection Hk as <-.
  assert (Hal : alike (tk_request t) (tk_request u)) by (by apply flight_key_alike).
  assert (Hfr : from_request (tk_request t) = from_request (tk_request u)) by (exact (f_equal fk_resource Hkey)).
  destruct Hr as [Hd Ht]. split; [|by rewrite <- Hfr].
  intros body Hb. destruct (Hd body Hb) as (Hlen & Hx). split; [by rewrite <- (al_kind _ _ Hal)|by rewrite <- Hfr].
Qed.

Lemma unshared_no_waiter s tasks i t f j u w :
  flights_core s tasks -> tasks !! i = Some t -> lead_of (tk_phase t) = Some f ->
  (strong_count (flight_key (tk_request t)) f tasks s >? 1 + Z.b2z (map_owns_flight (flight_key (tk_request t)) f s)) = false ->
  tasks !! j = Some u -> tk_phase u <> TWait f w.
Proof.
  intros Hc Hi Hl Hcount Hj Hph. unfold strong_count in Hcount. rewrite Z.gtb_ltb, Z.ltb_ge in Hcount.
  assert (Hw : waits_for f u = true) by (unfold waits_for; rewrite Hph; apply Nat.eqb_refl).
  pose proof (count_ge (waits_for f) _ _ _ Hj Hw). lia.
Qed.

(** The flight ends, and its leader is about to notify. *)
Lemma parked_end s s' tasks i t f p' st :
  parked_ok s tasks -> tasks !! i = Some t -> sh_states s' = <[f := st]> (sh_states s) -> notifies f p' = true ->
  (forall g, notifies g (tk_phase t) = false) -> (forall g w, p' <> TWait g w) ->
  parked_ok s' (<[i := set_phase t p']> tasks).
Proof.
  intros Hp Hi Hs Hn Hn' Hnw j u g [[-> ->]|[Hji Hj]]%insert_task Hph Hst; [by apply Hnw in Hph|].
  destruct (decide (g = f)) as [->|Hne].
  - exists i, (set_phase t p'). split; [by eapply inserted_task|done].
  - rewrite Hs, list_lookup_insert_ne in Hst by done. destruct (Hp j u g Hj Hph Hst) as (k & v & Hk & Hv).
    exists k, v. split; [|done]. rewrite list_lookup_insert_ne; [done|]. intros ->. rewrite Hi in Hk. injection Hk as <-. by rewrite Hn' in Hv.
Qed.

Lemma core_step now sys tasks choice s t s' p' n i :
  flight_step (tk_phase t) = true -> flights_core s tasks -> tasks !! i = Some t ->
  phase_ok (sh_log s) now (tk_request t) (tk_phase t) ->
  advance now sys tasks choice s t = Some (s', p', n) -> flights_core s' (wake_all n (<[i := set_phase t p']> tasks)).
Proof.
  intros Hfs Hcore Hi Hok Hadv. destruct t as [rq p]. cbn [tk_phase tk_request] in *.
  assert (Howns : forall f, lead_of p = Some f -> map_owns_flight (flight_key rq) f s = true).
  { intros f Hf. apply bool_decide_eq_true_2. by apply (fl_owned _ _ Hcore i _ f Hi). }
  destruct p as [| | | | | | | | | | | | | |f r|f r| |f|f|f|]; try discriminate Hfs.
  all: destruct choice; try discriminate Hadv; unfold advance in Hadv; cbn [tk_phase tk_request] in Hadv.
  - unfold join_step, stay in Hadv. destruct (sh_flights s !! flight_key rq) as [f|] eqn:Hf; injection Hadv as <- <- <-.
    + apply core_replace; try done. intros f' w [= <- <-]. destruct (fl_led _ _ Hcore _ _ Hf) as (j & u & Hj & Hfj & _).
      eexists. split; [by apply (fl_state _ _ Hcore j u f)|]. by destruct (aborted (tk_phase u)).
    + by apply (begin_core s tasks i {| tk_request := rq; tk_phase := TJoin |}).
  - unfold complete_step, stay in Hadv. rewrite (Howns f eq_refl) in Hadv. cbv zeta in Hadv.
    destruct (_ >? _) eqn:Hcount; injection Hadv as <- <- <-.
    + apply (end_core s tasks i {| tk_request := rq; tk_phase := TComplete f r |} f); try done.
      * intros f' Hne. by rewrite list_lookup_insert_ne.
      * intros j u w Hj Hph. exists (FlComplete r). rewrite list_lookup_insert_eq by (by apply (lead_lt s tasks i _ f Hcore Hi)).
        split; [done|]. by eapply (waiters_answered s tasks i).
    + apply (end_core s tasks i {| tk_request := rq; tk_phase := TComplete f r |} f); try done.
      intros j u w Hj Hph. exfalso. eapply (unshared_no_waiter s tasks i); try done. cbn [tk_request]. by rewrite (Howns f eq_refl).
  - injection Hadv as <- <- <-. apply core_wake. by apply core_replace.
  - injection Hadv as <- <- <-. by apply abort_core.
  - injection Hadv as <- <- <-. apply core_wake. by apply core_replace.
  - rewrite (Howns f eq_refl) in Hadv. injection Hadv as <- <- <-.
    apply (end_core s tasks i {| tk_request := rq; tk_phase := TAbortRemove f |} f); try done.
    intros j u w Hj Hph. exists FlAborted. split; [|done]. by apply (fl_state _ _ Hcore i _ f Hi).
Qed.

Lemma parked_step now sys tasks choice s t s' p' n i :
  flight_step (tk_phase t) = true -> flights_core s tasks -> parked_ok s tasks -> tasks !! i = Some t ->
  advance now sys tasks choice s t = Some (s', p', n) -> parked_ok s' (wake_all n (<[i := set_phase t p']> tasks)).
Proof.
  intros Hfs Hcore Hpark Hi Hadv. destruct t as [rq p]. cbn [tk_phase tk_request] in *.
  destruct p as [| | | | | | | | | | | | | |f r|f r| |f|f|f|]; try discriminate Hfs.
  all: destruct choice; try discriminate Hadv; unfold advance in Hadv; cbn [tk_phase tk_request] in Hadv.
  - unfold join_step, stay in Hadv. destruct (sh_flights s !! flight_key rq) as [f|] eqn:Hf; injection Hadv as <- <- <-.
    + by apply (parked_replace s tasks i _ _ None).
    + intros j u g [[-> ->]|[Hji Hj]]%insert_task Hph Hst; [done|]. destruct (fl_wait _ _ Hcore j u g _ Hj Hph) as (st & Hst' & _).
      cbn in Hst. rewrite lookup_app_l in Hst by (by eapply lookup_lt_Some).
      destruct (Hpark j u g Hj Hph Hst) as (k & v & Hk & Hv). exists k, v. split; [|done].
      cbn [wake_all]. rewrite list_lookup_insert_ne; [done|]. intros ->. rewrite Hi in Hk. by injection Hk as <-.
  - unfold complete_step, stay in Hadv. cbv zeta in Hadv. destruct (_ >? _); injection Hadv as <- <- <-.
    + eapply parked_end; try done. cbn. apply Nat.eqb_refl.
    + by apply (parked_replace s tasks i _ _ None).
  - injection Hadv as <- <- <-. apply (parked_replace s tasks i); try done. intros g Hg. cbn in Hg. by apply Nat.eqb_eq in Hg as ->.
  - injection Hadv as <- <- <-. eapply parked_end; try done. cbn. apply Nat.eqb_refl.
  - injection Hadv as <- <- <-. apply (parked_replace s tasks i); try done. intros g Hg. cbn in Hg. by apply Nat.eqb_eq in Hg as ->.
  - injection Hadv as <- <- <-. by apply (parked_replace s tasks i _ _ None).
Qed.

Lemma fs_run_inv y i choice sys t s' p' n :
  clock_ok sys -> fs_inv y -> fy_tasks y !! i = Some t ->
  advance (fy_now y) sys (fy_tasks y) choice (fy_shared y) t = Some (s', p', n) ->
  fs_inv {| fy_now := fy_now y; fy_shared := s'; fy_tasks := wake_all n (<[i := set_phase t p']> (fy_tasks y)) |}.
Proof.
  intros Hsys [Hcont Hcore Hpark] Hi Hadv. destruct y as [now s tasks]. cbn [fy_now fy_shared fy_tasks] in *.
  assert (Hstep : step_content now (tk_request t) s s' p').
  { destruct t as [rq p]. eapply advance_content; [done|apply Hcont|apply Hcont|by apply (co_tasks _ _ _ Hcont i _ Hi)| |done].
    intros f w r Hp Hst. destruct (fl_wait _ _ Hcore i _ f w Hi Hp) as (st & Hst' & Hok). rewrite Hst in Hst'. by injection Hst' as <-. }
  split; cbn [fy_now fy_shared fy_tasks]; [by eapply content_replace|..]; destruct (flight_step (tk_phase t)) eqn:Hfs.
  - eapply core_step; try done. by apply (co_tasks _ _ _ Hcont i).
  - destruct t as [rq p]. destruct (advance_neutral _ _ _ _ _ _ _ _ _ _ Hfs Hadv) as (-> & Hf & Hs & Hl & Ha & _ & Hw).
    apply (core_log s); [done|done|apply Hstep|]. apply core_replace; try done. intros f w Hp'.
    destruct (Hw f w Hp') as [[w0 Hw0] _]. by eapply (fl_wait _ _ Hcore i).
  - by eapply parked_step.
  - destruct t as [rq p]. destruct (advance_neutral _ _ _ _ _ _ _ _ _ _ Hfs Hadv) as (-> & Hf & Hs & Hl & Ha & Hn & Hw).
    intros j u f. rewrite Hs. apply (parked_replace s tasks i _ p' None); try done.
    + intros g Hg. cbn in Hg. by rewrite Hn in Hg.
    + intros g Hg. destruct (Hw g _ Hg) as [[w0 Hw0] Hst]. destruct (Hst eq_refl) as [|Hnone]; [done|].
      destruct (fl_wait _ _ Hcore i _ g w0 Hi Hw0) as (st & Hst' & _). congruence.
Qed.

Lemma fs_inv_step e y y' : event_ok e -> fstep e y = Some y' -> fs_inv y -> fs_inv y'.
Proof.
  intros He Hs Hinv. pose proof Hinv as [[Hc Hn Ht] Hcore Hpark]. destruct e as [d|rq|k|k|i choice sys|i]; cbn in He, Hs.
  - injection Hs as <-. split; cbn; try done. split; cbn; try done.
    + eapply map_Forall_impl; [exact Hn|]. intros k v (? & ? & ?). split_and!; [done|done|]. lia.
    + intros i t Hi. eapply phase_ok_mono; [done| |by eapply Ht]. lia.
  - injection Hs as <-. assert (Hlook : forall j u, (fy_tasks y ++ [{| tk_request := rq; tk_phase := TStart |}]) !! j = Some u ->
      fy_tasks y !! j = Some u \/ u = {| tk_request := rq; tk_phase := TStart |}).
    { intros j u [Hj|[_ Hj]]%lookup_app_Some; [by left|]. apply list_lookup_singleton_Some in Hj as [_ <-]. by right. }
    split; cbn.
    + split; cbn; try done. intros j u [Hj| ->]%Hlook; [by eapply Ht|done].
    + destruct Hcore as [Hu Ho Hled Hst Hw]. split.
      * intros j k tj tk f [Hj| ->]%Hlook [Hk| ->]%Hlook; try done. by eapply Hu.
      * intros j u f [Hj| ->]%Hlook; [by eapply Ho|done].
      * intros k f Hk. destruct (Hled k f Hk) as (j & u & Hj & Hrest). exists j, u. split; [|done]. by apply lookup_app_l_Some.
      * intros j u f [Hj| ->]%Hlook; [by eapply Hst|done].
      * intros j u f w [Hj| ->]%Hlook; [by eapply Hw|done].
    + intros j u f [Hj| ->]%Hlook; [|done]. intros Hph Hst. destruct (Hpark j u f Hj Hph Hst) as (k & v & Hk & Hv).
      exists k, v. split; [|done]. by apply lookup_app_l_Some.
  - injection Hs as <-. split; cbn; try done; [|by apply (core_log (fy_shared y))]. split; cbn; try done. by apply map_Forall_delete.
  - injection Hs as <-. split; cbn; try done; [|by apply (core_log (fy_shared y))]. split; cbn; try done. by apply map_Forall_delete.
  - apply bind_Some in Hs as (t & Hi & Hs). apply bind_Some in Hs as ([[s p'] n] & Hadv & [= <-]). by eapply fs_run_inv.
  - apply bind_Some in Hs as (t & Hi & Hs). apply bind_Some in Hs as ([s p'] & Hcan & [= <-]).
    destruct (cancel_neutral _ _ _ _ Hcan) as (Hf & Hst & Hl & Hca & Hne & Hlead & Hab & Hnot & Hnw & Hph).
    split; cbn [fy_now fy_shared fy_tasks].
    + apply (content_replace _ (fy_shared y) s (fy_tasks y) i t p' None); [done|done|].
      refine (conj _ (conj _ (conj _ _))); rewrite ?Hl, ?Hca, ?Hne; done.
    + apply (core_log (fy_shared y)); [done|done|by rewrite Hl|]. apply core_replace; try done. intros f w Hp. by apply Hnw in Hp.
    + intros j u f. rewrite Hst. apply (parked_replace _ _ i _ p' None); try done; [by intros g Hg; rewrite Hnot in Hg|].
      intros g Hg. by apply Hnw in Hg.
Qed.

Lemma fs_reachable_inv y : reachable io_permits y -> fs_inv y.
Proof.
  induction 1 as [|e y y' _ IH He Hs]; [|by eapply fs_inv_step]. split; cbn.
  - split; cbn; [apply map_Forall_empty|apply map_Forall_empty|done].
  - by split.
  - done.
Qed.
End Invariant.

(** ** What the invariants give *)

Section Guarantees.
Context `{FsExternals} (io_permits : FileSourceIoPermits).

(** The bytes of the bodies that are being read. *)
Definition buffered (t : Task) : Z := match tk_phase t with TBody _ _ _ body _ => Z.of_nat (length body) | _ => 0 end.
Definition buffered_bytes (tasks : list Task) : Z := foldr (fun t n => buffered t + n) 0 tasks.

Lemma kind_bound kind : 0 <= max_resource_bytes kind <= 16 * MIB.
Proof. unfold max_resource_bytes. repeat case_match; by vm_compute. Qed.

Lemma buffered_bound now s tasks : content_ok now s tasks -> 0 <= buffered_bytes tasks <= count reading tasks * (16 * MIB).
Proof.
  intros [_ _ Ht]. induction tasks as [|t tasks IH]; [done|].
  assert (Hrest : 0 <= buffered_bytes tasks <= count reading tasks * (16 * MIB)) by (apply IH; intros i u Hi; by apply (Ht (S i))).
  assert (Hcount : count reading (t :: tasks) = Z.b2z (reading t) + count reading tasks).
  { unfold count. cbn [List.filter]. destruct (reading t); cbn [length Z.b2z]; lia. }
  rewrite Hcount. cbn [buffered_bytes foldr]. fold (buffered_bytes tasks). pose proof (Ht 0%nat t eq_refl) as Hp.
  assert (0 <= MIB) by (by vm_compute).
  set (c := count reading tasks) in *. unfold buffered, reading. destruct (tk_phase t); cbn [Z.b2z]; try lia.
  destruct Hp as (_ & _ & Hb & _). pose proof (kind_bound (rq_kind (tk_request t))). lia.
Qed.

Lemma evidence_exact s tasks :
  accounted io_permits s tasks ->
  has_external_evidence s = true <-> exists i t, tasks !! i = Some t /\ (retrying t = true \/ slow_io t = true).
Proof.
  intros [_ _ _ Hr Hs]. unfold has_external_evidence. rewrite Hr, Hs. split.
  - intros Hx. assert (Hpos : 0 < count retrying tasks \/ 0 < count slow_io tasks).
    { pose proof (count_pos retrying tasks). pose proof (count_pos slow_io tasks).
      destruct (Z.eqb_spec (count retrying tasks) 0), (Z.eqb_spec (count slow_io tasks) 0); cbn in Hx; try done; lia. }
    destruct Hpos as [(i & t & Hi & Ht)%count_exists|(i & t & Hi & Ht)%count_exists]; eauto.
  - intros (i & t & Hi & [Ht|Ht]); pose proof (count_ge _ _ _ _ Hi Ht);
      [destruct (Z.eqb_spec (count retrying tasks) 0)|destruct (Z.eqb_spec (count slow_io tasks) 0)]; try lia; cbn; by rewrite ?orb_true_r.
Qed.

(** A fresh entry: a known body that the origin of the key sent or confirmed with headers
    that allow it to be kept, before the expiry computed from them. *)
Lemma hit_sound log cache t key response :
  map_Forall (made log) cache -> lookup t key cache = LookupHit response ->
  exists body headers expires, rs_data response = Some body /\ known log key body /\ storable headers /\
    ((exists status, success status /\ LBody key status headers body ∈ log) \/ LConfirmed key headers ∈ log) /\
    rs_expires response = Some expires /\ t < expires.
Proof.
  intros Hc Hl. destruct (cache !! key) as [e|] eqn:Hk; [|by unfold lookup in Hl; rewrite Hk in Hl].
  destruct (Hc _ _ Hk) as [status headers body now now' Hs Hin Hst H0 Hn He|headers prior body now now' Hin Hst Hp Hkn H0 Hn He].
  - destruct (with_cache_metadata_fields now now' (Response_data body) headers PriorResponse_default) as (Hd & _ & _ & _ & _ & Hx & Hm).
    rewrite <- He in Hd, Hx, Hm. cbn [rs_expires Response_data rs_must_revalidate] in Hx, Hm. rewrite orb_false_r in Hm.
    assert (Hx' : rs_expires e = computed_expires now now' headers PriorResponse_default) by (rewrite Hx; by destruct (computed_expires _ _ _ _)).
    destruct (hit_unexpired now now' headers PriorResponse_default key cache t e response Hn Hk Hx' Hm Hl) as (-> & expires & Hce & Hlt).
    exists body, headers, expires. rewrite Hx', Hce. split_and!; try done; left; eauto.
  - destruct (with_cache_metadata_fields now now' Response_not_modified headers prior) as (_ & _ & _ & _ & _ & Hx & Hm).
    cbn in Hx, Hm. rewrite orb_false_r in Hm.
    assert (Hx' : rs_expires e = computed_expires now now' headers prior)
      by (rewrite He; cbn [rs_expires set_data set_not_modified]; rewrite Hx; by destruct (computed_expires _ _ _ _)).
    assert (Hm' : rs_must_revalidate e = requires_validation (parsed_cache_control headers) prior) by (by rewrite He).
    destruct (hit_unexpired now now' headers prior key cache t e response Hn Hk Hx' Hm' Hl) as (-> & expires & Hce & Hlt).
    exists body, headers, expires. rewrite Hx', Hce, He. split_and!; try done. by right.
Qed.

End Guarantees.

(** ** Every request is answered *)

(** The steps of requests and the passing of time. *)
Definition progress_event (e : Event) : Prop :=
  match e with EvTick _ | EvRun _ _ _ => event_ok e | _ => False end.
(** The request was dropped. *)
Definition dropped (p : Phase) : bool :=
  match p with TAbort _ | TAbortNotify _ | TAbortRemove _ | TGone => true | _ => false end.
Definition settled (p : Phase) : bool := match p with TDone _ | TGone => true | _ => false end.

(** What is left of dropping a request. *)
Definition drop_rank (t : Task) : nat :=
  match tk_phase t with TAbort _ => 3 | TAbortNotify _ => 2 | TAbortRemove _ => 1 | _ => 0 end.
(** What is left of a wait for a flight under way, ended, or aborted. *)
Definition wait_rank (st : option FlightState) (w : WaitPhase) : nat :=
  match st with
  | Some (FlComplete _) =>
      match w with WFast | WRegistered _ => 2 | WEnter => 3 | WParked true => 4 | WParked false => 10 end
  | Some FlAborted =>
      match w with WFast | WRegistered _ => 31 | WEnter => 32 | WParked true => 33 | WParked false => 39 end
  | _ =>
      match w with WFast => 26 | WRegistered true => 25 | WParked true => 24 | WEnter => 23 | WRegistered false => 22
                 | WParked false => 21 end
  end.
(** What is left of a request whose attempts are answered for good. *)
Definition rank (states : list FlightState) (t : Task) : nat :=
  match tk_phase t with
  | TStart => 34 | TDeferred _ _ => 33 | TNegative => 32 | TNegativeDrop => 31 | TJoin => 30
  | TWait f w => wait_rank (states !! f) w
  | TAdmit _ => 12 | TSend _ _ _ => 11 | TBodyWait _ _ _ _ => 10 | TBody _ _ _ _ _ => 9
  | TInsert _ a => match fa_retry a with Some _ => 15 | None => 5 end
  | TDecide _ a => match fa_retry a with Some _ => 14 | None => 4 end
  | TBackoff _ _ => 13 | TFinish _ _ => 3 | TComplete _ _ => 2 | TNotify _ _ => 1
  | _ => 0
  end.

Lemma frun_reachable `{FsExternals} io_permits evs y y' :
  Forall event_ok evs -> frun evs y = Some y' -> reachable io_permits y -> reachable io_permits y'.
Proof.
  intros Hok. revert y. induction Hok as [|e evs He _ IH]; intros y Hr Hy; cbn in Hr; [by simplify_eq|].
  apply bind_Some in Hr as (y1 & Hs & Hr). eapply IH; [done|]. by eapply reachable_step.
Qed.

Section Liveness.
Context `{FsExternals} (io_permits : FileSourceIoPermits).

Lemma sum_decrease (f f' : Task -> nat) (g : Task -> Task) tasks i t t' :
  tasks !! i = Some t -> (f' (g t') < f t)%nat ->
  (forall j u, j <> i -> tasks !! j = Some u -> (f' (g u) <= f u)%nat) ->
  (sum_list (f' <$> (g <$> <[i := t']> tasks)) < sum_list (f <$> tasks))%nat.
Proof.
  revert i. induction tasks as [|u tasks IH]; intros [|i] Hi Hlt Hle; try done; cbn in *.
  - injection Hi as ->. assert (Hrest : (sum_list (f' <$> (g <$> tasks)) <= sum_list (f <$> tasks))%nat); [|lia].
    assert (Hall : forall j v, tasks !! j = Some v -> (f' (g v) <= f v)%nat) by (intros j v; apply (Hle (S j)); lia).
    clear -Hall. induction tasks as [|v tasks IH]; cbn; [done|]. pose proof (Hall 0%nat v eq_refl).
    assert (forall j v, tasks !! j = Some v -> (f' (g v) <= f v)%nat) by (intros j; apply (Hall (S j))). specialize (IH H0). lia.
  - apply Nat.add_le_lt_mono; [by apply (Hle 0%nat u)|]. apply (IH i Hi Hlt). intros j v Hj. apply (Hle (S j)). lia.
Qed.

(** A notifying leader has set the state of its flight. *)
Definition notify_ok (s : Shared) (tasks : list Task) : Prop :=
  forall i t f r, tasks !! i = Some t -> tk_phase t = TNotify f r -> sh_states s !! f = Some (FlComplete r).

Lemma advance_states now sys tasks choice s t s' p' n f st :
  advance now sys tasks choice s t = Some (s', p', n) -> sh_states s !! f = Some st -> lead_of (tk_phase t) <> Some f ->
  sh_states s' !! f = Some st.
Proof.
  destruct t as [rq p]. intros Hadv Hf Hl. cbn in Hl. destruct p, choice; try discriminate Hadv; step_cases Hadv; try done.
  - by apply lookup_app_l_Some.
  - rewrite list_lookup_insert_ne; [done|]. congruence.
  - rewrite list_lookup_insert_ne; [done|]. congruence.
Qed.

Lemma cancel_states s t s' p' : cancel s t = Some (s', p') -> sh_states s' = sh_states s.
Proof. intros Hc. by apply cancel_neutral in Hc as (_ & ? & _). Qed.

Lemma notify_phase now sys tasks choice s rq p s' f r n :
  advance now sys tasks choice s {| tk_request := rq; tk_phase := p |} = Some (s', TNotify f r, n) -> p = TComplete f r.
Proof. intros Hadv. destruct p, choice; try discriminate Hadv; step_cases Hadv; done. Qed.

Lemma notify_step e y y' : fs_inv y -> fstep e y = Some y' -> notify_ok (fy_shared y) (fy_tasks y) -> notify_ok (fy_shared y') (fy_tasks y').
Proof.
  intros [_ Hcore _] Hs Hok. destruct e as [d|rq|k|k|i choice sys|i]; cbn in Hs; try (by injection Hs as <-).
  - injection Hs as <-. intros j u f r Hj Hp. cbn in *. apply lookup_app_Some in Hj as [Hj|[_ Hj]]; [by eapply Hok|].
    by apply list_lookup_singleton_Some in Hj as [_ <-].
  - apply bind_Some in Hs as (t & Hi & Hs). apply bind_Some in Hs as ([[s p'] n] & Hadv & [= <-]). cbn [fy_shared fy_tasks].
    intros j u f r Hj Hp.
    assert (Hj' : exists v, <[i := set_phase t p']> (fy_tasks y) !! j = Some v /\ tk_phase v = TNotify f r).
    { destruct n as [m|]; [|by eauto]. cbn in Hj. rewrite list_lookup_fmap in Hj. apply fmap_Some in Hj as (v & Hv & ->).
      exists v. split; [done|]. destruct (wake_phase m v) as [Hw|(f' & w & w' & _ & Hw)]; congruence. }
    destruct Hj' as (v & [[-> ->]|[Hji Hv]]%insert_task & Hpv).
    + cbn in Hpv. subst p'. destruct t as [rq p]. pose proof (notify_phase _ _ _ _ _ _ _ _ _ _ _ Hadv) as ->.
      destruct choice; try discriminate Hadv. unfold advance, complete_step, stay in Hadv. cbn [tk_phase tk_request] in Hadv. cbv zeta in Hadv.
      destruct (_ >? _); [|discriminate Hadv]. injection Hadv as <- _. cbn. apply list_lookup_insert_eq. by apply (lead_lt _ _ _ _ f Hcore Hi).
    + eapply advance_states; [exact Hadv|by eapply Hok|]. intros Hl. pose proof (fl_state _ _ Hcore i t f Hi Hl) as Hst.
      rewrite (Hok j v f r Hv Hpv) in Hst. by destruct (aborted _).
  - apply bind_Some in Hs as (t & Hi & Hs). apply bind_Some in Hs as ([s p'] & Hcan & [= <-]). cbn [fy_shared fy_tasks].
    intros j u f r [[-> ->]|[Hji Hv]]%insert_task Hpv.
    + cbn in Hpv. subst p'. destruct t as [rq []]; cbn in Hcan; by simplify_eq.
    + rewrite (cancel_states _ _ _ _ Hcan). by eapply Hok.
Qed.

(** *** One step that makes progress *)

Definition no_dropping (tasks : list Task) : Prop := forall i t, tasks !! i = Some t -> drop_rank t = 0%nat.
Definition wake_one (n : option nat) (t : Task) : Task := match n with Some m => wake m t | None => t end.
Lemma wake_all_map n tasks : wake_all n tasks = wake_one n <$> tasks.
Proof. destruct n; [done|]. cbn. by rewrite list_fmap_id. Qed.

Lemma wait_rank_wake m st f w t :
  tk_phase t = TWait f w -> (f = m -> exists r, st = Some (FlComplete r)) ->
  exists w', tk_phase (wake m t) = TWait f w' /\ (wait_rank st w' <= wait_rank st w)%nat.
Proof.
  intros Hp Hf. unfold wake. cbn [tk_phase]. rewrite Hp. destruct w as [| |b|b]; try (by eauto).
  all: destruct (Nat.eqb_spec f m) as [Hm|]; [|by eauto]. all: destruct (Hf Hm) as [r ->]; eexists; split; [done|]; destruct b; cbn; lia.
Qed.

Lemma notified_flight now sys tasks choice s rq p s' p' m :
  drop_rank {| tk_request := rq; tk_phase := p |} = 0%nat ->
  advance now sys tasks choice s {| tk_request := rq; tk_phase := p |} = Some (s', p', Some m) ->
  s' = s /\ exists r, p = TNotify m r.
Proof. intros Hd Hadv. destruct p, choice; try discriminate Hadv; try discriminate Hd; step_cases Hadv; eauto. Qed.

(** Flights only get closer to their end. *)
Lemma states_step now sys tasks choice s rq p s' p' n f :
  drop_rank {| tk_request := rq; tk_phase := p |} = 0%nat ->
  advance now sys tasks choice s {| tk_request := rq; tk_phase := p |} = Some (s', p', n) ->
  sh_states s' !! f = sh_states s !! f \/ sh_states s !! f = None \/
  (exists r, sh_states s' !! f = Some (FlComplete r)) /\ lead_of p = Some f.
Proof.
  intros Hd Hadv. destruct p, choice; try discriminate Hadv; try discriminate Hd; step_cases Hadv; auto.
  - destruct (sh_states s !! f) eqn:E; [|auto]. left. by apply lookup_app_l_Some.
  - destruct (decide (f = flight)) as [->|Hne]; [|left; by rewrite list_lookup_insert_ne].
    destruct (decide (flight < length (sh_states s))%nat); [|right; left; by apply lookup_ge_None; lia].
    right. right. split; [|done]. eexists. by apply list_lookup_insert_eq.
Qed.

Lemma others_rank now sys tasks choice s t s' p' n i j u :
  flights_core s tasks -> notify_ok s tasks -> drop_rank t = 0%nat -> tasks !! i = Some t ->
  advance now sys tasks choice s t = Some (s', p', n) -> j <> i -> tasks !! j = Some u ->
  (rank (sh_states s') (wake_one n u) <= rank (sh_states s) u)%nat.
Proof.
  intros Hcore Hnot Hd Hi Hadv Hji Hj. destruct t as [rq p].
  assert (Hsame : (forall f w, tk_phase u <> TWait f w) -> (rank (sh_states s') (wake_one n u) <= rank (sh_states s) u)%nat).
  { intros Hnw. assert (Hp : tk_phase (wake_one n u) = tk_phase u).
    { destruct n as [m|]; [|done]. destruct (wake_phase m u) as [|(f & w & w' & Hp & _)]; [done|]. by apply Hnw in Hp. }
    unfold rank. rewrite Hp. destruct (tk_phase u) eqn:E; try done. exfalso. by eapply Hnw. }
  destruct (tk_phase u) as [| | | | |f w| | | | | | | | | | | | | | |] eqn:Hp; try (by apply Hsame). clear Hsame.
  destruct (fl_wait _ _ Hcore j u f w Hj Hp) as (st & Hst & Hok).
  assert (Hw : exists w', tk_phase (wake_one n u) = TWait f w' /\ (wait_rank (Some st) w' <= wait_rank (Some st) w)%nat).
  { destruct n as [m|]; [|by exists w]. destruct (notified_flight _ _ _ _ _ _ _ _ _ _ Hd Hadv) as [-> [r ->]].
    apply wait_rank_wake; [done|]. intros ->. exists r. rewrite <- Hst. by eapply (Hnot i). }
  destruct Hw as (w' & Hpw & Hle). unfold rank. rewrite Hpw, Hp, Hst.
  destruct (states_step _ _ _ _ _ _ _ _ _ _ f Hd Hadv) as [->|[Hnone|[[r ->] Hl]]]; [by rewrite Hst|congruence|].
  pose proof (fl_state _ _ Hcore i _ f Hi Hl) as Hst'. rewrite Hst in Hst'.
  assert (st = FlPending) as ->. { injection Hst' as ->. destruct p; by try discriminate Hd. }
  destruct w as [| |[]|[]], w' as [| |[]|[]]; cbn in *; lia.
Qed.

Definition system_rank (y : FsSystem) : nat := sum_list (rank (sh_states (fy_shared y)) <$> fy_tasks y).

Lemma run_decreases y i t choice sys s' p' n :
  fs_inv y -> notify_ok (fy_shared y) (fy_tasks y) -> no_dropping (fy_tasks y) -> fy_tasks y !! i = Some t ->
  advance (fy_now y) sys (fy_tasks y) choice (fy_shared y) t = Some (s', p', n) ->
  (rank (sh_states s') (wake_one n (set_phase t p')) < rank (sh_states (fy_shared y)) t)%nat ->
  exists y', fstep (EvRun i choice sys) y = Some y' /\ (system_rank y' < system_rank y)%nat.
Proof.
  intros Hinv Hnot Hnd Hi Hadv Hlt. cbn. rewrite Hi. cbn. rewrite Hadv. cbn. eexists. split; [done|].
  unfold system_rank. cbn [fy_shared fy_tasks]. rewrite wake_all_map. apply (sum_decrease _ _ _ _ _ t); try done.
  intros j u Hji Hj. apply (others_rank (fy_now y) sys (fy_tasks y) choice (fy_shared y) t s' p' n i j u); try done;
    [apply (fi_core _ Hinv)|by apply (Hnd i)].
Qed.

(** The phases that can move on their own. *)
Definition ready (now : Z) (s : Shared) (t : Task) : Prop :=
  match tk_phase t with
  | TDeferred _ wake | TBackoff _ wake => wake <= now
  | TAdmit _ => 0 < lane_free (rq_priority (tk_request t)) s
  | TBodyWait _ _ _ _ => 0 < sh_bodies s
  | TWait _ (WParked false) => False
  | p => settled p = false /\ dropped p = false
  end.

Definition calm : nat -> Z := fun _ => 0.
Lemma calm_ok : clock_ok calm.
Proof. intros n. by vm_compute. Qed.
Definition not_found : Choice := Answered 404 [] None.

Lemma not_found_answer rq prior : exists a, answer_attempt calm rq prior 404 [] None = Some a /\ fa_retry a = None.
Proof. eexists. split; [reflexivity|done]. Qed.

Lemma ready_step y i t :
  fs_inv y -> no_dropping (fy_tasks y) -> fy_tasks y !! i = Some t -> ready (fy_now y) (fy_shared y) t ->
  exists choice s' p' n, advance (fy_now y) calm (fy_tasks y) choice (fy_shared y) t = Some (s', p', n) /\
    (rank (sh_states s') (wake_one n (set_phase t p')) < rank (sh_states (fy_shared y)) t)%nat.
Proof.
  intros [_ Hcore _] Hnd Hi Hr. destruct y as [now s tasks]. cbn [fy_now fy_shared fy_tasks] in *. destruct t as [rq p].
  unfold ready in Hr. cbn [tk_phase tk_request] in Hr.
  destruct p as [|d wake| | | |f w|lead|lead prior io|lead status headers io|lead status headers body io|lead a|lead a|lead wake|lead a|f r|f r|r|f|f|f|];
    try (by destruct Hr).
  all: unfold advance; cbn [tk_phase tk_request].
  - exists Go. unfold stay. repeat case_match; do 3 eexists; (split; [done|]); cbn; lia.
  - exists Go. rewrite (proj2 (Z.leb_le _ _)) by done. unfold stay. case_match; do 3 eexists; (split; [done|]); cbn; lia.
  - exists Go. unfold stay. destruct (sh_negative s !! _) as [[r e]|]; [destruct (now <? e)|]; do 3 eexists; (split; [done|]); cbn; lia.
  - exists Go. do 3 eexists. split; [done|]. cbn. lia.
  - exists Go. unfold join_step, stay. destruct (sh_flights s !! flight_key rq) as [f|] eqn:Hf; do 3 eexists; (split; [done|]); cbn; [|lia].
    destruct (fl_led _ _ Hcore _ _ Hf) as (j & u & Hj & Hl & _). unfold rank. cbn. rewrite (fl_state _ _ Hcore j u f Hj Hl).
    pose proof (Hnd j u Hj) as Hd. unfold drop_rank in Hd. destruct (tk_phase u); cbn in *; try lia.
  - exists Go. unfold wait_step, stay. destruct w as [| |[]|[]]; try (by destruct Hr).
    all: do 3 eexists; (split; [done|]); unfold rank; cbn [tk_phase set_phase wake_one].
    all: destruct (sh_states s !! f) as [[|r|]|] eqn:E; cbn; rewrite ?E; cbn; lia.
  - exists Go. rewrite (proj2 (Z.ltb_lt _ _)) by done. do 3 eexists. split; [done|]. cbn. lia.
  - exists not_found. unfold send_step, not_found, end_attempt, stay. destruct (not_found_answer rq prior) as (a & -> & Ha).
    do 3 eexists. split; [done|]. unfold rank. cbn. rewrite Ha. lia.
  - exists Go. rewrite (proj2 (Z.ltb_lt _ _)) by done. do 3 eexists. split; [done|]. cbn. lia.
  - exists (Read ChunkEnd). do 3 eexists. split; [done|]. cbn. lia.
  - exists Go. unfold stay. destruct (fa_negative_cache_ttl a); [destruct (uses_shared_cache _)|]; do 3 eexists; (split; [done|]);
      unfold rank; cbn; destruct (fa_retry a); lia.
  - exists Go. unfold decide_step, stay. destruct (fa_retry a) eqn:E; [case_match|]; do 3 eexists; (split; [done|]); unfold rank; cbn; rewrite ?E; lia.
  - exists Go. rewrite (proj2 (Z.leb_le _ _)) by done. do 3 eexists. split; [done|]. cbn. lia.
  - exists Go. do 3 eexists. split; [done|]. cbn. lia.
  - exists Go. unfold complete_step, stay. case_match; do 3 eexists; (split; [done|]); cbn; lia.
  - exists Go. do 3 eexists. split; [done|]. cbn. lia.
Qed.

(** *** Somebody can always move *)

Lemma body_ready s tasks i t now :
  accounted io_permits s tasks -> tasks !! i = Some t -> in_lane (tk_phase t) = true ->
  exists j u, tasks !! j = Some u /\ ready now s u.
Proof.
  intros Ha Hi Hl. destruct (decide (0 < sh_bodies s)) as [Hb|Hb].
  - exists i, t. split; [done|]. unfold ready. by destruct (tk_phase t).
  - destruct (ac_bodies _ _ _ Ha) as [H0 Hc]. assert (1 <= io_body (clamped io_permits)) by (cbn; lia).
    destruct (count_exists reading tasks) as (j & u & Hj & Hu); [lia|]. exists j, u. split; [done|].
    unfold reading in Hu. unfold ready. by destruct (tk_phase u).
Qed.

Lemma lead_ready s tasks i t now f :
  accounted io_permits s tasks -> tasks !! i = Some t -> drop_rank t = 0%nat -> lead_of (tk_phase t) = Some f ->
  exists j u d, tasks !! j = Some u /\ 0 <= d /\ ready (now + d) s u.
Proof.
  intros Ha Hi Hd Hl.
  assert (Hnow : forall j u, tasks !! j = Some u -> ready now s u -> exists j u d, tasks !! j = Some u /\ 0 <= d /\ ready (now + d) s u).
  { intros j u Hj Hu. exists j, u, 0. by rewrite Z.add_0_r. }
  destruct (tk_phase t) as [| | | | | |lead|lead prior io|lead status headers io|lead status headers body io|lead a|lead a|lead wake|lead a|g r| | |g|g|g|] eqn:Hp;
    try discriminate Hl; try (unfold drop_rank in Hd; rewrite Hp in Hd; discriminate Hd).
  all: try (apply (Hnow i t Hi); unfold ready; rewrite Hp; done).
  - destruct (decide (0 < lane_free (rq_priority (tk_request t)) s)) as [Hf|Hf].
    { apply (Hnow i t Hi). unfold ready. by rewrite Hp. }
    assert (Hholder : exists j u, tasks !! j = Some u /\ in_lane (tk_phase u) = true).
    { destruct (ac_regular _ _ _ Ha) as [Hr0 Hr]. destruct (ac_low _ _ _ Ha) as [Hl0 Hlo].
      assert (1 <= io_regular (clamped io_permits)) by (cbn; lia). assert (LOW_PRIORITY_PERMITS = 8) by done.
      unfold lane_free in Hf. destruct (rq_priority (tk_request t)).
      - destruct (count_exists (holds_lane false) tasks) as (j & u & Hj & Hu); [lia|]. exists j, u. split; [done|].
        unfold holds_lane in Hu. by apply andb_prop in Hu as [? _].
      - destruct (count_exists (holds_lane true) tasks) as (j & u & Hj & Hu); [lia|]. exists j, u. split; [done|].
        unfold holds_lane in Hu. by apply andb_prop in Hu as [? _]. }
    destruct Hholder as (j & u & Hj & Hu). destruct (body_ready s tasks j u now Ha Hj Hu) as (k & v & Hk & Hv). by eapply Hnow.
  - destruct (body_ready s tasks i t now Ha Hi) as (k & v & Hk & Hv); [by rewrite Hp|]. by eapply Hnow.
  - exists i, t, (Z.max 0 (wake - now)). split; [done|]. split; [lia|]. unfold ready. rewrite Hp. lia.
Qed.

Lemma some_ready y i t :
  fs_inv y -> accounted io_permits (fy_shared y) (fy_tasks y) -> no_dropping (fy_tasks y) ->
  fy_tasks y !! i = Some t -> settled (tk_phase t) = false ->
  exists j u d, fy_tasks y !! j = Some u /\ 0 <= d /\ ready (fy_now y + d) (fy_shared y) u.
Proof.
  intros [_ Hcore Hpark] Ha Hnd Hi Hs. pose proof (Hnd i t Hi) as Hd.
  destruct (lead_of (tk_phase t)) as [f|] eqn:Hl; [by eapply lead_ready|].
  assert (Hnow : forall j u, fy_tasks y !! j = Some u -> ready (fy_now y) (fy_shared y) u ->
    exists j u d, fy_tasks y !! j = Some u /\ 0 <= d /\ ready (fy_now y + d) (fy_shared y) u).
  { intros j u Hj Hu. exists j, u, 0. by rewrite Z.add_0_r. }
  destruct (tk_phase t) as [|d wake| | | |f [| | |[]]| | | | | | | | | |f r| | | | |] eqn:Hp; try discriminate Hs; try discriminate Hl.
  all: try (apply (Hnow i t Hi); unfold ready; rewrite Hp; done).
  - exists i, t, (Z.max 0 (wake - fy_now y)). split; [done|]. split; [lia|]. unfold ready. rewrite Hp. lia.
  - destruct (fl_wait _ _ Hcore i t f _ Hi Hp) as (st & Hst & Hok).
    assert (Hend : sh_states (fy_shared y) !! f <> Some FlPending ->
      exists j u d, fy_tasks y !! j = Some u /\ 0 <= d /\ ready (fy_now y + d) (fy_shared y) u).
    { intros Hnp. destruct (Hpark i t f Hi Hp Hnp) as (j & u & Hj & Hu). pose proof (Hnd j u Hj) as Hdu.
      apply (Hnow j u Hj). unfold ready. unfold drop_rank in Hdu. by destruct (tk_phase u). }
    destruct st; [|apply Hend; congruence..]. destruct (fl_led _ _ Hcore _ _ Hok) as (j & u & Hj & Hlu & _).
    eapply lead_ready; [done|exact Hj|by eapply Hnd|done].
Qed.

(** *** Runs to the end *)

Record live (y : FsSystem) : Prop := {
  li_inv : fs_inv y;
  li_accounted : accounted io_permits (fy_shared y) (fy_tasks y);
  li_notify : notify_ok (fy_shared y) (fy_tasks y) }.

Lemma live_step e y y' : event_ok e -> fstep e y = Some y' -> live y -> live y'.
Proof. intros He Hs [Hi Ha Hn]. split; [by eapply fs_inv_step|by eapply accounted_step|by eapply notify_step]. Qed.
Lemma live_reachable y : reachable io_permits y -> live y.
Proof. induction 1 as [|e y y' Hr IH He Hs]; [|by eapply live_step]. split; [by apply (fs_reachable_inv io_permits), reachable_init|by apply reachable_accounted, reachable_init|done]. Qed.

(** The requests stay, dropped or not. *)
Definition kept (t t' : Task) : Prop := tk_request t' = tk_request t /\ dropped (tk_phase t') = dropped (tk_phase t).
#[local] Instance kept_preorder : PreOrder kept.
Proof. split; [by split|]. intros t t' t'' [? ?] [? ?]. split; congruence. Qed.
Definition evolves (y y' : FsSystem) : Prop := Forall2 kept (fy_tasks y) (fy_tasks y').

Lemma advance_dropped now sys tasks choice s rq p s' p' n :
  advance now sys tasks choice s {| tk_request := rq; tk_phase := p |} = Some (s', p', n) -> dropped p' = dropped p.
Proof. intros Hadv. destruct p, choice; try discriminate Hadv; step_cases Hadv; done. Qed.

Lemma wake_kept n t t' : kept t t' -> kept t (wake_one n t').
Proof.
  intros [Hr Hd]. destruct n as [m|]; [|done]. split; [done|].
  by destruct (wake_phase m t') as [Hw|(f & w & w' & Hp & Hw)]; cbn [wake_one]; rewrite Hw, <- Hd, ?Hp.
Qed.

Lemma step_evolves e y y' : progress_event e -> fstep e y = Some y' -> evolves y y'.
Proof.
  intros He Hs. destruct e as [d| | | |i choice sys|]; try done; cbn in Hs; [by injection Hs as <-; unfold evolves|].
  apply bind_Some in Hs as (t & Hi & Hs). apply bind_Some in Hs as ([[s p'] n] & Hadv & [= <-]). unfold evolves. cbn [fy_tasks].
  rewrite wake_all_map. apply Forall2_fmap_r. eapply Forall2_impl; [|intros ? ?; apply wake_kept].
  rewrite <- (list_insert_id _ _ _ Hi) at 1. apply Forall2_insert; [done|]. split; [done|].
  destruct t as [rq p]. by eapply advance_dropped.
Qed.

Definition settles (y : FsSystem) : Prop :=
  exists evs y', Forall progress_event evs /\ frun evs y = Some y' /\ evolves y y' /\ live y' /\
    Forall (fun t => settled (tk_phase t) = true) (fy_tasks y').

Lemma settles_step e y y' : progress_event e -> fstep e y = Some y' -> settles y' -> settles y.
Proof.
  intros He Hs (evs & y'' & Hevs & Hrun & Hev & Hrest). exists (e :: evs), y''. split; [by constructor|].
  cbn [frun]. rewrite Hs. split; [done|]. split; [|done].
  pose proof (step_evolves _ _ _ He Hs) as Hev'. unfold evolves in *. by etrans.
Qed.

(** A dropped request can be dropped to the end. *)
Lemma dropping_step y i t :
  live y -> fy_tasks y !! i = Some t -> drop_rank t <> 0%nat ->
  exists y', fstep (EvRun i Go calm) y = Some y' /\ (sum_list (drop_rank <$> fy_tasks y') < sum_list (drop_rank <$> fy_tasks y))%nat.
Proof.
  intros Hlive Hi Hd.
  assert (Hadv : exists s' p' n, advance (fy_now y) calm (fy_tasks y) Go (fy_shared y) t = Some (s', p', n) /\
    (drop_rank (wake_one n (set_phase t p')) < drop_rank t)%nat).
  { destruct t as [rq []]; try done; do 3 eexists; (split; [done|]); cbn; lia. }
  destruct Hadv as (s' & p' & n & Hadv & Hlt). cbn. rewrite Hi. cbn. rewrite Hadv. eexists. split; [done|].
  cbn [fy_tasks]. rewrite wake_all_map. apply (sum_decrease _ _ _ _ _ t); try done.
  intros j u _ _. destruct n as [m|]; [|done]. cbn [wake_one]. unfold drop_rank.
  by destruct (wake_phase m u) as [->|(f & w & w' & _ & ->)]; [|lia].
Qed.

Lemma no_dropping_step e y y' : progress_event e -> fstep e y = Some y' -> no_dropping (fy_tasks y) -> no_dropping (fy_tasks y').
Proof.
  intros He Hs Hnd i t' Hi. destruct (Forall2_lookup_r _ _ _ _ _ (step_evolves _ _ _ He Hs) Hi) as (t & Ht & Hr & Hd).
  pose proof (Hnd i t Ht) as H0. destruct (dropped (tk_phase t)) eqn:E; [|unfold drop_rank; by destruct (tk_phase t')].
  assert (Hg : tk_phase t = TGone) by (unfold drop_rank in H0; by destruct (tk_phase t)).
  destruct e as [d| | | |j choice sys|]; try done; cbn in Hs; [injection Hs as <-; cbn in Hi; congruence|].
  apply bind_Some in Hs as (u & Hj & Hs). apply bind_Some in Hs as ([[s p'] n] & Hadv & [= <-]). cbn [fy_tasks] in Hi.
  rewrite wake_all_map, list_lookup_fmap in Hi. apply fmap_Some in Hi as (v & [[-> ->]|[Hne Hv]]%insert_task & ->).
  - rewrite Hj in Ht. injection Ht as ->. destruct t as [rq p]. cbn in Hg. subst p. by destruct choice.
  - rewrite Ht in Hv. injection Hv as <-. destruct n as [m|]; [|done]. unfold drop_rank. cbn. by rewrite Hg.
Qed.

Lemma settles_rank n y : (system_rank y < n)%nat -> live y -> no_dropping (fy_tasks y) -> settles y.
Proof.
  revert y. induction n as [|n IH]; intros y Hn Hl Hnd; [lia|].
  destruct (decide (Forall (fun t => settled (tk_phase t) = true) (fy_tasks y))) as [Hall|Hno].
  { exists [], y. split_and!; try done. unfold evolves. done. }
  apply not_Forall_Exists in Hno; [|intros ?; apply _]. apply Exists_exists in Hno as (t & Hin & Hs).
  apply list_elem_of_lookup in Hin as [i Hi]. apply not_true_is_false in Hs.
  destruct (some_ready y i t (li_inv _ Hl) (li_accounted _ Hl) Hnd Hi Hs) as (j & u & d & Hj & Hd & Hr).
  set (y1 := {| fy_now := fy_now y + d; fy_shared := fy_shared y; fy_tasks := fy_tasks y |}).
  assert (Ht : fstep (EvTick d) y = Some y1) by done. apply (settles_step (EvTick d) y y1); [done|done|].
  pose proof (live_step (EvTick d) y y1 Hd Ht Hl) as Hl1.
  destruct (ready_step y1 j u (li_inv _ Hl1) Hnd Hj Hr) as (choice & s' & p' & m & Hadv & Hlt).
  destruct (run_decreases y1 j u choice calm s' p' m (li_inv _ Hl1) (li_notify _ Hl1) Hnd Hj Hadv Hlt) as (y2 & Hs2 & Hrank).
  assert (He : progress_event (EvRun j choice calm)) by apply calm_ok.
  apply (settles_step _ y1 y2 He Hs2), IH; [|by apply (live_step _ y1 y2 He Hs2)|by apply (no_dropping_step _ y1 y2 He Hs2)].
  change (system_rank y1) with (system_rank y) in Hrank. lia.
Qed.

Lemma live_settles n y : (sum_list (drop_rank <$> fy_tasks y) < n)%nat -> live y -> settles y.
Proof.
  revert y. induction n as [|n IH]; intros y Hn Hl; [lia|].
  destruct (decide (Forall (fun t => drop_rank t = 0%nat) (fy_tasks y))) as [Hall|Hno].
  { apply (settles_rank (S (system_rank y))); [lia|done|]. intros i t Hi. by eapply Forall_lookup_1 in Hall. }
  apply not_Forall_Exists in Hno; [|intros ?; apply _]. apply Exists_exists in Hno as (t & Hin & Hs).
  apply list_elem_of_lookup in Hin as [i Hi]. destruct (dropping_step y i t Hl Hi Hs) as (y' & Hstep & Hlt).
  assert (He : progress_event (EvRun i Go calm)) by apply calm_ok.
  apply (settles_step _ y y' He Hstep), IH; [lia|by apply (live_step _ y y' He Hstep)].
Qed.

(** Nothing is held when every request is settled. *)
Lemma settled_idle y :
  live y -> Forall (fun t => settled (tk_phase t) = true) (fy_tasks y) ->
  sh_flights (fy_shared y) = ∅ /\ has_external_evidence (fy_shared y) = false /\
  sh_regular (fy_shared y) = io_regular (clamped io_permits) /\ sh_low (fy_shared y) = LOW_PRIORITY_PERMITS /\
  sh_bodies (fy_shared y) = io_body (clamped io_permits).
Proof.
  intros [Hinv Ha _] Hall.
  assert (Hzero : forall f, (forall t, settled (tk_phase t) = true -> f t = false) -> count f (fy_tasks y) = 0).
  { intros f Hf. destruct (Z_lt_le_dec 0 (count f (fy_tasks y))) as [Hc|]; [|pose proof (count_pos f (fy_tasks y)); lia].
    apply count_exists in Hc as (i & t & Hi & Ht). eapply Forall_lookup_1 in Hall; [|exact Hi]. by rewrite Hf in Ht. }
  pose proof Ha as [[_ Hr] [_ Hlo] [_ Hb] Hret Hsl]. rewrite !Hzero in Hr, Hlo, Hb, Hret, Hsl by
    (intros [rq []]; unfold holds_lane, reading, retrying, slow_io; done).
  split_and!; try lia.
  - apply map_empty. intros k. destruct (sh_flights (fy_shared y) !! k) as [f|] eqn:E; [|done].
    destruct (fl_led _ _ (fi_core _ Hinv) k f E) as (i & t & Hi & Hl & _). eapply Forall_lookup_1 in Hall; [|exact Hi].
    cbn in Hall. by destruct (tk_phase t).
  - unfold has_external_evidence. by rewrite Hret, Hsl.
Qed.

(** [C2] From every state that an execution can reach, steps of the requests under way and
    the passing of time suffice to answer all of them, whichever were dropped: no
    interleaving loses a waiter, a permit or a flight for good. In the end every request
    that MapLibre keeps has its response, the dropped ones are gone, no flight is left,
    all permits are back and no evidence against the providers remains. *)
Theorem file_source_answers y :
  reachable io_permits y ->
  exists evs y', Forall progress_event evs /\ frun evs y = Some y' /\
    (forall i t, fy_tasks y !! i = Some t -> exists t', fy_tasks y' !! i = Some t' /\ tk_request t' = tk_request t /\
       if dropped (tk_phase t) then tk_phase t' = TGone else exists r, tk_phase t' = TDone r) /\
    sh_flights (fy_shared y') = ∅ /\ has_external_evidence (fy_shared y') = false /\
    sh_regular (fy_shared y') = io_regular (clamped io_permits) /\ sh_low (fy_shared y') = LOW_PRIORITY_PERMITS /\
    sh_bodies (fy_shared y') = io_body (clamped io_permits).
Proof.
  intros Hr%live_reachable. destruct (live_settles _ y (Nat.lt_succ_diag_r _) Hr) as (evs & y' & Hevs & Hrun & Hev & Hl & Hall).
  exists evs, y'. split; [done|]. split; [done|]. split; [|by apply settled_idle].
  intros i t Hi. destruct (Forall2_lookup_l _ _ _ _ _ Hev Hi) as (t' & Hi' & Hrq & Hd). exists t'. split; [done|]. split; [done|].
  eapply Forall_lookup_1 in Hall; [|exact Hi']. cbn in Hall. rewrite <- Hd. destruct (tk_phase t'); try done. by eexists.
Qed.
End Liveness.

(** ** Demonstration *)

Module DemoFileSource.
Import DemoFetch.

Definition permits : FileSourceIoPermits := {| io_regular := 1; io_body := 1 |}.
Definition run (task : nat) (choice : Choice) : Event := EvRun task choice at_noon.
Definition go (task n : nat) : list Event := replicate n (run task Go).

(** Two requests for one tile: the first leads the flight, fails and backs off; the
    second sleeps on the flight. MapLibre drops the first. *)
Definition leader_dropped : list Event :=
  [EvArrive (tile_request None); EvArrive (tile_request None)] ++ go 0 3 ++ go 1 6 ++ go 0 1 ++
  [run 0 (Answered 503 [] None)] ++ go 0 2 ++ [EvCancel 0].
(** Its flight is aborted; the second request takes over and gets the tile. *)
Definition taken_over : list Event :=
  leader_dropped ++ go 0 3 ++ go 1 5 ++ [run 1 (Answered 200 [("etag", "v2")] (Some 1))] ++ go 1 1 ++
  [run 1 (Read (ChunkData [7])); run 1 (Read ChunkEnd)] ++ go 1 4.
Definition after (evs : list Event) : FsSystem := default (FsSystem_new permits) (frun evs (FsSystem_new permits)).

Lemma noon_ok : clock_ok at_noon.
Proof. intros n. by vm_compute. Qed.
Lemma after_reachable evs :
  Forall event_ok evs -> bool_decide (is_Some (frun evs (FsSystem_new permits))) = true -> reachable permits (after evs).
Proof.
  intros Hok Hr. unfold after. apply bool_decide_eq_true in Hr as [y Hr]. rewrite Hr. cbn.
  eapply frun_reachable; [exact Hok|exact Hr|constructor].
Qed.
Lemma go_ok task n : Forall event_ok (go task n).
Proof. apply Forall_replicate. exact noon_ok. Qed.
Lemma leader_dropped_ok : Forall event_ok leader_dropped.
Proof. unfold leader_dropped. repeat (apply Forall_app; split); try apply go_ok; repeat constructor; apply noon_ok. Qed.
Lemma taken_over_ok : Forall event_ok taken_over.
Proof. unfold taken_over. repeat (apply Forall_app; split); try apply go_ok; try apply leader_dropped_ok; repeat constructor; apply noon_ok. Qed.
Lemma leader_dropped_reachable : reachable permits (after leader_dropped).
Proof. apply after_reachable; [apply leader_dropped_ok|]. vm_compute. reflexivity. Qed.
Lemma taken_over_reachable : reachable permits (after taken_over).
Proof. apply after_reachable; [apply taken_over_ok|]. vm_compute. reflexivity. Qed.


(** The second request sleeps while the first is being dropped. *)
Lemma file_source_answers_witness :
  tk_phase <$> fy_tasks (after leader_dropped) = [TAbort 0; TWait 0 (WParked false)] /\
  exists evs y' t r, Forall progress_event evs /\ frun evs (after leader_dropped) = Some y' /\
    fy_tasks y' !! 1%nat = Some t /\ tk_phase t = TDone r.
Proof.
  split; [vm_compute; reflexivity|].
  destruct (file_source_answers permits (after leader_dropped) leader_dropped_reachable) as (evs & y' & Hevs & Hrun & Htasks & _).
  destruct (Htasks 1%nat {| tk_request := tile_request None; tk_phase := TWait 0 (WParked false) |}) as (t & Ht & _ & r & Hr);
    [vm_compute; reflexivity|]. exists evs, y', t, r. auto.
Defined.
End DemoFileSource.
