(* ===== verification/FloatMath.v ===== *)
(** * Floating-point arithmetic

    What the terrain sources use of [f32] and [f64]: arithmetic, comparison and the
    conversions between integers and both formats. Values are those of [SpecFloat] in
    canonical form, and operations round to nearest, ties to even. *)

From S2P Require Import Prelude StdModel.
From Stdlib Require Import Floats.SpecFloat.

Abbreviation F32 := spec_float (only parsing).
Abbreviation F64 := spec_float (only parsing).

Definition f32_add : F32 -> F32 -> F32 := SFadd 24 128.
Definition f32_sub : F32 -> F32 -> F32 := SFsub 24 128.
Definition f32_mul : F32 -> F32 -> F32 := SFmul 24 128.
Definition f32_div : F32 -> F32 -> F32 := SFdiv 24 128.
Definition f32_of_int (n : Z) : F32 := binary_normalize 24 128 n 0 false.

Definition f64_add : F64 -> F64 -> F64 := SFadd 53 1024.
Definition f64_sub : F64 -> F64 -> F64 := SFsub 53 1024.
Definition f64_mul : F64 -> F64 -> F64 := SFmul 53 1024.
Definition f64_div : F64 -> F64 -> F64 := SFdiv 53 1024.
Definition f64_sqrt : F64 -> F64 := SFsqrt 53 1024.
Definition f64_of_int (n : Z) : F64 := binary_normalize 53 1024 n 0 false.

(** The value [m * 2 ^ e], for constants. *)
Definition f64_scaled (m e : Z) : F64 := binary_normalize 53 1024 m e false.
Definition f64_half : F64 := f64_scaled 1 (-1).
Definition f64_zero : F64 := S754_zero false.
Definition f64_one : F64 := f64_of_int 1.
Definition f64_epsilon : F64 := f64_scaled 1 (-52).
Definition f64_infinity : F64 := S754_infinity false.
Definition f_nan : spec_float := S754_nan.

Definition is_finite (x : spec_float) : bool :=
  match x with S754_zero _ | S754_finite _ _ _ => true | _ => false end.
Definition is_nan (x : spec_float) : bool := match x with S754_nan => true | _ => false end.
Definition f_lt : spec_float -> spec_float -> bool := SFltb.
Definition f_le : spec_float -> spec_float -> bool := SFleb.
Definition f_gt (a b : spec_float) : bool := SFltb b a.
Definition f_ge (a b : spec_float) : bool := SFleb b a.
Definition f_eq : spec_float -> spec_float -> bool := SFeqb.
(** [min] and [max] ignore a NaN. *)
Definition f_min (a b : spec_float) : spec_float := if is_nan a then b else if is_nan b then a else if f_lt b a then b else a.
Definition f_max (a b : spec_float) : spec_float := if is_nan a then b else if is_nan b then a else if f_lt a b then b else a.
(** [clamp], with ordered bounds. *)
Definition f_clamp (x lo hi : spec_float) : spec_float := if f_lt x lo then lo else if f_gt x hi then hi else x.

(** [f64::from] of an [f32], which is exact. *)
Definition f64_of_f32 (x : F32) : F64 :=
  match x with S754_finite s m e => binary_normalize 53 1024 (if s then Zneg m else Zpos m) e s | x => x end.

(** *** Conversion to integers *)

Definition I32_MIN : Z := - 2 ^ 31.
Definition I32_MAX : Z := 2 ^ 31 - 1.
Definition saturate_i32 (z : Z) : Z := Z.max I32_MIN (Z.min I32_MAX z).
(** [(x op) as i32], where [op] takes the magnitude [m * 2 ^ e] to an integer. *)
Definition f_to_i32 (op : bool -> Z -> Z -> Z) (x : spec_float) : Z :=
  match x with
  | S754_zero _ | S754_nan => 0
  | S754_infinity s => if s then I32_MIN else I32_MAX
  | S754_finite s m e => saturate_i32 (op s (Zpos m) e)
  end.
Definition magnitude_floor (m e : Z) : Z := if 0 <=? e then m * 2 ^ e else m / 2 ^ (- e).
Definition magnitude_ceil (m e : Z) : Z := if 0 <=? e then m * 2 ^ e else - (- m / 2 ^ (- e)).
(** [round]: half away from zero. *)
Definition f_round_i32 : spec_float -> Z :=
  f_to_i32 (fun s m e =>
    let r := if 0 <=? e then m * 2 ^ e else (2 * m + 2 ^ (- e)) / 2 ^ (1 - e) in if s then - r else r).
Definition f_floor_i32 : spec_float -> Z :=
  f_to_i32 (fun s m e => if s then - magnitude_ceil m e else magnitude_floor m e).
Definition f_ceil_i32 : spec_float -> Z :=
  f_to_i32 (fun s m e => if s then - magnitude_floor m e else magnitude_ceil m e).

Example float_samples :
  f_round_i32 (f64_scaled 5 (-1)) = 3 /\ f_round_i32 (f64_scaled (-5) (-1)) = -3 /\
  f_floor_i32 (f64_scaled (-5) (-1)) = -3 /\ f_ceil_i32 (f64_scaled (-5) (-1)) = -2 /\
  f_ceil_i32 (f32_div (f32_of_int 7) (f32_of_int 2)) = 4 /\
  f_lt (f64_of_f32 (f32_of_int 3)) (f64_of_int 4) = true /\ f_round_i32 (f64_sqrt (f64_of_int 10)) = 3 /\
  f_round_i32 (f64_scaled 1 40) = I32_MAX.
Proof. by vm_compute. Qed.
