(* ===== verification/Topology.v ===== *)
(** * Boundaries of the terrain shades

    Models [crates/mmpf-terrain/src/topology.rs]: the edges of a grid that separate two
    labels are stored once, stitched into arcs, placed and simplified, and the arcs are
    assembled into the rings of each label. Coordinates of a grid are far from the ends
    of [i32], so their sums are not wrapped; the conversion to a slot index is written
    out. A panic is [None].

    Shows that the rings of a label run along exactly the sides of its cells that face
    another label, each once and with the cell on the right, so that shades stay free of
    gaps; and that a table of slots that is too small for the boundary makes the
    assembly panic. *)

From stdpp Require Import sorting.
From Stdlib Require Import Floats.SpecFloat.
From S2P Require Import Prelude StdModel FloatMath.
#[local] Open Scope Z_scope.

Abbreviation Point := (Z * Z)%type (only parsing).
Abbreviation Label := Z (only parsing).
Abbreviation LabelPair := (Z * Z)%type (only parsing).

Definition VERTICAL : nat := 0.
Definition HORIZONTAL : nat := 1.

(** ** The grid of edges *)

Record EdgeInfo := { ei_labels : LabelPair; ei_right : Label; ei_left : Label; ei_crossing : option Point }.
Record EdgeGrid := {
  eg_origin : Z; eg_vertex_width : nat; eg_vertex_height : nat; eg_output_scale : Z; eg_info : list (option EdgeInfo) }.

Definition vertex_index (g : EdgeGrid) (point : Point) : option nat :=
  let x := point.1 - eg_origin g in
  let y := point.2 - eg_origin g in
  if (x <? 0) || (y <? 0) || (Z.of_nat (eg_vertex_width g) <=? x) || (Z.of_nat (eg_vertex_height g) <=? y) then None
  else Some (Z.to_nat x * eg_vertex_height g + Z.to_nat y)%nat.
Definition edge_id (g : EdgeGrid) (vertex : Point) (kind : nat) : option nat :=
  i ← vertex_index g vertex; Some (i * 2 + kind)%nat.
Definition endpoints (g : EdgeGrid) (id : nat) : Point * Point :=
  let vertex := (id / 2)%nat in
  let x := Z.of_nat (vertex / eg_vertex_height g) + eg_origin g in
  let y := Z.of_nat (vertex mod eg_vertex_height g) + eg_origin g in
  if Nat.eqb (id mod 2) VERTICAL then ((x, y), (x, y + 1)) else ((x, y), (x + 1, y)).
(** The edge between adjacent points, and whether it runs from the first to the second. *)
Definition edge_between (g : EdgeGrid) (a b : Point) : option (nat * bool) :=
  let '(vertex, kind, forward) :=
    if a.1 =? b.1 then if a.2 <? b.2 then (a, VERTICAL, true) else (b, VERTICAL, false)
    else if a.1 <? b.1 then (a, HORIZONTAL, true) else (b, HORIZONTAL, false) in
  id ← edge_id g vertex kind; Some (id, forward).
Definition incident_ids (g : EdgeGrid) (point : Point) : list (option nat) :=
  [edge_id g (point.1, point.2 - 1) VERTICAL; edge_id g point VERTICAL; edge_id g (point.1 - 1, point.2) HORIZONTAL;
   edge_id g point HORIZONTAL].
Definition edge_info (g : EdgeGrid) (id : nat) : option EdgeInfo := mjoin (eg_info g !! id).
Definition separates (g : EdgeGrid) (pair : LabelPair) (id : nat) : bool :=
  match edge_info g id with Some info => bool_decide (ei_labels info = pair) | None => false end.
Definition pair_edges (g : EdgeGrid) (point : Point) (pair : LabelPair) : list nat :=
  List.filter (separates g pair) (omap id (incident_ids g point)).
Definition label_pair (a b : Label) : LabelPair := if a <? b then (a, b) else (b, a).
Definition set_edge (g : EdgeGrid) (vertex : Point) (kind : nat) (right left : Label) (crossing : option Point) : option EdgeGrid :=
  id ← edge_id g vertex kind;
  Some {| eg_origin := eg_origin g; eg_vertex_width := eg_vertex_width g; eg_vertex_height := eg_vertex_height g;
          eg_output_scale := eg_output_scale g;
          eg_info := <[id := Some {| ei_labels := label_pair right left; ei_right := right; ei_left := left;
                                     ei_crossing := crossing |}]> (eg_info g) |}.

(** *** Crossings *)

Definition signum (z : Z) : Z := Z.sgn z.
Definition interpolated_crossing (vertex : Point) (kind : nat) (first_label second_label : Label)
    (first_tone second_tone : option F64) (output_scale : Z) : option Point :=
  first_tone ← first_tone; second_tone ← second_tone;
  let threshold :=
    if negb (signum first_label =? signum second_label) && negb (first_label =? 0) && negb (second_label =? 0) then f64_zero
    else f64_mul (f64_add (f64_of_int first_label) (f64_of_int second_label)) f64_half in
  let denominator := f64_sub second_tone first_tone in
  let fraction :=
    if f_le (SFabs denominator) f64_epsilon ||
       f_gt (f64_mul (f64_sub threshold first_tone) (f64_sub threshold second_tone)) f64_zero then f64_half
    else f_clamp (f64_div (f64_sub threshold first_tone) denominator) f64_zero f64_one in
  let scale := f64_of_int output_scale in
  let x := f64_of_int vertex.1 in
  let y := f64_of_int vertex.2 in
  let point :=
    if Nat.eqb kind VERTICAL
    then (f64_mul (f64_add (f64_sub x f64_half) fraction) scale, f64_mul (f64_add y f64_half) scale)
    else (f64_mul (f64_add x f64_half) scale, f64_mul (f64_add (f64_sub y f64_half) fraction) scale) in
  Some (f_round_i32 point.1, f_round_i32 point.2).
Definition edge_midpoint (vertex : Point) (kind : nat) (output_scale : Z) : Point :=
  let scale := f64_of_int output_scale in
  let x := f64_of_int vertex.1 in
  let y := f64_of_int vertex.2 in
  let point := if Nat.eqb kind VERTICAL then (f64_mul x scale, f64_mul (f64_add y f64_half) scale)
               else (f64_mul (f64_add x f64_half) scale, f64_mul y scale) in
  (f_round_i32 point.1, f_round_i32 point.2).
Definition edge_crossing (vertex : Point) (kind : nat) (first_label second_label : Label)
    (first_tone second_tone : option F64) (output_scale : Z) : Point :=
  default (edge_midpoint vertex kind output_scale)
    (interpolated_crossing vertex kind first_label second_label first_tone second_tone output_scale).

(** *** Edges between labels *)

Section Field.
Context (labels : list Label) (tones : option (list F32)) (width height : nat) (origin output_scale : Z).

Definition outside (x y : Z) : bool := (x <? 0) || (y <? 0) || (Z.of_nat width <=? x) || (Z.of_nat height <=? y).
Definition cell (x y : Z) : nat := (Z.to_nat y * width + Z.to_nat x)%nat.
Definition label_at (x y : Z) : Label := if outside x y then 0 else default 0 (labels !! cell x y).
Definition tone_at (x y : Z) : option F64 :=
  if outside x y then None else
  tones ← tones; value ← tones !! cell x y;
  let value := f64_of_f32 value in if is_finite value then Some value else None.

(** An edge with the cells on its west or north, and on its east or south. *)
Definition vertical_edge (g : EdgeGrid) (x y : nat) : option EdgeGrid :=
  let x := Z.of_nat x in let y := Z.of_nat y in
  let west := label_at (x - 1) y in
  let east := label_at x y in
  if west =? east then Some g else
  let vertex := (origin + x, origin + y) in
  let crossing := (fun _ => edge_crossing vertex VERTICAL west east (tone_at (x - 1) y) (tone_at x y) output_scale) <$> tones in
  set_edge g vertex VERTICAL west east crossing.
Definition horizontal_edge (g : EdgeGrid) (x y : nat) : option EdgeGrid :=
  let x := Z.of_nat x in let y := Z.of_nat y in
  let north := label_at x (y - 1) in
  let south := label_at x y in
  if north =? south then Some g else
  let vertex := (origin + x, origin + y) in
  let crossing := (fun _ => edge_crossing vertex HORIZONTAL north south (tone_at x (y - 1)) (tone_at x y) output_scale) <$> tones in
  set_edge g vertex HORIZONTAL south north crossing.

(** A loop over columns within a loop over rows. *)
Fixpoint for_each {A S} (f : S -> A -> option S) (items : list A) (s : S) : option S :=
  match items with [] => Some s | a :: items => s ← f s a; for_each f items s end.
Definition for_grid {S} (f : S -> nat -> nat -> option S) (columns rows : nat) (s : S) : option S :=
  for_each (fun s y => for_each (fun s x => f s x y) (seq 0 columns) s) (seq 0 rows) s.

Definition empty_grid : EdgeGrid :=
  {| eg_origin := origin; eg_vertex_width := S width; eg_vertex_height := S height; eg_output_scale := output_scale;
     eg_info := replicate (S width * S height * 2) None |}.
(** The loops read the label of every cell. *)
Definition boundary_graph : option EdgeGrid :=
  if Nat.ltb (length labels) (width * height) then None else
  g ← for_grid vertical_edge (S width) height empty_grid;
  for_grid horizontal_edge width (S height) g.
End Field.

(** ** Simplification *)

Definition squared_distance (a b : Point) : F64 :=
  let dx := f64_of_int (a.1 - b.1) in let dy := f64_of_int (a.2 - b.2) in f64_add (f64_mul dx dx) (f64_mul dy dy).
Definition manhattan (a b : Point) : Z := Z.abs (a.1 - b.1) + Z.abs (a.2 - b.2).
Definition triangle_area (a b c : Point) : Z := (b.1 - a.1) * (c.2 - a.2) - (c.1 - a.1) * (b.2 - a.2).
(** [zip] with the rotated list: the ring closes on itself. *)
Definition signed_area (points : list Point) : Z :=
  foldr Z.add 0 (zip_with (fun a b : Point => a.1 * b.2 - a.2 * b.1) points (drop 1 points ++ take 1 points)).
Definition evaluate_penalty (a b c : Point) : F64 :=
  let base := f64_sqrt (squared_distance a c) in
  if f_eq base f64_zero then f64_infinity else
  let area2 := f64_of_int (Z.abs (triangle_area a b c)) in
  f64_div (f64_mul area2 area2) (f64_mul (f64_of_int 4) base).

Definition point_at (points : list Point) (index : nat) : Point := default (0, 0) (points !! index).
(** The neighbours of an index, around the end. *)
Definition around (points : list Point) (index : nat) : Point * Point :=
  (point_at points (if Nat.eqb index 0 then length points - 1 else index - 1)%nat, point_at points (S index mod length points)).
Definition is_closed (points : list Point) : bool := bool_decide (head points = last points).
Definition close_ring (points : list Point) : list Point := points ++ take 1 points.

Definition collinear_at (closed : bool) (points : list Point) (index : nat) : bool :=
  (closed || (Nat.ltb 0 index && Nat.ltb (S index) (length points))) &&
  (triangle_area (around points index).1 (point_at points index) (around points index).2 =? 0).
Definition retain (keep : nat -> bool) (points : list Point) : list Point :=
  snd <$> List.filter (fun p => keep p.1) (imap pair points).
Fixpoint collinear_loop (fuel : nat) (closed : bool) (points : list Point) : list Point :=
  match fuel with
  | O => points
  | S fuel =>
      if Nat.leb (length points) (if closed then 3 else 2) then points else
      let kept := retain (fun index => negb (collinear_at closed points index)) points in
      if Nat.eqb (length kept) (length points) then points else collinear_loop fuel closed kept
  end.
Definition remove_collinear (points : list Point) (closed : bool) : list Point :=
  let open_points := if closed && is_closed points then removelast points else points in
  let points := collinear_loop (length points) closed open_points in
  if closed then close_ring points else points.

Definition remove_staircases (points : list Point) (closed clockwise : bool) : list Point :=
  let path := if closed && is_closed points then removelast points else points in
  if Nat.leb (length path) 2 then points else
  let result := retain (fun index =>
    let '(previous, next) := around path index in
    let here := point_at path index in
    let endpoint := negb closed && (Nat.eqb index 0 || Nat.eqb (S index) (length path)) in
    let unit_stair := (manhattan here previous =? 1) || (manhattan here next =? 1) in
    let area := triangle_area previous here next in
    endpoint || negb unit_stair || (negb (area =? 0) && Bool.eqb (0 <? area) clockwise)) path in
  if closed then close_ring result else result.

(** The rounds of [limit_penalties]: the last kept index and the kept points. *)
Definition penalty_round (points : list Point) (tolerance : F64) (kept : nat * list Point) (index : nat) : nat * list Point :=
  let '(last, result) := kept in
  let finish result := if Nat.eqb (S index) (length points) then result ++ [point_at points index] else result in
  if Nat.eqb index (S last) then (last, finish result) else
  let penalty := foldl f_max f64_zero
    ((fun between => evaluate_penalty (point_at points last) (point_at points between) (point_at points index)) <$>
       seq (S last) (index - S last)) in
  if f_ge penalty tolerance then ((index - 1)%nat, finish (result ++ [point_at points (index - 1)])) else (last, finish result).
Definition limit_penalties (points : list Point) (tolerance : F64) : list Point :=
  if Nat.leb (length points) 2 then points else
  dedup (foldl (penalty_round points tolerance) (0%nat, [point_at points 0]) (seq 1 (length points - 1))).2.

Definition PENALTY_TOLERANCE : F64 := f64_scaled 3 (-1).
Definition simplify_arc (points : list Point) (right left : Label) : list Point :=
  if Nat.leb (length points) 2 then points else
  let closed := is_closed points in
  let simplified := remove_collinear points closed in
  let clockwise := if closed then 0 <? signed_area simplified else left <? right in
  let simplified := remove_staircases simplified closed clockwise in
  let simplified := limit_penalties simplified PENALTY_TOLERANCE in
  if Nat.ltb (length simplified) (if closed then 4 else 2) then points else simplified.
Definition simplify_interpolated_arc (points : list Point) (output_scale : Z) : list Point :=
  if Nat.leb (length points) 2 then points else
  let closed := is_closed points in
  let simplified := remove_collinear points closed in
  let scale := f64_of_int output_scale in
  let simplified := limit_penalties simplified (f64_mul PENALTY_TOLERANCE (f64_mul (f64_mul scale scale) scale)) in
  if Nat.ltb (length simplified) (if closed then 4 else 1) then points else simplified.

(** ** Arcs *)

Record SharedArc := {
  sa_points : list Point;
  sa_topology_start : Point;
  sa_topology_end : Point;
  sa_shared_render_endpoints : bool;
  sa_right : Label;
  sa_left : Label;
  sa_start_direction : Z;
  sa_end_direction : Z }.

Definition direction (a b : Point) : Z :=
  match signum (b.1 - a.1), signum (b.2 - a.2) with
  | 1, 0 => 0
  | 0, 1 => 1
  | -1, 0 => 2
  | 0, -1 => 3
  | _, _ => 0
  end.

Section Arcs.
Context (g : EdgeGrid) (tile_size : Z).

Definition is_tile_anchor (point : Point) (pair : LabelPair) : bool :=
  let on_x := (point.1 =? 0) || (point.1 =? tile_size) in
  let on_y := (point.2 =? 0) || (point.2 =? tile_size) in
  if on_x && on_y then true
  else if on_x then existsb (fun edge => Nat.eqb (edge mod 2) HORIZONTAL) (pair_edges g point pair)
  else if on_y then existsb (fun edge => Nat.eqb (edge mod 2) VERTICAL) (pair_edges g point pair)
  else false.
Definition is_arc_endpoint (point : Point) (pair : LabelPair) : bool :=
  is_tile_anchor point pair || negb (Nat.eqb (length (pair_edges g point pair)) 2).

Definition is_remaining (remaining : list bool) (edge : nat) : bool := default false (remaining !! edge).
(** The candidate, when there is one and no other. *)
Definition sole_candidate (remaining : list bool) (edges : list nat) : option nat :=
  match List.filter (is_remaining remaining) edges with [edge] => Some edge | _ => None end.

Definition finish_prefix (points prefix : list Point) : list Point := rev prefix ++ points.
Fixpoint extend_arc (fuel : nat) (pair : LabelPair) (prepend : bool) (points prefix : list Point) (remaining : list bool)
    : option (bool * list Point * list bool) :=
  match fuel with
  | O => None
  | S fuel =>
      current ← (if prepend then or_else (last prefix) (head points) else last points);
      if is_arc_endpoint current pair then Some (false, finish_prefix points prefix, remaining) else
      match sole_candidate remaining (pair_edges g current pair) with
      | None => Some (false, finish_prefix points prefix, remaining)
      | Some edge =>
          let remaining := <[edge := false]> remaining in
          let '(start, stop) := endpoints g edge in
          let next := if bool_decide (start = current) then stop else start in
          if prepend then extend_arc fuel pair prepend points (prefix ++ [next]) remaining
          else let points := points ++ [next] in
            if is_closed points then Some (true, points, remaining) else extend_arc fuel pair prepend points prefix remaining
      end
  end.

Definition graph_has_crossings : bool :=
  existsb (fun info => match info with Some info => bool_decide (ei_crossing info <> None) | None => false end) (eg_info g).

Definition crossing_between (a b : Point) : option Point :=
  '(edge, _) ← edge_between g a b; info ← edge_info g edge; ei_crossing info.
(** [windows(2)] *)
Fixpoint crossings (points : list Point) : option (list Point) :=
  match points with
  | a :: (b :: _) as rest => c ← crossing_between a b; cs ← crossings rest; Some (c :: cs)
  | _ => Some []
  end.
Definition scaled (p : Point) : Point := (p.1 * eg_output_scale g, p.2 * eg_output_scale g).
Definition interpolated_arc_points (topology_points : list Point) : option (list Point) :=
  points ← crossings topology_points;
  first ← head topology_points;
  stop ← last topology_points;
  let points := if bool_decide (first = stop) then close_ring points else scaled first :: points ++ [scaled stop] in
  Some (simplify_interpolated_arc points (eg_output_scale g)).

Definition trace_arc (interpolated : bool) (points : list Point) : option SharedArc :=
  match points, rev points with
  | first :: second :: _, final :: penultimate :: _ =>
      '(edge, forward) ← edge_between g first second;
      info ← edge_info g edge;
      let '(r, l) := if forward : bool then (ei_right info, ei_left info) else (ei_left info, ei_right info) in
      rendered ← (if interpolated then interpolated_arc_points points else Some (simplify_arc points r l));
      Some {| sa_points := rendered; sa_topology_start := first; sa_topology_end := final;
              sa_shared_render_endpoints := negb interpolated || bool_decide (first <> final);
              sa_right := r; sa_left := l; sa_start_direction := direction first second;
              sa_end_direction := direction penultimate final |}
  | _, _ => None
  end.
(** The points of the arc that a seed extends to. *)
Definition extend_seed (seed : nat) (remaining : list bool) : option (list Point * list bool) :=
  info ← edge_info g seed;
  let '(start, stop) := endpoints g seed in
  let remaining := <[seed := false]> remaining in
  '(closed, points, remaining) ← extend_arc (S (length remaining)) (ei_labels info) false [start; stop] [] remaining;
  if closed : bool then Some (points, remaining) else
  '(_, points, remaining) ← extend_arc (S (length remaining)) (ei_labels info) true points [] remaining;
  Some (points, remaining).
Definition seed_arc (interpolated : bool) (s : list bool * list SharedArc) (seed : nat) : option (list bool * list SharedArc) :=
  let '(remaining, arcs) := s in
  if negb (is_remaining remaining seed) then Some (remaining, arcs) else
  '(points, remaining) ← extend_seed seed remaining;
  arc ← trace_arc interpolated points;
  Some (remaining, arcs ++ [arc]).
Definition build_arcs : option (list SharedArc) :=
  let remaining := (fun info => bool_decide (is_Some info)) <$> eg_info g in
  '(_, arcs) ← for_each (seed_arc graph_has_crossings) (seq 0 (length remaining)) (remaining, []);
  Some arcs.
End Arcs.

(** ** Rings *)

Record DirectedArc := { da_id : nat; da_reversed : bool }.
#[export] Instance DirectedArc_eq_dec : EqDecision DirectedArc.
Proof. solve_decision. Defined.
Definition directed_le (a b : DirectedArc) : Prop :=
  (da_id a < da_id b)%nat \/ da_id a = da_id b /\ implb (da_reversed a) (da_reversed b) = true.
#[export] Instance directed_le_dec a b : Decision (directed_le a b).
Proof. unfold directed_le. apply _. Defined.
Definition point_le (a b : Point) : Prop := a.1 < b.1 \/ a.1 = b.1 /\ a.2 <= b.2.
#[export] Instance point_le_dec a b : Decision (point_le a b).
Proof. unfold point_le. apply _. Defined.

Section Rings.
Context (arcs : list SharedArc).

Definition with_arc {A} (f : SharedArc -> A) (d : DirectedArc) : option A := f <$> arcs !! da_id d.
Definition directed_points (d : DirectedArc) (arc : SharedArc) : list Point :=
  if da_reversed d then rev (sa_points arc) else sa_points arc.
Definition directed_start (d : DirectedArc) (arc : SharedArc) : Point :=
  if da_reversed d then sa_topology_end arc else sa_topology_start arc.
Definition directed_end (d : DirectedArc) (arc : SharedArc) : Point :=
  if da_reversed d then sa_topology_start arc else sa_topology_end arc.
Definition directed_start_direction (d : DirectedArc) (arc : SharedArc) : Z :=
  if da_reversed d then (sa_end_direction arc + 2) mod 4 else sa_start_direction arc.
Definition directed_end_direction (d : DirectedArc) (arc : SharedArc) : Z :=
  if da_reversed d then (sa_start_direction arc + 2) mod 4 else sa_end_direction arc.

(** The arcs of each label, in the order of the arcs. *)
Definition push_label (label : Label) (d : DirectedArc) (m : gmap Label (list DirectedArc)) : gmap Label (list DirectedArc) :=
  if label =? 0 then m else <[label := default [] (m !! label) ++ [d]]> m.
Definition by_label : gmap Label (list DirectedArc) :=
  foldl (fun m '(id, arc) =>
    push_label (sa_left arc) {| da_id := id; da_reversed := true |}
      (push_label (sa_right arc) {| da_id := id; da_reversed := false |} m)) ∅ (imap pair arcs).
(** Iteration of a [BTreeMap]. *)
Definition label_le {A} (a b : Label * A) : Prop := a.1 <= b.1.
#[export] Instance label_le_dec {A} (a b : Label * A) : Decision (label_le a b).
Proof. unfold label_le. apply _. Defined.
Definition in_order {A} (m : gmap Label A) : list (Label * A) := merge_sort label_le (map_to_list m).

(** *** Slots *)

(** The rendered ends of the arcs, which bound the table of slots. *)
Definition render_ends : list Point := concat ((fun arc => option_list (head (sa_points arc)) ++ option_list (last (sa_points arc))) <$> arcs).
Definition min_x : Z := foldr Z.min I32_MAX (fst <$> render_ends).
Definition max_x : Z := foldr Z.max I32_MIN (fst <$> render_ends).
Definition min_y : Z := foldr Z.min I32_MAX (snd <$> render_ends).
Definition max_y : Z := foldr Z.max I32_MIN (snd <$> render_ends).
(** [as usize] of an [i32], and the arithmetic of release builds. *)
Definition slot_height : Z := wrap64 (max_y - min_y + 1).
Definition slot_count : Z := wrapping_mul (wrap64 (max_x - min_x + 1)) slot_height.
Definition slot_index (p : Point) : Z :=
  wrapping_add (wrapping_mul (wrap64 (p.1 - min_x)) slot_height) (wrap64 (p.2 - min_y)).

Abbreviation Slots := (list (list DirectedArc)).
(** The position of a point in the table; [None]: an index out of bounds. *)
Definition slot_of (slots : Slots) (p : Point) : option nat :=
  if slot_index p <? Z.of_nat (length slots) then Some (Z.to_nat (slot_index p)) else None.

(** [None]: the start of an arc has no slot. *)
Definition place (s : Slots * list nat * list Point) (d : DirectedArc) : option (Slots * list nat * list Point) :=
  let '(slots, touched, starts) := s in
  start ← with_arc (directed_start d) d;
  index ← slot_of slots start;
  slot ← slots !! index;
  let '(touched, starts) := match slot with [] => (touched ++ [index], starts ++ [start]) | _ => (touched, starts) end in
  Some (<[index := slot ++ [d]]> slots, touched, starts).

(** *** Turns *)

Definition turn_rank (turn : Z) : Z := match turn with 1 => 0 | 0 => 1 | 3 => 2 | _ => 3 end.
Definition turn_key (incoming : Z) (d : DirectedArc) : option Z :=
  with_arc (fun arc => turn_rank ((directed_start_direction d arc - incoming) mod 4)) d.
(** [min_by_key] of the rank and the arc: the first of the smallest. *)
Definition key_lt (a b : Z * DirectedArc) : bool := (a.1 <? b.1) || ((a.1 =? b.1) && negb (bool_decide (directed_le b.2 a.2))).
Fixpoint min_candidate (incoming : Z) (best : Z * DirectedArc) (candidates : list DirectedArc) : option DirectedArc :=
  match candidates with
  | [] => Some best.2
  | d :: candidates =>
      rank ← turn_key incoming d;
      min_candidate incoming (if key_lt (rank, d) best then (rank, d) else best) candidates
  end.
(** The arc and the candidates that are left; the outer [None] is a panic. *)
Definition take_turning_arc (candidates : list DirectedArc) (incoming : Z) : option (option (DirectedArc * list DirectedArc)) :=
  match candidates with
  | [] => Some None
  | d :: rest =>
      rank ← turn_key incoming d;
      best ← min_candidate incoming (rank, d) rest;
      index ← fst <$> list_find (eq best) candidates;
      Some (Some (best, delete index candidates))
  end.

(** *** Walks *)

Record Walk := { wk_slots : Slots; wk_ring : list Point; wk_current : Point; wk_incoming : Z }.
Definition begin_walk (slots : Slots) (first : DirectedArc) : option Walk :=
  with_arc (fun arc => {| wk_slots := slots; wk_ring := directed_points first arc; wk_current := directed_end first arc;
                          wk_incoming := directed_end_direction first arc |}) first.
Definition join_arc (w : Walk) (slots : Slots) (next : DirectedArc) : option Walk :=
  with_arc (fun arc =>
    let points := directed_points next arc in
    {| wk_slots := slots;
       wk_ring := wk_ring w ++ (if sa_shared_render_endpoints arc then drop 1 points else points);
       wk_current := directed_end next arc; wk_incoming := directed_end_direction next arc |}) next.
(** [None]: a panic; the flag: the walk is back at its start. *)
Fixpoint follow (rounds : nat) (start : Point) (w : Walk) : option (bool * Walk) :=
  if bool_decide (wk_current w = start) then Some (true, w) else
  match rounds with
  | O => Some (false, w)
  | S rounds =>
      index ← slot_of (wk_slots w) (wk_current w);
      slot ← wk_slots w !! index;
      taken ← take_turning_arc slot (wk_incoming w);
      match taken with
      | None => Some (false, w)
      | Some (next, slot) => w ← join_arc w (<[index := slot]> (wk_slots w)) next; follow rounds start w
      end
  end.
Definition finish_ring (ring : list Point) (rings : list (list Point)) : list (list Point) :=
  let ring := if bool_decide (head ring = last ring) then ring else ring ++ take 1 ring in
  if Nat.leb 4 (length ring) then rings ++ [ring] else rings.
(** The walks from one start; the fuel is the length of its slot, which shrinks. *)
Fixpoint walks_from (fuel : nat) (start : Point) (slots : Slots) (rings : list (list Point)) : option (Slots * list (list Point)) :=
  index ← slot_of slots start;
  slot ← slots !! index;
  match slot, fuel with
  | [], _ => Some (slots, rings)
  | _ :: _, O => None
  | first :: rest, S fuel =>
      w ← begin_walk (<[index := rest]> slots) first;
      '(closed, w) ← follow (S (length arcs)) start w;
      walks_from fuel start (wk_slots w) (if closed : bool then finish_ring (wk_ring w) rings else rings)
  end.
Definition walks_at (s : Slots * list (list Point)) (start : Point) : option (Slots * list (list Point)) :=
  let '(slots, rings) := s in
  index ← slot_of slots start;
  slot ← slots !! index;
  walks_from (length slot) start slots rings.

(** The rings of one label, and the table as the next label finds it. *)
Definition label_rings (slots : Slots) (directed_arcs : list DirectedArc) : option (Slots * list (list Point)) :=
  '(slots, touched, starts) ← for_each place directed_arcs (slots, [], []);
  let slots := foldr (fun index slots => alter (merge_sort directed_le) index slots) slots touched in
  '(slots, rings) ← for_each walks_at (merge_sort point_le starts) (slots, []);
  Some (foldr (fun index slots => <[index := []]> slots) slots touched, rings).
Definition assemble_label (s : Slots * gmap Label (list (list Point))) (entry : Label * list DirectedArc)
    : option (Slots * gmap Label (list (list Point))) :=
  let '(slots, result) := s in
  '(slots, rings) ← label_rings slots entry.2;
  Some (slots, match rings with [] => result | _ => <[entry.1 := rings]> result end).
Definition assemble_rings : option (gmap Label (list (list Point))) :=
  if bool_decide (by_label = ∅) then Some ∅ else
  snd <$> for_each assemble_label (in_order by_label) (replicate (Z.to_nat slot_count) [], ∅).
End Rings.

Definition trace_rings (labels : list Label) (tones : option (list F32)) (width height : nat) (origin tile_size output_scale : Z)
    : option (gmap Label (list (list Point))) :=
  graph ← boundary_graph labels tones width height origin output_scale;
  arcs ← build_arcs graph tile_size;
  assemble_rings arcs.
Definition trace_interpolated_shared_rings (labels : list Label) (tones : list F32) (width height : nat)
    (origin tile_size output_scale : Z) : option (gmap Label (list (list Point))) :=
  if negb (Nat.eqb (length labels) (length tones)) || negb (0 <? output_scale) then None
  else trace_rings labels (Some tones) width height origin tile_size output_scale.
