(* ===== verification/ShadeArcs.v ===== *)
(** * The arcs of the terrain shades

    Proofs about the first half of Topology: the edges between labels, their partition
    into arcs that keep a label on each side, and the balance of edges at every point. *)

From stdpp Require Import sorting.
From Stdlib Require Import Floats.SpecFloat.
From S2P Require Import Prelude StdModel FloatMath Topology.
#[local] Open Scope Z_scope.

(** ** Loops *)

Lemma for_each_app {A S} (f : S -> A -> option S) l l' s :
  for_each f (l ++ l') s = (s ← for_each f l s; for_each f l' s).
Proof. revert s. induction l as [|a l IH]; intros s; [done|]. cbn. destruct (f s a); [apply IH|done]. Qed.

Lemma for_each_inv {A S} (P : S -> Prop) (f : S -> A -> option S) l s :
  P s -> (forall s a, a ∈ l -> P s -> exists s', f s a = Some s' /\ P s') -> exists s', for_each f l s = Some s' /\ P s'.
Proof.
  revert s. induction l as [|a l IH]; intros s Hs Hf; [by exists s|]. cbn.
  destruct (Hf s a ltac:(by left) Hs) as (s' & -> & Hs'). apply IH; [done|]. intros s'' b Hb. apply Hf. by right.
Qed.

Definition grid_points (columns rows : nat) : list (nat * nat) := y ← seq 0 rows; (fun x => (x, y)) <$> seq 0 columns.
Lemma for_grid_each {S} (f : S -> nat -> nat -> option S) columns rows s :
  for_grid f columns rows s = for_each (fun s '(x, y) => f s x y) (grid_points columns rows) s.
Proof.
  assert (Hrow : forall y xs s, for_each (fun s x => f s x y) xs s = for_each (fun s '(x, y) => f s x y) ((fun x => (x, y)) <$> xs) s).
  { intros y. induction xs as [|x xs IHx]; intros s'; [done|]. cbn. destruct (f s' x y); [apply IHx|done]. }
  unfold for_grid, grid_points. revert s. induction (seq 0 rows) as [|y ys IH]; intros s; [done|]. cbn [for_each mbind list_bind].
  rewrite for_each_app, <- Hrow. by destruct (for_each (fun s x => f s x y) (seq 0 columns) s); [apply IH|].
Qed.
Lemma elem_of_grid_points columns rows x y : (x, y) ∈ grid_points columns rows <-> (x < columns)%nat /\ (y < rows)%nat.
Proof.
  unfold grid_points. rewrite list_elem_of_bind. split.
  - intros (y' & Hin & Hy). apply list_elem_of_fmap in Hin as (x' & [= <- <-] & Hx). apply elem_of_seq in Hx, Hy. lia.
  - intros [Hx Hy]. exists y. rewrite list_elem_of_fmap. split; [exists x; split; [done|]|]; apply elem_of_seq; lia.
Qed.

Lemma two_last {A} (l : list A) : (2 <= length l)%nat -> exists pre a b, l = pre ++ [a; b].
Proof.
  intros Hl. destruct l as [|b l _] using rev_ind; [cbn in Hl; lia|]. destruct l as [|a l _] using rev_ind; [cbn in Hl; lia|].
  exists l, a, b. by rewrite <- app_assoc.
Qed.

(** ** Sums *)

Fixpoint zsum {A} (f : A -> Z) (l : list A) : Z := match l with [] => 0 | a :: l => f a + zsum f l end.
Lemma zsum_app {A} (f : A -> Z) l l' : zsum f (l ++ l') = zsum f l + zsum f l'.
Proof. induction l as [|a l IH]; cbn; [done|]. rewrite IH. lia. Qed.
#[export] Instance zsum_proper {A} (f : A -> Z) : Proper ((≡ₚ) ==> eq) (zsum f).
Proof. induction 1; cbn in *; lia. Qed.
Lemma zsum_zero {A} (f : A -> Z) l : (forall a, a ∈ l -> f a = 0) -> zsum f l = 0.
Proof. induction l as [|a l IH]; intros Hf; [done|]. cbn. rewrite (Hf a) by (by left). apply IH. intros b Hb. apply Hf. by right. Qed.
Lemma zsum_ext {A} (f h : A -> Z) l : (forall a, a ∈ l -> f a = h a) -> zsum f l = zsum h l.
Proof. induction l as [|a l IH]; intros Hf; [done|]. cbn. rewrite (Hf a) by (by left). f_equal. apply IH. intros b Hb. apply Hf. by right. Qed.
(** A sum is that of the part where it does not vanish. *)
Lemma zsum_part {A} (f : A -> Z) l part :
  NoDup part -> (forall a, a ∈ part -> a ∈ l) -> (forall a, a ∈ l -> a ∉ part -> f a = 0) -> NoDup l -> zsum f l = zsum f part.
Proof.
  intros Hp Hin Hz Hl. destruct (submseteq_Permutation part l) as [rest Hrest]; [by apply NoDup_submseteq|].
  rewrite Hrest, zsum_app, (zsum_zero f rest); [lia|]. intros a Ha. apply Hz; [rewrite Hrest; apply elem_of_app; by right|].
  rewrite Hrest in Hl. apply NoDup_app in Hl as (_ & Hd & _). intros Hpart. by apply (Hd a).
Qed.
Lemma zsum_concat {A} (f : A -> Z) ls : zsum f (concat ls) = zsum (zsum f) ls.
Proof. induction ls as [|l ls IH]; [done|]. cbn. rewrite zsum_app, IH. done. Qed.

(** ** Identifiers of edges *)

Section Ids.
Context (vh : nat) (Hvh : (0 < vh)%nat).
Definition eid (x y kind : nat) : nat := ((x * vh + y) * 2 + kind)%nat.

Lemma eid_parts x y kind : (y < vh)%nat -> (kind < 2)%nat ->
  (eid x y kind / 2 / vh = x /\ (eid x y kind / 2) mod vh = y /\ eid x y kind mod 2 = kind)%nat.
Proof.
  intros Hy Hk. unfold eid.
  assert (E2 : (((x * vh + y) * 2 + kind) / 2 = x * vh + y)%nat).
  { rewrite Nat.div_add_l by lia. rewrite (Nat.div_small kind) by lia. lia. }
  rewrite E2. split_and!.
  - rewrite Nat.div_add_l by lia. rewrite (Nat.div_small y) by lia. lia.
  - rewrite Nat.add_comm, Nat.Div0.mod_add. by apply Nat.mod_small.
  - rewrite Nat.add_comm, Nat.Div0.mod_add. by apply Nat.mod_small.
Qed.
Lemma eid_inj x y kind x' y' kind' :
  (y < vh)%nat -> (y' < vh)%nat -> (kind < 2)%nat -> (kind' < 2)%nat -> eid x y kind = eid x' y' kind' ->
  x = x' /\ y = y' /\ kind = kind'.
Proof.
  intros Hy Hy' Hk Hk' He. destruct (eid_parts x y kind Hy Hk) as (? & ? & ?). destruct (eid_parts x' y' kind' Hy' Hk') as (? & ? & ?).
  rewrite He in *. split_and!; congruence.
Qed.
Lemma eid_all vw id : (id < vw * vh * 2)%nat ->
  exists x y kind, id = eid x y kind /\ (x < vw)%nat /\ (y < vh)%nat /\ (kind < 2)%nat.
Proof.
  intros Hid. exists (id / 2 / vh)%nat, ((id / 2) mod vh)%nat, (id mod 2)%nat. unfold eid.
  assert (id = id / 2 * 2 + id mod 2)%nat by (pose proof (Nat.div_mod_eq id 2); lia).
  assert (id / 2 = id / 2 / vh * vh + (id / 2) mod vh)%nat by (pose proof (Nat.div_mod_eq (id / 2) vh); lia).
  split_and!; [lia| |by apply Nat.mod_upper_bound; lia|by apply Nat.mod_upper_bound; lia].
  apply Nat.Div0.div_lt_upper_bound. apply Nat.Div0.div_lt_upper_bound. lia.
Qed.
End Ids.

(** ** The edges of a field of labels *)

Section Graph.
Context (labels : list Z) (tones : option (list spec_float)) (width height : nat) (origin scale : Z).
Abbreviation lab := (label_at labels width height).
Abbreviation id_at := (eid (S height)).

Record shaped (g : EdgeGrid) : Prop := {
  sp_origin : eg_origin g = origin;
  sp_width : eg_vertex_width g = S width;
  sp_height : eg_vertex_height g = S height;
  sp_scale : eg_output_scale g = scale;
  sp_info : length (eg_info g) = (S width * S height * 2)%nat }.
Definition vertex (x y : nat) : Z * Z := (origin + Z.of_nat x, origin + Z.of_nat y).

Lemma edge_id_vertex g x y kind :
  shaped g -> (x <= width)%nat -> (y <= height)%nat -> edge_id g (vertex x y) kind = Some (id_at x y kind).
Proof.
  intros [Ho Hw Hh _ _] Hx Hy. unfold edge_id, vertex_index, vertex. cbn [fst snd]. rewrite Ho, Hw, Hh.
  replace (origin + Z.of_nat x - origin) with (Z.of_nat x) by lia. replace (origin + Z.of_nat y - origin) with (Z.of_nat y) by lia.
  rewrite !(proj2 (Z.ltb_ge _ _)), !(proj2 (Z.leb_gt _ _)) by lia. cbn. by rewrite !Nat2Z.id.
Qed.
Lemma edge_id_inv g p kind id : shaped g -> edge_id g p kind = Some id ->
  exists x y, p = vertex x y /\ (x <= width)%nat /\ (y <= height)%nat /\ id = id_at x y kind.
Proof.
  intros Hg. unfold edge_id, vertex_index. destruct p as [px py]. cbn [fst snd]. rewrite (sp_origin _ Hg), (sp_width _ Hg), (sp_height _ Hg).
  destruct (_ || _ || _ || _) eqn:E; [done|]. bool_props. cbn. intros [= <-].
  exists (Z.to_nat (px - origin)), (Z.to_nat (py - origin)). unfold vertex. split_and!; [f_equal; lia|lia|lia|done].
Qed.
Lemma id_lt x y kind : (x <= width)%nat -> (y <= height)%nat -> (kind < 2)%nat -> (id_at x y kind < S width * S height * 2)%nat.
Proof. intros. unfold eid. nia. Qed.
Lemma endpoints_id g x y kind : shaped g -> (y <= height)%nat -> (kind < 2)%nat ->
  endpoints g (id_at x y kind) = (vertex x y, if Nat.eqb kind VERTICAL then vertex x (S y) else vertex (S x) y).
Proof.
  intros [Ho Hw Hh _ _] Hy Hk. unfold endpoints. rewrite Ho, Hh.
  destruct (eid_parts (S height) ltac:(lia) x y kind) as (-> & -> & ->); [lia|lia|]. unfold vertex.
  destruct (Nat.eqb kind VERTICAL); f_equal; f_equal; lia.
Qed.

(** What the loops store for an edge. *)
Definition edge_of (x y kind : nat) : option EdgeInfo :=
  let zx := Z.of_nat x in let zy := Z.of_nat y in
  let first := if Nat.eqb kind VERTICAL then lab (zx - 1) zy else lab zx (zy - 1) in
  let second := lab zx zy in
  let tone := tone_at tones width height in
  let first_tone := if Nat.eqb kind VERTICAL then tone (zx - 1) zy else tone zx (zy - 1) in
  let '(r, l) := if Nat.eqb kind VERTICAL then (first, second) else (second, first) in
  if first =? second then None else
  Some {| ei_labels := label_pair r l; ei_right := r; ei_left := l;
          ei_crossing := (fun _ => edge_crossing (vertex x y) kind first second first_tone (tone zx zy) scale) <$> tones |}.

Definition store_edge (g : EdgeGrid) (x y kind : nat) : option EdgeGrid :=
  match edge_of x y kind with Some info => set_edge g (vertex x y) kind (ei_right info) (ei_left info) (ei_crossing info) | None => Some g end.
Lemma vertical_edge_store g x y : vertical_edge labels tones width height origin scale g x y = store_edge g x y VERTICAL.
Proof. unfold vertical_edge, store_edge, edge_of. cbn [Nat.eqb VERTICAL]. by destruct (_ =? _). Qed.
Lemma horizontal_edge_store g x y : horizontal_edge labels tones width height origin scale g x y = store_edge g x y HORIZONTAL.
Proof. unfold horizontal_edge, store_edge, edge_of. cbn [Nat.eqb HORIZONTAL VERTICAL]. by destruct (_ =? _). Qed.

Lemma store_edge_spec g x y kind :
  shaped g -> (x <= width)%nat -> (y <= height)%nat -> (kind < 2)%nat ->
  (eg_info g !! id_at x y kind = Some None \/ eg_info g !! id_at x y kind = Some (edge_of x y kind)) ->
  exists g', store_edge g x y kind = Some g' /\ shaped g' /\ eg_info g' !! id_at x y kind = Some (edge_of x y kind) /\
    forall id, id <> id_at x y kind -> eg_info g' !! id = eg_info g !! id.
Proof.
  intros Hg Hx Hy Hk Hinit. unfold store_edge. destruct (edge_of x y kind) as [info|] eqn:E.
  - unfold set_edge. rewrite (edge_id_vertex g x y kind Hg Hx Hy). cbn. eexists. split; [done|]. cbn. split.
    { destruct Hg. split; cbn; try done. by rewrite length_insert. }
    split; [|intros id Hne; by rewrite list_lookup_insert_ne].
    rewrite list_lookup_insert_eq by (rewrite (sp_info _ Hg); by apply id_lt). f_equal. f_equal.
    unfold edge_of in E. destruct (Nat.eqb kind VERTICAL), (_ =? _); by simplify_eq/=.
  - exists g. split; [done|]. split; [done|]. split; [|done]. by destruct Hinit as [->| ->].
Qed.

Lemma store_loop kind ps g :
  shaped g -> (kind < 2)%nat -> (forall x y, (x, y) ∈ ps -> (x <= width)%nat /\ (y <= height)%nat) ->
  (forall x y, (x, y) ∈ ps -> eg_info g !! id_at x y kind = Some None \/ eg_info g !! id_at x y kind = Some (edge_of x y kind)) ->
  exists g', for_each (fun g '(x, y) => store_edge g x y kind) ps g = Some g' /\ shaped g' /\
    (forall x y, (x, y) ∈ ps -> eg_info g' !! id_at x y kind = Some (edge_of x y kind)) /\
    (forall id, (forall x y, (x, y) ∈ ps -> id <> id_at x y kind) -> eg_info g' !! id = eg_info g !! id).
Proof.
  intros Hg Hk. revert g Hg. induction ps as [|[x y] ps IH]; intros g Hg Hin Hinit.
  { exists g. split_and!; try done. intros x y Hx. by apply elem_of_nil in Hx. }
  destruct (Hin x y ltac:(by left)) as [Hx Hy]. destruct (store_edge_spec g x y kind Hg Hx Hy Hk (Hinit x y ltac:(by left))) as (g1 & Hs & Hg1 & Hnew & Hold).
  cbn [for_each]. rewrite Hs. cbn. destruct (IH g1 Hg1) as (g2 & Hf & Hg2 & Hdone & Hrest).
  - intros x' y' Hp. apply Hin. by right.
  - intros x' y' Hp. destruct (decide ((x', y') = (x, y))) as [[= -> ->]|Hne]; [by right|].
    destruct (Hin x' y' ltac:(by right)) as [Hx' Hy']. rewrite Hold; [apply Hinit; by right|].
    intros He. apply eid_inj in He as (-> & -> & _); [done|lia..].
  - exists g2. split_and!; try done.
    + intros x' y' [[= -> ->]|Hp]%elem_of_cons; [|by apply Hdone].
      destruct (decide ((x, y) ∈ ps)) as [Hp|Hp]; [by apply Hdone|]. rewrite Hrest; [done|].
      intros x' y' Hp' He. destruct (Hin x' y' ltac:(by right)). apply eid_inj in He as (-> & -> & _); [done|lia..].
    + intros id Hid. rewrite Hrest; [apply Hold; apply Hid; by left|]. intros x' y' Hp. apply Hid. by right.
Qed.

(** The graph holds exactly the edges between different labels. *)
Lemma outside_label x y : outside width height x y = true -> lab x y = 0.
Proof. unfold label_at. by intros ->. Qed.
Lemma edge_of_outside x y kind : (x <= width)%nat -> (y <= height)%nat ->
  (if Nat.eqb kind VERTICAL then y = height else x = width) -> edge_of x y kind = None.
Proof.
  intros Hx Hy Hb. unfold edge_of.
  assert (H1 : lab (Z.of_nat x) (Z.of_nat y) = 0).
  { apply outside_label. unfold outside. destruct (Nat.eqb kind VERTICAL); subst; rewrite Z.leb_refl; by rewrite ?orb_true_r. }
  destruct (Nat.eqb kind VERTICAL) eqn:E; rewrite H1.
  - rewrite (outside_label (Z.of_nat x - 1) (Z.of_nat y)); [done|]. unfold outside. subst. by rewrite Z.leb_refl, !orb_true_r.
  - rewrite (outside_label (Z.of_nat x) (Z.of_nat y - 1)); [done|]. unfold outside. subst. by rewrite Z.leb_refl, !orb_true_r.
Qed.

Lemma boundary_graph_spec :
  (width * height <= length labels)%nat ->
  exists g, boundary_graph labels tones width height origin scale = Some g /\ shaped g /\
    forall x y kind, (x <= width)%nat -> (y <= height)%nat -> (kind < 2)%nat -> edge_info g (id_at x y kind) = edge_of x y kind.
Proof.
  intros Hlen. unfold boundary_graph. rewrite (proj2 (Nat.ltb_ge _ _) Hlen), for_grid_each.
  assert (Hempty : shaped (empty_grid width height origin scale)) by (split; try done; cbn; by rewrite length_replicate).
  assert (Hnone : forall x y kind, (x <= width)%nat -> (y <= height)%nat -> (kind < 2)%nat ->
    eg_info (empty_grid width height origin scale) !! id_at x y kind = Some None).
  { intros x y kind Hx Hy Hk. apply lookup_replicate_2. by apply id_lt. }
  destruct (store_loop VERTICAL (grid_points (S width) height) (empty_grid width height origin scale) Hempty ltac:(unfold VERTICAL; lia))
    as (g1 & H1 & Hg1 & Hv & Hv').
  { intros x y [? ?]%elem_of_grid_points. lia. }
  { intros x y [? ?]%elem_of_grid_points. left. apply Hnone; unfold VERTICAL; lia. }
  assert (Hloop : forall kind f ps g, (forall g x y, f g x y = store_edge g x y kind) ->
    for_each (fun s '(x, y) => f s x y) ps g = for_each (fun g '(x, y) => store_edge g x y kind) ps g).
  { intros kind f ps g Hf. revert g. induction ps as [|[x y] ps IH]; intros g; [done|]. cbn. rewrite Hf.
    destruct (store_edge g x y kind); [apply IH|done]. }
  rewrite (Hloop VERTICAL _ _ _ vertical_edge_store), H1. cbn [mbind option_bind]. rewrite for_grid_each, (Hloop HORIZONTAL _ _ _ horizontal_edge_store).
  destruct (store_loop HORIZONTAL (grid_points width (S height)) g1 Hg1 ltac:(unfold HORIZONTAL; lia)) as (g2 & H2 & Hg2 & Hh & Hh').
  { intros x y [? ?]%elem_of_grid_points. lia. }
  { intros x y [? ?]%elem_of_grid_points. left. rewrite Hv'; [apply Hnone; unfold HORIZONTAL; lia|].
    intros x' y' [? ?]%elem_of_grid_points He. apply eid_inj in He as (_ & _ & He); [done|unfold HORIZONTAL, VERTICAL; lia..]. }
  exists g2. split; [done|]. split; [done|]. intros x y kind Hx Hy Hk. unfold edge_info.
  assert (Hkind : kind = VERTICAL \/ kind = HORIZONTAL) by (unfold VERTICAL, HORIZONTAL; lia). destruct Hkind as [->| ->].
  - rewrite Hh'; [|intros x' y' [? ?]%elem_of_grid_points He; apply eid_inj in He as (_ & _ & He); [done|unfold HORIZONTAL, VERTICAL; lia..]].
    destruct (decide (y < height)%nat) as [Hlt|Hge]; [rewrite Hv; [done|apply elem_of_grid_points; lia]|].
    rewrite edge_of_outside by (cbn; lia). rewrite Hv'; [by rewrite Hnone by (unfold VERTICAL; lia)|].
    intros x' y' [? ?]%elem_of_grid_points He. apply eid_inj in He as (_ & -> & _); unfold VERTICAL in *; lia.
  - destruct (decide (x < width)%nat) as [Hlt|Hge]; [rewrite Hh; [done|apply elem_of_grid_points; lia]|].
    rewrite edge_of_outside by (cbn; lia). rewrite Hh', Hv'; [by rewrite Hnone by (unfold HORIZONTAL; lia)|..].
    + intros x' y' [? ?]%elem_of_grid_points He. apply eid_inj in He as (_ & _ & He); [done|unfold HORIZONTAL, VERTICAL; lia..].
    + intros x' y' [? ?]%elem_of_grid_points He. apply eid_inj in He as (-> & _ & _); unfold HORIZONTAL in *; lia.
Qed.
End Graph.

(** ** Edges around a vertex *)

Inductive Side := North | South | West | East.
Definition sides : list Side := [North; South; West; East].
#[export] Instance Side_eq_dec : EqDecision Side.
Proof. solve_decision. Defined.

Lemma label_pair_comm a b : label_pair a b = label_pair b a.
Proof. unfold label_pair. destruct (Z.ltb_spec a b), (Z.ltb_spec b a); try done; try lia. f_equal; lia. Qed.
Lemma label_pair_inj a b c d : label_pair a b = label_pair c d -> a = c /\ b = d \/ a = d /\ b = c.
Proof. unfold label_pair. destruct (Z.ltb_spec a b), (Z.ltb_spec c d); intros [= -> ->]; auto. Qed.

Section Around.
Context (labels : list Z) (tones : option (list spec_float)) (width height : nat) (origin scale : Z) (g : EdgeGrid).
Context (Hg : shaped width height origin scale g).
Context (Hinfo : forall x y kind, (x <= width)%nat -> (y <= height)%nat -> (kind < 2)%nat ->
  edge_info g (eid (S height) x y kind) = edge_of labels tones width height origin scale x y kind).
Abbreviation lab := (label_at labels width height).
Abbreviation id_at := (eid (S height)).
Abbreviation vx := (vertex origin).

(** The edge that leaves a vertex on a side, its other end, and the cells on its right and left. *)
Definition out_edge (x y : nat) (side : Side) : option nat :=
  match side with
  | North => match y with O => None | S y => Some (id_at x y VERTICAL) end
  | South => Some (id_at x y VERTICAL)
  | West => match x with O => None | S x => Some (id_at x y HORIZONTAL) end
  | East => Some (id_at x y HORIZONTAL)
  end.
Definition target (p : Z * Z) (side : Side) : Z * Z :=
  match side with North => (p.1, p.2 - 1) | South => (p.1, p.2 + 1) | West => (p.1 - 1, p.2) | East => (p.1 + 1, p.2) end.
Definition out_right (x y : nat) (side : Side) : Z :=
  let x := Z.of_nat x in let y := Z.of_nat y in
  match side with North => lab x (y - 1) | East => lab x y | South => lab (x - 1) y | West => lab (x - 1) (y - 1) end.
Definition out_left (x y : nat) (side : Side) : Z :=
  let x := Z.of_nat x in let y := Z.of_nat y in
  match side with North => lab (x - 1) (y - 1) | East => lab x (y - 1) | South => lab x y | West => lab (x - 1) y end.

(** The right of an edge on leaving one of its ends. *)
Definition right_from (id : nat) (info : EdgeInfo) (a : Z * Z) : Z :=
  if bool_decide ((endpoints g id).1 = a) then ei_right info else ei_left info.
Definition left_from (id : nat) (info : EdgeInfo) (a : Z * Z) : Z :=
  if bool_decide ((endpoints g id).1 = a) then ei_left info else ei_right info.
Definition runs (id : nat) (a b : Z * Z) : Prop := endpoints g id = (a, b) \/ endpoints g id = (b, a).

Lemma vertex_inj x y x' y' : vx x y = vx x' y' -> x = x' /\ y = y'.
Proof. unfold vertex. intros [= ? ?]. lia. Qed.

Lemma out_edge_spec x y side id :
  (x <= width)%nat -> (y <= height)%nat -> out_edge x y side = Some id ->
  (id < length (eg_info g))%nat /\ runs id (vx x y) (target (vx x y) side) /\
  match edge_info g id with
  | Some info => right_from id info (vx x y) = out_right x y side /\ left_from id info (vx x y) = out_left x y side /\
                 ei_labels info = label_pair (out_right x y side) (out_left x y side) /\ out_right x y side <> out_left x y side
  | None => out_right x y side = out_left x y side
  end.
Proof.
  intros Hx Hy He.
  assert (Hid : exists x' y' kind forward, id = id_at x' y' kind /\ (x' <= width)%nat /\ (y' <= height)%nat /\ (kind < 2)%nat /\
    endpoints g id = (if forward : bool then (vx x y, target (vx x y) side) else (target (vx x y) side, vx x y)) /\
    out_right x y side = (if Bool.eqb forward (Nat.eqb kind VERTICAL)
      then if Nat.eqb kind VERTICAL then lab (Z.of_nat x' - 1) (Z.of_nat y') else lab (Z.of_nat x') (Z.of_nat y' - 1)
      else lab (Z.of_nat x') (Z.of_nat y')) /\
    out_left x y side = (if Bool.eqb forward (Nat.eqb kind VERTICAL) then lab (Z.of_nat x') (Z.of_nat y')
      else if Nat.eqb kind VERTICAL then lab (Z.of_nat x' - 1) (Z.of_nat y') else lab (Z.of_nat x') (Z.of_nat y' - 1))).
  { destruct side; cbn in He.
    - destruct y as [|y]; [done|]. injection He as <-. exists x, y, VERTICAL, false. unfold VERTICAL. split_and!; try lia; try done.
      + rewrite (endpoints_id _ _ _ _ _ _ _ _ Hg) by lia. cbn. unfold target, vertex. cbn. f_equal; f_equal; lia.
      + cbn. f_equal. lia.
      + cbn. f_equal. lia.
    - injection He as <-. exists x, y, VERTICAL, true. unfold VERTICAL. split_and!; try lia; try done.
      rewrite (endpoints_id _ _ _ _ _ _ _ _ Hg) by lia. cbn. unfold target, vertex. cbn. f_equal; f_equal; lia.
    - destruct x as [|x]; [done|]. injection He as <-. exists x, y, HORIZONTAL, false. unfold HORIZONTAL. split_and!; try lia; try done.
      + rewrite (endpoints_id _ _ _ _ _ _ _ _ Hg) by lia. cbn. unfold target, vertex. cbn. f_equal; f_equal; lia.
      + cbn. f_equal. lia.
      + cbn. f_equal. lia.
    - injection He as <-. exists x, y, HORIZONTAL, true. unfold HORIZONTAL. split_and!; try lia; try done.
      rewrite (endpoints_id _ _ _ _ _ _ _ _ Hg) by lia. cbn. unfold target, vertex. cbn. f_equal; f_equal; lia. }
  destruct Hid as (x' & y' & kind & forward & -> & Hx' & Hy' & Hk & Hends & Hr & Hl).
  assert (Htarget : target (vx x y) side <> vx x y) by (destruct side; unfold target, vertex; cbn; intros [= ?]; lia).
  split; [rewrite (sp_info _ _ _ _ _ Hg); by apply id_lt|]. split; [unfold runs; rewrite Hends; destruct forward; auto|].
  unfold right_from, left_from. rewrite Hends, Hinfo by done. unfold edge_of. rewrite Hr, Hl.
  assert (Hkind : kind = VERTICAL \/ kind = HORIZONTAL) by (unfold VERTICAL, HORIZONTAL; lia).
  destruct Hkind as [->| ->], forward; cbn [Nat.eqb VERTICAL HORIZONTAL Bool.eqb fst].
  all: rewrite ?(bool_decide_eq_false_2 _ Htarget), ?(bool_decide_eq_true_2 (vx x y = vx x y)) by done.
  all: match goal with |- context [?a =? ?b] => destruct (Z.eqb_spec a b) as [E|E] end; cbn [ei_right ei_left ei_labels]; split_and?; try done; try congruence.
  all: apply label_pair_comm.
Qed.

Definition pair_side (x y : nat) (pair : Z * Z) (side : Side) : bool :=
  bool_decide (out_right x y side <> out_left x y side /\ label_pair (out_right x y side) (out_left x y side) = pair).

Lemma incident_sides x y : (x <= width)%nat -> (y <= height)%nat -> incident_ids g (vx x y) = out_edge x y <$> sides.
Proof.
  intros Hx Hy. unfold incident_ids. cbn.
  assert (Hout : forall p kind, p.1 < origin \/ p.2 < origin -> edge_id g p kind = None).
  { intros p kind Hp. unfold edge_id, vertex_index. rewrite (sp_origin _ _ _ _ _ Hg).
    destruct Hp as [Hp|Hp]; [rewrite (proj2 (Z.ltb_lt (p.1 - origin) 0)) by lia; done|].
    rewrite (proj2 (Z.ltb_lt (p.2 - origin) 0)) by lia. by rewrite orb_true_r. }
  assert (Hin := edge_id_vertex width height origin scale g). repeat f_equal.
  - destruct y as [|y]; [apply Hout; cbn; lia|]. rewrite <- (Hin x y VERTICAL Hg) by lia. f_equal. unfold vertex. f_equal; lia.
  - by apply Hin.
  - destruct x as [|x]; [apply Hout; cbn; lia|]. rewrite <- (Hin x y HORIZONTAL Hg) by lia. f_equal. unfold vertex. f_equal; lia.
  - by apply Hin.
Qed.

Lemma pair_side_edge x y pair side :
  (x <= width)%nat -> (y <= height)%nat -> pair_side x y pair side = true -> exists id, out_edge x y side = Some id.
Proof.
  intros Hx Hy [Hne _]%bool_decide_eq_true.
  assert (Hz : forall z, lab z (-1) = 0 /\ lab (-1) z = 0).
  { intros z. unfold label_at, outside. cbn. by rewrite orb_true_r. }
  destruct side; cbn; [destruct y|..|destruct x|]; try (by eauto); exfalso; apply Hne; unfold out_right, out_left; change (Z.of_nat 0 - 1) with (-1).
  - by rewrite (proj1 (Hz (Z.of_nat x))), (proj1 (Hz (Z.of_nat x - 1))).
Qed.
Lemma pair_edges_sides x y pair : (x <= width)%nat -> (y <= height)%nat ->
  pair_edges g (vx x y) pair = omap (out_edge x y) (List.filter (pair_side x y pair) sides).
Proof.
  intros Hx Hy. unfold pair_edges. rewrite (incident_sides x y Hx Hy). induction sides as [|side l IH]; [done|]. cbn [fmap list_fmap omap list_omap List.filter].
  assert (Hside : match out_edge x y side with Some id => separates g pair id = pair_side x y pair side | None => pair_side x y pair side = false end).
  { destruct (out_edge x y side) as [id|] eqn:E.
    - destruct (out_edge_spec x y side id Hx Hy E) as (_ & _ & Hs). unfold separates, pair_side.
      destruct (edge_info g id) as [info|].
      + destruct Hs as (_ & _ & -> & Hne). apply bool_decide_ext. naive_solver.
      + by rewrite bool_decide_eq_false_2 by naive_solver.
    - destruct (pair_side x y pair side) eqn:Ep; [|done]. destruct (pair_side_edge x y pair side Hx Hy Ep). congruence. }
  destruct (out_edge x y side) as [e|] eqn:E; unfold id at 1; cbn [omap list_omap List.filter].
  - rewrite Hside. destruct (pair_side x y pair side); cbn [omap list_omap]; rewrite ?E; by rewrite IH.
  - rewrite Hside. apply IH.
Qed.
Lemma pair_edges_count x y pair : (x <= width)%nat -> (y <= height)%nat ->
  length (pair_edges g (vx x y) pair) = length (List.filter (pair_side x y pair) sides).
Proof.
  intros Hx Hy. rewrite (pair_edges_sides x y pair Hx Hy). induction sides as [|side l IH]; [done|]. cbn [List.filter].
  destruct (pair_side x y pair side) eqn:E; [|done]. destruct (pair_side_edge x y pair side Hx Hy E) as [id Hid].
  cbn [omap list_omap length]. rewrite Hid. cbn. by rewrite IH.
Qed.

(** Where exactly two edges separate a pair of labels, a path that arrives on one keeps
    its right on leaving by the other. *)
Lemma two_sides x y pair s1 s2 :
  length (List.filter (pair_side x y pair) sides) = 2%nat -> s1 <> s2 ->
  pair_side x y pair s1 = true -> pair_side x y pair s2 = true -> out_right x y s2 = out_left x y s1.
Proof.
  intros Hlen Hne H1 H2. pose proof H1 as [Hn1 Hp1]%bool_decide_eq_true. pose proof H2 as [Hn2 Hp2]%bool_decide_eq_true.
  rewrite <- Hp1 in Hp2. apply label_pair_inj in Hp2 as [[Hr Hl]|[Hr Hl]]; [|done]. exfalso.
  assert (Hthree : forall s3, s3 <> s1 -> s3 <> s2 -> out_right x y s3 = out_left x y s1 -> out_left x y s3 = out_right x y s1 -> False).
  { intros s3 H31 H32 Hr3 Hl3. assert (H3 : pair_side x y pair s3 = true).
    { apply bool_decide_eq_true. rewrite Hr3, Hl3. split; [congruence|]. by rewrite label_pair_comm. }
    assert (Hsub : (length [s1; s2; s3] <= length (List.filter (pair_side x y pair) sides))%nat); [|rewrite Hlen in Hsub; cbn in Hsub; lia].
    apply submseteq_length, NoDup_submseteq.
    - repeat constructor; rewrite ?elem_of_cons, ?elem_of_nil; naive_solver.
    - intros s Hs. apply list_elem_of_In, filter_In. split; [apply list_elem_of_In; destruct s; unfold sides; set_solver|].
      rewrite !elem_of_cons, elem_of_nil in Hs. naive_solver. }
  destruct s1, s2; try done; unfold out_right, out_left in *; try congruence.
  - apply (Hthree East); try done; unfold out_right, out_left; congruence.
  - apply (Hthree East); try done; unfold out_right, out_left; congruence.
  - apply (Hthree North); try done; unfold out_right, out_left; congruence.
  - apply (Hthree North); try done; unfold out_right, out_left; congruence.
Qed.

(** *** Paths along edges *)

Lemma runs_sym id a b : runs id a b -> runs id b a.
Proof. unfold runs. tauto. Qed.

Lemma incident id info a b : edge_info g id = Some info -> runs id a b ->
  exists x y side, a = vx x y /\ (x <= width)%nat /\ (y <= height)%nat /\ out_edge x y side = Some id /\ b = target a side.
Proof.
  intros Hi Hr. assert (Hlt : (id < S width * S height * 2)%nat).
  { rewrite <- (sp_info _ _ _ _ _ Hg). unfold edge_info in Hi. destruct (eg_info g !! id) eqn:E; [|done]. by eapply lookup_lt_Some. }
  destruct (eid_all (S height) ltac:(lia) (S width) id Hlt) as (x & y & kind & -> & Hx & Hy & Hk).
  rewrite Hinfo in Hi by lia. assert (Hin : ~ (if Nat.eqb kind VERTICAL then y = height else x = width)).
  { intros Hb. by rewrite edge_of_outside in Hi by (done || lia). }
  unfold runs in Hr. rewrite (endpoints_id _ _ _ _ _ _ _ _ Hg) in Hr by lia.
  assert (Hkind : kind = VERTICAL \/ kind = HORIZONTAL) by (unfold VERTICAL, HORIZONTAL; lia).
  destruct Hkind as [->| ->]; cbn [Nat.eqb VERTICAL HORIZONTAL] in Hin, Hr; destruct Hr as [[<- <-]%pair_equal_spec|[<- <-]%pair_equal_spec].
  - exists x, y, South. split_and!; try done; try lia. unfold target, vertex. cbn. f_equal; lia.
  - exists x, (S y), North. split_and!; try done; try lia. unfold target, vertex. cbn. f_equal; lia.
  - exists x, y, East. split_and!; try done; try lia. unfold target, vertex. cbn. f_equal; lia.
  - exists (S x), y, West. split_and!; try done; try lia. unfold target, vertex. cbn. f_equal; lia.
Qed.
Lemma runs_ne id info a b : edge_info g id = Some info -> runs id a b -> a <> b.
Proof. intros Hi Hr. destruct (incident id info a b Hi Hr) as (x & y & side & _ & _ & _ & _ & ->). destruct a, side; cbn; intros [= ?]; lia. Qed.
Lemma from_swap id info a b : edge_info g id = Some info -> runs id a b -> right_from id info a = left_from id info b.
Proof.
  intros Hi Hr. pose proof (runs_ne id info a b Hi Hr) as Hne. unfold right_from, left_from.
  destruct Hr as [Hr|Hr]; rewrite Hr; cbn; repeat case_bool_decide; congruence.
Qed.

(** Points joined by edges that all have [r] on their right and [l] on their left. *)
Inductive traversed (r l : Z) : list (Z * Z) -> list nat -> Prop :=
  | traversed_one p : traversed r l [p] []
  | traversed_step a b pts id info ids :
      edge_info g id = Some info -> runs id a b -> right_from id info a = r -> left_from id info a = l ->
      traversed r l (b :: pts) ids -> traversed r l (a :: b :: pts) (id :: ids).

Lemma traversed_length r l pts ids : traversed r l pts ids -> length pts = S (length ids).
Proof. induction 1; cbn in *; lia. Qed.
Lemma traversed_snoc r l pts ids a b id info :
  traversed r l (pts ++ [a]) ids -> edge_info g id = Some info -> runs id a b -> right_from id info a = r -> left_from id info a = l ->
  traversed r l (pts ++ [a; b]) (ids ++ [id]).
Proof.
  intros Ht Hi Hr Hri Hle. remember (pts ++ [a]) as all eqn:Hall. revert pts Hall.
  induction Ht as [p|a' b' pts' id' info' ids' Hi' Hr' Hri' Hle' Ht IH]; intros pts Hall.
  - destruct pts as [|p' [|]]; try done. injection Hall as ->. cbn. eapply traversed_step; eauto. constructor.
  - destruct pts as [|p' pts]; [done|]. injection Hall as -> Hall. destruct pts as [|q pts]; cbn in Hall |- *.
    + injection Hall as -> ->. eapply traversed_step; eauto. by apply (IH []).
    + injection Hall as -> ->. eapply traversed_step; eauto. by apply (IH (q :: pts)).
Qed.
Lemma traversed_last r l pts ids a b :
  traversed r l (pts ++ [a; b]) ids ->
  exists ids' id info, ids = ids' ++ [id] /\ edge_info g id = Some info /\ runs id a b /\ right_from id info a = r /\ left_from id info a = l.
Proof.
  revert ids. induction pts as [|p pts IH]; intros ids Ht.
  - inversion Ht as [|? ? ? id info ids' Hi Hr Hri Hle Ht']; subst. inversion Ht'; subst. exists [], id, info. auto.
  - destruct pts as [|q pts]; inversion Ht as [|? ? ? id info ids' Hi Hr Hri Hle Ht']; subst;
      destruct (IH _ Ht') as (ids'' & id' & info' & -> & Hrest); by exists (id :: ids''), id', info'.
Qed.

(** An edge at a point, as one of the edges of its pair. *)
Lemma pair_edge_at id info a b pair : edge_info g id = Some info -> runs id a b -> ei_labels info = pair -> id ∈ pair_edges g a pair.
Proof.
  intros Hi Hr Hl. destruct (incident id info a b Hi Hr) as (x & y & side & -> & Hx & Hy & Ho & _).
  rewrite (pair_edges_sides x y pair Hx Hy). apply list_elem_of_omap. exists side. split; [|done].
  apply list_elem_of_In, filter_In. split; [apply list_elem_of_In; destruct side; unfold sides; set_solver|].
  destruct (out_edge_spec x y side id Hx Hy Ho) as (_ & _ & Hs). rewrite Hi in Hs. destruct Hs as (_ & _ & Hs & Hne).
  apply bool_decide_eq_true. split; [done|congruence].
Qed.
Lemma pair_edge_inv id a pair : id ∈ pair_edges g a pair ->
  exists info b, edge_info g id = Some info /\ runs id a b /\ ei_labels info = pair.
Proof.
  unfold pair_edges. intros Hin. apply list_elem_of_In, filter_In in Hin as [Hin Hs]. apply list_elem_of_In, list_elem_of_omap in Hin as (o & Ho & Hid).
  unfold separates in Hs. destruct (edge_info g id) as [info|] eqn:Hi; [|done]. apply bool_decide_eq_true in Hs. exists info.
  unfold Datatypes.id in Hid. subst o. unfold incident_ids in Ho.
  assert (Hv : forall p kind, edge_id g p kind = Some id -> (kind < 2)%nat -> runs id p (if Nat.eqb kind VERTICAL then (p.1, p.2 + 1) else (p.1 + 1, p.2))).
  { intros p kind Hp Hk. apply (edge_id_inv _ _ _ _ _ _ _ _ Hg) in Hp as (x & y & -> & Hx & Hy & ->). left.
    rewrite (endpoints_id _ _ _ _ _ _ _ _ Hg) by lia. unfold vertex. cbn. destruct (Nat.eqb kind VERTICAL); f_equal; f_equal; lia. }
  rewrite !elem_of_cons, elem_of_nil in Ho. destruct a as [ax ay]. cbn [fst snd] in Ho.
  destruct Ho as [Ho|[Ho|[Ho|[Ho|[]]]]]; symmetry in Ho; apply Hv in Ho; try (unfold VERTICAL, HORIZONTAL; lia); cbn in Ho.
  - exists (ax, ay - 1). split_and!; try done. apply runs_sym. replace ay with (ay - 1 + 1) at 2 by lia. done.
  - eauto.
  - exists (ax - 1, ay). split_and!; try done. apply runs_sym. replace ax with (ax - 1 + 1) at 2 by lia. done.
  - eauto.
Qed.

Lemma turn e1 e2 info1 info2 a pair :
  length (pair_edges g a pair) = 2%nat -> e1 <> e2 -> e1 ∈ pair_edges g a pair -> e2 ∈ pair_edges g a pair ->
  edge_info g e1 = Some info1 -> edge_info g e2 = Some info2 ->
  right_from e2 info2 a = left_from e1 info1 a /\ left_from e2 info2 a = right_from e1 info1 a.
Proof.
  intros Hlen Hne H1 H2 Hi1 Hi2.
  destruct (pair_edge_inv e1 a pair H1) as (? & b1 & Hi1' & Hr1 & Hl1). rewrite Hi1 in Hi1'. injection Hi1' as <-.
  destruct (pair_edge_inv e2 a pair H2) as (? & b2 & Hi2' & Hr2 & Hl2). rewrite Hi2 in Hi2'. injection Hi2' as <-.
  destruct (incident _ _ _ _ Hi1 Hr1) as (x & y & s1 & -> & Hx & Hy & Ho1 & _).
  destruct (incident _ _ _ _ Hi2 Hr2) as (x' & y' & s2 & Hv & _ & _ & Ho2 & _). apply vertex_inj in Hv as [<- <-].
  destruct (out_edge_spec x y s1 e1 Hx Hy Ho1) as (_ & _ & Hs1). rewrite Hi1 in Hs1. destruct Hs1 as (Hr1' & Hl1' & Hp1 & Hn1).
  destruct (out_edge_spec x y s2 e2 Hx Hy Ho2) as (_ & _ & Hs2). rewrite Hi2 in Hs2. destruct Hs2 as (Hr2' & Hl2' & Hp2 & Hn2).
  rewrite (pair_edges_count x y pair Hx Hy) in Hlen.
  assert (Ht : out_right x y s2 = out_left x y s1).
  { apply (two_sides x y pair s1 s2 Hlen); [congruence|..]; apply bool_decide_eq_true; (split; [done|congruence]). }
  assert (Hp : label_pair (out_right x y s1) (out_left x y s1) = label_pair (out_right x y s2) (out_left x y s2)) by congruence.
  apply label_pair_inj in Hp. split; [congruence|]. rewrite Hl2', Hr1'. destruct Hp as [[? ?]|[? ?]]; congruence.
Qed.

(** *** Edges that are left *)

Abbreviation edges := (length (eg_info g)).
Definition left_over (remaining : list bool) : list nat := List.filter (is_remaining remaining) (seq 0 edges).

Lemma is_remaining_insert remaining e e' :
  is_remaining (<[e := false]> remaining) e' = is_remaining remaining e' && negb (Nat.eqb e' e).
Proof.
  unfold is_remaining. destruct (Nat.eqb_spec e' e) as [->|Hne].
  - rewrite andb_false_r. destruct (decide (e < length remaining)%nat); [by rewrite list_lookup_insert_eq|].
    by rewrite list_insert_ge, (proj2 (lookup_ge_None _ _)) by lia.
  - rewrite list_lookup_insert_ne by done. by rewrite andb_true_r.
Qed.
Lemma left_over_insert remaining e :
  (e < edges)%nat -> is_remaining remaining e = true -> left_over remaining ≡ₚ e :: left_over (<[e := false]> remaining).
Proof.
  intros He Hr. unfold left_over. assert (Hnd : forall (f : nat -> bool) l, NoDup l -> NoDup (List.filter f l)).
  { intros f l. rewrite !NoDup_ListNoDup. apply List.NoDup_filter. }
  apply NoDup_Permutation.
  - apply Hnd, NoDup_seq.
  - constructor; [|apply Hnd, NoDup_seq]. rewrite list_elem_of_In, filter_In, is_remaining_insert, Nat.eqb_refl, andb_false_r. naive_solver.
  - intros x. rewrite elem_of_cons, !list_elem_of_In, !filter_In, is_remaining_insert, !in_seq.
    destruct (Nat.eqb_spec x e) as [->|Hne]; [rewrite andb_false_r|rewrite andb_true_r]; naive_solver lia.
Qed.

(** An arc under way: what it traversed is not left over. *)
Record underway (r l : Z) (pts : list (Z * Z)) (ids : list nat) (remaining : list bool) : Prop := {
  uw_path : traversed r l pts ids;
  uw_used : Forall (fun e => is_remaining remaining e = false) ids;
  uw_long : (2 <= length pts)%nat;
  uw_edges e : is_remaining remaining e = true -> is_Some (edge_info g e) }.

Lemma edge_lt e info : edge_info g e = Some info -> (e < edges)%nat.
Proof. unfold edge_info. destruct (eg_info g !! e) eqn:E; [|done]. intros _. by eapply lookup_lt_Some. Qed.
Lemma labels_from id info a b : edge_info g id = Some info -> runs id a b -> ei_labels info = label_pair (right_from id info a) (left_from id info a).
Proof.
  intros Hi Hr. destruct (incident id info a b Hi Hr) as (x & y & side & -> & Hx & Hy & Ho & _).
  destruct (out_edge_spec x y side id Hx Hy Ho) as (_ & _ & Hs). rewrite Hi in Hs. by destruct Hs as (-> & -> & Hs & _).
Qed.

Lemma sole_candidate_inv remaining l e : sole_candidate remaining l = Some e -> e ∈ l /\ is_remaining remaining e = true.
Proof.
  unfold sole_candidate. intros Hs. assert (Hin : e ∈ List.filter (is_remaining remaining) l).
  { destruct (List.filter _ l) as [|e' [|]]; [done| |done]. injection Hs as ->. by left. }
  apply list_elem_of_In, filter_In in Hin as [Hin Hr]. by apply list_elem_of_In in Hin.
Qed.

Lemma use_edge r l pts pts' ids ids' remaining e :
  underway r l pts ids remaining -> (e < edges)%nat -> is_remaining remaining e = true ->
  traversed r l pts' ids' -> ids' ≡ₚ e :: ids -> (2 <= length pts')%nat ->
  underway r l pts' ids' (<[e := false]> remaining).
Proof.
  intros [Hp Hu Hlong He] Hlt Hr Ht Hids Hl. split; try done.
  - rewrite Hids. constructor; [by rewrite is_remaining_insert, Nat.eqb_refl, andb_false_r|].
    eapply Forall_impl; [exact Hu|]. intros e' He'. by rewrite is_remaining_insert, He'.
  - intros e'. rewrite is_remaining_insert. intros [Hr' _]%andb_prop. by apply He.
Qed.

(** One more edge at either end. *)
Lemma extend_end r l pts a b ids remaining e tile_size :
  underway r l (pts ++ [a; b]) ids remaining -> is_arc_endpoint g tile_size b (label_pair r l) = false ->
  sole_candidate remaining (pair_edges g b (label_pair r l)) = Some e ->
  let '(start, stop) := endpoints g e in let next := if bool_decide (start = b) then stop else start in
  underway r l (pts ++ [a; b; next]) (ids ++ [e]) (<[e := false]> remaining) /\ (e < edges)%nat /\ is_remaining remaining e = true.
Proof.
  intros Hu Hend [He Hr]%sole_candidate_inv. destruct (pair_edge_inv e b _ He) as (info & c & Hi & Hrun & Hl).
  pose proof (edge_lt e info Hi) as Hlt. destruct (traversed_last r l pts ids a b (uw_path _ _ _ _ _ Hu)) as (ids' & e1 & info1 & -> & Hi1 & Hr1 & Hri1 & Hle1).
  apply orb_false_iff in Hend as [_ Hend]. apply negb_false_iff, Nat.eqb_eq in Hend.
  assert (Hne : e1 <> e).
  { intros ->. pose proof (uw_used _ _ _ _ _ Hu) as Hused. rewrite Forall_app, Forall_singleton in Hused. destruct Hused as [_ Hx]. congruence. }
  assert (He1 : e1 ∈ pair_edges g b (label_pair r l)).
  { apply (pair_edge_at e1 info1 b a); [done|by apply runs_sym|]. by rewrite (labels_from e1 info1 a b Hi1 Hr1), Hri1, Hle1. }
  destruct (turn e1 e info1 info b _ Hend Hne He1 He Hi1 Hi) as [Ht1 Ht2].
  rewrite <- (from_swap e1 info1 a b Hi1 Hr1) in Ht1.
  assert (Hl1 : right_from e1 info1 b = left_from e1 info1 a) by (apply from_swap; [done|by apply runs_sym]).
  destruct (endpoints g e) as [start stop] eqn:Hends.
  assert (Hnext : (if bool_decide (start = b) then stop else start) = c).
  { pose proof (runs_ne e info b c Hi Hrun). unfold runs in Hrun. rewrite Hends in Hrun. case_bool_decide; destruct Hrun; naive_solver. }
  rewrite Hnext. split; [|done]. apply (use_edge r l (pts ++ [a; b]) _ (ids' ++ [e1])); try done.
  - replace (pts ++ [a; b; c]) with ((pts ++ [a]) ++ [b; c]) by (by rewrite <- app_assoc).
    apply (traversed_snoc r l (pts ++ [a]) _ b c e info); [rewrite <- app_assoc; apply (uw_path _ _ _ _ _ Hu)|done|done|congruence|congruence].
  - by rewrite Permutation_app_comm.
  - rewrite length_app. cbn. lia.
Qed.
Lemma extend_start r l pts a b ids remaining e tile_size :
  underway r l (a :: b :: pts) ids remaining -> is_arc_endpoint g tile_size a (label_pair r l) = false ->
  sole_candidate remaining (pair_edges g a (label_pair r l)) = Some e ->
  let '(start, stop) := endpoints g e in let next := if bool_decide (start = a) then stop else start in
  underway r l (next :: a :: b :: pts) (e :: ids) (<[e := false]> remaining) /\ (e < edges)%nat /\ is_remaining remaining e = true.
Proof.
  intros Hu Hend [He Hr]%sole_candidate_inv. destruct (pair_edge_inv e a _ He) as (info & c & Hi & Hrun & Hl).
  pose proof (edge_lt e info Hi) as Hlt.
  pose proof (uw_path _ _ _ _ _ Hu) as Hpath. inversion Hpath as [|? ? ? e1 info1 ids' Hi1 Hr1 Hri1 Hle1 Ht']; subst ids.
  apply orb_false_iff in Hend as [_ Hend]. apply negb_false_iff, Nat.eqb_eq in Hend.
  assert (Hne : e1 <> e). { intros ->. pose proof (uw_used _ _ _ _ _ Hu) as Hused. apply Forall_cons in Hused as [Hx _]. congruence. }
  assert (He1 : e1 ∈ pair_edges g a (label_pair r l)).
  { apply (pair_edge_at e1 info1 a b); [done|done|]. by rewrite (labels_from e1 info1 a b Hi1 Hr1), Hri1, Hle1. }
  destruct (turn e1 e info1 info a _ Hend Hne He1 He Hi1 Hi) as [Ht1 Ht2].
  pose proof (from_swap e info a c Hi Hrun) as Hs1. pose proof (from_swap e info c a Hi (runs_sym _ _ _ Hrun)) as Hs2.
  destruct (endpoints g e) as [start stop] eqn:Hends.
  assert (Hnext : (if bool_decide (start = a) then stop else start) = c).
  { pose proof (runs_ne e info a c Hi Hrun). unfold runs in Hrun. rewrite Hends in Hrun. case_bool_decide; destruct Hrun; naive_solver. }
  rewrite Hnext. split; [|done]. apply (use_edge r l (a :: b :: pts) _ (e1 :: ids')); try done; [|cbn; lia].
  eapply traversed_step; [exact Hi|by apply runs_sym|congruence|congruence|apply (uw_path _ _ _ _ _ Hu)].
Qed.

Definition extended (r l : Z) (ids : list nat) (remaining : list bool) (pts' : list (Z * Z)) (remaining' : list bool) : Prop :=
  length remaining' = length remaining /\
  exists ids' new, underway r l pts' ids' remaining' /\ ids' ≡ₚ new ++ ids /\ left_over remaining ≡ₚ new ++ left_over remaining'.

Lemma extended_refl r l pts ids remaining : underway r l pts ids remaining -> extended r l ids remaining pts remaining.
Proof. intros Hu. split; [done|]. by exists ids, []. Qed.
Lemma extended_edge r l ids ids1 remaining e pts' remaining' :
  (e < edges)%nat -> is_remaining remaining e = true -> ids1 ≡ₚ e :: ids ->
  extended r l ids1 (<[e := false]> remaining) pts' remaining' -> extended r l ids remaining pts' remaining'.
Proof.
  intros Hlt Hr Hids (Hlen & ids' & new & Hu & Hp & Hl). rewrite length_insert in Hlen. split; [done|]. exists ids', (new ++ [e]). split; [done|]. split.
  - rewrite Hp, Hids, <- app_assoc. done.
  - rewrite (left_over_insert remaining e Hlt Hr), Hl, <- app_assoc. cbn. apply Permutation_middle.
Qed.

Lemma extended_trans r l ids ids1 new1 remaining pts2 remaining1 remaining2 :
  length remaining1 = length remaining -> ids1 ≡ₚ new1 ++ ids -> left_over remaining ≡ₚ new1 ++ left_over remaining1 ->
  extended r l ids1 remaining1 pts2 remaining2 -> extended r l ids remaining pts2 remaining2.
Proof.
  intros Hlen Hp1 Hl1 (Hlen2 & ids2 & new2 & Hu & Hp2 & Hl2). split; [congruence|]. exists ids2, (new2 ++ new1). split; [done|]. split.
  - by rewrite Hp2, Hp1, app_assoc.
  - rewrite Hl1, Hl2, !app_assoc. by rewrite (Permutation_app_comm new1 new2).
Qed.

Lemma extend_forward tile_size fuel r l points ids remaining :
  underway r l points ids remaining -> (length (left_over remaining) < fuel)%nat ->
  exists closed pts' remaining', extend_arc g tile_size fuel (label_pair r l) false points [] remaining = Some (closed, pts', remaining') /\
    extended r l ids remaining pts' remaining' /\ (length (left_over remaining') <= length (left_over remaining))%nat.
Proof.
  revert points ids remaining. induction fuel as [|fuel IH]; intros points ids remaining Hu Hf; [lia|].
  destruct (two_last points (uw_long _ _ _ _ _ Hu)) as (pts & a & b & ->). cbn [extend_arc].
  replace (last (pts ++ [a; b])) with (Some b) by (by rewrite last_app). cbn [mbind option_bind].
  destruct (is_arc_endpoint g tile_size b (label_pair r l)) eqn:Hend.
  { do 3 eexists. split; [done|]. split; [by apply extended_refl|done]. }
  destruct (sole_candidate remaining (pair_edges g b (label_pair r l))) as [e|] eqn:Hsole.
  2: { do 3 eexists. split; [done|]. split; [by apply extended_refl|done]. }
  pose proof (extend_end r l pts a b ids remaining e tile_size Hu Hend Hsole) as Hext. destruct (endpoints g e) as [start stop]. cbn zeta in Hext |- *.
  destruct Hext as (Hu' & Hlt & Hr). replace ((pts ++ [a; b]) ++ [if bool_decide (start = b) then stop else start])
    with (pts ++ [a; b; if bool_decide (start = b) then stop else start]) by (by rewrite <- app_assoc).
  assert (Hids : ids ++ [e] ≡ₚ e :: ids) by (by rewrite Permutation_app_comm).
  pose proof (Permutation_length (left_over_insert remaining e Hlt Hr)) as Hlen. cbn in Hlen.
  destruct (is_closed _).
  - do 3 eexists. split; [done|]. split; [|lia]. eapply extended_edge; [exact Hlt|exact Hr|exact Hids|by apply extended_refl].
  - destruct (IH _ _ _ Hu') as (closed & pts' & remaining' & Hrun & Hext & Hle); [lia|].
    exists closed, pts', remaining'. split; [done|]. split; [|lia]. by eapply extended_edge.
Qed.

Lemma extend_backward tile_size fuel r l points prefix ids remaining :
  underway r l (finish_prefix points prefix) ids remaining -> (2 <= length points)%nat -> (length (left_over remaining) < fuel)%nat ->
  exists closed pts' remaining', extend_arc g tile_size fuel (label_pair r l) true points prefix remaining = Some (closed, pts', remaining') /\
    extended r l ids remaining pts' remaining' /\ (length (left_over remaining') <= length (left_over remaining))%nat.
Proof.
  revert prefix ids remaining. induction fuel as [|fuel IH]; intros prefix ids remaining Hu Hlong Hf; [lia|].
  assert (Hpts : exists a b pts, finish_prefix points prefix = a :: b :: pts /\ or_else (last prefix) (head points) = Some a).
  { unfold finish_prefix. destruct points as [|p [|q points]]; cbn in Hlong; [lia|lia|].
    destruct prefix as [|c prefix _] using rev_ind; [by exists p, q, points|]. rewrite last_snoc, rev_unit. cbn.
    destruct (rev prefix ++ p :: q :: points) as [|d rest] eqn:E; [by destruct (rev prefix)|]. by exists c, d, rest. }
  destruct Hpts as (a & b & pts & Hfin & Hcur). cbn [extend_arc]. rewrite Hcur. cbn [mbind option_bind].
  destruct (is_arc_endpoint g tile_size a (label_pair r l)) eqn:Hend.
  { do 3 eexists. split; [done|]. split; [by apply extended_refl|done]. }
  destruct (sole_candidate remaining (pair_edges g a (label_pair r l))) as [e|] eqn:Hsole.
  2: { do 3 eexists. split; [done|]. split; [by apply extended_refl|done]. }
  rewrite Hfin in Hu. pose proof (extend_start r l pts a b ids remaining e tile_size Hu Hend Hsole) as Hext.
  destruct (endpoints g e) as [start stop]. cbn zeta in Hext |- *. destruct Hext as (Hu' & Hlt & Hr).
  pose proof (Permutation_length (left_over_insert remaining e Hlt Hr)) as Hlen. cbn in Hlen.
  destruct (IH (prefix ++ [if bool_decide (start = a) then stop else start]) (e :: ids) (<[e := false]> remaining))
    as (closed & pts' & remaining' & Hrun & Hext & Hle); [|done|lia|].
  { unfold finish_prefix. rewrite rev_unit. cbn. unfold finish_prefix in Hfin. by rewrite Hfin. }
  exists closed, pts', remaining'. split; [done|]. split; [|lia]. by eapply extended_edge.
Qed.

Lemma extend_seed_spec tile_size seed remaining :
  (forall e, is_remaining remaining e = true -> is_Some (edge_info g e)) -> is_remaining remaining seed = true ->
  (length remaining = edges)%nat ->
  exists pts remaining' r l, extend_seed g tile_size seed remaining = Some (pts, remaining') /\ r <> l /\
    extended r l [] remaining pts remaining' /\ is_remaining remaining' seed = false.
Proof.
  intros Hedges Hr Hlen. destruct (Hedges seed Hr) as [info Hi]. unfold extend_seed. rewrite Hi. cbn [mbind option_bind].
  destruct (endpoints g seed) as [start stop] eqn:Hends.
  assert (Hrun : runs seed start stop) by (by left). pose proof (edge_lt seed info Hi) as Hlt.
  set (r := right_from seed info start). set (l := left_from seed info start).
  assert (Hu : underway r l [start; stop] [seed] (<[seed := false]> remaining)).
  { split; [|constructor; [by rewrite is_remaining_insert, Nat.eqb_refl, andb_false_r|constructor]|done|].
    - eapply traversed_step; [exact Hi|exact Hrun|done|done|constructor].
    - intros e. rewrite is_remaining_insert. intros [He _]%andb_prop. by apply Hedges. }
  rewrite (labels_from seed info start stop Hi Hrun). fold r l.
  assert (Hrl : r <> l).
  { destruct (incident seed info start stop Hi Hrun) as (x & y & side & Hv & Hx & Hy & Ho & _).
    destruct (out_edge_spec x y side seed Hx Hy Ho) as (_ & _ & Hs). rewrite Hi in Hs. destruct Hs as (Hr' & Hl' & _ & Hne).
    subst r l. rewrite Hv, Hr', Hl'. done. }
  assert (Hfuel : forall rem, (length (left_over rem) <= edges)%nat).
  { intros rem. unfold left_over. pose proof (List.filter_length_le (is_remaining rem) (seq 0 edges)) as Hle. by rewrite length_seq in Hle. }
  destruct (extend_forward tile_size (S (length (<[seed := false]> remaining))) r l [start; stop] [seed] (<[seed := false]> remaining) Hu)
    as (closed & pts1 & rem1 & -> & Hext1 & _).
  { rewrite length_insert, Hlen. pose proof (Hfuel (<[seed := false]> remaining)). lia. }
  cbn [mbind option_bind]. destruct Hext1 as (Hlen1 & ids1 & new1 & Hu1 & Hp1 & Hl1). rewrite length_insert in Hlen1.
  assert (Hfirst : extended r l [] remaining pts1 rem1).
  { eapply (extended_edge r l [] [seed]); [exact Hlt|exact Hr|done|]. split; [by rewrite length_insert|]. by exists ids1, new1. }
  assert (Hseed : forall pts ids rem, underway r l pts ids rem -> seed ∈ ids -> is_remaining rem seed = false).
  { intros pts ids rem Hx Hin. pose proof (uw_used _ _ _ _ _ Hx) as Hused. rewrite Forall_forall in Hused. by apply Hused. }
  assert (Hin1 : seed ∈ ids1) by (rewrite Hp1; apply elem_of_app; right; by left).
  destruct closed; [exists pts1, rem1, r, l; split_and!; eauto|].
  destruct (extend_backward tile_size (S (length rem1)) r l pts1 [] ids1 rem1) as (closed & pts2 & rem2 & -> & Hext2 & _);
    [done|apply (uw_long _ _ _ _ _ Hu1)|rewrite Hlen1, Hlen; pose proof (Hfuel rem1); lia|].
  cbn [mbind option_bind]. exists pts2, rem2, r, l. split; [done|]. split; [done|].
  destruct Hext2 as (Hlen2 & ids2 & new2 & Hu2 & Hp2 & Hl2). split; [|eapply Hseed; [exact Hu2|rewrite Hp2; apply elem_of_app; by right]].
  eapply (extended_trans r l [] ids1 (new1 ++ [seed])); [exact Hlen1|by rewrite Hp1, app_nil_r| |split; [done|by exists ids2, new2]].
  rewrite (left_over_insert remaining seed Hlt Hr), Hl1, <- app_assoc. apply Permutation_middle.
Qed.

(** *** Arcs of paths *)

Lemma edge_between_runs id info a b : edge_info g id = Some info -> runs id a b ->
  exists forward : bool, edge_between g a b = Some (id, forward) /\
    (if forward then (ei_right info, ei_left info) else (ei_left info, ei_right info)) = (right_from id info a, left_from id info a).
Proof.
  intros Hi Hr. pose proof (runs_ne id info a b Hi Hr) as Hne. destruct (incident id info a b Hi Hr) as (x & y & side & Ha & Hx & Hy & Ho & Hb).
  assert (Hends : endpoints g id = if match side with South | East => true | _ => false end then (a, b) else (b, a)).
  { destruct side; cbn in Ho.
    - destruct y as [|y]; [done|]. injection Ho as <-. rewrite (endpoints_id _ _ _ _ _ _ _ _ Hg) by (unfold VERTICAL; lia).
      subst a b. unfold vertex, target. cbn. f_equal; f_equal; lia.
    - injection Ho as <-. rewrite (endpoints_id _ _ _ _ _ _ _ _ Hg) by (unfold VERTICAL; lia).
      subst a b. unfold vertex, target. cbn. f_equal; f_equal; lia.
    - destruct x as [|x]; [done|]. injection Ho as <-. rewrite (endpoints_id _ _ _ _ _ _ _ _ Hg) by (unfold HORIZONTAL; lia).
      subst a b. unfold vertex, target. cbn. f_equal; f_equal; lia.
    - injection Ho as <-. rewrite (endpoints_id _ _ _ _ _ _ _ _ Hg) by (unfold HORIZONTAL; lia).
      subst a b. unfold vertex, target. cbn. f_equal; f_equal; lia. }
  assert (Hin := edge_id_vertex width height origin scale g).
  exists (match side with South | East => true | _ => false end). split.
  - unfold edge_between. subst a b. unfold target, vertex. cbn [fst snd]. destruct side; cbn in Ho |- *.
    + destruct y as [|y]; [done|]. rewrite Z.eqb_refl, (proj2 (Z.ltb_ge _ _)) by lia.
      replace (origin + Z.of_nat x, origin + Z.of_nat (S y) - 1) with (vx x y) by (unfold vertex; f_equal; lia).
      rewrite (Hin x y VERTICAL Hg) by lia. by rewrite Ho.
    + rewrite Z.eqb_refl, (proj2 (Z.ltb_lt _ _)) by lia. fold (vx x y). rewrite (Hin x y VERTICAL Hg) by lia. by rewrite Ho.
    + destruct x as [|x]; [done|]. rewrite (proj2 (Z.eqb_neq _ _)), (proj2 (Z.ltb_ge _ _)) by lia.
      replace (origin + Z.of_nat (S x) - 1, origin + Z.of_nat y) with (vx x y) by (unfold vertex; f_equal; lia).
      rewrite (Hin x y HORIZONTAL Hg) by lia. by rewrite Ho.
    + rewrite (proj2 (Z.eqb_neq _ _)), (proj2 (Z.ltb_lt _ _)) by lia. fold (vx x y). rewrite (Hin x y HORIZONTAL Hg) by lia. by rewrite Ho.
  - unfold right_from, left_from. rewrite Hends. destruct side; cbn; rewrite ?(bool_decide_eq_false_2 (b = a)), ?(bool_decide_eq_true_2 (a = a)) by congruence; done.
Qed.

Record arc_path (arc : SharedArc) (path : list (Z * Z) * list nat) : Prop := {
  ap_path : traversed (sa_right arc) (sa_left arc) path.1 path.2;
  ap_start : head path.1 = Some (sa_topology_start arc);
  ap_end : last path.1 = Some (sa_topology_end arc);
  ap_labels : sa_right arc <> sa_left arc;
  ap_trace : trace_arc g (graph_has_crossings g) path.1 = Some arc }.

Lemma crossings_cons a b pts :
  crossings g (a :: b :: pts) = (c ← crossing_between g a b; cs ← crossings g (b :: pts); Some (c :: cs)).
Proof. done. Qed.
Lemma crossings_total r l pts ids :
  (forall id info, edge_info g id = Some info -> ei_crossing info <> None) -> traversed r l pts ids -> exists cs, crossings g pts = Some cs.
Proof.
  intros Hc. induction 1 as [p|a b pts id info ids Hi Hr _ _ _ [cs IH]]; [by exists []|].
  destruct (edge_between_runs id info a b Hi Hr) as (forward & Hb & _). rewrite crossings_cons, IH. unfold crossing_between. rewrite Hb. cbn [mbind option_bind]. rewrite Hi. cbn [mbind option_bind].
  destruct (ei_crossing info) as [c|] eqn:E; [|by apply Hc in Hi]. by eexists.
Qed.

Lemma trace_arc_spec r l pts ids :
  (graph_has_crossings g = true -> forall id info, edge_info g id = Some info -> ei_crossing info <> None) ->
  traversed r l pts ids -> (2 <= length pts)%nat -> r <> l ->
  exists arc, trace_arc g (graph_has_crossings g) pts = Some arc /\ arc_path arc (pts, ids).
Proof.
  intros Hc Ht Hlong Hne. inversion Ht as [|a b pts' id info ids' Hi Hr Hri Hle Ht']; subst; [cbn in Hlong; lia|].
  destruct (edge_between_runs id info a b Hi Hr) as (forward & Hb & Hrl).
  assert (Hrev : exists c d rest, rev (a :: b :: pts') = d :: c :: rest /\ last (a :: b :: pts') = Some d).
  { destruct (two_last (a :: b :: pts') Hlong) as (pre & c & d & ->). exists c, d, (rev pre).
    rewrite rev_app_distr, last_app. done. }
  destruct Hrev as (c & d & rest & Hrev & Hlast).
  destruct (if forward then (ei_right info, ei_left info) else (ei_left info, ei_right info)) as [r' l'] eqn:E.
  injection Hrl as -> ->. remember (graph_has_crossings g) as interpolated eqn:Hg'.
  assert (Hrender : exists rendered, (if interpolated then interpolated_arc_points g (a :: b :: pts') else
    Some (simplify_arc (a :: b :: pts') (right_from id info a) (left_from id info a))) = Some rendered).
  { destruct interpolated; [|by eexists]. unfold interpolated_arc_points.
    destruct (crossings_total _ _ _ _ (Hc eq_refl) Ht) as [cs ->]. rewrite Hlast. cbn. by eexists. }
  destruct Hrender as [rendered Hren]. assert (Htr : trace_arc g interpolated (a :: b :: pts') = Some
    {| sa_points := rendered; sa_topology_start := a; sa_topology_end := d; sa_shared_render_endpoints := negb interpolated || bool_decide (a <> d);
       sa_right := right_from id info a; sa_left := left_from id info a; sa_start_direction := direction a b; sa_end_direction := direction c d |}).
  { unfold trace_arc. rewrite Hrev, Hb. cbn [mbind option_bind]. rewrite Hi. cbn [mbind option_bind]. rewrite E. cbn [mbind option_bind]. by rewrite Hren. }
  eexists. split; [exact Htr|]. subst interpolated. split; cbn; congruence || done.
Qed.

(** *** The partition into arcs *)

Definition boundary_ids : list nat := List.filter (fun id => bool_decide (is_Some (edge_info g id))) (seq 0 edges).

Lemma crossings_everywhere id info : graph_has_crossings g = true -> edge_info g id = Some info -> ei_crossing info <> None.
Proof.
  intros Hc Hi. assert (Hcross : forall id info, edge_info g id = Some info -> ei_crossing info = None <-> tones = None).
  { intros id' info' Hi'. pose proof (edge_lt id' info' Hi') as Hlt. rewrite (sp_info _ _ _ _ _ Hg) in Hlt.
    destruct (eid_all (S height) ltac:(lia) (S width) id' Hlt) as (x & y & kind & -> & Hx & Hy & Hk). rewrite Hinfo in Hi' by lia.
    unfold edge_of in Hi'. destruct (Nat.eqb kind VERTICAL), (_ =? _); simplify_eq; cbn; by destruct tones. }
  unfold graph_has_crossings in Hc. apply existsb_exists in Hc as ([info'|] & Hin & Hx); [|done]. apply bool_decide_eq_true in Hx.
  apply list_elem_of_In, list_elem_of_lookup in Hin as [id' Hid']. assert (Hi' : edge_info g id' = Some info') by (unfold edge_info; by rewrite Hid').
  rewrite (Hcross id info Hi), <- (Hcross id' info' Hi'). done.
Qed.

Record partitioned (processed : nat) (remaining : list bool) (arcs : list SharedArc) : Prop := {
  pt_length : length remaining = edges;
  pt_edges e : is_remaining remaining e = true -> is_Some (edge_info g e);
  pt_seeds e : (e < processed)%nat -> is_remaining remaining e = false;
  pt_paths : exists paths, Forall2 arc_path arcs paths /\ boundary_ids ≡ₚ concat (snd <$> paths) ++ left_over remaining }.

Lemma seed_arc_spec tile_size seed remaining arcs :
  partitioned seed remaining arcs -> (seed < edges)%nat ->
  exists remaining' arcs', seed_arc g tile_size (graph_has_crossings g) (remaining, arcs) seed = Some (remaining', arcs') /\
    partitioned (S seed) remaining' arcs'.
Proof.
  intros [Hlen He Hs (paths & Hpaths & Hperm)] Hlt. unfold seed_arc. destruct (is_remaining remaining seed) eqn:Hr; cbn [negb].
  2: { exists remaining, arcs. split; [done|]. split; try done; [|by exists paths]. intros e Hes.
       destruct (decide (e = seed)) as [->|]; [done|]. apply Hs. lia. }
  destruct (extend_seed_spec tile_size seed remaining He Hr Hlen) as (pts & rem' & r & l & -> & Hrl & (Hlen' & ids & new & Hu & Hp & Hl) & Hseed).
  cbn [mbind option_bind]. destruct (trace_arc_spec r l pts ids) as (arc & -> & Harc).
  { intros Hc id info. by apply crossings_everywhere. }
  { apply (uw_path _ _ _ _ _ Hu). }
  { apply (uw_long _ _ _ _ _ Hu). }
  { done. }
  cbn [mbind option_bind]. exists rem', (arcs ++ [arc]). split; [done|]. split.
  - congruence.
  - apply (uw_edges _ _ _ _ _ Hu).
  - intros e Hes. destruct (decide (e = seed)) as [->|Hne]; [done|]. destruct (is_remaining rem' e) eqn:Hre; [|done].
    assert (Hin : e ∈ left_over remaining).
    { rewrite Hl. apply elem_of_app. right. apply list_elem_of_In, filter_In. split; [apply in_seq; lia|done]. }
    apply list_elem_of_In, filter_In in Hin as [_ Hin]. rewrite Hs in Hin by lia. done.
  - exists (paths ++ [(pts, ids)]). split; [by apply Forall2_app; [|constructor]|].
    rewrite fmap_app, concat_app. cbn. rewrite app_nil_r in Hp |- *. rewrite Hperm, Hl, Hp, !app_assoc. done.
Qed.

Lemma build_arcs_spec tile_size :
  exists arcs paths, build_arcs g tile_size = Some arcs /\ Forall2 arc_path arcs paths /\ concat (snd <$> paths) ≡ₚ boundary_ids.
Proof.
  set (rem0 := (fun info => bool_decide (is_Some info)) <$> eg_info g).
  assert (Hrem0 : forall e, is_remaining rem0 e = bool_decide (is_Some (edge_info g e))).
  { intros e. unfold is_remaining, rem0, edge_info. rewrite list_lookup_fmap. destruct (eg_info g !! e) as [[info|]|]; done. }
  assert (Hinit : partitioned 0 rem0 []).
  { split.
    - unfold rem0. by rewrite length_fmap.
    - intros e. rewrite Hrem0. by intros ?%bool_decide_eq_true.
    - lia.
    - exists []. split; [constructor|]. cbn. unfold boundary_ids, left_over. erewrite filter_ext; [done|]. intros e. by rewrite Hrem0. }
  assert (Hloop : forall n k rem arcs, partitioned k rem arcs -> (k + n <= edges)%nat ->
    exists rem' arcs', for_each (seed_arc g tile_size (graph_has_crossings g)) (seq k n) (rem, arcs) = Some (rem', arcs') /\ partitioned (k + n) rem' arcs').
  { induction n as [|n IH]; intros k rem arcs Hp Hle; [exists rem, arcs; split; [done|]; by rewrite Nat.add_0_r|].
    cbn [seq for_each]. destruct (seed_arc_spec tile_size k rem arcs Hp) as (rem1 & arcs1 & -> & Hp1); [lia|]. cbn [mbind option_bind].
    replace (k + S n)%nat with (S k + n)%nat by lia. apply IH; [done|lia]. }
  destruct (Hloop edges 0%nat rem0 [] Hinit) as (rem' & arcs & Hrun & [Hlen He Hs (paths & Hpaths & Hperm)]); [lia|].
  exists arcs, paths. split; [|split; [done|]].
  - unfold build_arcs. fold rem0. replace (length rem0) with edges by (unfold rem0; by rewrite length_fmap). by rewrite Hrun.
  - rewrite Hperm. replace (left_over rem') with (@nil nat); [by rewrite app_nil_r|]. symmetry. apply elem_of_nil_inv. intros e Hin.
    apply list_elem_of_In, filter_In in Hin as [Hin Hre]. apply in_seq in Hin. rewrite Hs in Hre by lia. done.
Qed.

(** *** Balance *)

Definition has (z label : Z) : Z := if z =? label then 1 else 0.
Definition at_point (p v : Z * Z) : Z := if bool_decide (p = v) then 1 else 0.
(** The edges of the label that leave a point, less those that reach it. *)
Definition edge_flow (label : Z) (v : Z * Z) (id : nat) : Z :=
  match edge_info g id with
  | Some info => (has (ei_right info) label - has (ei_left info) label) * (at_point (endpoints g id).1 v - at_point (endpoints g id).2 v)
  | None => 0
  end.

Lemma edge_flow_runs label v id info a b : edge_info g id = Some info -> runs id a b ->
  edge_flow label v id = (has (right_from id info a) label - has (left_from id info a) label) * (at_point a v - at_point b v).
Proof.
  intros Hi Hr. pose proof (runs_ne id info a b Hi Hr) as Hne. unfold edge_flow, right_from, left_from. rewrite Hi.
  destruct Hr as [Hr|Hr]; rewrite Hr; cbn [fst snd].
  - rewrite bool_decide_eq_true_2 by done. lia.
  - rewrite bool_decide_eq_false_2 by congruence. lia.
Qed.
Lemma path_flow label v r l pts ids a b :
  traversed r l pts ids -> head pts = Some a -> last pts = Some b ->
  zsum (edge_flow label v) ids = (has r label - has l label) * (at_point a v - at_point b v).
Proof.
  intros Ht. revert a. induction Ht as [p|p q pts id info ids Hi Hr Hri Hle Ht IH]; intros a Ha Hb.
  - cbn in Ha, Hb. simplify_eq. cbn. lia.
  - cbn in Ha. injection Ha as <-. cbn [zsum]. rewrite (IH q eq_refl Hb).
    rewrite (edge_flow_runs label v id info p q Hi Hr), Hri, Hle. lia.
Qed.

Lemma out_edges_NoDup x y : (x <= width)%nat -> (y <= height)%nat -> NoDup (omap (out_edge x y) sides).
Proof.
  intros Hx Hy. unfold sides. destruct x as [|x], y as [|y]; cbn [omap list_omap out_edge]; unfold VERTICAL, HORIZONTAL.
  all: repeat match goal with |- NoDup [] => constructor | |- NoDup (_ :: _) => constructor end.
  all: rewrite ?elem_of_cons, elem_of_nil; try tauto.
  all: intros He; repeat destruct He as [He|He]; try done; apply eid_inj in He as (? & ? & ?); lia.
Qed.

Lemma vertex_balance label v : zsum (edge_flow label v) boundary_ids = 0.
Proof.
  assert (Hids : zsum (edge_flow label v) boundary_ids = zsum (edge_flow label v) (seq 0 edges)).
  { symmetry. apply zsum_part.
    - apply NoDup_ListNoDup, List.NoDup_filter, NoDup_ListNoDup, NoDup_seq.
    - intros id Hin. apply list_elem_of_In, filter_In in Hin as [Hin _]. by apply list_elem_of_In.
    - intros id Hin Hno. unfold edge_flow. destruct (edge_info g id) as [info|] eqn:E; [|done]. destruct Hno.
      apply list_elem_of_In, filter_In. split; [by apply list_elem_of_In|]. apply bool_decide_eq_true. rewrite E. by eexists.
    - apply NoDup_seq. }
  rewrite Hids. clear Hids.
  assert (Hdec : (exists x y, (x <= width)%nat /\ (y <= height)%nat /\ v = vx x y) \/
    ~ (exists x y, (x <= width)%nat /\ (y <= height)%nat /\ v = vx x y)).
  { destruct v as [a b]. destruct (decide (origin <= a <= origin + Z.of_nat width /\ origin <= b <= origin + Z.of_nat height)) as [Hin|Hout].
    - left. exists (Z.to_nat (a - origin)), (Z.to_nat (b - origin)). unfold vertex. split_and!; [lia|lia|f_equal; lia].
    - right. intros (x & y & Hx & Hy & [= -> ->]). lia. }
  destruct Hdec as [(x & y & Hx & Hy & ->)|Hno].
  2: { apply zsum_zero. intros id _. unfold edge_flow. destruct (edge_info g id) as [info|] eqn:E; [|done].
       assert (Hv : forall a b, runs id a b -> at_point a v = 0).
       { intros a b Hr. destruct (incident id info a b E Hr) as (x & y & _ & -> & Hx & Hy & _). unfold at_point.
         rewrite bool_decide_eq_false_2; [done|]. intros <-. by apply Hno; exists x, y. }
       rewrite (Hv (endpoints g id).1 (endpoints g id).2), (Hv (endpoints g id).2 (endpoints g id).1); [lia|right|left]; by destruct (endpoints g id). }
  rewrite (zsum_part (edge_flow label (vx x y)) (seq 0 edges) (omap (out_edge x y) sides)).
  - assert (Hside : forall side, match out_edge x y side with Some id => edge_flow label (vx x y) id | None => 0 end =
      has (out_right x y side) label - has (out_left x y side) label).
    { intros side. destruct (out_edge x y side) as [id|] eqn:Ho.
      - destruct (out_edge_spec x y side id Hx Hy Ho) as (_ & Hr & Hs). destruct (edge_info g id) as [info|] eqn:E.
        + destruct Hs as (Hr' & Hl' & _ & _). rewrite (edge_flow_runs label (vx x y) id info _ _ E Hr), Hr', Hl'.
          pose proof (runs_ne id info _ _ E Hr). unfold at_point. rewrite bool_decide_eq_true_2, bool_decide_eq_false_2 by congruence. lia.
        + unfold edge_flow. rewrite E, Hs. lia.
      - destruct (decide (out_right x y side = out_left x y side)) as [->|Hne]; [lia|].
        destruct (pair_side_edge x y _ side Hx Hy (bool_decide_eq_true_2 _ (conj Hne eq_refl))). congruence. }
    assert (Hsum : forall l, zsum (edge_flow label (vx x y)) (omap (out_edge x y) l) = zsum (fun side => has (out_right x y side) label - has (out_left x y side) label) l).
    { induction l as [|side l IH]; [done|]. cbn [omap list_omap zsum].
      rewrite <- Hside. destruct (out_edge x y side); cbn [zsum]; rewrite IH; lia. }
    rewrite Hsum. unfold sides, out_right, out_left. cbn. lia.
  - by apply out_edges_NoDup.
  - intros id Hin. apply list_elem_of_omap in Hin as (side & _ & Ho). apply elem_of_seq.
    destruct (out_edge_spec x y side id Hx Hy Ho) as (Hlt & _). lia.
  - intros id _ Hno. unfold edge_flow. destruct (edge_info g id) as [info|] eqn:E; [|done].
    assert (Hv : forall a b, runs id a b -> at_point a (vx x y) = 0).
    { intros a b Hr. destruct (incident id info a b E Hr) as (x' & y' & side & -> & Hx' & Hy' & Ho & _). unfold at_point.
      rewrite bool_decide_eq_false_2; [done|]. intros [-> ->]%vertex_inj. apply Hno, list_elem_of_omap. exists side.
      split; [destruct side; unfold sides; set_solver|done]. }
    rewrite (Hv (endpoints g id).1 (endpoints g id).2), (Hv (endpoints g id).2 (endpoints g id).1); [lia|right|left]; by destruct (endpoints g id).
  - apply NoDup_seq.
Qed.
End Around.
