(* ===== verification/ShadeRings.v ===== *)
(** * The rings of the terrain shades

    Proofs about the assembly of Topology: walks over balanced arcs close, use every arc
    once, and so trace exactly the sides of the cells of a label. *)

From stdpp Require Import sorting.
From Stdlib Require Import Floats.SpecFloat.
From S2P Require Import Prelude StdModel FloatMath Topology ShadeArcs.
#[local] Open Scope Z_scope.

(** ** Assembly *)

Section Assembly.
Context (arcs : list SharedArc).

Definition dstart (d : DirectedArc) : Z * Z := default (0, 0) (with_arc arcs (directed_start d) d).
Definition dend (d : DirectedArc) : Z * Z := default (0, 0) (with_arc arcs (directed_end d) d).
Definition known (d : DirectedArc) : Prop := is_Some (arcs !! da_id d).

Definition in_box (p : Z * Z) : Prop := min_x arcs <= p.1 <= max_x arcs /\ min_y arcs <= p.2 <= max_y arcs.
#[local] Instance in_box_dec p : Decision (in_box p).
Proof. unfold in_box. apply _. Defined.
(** The table of slots has a place for every end of an arc. *)
Definition slots_cover : bool :=
  forallb (fun arc => bool_decide (in_box (sa_topology_start arc)) && bool_decide (in_box (sa_topology_end arc))) arcs &&
  (Nat.eqb (length arcs) 0 || ((max_x arcs - min_x arcs + 1) * (max_y arcs - min_y arcs + 1) <? 2 ^ 63)).
Context (Hcover : slots_cover = true).
Abbreviation count := (Z.to_nat (slot_count arcs)).
Abbreviation ix := (fun p => Z.to_nat (slot_index arcs p)).

Lemma known_box d : known d -> in_box (dstart d) /\ in_box (dend d).
Proof.
  intros [arc Ha]. apply andb_prop in Hcover as [Hf _]. rewrite forallb_forall in Hf. specialize (Hf arc). 
  assert (Hin : In arc arcs) by (apply list_elem_of_In, list_elem_of_lookup; by eauto).
  apply Hf in Hin. apply andb_prop in Hin as [H1%bool_decide_eq_true H2%bool_decide_eq_true].
  unfold dstart, dend, with_arc. rewrite Ha. cbn. unfold directed_start, directed_end. by destruct (da_reversed d).
Qed.

Lemma slot_index_box p : in_box p ->
  slot_index arcs p = (p.1 - min_x arcs) * (max_y arcs - min_y arcs + 1) + (p.2 - min_y arcs) /\ 0 <= slot_index arcs p < slot_count arcs.
Proof.
  intros [Hx Hy]. apply andb_prop in Hcover as [_ [Hnil|Hsize]%orb_prop].
  { apply Nat.eqb_eq, nil_length_inv in Hnil. rewrite Hnil in Hx. cbn in Hx. unfold I32_MAX, I32_MIN in Hx. lia. }
  apply Z.ltb_lt in Hsize.
  set (w := max_x arcs - min_x arcs + 1) in *. set (h := max_y arcs - min_y arcs + 1) in *.
  assert (0 < w) by lia. assert (0 < h) by lia. assert (Hwh : w <= w * h /\ h <= w * h) by nia.
  assert (Hsmall : forall z, 0 <= z < 2 ^ 63 -> wrap64 z = z) by (intros z Hz; apply Z.mod_small; lia).
  unfold slot_index, slot_count, slot_height, wrapping_add, wrapping_mul. fold w h.
  assert (Hi : 0 <= (p.1 - min_x arcs) * h + (p.2 - min_y arcs) < w * h) by nia.
  assert (Hi' : 0 <= (p.1 - min_x arcs) * h < w * h) by nia.
  rewrite (Hsmall h), (Hsmall w), (Hsmall (p.1 - min_x arcs)), (Hsmall (p.2 - min_y arcs)) by lia.
  rewrite (Hsmall ((p.1 - min_x arcs) * h)), (Hsmall (_ + _)), (Hsmall (w * h)) by lia. done.
Qed.
Lemma ix_inj p q : in_box p -> in_box q -> ix p = ix q -> p = q.
Proof.
  intros Hp Hq He. destruct (slot_index_box p Hp) as [Ep Bp]. destruct (slot_index_box q Hq) as [Eq Bq].
  cbn beta in He. assert (E : slot_index arcs p = slot_index arcs q) by lia. rewrite Ep, Eq in E. destruct p as [px py], q as [qx qy]. unfold in_box in *. cbn in *.
  set (h := max_y arcs - min_y arcs + 1) in *. assert (Hd : (px - qx) * h = qy - py) by lia.
  assert (px = qx) as -> by (destruct (Z.lt_trichotomy px qx) as [?|[?|?]]; [nia|done|nia]). f_equal. lia.
Qed.
Lemma ix_lt p : in_box p -> (ix p < count)%nat.
Proof. intros Hp. destruct (slot_index_box p Hp) as [_ B]. lia. Qed.
Lemma slot_of_box slots p : length slots = count -> in_box p -> slot_of arcs slots p = Some (ix p).
Proof. intros Hl Hp. destruct (slot_index_box p Hp) as [_ B]. unfold slot_of. rewrite Hl. by rewrite (proj2 (Z.ltb_lt _ _)) by lia. Qed.

(** *** The table *)

Record keyed (slots : list (list DirectedArc)) : Prop := {
  ky_length : length slots = count;
  ky_slot i l d : slots !! i = Some l -> d ∈ l -> known d /\ i = ix (dstart d) }.

Lemma keyed_slot slots p : keyed slots -> in_box p -> exists l, slots !! ix p = Some l /\
  (forall d, d ∈ l -> known d /\ dstart d = p) /\ (forall d, d ∈ concat slots -> dstart d = p -> d ∈ l).
Proof.
  intros [Hl Hs] Hp. destruct (lookup_lt_is_Some_2 slots (ix p)) as [l Hlk]; [rewrite Hl; by apply ix_lt|]. exists l. split; [done|]. split.
  - intros d Hd. destruct (Hs _ _ _ Hlk Hd) as [Hk Hi]. split; [done|]. apply ix_inj; [by apply known_box|done|done].
  - intros d Hd Hdp. apply list_elem_of_In, in_concat in Hd as (l' & Hl' & Hd). apply list_elem_of_In in Hd. apply list_elem_of_In, list_elem_of_lookup in Hl' as [i Hi].
    destruct (Hs _ _ _ Hi Hd) as [_ ->]. rewrite Hdp in Hi. congruence.
Qed.
Lemma concat_insert (slots : list (list DirectedArc)) i l l' :
  slots !! i = Some l -> concat (<[i := l']> slots) ++ l ≡ₚ concat slots ++ l'.
Proof.
  revert i. induction slots as [|l0 slots IH]; intros [|i] Hi; try done; cbn in *.
  - injection Hi as ->. rewrite <- !app_assoc. rewrite (Permutation_app_comm (concat slots) l), (Permutation_app_comm (concat slots) l').
    rewrite !app_assoc. by rewrite (Permutation_app_comm l' l).
  - rewrite <- !app_assoc. f_equiv. by apply IH.
Qed.
Lemma keyed_insert slots i l l' : keyed slots -> slots !! i = Some l -> (forall d, d ∈ l' -> known d /\ i = ix (dstart d)) -> keyed (<[i := l']> slots).
Proof.
  intros [Hl Hs] Hi Hin. split; [by rewrite length_insert|]. intros j m d [(-> & <- & _)|[Hne Hj]]%list_lookup_insert_Some Hd; [by apply Hin|by eapply Hs].
Qed.
Lemma keyed_take slots i l d l' : keyed slots -> slots !! i = Some l -> l ≡ₚ d :: l' ->
  keyed (<[i := l']> slots) /\ concat slots ≡ₚ d :: concat (<[i := l']> slots).
Proof.
  intros Hk Hi Hp. split.
  - eapply keyed_insert; [done|done|]. intros d' Hd'. eapply (ky_slot _ Hk); [done|]. rewrite Hp. by right.
  - pose proof (concat_insert slots i l l' Hi) as Hc. rewrite Hp in Hc. symmetry. apply (Permutation_app_inv_r l'). rewrite <- Hc. cbn. apply Permutation_middle.
Qed.
Lemma concat_put (slots : list (list DirectedArc)) i l d : slots !! i = Some l -> concat (<[i := l ++ [d]]> slots) ≡ₚ d :: concat slots.
Proof.
  intros Hi. pose proof (concat_insert slots i l (l ++ [d]) Hi) as Hc. apply (Permutation_app_inv_r l). rewrite Hc, app_assoc. cbn.
  rewrite Permutation_app_comm. done.
Qed.

(** *** Walks *)

Lemma turn_key_known incoming d : known d -> exists rank, turn_key arcs incoming d = Some rank.
Proof. intros [arc Ha]. unfold turn_key, with_arc. rewrite Ha. by eexists. Qed.
Lemma min_candidate_spec incoming best candidates : Forall known candidates ->
  exists d, min_candidate arcs incoming best candidates = Some d /\ d ∈ best.2 :: candidates.
Proof.
  intros Hk. revert best. induction Hk as [|d candidates Hd _ IH]; intros best; cbn [min_candidate]; [exists best.2; split; [done|by left]|].
  destruct (turn_key_known incoming d Hd) as [rank ->]. cbn [mbind option_bind]. destruct (IH (if key_lt (rank, d) best then (rank, d) else best)) as (d' & -> & Hin).
  exists d'. split; [done|]. destruct (key_lt _ _); cbn in Hin; set_solver.
Qed.
Lemma take_turning_spec candidates incoming : candidates <> [] -> Forall known candidates ->
  exists d rest, take_turning_arc arcs candidates incoming = Some (Some (d, rest)) /\ candidates ≡ₚ d :: rest.
Proof.
  intros Hne Hk. destruct candidates as [|d0 l]; [done|]. unfold take_turning_arc. apply Forall_cons in Hk as [Hd Hk].
  destruct (turn_key_known incoming d0 Hd) as [rank ->]. cbn [mbind option_bind].
  destruct (min_candidate_spec incoming (rank, d0) l Hk) as (d & -> & Hin). cbn [mbind option_bind]. cbn [snd] in Hin.
  destruct (list_find_elem_of (eq d) (d0 :: l) d Hin eq_refl) as [[i x] Hf]. rewrite Hf. cbn.
  apply list_find_Some in Hf as (Hi & <- & _). do 2 eexists. split; [done|]. by apply delete_Permutation.
Qed.

Definition arc_flow (v : Z * Z) (d : DirectedArc) : Z := at_point (dstart d) v - at_point (dend d) v.
Fixpoint chain (a : Z * Z) (ds : list DirectedArc) (b : Z * Z) : Prop :=
  match ds with [] => a = b | d :: ds => dstart d = a /\ chain (dend d) ds b end.
Lemma chain_flow v a ds b : chain a ds b -> zsum (arc_flow v) ds = at_point a v - at_point b v.
Proof.
  revert a. induction ds as [|d ds IH]; intros a; cbn [chain zsum]; [intros ->; lia|]. intros [<- Hc]. rewrite (IH _ Hc). unfold arc_flow. lia.
Qed.
Lemma flow_leaves v l : 0 < zsum (arc_flow v) l -> exists d, d ∈ l /\ dstart d = v.
Proof.
  induction l as [|d l IH]; cbn [zsum]; [lia|]. intros Hf. destruct (decide (dstart d = v)) as [He|Hne]; [exists d; split; [by left|done]|].
  destruct IH as (d' & Hin & Hd'); [|exists d'; split; [by right|done]]. unfold arc_flow at 1 in Hf. unfold at_point in Hf at 1 2.
  rewrite (bool_decide_eq_false_2 _ Hne) in Hf. destruct (bool_decide (dend d = v)); lia.
Qed.

(** What an arc adds to a ring, first or later. *)
Definition first_points (d : DirectedArc) : list (Z * Z) := default [] (with_arc arcs (directed_points d) d).
Definition next_points (d : DirectedArc) : list (Z * Z) :=
  default [] (with_arc arcs (fun arc => if sa_shared_render_endpoints arc then drop 1 (directed_points d arc) else directed_points d arc) d).
Definition drawn (ds : list DirectedArc) : list (Z * Z) :=
  match ds with [] => [] | d :: ds => first_points d ++ concat (next_points <$> ds) end.

Lemma follow_spec rounds start w :
  keyed (wk_slots w) -> in_box start -> in_box (wk_current w) -> (length (concat (wk_slots w)) <= rounds)%nat ->
  (forall v, zsum (arc_flow v) (concat (wk_slots w)) = at_point (wk_current w) v - at_point start v) ->
  exists w' ds, follow arcs rounds start w = Some (true, w') /\ keyed (wk_slots w') /\ chain (wk_current w) ds start /\
    concat (wk_slots w) ≡ₚ ds ++ concat (wk_slots w') /\ wk_ring w' = wk_ring w ++ concat (next_points <$> ds).
Proof.
  revert w. induction rounds as [|rounds IH]; intros w Hk Hs Hc Hlen Hflow.
  all: cbn [follow]; destruct (decide (wk_current w = start)) as [He|Hne];
    [rewrite (bool_decide_eq_true_2 _ He); exists w, []; cbn; rewrite app_nil_r; split_and!; done|rewrite (bool_decide_eq_false_2 _ Hne)].
  all: destruct (flow_leaves (wk_current w) (concat (wk_slots w))) as (d & Hd & Hdc);
    [rewrite Hflow; unfold at_point; rewrite bool_decide_eq_true_2, bool_decide_eq_false_2 by congruence; lia|].
  { destruct (concat (wk_slots w)); [by apply elem_of_nil in Hd|cbn in Hlen; lia]. }
  rewrite (slot_of_box _ _ (ky_length _ Hk) Hc). cbn [mbind option_bind].
  destruct (keyed_slot _ _ Hk Hc) as (l & Hl & Hin & Hall). rewrite Hl. cbn [mbind option_bind].
  assert (Hne' : l <> []) by (intros ->; by apply Hall, elem_of_nil in Hd).
  destruct (take_turning_spec l (wk_incoming w) Hne') as (next & rest & -> & Hperm); [apply Forall_forall; intros x Hx; by apply Hin|]. cbn [mbind option_bind].
  assert (Hnext : known next /\ dstart next = wk_current w) by (apply Hin; rewrite Hperm; by left). destruct Hnext as [Hkn Hst].
  destruct (keyed_take _ _ _ _ _ Hk Hl Hperm) as [Hk' Hcat].
  destruct (known_box next Hkn) as [_ Hbox]. pose proof Hkn as [arc Harc]. unfold join_arc, with_arc. rewrite Harc. cbn [fmap option_fmap option_map mbind option_bind].
  assert (Hend : dend next = directed_end next arc) by (unfold dend, with_arc; by rewrite Harc).
  match goal with |- context [follow arcs rounds start ?w1] => set (w' := w1) end.
  destruct (IH w') as (w'' & ds & Hf & Hk'' & Hch & Hcat' & Hring); cbn [wk_slots wk_current w'].
  - done.
  - done.
  - by rewrite <- Hend.
  - apply Permutation_length in Hcat. cbn in Hcat. lia.
  - intros v. specialize (Hflow v). rewrite Hcat in Hflow. cbn [zsum] in Hflow. unfold arc_flow at 1 in Hflow. rewrite Hst, Hend in Hflow. lia.
  - exists w'', (next :: ds). split; [done|]. split; [done|]. cbn [chain]. rewrite Hst, Hend. split; [done|]. split.
    + etrans; [exact Hcat|]. constructor. exact Hcat'.
    + rewrite Hring. cbn [wk_ring w' fmap list_fmap concat]. unfold next_points at 2, with_arc. rewrite Harc. cbn. by rewrite <- app_assoc.
Qed.

Definition leaves (p : Z * Z) (d : DirectedArc) : bool := bool_decide (dstart d = p).
Lemma filter_permutation (f : DirectedArc -> bool) l l' : l ≡ₚ l' -> List.filter f l ≡ₚ List.filter f l'.
Proof.
  induction 1 as [|d l l' _ IH|d d' l|l l' l'' _ IH1 _ IH2]; cbn; [done| | |by etrans].
  - destruct (f d); by rewrite IH.
  - destruct (f d), (f d'); try done. constructor.
Qed.
Lemma slot_filter slots p l : keyed slots -> in_box p -> slots !! ix p = Some l -> l ≡ₚ List.filter (leaves p) (concat slots).
Proof.
  intros Hk Hp Hl. pose proof (concat_insert slots _ l [] Hl) as Hc. rewrite app_nil_r in Hc. rewrite <- (filter_permutation _ _ _ Hc), List.filter_app.
  assert (Hk' : keyed (<[ix p := []]> slots)) by (eapply keyed_insert; [done|done|]; intros d Hd; by apply elem_of_nil in Hd).
  destruct (keyed_slot slots p Hk Hp) as (l' & Hl' & Hin & _). rewrite Hl in Hl'. injection Hl' as <-.
  destruct (keyed_slot _ p Hk' Hp) as (l' & Hl' & _ & Hall). rewrite list_lookup_insert_eq in Hl' by (by eapply lookup_lt_Some). injection Hl' as <-.
  assert (Hnone : forall m, (forall d, d ∈ m -> dstart d <> p) -> List.filter (leaves p) m = []).
  { induction m as [|d m IH]; intros Hm; [done|]. cbn. unfold leaves at 1. rewrite bool_decide_eq_false_2 by (apply Hm; by left). apply IH. intros d' Hd'. apply Hm. by right. }
  assert (Hid : forall m, (forall d, d ∈ m -> dstart d = p) -> List.filter (leaves p) m = m).
  { induction m as [|d m IH]; intros Hm; [done|]. cbn. unfold leaves at 1. rewrite bool_decide_eq_true_2 by (apply Hm; by left). f_equal. apply IH. intros d' Hd'. apply Hm. by right. }
  rewrite Hnone, Hid; [done|intros d Hd; by apply Hin|]. intros d Hd He. by apply (Hall d), elem_of_nil in Hd.
Qed.

Definition closed_walk (ds : list DirectedArc) : Prop := ds <> [] /\ exists p, chain p ds p.
Definition add_rings (walks : list (list DirectedArc)) (rings : list (list (Z * Z))) : list (list (Z * Z)) :=
  foldl (fun rings ds => finish_ring (drawn ds) rings) rings walks.
Record walked (slots slots' : list (list DirectedArc)) (walks : list (list DirectedArc)) : Prop := {
  wd_keyed : keyed slots';
  wd_closed : Forall closed_walk walks;
  wd_used : concat slots ≡ₚ concat walks ++ concat slots' }.

Lemma walked_flow slots slots' walks v : walked slots slots' walks -> zsum (arc_flow v) (concat slots') = zsum (arc_flow v) (concat slots).
Proof.
  intros [_ Hc Hu]. rewrite Hu, zsum_app, (zsum_concat _ walks), (zsum_zero _ walks); [lia|]. intros ds Hds. rewrite Forall_forall in Hc.
  destruct (Hc ds Hds) as (_ & p & Hch). rewrite (chain_flow v _ _ _ Hch). lia.
Qed.
Lemma walked_length slots slots' walks : walked slots slots' walks -> (length (concat slots') <= length (concat slots))%nat.
Proof. intros [_ _ Hu]. apply Permutation_length in Hu. rewrite length_app in Hu. lia. Qed.

Lemma walks_from_spec fuel start slots rings :
  keyed slots -> in_box start -> (forall v, zsum (arc_flow v) (concat slots) = 0) -> (length (concat slots) <= length arcs)%nat ->
  (length (List.filter (leaves start) (concat slots)) <= fuel)%nat ->
  exists slots' walks, walks_from arcs fuel start slots rings = Some (slots', add_rings walks rings) /\
    walked slots slots' walks /\ (forall d, d ∈ concat slots' -> dstart d <> start).
Proof.
  revert slots rings. induction fuel as [|fuel IH]; intros slots rings Hk Hs Hflow Hlen Hfuel.
  all: destruct (keyed_slot slots start Hk Hs) as (l & Hl & Hin & Hall); pose proof (slot_filter slots start l Hk Hs Hl) as Hfil.
  all: cbn [walks_from]; rewrite (slot_of_box _ _ (ky_length _ Hk) Hs); cbn [mbind option_bind]; rewrite Hl; cbn [mbind option_bind].
  all: destruct l as [|first rest].
  1,3: exists slots, []; split; [done|]; split; [by split|]; intros d Hd He; by apply (Hall d), elem_of_nil in Hd.
  { apply Permutation_length in Hfil. cbn in Hfil. lia. }
  destruct (Hin first ltac:(by left)) as [Hkn Hst]. pose proof Hkn as [arc Harc]. unfold begin_walk, with_arc. rewrite Harc. cbn [fmap option_fmap option_map mbind option_bind].
  destruct (keyed_take slots _ (first :: rest) first rest Hk Hl) as [Hk1 Hcat1]; [done|].
  assert (Hend : dend first = directed_end first arc) by (unfold dend, with_arc; by rewrite Harc).
  match goal with |- context [follow arcs _ start ?w1] => set (w := w1) end.
  destruct (follow_spec (S (length arcs)) start w) as (w' & ds & -> & Hk2 & Hch & Hcat2 & Hring); cbn [wk_slots wk_current w].
  { done. } { done. } { rewrite <- Hend. by apply known_box. } { apply Permutation_length in Hcat1. cbn in Hcat1. lia. }
  { intros v. specialize (Hflow v). rewrite Hcat1 in Hflow. cbn [zsum] in Hflow. unfold arc_flow at 1 in Hflow. rewrite Hst, Hend in Hflow. lia. }
  cbn [mbind option_bind]. assert (Hw : walked slots (wk_slots w') [first :: ds]).
  { split; [done| |].
    - constructor; [|constructor]. split; [done|]. exists start. cbn. rewrite Hst, Hend. done.
    - etrans; [exact Hcat1|]. cbn. rewrite app_nil_r. constructor. exact Hcat2. }
  destruct (IH (wk_slots w') (finish_ring (wk_ring w') rings)) as (slots' & walks & -> & Hw' & Hnone).
  { done. } { done. } { intros v. by rewrite (walked_flow _ _ _ v Hw). } { pose proof (walked_length _ _ _ Hw). lia. }
  { rewrite (filter_permutation _ _ _ Hcat1) in Hfuel. cbn in Hfuel. unfold leaves at 1 in Hfuel. rewrite (bool_decide_eq_true_2 _ Hst) in Hfuel. cbn in Hfuel.
    cbn [wk_slots w] in Hcat2. rewrite (filter_permutation _ _ _ Hcat2), List.filter_app, length_app in Hfuel. lia. }
  exists slots', ((first :: ds) :: walks). split; [|split; [|done]].
  - f_equal. f_equal. cbn [add_rings foldl]. unfold add_rings. f_equal. f_equal. rewrite Hring. cbn [wk_ring w]. unfold drawn, first_points, with_arc. by rewrite Harc.
  - destruct Hw as [_ Hc1 Hu1], Hw' as [Hk3 Hc2 Hu2]. split; [done|by apply (Forall_app_2 _ [first :: ds])|].
    rewrite Hu1, Hu2. cbn. by rewrite app_nil_r, app_assoc.
Qed.

(** *** The rings of a label *)

Lemma place_spec ds slots touched starts :
  keyed slots -> Forall known ds -> (forall p, p ∈ starts -> in_box p) -> (forall d, d ∈ concat slots -> dstart d ∈ starts) ->
  exists slots' touched' starts', for_each (place arcs) ds (slots, touched, starts) = Some (slots', touched', starts') /\ keyed slots' /\
    concat slots' ≡ₚ ds ++ concat slots /\ (forall p, p ∈ starts' -> in_box p) /\ (forall d, d ∈ concat slots' -> dstart d ∈ starts').
Proof.
  intros Hk Hds. revert slots touched starts Hk. induction Hds as [|d ds Hd _ IH]; intros slots touched starts Hk Hbox Hin.
  { do 3 eexists. split; [done|]. done. }
  destruct (known_box d Hd) as [Hb _]. destruct (keyed_slot slots _ Hk Hb) as (l & Hl & Hin' & Hall).
  set (starts1 := match l with [] => starts ++ [dstart d] | _ => starts end).
  set (touched1 := match l with [] => touched ++ [ix (dstart d)] | _ => touched end).
  assert (Hplace : place arcs (slots, touched, starts) d = Some (<[ix (dstart d) := l ++ [d]]> slots, touched1, starts1)).
  { assert (Hs : with_arc arcs (directed_start d) d = Some (dstart d)) by (destruct Hd as [arc Ha]; unfold dstart, with_arc; by rewrite Ha).
    unfold place. rewrite Hs. cbn [mbind option_bind]. rewrite (slot_of_box _ _ (ky_length _ Hk) Hb). cbn [mbind option_bind]. rewrite Hl. cbn [mbind option_bind].
    subst starts1 touched1. by destruct l. }
  cbn [for_each]. rewrite Hplace. cbn [mbind option_bind].
  assert (Hmem : dstart d ∈ starts1 /\ (forall p, p ∈ starts -> p ∈ starts1) /\ (forall p, p ∈ starts1 -> in_box p)).
  { subst starts1. destruct l as [|d' l]; split_and!; try done.
    - apply elem_of_app. right. by left.
    - intros p Hp. apply elem_of_app. by left.
    - intros p [Hp|Hp]%elem_of_app; [by apply Hbox|]. apply list_elem_of_singleton in Hp as ->. done.
    - destruct (Hin' d' ltac:(by left)) as [Hk' <-]. apply Hin. apply list_elem_of_In, in_concat. exists (d' :: l). split; [|by left].
      apply list_elem_of_In, list_elem_of_lookup. by eauto. }
  destruct Hmem as (Hm1 & Hm2 & Hm3). pose proof (concat_put slots _ l d Hl) as Hcat.
  destruct (IH (<[ix (dstart d) := l ++ [d]]> slots) touched1 starts1)
    as (slots' & touched' & starts' & -> & Hk' & Hc' & Hb' & Hi').
  - eapply keyed_insert; [done|done|]. intros d' [Hd'|Hd']%elem_of_app; [destruct (Hin' d' Hd') as [? ->]; done|]. by apply list_elem_of_singleton in Hd' as ->.
  - done.
  - intros d' Hd'. rewrite Hcat in Hd'. apply elem_of_cons in Hd' as [->|Hd']; [done|]. by apply Hm2, Hin.
  - exists slots', touched', starts'. split; [done|]. split_and!; try done. rewrite Hc', Hcat. cbn. by rewrite Permutation_middle.
Qed.

Lemma sort_slots touched slots : keyed slots ->
  let slots' := foldr (fun index slots => alter (merge_sort directed_le) index slots) slots touched in
  keyed slots' /\ concat slots' ≡ₚ concat slots.
Proof.
  intros Hk. induction touched as [|i touched [IHk IHc]]; cbn; [done|].
  set (mid := foldr _ slots touched) in *. destruct (mid !! i) as [l|] eqn:Hl.
  - pose proof (merge_sort_Permutation directed_le l) as Hp. rewrite (list_alter_insert mid i (merge_sort directed_le) l Hl) || idtac.
    assert (Ha : alter (merge_sort directed_le) i mid = <[i := merge_sort directed_le l]> mid).
    { apply list_eq. intros j. destruct (decide (j = i)) as [->|Hne].
      - rewrite list_lookup_alter_eq, Hl. cbn. by rewrite list_lookup_insert_eq by (by eapply lookup_lt_Some).
      - by rewrite list_lookup_alter_ne, list_lookup_insert_ne by done. }
    rewrite Ha. split.
    + eapply keyed_insert; [done|done|]. intros d Hd. rewrite Hp in Hd. by eapply (ky_slot _ IHk).
    + pose proof (concat_insert mid i l (merge_sort directed_le l) Hl) as Hc. apply (Permutation_app_inv_r l). etrans; [exact Hc|]. by rewrite Hp, IHc.
  - assert (Ha : alter (merge_sort directed_le) i mid = mid).
    { apply list_eq. intros j. destruct (decide (j = i)) as [->|Hne]; [by rewrite list_lookup_alter_eq, Hl|by rewrite list_lookup_alter_ne]. }
    by rewrite Ha.
Qed.

Lemma walks_at_spec ps slots rings :
  keyed slots -> (forall p, p ∈ ps -> in_box p) -> (forall v, zsum (arc_flow v) (concat slots) = 0) -> (length (concat slots) <= length arcs)%nat ->
  exists slots' walks, for_each (walks_at arcs) ps (slots, rings) = Some (slots', add_rings walks rings) /\
    walked slots slots' walks /\ (forall d, d ∈ concat slots' -> dstart d ∉ ps).
Proof.
  revert slots rings. induction ps as [|p ps IH]; intros slots rings Hk Hbox Hflow Hlen.
  { exists slots, []. split; [done|]. split; [by split|]. intros d _ Hd. by apply elem_of_nil in Hd. }
  assert (Hp : in_box p) by (apply Hbox; by left).
  destruct (keyed_slot slots p Hk Hp) as (l & Hl & Hin & Hall).
  destruct (walks_from_spec (length l) p slots rings Hk Hp Hflow Hlen) as (slots1 & walks1 & Hfrom & Hw1 & Hnone1).
  { by rewrite (Permutation_length (slot_filter slots p l Hk Hp Hl)). }
  assert (Hat : walks_at arcs (slots, rings) p = Some (slots1, add_rings walks1 rings)).
  { unfold walks_at. rewrite (slot_of_box _ _ (ky_length _ Hk) Hp). cbn [mbind option_bind]. rewrite Hl. exact Hfrom. }
  cbn [for_each]. rewrite Hat. cbn [mbind option_bind]. destruct (IH slots1 (add_rings walks1 rings)) as (slots2 & walks2 & -> & Hw2 & Hnone2).
  { apply Hw1. } { intros q Hq. apply Hbox. by right. } { intros v. by rewrite (walked_flow _ _ _ v Hw1). } { pose proof (walked_length _ _ _ Hw1). lia. }
  exists slots2, (walks1 ++ walks2). split; [unfold add_rings; by rewrite foldl_app|]. split.
  - destruct Hw1 as [_ Hc1 Hu1], Hw2 as [Hk2 Hc2 Hu2]. split; [done|by apply Forall_app|]. by rewrite Hu1, Hu2, concat_app, app_assoc.
  - intros d Hd [He|Hps]%elem_of_cons; [|by apply (Hnone2 d)]. apply (Hnone1 d); [|done]. destruct Hw2 as [_ _ Hu2]. rewrite Hu2. apply elem_of_app. by right.
Qed.

Lemma empty_table (slots : list (list DirectedArc)) : concat slots = [] -> slots = replicate (length slots) [].
Proof. induction slots as [|l slots IH]; cbn; [done|]. intros [-> Hc]%app_eq_nil. by rewrite <- IH. Qed.

Lemma clear_empty touched n :
  foldr (fun index slots => <[index := []]> slots) (replicate n (@nil DirectedArc)) touched = replicate n [].
Proof.
  induction touched as [|i touched IH]; [done|]. cbn [foldr]. rewrite IH. apply list_eq. intros j.
  destruct (decide (j = i)) as [->|Hne]; [|by rewrite list_lookup_insert_ne].
  destruct (decide (i < n)%nat); [rewrite list_lookup_insert_eq by (by rewrite length_replicate); by rewrite lookup_replicate_2|].
  by rewrite list_insert_ge by (rewrite length_replicate; lia).
Qed.

Lemma label_rings_spec ds :
  Forall known ds -> (forall v, zsum (arc_flow v) ds = 0) -> (length ds <= length arcs)%nat ->
  exists walks, label_rings arcs (replicate count []) ds = Some (replicate count [], add_rings walks []) /\
    Forall closed_walk walks /\ ds ≡ₚ concat walks.
Proof.
  intros Hds Hflow Hlen. assert (Hempty : forall n, concat (replicate n (@nil DirectedArc)) = []) by (induction n; done).
  assert (Hk0 : keyed (replicate count [])).
  { split; [apply length_replicate|]. intros i l d Hi Hd. apply lookup_replicate in Hi as [-> _]. by apply elem_of_nil in Hd. }
  unfold label_rings. destruct (place_spec ds (replicate count []) [] [] Hk0 Hds) as (slots1 & touched & starts & -> & Hk1 & Hc1 & Hb1 & Hi1).
  { intros p Hp. by apply elem_of_nil in Hp. } { intros d Hd. rewrite Hempty in Hd. by apply elem_of_nil in Hd. }
  rewrite Hempty, app_nil_r in Hc1. cbn [mbind option_bind].
  destruct (sort_slots touched slots1 Hk1) as [Hk2 Hc2]. cbn zeta in Hk2, Hc2. set (slots2 := foldr _ slots1 touched) in *.
  pose proof (merge_sort_Permutation point_le starts) as Hps.
  destruct (walks_at_spec (merge_sort point_le starts) slots2 []) as (slots3 & walks & -> & Hw & Hnone).
  { done. } { intros p Hp. apply Hb1. by rewrite <- Hps. } { intros v. by rewrite Hc2, Hc1. } { by rewrite Hc2, Hc1. }
  cbn [mbind option_bind]. destruct Hw as [Hk3 Hcw Hu].
  assert (Hall : concat slots3 = []).
  { apply elem_of_nil_inv. intros d Hd. apply (Hnone d Hd). rewrite Hps. apply Hi1. rewrite <- Hc2, Hu. apply elem_of_app. by right. }
  assert (Hs3 : slots3 = replicate count []) by (rewrite (empty_table _ Hall); by rewrite (ky_length _ Hk3)).
  exists walks. split; [|split; [done|]].
  - by rewrite Hs3, clear_empty.
  - rewrite <- Hc1, <- Hc2, Hu, Hall. by rewrite app_nil_r.
Qed.

(** *** The labels *)

Definition side_arcs (label : Z) (entry : nat * SharedArc) : list DirectedArc :=
  (if sa_right entry.2 =? label then [{| da_id := entry.1; da_reversed := false |}] else []) ++
  (if sa_left entry.2 =? label then [{| da_id := entry.1; da_reversed := true |}] else []).
(** The arcs that have the label on their right, in one direction or the other. *)
Definition directed_of (label : Z) : list DirectedArc := concat (side_arcs label <$> imap pair arcs).

Definition entry_of (ds : list DirectedArc) : option (list DirectedArc) := match ds with [] => None | _ => Some ds end.
Lemma entry_of_default ds : default [] (entry_of ds) = ds.
Proof. by destruct ds. Qed.
Lemma entry_of_snoc ds d : entry_of (ds ++ [d]) = Some (ds ++ [d]).
Proof. by destruct ds. Qed.
Lemma push_label_entry label k d m ds : label <> 0 -> m !! label = entry_of ds ->
  push_label k d m !! label = entry_of (ds ++ if k =? label then [d] else []).
Proof.
  intros Hl Hm. unfold push_label. destruct (Z.eqb_spec k label) as [->|Hne].
  - rewrite (proj2 (Z.eqb_neq _ _) Hl), lookup_insert_eq, Hm, entry_of_default, entry_of_snoc. done.
  - rewrite app_nil_r. destruct (k =? 0); [done|]. by rewrite lookup_insert_ne.
Qed.
Lemma push_label_zero k d m : m !! 0 = None -> push_label k d m !! 0 = None.
Proof. intros Hm. unfold push_label. destruct (Z.eqb_spec k 0); [done|]. by rewrite lookup_insert_ne. Qed.

Lemma by_label_entry label : label <> 0 -> by_label arcs !! label = entry_of (directed_of label).
Proof.
  intros Hl. unfold by_label, directed_of. induction (imap pair arcs) as [|[id arc] l IH] using rev_ind; [done|].
  rewrite foldl_app, fmap_app, concat_app. cbn [foldl fmap list_fmap concat]. unfold side_arcs at 2. cbn [fst snd]. rewrite app_nil_r, app_assoc.
  by apply push_label_entry, push_label_entry.
Qed.
Lemma by_label_zero : by_label arcs !! 0 = None.
Proof.
  unfold by_label. induction (imap pair arcs) as [|[id arc] l IH] using rev_ind; [done|].
  rewrite foldl_app. cbn [foldl]. by apply push_label_zero, push_label_zero.
Qed.

Lemma directed_of_known label : Forall known (directed_of label).
Proof.
  apply Forall_forall. intros d Hd. apply list_elem_of_In, in_concat in Hd as (l & Hl & Hd). apply list_elem_of_In, list_elem_of_fmap in Hl as ([id arc] & -> & Hin).
  apply list_elem_of_lookup in Hin as [i Hi]. rewrite list_lookup_imap in Hi. apply fmap_Some in Hi as (arc' & Hi & [= -> ->]).
  apply list_elem_of_In in Hd. unfold side_arcs in Hd. exists arc'. cbn [fst snd] in Hd.
  destruct (_ =? _), (_ =? _); cbn in Hd; repeat (apply elem_of_cons in Hd as [->|Hd]; [done|]); by apply elem_of_nil in Hd.
Qed.
Lemma directed_of_length label : Forall (fun arc => sa_right arc <> sa_left arc) arcs -> (length (directed_of label) <= length arcs)%nat.
Proof.
  intros Hne. unfold directed_of. rewrite <- (length_imap pair arcs). assert (Hall : Forall (fun e => sa_right (snd e) <> sa_left (snd e)) (imap pair arcs)).
  { apply Forall_forall. intros e He. apply list_elem_of_lookup in He as [i Hi]. rewrite list_lookup_imap in Hi. apply fmap_Some in Hi as (arc & Hi & ->).
    rewrite Forall_forall in Hne. apply Hne, list_elem_of_lookup. by exists i. }
  induction Hall as [|e l He _ IH]; [done|]. cbn [fmap list_fmap concat length]. rewrite length_app.
  assert (length (side_arcs label e) <= 1)%nat; [|lia]. unfold side_arcs. destruct (Z.eqb_spec (sa_right e.2) label), (Z.eqb_spec (sa_left e.2) label); cbn; lia || congruence.
Qed.

(** *** Every label in turn *)

Definition rings_of (label : Z) (rings : list (list (Z * Z))) : Prop :=
  exists walks, rings = add_rings walks [] /\ Forall closed_walk walks /\ directed_of label ≡ₚ concat walks.
Context (Hbalance : forall label v, label <> 0 -> zsum (arc_flow v) (directed_of label) = 0).
Context (Hsides : Forall (fun arc => sa_right arc <> sa_left arc) arcs).

Lemma assemble_label_spec label result : label <> 0 -> result !! label = None ->
  exists result', assemble_label arcs (replicate count [], result) (label, directed_of label) = Some (replicate count [], result') /\
    rings_of label (default [] (result' !! label)) /\ forall other, other <> label -> result' !! other = result !! other.
Proof.
  intros Hl Hr. destruct (label_rings_spec (directed_of label)) as (walks & Hlr & Hcw & Hp).
  { apply directed_of_known. } { intros v. by apply Hbalance. } { by apply directed_of_length. }
  unfold assemble_label. cbn [snd]. rewrite Hlr. cbn [mbind option_bind fst]. eexists. split; [done|]. split.
  - exists walks. split; [|done]. destruct (add_rings walks []); [by rewrite Hr|by rewrite lookup_insert_eq].
  - intros other Hne. destruct (add_rings walks []); [done|]. by rewrite lookup_insert_ne.
Qed.
Lemma assemble_labels_spec entries result :
  NoDup (fst <$> entries) -> (forall label ds, (label, ds) ∈ entries -> label <> 0 /\ ds = directed_of label /\ result !! label = None) ->
  exists result', for_each (assemble_label arcs) entries (replicate count [], result) = Some (replicate count [], result') /\
    (forall label, label ∉ entries.*1 -> result' !! label = result !! label) /\
    (forall label, label ∈ entries.*1 -> rings_of label (default [] (result' !! label))).
Proof.
  revert result. induction entries as [|[label ds] entries IH]; intros result Hnd Hin.
  { exists result. split; [done|]. split; [done|]. intros label Hl. by apply elem_of_nil in Hl. }
  cbn [fmap list_fmap fst] in Hnd. apply NoDup_cons in Hnd as [Hnew Hnd].
  destruct (Hin label ds ltac:(by left)) as (Hl & -> & Hr). destruct (assemble_label_spec label result Hl Hr) as (result1 & H1 & Hrings & Hother).
  destruct (IH result1 Hnd) as (result2 & H2 & Hout & Hall).
  { intros label' ds' Hin'. destruct (Hin label' ds' ltac:(by right)) as (? & ? & ?). split_and!; [done..|]. rewrite Hother; [done|].
    intros ->. apply Hnew, list_elem_of_fmap. by exists (label, ds'). }
  exists result2. cbn [for_each]. rewrite H1. cbn [mbind option_bind]. split; [done|]. cbn [fmap list_fmap fst]. split.
  - intros other Hn. apply not_elem_of_cons in Hn as [Hne Hn]. rewrite Hout by done. by apply Hother.
  - intros other [->|Ho]%elem_of_cons; [by rewrite Hout|by apply Hall].
Qed.

Lemma assemble_rings_spec : exists rings, assemble_rings arcs = Some rings /\ rings !! 0 = None /\
  forall label, label <> 0 -> rings_of label (default [] (rings !! label)).
Proof.
  assert (Hnone : forall label, label <> 0 -> by_label arcs !! label = None -> rings_of label []).
  { intros label Hl Hm. rewrite by_label_entry in Hm by done. exists []. split; [done|]. split; [done|]. by destruct (directed_of label). }
  unfold assemble_rings. destruct (decide (by_label arcs = ∅)) as [He|Hne].
  { rewrite bool_decide_eq_true_2 by done. exists ∅. split; [done|]. split; [done|]. intros label Hl. apply Hnone; [done|]. by rewrite He. }
  rewrite bool_decide_eq_false_2 by done.
  assert (Hperm : in_order (by_label arcs) ≡ₚ map_to_list (by_label arcs)) by apply merge_sort_Permutation.
  destruct (assemble_labels_spec (in_order (by_label arcs)) ∅) as (rings & H & Hout & Hall).
  - rewrite Hperm. apply NoDup_fst_map_to_list.
  - intros label ds Hin. rewrite Hperm in Hin. apply elem_of_map_to_list in Hin. destruct (decide (label = 0)) as [->|Hl]; [by rewrite by_label_zero in Hin|].
    rewrite by_label_entry in Hin by done. destruct (directed_of label); [done|]. injection Hin as <-. done.
  - rewrite H. cbn. exists rings. split; [done|].
    assert (Hkey : forall label, label ∉ (in_order (by_label arcs)).*1 -> by_label arcs !! label = None).
    { intros label Hn. destruct (by_label arcs !! label) as [ds|] eqn:E; [|done]. exfalso. apply Hn. rewrite Hperm. apply list_elem_of_fmap. exists (label, ds).
      split; [done|]. by apply elem_of_map_to_list. }
    split.
    + rewrite Hout; [done|]. rewrite Hperm. intros ((label & ds) & Hz & Hin)%list_elem_of_fmap. cbn in Hz. subst label. apply elem_of_map_to_list in Hin. by rewrite by_label_zero in Hin.
    + intros label Hl. destruct (decide (label ∈ (in_order (by_label arcs)).*1)) as [Hin|Hn]; [by apply Hall|]. rewrite Hout by done. by apply Hnone, Hkey.
Qed.
End Assembly.
