(* ===== verification/Shades.v ===== *)
(** * Exactness of the terrain shades

    Composes the arcs of ShadeArcs with the rings of ShadeRings: the rings of a shade run
    along exactly the sides of its cells that face another shade, each once and with the
    cell on the right; and a boundary outside the table of slots is a panic. *)

From stdpp Require Import sorting.
From Stdlib Require Import Floats.SpecFloat.
From S2P Require Import Prelude StdModel FloatMath Topology ShadeArcs ShadeRings.
#[local] Open Scope Z_scope.

(** ** Steps along the grid *)

Abbreviation Step := ((Z * Z) * (Z * Z))%type.
(** The steps of a directed arc, given the points of the grid that the arcs run through. *)
Definition path_steps (paths : list (list (Z * Z))) (d : DirectedArc) : list Step :=
  let points := default [] (paths !! da_id d) in unit_steps (if da_reversed d then rev points else points).
(** The sides of a cell that face another label, with the cell on the right. *)
Definition cell_sides (labels : list Z) (width height : nat) (origin label : Z) (cell : nat * nat) : list Step :=
  let '(x, y) := cell in
  let lab := label_at labels width height in
  let zx := Z.of_nat x in let zy := Z.of_nat y in
  let at_corner := vertex origin in
  if negb (lab zx zy =? label) then [] else
  (if lab zx (zy - 1) =? label then [] else [(at_corner x y, at_corner (S x) y)]) ++
  (if lab (zx + 1) zy =? label then [] else [(at_corner (S x) y, at_corner (S x) (S y))]) ++
  (if lab zx (zy + 1) =? label then [] else [(at_corner (S x) (S y), at_corner x (S y))]) ++
  (if lab (zx - 1) zy =? label then [] else [(at_corner x (S y), at_corner x y)]).
Definition label_sides (labels : list Z) (width height : nat) (origin label : Z) : list Step :=
  grid_points width height ≫= cell_sides labels width height origin label.

Lemma unit_steps_rev (points : list (Z * Z)) : unit_steps (rev points) ≡ₚ prod_swap <$> unit_steps points.
Proof.
  induction points as [|a points IH]; [done|]. destruct points as [|b points]; [done|]. cbn [rev] in IH |- *.
  rewrite (unit_steps_join _ [a] b a), IH; [|by rewrite last_app|done]. cbn [unit_steps fmap list_fmap]. by rewrite Permutation_app_comm.
Qed.
Lemma grid_points_NoDup columns rows : NoDup (grid_points columns rows).
Proof.
  apply NoDup_bind; [| |apply NoDup_seq].
  - intros y1 y2 p _ _ (x1 & -> & _)%list_elem_of_fmap (x2 & [= _ He] & _)%list_elem_of_fmap. done.
  - intros y _. apply NoDup_fmap_2; [intros ? ? [= ->]; done|]. apply NoDup_seq.
Qed.

(** ** Sides and edges *)

Section Sides.
Context (labels : list Z) (tones : option (list spec_float)) (width height : nat) (origin scale : Z) (g : EdgeGrid).
Context (Hg : shaped width height origin scale g).
Context (Hinfo : forall x y kind, (x <= width)%nat -> (y <= height)%nat -> (kind < 2)%nat ->
  edge_info g (eid (S height) x y kind) = edge_of labels tones width height origin scale x y kind).
Abbreviation lab := (label_at labels width height).
Abbreviation vx := (vertex origin).
Abbreviation edges := (length (eg_info g)).

Definition edge_sides (label : Z) (id : nat) : list Step :=
  match edge_info g id with
  | Some info => (if ei_right info =? label then [endpoints g id] else []) ++ (if ei_left info =? label then [prod_swap (endpoints g id)] else [])
  | None => []
  end.

Lemma edge_sides_runs label id info a b : edge_info g id = Some info -> runs g id a b ->
  edge_sides label id ≡ₚ (if right_from g id info a =? label then [(a, b)] else []) ++ (if left_from g id info a =? label then [(b, a)] else []).
Proof.
  intros Hi Hr. pose proof (runs_ne labels tones width height origin scale g Hg Hinfo id info a b Hi Hr) as Hne.
  unfold edge_sides, right_from, left_from. rewrite Hi. destruct Hr as [-> | ->]; cbn [fst snd prod_swap].
  - by rewrite bool_decide_eq_true_2.
  - rewrite bool_decide_eq_false_2 by congruence. apply Permutation_app_comm.
Qed.
Lemma elem_of_edge_sides label id a b : (a, b) ∈ edge_sides label id <->
  exists info, edge_info g id = Some info /\ runs g id a b /\ right_from g id info a = label.
Proof.
  split.
  - intros Hin. destruct (edge_info g id) as [info|] eqn:Hi; [|unfold edge_sides in Hin; rewrite Hi in Hin; by apply elem_of_nil in Hin].
    destruct (endpoints g id) as [p q] eqn:He. assert (Hr : runs g id p q) by (by left).
    pose proof (from_swap labels tones width height origin scale g Hg Hinfo id info q p Hi (runs_sym g id p q Hr)) as Hsw.
    rewrite (edge_sides_runs label id info p q Hi Hr) in Hin. exists info. split; [done|].
    apply elem_of_app in Hin as [Hin|Hin]; (match type of Hin with context [?z =? label] => destruct (Z.eqb_spec z label) as [Hl|] end; [|by apply elem_of_nil in Hin]);
      apply list_elem_of_singleton in Hin as [= -> ->].
    + done.
    + split; [by apply runs_sym|]. congruence.
  - intros (info & Hi & Hr & Hl). rewrite (edge_sides_runs label id info a b Hi Hr), Hl, Z.eqb_refl. by left.
Qed.

Lemma edge_sides_NoDup label : NoDup (seq 0 edges ≫= edge_sides label).
Proof.
  apply NoDup_bind; [| |apply NoDup_seq].
  - intros id1 id2 [a b] _ _ (i1 & Hi1 & Hr1 & _)%elem_of_edge_sides (i2 & Hi2 & Hr2 & _)%elem_of_edge_sides.
    destruct (edge_between_runs labels tones width height origin scale g Hg Hinfo id1 i1 a b Hi1 Hr1) as (f1 & E1 & _).
    destruct (edge_between_runs labels tones width height origin scale g Hg Hinfo id2 i2 a b Hi2 Hr2) as (f2 & E2 & _). congruence.
  - intros id _. destruct (edge_info g id) as [info|] eqn:Hi; [|unfold edge_sides; rewrite Hi; constructor].
    destruct (endpoints g id) as [p q] eqn:He. assert (Hr : runs g id p q) by (by left).
    pose proof (runs_ne labels tones width height origin scale g Hg Hinfo id info p q Hi Hr) as Hne.
    rewrite (edge_sides_runs label id info p q Hi Hr). destruct (_ =? _), (_ =? _); cbn; repeat constructor; rewrite ?list_elem_of_singleton; try (intros []%elem_of_nil). congruence.
Qed.

Lemma label_inside x y label : lab x y = label -> label <> 0 -> 0 <= x < Z.of_nat width /\ 0 <= y < Z.of_nat height.
Proof. unfold label_at. destruct (outside width height x y) eqn:E; [congruence|]. unfold outside in E. intros _ _. bool_props. lia. Qed.
Lemma elem_of_cell_sides label x y s : s ∈ cell_sides labels width height origin label (x, y) <->
  lab (Z.of_nat x) (Z.of_nat y) = label /\
  (lab (Z.of_nat x) (Z.of_nat y - 1) <> label /\ s = (vx x y, vx (S x) y) \/
   lab (Z.of_nat x + 1) (Z.of_nat y) <> label /\ s = (vx (S x) y, vx (S x) (S y)) \/
   lab (Z.of_nat x) (Z.of_nat y + 1) <> label /\ s = (vx (S x) (S y), vx x (S y)) \/
   lab (Z.of_nat x - 1) (Z.of_nat y) <> label /\ s = (vx x (S y), vx x y)).
Proof.
  unfold cell_sides. destruct (Z.eqb_spec (lab (Z.of_nat x) (Z.of_nat y)) label) as [Hc|Hc]; cbn [negb]; [|rewrite elem_of_nil; tauto].
  rewrite !elem_of_app. assert (Hside : forall (z : Z) (t : Step), s ∈ (if z =? label then [] else [t]) <-> z <> label /\ s = t).
  { intros z t. destruct (Z.eqb_spec z label); [rewrite elem_of_nil; tauto|rewrite list_elem_of_singleton; tauto]. }
  rewrite !Hside. tauto.
Qed.
Lemma elem_of_label_sides label a b : label <> 0 -> (a, b) ∈ label_sides labels width height origin label <->
  exists x y side, (x <= width)%nat /\ (y <= height)%nat /\ a = vx x y /\ b = target a side /\
    out_right labels width height x y side = label /\ out_left labels width height x y side <> label.
Proof.
  intros Hl. unfold label_sides. rewrite list_elem_of_bind. split.
  - intros ([x y] & Hs & [Hx Hy]%elem_of_grid_points). apply elem_of_cell_sides in Hs as [Hc Hs].
    destruct Hs as [[Hn [= -> ->]]|[[Hn [= -> ->]]|[[Hn [= -> ->]]|[Hn [= -> ->]]]]].
    + exists x, y, East. split_and!; [lia|lia|done|unfold target, vertex; cbn; f_equal; lia|done|done].
    + exists (S x), y, South. split_and!; [lia|lia|done|unfold target, vertex; cbn; f_equal; lia| |]; unfold out_right, out_left.
      * by replace (Z.of_nat (S x) - 1) with (Z.of_nat x) by lia.
      * by replace (Z.of_nat (S x)) with (Z.of_nat x + 1) by lia.
    + exists (S x), (S y), West. split_and!; [lia|lia|done|unfold target, vertex; cbn; f_equal; lia| |]; unfold out_right, out_left.
      * by replace (Z.of_nat (S x) - 1) with (Z.of_nat x) by lia; replace (Z.of_nat (S y) - 1) with (Z.of_nat y) by lia.
      * by replace (Z.of_nat (S x) - 1) with (Z.of_nat x) by lia; replace (Z.of_nat (S y)) with (Z.of_nat y + 1) by lia.
    + exists x, (S y), North. split_and!; [lia|lia|done|unfold target, vertex; cbn; f_equal; lia| |]; unfold out_right, out_left.
      * by replace (Z.of_nat (S y) - 1) with (Z.of_nat y) by lia.
      * by replace (Z.of_nat (S y) - 1) with (Z.of_nat y) by lia.
  - intros (x & y & side & Hx & Hy & -> & -> & Hr & Hn). unfold out_right, out_left in *.
    destruct side; destruct (label_inside _ _ _ Hr Hl) as [Hxr Hyr].
    + destruct y as [|y]; [lia|]. replace (Z.of_nat (S y) - 1) with (Z.of_nat y) in * by lia. exists (x, y). split; [|apply elem_of_grid_points; lia].
      apply elem_of_cell_sides. split; [done|]. do 3 right. split; [done|]. unfold target, vertex; cbn; f_equal; f_equal; lia.
    + destruct x as [|x]; [lia|]. replace (Z.of_nat (S x) - 1) with (Z.of_nat x) in * by lia. exists (x, y). split; [|apply elem_of_grid_points; lia].
      apply elem_of_cell_sides. split; [done|]. right. left. split; [by replace (Z.of_nat x + 1) with (Z.of_nat (S x)) by lia|].
      unfold target, vertex; cbn; f_equal; f_equal; lia.
    + destruct x as [|x]; [lia|]. destruct y as [|y]; [lia|]. replace (Z.of_nat (S x) - 1) with (Z.of_nat x) in * by lia.
      replace (Z.of_nat (S y) - 1) with (Z.of_nat y) in * by lia. exists (x, y). split; [|apply elem_of_grid_points; lia].
      apply elem_of_cell_sides. split; [done|]. do 2 right. left. split; [by replace (Z.of_nat y + 1) with (Z.of_nat (S y)) by lia|].
      unfold target, vertex; cbn; f_equal; f_equal; lia.
    + exists (x, y). split; [|apply elem_of_grid_points; lia]. apply elem_of_cell_sides. split; [done|]. left. split; [done|].
      unfold target, vertex; cbn; f_equal; f_equal; lia.
Qed.
Lemma label_sides_NoDup label : NoDup (label_sides labels width height origin label).
Proof.
  apply NoDup_bind; [| |apply grid_points_NoDup].
  - intros [x1 y1] [x2 y2] s _ _ [_ H1]%elem_of_cell_sides [_ H2]%elem_of_cell_sides.
    destruct H1 as [[_ ->]|[[_ ->]|[[_ ->]|[_ ->]]]], H2 as [[_ H2]|[[_ H2]|[[_ H2]|[_ H2]]]]; unfold vertex in H2; injection H2 as H2; f_equal; lia.
  - intros [x y] _. unfold cell_sides. destruct (negb _); [constructor|]. destruct (_ =? _), (_ =? _), (_ =? _), (_ =? _); cbn.
    all: repeat constructor; rewrite ?elem_of_cons, ?elem_of_nil; unfold vertex; intros Hs; repeat destruct Hs as [Hs|Hs]; try (injection Hs; lia); done.
Qed.

(** The edges between labels are the sides of the cells. *)
Lemma edges_are_sides label : label <> 0 -> seq 0 edges ≫= edge_sides label ≡ₚ label_sides labels width height origin label.
Proof.
  intros Hl. apply NoDup_Permutation; [apply edge_sides_NoDup|apply label_sides_NoDup|]. intros [a b]. rewrite (elem_of_label_sides label a b Hl), list_elem_of_bind. split.
  - intros (id & (info & Hi & Hr & Hright)%elem_of_edge_sides & _).
    destruct (incident labels tones width height origin scale g Hg Hinfo id info a b Hi Hr) as (x & y & side & -> & Hx & Hy & Ho & ->).
    destruct (out_edge_spec labels tones width height origin scale g Hg Hinfo x y side id Hx Hy Ho) as (_ & _ & Hs). rewrite Hi in Hs. destruct Hs as (Hs1 & _ & _ & Hs2).
    exists x, y, side. split_and!; try done; congruence.
  - intros (x & y & side & Hx & Hy & -> & -> & Hright & Hleft).
    destruct (pair_side_edge labels width height x y (label_pair (out_right labels width height x y side) (out_left labels width height x y side)) side Hx Hy) as [id Ho].
    { apply bool_decide_eq_true. split; [congruence|done]. }
    destruct (out_edge_spec labels tones width height origin scale g Hg Hinfo x y side id Hx Hy Ho) as (Hlt & Hr & Hs). exists id. split; [|apply elem_of_seq; lia].
    apply elem_of_edge_sides. destruct (edge_info g id) as [info|]; [|congruence]. exists info. destruct Hs as (Hs & _). split_and!; [done|done|congruence].
Qed.

(** ** Arcs and edges *)

Lemma traversed_steps label r l pts ids : traversed g r l pts ids ->
  (if r =? label then unit_steps pts else []) ++ (if l =? label then unit_steps (rev pts) else []) ≡ₚ ids ≫= edge_sides label.
Proof.
  intros Ht. transitivity ((if r =? label then unit_steps pts else []) ++ (if l =? label then prod_swap <$> unit_steps pts else [])).
  { f_equiv. destruct (l =? label); [apply unit_steps_rev|done]. }
  induction Ht as [p|a b pts id info ids Hi Hr Hright Hleft _ IH]; [by destruct (_ =? _), (_ =? _)|].
  rewrite bind_cons, <- IH, (edge_sides_runs label id info a b Hi Hr), Hright, Hleft. change (unit_steps (a :: b :: pts)) with ((a, b) :: unit_steps (b :: pts)).
  destruct (r =? label), (l =? label); cbn [app fmap list_fmap prod_swap fst snd]; rewrite ?app_nil_r; try done. constructor. symmetry. apply Permutation_middle.
Qed.
Lemma bind_pointwise {A B C} (f : A -> list C) (h : B -> list C) (l : list A) (k : list B) :
  length l = length k -> (forall i a b, l !! i = Some a -> k !! i = Some b -> f a ≡ₚ h b) -> l ≫= f ≡ₚ k ≫= h.
Proof.
  revert k. induction l as [|a l IH]; intros [|b k] Hlen Hf; try done. rewrite !bind_cons, (Hf 0%nat a b), (IH k); [done|cbn in Hlen; lia| |done|done].
  intros i. apply (Hf (S i)).
Qed.

Context (arcs : list SharedArc) (paths : list (list (Z * Z) * list nat)).
Context (Hpaths : Forall2 (arc_path g) arcs paths) (Hids : concat (snd <$> paths) ≡ₚ boundary_ids g).

Lemma arc_steps label : directed_of arcs label ≫= path_steps (fst <$> paths) ≡ₚ paths ≫= (fun path => path.2 ≫= edge_sides label).
Proof.
  transitivity (imap pair arcs ≫= (fun entry => side_arcs label entry ≫= path_steps (fst <$> paths))).
  { unfold directed_of. induction (imap pair arcs) as [|e l IH]; [done|]. cbn [fmap list_fmap concat]. by rewrite bind_app, bind_cons, IH. }
  apply bind_pointwise; [by rewrite length_imap, (Forall2_length _ _ _ Hpaths)|]. intros i e path He Hpath.
  rewrite list_lookup_imap in He. apply fmap_Some in He as (arc & Harc & ->).
  destruct (Forall2_lookup_lr _ _ _ _ _ _ Hpaths Harc Hpath) as [Ht _ _ _ _]. rewrite <- (traversed_steps label _ _ _ _ Ht). unfold side_arcs. cbn [fst snd].
  rewrite bind_app. assert (Hd : forall reversed, path_steps paths.*1 {| da_id := i; da_reversed := reversed |} = unit_steps (if reversed : bool then rev path.1 else path.1)).
  { intros reversed. unfold path_steps. cbn [da_id da_reversed]. by rewrite list_lookup_fmap, Hpath. }
  destruct (_ =? _), (_ =? _); rewrite ?bind_singleton, ?Hd; done.
Qed.
Lemma arcs_trace_sides label : label <> 0 ->
  directed_of arcs label ≫= path_steps (fst <$> paths) ≡ₚ label_sides labels width height origin label.
Proof.
  intros Hl. rewrite arc_steps, <- (edges_are_sides label Hl). transitivity (concat (snd <$> paths) ≫= edge_sides label).
  { clear. induction paths as [|path l IH]; [done|]. rewrite bind_cons. cbn [fmap list_fmap concat]. by rewrite bind_app, IH. }
  rewrite Hids. unfold boundary_ids. induction (seq 0 edges) as [|id l IH]; [done|]. cbn [List.filter]. rewrite bind_cons, <- IH.
  unfold edge_sides at 2. destruct (edge_info g id) as [info|] eqn:Hi.
  - rewrite bool_decide_eq_true_2 by done. rewrite bind_cons. unfold edge_sides at 1. by rewrite Hi.
  - by rewrite bool_decide_eq_false_2 by (intros [? ?]; done).
Qed.

Lemma zsum_fmap {A B} (f : B -> Z) (h : A -> B) l : zsum f (h <$> l) = zsum (fun a => f (h a)) l.
Proof. induction l as [|a l IH]; [done|]. cbn. by rewrite <- IH. Qed.
Lemma side_arcs_flow label v i arc : arcs !! i = Some arc ->
  zsum (arc_flow arcs v) (side_arcs label (i, arc)) =
  (has (sa_right arc) label - has (sa_left arc) label) * (at_point (sa_topology_start arc) v - at_point (sa_topology_end arc) v).
Proof.
  intros Harc. unfold side_arcs, has. cbn [fst snd]. rewrite zsum_app. assert (Hf : forall reversed, arc_flow arcs v {| da_id := i; da_reversed := reversed |} =
    (if reversed : bool then -1 else 1) * (at_point (sa_topology_start arc) v - at_point (sa_topology_end arc) v)).
  { intros reversed. unfold arc_flow, dstart, dend, with_arc, directed_start, directed_end. cbn [da_id da_reversed]. rewrite Harc. cbn. destruct reversed; lia. }
  destruct (_ =? _), (_ =? _); cbn [zsum]; rewrite ?Hf; lia.
Qed.
Lemma arcs_balance label v : zsum (arc_flow arcs v) (directed_of arcs label) = 0.
Proof.
  rewrite <- (vertex_balance labels tones width height origin scale g Hg Hinfo label v), <- Hids, zsum_concat, zsum_fmap.
  unfold directed_of. rewrite zsum_concat, zsum_fmap.
  assert (Hgen : forall l k, length l = length k -> (forall i e path, l !! i = Some e -> k !! i = Some path ->
    zsum (arc_flow arcs v) (side_arcs label e) = zsum (edge_flow g label v) (snd path)) ->
    zsum (fun e => zsum (arc_flow arcs v) (side_arcs label e)) l = zsum (fun path : list (Z * Z) * list nat => zsum (edge_flow g label v) path.2) k).
  { induction l as [|e l IH]; intros [|path k] Hlen Hf; try done. cbn [zsum]. rewrite (Hf 0%nat e path), (IH k); [done|cbn in Hlen; lia| |done|done].
    intros i. apply (Hf (S i)). }
  apply Hgen; [by rewrite length_imap, (Forall2_length _ _ _ Hpaths)|]. intros i e path He Hpath. rewrite list_lookup_imap in He. apply fmap_Some in He as (arc & Harc & ->).
  destruct (Forall2_lookup_lr _ _ _ _ _ _ Hpaths Harc Hpath) as [Ht Hstart Hend _ _]. rewrite (side_arcs_flow label v i arc Harc).
  symmetry. by apply (path_flow labels tones width height origin scale g Hg Hinfo label v _ _ path.1).
Qed.
End Sides.

(** ** The rings of the shades *)

(** The table of slots has a place for the ends of every arc of the field. *)
Definition field_covered (labels : list Z) (tones : option (list spec_float)) (width height : nat) (origin tile_size output_scale : Z) : bool :=
  match boundary_graph labels tones width height origin output_scale with
  | Some graph => match build_arcs graph tile_size with Some arcs => slots_cover arcs | None => true end
  | None => true
  end.

(** [rings] are drawn along closed walks over [arcs] that take exactly the steps of the sides of [label]. *)
Definition traces_sides (labels : list Z) (width height : nat) (origin : Z) (arcs : list SharedArc) (paths : list (list (Z * Z)))
    (label : Z) (rings : list (list (Z * Z))) : Prop :=
  exists walks, rings = add_rings arcs walks [] /\ Forall (closed_walk arcs) walks /\
    concat walks ≫= path_steps paths ≡ₚ label_sides labels width height origin label.


Module DemoShades.
(** A tile that is all of one shade but for its middle. *)
Definition labels : list Z := replicate 12 1 ++ [0] ++ replicate 12 1.
Definition tones : list spec_float := f32_of_int <$> labels.

Lemma demo_sides : length (label_sides labels 5 5 0 1) = 24%nat.
Proof. vm_compute. reflexivity. Qed.

(** An island in the middle of a flat tile. *)
Definition island : list Z := replicate 14 0 ++ [1; 1; 0; 0; 0; 0; 1; 1] ++ replicate 14 0.

(** The ends of the arcs of the island lie before the first slot: the assembly indexes the table out of its bounds. *)
Lemma island_panics : trace_interpolated_shared_rings island (f32_of_int <$> island) 6 6 0 6 2 = None.
Proof. vm_compute. reflexivity. Qed.
End DemoShades.
