(* ===== verification/Dem.v ===== *)
(** * Elevation tiles

    Models [crates/mmpf-terrain/src/dem.rs]: the elevations of a Terrarium tile, and the
    reads through a tile and its eight neighbours. A panic is [None]. The decoder of the
    image is a parameter.

    Shows that decoded elevations are valid or not numbers, that reads never leave a
    tile, and that neighbourhoods over one mosaic read the same elevation at the same
    place of the world. *)

From stdpp Require Import sorting.
From Stdlib Require Import Floats.SpecFloat.
From S2P Require Import Prelude StdModel FloatMath.
#[local] Open Scope Z_scope.

Definition MIN_VALID_ELEVATION : F32 := f32_of_int (-12000).
Definition MAX_VALID_ELEVATION : F32 := f32_of_int 9000.
Definition DEFAULT_MAX_DEM_TILE_DIMENSION : Z := 2048.

Record DemTile := { dt_width : nat; dt_height : nat; dt_elevations : list F32 }.
Definition dt_get (t : DemTile) (x y : nat) : option F32 := dt_elevations t !! (y * dt_width t + x)%nat.
(** Two words, a vector of three words, and four bytes per elevation. *)
Definition byte_size (t : DemTile) : Z := Z.of_nat (length (dt_elevations t)) * 4 + 40.

(** ** Decoding *)

Section Decode.
(** The image decoder: dimensions and pixels of an image within the limit. *)
Context (decode_rgb : list Z -> Z -> option (nat * nat * list (Z * Z * Z))).

Definition elevation_of (pixel : Z * Z * Z) : F32 :=
  let '(r, g, b) := pixel in
  let elevation :=
    f32_sub (f32_add (f32_add (f32_mul (f32_of_int r) (f32_of_int 256)) (f32_of_int g)) (f32_div (f32_of_int b) (f32_of_int 256)))
      (f32_of_int 32768) in
  if f_le MIN_VALID_ELEVATION elevation && f_le elevation MAX_VALID_ELEVATION then elevation else f_nan.
Definition decode_terrarium_with_dimension_limit (bytes : list Z) (max_dimension : Z) : option DemTile :=
  '(width, height, pixels) ← decode_rgb bytes max_dimension;
  Some {| dt_width := width; dt_height := height; dt_elevations := elevation_of <$> pixels |}.
Definition decode_terrarium (bytes : list Z) : option DemTile :=
  decode_terrarium_with_dimension_limit bytes DEFAULT_MAX_DEM_TILE_DIMENSION.
End Decode.

(** ** Neighbourhoods *)

Record DemNeighborhood := { dn_tiles : list (option DemTile); dn_width : nat; dn_height : nat }.
Inductive NeighborhoodError := CenterMissing | TileTooSmall (width height : nat) | DimensionsDiffer (width height : nat).

Definition same_size (width height : nat) (tile : DemTile) : bool := Nat.eqb (dt_width tile) width && Nat.eqb (dt_height tile) height.
Definition from_tiles (tiles : list (option DemTile)) : NeighborhoodError + DemNeighborhood :=
  match mjoin (tiles !! 4%nat) with
  | None => inl CenterMissing
  | Some center =>
      let width := dt_width center in
      let height := dt_height center in
      if Nat.ltb width 3 || Nat.ltb height 3 then inl (TileTooSmall width height) else
      match list_find (fun tile => same_size width height tile = false) (omap id tiles) with
      | Some (_, tile) => inl (DimensionsDiffer (dt_width tile) (dt_height tile))
      | None => inr {| dn_tiles := tiles; dn_width := width; dn_height := height |}
      end
  end.

Definition tile_axis (value size : Z) : Z * Z :=
  if value <? 0 then (-1, value + size) else if size <=? value then (1, value - size) else (0, value).
Definition clamp_axis (value lo hi : Z) : Z := Z.max lo (Z.min hi value).
Definition dn_get (n : DemNeighborhood) (x y : Z) : option F32 :=
  let width := Z.of_nat (dn_width n) in
  let height := Z.of_nat (dn_height n) in
  let x := clamp_axis x (- width) (2 * width - 1) in
  let y := clamp_axis y (- height) (2 * height - 1) in
  let '(column, local_x) := tile_axis x width in
  let '(row, local_y) := tile_axis y height in
  let index := Z.to_nat ((row + 1) * 3 + column + 1) in
  tile ← dn_tiles n !! index;
  match tile with
  | Some tile => dt_get tile (Z.to_nat local_x) (Z.to_nat local_y)
  | None =>
      center ← mjoin (dn_tiles n !! 4%nat);
      dt_get center (Z.to_nat (clamp_axis x 0 (width - 1))) (Z.to_nat (clamp_axis y 0 (height - 1)))
  end.

(** The sum of the finite values and their number. *)
Definition add_finite (acc : F32 * Z) (value : F32) : F32 * Z :=
  if is_finite value then (f32_add acc.1 value, acc.2 + 1) else acc.
Definition grid_elevation (n : DemNeighborhood) (x y : Z) : option F32 :=
  a ← dn_get n (x - 1) (y - 1);
  b ← dn_get n x (y - 1);
  c ← dn_get n (x - 1) y;
  d ← dn_get n x y;
  let '(sum, count) := foldl add_finite (f64_zero, 0) [a; b; c; d] in
  Some (if count =? 0 then f_nan else f32_div sum (f32_of_int count)).

(** ** Lemmas *)

Definition tile_wf (tile : DemTile) : Prop := length (dt_elevations tile) = (dt_width tile * dt_height tile)%nat.
(** What [from_tiles] makes of decoded tiles. *)
Record neighborhood_wf (n : DemNeighborhood) : Prop := {
  nw_tiles : length (dn_tiles n) = 9%nat;
  nw_center : exists center, dn_tiles n !! 4%nat = Some (Some center);
  nw_size : (3 <= dn_width n)%nat /\ (3 <= dn_height n)%nat;
  nw_same tile : Some tile ∈ dn_tiles n -> dt_width tile = dn_width n /\ dt_height tile = dn_height n /\ tile_wf tile }.

Lemma elevation_of_valid pixel :
  elevation_of pixel = f_nan \/ f_le MIN_VALID_ELEVATION (elevation_of pixel) = true /\ f_le (elevation_of pixel) MAX_VALID_ELEVATION = true.
Proof. unfold elevation_of. destruct pixel as [[r g] b]. destruct (f_le _ _ && f_le _ _) eqn:E; [right; by apply andb_prop in E|by left]. Qed.

Lemma from_tiles_wf tiles n :
  length tiles = 9%nat -> (forall tile, Some tile ∈ tiles -> tile_wf tile) -> from_tiles tiles = inr n -> neighborhood_wf n.
Proof.
  intros Hlen Hwf. unfold from_tiles. destruct (tiles !! 4%nat) as [[center|]|] eqn:Hc; cbn; [|done..].
  destruct (_ || _) eqn:Hsmall; [done|]. destruct (list_find _ _) as [[i t]|] eqn:Hf; [done|]. intros [= <-]. apply orb_false_elim in Hsmall as [?%Nat.leb_gt ?%Nat.leb_gt].
  split; cbn; [done|by exists center|lia|]. intros tile Hin. apply list_find_None in Hf. rewrite Forall_forall in Hf.
  specialize (Hf tile). assert (Hin' : tile ∈ omap id tiles) by (apply list_elem_of_omap; by exists (Some tile)).
  apply Hf in Hin'. apply not_false_is_true in Hin'. unfold same_size in Hin'.
  apply andb_prop in Hin' as [?%Nat.eqb_eq ?%Nat.eqb_eq]. split_and!; [done|done|by apply Hwf].
Qed.

Lemma dt_get_inside tile x y : tile_wf tile -> (x < dt_width tile)%nat -> (y < dt_height tile)%nat -> exists v, dt_get tile x y = Some v.
Proof. intros Hwf Hx Hy. unfold dt_get. apply lookup_lt_is_Some_2. rewrite Hwf. nia. Qed.
Lemma tile_axis_inside value size : 0 < size -> - size <= value <= 2 * size - 1 ->
  let '(lane, local) := tile_axis value size in -1 <= lane <= 1 /\ 0 <= local < size /\ value = lane * size + local.
Proof. intros Hs Hv. unfold tile_axis. destruct (Z.ltb_spec value 0); [lia|]. destruct (Z.leb_spec size value); lia. Qed.

Lemma dn_get_total n x y : neighborhood_wf n -> exists v, dn_get n x y = Some v.
Proof.
  intros [Hlen [center Hc] [Hw Hh] Hsame]. unfold dn_get.
  set (w := Z.of_nat (dn_width n)). set (h := Z.of_nat (dn_height n)).
  set (x' := clamp_axis x (- w) (2 * w - 1)). set (y' := clamp_axis y (- h) (2 * h - 1)).
  assert (Hx : - w <= x' <= 2 * w - 1) by (unfold x', clamp_axis; lia). assert (Hy : - h <= y' <= 2 * h - 1) by (unfold y', clamp_axis; lia).
  pose proof (tile_axis_inside x' w ltac:(lia) Hx) as Ax. pose proof (tile_axis_inside y' h ltac:(lia) Hy) as Ay.
  destruct (tile_axis x' w) as [column local_x], (tile_axis y' h) as [row local_y].
  destruct (lookup_lt_is_Some_2 (dn_tiles n) (Z.to_nat ((row + 1) * 3 + column + 1))) as [tile Ht]; [rewrite Hlen; lia|]. rewrite Ht. cbn [mbind option_bind].
  destruct tile as [tile|].
  - destruct (Hsame tile) as (Ew & Eh & Hwf); [apply list_elem_of_lookup; by eauto|]. apply dt_get_inside; [done|lia|lia].
  - rewrite Hc. cbn. destruct (Hsame center) as (Ew & Eh & Hwf); [apply list_elem_of_lookup; by eauto|].
    apply dt_get_inside; [done|unfold clamp_axis; lia|unfold clamp_axis; lia].
Qed.
Lemma grid_elevation_total n x y : neighborhood_wf n -> exists v, grid_elevation n x y = Some v.
Proof.
  intros Hn. unfold grid_elevation.
  destruct (dn_get_total n (x - 1) (y - 1) Hn) as [a ->], (dn_get_total n x (y - 1) Hn) as [b ->], (dn_get_total n (x - 1) y Hn) as [c ->], (dn_get_total n x y Hn) as [d ->].
  cbn [mbind option_bind]. destruct (foldl _ _ _). by eexists.
Qed.

(** ** Mosaics *)

Section Mosaic.
(** The tiles of the world, all of one size. *)
Context (mosaic : Z -> Z -> DemTile) (size : nat) (Hsize : (3 <= size)%nat).
Context (Hmosaic : forall column row, dt_width (mosaic column row) = size /\ dt_height (mosaic column row) = size /\ tile_wf (mosaic column row)).

(** The neighbourhood of a tile, when its neighbours are there. *)
Definition mosaic_tiles (column row : Z) : list (option DemTile) :=
  dy ← [-1; 0; 1]; dx ← [-1; 0; 1]; [Some (mosaic (column + dx) (row + dy))].
Definition mosaic_at (column row : Z) : DemNeighborhood :=
  {| dn_tiles := mosaic_tiles column row; dn_width := size; dn_height := size |}.
(** The elevation at a pixel of the world. *)
Definition world_elevation (x y : Z) : option F32 :=
  let s := Z.of_nat size in dt_get (mosaic (x / s) (y / s)) (Z.to_nat (x mod s)) (Z.to_nat (y mod s)).

Lemma mosaic_from_tiles column row : from_tiles (mosaic_tiles column row) = inr (mosaic_at column row).
Proof.
  unfold from_tiles. cbn [mosaic_tiles mbind list_bind app lookup list_lookup mjoin option_join]. change (mjoin (Some (Some (mosaic (column + 0) (row + 0))))) with (Some (mosaic (column + 0) (row + 0))). cbn iota.
  destruct (Hmosaic (column + 0) (row + 0)) as (-> & -> & _). rewrite (proj2 (Nat.ltb_ge _ _) Hsize). cbn [orb].
  destruct (list_find _ _) as [[i tile]|] eqn:Hf; [|done]. exfalso. apply list_find_Some in Hf as (Hin & Hs & _).
  assert (Htile : exists c r, tile = mosaic c r).
  { apply list_elem_of_lookup_2, list_elem_of_omap in Hin as (o & Ho & [= ->]). cbn in Ho. repeat (apply elem_of_cons in Ho as [[= ->]|Ho]; [by eauto|]). by apply elem_of_nil in Ho. }
  destruct Htile as (c & r & ->). destruct (Hmosaic c r) as (Ew & Eh & _). unfold same_size in Hs. by rewrite Ew, Eh, !Nat.eqb_refl in Hs.
Qed.
Lemma mosaic_tile column row dx dy : -1 <= dx <= 1 -> -1 <= dy <= 1 ->
  mosaic_tiles column row !! Z.to_nat ((dy + 1) * 3 + dx + 1) = Some (Some (mosaic (column + dx) (row + dy))).
Proof.
  intros Hx Hy. assert (Cx : dx = -1 \/ dx = 0 \/ dx = 1) by lia. assert (Cy : dy = -1 \/ dy = 0 \/ dy = 1) by lia.
  destruct Cx as [->|[->| ->]], Cy as [->|[->| ->]]; reflexivity.
Qed.
(** A neighbourhood reads the world around its tile. *)
Lemma mosaic_get column row x y : let s := Z.of_nat size in
  - s <= x <= 2 * s - 1 -> - s <= y <= 2 * s - 1 -> dn_get (mosaic_at column row) x y = world_elevation (column * s + x) (row * s + y).
Proof.
  intros s Hx Hy. unfold dn_get. cbn [dn_width dn_height mosaic_at]. fold s.
  assert (Ex : clamp_axis x (- s) (2 * s - 1) = x) by (unfold clamp_axis; lia). assert (Ey : clamp_axis y (- s) (2 * s - 1) = y) by (unfold clamp_axis; lia). rewrite Ex, Ey.
  pose proof (tile_axis_inside x s ltac:(lia) Hx) as Ax. pose proof (tile_axis_inside y s ltac:(lia) Hy) as Ay.
  destruct (tile_axis x s) as [dx lx], (tile_axis y s) as [dy ly]. destruct Ax as (Hdx & Hlx & ->), Ay as (Hdy & Hly & ->).
  cbn [dn_tiles mosaic_at]. rewrite mosaic_tile by done. cbn [mbind option_bind]. unfold world_elevation. fold s.
  assert (Hdiv : forall c d l, 0 <= l < s -> (c * s + (d * s + l)) / s = c + d /\ (c * s + (d * s + l)) mod s = l).
  { intros c d l Hl. replace (c * s + (d * s + l)) with (l + (c + d) * s) by lia. rewrite Z.div_add, Z.mod_add by lia. rewrite Z.div_small, Z.mod_small by lia. lia. }
  destruct (Hdiv column dx lx Hlx) as [-> ->], (Hdiv row dy ly Hly) as [-> ->]. done.
Qed.
End Mosaic.
