(* ===== verification/Contours.v ===== *)
(** * Contour lines

    Models [crates/mmpf-terrain/src/contours.rs]: the smoothed grid of elevations, the
    segments of each cell at each level, the stitching of segments into lines and the
    simplification of lines. Elevations are bounded, so that levels and coordinates stay
    far from the ends of their integer types; a panic is [None]. The extent and the
    encoding of the vector tile are parameters. *)

From stdpp Require Import sorting.
From Stdlib Require Import Floats.SpecFloat.
From S2P Require Import Prelude StdModel FloatMath Topology Dem.
#[local] Open Scope Z_scope.

Abbreviation MvtCoord := (Z * Z)%type (only parsing).
Abbreviation EdgePoint := (Z * Z)%type (only parsing).

Definition SIMPLIFY_MIN_CROSS : Z := 64.
Record Fragment := { fr_start : EdgePoint; fr_end : EdgePoint; fr_points : list MvtCoord }.
Definition Fragment_new (start stop : EdgePoint) : Fragment := {| fr_start := start; fr_end := stop; fr_points := [] |}.

Definition levels_for_zoom (zoom : Z) : Z * Z :=
  if zoom <=? 10 then (250, 500) else if zoom =? 11 then (100, 500) else if zoom =? 12 then (50, 200) else if zoom =? 13 then (20, 100)
  else (10, 50).

(** ** The grid of elevations *)

Record ElevationGrid := { gr_values : list F32; gr_stride : Z; gr_tile : Z }.

Fixpoint collect {A} (l : list (option A)) : option (list A) :=
  match l with [] => Some [] | a :: l => a ← a; l ← collect l; Some (a :: l) end.
(** One value of a pass: the weighted mean of the finite taps. *)
Definition add_tap (values : list F32) (stride step index lane : Z) (acc : F32 * F32) (tap : Z * F32) : option (F32 * F32) :=
  let '(sum, weight) := acc in
  let '(offset, w) := tap in
  let neighbor_lane := lane + offset in
  if (neighbor_lane <? 0) || (stride <=? neighbor_lane) then Some (sum, weight) else
  value ← values !! Z.to_nat (index + offset * step);
  Some (if is_finite value then (f32_add sum (f32_mul value w), f32_add weight w) else (sum, weight)).
Definition taps : list (Z * F32) := [(-1, f32_of_int 1); (0, f32_of_int 2); (1, f32_of_int 1)].
Definition binomial_value (values : list F32) (stride step index : Z) : option F32 :=
  let lane := if step =? 1 then index mod stride else index / stride in
  '(sum, weight) ← for_each (add_tap values stride step index lane) taps (f64_zero, f64_zero);
  Some (if f_eq weight f64_zero then f_nan else f32_div sum weight).
Definition binomial_pass (values : list F32) (stride step : Z) : option (list F32) :=
  collect ((fun i => binomial_value values stride step (Z.of_nat i)) <$> seq 0 (length values)).

Definition raw_elevation (n : DemNeighborhood) (stride index : Z) : option F32 :=
  grid_elevation n (index mod stride - 2) (index / stride - 2).
Definition smoothed (n : DemNeighborhood) : option ElevationGrid :=
  let tile := Z.of_nat (dn_width n) in
  let stride := tile + 5 in
  raw ← collect ((fun i => raw_elevation n stride (Z.of_nat i)) <$> seq 0 (Z.to_nat (stride * stride)));
  horizontal ← binomial_pass raw stride 1;
  values ← binomial_pass horizontal stride stride;
  Some {| gr_values := values; gr_stride := stride; gr_tile := tile |}.
Definition gr_get (grid : ElevationGrid) (x y : Z) : option F32 := gr_values grid !! Z.to_nat ((y + 2) * gr_stride grid + x + 2).

(** ** Segments of a cell *)

Inductive CellEdge := A | B | C | D.
(** The point of an edge, in half cells. *)
Definition edge_offset (e : CellEdge) : Z * Z := match e with A => (1, 0) | B => (2, 1) | C => (1, 2) | D => (0, 1) end.
Definition edge_key (x y : Z) (e : CellEdge) : EdgePoint := (x * 2 + (edge_offset e).1, y * 2 + (edge_offset e).2).

Record Corners := { tl : F32; tr : F32; br : F32; bl : F32 }.
Definition interpolate (x y : Z) (e : CellEdge) (threshold : F32) (c : Corners) (scale : F64) : MvtCoord :=
  let ratio a b := f64_of_f32 (f32_div (f32_sub threshold a) (f32_sub b a)) in
  let '(px, py) :=
    if (edge_offset e).1 =? 0 then (f64_of_int x, f64_add (f64_of_int y) (ratio (tl c) (bl c)))
    else if (edge_offset e).1 =? 2 then (f64_of_int (x + 1), f64_add (f64_of_int y) (ratio (tr c) (br c)))
    else if (edge_offset e).2 =? 0 then (f64_add (f64_of_int x) (ratio (tl c) (tr c)), f64_of_int y)
    else (f64_add (f64_of_int x) (ratio (bl c) (br c)), f64_of_int (y + 1)) in
  (f_round_i32 (f64_mul px scale), f_round_i32 (f64_mul py scale)).

Definition case_of (c : Corners) (threshold : F32) : Z :=
  let bit v := if f_gt v threshold then 1 else 0 in
  Z.lor (Z.lor (Z.lor (Z.shiftl (bit (tl c)) 3) (Z.shiftl (bit (tr c)) 2)) (Z.shiftl (bit (br c)) 1)) (bit (bl c)).
Definition saddle_above (c : Corners) (threshold : F32) : bool :=
  let threshold := f64_of_f32 threshold in
  let a := f64_sub (f64_of_f32 (tl c)) threshold in
  let b := f64_sub (f64_of_f32 (tr c)) threshold in
  let c' := f64_sub (f64_of_f32 (br c)) threshold in
  let d := f64_sub (f64_of_f32 (bl c)) threshold in
  let denominator := f64_sub (f64_sub (f64_add a c') b) d in
  negb (f_eq denominator f64_zero) && f_gt (f64_div (f64_sub (f64_mul a c') (f64_mul b d)) denominator) f64_zero.
Definition segments_for (case : Z) (saddle_above : bool) : list (CellEdge * CellEdge) :=
  match case with
  | 1 => [(C, D)]
  | 2 => [(B, C)]
  | 3 => [(B, D)]
  | 4 => [(A, B)]
  | 5 => if saddle_above then [(A, D); (C, B)] else [(C, D); (A, B)]
  | 6 => [(A, C)]
  | 7 => [(A, D)]
  | 8 => [(D, A)]
  | 9 => [(C, A)]
  | 10 => if saddle_above then [(B, A); (D, C)] else [(D, A); (B, C)]
  | 11 => [(B, A)]
  | 12 => [(D, B)]
  | 13 => [(C, B)]
  | 14 => [(D, C)]
  | _ => []
  end.

(** ** Stitching *)

Record Stitch := {
  st_completed : gmap Z (list (list MvtCoord));
  st_starts : gmap Z (gmap EdgePoint Fragment);
  st_ends : gmap Z (gmap EdgePoint EdgePoint) }.
Definition Stitch_new : Stitch := {| st_completed := ∅; st_starts := ∅; st_ends := ∅ |}.

Definition stitch_segment (level : Z) (start_key end_key : EdgePoint) (start_point end_point : MvtCoord) (s : Stitch) : option Stitch :=
  let starts : gmap EdgePoint Fragment := default ∅ (st_starts s !! level) in
  let ends : gmap EdgePoint EdgePoint := default ∅ (st_ends s !! level) in
  let keep completed starts ends : option Stitch :=
    Some {| st_completed := completed; st_starts := <[level := starts]> (st_starts s); st_ends := <[level := ends]> (st_ends s) |} in
  match ends !! start_key with
  | Some fragment_start =>
      let ends := delete start_key ends in
      match starts !! fragment_start with
      | None => None
      | Some fragment =>
          let starts := delete fragment_start starts in
          if bool_decide (fr_start fragment = end_key)
          then keep (<[level := default [] (st_completed s !! level) ++ [fr_points fragment ++ [end_point]]]> (st_completed s)) starts ends
          else
            let '(fragment, starts, ends) :=
              match starts !! end_key with
              | Some other =>
                  ({| fr_start := fr_start fragment; fr_end := fr_end other; fr_points := fr_points fragment ++ fr_points other |},
                   delete end_key starts, delete (fr_end other) ends)
              | None =>
                  ({| fr_start := fr_start fragment; fr_end := end_key; fr_points := fr_points fragment ++ [end_point] |}, starts, ends)
              end in
            keep (st_completed s) (<[fr_start fragment := fragment]> starts) (<[fr_end fragment := fr_start fragment]> ends)
      end
  | None =>
      match starts !! end_key with
      | Some fragment =>
          let fragment := {| fr_start := start_key; fr_end := fr_end fragment; fr_points := start_point :: fr_points fragment |} in
          keep (st_completed s) (<[start_key := fragment]> (delete end_key starts)) (<[fr_end fragment := start_key]> ends)
      | None =>
          let fragment := {| fr_start := start_key; fr_end := end_key; fr_points := fr_points (Fragment_new start_key end_key) ++ [start_point; end_point] |} in
          keep (st_completed s) (<[start_key := fragment]> starts) (<[end_key := start_key]> ends)
      end
  end.

Section Marching.
Context (EXTENT : Z).

(** [(first..=last).step_by(interval)] *)
Definition step_range (first last interval : Z) : list Z :=
  (fun k => first + Z.of_nat k * interval) <$> seq 0 (if last <? first then 0 else Z.to_nat ((last - first) / interval + 1)).
Definition corners_at (grid : ElevationGrid) (x y : Z) : option Corners :=
  tl ← gr_get grid x y; tr ← gr_get grid (x + 1) y; br ← gr_get grid (x + 1) (y + 1); bl ← gr_get grid x (y + 1);
  Some {| tl := tl; tr := tr; br := br; bl := bl |}.
Definition all_finite (c : Corners) : bool := is_finite (tl c) && is_finite (tr c) && is_finite (br c) && is_finite (bl c).
(** The levels between the lowest and the highest corner. *)
Definition cell_thresholds (c : Corners) (interval : Z) : list Z :=
  let minimum := f_min (f_min (f_min (tl c) (tr c)) (br c)) (bl c) in
  let maximum := f_max (f_max (f_max (tl c) (tr c)) (br c)) (bl c) in
  step_range (f_ceil_i32 (f32_div minimum (f32_of_int interval)) * interval) (f_floor_i32 (f32_div maximum (f32_of_int interval)) * interval) interval.
Definition cell_segments (c : Corners) (threshold : Z) : list (CellEdge * CellEdge) :=
  segments_for (case_of c (f32_of_int threshold)) (saddle_above c (f32_of_int threshold)).
Definition grid_scale (grid : ElevationGrid) : F64 := f64_div (f64_of_int EXTENT) (f64_of_int (gr_tile grid)).

Definition stitch_level (grid : ElevationGrid) (x y : Z) (c : Corners) (s : Stitch) (threshold : Z) : option Stitch :=
  for_each (fun s '(first, second) =>
    stitch_segment threshold (edge_key x y first) (edge_key x y second)
      (interpolate x y first (f32_of_int threshold) c (grid_scale grid)) (interpolate x y second (f32_of_int threshold) c (grid_scale grid)) s)
    (cell_segments c threshold) s.
Definition stitch_cell (grid : ElevationGrid) (interval : Z) (s : Stitch) (cell : Z * Z) : option Stitch :=
  let '(x, y) := cell in
  c ← corners_at grid x y;
  if negb (all_finite c) then Some s else for_each (stitch_level grid x y c) (cell_thresholds c interval) s.
(** [-1..=size] for rows and columns. *)
Definition lanes (size : Z) : list Z := (fun k => Z.of_nat k - 1) <$> seq 0 (Z.to_nat (size + 2)).
Definition cells (size : Z) : list (Z * Z) := y ← lanes size; (fun x => (x, y)) <$> lanes size.

(** The values of a [BTreeMap], in the order of its keys. *)
Definition key_le {V} (a b : (Z * Z) * V) : Prop := point_le a.1 b.1.
#[export] Instance key_le_dec {V} (a b : (Z * Z) * V) : Decision (key_le a b).
Proof. unfold key_le. apply _. Defined.
Definition into_values {V} (m : gmap (Z * Z) V) : list V := snd <$> merge_sort key_le (map_to_list m).
Definition finish_level (completed : gmap Z (list (list MvtCoord))) (entry : Z * gmap EdgePoint Fragment) : gmap Z (list (list MvtCoord)) :=
  <[entry.1 := default [] (completed !! entry.1) ++ List.filter (fun points => Nat.leb 2 (length points)) (fr_points <$> into_values entry.2)]> completed.
Definition marching_squares (grid : ElevationGrid) (interval : Z) : option (gmap Z (list (list MvtCoord))) :=
  s ← for_each (stitch_cell grid interval) (cells (gr_tile grid)) Stitch_new;
  Some (foldl finish_level (st_completed s) (in_order (st_starts s))).
End Marching.

(** ** Simplification *)

(** Twice the area of the triangle. *)
Definition cross (a b c : MvtCoord) : Z := Z.abs ((b.1 - a.1) * (c.2 - a.2) - (b.2 - a.2) * (c.1 - a.1)).

Abbreviation HeapEntry := (Z * nat * Z)%type.
(** Entries are ordered by area, index and version; the heap gives the smallest first. *)
Definition entry_lt (a b : HeapEntry) : bool :=
  let '(area, index, version) := a in
  let '(area', index', version') := b in
  (area <? area') || ((area =? area') && (Nat.ltb index index' || (Nat.eqb index index' && (version <? version')))).
Fixpoint pop_min (heap : list HeapEntry) : option (HeapEntry * list HeapEntry) :=
  match heap with
  | [] => None
  | e :: heap =>
      match pop_min heap with
      | Some (least, rest) => Some (if entry_lt least e then (least, e :: rest) else (e, heap))
      | None => Some (e, [])
      end
  end.

(** [None] before the first index: it wraps, and is not read. *)
Record Links := {
  lk_previous : list (option nat);
  lk_next : list nat;
  lk_alive : list bool;
  lk_stamp : list Z;
  lk_heap : list HeapEntry }.
Definition set_at {T} (l : list T) (i : nat) (v : T) : option (list T) := if Nat.ltb i (length l) then Some (<[i := v]> l) else None.

Section Simplify.
Context (line : list MvtCoord) (keep_always : list bool).
Abbreviation n := (length line).

Definition triangle_at (previous index next : nat) : option Z :=
  a ← line !! previous; b ← line !! index; c ← line !! next; Some (cross a b c).
Definition initial_entry (index : nat) : option HeapEntry := area ← triangle_at (index - 1) index (index + 1); Some (area, index, 0).
Definition Links_new : option Links :=
  heap ← collect (initial_entry <$> List.filter (fun index => negb (default false (keep_always !! index))) (seq 1 (n - 2)));
  Some {| lk_previous := (fun i => match i with O => None | S i => Some i end) <$> seq 0 n; lk_next := seq 1 n; lk_alive := replicate n true;
          lk_stamp := replicate n 0; lk_heap := heap |}.

(** The new entry of a neighbour of a removed vertex. *)
Definition refresh (s : Links) (neighbor : nat) : option Links :=
  if Nat.ltb 0 neighbor && Nat.ltb neighbor (n - 1) then
    alive ← lk_alive s !! neighbor;
    kept ← keep_always !! neighbor;
    if alive && negb kept then
      stamp ← lk_stamp s !! neighbor;
      before ← mjoin (lk_previous s !! neighbor);
      after ← lk_next s !! neighbor;
      area ← triangle_at before neighbor after;
      stamps ← set_at (lk_stamp s) neighbor (stamp + 1);
      Some {| lk_previous := lk_previous s; lk_next := lk_next s; lk_alive := lk_alive s; lk_stamp := stamps;
              lk_heap := (area, neighbor, stamp + 1) :: lk_heap s |}
    else Some s
  else Some s.
Definition with_heap (s : Links) (heap : list HeapEntry) : Links :=
  {| lk_previous := lk_previous s; lk_next := lk_next s; lk_alive := lk_alive s; lk_stamp := lk_stamp s; lk_heap := heap |}.
Definition remove_vertex (s : Links) (index : nat) : option Links :=
  alive ← set_at (lk_alive s) index false;
  before ← mjoin (lk_previous s !! index);
  after ← lk_next s !! index;
  next ← set_at (lk_next s) before after;
  previous ← set_at (lk_previous s) after (Some before);
  s ← refresh {| lk_previous := previous; lk_next := next; lk_alive := alive; lk_stamp := lk_stamp s; lk_heap := lk_heap s |} before;
  refresh s after.
Fixpoint simplify_loop (fuel : nat) (s : Links) : option Links :=
  match pop_min (lk_heap s), fuel with
  | None, _ => Some s
  | Some _, O => None
  | Some ((area, index, version), heap), S fuel =>
      let s := with_heap s heap in
      alive ← lk_alive s !! index;
      stamp ← lk_stamp s !! index;
      if negb alive || negb (version =? stamp) then simplify_loop fuel s
      else if SIMPLIFY_MIN_CROSS <=? area then Some s
      else s ← remove_vertex s index; simplify_loop fuel s
  end.
(** The live points, moved to the front. *)
Definition compact (alive : list bool) : list MvtCoord := omap (fun '(live, p) => if live : bool then Some p else None) (zip alive line).
End Simplify.

Definition simplify_line (line : list MvtCoord) (pinned : MvtCoord -> bool) : option (list MvtCoord) :=
  if Nat.leb (length line) 2 then Some line else
  let keep_always := pinned <$> line in
  s ← Links_new line keep_always;
  s ← simplify_loop line keep_always (4 * length line) s;
  Some (compact line (lk_alive s)).

(** ** Features *)

Record ContourFeature := { cf_ele : Z; cf_level : Z; cf_lines : list (list MvtCoord) }.
Definition near_edge (extent pin_margin : Z) (p : MvtCoord) : bool :=
  (p.1 <=? pin_margin) || (p.2 <=? pin_margin) || (extent - pin_margin <=? p.1) || (extent - pin_margin <=? p.2).
(** The index of the last interval that divides the elevation. *)
Definition level_index (levels : Z * Z) (elevation : Z) : Z :=
  if Z.rem elevation levels.2 =? 0 then 1 else 0.
Definition contour_line (extent pin_margin : Z) (line : list MvtCoord) : option (list MvtCoord) := simplify_line (dedup line) (near_edge extent pin_margin).
Definition contour_feature (extent pin_margin : Z) (levels : Z * Z) (entry : Z * list (list MvtCoord)) : option (option ContourFeature) :=
  lines ← collect (contour_line extent pin_margin <$> entry.2);
  let lines := List.filter (fun line => Nat.leb 2 (length line)) lines in
  Some (match lines with
        | [] => None
        | _ => Some {| cf_ele := entry.1; cf_level := level_index levels entry.1; cf_lines := lines |}
        end).
Definition layer_features (extent pin_margin : Z) (levels : Z * Z) (isolines : gmap Z (list (list MvtCoord))) : option (list ContourFeature) :=
  match collect (contour_feature extent pin_margin levels <$> in_order isolines) with
  | Some features => Some (omap (fun feature => feature) features)
  | None => None
  end.
Definition contour_layer (extent : Z) (n : DemNeighborhood) (zoom : Z) : option (list ContourFeature) :=
  let levels := levels_for_zoom zoom in
  grid ← smoothed n;
  isolines ← marching_squares extent grid levels.1;
  layer_features extent (extent / Z.of_nat (dn_width n)) levels isolines.
(** The tile, or the error of its encoding. *)
Definition generate {bytes} (encode : list ContourFeature -> option bytes) (extent : Z) (n : DemNeighborhood) (zoom : Z) : option (option bytes) :=
  encode <$> contour_layer extent n zoom.
