(* ===== verification/ContourLines.v ===== *)
(** * The lines of the contours

    Proofs about the stitching of Contours: the lines of a level are maximal chains over
    the segments of the cells, which use every segment once. *)

From stdpp Require Import sorting.
From Stdlib Require Import Floats.SpecFloat.
From S2P Require Import Prelude StdModel FloatMath Topology Dem Contours.
#[local] Open Scope Z_scope.

Abbreviation Key := (Z * Z)%type.

(** ** One level *)

Section Level.
(** The point where a level crosses an edge. *)
Context (pt : Key -> Z * Z).

Definition line_points (ks : list Key) : list (Z * Z) := pt <$> ks.
Lemma line_points_app ks ks' : line_points (ks ++ ks') = line_points ks ++ line_points ks'.
Proof. apply fmap_app. Qed.
Definition walk_fragment (ks : list Key) : Fragment :=
  {| fr_start := default (0, 0) (head ks); fr_end := default (0, 0) (last ks); fr_points := line_points ks |}.
Definition closed_chain (ks : list Key) : Prop := (2 <= length ks)%nat /\ head ks = last ks.

(** The fragments are the open walks [walks], by their starts, and the completed lines the closed ones. *)
Record chained (segs : list (Key * Key)) (starts : gmap Key Fragment) (ends : gmap Key Key) (lines : list (list (Z * Z)))
    (walks : gmap Key (list Key)) (rings : list (list Key)) : Prop := {
  ch_starts : starts = walk_fragment <$> walks;
  ch_walk k ks : walks !! k = Some ks -> head ks = Some k /\ (2 <= length ks)%nat;
  ch_ends e k : ends !! e = Some k <-> exists ks, walks !! k = Some ks /\ last ks = Some e;
  ch_maximal e k : ends !! e = Some k -> walks !! e = None;
  ch_lines : lines = line_points <$> rings;
  ch_closed : Forall closed_chain rings;
  ch_steps : (rings ≫= unit_steps) ++ ((map_to_list walks).*2 ≫= unit_steps) ≡ₚ segs }.

Definition open_steps (walks : gmap Key (list Key)) : list (Key * Key) := (map_to_list walks).*2 ≫= unit_steps.
Lemma open_steps_insert walks k ks : walks !! k = None -> open_steps (<[k := ks]> walks) ≡ₚ unit_steps ks ++ open_steps walks.
Proof. intros Hk. unfold open_steps. rewrite map_to_list_insert by done. cbn [fmap list_fmap]. by rewrite bind_cons. Qed.
Lemma open_steps_delete walks k ks : walks !! k = Some ks -> open_steps walks ≡ₚ unit_steps ks ++ open_steps (delete k walks).
Proof. intros Hk. rewrite <- (insert_delete_id walks k ks Hk) at 1. apply open_steps_insert, lookup_delete_eq. Qed.

Section Chained.
Context (segs : list (Key * Key)) (starts : gmap Key Fragment) (ends : gmap Key Key) (lines : list (list (Z * Z))).
Context (walks : gmap Key (list Key)) (rings : list (list Key)) (Hch : chained segs starts ends lines walks rings).

Lemma walk_steps_in k ks s : walks !! k = Some ks -> s ∈ unit_steps ks -> s ∈ segs.
Proof.
  intros Hk Hs. rewrite <- (ch_steps _ _ _ _ _ _ Hch). apply elem_of_app. right. apply list_elem_of_bind. exists ks. split; [done|].
  apply list_elem_of_fmap. exists (k, ks). split; [done|]. by apply elem_of_map_to_list.
Qed.
Lemma starts_new k : k ∉ segs.*1 -> walks !! k = None.
Proof.
  intros Hn. destruct (walks !! k) as [ks|] eqn:Hk; [|done]. exfalso. apply Hn. destruct (ch_walk _ _ _ _ _ _ Hch k ks Hk) as [Hh Hl].
  destruct ks as [|a [|b ks]]; cbn in Hl; [lia|lia|]. injection Hh as ->. apply list_elem_of_fmap. exists (k, b). split; [done|].
  eapply walk_steps_in; [done|]. cbn. by left.
Qed.
Lemma ends_new e : e ∉ segs.*2 -> ends !! e = None.
Proof.
  intros Hn. destruct (ends !! e) as [k|] eqn:He; [|done]. exfalso. apply Hn. apply (ch_ends _ _ _ _ _ _ Hch) in He as (ks & Hk & Hlast).
  destruct (ch_walk _ _ _ _ _ _ Hch k ks Hk) as [_ Hl]. destruct ks as [|b ks _] using rev_ind; [cbn in Hl; lia|].
  rewrite last_snoc in Hlast. injection Hlast as ->. destruct ks as [|a ks _] using rev_ind; [cbn in Hl; lia|].
  apply list_elem_of_fmap. exists (a, e). split; [done|]. eapply walk_steps_in; [done|]. rewrite (unit_steps_join _ [e] a e); [|apply last_snoc|done].
  apply elem_of_app. right. by left.
Qed.
Lemma walk_ends k ks e : walks !! k = Some ks -> last ks = Some e -> ends !! e = Some k.
Proof. intros Hk Hl. apply (ch_ends _ _ _ _ _ _ Hch). by exists ks. Qed.
Lemma walk_last k ks : walks !! k = Some ks -> exists e, last ks = Some e.
Proof.
  intros Hk. destruct (ch_walk _ _ _ _ _ _ Hch k ks Hk) as [Hh _]. destruct (last ks) eqn:E; [by eauto|]. apply last_None in E as ->. done.
Qed.

(** *** A new segment *)

Context (sk ek : Key) (Hsk : sk ∉ segs.*1) (Hek : ek ∉ segs.*2) (Hne : sk <> ek).
Abbreviation new_segs := ((sk, ek) :: segs).

Lemma chain_close k ks : walks !! k = Some ks -> last ks = Some sk -> k = ek ->
  chained new_segs (delete k starts) (delete sk ends) (lines ++ [line_points ks ++ [pt ek]]) (delete k walks) (rings ++ [ks ++ [ek]]).
Proof.
  intros Hk Hl ->. destruct Hch as [Hs Hw He Hm Hli Hc Hst]. destruct (Hw _ _ Hk) as [Hh Hlen]. split.
  - by rewrite Hs, fmap_delete.
  - intros k' ks' [_ Hk']%lookup_delete_Some. by apply Hw.
  - intros e k'. rewrite lookup_delete_Some. rewrite He. split.
    + intros [Hne' (ks' & Hk' & Hl')]. exists ks'. split; [|done]. apply lookup_delete_Some. split; [|done]. intros <-. congruence.
    + intros (ks' & [Hne' Hk']%lookup_delete_Some & Hl'). split; [|by eauto]. intros <-. apply Hne'.
      pose proof (walk_ends _ _ _ Hk Hl). pose proof (walk_ends _ _ _ Hk' Hl'). congruence.
  - intros e k' [_ He']%lookup_delete_Some. apply lookup_delete_None. right. by eapply Hm.
  - rewrite Hli, fmap_app. cbn. by rewrite line_points_app.
  - apply Forall_app_2; [done|]. constructor; [|constructor]. split; [rewrite length_app; lia|]. rewrite last_snoc, head_app, Hh. done.
  - rewrite bind_app, bind_singleton, (unit_steps_join ks [ek] sk ek Hl eq_refl), <- Hst. fold (open_steps walks) (open_steps (delete ek walks)).
    rewrite (open_steps_delete _ _ _ Hk). cbn [unit_steps]. rewrite <- !app_assoc. cbn [app]. by rewrite <- !Permutation_middle.
Qed.

(** An open walk replaces those it was made from. *)
Lemma chain_open k ks walks' ends' e :
  walks' !! k = None -> (forall k' ks', walks' !! k' = Some ks' -> walks !! k' = Some ks') ->
  head ks = Some k -> last ks = Some e -> (2 <= length ks)%nat -> k <> e -> walks' !! e = None ->
  (forall e' k' ks', walks' !! k' = Some ks' -> last ks' = Some e' -> e' <> k /\ e' <> e) ->
  (forall e' k', e' <> e -> ends' !! e' = Some k' <-> exists ks', walks' !! k' = Some ks' /\ last ks' = Some e') ->
  unit_steps ks ++ open_steps walks' ≡ₚ (sk, ek) :: open_steps walks ->
  chained new_segs (<[k := walk_fragment ks]> (walk_fragment <$> walks')) (<[e := k]> ends') lines (<[k := ks]> walks') rings.
Proof.
  intros Hk Hsub Hh Hl Hlen Hke Hnone Hother Hends Hsteps. destruct Hch as [Hs Hw He Hm Hli Hc Hst]. split; [|  | | |done|done|].
  - by rewrite fmap_insert.
  - intros k' ks' [[<- <-]|[Hne' Hk']]%lookup_insert_Some; [done|]. by apply Hw, Hsub.
  - intros e' k'. rewrite lookup_insert_Some. split.
    + intros [[<- <-]|[Hne' He']]; [exists ks; by rewrite lookup_insert_eq|]. apply Hends in He' as (ks' & Hk' & Hl'); [|done]. exists ks'. split; [|done].
      rewrite lookup_insert_ne; [done|]. intros <-. congruence.
    + intros (ks' & [[<- <-]|[Hne' Hk']]%lookup_insert_Some & Hl'); [left; split; congruence|]. right. destruct (Hother e' k' ks' Hk' Hl') as [_ Hee].
      split; [done|]. apply Hends; [done|]. by exists ks'.
  - intros e' k' [[<- <-]|[Hne' He']]%lookup_insert_Some; [by rewrite lookup_insert_ne|]. apply Hends in He' as (ks' & Hk' & Hl'); [|done].
    destruct (Hother e' k' ks' Hk' Hl') as [Hek' _]. rewrite lookup_insert_ne by done.
    destruct (walks' !! e') eqn:E; [|done]. apply Hsub in E, Hk'. rewrite (Hm e' k') in E; [done|]. apply He. by exists ks'.
  - fold (open_steps (<[k:=ks]> walks')). rewrite open_steps_insert, Hsteps, <- Hst by done. fold (open_steps walks). by rewrite <- Permutation_middle.
Qed.

Lemma chain_merge k ks ks2 e : walks !! k = Some ks -> last ks = Some sk -> k <> ek -> walks !! ek = Some ks2 -> last ks2 = Some e ->
  chained new_segs (<[k := walk_fragment (ks ++ ks2)]> (walk_fragment <$> delete ek (delete k walks))) (<[e := k]> (delete e (delete sk ends))) lines
    (<[k := ks ++ ks2]> (delete ek (delete k walks))) rings.
Proof using Hch Hek Hne Hsk.
  intros Hk Hl Hke Hk2 Hl2. destruct Hch as [Hs Hw He Hm Hli Hc Hst]. destruct (Hw _ _ Hk) as [Hh Hlen], (Hw _ _ Hk2) as [Hh2 Hlen2].
  pose proof (walk_ends _ _ _ Hk Hl) as E1. pose proof (walk_ends _ _ _ Hk2 Hl2) as E2.
  assert (Hek2 : k <> e) by (intros <-; rewrite (Hm _ _ E2) in Hk; done). assert (Hes : e <> sk) by congruence.
  assert (Hsub : forall k' ks', delete ek (delete k walks) !! k' = Some ks' -> walks !! k' = Some ks' /\ k' <> k /\ k' <> ek).
  { intros k' ks' [? [? ?]%lookup_delete_Some]%lookup_delete_Some. done. }
  apply chain_open.
  - rewrite lookup_delete_ne by done. apply lookup_delete_eq.
  - intros k' ks' Hk'. by apply Hsub.
  - by rewrite head_app, Hh.
  - by rewrite last_app, Hl2.
  - rewrite length_app. lia.
  - done.
  - destruct (delete ek (delete k walks) !! e) eqn:E; [|done]. apply Hsub in E as [E _]. by rewrite (Hm _ _ E2) in E.
  - intros e' k' ks' (Hk' & Hn1 & Hn2)%Hsub Hl'. pose proof (walk_ends _ _ _ Hk' Hl') as E3. split; [intros ->; by rewrite (Hm _ _ E3) in Hk|congruence].
  - intros e' k' Hee. rewrite !lookup_delete_Some, He. split.
    + intros (_ & Hsk' & ks' & Hk' & Hl'). exists ks'. split; [|done]. apply lookup_delete_Some. split; [intros <-; congruence|].
      apply lookup_delete_Some. split; [|done]. intros <-. congruence.
    + intros (ks' & (Hk' & Hn1 & Hn2)%Hsub & Hl'). split; [done|]. split; [|by eauto]. intros <-. pose proof (walk_ends _ _ _ Hk' Hl'). congruence.
  - rewrite (unit_steps_join ks ks2 sk ek Hl Hh2), (open_steps_delete _ _ _ Hk), (open_steps_delete (delete k walks) ek ks2) by (by rewrite lookup_delete_ne).
    rewrite <- !app_assoc. cbn [app]. by rewrite <- Permutation_middle.
Qed.
Lemma chain_extend k ks : walks !! k = Some ks -> last ks = Some sk -> k <> ek -> walks !! ek = None ->
  chained new_segs (<[k := walk_fragment (ks ++ [ek])]> (walk_fragment <$> delete k walks)) (<[ek := k]> (delete sk ends)) lines
    (<[k := ks ++ [ek]]> (delete k walks)) rings.
Proof using Hch Hek Hne Hsk.
  intros Hk Hl Hke Hnone. destruct Hch as [Hs Hw He Hm Hli Hc Hst]. destruct (Hw _ _ Hk) as [Hh Hlen].
  pose proof (walk_ends _ _ _ Hk Hl) as E1. pose proof (ends_new ek Hek) as E0.
  apply chain_open.
  - apply lookup_delete_eq.
  - by intros k' ks' [_ ?]%lookup_delete_Some.
  - by rewrite head_app, Hh.
  - by rewrite last_snoc.
  - rewrite length_app. lia.
  - done.
  - by rewrite lookup_delete_ne.
  - intros e' k' ks' [Hn Hk']%lookup_delete_Some Hl'. pose proof (walk_ends _ _ _ Hk' Hl') as E3. split; [intros ->; by rewrite (Hm _ _ E3) in Hk|congruence].
  - intros e' k' Hee. rewrite lookup_delete_Some, He. split.
    + intros (Hsk' & ks' & Hk' & Hl'). exists ks'. split; [|done]. apply lookup_delete_Some. split; [|done]. intros <-. congruence.
    + intros (ks' & [Hn Hk']%lookup_delete_Some & Hl'). split; [|by eauto]. intros <-. pose proof (walk_ends _ _ _ Hk' Hl'). congruence.
  - rewrite (unit_steps_join ks [ek] sk ek Hl eq_refl), (open_steps_delete _ _ _ Hk). cbn [unit_steps]. rewrite <- !app_assoc. cbn [app]. by rewrite <- Permutation_middle.
Qed.
Lemma chain_prepend ks e : ends !! sk = None -> walks !! ek = Some ks -> last ks = Some e ->
  chained new_segs (<[sk := walk_fragment (sk :: ks)]> (walk_fragment <$> delete ek walks)) (<[e := sk]> ends) lines (<[sk := sk :: ks]> (delete ek walks)) rings.
Proof using Hch Hek Hne Hsk.
  intros Hend Hk Hl. destruct Hch as [Hs Hw He Hm Hli Hc Hst]. destruct (Hw _ _ Hk) as [Hh Hlen]. pose proof (walk_ends _ _ _ Hk Hl) as E1.
  apply chain_open.
  - rewrite lookup_delete_ne by done. by apply starts_new.
  - by intros k' ks' [_ ?]%lookup_delete_Some.
  - done.
  - destruct ks; [done|]. exact Hl.
  - cbn. lia.
  - congruence.
  - apply lookup_delete_None. right. by eapply Hm.
  - intros e' k' ks' [Hn Hk']%lookup_delete_Some Hl'. pose proof (walk_ends _ _ _ Hk' Hl') as E3. split; congruence.
  - intros e' k' Hee. rewrite He. split.
    + intros (ks' & Hk' & Hl'). exists ks'. split; [|done]. apply lookup_delete_Some. split; [intros <-; congruence|done].
    + intros (ks' & [Hn Hk']%lookup_delete_Some & Hl'). by eauto.
  - change (sk :: ks) with ([sk] ++ ks). rewrite (unit_steps_join [sk] ks sk ek eq_refl Hh), (open_steps_delete _ _ _ Hk). done.
Qed.
Lemma chain_new : ends !! sk = None -> walks !! ek = None ->
  chained new_segs (<[sk := walk_fragment [sk; ek]]> (walk_fragment <$> walks)) (<[ek := sk]> ends) lines (<[sk := [sk; ek]]> walks) rings.
Proof using Hch Hek Hne Hsk.
  intros Hend Hk. destruct Hch as [Hs Hw He Hm Hli Hc Hst]. pose proof (ends_new ek Hek) as E0.
  apply chain_open; try done; [by apply starts_new|].
  intros e' k' ks' Hk' Hl'. pose proof (walk_ends _ _ _ Hk' Hl') as E3. split; congruence.
Qed.
End Chained.

(** *** The operation *)

Definition starts_of (s : Stitch) (level : Z) : gmap Key Fragment := default ∅ (st_starts s !! level).
Definition ends_of (s : Stitch) (level : Z) : gmap Key Key := default ∅ (st_ends s !! level).
Definition lines_of (s : Stitch) (level : Z) : list (list (Z * Z)) := default [] (st_completed s !! level).
Definition level_chained (segs : list (Key * Key)) (s : Stitch) (level : Z) : Prop :=
  exists walks rings, chained segs (starts_of s level) (ends_of s level) (lines_of s level) walks rings.
(** The other levels keep their fragments and lines. *)
Definition same_elsewhere (level : Z) (s s' : Stitch) : Prop :=
  forall other, other <> level -> starts_of s' other = starts_of s other /\ ends_of s' other = ends_of s other /\ lines_of s' other = lines_of s other.

Lemma stitch_chained segs s level sk ek :
  level_chained segs s level -> sk ∉ segs.*1 -> ek ∉ segs.*2 -> sk <> ek ->
  exists s', stitch_segment level sk ek (pt sk) (pt ek) s = Some s' /\ level_chained ((sk, ek) :: segs) s' level /\ same_elsewhere level s s'.
Proof.
  intros (walks & rings & Hch) Hsk Hek Hne. unfold stitch_segment. fold (starts_of s level) (ends_of s level) (lines_of s level).
  assert (Hsame : forall completed starts ends, (completed = st_completed s \/ exists l, completed = <[level := l]> (st_completed s)) ->
    same_elsewhere level s {| st_completed := completed; st_starts := <[level := starts]> (st_starts s); st_ends := <[level := ends]> (st_ends s) |}).
  { intros completed starts ends Hc other Ho. unfold starts_of, ends_of, lines_of. cbn. rewrite !lookup_insert_ne by done. split_and!; [done|done|].
    destruct Hc as [->|[l ->]]; [done|]. by rewrite lookup_insert_ne. }
  assert (Hlevel : forall segs starts ends walks rings, chained segs starts ends (lines_of s level) walks rings ->
    level_chained segs {| st_completed := st_completed s; st_starts := <[level := starts]> (st_starts s); st_ends := <[level := ends]> (st_ends s) |} level).
  { intros segs' starts ends walks' rings' Hc. exists walks', rings'. unfold starts_of, ends_of. cbn. by rewrite !lookup_insert_eq. }
  assert (Hfrag : forall k, starts_of s level !! k = walk_fragment <$> walks !! k) by (intros k; rewrite (ch_starts _ _ _ _ _ _ Hch); apply lookup_fmap).
  destruct (ends_of s level !! sk) as [k|] eqn:Hend.
  - apply (ch_ends _ _ _ _ _ _ Hch) in Hend as (ks & Hk & Hl). destruct (ch_walk _ _ _ _ _ _ Hch k ks Hk) as [Hh _]. rewrite Hfrag, Hk. cbn [fmap option_fmap option_map].
    assert (Hfs : fr_start (walk_fragment ks) = k) by (cbn; by rewrite Hh). rewrite Hfs. destruct (decide (k = ek)) as [He|He].
    + rewrite bool_decide_eq_true_2 by done. eexists. split; [done|]. split; [|apply Hsame; right; by eexists].
      do 2 eexists. unfold starts_of, ends_of, lines_of. cbn. rewrite !lookup_insert_eq. cbn [default from_option].
      by eapply (chain_close _ _ _ _ _ _ Hch).
    + rewrite bool_decide_eq_false_2, lookup_delete_ne, Hfrag by done. destruct (walks !! ek) as [ks2|] eqn:Hk2; cbn [fmap option_fmap option_map].
      * destruct (walk_last _ _ _ _ _ _ Hch ek ks2 Hk2) as [e Hl2]. eexists. split; [done|]. split; [|apply Hsame; by left]. eapply Hlevel.
        pose proof (chain_merge _ _ _ _ _ _ Hch sk ek Hsk Hek Hne k ks ks2 e Hk Hl He Hk2 Hl2) as Hmerge.
        cbn [fr_start fr_end walk_fragment fr_points]. rewrite Hl2. cbn [default from_option].
        rewrite (ch_starts _ _ _ _ _ _ Hch). rewrite !fmap_delete in Hmerge.
        unfold walk_fragment in Hmerge at 1. rewrite head_app, Hh, last_app, Hl2, line_points_app in Hmerge. exact Hmerge.
      * eexists. split; [done|]. split; [|apply Hsame; by left]. eapply Hlevel.
        pose proof (chain_extend _ _ _ _ _ _ Hch sk ek Hsk Hek Hne k ks Hk Hl He Hk2) as Hext.
        cbn [fr_start fr_end walk_fragment fr_points].
        rewrite (ch_starts _ _ _ _ _ _ Hch). rewrite !fmap_delete in Hext.
        unfold walk_fragment in Hext at 1. rewrite head_app, Hh, last_snoc, line_points_app in Hext. exact Hext.
  - rewrite Hfrag. destruct (walks !! ek) as [ks2|] eqn:Hk2; cbn [fmap option_fmap option_map].
    + destruct (walk_last _ _ _ _ _ _ Hch ek ks2 Hk2) as [e Hl2]. eexists. split; [done|]. split; [|apply Hsame; by left]. eapply Hlevel.
      pose proof (chain_prepend _ _ _ _ _ _ Hch sk ek Hsk Hek Hne ks2 e Hend Hk2 Hl2) as Hpre. destruct (ch_walk _ _ _ _ _ _ Hch ek ks2 Hk2) as [Hh2 _].
      cbn [fr_start fr_end walk_fragment fr_points]. rewrite Hl2. cbn [default from_option]. rewrite (ch_starts _ _ _ _ _ _ Hch). rewrite !fmap_delete in Hpre.
      unfold walk_fragment in Hpre at 1. destruct ks2 as [|k2 ks2]; [done|]. cbn [head] in Hpre. change (last (sk :: k2 :: ks2)) with (last (k2 :: ks2)) in Hpre. rewrite Hl2 in Hpre. exact Hpre.
    + eexists. split; [done|]. split; [|apply Hsame; by left]. eapply Hlevel. rewrite (ch_starts _ _ _ _ _ _ Hch).
      exact (chain_new _ _ _ _ _ _ Hch sk ek Hsk Hek Hne Hend Hk2).
Qed.
End Level.

(** ** All levels *)

Abbreviation Event := (Z * (Key * Key))%type.
(** The segments of one level among those of all levels. *)
Definition at_level (level : Z) (events : list Event) : list (Key * Key) := events ≫= fun e => if e.1 =? level then [e.2] else [].
Lemma at_level_app level l l' : at_level level (l ++ l') = at_level level l ++ at_level level l'.
Proof. apply bind_app. Qed.
Lemma at_level_bind {T} level (f : T -> list Event) l : at_level level (l ≫= f) = l ≫= fun t => at_level level (f t).
Proof. induction l as [|t l IH]; [done|]. by rewrite !bind_cons, at_level_app, IH. Qed.

Section Events.
Context (pt : Z -> Key -> Z * Z).
Definition stitch_event (s : Stitch) (e : Event) : option Stitch :=
  let '(level, (sk, ek)) := e in stitch_segment level sk ek (pt level sk) (pt level ek) s.

Definition separate (segs : list (Key * Key)) : Prop := NoDup segs.*1 /\ NoDup segs.*2 /\ forall s, s ∈ segs -> s.1 <> s.2.
Lemma separate_perm segs segs' : segs ≡ₚ segs' -> separate segs -> separate segs'.
Proof. intros Hp (H1 & H2 & H3). split_and!; [by rewrite <- Hp|by rewrite <- Hp|]. intros s Hs. apply H3. by rewrite Hp. Qed.
Lemma stitch_events done events s :
  (forall level, level_chained (pt level) (at_level level done) s level) -> (forall level, separate (at_level level (done ++ events))) ->
  exists s', for_each stitch_event events s = Some s' /\ forall level, level_chained (pt level) (at_level level (rev events ++ done)) s' level.
Proof.
  revert done s. induction events as [|[level [sk ek]] events IH]; intros done s Hch Hsep; [by exists s|].
  assert (Hhere : at_level level (done ++ (level, (sk, ek)) :: events) ≡ₚ (sk, ek) :: at_level level done ++ at_level level events).
  { rewrite at_level_app. unfold at_level at 2. rewrite bind_cons. cbn. rewrite Z.eqb_refl. cbn. by rewrite <- Permutation_middle. }
  destruct (separate_perm _ _ Hhere (Hsep level)) as (H1 & H2 & H3). cbn [fmap list_fmap fst snd] in H1, H2. rewrite fmap_app in H1, H2.
  apply NoDup_cons in H1 as [H1 _], H2 as [H2 _]. rewrite not_elem_of_app in H1, H2.
  destruct (stitch_chained (pt level) (at_level level done) s level sk ek (Hch level)) as (s1 & Hs1 & Hch1 & Hsame); [by apply H1|by apply H2|apply (H3 (sk, ek)); by left|].
  destruct (IH ((level, (sk, ek)) :: done) s1) as (s2 & Hs2 & Hall).
  - intros other. unfold at_level. rewrite bind_cons. cbn [fst snd]. destruct (Z.eqb_spec level other) as [<-|Hne]; [exact Hch1|]. cbn [app].
    destruct (Hch other) as (walks & rings & Hc). destruct (Hsame other ltac:(done)) as (E1 & E2 & E3). exists walks, rings. by rewrite E1, E2, E3.
  - intros other. eapply separate_perm; [|apply (Hsep other)]. unfold at_level. cbn [app]. by rewrite <- Permutation_middle.
  - exists s2. cbn [for_each]. change (stitch_event s (level, (sk, ek))) with (stitch_segment level sk ek (pt level sk) (pt level ek) s).
    rewrite Hs1. cbn [mbind option_bind]. split; [done|]. intros other. cbn [rev]. rewrite <- app_assoc. apply Hall.
Qed.
End Events.

(** ** Maximal chains *)

Lemma bind_fmap {T U V} (h : U -> V) (f : T -> list U) l : h <$> (l ≫= f) = l ≫= fun t => h <$> f t.
Proof. induction l as [|t l IH]; [done|]. by rewrite !bind_cons, fmap_app, IH. Qed.
Lemma steps_fst {T} (l : list T) : (unit_steps l).*1 = removelast l.
Proof. induction l as [|a l IH]; [done|]. destruct l as [|b l]; [done|]. cbn in *. by rewrite IH. Qed.
Lemma steps_snd {T} (l : list T) : (unit_steps l).*2 = tail l.
Proof. induction l as [|a l IH]; [done|]. destruct l as [|b l]; [done|]. cbn in *. by rewrite IH. Qed.
Lemma chain_ends {T} (l : list T) : (2 <= length l)%nat -> exists a m b, l = a :: m ++ [b].
Proof.
  intros Hl. destruct l as [|a l]; [cbn in Hl; lia|]. destruct l as [|b l _] using rev_ind; [cbn in Hl; lia|]. by exists a, l, b.
Qed.
Lemma removelast_ends {T} (a b : T) m : removelast (a :: m ++ [b]) = a :: m.
Proof. change (a :: m ++ [b]) with ((a :: m) ++ [b]). apply removelast_last. Qed.

(** No segment continues an open chain, at either end. *)
Definition open_chain (segs : list (Key * Key)) (ks : list Key) : Prop :=
  exists a m b, ks = a :: m ++ [b] /\ (a ∉ segs.*2) /\ (b ∉ segs.*1).

Lemma chained_maximal pt segs starts ends lines walks rings k ks :
  chained pt segs starts ends lines walks rings -> separate segs -> walks !! k = Some ks -> open_chain segs ks.
Proof.
  intros Hch (Hn1 & Hn2 & _) Hk. destruct Hch as [_ Hw He Hm _ Hc Hst]. fold (open_steps walks) in Hst.
  destruct (Hw k ks Hk) as [Hh Hlen]. destruct (chain_ends ks Hlen) as (a & m & b & ->). injection Hh as ->. exists k, m, b. split; [done|].
  assert (Hb : ends !! b = Some k) by (apply He; exists (k :: m ++ [b]); split; [done|]; by rewrite app_comm_cons, last_snoc).
  pose proof Hst as Hst'. rewrite (open_steps_delete _ _ _ Hk) in Hst'. rewrite <- Hst' in Hn1, Hn2. rewrite !fmap_app, steps_fst, removelast_ends in Hn1. rewrite !fmap_app, steps_snd in Hn2. cbn [tail] in Hn2.
  apply NoDup_app in Hn1 as (_ & Hd1 & (Hm1 & Ho1 & _)%NoDup_app), Hn2 as (_ & Hd2 & (Hm2 & Ho2 & _)%NoDup_app).
  assert (Hcase : forall s, s ∈ segs -> (exists c, c ∈ rings /\ s ∈ unit_steps c) \/ s ∈ unit_steps (k :: m ++ [b]) \/ exists k' c, k' <> k /\ walks !! k' = Some c /\ s ∈ unit_steps c).
  { intros s Hs. rewrite <- Hst', !elem_of_app in Hs. destruct Hs as [(c & Hs & Hc')%list_elem_of_bind|[Hs|(c & Hs & Hc')%list_elem_of_bind]]; [left; by eauto|by right; left|].
    right. right. apply list_elem_of_fmap in Hc' as ([k' c'] & -> & Hin). apply elem_of_map_to_list, lookup_delete_Some in Hin as [? ?]. by eauto. }
  assert (Hring : forall c (p : Key * Key), c ∈ rings -> p ∈ unit_steps c -> p.1 ∈ (rings ≫= unit_steps).*2 /\ p.2 ∈ (rings ≫= unit_steps).*1).
  { intros c p Hc' Hp. rewrite Forall_forall in Hc. destruct (Hc c Hc') as [Hl2 Hhl]. destruct (chain_ends c Hl2) as (a & m' & b' & ->).
    rewrite app_comm_cons, last_snoc in Hhl. cbn in Hhl. injection Hhl as <-.
    assert (H1 : p.1 ∈ a :: m') by (rewrite <- (removelast_ends a a m'), <- steps_fst; by apply list_elem_of_fmap_2).
    assert (H2 : p.2 ∈ m' ++ [a]) by (change (m' ++ [a]) with (tail (a :: m' ++ [a])); rewrite <- steps_snd; by apply list_elem_of_fmap_2).
    rewrite !bind_fmap, !list_elem_of_bind. split; exists (a :: m' ++ [a]); (split; [|done]); [rewrite steps_snd|rewrite steps_fst, removelast_ends]; set_solver. }
  assert (Hother : forall k' c, k' <> k -> walks !! k' = Some c -> unit_steps c ⊆ open_steps (delete k walks)).
  { intros k' c Hne Hc' p Hp. apply list_elem_of_bind. exists c. split; [done|]. apply list_elem_of_fmap. exists (k', c). split; [done|]. apply elem_of_map_to_list.
    by rewrite lookup_delete_ne. }
  split.
  - intros (s & Hs & [(c & Hc' & Hsc)|[Hsc|(k' & c & Hne & Hc' & Hsc)]]%Hcase)%list_elem_of_fmap.
    + apply (Hd1 k); [rewrite Hs; by apply (Hring c s)|]. apply elem_of_app. left. by left.
    + apply (list_elem_of_fmap_2 snd) in Hsc. rewrite steps_snd, <- Hs in Hsc. cbn [tail] in Hsc. apply elem_of_app in Hsc as [Hin|Hin].
      * by apply NoDup_cons in Hm1 as [? _].
      * apply list_elem_of_singleton in Hin as ->. rewrite (Hm _ _ Hb) in Hk. done.
    + destruct (Hw k' c Hc') as [Hh' Hl']. destruct (chain_ends c Hl') as (a' & m' & b' & ->). injection Hh' as ->.
      pose proof Hsc as Hsc2. apply (list_elem_of_fmap_2 snd) in Hsc2. rewrite steps_snd, <- Hs in Hsc2. cbn [tail] in Hsc2. apply elem_of_app in Hsc2 as [Hin|Hin].
      * apply (Ho1 k); [by left|]. assert (Hst1 : k ∈ (unit_steps (k' :: m' ++ [b'])).*1) by (rewrite steps_fst, removelast_ends; by right).
        apply list_elem_of_fmap in Hst1 as (p & -> & Hp). apply list_elem_of_fmap_2. by apply (Hother k' _ Hne Hc').
      * apply list_elem_of_singleton in Hin as ->. assert (Hb' : ends !! b' = Some k') by (apply He; eexists; split; [exact Hc'|]; by rewrite app_comm_cons, last_snoc).
        rewrite (Hm _ _ Hb') in Hk. done.
  - intros (s & Hs & [(c & Hc' & Hsc)|[Hsc|(k' & c & Hne & Hc' & Hsc)]]%Hcase)%list_elem_of_fmap.
    + apply (Hd2 b); [rewrite Hs; by apply (Hring c s)|]. apply elem_of_app. left. apply elem_of_app. right. by left.
    + apply (list_elem_of_fmap_2 fst) in Hsc. rewrite steps_fst, removelast_ends, <- Hs in Hsc. apply elem_of_cons in Hsc as [->|Hin].
      * rewrite (Hm _ _ Hb) in Hk. done.
      * apply NoDup_app in Hm2 as (_ & Hd & _). apply (Hd b Hin). by left.
    + destruct (Hw k' c Hc') as [Hh' Hl']. destruct (chain_ends c Hl') as (a' & m' & b' & ->). injection Hh' as ->.
      pose proof Hsc as Hsc2. apply (list_elem_of_fmap_2 fst) in Hsc2. rewrite steps_fst, removelast_ends, <- Hs in Hsc2. apply elem_of_cons in Hsc2 as [<-|Hin].
      * rewrite (Hm _ _ Hb) in Hc'. done.
      * apply (Ho2 b); [apply elem_of_app; right; by left|]. assert (Hst1 : b ∈ (unit_steps (k' :: m' ++ [b'])).*2) by (rewrite steps_snd; apply elem_of_app; by left).
        apply list_elem_of_fmap in Hst1 as (p & -> & Hp). apply list_elem_of_fmap_2. by apply (Hother k' _ Hne Hc').
Qed.

(** ** The segments of the cells *)

Section Cells.
Context (EXTENT : Z) (grid : ElevationGrid) (interval : Z) (Hinterval : 0 < interval).

Definition value_at (x y : Z) : F32 := default f_nan (gr_get grid x y).
(** Where a level crosses an edge, from the elevations at its ends. *)
Definition edge_point (level : Z) (key : Key) : Z * Z :=
  let ratio a b := f64_of_f32 (f32_div (f32_sub (f32_of_int level) a) (f32_sub b a)) in
  let x := key.1 / 2 in let y := key.2 / 2 in
  let '(px, py) :=
    if Z.even key.1 then (f64_of_int x, f64_add (f64_of_int y) (ratio (value_at x y) (value_at x (y + 1))))
    else (f64_add (f64_of_int x) (ratio (value_at x y) (value_at (x + 1) y)), f64_of_int y) in
  (f_round_i32 (f64_mul px (grid_scale EXTENT grid)), f_round_i32 (f64_mul py (grid_scale EXTENT grid))).

Lemma corners_values x y c : corners_at grid x y = Some c ->
  tl c = value_at x y /\ tr c = value_at (x + 1) y /\ br c = value_at (x + 1) (y + 1) /\ bl c = value_at x (y + 1).
Proof.
  unfold corners_at, value_at. destruct (gr_get grid x y), (gr_get grid (x + 1) y), (gr_get grid (x + 1) (y + 1)), (gr_get grid x (y + 1)); try done.
  intros [= <-]. done.
Qed.
Lemma interpolate_edge x y c level e : corners_at grid x y = Some c ->
  interpolate x y e (f32_of_int level) c (grid_scale EXTENT grid) = edge_point level (edge_key x y e).
Proof.
  intros Hc. destruct (corners_values x y c Hc) as (E1 & E2 & E3 & E4). unfold interpolate, edge_point, edge_key. rewrite E1, E2, E3, E4.
  assert (Hhalf : forall z k, (z * 2 + k) / 2 = z + k / 2) by (intros z k; apply Z.div_add_l; lia).
  assert (Heven : forall z k, Z.even (z * 2 + k) = Z.even k) by (intros z k; rewrite Z.even_add, Z.even_mul, orb_true_r; by destruct (Z.even k)).
  cbn [fst snd]. rewrite !Hhalf, !Heven. destruct e; cbn [edge_offset fst snd];
    (replace (0 / 2) with 0 by done || idtac); (replace (1 / 2) with 0 by done || idtac); (replace (2 / 2) with 1 by done || idtac); rewrite ?Z.add_0_r; reflexivity.
Qed.

(** *** Starts and ends *)

Definition above (level x y : Z) : bool := f_gt (value_at x y) (f32_of_int level).
(** A segment starts on an edge whose next corner clockwise lies above the level and the other one does not. *)
Definition enters (level x y : Z) (e : CellEdge) : bool :=
  match e with
  | A => above level (x + 1) y && negb (above level x y)
  | B => above level (x + 1) (y + 1) && negb (above level (x + 1) y)
  | C => above level x (y + 1) && negb (above level (x + 1) (y + 1))
  | D => above level x y && negb (above level x (y + 1))
  end.
Definition leaves_by (level x y : Z) (e : CellEdge) : bool :=
  match e with
  | A => above level x y && negb (above level (x + 1) y)
  | B => above level (x + 1) y && negb (above level (x + 1) (y + 1))
  | C => above level (x + 1) (y + 1) && negb (above level x (y + 1))
  | D => above level x (y + 1) && negb (above level x y)
  end.
Lemma cell_segments_edges x y c level : corners_at grid x y = Some c ->
  (forall s, s ∈ cell_segments c level -> enters level x y s.1 = true /\ leaves_by level x y s.2 = true) /\
  NoDup (cell_segments c level).*1 /\ NoDup (cell_segments c level).*2.
Proof.
  intros Hc. destruct (corners_values x y c Hc) as (E1 & E2 & E3 & E4). unfold cell_segments, case_of, enters, leaves_by, above. rewrite E1, E2, E3, E4.
  destruct (f_gt (value_at x y) _), (f_gt (value_at (x + 1) y) _), (f_gt (value_at (x + 1) (y + 1)) _), (f_gt (value_at x (y + 1)) _); cbn.
  all: try destruct (saddle_above c (f32_of_int level)); cbn; split_and!; repeat constructor; set_solver.
Qed.
Lemma edge_key_same x y e x' y' e' : edge_key x y e = edge_key x' y' e' ->
  x = x' /\ y = y' /\ e = e' \/ x = x' /\ y = y' + 1 /\ e = A /\ e' = C \/ x = x' /\ y' = y + 1 /\ e = C /\ e' = A \/
  y = y' /\ x = x' + 1 /\ e = D /\ e' = B \/ y = y' /\ x' = x + 1 /\ e = B /\ e' = D.
Proof. destruct e, e'; cbn; intros [= E1 E2]; lia || (left; split_and!; [lia|lia|done]) || (exfalso; lia) || idtac. all: intuition lia. Qed.
Lemma enters_once level x y e x' y' e' : edge_key x y e = edge_key x' y' e' -> enters level x y e = true -> enters level x' y' e' = true -> x = x' /\ y = y' /\ e = e'.
Proof.
  intros Hk H1 H2. destruct (edge_key_same _ _ _ _ _ _ Hk) as [?|[(-> & -> & -> & ->)|[(-> & -> & -> & ->)|[(-> & -> & -> & ->)|(-> & -> & -> & ->)]]]]; [done|exfalso..];
    cbn in H1, H2; bool_props; congruence.
Qed.
Lemma leaves_once level x y e x' y' e' : edge_key x y e = edge_key x' y' e' -> leaves_by level x y e = true -> leaves_by level x' y' e' = true -> x = x' /\ y = y' /\ e = e'.
Proof.
  intros Hk H1 H2. destruct (edge_key_same _ _ _ _ _ _ Hk) as [?|[(-> & -> & -> & ->)|[(-> & -> & -> & ->)|[(-> & -> & -> & ->)|(-> & -> & -> & ->)]]]]; [done|exfalso..];
    cbn in H1, H2; bool_props; congruence.
Qed.

(** *** The segments of a level *)

Definition keyed_segment (x y : Z) (s : CellEdge * CellEdge) : Key * Key := (edge_key x y s.1, edge_key x y s.2).
Lemma keyed_fst x y l : (keyed_segment x y <$> l).*1 = edge_key x y <$> l.*1.
Proof. induction l as [|s l IH]; [done|]. cbn in *. by rewrite IH. Qed.
Lemma keyed_snd x y l : (keyed_segment x y <$> l).*2 = edge_key x y <$> l.*2.
Proof. induction l as [|s l IH]; [done|]. cbn in *. by rewrite IH. Qed.
(** The segments of a cell at a level, by the keys of its edges. *)
Definition cell_level (level : Z) (cell : Z * Z) : list (Key * Key) :=
  let '(x, y) := cell in
  match corners_at grid x y with
  | Some c =>
      if all_finite c && bool_decide (level ∈ cell_thresholds c interval)
      then keyed_segment x y <$> cell_segments c level else []
  | None => []
  end.
Definition level_segments (level : Z) : list (Key * Key) := cells (gr_tile grid) ≫= cell_level level.

Lemma elem_of_cell_level level x y s : s ∈ cell_level level (x, y) ->
  exists a b, s = (edge_key x y a, edge_key x y b) /\ enters level x y a = true /\ leaves_by level x y b = true.
Proof.
  unfold cell_level. destruct (corners_at grid x y) as [c|] eqn:Hc; [|by intros []%elem_of_nil]. destruct (_ && _); [|by intros []%elem_of_nil].
  intros ([a b] & -> & Hs)%list_elem_of_fmap. exists a, b. destruct (cell_segments_edges x y c level Hc) as (He & _ & _). by destruct (He _ Hs).
Qed.
Lemma lanes_NoDup size : NoDup (lanes size).
Proof. apply NoDup_fmap_2; [|apply NoDup_seq]. intros a b Hab. lia. Qed.
Lemma cells_NoDup size : NoDup (cells size).
Proof.
  apply NoDup_bind; [| |apply lanes_NoDup].
  - intros y1 y2 p _ _ (x1 & -> & _)%list_elem_of_fmap (x2 & [= _ He] & _)%list_elem_of_fmap. done.
  - intros y _. apply NoDup_fmap_2; [by intros ? ? [= ->]|]. apply lanes_NoDup.
Qed.
Lemma level_segments_separate level : separate (level_segments level).
Proof.
  unfold level_segments. split_and!.
  - rewrite bind_fmap. apply NoDup_bind; [| |apply cells_NoDup].
    + intros [x y] [x' y'] k _ _ (s & -> & Hs)%list_elem_of_fmap (s' & He & Hs')%list_elem_of_fmap.
      apply elem_of_cell_level in Hs as (a & b & -> & Ha & _), Hs' as (a' & b' & -> & Ha' & _). cbn in He.
      destruct (enters_once level _ _ _ _ _ _ He Ha Ha') as (-> & -> & _). done.
    + intros [x y] _. unfold cell_level. destruct (corners_at grid x y) as [c|] eqn:Hc; [|constructor]. destruct (_ && _); [|constructor].
      destruct (cell_segments_edges x y c level Hc) as (_ & Hn & _). rewrite keyed_fst. apply NoDup_fmap_2; [|done]. intros a b Hab. by destruct (edge_key_same _ _ _ _ _ _ Hab) as [(_ & _ & ?)|?]; [|lia].
  - rewrite bind_fmap. apply NoDup_bind; [| |apply cells_NoDup].
    + intros [x y] [x' y'] k _ _ (s & -> & Hs)%list_elem_of_fmap (s' & He & Hs')%list_elem_of_fmap.
      apply elem_of_cell_level in Hs as (a & b & -> & _ & Ha), Hs' as (a' & b' & -> & _ & Ha'). cbn in He.
      destruct (leaves_once level _ _ _ _ _ _ He Ha Ha') as (-> & -> & _). done.
    + intros [x y] _. unfold cell_level. destruct (corners_at grid x y) as [c|] eqn:Hc; [|constructor]. destruct (_ && _); [|constructor].
      destruct (cell_segments_edges x y c level Hc) as (_ & _ & Hn). rewrite keyed_snd. apply NoDup_fmap_2; [|done]. intros a b Hab. by destruct (edge_key_same _ _ _ _ _ _ Hab) as [(_ & _ & ?)|?]; [|lia].
  - intros s ([x y] & Hs & _)%list_elem_of_bind. apply elem_of_cell_level in Hs as (a & b & -> & Ha & Hb). cbn. intros Hk.
    destruct (edge_key_same _ _ _ _ _ _ Hk) as [(_ & _ & ->)|?]; [|lia]. destruct b; cbn in Ha, Hb; bool_props; congruence.
Qed.

(** *** The loop over the cells *)

Definition cell_events (cell : Z * Z) : list Event :=
  let '(x, y) := cell in
  match corners_at grid x y with
  | Some c => if all_finite c then cell_thresholds c interval ≫= (fun level => (fun s => (level, keyed_segment x y s)) <$> cell_segments c level) else []
  | None => []
  end.
Lemma for_each_bind {S T U} (f : S -> U -> option S) (h : T -> list U) (k : S -> T -> option S) l s :
  (forall s t, t ∈ l -> k s t = for_each f (h t) s) -> for_each k l s = for_each f (l ≫= h) s.
Proof.
  revert s. induction l as [|t l IH]; intros s Hk; [done|]. rewrite bind_cons. cbn [for_each]. rewrite (Hk s t) by (by left).
  assert (Happ : forall l1 l2 s, for_each f (l1 ++ l2) s = (s ← for_each f l1 s; for_each f l2 s)).
  { induction l1 as [|u l1 IH1]; intros l2 s0; [done|]. cbn. destruct (f s0 u); [apply IH1|done]. }
  rewrite Happ. destruct (for_each f (h t) s); [|done]. cbn. apply IH. intros s1 t1 Ht. apply Hk. by right.
Qed.
Lemma for_each_fmap {S T U} (f : S -> U -> option S) (h : T -> U) l s : for_each f (h <$> l) s = for_each (fun s t => f s (h t)) l s.
Proof. revert s. induction l as [|t l IH]; intros s; [done|]. cbn. destruct (f s (h t)); [apply IH|done]. Qed.
Lemma for_each_ext {S T} (f k : S -> T -> option S) l s : (forall s t, f s t = k s t) -> for_each f l s = for_each k l s.
Proof. intros Hf. revert s. induction l as [|t l IH]; intros s; [done|]. cbn. rewrite Hf. destruct (k s t); [apply IH|done]. Qed.
Lemma stitch_cell_events s cell : is_Some (corners_at grid cell.1 cell.2) ->
  stitch_cell EXTENT grid interval s cell = for_each (stitch_event edge_point) (cell_events cell) s.
Proof.
  destruct cell as [x y]. intros [c Hc]. cbn in Hc. unfold stitch_cell, cell_events. rewrite Hc. cbn [mbind option_bind]. destruct (all_finite c); cbn [negb]; [|done].
  apply for_each_bind. intros s1 level _. unfold stitch_level. rewrite for_each_fmap. apply for_each_ext. intros s2 [a b]. cbn [fst snd stitch_event].
  by rewrite !(interpolate_edge x y c level _ Hc).
Qed.

Lemma step_range_NoDup first stop : NoDup (step_range first stop interval).
Proof. apply NoDup_fmap_2; [|apply NoDup_seq]. intros a b Hab. nia. Qed.
Lemma at_level_cell level cell : at_level level (cell_events cell) = cell_level level cell.
Proof.
  destruct cell as [x y]. unfold cell_events, cell_level. destruct (corners_at grid x y) as [c|]; [|done]. destruct (all_finite c); [|done]. cbn [andb].
  rewrite at_level_bind. assert (Hone : forall l : list (CellEdge * CellEdge), forall t, at_level level ((fun s => (t, keyed_segment x y s)) <$> l) =
    if t =? level then keyed_segment x y <$> l else []).
  { intros l t. induction l as [|s l IH]; [by destruct (_ =? _)|]. cbn [fmap list_fmap]. unfold at_level. rewrite bind_cons. cbn [fst snd]. fold (at_level level).
    change (list_fmap _ _ (fun s => (t, keyed_segment x y s)) l) with ((fun s => (t, keyed_segment x y s)) <$> l).
    unfold at_level in IH. rewrite IH. by destruct (t =? level). }
  pose proof (step_range_NoDup (f_ceil_i32 (f32_div (f_min (f_min (f_min (tl c) (tr c)) (br c)) (bl c)) (f32_of_int interval)) * interval)
    (f_floor_i32 (f32_div (f_max (f_max (f_max (tl c) (tr c)) (br c)) (bl c)) (f32_of_int interval)) * interval)) as Hnd. fold (cell_thresholds c interval) in Hnd.
  induction (cell_thresholds c interval) as [|t l IH]; [done|]. apply NoDup_cons in Hnd as [Ht Hnd]. rewrite bind_cons, Hone. destruct (Z.eqb_spec t level) as [->|Hne].
  - rewrite bool_decide_eq_true_2 by (by left). rewrite (IH Hnd), bool_decide_eq_false_2 by done. by rewrite app_nil_r.
  - cbn [app]. rewrite (IH Hnd). rewrite (bool_decide_ext (level ∈ t :: l) (level ∈ l)); [done|]. rewrite elem_of_cons. naive_solver.
Qed.

(** *** The result *)

Definition grid_wf : Prop := 0 <= gr_tile grid /\ gr_stride grid = gr_tile grid + 5 /\ length (gr_values grid) = Z.to_nat (gr_stride grid * gr_stride grid).
(** The lines of a level: chains over its segments, closed or maximal, that use each segment once. *)
Definition level_lines (level : Z) (lines : list (list (Z * Z))) : Prop :=
  exists rings walks, lines ≡ₚ line_points (edge_point level) <$> (rings ++ walks) /\ Forall closed_chain rings /\
    Forall (open_chain (level_segments level)) walks /\ ((rings ++ walks) ≫= unit_steps) ≡ₚ level_segments level.

Lemma corners_total x y : grid_wf -> -1 <= x <= gr_tile grid -> -1 <= y <= gr_tile grid -> is_Some (corners_at grid x y).
Proof.
  intros (Ht & Hs & Hl) Hx Hy. assert (Hget : forall x y, -1 <= x <= gr_tile grid + 1 -> -1 <= y <= gr_tile grid + 1 -> exists v, gr_get grid x y = Some v).
  { intros x' y' Hx' Hy'. unfold gr_get. apply lookup_lt_is_Some_2. rewrite Hl, Hs. nia. }
  unfold corners_at. destruct (Hget x y) as [a ->]; [lia|lia|]. destruct (Hget (x + 1) y) as [b ->]; [lia|lia|].
  destruct (Hget (x + 1) (y + 1)) as [c ->]; [lia|lia|]. destruct (Hget x (y + 1)) as [d ->]; [lia|lia|]. by eexists.
Qed.
Lemma elem_of_cells x y size : (x, y) ∈ cells size -> -1 <= x <= size /\ -1 <= y <= size.
Proof.
  intros (y' & Hx & Hy)%list_elem_of_bind. apply list_elem_of_fmap in Hx as (x' & [= -> ->] & Hx). unfold lanes in Hx, Hy.
  apply list_elem_of_fmap in Hx as (i & -> & Hi%elem_of_seq), Hy as (j & -> & Hj%elem_of_seq). lia.
Qed.

Lemma finish_levels level entries completed frs :
  NoDup entries.*1 -> (forall k fr f, (k, fr) ∈ entries -> f ∈ fr_points <$> into_values fr -> (2 <= length f)%nat) ->
  (level, frs) ∈ entries \/ (level ∉ entries.*1 /\ frs = ∅) ->
  default [] (foldl finish_level completed entries !! level) ≡ₚ default [] (completed !! level) ++ (fr_points <$> (map_to_list frs).*2).
Proof.
  assert (Hval : forall frs : gmap Key Fragment, into_values frs ≡ₚ (map_to_list frs).*2) by (intros f; unfold into_values; by rewrite merge_sort_Permutation).
  revert completed frs. induction entries as [|[k fr] entries IH]; intros completed frs Hnd Hlong Hin; cbn [foldl].
  { destruct Hin as [Hin|[_ ->]]; [by apply elem_of_nil in Hin|]. rewrite map_to_list_empty. cbn. by rewrite app_nil_r. }
  cbn [fmap list_fmap fst] in Hnd. apply NoDup_cons in Hnd as [Hk Hnd].
  assert (Hfil : List.filter (fun points => Nat.leb 2 (length points)) (fr_points <$> into_values fr) = fr_points <$> into_values fr).
  { specialize (Hlong k fr). assert (Hl : forall f, f ∈ fr_points <$> into_values fr -> (2 <= length f)%nat) by (intros f; apply Hlong; by left).
    revert Hl. generalize (fr_points <$> into_values fr). intros l Hl. induction l as [|f l IHl]; [done|]. cbn [List.filter].
    rewrite (proj2 (Nat.leb_le _ _)) by (apply Hl; by left). f_equal. apply IHl. intros f' Hf'. apply Hl. by right. }
  destruct (decide (k = level)) as [->|Hne].
  - rewrite (IH _ ∅); [|done|intros; eapply Hlong; [by right|done]|by right].
    destruct Hin as [[[= ->]|Hin]%elem_of_cons|[Hin _]]; [|exfalso; apply Hk, list_elem_of_fmap; by exists (level, frs)|exfalso; apply Hin; by left].
    unfold finish_level. cbn [fst snd]. rewrite lookup_insert_eq. cbn [default from_option]. rewrite map_to_list_empty. cbn [fmap list_fmap]. rewrite app_nil_r, Hfil, Hval. done.
  - rewrite (IH _ frs); [|done|intros; eapply Hlong; [by right|done]|].
    + unfold finish_level. cbn [fst snd]. by rewrite lookup_insert_ne.
    + destruct Hin as [[[= -> ->]|Hin]%elem_of_cons|[Hin ->]]; [done|by left|]. right. split; [|done]. intros Hin'. apply Hin. by right.
Qed.

Lemma marching_squares_spec : grid_wf -> exists isolines, marching_squares EXTENT grid interval = Some isolines /\
  forall level, level_lines level (default [] (isolines !! level)).
Proof.
  intros Hwf. unfold marching_squares.
  rewrite (for_each_bind (stitch_event edge_point) cell_events) by (intros s [x y] [? ?]%elem_of_cells; by apply stitch_cell_events, corners_total).
  assert (Hevents : forall level, at_level level (cells (gr_tile grid) ≫= cell_events) = level_segments level).
  { intros level. rewrite at_level_bind. unfold level_segments. induction (cells (gr_tile grid)) as [|c l IH]; [done|]. by rewrite !bind_cons, at_level_cell, IH. }
  destruct (stitch_events edge_point [] (cells (gr_tile grid) ≫= cell_events) Stitch_new) as (s & -> & Hall).
  { intros level. exists ∅, []. split; cbn; try done.
    intros e k. split; [done|]. by intros (ks & ? & _). }
  { intros level. cbn [app]. rewrite Hevents. apply level_segments_separate. }
  cbn [mbind option_bind]. eexists. split; [done|]. intros level.
  assert (Hsegs : forall level, at_level level (rev (cells (gr_tile grid) ≫= cell_events) ++ []) ≡ₚ level_segments level).
  { intros l. rewrite <- Hevents, app_nil_r. unfold at_level. by rewrite <- Permutation_rev. }
  destruct (Hall level) as (walks & rings & Hch). exists rings, (map_to_list walks).*2.
  assert (Hmax : Forall (open_chain (level_segments level)) (map_to_list walks).*2).
  { apply Forall_forall. intros ks ([k ks'] & -> & Hk%elem_of_map_to_list)%list_elem_of_fmap.
    destruct (chained_maximal _ _ _ _ _ _ _ k ks' Hch) as (a & m & b & -> & H1 & H2); [|done|].
    - eapply separate_perm; [symmetry; apply Hsegs|]. apply level_segments_separate.
    - exists a, m, b. split; [done|]. rewrite (Hsegs level) in H1, H2. done. }
  split_and!; [|by apply (ch_closed _ _ _ _ _ _ _ Hch)|done|rewrite bind_app, (ch_steps _ _ _ _ _ _ _ Hch); apply Hsegs].
  assert (Hperm : in_order (st_starts s) ≡ₚ map_to_list (st_starts s)) by apply merge_sort_Permutation.
  rewrite (finish_levels level (in_order (st_starts s)) (st_completed s) (starts_of s level)).
  - fold (lines_of s level). rewrite fmap_app, (ch_lines _ _ _ _ _ _ _ Hch), (ch_starts _ _ _ _ _ _ _ Hch), map_to_list_fmap. f_equiv.
    rewrite <- !list_fmap_compose. done.
  - rewrite Hperm. apply NoDup_fst_map_to_list.
  - intros k fr f Hin Hf. rewrite Hperm in Hin. apply elem_of_map_to_list in Hin. destruct (Hall k) as (walks' & rings' & Hch').
    unfold into_values in Hf. rewrite merge_sort_Permutation in Hf. apply list_elem_of_fmap in Hf as (fg & -> & ([k' fg'] & -> & Hfg%elem_of_map_to_list)%list_elem_of_fmap).
    pose proof (ch_starts _ _ _ _ _ _ _ Hch') as Hst. unfold starts_of in Hst. rewrite Hin in Hst. cbn in Hst. rewrite Hst, lookup_fmap in Hfg.
    destruct (walks' !! k') as [ks|] eqn:Hks; [|done]. injection Hfg as <-. cbn. unfold line_points. rewrite length_fmap. by apply (ch_walk _ _ _ _ _ _ _ Hch' k' ks).
  - unfold starts_of. destruct (st_starts s !! level) as [fr|] eqn:E; cbn [default from_option].
    + left. rewrite Hperm. by apply elem_of_map_to_list.
    + right. split; [|done]. rewrite Hperm. intros ([l fr] & He & Hin%elem_of_map_to_list)%list_elem_of_fmap. cbn in He. subst l. congruence.
Qed.
End Cells.
