(* ===== verification/ContourSimplify.v ===== *)
(** * Simplified lines

    Proofs about the simplification of Contours: it ends, keeps the ends and the pinned
    points of a line, and leaves no other point whose triangle is small. *)

From stdpp Require Import sorting.
From S2P Require Import Prelude StdModel FloatMath Topology Dem Contours.
#[local] Open Scope Z_scope.

(** ** The heap *)

Lemma entry_lt_area a b : entry_lt a b = false -> (b.1.1 <= a.1.1).
Proof. destruct a as [[area i] v], b as [[area' i'] v']. cbn. intros [Ha _]%orb_false_elim. apply Z.ltb_ge in Ha. done. Qed.
Lemma pop_min_spec heap : match pop_min heap with
  | None => heap = []
  | Some (least, rest) => heap ≡ₚ least :: rest /\ forall e, e ∈ heap -> least.1.1 <= e.1.1
  end.
Proof.
  induction heap as [|e heap IH]; cbn [pop_min]; [done|]. destruct (pop_min heap) as [[least rest]|].
  - destruct IH as [Hp Hmin]. destruct (entry_lt least e) eqn:E.
    + split; [rewrite Hp; constructor|]. intros e' [->|He']%elem_of_cons; [|by apply Hmin].
      destruct least as [[a i] v], e as [[a' i'] v']. cbn in *. apply orb_prop in E as [E|[E _]%andb_prop]; [apply Z.ltb_lt in E; lia|apply Z.eqb_eq in E; lia].
    + split; [done|]. apply entry_lt_area in E. intros e' [->|He']%elem_of_cons; [done|]. specialize (Hmin e' He'). lia.
  - subst heap. split; [done|]. intros e' [->|He']%elem_of_cons; [done|by apply elem_of_nil in He'].
Qed.

(** ** Links *)

Lemma set_at_Some {T} (l : list T) i v : (i < length l)%nat -> set_at l i v = Some (<[i := v]> l).
Proof. intros Hi. unfold set_at. by rewrite (proj2 (Nat.ltb_lt _ _) Hi). Qed.

Section Links.
Context (line : list (Z * Z)) (keep : list bool).
Abbreviation n := (length line).
Context (Hn : (3 <= n)%nat) (Hkeep : length keep = n).

Definition live (s : Links) (i : nat) : Prop := lk_alive s !! i = Some true.
Definition gap (s : Links) (i j : nat) : Prop := (i < j)%nat /\ forall k, (i < k < j)%nat -> ~ live s k.
(** A vertex that can be removed. *)
Definition free (i : nat) : Prop := (0 < i < n - 1)%nat /\ keep !! i = Some false.
Definition entry_for (s : Links) (i : nat) : Prop :=
  exists p q v area, lk_previous s !! i = Some (Some p) /\ lk_next s !! i = Some q /\ lk_stamp s !! i = Some v /\ triangle_at line p i q = Some area /\
    (area, i, v) ∈ lk_heap s.
Record linked (s : Links) : Prop := {
  ln_lengths : length (lk_previous s) = n /\ length (lk_next s) = n /\ length (lk_alive s) = n /\ length (lk_stamp s) = n;
  ln_ends : live s 0 /\ live s (n - 1);
  ln_kept i : keep !! i = Some true -> live s i;
  ln_next i : live s i -> (i < n - 1)%nat -> exists j, lk_next s !! i = Some j /\ live s j /\ gap s i j;
  ln_previous j : live s j -> (0 < j)%nat -> exists i, lk_previous s !! j = Some (Some i) /\ live s i /\ gap s i j;
  ln_heap e : e ∈ lk_heap s -> free e.1.2 }.
Definition fresh (s : Links) (skip : nat -> Prop) : Prop := forall i, live s i -> free i -> ~ skip i -> entry_for s i.

Lemma live_lt s i : linked s -> live s i -> (i < n)%nat.
Proof. intros Hs Hi. destruct (ln_lengths s Hs) as (_ & _ & <- & _). by eapply lookup_lt_Some. Qed.
Lemma triangle_total p i q : (p < n)%nat -> (i < n)%nat -> (q < n)%nat -> exists area, triangle_at line p i q = Some area.
Proof.
  intros Hp Hi Hq. unfold triangle_at. destruct (lookup_lt_is_Some_2 line p Hp) as [a ->], (lookup_lt_is_Some_2 line i Hi) as [b ->], (lookup_lt_is_Some_2 line q Hq) as [c ->].
  by eexists.
Qed.
Lemma gap_unique_left s i i' j : live s i -> live s i' -> gap s i j -> gap s i' j -> i = i'.
Proof.
  intros Hi Hi' [Hlt Hg] [Hlt' Hg']. destruct (Nat.lt_trichotomy i i') as [H|[H|H]]; [|done|]; exfalso; [apply (Hg i'); [lia|done]|apply (Hg' i); [lia|done]].
Qed.

(** *** A new entry for a neighbour *)

Lemma refresh_spec s i skip : linked s -> live s i -> fresh s skip ->
  exists s', refresh line keep s i = Some s' /\ linked s' /\ fresh s' (fun j => skip j /\ j <> i) /\ lk_alive s' = lk_alive s /\
    (length (lk_heap s') <= S (length (lk_heap s)))%nat.
Proof.
  intros Hs Hi Hf. pose proof (live_lt s i Hs Hi) as Hlt. unfold refresh.
  assert (Hsame : ~ free i -> exists s', Some s = Some s' /\ linked s' /\ fresh s' (fun j => skip j /\ j <> i) /\ lk_alive s' = lk_alive s /\
    (length (lk_heap s') <= S (length (lk_heap s)))%nat).
  { intros Hnf. exists s. split; [done|]. split; [done|]. split; [|split; [done|lia]]. intros j Hj Hfj Hsk. apply Hf; [done|done|]. intros Hskj. apply Hsk. split; [done|]. intros ->. done. }
  destruct (Nat.ltb_spec 0 i); cbn [andb]; [|apply Hsame; intros [? _]; lia].
  destruct (Nat.ltb_spec i (n - 1)); [|apply Hsame; intros [? _]; lia].
  rewrite Hi. cbn [mbind option_bind]. destruct (lookup_lt_is_Some_2 keep i) as [kept Hk]; [lia|]. rewrite Hk. cbn [mbind option_bind andb].
  destruct kept; cbn [negb]; [apply Hsame; intros [_ ?]; congruence|].
  destruct (ln_lengths s Hs) as (Lp & Ln & La & Ls). destruct (lookup_lt_is_Some_2 (lk_stamp s) i) as [v Hv]; [lia|]. rewrite Hv. cbn [mbind option_bind].
  destruct (ln_previous s Hs i Hi) as (p & Hp & Hlp & Hgp); [lia|]. rewrite Hp. cbn [mjoin option_join mbind option_bind].
  destruct (ln_next s Hs i Hi) as (q & Hq & Hlq & Hgq); [lia|]. rewrite Hq. cbn [mbind option_bind].
  destruct (triangle_total p i q) as [area Ha]; [by eapply live_lt|done|by eapply live_lt|]. rewrite Ha. cbn [mbind option_bind].
  rewrite set_at_Some by lia. cbn [mbind option_bind]. eexists. split; [done|]. split; [|split; [|split; [done|cbn; lia]]].
  - destruct Hs as [_ He Hke Hne Hpr Hh]. split; try done.
    + cbn. rewrite length_insert. done.
    + cbn. intros e [->|He']%elem_of_cons; [|by apply Hh]. split; [cbn; lia|done].
  - intros j Hj Hfj Hsk. destruct (decide (j = i)) as [->|Hne].
    + exists p, q, (v + 1), area. cbn. split_and!; [done|done|by rewrite list_lookup_insert_eq by lia|done|by left].
    + destruct (Hf j Hj Hfj) as (p' & q' & v' & area' & ? & ? & Hv' & ? & Hin); [naive_solver|]. exists p', q', v', area'. cbn.
      split_and!; [done|done|by rewrite list_lookup_insert_ne|done|by right].
Qed.

(** *** Removing a vertex *)

Definition lives (s : Links) : nat := length (List.filter (fun b => b) (lk_alive s)).
Lemma lives_remove (l : list bool) i : l !! i = Some true -> length (List.filter (fun b => b) l) = S (length (List.filter (fun b => b) (<[i := false]> l))).
Proof.
  revert i. induction l as [|b l IH]; intros [|i] Hi; try done; cbn in *.
  - injection Hi as ->. done.
  - destruct b; cbn; rewrite (IH i Hi); done.
Qed.
(** The links around a removed vertex, before its neighbours get new entries. *)
Lemma unlink_spec s i p q : linked s -> live s i -> free i -> lk_previous s !! i = Some (Some p) -> live s p -> gap s p i ->
  lk_next s !! i = Some q -> live s q -> gap s i q -> fresh s (fun j => j = i) ->
  let s' := {| lk_previous := <[q := Some p]> (lk_previous s); lk_next := <[p := q]> (lk_next s); lk_alive := <[i := false]> (lk_alive s);
               lk_stamp := lk_stamp s; lk_heap := lk_heap s |} in
  linked s' /\ live s' p /\ live s' q /\ fresh s' (fun j => j = p \/ j = q).
Proof.
  intros Hs Hi [Hfi Hki] Hp Hlp Hgp Hq Hlq Hgq Hf s'. destruct Hs as [(Lp & Ln & La & Ls) [He0 He1] Hke Hne Hpr Hh].
  assert (Hiff : forall k, live s' k <-> live s k /\ k <> i).
  { intros k. unfold live, s'. cbn. destruct (decide (k = i)) as [->|Hk].
    - rewrite list_lookup_insert_eq by (eapply lookup_lt_Some; exact Hi). split; [done|]. by intros [_ ?].
    - rewrite list_lookup_insert_ne by done. tauto. }
  assert (Hpi : (p < i)%nat) by apply Hgp. assert (Hiq : (i < q)%nat) by apply Hgq.
  assert (Hgap : forall a b, gap s a b -> gap s' a b) by (intros a b [Hab Hg]; split; [done|]; intros k Hk [Hl _]%Hiff; by apply (Hg k)).
  assert (Hpq : gap s' p q).
  { split; [lia|]. intros k Hk [Hl Hki']%Hiff. destruct (Nat.lt_trichotomy k i) as [H|[H|H]]; [apply (proj2 Hgp k); [lia|done]|done|apply (proj2 Hgq k); [lia|done]]. }
  assert (Hqn : (q < n)%nat) by (rewrite <- La; eapply lookup_lt_Some; exact Hlq).
  assert (Hnext : forall k, live s' k -> (k < n - 1)%nat -> exists j, lk_next s' !! k = Some j /\ live s' j /\ gap s' k j).
  { intros k [Hk Hki']%Hiff Hkn. destruct (decide (k = p)) as [->|Hkp].
    - exists q. cbn. rewrite list_lookup_insert_eq by lia. split; [done|]. split; [apply Hiff; split; [done|lia]|done].
    - destruct (Hne k Hk Hkn) as (j & Hj & Hlj & Hgj). exists j. cbn. rewrite list_lookup_insert_ne by done. split; [done|]. split; [|by apply Hgap].
      apply Hiff. split; [done|]. intros ->. apply Hkp. by apply (gap_unique_left s k p i). }
  assert (Hprev : forall k, live s' k -> (0 < k)%nat -> exists j, lk_previous s' !! k = Some (Some j) /\ live s' j /\ gap s' j k).
  { intros k [Hk Hki']%Hiff Hk0. destruct (decide (k = q)) as [->|Hkq].
    - exists p. cbn. rewrite list_lookup_insert_eq by lia. split; [done|]. split; [apply Hiff; split; [done|lia]|done].
    - destruct (Hpr k Hk Hk0) as (j & Hj & Hlj & Hgj). exists j. cbn. rewrite list_lookup_insert_ne by done. split; [done|]. split; [|by apply Hgap].
      apply Hiff. split; [done|]. intros ->. apply Hkq. destruct Hgj as [Hl1 Hg1], Hgq as [Hl2 Hg2].
      destruct (Nat.lt_trichotomy k q) as [H|[H|H]]; [exfalso; apply (Hg2 k); [lia|done]|done|exfalso; apply (Hg1 q); [lia|done]]. }
  split.
  - split; [cbn; rewrite !length_insert; done|split; apply Hiff; (split; [done|lia])| |done|done|done].
    intros k Hk. apply Hiff. split; [by apply Hke|]. intros ->. congruence.
  - split; [apply Hiff; split; [done|lia]|]. split; [apply Hiff; split; [done|lia]|].
    intros j [Hj Hji]%Hiff Hfj Hsk. destruct (Hf j Hj Hfj Hji) as (p' & q' & v & area & H1 & H2 & H3 & H4 & H5). exists p', q', v, area. cbn.
    rewrite !list_lookup_insert_ne by (intros ->; apply Hsk; auto). done.
Qed.
Lemma remove_vertex_spec s i : linked s -> live s i -> free i -> fresh s (fun j => j = i) ->
  exists s', remove_vertex line keep s i = Some s' /\ linked s' /\ fresh s' (fun _ => False) /\ lives s = S (lives s') /\
    (length (lk_heap s') <= 2 + length (lk_heap s))%nat.
Proof.
  intros Hs Hi Hfi Hf. destruct (ln_lengths s Hs) as (Lp & Ln & La & Ls). pose proof Hfi as [Hin _].
  destruct (ln_previous s Hs i Hi) as (p & Hp & Hlp & Hgp); [lia|]. destruct (ln_next s Hs i Hi) as (q & Hq & Hlq & Hgq); [lia|].
  pose proof (live_lt s p Hs Hlp) as Hpn. pose proof (live_lt s q Hs Hlq) as Hqn.
  destruct (unlink_spec s i p q Hs Hi Hfi Hp Hlp Hgp Hq Hlq Hgq Hf) as (Hs1 & Hp1 & Hq1 & Hf1).
  destruct (refresh_spec _ p _ Hs1 Hp1 Hf1) as (s2 & H2 & Hs2 & Hf2 & Ha2 & Hl2). cbn [lk_alive lk_heap] in Ha2, Hl2.
  assert (Hq2 : live s2 q) by (unfold live in *; rewrite Ha2; exact Hq1).
  destruct (refresh_spec s2 q _ Hs2 Hq2 Hf2) as (s3 & H3 & Hs3 & Hf3 & Ha3 & Hl3).
  exists s3. unfold remove_vertex. rewrite set_at_Some by lia. cbn [mbind option_bind]. rewrite Hp. cbn [mjoin option_join mbind option_bind]. rewrite Hq. cbn [mbind option_bind].
  rewrite !set_at_Some by lia. cbn [mbind option_bind]. rewrite H2. cbn [mbind option_bind]. split; [done|]. split; [done|]. split; [|split; [|lia]].
  - intros j Hj Hfj _. apply Hf3; [done|done|]. naive_solver.
  - unfold lives. rewrite Ha3, Ha2. by apply lives_remove.
Qed.

(** *** The loop *)

Definition settled (s : Links) : Prop := forall i p q area, live s i -> free i -> lk_previous s !! i = Some (Some p) -> lk_next s !! i = Some q ->
  triangle_at line p i q = Some area -> SIMPLIFY_MIN_CROSS <= area.
Lemma simplify_loop_spec fuel s : linked s -> fresh s (fun _ => False) -> (length (lk_heap s) + 3 * lives s <= fuel)%nat ->
  exists s', simplify_loop line keep fuel s = Some s' /\ linked s' /\ settled s'.
Proof.
  assert (Hweaken : forall s heap, linked s -> (forall e, e ∈ heap -> e ∈ lk_heap s) -> linked (with_heap s heap)).
  { intros t heap [? ? ? ? ? Hh] Hsub. split; try done. intros e He. by apply Hh, Hsub. }
  revert s. induction fuel as [|fuel IH]; intros s Hs Hf Hfuel; cbn [simplify_loop]; pose proof (pop_min_spec (lk_heap s)) as Hpop;
    destruct (pop_min (lk_heap s)) as [[[[area i] v] rest]|].
  1: { apply proj1, Permutation_length in Hpop. cbn in Hpop. lia. }
  1,3: exists s; split; [done|]; split; [done|]; intros j p q a Hj Hfj; destruct (Hf j Hj Hfj) as (p' & q' & v' & a' & _ & _ & _ & _ & Hin); [intros []|];
    rewrite Hpop in Hin; by apply elem_of_nil in Hin.
  destruct Hpop as [Hperm Hmin]. pose proof (Permutation_length Hperm) as Hlen. cbn in Hlen.
  assert (Hs1 : linked (with_heap s rest)) by (apply Hweaken; [done|]; intros e He; rewrite Hperm; by right).
  assert (Hfi : free i) by (apply (ln_heap s Hs (area, i, v)); rewrite Hperm; by left). pose proof Hfi as [Hin _].
  destruct (ln_lengths s Hs) as (Lp & Ln & La & Ls). cbn [lk_alive lk_stamp with_heap].
  destruct (lookup_lt_is_Some_2 (lk_alive s) i) as [alive Ha]; [lia|]. destruct (lookup_lt_is_Some_2 (lk_stamp s) i) as [stamp Hv]; [lia|].
  rewrite Ha. cbn [mbind option_bind]. rewrite Hv. cbn [mbind option_bind].
  destruct (negb alive || negb (v =? stamp)) eqn:Hstale.
  { apply IH; [done| |cbn [lk_heap with_heap]; change (lives (with_heap s rest)) with (lives s); lia]. intros j Hj Hfj _. destruct (Hf j Hj Hfj) as (p & q & v' & a' & H1 & H2 & H3 & H4 & H5); [intros []|].
    exists p, q, v', a'. split_and!; try done. cbn. rewrite Hperm in H5. apply elem_of_cons in H5 as [[= -> -> ->]|H5]; [|done]. exfalso.
    unfold live in Hj. cbn in Hj. rewrite Ha in Hj. rewrite Hv in H3. injection Hj as ->. injection H3 as ->. by rewrite Z.eqb_refl in Hstale. }
  apply orb_false_elim in Hstale as [->%negb_false_iff Hv'%negb_false_iff]. apply Z.eqb_eq in Hv' as ->.
  destruct (Z.leb_spec SIMPLIFY_MIN_CROSS area) as [Hbig|Hsmall].
  - exists (with_heap s rest). split; [done|]. split; [done|]. intros j p q a Hj Hfj Hp Hq Hta. destruct (Hf j Hj Hfj) as (p' & q' & v' & a' & H1 & H2 & H3 & H4 & H5); [intros []|].
    cbn in Hp, Hq. rewrite Hp in H1. rewrite Hq in H2. injection H1 as <-. injection H2 as <-. rewrite Hta in H4. injection H4 as <-. apply Hmin in H5. cbn in H5. lia.
  - destruct (remove_vertex_spec (with_heap s rest) i) as (s2 & H2 & Hs2 & Hf2 & Hl2 & Hh2); [done|done|done| |].
    { intros j Hj Hfj Hji. destruct (Hf j Hj Hfj) as (p & q & v' & a' & H1 & H2 & H3 & H4 & H5); [intros []|]. exists p, q, v', a'. split_and!; try done. cbn.
      rewrite Hperm in H5. apply elem_of_cons in H5 as [[= -> -> ->]|H5]; [|done]. done. }
    rewrite H2. cbn [mbind option_bind]. apply IH; [done|done|]. cbn [lk_heap with_heap] in Hh2. change (lives (with_heap s rest)) with (lives s) in Hl2. lia.
Qed.
End Links.

(** ** The live points *)

Lemma collect_fmap {T U} (f : T -> option U) l : (forall t, t ∈ l -> is_Some (f t)) ->
  exists us, collect (f <$> l) = Some us /\ Forall2 (fun t u => f t = Some u) l us.
Proof.
  induction l as [|t l IH]; intros Hf; [by exists []|]. destruct (Hf t ltac:(by left)) as [u Hu]. destruct IH as (us & Hus & Hall); [intros t' Ht'; apply Hf; by right|].
  exists (u :: us). change (f <$> t :: l) with (f t :: (f <$> l)). cbn [collect]. rewrite Hu. cbn [mbind option_bind]. rewrite Hus. split; [done|by constructor].
Qed.

Lemma compact_cons (p : Z * Z) line b alive : compact (p :: line) (b :: alive) = (if b : bool then [p] else []) ++ compact line alive.
Proof. unfold compact. cbn [zip zip_with omap list_omap]. by destruct b. Qed.
Lemma compact_next line alive a rest : compact line alive = a :: rest -> exists i, line !! i = Some a /\ alive !! i = Some true /\
  (forall k, (k < i)%nat -> alive !! k <> Some true) /\ compact (drop (S i) line) (drop (S i) alive) = rest.
Proof.
  revert alive. induction line as [|p line IH]; intros [|b alive] Hc; try done. rewrite compact_cons in Hc. destruct b.
  - injection Hc as -> <-. exists 0%nat. split_and!; try done. intros k Hk. lia.
  - destruct (IH alive Hc) as (i & H1 & H2 & H3 & H4). exists (S i). split_and!; try done. intros [|k] Hk; [done|]. apply H3. lia.
Qed.
Lemma compact_from line alive pre l : compact line alive = pre ++ l -> exists i, compact (drop i line) (drop i alive) = l.
Proof.
  revert line alive. induction pre as [|a pre IH]; intros line alive Hc; [exists 0%nat; exact Hc|].
  destruct (compact_next _ _ _ _ Hc) as (i & _ & _ & _ & Hd). destruct (IH _ _ Hd) as [j Hj]. exists (S i + j)%nat. by rewrite <- !drop_drop.
Qed.
Lemma compact_triple line alive pre a b c post : compact line alive = pre ++ a :: b :: c :: post ->
  exists i j k, line !! i = Some a /\ line !! j = Some b /\ line !! k = Some c /\ alive !! i = Some true /\ alive !! j = Some true /\ alive !! k = Some true /\
    (i < j < k)%nat /\ forall m, (i < m < k)%nat -> m <> j -> alive !! m <> Some true.
Proof.
  intros Hc. destruct (compact_from _ _ _ _ Hc) as [o H0]. destruct (compact_next _ _ _ _ H0) as (i & Hi & Hia & _ & H1). rewrite !drop_drop in H1.
  destruct (compact_next _ _ _ _ H1) as (j & Hj & Hja & Hjn & H2). rewrite !drop_drop in H2. destruct (compact_next _ _ _ _ H2) as (k & Hk & Hka & Hkn & _).
  rewrite lookup_drop in Hi; rewrite lookup_drop in Hia; rewrite lookup_drop in Hj; rewrite lookup_drop in Hja; rewrite lookup_drop in Hk; rewrite lookup_drop in Hka.
  exists (o + i)%nat, (o + S i + j)%nat, (o + S i + S j + k)%nat. split_and!; try done; [lia|lia|].
  intros m Hm Hmj Hlive. destruct (decide (m < o + S i + j)%nat).
  - apply (Hjn (m - (o + S i))%nat); [lia|]. rewrite lookup_drop. by replace (o + S i + (m - (o + S i)))%nat with m by lia.
  - apply (Hkn (m - (o + S i + S j))%nat); [lia|]. rewrite lookup_drop. by replace (o + S i + S j + (m - (o + S i + S j)))%nat with m by lia.
Qed.
Lemma compact_sublist line alive : compact line alive `sublist_of` line.
Proof.
  revert alive. induction line as [|p line IH]; intros [|b alive]. 1-3: unfold compact; cbn; apply sublist_nil_l.
  rewrite compact_cons. destruct b; cbn [app]; [apply sublist_skip|apply sublist_cons]; apply IH.
Qed.
Lemma compact_filter (f : Z * Z -> bool) line alive : length alive = length line ->
  (forall i p, line !! i = Some p -> f p = true -> alive !! i = Some true) -> List.filter f (compact line alive) = List.filter f line.
Proof.
  revert alive. induction line as [|p line IH]; intros [|b alive] Hlen Hf; try done. rewrite compact_cons, List.filter_app. cbn [List.filter].
  rewrite IH; [|cbn in Hlen; lia|intros i; apply (Hf (S i))]. destruct b; cbn; [by destruct (f p)|]. destruct (f p) eqn:E; [|done]. by specialize (Hf 0%nat p eq_refl E).
Qed.
Lemma compact_head p line alive : alive !! 0%nat = Some true -> head (compact (p :: line) alive) = Some p.
Proof. destruct alive as [|b alive]; [done|]. intros [= ->]. done. Qed.
Lemma compact_last line alive : length alive = length line -> alive !! (length line - 1)%nat = Some true -> last (compact line alive) = last line.
Proof.
  revert alive. induction line as [|p line IH]; intros [|b alive] Hlen Hl; try done. destruct line as [|q line].
  - destruct alive; [|done]. cbn in Hl. injection Hl as ->. done.
  - rewrite compact_cons, last_app, (IH alive); [|cbn in *; lia|cbn [length] in Hl |- *; replace (S (length line) - 1)%nat with (length line) by lia; by replace (S (S (length line)) - 1)%nat with (S (length line)) in Hl by lia]. destruct (last (q :: line)) eqn:E; [|by apply last_None in E].
    change (last (p :: q :: line)) with (last (q :: line)). done.
Qed.

(** ** The simplified line *)

(** The points of [line] without some that are neither ends nor pinned, in which no other point has a small triangle. *)
Record simplified (pinned : Z * Z -> bool) (line result : list (Z * Z)) : Prop := {
  sm_part : result `sublist_of` line;
  sm_ends : head result = head line /\ last result = last line;
  sm_pinned : List.filter pinned result = List.filter pinned line;
  sm_area pre a b c post : result = pre ++ a :: b :: c :: post -> pinned b = false -> SIMPLIFY_MIN_CROSS <= cross a b c }.

Lemma Links_new_spec line keep : (3 <= length line)%nat -> length keep = length line ->
  exists s, Links_new line keep = Some s /\ linked line keep s /\ fresh line keep s (fun _ => False) /\
    (length (lk_heap s) + 3 * lives s <= 4 * length line)%nat.
Proof.
  intros Hn Hk. unfold Links_new. set (candidates := List.filter (fun index => negb (default false (keep !! index))) (seq 1 (length line - 2))).
  assert (Hcand : forall i, i ∈ candidates -> free line keep i).
  { intros i Hi. apply list_elem_of_In, filter_In in Hi as [Hi%in_seq Hki]. destruct (lookup_lt_is_Some_2 keep i) as [b Hb]; [lia|]. rewrite Hb in Hki. split; [lia|]. by destruct b. }
  destruct (collect_fmap (initial_entry line) candidates) as (heap & -> & Hheap).
  { intros i [Hi _]%Hcand. unfold initial_entry. destruct (triangle_total line (i - 1) i (i + 1)) as [area ->]; [lia|lia|lia|]. by eexists. }
  cbn [mbind option_bind]. eexists. split; [done|].
  assert (Hlive : forall i, replicate (length line) true !! i = Some true <-> (i < length line)%nat).
  { intros i. split; [by intros [_ ?]%lookup_replicate|]. intros Hi. by apply lookup_replicate_2. }
  assert (Hprev : forall i, (S i < length line)%nat -> ((fun i => match i with O => None | S i => Some i end) <$> seq 0 (length line)) !! S i = Some (Some i)).
  { intros i Hi. rewrite list_lookup_fmap, lookup_seq_lt by lia. done. }
  assert (Hnext : forall i, (i < length line)%nat -> seq 1 (length line) !! i = Some (S i)) by (intros i Hi; by rewrite lookup_seq_lt).
  split; [|split].
  - split; unfold live, gap; cbn.
    + by rewrite length_fmap, !length_seq, !length_replicate.
    + split; apply Hlive; lia.
    + intros i Hi. apply Hlive. rewrite <- Hk. by eapply lookup_lt_Some.
    + intros i _ Hi. exists (S i). split; [apply Hnext; lia|]. split; [apply Hlive; lia|]. split; [lia|]. intros k ?. lia.
    + intros [|j] Hj Hj0; [lia|]. apply Hlive in Hj. exists j. split; [by apply Hprev|]. split; [apply Hlive; lia|]. split; [lia|]. intros k ?. lia.
    + intros e He. apply list_elem_of_lookup in He as [m Hm]. destruct (Forall2_lookup_r _ _ _ _ _ Hheap Hm) as (i & Hi & Hie).
      unfold initial_entry in Hie. destruct (triangle_at _ _ _ _); [|done]. injection Hie as <-. apply Hcand. apply list_elem_of_lookup. by eauto.
  - intros i Hi [Hf Hki] _. assert (Hin : i ∈ candidates).
    { apply list_elem_of_In, filter_In. split; [apply in_seq; lia|]. by rewrite Hki. }
    apply list_elem_of_lookup in Hin as [m Hm]. destruct (Forall2_lookup_l _ _ _ _ _ Hheap Hm) as (e & He & Hie).
    unfold initial_entry in Hie. destruct (triangle_at line (i - 1) i (i + 1)) as [area|] eqn:Ha; [|done]. injection Hie as <-.
    exists (i - 1)%nat, (i + 1)%nat, 0, area. cbn. split_and!; [| | |done|apply list_elem_of_lookup; by eauto].
    + destruct i as [|i]; [lia|]. rewrite Hprev by lia. do 2 f_equal. lia.
    + rewrite Hnext by lia. f_equal. lia.
    + apply lookup_replicate_2. lia.
  - cbn [lk_heap]. unfold lives. cbn [lk_alive]. rewrite <- (Forall2_length _ _ _ Hheap).
    assert (Hlen : (length candidates <= length line - 2)%nat) by (unfold candidates; etrans; [apply filter_length_le|by rewrite length_seq]).
    assert (Hall : forall m, length (List.filter (fun b => b) (replicate m true)) = m) by (induction m; cbn; lia). rewrite Hall. lia.
Qed.

Lemma simplify_line_spec line pinned : exists result, simplify_line line pinned = Some result /\ simplified pinned line result.
Proof.
  unfold simplify_line. destruct (Nat.leb_spec (length line) 2) as [Hshort|Hlong].
  { exists line. split; [done|]. split; try done. intros pre a b c post ->. rewrite length_app in Hshort. cbn in Hshort. lia. }
  set (keep := pinned <$> line). assert (Hk : length keep = length line) by apply length_fmap.
  destruct (Links_new_spec line keep) as (s & -> & Hs & Hf & Hfuel); [lia|done|]. cbn [mbind option_bind].
  destruct (simplify_loop_spec line keep ltac:(lia) Hk (4 * length line) s Hs Hf Hfuel) as (s' & -> & Hs' & Hset). cbn [mbind option_bind]. eexists. split; [done|].
  destruct Hs' as [(Lp & Ln & La & Ls) [He0 He1] Hke Hne Hpr Hh]. split.
  - apply compact_sublist.
  - split; [|by apply compact_last]. destruct line as [|p line]; [cbn in Hlong; lia|]. by apply compact_head.
  - apply compact_filter; [done|]. intros i p Hi Hp. apply Hke. unfold keep. by rewrite list_lookup_fmap, Hi, <- Hp.
  - intros pre a b c post Hr Hb. destruct (compact_triple _ _ _ _ _ _ _ Hr) as (i & j & k & Hi & Hj & Hk' & Hia & Hja & Hka & Hlt & Hnone).
    assert (Hkn : (k < length line)%nat) by (by eapply lookup_lt_Some).
    destruct (Hpr j Hja) as (p & Hp & Hlp & Hpg); [lia|]. destruct (Hne j Hja) as (q & Hq & Hlq & Hqg); [lia|].
    assert (p = i) as ->.
    { destruct (Nat.lt_trichotomy p i) as [H|[H|H]]; [|done|]; exfalso; [apply (proj2 Hpg i); [lia|done]|apply (Hnone p); [destruct Hpg; lia|destruct Hpg; lia|done]]. }
    assert (q = k) as ->.
    { destruct (Nat.lt_trichotomy q k) as [H|[H|H]]; [|done|]; exfalso; [apply (Hnone q); [destruct Hqg; lia|destruct Hqg; lia|done]|apply (proj2 Hqg k); [lia|done]]. }
    apply (Hset j i k); [done| |done|done|unfold triangle_at; by rewrite Hi, Hj, Hk'].
    split; [lia|]. unfold keep. by rewrite list_lookup_fmap, Hj, <- Hb.
Qed.
