(* ===== verification/ContourTiles.v ===== *)
(** * Contour tiles

    Composes the reads of Dem with the lines of ContourLines and their simplification:
    the features of a contour tile, and the agreement of the elevation grids of adjacent
    tiles. *)

From stdpp Require Import sorting.
From Stdlib Require Import Floats.SpecFloat.
From S2P Require Import Prelude StdModel FloatMath Topology Dem Contours ContourLines ContourSimplify.
#[local] Open Scope Z_scope.

(** ** The smoothed grid *)

Section Pass.
Context (values : list F32) (stride : Z) (Hstride : 0 < stride) (Hlen : length values = Z.to_nat (stride * stride)).
Definition at_cell (column row : Z) : F32 := default f_nan (values !! Z.to_nat (row * stride + column)).

Lemma at_cell_lookup column row : 0 <= column < stride -> 0 <= row < stride -> values !! Z.to_nat (row * stride + column) = Some (at_cell column row).
Proof. intros Hc Hr. unfold at_cell. destruct (lookup_lt_is_Some_2 values (Z.to_nat (row * stride + column))) as [v ->]; [rewrite Hlen; nia|done]. Qed.
(** The mean of three samples with the weights of the filter. *)
Definition weigh (acc : F32 * F32) (tap : F32 * F32) : F32 * F32 :=
  if is_finite tap.1 then (f32_add acc.1 (f32_mul tap.1 tap.2), f32_add acc.2 tap.2) else acc.
Definition combine3 (a b c : F32) : F32 :=
  let '(sum, weight) := foldl weigh (f64_zero, f64_zero) [(a, f32_of_int 1); (b, f32_of_int 2); (c, f32_of_int 1)] in
  if f_eq weight f64_zero then f_nan else f32_div sum weight.

Lemma add_tap_inside step index lane acc offset w v : 0 <= lane + offset < stride -> values !! Z.to_nat (index + offset * step) = Some v ->
  add_tap values stride step index lane acc (offset, w) = Some (weigh acc (v, w)).
Proof.
  intros Hl Hv. unfold add_tap. destruct acc as [sum weight]. rewrite (proj2 (Z.ltb_ge _ _)), (proj2 (Z.leb_gt _ _)) by lia. cbn [orb]. rewrite Hv. cbn [mbind option_bind].
  unfold weigh. cbn. by destruct (is_finite v).
Qed.
Lemma add_tap_total step index lane acc offset w : (0 <= lane + offset < stride -> exists v, values !! Z.to_nat (index + offset * step) = Some v) ->
  exists acc', add_tap values stride step index lane acc (offset, w) = Some acc'.
Proof.
  intros Hv. destruct (decide (0 <= lane + offset < stride)) as [Hin|Hout].
  - destruct (Hv Hin) as [v Hv']. rewrite (add_tap_inside _ _ _ _ _ _ v) by done. by eexists.
  - unfold add_tap. destruct acc as [sum weight]. destruct (Z.ltb_spec (lane + offset) 0), (Z.leb_spec stride (lane + offset)); cbn [orb]; [by eexists..|exfalso; lia].
Qed.
Lemma index_split column row : 0 <= column < stride -> 0 <= row -> (row * stride + column) mod stride = column /\ (row * stride + column) / stride = row.
Proof.
  intros Hc Hr. replace (row * stride + column) with (column + row * stride) by lia. rewrite Z.mod_add, Z.div_add, Z.mod_small, Z.div_small by lia. lia.
Qed.
(** The step of a pass, its lane and the sample at an offset. *)
Definition pass_step (rows : bool) : Z := if rows then 1 else stride.
Lemma pass_taps rows column row offset : 0 <= column < stride -> 0 <= row < stride ->
  0 <= (if rows : bool then column else row) + offset < stride ->
  values !! Z.to_nat (row * stride + column + offset * pass_step rows) = Some (if rows then at_cell (column + offset) row else at_cell column (row + offset)).
Proof.
  intros Hc Hr Ho. unfold pass_step. destruct rows.
  - replace (row * stride + column + offset * 1) with (row * stride + (column + offset)) by lia. by apply at_cell_lookup.
  - replace (row * stride + column + offset * stride) with ((row + offset) * stride + column) by lia. by apply at_cell_lookup.
Qed.
Lemma pass_lane rows column row : 1 < stride -> 0 <= column < stride -> 0 <= row < stride ->
  (if pass_step rows =? 1 then (row * stride + column) mod stride else (row * stride + column) / stride) = if rows then column else row.
Proof.
  intros Hs Hc Hr. destruct (index_split column row Hc ltac:(lia)) as [Em Ed]. unfold pass_step. destruct rows; [by rewrite Z.eqb_refl|]. by rewrite (proj2 (Z.eqb_neq _ _)) by lia.
Qed.
Lemma binomial_total rows column row : 1 < stride -> 0 <= column < stride -> 0 <= row < stride ->
  exists v, binomial_value values stride (pass_step rows) (row * stride + column) = Some v.
Proof.
  intros Hs Hc Hr. unfold binomial_value. rewrite pass_lane by done. set (lane := if rows then column else row).
  assert (Htap : forall offset, 0 <= lane + offset < stride -> exists v, values !! Z.to_nat (row * stride + column + offset * pass_step rows) = Some v).
  { intros offset Ho. rewrite (pass_taps rows column row offset Hc Hr); [by eexists|]. exact Ho. }
  unfold taps. cbn [for_each]. destruct (add_tap_total _ _ lane (f64_zero, f64_zero) (-1) (f32_of_int 1) (Htap (-1))) as [a1 ->]. cbn [mbind option_bind].
  destruct (add_tap_total _ _ lane a1 0 (f32_of_int 2) (Htap 0)) as [a2 ->]. cbn [mbind option_bind].
  destruct (add_tap_total _ _ lane a2 1 (f32_of_int 1) (Htap 1)) as [[sum weight] ->]. by eexists.
Qed.
Lemma binomial_inside rows column row : 1 < stride -> 0 <= column < stride -> 0 <= row < stride ->
  1 <= (if rows : bool then column else row) < stride - 1 ->
  binomial_value values stride (pass_step rows) (row * stride + column) = Some
    (if rows then combine3 (at_cell (column - 1) row) (at_cell column row) (at_cell (column + 1) row)
     else combine3 (at_cell column (row - 1)) (at_cell column row) (at_cell column (row + 1))).
Proof.
  intros Hs Hc Hr Hin. unfold binomial_value. rewrite pass_lane by done. unfold taps. cbn [for_each].
  rewrite (add_tap_inside _ _ _ _ (-1) _ (if rows then at_cell (column - 1) row else at_cell column (row - 1))); [|lia|].
  2: { rewrite (pass_taps rows column row (-1) Hc Hr) by lia. destruct rows; do 2 f_equal; lia. }
  cbn [mbind option_bind]. rewrite (add_tap_inside _ _ _ _ 0 _ (at_cell column row)); [|lia|].
  2: { rewrite (pass_taps rows column row 0 Hc Hr) by lia. destruct rows; do 2 f_equal; lia. }
  cbn [mbind option_bind]. rewrite (add_tap_inside _ _ _ _ 1 _ (if rows then at_cell (column + 1) row else at_cell column (row + 1))); [|lia|].
  2: { rewrite (pass_taps rows column row 1 Hc Hr) by lia. by destruct rows. }
  cbn [mbind option_bind]. unfold combine3. cbn [foldl]. destruct rows; by destruct (weigh _ _).
Qed.

Lemma index_cell i : (i < length values)%nat -> exists column row, Z.of_nat i = row * stride + column /\ 0 <= column < stride /\ 0 <= row < stride.
Proof.
  intros Hi. exists (Z.of_nat i mod stride), (Z.of_nat i / stride). pose proof (Z.div_mod (Z.of_nat i) stride ltac:(lia)). pose proof (Z.mod_pos_bound (Z.of_nat i) stride Hstride).
  rewrite Hlen in Hi. assert (Z.of_nat i < stride * stride) by lia. split; [lia|]. split; [lia|]. split; [apply Z.div_pos; lia|apply Z.div_lt_upper_bound; lia].
Qed.
Lemma binomial_pass_spec rows : 1 < stride -> exists values', binomial_pass values stride (pass_step rows) = Some values' /\ length values' = length values /\
  forall column row, 0 <= column < stride -> 0 <= row < stride ->
    binomial_value values stride (pass_step rows) (row * stride + column) = values' !! Z.to_nat (row * stride + column).
Proof.
  intros Hs. unfold binomial_pass. destruct (collect_fmap (fun i => binomial_value values stride (pass_step rows) (Z.of_nat i)) (seq 0 (length values))) as (us & -> & Hall).
  { intros i Hi%elem_of_seq. destruct (index_cell i) as (column & row & -> & Hc & Hr); [lia|]. by apply binomial_total. }
  exists us. split; [done|]. pose proof (Forall2_length _ _ _ Hall) as Hl. rewrite length_seq in Hl. split; [done|]. intros column row Hc Hr.
  assert (Hi : (Z.to_nat (row * stride + column) < length values)%nat) by (rewrite Hlen; nia).
  destruct (Forall2_lookup_l _ _ _ (Z.to_nat (row * stride + column)) _ Hall (lookup_seq_lt 0 _ _ Hi)) as (v & Hv & Hb). rewrite Hv, <- Hb. f_equal. lia.
Qed.
End Pass.

(** What the smoothed grid holds at a point. *)
Definition raw_at (n : DemNeighborhood) (x y : Z) : F32 := default f_nan (grid_elevation n x y).
Definition row_at (n : DemNeighborhood) (x y : Z) : F32 := combine3 (raw_at n (x - 1) y) (raw_at n x y) (raw_at n (x + 1) y).
Definition smooth_at (n : DemNeighborhood) (x y : Z) : F32 := combine3 (row_at n x (y - 1)) (row_at n x y) (row_at n x (y + 1)).

Lemma smoothed_spec n : neighborhood_wf n -> exists grid, smoothed n = Some grid /\ grid_wf grid /\ gr_tile grid = Z.of_nat (dn_width n) /\
  forall x y, -1 <= x <= gr_tile grid + 1 -> -1 <= y <= gr_tile grid + 1 -> gr_get grid x y = Some (smooth_at n x y).
Proof.
  intros Hn. destruct (nw_size n Hn) as [Hw _]. unfold smoothed. set (tile := Z.of_nat (dn_width n)). set (stride := tile + 5).
  destruct (collect_fmap (fun i => raw_elevation n stride (Z.of_nat i)) (seq 0 (Z.to_nat (stride * stride)))) as (raw & -> & Hraw).
  { intros i _. destruct (grid_elevation_total n (Z.of_nat i mod stride - 2) (Z.of_nat i / stride - 2) Hn) as [v Hv]. exists v. exact Hv. }
  cbn [mbind option_bind]. pose proof (Forall2_length _ _ _ Hraw) as Hlr. rewrite length_seq in Hlr.
  assert (Hraw_at : forall column row, 0 <= column < stride -> 0 <= row < stride -> at_cell raw stride column row = raw_at n (column - 2) (row - 2)).
  { intros column row Hc Hr. assert (Hi : (Z.to_nat (row * stride + column) < Z.to_nat (stride * stride))%nat) by nia.
    destruct (Forall2_lookup_l _ _ _ (Z.to_nat (row * stride + column)) _ Hraw (lookup_seq_lt 0 _ _ Hi)) as (v & Hv & Hb).
    unfold at_cell, raw_at. rewrite Hv. unfold raw_elevation in Hb. rewrite Nat.add_0_l, Z2Nat.id in Hb by nia.
    destruct (index_split raw stride ltac:(lia) (eq_sym Hlr) column row Hc ltac:(lia)) as [Em Ed]. rewrite Em, Ed in Hb. by rewrite Hb. }
  destruct (binomial_pass_spec raw stride ltac:(lia) (eq_sym Hlr) true ltac:(lia)) as (rows & Hrows & Hlrows & Hrow). change (pass_step stride true) with 1 in Hrows. rewrite Hrows. cbn [mbind option_bind].
  assert (Hlen : length rows = Z.to_nat (stride * stride)) by congruence.
  destruct (binomial_pass_spec rows stride ltac:(lia) Hlen false ltac:(lia)) as (vals & Hvals & Hlvals & Hval). change (pass_step stride false) with stride in Hvals. rewrite Hvals. cbn [mbind option_bind].
  assert (Hrow_at : forall column row, 1 <= column < stride - 1 -> 0 <= row < stride -> at_cell rows stride column row = row_at n (column - 2) (row - 2)).
  { intros column row Hc Hr. unfold at_cell. rewrite <- Hrow by lia. rewrite (binomial_inside raw stride ltac:(lia) (eq_sym Hlr) true) by lia. cbn [default from_option].
    rewrite !Hraw_at by lia. unfold row_at.
    by replace (column - 1 - 2) with (column - 2 - 1) by lia; replace (column + 1 - 2) with (column - 2 + 1) by lia. }
  eexists. split; [done|]. split; [split; cbn; [lia|split; [done|congruence]]|]. split; [done|]. cbn [gr_tile]. intros x y Hx Hy. unfold gr_get. cbn [gr_values gr_stride].
  replace ((y + 2) * stride + x + 2) with ((y + 2) * stride + (x + 2)) by lia. rewrite <- Hval by lia.
  rewrite (binomial_inside rows stride ltac:(lia) Hlen false) by lia. rewrite !Hrow_at by lia. unfold smooth_at.
  by replace (x + 2 - 2) with x by lia; replace (y + 2 - 1 - 2) with (y - 1) by lia; replace (y + 2 - 2) with y by lia; replace (y + 2 + 1 - 2) with (y + 1) by lia.
Qed.

(** ** Seams *)

(** Over one mosaic, the grids of two tiles hold the same elevation wherever both reach, so that the contours they trace meet
    at their common edge. *)
Theorem contour_seams (mosaic : Z -> Z -> DemTile) (size : nat) (column row dx dy x y : Z) :
  (3 <= size)%nat -> (forall c r, dt_width (mosaic c r) = size /\ dt_height (mosaic c r) = size /\ tile_wf (mosaic c r)) ->
  let s := Z.of_nat size in
  -1 <= x <= s + 1 -> -1 <= y <= s + 1 -> -1 <= x - dx * s <= s + 1 -> -1 <= y - dy * s <= s + 1 ->
  exists grid grid' v, smoothed (mosaic_at mosaic size column row) = Some grid /\
    smoothed (mosaic_at mosaic size (column + dx) (row + dy)) = Some grid' /\
    gr_get grid x y = Some v /\ gr_get grid' (x - dx * s) (y - dy * s) = Some v.
Proof.
  intros Hsize Hm s Hx Hy Hx' Hy'.
  assert (Hwf : forall c r, neighborhood_wf (mosaic_at mosaic size c r)).
  { intros c r. eapply from_tiles_wf; [| |apply (mosaic_from_tiles mosaic size Hsize Hm)]; [done|]. intros tile Hin. cbn in Hin.
    repeat (apply elem_of_cons in Hin as [[= ->]|Hin]; [apply Hm|]). by apply elem_of_nil in Hin. }
  destruct (smoothed_spec _ (Hwf column row)) as (g & Hg & _ & Ht & Hget). destruct (smoothed_spec _ (Hwf (column + dx) (row + dy))) as (g' & Hg' & _ & Ht' & Hget').
  cbn [dn_width mosaic_at] in Ht, Ht'. exists g, g', (smooth_at (mosaic_at mosaic size column row) x y). split; [done|]. split; [done|]. split; [apply Hget; lia|].
  rewrite Hget' by lia. f_equal.
  assert (Hraw : forall a b, -2 <= a <= s + 2 -> -2 <= b <= s + 2 -> -2 <= a - dx * s <= s + 2 -> -2 <= b - dy * s <= s + 2 ->
    raw_at (mosaic_at mosaic size (column + dx) (row + dy)) (a - dx * s) (b - dy * s) = raw_at (mosaic_at mosaic size column row) a b).
  { intros a b Ha Hb Ha' Hb'. unfold raw_at, grid_elevation. rewrite !(mosaic_get mosaic size Hsize) by (fold s; lia). fold s.
    assert (E : forall c d z, (c + d) * s + (z - d * s) = c * s + z) by (intros; lia). assert (E1 : forall c d z, (c + d) * s + (z - d * s - 1) = c * s + (z - 1)) by (intros; lia).
    by rewrite !E, !E1. }
  assert (Hrow : forall a b, -1 <= a <= s + 1 -> -2 <= b <= s + 2 -> -1 <= a - dx * s <= s + 1 -> -2 <= b - dy * s <= s + 2 ->
    row_at (mosaic_at mosaic size (column + dx) (row + dy)) (a - dx * s) (b - dy * s) = row_at (mosaic_at mosaic size column row) a b).
  { intros a b Ha Hb Ha' Hb'. unfold row_at. rewrite <- (Hraw (a - 1) b), <- (Hraw a b), <- (Hraw (a + 1) b) by lia.
    by replace (a - dx * s - 1) with (a - 1 - dx * s) by lia; replace (a - dx * s + 1) with (a + 1 - dx * s) by lia. }
  unfold smooth_at. rewrite <- (Hrow x (y - 1)), <- (Hrow x y), <- (Hrow x (y + 1)) by lia.
  by replace (y - dy * s - 1) with (y - 1 - dy * s) by lia; replace (y - dy * s + 1) with (y + 1 - dy * s) by lia.
Qed.

(** ** Features *)

Section Features.
Context (extent pin_margin : Z) (levels : Z * Z).

(** [results] are the lines of a level after simplification. *)
Definition simplified_lines (lines results : list (list (Z * Z))) : Prop :=
  Forall2 (fun line result => simplified (near_edge extent pin_margin) (dedup line) result) lines results.
Definition long_lines (lines : list (list (Z * Z))) : list (list (Z * Z)) := List.filter (fun line => Nat.leb 2 (length line)) lines.
(** The feature of a level, if any line of it is left. *)
Definition feature_of (level : Z) (lines : list (list (Z * Z))) : option ContourFeature :=
  match lines with [] => None | _ => Some {| cf_ele := level; cf_level := level_index levels level; cf_lines := lines |} end.

Lemma contour_feature_spec level lines :
  exists results, contour_feature extent pin_margin levels (level, lines) = Some (feature_of level (long_lines results)) /\ simplified_lines lines results.
Proof.
  unfold contour_feature. cbn [fst snd]. destruct (collect_fmap (contour_line extent pin_margin) lines) as (results & Hres & Hall).
  { intros line _. destruct (simplify_line_spec (dedup line) (near_edge extent pin_margin)) as (r & Hr & _). exists r. exact Hr. }
  exists results. rewrite Hres. cbn [mbind option_bind]. split; [done|]. eapply Forall2_impl; [exact Hall|]. intros line result Hr.
  destruct (simplify_line_spec (dedup line) (near_edge extent pin_margin)) as (r & Hr' & Hs). unfold contour_line in Hr. congruence.
Qed.

(** The features of a layer are those of the levels of [isolines]. *)
Record layer_of (isolines : gmap Z (list (list (Z * Z)))) (features : list ContourFeature) : Prop := {
  la_levels : NoDup (cf_ele <$> features);
  la_feature level lines : isolines !! level = Some lines -> exists results, simplified_lines lines results /\
    forall f, f ∈ features /\ cf_ele f = level <-> feature_of level (long_lines results) = Some f;
  la_source f : f ∈ features -> is_Some (isolines !! cf_ele f) }.

Lemma layer_features_spec isolines : exists features, layer_features extent pin_margin levels isolines = Some features /\ layer_of isolines features.
Proof.
  unfold layer_features. assert (Hperm : in_order isolines ≡ₚ map_to_list isolines) by apply merge_sort_Permutation.
  destruct (collect_fmap (contour_feature extent pin_margin levels) (in_order isolines)) as (fs & -> & Hall).
  { intros [level lines] _. destruct (contour_feature_spec level lines) as (r & Hr & _). by eexists. }
  eexists. split; [done|].
  assert (Hele : forall level lines f, contour_feature extent pin_margin levels (level, lines) = Some (Some f) -> cf_ele f = level).
  { intros level lines f Hf. destruct (contour_feature_spec level lines) as (r & Hr & _). rewrite Hf in Hr. injection Hr as Hr. unfold feature_of in Hr. destruct (long_lines r); [done|]. by injection Hr as ->. }
  assert (Hin : forall f, f ∈ omap (fun feature => feature) fs <-> exists level lines, isolines !! level = Some lines /\ contour_feature extent pin_margin levels (level, lines) = Some (Some f)).
  { intros f. rewrite list_elem_of_omap. split.
    - intros (o & Ho & ->). apply list_elem_of_lookup in Ho as [i Hi]. destruct (Forall2_lookup_r _ _ _ _ _ Hall Hi) as ([level lines] & He & Hf).
      exists level, lines. split; [|done]. apply elem_of_map_to_list. rewrite <- Hperm. apply list_elem_of_lookup. by eauto.
    - intros (level & lines & Hl & Hf). apply elem_of_map_to_list in Hl. rewrite <- Hperm in Hl. apply list_elem_of_lookup in Hl as [i Hi].
      destruct (Forall2_lookup_l _ _ _ _ _ Hall Hi) as (o & Ho & Hf'). rewrite Hf in Hf'. injection Hf' as <-. exists (Some f). split; [|done]. apply list_elem_of_lookup. by eauto. }
  split.
  - assert (Hnd : NoDup (in_order isolines).*1) by (rewrite Hperm; apply NoDup_fst_map_to_list). clear -Hall Hnd Hele.
    induction Hall as [|[level lines] o es fs Hf Hall IH]; [constructor|]. cbn [fmap list_fmap fst] in Hnd. apply NoDup_cons in Hnd as [Hn Hnd].
    destruct o as [f|]; cbn [omap list_omap]; [|by apply IH]. cbn [fmap list_fmap]. constructor; [|by apply IH]. intros (f' & He & Hf')%list_elem_of_fmap. apply Hn.
    apply list_elem_of_omap in Hf' as (o & Ho & ->). apply list_elem_of_lookup in Ho as [i Hi]. destruct (Forall2_lookup_r _ _ _ _ _ Hall Hi) as ([l2 lines2] & He2 & Hf2).
    rewrite (Hele _ _ _ Hf), (Hele _ _ _ Hf2) in He. subst l2. apply list_elem_of_fmap. exists (level, lines2). split; [done|]. apply list_elem_of_lookup. by eauto.
  - intros level lines Hl. destruct (contour_feature_spec level lines) as (results & Hr & Hs). exists results. split; [done|]. intros f. rewrite Hin. split.
    + intros [(level' & lines' & Hl' & Hf) He]. rewrite (Hele _ _ _ Hf) in He. subst level'. rewrite Hl in Hl'. injection Hl' as <-. rewrite Hr in Hf. by injection Hf.
    + intros Hf. rewrite Hf in Hr. split; [by exists level, lines|]. by apply (Hele _ _ _ Hr).
  - intros f (level & lines & Hl & Hf)%Hin. rewrite (Hele _ _ _ Hf). by eexists.
Qed.
End Features.

Lemma levels_positive zoom : 0 < (levels_for_zoom zoom).1.
Proof. unfold levels_for_zoom. repeat case_match; done. Qed.

(** [C32] Contours of a neighbourhood of decoded tiles: the tile is made without panic. At every level the traced lines are
    chains over the segments of the cells that use each segment once and are closed or cannot be continued at either end;
    their points are where the level crosses the edges of the grid. The features are one per level that has a line left,
    and hold its lines simplified: the ends and the points near the edge of the tile are kept, and no other point is left
    whose triangle is below the threshold. *)
Theorem contours_exact (tiles : list (option DemTile)) (n : DemNeighborhood) (extent zoom : Z) :
  length tiles = 9%nat -> (forall tile, Some tile ∈ tiles -> tile_wf tile) -> from_tiles tiles = inr n ->
  let levels := levels_for_zoom zoom in
  exists grid isolines features,
    smoothed n = Some grid /\ marching_squares extent grid levels.1 = Some isolines /\ contour_layer extent n zoom = Some features /\
    (forall level, level_lines extent grid levels.1 level (default [] (isolines !! level))) /\
    layer_of extent (extent / Z.of_nat (dn_width n)) levels isolines features.
Proof.
  intros Hlen Htiles Hfrom levels. destruct (smoothed_spec n (from_tiles_wf _ _ Hlen Htiles Hfrom)) as (grid & Hg & Hwf & _).
  destruct (marching_squares_spec extent grid levels.1 (levels_positive zoom) Hwf) as (isolines & Hm & Hlines).
  destruct (layer_features_spec extent (extent / Z.of_nat (dn_width n)) levels isolines) as (features & Hf & Hlayer).
  exists grid, isolines, features. split; [done|]. split; [done|]. split; [|done].
  unfold contour_layer. rewrite Hg. cbn [mbind option_bind]. fold levels. rewrite Hm. cbn [mbind option_bind]. exact Hf.
Qed.

Module DemoContours.
(** A slope of 10 m per pixel that falls back at every seam. *)
Definition slope : DemTile :=
  {| dt_width := 4; dt_height := 4; dt_elevations := (fun i => f32_of_int (Z.of_nat (i mod 4) * 10)) <$> seq 0 16 |}.
Definition tiles : list (option DemTile) := replicate 9 (Some slope).
Definition neighborhood : DemNeighborhood := {| dn_tiles := tiles; dn_width := 4; dn_height := 4 |}.

Lemma contours_exact_witness : exists grid isolines features,
    smoothed neighborhood = Some grid /\ marching_squares 4096 grid (levels_for_zoom 14).1 = Some isolines /\ contour_layer 4096 neighborhood 14 = Some features /\
    (forall level, level_lines 4096 grid (levels_for_zoom 14).1 level (default [] (isolines !! level))) /\
    layer_of 4096 (4096 / Z.of_nat (dn_width neighborhood)) (levels_for_zoom 14) isolines features.
Proof.
  apply (contours_exact tiles neighborhood 4096 14); [reflexivity| |reflexivity]. intros tile Hin. unfold tiles in Hin.
  apply elem_of_replicate_inv in Hin. injection Hin as ->. reflexivity.
Defined.
(** Three lines at 10 m: up the slope, and down at the seam on both sides. *)
Definition summary (f : ContourFeature) : Z * Z * nat := (cf_ele f, cf_level f, length (cf_lines f)).
Lemma demo_features : map summary (default [] (contour_layer 4096 neighborhood 14)) = [(10, 0, 3%nat)].
Proof. vm_compute. reflexivity. Qed.
End DemoContours.
