(* ===== verification/MltTiles.v ===== *)
(** * MapLibre tiles

    Models [servers/ishikari/src/server/tileset/mlt.rs]: the negotiation of the
    tile format, the narrowing of 64-bit columns, and the transcoding of a stored
    MVT tile. The encoder crate mlt-core is the class [MltCore]; the stream
    decoders are those of PmtilesFormat, and compression is a parameter. A panic
    of the encoder or of an index is [Panic], caught where the work is joined. *)

From S2P Require Import Prelude StdModel Types PmtilesFormat PmtilesReader TilesetSources ChunkStore HttpMessage Text.
From S2P Require Floats.
From S2P Require Import FloatMath.
From Stdlib Require Import SpecFloat.

(** ** Negotiation *)

Inductive RequestedTileFormat := AsStored | Mlt.

(** [media_range_allows_mlt]: the last quality parameter counts; a malformed one
    is zero. Qualities are binary32 bit patterns. *)
Definition quality_of (value : string) : Z :=
  match Floats.parse_f32 (trim value) with
  | Some q => if Floats.f32_is_finite q && Floats.f32_contains (Floats.f32_from_int 0) (Floats.f32_from_int 1) q
              then q else Floats.f32_from_int 0
  | None => Floats.f32_from_int 0
  end.

Definition quality_parameter (quality : Z) (parameter : string) : Z :=
  match split_once "="%char parameter with
  | None => quality
  | Some (name, value) => if eq_ignore_ascii_case (trim name) "q" then quality_of value else quality
  end.

Definition media_range_allows_mlt (range : string) : bool :=
  match str_split ";"%char range with
  | [] => false
  | media_type :: parameters =>
      eq_ignore_ascii_case (trim media_type) MLT_CONTENT_TYPE &&
      Floats.f32_gt (fold_left quality_parameter parameters (Floats.f32_from_int 1)) (Floats.f32_from_int 0)
  end.

Definition dquote : ascii := "034"%char.
Definition reverse_solidus : ascii := "092"%char.
Definition list_comma : ascii := ","%char.

(** The scan over the bytes of an [Accept] value; [range] is what was read since
    the last separator. *)
Fixpoint accept_ranges (quoted escaped : bool) (range rest : string) : bool :=
  match rest with
  | EmptyString => media_range_allows_mlt range
  | String b rest =>
      let range' := range +:+ String b "" in
      if escaped then accept_ranges quoted false range' rest
      else if Ascii.eqb b reverse_solidus && quoted then accept_ranges quoted true range' rest
      else if Ascii.eqb b dquote then accept_ranges (negb quoted) false range' rest
      else if Ascii.eqb b list_comma && negb quoted
      then media_range_allows_mlt range || accept_ranges quoted false "" rest
      else accept_ranges quoted false range' rest
  end.
Definition accept_value_allows_mlt (value : string) : bool := accept_ranges false false "" value.

Definition ACCEPT_HEADER : string := "accept".

Definition accepted_format (headers : list (string * string)) : RequestedTileFormat :=
  if existsb accept_value_allows_mlt (header_texts ACCEPT_HEADER headers) then Mlt else AsStored.

Definition negotiate_format (y_raw : string) (headers : list (string * string)) : string * RequestedTileFormat :=
  match rsplit_once "."%char y_raw with
  | Some (y, extension) =>
      if String.eqb extension "mlt" then (y, Mlt)
      else if existsb (String.eqb extension) ["mvt"; "pbf"; "webp"; "jpg"; "jpeg"] then (y, accepted_format headers)
      else (y_raw, accepted_format headers)
  | None => (y_raw, accepted_format headers)
  end.

(** ** Narrowing of integer columns *)

Definition JS_SAFE_INT : Z := 2 ^ 53.

(** What the source uses of mlt-core: the kinds it narrows among, any other kind,
    the layers of a tile and the builder of a layer. *)
Class MltCore := {
  OtherKind : Type;
  OtherValue : Type;
  other_kind : OtherValue -> OtherKind;
  Geometry : Type }.

Section Layers.
Context `{!MltCore}.

Inductive PropKind := KI32 | KU32 | KI64 | KU64 | KF64 | KOther (kind : OtherKind).
Inductive PropValue :=
  | PvI32 (o : option Z)
  | PvU32 (o : option Z)
  | PvI64 (o : option Z)
  | PvU64 (o : option Z)
  | PvF64 (o : option F64)
  | PvOther (value : OtherValue).

(** [PropKind::from]. *)
Definition PropKind_from (v : PropValue) : PropKind :=
  match v with
  | PvI32 _ => KI32 | PvU32 _ => KU32 | PvI64 _ => KI64 | PvU64 _ => KU64 | PvF64 _ => KF64
  | PvOther v => KOther (other_kind v)
  end.

Record TileFeature := { tf_id : option Z; tf_geometry : Geometry; tf_properties : list PropValue }.
Record TileLayer := {
  tl_name : string; tl_extent : Z; tl_property_names : list string; tl_features : list TileFeature }.

Definition is_wide (kind : PropKind) : bool := match kind with KI64 | KU64 => true | _ => false end.

Definition has_wide_int_column (layer : TileLayer) : bool :=
  match tl_features layer with
  | [] => false
  | first :: _ => existsb (fun p => is_wide (PropKind_from p)) (tf_properties first)
  end.

Definition fits_i32 (x : Z) : bool := (I32_MIN <=? x) && (x <=? I32_MAX).

(** One pass over the column: whether all values fit the narrow type, and whether
    all are exact as [f64]. *)
Definition scan_i64 (acc : bool * bool) (v : PropValue) : bool * bool :=
  match v with
  | PvI64 (Some x) => (acc.1 && fits_i32 x, acc.2 && (Z.abs x <? JS_SAFE_INT))
  | _ => acc
  end.
Definition scan_u64 (acc : bool * bool) (v : PropValue) : bool * bool :=
  match v with
  | PvU64 (Some x) => (acc.1 && (x <=? u32_max), acc.2 && (x <? JS_SAFE_INT))
  | _ => acc
  end.

Definition narrowed_kind (kind : PropKind) (values : list PropValue) : PropKind :=
  match kind with
  | KI64 => let '(all_i32, all_safe) := fold_left scan_i64 values (true, true) in
            if all_i32 then KI32 else if all_safe then KF64 else KI64
  | KU64 => let '(all_u32, all_safe) := fold_left scan_u64 values (true, true) in
            if all_u32 then KU32 else if all_safe then KF64 else KU64
  | other => other
  end.

(** [x as i32] and [x as u32] wrap. *)
Definition as_u32 (x : Z) : Z := x mod 2 ^ 32.
Definition as_i32 (x : Z) : Z := i32_of_u32 (as_u32 x).

Definition convert_value (value : PropValue) (target : PropKind) : PropValue :=
  match target, value with
  | KI32, PvI64 o => PvI32 (as_i32 <$> o)
  | KF64, PvI64 o => PvF64 (f64_of_int <$> o)
  | KU32, PvU64 o => PvU32 (as_u32 <$> o)
  | KF64, PvU64 o => PvF64 (f64_of_int <$> o)
  | _, _ => value
  end.

(** The builder of mlt-core: [TileLayer::builder], [add_property], and a feature
    with its id and properties, each of which may be refused. *)
Class LayerBuilder := {
  Builder : Type;
  PropertyKey : Type;
  FeatureBuilder : Type;
  layer_builder : string -> Z -> option Builder;
  add_property : string -> PropKind -> Builder -> option (PropertyKey * Builder);
  builder_feature : Geometry -> Builder -> FeatureBuilder;
  fb_id : option Z -> FeatureBuilder -> FeatureBuilder;
  fb_property : PropertyKey -> PropValue -> FeatureBuilder -> option FeatureBuilder;
  fb_finish : FeatureBuilder -> option Builder;
  builder_finish : Builder -> TileLayer;
  (** [TileLayer::encode] with the default configuration, and the importer. *)
  layer_encode : TileLayer -> option bytes;
  mvt_to_tile_layers : bytes -> option (list TileLayer) }.
Context `{!LayerBuilder}.

(** [features[i].properties()[j]]: an index out of range panics. *)
Definition property_at (f : TileFeature) (j : nat) : Res string PropValue :=
  match tf_properties f !! j with Some v => Ok v | None => Panic end.

Definition column_target (features : list TileFeature) (j : nat) : Res string PropKind :=
  match features with
  | [] => Panic
  | first :: _ =>
      kind ← property_at first j;
      values ← mapM (fun f => property_at f j) features;
      Ok (narrowed_kind (PropKind_from kind) values)
  end.

Fixpoint declare_columns (names : list string) (targets : list PropKind) (b : Builder)
    : Res string (list PropertyKey * Builder) :=
  match names, targets with
  | name :: names, kind :: targets =>
      declared ← ok_or "declare narrowed columns" (add_property name kind b);
      let '(key, b) := declared in
      rest ← declare_columns names targets b;
      Ok (key :: rest.1, rest.2)
  | _, _ => Ok ([], b)
  end.

Fixpoint set_properties (f : TileFeature) (j : nat) (keys : list PropertyKey) (targets : list PropKind)
    (fb : FeatureBuilder) : Res string FeatureBuilder :=
  match keys with
  | [] => Ok fb
  | key :: keys =>
      value ← property_at f j;
      target ← match targets !! j with Some k => Ok k | None => Panic end;
      fb ← ok_or "set narrowed property" (fb_property key (convert_value value target) fb);
      set_properties f (S j) keys targets fb
  end.

Fixpoint rebuild_features (features : list TileFeature) (keys : list PropertyKey) (targets : list PropKind)
    (b : Builder) : Res string Builder :=
  match features with
  | [] => Ok b
  | f :: features =>
      fb ← set_properties f 0 keys targets (fb_id (tf_id f) (builder_feature (tf_geometry f) b));
      b ← ok_or "finish feature" (fb_finish fb);
      rebuild_features features keys targets b
  end.

Definition narrow_int_columns (layer : TileLayer) : Res string TileLayer :=
  let names := tl_property_names layer in
  let features := tl_features layer in
  targets ← mapM (column_target features) (seq 0 (length names));
  builder ← ok_or "create layer builder" (layer_builder (tl_name layer) (tl_extent layer));
  declared ← declare_columns names targets builder;
  b ← rebuild_features features declared.1 targets declared.2;
  Ok (builder_finish b).

Fixpoint encode_layers (layers : list TileLayer) (out : bytes) : Res string bytes :=
  match layers with
  | [] => Ok out
  | layer :: layers =>
      layer ← (if has_wide_int_column layer then narrow_int_columns layer else Ok layer);
      encoded ← ok_or "encode MLT layer" (layer_encode layer);
      encode_layers layers (out ++ encoded)
  end.

Definition mvt_to_mlt (mvt : bytes) : Res string bytes :=
  layers ← ok_or "parse MVT layers" (mvt_to_tile_layers mvt);
  encode_layers layers [].

(** ** Transcoding *)

Definition MAX_DECOMPRESSED_MVT_BYTES : Z := 32 * 1024 * 1024.

Inductive MvtInputError :=
  | TooLarge (limit : Z)
  | InvalidCompressed (encoding : string)
  | UnsupportedEncoding.

Definition into_http_error (self : MvtInputError) : HttpError :=
  match self with
  | TooLarge limit => (BAD_GATEWAY, "MVT upstream payload exceeds " +:+ decimal limit +:+ " decompressed bytes")
  | InvalidCompressed encoding => (BAD_GATEWAY, "MVT upstream " +:+ encoding +:+ " payload is invalid")
  | UnsupportedEncoding => (BAD_GATEWAY, "MVT upstream content encoding is unsupported")
  end.

Definition decode_compressed (reader : Stream) (max : Z) (encoding : string) : Res MvtInputError bytes :=
  let read_limit := saturating_add max 1 in
  out ← map_err (fun _ => InvalidCompressed encoding) (take_read_to_end reader read_limit);
  if Z.of_nat (length out) >? max then Err (TooLarge max) else Ok out.

Context (dec : Decoders) (gzip_encode : bytes -> string + bytes).

Definition decode_mvt_input (data : bytes) (content_encoding : option string) (max : Z) : Res MvtInputError bytes :=
  let identity := if Z.of_nat (length data) >? max then Err (TooLarge max) else Ok data in
  match content_encoding with
  | None => identity
  | Some encoding =>
      if String.eqb encoding "identity" then identity
      else if String.eqb encoding "gzip" then decode_compressed (gz_decoder dec data) max "gzip"
      else if String.eqb encoding "br" then decode_compressed (brotli_decoder dec data) max "brotli"
      else if String.eqb encoding "zstd" then
        decoder ← ok_or (InvalidCompressed "zstd") (zstd_decoder dec data);
        decode_compressed decoder max "zstd"
      else Err UnsupportedEncoding
  end.

Definition gzip (data : bytes) : Res HttpError bytes :=
  match gzip_encode data with
  | inl error => Err (INTERNAL_SERVER_ERROR, "gzip: " +:+ error)
  | inr out => Ok out
  end.

Definition transcode_mlt (tile : TileData) : Res HttpError bytes :=
  raw_mvt ← map_err into_http_error
              (decode_mvt_input (td_bytes tile) (td_content_encoding tile) MAX_DECOMPRESSED_MVT_BYTES);
  mlt ← map_err (fun _ => (BAD_GATEWAY, "MVT upstream payload cannot be transcoded")) (mvt_to_mlt raw_mvt);
  gzip mlt.

Definition is_mlt_tile (tile : TileData) : bool := String.eqb (td_content_type tile) MLT_CONTENT_TYPE.
End Layers.

(** ** Integers below [2^53] are exact in binary64 *)

Lemma digits2_lower m : 2 ^ (Z.pos (digits2_pos m) - 1) <= Z.pos m.
Proof.
  induction m as [m IH|m IH|]; cbn [digits2_pos]; [| |done];
    rewrite Pos2Z.inj_succ, (ltac:(lia) : Z.succ (Z.pos (digits2_pos m)) - 1 = Z.succ (Z.pos (digits2_pos m) - 1)),
      Z.pow_succ_r by lia; lia.
Qed.

Lemma digits2_le m k : 0 <= k -> Z.pos m < 2 ^ k -> Z.pos (digits2_pos m) <= k.
Proof.
  intros Hk H. pose proof (digits2_lower m) as L.
  destruct (Z.le_gt_cases (Z.pos (digits2_pos m)) k) as [|G]; [done|exfalso].
  pose proof (Z.pow_le_mono_r 2 k (Z.pos (digits2_pos m) - 1) eq_refl ltac:(lia)). lia.
Qed.

Lemma iter_xO_spec m d :
  Z.pos (Pos.iter xO m d) = Z.pos m * 2 ^ Z.pos d /\
  Z.pos (digits2_pos (Pos.iter xO m d)) = Z.pos (digits2_pos m) + Z.pos d.
Proof.
  induction d as [|d [IH1 IH2]] using Pos.peano_ind; [by split; cbn; lia|].
  rewrite Pos.iter_succ. cbn [digits2_pos]. rewrite !Pos2Z.inj_succ, Z.pow_succ_r by lia. split; lia.
Qed.

(** [x] is the integer [n]. *)
Definition exactly (x : F64) (n : Z) : Prop :=
  match x with
  | S754_zero _ => n = 0
  | S754_finite s m e => e <= 0 /\ (if s then - n else n) * 2 ^ (- e) = Z.pos m
  | _ => False
  end.

Lemma binary_round_exact s m :
  Z.pos m < 2 ^ 53 ->
  exists m' e, binary_round 53 1024 s m 0 = S754_finite s m' e /\ e <= 0 /\ Z.pos m * 2 ^ (- e) = Z.pos m'.
Proof.
  intros Hm. pose proof (digits2_le m 53 ltac:(lia) Hm) as Hd.
  set (d := Z.pos (digits2_pos m)) in *. assert (0 < d) by (unfold d; lia).
  assert (Haux : forall mz, Z.pos (digits2_pos mz) = 53 ->
    binary_round_aux 53 1024 s (Z.pos mz) (d - 53) loc_Exact = S754_finite s mz (d - 53)).
  { intros mz Hz. assert (Hs : shr_fexp 53 1024 (Z.pos mz) (d - 53) loc_Exact
      = ({| shr_m := Z.pos mz; shr_r := false; shr_s := false |}, d - 53)).
    { unfold shr_fexp. cbn [Zdigits2 shr_record_of_loc]. rewrite Hz. unfold fexp, SpecFloat.emin.
      by rewrite (ltac:(lia) : Z.max (53 + (d - 53) - 53) (3 - 1024 - 53) - (d - 53) = 0). }
    unfold binary_round_aux. rewrite Hs. cbn [shr_m loc_of_shr_record round_nearest_even]. rewrite Hs. cbn [shr_m].
    by rewrite (proj2 (Z.leb_le (d - 53) (1024 - 53))) by lia. }
  unfold binary_round, shl_align. fold d. unfold fexp at 1, SpecFloat.emin.
  rewrite (ltac:(lia) : Z.max (d + 0 - 53) (3 - 1024 - 53) - 0 = d - 53), Z.add_0_r.
  rewrite (ltac:(unfold fexp, SpecFloat.emin; lia) : fexp 53 1024 d = d - 53).
  destruct (d - 53) as [|k|k] eqn:Hk; [|lia|].
  - exists m, 0. rewrite Haux by (fold d; lia). split; [done|]. lia.
  - destruct (iter_xO_spec m k) as [Hv Hg]. exists (Pos.iter xO m k), (Z.neg k).
    rewrite Haux by (rewrite Hg; fold d; lia). split; [done|]. split; [lia|]. by rewrite Hv.
Qed.

Lemma f64_of_int_exact n : Z.abs n < JS_SAFE_INT -> exactly (f64_of_int n) n.
Proof.
  unfold JS_SAFE_INT, f64_of_int, binary_normalize, exactly. intros H. destruct n as [|p|p]; [done| |].
  - destruct (binary_round_exact false p ltac:(lia)) as (m & e & -> & He & Hm). by split.
  - destruct (binary_round_exact true p ltac:(lia)) as (m & e & -> & He & Hm). by split.
Qed.

(** ** The narrowed columns *)

Section Narrowing.
Context `{!MltCore}.

(** The integer a value carries, if it carries one. *)
Definition carries (v : PropValue) (o : option Z) : Prop :=
  match v, o with
  | (PvI32 x | PvU32 x | PvI64 x | PvU64 x), _ => x = o
  | PvF64 (Some x), Some n => exactly x n
  | PvF64 None, None => True
  | _, _ => False
  end.

(** Values as the importer makes them: in the range of their type. *)
Definition value_wf (v : PropValue) : Prop :=
  match v with
  | PvI64 (Some x) => - 2 ^ 63 <= x < 2 ^ 63
  | PvU64 (Some x) => is_u64 x
  | _ => True
  end.

Definition safe_value (v : PropValue) : Prop :=
  match v with PvI64 (Some x) | PvU64 (Some x) => Z.abs x < JS_SAFE_INT | _ => True end.

(** Whether a value of a wide column fits the target of the column. *)
Definition fits (target : PropKind) (v : PropValue) : bool :=
  match target, v with
  | KI32, PvI64 (Some x) => fits_i32 x
  | KU32, PvU64 (Some x) => x <=? u32_max
  | KF64, PvI64 (Some x) => Z.abs x <? JS_SAFE_INT
  | KF64, PvU64 (Some x) => x <? JS_SAFE_INT
  | _, _ => true
  end.
Definition narrow_of (kind : PropKind) : PropKind := match kind with KI64 => KI32 | KU64 => KU32 | k => k end.

Lemma scan_spec kind values acc :
  is_wide kind = true -> Forall (fun v => PropKind_from v = kind) values ->
  fold_left (match kind with KI64 => scan_i64 | _ => scan_u64 end) values acc =
  (acc.1 && forallb (fits (narrow_of kind)) values, acc.2 && forallb (fits KF64) values).
Proof.
  intros Hw Hk. revert acc. induction Hk as [|v values Hv Hk IH]; intros [a b]; cbn [fold_left forallb].
  { by rewrite !andb_true_r. }
  rewrite IH. destruct kind, v as [| |[x|]|[x|]| |]; try done; cbn; by rewrite ?andb_assoc.
Qed.

Lemma narrowed_kind_spec kind values :
  is_wide kind = true -> Forall (fun v => PropKind_from v = kind) values ->
  let target := narrowed_kind kind values in
  (target = narrow_of kind \/ target = KF64 \/ target = kind /\ forallb (fits KF64) values = false) /\
  forallb (fits target) values = true.
Proof.
  intros Hw Hk. pose proof (scan_spec kind values (true, true) Hw Hk) as Hs. cbn [fst snd andb] in Hs.
  assert (Hkind : forallb (fits kind) values = true).
  { apply forallb_forall. intros v Hin%list_elem_of_In. rewrite Forall_forall in Hk. specialize (Hk v Hin).
    by destruct kind, v. }
  destruct kind; try done; cbn [narrowed_kind narrow_of] in *; rewrite Hs;
    destruct (forallb _ values) eqn:H1; (destruct (forallb (fits KF64) values) eqn:H2 || idtac); auto.
Qed.

Lemma as_i32_small x : fits_i32 x = true -> as_i32 x = x.
Proof.
  unfold fits_i32, I32_MIN, I32_MAX, as_i32, as_u32, i32_of_u32. intros [H1 H2]%andb_prop.
  apply Z.leb_le in H1, H2. destruct (Z.le_gt_cases 0 x) as [Hx|Hx].
  - rewrite Z.mod_small by lia. rewrite (proj2 (Z.ltb_lt _ _)) by lia. done.
  - rewrite <-(Z.mod_unique x (2 ^ 32) (-1) (x + 2 ^ 32)) by lia.
    rewrite (proj2 (Z.ltb_ge _ _)) by lia. lia.
Qed.

Lemma convert_value_exact kind target v :
  is_wide kind = true -> PropKind_from v = kind -> value_wf v -> fits target v = true ->
  target = narrow_of kind \/ target = KF64 \/ target = kind ->
  PropKind_from (convert_value v target) = target /\ exists o, carries v o /\ carries (convert_value v target) o.
Proof.
  intros Hw Hk Hv Hf Ht. subst kind. destruct v as [| |o|o| |]; try done; cbn in Ht;
    destruct Ht as [->|[->| ->]]; (split; [done|]); exists o; (split; [done|]); destruct o as [x|]; try done; cbn in *.
  - by rewrite as_i32_small.
  - by apply f64_of_int_exact, Z.ltb_lt.
  - unfold as_u32, is_u, u32_max in *. rewrite Z.mod_small by lia. done.
  - unfold is_u in Hv. apply Z.ltb_lt in Hf. apply f64_of_int_exact. lia.
Qed.

(** Narrowing a column loses nothing: every converted value has the target kind
    and carries the integer it carried, and a 64-bit column is kept only when it
    holds an integer that a JavaScript number cannot carry. *)
Lemma narrowing_lossless kind values :
  is_wide kind = true -> Forall (fun v => PropKind_from v = kind /\ value_wf v) values ->
  let target := narrowed_kind kind values in
  Forall (fun v => PropKind_from (convert_value v target) = target /\
                   exists o, carries v o /\ carries (convert_value v target) o) values /\
  (is_wide target = true -> ~ Forall safe_value values).
Proof.
  intros Hw Hv target. assert (Hk : Forall (fun v => PropKind_from v = kind) values)
    by (eapply Forall_impl; [exact Hv|by intros ? []]).
  destruct (narrowed_kind_spec kind values Hw Hk) as [Ht Hf]. fold target in Ht, Hf. split.
  - rewrite Forall_forall in Hv |- *. intros v Hin. destruct (Hv v Hin). eapply convert_value_exact; [done..| |tauto].
    rewrite forallb_forall in Hf. by apply Hf, list_elem_of_In.
  - intros Hwt Hs. destruct Ht as [Ht|[Ht|[Ht Hn]]]; [by rewrite Ht in Hwt; destruct kind|by rewrite Ht in Hwt|].
    apply not_true_iff_false in Hn. apply Hn, forallb_forall. intros v Hin%list_elem_of_In.
    rewrite Forall_forall in Hs, Hv. specialize (Hs v Hin). destruct (Hv v Hin) as [_ Hx].
    destruct v as [| |[x|]|[x|]| |]; try done; cbn in *; apply Z.ltb_lt; lia.
Qed.
End Narrowing.

(** ** Accepted media ranges *)

Lemma accept_ranges_plain r acc rest :
  ~ str_In list_comma r -> ~ str_In dquote r ->
  accept_ranges false false acc (r +:+ rest) = accept_ranges false false (acc +:+ r) rest.
Proof.
  revert acc. induction r as [|b r IH]; intros acc Hc Hq; [by rewrite app_empty, app_empty_r|].
  cbn in Hc, Hq. apply Decidable.not_or in Hc as [Hc ?], Hq as [Hq ?].
  rewrite app_String. cbn [accept_ranges]. rewrite andb_false_r.
  rewrite (proj2 (Ascii.eqb_neq b dquote)), (proj2 (Ascii.eqb_neq b list_comma)) by done. cbn [andb].
  by rewrite IH, app_assoc_str, app_String, app_empty.
Qed.

(** An [Accept] list without quoted parameters asks for MLT when one of its ranges
    does. *)
Lemma accept_list_spec ranges :
  ranges <> [] -> Forall (fun r => ~ str_In list_comma r /\ ~ str_In dquote r) ranges ->
  accept_value_allows_mlt (String.concat "," ranges) = existsb media_range_allows_mlt ranges.
Proof.
  intros Hn Hr. unfold accept_value_allows_mlt. destruct ranges as [|r ranges]; [done|]. clear Hn.
  revert r Hr. induction ranges as [|r' ranges IH]; intros r [[Hc Hq] Hr]%Forall_cons.
  - cbn [String.concat existsb]. rewrite <-(app_empty_r r) at 1. by rewrite accept_ranges_plain, app_empty, orb_false_r.
  - change (String.concat "," (r :: r' :: ranges)) with (r +:+ String list_comma (String.concat "," (r' :: ranges))).
    rewrite accept_ranges_plain, app_empty by done.
    change (accept_ranges false false r (String list_comma (String.concat "," (r' :: ranges))))
      with (media_range_allows_mlt r || accept_ranges false false "" (String.concat "," (r' :: ranges))).
    by rewrite IH.
Qed.

(** The extension of the path decides before the header does. *)
Lemma negotiate_mlt_suffix y headers : negotiate_format (y +:+ ".mlt") headers = (y, Mlt).
Proof.
  unfold negotiate_format. rewrite (rsplit_once_app "."%char y "mlt"); [done|]. cbn. intuition discriminate.
Qed.

(** What the encoder is given never exceeds the limit. *)
Lemma decode_mvt_bounded dec data encoding max out :
  0 <= max < u64_max -> decode_mvt_input dec data encoding max = Ok out -> Z.of_nat (length out) <= max.
Proof.
  intros Hmax. assert (Hd : forall reader name, decode_compressed reader max name = Ok out -> Z.of_nat (length out) <= max).
  { intros reader name. unfold decode_compressed. intros (o & _ & H)%Res_bind_Ok. revert H. case_match; [done|].
    intros [= <-]. lia. }
  assert (Hi : (if Z.of_nat (length data) >? max then Err (TooLarge max) else Ok data) = Ok out -> Z.of_nat (length out) <= max).
  { case_match; [done|]. intros [= <-]. lia. }
  unfold decode_mvt_input. destruct encoding as [e|]; [|exact Hi].
  repeat case_match; try apply Hd; try exact Hi; try done;
    intros (d & _ & Hz)%Res_bind_Ok; by eapply Hd.
Qed.
