(* ===== verification/CpuWork.v ===== *)
(** * Admission of CPU-heavy work

    Models [servers/ishikari/src/server/cpu_work.rs]: the counter of admitted work
    with its ceiling and the semaphore of running work, as interleaved atomic
    operations of the tasks that ask for admission, run, and are dropped.

    Shows that the counter and the permits are exact in every interleaving, that at
    most [max_inflight] units hold a slot and [concurrency] run, and that nothing is
    left when all are done. *)

From S2P Require Import Prelude.

(** ** The gate *)

Record CpuWorkGate := {
  available_permits : Z;
  inflight : Z;
  concurrency : Z;
  max_inflight : Z }.

Definition CpuWorkGate_new (concurrency_ max_inflight_ : Z) : CpuWorkGate :=
  let concurrency_ := Z.max concurrency_ 1 in
  {| available_permits := concurrency_; inflight := 0; concurrency := concurrency_;
     max_inflight := Z.max max_inflight_ concurrency_ |}.

(** [inflight.fetch_add] and the semaphore; the counter is an unbounded integer: it
    never exceeds the number of units in progress. *)
Definition add_inflight (n : Z) (g : CpuWorkGate) : CpuWorkGate :=
  {| available_permits := available_permits g; inflight := inflight g + n;
     concurrency := concurrency g; max_inflight := max_inflight g |}.
Definition change_permits (n : Z) (g : CpuWorkGate) : CpuWorkGate :=
  {| available_permits := available_permits g + n; inflight := inflight g;
     concurrency := concurrency g; max_inflight := max_inflight g |}.

(** The decision of [try_reserve] on the value the counter had. *)
Definition reserved (max previous : Z) : bool := negb (max <=? previous).

Record CpuWorkSnapshot := { sn_running : Z; sn_inflight : Z; sn_concurrency : Z; sn_max_inflight : Z }.
Definition snapshot (g : CpuWorkGate) : CpuWorkSnapshot :=
  {| sn_running := saturating_sub (concurrency g) (available_permits g); sn_inflight := inflight g;
     sn_concurrency := concurrency g; sn_max_inflight := max_inflight g |}.

(** ** Units of work *)

(** Where a unit stands: before [fetch_add]; after it, with the value the counter
    had; with its slot, waiting for a permit; running; its permit dropped but not yet
    its slot; gone, with whether it was admitted. *)
Inductive Unit_ :=
  | Arriving
  | Counted (previous : Z)
  | Queued
  | Running
  | Leaving (ran : bool)
  | Gone (ran : bool).

Record Gate := { gate : CpuWorkGate; units : list Unit_ }.

Definition unit_next (u : Unit_) (g : CpuWorkGate) : option (Unit_ * CpuWorkGate) :=
  match u with
  | Arriving => Some (Counted (inflight g), add_inflight 1 g)
  | Counted previous => if reserved (max_inflight g) previous then Some (Queued, g)
                        else Some (Gone false, add_inflight (-1) g)
  | Queued => if 0 <? available_permits g then Some (Running, change_permits (-1) g) else None
  | Running => Some (Leaving true, change_permits 1 g)
  | Leaving ran => Some (Gone ran, add_inflight (-1) g)
  | Gone _ => None
  end.

Inductive gate_step : Gate -> Gate -> Prop :=
  | gs_arrive g us : gate_step {| gate := g; units := us |} {| gate := g; units := us ++ [Arriving] |}
  | gs_next g us i u u' g' : us !! i = Some u -> unit_next u g = Some (u', g') ->
      gate_step {| gate := g; units := us |} {| gate := g'; units := <[i := u']> us |}
  (** The request is dropped while it waits, or the semaphore is closed: the slot
      is dropped. *)
  | gs_abandon g us i : us !! i = Some Queued ->
      gate_step {| gate := g; units := us |} {| gate := g; units := <[i := Leaving false]> us |}.

Inductive gate_steps : Gate -> Gate -> Prop :=
  | gss_refl s : gate_steps s s
  | gss_step s s' s'' : gate_steps s s' -> gate_step s' s'' -> gate_steps s s''.

(** ** Exact counting *)

Definition unit_counted (u : Unit_) : bool := match u with Arriving | Gone _ => false | _ => true end.
Definition unit_runs (u : Unit_) : bool := match u with Running => true | _ => false end.
(** Units whose reservation succeeded, noticed or not. *)
Definition unit_holds (max : Z) (u : Unit_) : bool :=
  match u with Counted previous => reserved max previous | Queued | Running | Leaving _ => true | _ => false end.

Record gate_inv (c m : Z) (s : Gate) : Prop := {
  gi_concurrency : concurrency (gate s) = c;
  gi_max : max_inflight (gate s) = m;
  gi_inflight : inflight (gate s) = count unit_counted (units s);
  gi_permits : available_permits (gate s) + count unit_runs (units s) = c;
  gi_available : 0 <= available_permits (gate s);
  gi_held : count (unit_holds m) (units s) <= m }.

Lemma holds_counted max us : count (unit_holds max) us <= count unit_counted us.
Proof.
  unfold count. induction us as [|u us IH]; [done|]. cbn. destruct u; cbn; try (destruct (reserved _ _)); cbn; lia.
Qed.

Lemma gate_step_inv c m s s' : gate_inv c m s -> gate_step s s' -> gate_inv c m s'.
Proof.
  intros [H1 H2 H3 H4 H5 H6] Hst.
  destruct Hst as [g us|g us i u u' g' Hi Hn|g us i Hi]; cbn [gate units] in *.
  - split; cbn [gate units]; rewrite ?count_snoc; cbn; lia.
  - assert (Hc : forall f, count f (<[i:=u']> us) = count f us - Z.b2z (f u) + Z.b2z (f u'))
      by (intros f; by apply count_insert).
    pose proof (holds_counted m us) as Hh.
    destruct u; cbn [unit_next] in Hn; repeat case_match; simplify_eq; split; cbn [gate units]; rewrite ?Hc; cbn;
      unfold reserved in *; repeat case_match; cbn [Z.b2z negb] in *; try lia;
      destruct (_ <=? _) eqn:? in |- *; cbn in *; try done; lia.
  - assert (Hc : forall f, count f (<[i:=Leaving false]> us) = count f us - Z.b2z (f Queued) + Z.b2z (f (Leaving false)))
      by (intros f; by apply count_insert).
    split; cbn [gate units]; rewrite ?Hc; cbn; lia.
Qed.

Lemma gate_steps_inv c m s s' : gate_inv c m s -> gate_steps s s' -> gate_inv c m s'.
Proof. induction 2; eauto using gate_step_inv. Qed.

Definition Gate_new (c m : Z) : Gate := {| gate := CpuWorkGate_new c m; units := [] |}.

Lemma Gate_new_inv c m : gate_inv (Z.max c 1) (Z.max m (Z.max c 1)) (Gate_new c m).
Proof. unfold Gate_new. split; cbn -[Z.max]; unfold count; cbn -[Z.max]; lia. Qed.

(** In every interleaving at most [max_inflight] units hold a slot and at most
    [concurrency] run; the counter and the permits are exact, so that nothing is
    kept when every unit is gone. *)
Lemma cpu_work_bounded c m s :
  gate_steps (Gate_new c m) s ->
  count (unit_holds (max_inflight (gate s))) (units s) <= Z.max m (Z.max c 1) /\
  count unit_runs (units s) <= Z.max c 1 /\
  sn_running (snapshot (gate s)) = count unit_runs (units s) /\ inflight (gate s) = count unit_counted (units s) /\
  (Forall (fun u => unit_counted u = false) (units s) -> inflight (gate s) = 0 /\ available_permits (gate s) = Z.max c 1).
Proof.
  intros Hs. destruct (gate_steps_inv _ _ _ _ (Gate_new_inv c m) Hs) as [H1 H2 H3 H4 H5 H6].
  rewrite H2. split; [done|]. split; [lia|]. split.
  { cbn. rewrite H1. unfold saturating_sub. pose proof (count_pos unit_runs (units s)). lia. }
  split; [done|]. intros Hg. pose proof (proj2 (count_zero unit_counted (units s)) Hg) as Hz. split; [lia|].
  assert (Hr : Forall (fun u => unit_runs u = false) (units s)) by (eapply Forall_impl; [exact Hg|by intros []]).
  apply count_zero in Hr. lia.
Qed.

(** A unit that is shed found the counter at its ceiling. *)
Lemma shed_only_at_ceiling c m s i previous :
  gate_steps (Gate_new c m) s -> units s !! i = Some (Counted previous) ->
  forall g', unit_next (Counted previous) (gate s) = Some (Gone false, g') -> Z.max m (Z.max c 1) <= previous.
Proof.
  intros Hs Hi g'. destruct (gate_steps_inv _ _ _ _ (Gate_new_inv c m) Hs) as [H1 H2 _ _ _ _].
  cbn. unfold reserved. destruct (_ <=? previous) eqn:E; cbn; [|done]. intros _. lia.
Qed.
