(* ===== verification/PublicTiles.v ===== *)
(** * The public tile endpoint

    Models [servers/ishikari/src/server/tileset/tile.rs] (the external handlers),
    [tileset/mapterhorn.rs] with its configuration [servers/ishikari/src/mapterhorn.rs],
    and the cached transcoding of [tileset/mlt.rs], over the resolver of Resolver,
    the responses of InternalHttp and the formats of MltTiles.

    The state of the server is the node of TileArchives with the two moka caches of
    the endpoint. Whatever waits runs other tasks: the class [AppWorld] has an
    operation per wait. A joined initialization of [try_get_with] is the result of
    the task that runs it; the law about it says what this file proves of such a
    task itself. *)

From S2P Require Import Prelude StdModel Types PmtilesFormat PmtilesReader TilesetSources ChunkStore SingleFlight.
From S2P Require Import PeerRouting PeerBackend TileArchives Resolver HttpMessage InternalHttp Text.
From S2P Require Import MltTiles CpuWork.

(** ** Composite tilesets *)

Definition BASE_MAX_ZOOM : Z := 12.
Definition MAX_ADVERTISED_ZOOM : Z := 30.
Definition DETAIL_ANCESTOR_ZOOM : Z := 6.

Record MapterhornConfig := {
  mc_tileset : string; mc_namespace : string; mc_maxzoom : Z; mc_negative_ttl : Z }.

Definition maxzoom_error (maxzoom : Z) : string :=
  "mapterhorn maxzoom must be " +:+ decimal (BASE_MAX_ZOOM + 1) +:+ "..=" +:+ decimal MAX_ADVERTISED_ZOOM +:+
  " (got " +:+ decimal maxzoom +:+ "): it advertises the detail archives' zoom, so <= " +:+ decimal BASE_MAX_ZOOM +:+
  " would never request detail tiles".

Definition MapterhornConfig_new (id_text : IdError -> string) (tileset : string) (maxzoom negative_ttl : Z)
    : Res string MapterhornConfig :=
  if negb ((BASE_MAX_ZOOM + 1 <=? maxzoom) && (maxzoom <=? MAX_ADVERTISED_ZOOM)) then Err (maxzoom_error maxzoom) else
  tileset ← map_err id_text (TilesetId_try_new tileset);
  let ns := default (local_id tileset) (namespace tileset) in
  ns ← map_err id_text (TilesetId_try_new ns);
  Ok {| mc_tileset := tileset; mc_namespace := ns; mc_maxzoom := maxzoom; mc_negative_ttl := negative_ttl |}.

Inductive Resolved := ResolvedBase (tileset : string) | ResolvedDetail (tileset : string) | ResolvedAbsent.

(** The z6 ancestor of a tile, and its archive; a shift of [u32] takes its amount
    modulo 32. *)
Definition ancestor (z v : Z) : Z := Z.shiftr v (Z.land (z - DETAIL_ANCESTOR_ZOOM) 31).
Definition detail_segment (z x y : Z) : string :=
  "6-" +:+ decimal (ancestor z x) +:+ "-" +:+ decimal (ancestor z y).
Definition detail_tileset {E : Type} (self : MapterhornConfig) (z x y : Z) : Res E string :=
  match join_segment (mc_namespace self) (detail_segment z x y) with Ok t => Ok t | _ => Panic end.

(** ** Responses *)

Definition cache_TILE : string := "public, max-age=3600, s-maxage=86400, stale-while-revalidate=604800".

Definition tile_data_response (tile : TileData) : HttpResponse :=
  TilesetResponse_into_response (with_cache_control cache_TILE (TilesetResponse_from tile)).

Definition NOT_ACCEPTABLE : Z := 406.

Definition join_tileset_key (ns tileset_id : string) : string := ns +:+ "/" +:+ tileset_id.

Inductive TranscodeCachePolicy := Retain | Bypass.

(** ** The server and its world *)

Record App (M W : Type) := {
  ap_node : TileNode M W;
  (** Detail archives: whether they are there, and until when that is served. *)
  ap_presence : gmap string (bool * Z);
  (** Transcoded tiles by routing key and tile id. *)
  ap_mlt : gmap (string * Z) bytes }.
Arguments ap_node {M W} a.
Arguments ap_presence {M W} a.
Arguments ap_mlt {M W} a.
Arguments Build_App {M W}.

Section Handlers.
Context {SocketAddr M W : Type}.
Abbreviation St := (TileNode M W).
Abbreviation AppState := (App M W).
Context `{!TileWorld (SocketAddr := SocketAddr) (M := M) (W := W)}.

Definition set_node (s : St) (a : AppState) : AppState :=
  {| ap_node := s; ap_presence := ap_presence a; ap_mlt := ap_mlt a |}.
Definition put_presence (ttl : Z) (t : string) (b : bool) (a : AppState) : AppState :=
  {| ap_node := ap_node a; ap_presence := <[t := (b, tw_now (tn_world (ap_node a)) + ttl)]> (ap_presence a);
     ap_mlt := ap_mlt a |}.
Definition put_mlt (key : string * Z) (v : bytes) (a : AppState) : AppState :=
  {| ap_node := ap_node a; ap_presence := ap_presence a; ap_mlt := <[key := v]> (ap_mlt a) |}.

Class AppWorld := {
  (** Other requests, and evictions, while this one waits. *)
  ap_others : AppState -> AppState;
  (** The result of another task that already initializes the entry, if one does. *)
  ap_join_presence : string -> AppState -> option (TilesetError + bool) * AppState;
  ap_join_mlt : string * Z -> AppState -> option (HttpError + bytes) * AppState;
  (** The gate of CpuWork: [fetch_add] with the previous value, [fetch_sub], and the
      wait for a permit, [false] when the semaphore is closed. *)
  ap_reserve : AppState -> Z * AppState;
  ap_unreserve : AppState -> AppState;
  ap_acquire : AppState -> bool * AppState;
  (** Until a blocking task has ended and dropped its permit; the text of a join
      that failed for another reason than a panic of the task. *)
  ap_blocking : AppState -> option string * AppState }.
Context `{!AppWorld}.

Context (dec : Decoders) (try_reserve_exact : Z -> bool).
Context (metadata_from_json : list Z -> option M) (Metadata_default : M).
Context (format_text : FormatError -> string) (message_text : FetchMessage -> string) (id_text : IdError -> string).
Context (xxhash64 : list HasherWrite -> Z) (self_node_id : string) (router : HrwRouter).
Context (chunk_size : Z) (fuel : nat).
Context (negative_ttl : Z) (peer_tile_cache_policy : PeerTileCachePolicy).
Context `{!MltCore} `{!LayerBuilder} (gzip_encode : bytes -> string + bytes).
Context (xy2h : Z -> Z -> Z -> Z) (mapterhorn : option MapterhornConfig) (max_inflight : Z) (panic_text : string).

Abbreviation transcode_mlt := (transcode_mlt dec gzip_encode).

(** A computation of the node; other requests run while it waits. *)
Definition node_call {E F A : Type} (f : E -> F) (c : SM St E A) : SM AppState F A := fun a =>
  let '(r, s) := c (ap_node a) in (map_err f r, ap_others (set_node s a)).

(** [moka::future::Cache::try_get_with]: errors are not cached. *)
Definition try_get_with {V E : Type} (get : AppState -> option V) (join : AppState -> option (E + V) * AppState)
    (put : V -> AppState -> AppState) (init : SM AppState E V) : SM AppState E V := fun a =>
  let a := ap_others a in
  match get a with
  | Some v => (Ok v, a)
  | None =>
      let '(joined, a) := join a in
      match joined with
      | Some (inr v) => (Ok v, a)
      | Some (inl e) => (Err e, a)
      | None =>
          let '(r, a) := init a in
          (r, match r with Ok v => put v a | _ => a end)
      end
  end.

Definition get_presence (t : string) (a : AppState) : option bool :=
  entry ← ap_presence a !! t;
  if tw_now (tn_world (ap_node a)) <? snd entry then Some (fst entry) else None.

Definition probe (detail : string) : SM AppState TilesetError bool :=
  p ← node_call (fun e => e) (archive_presence dec try_reserve_exact metadata_from_json Metadata_default format_text
                              message_text xxhash64 self_node_id router chunk_size fuel detail);
  mret (match p with Present => true | Absent => false end).

(** [MapterhornResolver::resolve]. *)
Definition mapterhorn_resolve (self : MapterhornConfig) (z x y : Z) : SM AppState TilesetError Resolved :=
  if z <=? BASE_MAX_ZOOM then mret (ResolvedBase (mc_tileset self)) else
  detail ← lift (detail_tileset self z x y);
  present ← try_get_with (get_presence detail) (ap_join_presence detail) (put_presence (mc_negative_ttl self) detail)
              (probe detail);
  mret (if (present : bool) then ResolvedDetail detail else ResolvedAbsent).

Definition resolve_archive (tileset_id : string) (z x y : Z) : SM AppState HttpError (option string) :=
  match mapterhorn with
  | None => mret (Some tileset_id)
  | Some m =>
      if negb (String.eqb tileset_id (mc_tileset m)) then mret (Some tileset_id) else
      resolved ← sm_attempt (mapterhorn_resolve m z x y);
      match resolved with
      | inr (ResolvedBase base) => mret (Some base)
      | inr (ResolvedDetail detail) => mret (Some detail)
      | inr ResolvedAbsent => mret None
      | inl error => lift (Err (tileset_error_response error))
      end
  end.

(** ** Transcoded tiles *)

(** The result of a blocking task as its join reports it. *)
Definition joined_result (failure : option string) (r : Res HttpError bytes) : Res HttpError bytes :=
  match failure, r with
  | Some text, _ => Err (INTERNAL_SERVER_ERROR, "MLT transcode task failed: " +:+ text)
  | None, Panic => Err (INTERNAL_SERVER_ERROR, "MLT transcode task failed: " +:+ panic_text)
  | None, r => r
  end.

Definition transcode_mlt_admitted (tile : TileData) : SM AppState HttpError bytes := fun a =>
  let '(previous, a) := ap_reserve a in
  if negb (reserved max_inflight previous) then (Err (SERVICE_UNAVAILABLE, "server overloaded"), ap_unreserve a) else
  let '(open, a) := ap_acquire a in
  if negb open then (Err (SERVICE_UNAVAILABLE, "cpu work is shutting down"), ap_unreserve a) else
  let '(failure, a) := ap_blocking a in
  (joined_result failure (transcode_mlt tile), a).

Definition transcoded_mlt (routing_key : string) (tile_id : Z) (tile : TileData) (policy : TranscodeCachePolicy)
    : SM AppState HttpError bytes :=
  match policy with
  | Bypass => transcode_mlt_admitted tile
  | Retain =>
      let key := (routing_key, tile_id) in
      try_get_with (fun a => ap_mlt a !! key) (ap_join_mlt key) (put_mlt key) (transcode_mlt_admitted tile)
  end.

Definition mlt_response_bytes (routing_key : string) (tile_id : Z) (tile : TileData) (policy : TranscodeCachePolicy)
    : SM AppState HttpError (bytes * option string * string) :=
  if is_mlt_tile tile then mret (td_bytes tile, td_content_encoding tile, "mlt_native") else
  if negb (String.eqb (td_content_type tile) (content_type TtMvt))
  then lift (Err (NOT_ACCEPTABLE, "cannot serve " +:+ td_content_type tile +:+ " tile as MLT")) else
  bytes ← transcoded_mlt routing_key tile_id tile policy;
  mret (bytes, Some "gzip", "mlt_transcoded").

(** ** The handlers *)

Definition parse_y (y : string) : Res HttpError Z :=
  ok_or (BAD_REQUEST, "invalid tile y: " +:+ y) (parse_uint u32_max y).

Definition tile_not_found : HttpError := (NOT_FOUND, "not found").

Definition serve_tile (tileset_id : string) (z x y : Z) (format : RequestedTileFormat) : SM AppState HttpError HttpResponse :=
  tileset_id ← lift (map_err (fun e => (BAD_REQUEST, id_text e)) (TilesetId_try_new tileset_id));
  coord ← lift (map_err (fun e => (BAD_REQUEST, format_text e)) (TileCoord_new z x y));
  let tile_id := TileId_from xy2h coord in
  archive ← resolve_archive tileset_id z x y;
  match archive with
  | None => lift (Err tile_not_found)
  | Some tileset_id =>
      routed ← node_call tileset_error_response
        (rs_route_tile dec try_reserve_exact metadata_from_json Metadata_default format_text message_text
           xxhash64 self_node_id router chunk_size fuel negative_ttl peer_tile_cache_policy tileset_id tile_id);
      match fst routed with
      | None => lift (Err tile_not_found)
      | Some tile =>
          match format with
          | AsStored => mret (tile_data_response tile)
          | Mlt =>
              served ← mlt_response_bytes tileset_id tile_id tile Retain;
              mret (TilesetResponse_into_response
                {| tr_bytes := served.1.1; tr_content_type := MLT_CONTENT_TYPE; tr_content_encoding := served.1.2;
                   tr_cache_control := Some cache_TILE |})
          end
      end
  end.

Definition tile_handler (tileset_id : string) (z x : Z) (y_raw : string) (headers : list (string * string))
    : SM AppState HttpError HttpResponse :=
  let '(y, format) := negotiate_format y_raw headers in
  y ← lift (parse_y y);
  serve_tile tileset_id z x y format.

Definition namespaced_tile_handler (ns tileset_id : string) (z x : Z) (y_raw : string) (headers : list (string * string))
    : SM AppState HttpError HttpResponse :=
  let '(y, format) := negotiate_format y_raw headers in
  y ← lift (parse_y y);
  serve_tile (join_tileset_key ns tileset_id) z x y format.
End Handlers.

(** ** Detail archives *)

Lemma ancestor_spec z v :
  BASE_MAX_ZOOM < z <= MAX_ZOOM -> 0 <= v < 2 ^ z ->
  0 <= ancestor z v < 64 /\ ancestor z v * 2 ^ (z - 6) <= v < (ancestor z v + 1) * 2 ^ (z - 6).
Proof.
  unfold ancestor, BASE_MAX_ZOOM, MAX_ZOOM, DETAIL_ANCESTOR_ZOOM. intros Hz Hv.
  change 31 with (Z.ones 5). rewrite Z.land_ones, Z.mod_small, Z.shiftr_div_pow2 by (cbn; lia).
  assert (Hp : 0 < 2 ^ (z - 6)) by (apply Z.pow_pos_nonneg; lia).
  assert (Hs : 2 ^ z = 64 * 2 ^ (z - 6)) by (change 64 with (2 ^ 6); rewrite <-Z.pow_add_r by lia; f_equal; lia).
  pose proof (Z.div_mod v (2 ^ (z - 6)) ltac:(lia)). pose proof (Z.mod_pos_bound v (2 ^ (z - 6)) Hp). nia.
Qed.

(** The segments of the 4096 detail archives are valid and at most seven bytes. *)
Lemma detail_segments_valid a b :
  0 <= a < 64 -> 0 <= b < 64 ->
  let segment := "6-" +:+ decimal a +:+ "-" +:+ decimal b in
  valid_segment segment /\ (String.length segment <= 7)%nat /\ ~ str_In slash segment /\
  segment <> "preview" /\ segment <> "preview.json".
Proof.
  intros Ha Hb.
  assert (Hall : forallb (fun i => forallb (fun j =>
      let segment := "6-" +:+ decimal (Z.of_nat i) +:+ "-" +:+ decimal (Z.of_nat j) in
      is_ok (validate_tileset_segment segment) && (String.length segment <=? 7)%nat &&
      negb (String.eqb segment "preview") && negb (String.eqb segment "preview.json")) (seq 0 64)) (seq 0 64) = true)
    by (vm_compute; reflexivity).
  rewrite forallb_forall in Hall. specialize (Hall (Z.to_nat a) ltac:(apply in_seq; lia)).
  rewrite forallb_forall in Hall. specialize (Hall (Z.to_nat b) ltac:(apply in_seq; lia)). cbn beta in Hall.
  rewrite !Z2Nat.id in Hall by lia. apply andb_prop in Hall as [Hall Hp2]. apply andb_prop in Hall as [Hall Hp1].
  apply andb_prop in Hall as [Hv Hl]. apply Nat.leb_le in Hl. intros segment. fold segment in Hv, Hl, Hp1, Hp2.
  assert (valid_segment segment) as Hs by (unfold valid_segment; by destruct (validate_tileset_segment segment) as [[]| |]).
  split; [done|]. split; [done|]. split; [apply (valid_segment_plain _ Hs)|].
  by split; apply String.eqb_neq, negb_true_iff.
Qed.

Lemma flat_id_segment ns : ~ str_In slash ns -> validate_tileset_id ns = Ok tt -> valid_segment ns.
Proof.
  intros Hs. unfold validate_tileset_id. rewrite str_split_no_sep by done. cbn. intros H. res_inv. by destruct a.
Qed.

Lemma join_segment_valid ns segment :
  valid_segment ns -> valid_segment segment -> segment <> "preview" -> segment <> "preview.json" ->
  (String.length ns + 1 + String.length segment <= MAX_TILESET_ID_LEN)%nat ->
  join_segment ns segment = Ok (ns +:+ "/" +:+ segment) /\ valid_tileset (ns +:+ "/" +:+ segment).
Proof.
  intros Hn Hs Hp1 Hp2 Hl.
  assert (Hv : TilesetId_try_new (ns +:+ String slash segment) = Ok (ns +:+ String slash segment)).
  { unfold TilesetId_try_new, validate_tileset_id.
    destruct (valid_segment_plain _ Hn) as (Hne & _ & _ & Hsl & _). destruct (valid_segment_plain _ Hs) as (_ & _ & _ & Hsl' & _).
    rewrite str_split_app, (str_split_no_sep _ segment) by done.
    assert (String.length (ns +:+ String slash segment) = (String.length ns + 1 + String.length segment)%nat) as ->
      by (rewrite str_length_app; cbn; lia).
    assert (String.eqb (ns +:+ String slash segment) "" = false) as -> by (by destruct ns).
    rewrite (proj2 (Nat.leb_le _ _)) by lia. cbn. unfold valid_segment in Hn, Hs. rewrite Hn. cbn. rewrite Hs. cbn.
    by rewrite (proj2 (String.eqb_neq segment "preview")), (proj2 (String.eqb_neq segment "preview.json")) by done. }
  by split.
Qed.

Lemma validate_segment_no_panic s : validate_tileset_segment s <> Panic.
Proof. repeat (apply Res_bind_no_panic; [apply ensure_no_panic|intros ? _]). apply ensure_no_panic. Qed.

Lemma try_new_no_panic t : TilesetId_try_new t <> Panic.
Proof.
  apply Res_bind_no_panic; [|done]. unfold validate_tileset_id.
  repeat (apply Res_bind_no_panic; [apply ensure_no_panic || apply validate_segment_no_panic|intros ? _]).
  case_match; [|done]. apply Res_bind_no_panic; [apply validate_segment_no_panic|intros; apply ensure_no_panic].
Qed.

Lemma parse_uint_range max s v : 0 <= max -> parse_uint max s = Some v -> 0 <= v <= max.
Proof. intros Hm Hp. unfold parse_uint in Hp. repeat case_match; try done; apply parse_digits_range in Hp; lia. Qed.

Lemma TileCoord_new_no_panic z x y : TileCoord_new z x y <> Panic.
Proof. unfold TileCoord_new, ok_or, mbind, Res_bind. by repeat case_match. Qed.

(** What [MapterhornConfig::new] accepts. *)
Lemma MapterhornConfig_new_Ok id_text tileset maxzoom ttl m :
  MapterhornConfig_new id_text tileset maxzoom ttl = Ok m ->
  valid_tileset (mc_tileset m) /\ valid_segment (mc_namespace m).
Proof.
  unfold MapterhornConfig_new. destruct (negb _); [done|]. intros Hm.
  apply Res_bind_Ok in Hm as (t & Ht & Hm). apply Res_bind_Ok in Hm as (ns & Hns & [= <-]). cbn.
  assert (Hid : forall v t', map_err id_text (TilesetId_try_new v) = Ok t' -> t' = v /\ validate_tileset_id v = Ok tt).
  { intros v t'. unfold TilesetId_try_new. destruct (validate_tileset_id v) as [[]| |]; cbn; [|done..].
    by intros [= <-]. }
  apply Hid in Ht as [-> Ht]. apply Hid in Hns as [-> Hns]. split.
  { unfold valid_tileset, TilesetId_try_new. by rewrite Ht. }
  apply flat_id_segment; [|done]. unfold namespace, local_id.
  destruct (valid_id_shape _ Ht) as [Hp Hs _|a b _ Ha _ Hs _]; rewrite Hs; [apply Hp|apply Ha].
Qed.

(** Detail archives of a composite tileset whose namespace leaves room for them. *)
Definition config_ok (id_text : IdError -> string) (m : MapterhornConfig) : Prop :=
  (exists tileset maxzoom ttl, MapterhornConfig_new id_text tileset maxzoom ttl = Ok m) /\
  (String.length (mc_namespace m) <= 248)%nat.

Lemma detail_tileset_ok {E : Type} id_text m z x y :
  config_ok id_text m -> BASE_MAX_ZOOM < z <= MAX_ZOOM -> 0 <= x < 2 ^ z -> 0 <= y < 2 ^ z ->
  let t := mc_namespace m +:+ "/" +:+ detail_segment z x y in
  detail_tileset (E := E) m z x y = Ok t /\ valid_tileset t.
Proof.
  intros ((tileset & maxzoom & ttl & Hm) & Hl) Hz Hx Hy t.
  destruct (MapterhornConfig_new_Ok _ _ _ _ _ Hm) as [_ Hns].
  destruct (detail_segments_valid (ancestor z x) (ancestor z y)) as (Hv & Hs & _ & Hp1 & Hp2); [by apply ancestor_spec..|].
  destruct (join_segment_valid (mc_namespace m) (detail_segment z x y)) as [Hj Ht]; [done..| |].
  { unfold MAX_TILESET_ID_LEN, detail_segment in *. lia. }
  unfold detail_tileset. by rewrite Hj.
Qed.

(** A namespace that leaves no room is accepted, and then a request for a detail
    tile panics. *)
Example long_namespace_panics :
  let tileset := String.concat "" (repeat "a" 250) in
  exists m, MapterhornConfig_new (fun _ => "") tileset 16 0 = Ok m /\
    detail_tileset (E := unit) m 13 8000 3000 = Panic.
Proof. eexists. split; vm_compute; reflexivity. Qed.

(** ** What the endpoint answers *)

Section Facts.
Context {SocketAddr M W : Type}.
Abbreviation St := (TileNode M W).
Abbreviation AppState := (App M W).
Context `{!TileWorld (SocketAddr := SocketAddr) (M := M) (W := W)}.
Context `{!AppWorld (M := M) (W := W)}.
Context (dec : Decoders) (try_reserve_exact : Z -> bool).
Context (metadata_from_json : list Z -> option M) (Metadata_default : M).
Context (format_text : FormatError -> string) (message_text : FetchMessage -> string) (id_text : IdError -> string).
Context (xxhash64 : list HasherWrite -> Z) (self_node_id : string) (router : HrwRouter).
Context (chunk_size : Z) (fuel : nat).
Context (negative_ttl : Z) (peer_tile_cache_policy : PeerTileCachePolicy).
Context `{!MltCore} `{!LayerBuilder} (gzip_encode : bytes -> string + bytes).
Context (xy2h : Z -> Z -> Z -> Z) (mapterhorn : option MapterhornConfig) (max_inflight : Z) (panic_text : string).
Context (archive_of : string -> option bytes) (waits : W -> nat).
Context (Hdec : decoders_ok dec).
Context (Hbytes : forall t a, archive_of t = Some a -> is_bytes a).
Context `{!TileLaws dec try_reserve_exact metadata_from_json Metadata_default archive_of self_node_id waits}.

Abbreviation inv := (inv dec try_reserve_exact metadata_from_json Metadata_default fuel archive_of waits []).
Abbreviation node_ensures := (ensures dec try_reserve_exact metadata_from_json Metadata_default fuel archive_of waits []).
Abbreviation tile_truth := (tile_truth dec try_reserve_exact metadata_from_json Metadata_default archive_of).
Abbreviation header_truth := (header_truth (M := M) dec try_reserve_exact archive_of).
Abbreviation transcode_mlt := (transcode_mlt dec gzip_encode).

(** What the caches of the endpoint may hold about a tileset. *)
Definition presence_truth (t : string) (b : bool) : Prop :=
  if b then exists h, header_truth t h else archive_of t = None.
Definition mlt_truth (t : string) (id : Z) (v : bytes) : Prop :=
  exists tile, tile_truth t id (Some tile) /\ transcode_mlt tile = Ok v.
(** The statuses of a transcoding that failed. *)
Definition transcode_failure (e : HttpError) : Prop :=
  e.1 = INTERNAL_SERVER_ERROR \/ e.1 = BAD_GATEWAY \/ e.1 = SERVICE_UNAVAILABLE.

Record app_inv (a : AppState) : Prop := {
  ai_node : inv (ap_node a);
  ai_presence : forall t entry, ap_presence a !! t = Some entry -> presence_truth t entry.1;
  ai_mlt : forall t id v, valid_tileset t -> ap_mlt a !! (t, id) = Some v -> mlt_truth t id v }.

(** Other tasks keep the state as this one does, and hand over results of the kind
    this one computes ([probe_ensures] and [transcode_admitted_ensures] below). *)
Class AppLaws : Prop := {
  al_others a : app_inv a -> app_inv (ap_others a);
  al_join_presence t a : valid_tileset t -> app_inv a ->
    app_inv (ap_join_presence t a).2 /\
    match (ap_join_presence t a).1 with
    | Some (inr b) => presence_truth t b
    | Some (inl e) => e <> TeMiss
    | None => True
    end;
  al_join_mlt t id a : valid_tileset t -> app_inv a ->
    app_inv (ap_join_mlt (t, id) a).2 /\
    match (ap_join_mlt (t, id) a).1 with
    | Some (inr v) => mlt_truth t id v
    | Some (inl e) => transcode_failure e
    | None => True
    end;
  al_reserve a : app_inv a -> app_inv (ap_reserve a).2;
  al_unreserve a : app_inv a -> app_inv (ap_unreserve a);
  al_acquire a : app_inv a -> app_inv (ap_acquire a).2;
  al_blocking a : app_inv a -> app_inv (ap_blocking a).2 }.
Context `{!AppLaws}.

Definition app_ensures {E A : Type} (c : SM AppState E A) (T : A -> Prop) (X : E -> Prop) : Prop :=
  sm_post app_inv c (fun r a => app_inv a /\ T r) (fun e a => app_inv a /\ X e).

Lemma app_bind {E A B : Type} (c : SM AppState E A) (f : A -> SM AppState E B) T U X :
  app_ensures c T X -> (forall r, T r -> app_ensures (f r) U X) -> app_ensures (c ≫= f) U X.
Proof. intros Hc Hf. eapply sm_post_bind; [exact Hc|]. intros r a [Ha Hr]. by apply (Hf r Hr a). Qed.

Lemma app_ret {E A : Type} (r : A) (T : A -> Prop) (X : E -> Prop) : T r -> app_ensures (mret r) T X.
Proof. intros Hr a Ha. by split. Qed.

Lemma app_lift {E A : Type} (r : Res E A) (T : A -> Prop) (X : E -> Prop) :
  r <> Panic -> (forall v, r = Ok v -> T v) -> (forall e, r = Err e -> X e) -> app_ensures (lift r) T X.
Proof. intros Hp HT HX. apply sm_post_lift; [done|split; auto..]. Qed.

Lemma app_conseq {E A : Type} (c : SM AppState E A) (T T' : A -> Prop) (X X' : E -> Prop) :
  app_ensures c T X -> (forall r, T r -> T' r) -> (forall e, X e -> X' e) -> app_ensures c T' X'.
Proof. intros Hc HT HX. eapply sm_post_conseq; [exact Hc|done|..]; intros ? ? [? ?]; eauto. Qed.

Lemma app_attempt {E F A : Type} (c : SM AppState E A) T X (Y : F -> Prop) :
  app_ensures c T X -> app_ensures (sm_attempt c) (fun r => match r with inr v => T v | inl e => X e end) Y.
Proof. intros Hc a Ha. specialize (Hc a Ha). unfold sm_attempt. by destruct (c a) as [[v|e|] a']. Qed.

Lemma node_call_ensures {E F A : Type} (f : E -> F) (c : SM St E A) T X (Y : F -> Prop) :
  node_ensures c T X -> (forall e, X e -> Y (f e)) -> app_ensures (node_call f c) T Y.
Proof.
  intros Hc HY a Ha. specialize (Hc (ap_node a) (ai_node a Ha)). unfold node_call.
  destruct (c (ap_node a)) as [[v|e|] s]; [| |done]; destruct Hc as [Hs Hv];
    (split; [|by auto]); apply al_others; destruct Ha; by split.
Qed.

Lemma try_get_with_ensures {V E : Type} get join put (init : SM AppState E V) T X :
  (forall a v, app_inv a -> get a = Some v -> T v) ->
  (forall a, app_inv a -> app_inv (join a).2 /\
     match (join a).1 with Some (inr v) => T v | Some (inl e) => X e | None => True end) ->
  (forall a v, app_inv a -> T v -> app_inv (put v a)) ->
  app_ensures init T X -> app_ensures (try_get_with get join put init) T X.
Proof.
  intros Hget Hjoin Hput Hinit a Ha. unfold try_get_with. apply al_others in Ha.
  destruct (get (ap_others a)) as [v|] eqn:Hv; [split; [done|by eapply Hget]|].
  destruct (Hjoin _ Ha) as [Ha' Hj]. destruct (join (ap_others a)) as [[[e|v]|] a']; cbn in *; [by split|by split|].
  specialize (Hinit a' Ha'). destruct (init a') as [[v|e|] a'']; [|done|done].
  destruct Hinit as [Hi Hv']. split; [by apply Hput|done].
Qed.

(** ** Which archive *)

Abbreviation probe := (probe dec try_reserve_exact metadata_from_json Metadata_default format_text
  message_text xxhash64 self_node_id router chunk_size fuel).
Abbreviation resolve_archive := (resolve_archive dec try_reserve_exact metadata_from_json Metadata_default format_text
  message_text xxhash64 self_node_id router chunk_size fuel mapterhorn).

Lemma probe_ensures t : valid_tileset t -> app_ensures (probe t) (presence_truth t) (fun e => e <> TeMiss).
Proof.
  intros Ht. eapply app_bind; [eapply node_call_ensures; [by eapply archive_presence_ensures|done]|].
  intros [] Hp; by apply app_ret.
Qed.

(** The archive that serves a tile: the tileset itself, but above zoom 12 the
    detail archive of the z6 ancestor when it is the composite tileset. *)
Definition serving_archive (t : string) (z x y : Z) : string :=
  match mapterhorn with
  | Some m => if String.eqb t (mc_tileset m) && (BASE_MAX_ZOOM <? z)
              then mc_namespace m +:+ "/" +:+ detail_segment z x y else t
  | None => t
  end.

Context (Hmap : forall m, mapterhorn = Some m -> config_ok id_text m).

Lemma error_response_status e : e <> TeMiss ->
  (tileset_error_response e).1 <> NOT_FOUND /\ (tileset_error_response e).1 <> BAD_REQUEST /\
  (tileset_error_response e).1 <> NOT_ACCEPTABLE.
Proof. by destruct e. Qed.

(** A failure that says nothing about the request or the tile. *)
Definition unavailable (e : HttpError) : Prop :=
  e.1 <> NOT_FOUND /\ e.1 <> BAD_REQUEST /\ e.1 <> NOT_ACCEPTABLE.

Abbreviation detail_of m z x y := (mc_namespace m +:+ "/" +:+ detail_segment z x y).

Definition resolved_truth (m : MapterhornConfig) (z x y : Z) (r : Resolved) : Prop :=
  match r with
  | ResolvedBase b => b = mc_tileset m /\ z <= BASE_MAX_ZOOM
  | ResolvedDetail d => d = detail_of m z x y /\ valid_tileset d /\ BASE_MAX_ZOOM < z
  | ResolvedAbsent => archive_of (detail_of m z x y) = None /\ BASE_MAX_ZOOM < z
  end.

Lemma mapterhorn_resolve_ensures m z x y :
  config_ok id_text m -> 0 <= z <= MAX_ZOOM -> 0 <= x < 2 ^ z -> 0 <= y < 2 ^ z ->
  app_ensures (mapterhorn_resolve dec try_reserve_exact metadata_from_json Metadata_default format_text message_text
                 xxhash64 self_node_id router chunk_size fuel m z x y)
    (resolved_truth m z x y) (fun e => e <> TeMiss).
Proof.
  intros Hm Hz Hx Hy. unfold mapterhorn_resolve. destruct (Z.leb_spec z BASE_MAX_ZOOM) as [Hb|Hb]; [by apply app_ret|].
  destruct (detail_tileset_ok (E := TilesetError) id_text m z x y) as [Hd Hv]; [done|lia|done|done|].
  rewrite Hd. eapply app_bind; [by apply app_lift with (T := fun d => d = detail_of m z x y); [|intros ? [= <-]|]|]. intros d ->.
  eapply app_bind; [apply try_get_with_ensures with (T := presence_truth (detail_of m z x y))|].
  - intros a v Ha. unfold get_presence. intros (entry & He & Hlt)%bind_Some.
    apply (ai_presence a Ha) in He. case_match; [|done]. by injection Hlt as <-.
  - intros a Ha. by apply al_join_presence.
  - intros a v [Hn Hp Hm'] Hv'. split; cbn; [done| |done].
    intros t' entry [[<- <-]|[_ He]]%lookup_insert_Some; [done|by eapply Hp].
  - by apply probe_ensures.
  - intros [] Hp; by apply app_ret.
Qed.

Lemma resolve_archive_ensures t z x y :
  valid_tileset t -> 0 <= z <= MAX_ZOOM -> 0 <= x < 2 ^ z -> 0 <= y < 2 ^ z ->
  app_ensures (resolve_archive t z x y)
    (fun o => match o with
              | Some archive => archive = serving_archive t z x y /\ valid_tileset archive
              | None => archive_of (serving_archive t z x y) = None
              end) unavailable.
Proof.
  intros Ht Hz Hx Hy. unfold PublicTiles.resolve_archive, serving_archive. destruct mapterhorn as [m|]; [|by apply app_ret].
  destruct (String.eqb_spec t (mc_tileset m)) as [->|Hne]; cbn [negb andb]; [|by apply app_ret].
  eapply app_bind; [by eapply app_attempt, mapterhorn_resolve_ensures; [apply Hmap|..]|].
  intros [e|[b|d|]] Hr; cbn in Hr.
  - apply app_lift; [done..|]. intros ? [= <-]. by apply error_response_status.
  - destruct Hr as [-> Hb]. apply app_ret. by rewrite (proj2 (Z.ltb_ge _ _)).
  - destruct Hr as (-> & Hv & Hb). apply app_ret. by rewrite (proj2 (Z.ltb_lt _ _)).
  - destruct Hr as [Ha Hb]. apply app_ret. by rewrite (proj2 (Z.ltb_lt _ _)).
Qed.

(** ** Which bytes *)

Abbreviation transcode_mlt_admitted := (transcode_mlt_admitted (M := M) (W := W) dec gzip_encode max_inflight panic_text).
Abbreviation mlt_response_bytes := (mlt_response_bytes dec gzip_encode max_inflight panic_text).

Lemma transcode_mlt_failure tile e : transcode_mlt tile = Err e -> transcode_failure e.
Proof.
  unfold MltTiles.transcode_mlt, transcode_failure, mbind, Res_bind.
  destruct (decode_mvt_input _ _ _ _) as [raw|[]|]; cbn; [|by intros [= <-]; auto..|done].
  destruct (mvt_to_mlt raw) as [mlt|?|]; cbn; [|by intros [= <-]; auto|done].
  unfold gzip. case_match; [|done]. intros [= <-]. by left.
Qed.

Lemma transcode_admitted_ensures t id tile :
  tile_truth t id (Some tile) -> app_ensures (transcode_mlt_admitted tile) (mlt_truth t id) transcode_failure.
Proof.
  intros Ht a Ha. unfold PublicTiles.transcode_mlt_admitted. apply al_reserve in Ha.
  destruct (ap_reserve a) as [previous a1]. cbn in Ha.
  destruct (reserved max_inflight previous); cbn [negb]; [|split; [by apply al_unreserve|unfold transcode_failure; cbn; auto]].
  apply al_acquire in Ha. destruct (ap_acquire a1) as [[] a2]; cbn [negb];
    [|split; [by apply al_unreserve|unfold transcode_failure; cbn; auto]].
  apply al_blocking in Ha. cbn in Ha. destruct (ap_blocking a2) as [[text|] a3]; cbn in *; [split; [done|by left]|].
  destruct (transcode_mlt tile) as [v|e|] eqn:Hv; (split; [done|]); [by exists tile|by eapply transcode_mlt_failure|by left].
Qed.

Lemma tile_truth_fun t id o o' : tile_truth t id o -> tile_truth t id o' -> o = o'.
Proof. unfold TileArchives.tile_truth. case_match; congruence. Qed.

(** A tile in the representation that is asked for: bytes and encoding. *)
Definition as_mlt (tile : TileData) (served : bytes * option string) : Prop :=
  if is_mlt_tile tile then served = (td_bytes tile, td_content_encoding tile)
  else td_content_type tile = content_type TtMvt /\ transcode_mlt tile = Ok served.1 /\ served.2 = Some "gzip".

Lemma mlt_response_ensures t id tile :
  valid_tileset t -> tile_truth t id (Some tile) ->
  app_ensures (mlt_response_bytes t id tile Retain) (fun served => as_mlt tile served.1)
    (fun e => e.1 = NOT_ACCEPTABLE /\ is_mlt_tile tile = false /\ td_content_type tile <> content_type TtMvt \/
              transcode_failure e).
Proof.
  intros Hv Ht. unfold PublicTiles.mlt_response_bytes, as_mlt. destruct (is_mlt_tile tile) eqn:Hm; [by apply app_ret|].
  destruct (String.eqb_spec (td_content_type tile) (content_type TtMvt)) as [Hc|Hc]; cbn [negb].
  - eapply app_bind with (T := fun v => transcode_mlt tile = Ok v); [|intros v Hv'; by apply app_ret].
    eapply app_conseq with (T := mlt_truth t id) (X := transcode_failure); [| |by right].
    + apply try_get_with_ensures; [| | |by apply transcode_admitted_ensures].
      * intros a v Ha. by apply (ai_mlt a Ha).
      * intros a Ha. by apply al_join_mlt.
      * intros a v [Hn Hp Hmlt] Hv'. split; cbn; [done|done|].
        intros t' id' v'. intros Hvalid [[[= <- <-] <-]|[_ He]]%lookup_insert_Some; [done|by eapply Hmlt].
    + intros v (tile' & Ht' & Hv'). by pose proof (tile_truth_fun _ _ _ _ Ht Ht') as [= <-].
  - apply app_lift; [done..|]. intros ? [= <-]. by left.
Qed.

(** ** The contract *)

Inductive TileRoute := FlatRoute (tileset_id : string) | NamespacedRoute (ns tileset_id : string).
Definition route_tileset (r : TileRoute) : string :=
  match r with FlatRoute t => t | NamespacedRoute ns t => join_tileset_key ns t end.

Abbreviation handle route z x y_raw headers :=
  (match route with
   | FlatRoute t => tile_handler dec try_reserve_exact metadata_from_json Metadata_default format_text message_text id_text
       xxhash64 self_node_id router chunk_size fuel negative_ttl peer_tile_cache_policy gzip_encode xy2h mapterhorn
       max_inflight panic_text t z x y_raw headers
   | NamespacedRoute ns t => namespaced_tile_handler dec try_reserve_exact metadata_from_json Metadata_default format_text
       message_text id_text xxhash64 self_node_id router chunk_size fuel negative_ttl peer_tile_cache_policy gzip_encode
       xy2h mapterhorn max_inflight panic_text ns t z x y_raw headers
   end).

(** The coordinate a request names, when it is well formed. *)
Definition requested (route : TileRoute) (z x : Z) (y : string) : option TileCoord :=
  match parse_uint u32_max y with
  | Some y => if is_ok (TilesetId_try_new (route_tileset route))
              then match TileCoord_new z x y with Ok c => Some c | _ => None end else None
  | None => None
  end.

(** The representation of a tile, with the headers of a public tile. *)
Definition represents_tile (format : RequestedTileFormat) (tile : TileData) (response : HttpResponse) : Prop :=
  match format with
  | AsStored => response = tile_data_response tile
  | Mlt => exists served, as_mlt tile served /\
      response = TilesetResponse_into_response
        {| tr_bytes := served.1; tr_content_type := MLT_CONTENT_TYPE; tr_content_encoding := served.2;
           tr_cache_control := Some cache_TILE |}
  end.

Definition refuses (t : string) (id : Z) (format : RequestedTileFormat) (e : HttpError) : Prop :=
  e.1 <> BAD_REQUEST /\ (e.1 = NOT_FOUND -> tile_truth t id None) /\
  (e.1 = NOT_ACCEPTABLE -> format = Mlt /\ exists tile, tile_truth t id (Some tile) /\
     is_mlt_tile tile = false /\ td_content_type tile <> content_type TtMvt).

Lemma unavailable_refuses t id format e : unavailable e -> refuses t id format e.
Proof. intros (? & ? & ?). by split_and!. Qed.

Abbreviation serve_tile := (serve_tile dec try_reserve_exact metadata_from_json Metadata_default format_text message_text
  id_text xxhash64 self_node_id router chunk_size fuel negative_ttl peer_tile_cache_policy gzip_encode xy2h mapterhorn
  max_inflight panic_text).

Lemma serve_tile_ensures t z x y coord format :
  valid_tileset t -> is_u u8_max z -> 0 <= x -> 0 <= y -> TileCoord_new z x y = Ok coord ->
  let id := TileId_from xy2h coord in
  let archive := serving_archive t z x y in
  app_ensures (serve_tile t z x y format)
    (fun response => exists tile, tile_truth archive id (Some tile) /\ represents_tile format tile response)
    (refuses archive id format).
Proof.
  intros Ht Hz Hx Hy Hc id archive. unfold PublicTiles.serve_tile. rewrite Ht, Hc.
  apply TileCoord_new_Ok in Hc as [-> (Hz' & Hxz & Hyz)]; [|done..]. cbn in Hz', Hxz, Hyz.
  eapply app_bind; [by apply app_lift with (T := fun t' => t' = t); [|intros ? [= <-]|]|]. intros ? ->.
  eapply app_bind; [by apply app_lift with (T := fun c => c = {| tc_z := z; tc_x := x; tc_y := y |}); [|intros ? [= <-]|]|].
  intros ? ->. fold id.
  eapply app_bind; [eapply app_conseq; [by apply resolve_archive_ensures; [|unfold is_u in Hz; lia|..]|done|by apply unavailable_refuses]|].
  fold archive. intros [t'|] Ho; [destruct Ho as [-> Hv]|].
  2: { apply app_lift; [done..|]. intros ? [= <-]. split_and!; [done| |done]. intros _.
       unfold TileArchives.tile_truth. by rewrite Ho. }
  eapply app_bind; [eapply node_call_ensures; [apply rs_route_tile_ensures; [done..|]|]|].
  { unfold id, TileId_from. case_match; [by unfold is_u|apply wrap64_range]. }
  { intros e He. by apply unavailable_refuses, error_response_status. }
  intros [[tile|] source] [Htile _]; cbn [fst] in *.
  2: { apply app_lift; [done..|]. intros ? [= <-]. by split_and!. }
  destruct format; [apply app_ret; by exists tile|].
  eapply app_bind; [eapply app_conseq; [by apply mlt_response_ensures|done|]|].
  - intros e [(He & Hm & Hne)|He].
    + split_and!; rewrite He; [done|done|]. intros _. split; [done|]. by exists tile.
    + by destruct He as [He|[He|He]]; split_and!; rewrite He.
  - intros served Hs. apply app_ret. exists tile. split; [done|]. by exists served.1.
Qed.

End Facts.

(** ** A concrete server

    The node of [Resolver.DemoNode] with its archive as a composite tileset, whose
    detail archives are missing; no other request runs. *)

Module DemoTiles.
Import DemoNode.

#[export] Instance demo_mlt : MltCore :=
  {| OtherKind := unit; OtherValue := unit; other_kind v := v; Geometry := unit |}.
#[export] Instance demo_builder : LayerBuilder :=
  {| Builder := TileLayer; PropertyKey := unit; FeatureBuilder := TileLayer;
     layer_builder name extent := Some {| tl_name := name; tl_extent := extent; tl_property_names := []; tl_features := [] |};
     add_property _ _ _ := None; builder_feature _ b := b; fb_id _ f := f; fb_property _ _ _ := None;
     fb_finish f := Some f; builder_finish b := b; layer_encode _ := Some [];
     mvt_to_tile_layers _ := Some [] |}.

#[export] Instance demo_app_world : AppWorld (M := unit) (W := unit) :=
  {| ap_others a := a; ap_join_presence _ a := (None, a); ap_join_mlt _ a := (None, a); ap_reserve a := (0, a);
     ap_unreserve a := a; ap_acquire a := (true, a); ap_blocking a := (None, a) |}.

Definition demo_composite : MapterhornConfig :=
  {| mc_tileset := "demo"; mc_namespace := "demo"; mc_maxzoom := 16; mc_negative_ttl := nanos_per_sec |}.

Lemma demo_composite_ok m : Some demo_composite = Some m -> config_ok (fun _ => "") m.
Proof.
  intros [= <-]. split; [|by apply Nat.leb_le; vm_compute]. by exists "demo", 16, nanos_per_sec.
Qed.

Definition demo_app : App unit unit := {| ap_node := demo_node; ap_presence := ∅; ap_mlt := ∅ |}.

Abbreviation demo_gzip := (inr : bytes -> string + bytes).
Abbreviation demo_inv := (app_inv no_decoders demo_reserve demo_json tt 1 demo_gzip demo_store (fun _ : unit => 0%nat)).

#[export] Instance demo_app_laws :
  AppLaws no_decoders demo_reserve demo_json tt 1 demo_gzip demo_store (fun _ : unit => 0%nat).
Proof. by split. Qed.

Lemma demo_app_inv : demo_inv demo_app.
Proof. split; [|done|done]. exists 0%nat. split; [lia|apply demo_node_within]. Qed.

Abbreviation demo_get t z x y :=
  (tile_handler no_decoders demo_reserve demo_json tt (fun _ => "") (fun _ => "") (fun _ => "") (fun _ => 0) "a"
     (HrwRouter_new 2 1) 65536 1 nanos_per_sec EntryAndOwner demo_gzip row_major (Some demo_composite) 8 "" t z x y []
     demo_app).

(** The detail archive of the tile is missing. *)
Example demo_no_detail : (demo_get "demo" 13 8000 "3000.webp").1 = Err tile_not_found.
Proof. vm_compute. reflexivity. Qed.

End DemoTiles.
